(* ===== verification/_CoqProject ===== *)
-Q . S2P
Prelude.v
Sort.v
Vector.v
Heap.v
LinkedList.v
Threads.v
Sema.v
SyncMutex.v
SyncRWMutex.v
SyncOnce.v
SyncWaitGroup.v
SyncCond.v
Utf8.v
Io.v
Buffer.v
Utf16.v
Strconv.v
Bufio.v
BufioWriter.v
Base64.v
Binary.v
BigArith.v
BigNat.v
BigMul.v
BigDiv.v
BigBits.v
BigConv.v
BigExp.v
BigInt.v
BigRat.v
CList.v
Buddy.v
BuddyBlocks.v
BuddyState.v
BuddyProofs.v
BuddySetup.v
BuddySpec.v
RbTree.v
RbInsert.v
RbWalk.v
RbDelete.v
RbSpec.v
Vmm.v
VmmState.v
VmmInsert.v
VmmOps.v
VmmUnmap.v
VmmBrk.v
VmmSpec.v
CRings.v
Sched.v
SchedState.v
SchedProofs.v
SchedTimers.v
SchedSpec.v
