(* ===== verification/Prelude.v ===== *)
(** Verification of parts of the Go library and runtime, and of the ucore kernel,
    of this repository.

    The repository holds a Go distribution (src/go) for the ucore operating
    system, and that system (src/ucore).  The development models library
    packages of src/go/src/pkg and components of the kernel as functions and step
    relations, translated from the source declaration by declaration, and proves
    what makes them correct.

    * Parts

    - Containers.  [Sort] (sort/sort.go, search.go), [Vector]
      (container/vector), [Heap] (container/heap) and [LinkedList]
      (container/list).  sort.Interface and heap.Interface are type classes with
      laws; the theorems are proved against them, and the vectors of package
      vector are shown to be heap collections.
    - Concurrency.  [Threads] (interleaving and counting), [Sema] (the runtime's
      semaphores, runtime/sema.goc), [SyncMutex], [SyncRWMutex], [SyncOnce],
      [SyncWaitGroup] and [SyncCond] (sync/mutex.go, rwmutex.go, once.go,
      waitgroup.go, cond.go).  Mutex builds on the contract of the semaphores,
      which Sema shows the runtime's queues of waiters to refine; the others build
      on the interface [Lock] with its laws [LockLaws], which SyncMutex proves of
      Mutex (Cond on two of them, its own mutex and the Locker of its clients).
    - Text and encodings.  [Utf8] (utf8/utf8.go and string.go, with the
      runtime's decoder for range loops), [Utf16] (utf16/utf16.go), [Strconv]
      (strconv/atoi.go, itoa.go, atob.go), [Base64] (encoding/base64/base64.go)
      and [Binary] (encoding/binary/binary.go, the byte orders).
    - Input and output.  [Io] (io/io.go: the interfaces Reader and Writer as
      type classes with their contracts, and the copying functions), [Buffer]
      (bytes/buffer.go), [Bufio] and [BufioWriter] (bufio/bufio.go).  The buffered
      reader and writer are proved against the contracts of Io, and are shown to
      keep them.  Beyond the comments of io.go, the contract of Reader has a reader
      deliver a finite stream and return no error only a bounded number of times.
    - Big numbers (package big).  [BigArith] (arith.go: vectors of words, and
      the interface [Arith] of the assembly versions), then nat.go in [BigNat]
      (representation, addition, subtraction), [BigMul] (schoolbook and
      Karatsuba multiplication), [BigDiv] (Knuth's algorithm D), [BigBits]
      (shifts, bits, bytes), [BigConv] (text) and [BigExp] (powers); [BigInt]
      (int.go) and [BigRat] (rat.go) build on them.
    - Kernel lists and trees.  [CList] (supervisor/libs/list.h) and [CRings] (many
      lists in one heap); [RbTree] (kern-ucore/libs/rb_tree.c), with the proofs
      in [RbInsert], [RbWalk], [RbDelete] and the theorem in [RbSpec].
    - Kernel memory.  [Buddy] (supervisor/mm/buddy_pmm.c), on the lists of CList;
      its proofs go from maps of blocks ([BuddyBlocks]) over the states that
      represent them ([BuddyState]) to the functions ([BuddyProofs],
      [BuddySetup]) and the theorem ([BuddySpec]).  [Vmm] (kern-ucore/mm/vmm.c: the
      areas of an address space in a list, a red-black tree and a cache), on
      CList and RbTree; states and search in [VmmState], insertion and removal in
      [VmmInsert], regions and the calls on them in [VmmOps], [VmmUnmap] and
      [VmmBrk], theorems in [VmmSpec].
    - Kernel scheduling.  [Sched] (kern-ucore/schedule/sched.c, sched_MLFQ.c,
      sched_RR.c: run queues and timers), on CRings; the abstract scheduler and
      the queues in [SchedState], wakeup_proc and schedule in [SchedProofs],
      timers in [SchedTimers], theorems in [SchedSpec].

    * How the code is modelled

    Code that runs alone is a function into [outcome]: a value, a panic, or an
    exhausted bound of a loop.  A method that changes its receiver returns the
    new receiver.  Slices are lists indexed by [Z], out of range access is a
    panic; int is 32 bits wide and wraps ([int]), a word of package big is 64
    bits wide, bytes are integers below 256.  Memory that is shared between
    values is a store of locations where the code depends on sharing
    (LinkedList, the queues of Sema, and all of the kernel), and the buffer that
    Karatsuba's algorithm works in is one list that is written in place.  The
    structures of the kernel are in heaps indexed by address, with the list entries
    and tree nodes embedded in them in heaps of their own; a failed assert and an
    access to memory that is not there are a panic, and kmalloc is an argument.
    Concurrent code is a step function per method, from one access of shared
    memory to the next; a configuration is the shared memory and the goroutines'
    program counters, and every interleaving is a path of the step relation.
    Memory is sequentially consistent.  The kernel's code runs with its lock held
    or with interrupts disabled, and is modelled as running alone; the scheduler is
    that of one processor.

    A for loop is [loop] with a bound on its iterations, computed from the
    arguments or the state (the length of a slice, the bits of a number, the size of
    a heap of list entries), and the recursion of Sort has the bound its depth
    reaches.  The theorems have the form [returns], or an equation with [Done]:
    they include that the bound is never reached and that nothing panics.

    * What is proved

    - Sorting, searching and the containers: Sort leaves a sorted permutation,
      Search finds the first index; vectors, heaps and lists refine sequences,
      priority queues and families of sequences for every sequence of
      operations.
    - Semaphores: the implementation refines the atomic specification and loses
      no wakeup.  Mutex refines a lock held by one goroutine and can always be
      acquired when it is free; RWMutex excludes, and does not deadlock; Once
      runs its function once; WaitGroup makes Wait wait for the units that were
      added, and wakes every waiter; Cond refines a count of the goroutines that
      wait and of the wake-ups under way, gives a wake-up only to a goroutine that
      waited when it was sent, and loses none.
    - Encodings: round trips for UTF-8, UTF-16, base64 and numbers, exactness of
      the UTF-8 decoder, the documented results of the number parsers with the
      strings on which they depart from them, the errors of the base64 decoder, the independence of the stream encoder from the way its input is
      divided, and the refinement of a list of runes by utf8.String.
    - Input and output: Buffer refines a queue of bytes; a buffered reader is the
      stream of the reader below it, whatever the sizes of its answers, and
      terminates; a buffered writer has passed on or still holds exactly what it
      accepted, and has passed on everything after a Flush without error; a copy
      from one to the other moves the stream.
    - Big numbers: every operation computes the operation on the integers or
      rationals it stands for, in normal form, whatever the storage it reuses;
      conversions invert each other.
    - The kernel: for every sequence of calls, a red-black tree refines a sorted
      sequence, with loops of logarithmic length; the buddy allocator refines a
      set of free pages; an address space of private areas refines an ordered
      list of regions, and leaves no area behind; the scheduler refines four
      queues of processes and a list of ending times, loses no process, and a sleep
      takes exactly its ticks.

    Some theorems and lemmas record where the code departs from its comments or
    its purpose: heaps beyond 2^30 elements, list elements removed through another
    list or after Init, setBit into reused storage, AndNot on operands of different
    sign, Exp with an exponent below one, RuneCountInString on runes above
    unicode.MaxRune, invalid digits after an overflow, a WaitGroup that is used
    again too early, bytes and runes that are unread in Buffer and bufio, a buffer
    too small for ReadRune, ranges of memory that wrap around, and the split of an
    area of shared memory.

    * What is not modelled

    Of src/go: floating point (Float64Slice, atof), reflection (binary.Read and
    Write, fmt, big's Format and the Scan of Rat), random numbers (Rand, ProbablyPrime), the
    sharing of storage between a destination and an operand in package big,
    base64's stream decoder, io's pipes and multi readers, strconv's quoting;
    of the runtime everything but the semaphores and the decoding of
    strings (the scheduler's gosched and ready and the root's lock appear in Sema by
    their contract); the other packages, the compilers and tools.  Of src/ucore:
    what works on page tables, interrupts, devices and the processor's state
    (page faults, swapping, copying between address spaces, context switches,
    drivers), the slab allocator, file systems and user programs; in the
    modelled files, the locks, dup_mmap and exit_mmap, the copies to and from user
    memory, the statistics of the scheduler, and the kernel's own test functions.

    * This file

    - [outcome]: the result of running Go code, its monad, the total-correctness
      judgement [returns] and the rules that drive proofs about it.
    - [loop]: the Go [for] statement, with one invariant-and-measure rule
      shared by every loop of the development.
    - Z-indexed slice access ([idx], [set_idx], [slice]) and the lemmas on it.
    - machine integers: wrap-around at a given width; string literals; the
      value of a string of digits. *)

From Stdlib Require Export ZArith Lia.
From Stdlib Require Ascii String.
From stdpp Require Export base list numbers.
Export String.StringSyntax.

#[global] Open Scope Z_scope.

Declare Scope go_scope.
Delimit Scope go_scope with go.
#[global] Open Scope go_scope.

(** * Outcomes of Go code *)

Inductive outcome (A : Type) : Type :=
| Done (a : A)
| Panic
| OutOfFuel.
Arguments Done {A} a.
Arguments Panic {A}.
Arguments OutOfFuel {A}.

#[export] Instance outcome_ret : MRet outcome := fun A a => Done a.

#[export] Instance outcome_bind : MBind outcome := fun A B k m =>
  match m with
  | Done a => k a
  | Panic => Panic
  | OutOfFuel => OutOfFuel
  end.

#[export] Instance outcome_fmap : FMap outcome := fun A B f m =>
  match m with
  | Done a => Done (f a)
  | Panic => Panic
  | OutOfFuel => OutOfFuel
  end.

Definition of_option {A} (o : option A) : outcome A :=
  match o with Some a => Done a | None => Panic end.

(** [returns m Q]: the code [m] terminates without a panic, and its value
    satisfies [Q]. *)
Definition returns {A} (m : outcome A) (Q : A -> Prop) : Prop :=
  exists a, m = Done a /\ Q a.

(** * The Go [for] loop

    [body s] is one iteration from the loop variables [s]: [inl s'] goes on
    with [s'], [inr r] leaves the loop with [r]. *)
Fixpoint loop {S R} (fuel : nat) (body : S -> outcome (S + R)) (s : S) : outcome R :=
  match fuel with
  | O => OutOfFuel
  | Datatypes.S fuel' =>
      r ← body s;
      match r with
      | inl s' => loop fuel' body s'
      | inr v => Done v
      end
  end.

(** [for (j = i; j < i + n; j ++) s = body j s]. *)
Fixpoint for_range {S} (n : nat) (i : Z) (body : Z -> S -> outcome S) (s : S) : outcome S :=
  match n with
  | O => Done s
  | Datatypes.S n => s ← body i s; for_range n (i + 1)%Z body s
  end.

(** The assert of the C code. *)
Definition assert_ (P : Prop) `{Decision P} : outcome unit := if decide P then Done tt else Panic.

Lemma assert_ok (P : Prop) `{Decision P} : P -> assert_ P = Done tt.
Proof. intros HP. unfold assert_. by rewrite decide_True. Qed.

Section Rules.
Context {A B : Type}.
Implicit Types (m : outcome A) (k : A -> outcome B).

Lemma returns_done (a : A) (Q : A -> Prop) : Q a -> returns (Done a) Q.
Proof. exists a; done. Qed.

Lemma returns_ret (a : A) (Q : A -> Prop) : Q a -> returns (mret a) Q.
Proof. exists a; done. Qed.

Lemma returns_bind m k (P : A -> Prop) (Q : B -> Prop) :
  returns m P -> (forall a, P a -> returns (k a) Q) -> returns (m ≫= k) Q.
Proof. intros (a & -> & Ha) Hk. exact (Hk a Ha). Qed.

Lemma returns_mono m (P Q : A -> Prop) :
  returns m P -> (forall a, P a -> Q a) -> returns m Q.
Proof. intros (a & -> & Ha) HPQ. exists a; auto. Qed.

Lemma returns_and m (P Q : A -> Prop) :
  returns m P -> returns m Q -> returns m (fun a => P a /\ Q a).
Proof. intros (a & -> & Ha) (b & Hb & Hq). simplify_eq. exists b; auto. Qed.

Lemma returns_inv (a : A) (Q : A -> Prop) : returns (Done a) Q -> Q a.
Proof. intros (b & Hb & HQ). by simplify_eq. Qed.
End Rules.

(** The invariant rule: from a state that satisfies [I], every iteration
    either re-establishes [I] and decreases the measure, or leaves with [Q]. *)
Lemma loop_returns {S R} (I : S -> Prop) (mu : S -> nat) (Q : R -> Prop)
    (body : S -> outcome (S + R)) (fuel : nat) (s : S) :
  (forall s, I s ->
     returns (body s) (fun r =>
       match r with
       | inl s' => I s' /\ (mu s' < mu s)%nat
       | inr v => Q v
       end)) ->
  I s -> (mu s < fuel)%nat -> returns (loop fuel body s) Q.
Proof.
  intros Hbody. revert s.
  induction fuel as [|fuel IH]; intros s HI Hmu; [lia|].
  simpl. eapply returns_bind; [by apply Hbody|].
  intros [s'|v]; [|by apply returns_done].
  intros [HI' Hlt]. apply IH; [done|lia].
Qed.

(** The same when the measure is not a function of the state: [I n s] says that [n]
    bounds the iterations from [s]. *)
Lemma loop_returns_le {S R} (I : nat -> S -> Prop) (Q : R -> Prop) (body : S -> outcome (S + R)) (fuel n : nat) (s : S) :
  (forall n s, I n s ->
     returns (body s) (fun r =>
       match r with
       | inl s' => exists n', I n' s' /\ (n' < n)%nat
       | inr v => Q v
       end)) ->
  I n s -> (n < fuel)%nat -> returns (loop fuel body s) Q.
Proof.
  intros Hbody. revert n s.
  induction fuel as [|fuel IH]; intros n s HI Hn; [lia|].
  simpl. eapply returns_bind; [by apply (Hbody n)|].
  intros [s'|v]; [|by apply returns_done].
  intros (n' & HI' & Hlt). apply (IH n'); [done|lia].
Qed.

Lemma for_range_returns {S} (I : Z -> S -> Prop) (Q : S -> Prop) (body : Z -> S -> outcome S) n i s :
  I i s -> (forall j s, (i <= j < i + Z.of_nat n)%Z -> I j s -> returns (body j s) (I (j + 1)%Z)) ->
  (forall s, I (i + Z.of_nat n)%Z s -> Q s) -> returns (for_range n i body s) Q.
Proof.
  revert i s. induction n as [|n IH]; intros i s HI Hbody HQ; simpl; [apply returns_done, HQ; by rewrite Z.add_0_r|].
  eapply returns_bind; [apply Hbody; [lia|done]|]. intros s' HI'. apply IH; [done| |].
  - intros j s1 Hj. apply Hbody. lia.
  - intros s1 Hs1. apply HQ. by replace (i + Z.of_nat (Datatypes.S n))%Z with (i + 1 + Z.of_nat n)%Z by lia.
Qed.

(** More fuel than enough does not change the result of a loop. *)
Lemma loop_fuel_mono {S R} (body : S -> outcome (S + R)) fuel fuel' s r :
  loop fuel body s = Done r -> (fuel <= fuel')%nat -> loop fuel' body s = Done r.
Proof.
  revert fuel' s. induction fuel as [|fuel IH]; intros fuel' s Hl Hle; [done|].
  destruct fuel' as [|fuel']; [lia|]. simpl in *.
  destruct (body s) as [[s'|v]| |]; simpl in *; try done.
  apply IH; [done|lia].
Qed.

(** * Slices

    A Go slice is a list; an index is an [int], hence possibly negative or
    too large, in which case Go panics. *)
Definition zlookup {A} (l : list A) (i : Z) : option A :=
  if 0 <=? i then l !! Z.to_nat i else None.
Notation "l .[ i ]" := (zlookup l i) (at level 1, left associativity, format "l .[ i ]") : go_scope.

Definition zlen {A} (l : list A) : Z := Z.of_nat (length l).

(** [l[i]] as an rvalue. *)
Definition idx {A} (l : list A) (i : Z) : outcome A := of_option l.[i].

(** [l[i] = v]. *)
Definition set_idx {A} (l : list A) (i : Z) (v : A) : outcome (list A) :=
  if (0 <=? i) && (i <? zlen l) then Done (<[Z.to_nat i:=v]> l) else Panic.

(** [l[lo:hi]], for a slice whose capacity is its length. *)
Definition slice {A} (l : list A) (lo hi : Z) : outcome (list A) :=
  if (0 <=? lo) && (lo <=? hi) && (hi <=? zlen l)
  then Done (take (Z.to_nat (hi - lo)) (drop (Z.to_nat lo) l)) else Panic.

(** [p[i], p[j] = p[j], p[i]]. *)
Definition swap_idx {A} (l : list A) (i j : Z) : outcome (list A) :=
  x ← idx l i; y ← idx l j;
  l1 ← set_idx l i y; set_idx l1 j x.

(** The swap as a total function, for statements. *)
Definition zswap {A} (l : list A) (i j : Z) : list A :=
  match l.[i], l.[j] with
  | Some x, Some y => <[Z.to_nat j:=x]> (<[Z.to_nat i:=y]> l)
  | _, _ => l
  end.

(** * Arithmetic helpers *)

(** [lia] after eliminating division and remainder of both kinds. *)
Ltac zlia := Z.to_euclidean_division_equations; lia.

(** Normal form for boolean comparisons of the modelled code. *)
Ltac bool_to_prop :=
  repeat match goal with
  | H : context [negb _ = true] |- _ => rewrite negb_true_iff in H
  | H : context [negb _ = false] |- _ => rewrite negb_false_iff in H
  | H : (_ && _) = true |- _ => apply andb_prop in H; destruct H
  | H : (_ && _) = false |- _ => apply andb_false_iff in H
  | H : (_ || _) = true |- _ => apply orb_prop in H
  | H : (_ || _) = false |- _ => apply orb_false_elim in H; destruct H
  | H : (_ <? _) = true |- _ => apply Z.ltb_lt in H
  | H : (_ <? _) = false |- _ => apply Z.ltb_ge in H
  | H : (_ <=? _) = true |- _ => apply Z.leb_le in H
  | H : (_ <=? _) = false |- _ => apply Z.leb_gt in H
  | H : (_ =? _) = true |- _ => apply Z.eqb_eq in H
  | H : (_ =? _) = false |- _ => apply Z.eqb_neq in H
  | H : context [(_ <? _) = true] |- _ => rewrite Z.ltb_lt in H
  | H : context [(_ <? _) = false] |- _ => rewrite Z.ltb_ge in H
  | H : context [(_ <=? _) = true] |- _ => rewrite Z.leb_le in H
  | H : context [(_ <=? _) = false] |- _ => rewrite Z.leb_gt in H
  | H : context [(_ =? _) = true] |- _ => rewrite Z.eqb_eq in H
  | H : context [(_ =? _) = false] |- _ => rewrite Z.eqb_neq in H
  end.

(** Case split on an innermost boolean test of the goal, as propositions. *)
Ltac case_bool :=
  match goal with
  | |- context [if ?b then _ else _] =>
      lazymatch b with
      | context [if _ then _ else _] => fail
      | _ => let E := fresh "E" in destruct b eqn:E; bool_to_prop
      end
  end.

(** Prove [b = true] or [b = false] for a comparison and rewrite with it. *)
Ltac bool_decide_goal :=
  repeat match goal with
  | |- context [?a <? ?b] =>
      first [ rewrite (proj2 (Z.ltb_lt a b)) by lia | rewrite (proj2 (Z.ltb_ge a b)) by lia ]
  | |- context [?a <=? ?b] =>
      first [ rewrite (proj2 (Z.leb_le a b)) by lia | rewrite (proj2 (Z.leb_gt a b)) by lia ]
  | |- context [?a =? ?b] =>
      first [ rewrite (proj2 (Z.eqb_eq a b)) by lia | rewrite (proj2 (Z.eqb_neq a b)) by lia ]
  end.

(** * Lemmas on slices *)

Section Slices.
Context {A : Type}.
Implicit Types (l : list A) (i j k : Z) (x y : A).

Lemma zlen_nonneg l : 0 <= zlen l.
Proof. unfold zlen; lia. Qed.

Lemma zlookup_Some_lt l i x : l.[i] = Some x -> 0 <= i < zlen l.
Proof.
  unfold zlookup, zlen. case_bool; [|done].
  intros Hx%lookup_lt_Some. lia.
Qed.

Lemma zlookup_lt l i : 0 <= i < zlen l -> exists x, l.[i] = Some x.
Proof.
  unfold zlookup, zlen. intros Hi. bool_decide_goal.
  apply lookup_lt_is_Some_2. lia.
Qed.

Lemma zlookup_nonneg l i : 0 <= i -> l.[i] = l !! Z.to_nat i.
Proof. intros. unfold zlookup. by bool_decide_goal. Qed.

Lemma zlookup_nat l (n : nat) : l.[Z.of_nat n] = l !! n.
Proof. rewrite zlookup_nonneg by lia. by rewrite Nat2Z.id. Qed.

Lemma zlookup_elem l i x : l.[i] = Some x -> x ∈ l.
Proof.
  unfold zlookup. case_bool; [|done]. intros. by eapply list_elem_of_lookup_2.
Qed.

Lemma zlen_insert l n x : zlen (<[n:=x]> l) = zlen l.
Proof. unfold zlen. by rewrite length_insert. Qed.

Lemma zlookup_insert l i k x :
  0 <= i < zlen l ->
  zlookup (<[Z.to_nat i:=x]> l) k = if i =? k then Some x else l.[k].
Proof.
  intros Hi. unfold zlookup, zlen in *.
  destruct (Z.eqb_spec i k) as [->|Hne].
  - bool_decide_goal. apply list_lookup_insert_eq. lia.
  - case_bool; [|done]. apply list_lookup_insert_ne. lia.
Qed.

Lemma idx_returns l i (Q : A -> Prop) :
  (exists x, l.[i] = Some x /\ Q x) -> returns (idx l i) Q.
Proof. intros (x & Hx & HQ). exists x. unfold idx. by rewrite Hx. Qed.

Lemma idx_done l i x : l.[i] = Some x -> idx l i = Done x.
Proof. unfold idx. by intros ->. Qed.

Lemma set_idx_done l i x :
  0 <= i < zlen l -> set_idx l i x = Done (<[Z.to_nat i:=x]> l).
Proof. intros. unfold set_idx. by bool_decide_goal. Qed.

Lemma slice_done l lo hi :
  0 <= lo <= hi -> hi <= zlen l ->
  slice l lo hi = Done (take (Z.to_nat (hi - lo)) (drop (Z.to_nat lo) l)).
Proof. intros. unfold slice. by bool_decide_goal. Qed.

Lemma zlen_zswap l i j : zlen (zswap l i j) = zlen l.
Proof.
  unfold zswap. destruct l.[i], l.[j]; rewrite ?zlen_insert; done.
Qed.

Lemma zlookup_zswap l i j k :
  0 <= i < zlen l -> 0 <= j < zlen l ->
  zlookup (zswap l i j) k = if j =? k then l.[i] else if i =? k then l.[j] else l.[k].
Proof.
  intros Hi Hj. unfold zswap.
  destruct (zlookup_lt l i Hi) as [x ->], (zlookup_lt l j Hj) as [y ->].
  rewrite zlookup_insert by (rewrite zlen_insert; lia).
  by rewrite zlookup_insert.
Qed.

Lemma swap_idx_done l i j :
  0 <= i < zlen l -> 0 <= j < zlen l -> swap_idx l i j = Done (zswap l i j).
Proof.
  intros Hi Hj. unfold swap_idx, zswap, idx.
  destruct (zlookup_lt l i Hi) as [x ->], (zlookup_lt l j Hj) as [y ->]. simpl.
  rewrite set_idx_done by done. simpl.
  by rewrite set_idx_done by by rewrite zlen_insert.
Qed.

Lemma zswap_permutation l i j : zswap l i j ≡ₚ l.
Proof.
  unfold zswap, zlookup.
  destruct (Z.leb_spec 0 i); [|done].
  destruct (l !! Z.to_nat i) as [x|] eqn:Hx; [|done].
  destruct (Z.leb_spec 0 j); [|done].
  destruct (l !! Z.to_nat j) as [y|] eqn:Hy; [|done].
  destruct (decide (Z.to_nat i = Z.to_nat j)) as [e|Hne].
  - rewrite e in *. simplify_eq. rewrite list_insert_insert_eq. by rewrite list_insert_id.
  - apply Permutation_inj. split.
    { by rewrite !length_insert. }
    set (f := fun n : nat => if decide (n = Z.to_nat i) then Z.to_nat j
                 else if decide (n = Z.to_nat j) then Z.to_nat i else n).
    exists f. split.
    + intros a b. unfold f. repeat case_decide; naive_solver lia.
    + intros n. unfold f. pose proof (lookup_lt_Some _ _ _ Hx).
      pose proof (lookup_lt_Some _ _ _ Hy).
      repeat case_decide; subst.
      * rewrite list_lookup_insert_ne by done. rewrite list_lookup_insert_eq; [done|lia].
      * rewrite list_lookup_insert_eq; [done|]. by rewrite length_insert.
      * by rewrite !list_lookup_insert_ne by done.
Qed.

Lemma zlookup_oob l i : ~ 0 <= i < zlen l -> l.[i] = None.
Proof.
  intros Hi. unfold zlookup, zlen in *. case_bool; [|done].
  apply lookup_ge_None_2. lia.
Qed.

Lemma zlen_app l1 l2 : zlen (l1 ++ l2) = zlen l1 + zlen l2.
Proof. unfold zlen. rewrite length_app. lia. Qed.

Lemma zlen_cons x l : zlen (x :: l) = 1 + zlen l.
Proof. unfold zlen. simpl. lia. Qed.

Lemma zlen_nil : zlen (@nil A) = 0.
Proof. done. Qed.

Lemma zlen_take l (n : nat) : zlen (take n l) = Z.min (Z.of_nat n) (zlen l).
Proof. unfold zlen. rewrite length_take. lia. Qed.

Lemma zlen_drop l (n : nat) : zlen (drop n l) = Z.max 0 (zlen l - Z.of_nat n).
Proof. unfold zlen. rewrite length_drop. lia. Qed.

Lemma zlen_replicate (n : nat) x : zlen (replicate n x) = Z.of_nat n.
Proof. unfold zlen. by rewrite length_replicate. Qed.

Lemma zlookup_app l1 l2 i :
  (l1 ++ l2).[i] = if i <? zlen l1 then l1.[i] else l2.[i - zlen l1].
Proof.
  unfold zlen. case_bool.
  - unfold zlookup. case_bool; [|done]. apply lookup_app_l. lia.
  - rewrite !zlookup_nonneg by lia. rewrite lookup_app_r by lia. f_equal. lia.
Qed.

Lemma zlookup_cons x l i :
  (x :: l).[i] = if i =? 0 then Some x else l.[i - 1].
Proof.
  destruct (Z.eqb_spec i 0) as [->|]; [done|]. unfold zlookup.
  repeat case_bool; try lia; [|done].
  by replace (Z.to_nat i) with (S (Z.to_nat (i - 1))) by lia.
Qed.

Lemma zlookup_nil i : (@nil A).[i] = None.
Proof. unfold zlookup. by case_bool. Qed.

Lemma zlookup_take l (n : nat) i :
  (take n l).[i] = if i <? Z.of_nat n then l.[i] else None.
Proof.
  unfold zlookup. repeat case_bool; try done; [apply lookup_take_lt; lia|].
  apply lookup_take_ge. lia.
Qed.

Lemma zlookup_drop l (n : nat) i :
  (drop n l).[i] = if 0 <=? i then l.[i + Z.of_nat n] else None.
Proof.
  unfold zlookup. repeat case_bool; try done; try lia. rewrite lookup_drop. f_equal. lia.
Qed.

Lemma zlookup_replicate (n : nat) x i :
  (replicate n x).[i] = if (0 <=? i) && (i <? Z.of_nat n) then Some x else None.
Proof.
  case_bool; [|apply zlookup_oob; rewrite zlen_replicate; lia].
  rewrite zlookup_nonneg by lia. apply lookup_replicate_2. lia.
Qed.

Lemma list_eq_zlookup l1 l2 :
  zlen l1 = zlen l2 ->
  (forall k, 0 <= k < zlen l1 -> l1.[k] = l2.[k]) -> l1 = l2.
Proof.
  intros Hlen Hk. apply list_eq_same_length with (length l1); unfold zlen in *; [lia|done|].
  intros i x y Hi Hx Hy. specialize (Hk (Z.of_nat i) ltac:(lia)).
  rewrite !zlookup_nat in Hk. congruence.
Qed.
End Slices.

(** Access at the seam of two parts of a slice. *)

Lemma zlen_to_nat {A} (l : list A) : Z.to_nat (zlen l) = length l.
Proof. apply Nat2Z.id. Qed.

Lemma zlookup_at {A} (x : list A) b y : (x ++ b :: y).[zlen x] = Some b.
Proof. rewrite zlookup_app, Z.sub_diag. bool_decide_goal. done. Qed.

Lemma last_at {A} (x : list A) b : (x ++ [b]).[zlen (x ++ [b]) - 1] = Some b.
Proof. rewrite zlen_app, zlen_cons, zlen_nil. replace (zlen x + (1 + 0) - 1) with (zlen x) by lia. apply zlookup_at. Qed.

Lemma slice_suffix {A} (x y : list A) : slice (x ++ y) (zlen x) (zlen (x ++ y)) = Done y.
Proof.
  pose proof (zlen_nonneg x). pose proof (zlen_nonneg y). rewrite slice_done by (rewrite zlen_app; lia). f_equal.
  rewrite zlen_to_nat, drop_app_length, zlen_app. replace (zlen x + zlen y - zlen x) with (zlen y) by lia. rewrite zlen_to_nat. apply firstn_all.
Qed.

Lemma Forall_zlookup {A} (P : A -> Prop) l i x : Forall P l -> l.[i] = Some x -> P x.
Proof. intros Hl Hi. apply zlookup_elem in Hi. by eapply list.Forall_forall in Hi. Qed.

Lemma zlen_pos {A} (l : list A) : l <> [] -> 1 <= zlen l.
Proof. destruct l; [done|]. intros _. rewrite zlen_cons. pose proof (zlen_nonneg l). lia. Qed.

Lemma snoc_app {A} (l1 : list A) x l2 : l1 ++ x :: l2 = (l1 ++ [x]) ++ l2.
Proof. by rewrite <- app_assoc. Qed.

Lemma slice_prefix {A} (x y : list A) : slice (x ++ y) 0 (zlen x) = Done x.
Proof.
  pose proof (zlen_nonneg x). pose proof (zlen_nonneg y). rewrite slice_done by (rewrite ?zlen_app; lia). f_equal.
  change (Z.to_nat 0) with 0%nat. rewrite drop_0, Z.sub_0_r, zlen_to_nat. apply take_app_length.
Qed.

Lemma slice_mid {A} (a x c : list A) : slice (a ++ x ++ c) (zlen a) (zlen a + zlen x) = Done x.
Proof.
  pose proof (zlen_nonneg a). pose proof (zlen_nonneg x). pose proof (zlen_nonneg c).
  rewrite slice_done by (rewrite ?zlen_app; lia). by rewrite Z.add_simpl_l, !zlen_to_nat, drop_app_length, take_app_length.
Qed.

Lemma set_idx_at {A} (out : list A) x rest v : set_idx (out ++ x :: rest) (zlen out) v = Done (out ++ v :: rest).
Proof.
  pose proof (zlen_nonneg out). pose proof (zlen_nonneg rest). rewrite set_idx_done by (rewrite zlen_app, zlen_cons; lia).
  by rewrite zlen_to_nat, insert_app_r_alt, Nat.sub_diag by lia.
Qed.

(** * Machine integers *)

Definition wrap (w x : Z) : Z := x mod 2 ^ w.

(** Two's complement: the representative in [-2^(w-1), 2^(w-1)). *)
Definition swrap (w x : Z) : Z := (x + 2 ^ (w - 1)) mod 2 ^ w - 2 ^ (w - 1).

Definition byte (x : Z) : Z := wrap 8 x.
Definition is_byte (b : Z) : Prop := 0 <= b < 256.

Lemma byte_is_byte x : is_byte (byte x).
Proof. unfold is_byte, byte, wrap. apply (Z.mod_pos_bound x 256). lia. Qed.

Lemma byte_small x : is_byte x -> byte x = x.
Proof. apply (Z.mod_small x 256). Qed.

Lemma wrap_small w x : 0 <= x < 2 ^ w -> wrap w x = x.
Proof. intros. by apply Z.mod_small. Qed.

Lemma wrap_range w x : 0 <= w -> 0 <= wrap w x < 2 ^ w.
Proof. intros. apply Z.mod_pos_bound. by apply Z.pow_pos_nonneg. Qed.

Lemma swrap_small w x : 0 < w -> - 2 ^ (w - 1) <= x < 2 ^ (w - 1) -> swrap w x = x.
Proof.
  intros Hw Hx. unfold swrap.
  assert (2 ^ w = 2 * 2 ^ (w - 1)).
  { rewrite <- Z.pow_succ_r by lia. f_equal; lia. }
  rewrite Z.mod_small; lia.
Qed.

(** [int] is 32 bits wide in this compiler. *)
Definition int (x : Z) : Z := swrap 32 x.

Lemma int_small x : - 2 ^ 31 <= x < 2 ^ 31 -> int x = x.
Proof. intros. by apply swrap_small. Qed.

Lemma int_range x : int x < 2 ^ 31.
Proof.
  unfold int, swrap. pose proof (Z.mod_pos_bound (x + 2 ^ (32 - 1)) (2 ^ 32)).
  change (2 ^ (32 - 1)) with (2 ^ 31) in *. lia.
Qed.

(** The other integer types. *)
Definition uint (x : Z) : Z := wrap 32 x.
Definition uint64 (x : Z) : Z := wrap 64 x.
Definition int64 (x : Z) : Z := swrap 64 x.

Lemma uint_add x d : uint (uint x + d) = uint (x + d).
Proof. unfold uint, wrap. by rewrite Zplus_mod_idemp_l. Qed.

Lemma uint64_small x : 0 <= x < 2 ^ 64 -> uint64 x = x.
Proof. apply wrap_small. Qed.

Lemma int64_small x : - 2 ^ 63 <= x < 2 ^ 63 -> int64 x = x.
Proof. intros. by apply swrap_small. Qed.

(** A disjunction of disjoint bit fields is their sum. *)
Lemma lor_add a s r : 0 <= s -> 0 <= r < 2 ^ s -> Z.lor (a * 2 ^ s) r = a * 2 ^ s + r.
Proof.
  intros Hs Hr. rewrite <- Z.lxor_lor, <- Z.add_nocarry_lxor; [done|..];
    apply Z.bits_inj'; intros n Hn; rewrite Z.land_spec, Z.bits_0;
    (destruct (decide (n < s));
      [by rewrite Z.mul_pow2_bits_low
      |rewrite <- (Z.mod_small r (2 ^ s)), Z.mod_pow2_bits_high by lia; apply andb_false_r]).
Qed.

(** [copy(dst[lo:hi], src)]: the array with the bytes copied, and their number. *)
Definition copy_at {A} (dst : list A) (lo hi : Z) (src : list A) : outcome (list A * Z) :=
  if (0 <=? lo) && (lo <=? hi) && (hi <=? zlen dst) then
    let n := Z.min (hi - lo) (zlen src) in
    Done (take (Z.to_nat lo) dst ++ take (Z.to_nat n) src ++ drop (Z.to_nat (lo + n)) dst, n)
  else Panic.

Lemma copy_at_done {A} (dst : list A) lo hi src : 0 <= lo <= hi -> hi <= zlen dst ->
  let n := Z.min (hi - lo) (zlen src) in
  copy_at dst lo hi src = Done (take (Z.to_nat lo) dst ++ take (Z.to_nat n) src ++ drop (Z.to_nat (lo + n)) dst, n).
Proof. intros Hlo Hhi n. unfold copy_at. case_bool; [done|lia]. Qed.

(** Copying over the middle of a list. *)
Lemma copy_at_app {A} (x y z src : list A) : zlen src = zlen y ->
  copy_at (x ++ y ++ z) (zlen x) (zlen x + zlen y) src = Done (x ++ src ++ z, zlen src).
Proof.
  intros E. pose proof (zlen_nonneg x). pose proof (zlen_nonneg y). pose proof (zlen_nonneg z). unfold copy_at.
  rewrite !zlen_app. case_bool; [|lia]. replace (Z.min _ _) with (zlen src) by lia. do 2 f_equal.
  replace (Z.to_nat (zlen x)) with (length x) by (unfold zlen; lia). rewrite take_app_length. f_equal.
  rewrite take_ge by (unfold zlen; lia). f_equal. rewrite app_assoc, drop_app_length'; [done|].
  rewrite length_app. unfold zlen in *. lia.
Qed.

(** * Strings *)

(** The bytes of a string literal. *)
Definition lit (s : String.string) : list Z :=
  (fun c => Z.of_N (Ascii.N_of_ascii c)) <$> String.list_ascii_of_string s.
Arguments lit s%_string_scope.

(** * Digit strings *)

(** The value of a list of digits, most significant first. *)
Definition digits_val (b : Z) (ds : list Z) : Z := foldl (fun a d => a * b + d) 0 ds.

Lemma digits_val_acc b l : forall a, foldl (fun a d => a * b + d) a l = a * b ^ zlen l + digits_val b l.
Proof.
  induction l as [|d l IH]; intros a; unfold digits_val; cbn [foldl]; [unfold zlen; cbn; lia|].
  rewrite !IH, zlen_cons, Z.pow_add_r by (unfold zlen; lia). ring.
Qed.

Lemma digits_val_cons b d l : digits_val b (d :: l) = d * b ^ zlen l + digits_val b l.
Proof. unfold digits_val at 1. cbn [foldl]. rewrite digits_val_acc. ring. Qed.

Lemma digits_val_snoc b d l : digits_val b (l ++ [d]) = digits_val b l * b + d.
Proof. unfold digits_val. by rewrite foldl_app. Qed.

Lemma digits_val_app b l1 l2 : digits_val b (l1 ++ l2) = digits_val b l1 * b ^ zlen l2 + digits_val b l2.
Proof. unfold digits_val at 1. rewrite foldl_app. apply digits_val_acc. Qed.

Lemma digits_val_zeros b n l : digits_val b (replicate n 0 ++ l) = digits_val b l.
Proof. induction n as [|n IH]; cbn [replicate app]; [done|]. by rewrite digits_val_cons, IH. Qed.

Lemma digits_val_nonneg b ds : 0 <= b -> Forall (fun d => 0 <= d < b) ds -> 0 <= digits_val b ds.
Proof.
  intros Hb. induction 1 as [|d ds Hd Hds IH]; [done|]. rewrite digits_val_cons.
  pose proof (Z.pow_nonneg b (zlen ds)). nia.
Qed.

(** * Automation *)

Create HintDb go discriminated.
#[export] Hint Resolve returns_done returns_ret zlen_nonneg : go.
Create Rewrite HintDb go_len.
Create Rewrite HintDb go_look.
#[export] Hint Rewrite @zlen_zswap @zlen_insert @zlen_app @zlen_cons @zlen_nil @zlen_take
  @zlen_drop @zlen_replicate : go_len.
#[export] Hint Rewrite @zlookup_app @zlookup_cons @zlookup_nil @zlookup_take @zlookup_drop
  @zlookup_replicate : go_look.

(** Equality of sequences built from [++], [take], [drop], [replicate], by
    comparing lengths and elements. *)
Ltac list_solve :=
  apply list_eq_zlookup;
  [ autorewrite with go_len; lia
  | let k := fresh "k" in intros k;
    autorewrite with go_len; intros;
    repeat (autorewrite with go_look go_len; repeat case_bool; try lia; try done);
    try (f_equal; lia) ].

(** Symbolic execution: [go_call H] runs the call at the head of the goal with
    the specification [H], leaving its side conditions and the continuation. *)
Tactic Notation "go_call" uconstr(H) := eapply returns_bind; [eapply H|cbv beta].
Tactic Notation "go_mono" uconstr(H) := eapply returns_mono; [eapply H|cbv beta].
Ltac go_ret := first [apply returns_done | apply returns_ret]; cbv beta iota.
