(* ===== verification/Sort.v ===== *)
(** Package sort (src/go/src/pkg/sort): sorting and binary search.

    The collection is behind [Interface], as in the code; [SortLaws] states
    what the package relies on: [Less] and [Swap] act on a sequence of
    elements ordered by a strict weak order, and panic (that is, may do
    anything) outside of it.  All results are proved against that interface;
    [IntSlice] and [StringSlice] are instances. *)

From stdpp Require Import sorting.
From S2P Require Import Prelude.

(** * The interface *)

Class Interface (C : Type) := {
  Len : C -> Z;
  Less : C -> Z -> Z -> outcome bool;
  Swap : C -> Z -> Z -> outcome C
}.

(** * Operations *)

Section Code.
Context {C : Type} `{Interface C}.

Definition min (a b : Z) : Z := if a <? b then a else b.

(** Insertion sort: the inner loop moves [data[j]] down, the outer one
    extends the sorted prefix. *)
Definition insertionSort_inner (a : Z) (s : C * Z) : outcome (C * Z + C) :=
  let '(data, j) := s in
  if a <? j then
    less ← Less data j (j - 1);
    if (less : bool) then
      data ← Swap data j (j - 1);
      Done (inl (data, j - 1))
    else Done (inr data)
  else Done (inr data).

Definition insertionSort (data : C) (a b : Z) : outcome C :=
  loop (S (Z.to_nat (b - a))) (fun '(data, i) =>
    if i <? b then
      data ← loop (S (Z.to_nat (i - a))) (insertionSort_inner a) (data, i);
      Done (inl (data, i + 1))
    else Done (inr data)) (data, a + 1).

(** [if data.Less(i, j) { data.Swap(i, j) }]. *)
Definition swapIfLess (data : C) (i j : Z) : outcome C :=
  less ← Less data i j;
  if (less : bool) then Swap data i j else Done data.

Definition medianOfThree (data : C) (a b c : Z) : outcome C :=
  let m0 := b in
  let m1 := a in
  let m2 := c in
  data ← swapIfLess data m1 m0;
  data ← swapIfLess data m2 m1;
  swapIfLess data m1 m0.

Definition swapRange (data : C) (a b n : Z) : outcome C :=
  loop (S (Z.to_nat n)) (fun '(data, i) =>
    if i <? n then
      data ← Swap data (a + i) (b + i);
      Done (inl (data, i + 1))
    else Done (inr data)) (data, 0).

Definition doPivot_loop (pivot : Z) (s : C * (Z * Z * Z * Z))
    : outcome (C * (Z * Z * Z * Z) + C * (Z * Z * Z * Z)) :=
  let '(data, (a, b, c, d)) := s in
  if b <? c then
    lt ← Less data b pivot;
    if (lt : bool) then Done (inl (data, (a, b + 1, c, d)))
    else
      gt ← Less data pivot b;
      if negb gt then
        data ← Swap data a b;
        Done (inl (data, (a + 1, b + 1, c, d)))
      else
        gt ← Less data pivot (c - 1);
        if (gt : bool) then Done (inl (data, (a, b, c - 1, d)))
        else
          lt ← Less data (c - 1) pivot;
          if negb lt then
            data ← Swap data (c - 1) (d - 1);
            Done (inl (data, (a, b, c - 1, d - 1)))
          else
            data ← Swap data b (c - 1);
            Done (inl (data, (a, b + 1, c - 1, d)))
  else Done (inr s).

(** The choice of the pivot: Tukey's ninther on long ranges, then the
    median of three; the pivot ends up in [data[lo]]. *)
Definition choosePivot (data : C) (lo hi : Z) : outcome C :=
  let m := lo + Z.quot (hi - lo) 2 in
  data ←
    (if 40 <? hi - lo then
       let s := Z.quot (hi - lo) 8 in
       data ← medianOfThree data lo (lo + s) (lo + 2 * s);
       data ← medianOfThree data m (m - s) (m + s);
       medianOfThree data (hi - 1) (hi - 1 - s) (hi - 1 - 2 * s)
     else Done data);
  medianOfThree data lo m (hi - 1).

Definition doPivot (data : C) (lo hi : Z) : outcome (C * Z * Z) :=
  data ← choosePivot data lo hi;
  let pivot := lo in
  '(data, (a, b, c, d)) ←
    loop (S (Z.to_nat (hi - lo))) (doPivot_loop pivot) (data, (lo + 1, lo + 1, hi, hi));
  let n := min (b - a) (a - lo) in
  data ← swapRange data lo (b - n) n;
  let n := min (hi - d) (d - c) in
  data ← swapRange data c (hi - n) n;
  Done (data, lo + b - a, hi - (d - c)).

(** [depth] bounds the recursion (the call stack), the inner [loop] is the
    [for] statement. *)
Fixpoint quickSort (depth : nat) (data : C) (a b : Z) : outcome C :=
  match depth with
  | O => OutOfFuel
  | S depth' =>
      '(data, a, b) ← loop (S (Z.to_nat (b - a))) (fun '(data, a, b) =>
        if 7 <? b - a then
          '(data, mlo, mhi) ← doPivot data a b;
          if mlo - a <? b - mhi then
            data ← quickSort depth' data a mlo;
            Done (inl (data, mhi, b))
          else
            data ← quickSort depth' data mhi b;
            Done (inl (data, a, mlo))
        else Done (inr (data, a, b))) (data, a, b);
      if 1 <? b - a then insertionSort data a b else Done data
  end.

(** The depth given is the bound the comment in [quickSort] promises:
    [lg(b-a)] nested calls below the first one. *)
Definition Sort (data : C) : outcome C :=
  let n := Len data in
  quickSort (S (Z.to_nat (Z.log2 n))) data 0 n.

Definition IsSorted (data : C) : outcome bool :=
  let n := Len data in
  loop (S (Z.to_nat n)) (fun i =>
    if 0 <? i then
      less ← Less data i (i - 1);
      if (less : bool) then Done (inr false) else Done (inl (i - 1))
    else Done (inr true)) (n - 1).
End Code.

(** Binary search. The index arithmetic is written with its wrap-around. *)
Definition Search (n : Z) (f : Z -> outcome bool) : outcome Z :=
  loop (S (Z.to_nat n)) (fun '(i, j) =>
    if i <? j then
      let h := int (i + Z.quot (int (j - i)) 2) in
      b ← f h;
      if negb b then Done (inl (int (h + 1), j)) else Done (inl (i, h))
    else Done (inr i)) (0, n).

(** * Convenience types *)

(** Go's [<] on strings compares bytes lexicographically. *)
Fixpoint string_ltb (x y : list Z) : bool :=
  match x, y with
  | _, [] => false
  | [], _ :: _ => true
  | a :: x', b :: y' => (a <? b) || ((a =? b) && string_ltb x' y')
  end.

Definition slice_Less {T} (lt : T -> T -> bool) (p : list T) (i j : Z) : outcome bool :=
  x ← idx p i; y ← idx p j; Done (lt x y).

Record IntSlice := { ints : list Z }.
Record StringSlice := { strings : list (list Z) }.

#[export] Instance IntSlice_Interface : Interface IntSlice := {
  Len p := zlen (ints p);
  Less p := slice_Less Z.ltb (ints p);
  Swap p i j := l ← swap_idx (ints p) i j; Done {| ints := l |}
}.

#[export] Instance StringSlice_Interface : Interface StringSlice := {
  Len p := zlen (strings p);
  Less p := slice_Less string_ltb (strings p);
  Swap p i j := l ← swap_idx (strings p) i j; Done {| strings := l |}
}.

Definition Ints (a : list Z) : outcome (list Z) := ints <$> Sort {| ints := a |}.
Definition Strings (a : list (list Z)) : outcome (list (list Z)) :=
  strings <$> Sort {| strings := a |}.
Definition IntsAreSorted (a : list Z) : outcome bool := IsSorted {| ints := a |}.
Definition StringsAreSorted (a : list (list Z)) : outcome bool := IsSorted {| strings := a |}.

Definition SearchInts (a : list Z) (x : Z) : outcome Z :=
  Search (zlen a) (fun i => y ← idx a i; Done (x <=? y)).
Definition SearchStrings (a : list (list Z)) (x : list Z) : outcome Z :=
  Search (zlen a) (fun i => y ← idx a i; Done (negb (string_ltb y x))).

(** * What the package requires of its argument *)

Class StrictWeakOrder {T} (lt : T -> T -> bool) := {
  lt_irrefl x : lt x x = false;
  lt_cotrans x y z : lt x z = true -> lt x y = true \/ lt y z = true;
  lt_trans x y z : lt x y = true -> lt y z = true -> lt x z = true
}.

Class SortLaws (C T : Type) `{Interface C} (lt : T -> T -> bool) (view : C -> list T) := {
  laws_order :: StrictWeakOrder lt;
  Len_view s : Len s = zlen (view s);
  Less_view s i j x y :
    (view s).[i] = Some x -> (view s).[j] = Some y -> Less s i j = Done (lt x y);
  Swap_view s i j :
    0 <= i < zlen (view s) -> 0 <= j < zlen (view s) ->
    returns (Swap s i j) (fun s' => view s' = zswap (view s) i j)
}.

(** * Ranges of a sequence *)

Section Ranges.
Context {T : Type} (lt : T -> T -> bool) `{!StrictWeakOrder lt}.
Implicit Types (v : list T) (x y z p : T).

(** [x] may stand before [y]. *)
Definition le x y : Prop := lt y x = false.
Definition equiv x y : Prop := le x y /\ le y x.

Lemma le_refl x : le x x.
Proof. apply lt_irrefl. Qed.

Lemma le_trans x y z : le x y -> le y z -> le x z.
Proof.
  unfold le. intros H1 H2. destruct (lt z x) eqn:E; [|done].
  destruct (lt_cotrans z y x E); congruence.
Qed.

Lemma lt_le x y : lt x y = true -> le x y.
Proof.
  unfold le. intros H1. destruct (lt y x) eqn:E; [|done].
  pose proof (lt_trans _ _ _ H1 E) as Hxx. by rewrite lt_irrefl in Hxx.
Qed.

(** Every element of [v[lo:hi]] satisfies [P]. *)
Definition all_in (P : T -> Prop) (lo hi : Z) v : Prop :=
  forall k x, lo <= k < hi -> v.[k] = Some x -> P x.

Definition sorted_in (lo hi : Z) v : Prop :=
  forall i j x y, lo <= i < j -> j < hi -> v.[i] = Some x -> v.[j] = Some y -> le x y.

(** [v'] is reached from [v] by swaps inside [lo, hi). *)
Inductive swaps (lo hi : Z) : list T -> list T -> Prop :=
| swaps_refl v : swaps lo hi v v
| swaps_step v v' i j :
    swaps lo hi v v' -> lo <= i < hi -> lo <= j < hi ->
    0 <= lo -> hi <= zlen v' -> swaps lo hi v (zswap v' i j).

Lemma swaps_trans lo hi v1 v2 v3 : swaps lo hi v1 v2 -> swaps lo hi v2 v3 -> swaps lo hi v1 v3.
Proof. intros H12 H23. induction H23; [done|]. by econstructor; eauto. Qed.

Lemma swaps_one lo hi v i j :
  lo <= i < hi -> lo <= j < hi -> 0 <= lo -> hi <= zlen v -> swaps lo hi v (zswap v i j).
Proof. intros. econstructor; eauto using swaps_refl. Qed.

Lemma swaps_weaken lo hi lo' hi' v v' :
  swaps lo hi v v' -> 0 <= lo' <= lo -> hi <= hi' <= zlen v -> swaps lo' hi' v v'.
Proof.
  intros Hs Hlo Hhi.
  assert (swaps lo' hi' v v' /\ zlen v' = zlen v) as [? _]; [|done].
  induction Hs as [|v v' i j Hs IH]; [split; [constructor|done]|].
  destruct (IH Hhi) as [IH' Hlen].
  split; [econstructor; eauto; lia|]. by rewrite zlen_zswap.
Qed.

Lemma swaps_zlen lo hi v v' : swaps lo hi v v' -> zlen v' = zlen v.
Proof. induction 1; [done|]. by rewrite zlen_zswap. Qed.

Lemma swaps_permutation lo hi v v' : swaps lo hi v v' -> v' ≡ₚ v.
Proof. induction 1; [done|]. by rewrite zswap_permutation. Qed.

Lemma swaps_outside lo hi v v' k : swaps lo hi v v' -> ~ lo <= k < hi -> v'.[k] = v.[k].
Proof.
  intros Hs Hk. induction Hs as [|v v' i j Hs IH]; [done|].
  rewrite zlookup_zswap by lia. by bool_decide_goal.
Qed.

(** Swaps move elements within the range: what held of all still does. *)
Lemma swaps_all_in P lo hi lo' hi' v v' :
  swaps lo hi v v' -> lo' <= lo -> hi <= hi' -> all_in P lo' hi' v -> all_in P lo' hi' v'.
Proof.
  intros Hs Hlo Hhi HP. induction Hs as [|v v' i j Hs IH]; [done|].
  specialize (IH HP). intros k x Hk. rewrite zlookup_zswap by lia.
  case_bool; [|case_bool]; intros Hx;
    [apply (IH i x)|apply (IH j x)|apply (IH k x)]; auto; lia.
Qed.

Lemma swaps_all_out P lo hi lo' hi' v v' :
  swaps lo hi v v' -> hi' <= lo \/ hi <= lo' -> all_in P lo' hi' v -> all_in P lo' hi' v'.
Proof.
  intros Hs Hout HP k x Hk. rewrite (swaps_outside _ _ _ _ _ Hs) by lia. by apply HP.
Qed.

(** The part of [a0, b0) outside [a, b) is in its final position. *)
Definition settled (a0 a b b0 : Z) v : Prop :=
  forall i j x y, a0 <= i < j -> j < b0 -> i < a \/ b <= j ->
    v.[i] = Some x -> v.[j] = Some y -> le x y.

Lemma settled_sorted a0 a b b0 v : settled a0 a b b0 v -> sorted_in a b v -> sorted_in a0 b0 v.
Proof.
  intros Hset Hs i j x y Hi Hj Hx Hy.
  destruct (decide (i < a \/ b <= j)); [eapply Hset; eauto|].
  eapply (Hs i j); eauto; lia.
Qed.

Lemma settled_swaps a0 a b b0 v v' :
  a0 <= a -> b <= b0 -> b0 <= zlen v ->
  settled a0 a b b0 v -> swaps a b v v' -> settled a0 a b b0 v'.
Proof.
  intros Ha Hb Hlen Hset Hs i j x y Hi Hj Hout Hx Hy.
  destruct (decide (a <= i < b)) as [Hib|Hib], (decide (a <= j < b)) as [Hjb|Hjb]; try lia.
  - (* [y] is outside: everything in [a, b) stood before it *)
    rewrite (swaps_outside _ _ _ _ j Hs) in Hy by lia.
    eapply (swaps_all_in (fun x => le x y) a b a b v v' Hs); eauto with lia.
    intros k z Hk Hz. eapply (Hset k j); eauto; lia.
  - rewrite (swaps_outside _ _ _ _ i Hs) in Hx by lia.
    eapply (swaps_all_in (fun y => le x y) a b a b v v' Hs); eauto with lia.
    intros k z Hk Hz. eapply (Hset i k); eauto; lia.
  - rewrite (swaps_outside _ _ _ _ i Hs) in Hx by lia.
    rewrite (swaps_outside _ _ _ _ j Hs) in Hy by lia. eapply (Hset i j); eauto; lia.
Qed.

Lemma sorted_in_StronglySorted v : sorted_in 0 (zlen v) v <-> StronglySorted le v.
Proof.
  split.
  - induction v as [|x v IH]; intros Hs; constructor.
    + apply IH. intros i j y z Hi Hj Hy Hz.
      unfold zlen in *. simpl in Hs.
      rewrite zlookup_nonneg in Hy, Hz by lia.
      apply (Hs (i + 1) (j + 1)); rewrite ?zlookup_nonneg by lia; try lia.
      * by replace (Z.to_nat (i + 1)) with (S (Z.to_nat i)) by lia.
      * by replace (Z.to_nat (j + 1)) with (S (Z.to_nat j)) by lia.
    + apply Forall_lookup. intros n y Hy.
      pose proof (lookup_lt_Some _ _ _ Hy).
      apply (Hs 0 (Z.of_nat (S n))); unfold zlen; simpl length; try lia; [done|].
      by rewrite zlookup_nat.
  - intros Hs i j x y Hi Hj Hx Hy. rewrite zlookup_nonneg in Hx, Hy by lia.
    eapply (StronglySorted_app_1_elem_of le (take (Z.to_nat j) v) (drop (Z.to_nat j) v)).
    + by rewrite take_drop.
    + apply list_elem_of_lookup. exists (Z.to_nat i). rewrite lookup_take_lt by lia. done.
    + apply list_elem_of_lookup. exists 0%nat. rewrite lookup_drop. by rewrite Nat.add_0_r.
Qed.
End Ranges.

(** * Correctness of the sorting routines *)

Section Correct.
Context {C T : Type} {HI : Interface C} (lt : T -> T -> bool) (view : C -> list T).
Context {HL : SortLaws C T lt view}.
Implicit Types (s data : C).

(** Compose the swaps of consecutive calls. *)
Ltac swaps_chain := repeat first [eassumption | eapply swaps_trans; [eassumption|]].

Local Abbreviation le := (le lt).
Local Abbreviation sorted_in := (sorted_in lt).
Local Abbreviation settled := (settled lt).
Local Abbreviation n s := (zlen (view s)).

(** Run [Less] on two positions of the sequence. *)
Lemma Less_run s i j :
  0 <= i < n s -> 0 <= j < n s ->
  exists x y, (view s).[i] = Some x /\ (view s).[j] = Some y /\ Less s i j = Done (lt x y).
Proof.
  intros Hi Hj. destruct (zlookup_lt _ _ Hi) as [x Hx], (zlookup_lt _ _ Hj) as [y Hy].
  exists x, y. split_and!; [done..|]. by apply Less_view.
Qed.

(** Run [Swap] inside a range. *)
Lemma Swap_run lo hi s i j :
  0 <= lo -> hi <= n s -> lo <= i < hi -> lo <= j < hi ->
  returns (Swap s i j) (fun s' =>
    view s' = zswap (view s) i j /\ swaps lo hi (view s) (view s')).
Proof.
  intros. eapply returns_mono; [apply Swap_view; lia|].
  intros s' Hs'. split; [done|]. rewrite Hs'. by apply swaps_one.
Qed.

Lemma insertionSort_inner_spec a i s :
  0 <= a <= i -> i < n s -> sorted_in a i (view s) ->
  returns (loop (S (Z.to_nat (i - a))) (insertionSort_inner a) (s, i))
    (fun s' => swaps a (i + 1) (view s) (view s') /\ sorted_in a (i + 1) (view s')).
Proof.
  intros Ha Hi Hs.
  apply (loop_returns (fun '(s', j) =>
    a <= j <= i /\ swaps a (i + 1) (view s) (view s') /\
    forall p q x y, a <= p < q -> q <= i -> q <> j ->
      (view s').[p] = Some x -> (view s').[q] = Some y -> le x y)
    (fun '(_, j) => Z.to_nat (j - a))); [| |lia].
  2: { split_and!; [lia..|constructor|]. intros p q x y ???. apply Hs; lia. }
  clear Hs. intros [s' j] (Hj & Hsw & Hinv). simpl.
  pose proof (swaps_zlen _ _ _ _ Hsw) as Hlen.
  case_bool.
  2: { go_ret. split; [done|]. intros p q x y ??. apply Hinv; lia. }
  destruct (Less_run s' j (j - 1)) as (x & y & Hx & Hy & ->); [lia|lia|]. simpl.
  destruct (lt x y) eqn:Hxy.
  - eapply returns_bind; [apply (Swap_run a (i + 1)); lia|].
    intros s'' [Hv Hsw']. go_ret. split_and!; [lia|lia|by eapply swaps_trans| |lia].
    intros p q x' y' ???. rewrite Hv, !zlookup_zswap by lia.
    assert (le x y) by by apply lt_le; [apply _|].
    repeat case_bool; try lia; intros; simplify_eq; try done.
    all: try (eapply Hinv; [| | |eassumption|eassumption]; lia).
  - go_ret. split; [done|]. intros p q x' y' ????.
    destruct (decide (q = j)) as [->|]; [|by eapply (Hinv p q); eauto; lia].
    destruct (decide (p = j - 1)) as [->|]; [by simplify_eq|].
    intros. apply le_trans with y; [apply _| |by simplify_eq].
    apply (Hinv p (j - 1)); auto; lia.
Qed.

Lemma insertionSort_spec s a b :
  0 <= a < b -> b <= n s ->
  returns (insertionSort s a b)
    (fun s' => swaps a b (view s) (view s') /\ sorted_in a b (view s')).
Proof.
  intros Ha Hb. unfold insertionSort.
  apply (loop_returns (fun '(s', i) =>
    a < i <= b /\ swaps a b (view s) (view s') /\ sorted_in a i (view s'))
    (fun '(_, i) => Z.to_nat (b - i))); [| |lia].
  2: { split_and!; [lia..|constructor|]. intros ?; lia. }
  intros [s' i] (Hi & Hsw & Hs). pose proof (swaps_zlen _ _ _ _ Hsw).
  case_bool.
  - go_call insertionSort_inner_spec; [lia|lia|done|].
    intros s'' [Hsw' Hs']. go_ret. split_and!; try lia; [|done].
    eapply swaps_trans; [done|]. eapply swaps_weaken; eauto; lia.
  - go_ret. assert (i = b) as -> by lia. done.
Qed.

Lemma swapIfLess_spec lo hi s i j :
  0 <= lo -> hi <= n s -> lo <= i < hi -> lo <= j < hi ->
  returns (swapIfLess s i j) (fun s' => swaps lo hi (view s) (view s')).
Proof.
  intros. unfold swapIfLess. destruct (Less_run s i j) as (x & y & _ & _ & ->); [lia|lia|].
  simpl. case_match; [|go_ret; constructor].
  eapply returns_mono; [by apply (Swap_run lo hi)|]. by intros ? [_ ?].
Qed.

Lemma medianOfThree_spec lo hi s a b c :
  0 <= lo -> hi <= n s -> lo <= a < hi -> lo <= b < hi -> lo <= c < hi ->
  returns (medianOfThree s a b c) (fun s' => swaps lo hi (view s) (view s')).
Proof.
  intros. unfold medianOfThree.
  go_call (swapIfLess_spec lo hi); [lia..|]. intros s1 Hw1.
  pose proof (swaps_zlen _ _ _ _ Hw1).
  go_call (swapIfLess_spec lo hi); [lia..|]. intros s2 Hw2.
  pose proof (swaps_zlen _ _ _ _ Hw2).
  go_mono (swapIfLess_spec lo hi); [lia..|].
  intros s3 Hw3. swaps_chain.
Qed.

Lemma choosePivot_spec s lo hi :
  0 <= lo < hi -> hi <= n s ->
  returns (choosePivot s lo hi) (fun s' => swaps lo hi (view s) (view s')).
Proof.
  intros Hlo Hhi. unfold choosePivot.
  eapply returns_bind with (P := fun s' => swaps lo hi (view s) (view s')).
  - case_bool; [|go_ret; constructor].
    go_call (medianOfThree_spec lo hi); [zlia..|]. intros s1 Hw1.
    pose proof (swaps_zlen _ _ _ _ Hw1).
    go_call (medianOfThree_spec lo hi); [zlia..|]. intros s2 Hw2.
    pose proof (swaps_zlen _ _ _ _ Hw2).
    go_mono (medianOfThree_spec lo hi); [zlia..|].
    intros s3 Hw3. swaps_chain.
  - intros s1 Hw1. pose proof (swaps_zlen _ _ _ _ Hw1).
    go_mono (medianOfThree_spec lo hi); [zlia..|].
    intros s3 Hw3. swaps_chain.
Qed.

(** [swapRange] exchanges two disjoint blocks of length [m]. *)
Lemma swapRange_spec lo hi s a b m :
  0 <= lo -> hi <= n s -> lo <= a -> 0 <= m -> a + m <= b -> b + m <= hi ->
  returns (swapRange s a b m) (fun s' =>
    swaps lo hi (view s) (view s') /\
    forall k, (view s').[k] =
      if (a <=? k) && (k <? a + m) then (view s).[k + (b - a)]
      else if (b <=? k) && (k <? b + m) then (view s).[k - (b - a)]
      else (view s).[k]).
Proof.
  intros. unfold swapRange.
  apply (loop_returns (fun '(s', i) =>
    0 <= i <= m /\ swaps lo hi (view s) (view s') /\
    forall k, (view s').[k] =
      if (a <=? k) && (k <? a + i) then (view s).[k + (b - a)]
      else if (b <=? k) && (k <? b + i) then (view s).[k - (b - a)]
      else (view s).[k])
    (fun '(_, i) => Z.to_nat (m - i))); [| |lia].
  2: { split_and!; [lia..|constructor|]. intros k. repeat case_bool; try done; lia. }
  intros [s' i] (Hi & Hsw & Hk). pose proof (swaps_zlen _ _ _ _ Hsw).
  case_bool.
  - go_call (Swap_run lo hi); [lia..|]. intros s'' [Hv Hsw']. go_ret.
    split_and!; try lia; [by eapply swaps_trans|].
    intros k. rewrite Hv, zlookup_zswap, !Hk by lia.
    repeat case_bool; try lia; f_equal; lia.
  - go_ret. split; [done|]. intros k. rewrite Hk. assert (i = m) as -> by lia. done.
Qed.

(** The partition invariant, as the comment in [doPivot] lists it. *)
Definition partitioned (p : T) (lo hi a b c d : Z) (v : list T) : Prop :=
  all_in (equiv lt p) lo a v /\ all_in (fun x => lt x p = true) a b v /\
  all_in (fun x => lt p x = true) c d v /\ all_in (equiv lt p) d hi v.

(** Close a goal about one element: it comes from a block of the invariant,
    or it is a known element. *)
Ltac solve_block :=
  match goal with
  | Hb : all_in _ _ _ ?v, Hz : ?v.[?k] = Some ?z |- _ =>
      solve [apply (Hb k z); [lia|done]]
  | Hz : ?v.[?k] = Some ?z, Hx : ?v.[?k'] = Some ?x |- _ =>
      solve [assert (k = k') by lia; assert (z = x) by congruence; subst z;
             first [done | by split]]
  end.

Lemma doPivot_loop_spec s p lo hi :
  0 <= lo < hi -> hi <= n s -> (view s).[lo] = Some p ->
  returns (loop (S (Z.to_nat (hi - lo))) (doPivot_loop lo) (s, (lo + 1, lo + 1, hi, hi)))
    (fun '(s', (a, b, c, d)) =>
       lo < a <= b /\ b = c /\ c <= d <= hi /\ swaps lo hi (view s) (view s') /\
       partitioned p lo hi a b c d (view s')).
Proof.
  intros Hlo Hhi Hp.
  apply (loop_returns (fun '(s', (a, b, c, d)) =>
    lo < a <= b /\ b <= c <= d /\ d <= hi /\ swaps lo hi (view s) (view s') /\
    (view s').[lo] = Some p /\ partitioned p lo hi a b c d (view s'))
    (fun '(_, (a, b, c, d)) => Z.to_nat (c - b))); [| |lia].
  2: { split_and!; [lia..|constructor|done|]. split_and!; intros k x Hk Hx; try lia.
       replace k with lo in Hx by lia. simplify_eq. split; by apply le_refl, _. }
  intros [s' [[[a b] c] d]] (Hab & Hbc & Hd & Hsw & Hp' & Heq1 & Hlt & Hgt & Heq2).
  pose proof (swaps_zlen _ _ _ _ Hsw) as Hlen. simpl.
  case_bool; [|go_ret; split_and!; try done; lia].
  destruct (zlookup_lt (view s') b) as [x Hx]; [lia|].
  destruct (zlookup_lt (view s') (c - 1)) as [y Hy]; [lia|].
  rewrite (Less_view s' b lo x p), (Less_view s' lo b p x) by done. simpl.
  rewrite (Less_view s' lo (c - 1) p y), (Less_view s' (c - 1) lo y p) by done.
  destruct (lt x p) eqn:Hxp; simpl.
  { go_ret. split_and!; try lia; try done. split_and!; try done.
    intros k z Hk Hz. destruct (decide (k = b)); solve_block. }
  destruct (lt p x) eqn:Hpx; simpl.
  2: { (* equal to the pivot: swap to the left block *)
    go_call (Swap_run lo hi); [lia..|]. intros s'' [Hv Hsw']. go_ret.
    split_and!; try lia; [by eapply swaps_trans| |].
    { rewrite Hv, zlookup_zswap by lia. by bool_decide_goal. }
    rewrite Hv. split_and!; intros k z Hk; rewrite zlookup_zswap by lia;
      repeat case_bool; try lia; intros Hz; solve_block. }
  destruct (lt p y) eqn:Hpy; simpl.
  { go_ret. split_and!; try lia; try done. split_and!; try done.
    intros k z Hk Hz. destruct (decide (k = c - 1)); solve_block. }
  destruct (lt y p) eqn:Hyp; simpl.
  - (* swap the two outer elements *)
    assert (b <> c - 1) by (intros ->; congruence).
    go_call (Swap_run lo hi); [lia..|]. intros s'' [Hv Hsw']. go_ret.
    split_and!; try lia; [by eapply swaps_trans| |].
    { rewrite Hv, zlookup_zswap by lia. by bool_decide_goal. }
    rewrite Hv. split_and!; intros k z Hk; rewrite zlookup_zswap by lia;
      repeat case_bool; try lia; intros Hz; solve_block.
  - go_call (Swap_run lo hi); [lia..|]. intros s'' [Hv Hsw']. go_ret.
    split_and!; try lia; [by eapply swaps_trans| |].
    { rewrite Hv, zlookup_zswap by lia. by bool_decide_goal. }
    rewrite Hv. split_and!; intros k z Hk; rewrite zlookup_zswap by lia;
      repeat case_bool; try lia; intros Hz; solve_block.
Qed.

(** The result of [doPivot]: [v[lo:mlo] < p], [v[mlo:mhi] = p], [v[mhi:hi] > p]. *)
Definition pivoted (p : T) (lo mlo mhi hi : Z) (v : list T) : Prop :=
  all_in (fun x => lt x p = true) lo mlo v /\ all_in (equiv lt p) mlo mhi v /\
  all_in (fun x => lt p x = true) mhi hi v.

Lemma min_Zmin a b : min a b = Z.min a b.
Proof. unfold min. case_bool; lia. Qed.

Lemma doPivot_spec s lo hi :
  0 <= lo < hi -> hi <= n s ->
  returns (doPivot s lo hi) (fun '(s', mlo, mhi) =>
    lo <= mlo < mhi /\ mhi <= hi /\ swaps lo hi (view s) (view s') /\
    exists p, pivoted p lo mlo mhi hi (view s')).
Proof.
  intros Hlo Hhi. unfold doPivot.
  go_call choosePivot_spec; [lia|lia|]. intros s1 Hw1.
  pose proof (swaps_zlen _ _ _ _ Hw1).
  destruct (zlookup_lt (view s1) lo) as [p Hp]; [lia|].
  go_call (doPivot_loop_spec s1 p lo hi); [lia..|done|].
  intros [s2 [[[a b] c] d]] (Hab & <- & Hd & Hw2 & Heq1 & Hlt & Hgt & Heq2).
  pose proof (swaps_zlen _ _ _ _ Hw2). rewrite !min_Zmin.
  go_call (swapRange_spec lo hi); [lia..|]. intros s3 [Hw3 Hk3].
  pose proof (swaps_zlen _ _ _ _ Hw3).
  go_call (swapRange_spec lo hi); [lia..|]. intros s4 [Hw4 Hk4].
  go_ret. split_and!; [lia..|swaps_chain|].
  exists p. split_and!; intros k x Hk; rewrite Hk4, !Hk3;
    repeat case_bool; try lia; intros Hx; destruct (decide (k < b)); try lia; solve_block.
Qed.

Lemma pivoted_swaps p a mlo mhi b lo hi v v' :
  a <= mlo -> mlo < mhi <= b -> (lo = a /\ hi = mlo) \/ (lo = mhi /\ hi = b) ->
  pivoted p a mlo mhi b v -> swaps lo hi v v' -> pivoted p a mlo mhi b v'.
Proof.
  intros Ha Hm [[-> ->]|[-> ->]] (Hlt & Heq & Hgt) Hs; split_and!;
    first [eapply swaps_all_in; [exact Hs|lia|lia|done]
          |eapply swaps_all_out; [exact Hs|lia|done]].
Qed.

(** Elements on different sides of the middle block are in order. *)
Lemma pivoted_le p a mlo mhi b v i j x y :
  pivoted p a mlo mhi b v -> a <= i < j -> j < b -> i < mhi -> mlo <= j ->
  v.[i] = Some x -> v.[j] = Some y -> le x y.
Proof.
  intros (Hlt & Heq & Hgt) Hi Hj Hi' Hj' Hx Hy.
  apply le_trans with p; [apply _|..].
  - destruct (decide (i < mlo)); [apply lt_le, (Hlt i); auto; try apply _; lia|].
    apply (Heq i); auto; lia.
  - destruct (decide (j < mhi)); [apply (Heq j); auto; lia|].
    apply lt_le, (Hgt j); auto; try apply _; lia.
Qed.

(** Partitioning [a, b) and sorting one side of it settles that side and
    the middle block. *)
Lemma settled_side a0 a mlo mhi b b0 p v v' lo hi :
  a0 <= a <= mlo -> mlo < mhi <= b -> b <= b0 -> b0 <= zlen v -> 0 <= a ->
  (lo = a /\ hi = mlo) \/ (lo = mhi /\ hi = b) ->
  settled a0 a b b0 v -> pivoted p a mlo mhi b v ->
  swaps lo hi v v' -> sorted_in lo hi v' ->
  (lo = a /\ hi = mlo -> settled a0 mhi b b0 v') /\
  (lo = mhi /\ hi = b -> settled a0 a mlo b0 v').
Proof.
  intros Ha Hm Hb Hlen H0 Hside Hset Hpiv Hsw Hs.
  assert (settled a0 a b b0 v') as Hset'.
  { apply (settled_swaps lt a0 a b b0 v); try (done || lia).
    eapply swaps_weaken; [done|lia..]. }
  assert (pivoted p a mlo mhi b v') as Hpiv' by
    (apply (pivoted_swaps p a mlo mhi b lo hi v); (done || lia)).
  split; intros [-> ->]; intros i j x y Hi Hj Hout Hx Hy;
    (destruct (decide (i < a \/ b <= j)); [by eapply (Hset' i j)|]).
  - destruct (decide (j < mlo)); [by eapply (Hs i j); try lia|].
    eapply (pivoted_le p a mlo mhi b v' i j); eauto; lia.
  - destruct (decide (mhi <= i)); [by eapply (Hs i j); try lia|].
    eapply (pivoted_le p a mlo mhi b v' i j); eauto; lia.
Qed.

(** [quickSort] with a stack of [depth] frames sorts ranges shorter than
    [2 ^ depth]: the recursive call is always on the shorter side. *)
Lemma quickSort_spec depth s a0 b0 :
  0 <= a0 <= b0 -> b0 <= n s -> (0 < depth)%nat -> b0 - a0 < 2 ^ Z.of_nat depth ->
  returns (quickSort depth s a0 b0) (fun s' =>
    swaps a0 b0 (view s) (view s') /\ sorted_in a0 b0 (view s')).
Proof.
  revert s a0 b0. induction depth as [|depth IH]; intros s a0 b0 Ha Hb Hd Hdepth; [lia|].
  rewrite Nat2Z.inj_succ, Z.pow_succ_r in Hdepth by lia. cbn [quickSort].
  eapply returns_bind with (P := fun '(s', a, b) =>
    a0 <= a <= b /\ b <= b0 /\ b - a <= 7 /\ swaps a0 b0 (view s) (view s') /\
    settled a0 a b b0 (view s')).
  - apply (loop_returns (fun '(s', a, b) =>
      a0 <= a <= b /\ b <= b0 /\ swaps a0 b0 (view s) (view s') /\
      settled a0 a b b0 (view s'))
      (fun '(_, a, b) => Z.to_nat (b - a))); [| |lia].
    2: { split_and!; [lia..|constructor|]. intros i j x y. lia. }
    intros [[s1 a] b] (Hab & Hb0 & Hw1 & Hset). pose proof (swaps_zlen _ _ _ _ Hw1).
    case_bool; [|go_ret; split_and!; (done || lia)].
    assert (0 < depth)%nat.
    { destruct depth; [|lia]. change (2 ^ Z.of_nat 0) with 1 in Hdepth. lia. }
    go_call doPivot_spec; [lia..|].
    intros [[s2 mlo] mhi] (Hm & Hmb & Hw2 & p & Hpiv). pose proof (swaps_zlen _ _ _ _ Hw2).
    assert (settled a0 a b b0 (view s2)) as Hset2 by
      (apply (settled_swaps lt a0 a b b0 (view s1)); (done || lia)).
    assert (swaps a0 b0 (view s) (view s2)) as Hw.
    { eapply swaps_trans; [done|]. eapply swaps_weaken; [done|lia..]. }
    case_bool; (go_call IH; [lia..|]); intros s3 [Hw3 Hs3]; go_ret;
      (split_and!; [lia..| | |lia];
       [eapply swaps_trans; [done|]; eapply swaps_weaken; [done|lia..]|]).
    + eapply (settled_side a0 a mlo mhi b b0 p (view s2) (view s3) a mlo); (done || lia).
    + eapply (settled_side a0 a mlo mhi b b0 p (view s2) (view s3) mhi b); (done || lia).
  - intros [[s1 a] b] (Hab & Hb0 & Hlen & Hw1 & Hset).
    pose proof (swaps_zlen _ _ _ _ Hw1). case_bool.
    + go_mono insertionSort_spec; [lia..|]. intros s2 [Hw2 Hs2]. split.
      * eapply swaps_trans; [done|]. eapply swaps_weaken; eauto; lia.
      * eapply settled_sorted; [|done].
        apply (settled_swaps lt a0 a b b0 (view s1)); (done || lia).
    + go_ret. split; [done|]. eapply settled_sorted; [done|]. intros i j; lia.
Qed.

Lemma Sort_spec s :
  returns (Sort s) (fun s' => view s' ≡ₚ view s /\ StronglySorted le (view s')).
Proof.
  unfold Sort. rewrite Len_view. pose proof (zlen_nonneg (view s)).
  go_mono quickSort_spec; [lia..| |].
  - rewrite Nat2Z.inj_succ, Z2Nat.id by apply Z.log2_nonneg.
    destruct (decide (n s = 0)) as [->|Hn]; [done|].
    pose proof (Z.log2_spec (n s)). lia.
  - intros s' [Hw Hs]. split; [by eapply swaps_permutation|].
    apply sorted_in_StronglySorted. by rewrite (swaps_zlen _ _ _ _ Hw).
Qed.

Lemma IsSorted_spec s :
  returns (IsSorted s) (fun b => b = true <-> StronglySorted le (view s)).
Proof.
  unfold IsSorted. rewrite Len_view. pose proof (zlen_nonneg (view s)).
  apply returns_mono with (P := fun b => b = true <-> sorted_in 0 (n s) (view s)).
  2: { intros b Hb. rewrite Hb. apply sorted_in_StronglySorted. }
  apply (loop_returns (fun i =>
    -1 <= i < n s /\ sorted_in i (n s) (view s)) (fun i => Z.to_nat i)); [| |lia].
  2: { split; [lia|]. intros i j; lia. }
  intros i (Hi & Hs). case_bool.
  - destruct (Less_run s i (i - 1)) as (x & y & Hx & Hy & ->); [lia..|]. simpl.
    destruct (lt x y) eqn:Hxy; go_ret.
    + split; [done|]. intros Hs'. specialize (Hs' (i - 1) i y x).
      unfold Sort.le in Hs'. rewrite Hs' in Hxy; [done|lia|lia|done|done].
    + split_and!; [lia..| |lia]. intros p q x' y' Hp Hq Hx' Hy'.
      destruct (decide (i - 1 < p)); [eapply (Hs p q); eauto; lia|].
      assert (p = i - 1) as -> by lia. simplify_eq.
      destruct (decide (q = i)) as [->|]; [by simplify_eq|].
      apply le_trans with x; [apply _|done|]. eapply (Hs i q); eauto; lia.
  - go_ret. split; [|done]. intros _ p q x y Hp Hq Hx Hy.
    eapply (Hs p q); eauto; lia.
Qed.
End Correct.

(** * Binary search *)

(** The loop invariant of [Search]: [f(i-1)] is false and [f(j)] is true. *)
Lemma Search_spec n f (g : Z -> bool) :
  0 <= n < 2 ^ 31 -> (forall i, 0 <= i < n -> f i = Done (g i)) ->
  returns (Search n f) (fun i => 0 <= i <= n /\
    (0 < i -> g (i - 1) = false) /\ (i < n -> g i = true)).
Proof.
  intros Hn Hf. unfold Search.
  apply (loop_returns (fun '(i, j) => 0 <= i <= j /\ j <= n /\
    (0 < i -> g (i - 1) = false) /\ (j < n -> g j = true))
    (fun '(i, j) => Z.to_nat (j - i))); [| |lia].
  2: { split_and!; lia. }
  intros [i j] (Hij & Hjn & Hgi & Hgj). case_bool.
  2: { go_ret. assert (i = j) as -> by lia. auto with lia. }
  rewrite (int_small (j - i)) by lia. rewrite (int_small (i + _)) by zlia.
  set (h := i + Z.quot (j - i) 2). assert (i <= h < j) by (unfold h; zlia).
  rewrite Hf by lia. simpl. destruct (g h) eqn:Hh; simpl; go_ret.
  - split_and!; auto with lia.
  - rewrite int_small by lia. split_and!; try lia; auto.
    intros _. by replace (h + 1 - 1) with h by lia.
Qed.

Lemma Search_monotone n (g : Z -> bool) i :
  (forall k, 0 <= k -> k + 1 < n -> g k = true -> g (k + 1) = true) ->
  0 <= i <= n -> (0 < i -> g (i - 1) = false) -> (i < n -> g i = true) ->
  forall k, 0 <= k < n -> g k = (i <=? k).
Proof.
  intros Hmono Hi Hlo Hhi.
  assert (Hup : forall d k, 0 <= d -> 0 <= k -> k + d < n -> g k = true -> g (k + d) = true).
  { intros d k Hd. revert k. pattern d. apply natlike_ind; [| |done].
    - intros k ??. by rewrite Z.add_0_r.
    - intros d' Hd' IH k ???. replace (k + Z.succ d') with (k + d' + 1) by lia.
      apply Hmono; [lia..|]. apply IH; (done || lia). }
  intros k Hk. destruct (Z.leb_spec i k).
  - replace k with (i + (k - i)) by lia. apply Hup; try lia. apply Hhi; lia.
  - destruct (g k) eqn:Hgk; [|done].
    assert (Hi1 : g (k + (i - 1 - k)) = true) by (apply Hup; (done || lia)).
    replace (k + (i - 1 - k)) with (i - 1) in Hi1 by lia.
    rewrite Hlo in Hi1 by lia. done.
Qed.

(** * The instances *)

#[export] Instance Zltb_order : StrictWeakOrder Z.ltb.
Proof. split; intros *; rewrite ?Z.ltb_irrefl, ?Z.ltb_lt; auto; lia. Qed.

Lemma string_ltb_trichotomy x y : string_ltb x y = false -> string_ltb y x = false -> x = y.
Proof.
  revert y. induction x as [|a x IH]; intros [|b y]; simpl; try done.
  rewrite !orb_false_iff, !Z.ltb_ge. intros [? H1] [? H2].
  assert (a = b) as -> by lia. rewrite Z.eqb_refl in H1, H2. f_equal. by apply IH.
Qed.

#[export] Instance string_ltb_order : StrictWeakOrder string_ltb.
Proof.
  assert (Hirr : forall x, string_ltb x x = false).
  { induction x as [|a x IH]; simpl; [done|]. by rewrite Z.ltb_irrefl, Z.eqb_refl, IH. }
  assert (Htr : forall x y z, string_ltb x y = true -> string_ltb y z = true ->
                              string_ltb x z = true).
  { induction x as [|a x IH]; intros [|b y] [|c z]; simpl; try done.
    rewrite !orb_true_iff, !andb_true_iff, !Z.ltb_lt, !Z.eqb_eq.
    intros [?|[-> ?]] [?|[-> ?]]; [left; lia|left; lia|left; lia|].
    right. split; [done|]. by eapply IH. }
  split; [done| |done].
  intros x y z Hxz. destruct (string_ltb x y) eqn:Hxy; [by left|right].
  destruct (string_ltb y x) eqn:Hyx; [by eapply Htr|].
  by rewrite <- (string_ltb_trichotomy x y Hxy Hyx).
Qed.

Lemma slice_Less_run {T} (lt : T -> T -> bool) (p : list T) i j x y :
  p.[i] = Some x -> p.[j] = Some y -> slice_Less lt p i j = Done (lt x y).
Proof. intros Hx Hy. unfold slice_Less, idx. by rewrite Hx, Hy. Qed.

#[export] Instance IntSlice_laws : SortLaws IntSlice Z Z.ltb ints.
Proof.
  split; [apply _|done| |]; intros *; simpl; [apply slice_Less_run|].
  intros. rewrite swap_idx_done by done. by apply returns_done.
Qed.

#[export] Instance StringSlice_laws : SortLaws StringSlice (list Z) string_ltb strings.
Proof.
  split; [apply _|done| |]; intros *; simpl; [apply slice_Less_run|].
  intros. rewrite swap_idx_done by done. by apply returns_done.
Qed.

Lemma Ints_spec a :
  returns (Ints a) (fun a' => a' ≡ₚ a /\ StronglySorted (le Z.ltb) a').
Proof.
  destruct (Sort_spec Z.ltb ints {| ints := a |}) as ([l] & Hl & Hp & Hs).
  exists l. unfold Ints. by rewrite Hl.
Qed.

Lemma sorted_ints_lookup a i j x y :
  StronglySorted (le Z.ltb) a -> 0 <= i <= j -> a.[i] = Some x -> a.[j] = Some y -> x <= y.
Proof.
  intros Hs%sorted_in_StronglySorted Hij Hx Hy.
  destruct (decide (i = j)) as [->|]; [simplify_eq; lia|].
  pose proof (zlookup_Some_lt _ _ _ Hy).
  assert (le Z.ltb x y) as Hle by (apply (Hs i j); (done || lia)).
  unfold le in Hle. bool_to_prop. lia.
Qed.

(** On a sorted slice the result of [SearchInts] splits it into the elements
    below [x] and the others. *)
Lemma SearchInts_spec a x :
  zlen a < 2 ^ 31 -> StronglySorted (le Z.ltb) a ->
  returns (SearchInts a x) (fun i => 0 <= i <= zlen a /\
    forall k y, a.[k] = Some y -> (x <= y <-> i <= k)).
Proof.
  intros Hlen Hs. pose proof (zlen_nonneg a).
  set (g := fun i => match a.[i] with Some y => x <=? y | None => false end).
  unfold SearchInts. eapply returns_mono; [apply (Search_spec _ _ g)|cbv beta].
  - lia.
  - intros i Hi. unfold idx, g. by destruct (zlookup_lt a i Hi) as [y ->].
  - intros i (Hi & Hlo & Hhi). split; [done|]. intros k y Hk.
    pose proof (zlookup_Some_lt _ _ _ Hk).
    assert (Hg : g k = (i <=? k)).
    { apply (Search_monotone (zlen a)); try done.
      intros k' ??. unfold g. destruct (zlookup_lt a k') as [y1 Hy1]; [lia|].
      destruct (zlookup_lt a (k' + 1)) as [y2 Hy2]; [lia|]. rewrite Hy1, Hy2.
      rewrite !Z.leb_le.
      assert (y1 <= y2) by (apply (sorted_ints_lookup a k' (k' + 1)); (done || lia)). lia. }
    unfold g in Hg. rewrite Hk in Hg. destruct (Z.leb_spec x y), (Z.leb_spec i k); (done || lia).
Qed.

Lemma filter_all {A} (P : A -> Prop) `{!forall x, Decision (P x)} l : Forall P l -> filter P l = l.
Proof. induction 1; [done|]. rewrite filter_cons_True; congruence. Qed.

Lemma filter_none {A} (P : A -> Prop) `{!forall x, Decision (P x)} l :
  Forall (fun x => ~ P x) l -> filter P l = [].
Proof. induction 1; [done|]. by rewrite filter_cons_False. Qed.

Lemma filter_lt_take a x i :
  0 <= i <= zlen a -> (forall k y, a.[k] = Some y -> (x <= y <-> i <= k)) ->
  filter (fun y => y < x) a = take (Z.to_nat i) a.
Proof.
  intros Hi Hk. rewrite <- (take_drop (Z.to_nat i) a) at 1.
  rewrite list.filter_app, filter_all, filter_none, app_nil_r; [done| |]; apply Forall_lookup.
  - intros n y Hy. rewrite lookup_drop in Hy.
    rewrite <- zlookup_nat in Hy. apply Hk in Hy. lia.
  - intros n y [Hy Hn]%lookup_take_Some. rewrite <- zlookup_nat in Hy.
    apply Hk in Hy. lia.
Qed.

(** * Properties *)

(** C1. [Sort] terminates without a panic on every collection that satisfies
    the interface, with at most [log2(n)+1] nested calls of [quickSort], and
    leaves a permutation of the original elements in increasing order. *)
Theorem Sort_correct {C T : Type} {HI : Interface C} (lt : T -> T -> bool)
    (view : C -> list T) (HL : SortLaws C T lt view) (data : C) :
  returns (Sort data) (fun data' =>
    view data' ≡ₚ view data /\ StronglySorted (le lt) (view data')).
Proof. exact (Sort_spec lt view data). Qed.

Lemma Sort_correct_witness :
  SortLaws IntSlice Z Z.ltb ints /\
  returns (Sort {| ints := [3; 1; 2; 3; 0; -5; 9; 4; 8; 7; 1] |}) (fun data' =>
    ints data' ≡ₚ [3; 1; 2; 3; 0; -5; 9; 4; 8; 7; 1] /\ StronglySorted (le Z.ltb) (ints data')).
Proof. split; [apply _|]. apply (Sort_correct Z.ltb ints IntSlice_laws). Defined.

(** [Search] on a predicate that is monotone on [0, n) returns the first
    index at which it is true, or [n]; it calls the predicate only inside
    [0, n), and its 32-bit index arithmetic does not overflow. *)
Theorem Search_correct (n : Z) (f : Z -> outcome bool) (g : Z -> bool) :
  0 <= n < 2 ^ 31 ->
  (forall i, 0 <= i < n -> f i = Done (g i)) ->
  (forall k, 0 <= k -> k + 1 < n -> g k = true -> g (k + 1) = true) ->
  returns (Search n f) (fun i => 0 <= i <= n /\ forall k, 0 <= k < n -> g k = (i <=? k)).
Proof.
  intros Hn Hf Hmono. go_mono Search_spec; [done|exact Hf|].
  intros i (Hi & Hlo & Hhi). split; [done|]. by apply Search_monotone.
Qed.

Lemma Search_correct_witness :
  returns (Search 2147483647 (fun i => if 0 <=? i then Done (1500000000 <=? i) else Panic))
    (fun i => 0 <= i <= 2147483647 /\ forall k, 0 <= k < 2147483647 -> (1500000000 <=? k) = (i <=? k)).
Proof.
  apply (Search_correct 2147483647 _ (fun i => 1500000000 <=? i)); [lia| |].
  - intros i Hi. by bool_decide_goal.
  - intros k Hk _. rewrite !Z.leb_le. lia.
Defined.

(** [IsSorted] reports exactly whether the elements are in increasing
    order. *)
Theorem IsSorted_correct {C T : Type} {HI : Interface C} (lt : T -> T -> bool)
    (view : C -> list T) (HL : SortLaws C T lt view) (data : C) :
  returns (IsSorted data) (fun b => b = true <-> StronglySorted (le lt) (view data)).
Proof. exact (IsSorted_spec lt view data). Qed.

Lemma IsSorted_correct_witness :
  SortLaws StringSlice (list Z) string_ltb strings /\
  returns (IsSorted {| strings := [[97]; [97; 98]; [98]] |}) (fun b =>
    b = true <-> StronglySorted (le string_ltb) [[97]; [97; 98]; [98]]).
Proof. split; [apply _|]. apply (IsSorted_correct string_ltb strings StringSlice_laws). Defined.

(** Sorting a slice with [Ints] and searching it with [SearchInts] finds
    the insertion point: the number of elements below [x]; and [x] occurs in
    the original slice exactly when it is found there. *)
Theorem Ints_SearchInts (a : list Z) (x : Z) :
  zlen a < 2 ^ 31 ->
  returns (a' ← Ints a; i ← SearchInts a' x; Done (a', i)) (fun '(a', i) =>
    i = zlen (filter (fun y => y < x) a) /\ (x ∈ a <-> a'.[i] = Some x)).
Proof.
  intros Hlen. go_call Ints_spec. intros a' [Hp Hs].
  go_call SearchInts_spec; [unfold zlen in *; by rewrite Hp|done|].
  intros i [Hi Hk]. go_ret. split.
  - unfold zlen in *. rewrite <- Hp, (filter_lt_take a' x i) by done.
    rewrite length_take. lia.
  - rewrite <- Hp. split; [|apply zlookup_elem].
    intros [n Hn]%list_elem_of_lookup. rewrite <- zlookup_nat in Hn.
    pose proof (zlookup_Some_lt _ _ _ Hn).
    assert (i <= Z.of_nat n) by (eapply Hk; [done|lia]).
    destruct (zlookup_lt a' i) as [y Hy]; [lia|]. rewrite Hy. f_equal.
    assert (x <= y) by (apply (Hk i y Hy); lia).
    assert (y <= x) by (apply (sorted_ints_lookup a' i (Z.of_nat n)); (done || lia)). lia.
Qed.

Lemma Ints_SearchInts_witness :
  returns (a' ← Ints [5; 2; 9; 2]; i ← SearchInts a' 5; Done (a', i)) (fun '(a', i) =>
    i = zlen (filter (fun y => y < 5) [5; 2; 9; 2]) /\ (5 ∈ [5; 2; 9; 2] <-> a'.[i] = Some 5)).
Proof. apply (Ints_SearchInts [5; 2; 9; 2] 5). vm_compute. reflexivity. Defined.
