(* ===== verification/Vector.v ===== *)
(** Package container/vector (src/go/src/pkg/container/vector): growing
    sequences on top of a backing array.

    A [Vector] is a Go slice at offset 0: its backing array [arr], whose length
    is the capacity, and the number [vlen] of elements in use.  The contract is
    that every operation acts on [contents], the elements in use, as the
    corresponding operation on sequences. *)

From S2P Require Import Prelude Sort.

Record Vector (A : Type) := MkVector { arr : list A; vlen : Z }.
Arguments MkVector {A} arr vlen.
Arguments arr {A} v.
Arguments vlen {A} v.

Definition initialSize : Z := 8.

(** * Operations *)

Section Code.
Context {A : Type} (zero : A).
Implicit Types (p : Vector A) (i j n : Z) (x : A).

Definition Len p : Z := vlen p.
Definition Cap p : Z := zlen (arr p).

(** Reading and writing element [i]: the bound is the length. *)
Definition At p i : outcome A :=
  if (0 <=? i) && (i <? vlen p) then idx (arr p) i else Panic.
Definition Set_ p i x : outcome (Vector A) :=
  if (0 <=? i) && (i <? vlen p)
  then a ← set_idx (arr p) i x; Done (MkVector a (vlen p)) else Panic.
(** [a[0:n]]: the bound is the capacity, as for every slice expression
    below ([slice (arr p)]). *)
Definition reslice p n : outcome (Vector A) :=
  if (0 <=? n) && (n <=? Cap p) then Done (MkVector (arr p) n) else Panic.

(** [make(Vector, length, capacity)]. *)
Definition make length capacity : outcome (Vector A) :=
  if (0 <=? length) && (length <=? capacity)
  then Done (MkVector (replicate (Z.to_nat capacity) zero) length) else Panic.

(** [copy(dst, src)]: the first [min(len(dst), len(src))] elements. *)
Definition copy (dst src : list A) : list A :=
  take (length dst) src ++ drop (length src) dst.

Definition contents p : list A := take (Z.to_nat (vlen p)) (arr p).

(** Replace the elements in use from [i] on by those of [l]. *)
Definition blit p i (l : list A) : Vector A :=
  MkVector (take (Z.to_nat i) (arr p) ++ l ++ drop (Z.to_nat i + length l) (arr p)) (vlen p).

Definition realloc p length capacity : outcome (Vector A) :=
  let capacity := if capacity <? initialSize then initialSize else capacity in
  let capacity := if capacity <? length then length else capacity in
  b ← make length capacity;
  Done (blit b 0 (take (Z.to_nat length) (contents p))).

Definition Expand p i n : outcome (Vector A) :=
  let len0 := vlen p in
  let len1 := int (len0 + n) in
  a ←
    (if len1 <=? Cap p then reslice p len1
     else
       let capb := int (Cap p * 2) in
       let capb := if capb <? len1 then len1 else capb in
       realloc p len1 capb);
  loop (S (Z.to_nat (len0 - i))) (fun '(a, j) =>
    if i <=? j then
      x ← At a j;
      a ← Set_ a (int (j + n)) x;
      Done (inl (a, j - 1))
    else Done (inr a)) (a, len0 - 1).

Definition Extend p n : outcome (Vector A) := Expand p (vlen p) n.

Definition Resize p length capacity : outcome (Vector A) :=
  a ←
    (if (Cap p <? length) || (Cap p <? capacity) then realloc p length capacity
     else if length <? vlen p then
       if 0 <=? length then
         Done (blit p length (replicate (Z.to_nat (vlen p - length)) zero))
       else Panic
     else Done p);
  reslice a length.

Definition Last p : outcome A := At p (vlen p - 1).

Definition Copy p : outcome (Vector A) :=
  b ← make (vlen p) (vlen p);
  Done (blit b 0 (contents p)).

Definition Insert p i x : outcome (Vector A) :=
  p ← Expand p i 1;
  Set_ p i x.

Definition Delete p i : outcome (Vector A) :=
  let n := vlen p in
  dst ← slice (arr p) i (n - 1);
  src ← slice (arr p) (i + 1) n;
  a ← Set_ (blit p i (copy dst src)) (n - 1) zero;
  reslice a (n - 1).

Definition InsertVector p i (x : Vector A) : outcome (Vector A) :=
  let b := contents x in
  p ← Expand p i (zlen b);
  dst ← slice (arr p) i (i + zlen b);
  Done (blit p i (copy dst b)).

Definition Cut p i j : outcome (Vector A) :=
  let n := vlen p in
  let m := n - (j - i) in
  dst ← slice (arr p) i m;
  src ← slice (arr p) j n;
  a ← loop (S (Z.to_nat (n - m))) (fun '(a, k) =>
    if k <? n then a ← Set_ a k zero; Done (inl (a, k + 1))
    else Done (inr a)) (blit p i (copy dst src), m);
  reslice a m.

Definition Slice p i j : outcome (Vector A) :=
  s ← realloc (MkVector [] 0) (j - i) 0;
  src ← slice (arr p) i j;
  Done (blit s 0 (copy (contents s) src)).

Definition Push p x : outcome (Vector A) := Insert p (vlen p) x.

Definition Pop p : outcome (A * Vector A) :=
  let i := vlen p - 1 in
  x ← At p i;
  a ← Set_ p i zero;
  a ← reslice a i;
  Done (x, a).

Definition AppendVector p (x : Vector A) : outcome (Vector A) := InsertVector p (vlen p) x.

Definition Swap p i j : outcome (Vector A) :=
  x ← At p i; y ← At p j;
  a ← Set_ p i y; Set_ a j x.
End Code.

(** * The contract *)

Section Spec.
Context {A : Type} (zero : A).
Implicit Types (p : Vector A) (i j n : Z) (x : A) (l : list A).

(** The length is within the capacity, and both are values of type [int]. *)
Definition wf p : Prop := 0 <= vlen p <= zlen (arr p) /\ zlen (arr p) < 2 ^ 31.

Lemma zlen_contents p : wf p -> zlen (contents p) = vlen p.
Proof. unfold wf, contents. rewrite zlen_take. lia. Qed.

Lemma contents_lookup p i : (contents p).[i] = if i <? Z.of_nat (Z.to_nat (vlen p)) then (arr p).[i] else None.
Proof. apply zlookup_take. Qed.

Lemma blit_lookup p i l k :
  0 <= i -> i + zlen l <= zlen (arr p) ->
  (arr (blit p i l)).[k] = if (i <=? k) && (k <? i + zlen l) then l.[k - i] else (arr p).[k].
Proof.
  intros Hi Hl. unfold blit; cbn [arr]. pose proof (zlen_nonneg l).
  autorewrite with go_look go_len.
  repeat case_bool; try lia; try done; f_equal; unfold zlen in *; lia.
Qed.

Lemma zlen_blit p i l :
  0 <= i -> i + zlen l <= zlen (arr p) -> zlen (arr (blit p i l)) = zlen (arr p).
Proof. intros. unfold blit; cbn [arr]. autorewrite with go_len. unfold zlen in *. lia. Qed.

Lemma At_done p i x : wf p -> (contents p).[i] = Some x -> At p i = Done x.
Proof.
  intros Hwf Hx. pose proof (zlookup_Some_lt _ _ _ Hx) as Hi. rewrite zlen_contents in Hi by done.
  unfold At, idx. rewrite contents_lookup in Hx. case_match; [|done].
  bool_decide_goal. simpl. by rewrite Hx.
Qed.

Lemma Set_spec p i x :
  wf p -> 0 <= i < vlen p ->
  returns (Set_ p i x) (fun p' => wf p' /\ vlen p' = vlen p /\ Cap p' = Cap p /\
    contents p' = <[Z.to_nat i:=x]> (contents p)).
Proof.
  intros Hwf Hi. unfold wf, Set_, Cap, contents in *. bool_decide_goal. simpl.
  rewrite set_idx_done by lia. go_ret. simpl. rewrite zlen_insert.
  split_and!; try (done || lia). by rewrite take_insert_lt by lia.
Qed.

Lemma reslice_spec p n :
  wf p -> 0 <= n <= Cap p ->
  returns (reslice p n) (fun p' => p' = MkVector (arr p) n /\ wf p').
Proof.
  intros. unfold reslice, wf, Cap in *. bool_decide_goal. go_ret. split; [done|]. simpl. lia.
Qed.

Lemma realloc_spec p length capacity :
  wf p -> 0 <= length < 2 ^ 31 -> capacity < 2 ^ 31 ->
  returns (realloc zero p length capacity) (fun p' => wf p' /\ vlen p' = length /\
    forall k, 0 <= k < length ->
      (arr p').[k] = if k <? vlen p then (arr p).[k] else Some zero).
Proof.
  intros Hwf Hl Hcap. unfold realloc, make, initialSize.
  set (cap1 := if capacity <? 8 then 8 else capacity).
  set (cap2 := if cap1 <? length then length else cap1).
  assert (length <= cap2 < 2 ^ 31).
  { unfold cap2, cap1. repeat case_bool; lia. }
  bool_decide_goal. cbn [andb mbind outcome_bind]. go_ret. unfold wf, Cap.
  pose proof (zlen_contents p Hwf).
  rewrite zlen_blit; cbn [arr]; autorewrite with go_len; [|lia..]. unfold wf in Hwf.
  split_and!; try (done || lia); [cbn [vlen blit]; lia..|]. intros k Hk.
  rewrite blit_lookup; cbn [arr]; autorewrite with go_len go_look; [|lia..].
  rewrite contents_lookup. repeat case_bool; try lia; try done; rewrite ?Z.sub_0_r in *; try lia; try done.
Qed.

(** [Expand] opens a hole of [n] elements at [i]; what is in the hole is not
    specified. *)
Lemma Expand_spec p i n :
  wf p -> 0 <= i <= vlen p -> 0 <= n -> vlen p + n < 2 ^ 31 ->
  returns (Expand zero p i n) (fun p' => wf p' /\ vlen p' = vlen p + n /\
    forall k, 0 <= k < vlen p ->
      (arr p').[if k <? i then k else k + n] = (contents p).[k]).
Proof.
  intros Hwf Hi Hn Hlen. unfold Expand. pose proof Hwf as Hwf'. unfold wf in Hwf'.
  rewrite int_small by lia.
  eapply returns_bind with (P := fun a => wf a /\ vlen a = vlen p + n /\
    forall k, 0 <= k < vlen p -> (arr a).[k] = (contents p).[k]).
  { unfold Cap in *. case_bool.
    - go_mono reslice_spec; [done|unfold Cap; lia|]. intros p' [-> Hwf'']. simpl.
      split_and!; try done. intros k Hk. rewrite contents_lookup. by bool_decide_goal.
    - go_mono realloc_spec; [done|lia|case_bool; [lia|apply int_range]|]. intros p' (? & ? & Hk). split_and!; try done.
      intros k Hk'. rewrite Hk, contents_lookup by lia. by bool_decide_goal. }
  intros a (Hwfa & Hla & Ha).
  apply (loop_returns (fun '(a', j) => i - 1 <= j < vlen p /\ wf a' /\ vlen a' = vlen p + n /\
    forall k, 0 <= k < vlen p ->
      (arr a').[if k <=? j then k else k + n] = (contents p).[k])
    (fun '(_, j) => Z.to_nat (j + 1 - i))); [| |lia].
  2: { split_and!; try (done || lia). intros k Hk. bool_decide_goal. by apply Ha. }
  clear a Hwfa Hla Ha. intros [a j] (Hj & Hwfa & Hla & Ha). case_bool.
  - destruct (zlookup_lt (contents p) j) as [x Hx]; [rewrite zlen_contents; (done || lia)|].
    pose proof (Ha j ltac:(lia)) as Haj. rewrite Z.leb_refl, Hx in Haj.
    rewrite (At_done a j x); [|done|rewrite contents_lookup; bool_decide_goal; done]. simpl.
    rewrite int_small by lia.
    unfold Set_. bool_decide_goal. simpl. rewrite set_idx_done by (unfold wf in Hwfa; lia).
    go_ret. unfold wf in *. simpl. rewrite zlen_insert. split_and!; try (done || lia).
    intros k Hk. rewrite zlookup_insert by lia.
    specialize (Ha k Hk). destruct (Z.leb_spec k j), (Z.leb_spec k (j - 1)); try lia;
      case_bool; try lia; try done. assert (k = j) as -> by lia. done.
  - go_ret. split_and!; [done..|]. intros k Hk. specialize (Ha k Hk).
    destruct (Z.leb_spec k j), (Z.ltb_spec k i); try lia; done.
Qed.

(** The contents after [Expand], when the hole is filled with [l]. *)
Lemma contents_hole p p' i l :
  wf p -> wf p' -> 0 <= i <= vlen p -> vlen p' = vlen p + zlen l ->
  (forall k, 0 <= k < vlen p ->
     (arr p').[if k <? i then k else k + zlen l] = (contents p).[k]) ->
  (forall k, 0 <= k < zlen l -> (arr p').[i + k] = l.[k]) ->
  contents p' = take (Z.to_nat i) (contents p) ++ l ++ drop (Z.to_nat i) (contents p).
Proof.
  intros Hwf Hwf' Hi Hlen Hk Hl. pose proof (zlen_nonneg l).
  pose proof (zlen_contents p Hwf). pose proof (zlen_contents p' Hwf').
  apply list_eq_zlookup; autorewrite with go_len; [lia|]. intros k Hk'.
  rewrite contents_lookup. autorewrite with go_look go_len. bool_decide_goal.
  repeat case_bool; try lia.
  - rewrite <- Hk by lia. by bool_decide_goal.
  - rewrite <- Hl by lia. f_equal. lia.
  - rewrite <- Hk by lia. bool_decide_goal. f_equal. lia.
Qed.

Lemma Insert_spec p i x :
  wf p -> 0 <= i <= vlen p -> vlen p + 1 < 2 ^ 31 ->
  returns (Insert zero p i x) (fun p' => wf p' /\
    contents p' = take (Z.to_nat i) (contents p) ++ x :: drop (Z.to_nat i) (contents p)).
Proof.
  intros Hwf Hi Hlen. unfold Insert.
  go_call Expand_spec; [done|lia..|]. intros p1 (Hwf1 & Hl1 & Hk1).
  pose proof Hwf1 as Hb1. unfold wf in Hb1.
  unfold Set_. bool_decide_goal. simpl. rewrite set_idx_done by lia. go_ret.
  assert (wf (MkVector (<[Z.to_nat i:=x]> (arr p1)) (vlen p1))) as Hwf2.
  { unfold wf; simpl. rewrite zlen_insert. lia. }
  split; [done|].
  apply (contents_hole p _ i [x]); try done; simpl.
  - intros k Hk. rewrite <- Hk1 by done. rewrite zlookup_insert by lia.
    change (zlen [x]) with 1. by destruct (Z.ltb_spec k i); bool_decide_goal.
  - change (zlen [x]) with 1. intros k Hk. rewrite zlookup_insert by lia.
    replace k with 0 by lia. by rewrite Z.add_0_r, Z.eqb_refl.
Qed.

Lemma InsertVector_spec p i v :
  wf p -> wf v -> 0 <= i <= vlen p -> vlen p + vlen v < 2 ^ 31 ->
  returns (InsertVector zero p i v) (fun p' => wf p' /\
    contents p' = take (Z.to_nat i) (contents p) ++ contents v ++ drop (Z.to_nat i) (contents p)).
Proof.
  intros Hwf Hwfv Hi Hlen. unfold InsertVector.
  pose proof (zlen_contents v Hwfv) as Hv. pose proof (zlen_nonneg (contents v)).
  go_call Expand_spec; [done|lia..|]. intros p1 (Hwf1 & Hl1 & Hk1).
  pose proof Hwf1 as Hb1. unfold wf in Hb1. rewrite slice_done by lia. cbn [mbind outcome_bind].
  go_ret. set (d := take _ (drop _ (arr p1))).
  assert (zlen d = zlen (contents v)) by (unfold d; autorewrite with go_len; lia).
  assert (copy d (contents v) = contents v) as ->.
  { unfold copy. unfold zlen in *. rewrite drop_ge by lia. rewrite take_ge by lia.
    apply app_nil_r. }
  assert (wf (blit p1 i (contents v))).
  { unfold wf. rewrite zlen_blit by lia. simpl. lia. }
  split; [done|]. apply contents_hole; try done.
  - intros k Hk. rewrite <- Hk1 by done. rewrite blit_lookup by lia.
    destruct (Z.ltb_spec k i); case_bool; try lia; done.
  - intros k Hk. rewrite blit_lookup by lia. bool_decide_goal. simpl. f_equal. lia.
Qed.

Lemma vec_Push_spec p x :
  wf p -> vlen p + 1 < 2 ^ 31 ->
  returns (Push zero p x) (fun p' => wf p' /\ contents p' = contents p ++ [x]).
Proof.
  intros Hwf ?. unfold Push. pose proof (zlen_contents p Hwf) as Hl. pose proof Hwf as [[? ?] ?].
  go_mono Insert_spec; [done|lia..|]. intros p' [? ->]. split; [done|].
  unfold zlen in Hl. by rewrite take_ge, drop_ge by lia.
Qed.

Lemma vec_Pop_spec p l x :
  wf p -> contents p = l ++ [x] ->
  returns (Pop zero p) (fun '(y, p') => y = x /\ wf p' /\ contents p' = l).
Proof.
  intros Hwf Hc. unfold Pop. pose proof (zlen_contents p Hwf) as Hl.
  rewrite Hc in Hl. autorewrite with go_len in Hl. pose proof (zlen_nonneg l).
  rewrite (At_done p _ x); [|done|rewrite Hc; autorewrite with go_look; bool_decide_goal; done].
  simpl. go_call Set_spec; [done|lia|]. intros p1 (Hwf1 & Hl1 & Hcap1 & Hc1).
  unfold wf, Cap in *. go_call reslice_spec; [done|unfold Cap; lia|]. intros p2 [-> Hwf2].
  go_ret. split; [done|]. split; [exact Hwf2|]. unfold contents in *. simpl.
  replace (Z.to_nat (vlen p - 1)) with (length l) by (unfold zlen in *; lia).
  replace (take (length l) (arr p1)) with (take (length l) (take (Z.to_nat (vlen p1)) (arr p1)))
    by (rewrite take_take; f_equal; unfold zlen in *; lia).
  rewrite Hc1, Hc, take_insert_ge by (unfold zlen in *; lia).
  by rewrite take_app_length.
Qed.

(** Moving the tail [v[j:n]] down to [i] closes the gap. *)
Lemma close_gap p i j :
  wf p -> 0 <= i <= j -> j <= vlen p ->
  let tl := take (Z.to_nat (vlen p - j)) (drop (Z.to_nat j) (arr p)) in
  let p' := blit p i tl in
  wf p' /\ zlen tl = vlen p - j /\
  forall k, 0 <= k < vlen p - (j - i) ->
    (arr p').[k] = (take (Z.to_nat i) (contents p) ++ drop (Z.to_nat j) (contents p)).[k].
Proof.
  intros Hwf Hi Hj tl p'. pose proof (zlen_contents p Hwf). pose proof Hwf as [[? ?] ?].
  assert (zlen tl = vlen p - j) as Htl by (unfold tl; autorewrite with go_len; lia).
  split_and!; [|done|].
  - unfold wf, p'. rewrite zlen_blit by lia. done.
  - intros k Hk. unfold p'. rewrite blit_lookup, Htl by lia.
    autorewrite with go_look go_len. rewrite !contents_lookup.
    unfold tl. autorewrite with go_look.
    repeat case_bool; try lia; try done; f_equal; lia.
Qed.

Lemma copy_same (dst src : list A) : length dst = length src -> copy dst src = src.
Proof. intros Hl. unfold copy. rewrite drop_ge, take_ge by lia. apply app_nil_r. Qed.

Lemma Cut_spec p i j :
  wf p -> 0 <= i <= j -> j <= vlen p ->
  returns (Cut zero p i j) (fun p' => wf p' /\ Cap p' = Cap p /\
    contents p' = take (Z.to_nat i) (contents p) ++ drop (Z.to_nat j) (contents p)).
Proof.
  intros Hwf Hi Hj. unfold Cut. pose proof Hwf as [[? ?] ?].
  rewrite !slice_done by lia. cbn [mbind outcome_bind].
  rewrite copy_same by (rewrite !length_take, !length_drop; unfold zlen in *; lia).
  destruct (close_gap p i j Hwf Hi Hj) as (Hwf1 & Htl & Hk1).
  set (p1 := blit p i _) in *. set (m := vlen p - (j - i)) in *.
  assert (Hcap1 : zlen (arr p1) = zlen (arr p)) by (unfold p1; rewrite zlen_blit; lia).
  eapply returns_bind with (P := fun a => wf a /\ Cap a = Cap p /\
    forall k, k < m -> (arr a).[k] = (arr p1).[k]).
  - apply (loop_returns (fun '(a, k) => m <= k <= vlen p /\ wf a /\ vlen a = vlen p /\
      Cap a = Cap p /\ forall k, k < m -> (arr a).[k] = (arr p1).[k])
      (fun '(_, k) => Z.to_nat (vlen p - k))); [| |lia].
    2: { split_and!; try done; lia. }
    intros [a k] (Hk & Hwfa & Hla & Hca & Hka). case_bool; [|by go_ret].
    unfold Set_. bool_decide_goal. cbn [andb]. pose proof Hwfa as [[? ?] ?].
    rewrite set_idx_done by lia. go_ret. unfold wf, Cap in *; simpl. rewrite zlen_insert.
    split_and!; try (done || lia). intros k' Hk'. rewrite zlookup_insert by lia.
    bool_decide_goal. by apply Hka.
  - intros a (Hwfa & Hca & Hka). unfold Cap in *.
    go_mono reslice_spec; [done|unfold Cap; lia|]. intros p' [-> Hwf']. split_and!; try done.
    pose proof (zlen_contents p Hwf). pose proof (zlen_contents _ Hwf') as Hl'. cbn [vlen] in Hl'.
    apply list_eq_zlookup; [autorewrite with go_len; lia|]. intros k Hk.
    rewrite contents_lookup; cbn [vlen arr]. bool_decide_goal. rewrite Hka, Hk1 by lia. done.
Qed.

Lemma Delete_spec p i :
  wf p -> 0 <= i < vlen p ->
  returns (Delete zero p i) (fun p' => wf p' /\
    contents p' = take (Z.to_nat i) (contents p) ++ drop (Z.to_nat (i + 1)) (contents p)).
Proof.
  intros Hwf Hi. unfold Delete. pose proof Hwf as [[? ?] ?].
  rewrite !slice_done by lia. cbn [mbind outcome_bind].
  rewrite copy_same by (rewrite !length_take, !length_drop; unfold zlen in *; lia).
  destruct (close_gap p i (i + 1) Hwf) as (Hwf1 & Htl & Hk1); [lia..|].
  set (p1 := blit p i _) in *.
  assert (Hcap1 : zlen (arr p1) = zlen (arr p)) by (unfold p1; rewrite zlen_blit; lia).
  assert (Hv1 : vlen p1 = vlen p) by done. clearbody p1.
  unfold Set_. rewrite Hv1. bool_decide_goal. cbn [andb].
  rewrite set_idx_done by lia. cbn [mbind outcome_bind].
  go_mono reslice_spec; [unfold wf; simpl; rewrite zlen_insert; lia
                        |unfold Cap; simpl; rewrite zlen_insert; lia|].
  intros p' [-> Hwf']. split; [done|].
  pose proof (zlen_contents p Hwf). pose proof (zlen_contents _ Hwf') as Hl'. cbn [vlen] in Hl'.
  apply list_eq_zlookup; [autorewrite with go_len; lia|]. intros k Hk.
  rewrite contents_lookup; cbn [vlen arr]. bool_decide_goal.
  rewrite zlookup_insert by lia. bool_decide_goal. apply Hk1. lia.
Qed.

Lemma Slice_spec p i j :
  wf p -> 0 <= i <= j -> j <= vlen p ->
  returns (Slice zero p i j) (fun s => wf s /\ vlen s = j - i /\
    contents s = take (Z.to_nat (j - i)) (drop (Z.to_nat i) (contents p))).
Proof.
  intros Hwf Hi Hj. unfold Slice. pose proof Hwf as [[? ?] ?].
  go_call (realloc_spec (MkVector [] 0)); [done|lia|lia|]. intros s (Hwfs & Hls & _).
  rewrite slice_done by lia. cbn [mbind outcome_bind]. go_ret.
  pose proof (zlen_contents s Hwfs). pose proof Hwfs as [[? ?] ?]. pose proof (zlen_contents p Hwf).
  rewrite copy_same by (rewrite length_take, length_drop; unfold zlen in *; lia).
  set (l := take _ (drop _ (arr p))).
  assert (zlen l = j - i) as Hl by (unfold l; autorewrite with go_len; lia).
  assert (wf (blit s 0 l)) as Hwf'. { unfold wf. rewrite zlen_blit by lia. done. }
  split; [done|]. split; [done|]. pose proof (zlen_contents _ Hwf') as Hl'.
  change (vlen (blit s 0 l)) with (vlen s) in Hl'.
  apply list_eq_zlookup; [autorewrite with go_len; lia|]. intros k Hk.
  rewrite contents_lookup. change (vlen (blit s 0 l)) with (vlen s).
  rewrite blit_lookup by lia. bool_decide_goal. simpl. unfold l.
  autorewrite with go_look. rewrite contents_lookup. bool_decide_goal. f_equal. lia.
Qed.

Lemma Swap_spec p i j x y :
  wf p -> (contents p).[i] = Some x -> (contents p).[j] = Some y ->
  returns (Swap p i j) (fun p' => wf p' /\ contents p' = <[Z.to_nat j:=x]> (<[Z.to_nat i:=y]> (contents p))).
Proof.
  intros Hwf Hx Hy. unfold Swap. rewrite (At_done _ _ _ Hwf Hx), (At_done _ _ _ Hwf Hy). cbn [mbind outcome_bind].
  apply zlookup_Some_lt in Hx, Hy. rewrite zlen_contents in Hx, Hy by done.
  go_call Set_spec; [done|lia|]. intros p1 (Hwf1 & Hl1 & _ & Hc1).
  go_mono Set_spec; [done|lia|]. intros p2 (Hwf2 & _ & _ & Hc2). by rewrite Hc2, Hc1.
Qed.

Lemma Copy_spec p : wf p -> returns (Copy zero p) (fun s => wf s /\ contents s = contents p).
Proof.
  intros Hwf. unfold Copy, make. pose proof Hwf as [[? ?] ?]. pose proof (zlen_contents p Hwf) as Hl.
  bool_decide_goal. cbn [andb mbind outcome_bind]. go_ret.
  set (b := MkVector _ _). assert (Hb : zlen (arr b) = vlen p) by (unfold b; simpl; rewrite zlen_replicate; lia).
  assert (Hwf' : wf (blit b 0 (contents p))) by (unfold wf; rewrite zlen_blit, Hb by lia; change (vlen (blit b 0 _)) with (vlen p); lia).
  split; [done|]. pose proof (zlen_contents _ Hwf') as Hl'. change (vlen (blit b 0 _)) with (vlen p) in Hl'.
  apply list_eq_zlookup; [lia|]. intros k Hk. rewrite contents_lookup, blit_lookup by lia. change (vlen (blit b 0 _)) with (vlen p).
  bool_decide_goal. simpl. f_equal. lia.
Qed.

(** [Resize] to at most the length keeps the first elements. *)
Lemma Resize_spec p length capacity :
  wf p -> 0 <= length <= vlen p -> capacity < 2 ^ 31 ->
  returns (Resize zero p length capacity) (fun p' => wf p' /\ contents p' = take (Z.to_nat length) (contents p)).
Proof.
  intros Hwf Hl Hc. unfold Resize. pose proof Hwf as [[? ?] ?].
  eapply returns_bind with (P := fun a => wf a /\ length <= Cap a /\ forall k, 0 <= k < length -> (arr a).[k] = (arr p).[k]).
  - unfold Cap. case_bool.
    + go_mono realloc_spec; [done|lia|done|]. intros a (Hwfa & Hla & Ha). pose proof Hwfa as [[? ?] ?]. split_and!; [done|lia|].
      intros k Hk. rewrite Ha by done. by bool_decide_goal.
    + case_bool; [|by go_ret]. bool_decide_goal. go_ret. set (z := replicate _ zero).
      assert (zlen z = vlen p - length) as Hz by (unfold z; rewrite zlen_replicate; lia).
      unfold wf. rewrite zlen_blit by lia. split_and!; [simpl; lia..|]. intros k Hk. rewrite blit_lookup by lia. by bool_decide_goal.
  - intros a (Hwfa & Hla & Ha). go_mono reslice_spec; [done|lia|]. intros p' [-> Hwf']. split; [done|].
    pose proof (zlen_contents p Hwf). pose proof (zlen_contents _ Hwf') as Hl'. cbn [vlen] in Hl'.
    apply list_eq_zlookup; [autorewrite with go_len; lia|]. intros k Hk. autorewrite with go_look. rewrite !contents_lookup.
    cbn [vlen arr]. bool_decide_goal. apply Ha. lia.
Qed.
End Spec.

(** * Vectors refine sequences *)

Inductive vop (A : Type) :=
| OPush (x : A)
| OPop
| OSet (i : Z) (x : A)
| OInsert (i : Z) (x : A)
| ODelete (i : Z)
| OCut (i j : Z)
| OInsertVector (i : Z) (v : Vector A)
| OAppendVector (v : Vector A)
| OSwap (i j : Z)
| OResize (length capacity : Z)
| OAt (i : Z)
| OLast
| OSlice (i j : Z)
| OCopy.
Arguments OPush {A} x.
Arguments OPop {A}.
Arguments OSet {A} i x.
Arguments OInsert {A} i x.
Arguments ODelete {A} i.
Arguments OCut {A} i j.
Arguments OInsertVector {A} i v.
Arguments OAppendVector {A} v.
Arguments OSwap {A} i j.
Arguments OResize {A} length capacity.
Arguments OAt {A} i.
Arguments OLast {A}.
Arguments OSlice {A} i j.
Arguments OCopy {A}.

Section Refinement.
Context {A : Type} (zero : A).
Implicit Types (p : Vector A) (l : list A).

(** One operation on a vector: the new vector and the elements returned. *)
Definition run_op p (op : vop A) : outcome (Vector A * list A) :=
  match op with
  | OPush x => p ← Push zero p x; Done (p, [])
  | OPop => '(x, p) ← Pop zero p; Done (p, [x])
  | OSet i x => p ← Set_ p i x; Done (p, [])
  | OInsert i x => p ← Insert zero p i x; Done (p, [])
  | ODelete i => p ← Delete zero p i; Done (p, [])
  | OCut i j => p ← Cut zero p i j; Done (p, [])
  | OInsertVector i v => p ← InsertVector zero p i v; Done (p, [])
  | OAppendVector v => p ← AppendVector zero p v; Done (p, [])
  | OSwap i j => p ← Swap p i j; Done (p, [])
  | OResize length capacity => p ← Resize zero p length capacity; Done (p, [])
  | OAt i => x ← At p i; Done (p, [x])
  | OLast => x ← Last p; Done (p, [x])
  | OSlice i j => s ← Slice zero p i j; Done (p, contents s)
  | OCopy => s ← Copy zero p; Done (p, contents s)
  end.

(** The contents of a vector that is passed as an argument. *)
Definition arg (v : Vector A) : option (list A) :=
  if (0 <=? vlen v) && (vlen v <=? zlen (arr v)) && (zlen (arr v) <? 2 ^ 31) then Some (contents v) else None.

Definition insert_at (i : Z) (new l : list A) : option (list A) :=
  if (0 <=? i) && (i <=? zlen l) && (zlen l + zlen new <? 2 ^ 31)
  then Some (take (Z.to_nat i) l ++ new ++ drop (Z.to_nat i) l) else None.

(** The same operation on a sequence; [None] where it is not allowed. *)
Definition abs_op l (op : vop A) : option (list A * list A) :=
  match op with
  | OPush x => if zlen l + 1 <? 2 ^ 31 then Some (l ++ [x], []) else None
  | OPop => match reverse l with [] => None | x :: r => Some (reverse r, [x]) end
  | OSet i x =>
      if (0 <=? i) && (i <? zlen l) then Some (<[Z.to_nat i:=x]> l, []) else None
  | OInsert i x =>
      if (0 <=? i) && (i <=? zlen l) && (zlen l + 1 <? 2 ^ 31)
      then Some (take (Z.to_nat i) l ++ x :: drop (Z.to_nat i) l, []) else None
  | ODelete i =>
      if (0 <=? i) && (i <? zlen l)
      then Some (take (Z.to_nat i) l ++ drop (Z.to_nat (i + 1)) l, []) else None
  | OCut i j =>
      if (0 <=? i) && (i <=? j) && (j <=? zlen l)
      then Some (take (Z.to_nat i) l ++ drop (Z.to_nat j) l, []) else None
  | OInsertVector i v => new ← arg v; l ← insert_at i new l; Some (l, [])
  | OAppendVector v => new ← arg v; l ← insert_at (zlen l) new l; Some (l, [])
  | OSwap i j => x ← l.[i]; y ← l.[j]; Some (<[Z.to_nat j:=x]> (<[Z.to_nat i:=y]> l), [])
  | OResize length capacity =>
      if (0 <=? length) && (length <=? zlen l) && (capacity <? 2 ^ 31) then Some (take (Z.to_nat length) l, []) else None
  | OAt i => x ← l.[i]; Some (l, [x])
  | OLast => x ← l.[zlen l - 1]; Some (l, [x])
  | OSlice i j =>
      if (0 <=? i) && (i <=? j) && (j <=? zlen l)
      then Some (l, take (Z.to_nat (j - i)) (drop (Z.to_nat i) l)) else None
  | OCopy => Some (l, l)
  end.

Fixpoint run p (ops : list (vop A)) : outcome (Vector A * list A) :=
  match ops with
  | [] => Done (p, [])
  | op :: ops => '(p, o) ← run_op p op; '(p, os) ← run p ops; Done (p, o ++ os)
  end.

Fixpoint abs_run l (ops : list (vop A)) : option (list A * list A) :=
  match ops with
  | [] => Some (l, [])
  | op :: ops => '(l, o) ← abs_op l op; '(l, os) ← abs_run l ops; Some (l, o ++ os)
  end.

Lemma insert_refines p i v new l' :
  wf p -> arg v = Some new -> insert_at i new (contents p) = Some l' ->
  returns (InsertVector zero p i v) (fun p' => wf p' /\ contents p' = l').
Proof.
  intros Hwf. unfold arg, insert_at. case_bool; [|done]. intros [= <-]. assert (wf v) as Hwfv by (unfold wf; lia).
  rewrite !zlen_contents by done. case_bool; [|done]. intros [= <-]. by apply InsertVector_spec; try lia.
Qed.

Lemma run_op_refines p op l' o :
  wf p -> abs_op (contents p) op = Some (l', o) ->
  returns (run_op p op) (fun '(p', o') => o' = o /\ wf p' /\ contents p' = l').
Proof.
  intros Hwf. pose proof (zlen_contents p Hwf) as Hl.
  destruct op as [x| |i x|i x|i|i j|i v|v|i j|n m|i| |i j|]; simpl; rewrite ?Hl;
    try (case_bool; [|done]); intros Ho; simplify_eq.
  - go_call vec_Push_spec; [done|lia|]. intros p' [? ?]. by go_ret.
  - destruct (reverse (contents p)) as [|x r] eqn:Hr; simplify_eq.
    assert (contents p = reverse r ++ [x]) as Hc.
    { by rewrite <- reverse_cons, <- Hr, reverse_involutive. }
    go_call vec_Pop_spec; [done..|]. intros [y p'] (-> & ? & ?). by go_ret.
  - go_call Set_spec; [done|lia|]. intros p' (? & _ & _ & ?). by go_ret.
  - go_call Insert_spec; [done|lia..|]. intros p' [? ?]. by go_ret.
  - go_call Delete_spec; [done|lia..|]. intros p' [? ?]. by go_ret.
  - go_call Cut_spec; [done|lia..|]. intros p' (? & _ & ?). by go_ret.
  - destruct (arg v) as [new|] eqn:Ev; [|done]. simpl in Ho. destruct (insert_at i new (contents p)) eqn:Ei; [|done]. simplify_eq/=.
    go_call insert_refines; [done..|]. intros p' [? ?]. by go_ret.
  - destruct (arg v) as [new|] eqn:Ev; [|done]. simpl in Ho. destruct (insert_at _ new (contents p)) eqn:Ei; [|done]. simplify_eq/=.
    unfold AppendVector. go_call insert_refines; [done..|]. intros p' [? ?]. by go_ret.
  - destruct ((contents p).[i]) as [x|] eqn:Ex; [|done]. simpl in Ho. destruct ((contents p).[j]) as [y|] eqn:Ey; [|done]. simplify_eq/=.
    go_call Swap_spec; [done..|]. intros p' [? ?]. by go_ret.
  - go_call Resize_spec; [done|lia..|]. intros p' [? ?]. by go_ret.
  - destruct ((contents p).[i]) as [x|] eqn:Ex; [|done]. simplify_eq/=. rewrite (At_done _ _ _ Hwf Ex). by go_ret.
  - destruct ((contents p).[vlen p - 1]) as [x|] eqn:Ex; [|done]. simplify_eq/=. unfold Last. rewrite (At_done _ _ _ Hwf Ex). by go_ret.
  - go_call Slice_spec; [done|lia..|]. intros s (? & _ & Hs). go_ret. by rewrite Hs.
  - go_call Copy_spec; [done|]. intros s [? Hs]. go_ret. by rewrite Hs.
Qed.

Lemma run_refines ops p l' os :
  wf p -> abs_run (contents p) ops = Some (l', os) ->
  returns (run p ops) (fun '(p', os') => os' = os /\ wf p' /\ contents p' = l').
Proof.
  revert p l' os. induction ops as [|op ops IH]; intros p l' os Hwf; simpl.
  { intros; simplify_eq. by go_ret. }
  destruct (abs_op (contents p) op) as [[l1 o1]|] eqn:E1; [|done]. simpl.
  destruct (abs_run l1 ops) as [[l2 os2]|] eqn:E2; [|done]. simpl. intros; simplify_eq.
  go_call run_op_refines; [done..|]. intros [p1 o1'] (-> & Hwf1 & <-).
  go_call IH; [done..|]. intros [p2 os2'] (-> & Hwf2 & <-). by go_ret.
Qed.
End Refinement.

(** * Properties *)

(** C15. Vectors implement sequences: from any well-formed vector, every
    program of Push, Pop, Set, Insert, Delete, Cut, InsertVector, AppendVector,
    Swap, Resize to at most the length, At, Last, Slice and Copy that is allowed
    on the sequence of its elements (indices in range, lengths below [2^31]) runs
    without a panic, returns the same elements and leaves the same sequence,
    whatever the growth of the backing array was. *)
Theorem vector_refines_sequence {A : Type} (zero : A) (ops : list (vop A)) (p : Vector A) l' os :
  wf p -> abs_run (contents p) ops = Some (l', os) ->
  returns (run zero p ops) (fun '(p', os') => os' = os /\ wf p' /\ contents p' = l').
Proof. apply run_refines. Qed.

Definition demo_ops : list (vop Z) :=
  [OPush 1; OPush 2; OInsert 0 9; OInsert 1 7; OPop; OPush 4; ODelete 0; OSet 0 6; OPush 5; OCut 1 3;
   OInsertVector 1 (MkVector [3; 4; 0] 2); OSwap 0 3; OAt 0; OSlice 1 3; OResize 3 0; OLast; OCopy].

Lemma vector_refines_sequence_witness :
  wf (MkVector ([] : list Z) 0) /\ abs_run [] demo_ops = Some ([5; 3; 4], [2; 5; 3; 4; 4; 5; 3; 4]) /\
  returns (run 0 (MkVector [] 0) demo_ops) (fun '(p', os') =>
    os' = [2; 5; 3; 4; 4; 5; 3; 4] /\ wf p' /\ contents p' = [5; 3; 4]).
Proof.
  assert (wf (MkVector ([] : list Z) 0)) as Hwf by (unfold wf; simpl; done).
  split; [done|]. split; [vm_compute; reflexivity|].
  apply (vector_refines_sequence 0 demo_ops); [done|vm_compute; reflexivity].
Defined.

(** Taking a slice of a vector out of it and inserting it again restores
    the vector. *)
Theorem Slice_Cut_InsertVector {A : Type} (zero : A) (p : Vector A) (i j : Z) :
  wf p -> 0 <= i <= j -> j <= vlen p ->
  returns (s ← Slice zero p i j; p ← Cut zero p i j; InsertVector zero p i s)
    (fun p' => wf p' /\ contents p' = contents p).
Proof.
  intros Hwf Hi Hj. pose proof (zlen_contents p Hwf) as Hl. pose proof Hwf as [[? ?] ?].
  go_call Slice_spec; [done|lia..|]. intros s (Hwfs & Hls & Hs).
  go_call Cut_spec; [done|lia..|]. intros p1 (Hwf1 & Hc1 & Hp1).
  assert (vlen p1 = vlen p - (j - i)) as Hl1.
  { rewrite <- (zlen_contents p1), Hp1 by done. autorewrite with go_len. lia. }
  go_mono InsertVector_spec; [done..|lia|lia|]. intros p2 [? ->]. split; [done|].
  rewrite Hp1, Hs. pose proof (zlen_contents p Hwf). list_solve.
Qed.

Lemma Slice_Cut_InsertVector_witness :
  let p := MkVector [1; 2; 3; 4; 5; 0; 0; 0] 5 in
  wf p /\
  returns (s ← Slice 0 p 1 3; p ← Cut 0 p 1 3; InsertVector 0 p 1 s)
    (fun p' => wf p' /\ contents p' = [1; 2; 3; 4; 5]).
Proof.
  intros p. assert (wf p) as Hwf by (unfold wf; vm_compute; split; [split|]; done).
  split; [done|]. apply (Slice_Cut_InsertVector 0 p 1 3); [done|lia|simpl; lia].
Defined.
