(* ===== verification/Heap.v ===== *)
(** Package container/heap (src/go/src/pkg/container/heap): binary heaps over
    any collection that offers [sort.Interface] and [Push]/[Pop] at its end.

    The loops are modelled with their 32-bit index arithmetic: [2*i+1] wraps,
    so the results hold for heaps of at most [2^30] elements, and
    [Remove_overflow] shows what happens beyond. *)

From stdpp Require Import sorting.
From S2P Require Import Prelude Sort.
From S2P Require Vector.

(** [h.Push] and [h.Pop] are the methods of the collection; the functions of
    the package of the same names are [Push] and [Pop] below. *)
Class HeapInterface (C X : Type) := {
  heap_sort :: Interface C;
  h_Push : C -> X -> outcome C;
  h_Pop : C -> outcome (X * C)
}.

(** * Operations *)

Section Code.
Context {C X : Type} `{!HeapInterface C X}.

Definition up (h : C) (j : Z) : outcome C :=
  loop (S (Z.to_nat j)) (fun '(h, j) =>
    let i := Z.quot (int (j - 1)) 2 in
    if i =? j then Done (inr h) else
    less ← Less h i j;
    if (less : bool) then Done (inr h) else
    h ← Swap h i j;
    Done (inl (h, i))) (h, j).

Definition down (h : C) (i n : Z) : outcome C :=
  loop (S (Z.to_nat (n - i))) (fun '(h, i) =>
    let j1 := int (int (2 * i) + 1) in
    if n <=? j1 then Done (inr h) else
    let j2 := int (j1 + 1) in
    right ← (if j2 <? n then less ← Less h j1 j2; Done (negb less) else Done false);
    let j := if (right : bool) then j2 else j1 in
    less ← Less h i j;
    if (less : bool) then Done (inr h) else
    h ← Swap h i j;
    Done (inl (h, j))) (h, i).

Definition Init (h : C) : outcome C :=
  let n := Len h in
  loop (S (Z.to_nat (Z.quot n 2))) (fun '(h, i) =>
    if 0 <=? i then
      h ← down h i n;
      Done (inl (h, i - 1))
    else Done (inr h)) (h, Z.quot n 2 - 1).

Definition Push (h : C) (x : X) : outcome C :=
  h ← h_Push h x;
  up h (Len h - 1).

Definition Pop (h : C) : outcome (X * C) :=
  let n := Len h - 1 in
  h ← Swap h 0 n;
  h ← down h 0 n;
  h_Pop h.

Definition Remove (h : C) (i : Z) : outcome (X * C) :=
  let n := Len h - 1 in
  h ← (if negb (n =? i) then
         h ← Swap h i n;
         h ← down h i n;
         up h i
       else Done h);
  h_Pop h.
End Code.

(** What the collection promises: [h.Push] appends (at least up to [2^30]
    elements), [h.Pop] removes the last element. *)
Class HeapLaws (C X : Type) `{!HeapInterface C X} (lt : X -> X -> bool) (view : C -> list X) := {
  heap_sort_laws :: SortLaws C X lt view;
  h_Push_view h x : zlen (view h) < 2 ^ 30 -> returns (h_Push h x) (fun h' => view h' = view h ++ [x]);
  h_Pop_view h v x : view h = v ++ [x] -> returns (h_Pop h) (fun '(y, h') => y = x /\ view h' = v)
}.

(** * The heap invariant *)

Section Invariant.
Context {X : Type} (lt : X -> X -> bool) `{!StrictWeakOrder lt}.
Implicit Types (v : list X).

Definition parent (c : Z) : Z := (c - 1) / 2.

(** The element at [c] does not sort before its parent. *)
Definition ok_at v (c : Z) : Prop :=
  forall x y, v.[parent c] = Some x -> v.[c] = Some y -> le lt x y.

(** The invariant of the package, on the first [n] elements. *)
Definition heap_on (n : Z) v : Prop := forall c, 0 < c < n -> ok_at v c.

Definition heap v : Prop := heap_on (zlen v) v.

(** The root of a heap does not sort after any element. *)
Lemma heap_root v n x : heap_on n v -> n <= zlen v -> v.[0] = Some x ->
  forall k y, 0 <= k < n -> v.[k] = Some y -> le lt x y.
Proof.
  intros Hh Hn Hx k y [Hk0 Hkn]. revert y Hkn.
  pattern k. apply Zlt_0_ind; [|done]. clear k Hk0. intros k IH Hk0 y Hkn Hy.
  destruct (decide (k = 0)) as [->|]; [simplify_eq; by apply le_refl, _|].
  destruct (zlookup_lt v (parent k)) as [z Hz]; [unfold parent; zlia|].
  apply le_trans with z; [apply _| |].
  - apply (IH (parent k)); [unfold parent; zlia..|done].
  - apply (Hh k); [lia|done|done].
Qed.
End Invariant.

(** * Sifting *)

Section Sift.
Context {C X : Type} {HC : HeapInterface C X} (lt : X -> X -> bool) (view : C -> list X).
Context {HL : HeapLaws C X lt view}.
Implicit Types (h : C) (v : list X).

Local Abbreviation le := (le lt).
Local Abbreviation ok_at := (ok_at lt).
Local Abbreviation len h := (zlen (view h)).

(** State of [down] at position [i], started at [i0]: every pair in [lo, n)
    is in order, except those below [i] and, as long as nothing moved, the
    pair of [i0] and its parent; the children of [i] are in order with the
    parent of [i]. *)
Definition sifting (lo i0 i n : Z) v : Prop :=
  (forall c, 0 < c < n -> lo <= parent c -> parent c <> i ->
     (c = i0 -> i <> i0) -> ok_at v c) /\
  (forall c x y, 0 < c < n -> parent c = i -> lo <= parent i -> 0 < i ->
     v.[parent i] = Some x -> v.[c] = Some y -> le x y).

(** The state [down] ends in. *)
Definition sifted (lo i0 n : Z) v : Prop :=
  (forall c, 0 < c < n -> lo <= parent c -> c <> i0 -> ok_at v c) /\
  (forall c x y, 0 < c < n -> parent c = i0 -> lo <= parent i0 -> 0 < i0 ->
     v.[parent i0] = Some x -> v.[c] = Some y -> le x y).

Lemma sifting_exit lo i0 i n v :
  0 <= lo <= i0 -> i0 <= i -> n <= zlen v -> sifting lo i0 i n v ->
  (forall c, 0 < c < n -> parent c = i -> ok_at v c) -> sifted lo i0 n v.
Proof.
  intros Hlo Hi Hlen [Hok Hgp] Hch. split.
  - intros c Hc Hp Hne. destruct (decide (parent c = i)); [by apply Hch|].
    by apply Hok.
  - intros c x y Hc Hp Hlop Hi0 Hx Hy.
    destruct (decide (i = i0)) as [->|Hne]; [by eapply (Hgp c)|].
    destruct (zlookup_lt v i0) as [z Hz]; [unfold parent in *; zlia|].
    apply le_trans with z; [apply _| |].
    + apply (Hok i0); [unfold parent in *; zlia..|done|done|done].
    + apply (Hok c); try done; [unfold parent in *; zlia..|]. by rewrite Hp.
Qed.

Lemma sifting_step lo i0 i j n v x y :
  0 <= lo <= i0 -> i0 <= i -> 0 < j < n -> parent j = i -> n <= zlen v ->
  sifting lo i0 i n v -> v.[i] = Some x -> v.[j] = Some y -> le y x ->
  (forall c z, 0 < c < n -> parent c = i -> v.[c] = Some z -> le y z) ->
  sifting lo i0 j n (zswap v i j).
Proof.
  intros Hlo Hi Hj Hpj Hlen [Hok Hgp] Hx Hy Hyx Hmin.
  assert (i < j) by (unfold parent in *; zlia). split.
  - intros c Hc Hpc Hne _ x' y'. rewrite !zlookup_zswap by lia.
    destruct (Z.eqb_spec j c) as [->|Hjc].
    { rewrite Hpj. bool_decide_goal. intros; by simplify_eq. }
    destruct (Z.eqb_spec i c) as [->|Hic].
    { assert (parent c < c) by (unfold parent; zlia). bool_decide_goal.
      intros. simplify_eq. eapply (Hgp j); eauto; lia. }
    destruct (Z.eqb_spec j (parent c)) as [|Hjp]; [done|].
    destruct (Z.eqb_spec i (parent c)) as [->|Hip].
    { intros. simplify_eq. by eapply Hmin. }
    apply (Hok c); (done || lia).
  - intros c x' y' Hc Hpc _ _. assert (j < c) by (unfold parent in *; zlia).
    rewrite Hpj, !zlookup_zswap by lia. bool_decide_goal. intros.
    apply (Hok c); try done; [unfold parent in *; zlia..|]. by rewrite Hpc.
Qed.

(** [down] from [i0] restores the order below [i0]. *)
Lemma down_spec lo i0 n h :
  0 <= lo <= i0 -> i0 < 2 ^ 30 -> n <= 2 ^ 30 -> n <= len h ->
  sifting lo i0 i0 n (view h) ->
  returns (down h i0 n) (fun h' =>
    (view h' = view h \/ i0 < n /\ swaps i0 n (view h) (view h')) /\
    sifted lo i0 n (view h')).
Proof.
  intros Hlo Hi0 Hn Hlen Hsift. unfold down.
  apply (loop_returns (fun '(h', i) => i0 <= i < 2 ^ 30 /\
    (view h' = view h \/ i0 < n /\ swaps i0 n (view h) (view h')) /\
    sifting lo i0 i n (view h'))
    (fun '(_, i) => Z.to_nat (n - i))); [| |lia].
  2: { split_and!; [lia..|by left|done]. }
  clear Hsift. intros [h' i] (Hi & Hsw & Hsift).
  assert (zlen (view h') = len h) as Hlen'.
  { destruct Hsw as [->|[_ Hsw]]; [done|by eapply swaps_zlen]. }
  rewrite (int_small (2 * i)) by lia. rewrite (int_small (2 * i + 1)) by lia.
  case_bool.
  { go_ret. split; [done|]. eapply sifting_exit; [lia| |lia|done|]; [lia|].
    intros c Hc Hp. unfold parent in Hp. zlia. }
  rewrite (int_small (2 * i + 1 + 1)) by lia.
  destruct (zlookup_lt (view h') i) as [x Hx]; [lia|].
  (* the smaller child *)
  eapply returns_bind with (P := fun right =>
    let j := if right : bool then 2 * i + 1 + 1 else 2 * i + 1 in
    j < n /\ exists y, (view h').[j] = Some y /\
      forall c z, 0 < c < n -> parent c = i -> (view h').[c] = Some z -> le y z).
  { destruct (zlookup_lt (view h') (2 * i + 1)) as [y1 Hy1]; [lia|].
    case_bool.
    - destruct (zlookup_lt (view h') (2 * i + 1 + 1)) as [y2 Hy2]; [lia|].
      rewrite (Less_view h' _ _ y1 y2) by done. simpl.
      destruct (lt y1 y2) eqn:Hlt; go_ret; simpl; (split; [lia|]); eexists; (split; [done|]);
        intros c z Hc Hp Hz.
      + assert (c = 2 * i + 1 \/ c = 2 * i + 1 + 1) as [->| ->] by (unfold parent in *; zlia);
          simplify_eq; [by apply le_refl, _|by apply lt_le; [apply _|]].
      + assert (c = 2 * i + 1 \/ c = 2 * i + 1 + 1) as [->| ->] by (unfold parent in *; zlia);
          simplify_eq; [done|by apply le_refl, _].
    - go_ret. simpl. split; [lia|]. exists y1. split; [done|]. intros c z Hc Hp Hz.
      assert (c = 2 * i + 1) as -> by (unfold parent in *; zlia).
      simplify_eq. by apply le_refl, _. }
  intros right. set (j := if right then _ else _). intros (Hj & y & Hy & Hmin).
  assert (0 < j /\ parent j = i) as [Hj0 Hpj].
  { unfold j, parent. destruct right; zlia. }
  rewrite (Less_view h' _ _ x y) by done. simpl.
  destruct (lt x y) eqn:Hxy.
  - go_ret. split; [done|]. eapply sifting_exit; [lia| |lia|done|]; [lia|].
    intros c Hc Hp x' y'. rewrite Hp. intros. simplify_eq.
    apply le_trans with y; [apply _|by apply lt_le; [apply _|]|by eapply Hmin].
  - assert (i < j) by (unfold parent in *; zlia).
    go_call (Swap_run lt view i0 n); [lia..|]. intros h'' [Hv Hsw'']. go_ret.
    split_and!; [lia..| | |lia].
    + right. split; [lia|]. destruct Hsw as [Heq|[_ Hsw]].
      * by rewrite Heq in Hsw''.
      * by eapply swaps_trans.
    + rewrite Hv. by eapply sifting_step; eauto; lia.
Qed.

(** State of [up] at position [j]: every pair is in order but that of [j]
    and its parent, which is in order with the children of [j]. *)
Definition rising (j n : Z) v : Prop :=
  (forall c, 0 < c < n -> c <> j -> ok_at v c) /\
  (forall c x y, 0 < c < n -> parent c = j -> 0 < j ->
     v.[parent j] = Some x -> v.[c] = Some y -> le x y).

Lemma sifted_rising i n v : 0 <= i -> sifted 0 i n v -> rising i n v.
Proof.
  intros Hi [Hok Hgp]. split.
  - intros c Hc. apply Hok; [done|unfold parent; zlia].
  - intros c x y Hc Hp Hi'. apply Hgp; try done. unfold parent; zlia.
Qed.

Lemma rising_step j n v x y :
  0 < j < n -> n <= zlen v -> rising j n v ->
  v.[parent j] = Some x -> v.[j] = Some y -> le y x ->
  rising (parent j) n (zswap v (parent j) j).
Proof.
  intros Hj Hlen [Hok Hgp] Hx Hy Hyx.
  assert (0 <= parent j < j) by (unfold parent; zlia). split.
  - intros c Hc Hne x' y'. rewrite !zlookup_zswap by lia.
    assert (parent c < c) by (unfold parent; zlia).
    destruct (Z.eqb_spec j c) as [->|Hjc]; [bool_decide_goal; intros; by simplify_eq|].
    rewrite (proj2 (Z.eqb_neq (parent j) c)) by done.
    destruct (Z.eqb_spec j (parent c)) as [Hp|Hjp]; [intros; simplify_eq; eapply (Hgp c); eauto; lia|].
    destruct (Z.eqb_spec (parent j) (parent c)) as [Hp|Hpp]; [|by apply (Hok c)].
    intros. simplify_eq. apply le_trans with x; [apply _|done|].
    apply (Hok c); [lia|done| |done]. by rewrite <- Hp.
  - intros c x' y' Hc Hp Hpj. assert (parent (parent j) < parent j) by (unfold parent; zlia).
    rewrite !zlookup_zswap by lia. bool_decide_goal. intros Hx' Hy'.
    assert (le x' x) by (apply (Hok (parent j)); (done || lia)).
    destruct (Z.eqb_spec j c) as [->|Hjc]; [by simplify_eq|].
    destruct (Z.eqb_spec (parent j) c) as [<-|_]; [unfold parent in *; zlia|].
    apply le_trans with x; [apply _|done|].
    apply (Hok c); [lia|done| |done]. by rewrite Hp.
Qed.

Lemma up_spec j n h :
  0 <= j < n -> n <= len h -> n < 2 ^ 31 -> rising j n (view h) ->
  returns (up h j) (fun h' =>
    swaps 0 n (view h) (view h') /\ heap_on lt n (view h')).
Proof.
  intros Hj Hlen Hn Hr. unfold up.
  apply (loop_returns (fun '(h', j) => 0 <= j < n /\
    swaps 0 n (view h) (view h') /\ rising j n (view h')) (fun '(_, j) => Z.to_nat j));
    [| |lia].
  2: { split; [lia|]. split; [constructor|done]. }
  clear j Hj Hr. intros [h' j] (Hj & Hsw & Hr). pose proof (swaps_zlen _ _ _ _ Hsw).
  rewrite int_small by lia. case_bool.
  { assert (j = 0) as -> by zlia. go_ret. split; [done|]. intros c Hc. apply Hr; lia. }
  assert (Z.quot (j - 1) 2 = parent j) as -> by (unfold parent; zlia).
  assert (0 <= parent j < j) by (unfold parent; zlia).
  destruct (zlookup_lt (view h') (parent j)) as [x Hx]; [lia|].
  destruct (zlookup_lt (view h') j) as [y Hy]; [lia|].
  rewrite (Less_view h' _ _ x y) by done. simpl. destruct (lt x y) eqn:Hxy.
  - go_ret. split; [done|]. intros c Hc. destruct (decide (c = j)) as [->|]; [|by apply Hr].
    intros x' y' ??. simplify_eq. by apply lt_le; [apply _|].
  - go_call (Swap_run lt view 0 n); [lia..|]. intros h'' [Hv Hsw'']. go_ret.
    split_and!; [lia..|by eapply swaps_trans| |lia].
    rewrite Hv. eapply rising_step; eauto; lia.
Qed.
End Sift.

(** * Correctness of the operations *)

Section Operations.
Context {C X : Type} {HC : HeapInterface C X} (lt : X -> X -> bool) (view : C -> list X).
Context {HL : HeapLaws C X lt view}.
Implicit Types (h : C) (v : list X).

Local Abbreviation le := (le lt).
Local Abbreviation heap := (heap lt).
Local Abbreviation heap_on := (heap_on lt).
Local Abbreviation ok_at := (ok_at lt).
Local Abbreviation len h := (zlen (view h)).

Lemma down_swaps i n v v' :
  0 <= i -> n <= zlen v -> v' = v \/ i < n /\ swaps i n v v' -> swaps 0 n v v'.
Proof.
  intros Hi Hn [->|[Hin Hsw]]; [constructor|]. eapply swaps_weaken; [done|lia..].
Qed.

Lemma Init_spec h :
  len h <= 2 ^ 30 ->
  returns (Init h) (fun h' => view h' ≡ₚ view h /\ heap (view h')).
Proof.
  intros Hlen. unfold Init. rewrite Len_view. pose proof (zlen_nonneg (view h)).
  apply (loop_returns (fun '(h', i) => -1 <= i < 2 ^ 30 /\
    swaps 0 (len h) (view h) (view h') /\
    forall c, 0 < c < len h -> i < parent c -> ok_at (view h') c)
    (fun '(_, i) => Z.to_nat (i + 1))); [| |zlia].
  2: { split_and!; [zlia..|constructor|]. intros c Hc Hp. unfold parent in Hp. zlia. }
  intros [h' i] (Hi & Hsw & Hok). pose proof (swaps_zlen _ _ _ _ Hsw). case_bool.
  - go_call (down_spec lt view i); [lia..| |].
    + split; [|intros c x y ???; unfold parent in *; zlia].
      intros c Hc Hp Hne Hi0. apply Hok; (done || lia).
    + intros h'' [Hsw' [Hok' _]]. go_ret. split_and!; [lia..| | |lia].
      * eapply swaps_trans; [done|]. eapply down_swaps; [| |done]; lia.
      * intros c Hc Hp. apply Hok'; [done|lia|unfold parent in *; zlia].
  - go_ret. split; [by eapply swaps_permutation|]. unfold Heap.heap.
    intros c Hc. apply Hok; [lia|unfold parent; zlia].
Qed.

Lemma Push_spec h x :
  len h < 2 ^ 30 -> heap (view h) ->
  returns (Push h x) (fun h' => view h' ≡ₚ x :: view h /\ heap (view h')).
Proof.
  intros Hlen Hh. unfold Push. pose proof (zlen_nonneg (view h)).
  go_call h_Push_view; [done|]. intros h1 Hv. rewrite Len_view.
  assert (Hlen1 : len h1 = len h + 1) by (rewrite Hv; unfold zlen; rewrite length_app; simpl; lia).
  go_mono (up_spec lt view (len h1 - 1) (len h1)); [lia..| |].
  - split; [|intros c; unfold parent; zlia].
    intros c Hc Hne y z. rewrite Hv. unfold parent.
    rewrite !zlookup_nonneg by zlia. unfold zlen in *.
    rewrite !lookup_app_l by zlia.
    intros Hy Hz. apply (Hh c); rewrite ?zlookup_nonneg; unfold parent, zlen; (done || zlia).
  - intros h2 [Hsw Hh2]. split.
    + rewrite (swaps_permutation _ _ _ _ Hsw), Hv. by rewrite Permutation_app_comm.
    + unfold Heap.heap. by rewrite (swaps_zlen _ _ _ _ Hsw).
Qed.

Lemma split_last v n x : 0 <= n -> zlen v = n + 1 -> v.[n] = Some x ->
  v = take (Z.to_nat n) v ++ [x].
Proof.
  intros Hn Hlen Hx. rewrite zlookup_nonneg in Hx by done.
  rewrite <- (take_drop (Z.to_nat n) v) at 1. f_equal.
  rewrite (drop_S _ _ _ Hx). f_equal. apply drop_ge. unfold zlen in *. lia.
Qed.

Lemma heap_on_take n v : 0 <= n <= zlen v -> heap_on n v -> heap (take (Z.to_nat n) v).
Proof.
  intros Hn Hh. unfold Heap.heap, zlen. rewrite length_take. unfold zlen in *.
  intros c Hc x y. unfold parent. rewrite !zlookup_nonneg by zlia.
  rewrite !lookup_take_lt by zlia. rewrite <- !zlookup_nonneg by zlia. apply Hh; lia.
Qed.

(** The end of [Pop] and [Remove]: the heap is in [0, n) and the element to
    return at [n]. *)
Lemma finish_pop h h' x n :
  0 <= n -> len h = n + 1 -> view h' ≡ₚ view h -> (view h').[n] = Some x ->
  heap_on n (view h') ->
  returns (h_Pop h') (fun '(y, h'') => y = x /\ view h ≡ₚ x :: view h'' /\ heap (view h'')).
Proof.
  intros Hn Hlen Hp Hx Hh.
  assert (Hlen' : len h' = n + 1) by (unfold zlen in *; by rewrite Hp).
  go_mono h_Pop_view; [by apply split_last|]. intros [y h''] [-> Hv].
  split_and!; [done| |].
  - rewrite <- Hp. rewrite (split_last (view h') n x) at 1 by done.
    rewrite Hv. by rewrite Permutation_app_comm.
  - rewrite Hv. apply heap_on_take; [lia|done].
Qed.

Lemma Pop_spec h x :
  len h <= 2 ^ 30 -> heap (view h) -> (view h).[0] = Some x ->
  returns (Pop h) (fun '(y, h') => y = x /\ view h ≡ₚ x :: view h' /\ heap (view h')).
Proof.
  intros Hlen Hh Hx. unfold Pop. rewrite Len_view.
  pose proof (zlookup_Some_lt _ _ _ Hx).
  go_call (Swap_run lt view 0 (len h)); [lia..|]. intros h1 [Hv1 Hsw1].
  pose proof (swaps_zlen _ _ _ _ Hsw1).
  go_call (down_spec lt view 0); [lia..| |].
  { split; [|intros; lia]. intros c Hc _ Hp _ y z. rewrite Hv1, !zlookup_zswap by lia.
    unfold parent in *. rewrite !(proj2 (Z.eqb_neq _ _)) by zlia. apply Hh; lia. }
  intros h2 [Hsw2 [Hok2 _]]. apply (down_swaps 0) in Hsw2; [|lia..].
  apply (finish_pop h h2 x (len h - 1)); [lia..| | |].
  - by rewrite (swaps_permutation _ _ _ _ Hsw2), (swaps_permutation _ _ _ _ Hsw1).
  - rewrite (swaps_outside _ _ _ _ _ Hsw2), Hv1, zlookup_zswap by lia. by bool_decide_goal.
  - intros c Hc. apply Hok2; [lia|unfold parent; zlia|lia].
Qed.

Lemma Remove_spec h i x :
  len h <= 2 ^ 30 -> heap (view h) -> (view h).[i] = Some x ->
  returns (Remove h i) (fun '(y, h') => y = x /\ view h ≡ₚ x :: view h' /\ heap (view h')).
Proof.
  intros Hlen Hh Hx. unfold Remove. rewrite Len_view.
  pose proof (zlookup_Some_lt _ _ _ Hx).
  eapply returns_bind with (P := fun h' => view h' ≡ₚ view h /\
    (view h').[len h - 1] = Some x /\ heap_on (len h - 1) (view h')).
  2: { intros h' (Hp & Hl & Hh'). apply (finish_pop h h' x (len h - 1)); (done || lia). }
  case_bool.
  2: { go_ret. split_and!; [done|by rewrite E|]. intros c Hc. apply Hh; lia. }
  go_call (Swap_run lt view 0 (len h)); [lia..|]. intros h1 [Hv1 Hsw1].
  pose proof (swaps_zlen _ _ _ _ Hsw1).
  go_call (down_spec lt view 0); [lia..| |].
  { split.
    - intros c Hc _ Hp Hi y z. assert (c <> i) by (intros ->; by apply Hi).
      rewrite Hv1, !zlookup_zswap by lia. unfold parent in *.
      rewrite !(proj2 (Z.eqb_neq _ _)) by zlia. apply Hh; lia.
    - intros c y z Hc Hp _ Hi. rewrite Hv1, !zlookup_zswap by lia. unfold parent in *.
      rewrite !(proj2 (Z.eqb_neq _ _)) by zlia. intros Hy Hz.
      apply le_trans with x; [apply _|apply (Hh i); [lia|done..]|].
      apply (Hh c); [lia| |done]. unfold parent. by rewrite Hp. }
  intros h2 [Hsw2 Hs2]. apply (down_swaps i) in Hsw2; [|lia..].
  pose proof (swaps_zlen _ _ _ _ Hsw2).
  go_mono (up_spec lt view i (len h - 1)); [lia..|by apply sifted_rising; [lia|]|].
  intros h3 [Hsw3 Hh3]. split_and!; [| |done].
  - by rewrite (swaps_permutation _ _ _ _ Hsw3), (swaps_permutation _ _ _ _ Hsw2),
      (swaps_permutation _ _ _ _ Hsw1).
  - rewrite (swaps_outside _ _ _ _ _ Hsw3), (swaps_outside _ _ _ _ _ Hsw2), Hv1 by lia.
    rewrite zlookup_zswap by lia. by bool_decide_goal.
Qed.
End Operations.

(** * Vectors as heaps

    A well-formed vector of a totally ordered type, with the methods of
    package vector, is a heap collection. *)

Section VectorHeap.
Context {X : Type} (zero : X) (lt : X -> X -> bool) `{!StrictWeakOrder lt}.

Definition vheap : Type := { p : Vector.Vector X | Vector.wf p }.

#[local] Instance wf_dec (p : Vector.Vector X) : Decision (Vector.wf p).
Proof. unfold Vector.wf. apply _. Defined.

Definition pack (m : outcome (Vector.Vector X)) : outcome vheap :=
  p ← m;
  match decide (Vector.wf p) with left Hp => Done (p ↾ Hp) | right _ => Panic end.

#[local] Instance vheap_sort : Interface vheap := {
  Len h := Vector.Len (`h);
  Less h i j := x ← Vector.At (`h) i; y ← Vector.At (`h) j; Done (lt x y);
  Swap h i j := pack (Vector.Swap (`h) i j)
}.

#[local] Instance vheap_interface : HeapInterface vheap X := {
  h_Push h x := pack (Vector.Push zero (`h) x);
  h_Pop h := '(x, p) ← Vector.Pop zero (`h); h ← pack (Done p); Done (x, h)
}.

Definition vview (h : vheap) : list X := Vector.contents (`h).

Lemma pack_returns m (Q : list X -> Prop) :
  returns m (fun p => Vector.wf p /\ Q (Vector.contents p)) ->
  returns (pack m) (fun h => Q (vview h)).
Proof.
  intros (p & -> & Hwf & HQ). unfold pack. simpl.
  destruct (decide (Vector.wf p)) as [Hp|]; [|done]. by go_ret.
Qed.

Lemma vheap_laws : HeapLaws vheap X lt vview.
Proof.
  split; [split|..].
  - apply _.
  - intros [p Hp]. unfold vview; simpl. by rewrite Vector.zlen_contents.
  - intros [p Hp] i j x y Hx Hy. simpl.
    rewrite (Vector.At_done p i x), (Vector.At_done p j y) by done. done.
  - intros [p Hp] i j. unfold vview; simpl. rewrite Vector.zlen_contents by done. intros Hi Hj.
    pose proof (Vector.zlen_contents p Hp).
    apply (pack_returns _ (fun l => l = zswap (Vector.contents p) i j)). unfold Vector.Swap.
    destruct (zlookup_lt (Vector.contents p) i) as [x Hx]; [lia|].
    destruct (zlookup_lt (Vector.contents p) j) as [y Hy]; [lia|].
    rewrite (Vector.At_done p i x), (Vector.At_done p j y) by done. simpl.
    go_call Vector.Set_spec; [done|lia|]. intros p1 (Hp1 & Hl1 & _ & Hc1).
    go_mono Vector.Set_spec; [done|lia|]. intros p2 (Hp2 & Hl2 & _ & Hc2).
    split; [done|]. unfold zswap. by rewrite Hx, Hy, Hc2, Hc1.
  - intros [p Hp] x. unfold vview; simpl. rewrite Vector.zlen_contents by done. intros Hlen.
    apply (pack_returns _ (fun l => l = Vector.contents p ++ [x])).
    apply Vector.vec_Push_spec; [done|lia].
  - intros [p Hp] v x Hv. simpl. go_call Vector.vec_Pop_spec; [done..|].
    intros [y p'] (-> & Hwf' & Hc'). unfold pack. simpl.
    destruct (decide (Vector.wf p')) as [Hp'|]; [|done]. simpl. by go_ret.
Qed.
End VectorHeap.

(** * Properties *)

Section Properties.
Context {C X : Type} {HC : HeapInterface C X} (lt : X -> X -> bool) (view : C -> list X).

(** [Init] establishes the heap invariant on any collection of at most
    [2^30] elements and keeps its elements. *)
Lemma Init_correct (HL : HeapLaws C X lt view) (h : C) :
  zlen (view h) <= 2 ^ 30 ->
  returns (Init h) (fun h' => view h' ≡ₚ view h /\ heap lt (view h')).
Proof. by apply Init_spec. Qed.

(** [Push] adds its argument and preserves the heap invariant. *)
Lemma Push_correct (HL : HeapLaws C X lt view) (h : C) (x : X) :
  zlen (view h) < 2 ^ 30 -> heap lt (view h) ->
  returns (Push h x) (fun h' => view h' ≡ₚ x :: view h /\ heap lt (view h')).
Proof. by apply Push_spec. Qed.

(** [Pop] on a non-empty heap removes and returns a minimum: no element
    of the heap sorts before it; the rest is a heap. *)
Lemma Pop_correct (HL : HeapLaws C X lt view) (h : C) :
  0 < zlen (view h) <= 2 ^ 30 -> heap lt (view h) ->
  returns (Pop h) (fun '(x, h') =>
    view h ≡ₚ x :: view h' /\ heap lt (view h') /\
    forall y, y ∈ view h -> lt y x = false).
Proof.
  intros Hlen Hh. destruct (zlookup_lt (view h) 0) as [x Hx]; [lia|].
  go_mono (Pop_spec lt view h x); [lia|done|done|]. intros [y h'] (-> & Hp & Hh').
  split_and!; [done..|]. intros y [n Hn]%list_elem_of_lookup.
  rewrite <- zlookup_nat in Hn. pose proof (zlookup_Some_lt _ _ _ Hn).
  by eapply (heap_root lt (view h)); try done; lia.
Qed.

(** [Remove] at a valid index removes and returns the element there
    and preserves the heap invariant. *)
Lemma Remove_correct (HL : HeapLaws C X lt view) (h : C) (i : Z) (x : X) :
  zlen (view h) <= 2 ^ 30 -> heap lt (view h) -> (view h).[i] = Some x ->
  returns (Remove h i) (fun '(y, h') =>
    y = x /\ view h ≡ₚ x :: view h' /\ heap lt (view h')).
Proof. by apply Remove_spec. Qed.

(** ** Sequences of operations *)

Inductive hop := HPush (x : X) | HPop | HRemove (i : Z).

Definition exec_hop (o : hop) (h : C) : outcome (option X * C) :=
  match o with
  | HPush x => h ← Push h x; Done (None, h)
  | HPop => '(x, h) ← Pop h; Done (Some x, h)
  | HRemove i => '(x, h) ← Remove h i; Done (Some x, h)
  end.

(** The result of each operation, and the collection it leaves. *)
Fixpoint exec_hops (os : list hop) (h : C) : outcome (list (option X * C)) :=
  match os with
  | [] => Done []
  | o :: os => '(r, h) ← exec_hop o h; tr ← exec_hops os h; Done ((r, h) :: tr)
  end.

(** Init, then the operations. *)
Definition run_hops (os : list hop) (h : C) : outcome (C * list (option X * C)) :=
  h ← Init h; tr ← exec_hops os h; Done (h, tr).

(** The operations are within bounds, from a collection of [n] elements. *)
Fixpoint valid_hops (n : Z) (os : list hop) : bool :=
  match os with
  | [] => true
  | HPush _ :: os => (n <? 2 ^ 30) && valid_hops (n + 1) os
  | HPop :: os => (0 <? n) && valid_hops (n - 1) os
  | HRemove i :: os => (0 <=? i) && (i <? n) && valid_hops (n - 1) os
  end.

(** A priority queue: its elements in the order of the collection, which each
    operation may change.  Remove takes the element that is at the index. *)
Inductive pq_step : list X -> hop -> option X -> list X -> Prop :=
  | pq_Push m x m' : m' ≡ₚ x :: m -> pq_step m (HPush x) None m'
  | pq_Pop m x m' : m ≡ₚ x :: m' -> (forall y, y ∈ m -> lt y x = false) -> pq_step m HPop (Some x) m'
  | pq_Remove m i x m' : m.[i] = Some x -> m ≡ₚ x :: m' -> pq_step m (HRemove i) (Some x) m'.

(** Results and orders that are those of a priority queue, always in heap order. *)
Inductive pq_run : list X -> list hop -> list (option X * list X) -> Prop :=
  | pq_nil m : heap lt m -> pq_run m [] []
  | pq_cons m o r m' os tr : heap lt m -> pq_step m o r m' -> pq_run m' os tr -> pq_run m (o :: os) ((r, m') :: tr).

Definition viewed (tr : list (option X * C)) : list (option X * list X) := (fun '(r, h) => (r, view h)) <$> tr.

Lemma Permutation_zlen (l l' : list X) : l ≡ₚ l' -> zlen l = zlen l'.
Proof. unfold zlen. by intros ->. Qed.

Lemma exec_hop_spec (HL : HeapLaws C X lt view) o os h :
  zlen (view h) <= 2 ^ 30 -> heap lt (view h) -> valid_hops (zlen (view h)) (o :: os) = true ->
  returns (exec_hop o h) (fun '(r, h') => pq_step (view h) o r (view h') /\ heap lt (view h') /\
    zlen (view h') <= 2 ^ 30 /\ valid_hops (zlen (view h')) os = true).
Proof.
  intros Hl Hh Hv. destruct o as [x| |i]; cbn [valid_hops] in Hv; bool_to_prop; cbn [exec_hop].
  - eapply returns_bind; [by apply (Push_correct HL)|]. intros h' [Hp Hh']. go_ret.
    pose proof (Permutation_zlen _ _ Hp) as E. rewrite zlen_cons in E. split_and!; [by constructor|done|lia|].
    by rewrite E, Z.add_comm.
  - eapply returns_bind; [by apply (Pop_correct HL); [lia|]|]. intros [x h'] (Hp & Hh' & Hmin). go_ret.
    pose proof (Permutation_zlen _ _ Hp) as E. rewrite zlen_cons in E. split_and!; [by constructor|done|lia|].
    by replace (zlen (view h')) with (zlen (view h) - 1) by lia.
  - destruct (zlookup_lt (view h) i) as [x Hx]; [lia|].
    eapply returns_bind; [by eapply (Remove_correct HL)|]. intros [y h'] (-> & Hp & Hh'). go_ret.
    pose proof (Permutation_zlen _ _ Hp) as E. rewrite zlen_cons in E. split_and!; [by constructor|done|lia|].
    by replace (zlen (view h')) with (zlen (view h) - 1) by lia.
Qed.

Lemma exec_hops_spec (HL : HeapLaws C X lt view) os : forall h,
  zlen (view h) <= 2 ^ 30 -> heap lt (view h) -> valid_hops (zlen (view h)) os = true ->
  returns (exec_hops os h) (fun tr => pq_run (view h) os (viewed tr)).
Proof.
  induction os as [|o os IH]; intros h Hl Hh Hv; cbn [exec_hops].
  - go_ret. by constructor.
  - eapply returns_bind; [by apply exec_hop_spec|]. intros [r h'] (Hs & Hh' & Hl' & Hv').
    eapply returns_bind; [by apply IH|]. intros tr Hr. go_ret. by constructor.
Qed.

(** C16. After Init, which only reorders the elements, every sequence of Push,
    Pop and Remove operations (indices in range, no Pop of an empty heap, at most
    [2^30] elements) runs without a panic and behaves as a priority queue: Push
    adds its element, Pop takes out and returns an element than which none of the
    queue is less, Remove takes out and returns the element at its index of the
    collection; the collection is in heap order after every operation. *)
Theorem heap_refines_pq (HL : HeapLaws C X lt view) (h : C) (os : list hop) :
  zlen (view h) <= 2 ^ 30 -> valid_hops (zlen (view h)) os = true ->
  returns (run_hops os h) (fun '(h0, tr) => view h0 ≡ₚ view h /\ pq_run (view h0) os (viewed tr)).
Proof.
  intros Hl Hv. unfold run_hops. eapply returns_bind; [by apply Init_correct|]. intros h' [Hp Hh].
  pose proof (Permutation_zlen _ _ Hp) as E. rewrite <- E in *.
  eapply returns_bind; [by apply (exec_hops_spec HL os h')|]. intros tr Hr. go_ret. done.
Qed.
End Properties.

Lemma wf_four (a b c d : Z) : Vector.wf (Vector.MkVector [a; b; c; d] 4).
Proof. unfold Vector.wf, zlen; simpl. lia. Qed.

(** The vector [5; 3; 8; 1]. *)
Definition vec_mixed : vheap := exist _ _ (wf_four 5 3 8 1).

#[local] Existing Instance vheap_interface.
Abbreviation zheap := (vheap_interface (X := Z) 0 Z.ltb).

Lemma heap_refines_pq_witness :
  returns (run_hops (HC := zheap) [HPop; HPush 2; HRemove 3; HPop] vec_mixed)
    (fun '(h0, tr) => vview h0 ≡ₚ [5; 3; 8; 1] /\ pq_run Z.ltb (vview h0) [HPop; HPush 2; HRemove 3; HPop] (viewed vview tr)).
Proof.
  apply (heap_refines_pq (HC := zheap) Z.ltb vview (vheap_laws 0 Z.ltb) vec_mixed); [vm_compute; discriminate|reflexivity].
Defined.

(** A plain slice with [append] and re-slicing as a heap collection. *)
Definition slice_heap {X} (lt : X -> X -> bool) : HeapInterface (list X) X := {|
  heap_sort := {| Len := zlen; Less := slice_Less lt; Swap := swap_idx |};
  h_Push := fun h x => Done (h ++ [x]);
  h_Pop := fun h =>
    x ← idx h (zlen h - 1); h ← slice h 0 (zlen h - 1); Done (x, h)
|}.

(** Beyond [2^30] elements the index [2*i+1] of the left child wraps
    around to a negative number: [Remove] at the valid index [2^30] of a
    collection with room above it indexes outside of the collection and
    panics, although its length is within the range of [int]. *)
Theorem Remove_overflow {X : Type} (lt : X -> X -> bool) (v : list X) :
  2 ^ 30 + 1 < zlen v < 2 ^ 31 ->
  Remove (HeapInterface0 := slice_heap lt) v (2 ^ 30) = Panic.
Proof.
  intros Hn. unfold Remove. simpl Len. bool_decide_goal. cbn [negb]. simpl Swap.
  rewrite swap_idx_done by lia. cbn [mbind outcome_bind].
  unfold down. cbn [loop]. change (int (2 * 2 ^ 30)) with (- 2 ^ 31).
  change (int (- 2 ^ 31 + 1)) with (- 2 ^ 31 + 1). bool_decide_goal.
  change (int (- 2 ^ 31 + 1 + 1)) with (- 2 ^ 31 + 2). bool_decide_goal. simpl Less.
  unfold slice_Less, idx. rewrite (zlookup_oob _ (- 2 ^ 31 + 1)); [done|].
  pose proof (zlen_nonneg (zswap v (2 ^ 30) (zlen v - 1))). lia.
Qed.

Lemma Remove_overflow_witness :
  Remove (HeapInterface0 := slice_heap Z.ltb) (replicate (Z.to_nat (2 ^ 30 + 2)) 0) (2 ^ 30) = Panic.
Proof. apply (Remove_overflow Z.ltb). rewrite zlen_replicate, Z2Nat.id; lia. Defined.
