(* ===== verification/LinkedList.v ===== *)
(** Package container/list (src/go/src/pkg/container/list/list.go): doubly
    linked lists.

    The store holds the elements and the lists, at locations; pointers are
    locations, nil is [None].  Every method reads and writes the store the way
    the code does, so elements may be shared between lists, moved, or left over
    from a list that was cleared.  [Rep h S D] relates a store to the
    sequences the lists stand for. *)

From stdpp Require Import gmap.
From S2P Require Import Prelude.

Abbreviation loc := positive (only parsing).
Abbreviation lid := positive (only parsing).

Record Element (V : Type) := MkElement { next : option loc; prev : option loc; elist : option lid; Value : V }.
Arguments MkElement {V} next prev elist Value.
Arguments next {V} _.
Arguments prev {V} _.
Arguments elist {V} _.
Arguments Value {V} _.

Record List := MkList { front : option loc; back : option loc; len : Z }.

Record store (V : Type) := MkStore { elems : gmap loc (Element V); lists : gmap lid List }.
Arguments MkStore {V} elems lists.
Arguments elems {V} _.
Arguments lists {V} _.

(** * Operations *)

Section Code.
Context {V : Type}.
Implicit Types (h : store V) (e mark : loc) (l ol : lid).

(** Field access through a pointer. *)
Definition elem h e : outcome (Element V) := of_option (elems h !! e).
Definition list_ h l : outcome List := of_option (lists h !! l).

Definition put_elem e (r : Element V) h : store V := MkStore (<[e:=r]> (elems h)) (lists h).
Definition put_list l (r : List) h : store V := MkStore (elems h) (<[l:=r]> (lists h)).

Definition set_next e (x : option loc) h : outcome (store V) :=
  r ← elem h e; Done (put_elem e (MkElement x (prev r) (elist r) (Value r)) h).
Definition set_prev e (x : option loc) h : outcome (store V) :=
  r ← elem h e; Done (put_elem e (MkElement (next r) x (elist r) (Value r)) h).
Definition set_elist e (x : option lid) h : outcome (store V) :=
  r ← elem h e; Done (put_elem e (MkElement (next r) (prev r) x (Value r)) h).
Definition set_front l (x : option loc) h : outcome (store V) :=
  r ← list_ h l; Done (put_list l (MkList x (back r) (len r)) h).
Definition set_back l (x : option loc) h : outcome (store V) :=
  r ← list_ h l; Done (put_list l (MkList (front r) x (len r)) h).
Definition add_len l (d : Z) h : outcome (store V) :=
  r ← list_ h l; Done (put_list l (MkList (front r) (back r) (int (len r + d))) h).

Definition Next h e : outcome (option loc) := r ← elem h e; Done (next r).
Definition Prev h e : outcome (option loc) := r ← elem h e; Done (prev r).
Definition Front h l : outcome (option loc) := r ← list_ h l; Done (front r).
Definition Back h l : outcome (option loc) := r ← list_ h l; Done (back r).
Definition Len h l : outcome Z := r ← list_ h l; Done (len r).

Definition Init l h : outcome (store V) :=
  _ ← list_ h l; Done (put_list l (MkList None None 0) h).

(** [new(List)] at a fresh location. *)
Definition New h : lid * store V :=
  let l := fresh (dom (lists h)) in (l, put_list l (MkList None None 0) h).

(** [&Element{nil, nil, l, value}]. *)
Definition new_elem l (value : V) h : loc * store V :=
  let e := fresh (dom (elems h)) in (e, put_elem e (MkElement None None (Some l) value) h).

(** [if p == nil { l.front = x } else { p.next = x }]. *)
Definition link_next l (p x : option loc) h : outcome (store V) :=
  match p with None => set_front l x h | Some p => set_next p x h end.

(** [if n == nil { l.back = x } else { n.prev = x }]. *)
Definition link_prev l (n x : option loc) h : outcome (store V) :=
  match n with None => set_back l x h | Some n => set_prev n x h end.

Definition remove l e h : outcome (store V) :=
  r ← elem h e;
  if negb (bool_decide (elist r = Some l)) then Done h else
  h ← link_next l (prev r) (next r) h;
  r ← elem h e;
  h ← link_prev l (next r) (prev r) h;
  h ← set_prev e None h;
  h ← set_next e None h;
  add_len l (-1) h.

Definition Remove l e h : outcome (V * store V) :=
  h ← remove l e h;
  h ← set_elist e None h;
  r ← elem h e;
  Done (Value r, h).

Definition insertBefore l e mark h : outcome (store V) :=
  m ← elem h mark;
  h ← link_next l (prev m) (Some e) h;
  m ← elem h mark;
  h ← set_prev e (prev m) h;
  h ← set_prev mark (Some e) h;
  h ← set_next e (Some mark) h;
  add_len l 1 h.

Definition insertAfter l e mark h : outcome (store V) :=
  m ← elem h mark;
  h ← link_prev l (next m) (Some e) h;
  m ← elem h mark;
  h ← set_next e (next m) h;
  h ← set_next mark (Some e) h;
  h ← set_prev e (Some mark) h;
  add_len l 1 h.

(** The only element of an empty list. *)
Definition insert_only l e h : outcome (store V) :=
  r ← list_ h l;
  let h := put_list l (MkList (Some e) (Some e) (len r)) h in
  h ← set_prev e None h;
  h ← set_next e None h;
  r ← list_ h l;
  Done (put_list l (MkList (front r) (back r) 1) h).

Definition insertFront l e h : outcome (store V) :=
  r ← list_ h l;
  match front r with
  | None => insert_only l e h
  | Some f => insertBefore l e f h
  end.

Definition insertBack l e h : outcome (store V) :=
  r ← list_ h l;
  match back r with
  | None => insert_only l e h
  | Some b => insertAfter l e b h
  end.

Definition PushFront l (value : V) h : outcome (loc * store V) :=
  let '(e, h) := new_elem l value h in
  h ← insertFront l e h;
  Done (e, h).

Definition PushBack l (value : V) h : outcome (loc * store V) :=
  let '(e, h) := new_elem l value h in
  h ← insertBack l e h;
  Done (e, h).

Definition InsertBefore l (value : V) mark h : outcome (option loc * store V) :=
  m ← elem h mark;
  if negb (bool_decide (elist m = Some l)) then Done (None, h) else
  let '(e, h) := new_elem l value h in
  h ← insertBefore l e mark h;
  Done (Some e, h).

Definition InsertAfter l (value : V) mark h : outcome (option loc * store V) :=
  m ← elem h mark;
  if negb (bool_decide (elist m = Some l)) then Done (None, h) else
  let '(e, h) := new_elem l value h in
  h ← insertAfter l e mark h;
  Done (Some e, h).

Definition MoveToFront l e h : outcome (store V) :=
  r ← elem h e;
  lr ← list_ h l;
  if negb (bool_decide (elist r = Some l)) || bool_decide (front lr = Some e) then Done h else
  h ← remove l e h;
  insertFront l e h.

Definition MoveToBack l e h : outcome (store V) :=
  r ← elem h e;
  lr ← list_ h l;
  if negb (bool_decide (elist r = Some l)) || bool_decide (back lr = Some e) then Done h else
  h ← remove l e h;
  insertBack l e h.

(** The loops visit each element of [ol] once, up to the one that was last
    (first) before; [ol] may be [l] itself. *)
Definition PushBackList l ol h : outcome (store V) :=
  last ← Back h ol;
  e ← Front h ol;
  loop (S (size (elems h))) (fun '(e, h) =>
    match e with
    | None => Done (inr h)
    | Some x =>
        r ← elem h x;
        '(_, h) ← PushBack l (Value r) h;
        if bool_decide (e = last) then Done (inr h) else
        e ← Next h x;
        Done (inl (e, h))
    end) (e, h).

Definition PushFrontList l ol h : outcome (store V) :=
  first ← Front h ol;
  e ← Back h ol;
  loop (S (size (elems h))) (fun '(e, h) =>
    match e with
    | None => Done (inr h)
    | Some x =>
        r ← elem h x;
        '(_, h) ← PushFront l (Value r) h;
        if bool_decide (e = first) then Done (inr h) else
        e ← Prev h x;
        Done (inl (e, h))
    end) (e, h).

End Code.

(** * Linked segments *)

Section Segments.
Context {V : Type}.
Implicit Types (m : gmap loc (Element V)) (es : list loc).

(** The elements [es] of list [l] are linked in order; the element before them
    is [p] and the one after them [n]. *)
Fixpoint dseg m (l : lid) (p : option loc) es (n : option loc) : Prop :=
  match es with
  | [] => True
  | e :: es' => (exists v, m !! e = Some (MkElement (match es' with [] => n | x :: _ => Some x end) p (Some l) v)) /\
                dseg m l (Some e) es' n
  end.

(** The first of [es], or [n]; the last of [es], or [p]. *)
Definition first_or es (n : option loc) : option loc := match es with [] => n | x :: _ => Some x end.
Definition last_or (p : option loc) es : option loc := match list.last es with Some x => Some x | None => p end.

Lemma last_or_cons p x es : last_or p (x :: es) = last_or (Some x) es.
Proof. unfold last_or. rewrite last_cons. by destruct (list.last es). Qed.

Lemma last_or_snoc p x es : last_or p (es ++ [x]) = Some x.
Proof. unfold last_or. by rewrite last_snoc. Qed.

Lemma first_or_app es1 es2 n : first_or (es1 ++ es2) n = first_or es1 (first_or es2 n).
Proof. by destruct es1. Qed.

Lemma last_or_app p es1 es2 : last_or p (es1 ++ es2) = last_or (last_or p es1) es2.
Proof.
  unfold last_or. rewrite last_app. by destruct (list.last es2), (list.last es1).
Qed.

Lemma dseg_app m l es1 : forall p es2 n,
  dseg m l p (es1 ++ es2) n <-> dseg m l p es1 (first_or es2 n) /\ dseg m l (last_or p es1) es2 n.
Proof.
  induction es1 as [|e es1 IH]; intros p es2 n; cbn [app dseg]; [cbn; tauto|]. rewrite IH, last_or_cons.
  assert (match es1 ++ es2 with [] => n | x :: _ => Some x end = match es1 with [] => first_or es2 n | x :: _ => Some x end) as ->
    by (by destruct es1).
  tauto.
Qed.

(** Changing other elements does not matter. *)
Lemma dseg_frame m m' l es : forall p n, (forall e, e ∈ es -> m' !! e = m !! e) -> dseg m l p es n -> dseg m' l p es n.
Proof.
  induction es as [|e es IH]; intros p n Hm; cbn [dseg]; [done|]. intros [Hv Hd].
  rewrite Hm by apply list_elem_of_here. split; [done|]. apply IH; [|done]. intros x Hx. apply Hm. by apply list_elem_of_further.
Qed.

Lemma dseg_insert_other m l p es n e r : e ∉ es -> dseg m l p es n -> dseg (<[e:=r]> m) l p es n.
Proof. intros He. apply dseg_frame. intros x Hx. apply lookup_insert_ne. by intros ->. Qed.

Lemma dseg_elem m l es : forall p n e, dseg m l p es n -> e ∈ es -> exists r, m !! e = Some r /\ elist r = Some l.
Proof.
  induction es as [|x es IH]; intros p n e Hd He; [by apply elem_of_nil in He|]. destruct Hd as [[v Hv] Hd].
  apply elem_of_cons in He as [->|He]; [by eexists; split|]. by eapply IH.
Qed.

(** Redirecting the ends of a segment. *)
Lemma dseg_relink_next m l es : forall p n n' x, NoDup es -> dseg m l p es n -> list.last es = Some x ->
  exists r, m !! x = Some r /\ elist r = Some l /\ dseg (<[x:=MkElement n' (prev r) (elist r) (Value r)]> m) l p es n'.
Proof.
  induction es as [|e es IH]; intros p n n' x Hnd Hd Hx; [done|]. destruct Hd as [[v Hv] Hd].
  apply list.NoDup_cons in Hnd as [He Hnd]. destruct es as [|e2 es].
  - injection Hx as ->. eexists. split; [done|]. split; [done|]. cbn [dseg]. split; [|done]. exists v.
    by rewrite lookup_insert_eq.
  - rewrite last_cons_cons in Hx. destruct (IH (Some e) n n' x Hnd Hd Hx) as (r & Hr & Hl & Hd'). exists r. split_and!; [done|done|].
    assert (x ∈ e2 :: es) by (by apply last_Some_elem_of). assert (x <> e) by (by intros ->).
    split; [|done]. exists v. by rewrite lookup_insert_ne.
Qed.

Lemma dseg_relink_prev m l es p n p' x : NoDup es -> dseg m l p es n -> head es = Some x ->
  exists r, m !! x = Some r /\ elist r = Some l /\ dseg (<[x:=MkElement (next r) p' (elist r) (Value r)]> m) l p' es n.
Proof.
  intros Hnd Hd Hx. destruct es as [|e es]; [done|]. injection Hx as ->. destruct Hd as [[v Hv] Hd].
  apply list.NoDup_cons in Hnd as [He Hnd]. eexists. split_and!; [done|done|]. split; [|by apply dseg_insert_other].
  exists v. by rewrite lookup_insert_eq.
Qed.

End Segments.

(** * Lists in the store *)

Section Lists.
Context {V : Type}.
Implicit Types (h : store V) (es : list loc) (l : lid).

(** List [l] is linked through exactly [es]. *)
Definition linked h l es : Prop :=
  lists h !! l = Some (MkList (first_or es None) (last_or None es) (int (zlen es))) /\
  dseg (elems h) l None es None /\ NoDup es.

(** From [h] to [h'] only links of the elements [es] and list [l] changed. *)
Record touched l es h h' : Prop := {
  t_out : forall x, x ∉ es -> elems h' !! x = elems h !! x;
  t_own : forall x, elist <$> elems h' !! x = elist <$> elems h !! x;
  t_val : forall x, Value <$> elems h' !! x = Value <$> elems h !! x;
  t_lists : forall l', l' <> l -> lists h' !! l' = lists h !! l';
}.

Lemma touched_refl l es h : touched l es h h.
Proof. by constructor. Qed.

Lemma touched_trans l es1 es2 es h1 h2 h3 : touched l es1 h1 h2 -> touched l es2 h2 h3 ->
  (forall x, x ∈ es1 -> x ∈ es) -> (forall x, x ∈ es2 -> x ∈ es) -> touched l es h1 h3.
Proof.
  intros [A1 B1 C1 D1] [A2 B2 C2 D2] H1 H2. constructor; intros x.
  - intros Hx. rewrite A2, A1; [done|..]; naive_solver.
  - by rewrite B2, B1.
  - by rewrite C2, C1.
  - intros Hx. by rewrite D2, D1.
Qed.

Lemma touched_weaken l es es' h h' : touched l es h h' -> (forall x, x ∈ es -> x ∈ es') -> touched l es' h h'.
Proof. intros [A B C D] Hes. constructor; auto. Qed.

(** One more write to an element of [es], or to the list. *)
Lemma touched_elem l es h0 h e r r' : touched l es h0 h -> elems h !! e = Some r -> e ∈ es ->
  elist r' = elist r -> Value r' = Value r -> touched l es h0 (put_elem e r' h).
Proof.
  intros [A B C D] Hr He Ho Hv. constructor; cbn; [| | |done]; intros x.
  - intros Hx. rewrite lookup_insert_ne; [auto|]. by intros ->.
  - destruct (decide (x = e)) as [->|]; [|by rewrite lookup_insert_ne]. rewrite lookup_insert_eq, <- B, Hr. cbn. by rewrite Ho.
  - destruct (decide (x = e)) as [->|]; [|by rewrite lookup_insert_ne]. rewrite lookup_insert_eq, <- C, Hr. cbn. by rewrite Hv.
Qed.

Lemma touched_list l es h0 h r : touched l es h0 h -> touched l es h0 (put_list l r h).
Proof. intros [A B C D]. constructor; cbn; [done..|]. intros x Hx. rewrite lookup_insert_ne; auto. Qed.

(** Field access at a known record. *)
Lemma elem_done h e r : elems h !! e = Some r -> elem h e = Done r.
Proof. unfold elem. by intros ->. Qed.
Lemma list_done h l r : lists h !! l = Some r -> list_ h l = Done r.
Proof. unfold list_. by intros ->. Qed.
Lemma set_next_done h e r x : elems h !! e = Some r ->
  set_next e x h = Done (put_elem e (MkElement x (prev r) (elist r) (Value r)) h).
Proof. intros Hr. unfold set_next. by rewrite (elem_done _ _ _ Hr). Qed.
Lemma set_prev_done h e r x : elems h !! e = Some r ->
  set_prev e x h = Done (put_elem e (MkElement (next r) x (elist r) (Value r)) h).
Proof. intros Hr. unfold set_prev. by rewrite (elem_done _ _ _ Hr). Qed.
Lemma add_len_done h l r d : lists h !! l = Some r ->
  add_len l d h = Done (put_list l (MkList (front r) (back r) (int (len r + d))) h).
Proof. intros Hr. unfold add_len. by rewrite (list_done _ _ _ Hr). Qed.

Lemma link_next_spec h l es n0 x lr : lists h !! l = Some lr -> NoDup es -> dseg (elems h) l None es n0 ->
  exists h', link_next l (last_or None es) x h = Done h' /\ dseg (elems h') l None es x /\
    lists h' !! l = Some (MkList (match es with [] => x | _ => front lr end) (back lr) (len lr)) /\ touched l es h h'.
Proof.
  intros Hlr Hnd Hd. unfold link_next, last_or. destruct (list.last es) as [y|] eqn:El.
  - destruct (dseg_relink_next _ _ _ _ _ x y Hnd Hd El) as (r & Hr & Hl & Hd'). unfold set_next, elem. rewrite Hr.
    eexists. split; [reflexivity|]. cbn. split; [done|]. destruct es as [|e es]; [done|]. split; [by destruct lr|].
    eapply touched_elem; [apply touched_refl|done|by apply last_Some_elem_of|done|done].
  - apply last_None in El as ->. unfold set_front, list_. rewrite Hlr. eexists. split; [reflexivity|]. cbn.
    rewrite lookup_insert_eq. split_and!; [done|done|]. apply touched_list, touched_refl.
Qed.

Lemma link_prev_spec h l es p0 x lr : lists h !! l = Some lr -> NoDup es -> dseg (elems h) l p0 es None ->
  exists h', link_prev l (first_or es None) x h = Done h' /\ dseg (elems h') l x es None /\
    lists h' !! l = Some (MkList (front lr) (match es with [] => x | _ => back lr end) (len lr)) /\ touched l es h h'.
Proof.
  intros Hlr Hnd Hd. unfold link_prev, first_or. destruct es as [|e es].
  - unfold set_back, list_. rewrite Hlr. eexists. split; [reflexivity|]. cbn.
    rewrite lookup_insert_eq. split_and!; [done|done|]. apply touched_list, touched_refl.
  - destruct (dseg_relink_prev _ _ _ _ _ x e Hnd Hd eq_refl) as (r & Hr & Hl & Hd'). unfold set_prev, elem. rewrite Hr.
    eexists. split; [reflexivity|]. cbn. split; [done|]. split; [by destruct lr|].
    eapply touched_elem; [apply touched_refl|done|apply list_elem_of_here|done|done].
Qed.

(** A segment apart from what was touched. *)
Lemma dseg_touched l es h h' l' p es' n : touched l es h h' -> (forall x, x ∈ es' -> x ∉ es) ->
  dseg (elems h) l' p es' n -> dseg (elems h') l' p es' n.
Proof. intros Ht Hd. apply dseg_frame. intros x Hx. apply (t_out _ _ _ _ Ht). auto. Qed.

Lemma len_step n d : int (int n + d) = int (n + d).
Proof.
  unfold int, swrap. change (2 ^ (32 - 1)) with (2 ^ 31). f_equal.
  replace ((n + 2 ^ 31) mod 2 ^ 32 - 2 ^ 31 + d + 2 ^ 31) with ((n + 2 ^ 31) mod 2 ^ 32 + d) by ring.
  rewrite Z.add_mod_idemp_l by lia. f_equal; ring.
Qed.

Lemma first_last_split es1 e es2 : first_or (es1 ++ e :: es2) None = first_or es1 (Some e) /\
  last_or None (es1 ++ e :: es2) = last_or (Some e) es2.
Proof. split; [by rewrite first_or_app|by rewrite last_or_app, last_or_cons]. Qed.

Lemma remove_spec h l es1 e es2 : linked h l (es1 ++ e :: es2) ->
  exists h' v, remove l e h = Done h' /\ linked h' l (es1 ++ es2) /\ touched l (es1 ++ e :: es2) h h' /\
    elems h' !! e = Some (MkElement None None (Some l) v).
Proof.
  intros (Hlr & Hd & Hnd). destruct (first_last_split es1 e es2) as [Ef El]. rewrite Ef, El in Hlr.
  apply dseg_app in Hd as [Hd1 Hd2]. cbn [first_or] in Hd1. destruct Hd2 as [[v He] Hd2].
  change (match es2 with [] => None | x :: _ => Some x end) with (first_or es2 None) in He.
  apply list.NoDup_app in Hnd as (Hn1 & Hdis & Hn2). apply list.NoDup_cons in Hn2 as [Hne Hn2].
  assert (He1 : e ∉ es1) by (intros Hin; apply (Hdis e Hin), list_elem_of_here).
  assert (Hd12 : forall x, x ∈ es2 -> x ∉ es1) by (intros x Hx2 Hx1; apply (Hdis x Hx1), list_elem_of_further, Hx2).
  unfold remove. rewrite (elem_done _ _ _ He). cbn [mbind outcome_bind elist next prev].
  rewrite bool_decide_true by done. cbn [negb].
  destruct (link_next_spec h l es1 (Some e) (first_or es2 None) _ Hlr Hn1 Hd1) as (h1 & -> & Hd1' & Hlr1 & Ht1).
  cbn [mbind outcome_bind]. pose proof He as He'. rewrite <- (t_out _ _ _ _ Ht1 e He1) in He'.
  rewrite (elem_done _ _ _ He'). cbn [mbind outcome_bind next prev].
  pose proof (dseg_touched _ _ _ _ _ _ _ _ Ht1 Hd12 Hd2) as Hd2'.
  destruct (link_prev_spec h1 l es2 (Some e) (last_or None es1) _ Hlr1 Hn2 Hd2') as (h2 & -> & Hd2'' & Hlr2 & Ht2).
  cbn [mbind outcome_bind].
  assert (He2 : elems h2 !! e = Some (MkElement (first_or es2 None) (last_or None es1) (Some l) v)).
  { by rewrite (t_out _ _ _ _ Ht2 e Hne), (t_out _ _ _ _ Ht1 e He1). }
  assert (Hd1'' : dseg (elems h2) l None es1 (first_or es2 None)).
  { eapply dseg_touched; [exact Ht2| |exact Hd1']. intros x Hx1 Hx2. by apply (Hd12 x). }
  rewrite (set_prev_done _ _ _ _ He2). cbn [mbind outcome_bind next elist Value].
  erewrite set_next_done by (apply lookup_insert_eq). cbn [mbind outcome_bind prev elist Value].
  erewrite add_len_done by exact Hlr2. unfold put_elem; cbn [elems lists].
  rewrite insert_insert_eq. eexists _, v. split; [reflexivity|]. unfold linked, put_list; cbn [elems lists front back len].
  split_and!.
  - rewrite lookup_insert_eq, len_step. do 2 f_equal.
    + destruct es1; [done|]. by rewrite first_or_app.
    + destruct es2 as [|x es2]; [by rewrite app_nil_r|]. by rewrite last_or_app, !last_or_cons.
    + rewrite !zlen_app, zlen_cons. f_equal. lia.
  - apply dseg_insert_other; [by intros [?|?]%elem_of_app|]. by apply dseg_app.
  - apply list.NoDup_app. split_and!; [done| |done]. intros x Hx1 Hx2. by apply (Hd12 x).
  - apply (touched_list _ _ _ (put_elem e _ h2)). eapply touched_elem; [|exact He2|set_solver|done|done].
    eapply touched_trans; [exact Ht1|exact Ht2|set_solver|set_solver].
  - apply lookup_insert_eq.
Qed.

(** A detached element: it belongs to [l] but is not linked anywhere. *)
Definition detached h l e : Prop := exists r, elems h !! e = Some r /\ elist r = Some l.

Lemma insertBefore_spec h l es1 mark es2 e : linked h l (es1 ++ mark :: es2) -> detached h l e -> e ∉ es1 ++ mark :: es2 ->
  exists h', insertBefore l e mark h = Done h' /\ linked h' l (es1 ++ e :: mark :: es2) /\
    touched l (e :: es1 ++ mark :: es2) h h'.
Proof.
  intros (Hlr & Hd & Hnd) (re & Hre & Hrl) Hnew. destruct (first_last_split es1 mark es2) as [Ef El]. rewrite Ef, El in Hlr.
  apply dseg_app in Hd as [Hd1 Hd2]. cbn [first_or] in Hd1. destruct Hd2 as [[v Hm] Hd2].
  change (match es2 with [] => None | x :: _ => Some x end) with (first_or es2 None) in Hm.
  pose proof Hnd as Hnd0. apply list.NoDup_app in Hnd as (Hn1 & Hdis & Hn2). apply list.NoDup_cons in Hn2 as [Hne Hn2].
  rewrite elem_of_app, elem_of_cons in Hnew.
  assert (Hm1 : mark ∉ es1) by (intros Hin; apply (Hdis mark Hin), list_elem_of_here).
  assert (He1 : e ∉ es1) by naive_solver. assert (Hem : e <> mark) by naive_solver. assert (He2 : e ∉ es2) by naive_solver.
  assert (Hd12 : forall x, x ∈ es2 -> x ∉ es1) by (intros x Hx2 Hx1; apply (Hdis x Hx1), list_elem_of_further, Hx2).
  unfold insertBefore. rewrite (elem_done _ _ _ Hm). cbn [mbind outcome_bind prev].
  destruct (link_next_spec h l es1 (Some mark) (Some e) _ Hlr Hn1 Hd1) as (h1 & -> & Hd1' & Hlr1 & Ht1).
  cbn [mbind outcome_bind]. pose proof Hm as Hm'. rewrite <- (t_out _ _ _ _ Ht1 mark Hm1) in Hm'.
  pose proof Hre as Hre'. rewrite <- (t_out _ _ _ _ Ht1 e He1) in Hre'.
  rewrite (elem_done _ _ _ Hm'). cbn [mbind outcome_bind prev].
  rewrite (set_prev_done _ _ _ _ Hre'). cbn [mbind outcome_bind].
  erewrite set_prev_done by (cbn; rewrite lookup_insert_ne by done; exact Hm'). cbn [mbind outcome_bind next elist Value].
  erewrite set_next_done by (cbn; rewrite lookup_insert_ne by done; apply lookup_insert_eq). cbn [mbind outcome_bind prev elist Value].
  erewrite add_len_done by exact Hlr1. eexists. split; [reflexivity|]. split.
  - unfold linked, put_list, put_elem; cbn [elems lists front back len]. split_and!.
    + rewrite lookup_insert_eq, len_step. do 2 f_equal.
      * rewrite first_or_app. by destruct es1.
      * by rewrite last_or_app, !last_or_cons.
      * rewrite !zlen_app, !zlen_cons. f_equal. lia.
    + apply dseg_app. cbn [dseg first_or]. rewrite Hrl, lookup_insert_eq, lookup_insert_ne, lookup_insert_eq by done. split_and!; eauto.
      * by do 3 (apply dseg_insert_other; [done|]).
      * do 3 (apply dseg_insert_other; [done|]). by eapply dseg_touched.
    + rewrite <- Permutation_middle. apply list.NoDup_cons. split; [rewrite elem_of_app, elem_of_cons; naive_solver|done].
  - apply touched_list. eapply touched_elem; [|cbn; rewrite lookup_insert_ne by done; apply lookup_insert_eq|set_solver|done|done].
    eapply touched_elem; [|cbn; rewrite lookup_insert_ne by done; exact Hm'|set_solver|done|done].
    eapply touched_elem; [|exact Hre'|set_solver|done|done]. eapply touched_weaken; [exact Ht1|set_solver].
Qed.

Lemma insertAfter_spec h l es1 mark es2 e : linked h l (es1 ++ mark :: es2) -> detached h l e -> e ∉ es1 ++ mark :: es2 ->
  exists h', insertAfter l e mark h = Done h' /\ linked h' l (es1 ++ mark :: e :: es2) /\
    touched l (e :: es1 ++ mark :: es2) h h'.
Proof.
  intros (Hlr & Hd & Hnd) (re & Hre & Hrl) Hnew. destruct (first_last_split es1 mark es2) as [Ef El]. rewrite Ef, El in Hlr.
  apply dseg_app in Hd as [Hd1 Hd2]. cbn [first_or] in Hd1. destruct Hd2 as [[v Hm] Hd2].
  change (match es2 with [] => None | x :: _ => Some x end) with (first_or es2 None) in Hm.
  pose proof Hnd as Hnd0. apply list.NoDup_app in Hnd as (Hn1 & Hdis & Hn2). apply list.NoDup_cons in Hn2 as [Hne Hn2].
  rewrite elem_of_app, elem_of_cons in Hnew.
  assert (Hm1 : mark ∉ es1) by (intros Hin; apply (Hdis mark Hin), list_elem_of_here).
  assert (He1 : e ∉ es1) by naive_solver. assert (Hem : e <> mark) by naive_solver. assert (He2 : e ∉ es2) by naive_solver.
  assert (Hd12 : forall x, x ∈ es1 -> x ∉ es2) by (intros x Hx1 Hx2; apply (Hdis x Hx1), list_elem_of_further, Hx2).
  unfold insertAfter. rewrite (elem_done _ _ _ Hm). cbn [mbind outcome_bind next].
  destruct (link_prev_spec h l es2 (Some mark) (Some e) _ Hlr Hn2 Hd2) as (h1 & -> & Hd2' & Hlr1 & Ht1).
  cbn [mbind outcome_bind]. pose proof Hm as Hm'. rewrite <- (t_out _ _ _ _ Ht1 mark Hne) in Hm'.
  pose proof Hre as Hre'. rewrite <- (t_out _ _ _ _ Ht1 e He2) in Hre'.
  rewrite (elem_done _ _ _ Hm'). cbn [mbind outcome_bind next].
  rewrite (set_next_done _ _ _ _ Hre'). cbn [mbind outcome_bind].
  erewrite set_next_done by (cbn; rewrite lookup_insert_ne by done; exact Hm'). cbn [mbind outcome_bind prev elist Value].
  erewrite set_prev_done by (cbn; rewrite lookup_insert_ne by done; apply lookup_insert_eq). cbn [mbind outcome_bind next elist Value].
  erewrite add_len_done by exact Hlr1. eexists. split; [reflexivity|]. split.
  - unfold linked, put_list, put_elem; cbn [elems lists front back len]. split_and!.
    + rewrite lookup_insert_eq, len_step. do 2 f_equal.
      * by rewrite first_or_app.
      * rewrite last_or_app, !last_or_cons. destruct es2 as [|x es2]; [done|]. by rewrite !last_or_cons.
      * rewrite !zlen_app, !zlen_cons. f_equal. lia.
    + apply dseg_app. cbn [dseg first_or]. rewrite Hrl, lookup_insert_eq, lookup_insert_ne, lookup_insert_eq by done. split_and!; eauto.
      * do 3 (apply dseg_insert_other; [done|]). by eapply dseg_touched.
      * by do 3 (apply dseg_insert_other; [done|]).
    + rewrite cons_middle, app_assoc, <- Permutation_middle, <- app_assoc. apply list.NoDup_cons.
      split; [rewrite !elem_of_app, list_elem_of_singleton; naive_solver|done].
  - apply touched_list. eapply touched_elem; [|cbn; rewrite lookup_insert_ne by done; apply lookup_insert_eq|set_solver|done|done].
    eapply touched_elem; [|cbn; rewrite lookup_insert_ne by done; exact Hm'|set_solver|done|done].
    eapply touched_elem; [|exact Hre'|set_solver|done|done]. eapply touched_weaken; [exact Ht1|set_solver].
Qed.

Lemma insert_only_spec h l e : linked h l [] -> detached h l e ->
  exists h', insert_only l e h = Done h' /\ linked h' l [e] /\ touched l [e] h h'.
Proof.
  intros (Hlr & _ & _) (re & Hre & Hrl). unfold insert_only. rewrite (list_done _ _ _ Hlr). cbn [mbind outcome_bind].
  erewrite set_prev_done by exact Hre. cbn [mbind outcome_bind].
  erewrite set_next_done by (apply lookup_insert_eq). cbn [mbind outcome_bind prev elist Value].
  erewrite list_done by (apply lookup_insert_eq). cbn [mbind outcome_bind front back]. eexists. split; [reflexivity|]. split.
  - unfold linked, put_list, put_elem; cbn [elems lists]. rewrite lookup_insert_eq. split_and!; [done| |apply NoDup_singleton].
    cbn [dseg]. rewrite lookup_insert_eq, Hrl. eauto.
  - apply touched_list. eapply touched_elem; [|apply lookup_insert_eq|set_solver|done|done].
    eapply touched_elem; [|exact Hre|set_solver|done|done]. apply touched_list, touched_refl.
Qed.

Lemma insertFront_spec h l es e : linked h l es -> detached h l e -> e ∉ es ->
  exists h', insertFront l e h = Done h' /\ linked h' l (e :: es) /\ touched l (e :: es) h h'.
Proof.
  intros Hl He Hnew. unfold insertFront. rewrite (list_done _ _ _ (proj1 Hl)). cbn [mbind outcome_bind front].
  destruct es as [|f es]; [by apply insert_only_spec|]. exact (insertBefore_spec h l [] f es e Hl He Hnew).
Qed.

Lemma insertBack_spec h l es e : linked h l es -> detached h l e -> e ∉ es ->
  exists h', insertBack l e h = Done h' /\ linked h' l (es ++ [e]) /\ touched l (e :: es) h h'.
Proof.
  intros Hl He Hnew. unfold insertBack. rewrite (list_done _ _ _ (proj1 Hl)). cbn [mbind outcome_bind back].
  destruct es as [|b es _] using rev_ind; [by apply insert_only_spec|]. rewrite last_or_snoc.
  destruct (insertAfter_spec h l es b [] e Hl He Hnew) as (h' & -> & Hl' & Ht). exists h'.
  rewrite <- app_assoc. done.
Qed.

(** * Stores of lists *)

(** The store holds the lists [S], and elements belong to the list they are in, but
    for the elements [D] of lists that were cleared. *)
Record Rep h (S : gmap lid (list loc)) (D : gset loc) : Prop := {
  rep_lists : forall l, is_Some (lists h !! l) <-> is_Some (S !! l);
  rep_linked : forall l es, S !! l = Some es -> linked h l es;
  rep_owned : forall e r l, elems h !! e = Some r -> elist r = Some l -> e ∉ D -> exists es, S !! l = Some es /\ e ∈ es;
}.

(** Replacing the sequence of one list; elements may come in fresh and leave
    without an owner. *)
Lemma Rep_update h h' S D l es es' : Rep h S D -> S !! l = Some es -> linked h' l es' ->
  (forall l', l' <> l -> lists h' !! l' = lists h !! l') ->
  (forall x, x ∉ es -> x ∉ es' -> elems h' !! x = elems h !! x) ->
  (forall x r, x ∈ es -> x ∉ es' -> elems h' !! x = Some r -> elist r = None) ->
  (forall x, x ∈ es' -> x ∈ es \/ elems h !! x = None) ->
  Rep h' (<[l:=es']> S) D.
Proof.
  intros [Hls Hlk Hown] HS Hl' Hlists Hout Hgone Hnew. constructor.
  - intros l0. destruct (decide (l0 = l)) as [->|Hne].
    + rewrite lookup_insert_eq. destruct Hl' as (Hr & _). rewrite Hr. naive_solver.
    + rewrite lookup_insert_ne, Hlists by done. auto.
  - intros l0 es0 H0. destruct (decide (l0 = l)) as [->|Hne]; [rewrite lookup_insert_eq in H0; by simplify_eq|].
    rewrite lookup_insert_ne in H0 by done. destruct (Hlk l0 es0 H0) as (Hr & Hd & Hnd).
    unfold linked. rewrite Hlists by done. split_and!; [done| |done]. eapply dseg_frame; [|exact Hd]. intros x Hx.
    destruct (dseg_elem _ _ _ _ _ _ Hd Hx) as (r & Hxr & Hxl).
    assert (Hxes : x ∉ es).
    { intros Hin. destruct (Hlk l es HS) as (_ & Hd' & _). destruct (dseg_elem _ _ _ _ _ _ Hd' Hin) as (r' & ? & ?). naive_solver. }
    apply Hout; [done|]. intros Hin. destruct (Hnew x Hin) as [?|Hn]; [done|]. by rewrite Hn in Hxr.
  - intros e r l0 Her Hel HD. destruct (decide (e ∈ es')) as [Hin|Hni].
    + destruct Hl' as (_ & Hd & _). destruct (dseg_elem _ _ _ _ _ _ Hd Hin) as (r' & ? & ?). simplify_eq.
      exists es'. by rewrite lookup_insert_eq.
    + destruct (decide (e ∈ es)) as [Hes|Hes]; [rewrite (Hgone e r) in Hel; done|]. rewrite Hout in Her by done.
      destruct (Hown e r l0 Her Hel HD) as (es0 & H0 & Hin). exists es0. rewrite lookup_insert_ne; [done|]. naive_solver.
Qed.

End Lists.

(** * The abstract lists *)

(** Finite sequences of elements, the values of all elements there are, and those
    that were in a list when it was cleared. *)
Record model (V : Type) := MkModel { mlists : gmap lid (list loc); mvals : gmap loc V; mcleared : gset loc }.
Arguments MkModel {V} mlists mvals mcleared.
Arguments mlists {V} _.
Arguments mvals {V} _.
Arguments mcleared {V} _.

Section Model.
Context {V : Type}.
Implicit Types (a : model V) (l ol : lid) (e mark : loc) (v : V).

(** Add a new element to [l], where [f] says. *)
Definition madd (f : loc -> list loc -> list loc) l v a : model V :=
  match mlists a !! l with
  | Some es => let e := fresh (dom (mvals a)) in MkModel (<[l:=f e es]> (mlists a)) (<[e:=v]> (mvals a)) (mcleared a)
  | None => a
  end.

Definition mPushFront : lid -> V -> model V -> model V := madd cons.
Definition mPushBack : lid -> V -> model V -> model V := madd (fun e es => es ++ [e]).

Fixpoint ins_before mark e (es : list loc) : list loc :=
  match es with
  | [] => []
  | x :: es => if decide (x = mark) then e :: x :: es else x :: ins_before mark e es
  end.
Fixpoint ins_after mark e (es : list loc) : list loc :=
  match es with
  | [] => []
  | x :: es => if decide (x = mark) then x :: e :: es else x :: ins_after mark e es
  end.

(** [mark ∈ l]. *)
Definition member a l e : bool :=
  match mlists a !! l with Some es => bool_decide (e ∈ es) | None => false end.

Definition mInsertBefore l v mark a := if member a l mark then madd (ins_before mark) l v a else a.
Definition mInsertAfter l v mark a := if member a l mark then madd (ins_after mark) l v a else a.

(** Change the sequence of [l] if it has [e]. *)
Definition mchange (f : list loc -> list loc) l e a : model V :=
  if member a l e then MkModel (alter f l (mlists a)) (mvals a) (mcleared a) else a.

Definition without e (es : list loc) : list loc := filter (fun x => x <> e) es.
Definition mRemove l e := mchange (without e) l e.
Definition mMoveToFront l e := mchange (fun es => e :: without e es) l e.
Definition mMoveToBack l e := mchange (fun es => without e es ++ [e]) l e.

(** The values of a list, in order. *)
Definition mvalues a l : list V := omap (fun e => mvals a !! e) (default [] (mlists a !! l)).

Definition mPushBackList l ol a : model V := foldl (fun a v => mPushBack l v a) a (mvalues a ol).
Definition mPushFrontList l ol a : model V := foldl (fun a v => mPushFront l v a) a (reverse (mvalues a ol)).

Definition mInit l a : model V := MkModel (<[l:=[]]> (mlists a)) (mvals a) (mcleared a ∪ list_to_set (default [] (mlists a !! l))).
Definition mNew a : model V := MkModel (<[fresh (dom (mlists a)):=[]]> (mlists a)) (mvals a) (mcleared a).

(** The store [h] implements [a]. *)
Definition vals (h : store V) : gmap loc V := Value <$> elems h.
Definition Sim (h : store V) a : Prop := Rep h (mlists a) (mcleared a) /\ vals h = mvals a.

(** ** Simulation of each operation *)

Lemma vals_lookup h e : vals h !! e = Value <$> elems h !! e.
Proof. apply lookup_fmap. Qed.

Lemma touched_vals l es h h' : touched l es h h' -> vals h' = vals h.
Proof. intros Ht. apply map_eq. intros x. rewrite !vals_lookup. apply (t_val _ _ _ _ Ht). Qed.

Lemma sim_linked h a l es : Sim h a -> mlists a !! l = Some es -> linked h l es.
Proof. intros [HR _]. apply (rep_linked _ _ _ HR). Qed.

(** Membership is the guard of the code. *)
Lemma sim_member h a l e r es : Sim h a -> mlists a !! l = Some es -> elems h !! e = Some r -> (e ∉ mcleared a) ->
  bool_decide (elist r = Some l) = bool_decide (e ∈ es).
Proof.
  intros Hs Hl He HD. pose proof (sim_linked _ _ _ _ Hs Hl) as (_ & Hd & _). destruct Hs as [HR _]. apply bool_decide_ext. split.
  - intros Hel. destruct (rep_owned _ _ _ HR e r l He Hel HD) as (es' & Hl' & Hin). by simplify_eq.
  - intros Hin. destruct (dseg_elem _ _ _ _ _ _ Hd Hin) as (r' & ? & ?). by simplify_eq.
Qed.

(** A fresh element, before it is linked. *)
Lemma sim_new h a l es v : Sim h a -> mlists a !! l = Some es ->
  let e := fresh (dom (mvals a)) in let h0 := put_elem e (MkElement None None (Some l) v) h in
  new_elem l v h = (e, h0) /\ elems h !! e = None /\ linked h0 l es /\ detached h0 l e /\ e ∉ es.
Proof.
  intros Hs Hl e h0. pose proof (sim_linked _ _ _ _ Hs Hl) as (Hr & Hd & Hnd). destruct Hs as [HR Hv].
  assert (Hdom : dom (elems h) = dom (mvals a)) by (rewrite <- Hv; unfold vals; by rewrite dom_fmap_L).
  assert (Hfr : elems h !! e = None) by (apply not_elem_of_dom; rewrite Hdom; apply is_fresh).
  assert (Hne : e ∉ es).
  { intros Hin. destruct (dseg_elem _ _ _ _ _ _ Hd Hin) as (r & Hr' & _). by rewrite Hfr in Hr'. }
  split_and!; [unfold new_elem; by rewrite Hdom|done| | |done].
  - unfold linked, h0. cbn. split_and!; [done|by apply dseg_insert_other|done].
  - eexists. split; [apply lookup_insert_eq|done].
Qed.

Lemma sim_insert h a l es es' v h' : Sim h a -> mlists a !! l = Some es ->
  let e := fresh (dom (mvals a)) in let h0 := put_elem e (MkElement None None (Some l) v) h in
  linked h' l es' -> touched l (e :: es) h0 h' -> (forall x, x ∈ es' <-> x = e \/ x ∈ es) ->
  Sim h' (MkModel (<[l:=es']> (mlists a)) (<[e:=v]> (mvals a)) (mcleared a)).
Proof.
  intros Hs Hl e h0 Hl' Ht Hin. destruct (sim_new h a l es v Hs Hl) as (_ & Hfr & _ & _ & Hne). fold e in Hfr, Hne.
  destruct Hs as [HR Hv]. split; cbn.
  - eapply (Rep_update h); [done|done|done|..].
    + intros l0 Hl0. rewrite (t_lists _ _ _ _ Ht) by done. done.
    + intros x Hx Hx'. rewrite (t_out _ _ _ _ Ht) by set_solver. unfold h0. cbn. rewrite lookup_insert_ne; [done|]. set_solver.
    + set_solver.
    + intros x Hx. apply Hin in Hx as [->|?]; auto.
  - rewrite (touched_vals _ _ _ _ Ht). unfold vals, h0. cbn. rewrite fmap_insert. cbn. by rewrite <- Hv.
Qed.

Lemma sim_PushFront h a l v es : Sim h a -> mlists a !! l = Some es ->
  exists h', PushFront l v h = Done (fresh (dom (mvals a)), h') /\ Sim h' (mPushFront l v a).
Proof.
  intros Hs Hl. destruct (sim_new h a l es v Hs Hl) as (He & Hfr & Hl0 & Hd0 & Hne). unfold PushFront. rewrite He.
  destruct (insertFront_spec _ l es _ Hl0 Hd0 Hne) as (h' & -> & Hl' & Ht). exists h'. split; [done|].
  unfold mPushFront, madd. rewrite Hl. eapply sim_insert; [done..|]. set_solver.
Qed.

Lemma sim_PushBack h a l v es : Sim h a -> mlists a !! l = Some es ->
  exists h', PushBack l v h = Done (fresh (dom (mvals a)), h') /\ Sim h' (mPushBack l v a).
Proof.
  intros Hs Hl. destruct (sim_new h a l es v Hs Hl) as (He & Hfr & Hl0 & Hd0 & Hne). unfold PushBack. rewrite He.
  destruct (insertBack_spec _ l es _ Hl0 Hd0 Hne) as (h' & -> & Hl' & Ht). exists h'. split; [done|].
  unfold mPushBack, madd. rewrite Hl. eapply sim_insert; [done..|]. set_solver.
Qed.

(** The position of an element. *)
Lemma split_member e (es : list loc) : e ∈ es -> NoDup es -> exists es1 es2, es = es1 ++ e :: es2 /\ (e ∉ es1) /\ (e ∉ es2).
Proof.
  intros (es1 & es2 & ->)%list_elem_of_split (_ & Hdis & Hnd)%list.NoDup_app. exists es1, es2. apply list.NoDup_cons in Hnd as [Hne _].
  split_and!; [done| |done]. intros Hin. apply (Hdis e Hin), list_elem_of_here.
Qed.

Lemma at_position mark e es1 es2 : (mark ∉ es1) -> (mark ∉ es2) ->
  ins_before mark e (es1 ++ mark :: es2) = es1 ++ e :: mark :: es2 /\
  ins_after mark e (es1 ++ mark :: es2) = es1 ++ mark :: e :: es2 /\
  without mark (es1 ++ mark :: es2) = es1 ++ es2.
Proof.
  intros H1 H2. induction es1 as [|x es1 IH]; cbn [app ins_before ins_after].
  - rewrite !decide_True by done. split_and!; [done|done|]. unfold without. rewrite filter_cons_False by auto.
    clear -H2. induction es2 as [|y es2 IH]; [done|]. apply not_elem_of_cons in H2 as [Hy H2].
    rewrite filter_cons_True by auto. by rewrite IH.
  - apply not_elem_of_cons in H1 as [Hx H1]. rewrite !decide_False by done. destruct (IH H1) as (-> & -> & IH3).
    split_and!; [done|done|]. unfold without in *. rewrite filter_cons_True by done. by rewrite IH3.
Qed.

Lemma sim_elem h a e : Sim h a -> is_Some (mvals a !! e) -> exists r, elems h !! e = Some r.
Proof.
  intros [_ Hv] [v Hev]. rewrite <- Hv, vals_lookup in Hev. destruct (elems h !! e) as [r|]; [by exists r|done].
Qed.

Lemma member_true h a l e : Sim h a -> member a l e = true ->
  exists es1 es2, mlists a !! l = Some (es1 ++ e :: es2) /\ (e ∉ es1) /\ (e ∉ es2).
Proof.
  unfold member. intros Hs. destruct (mlists a !! l) as [es|] eqn:Hl; [|done]. intros Hin%bool_decide_eq_true.
  destruct (sim_linked _ _ _ _ Hs Hl) as (_ & _ & Hnd). destruct (split_member e es Hin Hnd) as (es1 & es2 & -> & ? & ?).
  by exists es1, es2.
Qed.

Lemma sim_guard h a l e r : Sim h a -> is_Some (mlists a !! l) -> elems h !! e = Some r -> (e ∉ mcleared a) ->
  bool_decide (elist r = Some l) = member a l e.
Proof. intros Hs [es Hl] He HD. unfold member. rewrite Hl. by eapply sim_member. Qed.

Lemma sim_InsertBefore h a l v mark : Sim h a -> is_Some (mlists a !! l) -> is_Some (mvals a !! mark) /\ (mark ∉ mcleared a) ->
  exists h' o, InsertBefore l v mark h = Done (o, h') /\ Sim h' (mInsertBefore l v mark a) /\
    o = if member a l mark then Some (fresh (dom (mvals a))) else None.
Proof.
  intros Hs Hl [Hm HD]. destruct (sim_elem _ _ _ Hs Hm) as [r Hr]. unfold InsertBefore, mInsertBefore.
  rewrite (elem_done _ _ _ Hr). cbn [mbind outcome_bind]. rewrite (sim_guard h a l mark r) by done.
  destruct (member a l mark) eqn:Em; cbn [negb]; [|by exists h, None].
  destruct (member_true h a l mark Hs Em) as (es1 & es2 & Hes & H1 & H2).
  destruct (sim_new h a l _ v Hs Hes) as (-> & Hfr & Hl0 & Hd0 & Hne).
  destruct (insertBefore_spec _ l es1 mark es2 _ Hl0 Hd0 Hne) as (h' & -> & Hl' & Ht). eexists h', _. split; [done|]. split; [|done].
  unfold madd. rewrite Hes, (proj1 (at_position mark _ es1 es2 H1 H2)). eapply sim_insert; [done..|]. set_solver.
Qed.

Lemma sim_InsertAfter h a l v mark : Sim h a -> is_Some (mlists a !! l) -> is_Some (mvals a !! mark) /\ (mark ∉ mcleared a) ->
  exists h' o, InsertAfter l v mark h = Done (o, h') /\ Sim h' (mInsertAfter l v mark a) /\
    o = if member a l mark then Some (fresh (dom (mvals a))) else None.
Proof.
  intros Hs Hl [Hm HD]. destruct (sim_elem _ _ _ Hs Hm) as [r Hr]. unfold InsertAfter, mInsertAfter.
  rewrite (elem_done _ _ _ Hr). cbn [mbind outcome_bind]. rewrite (sim_guard h a l mark r) by done.
  destruct (member a l mark) eqn:Em; cbn [negb]; [|by exists h, None].
  destruct (member_true h a l mark Hs Em) as (es1 & es2 & Hes & H1 & H2).
  destruct (sim_new h a l _ v Hs Hes) as (-> & Hfr & Hl0 & Hd0 & Hne).
  destruct (insertAfter_spec _ l es1 mark es2 _ Hl0 Hd0 Hne) as (h' & -> & Hl' & Ht). eexists h', _. split; [done|]. split; [|done].
  unfold madd. rewrite Hes, (proj1 (proj2 (at_position mark _ es1 es2 H1 H2))). eapply sim_insert; [done..|]. set_solver.
Qed.

(** Rearranging a list. *)
Lemma sim_change h a l es f h' : Sim h a -> mlists a !! l = Some es -> linked h' l (f es) -> touched l es h h' ->
  (forall x, x ∈ f es <-> x ∈ es) -> Sim h' (MkModel (alter f l (mlists a)) (mvals a) (mcleared a)).
Proof.
  intros [HR Hv] Hl Hl' Ht Hin. split; cbn; [|by rewrite (touched_vals _ _ _ _ Ht)].
  assert (alter f l (mlists a) = <[l:=f es]> (mlists a)) as ->.
  { apply map_eq. intros k. destruct (decide (k = l)) as [->|];
      [by rewrite lookup_alter_eq, lookup_insert_eq, Hl|by rewrite lookup_alter_ne, lookup_insert_ne]. }
  eapply (Rep_update h); [done|done|done|..].
  - apply (t_lists _ _ _ _ Ht).
  - intros x Hx _. by apply (t_out _ _ _ _ Ht).
  - intros x r Hx Hnx. apply Hin in Hx. done.
  - intros x Hx. left. by apply Hin.
Qed.

Lemma remove_member h a l e : Sim h a -> member a l e = true ->
  exists es1 es2 h' v, mlists a !! l = Some (es1 ++ e :: es2) /\ without e (es1 ++ e :: es2) = es1 ++ es2 /\ (e ∉ es1 ++ es2) /\
    remove l e h = Done h' /\ linked h' l (es1 ++ es2) /\ touched l (es1 ++ e :: es2) h h' /\
    elems h' !! e = Some (MkElement None None (Some l) v).
Proof.
  intros Hs Em. destruct (member_true h a l e Hs Em) as (es1 & es2 & Hes & H1 & H2).
  destruct (remove_spec h l es1 e es2 (sim_linked _ _ _ _ Hs Hes)) as (h' & v & Hh & Hl & Ht & He).
  exists es1, es2, h', v. split_and!; try done; [apply (at_position e e es1 es2 H1 H2)|]. set_solver.
Qed.

(** An element that is in no list but [l]. *)
Definition not_elsewhere a l e : Prop := forall l' es, mlists a !! l' = Some es -> e ∈ es -> l' = l.

Lemma sim_Remove h a l e v : Sim h a -> is_Some (mlists a !! l) -> mvals a !! e = Some v -> (e ∉ mcleared a) -> not_elsewhere a l e ->
  exists h', Remove l e h = Done (v, h') /\ Sim h' (mRemove l e a).
Proof.
  intros Hs Hl Hv HD Hne. destruct (sim_elem h a e Hs ltac:(by exists v)) as [r Hr].
  assert (Hvr : Value r = v). { destruct Hs as [_ Hvals]. rewrite <- Hvals, vals_lookup, Hr in Hv. by injection Hv. }
  unfold Remove, mRemove, mchange. destruct (member a l e) eqn:Em.
  - destruct (remove_member h a l e Hs Em) as (es1 & es2 & h' & w & Hes & Hwo & Hnin & -> & Hl' & Ht & He').
    pose proof (t_val _ _ _ _ Ht e) as Hw. rewrite He', Hr in Hw. injection Hw as Hw. cbn [mbind outcome_bind].
    unfold set_elist. rewrite (elem_done _ _ _ He'). cbn [mbind outcome_bind next prev Value].
    erewrite elem_done by (apply lookup_insert_eq). cbn [mbind outcome_bind Value]. eexists. split; [by rewrite Hw, Hvr|].
    destruct Hs as [HR Hvals]. split; cbn.
    + assert (alter (without e) l (mlists a) = <[l:=es1 ++ es2]> (mlists a)) as ->.
      { rewrite <- Hwo. apply map_eq. intros k. destruct (decide (k = l)) as [->|];
          [by rewrite lookup_alter_eq, lookup_insert_eq, Hes|by rewrite lookup_alter_ne, lookup_insert_ne]. }
      eapply (Rep_update h); [done|done| |cbn; apply (t_lists _ _ _ _ Ht)|..].
      * destruct Hl' as (A & B & C). split_and!; [done| |done]. by apply dseg_insert_other.
      * intros x Hx _. cbn. rewrite lookup_insert_ne by set_solver. by apply (t_out _ _ _ _ Ht).
      * intros x rx Hx Hnx. cbn. assert (x = e) as -> by set_solver. rewrite lookup_insert_eq. by intros [= <-].
      * intros x Hx. left. set_solver.
    + rewrite <- Hvals, <- (touched_vals _ _ _ _ Ht). unfold vals. cbn. rewrite fmap_insert. cbn.
      apply insert_id. by rewrite lookup_fmap, He'.
  - unfold remove. rewrite (elem_done _ _ _ Hr). cbn [mbind outcome_bind]. rewrite (sim_guard h a l e r), Em by done. cbn [negb mbind outcome_bind].
    unfold set_elist at 1. rewrite (elem_done _ _ _ Hr). cbn [mbind outcome_bind].
    erewrite elem_done by (apply lookup_insert_eq). cbn [mbind outcome_bind Value]. eexists. split; [by rewrite Hvr|].
    destruct (elist r) as [lr|] eqn:Elr.
    + exfalso. assert (Hg : lr <> l).
      { intros ->. rewrite <- (sim_guard h a l e r Hs Hl Hr HD), Elr in Em. by apply bool_decide_eq_false in Em. }
      destruct Hs as [[_ _ Hown] _]. destruct (Hown e r lr Hr Elr HD) as (es & Hes & Hin). apply Hg. by eapply Hne.
    + replace (put_elem e _ h) with h; [done|]. destruct r as [n p o w]. cbn in *. subst o. destruct h as [he hl]. unfold put_elem. cbn.
      subst w. f_equal. symmetry. apply insert_id. exact Hr.
Qed.

(** Moving an element: the code takes it out and puts it back, unless it is in
    place already. *)
Lemma sim_in_place h a l es f : Sim h a -> mlists a !! l = Some es -> f es = es ->
  Sim h (MkModel (alter f l (mlists a)) (mvals a) (mcleared a)).
Proof.
  intros Hs Hl Hf. eapply (sim_change h a l es f h); [done|done|rewrite Hf; by apply (sim_linked _ a)|apply touched_refl|].
  intros x. by rewrite Hf.
Qed.

Lemma sim_moved h a l e (ins : store V -> outcome (store V)) f : Sim h a -> member a l e = true ->
  (forall h1 es, linked h1 l es -> detached h1 l e -> e ∉ es ->
     exists h2, ins h1 = Done h2 /\ linked h2 l (f es) /\ touched l (e :: es) h1 h2) ->
  (forall es x, x ∈ f es <-> x = e \/ x ∈ es) ->
  exists h', mbind ins (remove l e h) = Done h' /\
    Sim h' (MkModel (alter (fun es => f (without e es)) l (mlists a)) (mvals a) (mcleared a)).
Proof.
  intros Hs Em Hins Hf. destruct (remove_member h a l e Hs Em) as (es1 & es2 & h1 & v & Hes & Hwo & Hnin & -> & Hl' & Ht & He').
  cbn [mbind outcome_bind]. destruct (Hins h1 _ Hl' ltac:(by eexists) Hnin) as (h2 & -> & Hl2 & Ht2). exists h2. split; [done|].
  eapply (sim_change h a l _ (fun es => f (without e es))); [done|done|by rewrite Hwo|..].
  - eapply touched_trans; [exact Ht|exact Ht2|done|]. set_solver.
  - intros x. rewrite Hwo, Hf. set_solver.
Qed.

Lemma sim_MoveToFront h a l e : Sim h a -> is_Some (mlists a !! l) -> is_Some (mvals a !! e) /\ (e ∉ mcleared a) ->
  exists h', MoveToFront l e h = Done h' /\ Sim h' (mMoveToFront l e a).
Proof.
  intros Hs [es Hl] [He HD]. destruct (sim_elem h a e Hs He) as [r Hr]. unfold MoveToFront, mMoveToFront, mchange.
  rewrite (elem_done _ _ _ Hr). cbn [mbind outcome_bind].
  pose proof (sim_linked _ _ _ _ Hs Hl) as (Hlr & _ & Hnd). rewrite (list_done _ _ _ Hlr). cbn [mbind outcome_bind front].
  rewrite (sim_guard h a l e r) by (try done; by exists es). destruct (member a l e) eqn:Em; cbn [negb orb]; [|by exists h].
  case_bool_decide as Hf.
  - exists h. split; [done|]. destruct es as [|x es]; [done|]. injection Hf as ->. apply list.NoDup_cons in Hnd as [Hnx _].
    eapply sim_in_place; [done|done|]. f_equal. apply (at_position e e [] es); [apply not_elem_of_nil|done].
  - apply (sim_moved h a l e (insertFront l e) (cons e)); [done|done|intros; by apply insertFront_spec|set_solver].
Qed.

Lemma sim_MoveToBack h a l e : Sim h a -> is_Some (mlists a !! l) -> is_Some (mvals a !! e) /\ (e ∉ mcleared a) ->
  exists h', MoveToBack l e h = Done h' /\ Sim h' (mMoveToBack l e a).
Proof.
  intros Hs [es Hl] [He HD]. destruct (sim_elem h a e Hs He) as [r Hr]. unfold MoveToBack, mMoveToBack, mchange.
  rewrite (elem_done _ _ _ Hr). cbn [mbind outcome_bind].
  pose proof (sim_linked _ _ _ _ Hs Hl) as (Hlr & _ & Hnd). rewrite (list_done _ _ _ Hlr). cbn [mbind outcome_bind back].
  rewrite (sim_guard h a l e r) by (try done; by exists es). destruct (member a l e) eqn:Em; cbn [negb orb]; [|by exists h].
  case_bool_decide as Hf.
  - exists h. split; [done|]. destruct es as [|x es _] using rev_ind; [done|]. rewrite last_or_snoc in Hf. injection Hf as ->.
    apply list.NoDup_app in Hnd as (_ & Hdis & _).
    assert (Hnx : e ∉ es) by (intros Hin; apply (Hdis e Hin), list_elem_of_here).
    eapply sim_in_place; [done|done|]. f_equal. rewrite (proj2 (proj2 (at_position e e es [] Hnx (not_elem_of_nil _)))). apply app_nil_r.
  - apply (sim_moved h a l e (insertBack l e) (fun es => es ++ [e])); [done|done|intros; by apply insertBack_spec|set_solver].
Qed.

(** New lists, and cleared ones. *)
Lemma Rep_add (h : store V) S D l : Rep h S D ->
  Rep (put_list l (MkList None None 0) h) (<[l:=[]]> S) (D ∪ list_to_set (default [] (S !! l))).
Proof.
  intros [Hls Hlk Hown]. constructor.
  - intros l0. cbn. destruct (decide (l0 = l)) as [->|]; [by rewrite !lookup_insert_eq|by rewrite !lookup_insert_ne].
  - intros l0 es. destruct (decide (l0 = l)) as [->|].
    + rewrite lookup_insert_eq. intros [= <-]. split_and!; [by cbn; rewrite lookup_insert_eq|done|constructor].
    + rewrite lookup_insert_ne by done. intros Hes. destruct (Hlk l0 es Hes) as (A & B & C). split_and!; [|done|done].
      cbn. by rewrite lookup_insert_ne.
  - intros e r l0 He Hr HD. apply not_elem_of_union in HD as [HD Hcl]. destruct (Hown e r l0 He Hr HD) as (es & Hes & Hin).
    exists es. split; [|done]. rewrite lookup_insert_ne; [done|]. intros <-. apply Hcl, elem_of_list_to_set. by rewrite Hes.
Qed.

Lemma sim_Init h a l : Sim h a -> is_Some (mlists a !! l) -> exists h', Init l h = Done h' /\ Sim h' (mInit l a).
Proof.
  intros Hs [es Hl]. pose proof (sim_linked _ _ _ _ Hs Hl) as (Hlr & _). unfold Init. rewrite (list_done _ _ _ Hlr).
  eexists. split; [done|]. destruct Hs as [HR Hv]. split; [|done]. by apply Rep_add.
Qed.

Lemma sim_New h a : Sim h a -> exists h', New h = (fresh (dom (mlists a)), h') /\ Sim h' (mNew a).
Proof.
  intros [HR Hv]. unfold New.
  assert (dom (lists h) = dom (mlists a)) as ->.
  { apply set_eq. intros l. rewrite !elem_of_dom. apply (rep_lists _ _ _ HR). }
  eexists. split; [done|]. split; [|done]. pose proof (Rep_add h _ _ (fresh (dom (mlists a))) HR) as H.
  assert (mlists a !! fresh (dom (mlists a)) = None) as E by apply not_elem_of_dom, is_fresh. rewrite E in H. cbn in H. by rewrite union_empty_r_L in H.
Qed.

(** An element of a list, its value and its neighbours. *)
Lemma sim_at h a l es1 x es2 : Sim h a -> mlists a !! l = Some (es1 ++ x :: es2) ->
  exists v, mvals a !! x = Some v /\ elems h !! x = Some (MkElement (first_or es2 None) (last_or None es1) (Some l) v).
Proof.
  intros Hs Hl. pose proof (sim_linked _ _ _ _ Hs Hl) as (_ & Hd & _). apply dseg_app in Hd as [_ [[v Hv] _]]. exists v.
  split; [|exact Hv]. destruct Hs as [_ <-]. by rewrite vals_lookup, Hv.
Qed.

Lemma sim_known h a l es x : Sim h a -> mlists a !! l = Some es -> x ∈ es -> is_Some (mvals a !! x).
Proof. intros Hs Hl (es1 & es2 & ->)%list_elem_of_split. destruct (sim_at _ _ _ _ _ _ Hs Hl) as (v & -> & _). by eexists. Qed.

(** Adding to [l] leaves the values of known elements, and [ol] unless it is [l]. *)
Lemma madd_frame f l v a ol es es' : mlists a !! ol = Some es -> (l = ol -> f (fresh (dom (mvals a))) es = es') -> (l <> ol -> es = es') ->
  mlists (madd f l v a) !! ol = Some es'.
Proof.
  intros Hol Heq Hne. unfold madd. destruct (mlists a !! l) as [esl|] eqn:Hl; cbn.
  - destruct (decide (l = ol)) as [<-|]; [rewrite lookup_insert_eq|rewrite lookup_insert_ne, Hol by done; f_equal; auto].
    rewrite Hl in Hol. injection Hol as ->. f_equal. auto.
  - rewrite <- Hne; [done|]. congruence.
Qed.

Lemma madd_values f l v a (xs : list loc) : (forall x, x ∈ xs -> is_Some (mvals a !! x)) ->
  omap (fun e => mvals (madd f l v a) !! e) xs = omap (fun e => mvals a !! e) xs.
Proof.
  intros Hxs. unfold madd. destruct (mlists a !! l); [|done]. cbn [mvals]. induction xs as [|x xs IH]; [done|]. cbn.
  rewrite lookup_insert_ne.
  - rewrite IH; [done|]. intros y Hy. apply Hxs. by apply list_elem_of_further.
  - intros <-. apply (is_fresh (dom (mvals a))), elem_of_dom, Hxs, list_elem_of_here.
Qed.

Lemma madd_known f l v a l' : is_Some (mlists a !! l') -> is_Some (mlists (madd f l v a) !! l').
Proof.
  intros [es Hl]. unfold madd. destruct (mlists a !! l); [cbn|by exists es].
  destruct (decide (l = l')) as [->|]; [rewrite lookup_insert_eq|rewrite lookup_insert_ne by done]; by eexists.
Qed.

(** The remaining elements [xs] of [ol] are followed by [extra], the elements
    already added when [ol] is [l]. *)
Lemma push_back_loop l ol last (xs : list loc) : forall fuel h a done extra, Sim h a -> is_Some (mlists a !! l) ->
  mlists a !! ol = Some (done ++ xs ++ extra) -> list.last xs = last -> (length xs < fuel)%nat ->
  exists h', loop fuel (fun '(e, h) =>
    match e with
    | None => Done (inr h)
    | Some x =>
        r ← elem h x;
        '(_, h) ← PushBack l (Value r) h;
        if bool_decide (e = last) then Done (inr h) else
        e ← Next h x;
        Done (inl (e, h))
    end) (head xs, h) = Done h' /\ Sim h' (foldl (fun a v => mPushBack l v a) a (omap (fun e => mvals a !! e) xs)).
Proof.
  induction xs as [|x xs IH]; intros [|fuel] h a done extra Hs Hl Hol Hlast Hfuel; cbn [length] in Hfuel; try lia; cbn [head loop].
  { by exists h. }
  destruct (sim_at h a ol done x (xs ++ extra) Hs Hol) as (v & Hv & Hx). rewrite (elem_done _ _ _ Hx). cbn [mbind outcome_bind Value].
  destruct Hl as [esl Hl]. destruct (sim_PushBack h a l v esl Hs Hl) as (h1 & -> & Hs1). cbn [mbind outcome_bind].
  cbn [omap list_omap]. rewrite Hv. cbn [foldl].
  pose proof (sim_linked _ _ _ _ Hs Hol) as (_ & _ & Hnd). apply list.NoDup_app in Hnd as (_ & _ & Hnd).
  cbn [app] in Hnd. apply list.NoDup_cons in Hnd as [Hnx _].
  rewrite <- (madd_values (fun e es => es ++ [e]) l v a xs)
    by (intros y Hy; apply (sim_known h a ol _ y Hs Hol); set_solver).
  fold (mPushBack l v a). case_bool_decide as Hlx.
  - assert (xs = []) as ->; [|by exists h1]. rewrite <- Hlast, last_cons in Hlx.
    destruct (list.last xs) as [y|] eqn:Hy; [|by apply last_None in Hy]. injection Hlx as <-. exfalso. apply Hnx.
    apply elem_of_app. left. by apply last_Some_elem_of.
  - destruct xs as [|y xs]; [by rewrite <- Hlast in Hlx|]. rewrite last_cons_cons in Hlast.
    assert (exists extra', mlists (mPushBack l v a) !! ol = Some ((done ++ [x]) ++ (y :: xs) ++ extra')) as [extra' Hol'].
    { destruct (decide (l = ol)); [exists (extra ++ [fresh (dom (mvals a))])|exists extra]; (eapply madd_frame; [exact Hol|..]); try done;
        intros _; by rewrite <- !app_assoc. }
    pose proof Hol' as Hol2. rewrite <- app_assoc in Hol2. destruct (sim_at h1 _ ol done x _ Hs1 Hol2) as (v' & _ & Hx1).
    unfold Next. rewrite (elem_done _ _ _ Hx1). cbn [mbind outcome_bind next first_or app].
    apply (IH fuel h1 (mPushBack l v a) (done ++ [x]) extra'); [done|by apply madd_known; exists esl|done|done|cbn in *; lia].
Qed.

Lemma push_front_loop l ol first (xs : list loc) : forall fuel h a done extra, Sim h a -> is_Some (mlists a !! l) ->
  mlists a !! ol = Some (extra ++ xs ++ done) -> head xs = first -> (length xs < fuel)%nat ->
  exists h', loop fuel (fun '(e, h) =>
    match e with
    | None => Done (inr h)
    | Some x =>
        r ← elem h x;
        '(_, h) ← PushFront l (Value r) h;
        if bool_decide (e = first) then Done (inr h) else
        e ← Prev h x;
        Done (inl (e, h))
    end) (list.last xs, h) = Done h' /\ Sim h' (foldl (fun a v => mPushFront l v a) a (reverse (omap (fun e => mvals a !! e) xs))).
Proof.
  induction xs as [|x xs IH] using rev_ind; intros [|fuel] h a done extra Hs Hl Hol Hfirst Hfuel;
    rewrite ?length_app in Hfuel; cbn [length] in Hfuel; try lia; cbn [list.last loop].
  { by exists h. }
  rewrite last_snoc. rewrite <- app_assoc, app_assoc in Hol. cbn [app] in Hol.
  destruct (sim_at h a ol (extra ++ xs) x done Hs Hol) as (v & Hv & Hx). rewrite (elem_done _ _ _ Hx). cbn [mbind outcome_bind Value].
  destruct Hl as [esl Hl]. destruct (sim_PushFront h a l v esl Hs Hl) as (h1 & -> & Hs1). cbn [mbind outcome_bind].
  rewrite omap_app, reverse_app. cbn [omap list_omap]. rewrite Hv. cbn [reverse rev_append app foldl].
  change (reverse [v]) with [v]. cbn [app foldl].
  pose proof (sim_linked _ _ _ _ Hs Hol) as (_ & _ & Hnd). apply list.NoDup_app in Hnd as (_ & Hdis & _).
  assert (Hnx : x ∉ xs) by (intros Hin; apply (Hdis x); set_solver).
  rewrite <- (madd_values cons l v a xs) by (intros y Hy; apply (sim_known h a ol _ y Hs Hol); set_solver).
  fold (mPushFront l v a). case_bool_decide as Hfx.
  - assert (xs = []) as ->; [|by exists h1]. destruct xs as [|y xs]; [done|]. cbn [app head] in Hfirst.
    rewrite <- Hfirst in Hfx. injection Hfx as ->. set_solver.
  - destruct xs as [|y xs _] using rev_ind; [by rewrite <- Hfirst in Hfx|].
    assert (exists extra', mlists (mPushFront l v a) !! ol = Some (extra' ++ (xs ++ [y]) ++ x :: done)) as [extra' Hol'].
    { destruct (decide (l = ol)); [exists (fresh (dom (mvals a)) :: extra)|exists extra]; (eapply madd_frame; [exact Hol|..]); try done;
        intros _; by rewrite <- ?app_assoc. }
    pose proof Hol' as Hol2. rewrite app_assoc in Hol2. destruct (sim_at h1 _ ol _ x done Hs1 Hol2) as (v' & _ & Hx1).
    unfold Prev. rewrite (elem_done _ _ _ Hx1). cbn [mbind outcome_bind prev].
    rewrite app_assoc, last_or_snoc, <- (last_snoc y xs).
    apply (IH fuel h1 (mPushFront l v a) (x :: done) extra'); [done|by apply madd_known; exists esl|done| |lia].
    rewrite <- Hfirst. by destruct xs.
Qed.

Lemma sim_length h a l es : Sim h a -> mlists a !! l = Some es -> (length es <= size (elems h))%nat.
Proof.
  intros Hs Hl. pose proof (sim_linked _ _ _ _ Hs Hl) as (_ & Hd & Hnd). rewrite <- size_dom, <- (size_list_to_set (C := gset loc) es) by done.
  apply subseteq_size. intros x. rewrite elem_of_list_to_set, elem_of_dom. intros Hx.
  destruct (dseg_elem _ _ _ _ _ _ Hd Hx) as (r & -> & _). by eexists.
Qed.

Lemma sim_ends h a l es : Sim h a -> mlists a !! l = Some es -> Front h l = Done (head es) /\ Back h l = Done (list.last es).
Proof.
  intros Hs Hl. pose proof (sim_linked _ _ _ _ Hs Hl) as (Hr & _). unfold Front, Back. rewrite !(list_done _ _ _ Hr). cbn.
  split; [by destruct es|]. unfold last_or. by destruct (list.last es).
Qed.

Lemma sim_PushBackList h a l ol : Sim h a -> is_Some (mlists a !! l) -> is_Some (mlists a !! ol) ->
  exists h', PushBackList l ol h = Done h' /\ Sim h' (mPushBackList l ol a).
Proof.
  intros Hs Hl [es Hol]. unfold PushBackList, mPushBackList, mvalues. destruct (sim_ends _ _ _ _ Hs Hol) as [-> ->].
  cbn [mbind outcome_bind]. rewrite Hol. apply (push_back_loop l ol _ es _ h a [] []); [done|done|by rewrite app_nil_r|done|].
  pose proof (sim_length _ _ _ _ Hs Hol). lia.
Qed.

Lemma sim_PushFrontList h a l ol : Sim h a -> is_Some (mlists a !! l) -> is_Some (mlists a !! ol) ->
  exists h', PushFrontList l ol h = Done h' /\ Sim h' (mPushFrontList l ol a).
Proof.
  intros Hs Hl [es Hol]. unfold PushFrontList, mPushFrontList, mvalues. destruct (sim_ends _ _ _ _ Hs Hol) as [-> ->].
  cbn [mbind outcome_bind]. rewrite Hol. apply (push_front_loop l ol _ es _ h a [] []); [done|done|by rewrite app_nil_r|done|].
  pose proof (sim_length _ _ _ _ Hs Hol). lia.
Qed.

(** ** Sequences of operations *)

Inductive op :=
  | OpNew | OpInit (l : lid)
  | OpPushFront (l : lid) (v : V) | OpPushBack (l : lid) (v : V)
  | OpInsertBefore (l : lid) (v : V) (mark : loc) | OpInsertAfter (l : lid) (v : V) (mark : loc)
  | OpRemove (l : lid) (e : loc) | OpMoveToFront (l : lid) (e : loc) | OpMoveToBack (l : lid) (e : loc)
  | OpPushBackList (l ol : lid) | OpPushFrontList (l ol : lid).

Definition exec (o : op) (h : store V) : outcome (store V) :=
  match o with
  | OpNew => Done (New h).2
  | OpInit l => Init l h
  | OpPushFront l v => snd <$> PushFront l v h
  | OpPushBack l v => snd <$> PushBack l v h
  | OpInsertBefore l v mark => snd <$> InsertBefore l v mark h
  | OpInsertAfter l v mark => snd <$> InsertAfter l v mark h
  | OpRemove l e => snd <$> Remove l e h
  | OpMoveToFront l e => MoveToFront l e h
  | OpMoveToBack l e => MoveToBack l e h
  | OpPushBackList l ol => PushBackList l ol h
  | OpPushFrontList l ol => PushFrontList l ol h
  end.

Definition mexec (o : op) (a : model V) : model V :=
  match o with
  | OpNew => mNew a
  | OpInit l => mInit l a
  | OpPushFront l v => mPushFront l v a
  | OpPushBack l v => mPushBack l v a
  | OpInsertBefore l v mark => mInsertBefore l v mark a
  | OpInsertAfter l v mark => mInsertAfter l v mark a
  | OpRemove l e => mRemove l e a
  | OpMoveToFront l e => mMoveToFront l e a
  | OpMoveToBack l e => mMoveToBack l e a
  | OpPushBackList l ol => mPushBackList l ol a
  | OpPushFrontList l ol => mPushFrontList l ol a
  end.

Definition has_list a l : bool := bool_decide (is_Some (mlists a !! l)).
Definition has_elem a e : bool := bool_decide (is_Some (mvals a !! e) /\ e ∉ mcleared a).
Definition not_elsewhereb a l e : bool :=
  bool_decide (map_Forall (fun l' es => e ∈ es -> l' = l) (mlists a)).

(** What the client must respect: lists and elements exist, elements that were in a
    list when it was cleared are not used any more, and an element is not removed
    through a list that does not own it while another does. *)
Definition valid_op (o : op) a : bool :=
  match o with
  | OpNew => true
  | OpInit l | OpPushFront l _ | OpPushBack l _ => has_list a l
  | OpInsertBefore l _ e | OpInsertAfter l _ e | OpMoveToFront l e | OpMoveToBack l e => has_list a l && has_elem a e
  | OpRemove l e => has_list a l && has_elem a e && not_elsewhereb a l e
  | OpPushBackList l ol | OpPushFrontList l ol => has_list a l && has_list a ol
  end.

Fixpoint exec_all (os : list op) (h : store V) : outcome (store V) :=
  match os with [] => Done h | o :: os => h ← exec o h; exec_all os h end.
Fixpoint mexec_all (os : list op) a : model V := match os with [] => a | o :: os => mexec_all os (mexec o a) end.
Fixpoint valid_ops (os : list op) a : bool := match os with [] => true | o :: os => valid_op o a && valid_ops os (mexec o a) end.

Definition empty_store : store V := MkStore ∅ ∅.
Definition empty_model : model V := MkModel ∅ ∅ ∅.

Lemma sim_empty : Sim empty_store empty_model.
Proof.
  split; cbn; [|unfold vals; apply fmap_empty]. constructor; cbn.
  - intros l. by rewrite !lookup_empty.
  - intros l es. by rewrite lookup_empty.
  - intros e r l. by rewrite lookup_empty.
Qed.

Lemma sim_exec o h a : Sim h a -> valid_op o a = true -> exists h', exec o h = Done h' /\ Sim h' (mexec o a).
Proof.
  intros Hs. unfold valid_op, has_list, has_elem, not_elsewhereb.
  destruct o; cbn [exec mexec]; rewrite ?andb_true_iff, ?bool_decide_eq_true; intros Hv.
  - destruct (sim_New h a Hs) as (h' & -> & Hs'). by exists h'.
  - by apply sim_Init.
  - destruct Hv as [es Hl]. destruct (sim_PushFront h a l v es Hs Hl) as (h' & -> & Hs'). by exists h'.
  - destruct Hv as [es Hl]. destruct (sim_PushBack h a l v es Hs Hl) as (h' & -> & Hs'). by exists h'.
  - destruct Hv. destruct (sim_InsertBefore h a l v mark) as (h' & r & -> & Hs' & _); [done..|]. by exists h'.
  - destruct Hv. destruct (sim_InsertAfter h a l v mark) as (h' & r & -> & Hs' & _); [done..|]. by exists h'.
  - destruct Hv as [[Hl [[v He] HD]] Hne]. destruct (sim_Remove h a l e v) as (h' & -> & Hs'); [done..|]. by exists h'.
  - destruct Hv. by apply sim_MoveToFront.
  - destruct Hv. by apply sim_MoveToBack.
  - destruct Hv. by apply sim_PushBackList.
  - destruct Hv. by apply sim_PushFrontList.
Qed.

Lemma sim_exec_all os : forall h a, Sim h a -> valid_ops os a = true -> exists h', exec_all os h = Done h' /\ Sim h' (mexec_all os a).
Proof.
  induction os as [|o os IH]; intros h a Hs; cbn; [by exists h|]. intros [Ho Hos]%andb_true_iff.
  destruct (sim_exec o h a Hs Ho) as (h1 & -> & Hs1). cbn [mbind outcome_bind]. by apply IH.
Qed.

(** Iterating over a list, from the front and from the back: the loop
    [for e := l.Front(); e != nil; e = e.Next()] of the package comment. *)
Fixpoint walk (step : store V -> loc -> outcome (option loc)) (fuel : nat) (h : store V) (e : option loc) : outcome (list loc) :=
  match fuel with
  | O => OutOfFuel
  | S fuel =>
      match e with
      | None => Done []
      | Some x => n ← step h x; xs ← walk step fuel h n; Done (x :: xs)
      end
  end.

Definition forward h l : outcome (list loc) := e ← Front h l; walk Next (S (size (elems h))) h e.
Definition backward h l : outcome (list loc) := e ← Back h l; walk Prev (S (size (elems h))) h e.

Lemma Next_done (h : store V) e r : elems h !! e = Some r -> Next h e = Done (next r).
Proof. intros He. unfold Next. by rewrite (elem_done _ _ _ He). Qed.

Lemma Prev_done (h : store V) e r : elems h !! e = Some r -> Prev h e = Done (prev r).
Proof. intros He. unfold Prev. by rewrite (elem_done _ _ _ He). Qed.

Lemma walk_forward (h : store V) l es : forall fuel p, dseg (elems h) l p es None -> (length es < fuel)%nat -> walk Next fuel h (head es) = Done es.
Proof.
  induction es as [|e es IH]; intros [|fuel] p Hd Hf; cbn [length] in Hf; try lia; [done|]. destruct Hd as [[v Hv] Hd]. cbn [head walk].
  rewrite (Next_done _ _ _ Hv). cbn [mbind outcome_bind next].
  change (match es with [] => None | x :: _ => Some x end) with (head es). rewrite (IH fuel (Some e) Hd) by lia. done.
Qed.

Lemma walk_backward h l es : forall fuel n, dseg (elems h) l None es n -> (length es < fuel)%nat ->
  walk Prev fuel h (list.last es) = Done (reverse es).
Proof.
  induction es as [|e es IH] using rev_ind; intros [|fuel] n Hd Hf; rewrite ?length_app in Hf; cbn [length] in Hf; try lia; [done|].
  apply dseg_app in Hd as [Hd [[v Hv] _]]. rewrite last_snoc, reverse_snoc. cbn [walk].
  rewrite (Prev_done _ _ _ Hv). cbn [mbind outcome_bind prev].
  assert (last_or None es = list.last es) as -> by (unfold last_or; by destruct (list.last es)).
  rewrite (IH fuel _ Hd) by lia. done.
Qed.

Lemma sim_walk h a l es : Sim h a -> mlists a !! l = Some es ->
  forward h l = Done es /\ backward h l = Done (reverse es) /\ Len h l = Done (int (zlen es)).
Proof.
  intros Hs Hl. destruct (sim_ends _ _ _ _ Hs Hl) as [Hf Hb]. pose proof (sim_linked _ _ _ _ Hs Hl) as (Hr & Hd & Hnd).
  pose proof (sim_length _ _ _ _ Hs Hl) as Hlen. unfold forward, backward, Len. rewrite Hf, Hb, (list_done _ _ _ Hr). cbn [mbind outcome_bind].
  split_and!; [eapply walk_forward; [done|lia]|eapply walk_backward; [done|lia]|done].
Qed.

(** C6. Refinement of the abstract lists: from an empty store, every sequence of
    operations on lists and elements that exist, in which no element is used any
    more that was in a list when Init cleared it, and no element is removed through
    a list other than its own, runs without a nil dereference, and afterwards every list, iterated from the front with
    Next and from the back with Prev, has exactly the elements the abstract
    operations on sequences give, with the length and the values they give. *)
Theorem lists_refine os : valid_ops os empty_model = true ->
  exists h, exec_all os empty_store = Done h /\ vals h = mvals (mexec_all os empty_model) /\
    (forall l, is_Some (lists h !! l) <-> is_Some (mlists (mexec_all os empty_model) !! l)) /\
    forall l es, mlists (mexec_all os empty_model) !! l = Some es ->
      forward h l = Done es /\ backward h l = Done (reverse es) /\ Len h l = Done (int (zlen es)).
Proof.
  intros Hv. destruct (sim_exec_all os _ _ sim_empty Hv) as (h & Hh & Hs). exists h. split; [done|].
  split; [apply Hs|]. split; [apply (rep_lists _ _ _ (proj1 Hs))|]. intros l es. by apply sim_walk.
Qed.

(** Remove through a list that does not own the element: the element stays
    linked in its own list but loses its owner, so that afterwards its own list
    can no longer remove it. *)
Theorem Remove_foreign h a l l' e es : Sim h a -> is_Some (mlists a !! l) -> mlists a !! l' = Some es -> e ∈ es -> l <> l' ->
  exists v h', Remove l e h = Done (v, h') /\ lists h' = lists h /\ forward h' l' = Done es /\ Remove l' e h' = Done (v, h').
Proof.
  intros Hs Hl Hl' (es1 & es2 & ->)%list_elem_of_split Hne. destruct (sim_at h a l' es1 e es2 Hs Hl') as (v & _ & He).
  pose proof (sim_walk h a l' _ Hs Hl') as (Hw & _). exists v.
  unfold Remove at 1, remove. rewrite (elem_done _ _ _ He). cbn [mbind outcome_bind elist].
  rewrite bool_decide_eq_false_2 by congruence. cbn [negb mbind outcome_bind]. unfold set_elist at 1. rewrite (elem_done _ _ _ He).
  cbn [mbind outcome_bind next prev Value]. set (h' := put_elem _ _ _).
  assert (He' : elems h' !! e = Some (MkElement (first_or es2 None) (last_or None es1) None v)) by apply lookup_insert_eq.
  exists h'. rewrite (elem_done _ _ _ He'). cbn [mbind outcome_bind Value]. split; [done|]. split; [done|]. split.
  - rewrite <- Hw. unfold forward. change (Front h' l') with (Front h l'). destruct (Front h l') as [x| |]; [|done|done]. cbn [mbind outcome_bind].
    assert (size (elems h') = size (elems h)) as ->.
    { unfold h'. cbn. rewrite map_size_insert_Some; [done|]. by exists (MkElement (first_or es2 None) (last_or None es1) (Some l') v). }
    generalize (S (size (elems h))) as fuel. intros fuel. revert x. induction fuel as [|fuel IH]; intros [x|]; [done..| |done]. cbn [walk].
    assert (Next h' x = Next h x) as ->; [|by destruct (Next h x); cbn; rewrite ?IH].
    unfold Next, elem. destruct (decide (x = e)) as [->|]; [by rewrite He', He|]. unfold h'. cbn. by rewrite lookup_insert_ne.
  - unfold Remove, remove. rewrite (elem_done _ _ _ He'). cbn [mbind outcome_bind elist]. rewrite bool_decide_eq_false_2 by done.
    cbn [negb mbind outcome_bind]. unfold set_elist. rewrite (elem_done _ _ _ He'). cbn [mbind outcome_bind next prev Value].
    erewrite elem_done by apply lookup_insert_eq. cbn [mbind outcome_bind Value]. do 2 f_equal. unfold put_elem.
    rewrite insert_id by exact He'. by destruct h'.
Qed.

(** Redirecting a neighbour that exists. *)
Definition relinked (h h' : store V) l (lr : List) (p : option loc) : Prop :=
  (exists lr', lists h' !! l = Some lr' /\ len lr' = len lr) /\
  (forall y, is_Some (elems h !! y) -> is_Some (elems h' !! y)) /\
  forall y r, elems h !! y = Some r -> p <> Some y -> elems h' !! y = Some r.

Lemma relinked_elem h l lr y r : lists h !! l = Some lr -> relinked h (put_elem y r h) l lr (Some y).
Proof.
  intros Hlr. split_and!; [by exists lr|intros z Hz; cbn; rewrite lookup_insert_is_Some; destruct (decide (y = z)); auto|].
  intros z rz Hz Hyz. cbn. rewrite lookup_insert_ne by congruence. done.
Qed.

Lemma relinked_list h l lr lr' p : len lr' = len lr -> relinked h (put_list l lr' h) l lr p.
Proof. intros Hlen. split_and!; [exists lr'; cbn; by rewrite lookup_insert_eq|done|done]. Qed.

Lemma link_next_done (h : store V) l p x lr : lists h !! l = Some lr -> (forall y, p = Some y -> is_Some (elems h !! y)) ->
  exists h', link_next l p x h = Done h' /\ relinked h h' l lr p.
Proof.
  intros Hlr Hp. destruct p as [y|]; cbn [link_next].
  - destruct (Hp y eq_refl) as [r Hr]. rewrite (set_next_done _ _ _ _ Hr). eexists. split; [done|]. by apply relinked_elem.
  - unfold set_front. rewrite (list_done _ _ _ Hlr). eexists. split; [done|]. by apply relinked_list.
Qed.

Lemma link_prev_done (h : store V) l p x lr : lists h !! l = Some lr -> (forall y, p = Some y -> is_Some (elems h !! y)) ->
  exists h', link_prev l p x h = Done h' /\ relinked h h' l lr p.
Proof.
  intros Hlr Hp. destruct p as [y|]; cbn [link_prev].
  - destruct (Hp y eq_refl) as [r Hr]. rewrite (set_prev_done _ _ _ _ Hr). eexists. split; [done|]. by apply relinked_elem.
  - unfold set_back. rewrite (list_done _ _ _ Hlr). eexists. split; [done|]. by apply relinked_list.
Qed.

(** The neighbours of an element exist and are other elements. *)
Lemma sim_neighbours h a l es1 e es2 : Sim h a -> mlists a !! l = Some (es1 ++ e :: es2) ->
  (forall y, last_or None es1 = Some y \/ first_or es2 None = Some y -> is_Some (elems h !! y) /\ y <> e).
Proof.
  intros Hs Hl y Hy. pose proof (sim_linked _ _ _ _ Hs Hl) as (_ & Hd & Hnd). apply list.NoDup_app in Hnd as (_ & Hdis & Hnd).
  apply list.NoDup_cons in Hnd as [Hne _].
  assert (Hin : y ∈ es1 \/ y ∈ es2).
  { destruct Hy as [Hy|Hy]; [left|right].
    - unfold last_or in Hy. destruct (list.last es1) eqn:E; [|done]. injection Hy as ->. by apply last_Some_elem_of.
    - destruct es2; [done|]. injection Hy as ->. apply list_elem_of_here. }
  split; [|intros ->; destruct Hin as [Hin|Hin]; [apply (Hdis e Hin), list_elem_of_here|done]].
  destruct (dseg_elem _ _ _ _ _ y Hd ltac:(set_solver)) as (r & -> & _). by eexists.
Qed.

(** Init clears a list but not the ownership of its elements: removing any of
    them afterwards passes the ownership test and makes the length of the
    cleared list -1. *)
Theorem Init_Remove_negative_length h a l es1 e es2 : Sim h a -> mlists a !! l = Some (es1 ++ e :: es2) ->
  exists h1 v h2, Init l h = Done h1 /\ Len h1 l = Done 0 /\ Remove l e h1 = Done (v, h2) /\ Len h2 l = Done (-1).
Proof.
  intros Hs Hl. destruct (sim_at h a l es1 e es2 Hs Hl) as (v & _ & He). pose proof (sim_linked _ _ _ _ Hs Hl) as (Hr & _).
  pose proof (sim_neighbours h a l es1 e es2 Hs Hl) as Hnb.
  unfold Init. rewrite (list_done _ _ _ Hr). cbn [mbind outcome_bind]. set (h1 := put_list _ _ _).
  assert (Hr1 : lists h1 !! l = Some (MkList None None 0)) by apply lookup_insert_eq.
  change (elems h) with (elems h1) in *. exists h1, v. unfold Len. rewrite (list_done _ _ _ Hr1). cbn [mbind outcome_bind len].
  unfold Remove, remove. rewrite (elem_done _ _ _ He). cbn [mbind outcome_bind elist next prev]. rewrite bool_decide_eq_true_2 by done. cbn [negb].
  destruct (link_next_done h1 l (last_or None es1) (first_or es2 None) _ Hr1) as (h2 & -> & (lr2 & Hr2 & Hlen2) & Hk2 & Hf2).
  { intros y Hy. by apply Hnb; left. }
  cbn [mbind outcome_bind]. apply Hf2 in He; [|intros Hy; by destruct (Hnb e (or_introl Hy))]. rewrite (elem_done _ _ _ He). cbn [mbind outcome_bind next prev].
  destruct (link_prev_done h2 l (first_or es2 None) (last_or None es1) _ Hr2) as (h3 & -> & (lr3 & Hr3 & Hlen3) & _ & Hf3).
  { intros y Hy. apply Hk2. by apply Hnb; right. }
  cbn [mbind outcome_bind]. apply Hf3 in He; [|intros Hy; by destruct (Hnb e (or_intror Hy))]. rewrite (set_prev_done _ _ _ _ He).
  cbn [mbind outcome_bind next elist Value].
  erewrite set_next_done by apply lookup_insert_eq. cbn [mbind outcome_bind prev elist Value].
  erewrite add_len_done by exact Hr3. cbn [mbind outcome_bind]. unfold set_elist.
  erewrite elem_done by apply lookup_insert_eq. cbn [mbind outcome_bind prev next Value].
  erewrite elem_done by apply lookup_insert_eq. cbn [mbind outcome_bind Value]. eexists. split_and!; [done|done|done|].
  erewrite list_done by apply lookup_insert_eq. cbn [mbind outcome_bind len]. by rewrite Hlen3, Hlen2.
Qed.
End Model.

Arguments op V : clear implicits.

(** Two lists; elements are inserted, moved, removed, a list is appended to itself,
    and cleared in the end. *)
Definition example_ops : list (op Z) :=
  [OpNew; OpNew; OpPushBack 1 10%Z; OpPushFront 1 20%Z; OpInsertAfter 1 30%Z 1; OpMoveToFront 1 3; OpPushBackList 1 1;
   OpRemove 1 2; OpPushFrontList 2 1; OpPushBack 2 40%Z; OpInit 1; OpPushBack 1 50%Z]%positive.

Lemma lists_refine_witness : valid_ops example_ops empty_model = true /\
  exists h, exec_all example_ops empty_store = Done h /\ forward h 1 = Done [13]%positive /\ Len h 2 = Done 6.
Proof.
  split; [by vm_compute|]. destruct (lists_refine example_ops) as (h & Hh & _ & _ & Hl); [by vm_compute|]. exists h.
  split; [exact Hh|]. split; [refine (proj1 (Hl 1%positive _ _)); by vm_compute|].
  refine (proj2 (proj2 (Hl 2%positive [11; 10; 9; 8; 7; 12]%positive _))); by vm_compute.
Defined.

(** A store with two lists, the first of two elements. *)
Definition two_lists : list (op Z) := [OpNew; OpNew; OpPushBack 1 10%Z; OpPushBack 1 20%Z]%positive.

Lemma Remove_foreign_witness : exists h v h', exec_all two_lists empty_store = Done h /\
  Remove 2 1 h = Done (v, h') /\ Remove 1 1 h' = Done (v, h').
Proof.
  destruct (sim_exec_all two_lists _ _ sim_empty) as (h & Hh & Hs); [by vm_compute|].
  destruct (Remove_foreign h _ 2 1 1 [1; 2]%positive Hs) as (v & h' & H1 & _ & _ & H2);
    [by eexists|by vm_compute|set_solver|done|]. exists h, v, h'. auto.
Defined.

Lemma Init_Remove_negative_length_witness : exists h h1 v h2, exec_all two_lists empty_store = Done h /\
  Init 1 h = Done h1 /\ Remove 1 1 h1 = Done (v, h2) /\ Len h2 1 = Done (-1).
Proof.
  destruct (sim_exec_all two_lists _ _ sim_empty) as (h & Hh & Hs); [by vm_compute|].
  destruct (Init_Remove_negative_length h _ 1 [] 1 [2%positive] Hs) as (h1 & v & h2 & H1 & _ & H2 & H3); [by vm_compute|].
  exists h, h1, v, h2. auto.
Defined.
