(* ===== verification/Threads.v ===== *)
(** Interleavings of goroutines.

    A configuration is the shared memory and the list of the goroutines'
    program counters.  The step function of a component runs one goroutine up
    to its next access to shared memory; configurations step by running any
    goroutine, so that every interleaving of the accesses is covered
    (sequentially consistent memory).  Invariants count the goroutines at
    certain program points: [cnt].

    The runtime's semaphores are given here by their documented behaviour
    (src/go/src/pkg/runtime/extern.go): Semacquire waits until the semaphore is
    positive and then decrements it in one step, Semrelease increments it.  The
    file Sema shows that the runtime's code refines this. *)

From stdpp Require Import relations.
From S2P Require Import Prelude.

(** * Atomic operations *)

(** AddInt32 and the semaphore counter wrap at 32 bits. *)
Definition AddInt32 (x d : Z) : Z := int (x + d).

Definition Semacquire (s : Z) : option Z := if 0 <? s then Some (s - 1) else None.
Definition Semrelease (s : Z) : Z := wrap 32 (s + 1).

Lemma AddInt32_small x d : - 2 ^ 31 <= x + d < 2 ^ 31 -> AddInt32 x d = x + d.
Proof. apply int_small. Qed.

Lemma Semacquire_Some s s' : Semacquire s = Some s' -> 0 < s /\ s' = s - 1.
Proof. unfold Semacquire. case_bool; [intros [= <-]; lia|done]. Qed.

Lemma Semacquire_pos s : 0 < s -> Semacquire s = Some (s - 1).
Proof. intros Hs. unfold Semacquire. case_bool; [done|lia]. Qed.

Lemma Semrelease_small s : 0 <= s < 2 ^ 32 - 1 -> Semrelease s = s + 1.
Proof. intros Hs. apply wrap_small. lia. Qed.

(** * Counting goroutines *)

Section Count.
Context {P : Type}.
Implicit Types (f : P -> bool) (ts : list P).

Fixpoint cnt f ts : Z := match ts with [] => 0 | p :: ts => Z.b2z (f p) + cnt f ts end.

Lemma cnt_nonneg f ts : 0 <= cnt f ts.
Proof. induction ts as [|p ts IH]; cbn; [lia|]. destruct (f p); cbn; lia. Qed.

Lemma cnt_length f ts : cnt f ts <= zlen ts.
Proof. unfold zlen. induction ts as [|p ts IH]; cbn [cnt length]; [lia|]. destruct (f p); cbn [Z.b2z]; lia. Qed.

Lemma cnt_insert f ts i p p' : ts !! i = Some p -> cnt f (<[i:=p']> ts) = cnt f ts - Z.b2z (f p) + Z.b2z (f p').
Proof.
  revert i. induction ts as [|q ts IH]; intros [|i] Hi; try done.
  - injection Hi as ->. cbn. lia.
  - change (<[S i:=p']> (q :: ts)) with (q :: <[i:=p']> ts). cbn [cnt]. rewrite (IH i Hi). lia.
Qed.

Lemma cnt_elem f ts i p : ts !! i = Some p -> f p = true -> 1 <= cnt f ts.
Proof.
  revert i. induction ts as [|q ts IH]; intros [|i] Hi Hp; try done; cbn [cnt].
  - injection Hi as ->. rewrite Hp. cbn. pose proof (cnt_nonneg f ts). lia.
  - specialize (IH i Hi Hp). destruct (f q); cbn; lia.
Qed.

Lemma cnt_exists f ts : 0 < cnt f ts -> exists i p, ts !! i = Some p /\ f p = true.
Proof.
  induction ts as [|q ts IH]; cbn; [lia|]. destruct (f q) eqn:Hq; cbn; intros H.
  - by exists 0%nat, q.
  - destruct IH as (i & p & Hi & Hp); [lia|]. by exists (S i), p.
Qed.

Lemma cnt_replicate f n p : f p = false -> cnt f (replicate n p) = 0.
Proof. intros Hp. induction n as [|n IH]; cbn; [done|]. by rewrite Hp, IH. Qed.

(** At most one goroutine is at such a point. *)
Lemma cnt_unique f ts i j p q : cnt f ts <= 1 -> ts !! i = Some p -> ts !! j = Some q -> f p = true -> f q = true -> i = j.
Proof.
  revert i j. induction ts as [|r ts IH]; intros [|i] [|j] H Hi Hj Hp Hq; try done; cbn in *.
  - injection Hi as ->. rewrite Hp in H. pose proof (cnt_elem f ts j q Hj Hq). cbn in H. lia.
  - injection Hj as ->. rewrite Hq in H. pose proof (cnt_elem f ts i p Hi Hp). cbn in H. lia.
  - f_equal. apply (IH i j); auto. destruct (f r); cbn in H; lia.
Qed.

Lemma cnt_mono f g ts : (forall p, f p = true -> g p = true) -> cnt f ts <= cnt g ts.
Proof.
  intros Hfg. induction ts as [|p ts IH]; cbn; [lia|]. specialize (Hfg p). destruct (f p), (g p); cbn; lia.
Qed.

Lemma cnt_add f g ts : cnt f ts + cnt g ts = cnt (fun p => f p || g p) ts + cnt (fun p => f p && g p) ts.
Proof. induction ts as [|p ts IH]; cbn; [lia|]. destruct (f p), (g p); cbn; lia. Qed.

(** Sums over the goroutines. *)
Implicit Types (g : P -> Z).

Fixpoint tot g ts : Z := match ts with [] => 0 | p :: ts => g p + tot g ts end.

Lemma tot_insert g ts i p p' : ts !! i = Some p -> tot g (<[i:=p']> ts) = tot g ts - g p + g p'.
Proof.
  revert i. induction ts as [|q ts IH]; intros [|i] Hi; try done.
  - injection Hi as ->. cbn. lia.
  - change (<[S i:=p']> (q :: ts)) with (q :: <[i:=p']> ts). cbn [tot]. rewrite (IH i Hi). lia.
Qed.

(** A sum to which no goroutine contributes. *)
Lemma tot_none g f ts : (forall p, f p = false -> g p = 0) -> cnt f ts = 0 -> tot g ts = 0.
Proof.
  intros Hg. induction ts as [|p ts IH]; cbn [tot cnt]; [done|]. intros Hc. pose proof (cnt_nonneg f ts).
  destruct (f p) eqn:E; cbn [Z.b2z] in Hc; [lia|]. rewrite Hg, IH by (done || lia). lia.
Qed.

Lemma tot_replicate g n p : g p = 0 -> tot g (replicate n p) = 0.
Proof. intros Hp. induction n as [|n IH]; cbn; [done|]. by rewrite Hp, IH. Qed.

Lemma tot_nonneg g ts : (forall i p, ts !! i = Some p -> 0 <= g p) -> 0 <= tot g ts.
Proof.
  induction ts as [|p ts IH]; intros Hg; cbn [tot]; [lia|]. pose proof (Hg 0%nat p eq_refl). specialize (IH (fun i => Hg (S i))). lia.
Qed.

Lemma tot_elem g ts i p : (forall i p, ts !! i = Some p -> 0 <= g p) -> ts !! i = Some p -> g p <= tot g ts.
Proof.
  revert i. induction ts as [|q ts IH]; intros [|i] Hg Hi; try done; cbn [tot].
  - injection Hi as ->. pose proof (tot_nonneg g ts (fun i => Hg (S i))). lia.
  - pose proof (Hg 0%nat q eq_refl). specialize (IH i (fun i => Hg (S i)) Hi). lia.
Qed.

Lemma tot_le g h ts : (forall p, g p <= h p) -> tot g ts <= tot h ts.
Proof. intros Hg. induction ts as [|p ts IH]; cbn [tot]; [lia|]. specialize (Hg p). lia. Qed.

End Count.

Lemma cnt_map {P Q} (f : Q -> bool) (h : P -> Q) ts : cnt f (h <$> ts) = cnt (fun p => f (h p)) ts.
Proof. induction ts as [|p ts IH]; cbn; [done|]. by rewrite IH. Qed.

Lemma cnt_ext {P} (f g : P -> bool) ts : (forall p, f p = g p) -> cnt f ts = cnt g ts.
Proof. intros Hfg. induction ts as [|p ts IH]; cbn; [done|]. by rewrite Hfg, IH. Qed.

(** Invariants hold at every reachable configuration. *)
Lemma rtc_invariant {A} (I : A -> Prop) {R : A -> A -> Prop} : (forall x y, I x -> R x y -> I y) -> forall {x y}, I x -> rtc R x y -> I y.
Proof. intros Hstep x y Hx Hr. induction Hr as [|x y z Hxy _ IH]; [done|]. apply IH. by eapply Hstep. Qed.

Lemma lookup_self {A} (ts : list A) i p p' : ts !! i = Some p -> <[i:=p']> ts !! i = Some p'.
Proof. intros Hi. apply list_lookup_insert_eq. by eapply lookup_lt_Some. Qed.
