(* ===== verification/Sema.v ===== *)
(** The runtime's semaphores (src/go/src/pkg/runtime/sema.goc).

    semacquire and semrelease as steps of interleaved goroutines, one step per
    access to shared memory; what a root's lock protects (the queue of waiters)
    is accessed in the step of the goroutine that holds the lock.  A Sema lives
    on the stack of the goroutine that waits, so the goroutine's number serves
    as the pointer to it.  The scheduler's gosched and ready are given by their
    comments in proc.c: a goroutine whose status is Gwaiting stops until another
    one calls ready for it. *)

From stdpp Require Import relations gmap functions.
From S2P Require Import Prelude Threads.

(** * Code: the queue of waiters *)

Record Sema := MkSema { s_addr : Z; s_prev : option nat; s_next : option nat }.

Record SemaRoot := MkSemaRoot { locked : bool; head : option nat; tail : option nat; nwait : Z }.

Definition SEMTABLESZ : Z := 251.
Definition semroot (addr : Z) : Z := Z.shiftr addr 3 mod SEMTABLESZ.

Definition set_prev (p : option nat) (s : Sema) : Sema := MkSema (s_addr s) p (s_next s).
Definition set_next (n : option nat) (s : Sema) : Sema := MkSema (s_addr s) (s_prev s) n.
Definition set_locked (b : bool) (r : SemaRoot) : SemaRoot := MkSemaRoot b (head r) (tail r) (nwait r).
Definition set_head (h : option nat) (r : SemaRoot) : SemaRoot := MkSemaRoot (locked r) h (tail r) (nwait r).
Definition set_tail (t : option nat) (r : SemaRoot) : SemaRoot := MkSemaRoot (locked r) (head r) t (nwait r).
Definition set_nwait (n : Z) (r : SemaRoot) : SemaRoot := MkSemaRoot (locked r) (head r) (tail r) n.

(** A write through the pointer [g]. *)
Definition modify (g : nat) (f : Sema -> Sema) (st : gmap nat Sema) : outcome (gmap nat Sema) :=
  match st !! g with Some s => Done (<[g:=f s]> st) | None => Panic end.

Definition semqueue (root : SemaRoot) (st : gmap nat Sema) (addr : Z) (g : nat) : outcome (SemaRoot * gmap nat Sema) :=
  let st := <[g:=MkSema addr (tail root) None]> st in
  match tail root with
  | Some t => st ← modify t (set_next (Some g)) st; Done (set_tail (Some g) root, st)
  | None => Done (set_tail (Some g) (set_head (Some g) root), st)
  end.

Definition semdequeue (root : SemaRoot) (st : gmap nat Sema) (g : nat) : outcome (SemaRoot * gmap nat Sema) :=
  match st !! g with
  | None => Panic
  | Some s =>
      '(root, st) ← match s_next s with
                    | Some n => st ← modify n (set_prev (s_prev s)) st; Done (root, st)
                    | None => Done (set_tail (s_prev s) root, st)
                    end;
      '(root, st) ← match s_prev s with
                    | Some p => st ← modify p (set_next (s_next s)) st; Done (root, st)
                    | None => Done (set_head (s_next s) root, st)
                    end;
      st ← modify g (fun s => set_next None (set_prev None s)) st;
      Done (root, st)
  end.

(** [for(s = root->head; s; s = s->next) if(s->addr == addr) break;] *)
Fixpoint search (fuel : nat) (st : gmap nat Sema) (addr : Z) (p : option nat) : outcome (option nat) :=
  match p with
  | None => Done None
  | Some g =>
      match fuel with
      | O => OutOfFuel
      | S fuel =>
          match st !! g with
          | None => Panic
          | Some s => if s_addr s =? addr then Done (Some g) else search fuel st addr (s_next s)
          end
      end
  end.

(** * Code: semacquire and semrelease *)

(** The shared memory: the semaphores, the table of roots, the waiters. *)
Record shared := MkShared { mem : Z -> Z; roots : Z -> SemaRoot; store : gmap nat Sema }.

(** The three calls of cansemacquire. *)
Inductive site := Easy | Locked | Woken.

Inductive spc :=
  | SIdle
  | ATry (k : site) (addr : Z)          (* cansemacquire: the load *)
  | ACas (k : site) (addr v : Z)        (* cansemacquire: the compare and swap *)
  | ALock (addr : Z)                    (* lock(root) *)
  | ANwait (addr : Z)                   (* xadd(&root->nwait, 1) *)
  | ADec (addr : Z)                     (* xadd(&root->nwait, -1) *)
  | AUnlock (addr : Z)                  (* unlock(root), then return *)
  | AQueue (addr : Z)                   (* semqueue(root, addr, &s) *)
  | AQueued (addr : Z)                  (* g->status = Gwaiting; unlock(root) *)
  | ASleep (addr : Z)                   (* gosched() *)
  | RAdd (addr : Z)                     (* xadd(addr, 1) *)
  | RLoad (addr : Z)                    (* the first load of nwait *)
  | RLock (addr : Z)                    (* lock(root) *)
  | RCheck (addr : Z)                   (* the second load of nwait *)
  | RSearch (addr : Z)                  (* the search, xadd(&root->nwait, -1) and semdequeue *)
  | RUnlock (addr : Z) (s : option nat) (* unlock(root) *)
  | RReady (addr : Z) (s : nat).        (* ready(s->g) *)

Definition set_mem (addr v : Z) (s : shared) : shared := MkShared (<[addr:=v]> (mem s)) (roots s) (store s).
Definition set_root (k : Z) (r : SemaRoot) (s : shared) : shared := MkShared (mem s) (<[k:=r]> (roots s)) (store s).
Definition set_queue (k : Z) (r : SemaRoot) (st : gmap nat Sema) (s : shared) : shared := MkShared (mem s) (<[k:=r]> (roots s)) st.

Definition xadd (x d : Z) : Z := wrap 32 (x + d).

(** Where semacquire goes on after cansemacquire. *)
Definition after_cansemacquire (k : site) (ok : bool) (addr : Z) : spc :=
  match k, ok with
  | Locked, true => ADec addr
  | Locked, false => AQueue addr
  | _, true => SIdle
  | _, false => ALock addr
  end.

Definition semacquire_step (g : nat) (p : spc) (s : shared) : option (spc * shared) :=
  match p with
  | ATry k addr => Some (if 0 <? mem s addr then ACas k addr (mem s addr) else after_cansemacquire k false addr, s)
  | ACas k addr v =>
      if mem s addr =? v then Some (after_cansemacquire k true addr, set_mem addr (v - 1) s) else Some (ATry k addr, s)
  | ALock addr =>
      let root := roots s (semroot addr) in
      if locked root then None else Some (ANwait addr, set_root (semroot addr) (set_locked true root) s)
  | ANwait addr =>
      let root := roots s (semroot addr) in
      Some (ATry Locked addr, set_root (semroot addr) (set_nwait (xadd (nwait root) 1) root) s)
  | ADec addr =>
      let root := roots s (semroot addr) in
      Some (AUnlock addr, set_root (semroot addr) (set_nwait (xadd (nwait root) (-1)) root) s)
  | AUnlock addr => Some (SIdle, set_root (semroot addr) (set_locked false (roots s (semroot addr))) s)
  | AQueue addr =>
      match semqueue (roots s (semroot addr)) (store s) addr g with
      | Done (root, st) => Some (AQueued addr, set_queue (semroot addr) root st s)
      | _ => None
      end
  | AQueued addr => Some (ASleep addr, set_root (semroot addr) (set_locked false (roots s (semroot addr))) s)
  | _ => None
  end.

Definition semrelease_step (p : spc) (s : shared) : option (spc * shared) :=
  match p with
  | RAdd addr => Some (RLoad addr, set_mem addr (xadd (mem s addr) 1) s)
  | RLoad addr => Some (if nwait (roots s (semroot addr)) =? 0 then SIdle else RLock addr, s)
  | RLock addr =>
      let root := roots s (semroot addr) in
      if locked root then None else Some (RCheck addr, set_root (semroot addr) (set_locked true root) s)
  | RCheck addr => Some (if nwait (roots s (semroot addr)) =? 0 then RUnlock addr None else RSearch addr, s)
  | RSearch addr =>
      let root := roots s (semroot addr) in
      match search (S (size (store s))) (store s) addr (head root) with
      | Done (Some g) =>
          match semdequeue (set_nwait (xadd (nwait root) (-1)) root) (store s) g with
          | Done (root, st) => Some (RUnlock addr (Some g), set_queue (semroot addr) root st s)
          | _ => None
          end
      | Done None => Some (RUnlock addr None, s)
      | _ => None
      end
  | RUnlock addr r =>
      Some (match r with Some g => RReady addr g | None => SIdle end,
        set_root (semroot addr) (set_locked false (roots s (semroot addr))) s)
  | _ => None
  end.

(** runtime·ready: the goroutine goes on behind gosched, with its retry. *)
Definition ready (g : nat) (ts : list spc) : option (list spc) :=
  match ts !! g with Some (ASleep addr) => Some (<[g:=ATry Woken addr]> ts) | _ => None end.

Definition sconfig : Type := shared * list spc.

Inductive sinternal : sconfig -> sconfig -> Prop :=
  | s_acquire s ts g p p' s' : ts !! g = Some p -> semacquire_step g p s = Some (p', s') -> sinternal (s, ts) (s', <[g:=p']> ts)
  | s_release s ts g p p' s' : ts !! g = Some p -> semrelease_step p s = Some (p', s') -> sinternal (s, ts) (s', <[g:=p']> ts)
  | s_ready s ts g addr w ts' : ts !! g = Some (RReady addr w) -> ready w ts = Some ts' -> sinternal (s, ts) (s, <[g:=SIdle]> ts').

Inductive sstep : sconfig -> sconfig -> Prop :=
  | s_internal c c' : sinternal c c' -> sstep c c'
  | s_Semacquire s ts g addr : ts !! g = Some SIdle -> sstep (s, ts) (s, <[g:=ATry Easy addr]> ts)
  | s_Semrelease s ts g addr : ts !! g = Some SIdle -> sstep (s, ts) (s, <[g:=RAdd addr]> ts).

(** The semaphores are zero, the table is zeroed memory. *)
Definition sinit (n : nat) : sconfig :=
  (MkShared (fun _ => 0) (fun _ => MkSemaRoot false None None 0) ∅, replicate n SIdle).

(** * The queue is a list *)

Definition hd_or (n : option nat) (l : list nat) : option nat := match l with [] => n | g :: _ => Some g end.

(** The Semas of [l] are linked, from the predecessor [p] to the successor [n]. *)
Fixpoint seg (st : gmap nat Sema) (p : option nat) (l : list nat) (n : option nat) : Prop :=
  match l with
  | [] => True
  | g :: l => (exists a, st !! g = Some (MkSema a p (hd_or n l))) /\ seg st (Some g) l n
  end.

Fixpoint last_or (p : option nat) (l : list nat) : option nat := match l with [] => p | g :: l => last_or (Some g) l end.

Lemma seg_last_snoc l g : forall p, last_or p (l ++ [g]) = Some g.
Proof. induction l as [|h l IH]; intros p; cbn; [done|apply IH]. Qed.

Lemma seg_last_app l1 l2 : forall p, last_or p (l1 ++ l2) = last_or (last_or p l1) l2.
Proof. induction l1 as [|g l1 IH]; intros p; cbn; [done|apply IH]. Qed.

Lemma seg_app st l1 l2 : forall p n, seg st p (l1 ++ l2) n <-> seg st p l1 (hd_or n l2) /\ seg st (last_or p l1) l2 n.
Proof.
  induction l1 as [|g l1 IH]; intros p n; cbn [app seg]; [naive_solver|].
  rewrite IH. cbn [last_or]. replace (hd_or n (l1 ++ l2)) with (hd_or (hd_or n l2) l1) by by destruct l1. naive_solver.
Qed.

Lemma seg_frame st st' l : forall p n, (forall g, g ∈ l -> st' !! g = st !! g) -> seg st p l n -> seg st' p l n.
Proof.
  induction l as [|g l IH]; intros p n Hf; cbn [seg]; [done|]. intros [[a Hg] Hs]. split.
  - exists a. rewrite Hf by set_solver. done.
  - apply IH; [set_solver|done].
Qed.

Record qrepr (root : SemaRoot) (st : gmap nat Sema) (l : list nat) : Prop := {
  q_head : head root = hd_or None l;
  q_tail : tail root = last_or None l;
  q_seg : seg st None l None;
  q_nodup : NoDup l;
}.

(** The addresses of the waiters are those of [st]. *)
Definition same_addrs (st st' : gmap nat Sema) : Prop := forall g, s_addr <$> st' !! g = s_addr <$> st !! g.

Lemma modify_done g f st s : st !! g = Some s -> modify g f st = Done (<[g:=f s]> st).
Proof. unfold modify. by intros ->. Qed.

Lemma semqueue_spec root st l a g : qrepr root st l -> g ∉ l ->
  exists root' st', semqueue root st a g = Done (root', st') /\ qrepr root' st' (l ++ [g]) /\
    locked root' = locked root /\ nwait root' = nwait root /\ s_addr <$> st' !! g = Some a /\
    (forall h, h <> g -> s_addr <$> st' !! h = s_addr <$> st !! h) /\ (forall h, h <> g -> h ∉ l -> st' !! h = st !! h).
Proof.
  intros [Hh Ht Hs Hn] Hg. unfold semqueue. assert (Hn' : NoDup (l ++ [g])).
  { apply list.NoDup_app. split_and!; [done|set_solver|apply list.NoDup_singleton]. }
  destruct (decide (l = [])) as [->|Hl].
  - rewrite Ht. cbn. do 2 eexists. split; [done|]. cbn in *.
    split_and!; try done; intros; simplify_map_eq; try done. constructor; cbn; try done.
    split; [|done]. exists a. by simplify_map_eq.
  - destruct (exists_last Hl) as (l0 & t & ->). rewrite Ht.
    rewrite seg_last_snoc.
    apply seg_app in Hs as [Hs0 [[b Ht'] _]].
    assert (t <> g) by set_solver. assert (t ∉ l0) by (apply list.NoDup_app in Hn; set_solver).
    erewrite modify_done by (by simplify_map_eq). cbn [mbind outcome_bind]. do 2 eexists. split; [done|].
    cbn in *. split_and!; try done.
    + constructor; cbn; [by destruct l0|by rewrite seg_last_snoc| |done].
      apply seg_app. split; [apply seg_app; split|].
      * eapply seg_frame; [|done]. intros h Hh'. rewrite !lookup_insert_ne; [done|set_solver|set_solver].
      * cbn. split; [|done]. exists b. by simplify_map_eq.
      * rewrite seg_last_snoc. cbn. split; [|done]. exists a. by simplify_map_eq.
    + by simplify_map_eq.
    + intros h Hh'. destruct (decide (h = t)) as [->|]; by simplify_map_eq.
    + intros h Hh' Hl'. rewrite !lookup_insert_ne; [done|set_solver|set_solver].
Qed.

(** The successors of a removed element get its predecessor [p'], *)
Lemma relink_prev root st p p' l : seg st p l None -> NoDup l -> tail root = last_or p l ->
  exists root' st', match hd_or None l with
                    | Some n => st ← modify n (set_prev p') st; Done (root, st)
                    | None => Done (set_tail p' root, st)
                    end = Done (root', st') /\
    seg st' p' l None /\ tail root' = last_or p' l /\ head root' = head root /\ locked root' = locked root /\ nwait root' = nwait root /\
    same_addrs st st' /\ (forall h, h ∉ l -> st' !! h = st !! h).
Proof.
  intros Hs Hn Ht. destruct l as [|x l]; cbn [hd_or].
  - by do 2 eexists.
  - destruct Hs as [[a Hx] Hs]. apply list.NoDup_cons in Hn as [Hx' Hn]. erewrite modify_done by done. cbn [mbind outcome_bind].
    do 2 eexists. split; [done|]. cbn. split_and!; try done.
    + exists a. by simplify_map_eq.
    + eapply seg_frame; [|done]. intros h Hh. apply lookup_insert_ne. set_solver.
    + intros h. destruct (decide (h = x)) as [->|]; by simplify_map_eq.
    + intros h Hh. apply lookup_insert_ne. set_solver.
Qed.

(** and its predecessors its successor [n']. *)
Lemma relink_next root st n n' l : seg st None l n -> NoDup l -> head root = hd_or n l ->
  exists root' st', match last_or None l with
                    | Some p => st ← modify p (set_next n') st; Done (root, st)
                    | None => Done (set_head n' root, st)
                    end = Done (root', st') /\
    seg st' None l n' /\ head root' = hd_or n' l /\ tail root' = tail root /\ locked root' = locked root /\ nwait root' = nwait root /\
    same_addrs st st' /\ (forall h, h ∉ l -> st' !! h = st !! h).
Proof.
  intros Hs Hn Hh. destruct (decide (l = [])) as [->|Hl]; cbn [last_or].
  - by do 2 eexists.
  - destruct (exists_last Hl) as (l0 & x & ->). rewrite seg_last_snoc. apply seg_app in Hs as [Hs [[a Hx] _]].
    assert (x ∉ l0) by (apply list.NoDup_app in Hn; set_solver). erewrite modify_done by done. cbn [mbind outcome_bind].
    do 2 eexists. split; [done|]. cbn. split_and!; try done.
    + apply seg_app. split.
      * eapply seg_frame; [|done]. intros h Hh'. apply lookup_insert_ne. set_solver.
      * split; [|done]. exists a. by simplify_map_eq.
    + rewrite Hh. by destruct l0.
    + intros h. destruct (decide (h = x)) as [->|]; by simplify_map_eq.
    + intros h Hh'. apply lookup_insert_ne. set_solver.
Qed.

Lemma same_addrs_trans st1 st2 st3 : same_addrs st1 st2 -> same_addrs st2 st3 -> same_addrs st1 st3.
Proof. intros H1 H2 g. by rewrite H2, H1. Qed.

Lemma semdequeue_spec root st l1 g l2 : qrepr root st (l1 ++ g :: l2) ->
  exists root' st', semdequeue root st g = Done (root', st') /\ qrepr root' st' (l1 ++ l2) /\
    locked root' = locked root /\ nwait root' = nwait root /\ same_addrs st st' /\
    (forall h, h ∉ l1 ++ g :: l2 -> st' !! h = st !! h).
Proof.
  intros [Hh Ht Hs Hn]. apply seg_app in Hs as [Hs1 [[a Hg] Hs2]]. apply list.NoDup_app in Hn as (Hn1 & Hd & Hn2).
  apply list.NoDup_cons in Hn2 as [Hg2 Hn2]. assert (Hg1 : g ∉ l1) by set_solver.
  unfold semdequeue. rewrite Hg. cbn [s_next s_prev].
  destruct (relink_prev root st (Some g) (last_or None l1) l2) as (root1 & st1 & -> & Hs2' & Ht1 & Hh1 & Hlk1 & Hnw1 & Ha1 & Hf1);
    [done|done|by rewrite Ht, seg_last_app|]. cbn [mbind outcome_bind].
  destruct (relink_next root1 st1 (Some g) (hd_or None l2) l1) as (root2 & st2 & -> & Hs1' & Hh2 & Ht2 & Hlk2 & Hnw2 & Ha2 & Hf2);
    [by eapply seg_frame; [|done]; intros h Hh'; apply Hf1; set_solver|done|rewrite Hh1, Hh; by destruct l1|]. cbn [mbind outcome_bind].
  erewrite modify_done; [|rewrite Hf2, Hf1 by done; done]. cbn [mbind outcome_bind]. do 2 eexists. split; [done|].
  split; [|split; [congruence|split; [congruence|split]]].
  - constructor.
    + rewrite Hh2. by destruct l1.
    + by rewrite Ht2, Ht1, seg_last_app.
    + apply seg_app. split; (eapply seg_frame; [|done]); intros h Hh'.
      * apply lookup_insert_ne. set_solver.
      * rewrite lookup_insert_ne by set_solver. apply Hf2. set_solver.
    + apply list.NoDup_app. split_and!; [done|set_solver|done].
  - eapply same_addrs_trans; [done|]. eapply same_addrs_trans; [done|]. intros h.
    destruct (decide (h = g)) as [->|]; simplify_map_eq; [|done]. rewrite Hf2, Hf1 by done. by rewrite Hg.
  - intros h Hh'. rewrite lookup_insert_ne by set_solver. rewrite Hf2, Hf1 by set_solver. done.
Qed.

Lemma search_spec st a l : forall p fuel, seg st p l None -> (length l <= fuel)%nat ->
  (exists l1 g l2, l = l1 ++ g :: l2 /\ search fuel st a (hd_or None l) = Done (Some g) /\ s_addr <$> st !! g = Some a) \/
  search fuel st a (hd_or None l) = Done None /\ (forall g, g ∈ l -> s_addr <$> st !! g <> Some a).
Proof.
  induction l as [|g l IH]; intros p fuel Hs Hf.
  - right. destruct fuel; (split; [done|set_solver]).
  - destruct fuel as [|fuel]; [cbn in Hf; lia|]. destruct Hs as [[b Hg] Hs]. cbn [hd_or search]. rewrite Hg. cbn [s_addr s_next]. case_bool.
    + left. exists [], g, l. split_and!; [done|done|rewrite Hg; cbn; congruence].
    + destruct (IH (Some g) fuel Hs) as [(l1 & h & l2 & -> & Es & Ha)|[Es Ha]]; [cbn in Hf; lia| |].
      * left. by exists (g :: l1), h, l2.
      * right. split; [done|]. intros h [->|Hh]%elem_of_cons; [rewrite Hg; cbn; congruence|by apply Ha].
Qed.

(** * Invariant *)

(** Where a goroutine holds the lock of the root [k], *)
Definition holds (k : Z) (p : spc) : bool :=
  match p with
  | ANwait a | ATry Locked a | ACas Locked a _ | ADec a | AUnlock a | AQueue a | AQueued a | RCheck a | RSearch a | RUnlock a _ => semroot a =? k
  | _ => false
  end.

(** has added itself to nwait without being in the queue, *)
Definition between (k : Z) (p : spc) : bool :=
  match p with ATry Locked a | ACas Locked a _ | ADec a | AQueue a => semroot a =? k | _ => false end.

(** has found the semaphore [a] zero and will queue, *)
Definition enqueuing (a : Z) (p : spc) : bool := match p with AQueue b => b =? a | _ => false end.

(** will wake a waiter of [a], or is a waiter that will try again, *)
Definition waker (a : Z) (p : spc) : bool :=
  match p with
  | RLoad b | RLock b | RCheck b | RSearch b | RUnlock b (Some _) | RReady b _ | ATry Woken b | ACas Woken b _ => b =? a
  | _ => false
  end.

(** or has taken a waiter out of the queue to make it ready. *)
Definition target (p : spc) : option (Z * nat) :=
  match p with RUnlock a (Some g) | RReady a g => Some (a, g) | _ => None end.

Definition neutral (p : spc) : bool :=
  match p with AQueued _ | ASleep _ => false | _ => match target p with None => true | Some _ => false end end.

(** The queues and the program points of their members. *)
Record qinv (st : gmap nat Sema) (ts : list spc) (q : Z -> list nat) : Prop := {
  qi_member k g : g ∈ q k -> exists a, semroot a = k /\ s_addr <$> st !! g = Some a /\ (ts !! g = Some (AQueued a) \/ ts !! g = Some (ASleep a));
  qi_AQueued g a : ts !! g = Some (AQueued a) -> g ∈ q (semroot a);
  qi_sleep g a : ts !! g = Some (ASleep a) -> g ∈ q (semroot a) \/ exists j p, ts !! j = Some p /\ target p = Some (a, g);
  qi_target j p a g : ts !! j = Some p -> target p = Some (a, g) -> ts !! g = Some (ASleep a) /\ g ∉ q (semroot a);
  qi_unique i j p p' a a' g : ts !! i = Some p -> ts !! j = Some p' -> target p = Some (a, g) -> target p' = Some (a', g) -> i = j;
}.

(** Someone waits for [a], or is about to queue. *)
Definition waiting (st : gmap nat Sema) (ts : list spc) (q : Z -> list nat) (a : Z) : Prop :=
  (exists g, g ∈ q (semroot a) /\ s_addr <$> st !! g = Some a) \/ 0 < cnt (enqueuing a) ts.

Record sinv (s : shared) (ts : list spc) (q : Z -> list nat) : Prop := {
  si_repr k : qrepr (roots s k) (store s) (q k);
  si_q : qinv (store s) ts q;
  si_lock k : cnt (holds k) ts = Z.b2z (locked (roots s k));
  si_nwait k : nwait (roots s k) = wrap 32 (zlen (q k) + cnt (between k) ts);
  si_cas j k a v : ts !! j = Some (ACas k a v) -> 0 < v;
  si_mem a : 0 <= mem s a;
  si_wake a : waiting (store s) ts q a -> mem s a <= cnt (waker a) ts;
}.

Lemma lookup_moved (ts : list spc) i p p' j r : ts !! i = Some p -> <[i:=p']> ts !! j = Some r -> j = i /\ r = p' \/ j <> i /\ ts !! j = Some r.
Proof.
  intros Hi Hj. destruct (decide (j = i)) as [->|Hne].
  - rewrite (lookup_self _ _ _ _ Hi) in Hj. left. by simplify_eq.
  - right. by rewrite list_lookup_insert_ne in Hj.
Qed.

Lemma lookup_kept (ts : list spc) i p p' j r : ts !! i = Some p -> ts !! j = Some r -> p <> r -> <[i:=p']> ts !! j = Some r.
Proof. intros Hi Hj Hne. rewrite list_lookup_insert_ne; [done|]. intros ->. congruence. Qed.

(** A step between points that play no part in the queues. *)
Lemma qinv_neutral st ts q i p p' : ts !! i = Some p -> neutral p = true -> neutral p' = true -> qinv st ts q -> qinv st (<[i:=p']> ts) q.
Proof.
  intros Hi Hp Hp' [Hm Hq Hs Ht Hu]. split.
  - intros k g Hg. destruct (Hm k g Hg) as (a & Ha & Hst & Hts). exists a. split_and!; [done|done|].
    destruct Hts as [Hts|Hts]; [left|right]; (eapply lookup_kept; [done|done|by intros ->]).
  - intros g a Hg. destruct (lookup_moved _ _ _ _ _ _ Hi Hg) as [[-> <-]|[_ Hg']]; [done|by apply Hq].
  - intros g a Hg. destruct (lookup_moved _ _ _ _ _ _ Hi Hg) as [[-> <-]|[_ Hg']]; [done|].
    destruct (Hs g a Hg') as [|(j & r & Hj & Hr)]; [by left|right]. exists j, r. split; [|done].
    eapply lookup_kept; [done|done|]. intros ->. unfold neutral in Hp. rewrite Hr in Hp. by destruct r.
  - intros j r a g Hj Hr. destruct (lookup_moved _ _ _ _ _ _ Hi Hj) as [[-> ->]|[_ Hj']];
      [unfold neutral in Hp'; rewrite Hr in Hp'; by destruct p'|].
    destruct (Ht j r a g Hj' Hr) as [Hg Hn]. split; [|done]. eapply lookup_kept; [done|done|by intros ->].
  - intros j j' r r' a a' g Hj Hj' Hr Hr'.
    destruct (lookup_moved _ _ _ _ _ _ Hi Hj) as [[-> ->]|[_ Hj1]]; [unfold neutral in Hp'; rewrite Hr in Hp'; by destruct p'|].
    destruct (lookup_moved _ _ _ _ _ _ Hi Hj') as [[-> ->]|[_ Hj2]]; [unfold neutral in Hp'; rewrite Hr' in Hp'; by destruct p'|].
    by eapply Hu.
Qed.

Lemma wrap_add_l x d : wrap 32 (wrap 32 x + d) = wrap 32 (x + d).
Proof. unfold wrap. by rewrite Zplus_mod_idemp_l. Qed.

Lemma waiting_mono st ts q i p p' a : ts !! i = Some p -> enqueuing a p' = false -> waiting st (<[i:=p']> ts) q a -> waiting st ts q a.
Proof.
  intros Hi Hp' [Hq|Hc]; [by left|right]. rewrite (cnt_insert _ _ _ _ _ Hi), Hp' in Hc. cbn in Hc. destruct (enqueuing a p); cbn in Hc; lia.
Qed.

Section Neutral.
Context (s : shared) (ts : list spc) (q : Z -> list nat) (Hinv : sinv s ts q).
Context (i : nat) (p p' : spc) (Hi : ts !! i = Some p) (Hp : neutral p = true) (Hp' : neutral p' = true).

(** What a step of the goroutine [i] from [p] to [p'] has to respect. *)
Record respects (s' : shared) : Prop := {
  re_store : store s' = store s;
  re_head k : head (roots s' k) = head (roots s k);
  re_tail k : tail (roots s' k) = tail (roots s k);
  re_lock k : Z.b2z (locked (roots s' k)) = Z.b2z (locked (roots s k)) - Z.b2z (holds k p) + Z.b2z (holds k p');
  re_nwait k : nwait (roots s' k) = wrap 32 (nwait (roots s k) + (Z.b2z (between k p') - Z.b2z (between k p)));
  re_cas k a v : p' = ACas k a v -> 0 < v;
  re_mem a : 0 <= mem s' a;
  re_wake a : waiting (store s) (<[i:=p']> ts) q a -> mem s' a <= cnt (waker a) ts - Z.b2z (waker a p) + Z.b2z (waker a p');
}.

Lemma sinv_neutral s' : respects s' -> sinv s' (<[i:=p']> ts) q.
Proof.
  intros [Hst Hh Ht Hl Hn Hc Hm Hw]. destruct Hinv as [Ir Iq Il In Ic Im Iw]. split.
  - intros k. destruct (Ir k) as [qh qt qs qn]. rewrite Hst. split; [by rewrite Hh|by rewrite Ht|done|done].
  - rewrite Hst. by apply (qinv_neutral _ _ _ _ p).
  - intros k. rewrite (cnt_insert _ _ _ _ _ Hi), Hl, Il. done.
  - intros k. rewrite (cnt_insert _ _ _ _ _ Hi), Hn, In, wrap_add_l. f_equal. lia.
  - intros j k a v Hj. destruct (lookup_moved _ _ _ _ _ _ Hi Hj) as [[_ <-]|[_ Hj']]; [by eapply Hc|by eapply Ic].
  - done.
  - intros a. rewrite (cnt_insert _ _ _ _ _ Hi), Hst. apply Hw.
Qed.

Lemma nwait_range k : wrap 32 (nwait (roots s k)) = nwait (roots s k).
Proof. rewrite (si_nwait _ _ _ Hinv). unfold wrap. apply Z.mod_mod. lia. Qed.

Lemma wake_mono (s' : shared) a : enqueuing a p' = false -> mem s' a <= mem s a - Z.b2z (waker a p) + Z.b2z (waker a p') ->
  waiting (store s) (<[i:=p']> ts) q a -> mem s' a <= cnt (waker a) ts - Z.b2z (waker a p) + Z.b2z (waker a p').
Proof. intros He Hm Hw. pose proof (si_wake _ _ _ Hinv a (waiting_mono _ _ _ _ _ _ _ Hi He Hw)). lia. Qed.
End Neutral.

(** Only the program counter changes. *)
Lemma sinv_local s ts q i p p' : sinv s ts q -> ts !! i = Some p -> neutral p = true -> neutral p' = true ->
  (forall k, holds k p' = holds k p) -> (forall k, between k p' = between k p) -> (forall k a v, p' = ACas k a v -> 0 < v) ->
  (forall a, waiting (store s) (<[i:=p']> ts) q a -> mem s a <= cnt (waker a) ts - Z.b2z (waker a p) + Z.b2z (waker a p')) ->
  sinv s (<[i:=p']> ts) q.
Proof.
  intros Hinv Hi Hp Hp' Hh Hb Hc Hw. apply (sinv_neutral s ts q Hinv i p p' Hi Hp Hp'). split; try done.
  - intros k. rewrite Hh. lia.
  - intros k. rewrite Hb, Z.sub_diag, Z.add_0_r. symmetry. by apply (nwait_range s ts q).
  - apply Hinv.
Qed.

(** The lock of [p']'s root, or its nwait, changes. *)
Lemma sinv_root s ts q i p p' a r : sinv s ts q -> ts !! i = Some p -> neutral p = true -> neutral p' = true ->
  head r = head (roots s (semroot a)) -> tail r = tail (roots s (semroot a)) ->
  Z.b2z (locked r) = Z.b2z (locked (roots s (semroot a))) - Z.b2z (holds (semroot a) p) + Z.b2z (holds (semroot a) p') ->
  nwait r = wrap 32 (nwait (roots s (semroot a)) + (Z.b2z (between (semroot a) p') - Z.b2z (between (semroot a) p))) ->
  (forall k, k <> semroot a -> holds k p' = holds k p /\ between k p' = between k p) -> (forall k a v, p' = ACas k a v -> 0 < v) ->
  (forall b, enqueuing b p' = false /\ waker b p' = waker b p) ->
  sinv (set_root (semroot a) r s) (<[i:=p']> ts) q.
Proof.
  intros Hinv Hi Hp Hp' Hh Ht Hl Hn Hk Hc Hw. apply (sinv_neutral s ts q Hinv i p p' Hi Hp Hp'). split; cbn; try done.
  1-4: intros k; (destruct (decide (k = semroot a)) as [->|Hne];
    [by rewrite fn_lookup_insert|rewrite fn_lookup_insert_ne by done; destruct (Hk k Hne) as [Eh Eb]; rewrite ?Eh, ?Eb; try done; try lia]).
  - rewrite Z.sub_diag, Z.add_0_r. symmetry. by apply (nwait_range s ts q).
  - apply Hinv.
  - intros b. destruct (Hw b) as [He Ew]. apply (wake_mono s ts q Hinv i p p' Hi (set_root (semroot a) r s)); [done|]. cbn. rewrite Ew. lia.
Qed.

(** Distinct goroutines at certain points are at most their number. *)
Lemma NoDup_cnt (f : spc -> bool) l : forall ts, f SIdle = false -> NoDup l -> (forall g, g ∈ l -> exists p, ts !! g = Some p /\ f p = true) -> zlen l <= cnt f ts.
Proof.
  induction l as [|g l IH]; intros ts Hf Hn Hl; [apply cnt_nonneg|]. apply list.NoDup_cons in Hn as [Hg Hn].
  destruct (Hl g) as (p & Hp & Hfp); [set_solver|]. specialize (IH (<[g:=SIdle]> ts) Hf Hn).
  rewrite (cnt_insert _ _ _ _ _ Hp), Hfp, Hf in IH. rewrite zlen_cons. cbn in IH. enough (zlen l <= cnt f ts - 1 + 0) by lia. apply IH.
  intros h Hh. destruct (Hl h) as (r & Hr & Hfr); [set_solver|]. exists r. split; [|done]. rewrite list_lookup_insert_ne; [done|set_solver].
Qed.

Section Steps.
Context (s : shared) (ts : list spc) (q : Z -> list nat) (Hinv : sinv s ts q) (Hsmall : zlen ts < 2 ^ 32).

Definition queued (p : spc) : bool := match p with AQueued _ | ASleep _ => true | _ => false end.

Lemma waiters_bound k : 0 <= zlen (q k) + cnt (between k) ts <= zlen ts.
Proof.
  assert (zlen (q k) <= cnt queued ts) as Hq.
  { apply NoDup_cnt; [done|apply (si_repr _ _ _ Hinv k)|]. intros g Hg.
    destruct (qi_member _ _ _ (si_q _ _ _ Hinv) k g Hg) as (a & _ & _ & [Ht|Ht]); eauto. }
  pose proof (cnt_add queued (between k) ts) as E. pose proof (cnt_length (fun p => queued p || between k p) ts).
  assert (cnt (fun p => queued p && between k p) ts = 0) as E0.
  { clear. induction ts as [|p ts' IH]; cbn; [done|]. rewrite IH. by destruct p as [| [] | [] | | | | | | | | | | | | | |]. }
  pose proof (zlen_nonneg (q k)). pose proof (cnt_nonneg (between k) ts). lia.
Qed.

Lemma nwait_exact k : nwait (roots s k) = zlen (q k) + cnt (between k) ts.
Proof. rewrite (si_nwait _ _ _ Hinv). apply wrap_small. pose proof (waiters_bound k). lia. Qed.

(** The easy case of semrelease misses no waiter. *)
Lemma nwait_zero a : nwait (roots s (semroot a)) = 0 -> ~ waiting (store s) ts q a.
Proof.
  rewrite nwait_exact. pose proof (zlen_nonneg (q (semroot a))). pose proof (cnt_nonneg (between (semroot a)) ts).
  intros Hz [(g & Hg & _)|Hc].
  - destruct (q (semroot a)); [set_solver|]. rewrite zlen_cons in Hz. pose proof (zlen_nonneg l). rewrite zlen_cons in *. lia.
  - enough (cnt (enqueuing a) ts <= cnt (between (semroot a)) ts) by lia. apply cnt_mono.
    intros [] Hp; try done. cbn in *. apply Z.eqb_eq in Hp as ->. apply Z.eqb_refl.
Qed.

Lemma holder_locked i p k : ts !! i = Some p -> holds k p = true -> locked (roots s k) = true.
Proof.
  intros Hi Hp. pose proof (cnt_elem _ _ _ _ Hi Hp) as Hc. rewrite (si_lock _ _ _ Hinv) in Hc. by destruct (locked (roots s k)).
Qed.

Lemma holder_unique i j p r k : ts !! i = Some p -> ts !! j = Some r -> holds k p = true -> holds k r = true -> i = j.
Proof.
  intros Hi Hj Hp Hr. apply (cnt_unique (holds k) ts i j p r); try done. rewrite (si_lock _ _ _ Hinv). destruct (locked _); cbn; lia.
Qed.

(** Nobody else is about to queue while [i] holds the lock. *)
Lemma no_enqueuing i p a : ts !! i = Some p -> holds (semroot a) p = true -> enqueuing a p = false -> cnt (enqueuing a) ts = 0.
Proof.
  intros Hi Hh He. pose proof (cnt_nonneg (enqueuing a) ts). destruct (Z.eq_dec (cnt (enqueuing a) ts) 0) as [|Hne]; [done|].
  destruct (cnt_exists (enqueuing a) ts) as (j & r & Hj & Hr); [lia|].
  assert (i = j) as <-; [|congruence]. eapply holder_unique; [done|done|done|]. destruct r; try done. cbn in *. apply Z.eqb_eq in Hr as ->. apply Z.eqb_refl.
Qed.

Lemma mem_set a b v : mem (set_mem a v s) b = if b =? a then v else mem s b.
Proof. cbn. case_bool; [subst; by rewrite fn_lookup_insert|by rewrite fn_lookup_insert_ne]. Qed.

(** A change of a semaphore that the wakers account for. *)
Lemma sinv_mem i p p' a v : ts !! i = Some p -> neutral p = true -> neutral p' = true ->
  (forall k, holds k p' = holds k p) -> (forall k, between k p' = between k p) -> (forall k a v, p' <> ACas k a v) ->
  (forall b, enqueuing b p' = false) -> 0 <= v ->
  (forall b, (if b =? a then v else mem s b) <= mem s b - Z.b2z (waker b p) + Z.b2z (waker b p')) ->
  sinv (set_mem a v s) (<[i:=p']> ts) q.
Proof.
  intros Hi Hp Hp' Hh Hb Hc He Hv Hw. apply (sinv_neutral s ts q Hinv i p p' Hi Hp Hp'). split; try done.
  - intros k. rewrite Hh. cbn. lia.
  - intros k. rewrite Hb, Z.sub_diag, Z.add_0_r. symmetry. by apply (nwait_range s ts q).
  - intros k b w E. by apply Hc in E.
  - intros b. rewrite mem_set. pose proof (si_mem _ _ _ Hinv b). case_bool; lia.
  - intros b. apply (wake_mono s ts q Hinv i p p' Hi (set_mem a v s)); [done|]. rewrite mem_set. apply Hw.
Qed.

Lemma try_step i k a : ts !! i = Some (ATry k a) ->
  sinv s (<[i:=if 0 <? mem s a then ACas k a (mem s a) else after_cansemacquire k false a]> ts) q.
Proof.
  intros Hi. pose proof (si_mem _ _ _ Hinv a) as Hm. case_bool.
  - apply (sinv_local s ts q i (ATry k a)); try done; try (by destruct k); [naive_solver|].
    intros b. apply (wake_mono s ts q Hinv i (ATry k a)); try done. destruct k; cbn; lia.
  - assert (Hz : mem s a = 0) by lia. apply (sinv_local s ts q i (ATry k a)); try done; try (by destruct k).
    intros b Hw. destruct (Z.eq_dec b a) as [->|Hne].
    + pose proof (cnt_nonneg (waker a) ts). pose proof (cnt_elem (waker a) ts i _ Hi) as Hc. rewrite Hz.
      destruct k; cbn in *; rewrite ?Z.eqb_refl in *; cbn; try specialize (Hc eq_refl); lia.
    + apply (wake_mono s ts q Hinv i (ATry k a) _ Hi s); [|destruct k; cbn; rewrite ?(proj2 (Z.eqb_neq a b)) by lia; cbn; lia|done].
      destruct k; try done. cbn. apply Z.eqb_neq. lia.
Qed.

Lemma cas_step i k a v p' s' : ts !! i = Some (ACas k a v) -> semacquire_step i (ACas k a v) s = Some (p', s') -> sinv s' (<[i:=p']> ts) q.
Proof.
  intros Hi Hs. pose proof (si_cas _ _ _ Hinv _ _ _ _ Hi) as Hv. cbn in Hs. destruct (Z.eqb_spec (mem s a) v) as [<-|Ev]; injection Hs as <- <-.
  - apply (sinv_mem i (ACas k a (mem s a))); try done; try (by destruct k); [lia|].
    intros b. destruct (Z.eqb_spec b a) as [->|Hne]; destruct k; cbn; rewrite ?Z.eqb_refl; cbn; try lia.
    rewrite (proj2 (Z.eqb_neq a b)) by lia. cbn. lia.
  - apply (sinv_local s ts q i (ACas k a v)); try done; try (by destruct k).
    intros b. apply (wake_mono s ts q Hinv i (ACas k a v)); try done. destruct k; cbn; lia.
Qed.

(** Steps on the lock and on nwait. *)
Ltac root_step i p := apply (sinv_root s ts q i p); cbn; rewrite ?Z.eqb_refl, ?Z.add_0_r; try done;
  [..|intros k Hk; by rewrite ?(proj2 (Z.eqb_neq _ k)) by congruence].

Lemma root_steps i p p' s' : ts !! i = Some p -> semacquire_step i p s = Some (p', s') \/ semrelease_step p s = Some (p', s') ->
  match p with ALock _ | ANwait _ | ADec _ | AUnlock _ | RLock _ | RUnlock _ None => True | _ => False end ->
  sinv s' (<[i:=p']> ts) q.
Proof.
  intros Hi Hs Hp.
  assert (Hlk : forall a, holds (semroot a) p = true -> locked (roots s (semroot a)) = true) by (intros a; by apply (holder_locked i)).
  assert (Hr : forall k, nwait (roots s k) = wrap 32 (nwait (roots s k))) by (intros k; symmetry; by apply (nwait_range s ts q)).
  destruct p as [| | |a|a|a|a| | | | | |a| | |a []|]; try done; cbn in Hs; destruct Hs as [Hs|Hs]; try done.
  - destruct (locked (roots s (semroot a))) eqn:El; [done|]. injection Hs as <- <-. root_step i (ALock a). by rewrite El.
  - injection Hs as <- <-. root_step i (ANwait a). lia.
  - injection Hs as <- <-. root_step i (ADec a). lia.
  - injection Hs as <- <-. root_step i (AUnlock a). by rewrite Hlk by apply Z.eqb_refl.
  - destruct (locked (roots s (semroot a))) eqn:El; [done|]. injection Hs as <- <-. root_step i (RLock a). by rewrite El.
  - injection Hs as <- <-. root_step i (RUnlock a None). by rewrite Hlk by apply Z.eqb_refl.
Qed.

Lemma radd_step i a : ts !! i = Some (RAdd a) -> sinv (set_mem a (xadd (mem s a) 1) s) (<[i:=RLoad a]> ts) q.
Proof.
  intros Hi. pose proof (si_mem _ _ _ Hinv a) as Hm. assert (0 <= xadd (mem s a) 1 <= mem s a + 1) as Hx.
  { unfold xadd. split; [apply wrap_range; lia|]. apply Z.mod_le; lia. }
  apply (sinv_mem i (RAdd a)); try done; [lia|]. intros b. cbn. destruct (Z.eqb_spec b a) as [->|Hne]; [rewrite Z.eqb_refl; cbn; lia|].
  rewrite (proj2 (Z.eqb_neq a b)) by lia. cbn. lia.
Qed.

(** A releaser leaves when nobody waits for [a]. *)
Lemma leave_step i p p' a : ts !! i = Some p -> neutral p = true -> neutral p' = true ->
  (forall k, holds k p' = holds k p) -> (forall k, between k p' = between k p) -> (forall k a v, p' <> ACas k a v) ->
  (forall b, enqueuing b p' = false) -> (forall b, b <> a -> waker b p' = waker b p) -> ~ waiting (store s) ts q a ->
  sinv s (<[i:=p']> ts) q.
Proof.
  intros Hi Hp Hp' Hh Hb Hc He Hw Hn. apply (sinv_local s ts q i p); try done; [naive_solver|].
  intros b Hwt. destruct (Z.eq_dec b a) as [->|Hne]; [by apply waiting_mono with (p := p) in Hwt|].
  apply (wake_mono s ts q Hinv i p p' Hi s); [done| |done]. rewrite Hw by done. lia.
Qed.

Lemma rload_step i a : ts !! i = Some (RLoad a) -> sinv s (<[i:=if nwait (roots s (semroot a)) =? 0 then SIdle else RLock a]> ts) q.
Proof.
  intros Hi. case_bool.
  - apply (leave_step i (RLoad a) _ a); try done; [|by apply nwait_zero]. intros b Hb. cbn. symmetry. apply Z.eqb_neq. lia.
  - apply (sinv_local s ts q i (RLoad a)); try done. intros b. apply (wake_mono s ts q Hinv i (RLoad a)); try done. cbn. lia.
Qed.

Lemma rcheck_step i a : ts !! i = Some (RCheck a) -> sinv s (<[i:=if nwait (roots s (semroot a)) =? 0 then RUnlock a None else RSearch a]> ts) q.
Proof.
  intros Hi. case_bool.
  - apply (leave_step i (RCheck a) _ a); try done; [|by apply nwait_zero]. intros b Hb. cbn. symmetry. apply Z.eqb_neq. lia.
  - apply (sinv_local s ts q i (RCheck a)); try done. intros b. apply (wake_mono s ts q Hinv i (RCheck a)); try done. cbn. lia.
Qed.

(** The search is right about the queue. *)
Lemma search_queue a :
  (exists l1 g l2, q (semroot a) = l1 ++ g :: l2 /\ s_addr <$> store s !! g = Some a /\
    search (S (size (store s))) (store s) a (head (roots s (semroot a))) = Done (Some g)) \/
  search (S (size (store s))) (store s) a (head (roots s (semroot a))) = Done None /\
    (forall g, g ∈ q (semroot a) -> s_addr <$> store s !! g <> Some a).
Proof.
  destruct (si_repr _ _ _ Hinv (semroot a)) as [Hh _ Hs Hn]. rewrite Hh.
  destruct (search_spec (store s) a (q (semroot a)) None (S (size (store s)))) as [(l1 & g & l2 & E & Hr & Ha)|[Hr Ha]]; [done| | |].
  - rewrite <- size_dom. rewrite <- (size_list_to_set (C := gset nat) (q (semroot a))) by done.
    apply Nat.le_le_succ_r, subseteq_size. intros g Hg%elem_of_list_to_set.
    destruct (qi_member _ _ _ (si_q _ _ _ Hinv) _ _ Hg) as (b & _ & Hb & _). apply elem_of_dom. by destruct (store s !! g).
  - left. by exists l1, g, l2.
  - by right.
Qed.

Lemma search_none i a : ts !! i = Some (RSearch a) -> (forall g, g ∈ q (semroot a) -> s_addr <$> store s !! g <> Some a) ->
  sinv s (<[i:=RUnlock a None]> ts) q.
Proof.
  intros Hi Ha. apply (leave_step i (RSearch a) _ a); try done.
  - intros b Hb. cbn. symmetry. apply Z.eqb_neq. lia.
  - intros [(g & Hg & Hga)|Hc]; [by eapply Ha|]. rewrite (no_enqueuing i (RSearch a)) in Hc; [lia|done|apply Z.eqb_refl|done].
Qed.

(** ** Steps on the queues *)

Lemma member_root k g : g ∈ q k -> exists a, semroot a = k /\ s_addr <$> store s !! g = Some a.
Proof. intros Hg. destruct (qi_member _ _ _ (si_q _ _ _ Hinv) k g Hg) as (a & ? & ? & _). eauto. Qed.

Lemma members_disjoint k k' g : g ∈ q k -> g ∈ q k' -> k = k'.
Proof. intros Hg Hg'. destruct (member_root k g Hg) as (a & <- & Ha), (member_root k' g Hg') as (b & <- & Hb). congruence. Qed.

Lemma not_member k i p : ts !! i = Some p -> queued p = false -> i ∉ q k.
Proof. intros Hi Hp Hq. destruct (qi_member _ _ _ (si_q _ _ _ Hinv) k i Hq) as (a & _ & _ & [E|E]); rewrite E in Hi; by simplify_eq. Qed.

(** The queues of the other roots are untouched by a change within one. *)
Lemma other_queue a k st' : k <> semroot a -> (forall h, h ∈ q k -> st' !! h = store s !! h) -> qrepr (roots s k) st' (q k).
Proof. intros Hk Hf. destruct (si_repr _ _ _ Hinv k) as [? ? Hs ?]. split; try done. by eapply seg_frame. Qed.

Lemma enqueued_elem i a k g : g ∈ (<[semroot a:=q (semroot a) ++ [i]]> q : Z -> list nat) k <-> g ∈ q k \/ k = semroot a /\ g = i.
Proof.
  destruct (decide (k = semroot a)) as [->|Hk]; [rewrite fn_lookup_insert|rewrite fn_lookup_insert_ne by done]; set_solver.
Qed.

Section Enqueue.
Context (i : nat) (a : Z) (Hi : ts !! i = Some (AQueue a)) (st : gmap nat Sema).
Context (Hai : s_addr <$> st !! i = Some a) (Hoth : forall h, h <> i -> s_addr <$> st !! h = s_addr <$> store s !! h).

Lemma enqueue_qinv : qinv st (<[i:=AQueued a]> ts) (<[semroot a:=q (semroot a) ++ [i]]> q).
Proof.
  destruct (si_q _ _ _ Hinv) as [Hm Hq Hs Ht Hu]. split.
  - intros k g [Hg|[-> ->]]%enqueued_elem.
    + assert (g <> i) as Hne by (intros ->; by eapply not_member in Hg). destruct (Hm k g Hg) as (b & ? & Hb & Hg').
      exists b. rewrite Hoth by done. split_and!; [done|done|]. by rewrite list_lookup_insert_ne.
    + exists a. split_and!; [done|done|]. left. by eapply lookup_self.
  - intros g b Hg. apply enqueued_elem. destruct (lookup_moved _ _ _ _ _ _ Hi Hg) as [[-> [= ->]]|[_ Hg']]; [by right|left; by apply Hq].
  - intros g b Hg. destruct (lookup_moved _ _ _ _ _ _ Hi Hg) as [[-> ?]|[_ Hg']]; [done|].
    destruct (Hs g b Hg') as [Hgq|(j & p & Hj & Hp)]; [left; apply enqueued_elem; by left|right]. exists j, p. split; [|done].
    eapply lookup_kept; [done|done|by intros <-].
  - intros j p b g Hj Hp. destruct (lookup_moved _ _ _ _ _ _ Hi Hj) as [[-> ->]|[_ Hj']]; [done|].
    destruct (Ht j p b g Hj' Hp) as [Hg Hn']. split; [eapply lookup_kept; [done|done|done]|].
    intros [?|[_ ->]]%enqueued_elem; [done|]. by rewrite Hi in Hg.
  - intros j j' p p' b b' g Hj Hj' Hp Hp'.
    destruct (lookup_moved _ _ _ _ _ _ Hi Hj) as [[-> ->]|[_ Hj1]]; [done|].
    destruct (lookup_moved _ _ _ _ _ _ Hi Hj') as [[-> ->]|[_ Hj2]]; [done|]. by eapply Hu.
Qed.
End Enqueue.

Lemma enqueue_step i a : ts !! i = Some (AQueue a) ->
  exists root st, semqueue (roots s (semroot a)) (store s) a i = Done (root, st) /\
    sinv (set_queue (semroot a) root st s) (<[i:=AQueued a]> ts) (<[semroot a:=q (semroot a) ++ [i]]> q).
Proof.
  intros Hi. assert (Hiq : forall k, i ∉ q k) by (intros k; by eapply not_member).
  destruct (semqueue_spec _ _ _ a i (si_repr _ _ _ Hinv (semroot a)) (Hiq _)) as (root & st & E & Hr & Hl & Hn & Hai & Hoth & Hf).
  exists root, st. split; [done|]. split; cbn.
  - intros k. destruct (decide (k = semroot a)) as [->|Hk]; [by rewrite !fn_lookup_insert|rewrite !fn_lookup_insert_ne by done].
    apply (other_queue a); [done|]. intros h Hh. apply Hf; [by intros ->; apply (Hiq k)|]. intros Hh'. by eapply Hk, members_disjoint.
  - by apply enqueue_qinv.
  - intros k. rewrite (cnt_insert _ _ _ _ _ Hi), (si_lock _ _ _ Hinv). cbn.
    destruct (decide (k = semroot a)) as [->|Hk]; [rewrite fn_lookup_insert, Hl|rewrite fn_lookup_insert_ne by done]; lia.
  - intros k. rewrite (cnt_insert _ _ _ _ _ Hi). cbn. destruct (decide (k = semroot a)) as [->|Hk].
    + rewrite !fn_lookup_insert, Hn, (si_nwait _ _ _ Hinv), zlen_app, Z.eqb_refl. f_equal. change (zlen [i]) with 1. cbn. lia.
    + rewrite !fn_lookup_insert_ne by done. rewrite (si_nwait _ _ _ Hinv), (proj2 (Z.eqb_neq _ k)) by done. f_equal. cbn. lia.
  - intros j k b v Hj. destruct (lookup_moved _ _ _ _ _ _ Hi Hj) as [[_ ?]|[_ Hj']]; [done|by eapply Hinv].
  - apply Hinv.
  - intros b Hw. rewrite (cnt_insert _ _ _ _ _ Hi). cbn. rewrite Z.sub_0_r, Z.add_0_r. apply (si_wake _ _ _ Hinv).
    destruct Hw as [(g & Hg & Hgb)|Hc].
    + apply enqueued_elem in Hg as [Hg|[_ ->]].
      * left. exists g. split; [done|]. rewrite <- Hoth; [done|]. by intros ->; eapply Hiq.
      * right. assert (b = a) as -> by congruence. pose proof (cnt_elem (enqueuing a) ts i _ Hi (Z.eqb_refl a)). lia.
    + right. rewrite (cnt_insert _ _ _ _ _ Hi) in Hc. destruct (enqueuing b (AQueue a)); cbn in Hc; lia.
Qed.

(** The lock is released by [i], between points of the queue. *)
Lemma unlock_step i p p' a : ts !! i = Some p -> holds (semroot a) p = true -> (forall k, holds k p' = false) ->
  (forall k, k <> semroot a -> holds k p = false) -> (forall k, between k p = false) -> (forall k, between k p' = false) ->
  (forall k a v, p' <> ACas k a v) -> (forall b, enqueuing b p' = false) -> (forall b, waker b p' = waker b p) ->
  qinv (store s) (<[i:=p']> ts) q ->
  sinv (set_root (semroot a) (set_locked false (roots s (semroot a))) s) (<[i:=p']> ts) q.
Proof.
  intros Hi Hp Hp' Hk Hb Hb' Hc He Hw Hq. split; cbn.
  - intros k. destruct (decide (k = semroot a)) as [->|Hne]; [rewrite fn_lookup_insert|rewrite fn_lookup_insert_ne by done];
      [|apply Hinv]. by destruct (si_repr _ _ _ Hinv (semroot a)).
  - done.
  - intros k. rewrite (cnt_insert _ _ _ _ _ Hi), (si_lock _ _ _ Hinv), Hp'.
    destruct (decide (k = semroot a)) as [->|Hne]; [rewrite fn_lookup_insert, Hp|rewrite fn_lookup_insert_ne, Hk by done].
    + by rewrite (holder_locked i p).
    + cbn. lia.
  - intros k. rewrite (cnt_insert _ _ _ _ _ Hi), Hb, Hb', Z.sub_0_r, Z.add_0_r, <- (si_nwait _ _ _ Hinv).
    destruct (decide (k = semroot a)) as [->|Hne]; [by rewrite fn_lookup_insert|by rewrite fn_lookup_insert_ne].
  - intros j k b v Hj. destruct (lookup_moved _ _ _ _ _ _ Hi Hj) as [[_ ?]|[_ Hj']]; [by edestruct Hc|by eapply Hinv].
  - apply Hinv.
  - intros b Hwt. rewrite (cnt_insert _ _ _ _ _ Hi), Hw, Z.sub_add. apply (si_wake _ _ _ Hinv). by eapply waiting_mono.
Qed.

Lemma sleep_step i a : ts !! i = Some (AQueued a) ->
  sinv (set_root (semroot a) (set_locked false (roots s (semroot a))) s) (<[i:=ASleep a]> ts) q.
Proof.
  intros Hi. apply (unlock_step i (AQueued a)); try done; [apply Z.eqb_refl|intros k Hk; apply Z.eqb_neq; congruence|].
  destruct (si_q _ _ _ Hinv) as [Hm Hq Hs Ht Hu]. split.
  - intros k g Hg. destruct (Hm k g Hg) as (b & Hb & Hst & Hg'). exists b. split_and!; [done|done|].
    destruct (decide (g = i)) as [->|Hne]; [right|by rewrite list_lookup_insert_ne].
    assert (b = a) as -> by naive_solver congruence. by eapply lookup_self.
  - intros g b Hg. destruct (lookup_moved _ _ _ _ _ _ Hi Hg) as [[-> ?]|[_ Hg']]; [done|by apply Hq].
  - intros g b Hg. destruct (lookup_moved _ _ _ _ _ _ Hi Hg) as [[-> [= ->]]|[_ Hg']]; [left; by apply Hq|].
    destruct (Hs g b Hg') as [|(j & p & Hj & Hp)]; [by left|right]. exists j, p. split; [|done]. eapply lookup_kept; [done|done|by intros <-].
  - intros j p b g Hj Hp. destruct (lookup_moved _ _ _ _ _ _ Hi Hj) as [[-> ->]|[_ Hj']]; [done|].
    destruct (Ht j p b g Hj' Hp) as [Hg Hn]. split; [eapply lookup_kept; [done|done|done]|done].
  - intros j j' p p' b b' g Hj Hj' Hp Hp'.
    destruct (lookup_moved _ _ _ _ _ _ Hi Hj) as [[-> ->]|[_ Hj1]]; [done|].
    destruct (lookup_moved _ _ _ _ _ _ Hi Hj') as [[-> ->]|[_ Hj2]]; [done|]. by eapply Hu.
Qed.

Lemma unlock_target_step i a g : ts !! i = Some (RUnlock a (Some g)) ->
  sinv (set_root (semroot a) (set_locked false (roots s (semroot a))) s) (<[i:=RReady a g]> ts) q.
Proof.
  intros Hi. apply (unlock_step i (RUnlock a (Some g))); try done; [apply Z.eqb_refl|intros k Hk; apply Z.eqb_neq; congruence|].
  destruct (si_q _ _ _ Hinv) as [Hm Hq Hs Ht Hu].
  assert (Htr : forall j p, <[i:=RReady a g]> ts !! j = Some p -> exists p0, ts !! j = Some p0 /\ target p0 = target p).
  { intros j p Hj. destruct (lookup_moved _ _ _ _ _ _ Hi Hj) as [[-> ->]|[_ Hj']]; eauto. }
  split.
  - intros k h Hh. destruct (Hm k h Hh) as (b & Hb & Hst & Hg'). exists b. split_and!; [done|done|].
    destruct Hg' as [Hg'|Hg']; [left|right]; (eapply lookup_kept; [done|done|done]).
  - intros h b Hh. destruct (lookup_moved _ _ _ _ _ _ Hi Hh) as [[-> ?]|[_ Hg']]; [done|by apply Hq].
  - intros h b Hh. destruct (lookup_moved _ _ _ _ _ _ Hi Hh) as [[-> ?]|[_ Hg']]; [done|].
    destruct (Hs h b Hg') as [|(j & p & Hj & Hp)]; [by left|right]. destruct (decide (j = i)) as [->|Hne].
    + exists i, (RReady a g). split; [by eapply lookup_self|]. rewrite Hi in Hj. by simplify_eq.
    + exists j, p. by rewrite list_lookup_insert_ne.
  - intros j p b h Hj Hp. destruct (Htr j p Hj) as (p0 & Hj0 & Hp0). rewrite <- Hp0 in Hp.
    destruct (Ht j p0 b h Hj0 Hp) as [Hg Hn]. split; [eapply lookup_kept; [done|done|done]|done].
  - intros j j' p p' b b' h Hj Hj' Hp Hp'. destruct (Htr j p Hj) as (p0 & Hj0 & Hp0), (Htr j' p' Hj') as (p0' & Hj0' & Hp0').
    rewrite <- Hp0 in Hp. rewrite <- Hp0' in Hp'. by eapply (Hu j j').
Qed.

Section Dequeue.
Context (i : nat) (a : Z) (Hi : ts !! i = Some (RSearch a)) (l1 : list nat) (g : nat) (l2 : list nat).
Context (Eq : q (semroot a) = l1 ++ g :: l2) (Hga : s_addr <$> store s !! g = Some a).

(** The waiter that was found sleeps: it has released the lock. *)
Lemma found_sleeps : ts !! g = Some (ASleep a).
Proof.
  destruct (qi_member _ _ _ (si_q _ _ _ Hinv) (semroot a) g) as (b & _ & Hb & [Hg|Hg]); [rewrite Eq; set_solver| |congruence].
  assert (i = g) as ->; [|congruence]. eapply (holder_unique i g); [done|done|apply Z.eqb_refl|]. assert (b = a) as -> by congruence. apply Z.eqb_refl.
Qed.

Lemma dequeued_elem k h : h ∈ (<[semroot a:=l1 ++ l2]> q : Z -> list nat) k <-> h ∈ q k /\ h <> g.
Proof.
  pose proof (q_nodup _ _ _ (si_repr _ _ _ Hinv (semroot a))) as Hn. rewrite Eq in Hn. apply list.NoDup_app in Hn as (_ & Hd & Hn).
  apply list.NoDup_cons in Hn as [Hg2 _].
  destruct (decide (k = semroot a)) as [->|Hk]; [rewrite fn_lookup_insert, Eq; set_solver|rewrite fn_lookup_insert_ne by done].
  split; [|by intros []]. intros Hh. split; [done|]. intros ->. apply Hk, (members_disjoint k (semroot a) g); [done|]. rewrite Eq. set_solver.
Qed.

Lemma dequeue_qinv st : same_addrs (store s) st -> qinv st (<[i:=RUnlock a (Some g)]> ts) (<[semroot a:=l1 ++ l2]> q).
Proof.
  intros Hst. pose proof found_sleeps as Hg. destruct (si_q _ _ _ Hinv) as [Hm Hq Hs Ht Hu].
  assert (Hgq : g ∈ q (semroot a)) by (rewrite Eq; set_solver).
  split.
  - intros k h [Hh Hne]%dequeued_elem. destruct (Hm k h Hh) as (b & Hb & Hb' & Hh'). exists b. rewrite Hst. split_and!; [done|done|].
    destruct Hh' as [Hh'|Hh']; [left|right]; (eapply lookup_kept; [done|done|done]).
  - intros h b Hh. destruct (lookup_moved _ _ _ _ _ _ Hi Hh) as [[-> ?]|[_ Hh']]; [done|]. apply dequeued_elem. split; [by apply Hq|congruence].
  - intros h b Hh. destruct (lookup_moved _ _ _ _ _ _ Hi Hh) as [[-> ?]|[_ Hh']]; [done|]. destruct (decide (h = g)) as [->|Hne].
    + right. exists i, (RUnlock a (Some g)). split; [by eapply lookup_self|]. assert (b = a) as -> by congruence. done.
    + destruct (Hs h b Hh') as [|(j & p & Hj & Hp)]; [left; by apply dequeued_elem|right].
      exists j, p. split; [|done]. eapply lookup_kept; [done|done|by intros <-].
  - intros j p b h Hj Hp. destruct (lookup_moved _ _ _ _ _ _ Hi Hj) as [[-> ->]|[_ Hj']].
    + injection Hp as <- <-. split; [eapply lookup_kept; [done|done|done]|]. intros []%dequeued_elem. done.
    + destruct (Ht j p b h Hj' Hp) as [Hh Hn]. split; [eapply lookup_kept; [done|done|done]|]. intros []%dequeued_elem. done.
  - intros j j' p p' b b' h Hj Hj' Hp Hp'.
    destruct (lookup_moved _ _ _ _ _ _ Hi Hj) as [[-> ->]|[_ Hj1]], (lookup_moved _ _ _ _ _ _ Hi Hj') as [[-> ->]|[_ Hj2]];
      [done| | |by eapply Hu].
    + injection Hp as <- <-. destruct (Ht j' p' b' g Hj2 Hp') as [E Hn]. rewrite Hg in E. injection E as <-. done.
    + injection Hp' as <- <-. destruct (Ht j p b g Hj1 Hp) as [E Hn]. rewrite Hg in E. injection E as <-. done.
Qed.

Lemma dequeue_step : exists root st,
  semdequeue (set_nwait (xadd (nwait (roots s (semroot a))) (-1)) (roots s (semroot a))) (store s) g = Done (root, st) /\
  sinv (set_queue (semroot a) root st s) (<[i:=RUnlock a (Some g)]> ts) (<[semroot a:=l1 ++ l2]> q).
Proof.
  assert (Hr : qrepr (set_nwait (xadd (nwait (roots s (semroot a))) (-1)) (roots s (semroot a))) (store s) (l1 ++ g :: l2)).
  { rewrite <- Eq. by destruct (si_repr _ _ _ Hinv (semroot a)). }
  destruct (semdequeue_spec _ _ _ _ _ Hr) as (root & st & E & Hr' & Hl & Hn & Ha & Hf). exists root, st. split; [done|]. split; cbn.
  - intros k. destruct (decide (k = semroot a)) as [->|Hk]; [by rewrite !fn_lookup_insert|rewrite !fn_lookup_insert_ne by done].
    apply (other_queue a); [done|]. intros h Hh. apply Hf. rewrite <- Eq. intros Hh'. by eapply Hk, members_disjoint.
  - by apply dequeue_qinv.
  - intros k. rewrite (cnt_insert _ _ _ _ _ Hi), (si_lock _ _ _ Hinv). cbn.
    destruct (decide (k = semroot a)) as [->|Hk]; [rewrite fn_lookup_insert, Hl; cbn|rewrite fn_lookup_insert_ne by done]; lia.
  - intros k. rewrite (cnt_insert _ _ _ _ _ Hi). cbn. destruct (decide (k = semroot a)) as [->|Hk].
    + rewrite !fn_lookup_insert, Hn. cbn. unfold xadd. rewrite (si_nwait _ _ _ Hinv), wrap_add_l, Eq, !zlen_app, zlen_cons. f_equal. lia.
    + rewrite !fn_lookup_insert_ne by done. rewrite (si_nwait _ _ _ Hinv). f_equal. lia.
  - intros j k b v Hj. destruct (lookup_moved _ _ _ _ _ _ Hi Hj) as [[_ ?]|[_ Hj']]; [done|by eapply Hinv].
  - apply Hinv.
  - intros b Hw. rewrite (cnt_insert _ _ _ _ _ Hi). cbn. rewrite Z.sub_add. apply (si_wake _ _ _ Hinv). destruct Hw as [(h & Hh & Hb)|Hc].
    + left. exists h. apply dequeued_elem in Hh as [Hh _]. split; [done|]. by rewrite <- Ha.
    + right. rewrite (cnt_insert _ _ _ _ _ Hi) in Hc. cbn in Hc. lia.
Qed.
End Dequeue.

Lemma ready_step i a g : ts !! i = Some (RReady a g) ->
  exists ts', ready g ts = Some ts' /\ sinv s (<[i:=SIdle]> ts') q.
Proof.
  intros Hi. destruct (qi_target _ _ _ (si_q _ _ _ Hinv) i _ a g Hi eq_refl) as [Hg Hgq].
  assert (Hne : i <> g) by (intros ->; congruence). unfold ready. rewrite Hg. eexists. split; [done|].
  assert (Hi' : <[g:=ATry Woken a]> ts !! i = Some (RReady a g)) by by rewrite list_lookup_insert_ne.
  set (ts' := <[i:=SIdle]> (<[g:=ATry Woken a]> ts)).
  assert (Hts : forall j p, ts' !! j = Some p -> j = i /\ p = SIdle \/ j = g /\ p = ATry Woken a \/ j <> i /\ j <> g /\ ts !! j = Some p).
  { intros j p Hj. destruct (lookup_moved _ _ _ _ _ _ Hi' Hj) as [|[? Hj']]; [by left|].
    destruct (lookup_moved _ _ _ _ _ _ Hg Hj') as [|[? ?]]; [by right; left|by right; right]. }
  assert (Hst : forall j p, j <> i -> j <> g -> ts !! j = Some p -> ts' !! j = Some p) by (intros; unfold ts'; by rewrite !list_lookup_insert_ne).
  destruct (si_q _ _ _ Hinv) as [Hm Hq Hs Ht Hu].
  assert (Hcnt : forall f, cnt f ts' = cnt f ts - Z.b2z (f (ASleep a)) + Z.b2z (f (ATry Woken a)) - Z.b2z (f (RReady a g)) + Z.b2z (f SIdle)).
  { intros f. unfold ts'. by rewrite (cnt_insert _ _ _ _ _ Hi'), (cnt_insert _ _ _ _ _ Hg). }
  split; try apply Hinv.
  - split.
    + intros k h Hh. destruct (Hm k h Hh) as (b & <- & Hb' & Hh'). exists b. split_and!; [done|done|].
      assert (h <> i) by (intros ->; destruct Hh'; congruence).
      assert (h <> g) by (intros ->; destruct Hh' as [E|E]; rewrite Hg in E; [done|injection E as ->; done]).
      destruct Hh'; [left|right]; by apply Hst.
    + intros h b Hh. destruct (Hts h _ Hh) as [[_ ?]|[[_ ?]|(_ & _ & Hh')]]; [done|done|by apply Hq].
    + intros h b Hh. destruct (Hts h _ Hh) as [[_ ?]|[[_ ?]|(Hhi & Hhg & Hh')]]; [done|done|].
      destruct (Hs h b Hh') as [|(j & p & Hj & Hp)]; [by left|right]. exists j, p. split; [|done]. apply Hst; [| |done].
      * intros ->. rewrite Hi in Hj. injection Hj as <-. cbn in Hp. congruence.
      * intros ->. rewrite Hg in Hj. by injection Hj as <-.
    + intros j p b h Hj Hp. destruct (Hts j p Hj) as [[_ ->]|[[_ ->]|(Hji & Hjg & Hj')]]; [done|done|].
      destruct (Ht j p b h Hj' Hp) as [Hh Hn]. split; [|done]. apply Hst; [by intros ->; congruence| |done].
      intros ->. by eapply Hji, (Hu j i p (RReady a g)).
    + intros j j' p p' b b' h Hj Hj' Hp Hp'. destruct (Hts j p Hj) as [[_ ->]|[[_ ->]|(_ & _ & Hj1)]]; [done|done|].
      destruct (Hts j' p' Hj') as [[_ ->]|[[_ ->]|(_ & _ & Hj2)]]; [done|done|]. by eapply (Hu j j').
  - intros k. rewrite Hcnt, (si_lock _ _ _ Hinv). cbn. lia.
  - intros k. rewrite Hcnt, (si_nwait _ _ _ Hinv). cbn. f_equal. lia.
  - intros j k b v Hj. destruct (Hts j _ Hj) as [[_ ?]|[[_ ?]|(_ & _ & Hj')]]; [done|done|by eapply Hinv].
  - intros b Hw. rewrite Hcnt. cbn. pose proof (si_wake _ _ _ Hinv b) as Hb. enough (mem s b <= cnt (waker b) ts) by lia. apply Hb.
    destruct Hw as [|Hc]; [by left|right]. rewrite Hcnt in Hc. cbn in Hc. lia.
Qed.
End Steps.

Lemma sinv_internal s ts q c' : sinv s ts q -> zlen ts < 2 ^ 32 -> sinternal (s, ts) c' -> exists q', sinv c'.1 c'.2 q'.
Proof.
  intros Hinv Hn Hs. inversion Hs as [? ? g p p' s' Hg Hst|? ? g p p' s' Hg Hst|? ? g a w ts' Hg Hr]; subst; cbn [fst snd].
  - destruct p; try done.
    + cbn in Hst. injection Hst as <- <-. exists q. by apply try_step.
    + exists q. by eapply cas_step.
    + exists q. eapply root_steps; [done|done|by left|done].
    + exists q. eapply root_steps; [done|done|by left|done].
    + exists q. eapply root_steps; [done|done|by left|done].
    + exists q. eapply root_steps; [done|done|by left|done].
    + destruct (enqueue_step s ts q Hinv Hn g addr Hg) as (root & st & E & Hi'). cbn in Hst. rewrite E in Hst. injection Hst as <- <-. eauto.
    + cbn in Hst. injection Hst as <- <-. exists q. by apply sleep_step.
  - destruct p; try done.
    + cbn in Hst. injection Hst as <- <-. exists q. by apply radd_step.
    + cbn in Hst. injection Hst as <- <-. exists q. by apply rload_step.
    + exists q. eapply root_steps; [done|done|by right|done].
    + cbn in Hst. injection Hst as <- <-. exists q. by apply rcheck_step.
    + unfold semrelease_step in Hst. destruct (search_queue s ts q Hinv addr) as [(l1 & w & l2 & Eq & Ha & E)|[E Ha]]; rewrite E in Hst.
      * destruct (dequeue_step s ts q Hinv Hn g addr Hg l1 w l2 Eq Ha) as (root & st & E' & Hi'). rewrite E' in Hst. injection Hst as <- <-. eauto.
      * injection Hst as <- <-. exists q. by apply search_none.
    + destruct s0 as [w|]; [cbn in Hst; injection Hst as <- <-; exists q; by apply unlock_target_step|]. exists q. eapply root_steps; [done|done|by right|done].
  - destruct (ready_step s ts q Hinv g a w Hg) as (ts0 & E & Hi'). rewrite E in Hr. injection Hr as <-. eauto.
Qed.

(** The goroutines number fewer than [2^32], and the invariant holds. *)
Definition sgood (c : sconfig) : Prop := zlen c.2 < 2 ^ 32 /\ exists q, sinv c.1 c.2 q.

Lemma zlen_insert_spc (ts : list spc) i p : zlen (<[i:=p]> ts) = zlen ts.
Proof. unfold zlen. by rewrite length_insert. Qed.

Lemma sinternal_length c c' : sinternal c c' -> zlen c'.2 = zlen c.2.
Proof.
  intros Hs. destruct Hs as [| |? ? ? ? ? ? Hg Hr]; cbn; rewrite ?zlen_insert_spc; try done.
  unfold ready in Hr. repeat case_match; try done. injection Hr as <-. by rewrite zlen_insert_spc.
Qed.

Lemma sgood_step c c' : sgood c -> sstep c c' -> sgood c'.
Proof.
  intros [Hn [q Hinv]] Hs. destruct Hs as [[s ts] c' Hs|s ts g a Hg|s ts g a Hg]; cbn in *.
  - split; [by rewrite (sinternal_length _ _ Hs)|]. by eapply sinv_internal.
  - split; [cbn; by rewrite zlen_insert_spc|]. exists q. apply (sinv_local s ts q g SIdle); try done.
    intros b. apply (wake_mono s ts q Hinv g SIdle); try done. cbn. lia.
  - split; [cbn; by rewrite zlen_insert_spc|]. exists q. apply (sinv_local s ts q g SIdle); try done.
    intros b. apply (wake_mono s ts q Hinv g SIdle); try done. cbn. lia.
Qed.

Lemma sgood_init n : Z.of_nat n < 2 ^ 32 -> sgood (sinit n).
Proof.
  intros Hn. split; [cbn; by rewrite zlen_replicate|]. exists (fun _ => []). split; cbn; try done.
  - intros k. split; try done. apply base.NoDup_nil_2.
  - assert (Hr : forall g p, replicate n SIdle !! g = Some p -> p = SIdle) by (intros g p [-> _]%lookup_replicate; done).
    split; [set_solver| | | |]; intros; repeat match goal with H : replicate n SIdle !! _ = Some _ |- _ => apply Hr in H; subst end; done.
  - intros k. by rewrite cnt_replicate.
  - intros k. by rewrite cnt_replicate.
  - intros j k a v [? _]%lookup_replicate. done.
  - intros a [(g & Hg & _)|Hc]; [set_solver|]. by rewrite cnt_replicate in Hc.
Qed.

(** ** Enabled steps *)

Definition blockable (p : spc) : bool := match p with SIdle | ASleep _ | ALock _ | RLock _ => true | _ => false end.

Lemma can_step s ts q i p : sinv s ts q -> zlen ts < 2 ^ 32 -> ts !! i = Some p -> blockable p = false -> exists c', sinternal (s, ts) c'.
Proof.
  intros Hinv Hn Hi Hp. destruct p as [|k a|k a v|a|a|a|a|a|a|a|a|a|a|a|a|a w|a w]; try done.
  - by eexists; eapply s_acquire.
  - destruct (Z.eqb (mem s a) v) eqn:E; eexists; (eapply s_acquire; [done|]; cbn; by rewrite E).
  - by eexists; eapply s_acquire.
  - by eexists; eapply s_acquire.
  - by eexists; eapply s_acquire.
  - destruct (enqueue_step s ts q Hinv Hn i a Hi) as (root & st & E & _). eexists. eapply s_acquire; [done|]. cbn. by rewrite E.
  - by eexists; eapply s_acquire.
  - by eexists; eapply s_release.
  - by eexists; eapply s_release.
  - by eexists; eapply s_release.
  - destruct (search_queue s ts q Hinv a) as [(l1 & w & l2 & Eq & Ha & E)|[E Ha]].
    + destruct (dequeue_step s ts q Hinv Hn i a Hi l1 w l2 Eq Ha) as (root & st & E' & _).
      eexists. eapply s_release; [done|]. unfold semrelease_step. by rewrite E, E'.
    + eexists. eapply s_release; [done|]. unfold semrelease_step. by rewrite E.
  - by eexists; eapply s_release.
  - destruct (ready_step s ts q Hinv i a w Hi) as (ts' & E & _). eexists. by eapply s_ready.
Qed.

(** When nothing can step, every goroutine is outside or sleeps. *)
Lemma quiescent s ts : sgood (s, ts) -> (forall c', ~ sinternal (s, ts) c') -> forall i p, ts !! i = Some p -> p = SIdle \/ exists a, p = ASleep a.
Proof.
  intros [Hn [q Hinv]] Hq. cbn in *.
  assert (Hb : forall i p, ts !! i = Some p -> blockable p = true).
  { intros i p Hi. destruct (blockable p) eqn:E; [done|]. destruct (can_step s ts q i p Hinv Hn Hi E) as [c' Hc]. by destruct (Hq c'). }
  assert (Hl : forall k, locked (roots s k) = false).
  { intros k. destruct (locked (roots s k)) eqn:E; [|done]. pose proof (si_lock _ _ _ Hinv k) as Hc. rewrite E in Hc.
    destruct (cnt_exists (holds k) ts) as (j & r & Hj & Hr); [cbn in Hc; lia|]. specialize (Hb j r Hj). by destruct r. }
  intros i p Hi. pose proof (Hb i p Hi) as Hp. destruct p; try done; eauto.
  - destruct (Hq (set_root (semroot addr) (set_locked true (roots s (semroot addr))) s, <[i:=ANwait addr]> ts)).
    eapply s_acquire; [done|]. cbn. by rewrite Hl.
  - destruct (Hq (set_root (semroot addr) (set_locked true (roots s (semroot addr))) s, <[i:=RCheck addr]> ts)).
    eapply s_release; [done|]. cbn. by rewrite Hl.
Qed.

(** A sleeper's semaphore is zero then. *)
Lemma quiescent_zero s ts i a : sgood (s, ts) -> (forall c', ~ sinternal (s, ts) c') -> ts !! i = Some (ASleep a) -> mem s a = 0.
Proof.
  intros Hg Hq Hi. pose proof (quiescent s ts Hg Hq) as Hall. destruct Hg as [Hn [q Hinv]]. cbn in *.
  destruct (qi_sleep _ _ _ (si_q _ _ _ Hinv) i a Hi) as [Hiq|(j & p & Hj & Hp)];
    [|destruct (Hall j p Hj) as [->|[b ->]]; done].
  destruct (qi_member _ _ _ (si_q _ _ _ Hinv) _ i Hiq) as (b & _ & Hb & Hi'). assert (b = a) as -> by (destruct Hi'; congruence).
  pose proof (si_wake _ _ _ Hinv a (or_introl (ex_intro _ i (conj Hiq Hb)))) as Hw. pose proof (si_mem _ _ _ Hinv a).
  destruct (Z.eq_dec (mem s a) 0) as [|Hne]; [done|]. destruct (cnt_exists (waker a) ts) as (j & p & Hj & Hp); [lia|].
  destruct (Hall j p Hj) as [->|[c ->]]; done.
Qed.

(** * The specification of the semaphores *)

(** A goroutine is outside, wants to acquire, or is about to release. *)
Inductive sstatus := NoCall | Acquires (addr : Z) | Releases (addr : Z).

(** The steps that the other components build on: Semacquire decrements a
    positive semaphore in one step, Semrelease increments it. *)
Inductive asstep : (Z -> Z) * list sstatus -> (Z -> Z) * list sstatus -> Prop :=
  | as_Semacquire m ts i a : ts !! i = Some NoCall -> asstep (m, ts) (m, <[i:=Acquires a]> ts)
  | as_acquired m ts i a v : ts !! i = Some (Acquires a) -> Semacquire (m a) = Some v -> asstep (m, ts) (<[a:=v]> m, <[i:=NoCall]> ts)
  | as_Semrelease m ts i a : ts !! i = Some NoCall -> asstep (m, ts) (m, <[i:=Releases a]> ts)
  | as_released m ts i a : ts !! i = Some (Releases a) -> asstep (m, ts) (<[a:=Semrelease (m a)]> m, <[i:=NoCall]> ts).

Definition sstatus_of (p : spc) : sstatus :=
  match p with
  | ATry _ a | ACas _ a _ | ALock a | ANwait a | AQueue a | AQueued a | ASleep a => Acquires a
  | RAdd a => Releases a
  | _ => NoCall
  end.

Definition sabs (c : sconfig) : (Z -> Z) * list sstatus := (mem c.1, sstatus_of <$> c.2).

Lemma sabs_stutter (ts : list spc) i p p' : ts !! i = Some p -> sstatus_of p' = sstatus_of p -> sstatus_of <$> <[i:=p']> ts = sstatus_of <$> ts.
Proof. intros Hi E. rewrite list_fmap_insert, E. apply list_insert_id. by rewrite list_lookup_fmap, Hi. Qed.

Lemma sabs_lookup (ts : list spc) i p : ts !! i = Some p -> (sstatus_of <$> ts) !! i = Some (sstatus_of p).
Proof. intros Hi. by rewrite list_lookup_fmap, Hi. Qed.

Lemma acquire_refines s ts q g p p' s' : sinv s ts q -> ts !! g = Some p -> semacquire_step g p s = Some (p', s') ->
  sabs (s', <[g:=p']> ts) = sabs (s, ts) \/ asstep (sabs (s, ts)) (sabs (s', <[g:=p']> ts)).
Proof.
  intros Hinv Hg Hs. unfold sabs. cbn [fst snd].
  assert (Hst : mem s' = mem s -> sstatus_of p' = sstatus_of p -> (mem s', sstatus_of <$> <[g:=p']> ts) = (mem s, sstatus_of <$> ts)).
  { intros -> E. by rewrite (sabs_stutter ts g p p'). }
  destruct p as [|k a|k a v|a|a|a|a|a|a|a|a|a|a|a|a|a w|a w]; try done; cbn in Hs.
  - left. injection Hs as <- <-. apply Hst; [done|]. case_bool; by destruct k.
  - destruct (Z.eqb_spec (mem s a) v) as [E|E]; [right|left]; injection Hs as <- <-; [|by apply Hst].
    pose proof (si_cas _ _ _ Hinv _ _ _ _ Hg) as Hv. rewrite list_fmap_insert.
    replace (sstatus_of (after_cansemacquire k true a)) with NoCall by by destruct k. cbn [mem set_mem].
    eapply as_acquired; [by apply (sabs_lookup _ _ _ Hg)|]. rewrite E. by apply Semacquire_pos.
  - left. destruct (locked _); [done|]. injection Hs as <- <-. by apply Hst.
  - left. injection Hs as <- <-. by apply Hst.
  - left. injection Hs as <- <-. by apply Hst.
  - left. injection Hs as <- <-. by apply Hst.
  - left. destruct (semqueue _ _ _ _) as [[root st]| |]; try done. injection Hs as <- <-. by apply Hst.
  - left. injection Hs as <- <-. by apply Hst.
Qed.

Lemma release_refines s ts g p p' s' : ts !! g = Some p -> semrelease_step p s = Some (p', s') ->
  sabs (s', <[g:=p']> ts) = sabs (s, ts) \/ asstep (sabs (s, ts)) (sabs (s', <[g:=p']> ts)).
Proof.
  intros Hg Hs. unfold sabs. cbn [fst snd].
  assert (Hst : mem s' = mem s -> sstatus_of p' = sstatus_of p -> (mem s', sstatus_of <$> <[g:=p']> ts) = (mem s, sstatus_of <$> ts)).
  { intros -> E. by rewrite (sabs_stutter ts g p p'). }
  destruct p as [|k a|k a v|a|a|a|a|a|a|a|a|a|a|a|a|a w|a w]; try done; unfold semrelease_step in Hs.
  - right. injection Hs as <- <-. rewrite list_fmap_insert. cbn [mem set_mem sstatus_of]. unfold xadd.
    by eapply as_released, (sabs_lookup _ _ _ Hg).
  - left. injection Hs as <- <-. apply Hst; [done|]. by case_bool.
  - left. destruct (locked _); [done|]. injection Hs as <- <-. by apply Hst.
  - left. injection Hs as <- <-. apply Hst; [done|]. by case_bool.
  - left. destruct (search _ _ _ _) as [[w|]| |]; try done; [|injection Hs as <- <-; by apply Hst].
    destruct (semdequeue _ _ _) as [[root st]| |]; try done. injection Hs as <- <-. by apply Hst.
  - left. injection Hs as <- <-. apply Hst; [done|]. by destruct w.
Qed.

Lemma step_refines c c' : sgood c -> sstep c c' -> sabs c' = sabs c \/ asstep (sabs c) (sabs c').
Proof.
  intros [Hn [q Hinv]] Hs. destruct Hs as [c c' Hs|s ts g a Hg|s ts g a Hg].
  - destruct Hs as [s ts g p p' s' Hg Hs|s ts g p p' s' Hg Hs|s ts g a w ts' Hg Hr].
    + by eapply acquire_refines.
    + by apply release_refines with (p := p).
    + left. destruct (qi_target _ _ _ (si_q _ _ _ Hinv) g _ a w Hg eq_refl) as [Hw _]. cbn in Hw. unfold ready in Hr. rewrite Hw in Hr.
      injection Hr as <-. unfold sabs. cbn [fst snd]. f_equal.
      rewrite (sabs_stutter _ g (RReady a w) SIdle); [by apply (sabs_stutter _ w (ASleep a))| |done].
      rewrite list_lookup_insert_ne; [done|]. intros ->. congruence.
  - right. unfold sabs. cbn [fst snd]. rewrite list_fmap_insert. eapply as_Semacquire, (sabs_lookup _ _ _ Hg).
  - right. unfold sabs. cbn [fst snd]. rewrite list_fmap_insert. eapply as_Semrelease, (sabs_lookup _ _ _ Hg).
Qed.

(** * Properties *)

(** C7. The implementation of the semaphores refines their specification: every
    execution of semacquire and semrelease by any number of goroutines, on any
    addresses, is an execution in which Semacquire takes effect in one step
    that decrements a positive semaphore and Semrelease in one that increments
    it (modulo 2^32). *)
Theorem Sema_refines n c : Z.of_nat n < 2 ^ 32 -> rtc sstep (sinit n) c -> rtc asstep (sabs (sinit n)) (sabs c).
Proof.
  intros Hn Hr. pose proof (sgood_init n Hn) as Hg. revert Hg. induction Hr as [c|c c1 c2 Hs Hr IH]; intros Hg; [done|].
  destruct (step_refines c c1 Hg Hs) as [E|Hst].
  - rewrite <- E. apply IH. by eapply sgood_step.
  - eapply rtc_l; [done|]. apply IH. by eapply sgood_step.
Qed.

(** C4. No wakeup is lost: in every reachable configuration in which no
    goroutine can take a step inside semacquire or semrelease, every goroutine
    is outside of them or sleeps in semacquire on a semaphore that is zero. *)
Theorem Sema_no_lost_wakeup n s ts : Z.of_nat n < 2 ^ 32 -> rtc sstep (sinit n) (s, ts) -> (forall c', ~ sinternal (s, ts) c') ->
  forall i p, ts !! i = Some p -> p = SIdle \/ exists a, p = ASleep a /\ mem s a = 0.
Proof.
  intros Hn Hr Hq i p Hi. pose proof (rtc_invariant sgood sgood_step (sgood_init n Hn) Hr) as Hg.
  destruct (quiescent s ts Hg Hq i p Hi) as [->|[a ->]]; [by left|right]. exists a. split; [done|]. by eapply quiescent_zero.
Qed.

(** [k] steps of the goroutine [g] in semacquire. *)
Definition acquire_once (g : nat) (c : sconfig) : sconfig :=
  match c.2 !! g with
  | Some p => match semacquire_step g p c.1 with Some (p', s') => (s', <[g:=p']> c.2) | None => c end
  | None => c
  end.
Definition acquire_run (k : nat) (g : nat) (c : sconfig) : sconfig := Nat.iter k (acquire_once g) c.

Lemma acquire_once_steps g c : rtc sstep c (acquire_once g c).
Proof.
  destruct c as [s ts]. unfold acquire_once. cbn. destruct (ts !! g) as [p|] eqn:Hg; [|done].
  destruct (semacquire_step g p s) as [[p' s']|] eqn:Hs; [|done]. apply rtc_once, s_internal. by eapply s_acquire.
Qed.

Lemma acquire_run_steps k g c : rtc sstep c (acquire_run k g c).
Proof. induction k as [|k IH]; [done|]. etransitivity; [exact IH|]. apply acquire_once_steps. Qed.

(** One goroutine that waits on a semaphore that is zero. *)
Definition one_sleeper : sconfig := acquire_run 6 0 ((sinit 1).1, [ATry Easy 8]).

Lemma one_sleeper_reachable : rtc sstep (sinit 1) one_sleeper.
Proof. eapply rtc_l; [by apply (s_Semacquire _ [SIdle] 0 8)|apply acquire_run_steps]. Qed.

Lemma Sema_refines_witness : rtc asstep (fun _ => 0, [NoCall]) (sabs one_sleeper).
Proof. apply (Sema_refines 1 one_sleeper); [reflexivity|apply one_sleeper_reachable]. Defined.

Lemma Sema_no_lost_wakeup_witness : one_sleeper.2 = [ASleep 8] /\ mem one_sleeper.1 8 = 0.
Proof.
  split; [reflexivity|].
  destruct (Sema_no_lost_wakeup 1 one_sleeper.1 one_sleeper.2) with (i := 0%nat) (p := ASleep 8) as [H|(a & [= ->] & H)];
    [reflexivity|apply one_sleeper_reachable| |reflexivity|discriminate|exact H].
  intros c' Hs. change one_sleeper.2 with [ASleep 8] in Hs. inversion Hs as [? ? g ? ? ? Hg|? ? g ? ? ? Hg|? ? g ? ? ? Hg]; subst;
    (destruct g as [|g]; [first [discriminate|injection Hg as <-; discriminate]|destruct g; discriminate]).
Defined.
