(* ===== verification/SyncMutex.v ===== *)
(** sync.Mutex (src/go/src/pkg/sync/mutex.go), and the interface [Lock] through
    which the other types of package sync use it.

    [Lock_step] and [Unlock_step] run a goroutine from one access to the mutex
    to the next.  The invariant [minv] accounts for every waiter, semaphore
    token and wake-up flag; mutual exclusion, the absence of lost wake-ups and
    the refinement of an abstract lock follow from it. *)

From stdpp Require Import relations.
From S2P Require Import Prelude Threads.

(** * Code *)

Record Mutex := MkMutex { state : Z; sema : Z }.

Definition mutexLocked : Z := 1.
Definition mutexWoken : Z := 2.
Definition mutexWaiterShift : Z := 2.

(** Where a goroutine is: outside, at an access of Lock, holding the lock, or at
    an access of Unlock. *)
Inductive mpc :=
  | MIdle
  | LFast                             (* the first CompareAndSwap *)
  | LLoad (awoke : bool)              (* old := m.state *)
  | LCas (awoke : bool) (old : Z)     (* the CompareAndSwap of the loop *)
  | LSema                             (* Semacquire *)
  | MHeld                             (* Lock returned *)
  | UAdd                              (* AddInt32 *)
  | UCas (old : Z)                    (* the CompareAndSwap of the loop *)
  | URelease                          (* Semrelease *)
  | ULoad                             (* old = m.state *)
  | MPanic.                           (* unlock of unlocked mutex *)

#[export] Instance mpc_eq_dec : EqDecision mpc.
Proof. solve_decision. Defined.

Definition lock_new (awoke : bool) (old : Z) : Z :=
  let new := if Z.land old mutexLocked =? 0 then Z.lor old mutexLocked else int (old + Z.shiftl 1 mutexWaiterShift) in
  if awoke then Z.ldiff new mutexWoken else new.

Definition Lock_step (p : mpc) (m : Mutex) : option (mpc * Mutex) :=
  match p with
  | LFast => if state m =? 0 then Some (MHeld, MkMutex mutexLocked (sema m)) else Some (LLoad false, m)
  | LLoad awoke => Some (LCas awoke (state m), m)
  | LCas awoke old =>
      if state m =? old then
        Some (if Z.land old mutexLocked =? 0 then MHeld else LSema, MkMutex (lock_new awoke old) (sema m))
      else Some (LLoad awoke, m)
  | LSema => s ← Semacquire (sema m); Some (LLoad true, MkMutex (state m) s)
  | _ => None
  end.

(** The test at the head of Unlock's loop. *)
Definition unlock_test (old : Z) : mpc :=
  if (Z.shiftr old mutexWaiterShift =? 0) || negb (Z.land old (Z.lor mutexLocked mutexWoken) =? 0) then MIdle else UCas old.

Definition Unlock_step (p : mpc) (m : Mutex) : option (mpc * Mutex) :=
  match p with
  | UAdd =>
      let new := AddInt32 (state m) (- mutexLocked) in
      Some (if Z.land (int (new + mutexLocked)) mutexLocked =? 0 then MPanic else unlock_test new, MkMutex new (sema m))
  | UCas old =>
      if state m =? old then
        Some (URelease, MkMutex (Z.lor (int (old - Z.shiftl 1 mutexWaiterShift)) mutexWoken) (sema m))
      else Some (ULoad, m)
  | URelease => Some (MIdle, MkMutex (state m) (Semrelease (sema m)))
  | ULoad => Some (unlock_test (state m), m)
  | _ => None
  end.

Definition mutex_step (p : mpc) (m : Mutex) : option (mpc * Mutex) :=
  match Lock_step p m with Some r => Some r | None => Unlock_step p m end.

(** * Configurations *)

Definition config : Type := Mutex * list mpc.

(** The steps inside Lock and Unlock. *)
Inductive internal : config -> config -> Prop :=
  | int_step m ts i p p' m' : ts !! i = Some p -> mutex_step p m = Some (p', m') -> internal (m, ts) (m', <[i:=p']> ts).

(** The clients: a goroutine calls Lock; one that holds the lock calls Unlock,
    or hands the lock over to another goroutine, which may then unlock it. *)
Inductive mstep : config -> config -> Prop :=
  | m_internal c c' : internal c c' -> mstep c c'
  | m_Lock m ts i : ts !! i = Some MIdle -> mstep (m, ts) (m, <[i:=LFast]> ts)
  | m_Unlock m ts i : ts !! i = Some MHeld -> mstep (m, ts) (m, <[i:=UAdd]> ts)
  | m_handoff m ts i j : ts !! i = Some MHeld -> ts !! j = Some MIdle -> mstep (m, ts) (m, <[j:=MHeld]> (<[i:=MIdle]> ts)).

Definition minit (n : nat) : config := (MkMutex 0 0, replicate n MIdle).

(** * Invariant *)

Definition holding (p : mpc) : bool := match p with MHeld | UAdd => true | _ => false end.
Definition sleeping (p : mpc) : bool := match p with LSema => true | _ => false end.
Definition releasing (p : mpc) : bool := match p with URelease => true | _ => false end.
(** Between the wake-up by Unlock and the CompareAndSwap that resets mutexWoken. *)
Definition waking (p : mpc) : bool := match p with URelease | LLoad true | LCas true _ => true | _ => false end.
(** In the loop of Unlock. *)
Definition unlocking (p : mpc) : bool := match p with UCas _ | ULoad => true | _ => false end.
(** Never: a panic, or a wake-up by Unlock from a word without waiters or with
    flags. *)
Definition panicked (p : mpc) : bool :=
  match p with MPanic => true | UCas old => negb ((0 <? old) && (old mod 4 =? 0)) | _ => false end.
(** In the slow or fast path of Lock. *)
Definition locking (p : mpc) : bool := match p with LFast | LLoad _ | LCas _ _ | LSema => true | _ => false end.

(** With [W] waiters: the state word holds the waiters, the wake-up flag and the
    lock bit; a flag is in flight exactly once; every sleeper is a registered
    waiter or has a token coming; and waiters of a free mutex have a wake-up in
    flight or an Unlock in progress. *)
Definition minv (m : Mutex) (ts : list mpc) : Prop :=
  exists W, 0 <= W /\ 0 <= sema m /\
    state m = 4 * W + 2 * (cnt waking ts + sema m) + cnt holding ts /\
    cnt waking ts + sema m <= 1 /\ cnt holding ts <= 1 /\
    cnt sleeping ts = W + sema m + cnt releasing ts /\
    (0 < W -> cnt waking ts + sema m = 0 -> cnt holding ts = 0 -> 0 < cnt unlocking ts) /\
    cnt panicked ts = 0 /\ zlen ts < 2 ^ 29.

(** The fields of the state word. *)
Section Word.
Context (W K B : Z) (HW : 0 <= W) (HK : 0 <= K <= 1) (HB : 0 <= B <= 1).

Lemma word_locked : Z.land (4 * W + 2 * K + B) 1 = B.
Proof. change 1 with (Z.ones 1). rewrite Z.land_ones by lia. change (2 ^ 1) with 2. zlia. Qed.

Lemma word_flags : Z.land (4 * W + 2 * K + B) 3 = 2 * K + B.
Proof. change 3 with (Z.ones 2). rewrite Z.land_ones by lia. change (2 ^ 2) with 4. zlia. Qed.

Lemma word_waiters : Z.shiftr (4 * W + 2 * K + B) 2 = W.
Proof. rewrite Z.shiftr_div_pow2 by lia. change (2 ^ 2) with 4. zlia. Qed.

Lemma word_set_locked : B = 0 -> Z.lor (4 * W + 2 * K + B) 1 = 4 * W + 2 * K + 1.
Proof. intros ->. replace (4 * W + 2 * K + 0) with ((2 * W + K) * 2 ^ 1) by lia. rewrite lor_add by lia. lia. Qed.
End Word.

Lemma word_set_woken W : 0 <= W -> Z.lor (4 * W) 2 = 4 * W + 2.
Proof. intros HW. replace (4 * W) with (W * 2 ^ 2) by lia. rewrite lor_add by lia. done. Qed.

Lemma ldiff_sub a b : Z.ldiff a b = a - Z.land a b.
Proof.
  rewrite Z.sub_nocarry_ldiff; apply Z.bits_inj'; intros n Hn; rewrite ?Z.ldiff_spec, ?Z.land_spec, ?Z.bits_0;
    destruct (Z.testbit a n), (Z.testbit b n); done.
Qed.

Lemma word_clear_woken W K B : 0 <= W -> 0 <= K <= 1 -> 0 <= B <= 1 -> Z.ldiff (4 * W + 2 * K + B) 2 = 4 * W + B.
Proof.
  intros HW HK HB. rewrite ldiff_sub.
  replace (Z.land (4 * W + 2 * K + B) 2) with (Z.land (Z.land (4 * W + 2 * K + B) 3) 2) by (rewrite <- Z.land_assoc; done).
  rewrite word_flags by lia.
  assert (Z.land (2 * K + B) 2 = 2 * K) as ->; [|lia].
  assert (K = 0 \/ K = 1) as [-> | ->] by lia; assert (B = 0 \/ B = 1) as [-> | ->] by lia; done.
Qed.

(** What the code computes from a state word. *)
Lemma lock_new_free awoke W K : 0 <= W -> 0 <= K <= 1 -> (awoke = true -> K = 1) ->
  lock_new awoke (4 * W + 2 * K + 0) = 4 * W + 2 * (K - Z.b2z awoke) + 1.
Proof.
  intros HW HK Ha. unfold lock_new, mutexLocked, mutexWoken. rewrite word_locked, word_set_locked by lia. cbn [Z.eqb].
  destruct awoke; cbn [Z.b2z]; [|lia]. rewrite word_clear_woken by lia. rewrite Ha by done. lia.
Qed.

Lemma lock_new_busy awoke W K : 0 <= W < 2 ^ 29 - 1 -> 0 <= K <= 1 -> (awoke = true -> K = 1) ->
  lock_new awoke (4 * W + 2 * K + 1) = 4 * (W + 1) + 2 * (K - Z.b2z awoke) + 1.
Proof.
  intros HW HK Ha. unfold lock_new, mutexLocked, mutexWoken, mutexWaiterShift. rewrite word_locked by lia. cbn [Z.eqb].
  change (Z.shiftl 1 2) with 4. rewrite int_small by lia. replace (4 * W + 2 * K + 1 + 4) with (4 * (W + 1) + 2 * K + 1) by lia.
  destruct awoke; cbn [Z.b2z]; [|lia]. rewrite word_clear_woken by lia. rewrite Ha by done. lia.
Qed.

Lemma unlock_test_spec W K B : 0 <= W -> 0 <= K <= 1 -> 0 <= B <= 1 ->
  unlock_test (4 * W + 2 * K + B) = if (W =? 0) || negb (K + B =? 0) then MIdle else UCas (4 * W).
Proof.
  intros HW HK HB. unfold unlock_test, mutexWaiterShift. change (Z.lor mutexLocked mutexWoken) with 3.
  rewrite word_waiters, word_flags by lia. repeat case_bool; cbn; try done; try lia. f_equal. lia.
Qed.

(** ** Preservation *)

(** Update every count for the goroutine that moved. *)
Ltac count H :=
  repeat match goal with |- context [cnt ?f (<[_:=?p]> _)] => rewrite (cnt_insert f _ _ _ p H) end;
  cbn [holding sleeping releasing waking unlocking locking];
  repeat match goal with
  | |- context [panicked ?p] =>
      lazymatch p with UCas _ => fail | _ => let b := eval cbn in (panicked p) in change (panicked p) with b end
  end;
  cbn [Z.b2z].

(** A counted goroutine was at its point. *)
Ltac was_there H f := let H' := fresh "Hc" in pose proof (cnt_elem f _ _ _ H eq_refl) as H'.

Lemma minv_call m ts i : minv m ts -> ts !! i = Some MIdle -> minv m (<[i:=LFast]> ts).
Proof. intros (W & Hinv) Hi. exists W. rewrite zlen_insert. count Hi. lia. Qed.

Lemma minv_return m ts i : minv m ts -> ts !! i = Some MHeld -> minv m (<[i:=UAdd]> ts).
Proof. intros (W & Hinv) Hi. exists W. rewrite zlen_insert. count Hi. lia. Qed.

Lemma minv_handoff m ts i j : minv m ts -> ts !! i = Some MHeld -> ts !! j = Some MIdle -> minv m (<[j:=MHeld]> (<[i:=MIdle]> ts)).
Proof.
  intros (W & Hinv) Hi Hj. exists W. rewrite !zlen_insert. assert (Hj' : <[i:=MIdle]> ts !! j = Some MIdle).
  { rewrite list_lookup_insert_ne; [done|]. congruence. }
  count Hj'. count Hi. lia.
Qed.

Lemma minv_Lock_step m ts i p p' m' : minv m ts -> ts !! i = Some p -> Lock_step p m = Some (p', m') -> minv m' (<[i:=p']> ts).
Proof.
  intros (W & HW & Hs & Hst & Hw & Hh & Hsl & Hr & Hp & Hn) Hi Hstep.
  pose proof (cnt_nonneg waking ts). pose proof (cnt_nonneg holding ts). pose proof (cnt_nonneg releasing ts).
  pose proof (cnt_nonneg unlocking ts). pose proof (cnt_length sleeping ts).
  destruct p as [| |awoke|awoke old| | | | | | |]; try discriminate Hstep; cbn [Lock_step] in Hstep.
  - destruct (Z.eqb_spec (state m) 0); injection Hstep as <- <-; [exists 0|exists W]; rewrite zlen_insert; count Hi; cbn [state sema]; unfold mutexLocked; lia.
  - injection Hstep as <- <-. exists W. rewrite zlen_insert. destruct awoke; count Hi; cbn [state sema]; lia.
  - destruct (Z.eqb_spec (state m) old) as [Eo|]; injection Hstep as <- <-; [|exists W; rewrite zlen_insert; destruct awoke; count Hi; cbn [state sema]; lia].
    assert (Ha : awoke = true -> cnt waking ts + sema m = 1) by (intros ->; was_there Hi waking; lia).
    subst old. rewrite Hst. unfold mutexLocked. rewrite word_locked by lia.
    assert (cnt holding ts = 0 \/ cnt holding ts = 1) as [E|E] by lia; rewrite E in *; cbn [Z.eqb].
    + exists W. rewrite zlen_insert, lock_new_free by (try done; lia). destruct awoke; count Hi; cbn [state sema]; lia.
    + pose proof (cnt_length sleeping (<[i:=LSema]> ts)) as Hlen. rewrite zlen_insert, (cnt_insert sleeping _ _ _ _ Hi) in Hlen. cbn in Hlen.
      exists (W + 1). rewrite zlen_insert, lock_new_busy by (try done; lia). destruct awoke; count Hi; cbn [state sema]; lia.
  - destruct (Semacquire (sema m)) as [s|] eqn:Es; [|done]. injection Hstep as <- <-. apply Semacquire_Some in Es as [Hpos ->].
    exists W. rewrite zlen_insert. count Hi. cbn [state sema]. lia.
Qed.

Lemma good_wakeup old : panicked (UCas old) = false <-> exists W, 0 < W /\ old = 4 * W.
Proof.
  cbn [panicked]. rewrite negb_false_iff, andb_true_iff, Z.ltb_lt, Z.eqb_eq. split.
  - intros [Ho Hm]. exists (old / 4). zlia.
  - intros (W & HW & ->). zlia.
Qed.

Lemma minv_Unlock_step m ts i p p' m' : minv m ts -> ts !! i = Some p -> Unlock_step p m = Some (p', m') -> minv m' (<[i:=p']> ts).
Proof.
  intros (W & HW & Hs & Hst & Hw & Hh & Hsl & Hr & Hp & Hn) Hi Hstep.
  pose proof (cnt_nonneg waking ts). pose proof (cnt_nonneg holding ts). pose proof (cnt_nonneg releasing ts).
  pose proof (cnt_nonneg unlocking ts). pose proof (cnt_length sleeping ts).
  destruct p as [| |awoke|awoke old| | | |old| | |]; try discriminate Hstep; cbn [Unlock_step] in Hstep.
  - was_there Hi holding. revert Hstep. unfold AddInt32, mutexLocked. rewrite Hst.
    set (K := cnt waking ts + sema m) in *. replace (4 * W + 2 * K + cnt holding ts + - (1)) with (4 * W + 2 * K + 0) by lia.
    rewrite (int_small (4 * W + 2 * K + 0)) by lia. replace (4 * W + 2 * K + 0 + 1) with (4 * W + 2 * K + 1) by lia.
    rewrite int_small, word_locked, unlock_test_spec by lia. cbn [Z.eqb]. intros [= <- <-].
    exists W. rewrite zlen_insert. case_bool; count Hi; cbn [state sema]; [lia|].
    rewrite (proj2 (good_wakeup (4 * W))) by (exists W; lia). cbn [Z.b2z]. lia.
  - destruct (panicked (UCas old)) eqn:Hg; [pose proof (cnt_elem panicked _ _ _ Hi Hg); lia|].
    pose proof (proj1 (good_wakeup old) Hg) as (W' & HW' & Ho).
    destruct (Z.eqb_spec (state m) old) as [Eo|]; injection Hstep as <- <-.
    + assert (cnt waking ts + sema m = 0 /\ cnt holding ts = 0 /\ W' = W) as (HK & HB & ->) by lia.
      exists (W - 1). rewrite zlen_insert. count Hi. rewrite Hg. cbn [state sema Z.b2z]. subst old.
      unfold mutexWaiterShift, mutexWoken. change (Z.shiftl 1 2) with 4. rewrite int_small by lia.
      replace (4 * W - 4) with (4 * (W - 1)) by lia. rewrite word_set_woken by lia. lia.
    + exists W. rewrite zlen_insert. count Hi. rewrite Hg. cbn [state sema Z.b2z]. lia.
  - was_there Hi waking. was_there Hi releasing. injection Hstep as <- <-. exists W. rewrite zlen_insert. count Hi. cbn [state sema].
    rewrite Semrelease_small by lia. lia.
  - injection Hstep as <- <-. exists W. rewrite zlen_insert, Hst, unlock_test_spec by lia.
    case_bool; count Hi; [lia|].
    rewrite (proj2 (good_wakeup (4 * W))) by (exists W; lia). cbn [Z.b2z]. lia.
Qed.

Lemma minv_internal c c' : minv c.1 c.2 -> internal c c' -> minv c'.1 c'.2.
Proof.
  intros Hinv Hstep. destruct Hstep as [m ts i p p' m' Hi Hstep]. cbn in *. unfold mutex_step in Hstep.
  destruct (Lock_step p m) as [r|] eqn:E; [injection Hstep as ->; by eapply minv_Lock_step|by eapply minv_Unlock_step].
Qed.

Lemma minv_mstep c c' : minv c.1 c.2 -> mstep c c' -> minv c'.1 c'.2.
Proof.
  intros Hinv Hstep. destruct Hstep as [c1 c2 Hint|m ts i Hi|m ts i Hi|m ts i j Hi Hj]; cbn in *;
    [by eapply minv_internal|by apply minv_call|by apply minv_return|by apply minv_handoff].
Qed.

Lemma minv_init n : Z.of_nat n < 2 ^ 29 -> minv (minit n).1 (minit n).2.
Proof. intros Hn. exists 0. cbn [minit fst snd state sema]. rewrite !cnt_replicate, zlen_replicate by done. lia. Qed.

Lemma minv_reachable n c : Z.of_nat n < 2 ^ 29 -> rtc mstep (minit n) c -> minv c.1 c.2.
Proof.
  intros Hn. apply (rtc_invariant (fun c => minv c.1 c.2)); [|by apply minv_init]. intros c1 c2. apply minv_mstep.
Qed.

(** * Refinement of an abstract lock *)

Inductive astatus := Out | Wants | Has.

Definition abs (p : mpc) : astatus := if holding p then Has else if locking p then Wants else Out.

(** One lock, given to one of the goroutines that want it when nobody has it. *)
Inductive astep : list astatus -> list astatus -> Prop :=
  | a_want ts i : ts !! i = Some Out -> astep ts (<[i:=Wants]> ts)
  | a_acquire ts i : ts !! i = Some Wants -> Forall (fun a => a <> Has) ts -> astep ts (<[i:=Has]> ts)
  | a_release ts i : ts !! i = Some Has -> astep ts (<[i:=Out]> ts)
  | a_pass ts i j : ts !! i = Some Has -> ts !! j = Some Out -> astep ts (<[j:=Has]> (<[i:=Out]> ts)).

Lemma nobody_has (ts : list mpc) : cnt holding ts = 0 -> Forall (fun a => a <> Has) (abs <$> ts).
Proof.
  intros Hc. apply Forall_fmap, Forall_lookup_2. intros i p Hi. cbn. unfold abs.
  destruct (holding p) eqn:E; [pose proof (cnt_elem holding _ _ _ Hi E); lia|by destruct (locking p)].
Qed.

Lemma lookup_abs (ts : list mpc) i p : ts !! i = Some p -> (abs <$> ts) !! i = Some (abs p).
Proof. intros Hi. by rewrite list_lookup_fmap, Hi. Qed.

(** Lock grants the lock only when nobody has it. *)
Lemma Lock_step_grants m ts i p p' m' : minv m ts -> ts !! i = Some p -> Lock_step p m = Some (p', m') ->
  locking p = true /\ ((locking p' = true /\ holding p' = false) \/ (p' = MHeld /\ cnt holding ts = 0)).
Proof.
  intros (W & HW & Hs & Hst & Hw & Hh & _) Hi Hstep. pose proof (cnt_nonneg holding ts). pose proof (cnt_nonneg waking ts).
  destruct p as [| |awoke|awoke old| | | | | | |]; try discriminate Hstep; cbn [Lock_step] in Hstep; (split; [done|]).
  - destruct (Z.eqb_spec (state m) 0); injection Hstep as <- <-; [right; split; [done|lia]|auto].
  - injection Hstep as <- <-. auto.
  - destruct (Z.eqb_spec (state m) old) as [Eo|]; injection Hstep as <- <-; [|auto]. subst old. rewrite Hst. unfold mutexLocked.
    rewrite word_locked by lia. case_bool; [right; split; [done|lia]|auto].
  - destruct (Semacquire (sema m)); [|done]. injection Hstep as <- <-. auto.
Qed.

Lemma Unlock_step_abs m p p' m' : Unlock_step p m = Some (p', m') -> p' <> MPanic ->
  abs p' = Out /\ abs p = if holding p then Has else Out.
Proof.
  destruct p; try discriminate; cbn [Unlock_step]; unfold unlock_test; repeat case_bool; intros [= <- _]; try done.
Qed.

(** C5. The mutex implements an abstract lock that is held by at most one
    goroutine: in every interleaving of goroutines that call Lock and Unlock
    (fewer than 2^29 of them, the waiters the state word can count), each step
    either changes nothing or gives the lock to a goroutine that wants it when
    nobody has it, releases it, or passes it on; no goroutine panics, and at
    most one has the lock. *)
Theorem Mutex_refines n c c' : Z.of_nat n < 2 ^ 29 -> rtc mstep (minit n) c -> mstep c c' ->
  (abs <$> c'.2 = abs <$> c.2 \/ astep (abs <$> c.2) (abs <$> c'.2)) /\ cnt holding c'.2 <= 1 /\ MPanic ∉ c'.2.
Proof.
  intros Hn Hr Hstep. pose proof (minv_reachable n c Hn Hr) as Hinv. pose proof (minv_mstep _ _ Hinv Hstep) as Hinv'.
  assert (Hnp : MPanic ∉ c'.2).
  { destruct Hinv' as (W & _ & _ & _ & _ & _ & _ & _ & Hp & _). intros (i & Hi)%list_elem_of_lookup.
    pose proof (cnt_elem panicked _ _ _ Hi eq_refl). lia. }
  split; [|split; [by destruct Hinv' as (W & _ & _ & _ & _ & ? & _)|done]].
  destruct Hstep as [c1 c2 [m ts i p p' m' Hi Hs]|m ts i Hi|m ts i Hi|m ts i j Hi Hj]; cbn [fst snd] in *.
  - rewrite list_fmap_insert. unfold mutex_step in Hs. destruct (Lock_step p m) as [r|] eqn:E.
    + injection Hs as ->. destruct (Lock_step_grants _ _ _ _ _ _ Hinv Hi E) as [Hlk [[Hlk' Hh']|[-> H0]]].
      * left. assert (abs p' = abs p) as ->; [|by apply list_insert_id, lookup_abs].
        unfold abs. rewrite Hlk', Hh', Hlk. by destruct p.
      * right. apply a_acquire; [|by apply nobody_has]. rewrite (lookup_abs _ _ _ Hi). by destruct p.
    + destruct (Unlock_step_abs _ _ _ _ Hs) as [Ho Hp].
      { intros ->. apply Hnp, list_elem_of_lookup. exists i. apply list_lookup_insert_eq. by eapply lookup_lt_Some. }
      apply lookup_abs in Hi. rewrite Hp in Hi. rewrite Ho. destruct (holding p); [right; by apply a_release|left; by apply list_insert_id].
  - rewrite list_fmap_insert. right. apply (a_want _ i). by apply (lookup_abs _ _ _ Hi).
  - left. rewrite list_fmap_insert. apply list_insert_id. by apply (lookup_abs _ _ _ Hi).
  - rewrite !list_fmap_insert. right. apply (a_pass _ i j); [exact (lookup_abs _ _ _ Hi)|exact (lookup_abs _ _ _ Hj)].
Qed.

Lemma Mutex_refines_witness : exists c, rtc mstep (minit 2) c /\ cnt holding c.2 <= 1 /\ c.2 = [MHeld; MIdle].
Proof.
  assert (H1 : mstep (minit 2) (MkMutex 0 0, [LFast; MIdle])) by exact (m_Lock (MkMutex 0 0) [MIdle; MIdle] 0 eq_refl).
  assert (H2 : mstep (MkMutex 0 0, [LFast; MIdle]) (MkMutex 1 0, [MHeld; MIdle])).
  { apply m_internal. exact (int_step (MkMutex 0 0) [LFast; MIdle] 0 LFast MHeld (MkMutex 1 0) eq_refl eq_refl). }
  exists (MkMutex 1 0, [MHeld; MIdle]). split; [|split; [|done]].
  - eapply rtc_l; [exact H1|]. by apply rtc_once.
  - apply (Mutex_refines 2 (MkMutex 0 0, [LFast; MIdle])); [lia|by apply rtc_once|exact H2].
Defined.

(** * Progress *)

(** Some goroutine can get the lock, without any client's help. *)
Definition can_lock (c : config) : Prop := exists c', rtc internal c c' /\ 0 < cnt holding c'.2.

Lemma can_lock_step m ts i p p' m' : ts !! i = Some p -> mutex_step p m = Some (p', m') -> can_lock (m', <[i:=p']> ts) -> can_lock (m, ts).
Proof. intros Hi Hs (c' & Hr & Hc). exists c'. split; [|done]. eapply rtc_l; [by eapply int_step|done]. Qed.

Lemma can_lock_held m ts i : ts !! i = Some MHeld -> can_lock (m, ts).
Proof. intros Hi. exists (m, ts). split; [done|]. pose proof (cnt_elem holding _ _ _ Hi eq_refl). cbn. lia. Qed.

Lemma minv_free m ts : minv m ts -> cnt holding ts = 0 -> Z.land (state m) mutexLocked = 0.
Proof.
  intros (W & HW & Hs & Hst & Hw & Hh & _) H0. pose proof (cnt_nonneg waking ts). rewrite Hst, H0. apply word_locked; lia.
Qed.

Section Progress.
Context (m : Mutex) (ts : list mpc) (Hinv : minv m ts) (Hfree : cnt holding ts = 0).

Lemma awake_can_lock i p : ts !! i = Some p -> locking p = true -> p <> LSema -> can_lock (m, ts).
Proof.
  intros Hi Hl Hns. pose proof (minv_free _ _ Hinv Hfree) as Hland.
  assert (Hload : forall ts i awoke, ts !! i = Some (LLoad awoke) -> can_lock (m, ts)).
  { intros ts' j awoke Hj. eapply (can_lock_step m ts' j); [exact Hj|done|]. pose proof (lookup_self ts' j _ (LCas awoke (state m)) Hj) as Hj'.
    eapply (can_lock_step m _ j); [exact Hj'|unfold mutex_step; cbn [Lock_step]; rewrite Z.eqb_refl, Hland; done|].
    eapply can_lock_held, lookup_self, Hj'. }
  destruct p as [| |awoke|awoke old| | | | | | |]; try done.
  - destruct (Z.eqb_spec (state m) 0) as [E|E].
    + eapply (can_lock_step m ts i); [exact Hi|unfold mutex_step; cbn [Lock_step]; rewrite E; done|]. eapply can_lock_held, lookup_self, Hi.
    + eapply (can_lock_step m ts i); [exact Hi|unfold mutex_step; cbn [Lock_step]; by rewrite (proj2 (Z.eqb_neq _ _) E)|].
      eapply Hload, lookup_self, Hi.
  - eapply Hload, Hi.
  - destruct (Z.eqb_spec (state m) old) as [E|E].
    + eapply (can_lock_step m ts i); [exact Hi|unfold mutex_step; cbn [Lock_step]; rewrite <- E, Z.eqb_refl, Hland; done|].
      eapply can_lock_held, lookup_self, Hi.
    + eapply (can_lock_step m ts i); [exact Hi|unfold mutex_step; cbn [Lock_step]; by rewrite (proj2 (Z.eqb_neq _ _) E)|].
      eapply Hload, lookup_self, Hi.
Qed.
End Progress.

Lemma internal_minv m ts i p p' m' : minv m ts -> ts !! i = Some p -> mutex_step p m = Some (p', m') -> minv m' (<[i:=p']> ts).
Proof. intros Hinv Hi Hs. exact (minv_internal (m, ts) (m', <[i:=p']> ts) Hinv (int_step _ _ _ _ _ _ Hi Hs)). Qed.

Lemma token_can_lock m ts : minv m ts -> cnt holding ts = 0 -> 0 < sema m -> can_lock (m, ts).
Proof.
  intros Hinv Hfree Hs. assert (Hsl : 0 < cnt sleeping ts).
  { destruct Hinv as (W & HW & _ & _ & _ & _ & -> & _). pose proof (cnt_nonneg releasing ts). lia. }
  apply cnt_exists in Hsl as (i & p & Hi & Hp). destruct p; try done.
  assert (Hstep : mutex_step LSema m = Some (LLoad true, MkMutex (state m) (sema m - 1))).
  { unfold mutex_step. cbn [Lock_step]. by rewrite Semacquire_pos. }
  eapply can_lock_step; [exact Hi|exact Hstep|]. pose proof (internal_minv _ _ _ _ _ _ Hinv Hi Hstep) as Hinv'.
  eapply (awake_can_lock _ _ Hinv'); [count Hi; lia|eapply lookup_self, Hi|done|done].
Qed.

Lemma release_can_lock m ts i : minv m ts -> cnt holding ts = 0 -> ts !! i = Some URelease -> can_lock (m, ts).
Proof.
  intros Hinv Hfree Hi. assert (Hstep : mutex_step URelease m = Some (MIdle, MkMutex (state m) (Semrelease (sema m)))) by done.
  eapply can_lock_step; [exact Hi|exact Hstep|]. eapply token_can_lock; [by eapply internal_minv|count Hi; lia|].
  destruct Hinv as (W & HW & Hs & _ & Hw & _). pose proof (cnt_nonneg waking ts). cbn. rewrite Semrelease_small by lia. lia.
Qed.

(** An Unlock in progress wakes a waiter of a free mutex without a wake-up in flight. *)
Lemma unlock_can_lock m ts i p : minv m ts -> cnt holding ts = 0 -> cnt waking ts + sema m = 0 -> 0 < state m ->
  ts !! i = Some p -> unlocking p = true -> can_lock (m, ts).
Proof.
  intros Hinv Hfree Hnw Hst Hi Hp. pose proof Hinv as (W & HW & _ & Hw & _). rewrite Hfree, Hnw in Hw.
  assert (Hcas : forall ts i, minv m ts -> cnt holding ts = 0 -> ts !! i = Some (UCas (state m)) -> can_lock (m, ts)).
  { intros ts' j Hinv' Hfree' Hj. assert (Hstep : mutex_step (UCas (state m)) m =
      Some (URelease, MkMutex (Z.lor (int (state m - Z.shiftl 1 mutexWaiterShift)) mutexWoken) (sema m))).
    { unfold mutex_step. cbn [Lock_step Unlock_step]. by rewrite Z.eqb_refl. }
    eapply can_lock_step; [exact Hj|exact Hstep|].
    eapply release_can_lock; [by eapply internal_minv|count Hj; lia|eapply lookup_self, Hj]. }
  assert (Hload : forall ts i, minv m ts -> cnt holding ts = 0 -> ts !! i = Some ULoad -> can_lock (m, ts)).
  { intros ts' j Hinv' Hfree' Hj. assert (Hstep : mutex_step ULoad m = Some (UCas (state m), m)).
    { unfold mutex_step. cbn [Lock_step Unlock_step]. rewrite Hw, unlock_test_spec by lia. bool_decide_goal. cbn. do 3 f_equal. lia. }
    eapply can_lock_step; [exact Hj|exact Hstep|].
    eapply Hcas; [by eapply internal_minv|count Hj; lia|eapply lookup_self, Hj]. }
  destruct p; try done; [|by eapply Hload]. destruct (Z.eqb_spec (state m) old) as [<-|E]; [by eapply Hcas|].
  assert (Hstep : mutex_step (UCas old) m = Some (ULoad, m)).
  { unfold mutex_step. cbn [Lock_step Unlock_step]. by rewrite (proj2 (Z.eqb_neq _ _) E). }
  eapply can_lock_step; [exact Hi|exact Hstep|]. eapply Hload; [by eapply internal_minv|count Hi; lia|eapply lookup_self, Hi].
Qed.

Lemma minv_can_lock m ts i p : minv m ts -> cnt holding ts = 0 -> ts !! i = Some p -> locking p = true -> can_lock (m, ts).
Proof.
  intros Hinv Hfree Hi Hp. destruct (decide (p = LSema)) as [->|Hns]; [|by eapply awake_can_lock].
  destruct (decide (0 < sema m)) as [Hs|Hs]; [by apply token_can_lock|].
  destruct (decide (0 < cnt waking ts)) as [Hw|Hw].
  - apply cnt_exists in Hw as (j & q & Hj & Hq). destruct q as [| |[]|[] old| | | | | | |]; try done;
      [by eapply awake_can_lock..|by eapply release_can_lock].
  - pose proof Hinv as (W & HW & Hs0 & Hst & _ & _ & Hsl & Hr & _). pose proof (cnt_nonneg waking ts).
    was_there Hi sleeping.
    assert (0 <= cnt releasing ts <= cnt waking ts) as Hrel.
    { split; [apply cnt_nonneg|]. apply cnt_mono. by intros []. }
    destruct (cnt_exists unlocking ts) as (j & q & Hj & Hq); [apply Hr; lia|]. eapply unlock_can_lock; [done|done|lia|lia|done|done].
Qed.

(** C33. No lost wake-up: in every reachable configuration in which nobody holds
    the mutex and some goroutine is inside Lock, the goroutines inside Lock and
    Unlock can run, without any client's help, until one of them holds it. *)
Theorem Mutex_progress n c i p : Z.of_nat n < 2 ^ 29 -> rtc mstep (minit n) c ->
  cnt holding c.2 = 0 -> c.2 !! i = Some p -> locking p = true ->
  exists c', rtc internal c c' /\ cnt holding c'.2 = 1.
Proof.
  intros Hn Hr Hfree Hi Hp. pose proof (minv_reachable n c Hn Hr) as Hinv. destruct c as [m ts]. cbn [fst snd] in *.
  destruct (minv_can_lock m ts i p Hinv Hfree Hi Hp) as (c' & Hrc & Hpos). exists c'. split; [done|].
  assert (Hinv' : minv c'.1 c'.2) by exact (rtc_invariant (fun c => minv c.1 c.2) minv_internal (x := (m, ts)) Hinv Hrc).
  destruct Hinv' as (W & _ & _ & _ & _ & ? & _). lia.
Qed.

Lemma Mutex_progress_witness : exists c', rtc internal (MkMutex 0 0, [LFast; MIdle]) c' /\ cnt holding c'.2 = 1.
Proof.
  apply (Mutex_progress 2 _ 0 LFast); [lia| |done|done|done].
  apply rtc_once. exact (m_Lock (MkMutex 0 0) [MIdle; MIdle] 0 eq_refl).
Defined.

(** Unlock of a mutex whose lock bit is clear panics, whatever else the state
    word holds; with the bit set it does not. *)
Theorem Unlock_panics m : - 2 ^ 31 <= state m < 2 ^ 31 ->
  exists p, Unlock_step UAdd m = Some (p, MkMutex (AddInt32 (state m) (-1)) (sema m)) /\
    (p = MPanic <-> Z.even (state m) = true).
Proof.
  intros Hst. unfold Unlock_step, mutexLocked. change (- (1)) with (-1). eexists. split; [reflexivity|].
  assert (int (AddInt32 (state m) (-1) + 1) = state m) as ->.
  { unfold AddInt32, int, swrap. change (2 ^ (32 - 1)) with (2 ^ 31) in *.
    replace ((state m + -1 + 2 ^ 31) mod 2 ^ 32 - 2 ^ 31 + 1 + 2 ^ 31) with ((state m + -1 + 2 ^ 31) mod 2 ^ 32 + 1) by ring.
    rewrite Z.add_mod_idemp_l by lia. rewrite Z.mod_small by lia. lia. }
  change 1 with (Z.ones 1). rewrite Z.land_ones by lia. change (2 ^ 1) with 2. rewrite Zmod_even. unfold unlock_test.
  destruct (Z.even (state m)); cbn [Z.eqb]; [done|]. by case_bool.
Qed.

Lemma Unlock_panics_witness : exists p, Unlock_step UAdd (MkMutex 4 0) = Some (p, MkMutex 3 0) /\ p = MPanic.
Proof.
  destruct (Unlock_panics (MkMutex 4 0)) as (p & Hp & Hpanic); [cbn; lia|]. exists p. split; [exact Hp|by apply Hpanic].
Defined.

(** * The interface *)

(** A lock as the other types use it: the program counters of Lock and Unlock
    with their entry points [lenter] and [lleave], and where they return,
    [lheld] and [lidle]. *)
Class Lock := {
  lstate : Type;
  lpc : Type;
  lpc_eq_dec :: EqDecision lpc;
  lnew : lstate;
  lidle : lpc;
  lenter : lpc;
  lheld : lpc;
  lleave : lpc;
  lstep : lpc -> lstate -> option (lpc * lstate);
}.

(** What a lock promises: at most one goroutine is between the return of Lock and
    the release in Unlock, and the goroutines inside Lock and Unlock do not all
    get stuck unless a client holds the lock. *)
Class LockLaws (L : Lock) := {
  linv : lstate -> list lpc -> Prop;
  lholds : lpc -> bool;
  llocking : lpc -> bool;
  lunlocking : lpc -> bool;
  linv_new n : Z.of_nat n < 2 ^ 29 -> linv lnew (replicate n lidle);
  linv_step s ts i p p' s' : linv s ts -> ts !! i = Some p -> lstep p s = Some (p', s') -> linv s' (<[i:=p']> ts);
  linv_enter s ts i : linv s ts -> ts !! i = Some lidle -> linv s (<[i:=lenter]> ts);
  linv_leave s ts i : linv s ts -> ts !! i = Some lheld -> linv s (<[i:=lleave]> ts);
  lholds_held : lholds lheld = true;
  llocking_enter : llocking lenter = true;
  lunlocking_leave : lunlocking lleave = true;
  llocking_not : llocking lidle = false /\ lunlocking lheld = false /\ lheld <> lidle;
  llocking_step s ts i p p' s' : linv s ts -> ts !! i = Some p -> lstep p s = Some (p', s') -> llocking p = true ->
    llocking p' = true \/ p' = lheld;
  lunlocking_step s ts i p p' s' : linv s ts -> ts !! i = Some p -> lstep p s = Some (p', s') -> lunlocking p = true ->
    lunlocking p' = true \/ p' = lidle;
  linv_one s ts : linv s ts -> cnt lholds ts <= 1;
  lstep_return s : lstep lidle s = None /\ lstep lheld s = None;
  linv_progress s ts i p : linv s ts -> ts !! i = Some p -> p <> lidle ->
    (forall j q, ts !! j = Some q -> lstep q s = None) -> exists j, ts !! j = Some lheld;
}.

#[export] Instance Mutex_Lock : Lock := {
  lstate := Mutex; lpc := mpc; lnew := MkMutex 0 0; lidle := MIdle; lenter := LFast; lheld := MHeld; lleave := UAdd; lstep := mutex_step;
}.

(** A configuration in which nothing can move is one in which a client holds the lock. *)
Lemma minv_stuck m ts i p : minv m ts -> ts !! i = Some p -> p <> MIdle ->
  (forall j q, ts !! j = Some q -> mutex_step q m = None) -> exists j, ts !! j = Some MHeld.
Proof.
  intros Hinv Hi Hp Hstuck. destruct (decide (cnt holding ts = 0)) as [H0|H0].
  - exfalso. assert (Hl : locking p = true).
    { specialize (Hstuck i p Hi). destruct Hinv as (W & _ & _ & _ & _ & _ & _ & _ & Hpan & _).
      destruct p; try done; [was_there Hi holding; lia| |was_there Hi panicked; lia].
      unfold mutex_step in Hstuck. cbn in Hstuck. by destruct (state m =? old). }
    destruct (minv_can_lock m ts i p Hinv H0 Hi Hl) as (c' & Hr & Hpos). inversion Hr as [|? c1 ? Hstep]; subst; [cbn in Hpos; lia|].
    inversion Hstep; subst. specialize (Hstuck _ _ ltac:(eassumption)). congruence.
  - pose proof (cnt_nonneg holding ts). destruct (cnt_exists holding ts) as (j & q & Hj & Hq); [lia|].
    destruct q; try done; [by exists j|]. by specialize (Hstuck j _ Hj).
Qed.

(** In Unlock. *)
Definition leaving (p : mpc) : bool := match p with UAdd | UCas _ | URelease | ULoad => true | _ => false end.

Lemma leaving_step m ts i p p' m' : minv m ts -> ts !! i = Some p -> mutex_step p m = Some (p', m') -> leaving p = true ->
  leaving p' = true \/ p' = MIdle.
Proof.
  intros Hinv Hi Hs Hp. pose proof (internal_minv _ _ _ _ _ _ Hinv Hi Hs) as (W & _ & _ & _ & _ & _ & _ & _ & Hpan & _).
  assert (p' <> MPanic).
  { intros ->. pose proof (cnt_elem panicked _ _ _ (lookup_self _ _ _ MPanic Hi) eq_refl). lia. }
  assert (Lock_step p m = None) as E by (by destruct p). unfold mutex_step in Hs. rewrite E in Hs.
  destruct (Unlock_step_abs _ _ _ _ Hs) as [Ho _]; [done|]. revert Ho. unfold abs. destruct p'; cbn; auto; done.
Qed.

#[export, program] Instance Mutex_LockLaws : LockLaws Mutex_Lock := {
  linv := minv; lholds := holding; llocking := locking; lunlocking := leaving;
}.
Next Obligation. intros n Hn. by apply (minv_init n). Qed.
Next Obligation. intros. by eapply internal_minv. Qed.
Next Obligation. intros. by apply minv_call. Qed.
Next Obligation. intros. by apply minv_return. Qed.
Next Obligation. done. Qed.
Next Obligation. done. Qed.
Next Obligation. done. Qed.
Next Obligation. done. Qed.
Next Obligation.
  cbn. intros s ts i p p' s' Hinv Hi Hs Hp. unfold mutex_step in Hs. destruct (Lock_step p s) as [r|] eqn:E; [injection Hs as ->|by destruct p].
  destruct (Lock_step_grants _ _ _ _ _ _ Hinv Hi E) as [_ [[? _]|[-> _]]]; auto.
Qed.
Next Obligation. intros. by eapply leaving_step. Qed.
Next Obligation. by intros s ts (W & _ & _ & _ & _ & ? & _). Qed.
Next Obligation. done. Qed.
Next Obligation. intros. by eapply minv_stuck. Qed.

(** * Clients of a lock

    A goroutine of a client is at a program point of the client and one of the
    lock. *)
Section Client.
Context {L : Lock} {HL : LockLaws L} {P : Type}.
Implicit Types (s : lstate) (ts : list (P * lpc)) (l : lpc).

Lemma lookup_snd ts i p l : ts !! i = Some (p, l) -> (snd <$> ts) !! i = Some l.
Proof. intros Hi. by rewrite list_lookup_fmap, Hi. Qed.

(** At most one client goroutine is at a point that the lock protects. *)
Lemma protected_one s ts (f : P * lpc -> bool) : linv s (snd <$> ts) ->
  (forall i t, ts !! i = Some t -> f t = true -> t.2 = lheld) -> cnt f ts <= 1.
Proof.
  intros Hinv Hf. pose proof (linv_one _ _ Hinv) as H1. rewrite cnt_map in H1. etransitivity; [|exact H1]. clear Hinv H1.
  induction ts as [|t ts IH]; cbn [cnt] in *; [lia|]. pose proof (Hf 0%nat t eq_refl) as Ht. specialize (IH (fun i => Hf (S i))).
  destruct (f t); [rewrite (Ht eq_refl), lholds_held; cbn [Z.b2z]; lia|]. cbn [Z.b2z]. destruct (lholds t.2); cbn [Z.b2z]; lia.
Qed.

(** Whether a goroutine can move inside the lock. *)
Definition lock_moves s l : bool := match lstep l s with Some _ => true | None => false end.

Lemma lock_moves_none s (ls : list lpc) : cnt (lock_moves s) ls = 0 -> forall j q, ls !! j = Some q -> lstep q s = None.
Proof.
  intros H0 j q Hj. destruct (lstep q s) as [r|] eqn:E; [|done]. pose proof (cnt_elem (lock_moves s) ls j q Hj) as Hc.
  unfold lock_moves in Hc at 1. rewrite E in Hc. specialize (Hc eq_refl). lia.
Qed.

(** Goroutines stuck in the lock leave it to one that holds it. *)
Lemma stuck_owner s ts i p l : linv s (snd <$> ts) -> ts !! i = Some (p, l) -> l <> lidle ->
  cnt (fun t => lock_moves s t.2) ts = 0 -> exists j q, ts !! j = Some (q, lheld).
Proof.
  intros Hinv Hi Hl H0. rewrite <- (cnt_map (lock_moves s) snd ts) in H0.
  destruct (linv_progress _ _ i l Hinv (lookup_snd _ _ _ _ Hi) Hl) as [j Hj]; [by apply lock_moves_none|].
  rewrite list_lookup_fmap in Hj. destruct (ts !! j) as [[q lq]|] eqn:E; [|done]. injection Hj as ->. by exists j, q.
Qed.
End Client.
