(* ===== verification/SyncRWMutex.v ===== *)
(** sync.RWMutex (src/go/src/pkg/sync/rwmutex.go), over any lock that keeps the
    contract of SyncMutex.

    A goroutine is at a program point of RWMutex and, when it is inside
    [rw.w.Lock] or [rw.w.Unlock], at one of the lock's.  The invariant accounts
    for every reader, semaphore token and departing reader. *)

From stdpp Require Import relations.
From S2P Require Import Prelude Threads SyncMutex.

(** * Code *)

Section Code.
Context {L : Lock}.

Record RWMutex := MkRWMutex { w : lstate; writerSem : Z; readerSem : Z; readerCount : Z; readerWait : Z }.

Definition rwmutexMaxReaders : Z := Z.shiftl 1 30.

Inductive rwpc :=
  | RIdle
  | RAdd                      (* RLock: AddInt32(&rw.readerCount, 1) *)
  | RSema                     (* Semacquire(&rw.readerSem) *)
  | RHeld                     (* RLock returned *)
  | RUAdd                     (* RUnlock: AddInt32(&rw.readerCount, -1) *)
  | RUWait                    (* AddInt32(&rw.readerWait, -1) *)
  | RURelease                 (* Semrelease(&rw.writerSem) *)
  | WLock                     (* in rw.w.Lock(), then AddInt32(&rw.readerCount, -rwmutexMaxReaders) *)
  | WWait (r : Z)             (* AddInt32(&rw.readerWait, r) *)
  | WSema                     (* Semacquire(&rw.writerSem) *)
  | WHeld                     (* Lock returned *)
  | WUAdd                     (* Unlock: AddInt32(&rw.readerCount, rwmutexMaxReaders) *)
  | WURelease (i r : Z)       (* the loop of Semrelease(&rw.readerSem) *)
  | WUnlock.                  (* in rw.w.Unlock() *)

Abbreviation thread := (rwpc * lpc)%type (only parsing).

Definition set_w s rw := MkRWMutex s (writerSem rw) (readerSem rw) (readerCount rw) (readerWait rw).
Definition set_writerSem x rw := MkRWMutex (w rw) x (readerSem rw) (readerCount rw) (readerWait rw).
Definition set_readerSem x rw := MkRWMutex (w rw) (writerSem rw) x (readerCount rw) (readerWait rw).
Definition set_readerCount x rw := MkRWMutex (w rw) (writerSem rw) (readerSem rw) x (readerWait rw).
Definition set_readerWait x rw := MkRWMutex (w rw) (writerSem rw) (readerSem rw) (readerCount rw) x.

Definition RLock_step (p : rwpc) (l : lpc) (rw : RWMutex) : option (thread * RWMutex) :=
  match p with
  | RAdd =>
      let c := AddInt32 (readerCount rw) 1 in
      Some ((if c <? 0 then RSema else RHeld, l), set_readerCount c rw)
  | RSema => s ← Semacquire (readerSem rw); Some ((RHeld, l), set_readerSem s rw)
  | _ => None
  end.

Definition RUnlock_step (p : rwpc) (l : lpc) (rw : RWMutex) : option (thread * RWMutex) :=
  match p with
  | RUAdd =>
      let c := AddInt32 (readerCount rw) (-1) in
      Some ((if c <? 0 then RUWait else RIdle, l), set_readerCount c rw)
  | RUWait =>
      let c := AddInt32 (readerWait rw) (-1) in
      Some ((if c =? 0 then RURelease else RIdle, l), set_readerWait c rw)
  | RURelease => Some ((RIdle, l), set_writerSem (Semrelease (writerSem rw)) rw)
  | _ => None
  end.

Definition WLock_step (p : rwpc) (l : lpc) (rw : RWMutex) : option (thread * RWMutex) :=
  match p with
  | WLock =>
      if decide (l = lheld) then
        let c := AddInt32 (readerCount rw) (- rwmutexMaxReaders) in
        let r := int (c + rwmutexMaxReaders) in
        Some ((if r =? 0 then WHeld else WWait r, l), set_readerCount c rw)
      else '(l', s) ← lstep l (w rw); Some ((WLock, l'), set_w s rw)
  | WWait r =>
      let c := AddInt32 (readerWait rw) r in
      Some ((if c =? 0 then WHeld else WSema, l), set_readerWait c rw)
  | WSema => s ← Semacquire (writerSem rw); Some ((WHeld, l), set_writerSem s rw)
  | _ => None
  end.

(** The head of Unlock's loop; after it, the call of [rw.w.Unlock]. *)
Definition release_readers (i r : Z) (l : lpc) : thread := if i <? r then (WURelease i r, l) else (WUnlock, lleave).

Definition WUnlock_step (p : rwpc) (l : lpc) (rw : RWMutex) : option (thread * RWMutex) :=
  match p with
  | WUAdd =>
      let r := AddInt32 (readerCount rw) rwmutexMaxReaders in
      Some (release_readers 0 r l, set_readerCount r rw)
  | WURelease i r => Some (release_readers (i + 1) r l, set_readerSem (Semrelease (readerSem rw)) rw)
  | WUnlock =>
      if decide (l = lidle) then Some ((RIdle, l), rw)
      else '(l', s) ← lstep l (w rw); Some ((WUnlock, l'), set_w s rw)
  | _ => None
  end.

Definition rw_step (t : thread) (rw : RWMutex) : option (thread * RWMutex) :=
  let '(p, l) := t in
  match p with
  | RAdd | RSema => RLock_step p l rw
  | RUAdd | RUWait | RURelease => RUnlock_step p l rw
  | WLock | WWait _ | WSema => WLock_step p l rw
  | WUAdd | WURelease _ _ | WUnlock => WUnlock_step p l rw
  | RIdle | RHeld | WHeld => None
  end.

(** ** Configurations *)

Definition rwconfig : Type := RWMutex * list thread.

Inductive rwinternal : rwconfig -> rwconfig -> Prop :=
  | rw_int rw ts i t t' rw' : ts !! i = Some t -> rw_step t rw = Some (t', rw') -> rwinternal (rw, ts) (rw', <[i:=t']> ts).

(** Clients call RLock and Lock, and unlock what they locked. *)
Inductive rwstep : rwconfig -> rwconfig -> Prop :=
  | rw_internal c c' : rwinternal c c' -> rwstep c c'
  | rw_RLock rw ts i l : ts !! i = Some (RIdle, l) -> rwstep (rw, ts) (rw, <[i:=(RAdd, l)]> ts)
  | rw_RUnlock rw ts i l : ts !! i = Some (RHeld, l) -> rwstep (rw, ts) (rw, <[i:=(RUAdd, l)]> ts)
  | rw_Lock rw ts i : ts !! i = Some (RIdle, lidle) -> rwstep (rw, ts) (rw, <[i:=(WLock, lenter)]> ts)
  | rw_Unlock rw ts i l : ts !! i = Some (WHeld, l) -> rwstep (rw, ts) (rw, <[i:=(WUAdd, l)]> ts).

Definition rwinit (n : nat) : rwconfig := (MkRWMutex lnew 0 0 0 0, replicate n (RIdle, lidle)).

End Code.
Arguments RWMutex L : clear implicits.
Abbreviation thread := (rwpc * lpc)%type (only parsing).
Arguments rwconfig L : clear implicits.

(** * Invariant *)

Section Inv.
Context {L : Lock} {HL : LockLaws L}.
Implicit Types (rw : RWMutex L) (t : thread) (ts : list (thread)) (p : rwpc) (l : lpc).

Definition in_RSema t : bool := match t.1 with RSema => true | _ => false end.
(** Readers that RLock let through and that have not reached their AddInt32 in RUnlock. *)
Definition reading t : bool := match t.1 with RHeld | RUAdd => true | _ => false end.
Definition departing t : bool := match t.1 with RUWait => true | _ => false end.
Definition waking_writer t : bool := match t.1 with RURelease => true | _ => false end.
Definition in_WWait t : bool := match t.1 with WWait _ => true | _ => false end.
Definition in_WSema t : bool := match t.1 with WSema => true | _ => false end.
Definition writing t : bool := match t.1 with WHeld | WUAdd => true | _ => false end.
Definition releasing_readers t : bool := match t.1 with WURelease _ _ => true | _ => false end.
(** A writer that owns [rw.w]: exactly the lock's holder. *)
Definition owns_w t : bool :=
  match t.1 with
  | WLock => bool_decide (t.2 = lheld)
  | WWait _ | WSema | WHeld | WUAdd | WURelease _ _ => true
  | _ => false
  end.

(** Readers still to be released, and readers the writer waits for. *)
Definition to_release t : Z := match t.1 with WURelease i r => r - i | _ => 0 end.
Definition awaited t : Z := match t.1 with WWait r => r | _ => 0 end.

(** A goroutine is where its program point says with respect to [rw.w]. *)
Definition consistent t : bool :=
  match t.1 with
  | RIdle | RAdd | RSema | RHeld | RUAdd | RUWait | RURelease => bool_decide (t.2 = lidle)
  | WLock => llocking t.2 || bool_decide (t.2 = lheld)
  | WWait r => bool_decide (t.2 = lheld) && (0 <? r) && (r <? 2 ^ 29)
  | WSema | WHeld | WUAdd => bool_decide (t.2 = lheld)
  | WURelease i r => bool_decide (t.2 = lheld) && (0 <=? i) && (i <? r)
  | WUnlock => lunlocking t.2 || bool_decide (t.2 = lidle)
  end.
Definition inconsistent t : bool := negb (consistent t).

(** The readers a writer has to wait for: those reading, those with a token, and
    those on their way out. *)
Definition active rw ts : Z := cnt reading ts + readerSem rw + cnt departing ts.

(** Without a pending writer; with one that has announced itself; with one that
    waits for the readers; with one that holds the lock. *)
Definition phase rw ts : Prop :=
  let pending := cnt in_WWait ts + cnt in_WSema ts + cnt writing ts in
  (pending = 0 /\ cnt in_RSema ts = readerSem rw + tot to_release ts /\ cnt departing ts = 0 /\
     readerWait rw = 0 /\ writerSem rw = 0 /\ cnt waking_writer ts = 0) \/
  (pending = 1 /\ readerSem rw <= cnt in_RSema ts /\
    ((cnt in_WWait ts = 1 /\ readerWait rw = active rw ts - tot awaited ts /\ readerWait rw <= 0 /\
        writerSem rw = 0 /\ cnt waking_writer ts = 0) \/
     (cnt in_WSema ts = 1 /\ readerWait rw = active rw ts /\
        (0 < active rw ts /\ writerSem rw + cnt waking_writer ts = 0 \/ active rw ts = 0 /\ writerSem rw + cnt waking_writer ts = 1)) \/
     (cnt writing ts = 1 /\ active rw ts = 0 /\ readerWait rw = 0 /\ writerSem rw = 0 /\ cnt waking_writer ts = 0))).

Record rwinv rw ts : Prop := {
  rw_lock : linv (w rw) (snd <$> ts);
  rw_consistent : cnt inconsistent ts = 0;
  rw_length : zlen ts < 2 ^ 29;
  rw_sems : 0 <= readerSem rw /\ 0 <= writerSem rw;
  rw_count : readerCount rw = cnt in_RSema ts + cnt reading ts - 2 ^ 30 * (cnt in_WWait ts + cnt in_WSema ts + cnt writing ts);
  rw_phase : phase rw ts;
}.

Lemma rw_wf rw ts i t : rwinv rw ts -> ts !! i = Some t -> consistent t = true.
Proof.
  intros Hinv Hi. destruct (consistent t) eqn:E; [done|]. pose proof (cnt_elem inconsistent ts i t Hi) as Hc. unfold inconsistent in Hc at 1.
  rewrite E in Hc. specialize (Hc eq_refl). rewrite (rw_consistent _ _ Hinv) in Hc. lia.
Qed.

(** At most one writer owns [rw.w]. *)
Lemma owns_w_one rw ts : rwinv rw ts -> cnt owns_w ts <= 1.
Proof.
  intros Hinv. apply (protected_one (w rw)); [apply Hinv|]. intros i [p l] Hi Hw. pose proof (rw_wf _ _ _ _ Hinv Hi) as Hc.
  destruct p; try done; cbn [owns_w consistent fst snd] in *; bool_to_prop;
    match goal with H : bool_decide (l = lheld) = true |- _ => by apply bool_decide_eq_true in H end.
Qed.

(** So the counts of the writer's program points add up to at most one. *)
Lemma owns_w_split ts : cnt in_WWait ts + cnt in_WSema ts + cnt writing ts + cnt releasing_readers ts <= cnt owns_w ts.
Proof.
  induction ts as [|[p l] ts IH]; cbn [cnt]; [lia|].
  unfold in_WWait, in_WSema, writing, releasing_readers, owns_w in *. cbn [fst snd].
  destruct p; cbn [Z.b2z]; try lia; case_bool_decide; cbn [Z.b2z]; lia.
Qed.

Lemma readers_length ts : cnt in_RSema ts + cnt reading ts + cnt departing ts + cnt waking_writer ts <= zlen ts.
Proof.
  unfold zlen. induction ts as [|[p l] ts IH]; cbn [cnt length]; [lia|].
  unfold in_RSema, reading, departing, waking_writer in *. cbn [fst snd]. destruct p; cbn [Z.b2z]; lia.
Qed.

Lemma to_release_none ts : cnt releasing_readers ts = 0 -> tot to_release ts = 0.
Proof. apply tot_none. intros [p l]. unfold releasing_readers, to_release. by destruct p. Qed.

Lemma awaited_none ts : cnt in_WWait ts = 0 -> tot awaited ts = 0.
Proof. apply tot_none. intros [p l]. unfold in_WWait, awaited. by destruct p. Qed.

Lemma awaited_bound ts : cnt inconsistent ts = 0 -> 0 <= tot awaited ts <= 2 ^ 29 * cnt in_WWait ts.
Proof.
  induction ts as [|[p l] ts IH]; cbn [cnt tot]; [lia|]. intros Hc. pose proof (cnt_nonneg inconsistent ts).
  assert (consistent (p, l) = true /\ cnt inconsistent ts = 0) as [Ht Hts].
  { unfold inconsistent in Hc at 1. destruct (consistent (p, l)); cbn [negb Z.b2z] in Hc; split; (done || lia). }
  specialize (IH Hts). destruct p; cbn [awaited in_WWait fst snd Z.b2z]; try lia. cbn [consistent fst snd] in Ht. bool_to_prop. lia.
Qed.

(** ** Preservation *)

Lemma rwinv_move_lock rw ts i p l p' l' rw' : rwinv rw ts -> ts !! i = Some (p, l) ->
  linv (w rw') (<[i:=l']> (snd <$> ts)) -> consistent (p', l') = true -> 0 <= readerSem rw' /\ 0 <= writerSem rw' ->
  (let ts' := <[i:=(p', l')]> ts in
   readerCount rw' = cnt in_RSema ts' + cnt reading ts' - 2 ^ 30 * (cnt in_WWait ts' + cnt in_WSema ts' + cnt writing ts') /\ phase rw' ts') ->
  rwinv rw' (<[i:=(p', l')]> ts).
Proof.
  intros Hinv Hi Hl Hc Hsem [Hcount Hph]. constructor; [|..|done|done|done].
  - by rewrite list_fmap_insert.
  - rewrite (cnt_insert inconsistent _ _ _ _ Hi), (rw_consistent _ _ Hinv). unfold inconsistent.
    rewrite Hc, (rw_wf _ _ _ _ Hinv Hi). done.
  - rewrite zlen_insert. apply Hinv.
Qed.

(** A step that leaves [rw.w] alone. *)
Lemma rwinv_move rw ts i p l p' rw' : rwinv rw ts -> ts !! i = Some (p, l) -> w rw' = w rw -> consistent (p', l) = true ->
  0 <= readerSem rw' /\ 0 <= writerSem rw' ->
  (let ts' := <[i:=(p', l)]> ts in
   readerCount rw' = cnt in_RSema ts' + cnt reading ts' - 2 ^ 30 * (cnt in_WWait ts' + cnt in_WSema ts' + cnt writing ts') /\ phase rw' ts') ->
  rwinv rw' (<[i:=(p', l)]> ts).
Proof.
  intros Hinv Hi Hw. eapply rwinv_move_lock; [done|done|]. rewrite Hw, list_insert_id; [apply Hinv|]. by rewrite list_lookup_fmap, Hi.
Qed.

(** What the invariant says of the counts. *)
Lemma rwinv_counts rw ts : rwinv rw ts ->
  phase rw ts /\ readerCount rw = cnt in_RSema ts + cnt reading ts - 2 ^ 30 * (cnt in_WWait ts + cnt in_WSema ts + cnt writing ts) /\
  0 <= readerSem rw /\ 0 <= writerSem rw /\
  cnt in_WWait ts + cnt in_WSema ts + cnt writing ts + cnt releasing_readers ts <= cnt owns_w ts <= 1 /\
  cnt in_RSema ts + cnt reading ts + cnt departing ts + cnt waking_writer ts < 2 ^ 29 /\
  0 <= tot awaited ts <= 2 ^ 29 /\
  0 <= cnt in_RSema ts /\ 0 <= cnt reading ts /\ 0 <= cnt departing ts /\ 0 <= cnt waking_writer ts /\
  0 <= cnt in_WWait ts /\ 0 <= cnt in_WSema ts /\ 0 <= cnt writing ts /\ 0 <= cnt releasing_readers ts.
Proof.
  intros Hinv. pose proof (owns_w_one _ _ Hinv). pose proof (owns_w_split ts). pose proof (readers_length ts). destruct Hinv as [_ Hc Hlen [? ?] ? ?].
  pose proof (awaited_bound ts Hc). pose proof (cnt_nonneg in_WWait ts). pose proof (cnt_nonneg in_WSema ts).
  pose proof (cnt_nonneg writing ts). pose proof (cnt_nonneg releasing_readers ts).
  split_and!; try done; try apply cnt_nonneg; lia.
Qed.

(** Update the counts for the goroutine that moved, and split the cases of [phase]. *)
Ltac rwcount Hi :=
  cbv zeta; unfold phase, active; cbv zeta;
  rewrite ?(cnt_insert _ _ _ _ _ Hi), ?(tot_insert _ _ _ _ _ Hi);
  cbn [in_RSema reading departing waking_writer in_WWait in_WSema writing releasing_readers to_release awaited fst snd Z.b2z
       w writerSem readerSem readerCount readerWait set_w set_writerSem set_readerSem set_readerCount set_readerWait].

Ltac phase_cases H :=
  unfold phase, active in H; cbv zeta in H;
  destruct H as [H|(? & ? & [H|[(? & ? & [H|H])|H]])]; decompose [and] H; clear H.

Ltac phase_solve :=
  first
  [ exfalso; lia
  | split; [lia|];
    first [ left; lia
          | right; split; [lia|]; split; [lia|];
            first [left; lia | right; right; lia | right; left; split; [lia|]; split; [lia|]; first [left; lia | right; lia]] ] ].

Ltac at_point Hi f := let H := fresh "Hat" in pose proof (cnt_elem f _ _ _ Hi eq_refl) as H.

Lemma rwinv_RLock_step rw ts i p l t' rw' : rwinv rw ts -> ts !! i = Some (p, l) -> RLock_step p l rw = Some (t', rw') -> rwinv rw' (<[i:=t']> ts).
Proof.
  intros Hinv Hi Hstep. pose proof (rw_wf _ _ _ _ Hinv Hi) as Hwf. pose proof (rwinv_counts _ _ Hinv) as (Hph & Hcount & Hrs & Hws & Hone & Hlen & Haw & Hnn).
  destruct p; try discriminate Hstep; cbn [RLock_step] in Hstep.
  - revert Hstep. unfold AddInt32. rewrite int_small by lia. intros [= <- <-].
    case_bool; (eapply rwinv_move; [done|done|done|done|done|]); rwcount Hi; phase_cases Hph; phase_solve.
  - at_point Hi in_RSema. destruct (Semacquire (readerSem rw)) as [s|] eqn:Es; [|done]. injection Hstep as <- <-. apply Semacquire_Some in Es as [Hpos ->].
    eapply rwinv_move; [done|done|done|done|cbn; lia|]. rwcount Hi. phase_cases Hph; phase_solve.
Qed.

Lemma rwinv_RUnlock_step rw ts i p l t' rw' : rwinv rw ts -> ts !! i = Some (p, l) -> RUnlock_step p l rw = Some (t', rw') -> rwinv rw' (<[i:=t']> ts).
Proof.
  intros Hinv Hi Hstep. pose proof (rw_wf _ _ _ _ Hinv Hi) as Hwf. pose proof (rwinv_counts _ _ Hinv) as (Hph & Hcount & Hrs & Hws & Hone & Hlen & Haw & Hnn).
  destruct p; try discriminate Hstep; cbn [RUnlock_step] in Hstep.
  - at_point Hi reading. revert Hstep. unfold AddInt32. rewrite int_small by lia. intros [= <- <-].
    case_bool; (eapply rwinv_move; [done|done|done|done|done|]); rwcount Hi; phase_cases Hph; phase_solve.
  - at_point Hi departing. revert Hstep. unfold AddInt32.
    assert (- 2 ^ 30 <= readerWait rw + -1 < 2 ^ 30) as Hb by (phase_cases Hph; lia). rewrite int_small by lia. intros [= <- <-].
    case_bool; (eapply rwinv_move; [done|done|done|done|done|]); rwcount Hi; phase_cases Hph; phase_solve.
  - at_point Hi waking_writer. injection Hstep as <- <-.
    assert (0 <= writerSem rw <= 1) by (phase_cases Hph; lia). rewrite Semrelease_small by lia.
    eapply rwinv_move; [done|done|done|done|cbn; lia|]. rwcount Hi. phase_cases Hph; phase_solve.
Qed.

(** A step of [rw.w] only. *)
Lemma rwinv_inner rw ts i p l l' s : rwinv rw ts -> ts !! i = Some (p, l) -> lstep l (w rw) = Some (l', s) ->
  consistent (p, l') = true -> rwinv (set_w s rw) (<[i:=(p, l')]> ts).
Proof.
  intros Hinv Hi Hs Hc. pose proof (rwinv_counts _ _ Hinv) as (Hph & Hcount & Hrs & Hws & _).
  eapply rwinv_move_lock; [done|done|eapply linv_step; [apply Hinv|by eapply lookup_snd|done]|done|done|].
  cbv zeta. unfold phase, active in *. cbv zeta in *. rewrite !(cnt_insert _ _ _ _ _ Hi), !(tot_insert _ _ _ _ _ Hi).
  change (in_RSema (p, l')) with (in_RSema (p, l)). change (reading (p, l')) with (reading (p, l)).
  change (departing (p, l')) with (departing (p, l)). change (waking_writer (p, l')) with (waking_writer (p, l)).
  change (in_WWait (p, l')) with (in_WWait (p, l)). change (in_WSema (p, l')) with (in_WSema (p, l)).
  change (writing (p, l')) with (writing (p, l)). change (to_release (p, l')) with (to_release (p, l)).
  change (awaited (p, l')) with (awaited (p, l)). rewrite !Z.sub_add. cbn [set_w readerCount readerSem readerWait writerSem]. done.
Qed.

(** The owner of [rw.w] is the only writer with a role. *)
Lemma owner_alone rw ts i l : rwinv rw ts -> ts !! i = Some (WLock, l) -> l = lheld ->
  cnt in_WWait ts + cnt in_WSema ts + cnt writing ts + cnt releasing_readers ts = 0.
Proof.
  intros Hinv Hi ->. pose proof (owns_w_one _ _ Hinv) as H1. pose proof (rwinv_counts _ _ Hinv) as (_ & _ & _ & _ & _ & _ & _ & Hnn).
  pose proof (owns_w_split (<[i:=(RIdle, lheld)]> ts)) as Hs. rewrite !(cnt_insert _ _ _ _ _ Hi) in Hs.
  unfold owns_w in Hs at 2 3. cbn [in_WWait in_WSema writing releasing_readers fst snd Z.b2z] in Hs.
  rewrite bool_decide_eq_true_2 in Hs by done. cbn [Z.b2z] in Hs. lia.
Qed.

Lemma awaited_alone rw ts i r l : rwinv rw ts -> ts !! i = Some (WWait r, l) -> tot awaited ts = r.
Proof.
  intros Hinv Hi. pose proof (rwinv_counts _ _ Hinv) as (_ & _ & _ & _ & Hone & _ & _ & Hnn). at_point Hi in_WWait.
  pose proof (awaited_none (<[i:=(RIdle, l)]> ts)) as Hn. rewrite (cnt_insert _ _ _ _ _ Hi), (tot_insert _ _ _ _ _ Hi) in Hn.
  cbn [in_WWait awaited fst snd Z.b2z] in Hn. lia.
Qed.

Lemma to_release_alone rw ts i j r l : rwinv rw ts -> ts !! i = Some (WURelease j r, l) -> tot to_release ts = r - j.
Proof.
  intros Hinv Hi. pose proof (rwinv_counts _ _ Hinv) as (_ & _ & _ & _ & Hone & _ & _ & Hnn). at_point Hi releasing_readers.
  pose proof (to_release_none (<[i:=(RIdle, l)]> ts)) as Hn. rewrite (cnt_insert _ _ _ _ _ Hi), (tot_insert _ _ _ _ _ Hi) in Hn.
  cbn [releasing_readers to_release fst snd Z.b2z] in Hn. lia.
Qed.

(** The announcement of a writer. *)
Lemma rwinv_announce rw ts i t' rw' : rwinv rw ts -> ts !! i = Some (WLock, lheld) -> WLock_step WLock lheld rw = Some (t', rw') ->
  rwinv rw' (<[i:=t']> ts).
Proof.
  intros Hinv Hi Hstep. pose proof (owner_alone _ _ _ _ Hinv Hi eq_refl) as H0.
  pose proof (rwinv_counts _ _ Hinv) as (Hph & Hcount & Hrs & Hws & _ & Hlen & _ & Hnn). pose proof (to_release_none ts) as Htr.
  pose proof (awaited_none ts) as Haw.
  revert Hstep. cbn [WLock_step]. rewrite decide_True by done. unfold AddInt32. change rwmutexMaxReaders with (2 ^ 30).
  rewrite (int_small (readerCount rw + - 2 ^ 30)) by lia. replace (readerCount rw + - 2 ^ 30 + 2 ^ 30) with (readerCount rw) by lia. rewrite int_small by lia. intros [= <- <-].
  case_bool; (eapply rwinv_move; [done|done|done| |done|]); try (rwcount Hi; phase_cases Hph; phase_solve);
    cbn [consistent fst snd]; rewrite bool_decide_eq_true_2 by done; [done|]. bool_decide_goal. done.
Qed.

Lemma rwinv_WLock_step rw ts i p l t' rw' : rwinv rw ts -> ts !! i = Some (p, l) -> WLock_step p l rw = Some (t', rw') -> rwinv rw' (<[i:=t']> ts).
Proof.
  intros Hinv Hi Hstep. pose proof (rw_wf _ _ _ _ Hinv Hi) as Hwf. pose proof (rwinv_counts _ _ Hinv) as (Hph & Hcount & Hrs & Hws & Hone & Hlen & Haw & Hnn).
  destruct p; try discriminate Hstep.
  - destruct (decide (l = lheld)) as [->|Hne]; [by eapply rwinv_announce|]. cbn [WLock_step] in Hstep. rewrite decide_False in Hstep by done.
    destruct (lstep l (w rw)) as [[l' s]|] eqn:Es; [|done]. injection Hstep as <- <-. eapply rwinv_inner; [done|done|done|].
    cbn [consistent fst snd] in *. rewrite bool_decide_eq_false_2, orb_false_r in Hwf by done.
    destruct (llocking_step _ _ _ _ _ _ (rw_lock _ _ Hinv) (lookup_snd _ _ _ _ Hi) Es Hwf) as [->| ->]; [done|].
    rewrite bool_decide_eq_true_2 by done. apply orb_true_r.
  - at_point Hi in_WWait. cbn [WLock_step consistent fst snd] in *. bool_to_prop. revert Hstep. unfold AddInt32.
    pose proof (awaited_alone _ _ _ _ _ Hinv Hi) as Er.
    assert (- 2 ^ 30 <= readerWait rw + r < 2 ^ 30) as Hb by (phase_cases Hph; lia). rewrite int_small by lia. intros [= <- <-].
    case_bool; (eapply rwinv_move; [done|done|done|done|done|]); rwcount Hi; phase_cases Hph; phase_solve.
  - at_point Hi in_WSema. cbn [WLock_step] in Hstep. destruct (Semacquire (writerSem rw)) as [s|] eqn:Es; [|done].
    injection Hstep as <- <-. apply Semacquire_Some in Es as [Hpos ->].
    eapply rwinv_move; [done|done|done|done|cbn; lia|]. rwcount Hi. phase_cases Hph; phase_solve.
Qed.

Lemma rwinv_WUnlock_step rw ts i p l t' rw' : rwinv rw ts -> ts !! i = Some (p, l) -> WUnlock_step p l rw = Some (t', rw') -> rwinv rw' (<[i:=t']> ts).
Proof.
  intros Hinv Hi Hstep. pose proof (rw_wf _ _ _ _ Hinv Hi) as Hwf. pose proof (rwinv_counts _ _ Hinv) as (Hph & Hcount & Hrs & Hws & Hone & Hlen & Haw & Hnn).
  assert (Hleave : l = lheld -> linv (w rw) (<[i:=lleave]> (snd <$> ts))).
  { intros ->. apply linv_leave; [apply Hinv|by eapply lookup_snd]. }
  assert (Hun : consistent (WUnlock, lleave) = true) by (cbn; by rewrite lunlocking_leave).
  destruct p; try discriminate Hstep; cbn [WUnlock_step] in Hstep.
  - at_point Hi writing. cbn [consistent fst snd] in Hwf. apply bool_decide_eq_true in Hwf. pose proof (to_release_none ts) as Htr.
    revert Hstep. unfold AddInt32. change rwmutexMaxReaders with (2 ^ 30).
    assert (0 <= readerCount rw + 2 ^ 30 < 2 ^ 29) as Hr by (phase_cases Hph; lia). rewrite int_small by lia. intros [= <- <-].
    unfold release_readers. case_bool; (eapply rwinv_move_lock; [done|done| | |done|]); try (rwcount Hi; phase_cases Hph; phase_solve).
    + rewrite list_insert_id; [apply Hinv|by eapply lookup_snd].
    + cbn [consistent fst snd]. rewrite bool_decide_eq_true_2 by done. by bool_decide_goal.
    + by apply Hleave.
    + done.
  - at_point Hi releasing_readers. cbn [consistent fst snd] in Hwf. bool_to_prop. pose proof (to_release_alone _ _ _ _ _ _ Hinv Hi) as Htr.
    assert (0 <= readerSem rw < 2 ^ 29) as Hs by (phase_cases Hph; lia). injection Hstep as <- <-. rewrite Semrelease_small by lia.
    match goal with H : bool_decide _ = true |- _ => apply bool_decide_eq_true in H end.
    unfold release_readers. case_bool; (eapply rwinv_move_lock; [done|done| | |cbn; lia|]); try (rwcount Hi; phase_cases Hph; phase_solve).
    + cbn. rewrite list_insert_id; [apply Hinv|by eapply lookup_snd].
    + cbn [consistent fst snd]. rewrite bool_decide_eq_true_2 by done. by bool_decide_goal.
    + by apply Hleave.
    + done.
  - destruct (decide (l = lidle)) as [->|Hne].
    + injection Hstep as <- <-. eapply rwinv_move; [done|done|done|cbn; by rewrite bool_decide_eq_true_2|done|]. rwcount Hi. phase_cases Hph; phase_solve.
    + destruct (lstep l (w rw)) as [[l' s]|] eqn:Es; [|done]. injection Hstep as <- <-. eapply rwinv_inner; [done|done|done|].
      cbn [consistent fst snd] in *. rewrite bool_decide_eq_false_2, orb_false_r in Hwf by done.
      destruct (lunlocking_step _ _ _ _ _ _ (rw_lock _ _ Hinv) (lookup_snd _ _ _ _ Hi) Es Hwf) as [->| ->]; [done|].
      rewrite bool_decide_eq_true_2 by done. apply orb_true_r.
Qed.

Lemma rwinv_internal c c' : rwinv c.1 c.2 -> rwinternal c c' -> rwinv c'.1 c'.2.
Proof.
  intros Hinv Hstep. destruct Hstep as [rw ts i [p l] t' rw' Hi Hs]. cbn [fst snd] in *.
  destruct p; try discriminate Hs; cbn [rw_step] in Hs;
    first [by eapply rwinv_RLock_step|by eapply rwinv_RUnlock_step|by eapply rwinv_WLock_step|by eapply rwinv_WUnlock_step].
Qed.

Lemma rwinv_rwstep c c' : rwinv c.1 c.2 -> rwstep c c' -> rwinv c'.1 c'.2.
Proof.
  intros Hinv Hstep.
  destruct Hstep as [c1 c2 Hint|rw ts i l Hi|rw ts i l Hi|rw ts i Hi|rw ts i l Hi]; cbn [fst snd] in *; [by eapply rwinv_internal|..];
    pose proof (rw_wf _ _ _ _ Hinv Hi) as Hwf; pose proof (rwinv_counts _ _ Hinv) as (Hph & Hcount & Hrs & Hws & Hone & Hlen & Haw & Hnn);
    (eapply rwinv_move_lock; [done|done| | |done|]); try (rwcount Hi; phase_cases Hph; phase_solve);
    try (rewrite list_insert_id; [apply Hinv|by eapply lookup_snd]); try exact Hwf.
  - apply linv_enter; [apply Hinv|by eapply lookup_snd].
  - cbn. by rewrite llocking_enter.
Qed.

Lemma rwinv_init n : Z.of_nat n < 2 ^ 29 -> rwinv (rwinit n).1 (rwinit n).2.
Proof.
  intros Hn. cbn [rwinit fst snd]. constructor; cbn [w readerSem writerSem readerCount readerWait].
  - rewrite fmap_replicate. by apply linv_new.
  - apply cnt_replicate. unfold inconsistent. cbn. by rewrite bool_decide_eq_true_2.
  - by rewrite zlen_replicate.
  - done.
  - by rewrite !cnt_replicate.
  - left. rewrite !cnt_replicate, tot_replicate by done. cbn. lia.
Qed.

Lemma rwinv_reachable n c : Z.of_nat n < 2 ^ 29 -> rtc rwstep (rwinit n) c -> rwinv c.1 c.2.
Proof. intros Hn. apply (rtc_invariant (fun c => rwinv c.1 c.2)); [|by apply rwinv_init]. intros c1 c2. apply rwinv_rwstep. Qed.

(** C8. Readers and writers exclude each other: in every reachable configuration
    of fewer than 2^29 goroutines, at most one holds the lock for writing, and
    while one does nobody holds it for reading. *)
Theorem RWMutex_exclusion n c i l : Z.of_nat n < 2 ^ 29 -> rtc rwstep (rwinit n) c -> c.2 !! i = Some (WHeld, l) ->
  (forall j l', c.2 !! j <> Some (RHeld, l')) /\ (forall j l', c.2 !! j = Some (WHeld, l') -> j = i).
Proof.
  intros Hn Hr Hi. pose proof (rwinv_reachable n c Hn Hr) as Hinv. destruct c as [rw ts]. cbn [fst snd] in *.
  pose proof (rwinv_counts _ _ Hinv) as (Hph & _ & Hrs & _ & Hone & _ & _ & Hnn). at_point Hi writing. split.
  - intros j l' Hj. at_point Hj reading. phase_cases Hph; lia.
  - intros j l' Hj. eapply (cnt_unique writing ts); [lia|done|done|done|done].
Qed.

(** ** Progress *)

(** Goroutines whose next step needs no semaphore and no lock. *)
Definition awake t : bool :=
  match t.1 with
  | RAdd | RUAdd | RUWait | RURelease | WWait _ | WUAdd | WURelease _ _ => true
  | WLock => bool_decide (t.2 = lheld)
  | WUnlock => bool_decide (t.2 = lidle)
  | _ => false
  end.

Definition can_step rw ts : Prop := exists c', rwinternal (rw, ts) c'.

Lemma can_step_intro rw ts i t r : ts !! i = Some t -> rw_step t rw = Some r -> can_step rw ts.
Proof. intros Hi Hs. destruct r as [t' rw']. eexists. by eapply rw_int. Qed.

Lemma awake_step rw ts i t : ts !! i = Some t -> awake t = true -> can_step rw ts.
Proof.
  intros Hi Ha. destruct t as [p l]. unfold awake in Ha. cbn [fst snd] in Ha.
  destruct p; try done; try (eapply can_step_intro; [exact Hi|reflexivity]);
    apply bool_decide_eq_true in Ha; (eapply can_step_intro; [exact Hi|]); cbn [rw_step WLock_step WUnlock_step]; by rewrite decide_True.
Qed.

Lemma reader_step rw ts : 0 < cnt in_RSema ts -> 0 < readerSem rw -> can_step rw ts.
Proof.
  intros (i & [p l] & Hi & Hp)%cnt_exists Hs. destruct p; try done. eapply can_step_intro; [exact Hi|]. cbn. by rewrite Semacquire_pos.
Qed.

Lemma writer_step rw ts : 0 < cnt in_WSema ts -> 0 < writerSem rw -> can_step rw ts.
Proof.
  intros (i & [p l] & Hi & Hp)%cnt_exists Hs. destruct p; try done. eapply can_step_intro; [exact Hi|]. cbn. by rewrite Semacquire_pos.
Qed.

Lemma inner_step rw ts : rwinv rw ts -> 0 < cnt (fun t => lock_moves (w rw) t.2) ts -> can_step rw ts.
Proof.
  intros Hinv (i & [p l] & Hi & Hm)%cnt_exists. unfold lock_moves in Hm. cbn [snd] in Hm.
  destruct (lstep l (w rw)) as [[l' s]|] eqn:Es; [|done].
  destruct (lstep_return (w rw)) as [Hidle Hheld]. assert (l <> lidle /\ l <> lheld) as [Hni Hnh] by (split; intros ->; congruence).
  pose proof (rw_wf _ _ _ _ Hinv Hi) as Hwf.
  destruct p; cbn [consistent fst snd] in Hwf; bool_to_prop; try (match goal with H : bool_decide (l = _) = true |- _ => apply bool_decide_eq_true in H end; done);
    (eapply can_step_intro; [exact Hi|]); cbn [rw_step WLock_step WUnlock_step]; rewrite decide_False, Es by done; done.
Qed.

(** With nobody awake, reading or writing, the goroutines in the methods are in
    [rw.w], and they are not stuck there. *)
Lemma stuck_lock rw ts i p l : rwinv rw ts -> cnt awake ts <= 0 -> cnt in_RSema ts <= 0 -> cnt in_WSema ts <= 0 ->
  cnt reading ts + cnt writing ts <= 0 -> ts !! i = Some (p, l) -> p <> RIdle ->
  cnt (fun t => lock_moves (w rw) t.2) ts = 0 -> False.
Proof.
  intros Hinv Haw Hrs Hws Hrw Hi Hp Hl. destruct llocking_not as (Hli & Hlu & Hne).
  assert (Hno : forall j q, ts !! j = Some q -> awake q = false /\ in_RSema q = false /\ in_WSema q = false /\ reading q = false /\ writing q = false).
  { pose proof (cnt_nonneg reading ts). pose proof (cnt_nonneg writing ts). intros j q Hj.
    split_and!; match goal with |- ?f q = false => destruct (f q) eqn:E; [pose proof (cnt_elem f _ _ _ Hj E); lia|done] end. }
  destruct (stuck_owner (w rw) ts i p l) as (j & q & Hj); [apply Hinv|done| |done|].
  - intros ->. pose proof (rw_wf _ _ _ _ Hinv Hi) as Hwf. destruct (Hno i _ Hi) as (Ha & H1 & H2 & H3 & H4).
    destruct p; try done; cbn [consistent awake fst snd] in Hwf, Ha.
    + rewrite Hli, bool_decide_eq_false_2 in Hwf; [done|]. congruence.
    + by rewrite bool_decide_eq_true_2 in Ha.
  - pose proof (rw_wf _ _ _ _ Hinv Hj) as Hwf. destruct (Hno j _ Hj) as (Ha & H1 & H2 & H3 & H4).
    destruct q; try done; cbn [consistent awake fst snd] in Hwf, Ha; try (rewrite bool_decide_eq_false_2 in Hwf; done).
    + by rewrite bool_decide_eq_true_2 in Ha.
    + rewrite Hlu, bool_decide_eq_false_2 in Hwf; done.
Qed.

(** C34. Deadlock freedom: in every reachable configuration in which nobody holds
    the lock and some goroutine is inside one of its methods, some goroutine
    inside them can take a step, whatever the scheduling so far. *)
Theorem RWMutex_progress n c i t : Z.of_nat n < 2 ^ 29 -> rtc rwstep (rwinit n) c ->
  (forall j l, c.2 !! j <> Some (RHeld, l) /\ c.2 !! j <> Some (WHeld, l)) ->
  c.2 !! i = Some t -> t.1 <> RIdle -> exists c', rwinternal c c'.
Proof.
  intros Hn Hr Hfree Hi Ht. pose proof (rwinv_reachable n c Hn Hr) as Hinv. destruct c as [rw ts]. cbn [fst snd] in *.
  fold (can_step rw ts).
  destruct (decide (0 < cnt awake ts)) as [(j & q & Hj & Hq)%cnt_exists|Haw]; [by eapply awake_step|].
  assert (Hno : forall f : thread -> bool, (forall j q, ts !! j = Some q -> f q = true -> awake q = true \/ q.1 = RHeld \/ q.1 = WHeld) -> cnt f ts <= 0).
  { intros f Hf. destruct (decide (0 < cnt f ts)) as [(j & q & Hj & Hq)%cnt_exists|]; [|lia].
    destruct (Hf j q Hj Hq) as [Hq'|Hq']; [pose proof (cnt_elem awake _ _ _ Hj Hq'); lia|].
    destruct q as [q l]. cbn in Hq'. destruct (Hfree j l). destruct Hq' as [-> | ->]; congruence. }
  assert (cnt reading ts <= 0) by (apply Hno; intros j [[] l] _; cbn; auto; done).
  assert (cnt departing ts <= 0) by (apply Hno; intros j [[] l] _; cbn; auto; done).
  assert (cnt waking_writer ts <= 0) by (apply Hno; intros j [[] l] _; cbn; auto; done).
  assert (cnt in_WWait ts <= 0) by (apply Hno; intros j [[] l] _; cbn; auto; done).
  assert (cnt writing ts <= 0) by (apply Hno; intros j [[] l] _; cbn; auto; done).
  assert (cnt releasing_readers ts <= 0) by (apply Hno; intros j [[] l] _; cbn; auto; done).
  pose proof (rwinv_counts _ _ Hinv) as (Hph & _ & Hrs & Hws & _ & _ & _ & Hnn).
  pose proof (reader_step rw ts) as Hread. pose proof (writer_step rw ts) as Hwrite. pose proof (to_release_none ts) as Htr.
  destruct (decide (0 < cnt (fun t => lock_moves (w rw) t.2) ts)) as [Hl|Hl]; [by apply inner_step|].
  pose proof (cnt_nonneg (fun t => lock_moves (w rw) t.2) ts).
  phase_cases Hph; first [apply Hread; lia | apply Hwrite; lia | exfalso; lia | idtac].
  destruct (decide (0 < cnt in_RSema ts)); [apply Hread; lia|]. exfalso. destruct t as [p l].
  apply (stuck_lock rw ts i p l); [done|lia|lia|lia|lia|done|done|lia].
Qed.

End Inv.

(** The theorems hold for RWMutex over Mutex; a writer and a reader. *)
Definition reader_then_writer : rwconfig Mutex_Lock :=
  (MkRWMutex (MkMutex 1 0) 0 0 (- 2 ^ 30) 0, [(WHeld, MHeld); (RIdle, MIdle)]).

Lemma reader_then_writer_reachable : rtc rwstep (rwinit 2) reader_then_writer.
Proof.
  eapply rtc_l; [exact (rw_Lock (MkRWMutex (MkMutex 0 0) 0 0 0 0) [(RIdle, MIdle); (RIdle, MIdle)] 0 eq_refl)|]. cbn [insert list_insert].
  eapply rtc_l; [apply rw_internal; eapply (rw_int _ _ 0); reflexivity|]. cbn [insert list_insert].
  eapply rtc_l; [apply rw_internal; eapply (rw_int _ _ 0); reflexivity|]. apply rtc_refl.
Qed.

Lemma RWMutex_exclusion_witness : reader_then_writer.2 !! 0%nat = Some (WHeld, MHeld) /\ (forall j l', reader_then_writer.2 !! j <> Some (RHeld, l')).
Proof. split; [done|]. apply (RWMutex_exclusion 2 reader_then_writer 0 MHeld); [lia|apply reader_then_writer_reachable|done]. Defined.

(** A writer that has called Lock. *)
Definition writer_entering : rwconfig Mutex_Lock := (MkRWMutex (MkMutex 0 0) 0 0 0 0, [(WLock, LFast); (RIdle, MIdle)]).

Lemma RWMutex_progress_witness : exists c', rwinternal writer_entering c'.
Proof.
  apply (RWMutex_progress 2 writer_entering 0 (WLock, LFast)); [lia| |by intros [|[|[]]] l|done|done].
  apply rtc_once. exact (rw_Lock (MkRWMutex (MkMutex 0 0) 0 0 0 0) [(RIdle, MIdle); (RIdle, MIdle)] 0 eq_refl).
Defined.
