(* ===== verification/SyncOnce.v ===== *)
(** sync.Once (src/go/src/pkg/sync/once.go), over any lock that keeps the
    contract of SyncMutex.

    The function [f] passed to Do belongs to the client: a call of it either
    returns or panics, when it likes.  A history counts its calls, returns and
    panics. *)

From stdpp Require Import relations.
From S2P Require Import Prelude Threads SyncMutex.

(** * Code *)

Section Code.
Context {L : Lock}.

Record Once := MkOnce { om : lstate; odone : Z }.

(** What happened to [f]. *)
Record history := MkHistory { calls : Z; returned : Z; panics : Z }.

Inductive opc :=
  | OIdle
  | OLoad                     (* LoadUint32(&o.done) *)
  | OLock                     (* in o.m.Lock(), then the test of o.done *)
  | ORun                      (* in f() *)
  | OCas                      (* CompareAndSwapUint32(&o.done, 0, 1) *)
  | OUnlock                   (* in the deferred o.m.Unlock() *)
  | OUnlockPanic              (* in it, while f's panic unwinds *)
  | OReturned                 (* Do returned *)
  | OPanicked.                (* f's panic left Do *)

Abbreviation othread := (opc * lpc)%type (only parsing).

Definition set_om s o := MkOnce s (odone o).

Definition Do_step (t : othread) (o : Once) (h : history) : option (othread * Once * history) :=
  let '(p, l) := t in
  match p with
  | OLoad => if odone o =? 1 then Some ((OReturned, l), o, h) else Some ((OLock, lenter), o, h)
  | OLock =>
      if decide (l = lheld) then
        if odone o =? 0 then Some ((ORun, l), o, MkHistory (calls h + 1) (returned h) (panics h))
        else Some ((OUnlock, lleave), o, h)
      else '(l', s) ← lstep l (om o); Some ((OLock, l'), set_om s o, h)
  | OCas => Some ((OUnlock, lleave), if odone o =? 0 then MkOnce (om o) 1 else o, h)
  | OUnlock =>
      if decide (l = lidle) then Some ((OReturned, l), o, h)
      else '(l', s) ← lstep l (om o); Some ((OUnlock, l'), set_om s o, h)
  | OUnlockPanic =>
      if decide (l = lidle) then Some ((OPanicked, l), o, h)
      else '(l', s) ← lstep l (om o); Some ((OUnlockPanic, l'), set_om s o, h)
  | OIdle | ORun | OReturned | OPanicked => None
  end.

Record oconfig := MkOConfig { once : Once; othreads : list othread; hist : history }.

Inductive ointernal : oconfig -> oconfig -> Prop :=
  | o_int o ts h i t t' o' h' : ts !! i = Some t -> Do_step t o h = Some (t', o', h') ->
      ointernal (MkOConfig o ts h) (MkOConfig o' (<[i:=t']> ts) h').

(** Clients call Do; [f] returns, or panics, which runs the deferred Unlock. *)
Inductive ostep : oconfig -> oconfig -> Prop :=
  | o_internal c c' : ointernal c c' -> ostep c c'
  | o_Do o ts h i l : ts !! i = Some (OIdle, l) -> ostep (MkOConfig o ts h) (MkOConfig o (<[i:=(OLoad, l)]> ts) h)
  | o_return o ts h i l : ts !! i = Some (ORun, l) ->
      ostep (MkOConfig o ts h) (MkOConfig o (<[i:=(OCas, l)]> ts) (MkHistory (calls h) (returned h + 1) (panics h)))
  | o_panic o ts h i l : ts !! i = Some (ORun, l) ->
      ostep (MkOConfig o ts h) (MkOConfig o (<[i:=(OUnlockPanic, lleave)]> ts) (MkHistory (calls h) (returned h) (panics h + 1))).

Definition oinit (n : nat) : oconfig := MkOConfig (MkOnce lnew 0) (replicate n (OIdle, lidle)) (MkHistory 0 0 0).
End Code.
Arguments Once L : clear implicits.
Arguments oconfig L : clear implicits.
Abbreviation othread := (opc * lpc)%type (only parsing).

(** * Invariant *)

Section Inv.
Context {L : Lock} {HL : LockLaws L}.
Implicit Types (o : Once L) (h : history) (t : othread) (ts : list othread) (c : oconfig L).

Definition running t : bool := match t.1 with ORun => true | _ => false end.
Definition in_OCas t : bool := match t.1 with OCas => true | _ => false end.
(** Normal completion of Do. *)
Definition finishing t : bool := match t.1 with OUnlock | OReturned => true | _ => false end.
Definition protected t : bool :=
  match t.1 with ORun | OCas => true | OLock => bool_decide (t.2 = lheld) | _ => false end.

Definition oconsistent t : bool :=
  match t.1 with
  | OIdle | OLoad | OReturned | OPanicked => bool_decide (t.2 = lidle)
  | OLock => llocking t.2 || bool_decide (t.2 = lheld)
  | ORun | OCas => bool_decide (t.2 = lheld)
  | OUnlock | OUnlockPanic => lunlocking t.2 || bool_decide (t.2 = lidle)
  end.
Definition oinconsistent t : bool := negb (oconsistent t).

(** [f] has returned exactly when [done] is set or about to be; it runs only
    before that; and Do completes only after it. *)
Definition ostatus o ts h : Prop :=
  (odone o = 0 \/ odone o = 1) /\ returned h = odone o + cnt in_OCas ts /\
  calls h = returned h + panics h + cnt running ts /\ 0 <= panics h /\
  (0 < cnt running ts + cnt in_OCas ts -> odone o = 0) /\ (0 < cnt finishing ts -> odone o = 1).

Record oinv c : Prop := {
  o_lock : linv (om (once c)) (snd <$> othreads c);
  o_consistent : cnt oinconsistent (othreads c) = 0;
  o_status : ostatus (once c) (othreads c) (hist c);
}.

Lemma o_wf c i t : oinv c -> othreads c !! i = Some t -> oconsistent t = true.
Proof.
  intros Hinv Hi. destruct (oconsistent t) eqn:E; [done|]. pose proof (cnt_elem oinconsistent _ i t Hi) as Hc. unfold oinconsistent in Hc at 1.
  rewrite E in Hc. specialize (Hc eq_refl). rewrite (o_consistent _ Hinv) in Hc. lia.
Qed.

Lemma protected_split ts : cnt running ts + cnt in_OCas ts <= cnt protected ts.
Proof.
  induction ts as [|[p l] ts IH]; cbn [cnt]; [lia|]. unfold running, in_OCas, protected in *. cbn [fst snd].
  destruct p; cbn [Z.b2z]; try lia; case_bool_decide; cbn [Z.b2z]; lia.
Qed.

Lemma oinv_counts c : oinv c ->
  cnt running (othreads c) + cnt in_OCas (othreads c) <= cnt protected (othreads c) <= 1 /\
  0 <= cnt running (othreads c) /\ 0 <= cnt in_OCas (othreads c) /\ 0 <= cnt finishing (othreads c).
Proof.
  intros Hinv. split_and!; try apply cnt_nonneg; [apply protected_split|]. apply (protected_one (om (once c))); [apply Hinv|].
  intros i [p l] Hi Hp. pose proof (o_wf _ _ _ Hinv Hi) as Hc.
  destruct p; try done; cbn [protected oconsistent fst snd] in *;
    first [by apply bool_decide_eq_true in Hp | by apply bool_decide_eq_true in Hc].
Qed.

(** ** Preservation *)

Lemma oinv_move o ts h i p l p' l' o' h' : oinv (MkOConfig o ts h) -> ts !! i = Some (p, l) ->
  linv (om o') (<[i:=l']> (snd <$> ts)) -> oconsistent (p', l') = true -> ostatus o' (<[i:=(p', l')]> ts) h' ->
  oinv (MkOConfig o' (<[i:=(p', l')]> ts) h').
Proof.
  intros Hinv Hi Hl Hc Hst. constructor; cbn [once othreads hist]; [by rewrite list_fmap_insert| |done].
  rewrite (cnt_insert oinconsistent _ _ _ _ Hi). pose proof (o_consistent _ Hinv) as E. cbn in E. rewrite E. unfold oinconsistent.
  rewrite Hc. pose proof (o_wf _ i _ Hinv Hi) as ->. done.
Qed.

Ltac ocount Hi :=
  unfold ostatus; rewrite ?(cnt_insert _ _ _ _ _ Hi);
  cbn [running in_OCas finishing fst snd Z.b2z calls returned panics odone om set_om].

(** A step of [o.m] only. *)
Lemma oinv_inner o ts h i p l l' s : oinv (MkOConfig o ts h) -> ts !! i = Some (p, l) -> lstep l (om o) = Some (l', s) ->
  oconsistent (p, l') = true -> oinv (MkOConfig (set_om s o) (<[i:=(p, l')]> ts) h).
Proof.
  intros Hinv Hi Hs Hc. pose proof (o_status _ Hinv) as Hst. cbn [once othreads hist] in Hst.
  eapply oinv_move; [done|done|eapply linv_step; [apply Hinv|by eapply lookup_snd|done]|done|].
  unfold ostatus in *. rewrite !(cnt_insert _ _ _ _ _ Hi). change (running (p, l')) with (running (p, l)).
  change (in_OCas (p, l')) with (in_OCas (p, l)). change (finishing (p, l')) with (finishing (p, l)).
  rewrite !Z.sub_add. exact Hst.
Qed.

Lemma oinv_lock_inner o ts h i l l' s : oinv (MkOConfig o ts h) -> ts !! i = Some (OLock, l) -> l <> lheld ->
  lstep l (om o) = Some (l', s) -> oinv (MkOConfig (set_om s o) (<[i:=(OLock, l')]> ts) h).
Proof.
  intros Hinv Hi Hne Hs. eapply oinv_inner; [done|done|done|]. pose proof (o_wf _ i _ Hinv Hi) as Hwf. cbn [oconsistent fst snd] in *.
  rewrite bool_decide_eq_false_2, orb_false_r in Hwf by done.
  destruct (llocking_step _ _ _ _ _ _ (o_lock _ Hinv) (lookup_snd _ _ _ _ Hi) Hs Hwf) as [->| ->]; [done|].
  rewrite bool_decide_eq_true_2 by done. apply orb_true_r.
Qed.

Lemma oinv_unlock_inner o ts h i p l l' s : p = OUnlock \/ p = OUnlockPanic -> oinv (MkOConfig o ts h) -> ts !! i = Some (p, l) -> l <> lidle ->
  lstep l (om o) = Some (l', s) -> oinv (MkOConfig (set_om s o) (<[i:=(p, l')]> ts) h).
Proof.
  intros Hp Hinv Hi Hne Hs. eapply oinv_inner; [done|done|done|]. pose proof (o_wf _ i _ Hinv Hi) as Hwf.
  assert (forall l, oconsistent (p, l) = lunlocking l || bool_decide (l = lidle)) as E by (by destruct Hp as [-> | ->]). rewrite E in *.
  rewrite bool_decide_eq_false_2, orb_false_r in Hwf by done.
  destruct (lunlocking_step _ _ _ _ _ _ (o_lock _ Hinv) (lookup_snd _ _ _ _ Hi) Hs Hwf) as [->| ->]; [done|].
  rewrite bool_decide_eq_true_2 by done. apply orb_true_r.
Qed.

(** The lock as the next step leaves it. *)
Lemma linv_stay s (ts : list othread) i p l : linv s (snd <$> ts) -> ts !! i = Some (p, l) -> linv s (<[i:=l]> (snd <$> ts)).
Proof. intros Hinv Hi. rewrite list_insert_id; [done|by eapply lookup_snd]. Qed.

Lemma linv_goes s (ts : list othread) i p : linv s (snd <$> ts) -> ts !! i = Some (p, lheld) -> linv s (<[i:=lleave]> (snd <$> ts)).
Proof. intros Hinv Hi. apply linv_leave; [done|by eapply lookup_snd]. Qed.

Lemma oinv_internal c c' : oinv c -> ointernal c c' -> oinv c'.
Proof.
  intros Hinv Hstep. destruct Hstep as [o ts h i [p l] t' o' h' Hi Hs].
  pose proof (o_lock _ Hinv) as Hlk. pose proof (o_wf _ i _ Hinv Hi) as Hwf. pose proof (oinv_counts _ Hinv) as (Hone & Hnn).
  pose proof (o_status _ Hinv) as Hst. cbn [once othreads hist] in *. unfold ostatus in Hst.
  pose proof (linv_stay _ _ _ _ _ Hlk Hi) as Hstay.
  assert (Hun : oconsistent (OUnlock, lleave) = true) by (cbn; by rewrite lunlocking_leave).
  destruct p; try discriminate Hs; cbn [Do_step oconsistent fst snd] in Hs, Hwf.
  - apply bool_decide_eq_true in Hwf. subst l. destruct (Z.eqb_spec (odone o) 1); injection Hs as <- <- <-; (eapply oinv_move; [done|done|..]).
    + done.
    + cbn. by rewrite bool_decide_eq_true_2.
    + ocount Hi. lia.
    + apply linv_enter; [done|by eapply lookup_snd].
    + cbn. by rewrite llocking_enter.
    + ocount Hi. lia.
  - destruct (decide (l = lheld)) as [->|Hne].
    + pose proof (cnt_elem protected _ _ _ Hi) as Hp. cbn [protected fst snd] in Hp. rewrite bool_decide_eq_true_2 in Hp by done. specialize (Hp eq_refl).
      pose proof (protected_split (<[i:=(OIdle, lheld)]> ts)) as Hsp. rewrite !(cnt_insert _ _ _ _ _ Hi) in Hsp.
      cbn [running in_OCas protected fst snd Z.b2z] in Hsp. rewrite bool_decide_eq_true_2 in Hsp by done. cbn [Z.b2z] in Hsp.
      destruct (Z.eqb_spec (odone o) 0); injection Hs as <- <- <-; (eapply oinv_move; [done|done|..]).
      * done.
      * cbn. by rewrite bool_decide_eq_true_2.
      * ocount Hi. lia.
      * by eapply linv_goes.
      * done.
      * ocount Hi. lia.
    + destruct (lstep l (om o)) as [[l' s]|] eqn:Es; [|done]. injection Hs as <- <- <-. by eapply oinv_lock_inner.
  - apply bool_decide_eq_true in Hwf. subst l. pose proof (cnt_elem in_OCas _ _ _ Hi eq_refl).
    assert (odone o = 0) as E by lia. rewrite E in Hs. injection Hs as <- <- <-.
    eapply oinv_move; [done|done|by eapply linv_goes|done|]. ocount Hi. lia.
  - destruct (decide (l = lidle)) as [->|Hne].
    + injection Hs as <- <- <-. eapply oinv_move; [done|done|done|cbn; by rewrite bool_decide_eq_true_2|]. ocount Hi. lia.
    + destruct (lstep l (om o)) as [[l' s]|] eqn:Es; [|done]. injection Hs as <- <- <-. eapply oinv_unlock_inner; [by left|done..].
  - destruct (decide (l = lidle)) as [->|Hne].
    + injection Hs as <- <- <-. eapply oinv_move; [done|done|done|cbn; by rewrite bool_decide_eq_true_2|]. ocount Hi. lia.
    + destruct (lstep l (om o)) as [[l' s]|] eqn:Es; [|done]. injection Hs as <- <- <-. eapply oinv_unlock_inner; [by right|done..].
Qed.

Lemma oinv_ostep c c' : oinv c -> ostep c c' -> oinv c'.
Proof.
  intros Hinv Hstep. destruct Hstep as [c1 c2 Hint|o ts h i l Hi|o ts h i l Hi|o ts h i l Hi]; [by eapply oinv_internal|..];
    pose proof (o_lock _ Hinv) as Hlk; pose proof (o_wf _ i _ Hinv Hi) as Hwf; pose proof (o_status _ Hinv) as Hst;
    pose proof (oinv_counts _ Hinv) as (Hone & Hnn); cbn [once othreads hist] in *; unfold ostatus in Hst;
    pose proof (linv_stay _ _ _ _ _ Hlk Hi) as Hstay.
  - eapply oinv_move; [done|done|done|done|]. ocount Hi. lia.
  - pose proof (cnt_elem running _ _ _ Hi eq_refl). eapply oinv_move; [done|done|done|done|]. ocount Hi. lia.
  - pose proof (cnt_elem running _ _ _ Hi eq_refl). cbn in Hwf. apply bool_decide_eq_true in Hwf. subst l.
    eapply oinv_move; [done|done|by eapply linv_goes|cbn; by rewrite lunlocking_leave|]. ocount Hi. lia.
Qed.

Lemma oinv_init n : Z.of_nat n < 2 ^ 29 -> oinv (oinit n).
Proof.
  intros Hn. constructor; cbn [oinit once othreads hist om].
  - rewrite fmap_replicate. by apply linv_new.
  - apply cnt_replicate. unfold oinconsistent. cbn. by rewrite bool_decide_eq_true_2.
  - unfold ostatus. rewrite !cnt_replicate by done. cbn. lia.
Qed.

Lemma oinv_reachable n c : Z.of_nat n < 2 ^ 29 -> rtc ostep (oinit n) c -> oinv c.
Proof. intros Hn. apply (rtc_invariant oinv oinv_ostep). by apply oinv_init. Qed.

(** Once [done] is set, the history is final. *)
Lemma done_final c c' : oinv c -> odone (once c) = 1 -> ostep c c' -> odone (once c') = 1 /\ hist c' = hist c.
Proof.
  intros Hinv Hd Hstep. pose proof (o_status _ Hinv) as (_ & _ & _ & _ & Hrun & _). pose proof (oinv_counts _ Hinv) as (_ & Hr0 & Hc0 & _).
  destruct Hstep as [c1 c2 [o ts h i [p l] t' o' h' Hi Hs]|o ts h i l Hi|o ts h i l Hi|o ts h i l Hi]; cbn [once othreads hist] in *;
    [|done|pose proof (cnt_elem running _ _ _ Hi eq_refl); lia..].
  destruct p; try discriminate Hs; cbn [Do_step] in Hs; rewrite ?Hd in Hs; cbn [Z.eqb] in Hs;
    repeat match type of Hs with
    | (if decide ?P then _ else _) = _ => destruct (decide P)
    | (lstep ?l ?s ≫= _) = _ => destruct (lstep l s) as [[]|]; [|done]
    end; try (injection Hs as <- <- <-; done); done.
Qed.

Lemma done_forever c c' : oinv c -> odone (once c) = 1 -> rtc ostep c c' -> oinv c' /\ odone (once c') = 1 /\ hist c' = hist c.
Proof.
  intros Hinv Hd Hr. induction Hr as [|c1 c2 c3 H12 _ IH]; [done|]. destruct (done_final _ _ Hinv Hd H12) as [Hd' Hh'].
  destruct IH as (? & ? & ?); [by eapply oinv_ostep|done|]. split_and!; [done|done|]. congruence.
Qed.

(** C35. Once runs its function once: in every interleaving of calls of Do, at most
    one call of the function is running or has returned; it is called again only
    after its earlier calls panicked (so at most once if it never panics); and
    when some Do has returned normally, the function has returned, and is not
    called again. *)
Theorem Once_exactly_once n c : Z.of_nat n < 2 ^ 29 -> rtc ostep (oinit n) c ->
  cnt running (othreads c) + returned (hist c) <= 1 /\ calls (hist c) <= panics (hist c) + 1 /\
  (forall i l c', othreads c !! i = Some (OReturned, l) -> rtc ostep c c' ->
     returned (hist c) = 1 /\ cnt running (othreads c') = 0 /\ hist c' = hist c).
Proof.
  intros Hn Hr. pose proof (oinv_reachable n c Hn Hr) as Hinv. pose proof (o_status _ Hinv) as (H01 & Hret & Hcalls & Hpan & Hrun & Hfin).
  pose proof (oinv_counts _ Hinv) as (Hone & Hr0 & Hc0 & Hf0). split; [lia|]. split; [lia|]. intros i l c' Hi Hc.
  pose proof (cnt_elem finishing _ _ _ Hi eq_refl). destruct (done_forever c c' Hinv) as (Hinv' & Hd' & Hh'); [lia|done|].
  pose proof (o_status _ Hinv') as (_ & _ & _ & _ & Hrun' & _). pose proof (oinv_counts _ Hinv') as (_ & ? & ? & _). split_and!; [lia|lia|done].
Qed.
End Inv.

(** A single call over Mutex: its function returns. *)
Definition once_called : oconfig Mutex_Lock :=
  MkOConfig (MkOnce (MkMutex 0 0) 1) [(OReturned, MIdle)] (MkHistory 1 1 0).

Lemma once_called_reachable : rtc ostep (oinit 1) once_called.
Proof.
  assert (Hint : forall c c' : oconfig Mutex_Lock, ointernal c c' -> rtc ostep c' once_called -> rtc ostep c once_called)
    by (intros c c' H; eapply rtc_l; by apply o_internal).
  eapply rtc_l; [exact (o_Do (MkOnce (MkMutex 0 0) 0) [(OIdle, MIdle)] _ 0 MIdle eq_refl)|]. cbn [insert list_insert].
  do 3 (eapply Hint; [eapply (o_int _ _ _ 0); reflexivity|]; cbn [insert list_insert]).
  eapply rtc_l; [eapply (o_return (L := Mutex_Lock) _ _ _ 0); reflexivity|]. cbn [insert list_insert].
  do 3 (eapply Hint; [eapply (o_int _ _ _ 0); reflexivity|]; cbn [insert list_insert]).
  apply rtc_refl.
Qed.

Lemma Once_exactly_once_witness : returned (hist once_called) = 1 /\ cnt running (othreads once_called) = 0.
Proof.
  destruct (Once_exactly_once 1 once_called) as (_ & _ & H); [lia|apply once_called_reachable|].
  destruct (H 0%nat MIdle once_called eq_refl (rtc_refl _ _)) as (? & ? & _). done.
Defined.
