(* ===== verification/SyncWaitGroup.v ===== *)
(** sync.WaitGroup (src/go/src/pkg/sync/waitgroup.go), over any lock that keeps
    the contract of SyncMutex.

    The semaphores that Wait allocates are the entries of a list, a pointer to
    one is its index.  A goroutine carries, besides its program points in the
    methods and in the lock, the units it still has to give back with Done: the
    clients that the theorems are about add units only while they have some, and
    give back no more than they have. *)

From stdpp Require Import relations.
From S2P Require Import Prelude Threads SyncMutex.

(** * Code *)

Section Code.
Context {L : Lock}.

Record WaitGroup := MkWaitGroup { gm : lstate; counter : Z; waiters : Z; gsema : option nat; semas : list Z }.

Inductive gpc :=
  | GIdle
  | GAdd (delta : Z)          (* Add: AddInt32(&wg.counter, delta) *)
  | GLoad                     (* LoadInt32(&wg.waiters) *)
  | GLock                     (* in wg.m.Lock(), then the loop *)
  | GRelease (i : Z)          (* the loop of Semrelease(wg.sema) *)
  | GClear                    (* wg.waiters = 0; wg.sema = nil *)
  | GUnlock                   (* in wg.m.Unlock() *)
  | GPanic                    (* negative WaitGroup count *)
  | WLoad                     (* Wait: LoadInt32(&wg.counter) *)
  | WLock                     (* in wg.m.Lock(), then AddInt32(&wg.waiters, 1) *)
  | WCheck                    (* the second LoadInt32(&wg.counter) *)
  | WUndo                     (* AddInt32(&wg.waiters, -1) *)
  | WSemaNew                  (* s := wg.sema, after new(uint32) if it is nil *)
  | WUnlock (s : option nat)  (* in wg.m.Unlock(), then Semacquire(s) or return *)
  | WSema (s : nat)           (* Semacquire(s) *)
  | WReturned.                (* Wait returned *)

Abbreviation gthread := (gpc * lpc)%type (only parsing).

Definition set_gm s wg := MkWaitGroup s (counter wg) (waiters wg) (gsema wg) (semas wg).
Definition set_counter x wg := MkWaitGroup (gm wg) x (waiters wg) (gsema wg) (semas wg).
Definition set_waiters x wg := MkWaitGroup (gm wg) (counter wg) x (gsema wg) (semas wg).
Definition set_semas x wg := MkWaitGroup (gm wg) (counter wg) (waiters wg) (gsema wg) x.

(** The head of Add's loop. *)
Definition release_waiters (i : Z) (wg : WaitGroup) : gpc := if i <? waiters wg then GRelease i else GClear.

Definition Add_step (p : gpc) (l : lpc) (wg : WaitGroup) : option (gthread * WaitGroup) :=
  match p with
  | GAdd delta =>
      let v := AddInt32 (counter wg) delta in
      Some ((if v <? 0 then GPanic else if 0 <? v then GIdle else GLoad, l), set_counter v wg)
  | GLoad => if waiters wg =? 0 then Some ((GIdle, l), wg) else Some ((GLock, lenter), wg)
  | GLock =>
      if decide (l = lheld) then Some ((release_waiters 0 wg, l), wg)
      else '(l', s) ← lstep l (gm wg); Some ((GLock, l'), set_gm s wg)
  | GRelease i =>
      k ← gsema wg; v ← semas wg !! k;
      Some ((release_waiters (i + 1) wg, l), set_semas (<[k:=Semrelease v]> (semas wg)) wg)
  | GClear => Some ((GUnlock, lleave), MkWaitGroup (gm wg) (counter wg) 0 None (semas wg))
  | GUnlock =>
      if decide (l = lidle) then Some ((GIdle, l), wg)
      else '(l', s) ← lstep l (gm wg); Some ((GUnlock, l'), set_gm s wg)
  | _ => None
  end.

Definition Wait_step (p : gpc) (l : lpc) (wg : WaitGroup) : option (gthread * WaitGroup) :=
  match p with
  | WLoad => if counter wg =? 0 then Some ((WReturned, l), wg) else Some ((WLock, lenter), wg)
  | WLock =>
      if decide (l = lheld) then Some ((WCheck, l), set_waiters (AddInt32 (waiters wg) 1) wg)
      else '(l', s) ← lstep l (gm wg); Some ((WLock, l'), set_gm s wg)
  | WCheck => Some ((if counter wg =? 0 then WUndo else WSemaNew, l), wg)
  | WUndo => Some ((WUnlock None, lleave), set_waiters (AddInt32 (waiters wg) (-1)) wg)
  | WSemaNew =>
      match gsema wg with
      | Some k => Some ((WUnlock (Some k), lleave), wg)
      | None =>
          let k := length (semas wg) in
          Some ((WUnlock (Some k), lleave), MkWaitGroup (gm wg) (counter wg) (waiters wg) (Some k) (semas wg ++ [0]))
      end
  | WUnlock s =>
      if decide (l = lidle) then Some ((match s with Some k => WSema k | None => WReturned end, l), wg)
      else '(l', m) ← lstep l (gm wg); Some ((WUnlock s, l'), set_gm m wg)
  | WSema k =>
      v ← semas wg !! k; v' ← Semacquire v;
      Some ((WReturned, l), set_semas (<[k:=v']> (semas wg)) wg)
  | _ => None
  end.

Definition wg_step (t : gthread) (wg : WaitGroup) : option (gthread * WaitGroup) :=
  match Add_step t.1 t.2 wg with Some r => Some r | None => Wait_step t.1 t.2 wg end.

(** ** Configurations *)

(** The goroutines, and the units each of them has to give back. *)
Record gconfig := MkGConfig { wgroup : WaitGroup; gthreads : list gthread; units : list Z }.

(** The units that a step gives to the goroutine: those of a positive Add. *)
Definition granted (p : gpc) : Z := match p with GAdd delta => Z.max delta 0 | _ => 0 end.

Inductive ginternal : gconfig -> gconfig -> Prop :=
  | g_int wg ts us i t t' wg' u : ts !! i = Some t -> us !! i = Some u -> wg_step t wg = Some (t', wg') ->
      ginternal (MkGConfig wg ts us) (MkGConfig wg' (<[i:=t']> ts) (<[i:=u + granted t.1]> us)).

(** The units the counter stands for, those of an Add under way included. *)
Definition in_Add (t : gthread) : Z := match t.1 with GAdd delta => Z.abs delta | _ => 0 end.

(** Clients: Add with a positive delta by a goroutine that has units, Add with a
    negative one by a goroutine that has as many, Wait, and a unit handed over
    to another goroutine. *)
Inductive gstep : gconfig -> gconfig -> Prop :=
  | g_internal c c' : ginternal c c' -> gstep c c'
  | g_Add wg ts us i l u delta : ts !! i = Some (GIdle, l) -> us !! i = Some u -> 0 < delta -> 0 < u ->
      tot id us + tot in_Add ts + delta < 2 ^ 31 ->
      gstep (MkGConfig wg ts us) (MkGConfig wg (<[i:=(GAdd delta, l)]> ts) us)
  | g_Done wg ts us i l u delta : ts !! i = Some (GIdle, l) -> us !! i = Some u -> 0 < delta <= u ->
      gstep (MkGConfig wg ts us) (MkGConfig wg (<[i:=(GAdd (- delta), l)]> ts) (<[i:=u - delta]> us))
  | g_give wg ts us i j u v : us !! i = Some u -> us !! j = Some v -> i <> j -> 0 < u -> (forall d l, ts !! i <> Some (GAdd d, l)) ->
      gstep (MkGConfig wg ts us) (MkGConfig wg ts (<[j:=v + 1]> (<[i:=u - 1]> us)))
  | g_Wait wg ts us i l : ts !! i = Some (GIdle, l) -> gstep (MkGConfig wg ts us) (MkGConfig wg (<[i:=(WLoad, l)]> ts) us)
  | g_again wg ts us i l : ts !! i = Some (WReturned, l) -> gstep (MkGConfig wg ts us) (MkGConfig wg (<[i:=(GIdle, l)]> ts) us).

(** [n] goroutines, the first of which has called Add(k) on a zero WaitGroup. *)
Definition ginit (n : nat) (k : Z) : gconfig :=
  MkGConfig (MkWaitGroup lnew k 0 None []) (replicate (S n) (GIdle, lidle)) (k :: replicate n 0).
End Code.
Arguments WaitGroup L : clear implicits.
Arguments gconfig L : clear implicits.
Abbreviation gthread := (gpc * lpc)%type (only parsing).

(** * Invariant *)

Section Inv.
Context {L : Lock} {HL : LockLaws L}.
Implicit Types (wg : WaitGroup L) (t : gthread) (ts : list gthread) (us : list Z) (c : gconfig L).

(** Where a goroutine has seen the counter at zero. *)
Definition evidence t : bool :=
  match t.1 with GLoad | GLock | GRelease _ | GClear | GUnlock | WUndo | WUnlock None | WReturned => true | _ => false end.
(** In Wait, counted in [waiters], before [s] is read. *)
Definition registering t : bool := match t.1 with WCheck | WUndo | WSemaNew => true | _ => false end.
Definition in_WSemaNew t : bool := match t.1 with WSemaNew => true | _ => false end.
(** On the way to Semacquire(k), or in it. *)
Definition sleeps (k : nat) t : bool := match t.1 with WUnlock (Some j) | WSema j => (j =? k)%nat | _ => false end.
(** In Add, on the way to release the waiters. *)
Definition helper t : bool := match t.1 with GLoad | GLock | GRelease _ | GClear => true | _ => false end.
Definition releasing_waiters t : bool := match t.1 with GRelease _ | GClear => true | _ => false end.
(** How many of [w] waiters the loop has released. *)
Definition progress (w : Z) t : Z := match t.1 with GRelease i => i | GClear => w | _ => 0 end.
Definition surrendered t : Z := match t.1 with GAdd delta => Z.max (- delta) 0 | _ => 0 end.
Definition in_GPanic t : bool := match t.1 with GPanic => true | _ => false end.

Definition gconsistent t : bool :=
  match t.1 with
  | GIdle | GAdd _ | GLoad | GPanic | WLoad | WSema _ | WReturned => bool_decide (t.2 = lidle)
  | GLock | WLock => llocking t.2 || bool_decide (t.2 = lheld)
  | GRelease _ | GClear | WCheck | WUndo | WSemaNew => bool_decide (t.2 = lheld)
  | GUnlock | WUnlock _ => lunlocking t.2 || bool_decide (t.2 = lidle)
  end.
Definition ginconsistent t : bool := negb (gconsistent t).

Definition gprotected t : bool :=
  match t.1 with
  | GLock | WLock => bool_decide (t.2 = lheld)
  | GRelease _ | GClear | WCheck | WUndo | WSemaNew => true
  | _ => false
  end.

Definition sem wg (k : nat) : Z := default 0 (semas wg !! k).

(** The waiters of the current semaphore that have not been released. *)
Definition pending wg ts : Z := waiters wg - tot (progress (waiters wg)) ts - cnt registering ts.

Record gstatus wg ts : Prop := {
  gs_zero : 0 < cnt evidence ts -> counter wg = 0;
  gs_sem k : 0 <= sem wg k /\ (0 < sem wg k -> counter wg = 0);
  gs_sleeps k : cnt (sleeps k) ts = sem wg k + (if bool_decide (gsema wg = Some k) then pending wg ts else 0);
  gs_current : match gsema wg with Some k => (k < length (semas wg))%nat | None => pending wg ts = 0 end;
  gs_pending : 0 <= pending wg ts;
  gs_loop i j l : ts !! i = Some (GRelease j, l) -> 0 <= j < waiters wg;
  gs_wake : counter wg = 0 -> 0 < pending wg ts + cnt in_WSemaNew ts -> 0 < cnt helper ts;
  gs_panic : cnt in_GPanic ts = 0;
}.

(** The units account for the counter. *)
Record gunits wg ts us : Prop := {
  gu_len : length us = length ts;
  gu_nonneg i u : us !! i = Some u -> 0 <= u;
  gu_small : tot id us + tot in_Add ts < 2 ^ 31;
  gu_counter : counter wg = tot id us + tot surrendered ts;
  gu_pos i d l : ts !! i = Some (GAdd d, l) -> 0 < d -> exists u, us !! i = Some u /\ 0 < u;
}.

Record ginv c : Prop := {
  gi_lock : linv (gm (wgroup c)) (snd <$> gthreads c);
  gi_consistent : cnt ginconsistent (gthreads c) = 0;
  gi_small : zlen (gthreads c) < 2 ^ 29;
  gi_units : gunits (wgroup c) (gthreads c) (units c);
  gi_status : gstatus (wgroup c) (gthreads c);
}.

Lemma g_wf c i t : ginv c -> gthreads c !! i = Some t -> gconsistent t = true.
Proof.
  intros Hinv Hi. destruct (gconsistent t) eqn:E; [done|]. pose proof (cnt_elem ginconsistent _ i t Hi) as Hc. unfold ginconsistent in Hc at 1.
  rewrite E in Hc. specialize (Hc eq_refl). rewrite (gi_consistent _ Hinv) in Hc. lia.
Qed.

Lemma gprotected_one c : ginv c -> cnt gprotected (gthreads c) <= 1.
Proof.
  intros Hinv. apply (protected_one (gm (wgroup c))); [apply Hinv|]. intros i [p l] Hi Hp. pose proof (g_wf _ _ _ Hinv Hi) as Hc.
  destruct p; try done; cbn [gprotected gconsistent fst snd] in *;
    first [by apply bool_decide_eq_true in Hp | by apply bool_decide_eq_true in Hc].
Qed.

Lemma gprotected_split ts : cnt registering ts + cnt releasing_waiters ts <= cnt gprotected ts.
Proof.
  induction ts as [|[p l] ts IH]; cbn [cnt]; [lia|]. unfold registering, releasing_waiters, gprotected in *. cbn [fst snd].
  destruct p; cbn [Z.b2z]; try lia; case_bool_decide; cbn [Z.b2z]; lia.
Qed.

Lemma progress_none w ts : cnt releasing_waiters ts = 0 -> tot (progress w) ts = 0.
Proof. apply tot_none. by intros [[] l]. Qed.

(** The goroutine [i] at a protected point: nobody else is at one. *)
Lemma alone c i t : ginv c -> gthreads c !! i = Some t -> gprotected t = true ->
  cnt registering (gthreads c) = Z.b2z (registering t) /\ cnt releasing_waiters (gthreads c) = Z.b2z (releasing_waiters t) /\
  forall w, tot (progress w) (gthreads c) = progress w t.
Proof.
  intros Hinv Hi Hp. pose proof (gprotected_one c Hinv) as H1. set (ts := gthreads c) in *.
  pose proof (gprotected_split (<[i:=(GIdle, lidle)]> ts)) as Hs. rewrite !(cnt_insert _ _ _ _ _ Hi), Hp in Hs. cbn [Z.b2z registering releasing_waiters gprotected fst] in Hs.
  pose proof (cnt_nonneg registering (<[i:=(GIdle, lidle)]> ts)) as Hr. pose proof (cnt_nonneg releasing_waiters (<[i:=(GIdle, lidle)]> ts)) as Hl.
  rewrite (cnt_insert _ _ _ _ _ Hi) in Hr. rewrite (cnt_insert _ _ _ _ _ Hi) in Hl. cbn [Z.b2z registering releasing_waiters fst] in Hr, Hl.
  split_and!; [lia|lia|]. intros w. pose proof (progress_none w (<[i:=(GIdle, lidle)]> ts)) as Hn.
  rewrite (cnt_insert _ _ _ _ _ Hi), (tot_insert _ _ _ _ _ Hi) in Hn. cbn [Z.b2z releasing_waiters progress fst] in Hn. lia.
Qed.

(** ** Preservation *)

Lemma ginv_move wg ts us i p l p' l' wg' us' : ginv (MkGConfig wg ts us) -> ts !! i = Some (p, l) ->
  linv (gm wg') (<[i:=l']> (snd <$> ts)) -> gconsistent (p', l') = true ->
  gunits wg' (<[i:=(p', l')]> ts) us' -> gstatus wg' (<[i:=(p', l')]> ts) ->
  ginv (MkGConfig wg' (<[i:=(p', l')]> ts) us').
Proof.
  intros Hinv Hi Hl Hc Hu Hst. pose proof (gi_small _ Hinv) as Hn.
  constructor; cbn [wgroup gthreads units] in *; [by rewrite list_fmap_insert| | |done|done].
  - rewrite (cnt_insert ginconsistent _ _ _ _ Hi). pose proof (gi_consistent _ Hinv) as E. cbn in E. rewrite E. unfold ginconsistent.
    rewrite Hc. pose proof (g_wf _ i _ Hinv Hi) as ->. done.
  - unfold zlen in *. by rewrite length_insert.
Qed.

(** A step that is no Add does not touch the units. *)
Lemma gunits_move wg wg' ts us i p l p' l' : gunits wg ts us -> ts !! i = Some (p, l) -> counter wg' = counter wg ->
  (forall d, p <> GAdd d) -> (forall d, p' <> GAdd d) -> gunits wg' (<[i:=(p', l')]> ts) us.
Proof.
  intros [Hlen Hnn Hsm Hc Hpos] Hi Ec Hp Hp'. assert (E : in_Add (p, l) = 0 /\ surrendered (p, l) = 0 /\ in_Add (p', l') = 0 /\ surrendered (p', l') = 0).
  { unfold in_Add, surrendered. cbn. split_and!; destruct p, p'; try done; first [by exfalso; eapply Hp|by exfalso; eapply Hp']. }
  split; rewrite ?length_insert, ?(tot_insert _ _ _ _ _ Hi); try done; try lia.
  intros j d l0 Hj Hd. destruct (decide (j = i)) as [->|Hne]; [rewrite (lookup_self _ _ _ _ Hi) in Hj; injection Hj as -> ->; by destruct (Hp' d)|].
  rewrite list_lookup_insert_ne in Hj by done. by eapply Hpos.
Qed.

(** The counts of a status that a step must keep. *)
Lemma gstatus_inner wg ts i p l l' s : gstatus wg ts -> ts !! i = Some (p, l) -> gstatus (set_gm s wg) (<[i:=(p, l')]> ts).
Proof.
  intros [Hz Hs Hsl Hcur Hpe Hlo Hw Hpa] Hi.
  assert (Ec : forall f : gthread -> bool, f (p, l') = f (p, l) -> cnt f (<[i:=(p, l')]> ts) = cnt f ts).
  { intros f E. rewrite (cnt_insert _ _ _ _ _ Hi), E. lia. }
  assert (Ep : pending (set_gm s wg) (<[i:=(p, l')]> ts) = pending wg ts).
  { unfold pending. cbn. rewrite Ec by done. rewrite (tot_insert _ _ _ _ _ Hi). change (progress (waiters wg) (p, l')) with (progress (waiters wg) (p, l)). lia. }
  split; try (rewrite ?Ep; cbn; rewrite ?Ec by done; done).
  - intros k. cbn [gsema set_gm]. rewrite Ep, Ec by done. apply Hsl.
  - intros j d l0 Hj. destruct (decide (j = i)) as [->|Hne].
    + rewrite (lookup_self _ _ _ _ Hi) in Hj. injection Hj as -> <-. by eapply Hlo.
    + rewrite list_lookup_insert_ne in Hj by done. by eapply Hlo.
Qed.

Lemma ginv_inner wg ts us i p l l' s : ginv (MkGConfig wg ts us) -> ts !! i = Some (p, l) -> lstep l (gm wg) = Some (l', s) ->
  (forall d, p <> GAdd d) -> gconsistent (p, l') = true -> ginv (MkGConfig (set_gm s wg) (<[i:=(p, l')]> ts) us).
Proof.
  intros Hinv Hi Hs Hp Hc. eapply ginv_move; [done|done|eapply linv_step; [apply Hinv|by eapply lookup_snd|done]|done| |].
  - eapply gunits_move; [apply Hinv|done|done|done|done].
  - eapply gstatus_inner; [apply Hinv|done].
Qed.

Lemma ginv_lock_inner wg ts us i p l l' s : p = GLock \/ p = WLock -> ginv (MkGConfig wg ts us) -> ts !! i = Some (p, l) -> l <> lheld ->
  lstep l (gm wg) = Some (l', s) -> ginv (MkGConfig (set_gm s wg) (<[i:=(p, l')]> ts) us).
Proof.
  intros Hp Hinv Hi Hne Hs. eapply ginv_inner; [done|done|done|by destruct Hp as [-> | ->]|]. pose proof (g_wf _ i _ Hinv Hi) as Hwf.
  assert (forall l, gconsistent (p, l) = llocking l || bool_decide (l = lheld)) as E by (by destruct Hp as [-> | ->]). rewrite E in *.
  rewrite bool_decide_eq_false_2, orb_false_r in Hwf by done.
  destruct (llocking_step _ _ _ _ _ _ (gi_lock _ Hinv) (lookup_snd _ _ _ _ Hi) Hs Hwf) as [->| ->]; [done|].
  rewrite bool_decide_eq_true_2 by done. apply orb_true_r.
Qed.

Lemma ginv_unlock_inner wg ts us i p l l' s : p = GUnlock \/ (exists k, p = WUnlock k) -> ginv (MkGConfig wg ts us) -> ts !! i = Some (p, l) -> l <> lidle ->
  lstep l (gm wg) = Some (l', s) -> ginv (MkGConfig (set_gm s wg) (<[i:=(p, l')]> ts) us).
Proof.
  intros Hp Hinv Hi Hne Hs. eapply ginv_inner; [done|done|done|by destruct Hp as [-> |[k ->]]|]. pose proof (g_wf _ i _ Hinv Hi) as Hwf.
  assert (forall l, gconsistent (p, l) = lunlocking l || bool_decide (l = lidle)) as E by (by destruct Hp as [-> |[k ->]]). rewrite E in *.
  rewrite bool_decide_eq_false_2, orb_false_r in Hwf by done.
  destruct (lunlocking_step _ _ _ _ _ _ (gi_lock _ Hinv) (lookup_snd _ _ _ _ Hi) Hs Hwf) as [->| ->]; [done|].
  rewrite bool_decide_eq_true_2 by done. apply orb_true_r.
Qed.

(** ** The status through the steps *)

Ltac gcount Hi :=
  rewrite ?(cnt_insert _ _ _ _ _ Hi), ?(tot_insert _ _ _ _ _ Hi);
  cbn [evidence registering in_WSemaNew sleeps helper progress in_GPanic releasing_waiters fst snd Z.b2z
       counter waiters gsema semas gm set_gm set_counter set_waiters set_semas].

(** The goroutines other than [i] stay in their loops. *)
Lemma loop_moved wg wg' ts i p l p' l' : gstatus wg ts -> ts !! i = Some (p, l) -> waiters wg <= waiters wg' ->
  (forall j, p' = GRelease j -> 0 <= j < waiters wg') ->
  forall k j l0, <[i:=(p', l')]> ts !! k = Some (GRelease j, l0) -> 0 <= j < waiters wg'.
Proof.
  intros Hst Hi Hw Hp' k j l0 Hk. destruct (decide (k = i)) as [->|Hne].
  - rewrite (lookup_self _ _ _ _ Hi) in Hk. injection Hk as -> ->. by apply Hp'.
  - rewrite list_lookup_insert_ne in Hk by done. pose proof (gs_loop _ _ Hst _ _ _ Hk). lia.
Qed.

(** A step by which the group stays as it is. *)
Lemma gstatus_same wg ts i p l p' l' : gstatus wg ts -> ts !! i = Some (p, l) ->
  (forall w, progress w (p', l') = progress w (p, l)) -> registering (p', l') = registering (p, l) ->
  (forall k, sleeps k (p', l') = sleeps k (p, l)) -> (forall j, p' <> GRelease j) -> in_GPanic (p', l') = false ->
  (evidence (p', l') = true -> evidence (p, l) = true \/ counter wg = 0) ->
  (counter wg = 0 -> Z.b2z (in_WSemaNew (p', l')) <= Z.b2z (in_WSemaNew (p, l))) ->
  (helper (p, l) = true -> helper (p', l') = true \/ 0 < counter wg \/ pending wg ts + cnt in_WSemaNew ts <= 0) ->
  gstatus wg (<[i:=(p', l')]> ts).
Proof.
  intros Hst Hi Epr Er Es Hl Hpan Hev Hn Hh.
  assert (Ep : pending wg (<[i:=(p', l')]> ts) = pending wg ts).
  { unfold pending. rewrite (cnt_insert _ _ _ _ _ Hi), (tot_insert _ _ _ _ _ Hi), Epr, Er. lia. }
  pose proof (gs_zero _ _ Hst) as Hz. pose proof (gs_wake _ _ Hst) as Hw. pose proof (cnt_nonneg helper ts) as Hnn.
  split; rewrite ?Ep; try apply Hst.
  - rewrite (cnt_insert _ _ _ _ _ Hi). intros Hc. pose proof (cnt_elem evidence _ _ _ Hi) as He.
    destruct (evidence (p', l')) eqn:E; [|apply Hz; destruct (evidence (p, l)); cbn in Hc; lia].
    destruct (Hev eq_refl) as [E0|]; [|done]. rewrite E0 in *. apply Hz. specialize (He eq_refl). lia.
  - intros k. rewrite (cnt_insert _ _ _ _ _ Hi), Es, Z.sub_add. apply Hst.
  - eapply (loop_moved wg wg); [done|done|lia|]. intros j ->. by destruct (Hl j).
  - rewrite !(cnt_insert _ _ _ _ _ Hi). intros H0 Hpos. specialize (Hn H0). specialize (Hw H0).
    pose proof (cnt_elem helper _ _ _ Hi) as He. destruct (helper (p, l)) eqn:E.
    + destruct (Hh eq_refl) as [-> |[Hc|Hc]]; [|lia|lia]. specialize (He eq_refl). cbn. lia.
    + cbn. destruct (helper (p', l')); cbn; lia.
  - rewrite (cnt_insert _ _ _ _ _ Hi), Hpan, (gs_panic _ _ Hst). cbn.
    pose proof (cnt_elem in_GPanic _ _ _ Hi) as He. rewrite (gs_panic _ _ Hst) in He. destruct (in_GPanic (p, l)); [lia|done].
Qed.

Lemma sleeps_bound k ts : 0 <= cnt (sleeps k) ts <= zlen ts.
Proof. split; [apply cnt_nonneg|apply cnt_length]. Qed.

(** The unreleased waiters are goroutines. *)
Lemma pending_bound wg ts : gstatus wg ts -> pending wg ts <= zlen ts.
Proof.
  intros Hst. pose proof (gs_current _ _ Hst) as Hc. destruct (gsema wg) as [k|] eqn:E; [|pose proof (zlen_nonneg ts); lia].
  pose proof (gs_sleeps _ _ Hst k) as Hs. rewrite bool_decide_eq_true_2 in Hs by done. pose proof (sleeps_bound k ts). destruct (gs_sem _ _ Hst k). lia.
Qed.

(** While units are out, there is no evidence. *)
Lemma no_evidence wg ts : gstatus wg ts -> counter wg <> 0 -> cnt evidence ts = 0 /\ forall k, sem wg k = 0.
Proof.
  intros Hst Hc. split.
  - pose proof (cnt_nonneg evidence ts). destruct (Z.eq_dec (cnt evidence ts) 0); [done|]. destruct Hc. apply (gs_zero _ _ Hst). lia.
  - intros k. destruct (gs_sem _ _ Hst k) as [Hk Hz]. destruct (Z.eq_dec (sem wg k) 0); [done|]. destruct Hc. apply Hz. lia.
Qed.

(** An Add changes the counter as it should, and does not make it negative. *)
Lemma add_value wg ts us i d l u : gunits wg ts us -> ts !! i = Some (GAdd d, l) -> us !! i = Some u ->
  0 <= counter wg + d < 2 ^ 31 /\ (counter wg = 0 -> d = 0) /\ 0 <= counter wg.
Proof.
  intros [Hlen Hnn Hsm Hc Hpos] Hi Hu.
  assert (Hs : forall k t, ts !! k = Some t -> 0 <= surrendered t) by (intros k [[] ?] _; cbn; lia).
  pose proof (tot_elem surrendered ts i _ Hs Hi) as H1. pose proof (tot_elem id us i u Hnn Hu) as H2. cbn in H1, H2.
  assert (Hd : tot surrendered ts + Z.max d 0 <= tot in_Add ts).
  { pose proof (tot_le surrendered in_Add (<[i:=(GIdle, l)]> ts)) as Hle. rewrite !(tot_insert _ _ _ _ _ Hi) in Hle. cbn in Hle.
    enough (forall t, surrendered t <= in_Add t) as E by (specialize (Hle E); lia). intros [[] ?]; cbn; lia. }
  pose proof (Hnn i u Hu). assert (0 < d -> 0 < u). { intros Hdp. destruct (Hpos i d l Hi Hdp) as (u' & Hu' & Hp). rewrite Hu in Hu'. by injection Hu' as ->. }
  lia.
Qed.

Lemma add_units wg ts us i d l u p' : gunits wg ts us -> ts !! i = Some (GAdd d, l) -> us !! i = Some u -> (forall d, p' <> GAdd d) ->
  gunits (set_counter (counter wg + d) wg) (<[i:=(p', l)]> ts) (<[i:=u + Z.max d 0]> us).
Proof.
  intros Hg Hi Hu Hp'. destruct Hg as [Hlen Hnn Hsm Hc Hpos].
  assert (E : in_Add (p', l) = 0 /\ surrendered (p', l) = 0) by (unfold in_Add, surrendered; cbn; destruct p'; try done; by edestruct Hp').
  split; rewrite ?length_insert, ?(tot_insert _ _ _ _ _ Hi), ?(tot_insert id _ _ _ _ Hu); cbn [counter set_counter id]; try done.
  - intros j v Hj. destruct (decide (j = i)) as [->|Hne].
    + rewrite (lookup_self _ _ _ _ Hu) in Hj. injection Hj as <-. pose proof (Hnn _ _ Hu). lia.
    + rewrite list_lookup_insert_ne in Hj by done. by eapply Hnn.
  - cbn [in_Add fst]. destruct E as [-> _]. lia.
  - cbn [surrendered fst]. destruct E as [_ ->]. lia.
  - intros j d' l0 Hj Hd. destruct (decide (j = i)) as [->|Hne]; [rewrite (lookup_self _ _ _ _ Hi) in Hj; injection Hj as -> ->; by edestruct Hp'|].
    rewrite list_lookup_insert_ne in Hj by done. rewrite list_lookup_insert_ne by done. by eapply Hpos.
Qed.

Lemma add_status wg ts us i d l u : ginv (MkGConfig wg ts us) -> ts !! i = Some (GAdd d, l) -> us !! i = Some u ->
  gstatus (set_counter (counter wg + d) wg) (<[i:=(if 0 <? counter wg + d then GIdle else GLoad, l)]> ts).
Proof.
  intros Hinv Hi Hu. pose proof (gi_status _ Hinv) as Hst. pose proof (gi_units _ Hinv) as Hgu. cbn [wgroup gthreads units] in *.
  destruct (add_value _ _ _ _ _ _ _ Hgu Hi Hu) as (Hv & H0 & Hc).
  set (p' := if 0 <? counter wg + d then GIdle else GLoad).
  assert (Hp' : p' = GIdle /\ 0 < counter wg + d \/ p' = GLoad /\ counter wg + d = 0) by (unfold p'; case_bool; [by left|right; split; [done|lia]]).
  assert (Ep : pending (set_counter (counter wg + d) wg) (<[i:=(p', l)]> ts) = pending wg ts).
  { unfold pending. gcount Hi. destruct Hp' as [[-> _]|[-> _]]; cbn; lia. }
  pose proof (no_evidence wg ts Hst) as Hne. pose proof (cnt_nonneg helper ts).
  split; rewrite ?Ep; cbn [counter waiters gsema semas set_counter]; try apply Hst.
  - gcount Hi. intros He. destruct Hp' as [[-> Hpos]|[_ ?]]; [|done]. cbn in He. exfalso. assert (counter wg <> 0) as Hcz by lia. destruct (Hne Hcz). lia.
  - intros k. change (sem (set_counter (counter wg + d) wg) k) with (sem wg k). destruct (gs_sem _ _ Hst k) as [Hk Hk']. split; [done|]. intros Hkp.
    specialize (Hk' Hkp). lia.
  - intros k. gcount Hi. destruct Hp' as [[-> _]|[-> _]]; cbn; rewrite Z.sub_0_r, Z.add_0_r; apply Hst.
  - eapply (loop_moved wg wg); [done|done|lia|]. intros j E. destruct Hp' as [[-> _]|[-> _]]; done.
  - intros Hz _. gcount Hi. destruct Hp' as [[-> ?]|[-> _]]; cbn; lia.
  - gcount Hi. rewrite (gs_panic _ _ Hst). by destruct Hp' as [[-> _]|[-> _]].
Qed.

(** Steps at protected points: [alone] gives the counts. *)
Ltac at_protected Hinv Hi :=
  let Hst := fresh "Hst" in pose proof (gi_status _ Hinv) as Hst; cbn [wgroup gthreads units] in Hst;
  let Hr := fresh "Hreg" in let Hl := fresh "Hrel" in let Hp := fresh "Hprog" in
  destruct (alone _ _ _ Hinv Hi) as (Hr & Hl & Hp); [cbn; rewrite ?bool_decide_eq_true_2; done|];
  cbn [gthreads registering releasing_waiters progress fst snd Z.b2z] in Hr, Hl, Hp.

Lemma lock_status wg ts us i : ginv (MkGConfig wg ts us) -> ts !! i = Some (GLock, lheld) ->
  gstatus wg (<[i:=(release_waiters 0 wg, lheld)]> ts).
Proof.
  intros Hinv Hi. at_protected Hinv Hi. pose proof (gs_pending _ _ Hst) as Hpe. unfold pending in Hpe. rewrite Hreg, Hprog in Hpe.
  assert (Ep : pending wg (<[i:=(release_waiters 0 wg, lheld)]> ts) = pending wg ts).
  { unfold pending. gcount Hi. unfold release_waiters. case_bool; cbn; lia. }
  split; rewrite ?Ep; try apply Hst.
  - intros _. apply (gs_zero _ _ Hst). pose proof (cnt_elem evidence _ _ _ Hi eq_refl). lia.
  - intros k. gcount Hi. unfold release_waiters. case_bool; cbn; rewrite Z.sub_0_r, Z.add_0_r; apply Hst.
  - eapply (loop_moved wg wg); [done|done|lia|]. unfold release_waiters. intros j E. destruct (Z.ltb_spec 0 (waiters wg)); [|done]. injection E as <-. lia.
  - intros _ _. gcount Hi. pose proof (cnt_elem helper _ _ _ Hi eq_refl). unfold release_waiters. case_bool; cbn; lia.
  - gcount Hi. rewrite (gs_panic _ _ Hst). unfold release_waiters. by case_bool.
Qed.

Lemma sem_lookup wg k v : semas wg !! k = Some v -> sem wg k = v.
Proof. unfold sem. by intros ->. Qed.

Lemma sem_set wg k v v' j : semas wg !! k = Some v -> sem (set_semas (<[k:=v']> (semas wg)) wg) j = if (j =? k)%nat then v' else sem wg j.
Proof.
  intros Hk. unfold sem. cbn. destruct (Nat.eqb_spec j k) as [->|Hne]; [by rewrite (lookup_self _ _ _ _ Hk)|by rewrite list_lookup_insert_ne].
Qed.

Lemma release_status wg ts us i j l : ginv (MkGConfig wg ts us) -> ts !! i = Some (GRelease j, l) ->
  exists k v, gsema wg = Some k /\ semas wg !! k = Some v /\ gm (set_semas (<[k:=Semrelease v]> (semas wg)) wg) = gm wg /\
    gstatus (set_semas (<[k:=Semrelease v]> (semas wg)) wg) (<[i:=(release_waiters (j + 1) wg, l)]> ts).
Proof.
  intros Hinv Hi. at_protected Hinv Hi. pose proof (gs_loop _ _ Hst _ _ _ Hi) as Hj. pose proof (gs_current _ _ Hst) as Hcur.
  assert (Hpend : pending wg ts = waiters wg - j) by (unfold pending; rewrite Hreg, Hprog; lia).
  destruct (gsema wg) as [k|] eqn:Ek; [|lia]. destruct (lookup_lt_is_Some_2 _ _ Hcur) as [v Hv]. exists k, v.
  split_and!; [done|done|done|]. pose proof (gs_sleeps _ _ Hst k) as Hsl. rewrite bool_decide_eq_true_2, (sem_lookup _ _ _ Hv) in Hsl by done.
  pose proof (sleeps_bound k ts). pose proof (gi_small _ Hinv) as Hn. cbn in Hn. destruct (gs_sem _ _ Hst k) as [Hv0 _]. rewrite (sem_lookup _ _ _ Hv) in Hv0.
  rewrite Semrelease_small by lia.
  assert (Hc0 : counter wg = 0) by (apply (gs_zero _ _ Hst); pose proof (cnt_elem evidence _ _ _ Hi eq_refl); lia).
  assert (Ep : pending (set_semas (<[k:=v + 1]> (semas wg)) wg) (<[i:=(release_waiters (j + 1) wg, l)]> ts) = pending wg ts - 1).
  { unfold pending. gcount Hi. rewrite Hprog, Hreg. unfold release_waiters. case_bool; cbn; lia. }
  split; rewrite ?Ep; cbn [counter waiters gsema set_semas]; try done.
  - intros k'. rewrite (sem_set _ _ v) by done. destruct (gs_sem _ _ Hst k'). case_match; [lia|done].
  - intros k'. gcount Hi. rewrite (sem_set _ _ v) by done. rewrite (gs_sleeps _ _ Hst k'), Ek, Hpend.
    assert (E : Z.b2z (sleeps k' (release_waiters (j + 1) wg, l)) = 0) by (unfold release_waiters; by case_bool). rewrite E.
    destruct (Nat.eqb_spec k' k) as [->|Hne].
    + rewrite bool_decide_eq_true_2, (sem_lookup _ _ _ Hv) by done. lia.
    + rewrite bool_decide_eq_false_2 by congruence. lia.
  - rewrite Ek. cbn. by rewrite length_insert.
  - lia.
  - eapply (loop_moved wg wg); [done|done|lia|]. unfold release_waiters. intros j' E. destruct (Z.ltb_spec (j + 1) (waiters wg)); [|done]. injection E as <-. lia.
  - intros _ _. gcount Hi. pose proof (cnt_elem helper _ _ _ Hi eq_refl). unfold release_waiters. case_bool; cbn; lia.
  - gcount Hi. rewrite (gs_panic _ _ Hst). unfold release_waiters. by case_bool.
Qed.

Lemma clear_status wg ts us i l : ginv (MkGConfig wg ts us) -> ts !! i = Some (GClear, l) ->
  gstatus (MkWaitGroup (gm wg) (counter wg) 0 None (semas wg)) (<[i:=(GUnlock, lleave)]> ts).
Proof.
  intros Hinv Hi. at_protected Hinv Hi. assert (Hpend : pending wg ts = 0) by (unfold pending; rewrite Hreg, Hprog; lia).
  assert (Ep : pending (MkWaitGroup (gm wg) (counter wg) 0 None (semas wg)) (<[i:=(GUnlock, lleave)]> ts) = 0).
  { unfold pending. gcount Hi. rewrite Hreg, Hprog. lia. }
  assert (Hnew : cnt in_WSemaNew ts <= cnt registering ts) by (apply cnt_mono; by intros [[] ?]).
  assert (Hz : counter wg = 0) by (apply (gs_zero _ _ Hst); pose proof (cnt_elem evidence _ _ _ Hi eq_refl); lia).
  split; rewrite ?Ep; cbn [counter waiters gsema semas]; try done; try lia.
  - intros k. apply (gs_sem _ _ Hst k).
  - intros k. gcount Hi. rewrite (gs_sleeps _ _ Hst k), Hpend. change (sem (MkWaitGroup _ _ _ _ _) k) with (sem wg k). repeat case_bool_decide; lia.
  - intros k j l0 Hk. destruct (decide (k = i)) as [->|Hne]; [rewrite (lookup_self _ _ _ _ Hi) in Hk; done|].
    rewrite list_lookup_insert_ne in Hk by done. pose proof (cnt_elem releasing_waiters (<[i:=(GIdle, lidle)]> ts) k (GRelease j, l0)) as Hc.
    rewrite (cnt_insert _ _ _ _ _ Hi), Hrel in Hc. cbn in Hc. rewrite list_lookup_insert_ne in Hc by done. specialize (Hc Hk eq_refl). lia.
  - gcount Hi. lia.
  - gcount Hi. by rewrite (gs_panic _ _ Hst).
Qed.

(** Wait counts itself in or out. *)
Lemma waiters_status wg ts us i p l p' l' d : ginv (MkGConfig wg ts us) -> ts !! i = Some (p, l) -> gprotected (p, l) = true ->
  p = WLock /\ p' = WCheck /\ d = 1 \/ p = WUndo /\ p' = WUnlock None /\ d = -1 ->
  gstatus (set_waiters (AddInt32 (waiters wg) d) wg) (<[i:=(p', l')]> ts).
Proof.
  intros Hinv Hi Hp Hd. pose proof (gi_status _ Hinv) as Hst. cbn [wgroup gthreads units] in Hst.
  destruct (alone _ _ _ Hinv Hi Hp) as (Hreg & Hrel & Hprog). cbn [gthreads] in *.
  assert (Hrp : releasing_waiters (p, l) = false /\ forall w, progress w (p, l) = 0) by (destruct Hd as [(-> & _)|(-> & _)]; done). destruct Hrp as [Er Epr].
  assert (Hpend : pending wg ts = waiters wg - Z.b2z (registering (p, l))) by (unfold pending; rewrite Hreg, Hprog, Epr; lia).
  pose proof (pending_bound wg ts Hst). pose proof (gs_pending _ _ Hst). pose proof (gi_small _ Hinv) as Hn. cbn in Hn.
  assert (AddInt32 (waiters wg) d = waiters wg + d) as ->.
  { apply AddInt32_small. destruct Hd as [(-> & _ & ->)|(-> & _ & ->)]; cbn in Hpend; lia. }
  assert (Ep : pending (set_waiters (waiters wg + d) wg) (<[i:=(p', l')]> ts) = pending wg ts).
  { rewrite Hpend. unfold pending. gcount Hi. rewrite Hreg, Hprog, !Epr. destruct Hd as [(-> & -> & ->)|(-> & -> & ->)]; cbn; lia. }
  pose proof (gs_zero _ _ Hst) as Hz. pose proof (cnt_elem evidence _ _ _ Hi) as Hev.
  split; rewrite ?Ep; cbn [counter waiters gsema semas set_waiters]; try apply Hst.
  - gcount Hi. intros Hc. apply Hz. destruct Hd as [(-> & -> & _)|(-> & -> & _)]; cbn in Hc, Hev; lia.
  - intros k. gcount Hi. destruct Hd as [(-> & -> & _)|(-> & -> & _)]; cbn; rewrite Z.sub_0_r, Z.add_0_r; apply Hst.
  - intros k j l0 Hk. exfalso. destruct (decide (k = i)) as [->|Hne].
    + rewrite (lookup_self _ _ _ _ Hi) in Hk. destruct Hd as [(-> & -> & _)|(-> & -> & _)]; done.
    + rewrite list_lookup_insert_ne in Hk by done. pose proof (cnt_elem releasing_waiters _ _ _ Hk eq_refl). rewrite Hrel, Er in *. cbn in *. lia.
  - gcount Hi. pose proof (gs_wake _ _ Hst). destruct Hd as [(-> & -> & _)|(-> & -> & _)]; cbn; rewrite ?Z.sub_0_r, ?Z.add_0_r; done.
  - gcount Hi. rewrite (gs_panic _ _ Hst). destruct Hd as [(-> & -> & _)|(-> & -> & _)]; done.
Qed.

(** Wait joins the waiters of the current semaphore [k]. *)
Lemma join_status wg wg' ts us i l k : ginv (MkGConfig wg ts us) -> ts !! i = Some (WSemaNew, l) ->
  counter wg' = counter wg -> waiters wg' = waiters wg -> gsema wg' = Some k -> (k < length (semas wg'))%nat ->
  (forall j, sem wg' j = sem wg j) -> (gsema wg = Some k \/ gsema wg = None /\ cnt (sleeps k) ts = sem wg k) ->
  gstatus wg' (<[i:=(WUnlock (Some k), lleave)]> ts).
Proof.
  intros Hinv Hi Ec Ew Ek Hk Es Hcase. at_protected Hinv Hi. pose proof (gs_current _ _ Hst) as Hcur.
  assert (Ep : pending wg' (<[i:=(WUnlock (Some k), lleave)]> ts) = pending wg ts + 1) by (unfold pending; rewrite Ew; gcount Hi; lia).
  pose proof (gs_pending _ _ Hst). pose proof (gs_zero _ _ Hst) as Hz. pose proof (gs_wake _ _ Hst) as Hw.
  split; rewrite ?Ep, ?Ec, ?Ek; try done.
  - gcount Hi. lia.
  - intros j. rewrite Es. apply Hst.
  - intros j. gcount Hi. rewrite Es, (gs_sleeps _ _ Hst j). destruct (Nat.eqb_spec k j) as [->|Hne].
    + rewrite (bool_decide_eq_true_2 (Some j = Some j)) by done. cbn. destruct Hcase as [->|[E Hj]]; [rewrite bool_decide_eq_true_2 by done; lia|].
      rewrite E in *. rewrite bool_decide_eq_false_2 by done. lia.
    + rewrite (bool_decide_eq_false_2 (Some k = Some j)) by congruence. cbn.
      rewrite bool_decide_eq_false_2 by (destruct Hcase as [->|[-> _]]; congruence). lia.
  - lia.
  - eapply (loop_moved wg wg'); [done|done|lia|done].
  - gcount Hi. intros H0 Hpos. specialize (Hw H0). lia.
  - gcount Hi. by rewrite (gs_panic _ _ Hst).
Qed.

Lemma wake_status wg ts i l k v : gstatus wg ts -> ts !! i = Some (WSema k, l) -> semas wg !! k = Some v -> 0 < v ->
  gstatus (set_semas (<[k:=v - 1]> (semas wg)) wg) (<[i:=(WReturned, l)]> ts).
Proof.
  intros Hst Hi Hv Hpos. destruct (gs_sem _ _ Hst k) as [_ Hz]. rewrite (sem_lookup _ _ _ Hv) in Hz. specialize (Hz Hpos).
  assert (Ep : pending (set_semas (<[k:=v - 1]> (semas wg)) wg) (<[i:=(WReturned, l)]> ts) = pending wg ts) by (unfold pending; gcount Hi; lia).
  split; rewrite ?Ep; cbn [counter waiters gsema set_semas]; try done; try apply Hst.
  - intros j. rewrite (sem_set _ _ v) by done. destruct (gs_sem _ _ Hst j). case_match; [lia|done].
  - intros j. gcount Hi. rewrite (sem_set _ _ v), (gs_sleeps _ _ Hst j) by done. rewrite (Nat.eqb_sym j k). destruct (Nat.eqb_spec k j) as [->|Hne]; cbn.
    + rewrite (sem_lookup _ _ _ Hv). lia.
    + lia.
  - cbn. rewrite length_insert. apply Hst.
  - eapply (loop_moved wg wg); [done|done|lia|done].
  - gcount Hi. pose proof (gs_wake _ _ Hst). rewrite ?Z.sub_0_r, ?Z.add_0_r. done.
  - gcount Hi. by rewrite (gs_panic _ _ Hst).
Qed.

(** ** Preservation by the steps *)

Lemma glinv_stay s (ts : list gthread) i p l : linv s (snd <$> ts) -> ts !! i = Some (p, l) -> linv s (<[i:=l]> (snd <$> ts)).
Proof. intros Hinv Hi. rewrite list_insert_id; [done|by eapply lookup_snd]. Qed.

Lemma glinv_goes s (ts : list gthread) i p : linv s (snd <$> ts) -> ts !! i = Some (p, lheld) -> linv s (<[i:=lleave]> (snd <$> ts)).
Proof. intros Hinv Hi. apply linv_leave; [done|by eapply lookup_snd]. Qed.

Lemma glinv_enters s (ts : list gthread) i p : linv s (snd <$> ts) -> ts !! i = Some (p, lidle) -> linv s (<[i:=lenter]> (snd <$> ts)).
Proof. intros Hinv Hi. apply linv_enter; [done|by eapply lookup_snd]. Qed.

Lemma gconsistent_idle p : (match p with GIdle | GAdd _ | GLoad | GPanic | WLoad | WSema _ | WReturned => true | _ => false end) = true -> gconsistent (p, lidle) = true.
Proof. intros Hp. destruct p; try done; cbn; by rewrite bool_decide_eq_true_2. Qed.

Lemma gconsistent_held p : (match p with GRelease _ | GClear | WCheck | WUndo | WSemaNew => true | _ => false end) = true -> gconsistent (p, lheld) = true.
Proof. intros Hp. destruct p; try done; cbn; by rewrite bool_decide_eq_true_2. Qed.

Ltac same_status := eapply gstatus_same; try done; try (intros _; by left).

(** Add. *)
Lemma ginv_Add wg ts us i p l u t' wg' : ginv (MkGConfig wg ts us) -> ts !! i = Some (p, l) -> us !! i = Some u ->
  Add_step p l wg = Some (t', wg') -> ginv (MkGConfig wg' (<[i:=t']> ts) (<[i:=u + granted p]> us)).
Proof.
  intros Hinv Hi Hu Hs. pose proof (gi_lock _ Hinv) as Hlk. pose proof (g_wf _ i _ Hinv Hi) as Hwf.
  pose proof (gi_status _ Hinv) as Hst. pose proof (gi_units _ Hinv) as Hgu. cbn [wgroup gthreads units] in *.
  pose proof (glinv_stay _ _ _ _ _ Hlk Hi) as Hstay. pose proof (cnt_elem evidence _ _ _ Hi) as Hev.
  destruct p as [|d| | |j| | | | | | | | | | |]; try discriminate Hs; cbn [granted];
    rewrite ?Z.add_0_r, ?(list_insert_id us i u) by done; cbn [Add_step gconsistent fst snd] in Hs, Hwf.
  - apply bool_decide_eq_true in Hwf. subst l. destruct (add_value _ _ _ _ _ _ _ Hgu Hi Hu) as (Hv & _ & _). rewrite AddInt32_small in Hs by lia.
    rewrite (proj2 (Z.ltb_ge _ 0)) in Hs by lia. injection Hs as <- <-. eapply ginv_move; [done|done|done| | |].
    + by case_bool; apply gconsistent_idle.
    + apply (add_units wg); try done. intros d'. by case_bool.
    + by eapply add_status.
  - apply bool_decide_eq_true in Hwf. subst l. destruct (Z.eqb_spec (waiters wg) 0) as [Hw|Hw]; injection Hs as <- <-; (eapply ginv_move; [done|done|..]).
    + done.
    + by apply gconsistent_idle.
    + by eapply gunits_move.
    + eapply gstatus_same; [done|done|done|done|done|done|done|done|done|]. intros _. right. right.
      assert (0 <= tot (progress (waiters wg)) ts).
      { apply tot_nonneg. intros k [[] l0] Hk; cbn; try lia. pose proof (gs_loop _ _ Hst _ _ _ Hk). lia. }
      assert (cnt in_WSemaNew ts <= cnt registering ts) by (apply cnt_mono; by intros [[] ?]).
      pose proof (gs_pending _ _ Hst) as Hpe. pose proof (cnt_nonneg registering ts). unfold pending in *. lia.
    + by eapply glinv_enters.
    + cbn. by rewrite llocking_enter.
    + by eapply gunits_move.
    + by same_status.
  - destruct (decide (l = lheld)) as [->|Hne].
    + injection Hs as <- <-. eapply ginv_move; [done|done|done| | |].
      * unfold release_waiters. by case_bool; apply gconsistent_held.
      * eapply gunits_move; [done|done|done|done|]. intros d. unfold release_waiters. by case_bool.
      * by eapply lock_status.
    + destruct (lstep l (gm wg)) as [[l' s]|] eqn:Es; [|done]. injection Hs as <- <-. eapply ginv_lock_inner; [by left|done..].
  - apply bool_decide_eq_true in Hwf. subst l. destruct (release_status _ _ _ _ _ _ Hinv Hi) as (k & v & Ek & Hv & _ & Hst'). rewrite Ek in Hs. cbn in Hs. rewrite Hv in Hs. cbn in Hs.
    injection Hs as <- <-. eapply ginv_move; [done|done|done| | |done].
    + unfold release_waiters. by case_bool; apply gconsistent_held.
    + eapply gunits_move; [done|done|done|done|]. intros d. unfold release_waiters. by case_bool.
  - apply bool_decide_eq_true in Hwf. subst l. injection Hs as <- <-. eapply ginv_move; [done|done|by eapply glinv_goes| | |by eapply clear_status].
    + cbn. by rewrite lunlocking_leave.
    + by eapply gunits_move.
  - destruct (decide (l = lidle)) as [->|Hne].
    + injection Hs as <- <-. eapply ginv_move; [done|done|done|by apply gconsistent_idle|by eapply gunits_move|]. by same_status.
    + destruct (lstep l (gm wg)) as [[l' s]|] eqn:Es; [|done]. injection Hs as <- <-. eapply ginv_unlock_inner; [by left|done..].
Qed.

(** Wait. *)
Lemma ginv_Wait wg ts us i p l t' wg' : ginv (MkGConfig wg ts us) -> ts !! i = Some (p, l) ->
  Wait_step p l wg = Some (t', wg') -> ginv (MkGConfig wg' (<[i:=t']> ts) us).
Proof.
  intros Hinv Hi Hs. pose proof (gi_lock _ Hinv) as Hlk. pose proof (g_wf _ i _ Hinv Hi) as Hwf.
  pose proof (gi_status _ Hinv) as Hst. pose proof (gi_units _ Hinv) as Hgu. cbn [wgroup gthreads units] in *.
  pose proof (glinv_stay _ _ _ _ _ Hlk Hi) as Hstay.
  destruct p as [| | | | | | | | | | | | |k|k|]; try discriminate Hs; cbn [Wait_step gconsistent fst snd] in Hs, Hwf.
  - apply bool_decide_eq_true in Hwf. subst l. destruct (Z.eqb_spec (counter wg) 0) as [Hc|Hc]; injection Hs as <- <-; (eapply ginv_move; [done|done|..]).
    + done.
    + by apply gconsistent_idle.
    + by eapply gunits_move.
    + same_status. by right.
    + by eapply glinv_enters.
    + cbn. by rewrite llocking_enter.
    + by eapply gunits_move.
    + by same_status.
  - destruct (decide (l = lheld)) as [->|Hne].
    + injection Hs as <- <-. eapply ginv_move; [done|done|done|by apply gconsistent_held|by eapply gunits_move|].
      eapply waiters_status; [done|done|cbn; by rewrite bool_decide_eq_true_2|by left].
    + destruct (lstep l (gm wg)) as [[l' s]|] eqn:Es; [|done]. injection Hs as <- <-. eapply ginv_lock_inner; [by right|done..].
  - apply bool_decide_eq_true in Hwf. subst l. destruct (Z.eqb_spec (counter wg) 0) as [Hc|Hc]; injection Hs as <- <-;
      (eapply ginv_move; [done|done|done|by apply gconsistent_held|by eapply gunits_move|]; same_status; by right).
  - apply bool_decide_eq_true in Hwf. subst l. injection Hs as <- <-. eapply ginv_move; [done|done|by eapply glinv_goes|cbn; by rewrite lunlocking_leave|by eapply gunits_move|].
    eapply waiters_status; [done|done|done|by right].
  - apply bool_decide_eq_true in Hwf. subst l. pose proof (gs_current _ _ Hst) as Hcur. destruct (gsema wg) as [k|] eqn:Ek; injection Hs as <- <-;
      (eapply ginv_move; [done|done|by eapply glinv_goes|cbn; by rewrite lunlocking_leave|by eapply gunits_move|]).
    + eapply join_status; try done. by left.
    + eapply join_status; try done.
      * cbn. rewrite length_app. cbn. lia.
      * intros j. unfold sem. cbn. destruct (decide (j < length (semas wg))%nat) as [Hj|Hj]; [by rewrite lookup_app_l|].
        rewrite lookup_app_r, (lookup_ge_None_2 (semas wg)) by lia. cbn. by destruct (j - length (semas wg))%nat as [|[]].
      * right. split; [done|]. rewrite (gs_sleeps _ _ Hst), Ek, bool_decide_eq_false_2 by done. lia.
  - destruct (decide (l = lidle)) as [->|Hne].
    + injection Hs as <- <-. destruct k as [k|]; (eapply ginv_move; [done|done|done|by apply gconsistent_idle|by eapply gunits_move|]; by same_status).
    + destruct (lstep l (gm wg)) as [[l' s]|] eqn:Es; [|done]. injection Hs as <- <-. eapply ginv_unlock_inner; [right; by exists k|done..].
  - apply bool_decide_eq_true in Hwf. subst l. destruct (semas wg !! k) as [v|] eqn:Hv; [|done]. cbn in Hs.
    destruct (Semacquire v) as [v'|] eqn:Ev; [|done]. injection Hs as <- <-. apply Semacquire_Some in Ev as [Hpos ->].
    eapply ginv_move; [done|done|done|by apply gconsistent_idle|by eapply gunits_move|]. by eapply wake_status.
Qed.

Lemma ginv_internal c c' : ginv c -> ginternal c c' -> ginv c'.
Proof.
  intros Hinv Hs. destruct Hs as [wg ts us i [p l] t' wg' u Hi Hu Hs]. unfold wg_step in Hs. cbn [fst snd] in *.
  destruct (Add_step p l wg) as [r|] eqn:E; [injection Hs as ->; by eapply ginv_Add|].
  assert (granted p = 0) as -> by (by destruct p). rewrite Z.add_0_r, (list_insert_id us i u) by done. by eapply ginv_Wait.
Qed.

(** A call: the goroutine [i] leaves [GIdle] or [WReturned]. *)
Lemma ginv_call wg ts us i p l p' us' : ginv (MkGConfig wg ts us) -> ts !! i = Some (p, l) -> p = GIdle \/ p = WReturned ->
  (exists d, p' = GAdd d) \/ p' = WLoad \/ p' = GIdle -> gunits wg (<[i:=(p', l)]> ts) us' -> ginv (MkGConfig wg (<[i:=(p', l)]> ts) us').
Proof.
  intros Hinv Hi Hp Hp' Hu. pose proof (g_wf _ i _ Hinv Hi) as Hwf. pose proof (gi_status _ Hinv) as Hst. pose proof (gi_lock _ Hinv) as Hlk. cbn [wgroup gthreads units] in *.
  assert (l = lidle) as -> by (destruct Hp as [-> | ->]; cbn in Hwf; by apply bool_decide_eq_true in Hwf).
  eapply ginv_move; [done|done|by eapply glinv_stay| |done|].
  - destruct Hp' as [[d ->]|[-> | ->]]; by apply gconsistent_idle.
  - destruct Hp as [-> | ->], Hp' as [[d ->]|[-> | ->]]; by same_status.
Qed.

Lemma gunits_Add wg ts us i l u d : gunits wg ts us -> ts !! i = Some (GIdle, l) -> us !! i = Some u ->
  0 < d /\ 0 < u /\ tot id us + tot in_Add ts + d < 2 ^ 31 \/ d < 0 /\ - d <= u ->
  gunits wg (<[i:=(GAdd d, l)]> ts) (<[i:=u - Z.max (- d) 0]> us).
Proof.
  intros [Hlen Hnn Hsm Hc Hpos] Hi Hu Hd. pose proof (Hnn _ _ Hu).
  split; rewrite ?length_insert, ?(tot_insert _ _ _ _ _ Hi), ?(tot_insert id _ _ _ _ Hu); cbn [in_Add surrendered fst id]; try done; try lia.
  - intros j v Hj. destruct (decide (j = i)) as [->|Hne]; [rewrite (lookup_self _ _ _ _ Hu) in Hj; injection Hj as <-; lia|].
    rewrite list_lookup_insert_ne in Hj by done. by eapply Hnn.
  - intros j d' l0 Hj Hd'. destruct (decide (j = i)) as [->|Hne].
    + rewrite (lookup_self _ _ _ _ Hi) in Hj. injection Hj as <- <-. eexists. split; [by eapply lookup_self|]. lia.
    + rewrite list_lookup_insert_ne in Hj by done. rewrite list_lookup_insert_ne by done. by eapply Hpos.
Qed.

Lemma gunits_give wg ts us i j u v : gunits wg ts us -> us !! i = Some u -> us !! j = Some v -> i <> j -> 0 < u ->
  (forall d l, ts !! i <> Some (GAdd d, l)) -> gunits wg ts (<[j:=v + 1]> (<[i:=u - 1]> us)).
Proof.
  intros [Hlen Hnn Hsm Hc Hpos] Hu Hv Hne Hup Hi. assert (Hv' : <[i:=u - 1]> us !! j = Some v) by by rewrite list_lookup_insert_ne.
  assert (Ht : tot id (<[j:=v + 1]> (<[i:=u - 1]> us)) = tot id us).
  { rewrite (tot_insert id _ _ _ _ Hv'), (tot_insert id _ _ _ _ Hu). cbn. lia. }
  split; rewrite ?length_insert, ?Ht; try done.
  - intros k x Hk. destruct (decide (k = j)) as [->|Hkj].
    + rewrite (lookup_self _ _ _ _ Hv') in Hk. injection Hk as <-. pose proof (Hnn _ _ Hv). lia.
    + rewrite list_lookup_insert_ne in Hk by done. destruct (decide (k = i)) as [->|Hki].
      * rewrite (lookup_self _ _ _ _ Hu) in Hk. injection Hk as <-. lia.
      * rewrite list_lookup_insert_ne in Hk by done. by eapply Hnn.
  - intros k d l Hk Hd. destruct (Hpos k d l Hk Hd) as (x & Hx & Hxp). assert (k <> i) by (intros ->; by destruct (Hi d l)).
    destruct (decide (k = j)) as [->|Hkj].
    + exists (v + 1). split; [by eapply lookup_self|]. rewrite Hv in Hx. injection Hx as ->. lia.
    + exists x. by rewrite !list_lookup_insert_ne.
Qed.

Lemma ginv_gstep c c' : ginv c -> gstep c c' -> ginv c'.
Proof.
  intros Hinv Hs. pose proof (gi_units _ Hinv) as Hgu.
  destruct Hs as [c c' Hs|wg ts us i l u d Hi Hu Hd Hup Hsm|wg ts us i l u d Hi Hu Hd|wg ts us i j u v Hu Hv Hne Hup Hi|wg ts us i l Hi|wg ts us i l Hi];
    [by eapply ginv_internal|..]; cbn [wgroup gthreads units] in Hgu.
  - eapply ginv_call; [done|done|by left|left; by eexists|].
    pose proof (gunits_Add wg ts us i l u d Hgu Hi Hu) as H. rewrite Z.max_r, Z.sub_0_r, (list_insert_id us i u) in H by (done || lia). apply H. lia.
  - eapply ginv_call; [done|done|by left|left; by eexists|].
    pose proof (gunits_Add wg ts us i l u (- d) Hgu Hi Hu) as H. rewrite Z.max_l, Z.opp_involutive in H by lia. apply H. lia.
  - destruct Hinv. constructor; cbn [wgroup gthreads units] in *; try done. by apply gunits_give.
  - eapply ginv_call; [done|done|by left|by right; left|by eapply gunits_move].
  - eapply ginv_call; [done|done|by right|by right; right|by eapply gunits_move].
Qed.

Lemma ginv_init n k : 0 <= k < 2 ^ 31 -> Z.of_nat (S n) < 2 ^ 29 -> ginv (ginit n k).
Proof.
  intros Hk Hn. constructor; cbn [ginit wgroup gthreads units gm].
  - rewrite fmap_replicate. by apply linv_new.
  - apply cnt_replicate. unfold ginconsistent. cbn. by rewrite bool_decide_eq_true_2.
  - by rewrite zlen_replicate.
  - assert (Ht : tot id (k :: replicate n 0) = k) by (cbn [tot]; rewrite tot_replicate by done; cbn; lia).
    split; rewrite ?Ht, ?tot_replicate by done; cbn [counter]; try lia.
    + cbn. by rewrite !length_replicate.
    + intros [|i] u Hu; [injection Hu as <-; lia|]. apply lookup_replicate in Hu as [-> _]. done.
    + intros i d l [? _]%lookup_replicate. done.
  - assert (E : pending (MkWaitGroup lnew k 0 None []) (replicate (S n) (GIdle, lidle)) = 0).
    { unfold pending. rewrite cnt_replicate, tot_replicate by done. done. }
    split; rewrite ?E, ?cnt_replicate by done; cbn [counter gsema semas waiters]; try lia; try done.
    + intros j. rewrite cnt_replicate by done. done.
    + intros i j l [? _]%lookup_replicate. done.
Qed.

Lemma ginv_reachable n k c : 0 <= k < 2 ^ 31 -> Z.of_nat (S n) < 2 ^ 29 -> rtc gstep (ginit n k) c -> ginv c.
Proof. intros Hk Hn. apply (rtc_invariant ginv ginv_gstep). by apply ginv_init. Qed.

(** ** Enabled steps *)

Definition gcan c : Prop := exists c', ginternal c c'.

Lemma gcan_step wg ts us i t r : length us = length ts -> ts !! i = Some t -> wg_step t wg = Some r -> gcan (MkGConfig wg ts us).
Proof.
  intros Hl Hi Hs. destruct r as [t' wg']. destruct (lookup_lt_is_Some_2 us i) as [u Hu]; [rewrite Hl; by eapply lookup_lt_Some|].
  eexists. by eapply g_int.
Qed.

(** A goroutine whose lock moves, or which holds it, can step. *)
Lemma lock_can wg ts us i p l : ginv (MkGConfig wg ts us) -> ts !! i = Some (p, l) -> l = lheld \/ lock_moves (gm wg) l = true -> gcan (MkGConfig wg ts us).
Proof.
  intros Hinv Hi Hl. pose proof (g_wf _ i _ Hinv Hi) as Hwf. pose proof (gu_len _ _ _ (gi_units _ Hinv)) as Hlen.
  destruct (lstep_return (gm wg)) as [Eidle Eheld]. destruct llocking_not as (Hli & Hlu & Hne). cbn [wgroup gthreads units] in *.
  destruct (decide (l = lidle)) as [->|Hni].
  { exfalso. destruct Hl as [E|E]; [by apply Hne|]. unfold lock_moves in E. by rewrite Eidle in E. }
  assert (Hm : l <> lheld -> exists l' s, lstep l (gm wg) = Some (l', s)).
  { intros Hnh. destruct Hl as [?|E]; [done|]. unfold lock_moves in E. destruct (lstep l (gm wg)) as [[l' s]|]; [by eexists _, _|done]. }
  destruct p; cbn [gconsistent fst snd] in Hwf; try (apply bool_decide_eq_true in Hwf; subst l; done).
  - destruct (decide (l = lheld)) as [->|Hnh]; [|destruct (Hm Hnh) as (l' & s & E)]; eapply gcan_step; try done; unfold wg_step; cbn.
    + by rewrite decide_True.
    + by rewrite decide_False, E.
  - destruct (release_status _ _ _ _ _ _ Hinv Hi) as (k & v & Ek & Hv & _). eapply gcan_step; try done. unfold wg_step. cbn. rewrite Ek. cbn. by rewrite Hv.
  - by eapply gcan_step.
  - destruct (decide (l = lheld)) as [->|Hnh]; [rewrite Hlu, bool_decide_eq_false_2 in Hwf by done; done|]. destruct (Hm Hnh) as (l' & s & E).
    eapply gcan_step; try done. unfold wg_step. cbn. by rewrite decide_False, E.
  - destruct (decide (l = lheld)) as [->|Hnh]; [|destruct (Hm Hnh) as (l' & s & E)]; eapply gcan_step; try done; unfold wg_step; cbn.
    + by rewrite decide_True.
    + by rewrite decide_False, E.
  - by eapply gcan_step.
  - by eapply gcan_step.
  - destruct (gsema wg) eqn:Ek; (eapply gcan_step; [done|done|]; unfold wg_step; cbn; by rewrite Ek).
  - destruct (decide (l = lheld)) as [->|Hnh]; [rewrite Hlu, bool_decide_eq_false_2 in Hwf by done; done|]. destruct (Hm Hnh) as (l' & s0 & E).
    eapply gcan_step; try done. unfold wg_step. cbn. by rewrite decide_False, E.
Qed.

(** A goroutine at rest: outside, or asleep. *)
Definition at_rest t : bool := match t.1 with GIdle | WReturned | WSema _ => true | _ => false end.

Lemma stuck_rest wg ts us i t : ginv (MkGConfig wg ts us) -> ~ gcan (MkGConfig wg ts us) -> ts !! i = Some t -> at_rest t = true.
Proof.
  intros Hinv Hno Hi. destruct t as [p l]. pose proof (g_wf _ i _ Hinv Hi) as Hwf. pose proof (gu_len _ _ _ (gi_units _ Hinv)) as Hlen. cbn [wgroup gthreads units] in *.
  assert (Hidle : l = lidle).
  { destruct (decide (l = lidle)) as [|Hne]; [done|exfalso]. pose proof (cnt_nonneg (fun t => lock_moves (gm wg) t.2) ts).
    destruct (Z.eq_dec (cnt (fun t => lock_moves (gm wg) t.2) ts) 0) as [H0|H0].
    - destruct (stuck_owner _ _ i p l (gi_lock _ Hinv) Hi Hne H0) as (j & q & Hj). eapply Hno, lock_can; [done|exact Hj|by left].
    - destruct (cnt_exists (fun t => lock_moves (gm wg) t.2) ts) as (j & [q lq] & Hj & Hq); [lia|]. eapply Hno, lock_can; [done|exact Hj|by right]. }
  subst l. destruct llocking_not as (Hli & _ & Hne).
  destruct p; try done; exfalso; cbn [gconsistent fst snd] in Hwf;
    try (rewrite Hli in Hwf; cbn in Hwf); try (rewrite bool_decide_eq_false_2 in Hwf; done).
  - by eapply Hno, gcan_step.
  - eapply Hno, (gcan_step _ _ _ i _ (if waiters wg =? 0 then _ else _)); [done|done|]. unfold wg_step. cbn. by case_bool.
  - eapply Hno, gcan_step; [done|done|]. unfold wg_step. cbn. by rewrite decide_True.
  - pose proof (cnt_elem in_GPanic _ _ _ Hi eq_refl) as Hc. pose proof (gs_panic _ _ (gi_status _ Hinv)) as Hz. cbn [gthreads] in Hz. lia.
  - eapply Hno, (gcan_step _ _ _ i _ (if counter wg =? 0 then _ else _)); [done|done|]. unfold wg_step. cbn. by case_bool.
  - eapply Hno, gcan_step; [done|done|]. unfold wg_step. cbn. by rewrite decide_True.
Qed.

(** Nobody sleeps once the counter is zero. *)
Lemma stuck_sleeper wg ts us i k l : ginv (MkGConfig wg ts us) -> ~ gcan (MkGConfig wg ts us) -> ts !! i = Some (WSema k, l) -> counter wg <> 0.
Proof.
  intros Hinv Hno Hi Hc. pose proof (gi_status _ Hinv) as Hst. pose proof (gu_len _ _ _ (gi_units _ Hinv)) as Hlen. cbn [wgroup gthreads units] in *.
  assert (Hs : sem wg k = 0).
  { destruct (gs_sem _ _ Hst k) as [H0 _]. destruct (Z.eq_dec (sem wg k) 0) as [|Hne]; [done|exfalso]. unfold sem in *.
    destruct (semas wg !! k) as [v|] eqn:Hv; [|done]. cbn in *. eapply Hno, gcan_step; [done|done|]. unfold wg_step. cbn. rewrite Hv. cbn.
    by rewrite Semacquire_pos by lia. }
  pose proof (gs_sleeps _ _ Hst k) as Hsl. rewrite Hs in Hsl. pose proof (cnt_elem (sleeps k) _ _ _ Hi) as H1. cbn in H1. rewrite Nat.eqb_refl in H1. specialize (H1 eq_refl).
  case_bool_decide; [|lia]. pose proof (cnt_nonneg in_WSemaNew ts).
  destruct (cnt_exists helper ts) as (j & t & Hj & Ht); [apply (gs_wake _ _ Hst); lia|].
  pose proof (stuck_rest _ _ _ _ _ Hinv Hno Hj) as Hr. by destruct t as [[] ?].
Qed.

Lemma g_no_panic c i t : ginv c -> gthreads c !! i = Some t -> t.1 <> GPanic.
Proof.
  intros Hinv Hi E. destruct t as [p l]. cbn in E. subst p. pose proof (cnt_elem in_GPanic _ _ _ Hi eq_refl) as Hc.
  pose proof (gs_panic _ _ (gi_status _ Hinv)) as Hz. lia.
Qed.

(** C38. Wait does not return early: in every interleaving of goroutines, fewer than
    2^29 of them, that add units only while they have some and give back only what
    they have, no goroutine ever panics in Add, and when a Wait has returned the counter is zero and all
    units have been given back. *)
Theorem WaitGroup_waits n k c i t : 0 <= k < 2 ^ 31 -> Z.of_nat (S n) < 2 ^ 29 -> rtc gstep (ginit n k) c -> gthreads c !! i = Some t ->
  t.1 <> GPanic /\ (t.1 = WReturned -> counter (wgroup c) = 0 /\ (forall j u, units c !! j = Some u -> u = 0)).
Proof.
  intros Hk Hn Hr Hi. pose proof (ginv_reachable n k c Hk Hn Hr) as Hinv. split; [by eapply g_no_panic|]. intros Ht.
  destruct c as [wg ts us], t as [p l]. cbn [wgroup gthreads units fst] in *. subst p.
  assert (Hz : counter wg = 0).
  { apply (gs_zero _ _ (gi_status _ Hinv)). pose proof (cnt_elem evidence _ _ _ Hi eq_refl). cbn. lia. }
  split; [done|]. intros j u Hu. destruct (gi_units _ Hinv) as [_ Hnn _ Hc _]. cbn [wgroup gthreads units] in *.
  assert (0 <= tot surrendered ts) by (apply tot_nonneg; intros ? [[] ?] _; cbn; lia).
  pose proof (tot_elem id us j u Hnn Hu) as Hle. pose proof (Hnn j u Hu). cbn in Hle. lia.
Qed.

(** C39. No waiter is forgotten: in every reachable configuration in which no
    goroutine can step inside Add, Done or Wait, each one is outside of them, or
    waits for a counter that is not zero; none has panicked. *)
Theorem WaitGroup_progress n k c i t : 0 <= k < 2 ^ 31 -> Z.of_nat (S n) < 2 ^ 29 -> rtc gstep (ginit n k) c ->
  (forall c', ~ ginternal c c') -> gthreads c !! i = Some t ->
  t.1 = GIdle \/ t.1 = WReturned \/ (exists s, t.1 = WSema s) /\ counter (wgroup c) <> 0.
Proof.
  intros Hk Hn Hr Hno Hi. pose proof (ginv_reachable n k c Hk Hn Hr) as Hinv. destruct c as [wg ts us]. cbn [wgroup gthreads units] in *.
  assert (Hg : ~ gcan (MkGConfig wg ts us)) by (by intros [c' Hc]; apply (Hno c')). destruct t as [p l].
  pose proof (stuck_rest _ _ _ _ _ Hinv Hg Hi) as Hrest. destruct p; try done; cbn; [by left|right; right|right; by left].
  split; [by eexists|]. by eapply stuck_sleeper.
Qed.
End Inv.

(** * Executions over Mutex *)

(** One step of the goroutine [i]. *)
Definition run_one (i : nat) (c : gconfig Mutex_Lock) : option (gconfig Mutex_Lock) :=
  t ← gthreads c !! i; u ← units c !! i;
  r ← wg_step t (wgroup c);
  Some (MkGConfig r.2 (<[i:=r.1]> (gthreads c)) (<[i:=u + granted t.1]> (units c))).

Fixpoint run (sched : list nat) (c : gconfig Mutex_Lock) : option (gconfig Mutex_Lock) :=
  match sched with [] => Some c | i :: sched => c ← run_one i c; run sched c end.

Lemma run_one_step i c c' : run_one i c = Some c' -> ginternal c c'.
Proof.
  unfold run_one. destruct c as [wg ts us]. cbn. intros (t & Hi & (u & Hu & ([t' wg'] & Hs & [= <-])%bind_Some)%bind_Some)%bind_Some. exact (@g_int Mutex_Lock wg ts us i t t' wg' u Hi Hu Hs).
Qed.

Lemma run_steps sched : forall c c', run sched c = Some c' -> rtc ginternal c c'.
Proof.
  induction sched as [|i sched IH]; intros c c'; cbn; [by intros [= <-]|].
  destruct (run_one i c) as [c1|] eqn:E; cbn; [|done]. intros Hr. eapply rtc_l; [by eapply run_one_step|by apply IH].
Qed.

Lemma internal_gsteps (c c' : gconfig Mutex_Lock) : rtc ginternal c c' -> rtc gstep c c'.
Proof. induction 1 as [|c1 c2 c3 H12 _ IH]; [done|]. eapply rtc_l; [by apply g_internal|done]. Qed.

(** One goroutine has one unit; it gives it back, and waits. *)
Definition after_Done : gconfig Mutex_Lock := MkGConfig (MkWaitGroup (MkMutex 0 0) 0 0 None []) [(GIdle, MIdle); (GIdle, MIdle)] [0; 0].

Lemma after_Done_reachable : rtc gstep (ginit 1 1) after_Done.
Proof.
  eapply rtc_l; [exact (g_Done (MkWaitGroup (MkMutex 0 0) 1 0 None []) [(GIdle, MIdle); (GIdle, MIdle)] [1; 0] 0 MIdle 1 1 eq_refl eq_refl (conj eq_refl (Z.le_refl 1)))|].
  apply internal_gsteps, (run_steps [0; 0]%nat). reflexivity.
Qed.

Definition Wait_done : gconfig Mutex_Lock := MkGConfig (MkWaitGroup (MkMutex 0 0) 0 0 None []) [(GIdle, MIdle); (WReturned, MIdle)] [0; 0].

Lemma Wait_done_reachable : rtc gstep (ginit 1 1) Wait_done.
Proof.
  etransitivity; [apply after_Done_reachable|]. eapply rtc_l; [exact (g_Wait _ [(GIdle, MIdle); (GIdle, MIdle)] [0; 0] 1 MIdle eq_refl)|].
  apply internal_gsteps, (run_steps [1]%nat). reflexivity.
Qed.

Lemma WaitGroup_waits_witness : gthreads Wait_done !! 1%nat = Some (WReturned, MIdle) /\ counter (wgroup Wait_done) = 0.
Proof.
  split; [reflexivity|]. destruct (WaitGroup_waits 1 1 Wait_done 1 (WReturned, MIdle)) as [_ H]; [lia|lia|apply Wait_done_reachable|reflexivity|].
  exact (proj1 (H eq_refl)).
Defined.

(** The other goroutine waits for the unit. *)
Definition one_waiter : gconfig Mutex_Lock := MkGConfig (MkWaitGroup (MkMutex 0 0) 1 1 (Some 0%nat) [0]) [(GIdle, MIdle); (WSema 0, MIdle)] [1; 0].

Lemma one_waiter_reachable : rtc gstep (ginit 1 1) one_waiter.
Proof.
  eapply rtc_l; [exact (g_Wait _ [(GIdle, MIdle); (GIdle, MIdle)] [1; 0] 1 MIdle eq_refl)|].
  apply internal_gsteps, (run_steps [1; 1; 1; 1; 1; 1; 1]%nat). reflexivity.
Qed.

Lemma WaitGroup_progress_witness : gthreads one_waiter !! 1%nat = Some (WSema 0, MIdle) /\ counter (wgroup one_waiter) <> 0.
Proof.
  split; [reflexivity|].
  destruct (WaitGroup_progress 1 1 one_waiter 1 (WSema 0, MIdle)) as [H|[H|[_ H]]];
    [lia|lia|apply one_waiter_reachable| |reflexivity|discriminate|discriminate|exact H].
  intros c' Hs. inversion Hs as [wg ts us i t t' wg' u Hi Hu Hst]; subst.
  destruct i as [|[|i]]; [injection Hi as <-; discriminate|injection Hi as <-; discriminate|destruct i; discriminate].
Defined.

(** ** Reuse *)

(** Clients without a discipline. *)
Inductive gfree : gconfig Mutex_Lock -> gconfig Mutex_Lock -> Prop :=
  | f_internal c c' : ginternal c c' -> gfree c c'
  | f_Add wg ts us i l delta : ts !! i = Some (GIdle, l) -> gfree (MkGConfig wg ts us) (MkGConfig wg (<[i:=(GAdd delta, l)]> ts) us)
  | f_Wait wg ts us i l : ts !! i = Some (GIdle, l) -> gfree (MkGConfig wg ts us) (MkGConfig wg (<[i:=(WLoad, l)]> ts) us).

(** Steps during which the counter is one. *)
Definition counter_one (c c' : gconfig Mutex_Lock) : Prop := gfree c c' /\ counter (wgroup c) = 1 /\ counter (wgroup c') = 1.

Fixpoint run_at_one (sched : list nat) (c : gconfig Mutex_Lock) : option (gconfig Mutex_Lock) :=
  match sched with
  | [] => Some c
  | i :: sched => c' ← run_one i c; if (counter (wgroup c) =? 1) && (counter (wgroup c') =? 1) then run_at_one sched c' else None
  end.

Lemma run_at_one_steps sched : forall c c', run_at_one sched c = Some c' -> rtc counter_one c c'.
Proof.
  induction sched as [|i sched IH]; intros c c'; cbn; [by intros [= <-]|].
  destruct (run_one i c) as [c1|] eqn:E; cbn; [|done]. case_bool; [|done]. intros Hr.
  eapply rtc_l; [|by apply IH]. split; [by apply f_internal, (run_one_step i)|]. done.
Qed.

Lemma run_free sched c c' : run sched c = Some c' -> rtc gfree c c'.
Proof. intros Hr. apply run_steps in Hr. induction Hr as [|c1 c2 c3 H12 _ IH]; [done|]. eapply rtc_l; [by apply f_internal|done]. Qed.

(** The goroutine 0 has added one and waits; 1 has brought the counter to zero
    and is about to take the lock; 2 has added one and calls Wait. *)
Definition reuse_start : gconfig Mutex_Lock :=
  MkGConfig (MkWaitGroup (MkMutex 0 0) 1 1 (Some 0%nat) [0]) [(WSema 0, MIdle); (GLock, LFast); (WLoad, MIdle)] [1; 0; 1].
Definition reuse_end : gconfig Mutex_Lock :=
  MkGConfig (MkWaitGroup (MkMutex 0 0) 1 0 None [1]) [(WSema 0, MIdle); (GIdle, MIdle); (WReturned, MIdle)] [1; 0; 1].

Lemma free_Add (wg : WaitGroup Mutex_Lock) ts us i delta ts' sched c' : ts !! i = Some (GIdle, MIdle) -> <[i:=(GAdd delta, MIdle)]> ts = ts' ->
  run sched (MkGConfig wg ts' us) = Some c' -> rtc gfree (MkGConfig wg ts us) c'.
Proof. intros Hi <- Hr. eapply rtc_l; [by apply f_Add|]. by eapply run_free. Qed.

Lemma free_Wait (wg : WaitGroup Mutex_Lock) ts us i ts' sched c' : ts !! i = Some (GIdle, MIdle) -> <[i:=(WLoad, MIdle)]> ts = ts' ->
  run sched (MkGConfig wg ts' us) = Some c' -> rtc gfree (MkGConfig wg ts us) c'.
Proof. intros Hi <- Hr. eapply rtc_l; [by apply f_Wait|]. by eapply run_free. Qed.

Lemma reuse_start_reachable :
  rtc gfree (MkGConfig (MkWaitGroup (MkMutex 0 0) 0 0 None []) [(GIdle, MIdle); (GIdle, MIdle); (GIdle, MIdle)] [0; 0; 0]) reuse_start.
Proof.
  pose (idle := (GIdle, MIdle)). transitivity (MkGConfig (MkWaitGroup (L:=Mutex_Lock) (MkMutex 0 0) 1 0 None []) [idle; idle; idle] [1; 0; 0]).
  { eapply (free_Add _ _ _ 0 1 _ [0%nat]); reflexivity. }
  transitivity (MkGConfig (MkWaitGroup (L:=Mutex_Lock) (MkMutex 0 0) 1 1 (Some 0%nat) [0]) [(WSema 0, MIdle); idle; idle] [1; 0; 0]).
  { eapply (free_Wait _ _ _ 0 _ [0; 0; 0; 0; 0; 0; 0]%nat); reflexivity. }
  transitivity (MkGConfig (MkWaitGroup (L:=Mutex_Lock) (MkMutex 0 0) 0 1 (Some 0%nat) [0]) [(WSema 0, MIdle); (GLock, LFast); idle] [1; 0; 0]).
  { eapply (free_Add _ _ _ 1 (-1) _ [1; 1]%nat); reflexivity. }
  transitivity (MkGConfig (MkWaitGroup (L:=Mutex_Lock) (MkMutex 0 0) 1 1 (Some 0%nat) [0]) [(WSema 0, MIdle); (GLock, LFast); idle] [1; 0; 1]).
  { eapply (free_Add _ _ _ 2 1 _ [2%nat]); reflexivity. }
  eapply (free_Wait _ _ _ 2 _ []); reflexivity.
Qed.

(** C40. Reusing a WaitGroup breaks Wait: the goroutine 1 brings the counter to zero
    and is delayed before it releases the waiter 0; meanwhile the goroutine 2
    adds one and waits, and is released in place of the waiter although the
    counter is one throughout its call. *)
Theorem WaitGroup_reuse :
  rtc gfree (MkGConfig (MkWaitGroup (MkMutex 0 0) 0 0 None []) [(GIdle, MIdle); (GIdle, MIdle); (GIdle, MIdle)] [0; 0; 0]) reuse_start /\
  gthreads reuse_start !! 2%nat = Some (WLoad, MIdle) /\ rtc counter_one reuse_start reuse_end /\
  gthreads reuse_end !! 2%nat = Some (WReturned, MIdle).
Proof.
  split_and!; [apply reuse_start_reachable|reflexivity| |reflexivity].
  apply (run_at_one_steps [2; 2; 2; 2; 2; 2; 2; 1; 1; 1; 1; 1; 1; 1; 2]%nat). reflexivity.
Qed.
