(* ===== verification/SyncCond.v ===== *)
(** sync.Cond (src/go/src/pkg/sync/cond.go), over any lock [M] for the mutex m
    that keeps the contract of SyncMutex, and any Locker [K] for L.

    The semaphores that Wait allocates are the entries of a list, a pointer to
    one is its index.  The goroutines that wait on one semaphore are a
    generation.  A goroutine is at a program point of the methods, at one of L
    and at one of m.  The theorems: a wake-up goes to a goroutine that was
    waiting when it was sent, and the methods refine a condition variable that
    counts the goroutines that wait and the wake-ups under way. *)

From stdpp Require Import relations.
From S2P Require Import Prelude Threads SyncMutex.

(** * Code *)

Section Code.
Context {M K : Lock}.

Record Cond := MkCond {
  cL : @lstate K; cm : @lstate M;
  oldWaiters : Z; oldSema : option nat; newWaiters : Z; newSema : option nat;
  csemas : list Z;
}.

(** NewCond: the zero Cond with its Locker. *)
Definition NewCond (l : @lstate K) : Cond := MkCond l lnew 0 None 0 None [].

Inductive cpc :=
  | CIdle                (* outside of the methods, or in one of L *)
  | CLock                (* Wait: in c.m.Lock() *)
  | CNew                 (* if c.newSema == nil { c.newSema = new(uint32) } *)
  | CJoin                (* s := c.newSema; c.newWaiters++ *)
  | CUnlock (s : nat)    (* in c.m.Unlock() *)
  | CUnlockL (s : nat)   (* in c.L.Unlock() *)
  | CSema (s : nat)      (* Semacquire(s) *)
  | CLockL               (* in c.L.Lock(), then return *)
  | SLock                (* Signal: in c.m.Lock() *)
  | SRetire              (* the first if *)
  | SWake                (* if c.oldWaiters > 0 { c.oldWaiters--; ... *)
  | SRelease             (* Semrelease(c.oldSema) *)
  | BLock                (* Broadcast: in c.m.Lock() *)
  | BOld (i : Z)         (* the loop of Semrelease(c.oldSema) *)
  | BOldClear            (* c.oldWaiters = 0 *)
  | BTest                (* if c.newWaiters > 0 *)
  | BNew (i : Z)         (* the loop of Semrelease(c.newSema) *)
  | BNewClear            (* c.newWaiters = 0; c.newSema = nil *)
  | CReturn.             (* Signal, Broadcast: in c.m.Unlock() *)

Abbreviation cthread := ((cpc * @lpc K) * @lpc M)%type (only parsing).

Definition set_cL x c := MkCond x (cm c) (oldWaiters c) (oldSema c) (newWaiters c) (newSema c) (csemas c).
Definition set_cm x c := MkCond (cL c) x (oldWaiters c) (oldSema c) (newWaiters c) (newSema c) (csemas c).
Definition set_oldWaiters x c := MkCond (cL c) (cm c) x (oldSema c) (newWaiters c) (newSema c) (csemas c).
Definition set_new w s c := MkCond (cL c) (cm c) (oldWaiters c) (oldSema c) w s (csemas c).
Definition set_csemas x c := MkCond (cL c) (cm c) (oldWaiters c) (oldSema c) (newWaiters c) (newSema c) x.

(** Semrelease of a pointer: nil or a dangling one has no step. *)
Definition release (s : option nat) (c : Cond) : option Cond :=
  k ← s; v ← csemas c !! k; Some (set_csemas (<[k:=Semrelease v]> (csemas c)) c).

(** A goroutine in a call of m.Lock or m.Unlock, which is over at [stop]. *)
Definition in_m (p q : cpc) (stop : @lpc M) (k : @lpc K) (l : @lpc M) (c : Cond) : option (cthread * Cond) :=
  if decide (l = stop) then Some ((q, k, l), c)
  else '(l', s) ← lstep l (cm c); Some ((p, k, l'), set_cm s c).

(** The same of L: [q] is the goroutine after the call. *)
Definition in_L (p q : cpc) (stop : @lpc K) (k : @lpc K) (l : @lpc M) (c : Cond) : option (cthread * Cond) :=
  if decide (k = stop) then Some ((q, k, l), c)
  else '(k', s) ← lstep k (cL c); Some ((p, k', l), set_cL s c).

Definition Wait_step (p : cpc) (k : @lpc K) (l : @lpc M) (c : Cond) : option (cthread * Cond) :=
  match p with
  | CLock => in_m CLock CNew lheld k l c
  | CNew =>
      Some ((CJoin, k, l),
        match newSema c with
        | Some _ => c
        | None => set_new (newWaiters c) (Some (length (csemas c))) (set_csemas (csemas c ++ [0]) c)
        end)
  | CJoin => s ← newSema c; Some ((CUnlock s, k, lleave), set_new (int (newWaiters c + 1)) (newSema c) c)
  | CUnlock s => if decide (l = lidle) then Some ((CUnlockL s, lleave, l), c) else in_m p p lidle k l c
  | CUnlockL s => in_L p (CSema s) lidle k l c
  | CSema s =>
      v ← csemas c !! s; v' ← Semacquire v;
      Some ((CLockL, lenter, l), set_csemas (<[s:=v']> (csemas c)) c)
  | CLockL => in_L p CIdle lheld k l c
  | _ => None
  end.

Definition Signal_step (p : cpc) (k : @lpc K) (l : @lpc M) (c : Cond) : option (cthread * Cond) :=
  match p with
  | SLock => in_m SLock SRetire lheld k l c
  | SRetire =>
      Some ((SWake, k, l),
        if (oldWaiters c =? 0) && (0 <? newWaiters c)
        then MkCond (cL c) (cm c) (newWaiters c) (newSema c) 0 None (csemas c) else c)
  | SWake =>
      if 0 <? oldWaiters c then Some ((SRelease, k, l), set_oldWaiters (int (oldWaiters c - 1)) c)
      else Some ((CReturn, k, lleave), c)
  | SRelease => c' ← release (oldSema c) c; Some ((CReturn, k, lleave), c')
  | CReturn => in_m CReturn CIdle lidle k l c
  | _ => None
  end.

Definition Broadcast_step (p : cpc) (k : @lpc K) (l : @lpc M) (c : Cond) : option (cthread * Cond) :=
  match p with
  | BLock => in_m BLock (if 0 <? oldWaiters c then BOld 0 else BTest) lheld k l c
  | BOld i =>
      if i <? oldWaiters c then c' ← release (oldSema c) c; Some ((BOld (int (i + 1)), k, l), c')
      else Some ((BOldClear, k, l), c)
  | BOldClear => Some ((BTest, k, l), set_oldWaiters 0 c)
  | BTest => if 0 <? newWaiters c then Some ((BNew 0, k, l), c) else Some ((CReturn, k, lleave), c)
  | BNew i =>
      if i <? newWaiters c then c' ← release (newSema c) c; Some ((BNew (int (i + 1)), k, l), c')
      else Some ((BNewClear, k, l), c)
  | BNewClear => Some ((CReturn, k, lleave), set_new 0 None c)
  | _ => None
  end.

(** A client in a call of L outside of the methods. *)
Definition Locker_step (p : cpc) (k : @lpc K) (l : @lpc M) (c : Cond) : option (cthread * Cond) :=
  match p with CIdle => '(k', s) ← lstep k (cL c); Some ((CIdle, k', l), set_cL s c) | _ => None end.

Definition cond_step (t : cthread) (c : Cond) : option (cthread * Cond) :=
  let '(p, k, l) := t in
  match Wait_step p k l c with Some r => Some r | None =>
  match Signal_step p k l c with Some r => Some r | None =>
  match Broadcast_step p k l c with Some r => Some r | None => Locker_step p k l c end end end.

(** ** Configurations *)

Record cconfig := MkCConfig { cond : Cond; cthreads : list cthread }.

(** Clients: the methods of L, Wait by a goroutine that holds L, Signal and
    Broadcast by one that holds it or not. *)
Inductive cstep : cconfig -> cconfig -> Prop :=
  | c_internal c ts i t t' c' : ts !! i = Some t -> cond_step t c = Some (t', c') ->
      cstep (MkCConfig c ts) (MkCConfig c' (<[i:=t']> ts))
  | c_Lock c ts i l : ts !! i = Some (CIdle, lidle, l) -> cstep (MkCConfig c ts) (MkCConfig c (<[i:=(CIdle, lenter, l)]> ts))
  | c_Unlock c ts i l : ts !! i = Some (CIdle, lheld, l) -> cstep (MkCConfig c ts) (MkCConfig c (<[i:=(CIdle, lleave, l)]> ts))
  | c_Wait c ts i l : ts !! i = Some (CIdle, lheld, l) -> cstep (MkCConfig c ts) (MkCConfig c (<[i:=(CLock, lheld, lenter)]> ts))
  | c_Signal c ts i k l : ts !! i = Some (CIdle, k, l) -> k = lidle \/ k = lheld ->
      cstep (MkCConfig c ts) (MkCConfig c (<[i:=(SLock, k, lenter)]> ts))
  | c_Broadcast c ts i k l : ts !! i = Some (CIdle, k, l) -> k = lidle \/ k = lheld ->
      cstep (MkCConfig c ts) (MkCConfig c (<[i:=(BLock, k, lenter)]> ts)).

(** [n] goroutines and a new Cond. *)
Definition cinit (n : nat) : cconfig := MkCConfig (NewCond lnew) (replicate n (CIdle, lidle, lidle)).
End Code.
Arguments Cond M K : clear implicits.
Arguments cconfig M K : clear implicits.
Abbreviation cthread M K := ((cpc * @lpc K) * @lpc M)%type (only parsing).

(** * Specification

    A condition variable, as its users see it: how many goroutines wait, and how
    many wake-ups were sent that nobody has taken yet. *)

Record acond := MkACond { waiting : Z; woken : Z }.

Inductive aop := AJoin | AWake | ALeave.

(** A wake-up needs a goroutine that waits, and leaving needs a wake-up. *)
Inductive astep : aop -> acond -> acond -> Prop :=
  | a_join w r : astep AJoin (MkACond w r) (MkACond (w + 1) r)
  | a_wake w r : 0 < w -> astep AWake (MkACond w r) (MkACond (w - 1) (r + 1))
  | a_leave w r : 0 < r -> astep ALeave (MkACond w r) (MkACond w (r - 1)).

Section Abs.
Context {M K : Lock}.
Implicit Types (c : Cond M K) (t : cthread M K) (ts : list (cthread M K)) (p : cpc).

(** Inside the critical section of m. *)
Definition inside p : bool :=
  match p with
  | CNew | CJoin | SRetire | SWake | SRelease | BOld _ | BOldClear | BTest | BNew _ | BNewClear => true
  | _ => false
  end.
Definition protected t : bool := inside t.1.1.

(** The point of the goroutine in the critical section; CIdle if it is empty. *)
Fixpoint holder ts : cpc :=
  match ts with [] => CIdle | t :: ts => if protected t then t.1.1 else holder ts end.

(** Waiters of the two generations that are counted but have a wake-up, or have
    none and are not counted any more. *)
Definition done_old c p : Z := match p with BOld i => i | BOldClear => oldWaiters c | SRelease => -1 | _ => 0 end.
Definition done_new c p : Z := match p with BNew i => i | BNewClear => newWaiters c | _ => 0 end.
Definition owed_old c p : Z := oldWaiters c - done_old c p.
Definition owed_new c p : Z := newWaiters c - done_new c p.

Definition cabs (x : cconfig M K) : acond :=
  let c := cond x in let p := holder (cthreads x) in
  MkACond (owed_old c p + owed_new c p) (tot id (csemas c)).

(** What the step of a goroutine does to the condition variable. *)
Definition effect c p : option aop :=
  match p with
  | CJoin => Some AJoin
  | CSema _ => Some ALeave
  | SRelease => Some AWake
  | BOld i => if i <? oldWaiters c then Some AWake else None
  | BNew i => if i <? newWaiters c then Some AWake else None
  | _ => None
  end.

(** On the way to Semacquire(k), or in it; and on any semaphore. *)
Definition sleeps (k : nat) t : bool := match t.1.1 with CUnlock j | CUnlockL j | CSema j => (j =? k)%nat | _ => false end.
Definition asleep t : bool := match t.1.1 with CUnlock _ | CUnlockL _ | CSema _ => true | _ => false end.
End Abs.

(** * Moves in a lock *)

Section Moves.
Context {L : Lock} {HL : LockLaws L}.
Implicit Types (s : lstate) (l : lpc) (ls : list lpc).

(** A goroutine stays where it is, steps inside the lock, calls Lock or calls
    Unlock. *)
Inductive lmoves l s : lpc -> lstate -> Prop :=
  | l_stay : lmoves l s l s
  | l_step l' s' : lstep l s = Some (l', s') -> lmoves l s l' s'
  | l_enter : l = lidle -> lmoves l s lenter s
  | l_leave : l = lheld -> lmoves l s lleave s.

Lemma linv_moves s ls i l l' s' : linv s ls -> ls !! i = Some l -> lmoves l s l' s' -> linv s' (<[i:=l']> ls).
Proof.
  intros Hinv Hi [|? ? Hs| ->| ->]; [by rewrite list_insert_id|by eapply linv_step|by apply linv_enter|by apply linv_leave].
Qed.

Definition in_Lock l : bool := llocking l || bool_decide (l = lheld).
Definition in_Unlock l : bool := lunlocking l || bool_decide (l = lidle).

Lemma in_Lock_step s ls i l l' s' : linv s ls -> ls !! i = Some l -> lstep l s = Some (l', s') -> in_Lock l = true -> in_Lock l' = true.
Proof.
  unfold in_Lock. intros Hinv Hi Hs [Hl|Hl]%orb_true_iff.
  - destruct (llocking_step _ _ _ _ _ _ Hinv Hi Hs Hl) as [->| ->]; [done|]. rewrite bool_decide_eq_true_2 by done. apply orb_true_r.
  - apply bool_decide_eq_true in Hl as ->. by rewrite (proj2 (lstep_return s)) in Hs.
Qed.

Lemma in_Unlock_step s ls i l l' s' : linv s ls -> ls !! i = Some l -> lstep l s = Some (l', s') -> in_Unlock l = true ->
  in_Unlock l' = true.
Proof.
  unfold in_Unlock. intros Hinv Hi Hs [Hl|Hl]%orb_true_iff.
  - destruct (lunlocking_step _ _ _ _ _ _ Hinv Hi Hs Hl) as [->| ->]; [done|]. rewrite bool_decide_eq_true_2 by done. apply orb_true_r.
  - apply bool_decide_eq_true in Hl as ->. by rewrite (proj1 (lstep_return s)) in Hs.
Qed.

Lemma in_Lock_enter : in_Lock lenter = true.
Proof. unfold in_Lock. by rewrite llocking_enter. Qed.

Lemma in_Unlock_leave : in_Unlock lleave = true.
Proof. unfold in_Unlock. by rewrite lunlocking_leave. Qed.

Lemma in_Lock_held : in_Lock lheld = true.
Proof. unfold in_Lock. rewrite bool_decide_eq_true_2 by done. apply orb_true_r. Qed.

Lemma in_Unlock_idle : in_Unlock lidle = true.
Proof. unfold in_Unlock. rewrite bool_decide_eq_true_2 by done. apply orb_true_r. Qed.
End Moves.

(** * Invariant *)

Section Inv.
Context {M K : Lock} {HM : LockLaws M} {HK : LockLaws K}.
Implicit Types (c : Cond M K) (t : cthread M K) (ts : list (cthread M K)) (p : cpc) (k : @lpc K) (l : @lpc M).

Definition sem c (j : nat) : Z := default 0 (csemas c !! j).

(** What is known at a point of the critical section. *)
Definition at_point c p : Prop :=
  match p with
  | CJoin => newSema c <> None
  | SWake => oldWaiters c = 0 -> newWaiters c = 0
  | BOld i => 0 <= i <= oldWaiters c
  | BTest => oldWaiters c = 0
  | BNew i => oldWaiters c = 0 /\ 0 <= i <= newWaiters c /\ newSema c <> None
  | BNewClear => oldWaiters c = 0 /\ newSema c <> None
  | _ => True
  end.
Definition retiring p : bool := match p with BNew _ | BNewClear => true | _ => false end.

Definition owed c p (j : nat) : Z :=
  (if decide (oldSema c = Some j) then owed_old c p else 0) + (if decide (newSema c = Some j) then owed_new c p else 0).

(** The generations, with [n j] goroutines on the semaphore [j], [N] in all. *)
Record cstatus c (n : nat -> Z) (N : Z) p : Prop := {
  cs_sleeps j : n j = sem c j + owed c p j;
  cs_total : N = tot id (csemas c) + owed_old c p + owed_new c p;
  cs_sem j : 0 <= sem c j;
  cs_old : 0 <= owed_old c p /\ 0 <= oldWaiters c < 2 ^ 29;
  cs_new : 0 <= owed_new c p /\ 0 <= newWaiters c < 2 ^ 29;
  cs_oldSema : match oldSema c with Some j => (j < length (csemas c))%nat | None => owed_old c p = 0 end;
  cs_newSema : match newSema c with
    | Some j => (j < length (csemas c))%nat /\ oldSema c <> Some j /\ (0 < sem c j -> retiring p = true)
    | None => newWaiters c = 0
    end;
  cs_point : at_point c p;
}.

(** Where a goroutine is in m, and in L. *)
Definition consistent t : bool :=
  match t.1.1 with
  | CIdle | CUnlockL _ | CSema _ | CLockL => bool_decide (t.2 = lidle)
  | CLock | SLock | BLock => in_Lock t.2
  | CUnlock _ | CReturn => in_Unlock t.2
  | _ => bool_decide (t.2 = lheld)
  end.

Definition out_L k : bool := bool_decide (k = lidle) || bool_decide (k = lheld).
Definition consistent_L t : bool :=
  match t.1.1 with
  | CIdle => in_Lock t.1.2 || in_Unlock t.1.2
  | CLock | CNew | CJoin | CUnlock _ => bool_decide (t.1.2 = lheld)
  | CUnlockL _ => in_Unlock t.1.2
  | CSema _ => bool_decide (t.1.2 = lidle)
  | CLockL => in_Lock t.1.2
  | _ => out_L t.1.2
  end.

Definition pc_L t : @lpc K := t.1.2.

Record clocks (x : cconfig M K) : Prop := {
  ck_m : linv (cm (cond x)) (snd <$> cthreads x);
  ck_L : linv (cL (cond x)) (pc_L <$> cthreads x);
  ck_consistent i t : cthreads x !! i = Some t -> consistent t && consistent_L t = true;
  ck_small : zlen (cthreads x) < 2 ^ 29;
}.

Definition status c ts : Prop := cstatus c (fun j => cnt (sleeps j) ts) (cnt asleep ts) (holder ts).

Definition cinv (x : cconfig M K) : Prop := clocks x /\ status (cond x) (cthreads x).

Lemma protected_held x i t : clocks x -> cthreads x !! i = Some t -> protected t = true -> t.2 = lheld.
Proof.
  intros Hx Hi Hp. pose proof (ck_consistent _ Hx _ _ Hi) as [Hc _]%andb_true_iff.
  destruct t as [[p k] l]. unfold protected, consistent in *. cbn in *.
  destruct p; try done; by apply bool_decide_eq_true in Hc.
Qed.

Lemma protected_le x : clocks x -> cnt protected (cthreads x) <= 1.
Proof.
  intros Hx. apply (protected_one (cm (cond x))); [apply Hx|]. intros i t Hi Hp. by eapply protected_held.
Qed.

(** ** The holder *)

Lemma holder_none ts : cnt protected ts = 0 -> holder ts = CIdle.
Proof.
  induction ts as [|t ts IH]; cbn; [done|]. pose proof (cnt_nonneg protected ts). destruct (protected t); cbn; [lia|]. exact IH.
Qed.

Lemma holder_at ts i t : cnt protected ts <= 1 -> ts !! i = Some t -> protected t = true -> holder ts = t.1.1.
Proof.
  revert i. induction ts as [|u ts IH]; intros [|i] H1 Hi Hp; try done; cbn in *; [injection Hi as ->; by rewrite Hp|].
  pose proof (cnt_elem protected ts i t Hi Hp). destruct (protected u); cbn in *; [lia|]. by eapply IH.
Qed.

Lemma holder_unchanged ts i t t' : ts !! i = Some t -> protected t = false -> protected t' = false -> holder (<[i:=t']> ts) = holder ts.
Proof.
  revert i. induction ts as [|u ts IH]; intros [|i] Hi Hp Hp'; try done; [injection Hi as ->; cbn; by rewrite Hp, Hp'|].
  change (<[S i:=t']> (u :: ts)) with (u :: <[i:=t']> ts). cbn [holder]. by rewrite (IH i).
Qed.

(** The holder after a step, from the points before and after it. *)
Definition next_holder h t t' : cpc := if protected t' then t'.1.1 else if protected t then CIdle else h.

Lemma holder_move ts i t t' : cnt protected ts <= 1 -> cnt protected (<[i:=t']> ts) <= 1 -> ts !! i = Some t ->
  holder (<[i:=t']> ts) = next_holder (holder ts) t t'.
Proof.
  intros H1 H1' Hi. unfold next_holder. destruct (protected t') eqn:E'; [by eapply holder_at; [done|by eapply lookup_self|]|].
  destruct (protected t) eqn:E; [|by apply holder_unchanged with t]. apply holder_none. revert H1.
  rewrite (cnt_insert _ _ _ _ _ Hi), E, E'. pose proof (cnt_elem _ _ _ _ Hi E). cbn. lia.
Qed.

(** A goroutine that enters the critical section finds it empty. *)
Lemma holder_empty ts i t t' : cnt protected (<[i:=t']> ts) <= 1 -> ts !! i = Some t -> protected t = false -> protected t' = true ->
  holder ts = CIdle.
Proof.
  intros H1 Hi E E'. apply holder_none. revert H1. rewrite (cnt_insert _ _ _ _ _ Hi), E, E'. pose proof (cnt_nonneg protected ts). cbn. lia.
Qed.

(** ** The critical section

    The methods from one access to the next, on the status alone. *)

Lemma sem_insert c j v i : (j < length (csemas c))%nat ->
  sem (set_csemas (<[j:=v]> (csemas c)) c) i = if decide (i = j) then v else sem c i.
Proof.
  intros Hj. unfold sem. cbn. case_decide as E; [subst; by rewrite list_lookup_insert_eq|]. by rewrite list_lookup_insert_ne.
Qed.

Lemma csem_lookup c j : (j < length (csemas c))%nat -> csemas c !! j = Some (sem c j).
Proof. intros [v Hv]%lookup_lt_is_Some. unfold sem. by rewrite Hv. Qed.

Lemma sem_total c j : (forall i, 0 <= sem c i) -> 0 <= tot id (csemas c) /\ sem c j <= tot id (csemas c).
Proof.
  intros Hs. assert (H : forall i v, csemas c !! i = Some v -> 0 <= id v).
  { intros i v Hv. specialize (Hs i). unfold sem in Hs. by rewrite Hv in Hs. }
  pose proof (tot_nonneg id _ H). split; [done|]. unfold sem. destruct (csemas c !! j) as [v|] eqn:E; [|done]. by apply (tot_elem id _ j v).
Qed.

Lemma tot_snoc (l : list Z) : tot id (l ++ [0]) = tot id l.
Proof. induction l as [|v l IH]; cbn [tot app]; unfold id in *; lia. Qed.

(** The fields a status is about. *)
Definition same c c' : Prop :=
  oldWaiters c' = oldWaiters c /\ oldSema c' = oldSema c /\ newWaiters c' = newWaiters c /\ newSema c' = newSema c /\ csemas c' = csemas c.

Lemma cstatus_same c c' n n' N p : cstatus c n N p -> same c c' -> (forall j, n' j = n j) -> cstatus c' n' N p.
Proof.
  destruct c, c'. intros Hst (E1 & E2 & E3 & E4 & E5) E. cbn in *. subst. destruct Hst. split; try done.
  intros j. by rewrite E.
Qed.

(** Proofs that a step keeps the status, field by field. *)
Ltac status_unfold := unfold owed, owed_old, owed_new, done_old, done_new in *; cbn in *.
Ltac status_split H :=
  let H1 := fresh "Hn" in let H2 := fresh "HN" in let H3 := fresh "Hsem" in let H4 := fresh "Hold" in let H5 := fresh "Hnew" in
  let H6 := fresh "HoS" in let H7 := fresh "HnS" in let H8 := fresh "Hpt" in
  destruct H as [H1 H2 H3 H4 H5 H6 H7 H8]; status_unfold; split; status_unfold; auto; try lia.
Ltac owed_cases := intros ?j; repeat match goal with H : forall j : nat, _ |- _ => specialize (H j) end; repeat case_decide; simplify_eq; try lia.

Lemma cstatus_CNew_enter c n N : cstatus c n N CIdle -> cstatus c n N CNew.
Proof. intros H. by status_split H. Qed.

Lemma cstatus_SRetire_enter c n N : cstatus c n N CIdle -> cstatus c n N SRetire.
Proof. intros H. by status_split H. Qed.

Lemma cstatus_BLock_enter c n N : cstatus c n N CIdle -> cstatus c n N (if 0 <? oldWaiters c then BOld 0 else BTest).
Proof. intros H. case_bool; status_split H; try owed_cases; destruct (oldSema c); lia. Qed.

Lemma cstatus_CNew c n N c' : cstatus c n N CNew ->
  c' = match newSema c with
       | Some _ => c
       | None => set_new (newWaiters c) (Some (length (csemas c))) (set_csemas (csemas c ++ [0]) c)
       end ->
  cstatus c' n N CJoin.
Proof.
  intros H ->. destruct (newSema c) as [j|] eqn:E; [by status_split H; rewrite ?E in *; auto|].
  pose proof (cs_oldSema _ _ _ _ H) as Ho.
  assert (Es : forall j, sem (set_new (newWaiters c) (Some (length (csemas c))) (set_csemas (csemas c ++ [0]) c)) j = sem c j).
  { intros j. unfold sem. cbn. destruct (decide (j < length (csemas c))%nat).
    - by rewrite lookup_app_l.
    - rewrite (lookup_ge_None_2 (csemas c)) by lia. destruct (decide (j = length (csemas c))) as [->|]; [by rewrite list_lookup_middle|].
      rewrite lookup_ge_None_2; [done|]. rewrite length_app. cbn. lia. }
  pose proof (tot_snoc (csemas c)) as Et.
  pose proof (Es (length (csemas c))) as El. unfold sem in El at 2. rewrite lookup_ge_None_2 in El by done. cbn in El.
  destruct H as [H1 H2 H3 H4 H5 H6 H7 H8]. rewrite E in H7.
  split; intros; rewrite ?Es, ?Et; status_unfold; rewrite ?E in *; rewrite ?Et; auto.
  - specialize (H1 j). repeat case_decide; simplify_eq; lia.
  - destruct (oldSema c); [rewrite length_app; cbn; lia|done].
  - rewrite El, length_app. cbn. split_and!; [lia| |lia]. intros Eo. rewrite Eo in H6. lia.
Qed.

Lemma cstatus_CJoin c n N s n' : cstatus c n N CJoin -> newSema c = Some s -> N + 1 < 2 ^ 29 ->
  (forall j, n' j = n j + Z.b2z (s =? j)%nat) ->
  cstatus (set_new (int (newWaiters c + 1)) (newSema c) c) n' (N + 1) CIdle.
Proof.
  intros H Es HN' Hn'. destruct (sem_total c 0 (cs_sem _ _ _ _ H)) as [Ht _].
  assert (Ei : int (newWaiters c + 1) = newWaiters c + 1).
  { apply int_small. destruct H as [_ H2 _ H4 H5 _ _ _]. status_unfold. lia. }
  destruct H as [H1 H2 H3 H4 H5 H6 H7 H8]. rewrite Ei. rewrite Es in *. split; intros; status_unfold; rewrite ?Es in *; auto; try lia.
  all: change (sem (set_new _ _ c) j) with (sem c j). 2: done. specialize (H1 j). rewrite Hn'.
  destruct (Nat.eqb_spec s j); repeat case_decide; simplify_eq; cbn; lia.
Qed.

Lemma cstatus_CSema c n N s n' p : cstatus c n N p -> (s < length (csemas c))%nat -> 0 < sem c s ->
  (forall j, n' j = n j - Z.b2z (s =? j)%nat) ->
  cstatus (set_csemas (<[s:=sem c s - 1]> (csemas c)) c) n' (N - 1) p.
Proof.
  intros H Hs Hpos Hn'. destruct H as [H1 H2 H3 H4 H5 H6 H7 H8].
  split; intros; rewrite ?sem_insert by done; rewrite ?Hn'; cbn [csemas set_csemas oldSema newSema]; rewrite ?length_insert; try done.
  - rewrite H1. change (owed (set_csemas _ c)) with (owed c). destruct (Nat.eqb_spec s j); case_decide; simplify_eq; cbn; lia.
  - rewrite (tot_insert id _ _ _ _ (csem_lookup _ _ Hs)). change (owed_old (set_csemas _ c)) with (owed_old c).
    change (owed_new (set_csemas _ c)) with (owed_new c). unfold id in *. lia.
  - specialize (H3 j). case_decide; lia.
  - destruct (newSema c) as [j|]; [|done]. destruct H7 as (? & ? & H7). split_and!; [done..|].
    rewrite sem_insert by done. case_decide; subst; intros; apply H7; lia.
Qed.

(** Retiring the old generation. *)
Lemma cstatus_SRetire c n N c' : cstatus c n N SRetire ->
  c' = (if (oldWaiters c =? 0) && (0 <? newWaiters c) then MkCond (cL c) (cm c) (newWaiters c) (newSema c) 0 None (csemas c) else c) ->
  cstatus c' n N SWake.
Proof.
  intros H ->. destruct (Z.eqb_spec (oldWaiters c) 0) as [E|E]; [|by status_split H]. destruct (Z.ltb_spec 0 (newWaiters c)) as [E'|E'].
  - destruct H as [H1 H2 H3 H4 H5 H6 H7 H8]. status_unfold. split; intros; status_unfold; try lia; try done.
    + specialize (H1 j). change (sem (MkCond _ _ _ _ _ _ _) j) with (sem c j). repeat case_decide; simplify_eq; lia.
    + apply H3.
    + destruct (newSema c); [|lia]. apply H7.
  - status_split H; lia.
Qed.

Lemma cstatus_SWake_take c n N : cstatus c n N SWake -> 0 < oldWaiters c ->
  cstatus (set_oldWaiters (int (oldWaiters c - 1)) c) n N SRelease.
Proof.
  intros H Hp. assert (int (oldWaiters c - 1) = oldWaiters c - 1) as -> by (apply int_small; destruct (cs_old _ _ _ _ H); lia).
  destruct H as [H1 H2 H3 H4 H5 H6 H7 H8]. split; intros; status_unfold; auto; try lia.
  - specialize (H1 j). change (sem (set_oldWaiters _ c) j) with (sem c j). repeat case_decide; lia.
  - apply H3.
  - destruct (oldSema c); [done|lia].
Qed.

(** A status says the same at two points that owe the same. *)
Lemma cstatus_move c n N p p' : cstatus c n N p -> done_old c p' = done_old c p -> done_new c p' = done_new c p ->
  at_point c p' -> (retiring p = true -> retiring p' = true) -> cstatus c n N p'.
Proof.
  intros [H1 H2 H3 H4 H5 H6 H7 H8] E1 E2 Hp Hr. split; unfold owed, owed_old, owed_new in *; rewrite ?E1, ?E2; try done.
  destruct (newSema c); [|done]. naive_solver.
Qed.

(** One wake-up, for a generation that is owed one. *)
Definition released c (j : nat) : Cond M K := set_csemas (<[j:=sem c j + 1]> (csemas c)) c.

Lemma release_spec c n N p j : cstatus c n N p -> N < 2 ^ 29 -> (j < length (csemas c))%nat -> release (Some j) c = Some (released c j).
Proof.
  intros H HN Hj. unfold release, released. cbn. rewrite (csem_lookup _ _ Hj). cbn. rewrite Semrelease_small; [done|].
  destruct (sem_total c j (cs_sem _ _ _ _ H)) as [_ Hle]. pose proof (cs_sem _ _ _ _ H j). pose proof (cs_total _ _ _ _ H).
  pose proof (cs_old _ _ _ _ H). pose proof (cs_new _ _ _ _ H). lia.
Qed.

Lemma cstatus_released c n N p p' j : cstatus c n N p -> (j < length (csemas c))%nat ->
  (forall i, owed c p' i = owed c p i - (if decide (i = j) then 1 else 0)) ->
  owed_old c p' + owed_new c p' = owed_old c p + owed_new c p - 1 -> 0 <= owed_old c p' -> 0 <= owed_new c p' ->
  (oldSema c = None -> owed_old c p' = owed_old c p) -> at_point c p' ->
  (newSema c = Some j -> retiring p' = true) -> (retiring p = true -> retiring p' = true) -> cstatus (released c j) n N p'.
Proof.
  intros [H1 H2 H3 H4 H5 H6 H7 H8] Hj Ho Ht Hpo Hpn Hno Hpt Hr Hrp. unfold released.
  split; intros; rewrite ?sem_insert by done; cbn [csemas set_csemas oldSema newSema]; rewrite ?length_insert.
  - rewrite H1. change (owed (set_csemas _ c)) with (owed c). rewrite Ho. repeat case_decide; subst; lia.
  - rewrite (tot_insert id _ _ _ _ (csem_lookup _ _ Hj)). change (owed_old (set_csemas _ c)) with (owed_old c).
    change (owed_new (set_csemas _ c)) with (owed_new c). unfold id in *. lia.
  - pose proof (H3 j). specialize (H3 j0). case_decide; lia.
  - split; [done|apply H4].
  - split; [done|apply H5].
  - destruct (oldSema c); [done|]. change (owed_old (set_csemas _ c)) with (owed_old c). rewrite Hno; done.
  - destruct (newSema c) as [i|]; [|done]. destruct H7 as (? & ? & H7). split_and!; [done..|]. rewrite sem_insert by done.
    case_decide; subst; auto.
  - done.
Qed.

Lemma release_old c n N p p' : cstatus c n N p -> N < 2 ^ 29 -> done_old c p' = done_old c p + 1 -> done_new c p' = done_new c p ->
  0 < owed_old c p -> at_point c p' -> retiring p = false ->
  exists j, oldSema c = Some j /\ release (oldSema c) c = Some (released c j) /\ cstatus (released c j) n N p'.
Proof.
  intros H HN E1 E2 Hpos Hpt Hr. pose proof (cs_oldSema _ _ _ _ H) as Hj. pose proof (cs_newSema _ _ _ _ H) as Hne.
  destruct (oldSema c) as [j|] eqn:E; [|lia]. exists j. split_and!; [done|by eapply release_spec|].
  assert (owed_old c p' = owed_old c p - 1) as Eo by (unfold owed_old; lia).
  assert (owed_new c p' = owed_new c p) as En by (unfold owed_new; lia).
  eapply cstatus_released; [done|done| |lia|lia|rewrite En; apply H|by rewrite E|done| |by rewrite Hr].
  - intros i. unfold owed. rewrite Eo, En, E. repeat case_decide; simplify_eq; lia.
  - intros En'. rewrite En' in Hne. destruct Hne as (_ & ? & _). congruence.
Qed.

Lemma release_new c n N p p' : cstatus c n N p -> N < 2 ^ 29 -> done_old c p' = done_old c p -> done_new c p' = done_new c p + 1 ->
  0 < owed_new c p -> at_point c p' -> retiring p' = true -> newSema c <> None ->
  exists j, newSema c = Some j /\ release (newSema c) c = Some (released c j) /\ cstatus (released c j) n N p'.
Proof.
  intros H HN E1 E2 Hpos Hpt Hr Hsome. pose proof (cs_newSema _ _ _ _ H) as Hj.
  destruct (newSema c) as [j|] eqn:E; [|done]. destruct Hj as (Hj & Hne & _). exists j. split_and!; [done|by eapply release_spec|].
  assert (owed_old c p' = owed_old c p) as Eo by (unfold owed_old; lia).
  assert (owed_new c p' = owed_new c p - 1) as En by (unfold owed_new; lia).
  eapply cstatus_released; [done|done| |lia|rewrite Eo; apply H|lia|done|done|done|done].
  intros i. unfold owed. rewrite Eo, En, E. repeat case_decide; simplify_eq; lia.
Qed.

(** The ends of the loops of Broadcast. *)
Lemma cstatus_BOldClear c n N : cstatus c n N BOldClear -> cstatus (set_oldWaiters 0 c) n N BTest.
Proof.
  intros H. destruct H as [H1 H2 H3 H4 H5 H6 H7 H8]. split; intros; status_unfold; auto; try lia.
  - specialize (H1 j). change (sem (set_oldWaiters _ c) j) with (sem c j). repeat case_decide; lia.
  - apply H3.
  - destruct (oldSema c); [done|lia].
Qed.

Lemma cstatus_BNewClear c n N : cstatus c n N BNewClear -> cstatus (set_new 0 None c) n N CIdle.
Proof.
  intros H. destruct H as [H1 H2 H3 H4 H5 H6 H7 H8]. split; intros; status_unfold; auto; try lia.
  - specialize (H1 j). change (sem (set_new _ _ c) j) with (sem c j). repeat case_decide; simplify_eq; lia.
  - apply H3.
Qed.

Lemma cstatus_BTest c n N : cstatus c n N BTest -> 0 < newWaiters c -> cstatus c n N (BNew 0).
Proof.
  intros H Hp. pose proof (cs_newSema _ _ _ _ H) as Hs. pose proof (cs_point _ _ _ _ H) as Ho. cbn in Ho.
  eapply cstatus_move; [done|done|done| |done]. cbn. split_and!; [done|lia|lia|]. by destruct (newSema c); [|lia].
Qed.

(** ** The locks *)

(** Only one of the methods has a step at a point. *)
Lemma cond_step_at p k l c : cond_step (p, k, l) c =
  match p with
  | CIdle => Locker_step p k l c
  | CLock | CNew | CJoin | CUnlock _ | CUnlockL _ | CSema _ | CLockL => Wait_step p k l c
  | SLock | SRetire | SWake | SRelease | CReturn => Signal_step p k l c
  | _ => Broadcast_step p k l c
  end.
Proof. unfold cond_step. destruct p; cbn [Wait_step Signal_step Broadcast_step Locker_step]; repeat case_match; congruence. Qed.

Lemma clocks_move c c' ts i t t' : clocks (MkCConfig c ts) -> ts !! i = Some t ->
  lmoves t.2 (cm c) t'.2 (cm c') -> lmoves (pc_L t) (cL c) (pc_L t') (cL c') -> consistent t' && consistent_L t' = true ->
  clocks (MkCConfig c' (<[i:=t']> ts)).
Proof.
  intros [Hm HL Hc Hsm] Hi Mm ML Ht. cbn in *. split; cbn [cond cthreads].
  - rewrite list_fmap_insert. eapply linv_moves; [done| |done]. by rewrite list_lookup_fmap, Hi.
  - rewrite list_fmap_insert. eapply linv_moves; [done| |done]. by rewrite list_lookup_fmap, Hi.
  - intros j u Hj. destruct (decide (j = i)) as [->|Hne]; [rewrite (lookup_self _ _ _ _ Hi) in Hj; by injection Hj as <-|].
    rewrite list_lookup_insert_ne in Hj by done. by eapply Hc.
  - unfold zlen in *. by rewrite length_insert.
Qed.

(** Where the locks are after a step of one goroutine. *)
Ltac lock_facts Hc :=
  apply andb_true_iff in Hc; let H1 := fresh "Hcm" in let H2 := fresh "HcL" in destruct Hc as [H1 H2];
  cbn [consistent consistent_L fst snd] in H1, H2; try apply bool_decide_eq_true in H1; try apply bool_decide_eq_true in H2.
Ltac lock_goal := first [apply l_stay | by apply l_step | by apply l_enter | by apply l_leave].

Lemma out_L_idle k l : out_L k = true -> consistent_L (CIdle, k, l) = true.
Proof.
  unfold out_L, consistent_L. cbn. intros [->%bool_decide_eq_true| ->%bool_decide_eq_true]%orb_true_iff;
    [by rewrite in_Unlock_idle, orb_true_r|by rewrite in_Lock_held].
Qed.

Ltac lock_points :=
  cbn [consistent consistent_L fst snd];
  rewrite ?in_Lock_enter, ?in_Unlock_leave, ?in_Lock_held, ?in_Unlock_idle, ?bool_decide_eq_true_2, ?orb_true_r by done;
  rewrite ?andb_true_r; cbn [andb]; try match goal with
  | H : out_L _ = true |- out_L _ && _ = true => rewrite H
  | H : out_L _ = true |- _ && out_L _ = true => rewrite H, andb_true_r
  | _ => idtac
  end; try match goal with
  | H : lstep _ _ = Some _, Hx : clocks _, Hm : _ !! _ = Some _ |- in_Lock _ = true => by eapply in_Lock_step; [apply Hx|exact Hm|exact H|]
  | H : lstep _ _ = Some _, Hx : clocks _, Hm : _ !! _ = Some _ |- in_Unlock _ = true => by eapply in_Unlock_step; [apply Hx|exact Hm|exact H|]
  end.

Lemma clocks_internal c ts i t t' c' : clocks (MkCConfig c ts) -> ts !! i = Some t -> cond_step t c = Some (t', c') ->
  clocks (MkCConfig c' (<[i:=t']> ts)).
Proof.
  intros Hx Hi Hs. pose proof (ck_consistent _ Hx _ _ Hi) as Hc. destruct t as [[p k] l]. rewrite cond_step_at in Hs.
  assert (Hm : (snd <$> ts) !! i = Some l) by (by rewrite list_lookup_fmap, Hi).
  assert (HL : (pc_L <$> ts) !! i = Some k) by (by rewrite list_lookup_fmap, Hi).
  destruct p; cbn in Hs; unfold in_m, in_L, release in Hs; lock_facts Hc.
  all: try match type of Hs with context [CUnlock _] => destruct (newSema c) end; repeat (case_match || simplify_option_eq).
  all: eapply clocks_move; [exact Hx|exact Hi| | |]; unfold pc_L; cbn [fst snd cm cL set_cm set_cL set_new set_csemas set_oldWaiters].
  all: try lock_goal; try by lock_points.
  - apply andb_true_iff. split; [by lock_points|]. cbn [consistent_L fst snd].
    apply orb_true_iff in HcL as [HcL|HcL]; apply orb_true_iff; [left|right];
      [by eapply in_Lock_step; [apply Hx|exact HL|done|]|by eapply in_Unlock_step; [apply Hx|exact HL|done|]].
  - apply andb_true_iff. split; [by lock_points|]. by apply out_L_idle.
Qed.

Lemma clocks_step x y : clocks x -> cstep x y -> clocks y.
Proof.
  intros Hx Hs. destruct Hs as [c ts i t t' c' Hi Ht|c ts i l Hi|c ts i l Hi|c ts i l Hi|c ts i k l Hi Hk|c ts i k l Hi Hk];
    [by eapply clocks_internal|..]; pose proof (ck_consistent _ Hx _ _ Hi) as Hc; lock_facts Hc; subst;
    eapply clocks_move; try done; unfold pc_L; cbn [fst snd]; try lock_goal; try by lock_points.
  all: assert (out_L k = true) by (apply orb_true_iff; destruct Hk; [left|right]; by apply bool_decide_eq_true).
  all: by lock_points.
Qed.

Lemma clocks_init n : Z.of_nat n < 2 ^ 29 -> clocks (cinit n : cconfig M K).
Proof.
  intros Hn. split; cbn [cond cthreads cinit NewCond cm cL].
  - rewrite fmap_replicate. by apply linv_new.
  - rewrite fmap_replicate. by apply linv_new.
  - intros i t [-> _]%lookup_replicate. lock_points. done.
  - unfold zlen. by rewrite length_replicate.
Qed.

(** ** The status *)

Lemma status_move x c c' ts i t t' : x = MkCConfig c ts -> clocks x -> clocks (MkCConfig c' (<[i:=t']> ts)) -> ts !! i = Some t ->
  cstatus c' (fun j => cnt (sleeps j) ts - Z.b2z (sleeps j t) + Z.b2z (sleeps j t'))
    (cnt asleep ts - Z.b2z (asleep t) + Z.b2z (asleep t')) (next_holder (holder ts) t t') ->
  status c' (<[i:=t']> ts).
Proof.
  intros -> Hx Hy Hi Hst. unfold status. rewrite (cnt_insert _ _ _ _ _ Hi).
  rewrite (holder_move ts i t t' (protected_le _ Hx) (protected_le _ Hy) Hi). eapply cstatus_same; [done|done|].
  intros j. cbn. by rewrite (cnt_insert _ _ _ _ _ Hi).
Qed.

(** A step outside of the critical section that is none of Semacquire. *)
Lemma status_quiet c c' ts i t t' : clocks (MkCConfig c ts) -> clocks (MkCConfig c' (<[i:=t']> ts)) -> ts !! i = Some t -> status c ts ->
  same c c' -> protected t = false -> protected t' = false -> asleep t' = asleep t -> (forall j, sleeps j t' = sleeps j t) ->
  status c' (<[i:=t']> ts).
Proof.
  intros Hx Hy Hi Hst Hs E E' Ea Es. eapply status_move; [done|done|done|done|]. unfold next_holder. rewrite E, E', Ea, Z.sub_add.
  eapply cstatus_same; [done|done|]. intros j. cbn. rewrite Es. lia.
Qed.

(** A step of the critical section that no goroutine joins. *)
Lemma status_inside c c' ts i t t' : clocks (MkCConfig c ts) -> clocks (MkCConfig c' (<[i:=t']> ts)) -> ts !! i = Some t ->
  protected t || protected t' = true -> asleep t' = asleep t -> (forall j, sleeps j t' = sleeps j t) ->
  cstatus c' (fun j => cnt (sleeps j) ts) (cnt asleep ts) (if protected t' then t'.1.1 else CIdle) ->
  status c' (<[i:=t']> ts).
Proof.
  intros Hx Hy Hi E Ea Es Hst. eapply status_move; [done|done|done|done|]. rewrite Ea, Z.sub_add. unfold next_holder.
  assert ((if protected t' then t'.1.1 else if protected t then CIdle else holder ts) = if protected t' then t'.1.1 else CIdle) as ->.
  { destruct (protected t'); [done|]. destruct (protected t); [done|]. done. }
  eapply cstatus_same; [done|done|]. intros j. cbn. rewrite Es. lia.
Qed.

(** What the goroutine in the critical section can rely on. *)
Lemma status_at c ts i t : clocks (MkCConfig c ts) -> status c ts -> ts !! i = Some t -> protected t = true ->
  cstatus c (fun j => cnt (sleeps j) ts) (cnt asleep ts) t.1.1.
Proof. intros Hx Hst Hi E. unfold status in Hst. by rewrite (holder_at ts i t (protected_le _ Hx) Hi E) in Hst. Qed.

(** What the goroutine that enters it can rely on. *)
Lemma status_free c c' ts i t t' : clocks (MkCConfig c' (<[i:=t']> ts)) -> status c ts -> ts !! i = Some t ->
  protected t = false -> protected t' = true -> cstatus c (fun j => cnt (sleeps j) ts) (cnt asleep ts) CIdle.
Proof. intros Hy Hst Hi E E'. unfold status in Hst. by rewrite (holder_empty ts i t t' (protected_le _ Hy) Hi E E') in Hst. Qed.

Lemma asleep_small c ts : clocks (MkCConfig c ts) -> cnt asleep ts < 2 ^ 29.
Proof. intros Hx. pose proof (ck_small _ Hx). pose proof (cnt_length asleep ts). cbn in *. lia. Qed.

(** A call of one of the locks: over, or a step further. *)
Lemma in_m_cases p q stop k l c t' c' : in_m p q stop k l c = Some (t', c') ->
  t' = (q, k, l) /\ c' = c \/ exists l', t' = (p, k, l') /\ same c c'.
Proof.
  unfold in_m. case_decide; [intros [= <- <-]; by left|]. destruct (lstep l (cm c)) as [[l' s]|]; [|done].
  intros [= <- <-]. right. by exists l'.
Qed.

Lemma in_L_cases p q stop k l c t' c' : in_L p q stop k l c = Some (t', c') ->
  t' = (q, k, l) /\ c' = c \/ exists k', t' = (p, k', l) /\ same c c'.
Proof.
  unfold in_L. case_decide; [intros [= <- <-]; by left|]. destruct (lstep k (cL c)) as [[k' s]|]; [|done].
  intros [= <- <-]. right. by exists k'.
Qed.

Ltac quiet := by eapply status_quiet.

Section Step.
Context c c' ts i t' (Hx : clocks (MkCConfig c ts)) (Hy : clocks (MkCConfig c' (<[i:=t']> ts))) (Hst : status c ts).

Lemma status_Wait p k l : ts !! i = Some (p, k, l) -> Wait_step p k l c = Some (t', c') -> status c' (<[i:=t']> ts).
Proof.
  intros Hi Hs. destruct p; try done; cbn in Hs.
  - apply in_m_cases in Hs as [[-> ->]|(l' & -> & Hsame)]; [|quiet].
    eapply status_inside; try done. eapply cstatus_CNew_enter, status_free; done.
  - injection Hs as <- <-. eapply status_inside; try done. eapply cstatus_CNew; [by eapply (status_at _ _ _ (CNew, k, l))|done].
  - destruct (newSema c) as [s|] eqn:E; [|done]. injection Hs as <- <-. eapply status_move; [done|done|done|done|].
    pose proof (asleep_small _ _ Hy) as Hsm. rewrite (cnt_insert _ _ _ _ _ Hi) in Hsm.
    unfold next_holder in *. cbn in *. rewrite <- E. rewrite Z.sub_0_r in *.
    eapply cstatus_CJoin; [by eapply (status_at _ _ _ (CJoin, k, l))|done|lia|]. intros j. cbn. lia.
  - case_decide; [injection Hs as <- <-; quiet|]. apply in_m_cases in Hs as [[-> ->]|(l' & -> & Hsame)]; quiet.
  - apply in_L_cases in Hs as [[-> ->]|(k' & -> & Hsame)]; quiet.
  - destruct (csemas c !! s) as [v|] eqn:E; [|done]. cbn in Hs. destruct (Semacquire v) as [v'|] eqn:E'; [|done]. injection Hs as <- <-.
    apply Semacquire_Some in E' as [Hv ->]. eapply status_move; [done|done|done|done|]. unfold next_holder. cbn. rewrite Z.add_0_r.
    assert (sem c s = v) as <- by (unfold sem; by rewrite E). eapply cstatus_CSema; [done|by eapply lookup_lt_Some|done|].
    intros j. cbn. lia.
  - apply in_L_cases in Hs as [[-> ->]|(k' & -> & Hsame)]; quiet.
Qed.

Lemma status_Signal p k l : ts !! i = Some (p, k, l) -> Signal_step p k l c = Some (t', c') -> status c' (<[i:=t']> ts).
Proof.
  intros Hi Hs. pose proof (asleep_small _ _ Hx) as Hsm. destruct p; try done; cbn in Hs.
  - apply in_m_cases in Hs as [[-> ->]|(l' & -> & Hsame)]; [|quiet].
    eapply status_inside; try done. eapply cstatus_SRetire_enter, status_free; done.
  - injection Hs as <- <-. eapply status_inside; try done. eapply cstatus_SRetire; [by eapply (status_at _ _ _ (SRetire, k, l))|done].
  - pose proof (status_at _ _ _ (SWake, k, l) Hx Hst Hi eq_refl) as Hat.
    destruct (Z.ltb_spec 0 (oldWaiters c)); injection Hs as <- <-; eapply status_inside; try done; [by apply cstatus_SWake_take|].
    by eapply cstatus_move.
  - pose proof (status_at _ _ _ (SRelease, k, l) Hx Hst Hi eq_refl) as Hat.
    destruct (release_old _ _ _ _ CIdle Hat) as (j & _ & E & Hst'); try done; [pose proof (cs_old _ _ _ _ Hat); status_unfold; lia|].
    rewrite E in Hs. injection Hs as <- <-. by eapply status_inside.
  - apply in_m_cases in Hs as [[-> ->]|(l' & -> & Hsame)]; quiet.
Qed.

Lemma status_Broadcast p k l : ts !! i = Some (p, k, l) -> Broadcast_step p k l c = Some (t', c') -> status c' (<[i:=t']> ts).
Proof.
  intros Hi Hs. pose proof (asleep_small _ _ Hx) as Hsm. destruct p; try done; cbn in Hs.
  - apply in_m_cases in Hs as [[-> ->]|(l' & -> & Hsame)]; [|quiet].
    assert (E : inside (if 0 <? oldWaiters c then BOld 0 else BTest) = true) by (by destruct (0 <? oldWaiters c)).
    eapply status_inside; try done; [by destruct (0 <? oldWaiters c)..|]. unfold protected. cbn [fst]. rewrite E.
    by eapply cstatus_BLock_enter, status_free.
  - pose proof (status_at _ _ _ (BOld i0, k, l) Hx Hst Hi eq_refl) as Hat. pose proof (cs_point _ _ _ _ Hat) as Hpt.
    pose proof (cs_old _ _ _ _ Hat) as [_ Hb]. cbn in Hpt, Hat.
    destruct (Z.ltb_spec i0 (oldWaiters c)) as [Hlt|Hge].
    + rewrite int_small in Hs by lia.
      destruct (release_old _ _ _ _ (BOld (i0 + 1)) Hat) as (j & _ & E & Hst'); try done; [status_unfold; lia|cbn; lia|].
      rewrite E in Hs. injection Hs as <- <-. by eapply status_inside.
    + injection Hs as <- <-. eapply status_inside; try done. eapply cstatus_move; try done. cbn. lia.
  - injection Hs as <- <-. eapply status_inside; try done. apply cstatus_BOldClear. by eapply (status_at _ _ _ (BOldClear, k, l)).
  - pose proof (status_at _ _ _ (BTest, k, l) Hx Hst Hi eq_refl) as Hat.
    destruct (Z.ltb_spec 0 (newWaiters c)); injection Hs as <- <-; eapply status_inside; try done; [by apply cstatus_BTest|].
    by eapply cstatus_move.
  - pose proof (status_at _ _ _ (BNew i0, k, l) Hx Hst Hi eq_refl) as Hat. pose proof (cs_point _ _ _ _ Hat) as (Hz & Hpt & Hsome).
    pose proof (cs_new _ _ _ _ Hat) as [_ Hb]. cbn in Hat.
    destruct (Z.ltb_spec i0 (newWaiters c)) as [Hlt|Hge].
    + rewrite int_small in Hs by lia.
      destruct (release_new _ _ _ _ (BNew (i0 + 1)) Hat) as (j & _ & E & Hst'); try done;
        [status_unfold; lia|cbn; split_and!; done || lia|].
      rewrite E in Hs. injection Hs as <- <-. by eapply status_inside.
    + injection Hs as <- <-. eapply status_inside; try done. eapply cstatus_move; try done. cbn. lia.
  - injection Hs as <- <-. eapply status_inside; try done. apply cstatus_BNewClear. by eapply (status_at _ _ _ (BNewClear, k, l)).
Qed.
End Step.

Lemma status_internal c c' ts i t t' : cinv (MkCConfig c ts) -> clocks (MkCConfig c' (<[i:=t']> ts)) -> ts !! i = Some t ->
  cond_step t c = Some (t', c') -> status c' (<[i:=t']> ts).
Proof.
  intros [Hx Hst] Hy Hi Hs. destruct t as [[p k] l]. rewrite cond_step_at in Hs.
  destruct p; try first [by eapply status_Wait|by eapply status_Signal|by eapply status_Broadcast]. cbn in Hs.
  destruct (lstep k (cL c)) as [[k' s]|]; [|done]. injection Hs as <- <-. by eapply status_quiet.
Qed.

Lemma cinv_step x y : cinv x -> cstep x y -> cinv y.
Proof.
  intros Hx Hs. pose proof (clocks_step _ _ (proj1 Hx) Hs) as Hy. split; [done|]. destruct Hs; cbn [cond cthreads];
    [by eapply status_internal|..]; by eapply status_quiet; [apply Hx| | |apply Hx|..].
Qed.

Lemma cinv_init n : Z.of_nat n < 2 ^ 29 -> cinv (cinit n : cconfig M K).
Proof.
  intros Hn. split; [by apply clocks_init|]. unfold status. cbn [cond cthreads cinit].
  rewrite holder_none by (by apply cnt_replicate). rewrite (cnt_replicate asleep) by done.
  split; intros; cbn; rewrite ?cnt_replicate by done; done || lia.
Qed.

Lemma cinv_reachable n x : Z.of_nat n < 2 ^ 29 -> rtc cstep (cinit n : cconfig M K) x -> cinv x.
Proof. intros Hn. apply (rtc_invariant cinv cinv_step). by apply cinv_init. Qed.

(** ** Effects *)

Definition waits (o : option aop) : Z := match o with Some AJoin => 1 | Some ALeave => -1 | _ => 0 end.
Definition wakes (o : option aop) : Z := match o with Some AWake => 1 | Some ALeave => -1 | _ => 0 end.

Lemma cabs_status c ts : status c ts ->
  cabs (MkCConfig c ts) = MkACond (cnt asleep ts - tot id (csemas c)) (tot id (csemas c)) /\ tot id (csemas c) <= cnt asleep ts.
Proof.
  intros Hst. pose proof (cs_total _ _ _ _ Hst). pose proof (cs_old _ _ _ _ Hst). pose proof (cs_new _ _ _ _ Hst).
  unfold cabs. cbn [cond cthreads]. split; [f_equal|]; lia.
Qed.

(** The goroutines that wait. *)
Lemma asleep_step c c' p k l t' : cond_step (p, k, l) c = Some (t', c') ->
  Z.b2z (asleep t') = Z.b2z (asleep (p, k, l)) + waits (effect c p).
Proof.
  rewrite cond_step_at. intros Hs.
  destruct p; cbn in Hs; try (apply in_m_cases in Hs as [[-> ->]|(l' & -> & _)]; try done; by destruct (0 <? oldWaiters c));
    try (by apply in_L_cases in Hs as [[-> ->]|(l' & -> & _)]); unfold release in Hs; cbn.
  all: destruct (newSema c) eqn:E; repeat (case_match || simplify_option_eq); try done.
  all: by apply in_m_cases in Hs as [[-> ->]|(l' & -> & _)].
Qed.

Lemma same_semas c c' : same c c' -> csemas c' = csemas c.
Proof. by intros (_ & _ & _ & _ & ?). Qed.

Lemma released_total c j : (j < length (csemas c))%nat -> tot id (csemas (released c j)) = tot id (csemas c) + 1.
Proof. intros Hj. cbn. rewrite (tot_insert id _ _ _ _ (csem_lookup _ _ Hj)). unfold id. lia. Qed.

(** The wake-ups under way. *)
Lemma wake_release c n N p j : cstatus c n N p -> N < 2 ^ 29 -> forall s c', s = oldSema c \/ s = newSema c -> s = Some j ->
  release s c = Some c' -> tot id (csemas c') = tot id (csemas c) + 1.
Proof.
  intros H HN s c' Hs -> Hr. assert (Hj : (j < length (csemas c))%nat).
  { pose proof (cs_oldSema _ _ _ _ H). pose proof (cs_newSema _ _ _ _ H). destruct Hs as [E|E]; rewrite <- E in *; naive_solver. }
  rewrite (release_spec _ _ _ _ _ H HN Hj) in Hr. injection Hr as <-. by apply released_total.
Qed.

Lemma wake_step c c' ts p k l t' : status c ts -> clocks (MkCConfig c ts) -> cond_step (p, k, l) c = Some (t', c') ->
  tot id (csemas c') = tot id (csemas c) + wakes (effect c p).
Proof.
  intros Hst Hx Hs. rewrite cond_step_at in Hs. pose proof (asleep_small _ _ Hx) as HN.
  assert (Hrel : forall s c1, s = oldSema c \/ s = newSema c -> release s c = Some c1 -> tot id (csemas c1) = tot id (csemas c) + 1).
  { intros [j|] c1 Hj Hr; [|done]. by eapply (wake_release _ _ _ _ j Hst HN). }
  destruct p; cbn in Hs; try (apply in_m_cases in Hs as [[-> ->]|(l' & -> & E%same_semas)]; rewrite ?E; cbn; lia);
    try (apply in_L_cases in Hs as [[-> ->]|(l' & -> & E%same_semas)]; rewrite ?E; cbn; lia); cbn.
  - destruct (lstep k (cL c)) as [[k' s]|]; [|done]. injection Hs as <- <-. cbn. lia.
  - injection Hs as <- <-. destruct (newSema c); cbn; rewrite ?tot_snoc; lia.
  - destruct (newSema c); [|done]. injection Hs as <- <-. cbn. lia.
  - case_decide; [injection Hs as <- <-; lia|]. apply in_m_cases in Hs as [[-> ->]|(l' & -> & E%same_semas)]; rewrite ?E; lia.
  - destruct (csemas c !! s) as [v|] eqn:E; [|done]. cbn in Hs. destruct (Semacquire v) as [v'|] eqn:E'; [|done]. injection Hs as <- <-.
    apply Semacquire_Some in E' as [Hv ->]. cbn. rewrite (tot_insert id _ _ _ _ E). unfold id. lia.
  - injection Hs as <- <-. destruct ((oldWaiters c =? 0) && (0 <? newWaiters c)); cbn; lia.
  - destruct (0 <? oldWaiters c); injection Hs as <- <-; cbn; lia.
  - destruct (release (oldSema c) c) eqn:E; [|done]. injection Hs as <- <-. by apply Hrel with (oldSema c); [left|].
  - destruct (i <? oldWaiters c); [destruct (release (oldSema c) c) eqn:E; [|done]|]; injection Hs as <- <-; cbn; [|lia].
    by apply Hrel with (oldSema c); [left|].
  - injection Hs as <- <-. cbn. lia.
  - destruct (0 <? newWaiters c); injection Hs as <- <-; cbn; lia.
  - destruct (i <? newWaiters c); [destruct (release (newSema c) c) eqn:E; [|done]|]; injection Hs as <- <-; cbn; [|lia].
    by apply Hrel with (newSema c); [right|].
  - injection Hs as <- <-. cbn. lia.
Qed.

Lemma refines_step c c' ts i t t' : cinv (MkCConfig c ts) -> cinv (MkCConfig c' (<[i:=t']> ts)) -> ts !! i = Some t ->
  cond_step t c = Some (t', c') ->
  let x := MkCConfig c ts in let y := MkCConfig c' (<[i:=t']> ts) in
  match effect c t.1.1 with Some o => astep o (cabs x) (cabs y) | None => cabs y = cabs x end.
Proof.
  intros [Hx Hst] [Hy Hst'] Hi Hs. cbn [cond cthreads] in *. cbn zeta. destruct (cabs_status _ _ Hst) as [-> Hle].
  destruct (cabs_status _ _ Hst') as [-> Hle'].
  destruct t as [[p k] l]. pose proof (asleep_step _ _ _ _ _ _ Hs) as Ea. pose proof (wake_step _ _ _ _ _ _ _ Hst Hx Hs) as Ew.
  destruct (sem_total c' 0 (cs_sem _ _ _ _ Hst')) as [Hnn _]. rewrite (cnt_insert _ _ _ _ _ Hi) in *. rewrite Ew in *. cbn [fst].
  destruct (effect c p) as [[]|]; cbn [waits wakes] in *.
  - match goal with |- astep _ _ (MkACond ?a ?b) => replace a with (cnt asleep ts - tot id (csemas c) + 1) by lia;
      replace b with (tot id (csemas c)) by lia end. constructor.
  - match goal with |- astep _ _ (MkACond ?a _) => replace a with (cnt asleep ts - tot id (csemas c) - 1) by lia end. constructor. lia.
  - match goal with |- astep _ _ (MkACond ?a ?b) => replace a with (cnt asleep ts - tot id (csemas c)) by lia;
      replace b with (tot id (csemas c) - 1) by lia end. constructor. lia.
  - f_equal; lia.
Qed.

(** Where Signal and Broadcast return, and Signal has woken nobody. *)
Definition returning p : bool := match p with SWake | BTest | BNewClear => true | _ => false end.

Lemma returning_none c c' ts i t t' : cinv (MkCConfig c ts) -> cinv (MkCConfig c' (<[i:=t']> ts)) -> ts !! i = Some t ->
  cond_step t c = Some (t', c') ->
  returning t.1.1 = true -> t'.1.1 = CReturn -> waiting (cabs (MkCConfig c' (<[i:=t']> ts))) = 0.
Proof.
  intros [Hx Hst] [Hy Hst'] Hi Hs Hr Ht'. assert (Ep : protected t = true) by (destruct t as [[[] k] l]; done).
  pose proof (status_at _ _ _ _ Hx Hst Hi Ep) as Hat. pose proof (cs_point _ _ _ _ Hat) as Hpt.
  pose proof (cs_old _ _ _ _ Hat) as [_ Ho]. pose proof (cs_new _ _ _ _ Hat) as [_ Hn].
  assert (E : holder (<[i:=t']> ts) = CIdle).
  { rewrite (holder_move ts i t t' (protected_le _ Hx) (protected_le _ Hy) Hi). unfold next_holder. unfold protected at 1.
    by rewrite Ht', Ep. }
  destruct t as [[p k] l]. rewrite cond_step_at in Hs. unfold cabs, owed_old, owed_new, done_old, done_new.
  cbn [cond cthreads waiting]. rewrite E.
  destruct p; try done; cbn in Hs, Hpt.
  - destruct (Z.ltb_spec 0 (oldWaiters c)); injection Hs as <- <-; [done|]. lia.
  - destruct (Z.ltb_spec 0 (newWaiters c)); injection Hs as <- <-; [done|]. lia.
  - injection Hs as <- <-. cbn. lia.
Qed.

(** ** Generations *)

(** A semaphore that nobody will wait on any more, besides those who do. *)
Definition closed (x : cconfig M K) (j : nat) : Prop :=
  (j < length (csemas (cond x)))%nat /\ (newSema (cond x) = Some j -> retiring (holder (cthreads x)) = true).

(** A semaphore with a wake-up is closed. *)
Lemma woken_closed x j : cinv x -> 0 < sem (cond x) j -> closed x j.
Proof.
  intros [_ Hst] Hj. split.
  - unfold sem in Hj. destruct (csemas (cond x) !! j) eqn:E; [by eapply lookup_lt_Some|cbn in Hj; lia].
  - intros E. pose proof (cs_newSema _ _ _ _ Hst) as Hn. rewrite E in Hn. naive_solver.
Qed.

(** What a step does to the new generation and to the goroutines that wait. *)
Lemma generation_step p k l c t' c' : cond_step (p, k, l) c = Some (t', c') ->
  (length (csemas c) <= length (csemas c'))%nat /\
  (newSema c' = newSema c /\ p <> BNewClear \/ newSema c' = None \/ newSema c' = Some (length (csemas c))) /\
  (forall j, sleeps j t' = true -> sleeps j (p, k, l) = true \/ p = CJoin /\ newSema c = Some j) /\
  (retiring p = true -> p <> BNewClear -> retiring t'.1.1 = true).
Proof.
  rewrite cond_step_at. intros Hs. destruct p; cbn in Hs; unfold in_m, in_L, release in Hs.
  all: try match type of Hs with context [CUnlock _] => destruct (newSema c) eqn:En end; repeat (case_match || simplify_option_eq).
  all: cbn; rewrite ?length_app, ?length_insert; split_and!; try done; auto; try lia.
  intros j ->%Nat.eqb_eq. by right.
Qed.

Lemma closed_internal c c' ts i t t' j : clocks (MkCConfig c ts) -> clocks (MkCConfig c' (<[i:=t']> ts)) -> ts !! i = Some t ->
  cond_step t c = Some (t', c') -> closed (MkCConfig c ts) j ->
  closed (MkCConfig c' (<[i:=t']> ts)) j /\ (sleeps j t' = true -> sleeps j t = true).
Proof.
  intros Hx Hy Hi Hs [Hj Hret]. destruct t as [[p k] l]. destruct (generation_step _ _ _ _ _ _ Hs) as (Hlen & Hnew & Hsl & Hr). cbn in *.
  assert (Hat : inside p = true -> holder ts = p) by (intros E; by apply (holder_at ts i (p, k, l) (protected_le _ Hx) Hi)).
  split; [split; cbn [cond cthreads]; [lia|]|].
  - intros E'. destruct Hnew as [[En Hp]|[En|En]]; [|congruence|rewrite En in E'; injection E' as <-; lia].
    rewrite En in E'. specialize (Hret E').
    rewrite (holder_move ts i (p, k, l) t' (protected_le _ Hx) (protected_le _ Hy) Hi). unfold next_holder.
    destruct (protected (p, k, l)) eqn:Ep; unfold protected in Ep; cbn in Ep.
    + rewrite (Hat Ep) in Hret. specialize (Hr Hret Hp). unfold protected. by destruct (t'.1.1).
    + destruct (protected t') eqn:Ep'; [|done]. rewrite (holder_empty ts i (p, k, l) t' (protected_le _ Hy) Hi Ep Ep') in Hret. done.
  - intros Hsl'. destruct (Hsl j Hsl') as [|[-> E]]; [done|]. specialize (Hret E). by rewrite (Hat eq_refl) in Hret.
Qed.

Lemma closed_step x y j : clocks x -> cstep x y -> closed x j ->
  closed y j /\ forall i t, cthreads y !! i = Some t -> sleeps j t = true -> exists u, cthreads x !! i = Some u /\ sleeps j u = true.
Proof.
  intros Hx Hs Hc. pose proof (clocks_step _ _ Hx Hs) as Hy.
  assert (exists c ts i t t' c', x = MkCConfig c ts /\ y = MkCConfig c' (<[i:=t']> ts) /\ ts !! i = Some t /\ closed y j /\
    (sleeps j t' = true -> sleeps j t = true)) as (c & ts & i & t & t' & c' & -> & -> & Hi & Hcl & Hsl).
  { destruct Hs as [c ts i t t' c' Hi Ht|c ts i l Hi|c ts i l Hi|c ts i l Hi|c ts i k l Hi Hk|c ts i k l Hi Hk];
      do 6 eexists; (split; [done|]); (split; [done|]); (split; [done|]); [by eapply closed_internal|..]; (split; [|done]);
      (split; [apply Hc|]); cbn [cond cthreads]; erewrite holder_unchanged by done; apply Hc. }
  split; [done|]. cbn [cthreads]. intros m u Hm Hu. destruct (decide (m = i)) as [->|Hne].
  - rewrite (lookup_self _ _ _ _ Hi) in Hm. injection Hm as <-. eauto.
  - rewrite list_lookup_insert_ne in Hm by done. eauto.
Qed.

Lemma closed_steps x y j : clocks x -> rtc cstep x y -> closed x j ->
  forall i t, cthreads y !! i = Some t -> sleeps j t = true -> exists u, cthreads x !! i = Some u /\ sleeps j u = true.
Proof.
  intros Hx Hr. revert Hx. induction Hr as [x|x y z Hs _ IH]; intros Hx Hc i t Hi Ht; [by exists t|].
  destruct (closed_step _ _ _ Hx Hs Hc) as [Hc' Hb]. destruct (IH (clocks_step _ _ Hx Hs) Hc' i t Hi Ht) as (u & Hu & Hsu). eauto.
Qed.

(** ** Progress *)

(** The goroutine in the critical section can go on. *)
Lemma inside_moves c ts i t : cinv (MkCConfig c ts) -> ts !! i = Some t -> protected t = true -> cond_step t c <> None.
Proof.
  intros [Hx Hst] Hi Ep. pose proof (status_at _ _ _ _ Hx Hst Hi Ep) as Hat. pose proof (cs_point _ _ _ _ Hat) as Hpt.
  pose proof (asleep_small _ _ Hx) as HN. pose proof (cs_old _ _ _ _ Hat) as [Ho Ho']. pose proof (cs_oldSema _ _ _ _ Hat) as HoS.
  pose proof (cs_newSema _ _ _ _ Hat) as HnS. destruct t as [[p k] l]. rewrite cond_step_at. unfold protected in Ep.
  destruct p; try done; cbn in *; try (by case_match).
  - by destruct (0 <? oldWaiters c).
  - status_unfold. destruct (oldSema c) as [j|] eqn:E; [|lia]. by rewrite (release_spec _ _ _ _ _ Hat HN HoS).
  - status_unfold. destruct (Z.ltb_spec i0 (oldWaiters c)); [|done].
    destruct (oldSema c) as [j|] eqn:E; [|lia]. by rewrite (release_spec _ _ _ _ _ Hat HN HoS).
  - by destruct (0 <? newWaiters c).
  - destruct (Z.ltb_spec i0 (newWaiters c)); [|done].
    destruct (newSema c) as [j|] eqn:E; [|by destruct Hpt as (_ & _ & ?)]. by rewrite (release_spec _ _ _ _ _ Hat HN (proj1 HnS)).
Qed.

(** No goroutine can take a step of its own. *)
Definition stuck (x : cconfig M K) : Prop := forall i t, cthreads x !! i = Some t -> cond_step t (cond x) = None.

(** A goroutine that can go on inside of m, or of L. *)
Lemma m_moves p k l c : consistent (p, k, l) = true -> cond_step (p, k, l) c = None -> lstep l (cm c) = None.
Proof.
  intros Hc Hs. rewrite cond_step_at in Hs. destruct (lstep_return (cm c)) as [Hi Hh]. unfold consistent in Hc. cbn in Hc.
  destruct (lstep l (cm c)) as [[l' s]|] eqn:E; [|done]. destruct p; try (apply bool_decide_eq_true in Hc as ->; congruence).
  all: cbn in Hs; unfold in_m in Hs; repeat case_decide; try done; subst; try congruence; rewrite E in Hs; done.
Qed.

Lemma L_moves p k l c : consistent_L (p, k, l) = true -> cond_step (p, k, l) c = None -> lstep k (cL c) = None.
Proof.
  intros Hc Hs. rewrite cond_step_at in Hs. destruct (lstep_return (cL c)) as [Hi Hh]. unfold consistent_L, out_L in Hc. cbn in Hc.
  destruct (lstep k (cL c)) as [[k' s]|] eqn:E; [|done].
  destruct p; try (apply bool_decide_eq_true in Hc as ->; congruence);
    try (apply orb_true_iff in Hc as [->%bool_decide_eq_true| ->%bool_decide_eq_true]; congruence).
  all: cbn in Hs; unfold in_L in Hs; try (rewrite E in Hs; done); case_decide; try done; rewrite E in Hs; done.
Qed.

Lemma in_Unlock_held {L : Lock} {HL : LockLaws L} : in_Unlock lheld = false.
Proof. unfold in_Unlock. destruct llocking_not as (_ & -> & ?). by rewrite bool_decide_eq_false_2. Qed.

Lemma in_Lock_idle {L : Lock} {HL : LockLaws L} : in_Lock lidle = false.
Proof. unfold in_Lock. destruct llocking_not as (-> & _ & ?). by rewrite bool_decide_eq_false_2. Qed.

(** When nobody can move, nobody is in m. *)
Lemma stuck_m x i t : cinv x -> stuck x -> cthreads x !! i = Some t -> t.2 = lidle.
Proof.
  intros Hinv Hst Hi. destruct (decide (t.2 = lidle)) as [|Hne]; [done|]. exfalso.
  destruct x as [c ts], (proj1 Hinv) as [Hm _ Hc _]. cbn in *.
  destruct (linv_progress (cm c) (snd <$> ts) i t.2 Hm) as [j Hj]; [by rewrite list_lookup_fmap, Hi|done| |].
  - intros j q Hj. rewrite list_lookup_fmap in Hj. destruct (ts !! j) as [[[p k] l]|] eqn:E; [|done]. injection Hj as <-.
    eapply m_moves; [by destruct (andb_true_iff (consistent (p, k, l)) (consistent_L (p, k, l))) as [[? _] _];
      [by eapply Hc|]|by eapply Hst].
  - rewrite list_lookup_fmap in Hj. destruct (ts !! j) as [[[p k] l]|] eqn:E; [|done]. injection Hj as ->.
    pose proof (Hst _ _ E) as Hs. destruct (protected (p, k, lheld)) eqn:Ep; [by eapply inside_moves in Hs|].
    pose proof (Hc _ _ E) as [Hcm _]%andb_true_iff. cbn [cond] in Hs. rewrite cond_step_at in Hs. unfold consistent in Hcm. cbn in Hcm.
    destruct (@llocking_not M HM) as (_ & _ & Hhi).
    destruct p; try done; rewrite ?in_Unlock_held in Hcm; try done; try (by apply bool_decide_eq_true in Hcm).
    all: cbn in Hs; unfold in_m in Hs; by case_decide.
Qed.

(** Nor in L, unless a client holds it. *)
Lemma stuck_L x i t : cinv x -> stuck x -> cthreads x !! i = Some t -> t.1.2 = lidle \/
  exists j l, cthreads x !! j = Some (CIdle, lheld, l).
Proof.
  intros Hinv Hst Hi. destruct (decide (t.1.2 = lidle)) as [|Hne]; [by left|]. right.
  pose proof (proj1 Hinv) as [_ HL Hc _].
  destruct (linv_progress (cL (cond x)) (pc_L <$> cthreads x) i t.1.2 HL) as [j Hj]; [by rewrite list_lookup_fmap, Hi|done| |].
  - intros j q Hj. rewrite list_lookup_fmap in Hj. destruct (cthreads x !! j) as [[[p k] l]|] eqn:E; [|done]. injection Hj as <-.
    pose proof (Hc _ _ E) as [_ HcL]%andb_true_iff. by eapply L_moves, Hst.
  - rewrite list_lookup_fmap in Hj. destruct (cthreads x !! j) as [[[p k] l]|] eqn:E; [|done]. unfold pc_L in Hj. cbn in Hj.
    injection Hj as ->.
    pose proof (stuck_m _ _ _ Hinv Hst E) as Hl. cbn in Hl. subst l. pose proof (Hst _ _ E) as Hs.
    pose proof (Hc _ _ E) as [Hcm HcL]%andb_true_iff. rewrite cond_step_at in Hs.
    unfold consistent, consistent_L in Hcm, HcL. cbn in Hcm, HcL.
    destruct (@llocking_not K HK) as (_ & _ & Hk), (@llocking_not M HM) as (_ & _ & Hm).
    rewrite ?in_Unlock_held, ?in_Lock_idle in *.
    destruct p; try done; try (by apply bool_decide_eq_true in HcL); try (by apply bool_decide_eq_true in Hcm); [by eauto|..].
    all: cbn in Hs; unfold in_m, in_L in Hs; by case_decide.
Qed.

Lemma tot_pos (l : list Z) : 0 < tot id l -> exists j v, l !! j = Some v /\ 0 < v.
Proof.
  induction l as [|v l IH]; cbn [tot]; [lia|]. unfold id at 1. intros H. destruct (Z.ltb_spec 0 v); [by exists 0%nat, v|].
  destruct IH as (j & w & Hj & Hw); [lia|]. by exists (S j), w.
Qed.

Lemma stuck_point x i t : cinv x -> stuck x -> cthreads x !! i = Some t ->
  t.1.1 = CIdle \/ (exists s, t.1.1 = CSema s /\ sem (cond x) s = 0) \/
  (t.1.1 = CLockL \/ exists s, t.1.1 = CUnlockL s) /\ exists j l, cthreads x !! j = Some (CIdle, lheld, l).
Proof.
  intros Hinv Hst Hi. pose proof (stuck_m _ _ _ Hinv Hst Hi) as Hl. pose proof (stuck_L _ _ _ Hinv Hst Hi) as HL.
  pose proof (ck_consistent _ (proj1 Hinv) _ _ Hi) as [Hcm HcL]%andb_true_iff. pose proof (Hst _ _ Hi) as Hs.
  destruct t as [[p k] l]. cbn in Hl, HL. subst l. rewrite cond_step_at in Hs. unfold consistent, consistent_L in Hcm, HcL. cbn in *.
  destruct (@llocking_not K HK) as (_ & _ & Hk), (@llocking_not M HM) as (_ & _ & Hm). rewrite ?in_Lock_idle in Hcm.
  destruct p; try done; try (by apply bool_decide_eq_true in Hcm); [by left|..]; cbn in Hs.
  - by case_decide.
  - right; right. split; [eauto|]. destruct HL as [->|]; [|done]. unfold in_L in Hs. by case_decide.
  - right; left. exists s. split; [done|]. pose proof (cs_sem _ _ _ _ (proj2 Hinv) s) as Hn. unfold sem in *.
    destruct (csemas (cond x) !! s) as [v|]; [|done]. cbn in *. destruct (Z.ltb_spec 0 v) as [Hv|]; [|lia].
    by rewrite (Semacquire_pos _ Hv) in Hs.
  - right; right. split; [by left|]. destruct HL as [->|]; [|done]. by rewrite in_Lock_idle in HcL.
  - unfold in_m in Hs. by case_decide.
Qed.

Lemma stuck_woken x : cinv x -> stuck x -> woken (cabs x) = 0 \/ exists j l, cthreads x !! j = Some (CIdle, lheld, l).
Proof.
  intros Hinv Hst. pose proof (proj2 Hinv) as Hs. destruct (sem_total (cond x) 0 (cs_sem _ _ _ _ Hs)) as [Hnn _].
  cbn [woken cabs]. destruct (Z.eq_dec (tot id (csemas (cond x))) 0) as [|Hne]; [by left|right].
  destruct (tot_pos (csemas (cond x))) as (j & v & Hj & Hv); [lia|]. assert (Ej : sem (cond x) j = v) by (unfold sem; by rewrite Hj).
  pose proof (cs_sleeps _ _ _ _ Hs j) as Hn. cbn in Hn. pose proof (cs_old _ _ _ _ Hs) as [Ho _]. pose proof (cs_new _ _ _ _ Hs) as [Hw _].
  destruct (cnt_exists (sleeps j) (cthreads x)) as (i & t & Hi & Ht); [unfold owed in Hn; repeat case_decide; lia|].
  destruct (stuck_point _ _ _ Hinv Hst Hi) as [E|[(s & E & H0)|[_ ?]]]; [| |done]; unfold sleeps in Ht; rewrite E in Ht; [done|].
  apply Nat.eqb_eq in Ht as ->. lia.
Qed.

(** * Theorems *)

(** C9. A condition variable.  In every reachable configuration a step of Wait,
    Signal or Broadcast is a step of the specification, or leaves it as it is:
    the increment of newWaiters is a goroutine that starts to wait, each
    Semrelease a wake-up for one that waits, and the return from Semacquire
    takes a wake-up.  Each goroutine on its way to the end of Semacquire is
    waiting or has a wake-up.  Broadcast, and a Signal that wakes nobody, return
    when nobody waits. *)
Theorem Cond_refines n c ts i t t' c' : Z.of_nat n < 2 ^ 29 -> rtc cstep (cinit n) (MkCConfig c ts) -> ts !! i = Some t ->
  cond_step t c = Some (t', c') ->
  let x := MkCConfig c ts in let y := MkCConfig c' (<[i:=t']> ts) in
  match effect c t.1.1 with Some o => astep o (cabs x) (cabs y) | None => cabs y = cabs x end /\
  waiting (cabs y) + woken (cabs y) = cnt asleep (cthreads y) /\
  (returning t.1.1 = true -> t'.1.1 = CReturn -> waiting (cabs y) = 0).
Proof.
  intros Hn Hr Hi Hs. pose proof (cinv_reachable _ _ Hn Hr) as Hx. pose proof (cinv_step _ _ Hx (c_internal _ _ _ _ _ _ Hi Hs)) as Hy.
  cbn zeta. split_and!; [by apply refines_step| |by eapply returning_none]. destruct (cabs_status c' _ (proj2 Hy)) as [E _].
  cbn [cond cthreads] in E. rewrite E. cbn. lia.
Qed.

(** C36. A wake-up is taken by a goroutine that was waiting when it was sent: once a
    semaphore has a wake-up, the goroutines that wait on it, then and at any
    later time, are among those that waited on it when it was sent. *)
Theorem Cond_generations n x y j i t : Z.of_nat n < 2 ^ 29 -> rtc cstep (cinit n : cconfig M K) x -> 0 < sem (cond x) j ->
  rtc cstep x y -> cthreads y !! i = Some t -> sleeps j t = true -> exists u, cthreads x !! i = Some u /\ sleeps j u = true.
Proof.
  intros Hn Hr Hj Hy Hi Ht. pose proof (cinv_reachable _ _ Hn Hr) as Hx.
  eapply closed_steps; [apply Hx|exact Hy|by apply woken_closed|done|done].
Qed.

(** C37. No wake-up is lost: in every reachable configuration in which no goroutine
    can take a step, each one is outside of the methods, waits in Semacquire
    without a wake-up, or waits for L, which a client holds; and every wake-up
    has been taken, unless a client holds L. *)
Theorem Cond_progress n x i t : Z.of_nat n < 2 ^ 29 -> rtc cstep (cinit n : cconfig M K) x -> stuck x -> cthreads x !! i = Some t ->
  (t.1.1 = CIdle \/ (exists s, t.1.1 = CSema s /\ sem (cond x) s = 0) \/
   (t.1.1 = CLockL \/ exists s, t.1.1 = CUnlockL s) /\ exists j l, cthreads x !! j = Some (CIdle, lheld, l)) /\
  (woken (cabs x) = 0 \/ exists j l, cthreads x !! j = Some (CIdle, lheld, l)).
Proof.
  intros Hn Hr Hst Hi. pose proof (cinv_reachable _ _ Hn Hr) as Hx. split; [by eapply stuck_point|by apply stuck_woken].
Qed.
End Inv.

(** * Executions over Mutex *)

(** Run the goroutines in the order of the list. *)
Fixpoint crun (sched : list nat) (x : cconfig Mutex_Lock Mutex_Lock) : option (cconfig Mutex_Lock Mutex_Lock) :=
  match sched with
  | [] => Some x
  | i :: sched => t ← cthreads x !! i; '(t', c') ← cond_step t (cond x); crun sched (MkCConfig c' (<[i:=t']> (cthreads x)))
  end.

Lemma crun_steps sched x y : crun sched x = Some y -> rtc cstep x y.
Proof.
  revert x. induction sched as [|i sched IH]; intros [c ts] Hr; cbn in Hr; [by injection Hr as ->|].
  apply bind_Some in Hr as (t & Hi & ([t' c'] & Hs & Hr)%bind_Some). eapply rtc_l; [by eapply c_internal|]. by apply IH.
Qed.

Abbreviation Cond0 := (Cond Mutex_Lock Mutex_Lock).
Abbreviation config0 := (cconfig Mutex_Lock Mutex_Lock).
Definition free : Mutex := MkMutex 0 0.
Definition taken : Mutex := MkMutex 1 0.

(** The first of two goroutines waits. *)
Definition one_waits : config0 := MkCConfig (MkCond free free 0 None 1 (Some 0%nat) [0]) [(CSema 0, MIdle, MIdle); (CIdle, MIdle, MIdle)].

Lemma one_waits_reachable : rtc cstep (cinit 2) one_waits.
Proof.
  eapply rtc_l; [exact (c_Lock (NewCond free : Cond0) [(CIdle, MIdle, MIdle); (CIdle, MIdle, MIdle)] 0 MIdle eq_refl)|].
  etransitivity; [apply (crun_steps [0%nat]); reflexivity|].
  eapply rtc_l; [exact (c_Wait (MkCond taken free 0 None 0 None [] : Cond0) [(CIdle, MHeld, MIdle);
    (CIdle, MIdle, MIdle)] 0 MIdle eq_refl)|].
  apply (crun_steps [0; 0; 0; 0; 0; 0; 0; 0]%nat). reflexivity.
Qed.

(** The second one is about to wake it with Signal. *)
Definition in_Signal : config0 := MkCConfig (MkCond free taken 0 (Some 0%nat) 0 None [0]) [(CSema 0, MIdle, MIdle); (SRelease, MIdle, MHeld)].

Lemma in_Signal_reachable : rtc cstep (cinit 2) in_Signal.
Proof.
  etransitivity; [apply one_waits_reachable|].
  eapply rtc_l; [exact (c_Signal (cond one_waits) (cthreads one_waits) 1 MIdle MIdle eq_refl (or_introl eq_refl))|].
  apply (crun_steps [1; 1; 1; 1]%nat). reflexivity.
Qed.

(** It has, and then waits itself. *)
Definition signalled : config0 := MkCConfig (MkCond free taken 0 (Some 0%nat) 0 None [1]) [(CSema 0, MIdle, MIdle); (CReturn, MIdle, UAdd)].

Lemma signalled_reachable : rtc cstep (cinit 2) signalled.
Proof. etransitivity; [apply in_Signal_reachable|]. apply (crun_steps [1%nat]). reflexivity. Qed.

Definition both_wait : config0 :=
  MkCConfig (MkCond free free 0 (Some 0%nat) 1 (Some 1%nat) [1; 0]) [(CSema 0, MIdle, MIdle); (CSema 1, MIdle, MIdle)].

Lemma both_wait_reachable : rtc cstep signalled both_wait.
Proof.
  etransitivity; [apply (crun_steps [1; 1]%nat); reflexivity|].
  eapply rtc_l; [exact (c_Lock (MkCond free free 0 (Some 0%nat) 0 None [1] : Cond0) [(CSema 0, MIdle, MIdle);
    (CIdle, MIdle, MIdle)] 1 MIdle eq_refl)|].
  etransitivity; [apply (crun_steps [1%nat]); reflexivity|].
  eapply rtc_l; [exact (c_Wait (MkCond taken free 0 (Some 0%nat) 0 None [1] : Cond0) [(CSema 0, MIdle, MIdle);
    (CIdle, MHeld, MIdle)] 1 MIdle eq_refl)|].
  apply (crun_steps [1; 1; 1; 1; 1; 1; 1; 1]%nat). reflexivity.
Qed.

Lemma Cond_refines_witness : cond_step (SRelease, MIdle, MHeld) (cond in_Signal) = Some ((CReturn, MIdle, UAdd), cond signalled) /\
  astep AWake (cabs in_Signal) (cabs signalled).
Proof.
  split; [reflexivity|].
  destruct (Cond_refines 2 (cond in_Signal) (cthreads in_Signal) 1 (SRelease, MIdle, MHeld) (CReturn, MIdle, UAdd)
    (cond signalled)) as [H _];
    [lia|apply in_Signal_reachable|reflexivity|reflexivity|exact H].
Defined.

Lemma Cond_generations_witness : 0 < sem (cond signalled) 0 /\ exists u, cthreads signalled !! 0%nat = Some u /\ sleeps 0 u = true.
Proof.
  split; [reflexivity|]. apply (Cond_generations 2 signalled both_wait 0 0 (CSema 0, MIdle, MIdle));
    [lia|apply signalled_reachable|reflexivity|apply both_wait_reachable|reflexivity|reflexivity].
Defined.

Lemma Cond_progress_witness : stuck one_waits /\ woken (cabs one_waits) = 0.
Proof.
  assert (Hst : stuck one_waits).
  { intros i t Hi. destruct i as [|[|i]]; [injection Hi as <-; reflexivity|injection Hi as <-; reflexivity|destruct i; discriminate]. }
  split; [exact Hst|]. destruct (Cond_progress 2 one_waits 0 (CSema 0, MIdle, MIdle)) as [_ [H|(j & l & H)]];
    [lia|apply one_waits_reachable|exact Hst|reflexivity|exact H|].
    destruct j as [|[|j]]; [discriminate|discriminate|destruct j; discriminate].
Defined.
