(* ===== verification/Utf8.v ===== *)
(** Package utf8 (src/go/src/pkg/utf8/utf8.go, string.go).

    Byte slices and strings are lists of bytes; the functions on strings have the
    same bodies as those on slices.  The [range] statement over a string, which
    utf8.String relies on, is the runtime's charntorune
    (src/go/src/pkg/runtime/rune.c). *)

From S2P Require Import Prelude.

(** * Code: utf8.go *)

Definition MaxRune : Z := 0x10FFFF.
Definition RuneError : Z := 0xFFFD.
Definition RuneSelf : Z := 0x80.
Definition UTFMax : Z := 4.

Definition tx : Z := 0x80.
Definition t2 : Z := 0xC0.
Definition t3 : Z := 0xE0.
Definition t4 : Z := 0xF0.
Definition t5 : Z := 0xF8.

Definition maskx : Z := 0x3F.
Definition mask2 : Z := 0x1F.
Definition mask3 : Z := 0x0F.
Definition mask4 : Z := 0x07.

Definition rune1Max : Z := 2 ^ 7 - 1.
Definition rune2Max : Z := 2 ^ 11 - 1.
Definition rune3Max : Z := 2 ^ 16 - 1.
Definition rune4Max : Z := 2 ^ 21 - 1.

(** The rune of a two, three and four byte sequence. *)
Definition rune2 (c0 c1 : Z) : Z := Z.lor (Z.shiftl (Z.land c0 mask2) 6) (Z.land c1 maskx).
Definition rune3 (c0 c1 c2 : Z) : Z :=
  Z.lor (Z.lor (Z.shiftl (Z.land c0 mask3) 12) (Z.shiftl (Z.land c1 maskx) 6)) (Z.land c2 maskx).
Definition rune4 (c0 c1 c2 c3 : Z) : Z :=
  Z.lor (Z.lor (Z.lor (Z.shiftl (Z.land c0 mask4) 18) (Z.shiftl (Z.land c1 maskx) 12)) (Z.shiftl (Z.land c2 maskx) 6)) (Z.land c3 maskx).

Definition not_continuation (c : Z) : bool := (c <? tx) || (t2 <=? c).

(** [(rune, size, short)]. *)
Definition decodeRuneInternal (p : list Z) : Z * Z * bool :=
  match p with
  | [] => (RuneError, 0, true)
  | c0 :: p =>
      if c0 <? tx then (c0, 1, false)
      else if c0 <? t2 then (RuneError, 1, false)
      else match p with
      | [] => (RuneError, 1, true)
      | c1 :: p =>
          if not_continuation c1 then (RuneError, 1, false)
          else if c0 <? t3 then
            if rune2 c0 c1 <=? rune1Max then (RuneError, 1, false) else (rune2 c0 c1, 2, false)
          else match p with
          | [] => (RuneError, 1, true)
          | c2 :: p =>
              if not_continuation c2 then (RuneError, 1, false)
              else if c0 <? t4 then
                if rune3 c0 c1 c2 <=? rune2Max then (RuneError, 1, false) else (rune3 c0 c1 c2, 3, false)
              else match p with
              | [] => (RuneError, 1, true)
              | c3 :: _ =>
                  if not_continuation c3 then (RuneError, 1, false)
                  else if c0 <? t5 then
                    if rune4 c0 c1 c2 c3 <=? rune3Max then (RuneError, 1, false) else (rune4 c0 c1 c2 c3, 4, false)
                  else (RuneError, 1, false)
              end
          end
      end
  end.
Definition decodeRuneInStringInternal (s : list Z) : Z * Z * bool := decodeRuneInternal s.

Definition FullRune (p : list Z) : bool := negb (decodeRuneInternal p).2.
Definition FullRuneInString (s : list Z) : bool := negb (decodeRuneInStringInternal s).2.

Definition DecodeRune (p : list Z) : Z * Z := (decodeRuneInternal p).1.
Definition DecodeRuneInString (s : list Z) : Z * Z := (decodeRuneInStringInternal s).1.

Definition RuneStart (b : Z) : bool := negb (Z.land b 0xC0 =? 0x80).

(** [for start--; start >= lim; start--]: back to the first byte of a rune. *)
Definition back_to_start (p : list Z) (lim start : Z) : outcome Z :=
  loop (S (Z.to_nat UTFMax)) (fun start =>
    if negb (lim <=? start) then Done (inr start) else
    b ← idx p start;
    if RuneStart b then Done (inr start) else Done (inl (start - 1))) (start - 1).

Definition DecodeLastRune (p : list Z) : outcome (Z * Z) :=
  let e := zlen p in
  if e =? 0 then Done (RuneError, 0) else
  let start := e - 1 in
  rune ← idx p start;
  if rune <? RuneSelf then Done (rune, 1) else
  let lim := e - UTFMax in
  let lim := if lim <? 0 then 0 else lim in
  start ← back_to_start p lim start;
  let start := if start <? 0 then 0 else start in
  q ← slice p start e;
  let '(rune, size) := DecodeRune q in
  if negb (start + size =? e) then Done (RuneError, 1) else Done (rune, size).
Definition DecodeLastRuneInString (s : list Z) : outcome (Z * Z) := DecodeLastRune s.

Definition RuneLen (rune : Z) : Z :=
  if rune <=? rune1Max then 1 else if rune <=? rune2Max then 2
  else if rune <=? rune3Max then 3 else if rune <=? rune4Max then 4 else -1.

(** Writes into [p] from index 0; the slice and the number of bytes written. *)
Definition EncodeRune (p : list Z) (rune : Z) : outcome (list Z * Z) :=
  let r := wrap 32 rune in
  let cont x := Z.lor tx (Z.land (byte x) maskx) in
  if r <=? rune1Max then p ← set_idx p 0 (byte r); Done (p, 1) else
  if r <=? rune2Max then
    p ← set_idx p 0 (Z.lor t2 (byte (Z.shiftr r 6)));
    p ← set_idx p 1 (cont r);
    Done (p, 2)
  else
  let r := if MaxRune <? r then RuneError else r in
  if r <=? rune3Max then
    p ← set_idx p 0 (Z.lor t3 (byte (Z.shiftr r 12)));
    p ← set_idx p 1 (cont (Z.shiftr r 6));
    p ← set_idx p 2 (cont r);
    Done (p, 3)
  else
    p ← set_idx p 0 (Z.lor t4 (byte (Z.shiftr r 18)));
    p ← set_idx p 1 (cont (Z.shiftr r 12));
    p ← set_idx p 2 (cont (Z.shiftr r 6));
    p ← set_idx p 3 (cont r);
    Done (p, 4).

Definition RuneCount (p : list Z) : outcome Z :=
  loop (S (length p)) (fun '(i, n) =>
    if negb (i <? zlen p) then Done (inr n) else
    b ← idx p i;
    if b <? RuneSelf then Done (inl (i + 1, n + 1)) else
    q ← slice p i (zlen p);
    let '(_, size) := DecodeRune q in
    Done (inl (i + size, n + 1))) (0, 0).

(** * Code: [range] over a string *)

(** charntorune: the rune and its width; unlike DecodeRune it rejects runes above
    MaxRune. *)
Definition charntorune (p : list Z) : Z * Z :=
  let bad := (RuneError, 1) in
  let ok c := Z.land (Z.lxor c tx) 0xC0 =? 0 in
  let low c := Z.lxor c tx in
  match p with
  | [] => bad
  | c :: p =>
      if c <? tx then (c, 1) else
      match p with
      | [] => bad
      | c1 :: p =>
          if negb (ok c1) then bad else
          if c <? t3 then
            if c <? t2 then bad else
            let l := Z.land (Z.lor (Z.shiftl c 6) (low c1)) rune2Max in
            if l <=? rune1Max then bad else (l, 2)
          else match p with
          | [] => bad
          | c2 :: p =>
              if negb (ok c2) then bad else
              if c <? t4 then
                let l := Z.land (Z.lor (Z.shiftl (Z.lor (Z.shiftl c 6) (low c1)) 6) (low c2)) rune3Max in
                if l <=? rune2Max then bad else (l, 3)
              else match p with
              | [] => bad
              | c3 :: _ =>
                  if negb (ok c3) then bad else
                  if c <? t5 then
                    let l := Z.land (Z.lor (Z.shiftl (Z.lor (Z.shiftl (Z.lor (Z.shiftl c 6) (low c1)) 6) (low c2)) 6) (low c3)) rune4Max in
                    if (l <=? rune3Max) || (MaxRune <? l) then bad else (l, 4)
                  else bad
              end
          end
      end
  end.

(** stringiter: where the next iteration starts. *)
Definition stringiter (s : list Z) (k : Z) : outcome Z :=
  if zlen s <=? k then Done 0 else
  b ← idx s k;
  if b <? RuneSelf then Done (k + 1) else
  q ← slice s k (zlen s);
  Done (k + (charntorune q).2).

(** * Code: the conversion of a rune to a string *)

(** runetochar stores the encoding of a rune and returns its length. *)
Definition runetochar (str : list Z) (rune : Z) : outcome (list Z * Z) :=
  let cont x := byte (Z.lor tx (Z.land x maskx)) in
  let c := wrap 32 rune in
  if c <=? rune1Max then str ← set_idx str 0 (byte c); Done (str, 1) else
  if c <=? rune2Max then
    str ← set_idx str 0 (byte (Z.lor t2 (Z.shiftr c 6)));
    str ← set_idx str 1 (cont c);
    Done (str, 2)
  else
  let c := if MaxRune <? c then RuneError else c in
  if c <=? rune3Max then
    str ← set_idx str 0 (byte (Z.lor t3 (Z.shiftr c 12)));
    str ← set_idx str 1 (cont (Z.shiftr c 6));
    str ← set_idx str 2 (cont c);
    Done (str, 3)
  else
    str ← set_idx str 0 (byte (Z.lor t4 (Z.shiftr c 18)));
    str ← set_idx str 1 (cont (Z.shiftr c 12));
    str ← set_idx str 2 (cont (Z.shiftr c 6));
    str ← set_idx str 3 (cont c);
    Done (str, 4).

(** The Go conversion [string(v)]. *)
Definition intstring (v : Z) : outcome (list Z) := '(s, n) ← runetochar (replicate 8 0) v; slice s 0 n.

Definition RuneCountInString (s : list Z) : outcome Z :=
  loop (S (length s)) (fun '(k, n) =>
    k' ← stringiter s k;
    if k' =? 0 then Done (inr n) else Done (inl (k', n + 1))) (0, 0).

(** * Code: string.go *)

Record String := MkString { str : list Z; numRunes : Z; width : Z; bytePos : Z; runePos : Z; nonASCII : Z }.

(** The index of the first byte that is not ASCII, if any. *)
Fixpoint first_nonASCII (i : Z) (contents : list Z) : option Z :=
  match contents with
  | [] => None
  | b :: contents => if RuneSelf <=? b then Some i else first_nonASCII (i + 1) contents
  end.

Definition String_Init (contents : list Z) : outcome String :=
  match first_nonASCII 0 contents with
  | Some i =>
      n ← RuneCountInString contents;
      Done (MkString contents n (DecodeRuneInString contents).2 0 0 i)
  | None => Done (MkString contents (zlen contents) 0 0 0 (zlen contents))
  end.
Definition NewString (contents : list Z) : outcome String := String_Init contents.

Definition String_String (s : String) : list Z := str s.
Definition String_RuneCount (s : String) : Z := numRunes s.
Definition IsASCII (s : String) : bool := width s =? 0.

(** The cached position. *)
Definition set_pos (s : String) (w b r : Z) : String := MkString (str s) (numRunes s) w b r (nonASCII s).

(** [DecodeRuneInString(s.str[s.bytePos:])], remembering the width. *)
Definition decode_here (s : String) : outcome (Z * String) :=
  q ← slice (str s) (bytePos s) (zlen (str s));
  let '(rune, w) := DecodeRuneInString q in
  Done (rune, set_pos s w (bytePos s) (runePos s)).

(** [DecodeLastRuneInString(s.str[0:s.bytePos])], stepping back over it. *)
Definition decode_back (s : String) : outcome (Z * String) :=
  q ← slice (str s) 0 (bytePos s);
  '(rune, w) ← DecodeLastRuneInString q;
  Done (rune, set_pos s w (bytePos s - w) (runePos s - 1)).

(** The two linear scans. *)
Definition scan_forward (i : Z) (s : String) : outcome (Z * String) :=
  loop (S (Z.to_nat (numRunes s))) (fun s =>
    '(rune, s) ← decode_here s;
    if runePos s =? i then Done (inr (rune, s)) else
    Done (inl (set_pos s (width s) (bytePos s + width s) (runePos s + 1)))) s.

Definition scan_backward (i : Z) (s : String) : outcome (Z * String) :=
  loop (S (Z.to_nat (numRunes s))) (fun s =>
    '(rune, s) ← decode_back s;
    if runePos s =? i then Done (inr (rune, s)) else Done (inl s)) s.

Definition At (s : String) (i : Z) : outcome (Z * String) :=
  if i <? nonASCII s then b ← idx (str s) i; Done (b, s) else
  if (i <? 0) || (numRunes s <=? i) then Panic else
  if i =? runePos s - 1 then decode_back s
  else if i =? runePos s + 1 then decode_here (set_pos s (width s) (bytePos s + width s) i)
  else if i =? runePos s then decode_here s
  else if i =? 0 then decode_here (set_pos s (width s) 0 0)
  else if i =? numRunes s - 1 then decode_back (set_pos s (width s) (zlen (str s)) (numRunes s))
  else if i <? runePos s then
    if i <? Z.quot (runePos s - nonASCII s) 2 then scan_forward i (set_pos s (width s) (nonASCII s) (nonASCII s))
    else scan_backward i s
  else
    if i - runePos s <? Z.quot (numRunes s - runePos s) 2 then scan_forward i s
    else scan_backward i (set_pos s (width s) (zlen (str s)) (numRunes s)).

Definition String_Slice (s : String) (i j : Z) : outcome (list Z * String) :=
  if j <? nonASCII s then q ← slice (str s) i j; Done (q, s) else
  if (i <? 0) || (numRunes s <? j) || (j <? i) then Panic else
  if i =? j then Done ([], s) else
  '(low, s) ← (if i <? nonASCII s then Done (i, s)
               else if i =? numRunes s then Done (zlen (str s), s)
               else '(_, s) ← At s i; Done (bytePos s, s));
  '(high, s) ← (if j =? numRunes s then Done (zlen (str s), s) else '(_, s) ← At s j; Done (bytePos s, s));
  q ← slice (str s) low high;
  Done (q, s).

(** * Encodings *)

(** The encoding of a rune of at most 21 bits. *)
Definition encoding (r : Z) : list Z :=
  if r <=? rune1Max then [r]
  else if r <=? rune2Max then [192 + r / 64; 128 + r mod 64]
  else if r <=? rune3Max then [224 + r / 4096; 128 + r / 64 mod 64; 128 + r mod 64]
  else [240 + r / 262144; 128 + r / 4096 mod 64; 128 + r / 64 mod 64; 128 + r mod 64].

(** Literal bytes. *)
Ltac bytes_concrete := repeat first [apply Forall_nil_2 | apply Forall_cons_2; [unfold is_byte; lia|]].

Lemma encoding_bytes r : 0 <= r <= rune4Max -> Forall is_byte (encoding r).
Proof.
  intros Hr. unfold rune4Max, encoding, rune1Max, rune2Max, rune3Max in *.
  repeat case_bool; repeat constructor; unfold is_byte; zlia.
Qed.

(** A property of all bytes, by enumeration. *)
Lemma all_bytes (P : Z -> bool) : forallb P (seqZ 0 256) = true -> forall c, is_byte c -> P c = true.
Proof. intros H c Hc. rewrite forallb_forall in H. apply H, list_elem_of_In, elem_of_seqZ. unfold is_byte in Hc. lia. Qed.

Lemma land_mask6 c : 0x80 <= c < 0xC0 -> Z.land c maskx = c - 128.
Proof. intros Hc. unfold maskx. change 0x3F with (Z.ones 6). rewrite Z.land_ones by lia. change (2 ^ 6) with 64. zlia. Qed.

Lemma rune2_val c0 c1 : 0xC0 <= c0 < 0xE0 -> 0x80 <= c1 < 0xC0 -> rune2 c0 c1 = (c0 - 192) * 64 + (c1 - 128).
Proof.
  intros H0 H1. unfold rune2, mask2. rewrite land_mask6 by lia. change 0x1F with (Z.ones 5). rewrite Z.land_ones, Z.shiftl_mul_pow2 by lia.
  rewrite lor_add by lia. change (2 ^ 5) with 32. change (2 ^ 6) with 64. zlia.
Qed.

Lemma rune3_val c0 c1 c2 : 0xE0 <= c0 < 0xF0 -> 0x80 <= c1 < 0xC0 -> 0x80 <= c2 < 0xC0 ->
  rune3 c0 c1 c2 = ((c0 - 224) * 64 + (c1 - 128)) * 64 + (c2 - 128).
Proof.
  intros H0 H1 H2. unfold rune3, mask3. rewrite !land_mask6 by lia. change 0x0F with (Z.ones 4). rewrite Z.land_ones, !Z.shiftl_mul_pow2 by lia.
  rewrite (lor_add (c0 mod 2 ^ 4) 12) by lia. replace (c0 mod 2 ^ 4 * 2 ^ 12 + (c1 - 128) * 2 ^ 6) with ((c0 mod 2 ^ 4 * 2 ^ 6 + (c1 - 128)) * 2 ^ 6) by lia.
  rewrite lor_add by lia. change (2 ^ 4) with 16. change (2 ^ 6) with 64. zlia.
Qed.

Lemma rune4_val c0 c1 c2 c3 : 0xF0 <= c0 < 0xF8 -> 0x80 <= c1 < 0xC0 -> 0x80 <= c2 < 0xC0 -> 0x80 <= c3 < 0xC0 ->
  rune4 c0 c1 c2 c3 = (((c0 - 240) * 64 + (c1 - 128)) * 64 + (c2 - 128)) * 64 + (c3 - 128).
Proof.
  intros H0 H1 H2 H3. unfold rune4, mask4. rewrite !land_mask6 by lia. change 0x07 with (Z.ones 3). rewrite Z.land_ones, !Z.shiftl_mul_pow2 by lia.
  rewrite (lor_add (c0 mod 2 ^ 3) 18) by lia.
  replace (c0 mod 2 ^ 3 * 2 ^ 18 + (c1 - 128) * 2 ^ 12) with ((c0 mod 2 ^ 3 * 2 ^ 6 + (c1 - 128)) * 2 ^ 12) by lia.
  rewrite (lor_add _ 12) by lia.
  replace ((c0 mod 2 ^ 3 * 2 ^ 6 + (c1 - 128)) * 2 ^ 12 + (c2 - 128) * 2 ^ 6) with (((c0 mod 2 ^ 3 * 2 ^ 6 + (c1 - 128)) * 2 ^ 6 + (c2 - 128)) * 2 ^ 6) by lia.
  rewrite lor_add by lia. change (2 ^ 3) with 8. change (2 ^ 6) with 64. zlia.
Qed.

Lemma continuation c : not_continuation c = false <-> 0x80 <= c < 0xC0.
Proof. unfold not_continuation, tx, t2. rewrite orb_false_iff, Z.ltb_ge, Z.leb_gt. done. Qed.

(** ** Decoding an encoding *)

Ltac limits := unfold rune1Max, rune2Max, rune3Max, rune4Max, MaxRune, RuneError, RuneSelf, tx, t2, t3, t4, t5 in *.

(** The outcomes of decoding, by the leading byte. *)
Lemma decode2 c0 c1 q : 0xC0 <= c0 < 0xE0 -> 0x80 <= c1 < 0xC0 -> let r := (c0 - 192) * 64 + (c1 - 128) in
  decodeRuneInternal (c0 :: c1 :: q) = if r <=? rune1Max then (RuneError, 1, false) else (r, 2, false).
Proof.
  intros H0 H1. cbn [decodeRuneInternal]. rewrite (proj2 (continuation c1)), rune2_val by done. unfold tx, t2, t3.
  rewrite (proj2 (Z.ltb_ge c0 128)), (proj2 (Z.ltb_ge c0 192)), (proj2 (Z.ltb_lt c0 224)) by lia. done.
Qed.

Lemma decode3 c0 c1 c2 q : 0xE0 <= c0 < 0xF0 -> 0x80 <= c1 < 0xC0 -> 0x80 <= c2 < 0xC0 ->
  let r := ((c0 - 224) * 64 + (c1 - 128)) * 64 + (c2 - 128) in
  decodeRuneInternal (c0 :: c1 :: c2 :: q) = if r <=? rune2Max then (RuneError, 1, false) else (r, 3, false).
Proof.
  intros H0 H1 H2. cbn [decodeRuneInternal]. rewrite (proj2 (continuation c1)), (proj2 (continuation c2)), rune3_val by done. unfold tx, t2, t3, t4.
  rewrite (proj2 (Z.ltb_ge c0 128)), (proj2 (Z.ltb_ge c0 192)), (proj2 (Z.ltb_ge c0 224)), (proj2 (Z.ltb_lt c0 240)) by lia. done.
Qed.

Lemma decode4 c0 c1 c2 c3 q : 0xF0 <= c0 < 0xF8 -> 0x80 <= c1 < 0xC0 -> 0x80 <= c2 < 0xC0 -> 0x80 <= c3 < 0xC0 ->
  let r := (((c0 - 240) * 64 + (c1 - 128)) * 64 + (c2 - 128)) * 64 + (c3 - 128) in
  decodeRuneInternal (c0 :: c1 :: c2 :: c3 :: q) = if r <=? rune3Max then (RuneError, 1, false) else (r, 4, false).
Proof.
  intros H0 H1 H2 H3. cbn [decodeRuneInternal].
  rewrite (proj2 (continuation c1)), (proj2 (continuation c2)), (proj2 (continuation c3)), rune4_val by done. unfold tx, t2, t3, t4, t5.
  rewrite (proj2 (Z.ltb_ge c0 128)), (proj2 (Z.ltb_ge c0 192)), (proj2 (Z.ltb_ge c0 224)), (proj2 (Z.ltb_ge c0 240)), (proj2 (Z.ltb_lt c0 248)) by lia. done.
Qed.

Lemma decode_encoding r q : 0 <= r <= rune4Max -> decodeRuneInternal (encoding r ++ q) = (r, zlen (encoding r), false).
Proof.
  intros Hr. unfold encoding. limits. repeat case_bool; cbn [app].
  - cbn [decodeRuneInternal]. unfold tx. rewrite (proj2 (Z.ltb_lt r 128)) by lia. done.
  - rewrite decode2 by zlia. limits. rewrite (proj2 (Z.leb_gt _ _)) by zlia. do 2 f_equal. zlia.
  - rewrite decode3 by zlia. limits. rewrite (proj2 (Z.leb_gt _ _)) by zlia. do 2 f_equal. zlia.
  - rewrite decode4 by zlia. limits. rewrite (proj2 (Z.leb_gt _ _)) by zlia. do 2 f_equal. zlia.
Qed.

(** ** Decoding any bytes *)

Definition encoded (p : list Z) : Prop := exists r q, 0 <= r <= rune4Max /\ p = encoding r ++ q.

(** [p] starts with an encoding, which is decoded; or it is an error. *)
Definition decoded (p : list Z) : Prop :=
  (exists r q, 0 <= r <= rune4Max /\ p = encoding r ++ q /\ DecodeRune p = (r, zlen (encoding r))) \/
  (DecodeRune p = (RuneError, 1) /\ ~ encoded p).

Lemma decoded_ok r q p : 0 <= r <= rune4Max -> p = encoding r ++ q -> decoded p.
Proof. intros Hr ->. left. exists r, q. split; [done|]. split; [done|]. unfold DecodeRune. by rewrite decode_encoding. Qed.

(** An encoding's length is decoded, so an error is no encoding. *)
Lemma encoding_length r : 0 <= r <= rune4Max -> zlen (encoding r) = 1 /\ r <= rune1Max \/ 2 <= zlen (encoding r) <= 4 /\ rune1Max < r.
Proof. intros Hr. unfold encoding. repeat case_bool; unfold zlen; cbn; limits; lia. Qed.

Lemma error_not_encoded p : DecodeRune p = (RuneError, 1) -> ~ encoded p.
Proof.
  intros Hd (r & q & Hr & ->). unfold DecodeRune in Hd. rewrite decode_encoding in Hd by done. injection Hd as -> Hl.
  destruct (encoding_length _ Hr) as [[_ ?]|[? _]]; [limits|]; lia.
Qed.

Lemma decoded_err p : DecodeRune p = (RuneError, 1) -> decoded p.
Proof. intros Hd. right. split; [done|]. by apply error_not_encoded. Qed.

Lemma encoding1 r : 0 <= r <= rune1Max -> encoding r = [r].
Proof. intros Hr. unfold encoding. by case_bool; [|lia]. Qed.

Lemma encoding2 c0 c1 : 0xC0 <= c0 < 0xE0 -> 0x80 <= c1 < 0xC0 -> let r := (c0 - 192) * 64 + (c1 - 128) in
  rune1Max < r -> 0 <= r <= rune4Max /\ encoding r = [c0; c1].
Proof.
  intros H0 H1 r Hr. limits. split; [lia|]. unfold encoding. limits. repeat case_bool; try lia. unfold r. repeat f_equal; zlia.
Qed.

Lemma encoding3 c0 c1 c2 : 0xE0 <= c0 < 0xF0 -> 0x80 <= c1 < 0xC0 -> 0x80 <= c2 < 0xC0 ->
  let r := ((c0 - 224) * 64 + (c1 - 128)) * 64 + (c2 - 128) in rune2Max < r -> 0 <= r <= rune4Max /\ encoding r = [c0; c1; c2].
Proof.
  intros H0 H1 H2 r Hr. limits. split; [lia|]. unfold encoding. limits. repeat case_bool; try lia. unfold r. repeat f_equal; zlia.
Qed.

Lemma encoding4 c0 c1 c2 c3 : 0xF0 <= c0 < 0xF8 -> 0x80 <= c1 < 0xC0 -> 0x80 <= c2 < 0xC0 -> 0x80 <= c3 < 0xC0 ->
  let r := (((c0 - 240) * 64 + (c1 - 128)) * 64 + (c2 - 128)) * 64 + (c3 - 128) in
  rune3Max < r -> 0 <= r <= rune4Max /\ encoding r = [c0; c1; c2; c3].
Proof.
  intros H0 H1 H2 H3 r Hr. limits. split; [lia|]. unfold encoding. limits. repeat case_bool; try lia. unfold r. repeat f_equal; zlia.
Qed.

(** Every non-empty byte sequence is decoded. *)
Lemma decode_any p : Forall is_byte p -> p <> [] -> decoded p.
Proof.
  intros Hb Hp. destruct p as [|c0 p]; [done|]. apply Forall_cons_iff in Hb as [Hc0 _]. unfold is_byte in Hc0.
  assert (Herr : forall p, decodeRuneInternal p = (RuneError, 1, true) \/ decodeRuneInternal p = (RuneError, 1, false) -> decoded p).
  { intros q Hq. apply decoded_err. unfold DecodeRune. by destruct Hq as [-> | ->]. }
  assert (Hok : forall r c q, 0 <= r <= rune4Max /\ encoding r = c -> decoded (c ++ q)).
  { intros r c q [Hr <-]. by eapply decoded_ok. }
  destruct (c0 <? tx) eqn:E1; [apply Z.ltb_lt in E1; limits; apply (Hok c0 [c0]); split; [limits; lia|apply encoding1; limits; lia]|].
  destruct (c0 <? t2) eqn:E2; [apply Herr; right; cbn; by rewrite E1, E2|].
  destruct p as [|c1 p]; [apply Herr; left; cbn; by rewrite E1, E2|].
  destruct (not_continuation c1) eqn:N1; [apply Herr; right; cbn; by rewrite E1, E2, N1|].
  pose proof (proj1 (continuation c1) N1) as Hc1. destruct (c0 <? t3) eqn:E3.
  { bool_to_prop. pose proof (decode2 c0 c1 p ltac:(limits; lia) Hc1) as Hd. cbv zeta in Hd. revert Hd.
    case_bool; intros Hd; [apply Herr; auto|]. eapply (Hok _ [c0; c1]), encoding2; limits; lia. }
  destruct p as [|c2 p]; [apply Herr; left; cbn; by rewrite E1, E2, N1, E3|].
  destruct (not_continuation c2) eqn:N2; [apply Herr; right; cbn; by rewrite E1, E2, N1, E3, N2|].
  pose proof (proj1 (continuation c2) N2) as Hc2. destruct (c0 <? t4) eqn:E4.
  { bool_to_prop. pose proof (decode3 c0 c1 c2 p ltac:(limits; lia) Hc1 Hc2) as Hd. cbv zeta in Hd. revert Hd.
    case_bool; intros Hd; [apply Herr; auto|]. eapply (Hok _ [c0; c1; c2]), encoding3; limits; lia. }
  destruct p as [|c3 p]; [apply Herr; left; cbn; by rewrite E1, E2, N1, E3, N2, E4|].
  destruct (not_continuation c3) eqn:N3; [apply Herr; right; cbn; by rewrite E1, E2, N1, E3, N2, E4, N3|].
  pose proof (proj1 (continuation c3) N3) as Hc3. destruct (c0 <? t5) eqn:E5; [|apply Herr; right; cbn; by rewrite E1, E2, N1, E3, N2, E4, N3, E5].
  bool_to_prop. pose proof (decode4 c0 c1 c2 c3 p ltac:(limits; lia) Hc1 Hc2 Hc3) as Hd. cbv zeta in Hd. revert Hd.
  case_bool; intros Hd; [apply Herr; auto|]. eapply (Hok _ [c0; c1; c2; c3]), encoding4; limits; lia.
Qed.

(** ** EncodeRune *)

Lemma cont_byte x : Z.lor tx (Z.land (byte x) maskx) = 128 + x mod 64.
Proof.
  unfold tx, maskx. change 0x3F with (Z.ones 6). rewrite Z.land_ones by lia. unfold byte, wrap. change 0x80 with (1 * 2 ^ 7).
  change (2 ^ 8) with 256. change (2 ^ 6) with 64. rewrite lor_add by zlia. zlia.
Qed.

Lemma lead2 x : 0 <= x < 32 -> Z.lor t2 (byte x) = 192 + x.
Proof. intros Hx. rewrite byte_small by (unfold is_byte; lia). unfold t2. change 0xC0 with (6 * 2 ^ 5). rewrite lor_add by lia. lia. Qed.

Lemma lead3 x : 0 <= x < 16 -> Z.lor t3 (byte x) = 224 + x.
Proof. intros Hx. rewrite byte_small by (unfold is_byte; lia). unfold t3. change 0xE0 with (14 * 2 ^ 4). rewrite lor_add by lia. lia. Qed.

Lemma lead4 x : 0 <= x < 8 -> Z.lor t4 (byte x) = 240 + x.
Proof. intros Hx. rewrite byte_small by (unfold is_byte; lia). unfold t4. change 0xF0 with (30 * 2 ^ 3). rewrite lor_add by lia. lia. Qed.

(** The rune EncodeRune writes. *)
Definition valid_rune (rune : Z) : Z := if (rune <? 0) || (MaxRune <? rune) then RuneError else rune.

(** Writing the bytes of an encoding, one index at a time. *)
Fixpoint put_all (p : list Z) (i : Z) (e : list Z) : outcome (list Z) :=
  match e with [] => Done p | b :: e => p ← set_idx p i b; put_all p (i + 1) e end.

Lemma put_all_spec e : forall done p, zlen e <= zlen p -> put_all (done ++ p) (zlen done) e = Done (done ++ e ++ drop (length e) p).
Proof.
  induction e as [|b e IH]; intros dn p Hl; cbn [put_all length app]; [done|]. rewrite zlen_cons in Hl.
  destruct p as [|x p]; [rewrite zlen_nil in Hl; pose proof (zlen_nonneg e); lia|]. rewrite zlen_cons in Hl.
  rewrite set_idx_done by (rewrite zlen_app, zlen_cons; pose proof (zlen_nonneg dn); pose proof (zlen_nonneg p); lia). cbn [mbind outcome_bind].
  unfold zlen at 1. rewrite Nat2Z.id, insert_app_r_alt, Nat.sub_diag by lia. cbn [insert list_insert].
  replace (dn ++ b :: p) with ((dn ++ [b]) ++ p) by (by rewrite <- app_assoc).
  replace (zlen dn + 1) with (zlen (dn ++ [b])) by (rewrite zlen_app, zlen_cons, zlen_nil; lia).
  rewrite IH by lia. by rewrite <- app_assoc.
Qed.

Lemma put_encoding e p (k : list Z -> outcome (list Z * Z)) : zlen e <= zlen p ->
  (p ← put_all p 0 e; k p) = k (e ++ drop (length e) p).
Proof. intros Hl. pose proof (put_all_spec e [] p Hl) as E. cbn [app] in E. change (zlen (@nil Z)) with 0 in E. by rewrite E. Qed.

Lemma EncodeRune_body p r : 0 <= r <= MaxRune -> EncodeRune p r = (p ← put_all p 0 (encoding r); Done (p, zlen (encoding r))).
Proof.
  intros Hr. unfold EncodeRune, encoding. rewrite wrap_small by (limits; lia). rewrite !cont_byte, !Z.shiftr_div_pow2 by lia.
  rewrite (proj2 (Z.ltb_ge MaxRune r)) by lia. change (2 ^ 6) with 64. change (2 ^ 12) with 4096. change (2 ^ 18) with 262144.
  case_bool; [rewrite byte_small by (unfold is_byte; limits; lia); cbn; by destruct (set_idx p 0 r)|].
  case_bool; [rewrite lead2 by (limits; zlia)|case_bool; [rewrite lead3 by (limits; zlia)|rewrite lead4 by (limits; zlia)]];
    cbn [put_all]; change (0 + 1) with 1; change (1 + 1) with 2; change (2 + 1) with 3;
    repeat (match goal with |- (?m ≫= _) = _ => destruct m as [?| |]; cbn [mbind outcome_bind]; try done end).
Qed.

Lemma EncodeRune_invalid p rune : - 2 ^ 31 <= rune < 2 ^ 31 -> rune < 0 \/ MaxRune < rune -> EncodeRune p rune = EncodeRune p RuneError.
Proof.
  intros Hr Hi. assert (Hw : MaxRune < wrap 32 rune).
  { unfold wrap. limits. destruct Hi; [rewrite <- (Z.mod_add rune 1) by lia|]; rewrite Z.mod_small by lia; lia. }
  unfold EncodeRune. change (wrap 32 RuneError) with RuneError.
  rewrite (proj2 (Z.leb_gt (wrap 32 rune) rune1Max)), (proj2 (Z.leb_gt (wrap 32 rune) rune2Max)), (proj2 (Z.ltb_lt _ _) Hw) by (limits; lia).
  done.
Qed.

Lemma EncodeRune_spec p rune : - 2 ^ 31 <= rune < 2 ^ 31 -> let e := encoding (valid_rune rune) in
  zlen e <= zlen p -> EncodeRune p rune = Done (e ++ drop (length e) p, zlen e).
Proof.
  intros Hr e Hl. unfold e in *. clear e. unfold valid_rune in *.
  destruct ((rune <? 0) || (MaxRune <? rune)) eqn:E; bool_to_prop.
  - rewrite EncodeRune_invalid, EncodeRune_body by (try done; limits; lia). by rewrite put_encoding.
  - rewrite EncodeRune_body by lia. by rewrite put_encoding.
Qed.

(** The runtime encodes as EncodeRune does. *)
Lemma runetochar_EncodeRune p rune : runetochar p rune = EncodeRune p rune.
Proof.
  assert (Hl : forall a x, is_byte a -> byte (Z.lor a x) = Z.lor a (byte x)).
  { intros a x Ha. unfold byte, wrap. rewrite <- !Z.land_ones, Z.land_lor_distr_l by lia. f_equal.
    rewrite Z.land_ones by lia. by apply Z.mod_small. }
  assert (Hc : forall x, byte (Z.lor tx (Z.land x maskx)) = Z.lor tx (Z.land (byte x) maskx)).
  { intros x. rewrite Hl by (unfold is_byte, tx; lia). f_equal. unfold byte, wrap. rewrite <- !Z.land_ones by lia.
    rewrite <- !Z.land_assoc, (Z.land_comm maskx). done. }
  unfold runetochar, EncodeRune. rewrite !Hc, !Hl by (unfold is_byte, t2, t3, t4; lia). done.
Qed.

Lemma intstring_spec rune : - 2 ^ 31 <= rune < 2 ^ 31 -> intstring rune = Done (encoding (valid_rune rune)).
Proof.
  intros Hr. unfold intstring. rewrite runetochar_EncodeRune, EncodeRune_spec; [|done|].
  - cbn [mbind outcome_bind]. apply slice_prefix.
  - unfold encoding. repeat case_bool; unfold zlen; cbn; lia.
Qed.

(** UTF-8 round trip: EncodeRune writes the encoding of a rune (of U+FFFD for
    an int that is no code point) into a large enough slice, leaves the rest of
    it alone, and returns its length, which is RuneLen; DecodeRune of the slice,
    whatever follows, gives the rune and the length back. *)
Theorem Encode_Decode_roundtrip p rune : - 2 ^ 31 <= rune < 2 ^ 31 -> UTFMax <= zlen p ->
  exists p' n, EncodeRune p rune = Done (p', n) /\ zlen p' = zlen p /\ drop (Z.to_nat n) p' = drop (Z.to_nat n) p /\
    n = RuneLen (valid_rune rune) /\ DecodeRune p' = (valid_rune rune, n) /\ FullRune p' = true.
Proof.
  intros Hr Hp. assert (Hv : 0 <= valid_rune rune <= MaxRune) by (unfold valid_rune; limits; case_bool; bool_to_prop; lia).
  assert (Hlen : zlen (encoding (valid_rune rune)) = RuneLen (valid_rune rune)).
  { unfold encoding, RuneLen. repeat case_bool; try done. limits. lia. }
  assert (Hle : zlen (encoding (valid_rune rune)) <= 4) by (unfold encoding; repeat case_bool; unfold zlen; cbn; lia).
  unfold UTFMax in Hp. eexists _, _. rewrite EncodeRune_spec by (try done; lia). split; [done|].
  pose proof (zlen_nonneg (encoding (valid_rune rune))). unfold FullRune, DecodeRune. rewrite decode_encoding by (limits; lia).
  split_and!; try done.
  - rewrite zlen_app, zlen_drop. fold (zlen (encoding (valid_rune rune))). lia.
  - rewrite zlen_to_nat, drop_app_length. done.
Qed.

Lemma Encode_Decode_roundtrip_witness : exists p', EncodeRune [1; 2; 3; 4; 5] 0x20AC = Done (p', 3) /\ DecodeRune p' = (0x20AC, 3).
Proof.
  destruct (Encode_Decode_roundtrip [1; 2; 3; 4; 5] 0x20AC) as (p' & n & He & _ & _ & Hn & Hd & _); [lia|done|].
  exists p'. cbn in Hn. subst n. split; [exact He|exact Hd].
Defined.

(** DecodeRune accepts exactly the shortest encodings: on any bytes it either
    returns the rune whose encoding they start with, or, when they start with
    none, RuneError with width 1.  The runes are those of 21 bits, so values
    above unicode.MaxRune and surrogates are accepted. *)
Theorem DecodeRune_exact p : Forall is_byte p -> p <> [] ->
  (exists r q, 0 <= r <= rune4Max /\ p = encoding r ++ q /\ DecodeRune p = (r, zlen (encoding r))) \/
  (DecodeRune p = (RuneError, 1) /\ forall r q, 0 <= r <= rune4Max -> p <> encoding r ++ q).
Proof.
  intros Hb Hp. destruct (decode_any p Hb Hp) as [H|[Hd He]]; [by left|right]. split; [done|]. intros r q Hr E. apply He. by exists r, q.
Qed.

Lemma DecodeRune_exact_witness : DecodeRune [0xC0; 0x80] = (RuneError, 1) /\ forall r q, 0 <= r <= rune4Max -> [0xC0; 0x80] <> encoding r ++ q.
Proof.
  destruct (DecodeRune_exact [0xC0; 0x80]) as [(r & q & _ & _ & H)|H]; [bytes_concrete|done| |exact H].
  exfalso. change (DecodeRune [0xC0; 0x80]) with (RuneError, 1) in H. injection H as Hr Hl. subst r. discriminate Hl.
Defined.

(** * Iterating over the runes of a byte sequence *)

(** [segs p l]: decoding [p] from the front gives the runes and bytes of [l]. *)
Inductive segs : list Z -> list (Z * list Z) -> Prop :=
  | segs_nil : segs [] []
  | segs_cons r c q l : c <> [] -> DecodeRune (c ++ q) = (r, zlen c) -> segs q l -> segs (c ++ q) ((r, c) :: l).

Definition bytes_of (l : list (Z * list Z)) : list Z := concat (snd <$> l).

Lemma segs_bytes p l : segs p l -> p = bytes_of l.
Proof. induction 1 as [|r c q l _ _ _ ->]; done. Qed.

Lemma segs_nil_inv l : segs [] l -> l = [].
Proof. intros Hs. inversion Hs as [|r c q l' Hc Hd Hq E]; [done|]. destruct c; [done|discriminate E]. Qed.

(** A segment is an encoding or a single byte. *)
Lemma seg_cases c q r : Forall is_byte (c ++ q) -> c <> [] -> DecodeRune (c ++ q) = (r, zlen c) ->
  (0 <= r <= rune4Max /\ c = encoding r) \/ (r = RuneError /\ zlen c = 1 /\ ~ encoded (c ++ q)).
Proof.
  intros Hb Hc Hd. destruct (decode_any _ Hb) as [(r' & q' & Hr & E & Hd')|[Hd' He]]; [by destruct c|..].
  - rewrite Hd in Hd'. injection Hd' as -> Hl. left. split; [done|]. apply (app_inj_1 c (encoding r') q q'); [|done]. unfold zlen in Hl. lia.
  - rewrite Hd in Hd'. injection Hd' as -> Hl. right. done.
Qed.

(** Segments do not depend on what follows them. *)
Lemma decode_prefix c q q' r : Forall is_byte (c ++ q ++ q') -> c <> [] -> DecodeRune (c ++ q ++ q') = (r, zlen c) -> DecodeRune (c ++ q) = (r, zlen c).
Proof.
  intros Hb Hc Hd. destruct (seg_cases c (q ++ q') r Hb Hc Hd) as [[Hr ->]|(-> & Hl & He)].
  - unfold DecodeRune. by rewrite decode_encoding.
  - rewrite app_assoc in Hb. apply Forall_app in Hb as [Hb _]. destruct (decode_any (c ++ q) Hb) as [(r' & q2 & Hr & E & _)|[Hd' _]]; [by destruct c| |].
    + exfalso. apply He. exists r', (q2 ++ q'). split; [done|]. by rewrite app_assoc, E, app_assoc.
    + by rewrite Hd', Hl.
Qed.

Lemma segs_prefix l1 : forall l2 p, Forall is_byte p -> segs p (l1 ++ l2) -> segs (bytes_of l1) l1.
Proof.
  induction l1 as [|[r c] l1 IH]; intros l2 p Hb Hs; [constructor|]. inversion Hs as [|? ? q ? Hc Hd Hq]; subst.
  change (bytes_of ((r, c) :: l1)) with (c ++ bytes_of l1). pose proof (segs_bytes _ _ Hq) as ->.
  apply segs_cons; [done| |].
  - unfold bytes_of in Hb, Hd. rewrite fmap_app, concat_app in Hb, Hd. by eapply decode_prefix.
  - eapply IH; [|exact Hq]. by apply Forall_app in Hb as [_ ?].
Qed.

Lemma segs_suffix l1 : forall l2 p, segs p (l1 ++ l2) -> segs (bytes_of l2) l2.
Proof.
  induction l1 as [|[r c] l1 IH]; intros l2 p Hs; [pose proof (segs_bytes _ _ Hs) as ->; done|].
  inversion Hs; subst. by eapply IH.
Qed.

(** ** Backwards *)

Lemma RuneStart_spec b : is_byte b -> RuneStart b = negb ((128 <=? b) && (b <? 192)).
Proof.
  intros Hb. apply eqb_prop. revert b Hb. apply (all_bytes (fun b => eqb (RuneStart b) (negb ((128 <=? b) && (b <? 192))))). by vm_compute.
Qed.

Lemma encoding_shape r : 0 <= r <= rune4Max -> exists b t, encoding r = b :: t /\
  (0 <= b < 128 /\ t = [] \/ 192 <= b < 248 /\ t <> [] /\ zlen t <= 3) /\ Forall (fun c => 128 <= c < 192) t.
Proof.
  intros Hr. unfold encoding. repeat case_bool; limits; (eexists _, _; split; [reflexivity|]); split;
    try (left; split; [lia|done]); try (right; split; [zlia|]; split; [done|unfold zlen; cbn; lia]);
    repeat (apply Forall_cons_2; [zlia|]); apply Forall_nil_2.
Qed.

(** The first byte of a rune is on a boundary. *)
Lemma segs_boundary p l : segs p l -> Forall is_byte p -> forall x b y, p = x ++ b :: y -> ~ 128 <= b < 192 ->
  exists l1 l2, l = l1 ++ l2 /\ bytes_of l1 = x /\ segs (b :: y) l2.
Proof.
  induction 1 as [|r c q l Hc Hd Hs IH]; intros Hb x b y E Hnc; [by destruct x|].
  destruct x as [|x0 x].
  { exists [], ((r, c) :: l). split_and!; [done|done|]. cbn [app] in E. rewrite <- E. by apply segs_cons. }
  apply app_eq_inv in E as [(k & Ec & Ek)|(k & Ex & Eq)].
  - destruct k as [|b' k].
    + rewrite app_nil_r in Ec. subst c. cbn in Ek. apply Forall_app in Hb as [_ Hb].
      destruct (IH Hb [] b y) as (l1 & l2 & -> & Hl1 & Hl2); [done|done|]. exists ((r, x0 :: x) :: l1), l2. split_and!; [done| |done].
      change (bytes_of ((r, x0 :: x) :: l1)) with ((x0 :: x) ++ bytes_of l1). by rewrite Hl1, app_nil_r.
    + injection Ek as <- ->. exfalso. destruct (seg_cases c q r Hb Hc Hd) as [[Hr Eenc]|(_ & Hl & _)].
      * destruct (encoding_shape r Hr) as (b0 & t & E0 & _ & Ht). rewrite Eenc, E0 in Ec. injection Ec as _ ->.
        apply Forall_app in Ht as [_ Ht]. apply Forall_cons_iff in Ht as [Ht _]. done.
      * rewrite Ec in Hl. cbn in Hl. rewrite zlen_cons, zlen_app, zlen_cons in Hl. pose proof (zlen_nonneg x). pose proof (zlen_nonneg k). lia.
  - apply Forall_app in Hb as [_ Hb]. destruct (IH Hb k b y Eq Hnc) as (l1 & l2 & -> & Hl1 & Hl2).
    exists ((r, c) :: l1), l2. split_and!; [done| |done]. change (bytes_of ((r, c) :: l1)) with (c ++ bytes_of l1). by rewrite Hl1, Ex.
Qed.

(** The scan for the first byte of a rune. *)
Lemma back_to_start_spec p lim start : 0 <= lim -> lim - 1 <= start < zlen p -> start - lim < 4 ->
  returns (back_to_start p lim (start + 1)) (fun s => lim - 1 <= s <= start /\
    (lim <= s -> exists b, p.[s] = Some b /\ RuneStart b = true) /\
    (forall k, s < k <= start -> exists b, p.[k] = Some b /\ RuneStart b = false)).
Proof.
  intros Hlim Hst Hd. unfold back_to_start. replace (start + 1 - 1) with start by lia.
  apply (loop_returns (fun s => lim - 1 <= s <= start /\ forall k, s < k <= start -> exists b, p.[k] = Some b /\ RuneStart b = false)
    (fun s => Z.to_nat (s - lim + 1))); [|split; [lia|]; intros; lia|unfold UTFMax; lia].
  intros s [Hs Hk]. case_bool; [go_ret; split_and!; [lia|lia|lia|done]|]. bool_to_prop.
  destruct (zlookup_lt p s) as [b Hb]; [lia|]. rewrite (idx_done _ _ _ Hb). cbn [mbind outcome_bind].
  case_bool; go_ret; [split_and!; [lia|lia|eauto|done]|]. split; [|lia]. split; [lia|]. intros k Hk'.
  destruct (decide (k = s)) as [->|]; [eauto|]. apply Hk. lia.
Qed.

(** DecodeLastRune once the scan has stopped at [s]. *)
Lemma DecodeLastRune_at p x c b s r n : p = x ++ c -> c <> [] -> p.[zlen p - 1] = Some b -> 128 <= b ->
  back_to_start p (Z.max 0 (zlen p - 4)) (zlen p - 1) = Done s -> Z.max 0 s = zlen x -> DecodeRune c = (r, n) ->
  DecodeLastRune p = Done (if n =? zlen c then (r, n) else (RuneError, 1)).
Proof.
  intros Hp Hc Hlast Hb Hs Hx Hd. assert (Hlen : zlen p = zlen x + zlen c) by (rewrite Hp; apply zlen_app).
  pose proof (zlen_pos c Hc). pose proof (zlen_nonneg x). unfold DecodeLastRune, UTFMax, RuneSelf.
  rewrite (proj2 (Z.eqb_neq (zlen p) 0)), (idx_done _ _ _ Hlast) by lia. cbn [mbind outcome_bind]. rewrite (proj2 (Z.ltb_ge b 128)) by lia.
  replace (if zlen p - 4 <? 0 then 0 else zlen p - 4) with (Z.max 0 (zlen p - 4)) by (case_bool; lia). rewrite Hs. cbn [mbind outcome_bind].
  replace (if s <? 0 then 0 else s) with (zlen x) by (rewrite <- Hx; case_bool; lia).
  assert (slice p (zlen x) (zlen p) = Done c) as -> by (rewrite Hp; apply slice_suffix). cbn [mbind outcome_bind].
  rewrite Hd, Hlen. destruct (Z.eqb_spec n (zlen c)) as [->|Hn]; [by rewrite Z.eqb_refl|]. by rewrite (proj2 (Z.eqb_neq _ _)) by lia.
Qed.

(** The scan from the end, for any two or more bytes. *)
Lemma scan_back p : 1 <= zlen p -> exists s, back_to_start p (Z.max 0 (zlen p - 4)) (zlen p - 1) = Done s /\
  Z.max 0 (zlen p - 4) - 1 <= s <= zlen p - 2 /\
  (Z.max 0 (zlen p - 4) <= s -> exists b, p.[s] = Some b /\ RuneStart b = true) /\
  (forall k, s < k <= zlen p - 2 -> exists b, p.[k] = Some b /\ RuneStart b = false).
Proof.
  intros Hp. destruct (back_to_start_spec p (Z.max 0 (zlen p - 4)) (zlen p - 2)) as (s & Hs & H); [lia..|].
  replace (zlen p - 2 + 1) with (zlen p - 1) in Hs by lia. by exists s.
Qed.

Lemma DecodeLastRune_ascii x b : 0 <= b < 128 -> DecodeLastRune (x ++ [b]) = Done (b, 1).
Proof.
  intros Hb. unfold DecodeLastRune, RuneSelf. pose proof (zlen_nonneg x).
  rewrite (proj2 (Z.eqb_neq _ _)) by (rewrite zlen_app, zlen_cons, zlen_nil; lia). rewrite (idx_done _ _ b) by apply last_at.
  cbn [mbind outcome_bind]. by rewrite (proj2 (Z.ltb_lt _ _)) by lia.
Qed.

(** ** An encoding at the end *)
Lemma DecodeLastRune_encoding x r : Forall is_byte (x ++ encoding r) -> 0 <= r <= rune4Max ->
  DecodeLastRune (x ++ encoding r) = Done (r, zlen (encoding r)).
Proof.
  intros Hb Hr. destruct (encoding_shape r Hr) as (b0 & t & E & Hb0 & Ht). destruct Hb0 as [[Hb0 ->]|(Hb0 & Htn & Htl)].
  - assert (r = b0) as <- by (pose proof (decode_encoding r [] Hr) as Hd; rewrite E in Hd; cbn in Hd; unfold tx in Hd;
      rewrite (proj2 (Z.ltb_lt _ _)) in Hd by lia; congruence). rewrite E. by apply DecodeLastRune_ascii.
  - pose proof (zlen_pos t Htn) as Ht1. pose proof (zlen_nonneg x). set (p := x ++ encoding r) in *.
    assert (Hlen : zlen p = zlen x + (1 + zlen t)) by (unfold p; by rewrite E, zlen_app, zlen_cons).
    destruct (scan_back p) as (s & Hs & Hrange & Hstart & Hbetween); [lia|].
    assert (Hx : p.[zlen x] = Some b0) by (unfold p; rewrite E; apply zlookup_at).
    assert (Htail : forall k, zlen x < k < zlen p -> exists b, p.[k] = Some b /\ 128 <= b < 192).
    { intros k Hk. unfold p. rewrite E. change (b0 :: t) with ([b0] ++ t). rewrite app_assoc, zlookup_app.
      rewrite zlen_app, zlen_cons, zlen_nil. rewrite (proj2 (Z.ltb_ge _ _)) by lia.
      destruct (zlookup_lt t (k - (zlen x + (1 + 0)))) as [b Hbk]; [lia|]. exists b. split; [done|].
      exact (Forall_zlookup _ t _ b Ht Hbk). }
    assert (Hbytes : forall k b, p.[k] = Some b -> is_byte b) by (intros k b; by apply (Forall_zlookup _ p)).
    destruct (Htail (zlen p - 1)) as (b & Hlast & Hbl); [lia|].
    assert (s = zlen x) as ->.
    { destruct (Z.lt_trichotomy s (zlen x)) as [Hlt|[Heq|Hgt]]; [exfalso|done|exfalso].
      - destruct (Hbetween (zlen x)) as (b' & Hb' & Hns); [lia|]. rewrite Hx in Hb'. injection Hb' as <-.
        rewrite RuneStart_spec in Hns by (by eapply Hbytes). bool_to_prop. lia.
      - destruct Hstart as (b' & Hb' & Hns); [lia|]. destruct (Htail s) as (b2 & Hb2 & Hr2); [lia|]. rewrite Hb2 in Hb'. injection Hb' as <-.
        rewrite RuneStart_spec in Hns by (by eapply Hbytes). bool_to_prop. lia. }
    rewrite (DecodeLastRune_at p x (encoding r) b (zlen x) r (zlen (encoding r))); try done; try lia.
    + by rewrite Z.eqb_refl.
    + by rewrite E.
    + unfold DecodeRune. rewrite <- (app_nil_r (encoding r)) at 1. by rewrite decode_encoding.
Qed.

(** ** An error at the end *)
Lemma segs_encoding r l : 0 <= r <= rune4Max -> segs (encoding r) l -> l = [(r, encoding r)].
Proof.
  intros Hr Hs. destruct (encoding_shape r Hr) as (b & t & E & _). inversion Hs as [Hn|r2 c q l' Hc Hd Hs' Ep]; [by rewrite E in Hn|]. subst l.
  rewrite Ep in Hd. pose proof (decode_encoding r [] Hr) as Hd'. rewrite app_nil_r in Hd'. unfold DecodeRune in Hd. rewrite Hd' in Hd.
  injection Hd as -> Hl. assert (q = []) as ->.
  { apply (f_equal zlen) in Ep. rewrite zlen_app in Ep. destruct q as [|z q]; [done|]. rewrite zlen_cons in Ep. pose proof (zlen_nonneg q). lia. }
  by rewrite (segs_nil_inv _ Hs'), app_nil_r.
Qed.

Lemma segs_snoc_inv l1 l2 : forall l r c, l ++ [(r, c)] = l1 ++ l2 -> l2 <> [] -> list.last l2 = Some ((r, c) : Z * list Z).
Proof.
  intros l r c E Hne. destruct l2 as [|y l2 _] using rev_ind; [done|]. rewrite app_assoc in E. apply app_inj_tail in E as [_ <-]. apply last_snoc.
Qed.

Lemma DecodeLastRune_error x b l : Forall is_byte (x ++ [b]) -> segs (x ++ [b]) (l ++ [(RuneError, [b])]) -> 128 <= b ->
  DecodeLastRune (x ++ [b]) = Done (RuneError, 1).
Proof.
  intros Hb Hs Hb128. set (p := x ++ [b]) in *. pose proof (zlen_nonneg x).
  assert (Hlen : zlen p = zlen x + 1) by (unfold p; rewrite zlen_app, zlen_cons, zlen_nil; lia).
  destruct (scan_back p) as (s & Hscan & Hrange & _ & _); [lia|].
  assert (Hsplit : p = take (Z.to_nat (Z.max 0 s)) p ++ drop (Z.to_nat (Z.max 0 s)) p) by (by rewrite take_drop).
  set (y := take (Z.to_nat (Z.max 0 s)) p) in *. set (q := drop (Z.to_nat (Z.max 0 s)) p) in *.
  assert (Hy : zlen y = Z.max 0 s) by (unfold y; rewrite zlen_take; lia).
  assert (Hzq : zlen q = zlen p - Z.max 0 s) by (unfold q; rewrite zlen_drop; lia).
  assert (Hq : q <> []) by (intros E; rewrite E, zlen_nil in Hzq; lia).
  destruct (DecodeRune q) as [r n] eqn:Hd.
  rewrite (DecodeLastRune_at p y q b s r n); [|done|done|unfold p; apply last_at|done|done|done|done].
  destruct (Z.eqb_spec n (zlen q)) as [->|]; [|done].
  assert (Hbq : Forall is_byte q) by (unfold q; by apply Forall_drop).
  destruct (decode_any q Hbq Hq) as [(r' & q' & Hr & Eq & Hd')|[Hd' _]]; [|congruence]. exfalso.
  rewrite Hd in Hd'. injection Hd' as -> Hl. assert (q' = []) as ->.
  { apply (f_equal zlen) in Eq. rewrite zlen_app in Eq. destruct q'; [done|]. rewrite zlen_cons in Eq. pose proof (zlen_nonneg q'). lia. }
  rewrite app_nil_r in Eq. destruct (encoding_shape r' Hr) as (b0 & t & E & Hb0 & Ht).
  destruct (segs_boundary p _ Hs Hb y b0 t) as (l1 & l2 & El & _ & Hs2); [by rewrite Hsplit, Eq, E|lia|].
  assert (Hl2 : list.last l2 = Some (RuneError, [b])) by (eapply segs_snoc_inv; [exact El|by inversion Hs2]).
  rewrite <- E in Hs2. rewrite (segs_encoding r' l2 Hr Hs2) in Hl2. injection Hl2 as -> Hc. rewrite E in Hc. injection Hc as -> ->.
  destruct Hb0 as [[? _]|[_ [? _]]]; [lia|done].
Qed.

(** Decoding backwards from a boundary gives the segment before it. *)
Lemma DecodeLastRune_segs l r c : Forall is_byte (bytes_of (l ++ [(r, c)])) -> segs (bytes_of (l ++ [(r, c)])) (l ++ [(r, c)]) ->
  DecodeLastRune (bytes_of (l ++ [(r, c)])) = Done (r, zlen c).
Proof.
  intros Hb Hs. assert (E : bytes_of (l ++ [(r, c)]) = bytes_of l ++ c) by (unfold bytes_of; rewrite fmap_app, concat_app; cbn; by rewrite app_nil_r).
  pose proof (segs_suffix l [(r, c)] _ Hs) as Hs1. inversion Hs1 as [|r2 c2 q l' Hc Hd Hq Ep El]; subst.
  rewrite E in *. apply Forall_app in Hb as Hb'. destruct Hb' as [_ Hbc].
  assert (q = []) as -> by (by inversion Hq). destruct (seg_cases c [] r) as [[Hr ->]|(-> & Hl & He)]; [by rewrite app_nil_r|done|done|by apply DecodeLastRune_encoding|].
  destruct c as [|b [|b' c]]; [done| |rewrite !zlen_cons in Hl; pose proof (zlen_nonneg c); lia].
  eapply DecodeLastRune_error; [done|exact Hs|]. apply Forall_cons_iff in Hbc as [Hbb _]. unfold is_byte in Hbb.
  destruct (decide (128 <= b)); [done|]. exfalso. apply He. exists b, []. split; [limits; lia|]. rewrite encoding1; [done|limits; lia].
Qed.

(** The runes of a byte sequence with their bytes, decoded from the front. *)
Fixpoint runes_fuel (n : nat) (p : list Z) : list (Z * list Z) :=
  match n, p with
  | S n, _ :: _ => let '(r, w) := DecodeRune p in (r, take (Z.to_nat w) p) :: runes_fuel n (drop (Z.to_nat w) p)
  | _, _ => []
  end.
Definition runes (p : list Z) : list (Z * list Z) := runes_fuel (length p) p.

Lemma DecodeRune_exact_any p : Forall is_byte p -> p <> [] -> exists r c q, c <> [] /\ p = c ++ q /\ DecodeRune p = (r, zlen c) /\
  ((r, zlen c) <> (RuneError, 1) -> exists r, 0 <= r <= rune4Max /\ c = encoding r).
Proof.
  intros Hb Hp. destruct (decode_any p Hb Hp) as [(r & q & Hr & E & Hd)|[Hd _]].
  - exists r, (encoding r), q. split_and!; try done; [|by eauto]. destruct (encoding_shape r Hr) as (? & ? & -> & _). done.
  - destruct p as [|b p]; [done|]. exists RuneError, [b], p. by split_and!.
Qed.

Lemma DecodeRune_width p : (DecodeRune p).2 <= 4.
Proof. unfold DecodeRune, decodeRuneInternal. destruct p as [|c0 [|c1 [|c2 [|c3 p]]]]; repeat case_bool; cbn; lia. Qed.

(** Bytes behind a full rune do not matter; four bytes are always enough. *)
Lemma decode_full p q r n : decodeRuneInternal p = (r, n, false) -> decodeRuneInternal (p ++ q) = (r, n, false).
Proof.
  destruct p as [|c0 [|c1 [|c2 [|c3 p]]]]; cbn [app]; intros H; try done; revert H; unfold decodeRuneInternal; cbn [app];
    repeat case_bool; try done; destruct q as [|? [|? [|? ?]]]; repeat case_bool; done.
Qed.

Lemma FullRune_app p q : FullRune p = true -> DecodeRune (p ++ q) = DecodeRune p.
Proof.
  unfold FullRune, DecodeRune. destruct (decodeRuneInternal p) as [[r n] []] eqn:E; [done|]. intros _. by rewrite (decode_full p q r n E).
Qed.

Lemma FullRune_4 p : 4 <= zlen p -> FullRune p = true.
Proof.
  intros Hp. destruct p as [|c0 [|c1 [|c2 [|c3 p]]]]; try (by vm_compute in Hp). unfold FullRune, decodeRuneInternal. repeat case_bool; done.
Qed.

Lemma DecodeRune_split p : Forall is_byte p -> p <> [] -> exists r c q, c <> [] /\ p = c ++ q /\ DecodeRune p = (r, zlen c).
Proof.
  intros Hb Hp. destruct (decode_any p Hb Hp) as [(r & q & Hr & E & Hd)|[Hd _]].
  - exists r, (encoding r), q. split; [|done]. destruct (encoding_shape r Hr) as (? & ? & -> & _). done.
  - destruct p as [|b p]; [done|]. by exists RuneError, [b], p.
Qed.

Lemma runes_fuel_segs n : forall p, (length p <= n)%nat -> Forall is_byte p -> segs p (runes_fuel n p).
Proof.
  induction n as [|n IH]; intros p Hn Hb; (destruct p as [|b p]; [constructor|]); cbn [length] in Hn; [lia|].
  destruct (DecodeRune_split (b :: p) Hb ltac:(done)) as (r & c & q & Hc & E & Hd). cbn [runes_fuel]. rewrite Hd.
  rewrite E, zlen_to_nat, take_app_length, drop_app_length. apply segs_cons; [done|by rewrite <- E|]. apply IH.
  - apply (f_equal length) in E. rewrite length_app in E. cbn in E. destruct c; [done|]. cbn in E. lia.
  - rewrite E in Hb. by apply Forall_app in Hb as [_ ?].
Qed.

Lemma runes_segs p : Forall is_byte p -> segs p (runes p).
Proof. by apply runes_fuel_segs. Qed.

Lemma bytes_of_app l1 l2 : bytes_of (l1 ++ l2) = bytes_of l1 ++ bytes_of l2.
Proof. unfold bytes_of. by rewrite fmap_app, concat_app. Qed.

Lemma bytes_of_snoc l r c : bytes_of (l ++ [(r, c)]) = bytes_of l ++ c.
Proof. rewrite bytes_of_app. cbn. by rewrite app_nil_r. Qed.

Lemma DecodeLastRune_prefix p l1 r c l2 : Forall is_byte p -> segs p (l1 ++ (r, c) :: l2) -> DecodeLastRune (bytes_of l1 ++ c) = Done (r, zlen c).
Proof.
  intros Hb Hs. replace (l1 ++ (r, c) :: l2) with ((l1 ++ [(r, c)]) ++ l2) in Hs by (by rewrite <- app_assoc).
  pose proof (segs_prefix _ _ _ Hb Hs) as Hs1. pose proof (segs_bytes _ _ Hs) as Ep.
  rewrite <- (bytes_of_snoc l1 r c). apply DecodeLastRune_segs; [|done]. rewrite Ep, bytes_of_app in Hb. by apply Forall_app in Hb as [? _].
Qed.

(** Decoding backwards: on any bytes, valid UTF-8 or not, split into runes from
    the front, DecodeLastRune of a prefix that ends after one of the runes
    returns that rune and its width, so that decoding backwards visits the same
    runes in reverse. *)
Theorem DecodeLastRune_correct p l1 r c l2 : Forall is_byte p -> runes p = l1 ++ (r, c) :: l2 ->
  p = bytes_of (runes p) /\ DecodeLastRune (bytes_of l1 ++ c) = Done (r, zlen c).
Proof.
  intros Hb E. pose proof (runes_segs p Hb) as Hs. split; [by apply segs_bytes|]. rewrite E in Hs. by eapply DecodeLastRune_prefix.
Qed.

Lemma DecodeLastRune_correct_witness : DecodeLastRune [0xE2; 0x82; 0xC2; 0xA9] = Done (0xA9, 2).
Proof.
  apply (DecodeLastRune_correct [0xE2; 0x82; 0xC2; 0xA9] [(RuneError, [0xE2]); (RuneError, [0x82])] 0xA9 [0xC2; 0xA9] []); [bytes_concrete|].
  by vm_compute.
Defined.

(** * [range] against DecodeRune *)

Lemma charn_ok c : is_byte c -> (Z.land (Z.lxor c tx) 0xC0 =? 0) = negb (not_continuation c).
Proof.
  intros Hc. apply eqb_prop. revert c Hc. apply (all_bytes (fun c => eqb (Z.land (Z.lxor c tx) 0xC0 =? 0) (negb (not_continuation c)))). by vm_compute.
Qed.

Lemma charn_low c : 0x80 <= c < 0xC0 -> Z.lxor c tx = c - 128.
Proof.
  intros Hc. assert (Hb : is_byte c) by (unfold is_byte; lia).
  pose proof (all_bytes (fun c => not_continuation c || (Z.lxor c tx =? c - 128)) ltac:(by vm_compute) c Hb) as H. cbv beta in H.
  rewrite (proj2 (continuation c)) in H by done. cbn in H. by apply Z.eqb_eq.
Qed.

Lemma charn2 c c1 : 0xC0 <= c < 0xE0 -> 0x80 <= c1 < 0xC0 ->
  Z.land (Z.lor (Z.shiftl c 6) (c1 - 128)) rune2Max = (c - 192) * 64 + (c1 - 128).
Proof.
  intros H0 H1. change rune2Max with (Z.ones 11). rewrite Z.land_ones, Z.shiftl_mul_pow2, lor_add by lia. change (2 ^ 6) with 64. change (2 ^ 11) with 2048. zlia.
Qed.

Lemma charn3 c c1 c2 : 0xE0 <= c < 0xF0 -> 0x80 <= c1 < 0xC0 -> 0x80 <= c2 < 0xC0 ->
  Z.land (Z.lor (Z.shiftl (Z.lor (Z.shiftl c 6) (c1 - 128)) 6) (c2 - 128)) rune3Max = ((c - 224) * 64 + (c1 - 128)) * 64 + (c2 - 128).
Proof.
  intros H0 H1 H2. change rune3Max with (Z.ones 16). rewrite Z.land_ones, !Z.shiftl_mul_pow2 by lia. rewrite (lor_add c), lor_add by lia.
  change (2 ^ 6) with 64. change (2 ^ 16) with 65536. zlia.
Qed.

Lemma charn4 c c1 c2 c3 : 0xF0 <= c < 0xF8 -> 0x80 <= c1 < 0xC0 -> 0x80 <= c2 < 0xC0 -> 0x80 <= c3 < 0xC0 ->
  Z.land (Z.lor (Z.shiftl (Z.lor (Z.shiftl (Z.lor (Z.shiftl c 6) (c1 - 128)) 6) (c2 - 128)) 6) (c3 - 128)) rune4Max =
  (((c - 240) * 64 + (c1 - 128)) * 64 + (c2 - 128)) * 64 + (c3 - 128).
Proof.
  intros H0 H1 H2 H3. change rune4Max with (Z.ones 21). rewrite Z.land_ones, !Z.shiftl_mul_pow2 by lia. rewrite (lor_add c), (lor_add (c * 2 ^ 6 + (c1 - 128))), lor_add by lia.
  change (2 ^ 6) with 64. change (2 ^ 21) with 2097152. zlia.
Qed.

(** What [range] makes of a decoded rune. *)
Definition ranged (d : Z * Z) : Z * Z := if MaxRune <? d.1 then (RuneError, 1) else d.

Lemma charntorune_spec p : Forall is_byte p -> p <> [] -> charntorune p = ranged (DecodeRune p).
Proof.
  intros Hb Hp. destruct p as [|c p]; [done|]. apply Forall_cons_iff in Hb as [Hc Hb]. unfold DecodeRune. cbn [charntorune decodeRuneInternal].
  unfold is_byte in Hc. destruct (c <? tx) eqn:E1; [unfold ranged; cbn [fst]; bool_to_prop; rewrite (proj2 (Z.ltb_ge _ _)) by (limits; lia); done|].
  destruct p as [|c1 p]; [by destruct (c <? t2)|]. apply Forall_cons_iff in Hb as [Hc1 Hb]. rewrite charn_ok, negb_involutive by done.
  destruct (not_continuation c1) eqn:N1; [by destruct (c <? t2)|]. pose proof (proj1 (continuation c1) N1) as H1. rewrite (charn_low c1) by done.
  destruct (c <? t3) eqn:E3.
  { destruct (c <? t2) eqn:E2; [done|]. bool_to_prop. rewrite charn2, rune2_val by (limits; lia). case_bool; [done|].
    unfold ranged. cbn [fst]. rewrite (proj2 (Z.ltb_ge _ _)) by (limits; lia). done. }
  destruct (c <? t2) eqn:E2; [bool_to_prop; limits; lia|].
  destruct p as [|c2 p]; [done|]. apply Forall_cons_iff in Hb as [Hc2 Hb]. rewrite charn_ok, negb_involutive by done.
  destruct (not_continuation c2) eqn:N2; [done|]. pose proof (proj1 (continuation c2) N2) as H2. rewrite (charn_low c2) by done.
  destruct (c <? t4) eqn:E4.
  { bool_to_prop. rewrite charn3, rune3_val by (limits; lia). case_bool; [done|].
    unfold ranged. cbn [fst]. rewrite (proj2 (Z.ltb_ge _ _)) by (limits; lia). done. }
  destruct p as [|c3 p]; [done|]. apply Forall_cons_iff in Hb as [Hc3 Hb]. rewrite charn_ok, negb_involutive by done.
  destruct (not_continuation c3) eqn:N3; [done|]. pose proof (proj1 (continuation c3) N3) as H3. rewrite (charn_low c3) by done.
  destruct (c <? t5) eqn:E5; [|done]. bool_to_prop. rewrite charn4, rune4_val by (limits; lia).
  destruct (_ <=? rune3Max) eqn:E6; [done|]. cbn [orb]. unfold ranged. cbn [fst]. by case_bool.
Qed.

(** ** At a boundary *)
Section Boundary.
Context (p : list Z) (l1 : list (Z * list Z)) (r : Z) (c : list Z) (l2 : list (Z * list Z)).
Context (Hb : Forall is_byte p) (Hs : segs p (l1 ++ (r, c) :: l2)).

Lemma boundary_split : p = bytes_of l1 ++ c ++ bytes_of l2.
Proof using Hs. rewrite (segs_bytes _ _ Hs), bytes_of_app. done. Qed.

Lemma boundary_decode : c <> [] /\ DecodeRune (c ++ bytes_of l2) = (r, zlen c).
Proof using Hs.
  pose proof (segs_suffix l1 ((r, c) :: l2) p Hs) as H. inversion H as [|r' c' q l' Hc Hd Hq E]; subst.
  change (bytes_of ((r, c) :: l2)) with (c ++ bytes_of l2) in E. apply app_inv_head in E as ->. done.
Qed.

Lemma boundary_slice : slice p (zlen (bytes_of l1)) (zlen p) = Done (c ++ bytes_of l2).
Proof using Hs. pose proof boundary_split as E. rewrite E. apply slice_suffix. Qed.

Lemma boundary_bytes : Forall is_byte (c ++ bytes_of l2).
Proof using Hb Hs. rewrite boundary_split in Hb. by apply Forall_app in Hb as [_ ?]. Qed.

Lemma boundary_lt : zlen (bytes_of l1) + zlen c <= zlen p /\ 1 <= zlen c.
Proof using Hs.
  destruct boundary_decode as [Hc _]. split; [|by apply zlen_pos]. rewrite boundary_split, !zlen_app. pose proof (zlen_nonneg (bytes_of l2)). lia.
Qed.

(** The byte there, and what it means when it is ASCII. *)
Lemma boundary_byte : exists b, p.[zlen (bytes_of l1)] = Some b /\ is_byte b /\ (b < RuneSelf -> c = [b] /\ r = b).
Proof using Hb Hs.
  destruct boundary_decode as [Hc Hd]. pose proof boundary_bytes as Hbc. pose proof boundary_split as E. destruct c as [|b c']; [done|]. exists b.
  split; [rewrite E; apply zlookup_at|].
  apply Forall_cons_iff in Hbc as [Hbb _]. split; [done|]. intros Hlt. cbn [app] in Hd. unfold DecodeRune in Hd. cbn [decodeRuneInternal] in Hd.
  unfold RuneSelf, tx in *. rewrite (proj2 (Z.ltb_lt _ _)) in Hd by lia. cbn [fst] in Hd. assert (Hl : zlen (b :: c') = 1) by congruence.
  assert (r = b) as -> by congruence. rewrite zlen_cons in Hl.
  destruct c'; [done|]. rewrite zlen_cons in Hl. pose proof (zlen_nonneg c'). lia.
Qed.
End Boundary.

Lemma segs_runes p l : Forall is_byte p -> segs p l -> l = runes p.
Proof.
  intros Hb Hs. pose proof (runes_segs p Hb) as Hs'. clear Hb. revert Hs'. generalize (runes p) as l'. induction Hs as [|r c q l Hc Hd Hq IH]; intros l' Hs'.
  - symmetry. by apply segs_nil_inv.
  - inversion Hs' as [E|r' c' q' l2 Hc' Hd' Hq' E]; [by destruct c|]. subst l'. rewrite E in Hd'. rewrite Hd in Hd'. injection Hd' as -> Hl.
    apply app_inj_1 in E as [-> ->]; [|unfold zlen in Hl; lia]. f_equal. by apply IH.
Qed.

(** Positions inside a segmented string are boundaries or its end. *)
Lemma boundary_end p l1 l2 : segs p (l1 ++ l2) -> (l2 = [] <-> zlen p <= zlen (bytes_of l1)).
Proof.
  intros Hs. split.
  - intros ->. rewrite app_nil_r in Hs. by rewrite <- (segs_bytes _ _ Hs).
  - destruct l2 as [|[r c] l2]; [done|]. pose proof (boundary_lt p l1 r c l2 Hs). lia.
Qed.

(** A loop over the boundaries of [p] that counts its segments. *)
Lemma count_loop (body : Z * Z -> outcome (Z * Z + Z)) p : Forall is_byte p ->
  (forall l1 n, segs p l1 -> body (zlen (bytes_of l1), n) = Done (inr n)) ->
  (forall l1 r c l2 n, segs p (l1 ++ (r, c) :: l2) -> body (zlen (bytes_of l1), n) = Done (inl (zlen (bytes_of l1) + zlen c, n + 1))) ->
  loop (S (length p)) body (0, 0) = Done (zlen (runes p)).
Proof.
  intros Hb Hend Hnext. pose proof (runes_segs p Hb) as Hs.
  assert (Hlen : (length (runes p) <= length p)%nat).
  { clear Hend Hnext. induction Hs as [|r c q l Hc _ _ IH]; [done|]. cbn. rewrite length_app. apply Forall_app in Hb as [_ Hb].
    specialize (IH Hb). destruct c; [done|]. cbn. lia. }
  assert (forall l2 l1 fuel, segs p (l1 ++ l2) -> (length l2 < fuel)%nat ->
    loop fuel body (zlen (bytes_of l1), zlen l1) = Done (zlen (l1 ++ l2))) as H.
  { induction l2 as [|[r c] l2 IH]; intros l1 [|fuel] Hs' Hf; cbn [length] in Hf; try lia; cbn [loop].
    - rewrite app_nil_r in *. by rewrite Hend.
    - rewrite (Hnext l1 r c l2) by done. cbn [mbind outcome_bind]. rewrite snoc_app in *.
      replace (zlen (bytes_of l1) + zlen c) with (zlen (bytes_of (l1 ++ [(r, c)]))) by (by rewrite bytes_of_snoc, zlen_app).
      replace (zlen l1 + 1) with (zlen (l1 ++ [(r, c)])) by (rewrite zlen_app, zlen_cons, zlen_nil; lia). apply IH; [done|lia]. }
  apply (H (runes p) [] (S (length p))); [done|lia].
Qed.

Lemma RuneCount_spec p : Forall is_byte p -> RuneCount p = Done (zlen (runes p)).
Proof.
  intros Hb. apply count_loop; [done|..].
  - intros l1 n Hs. rewrite <- (app_nil_r l1) in Hs. rewrite (proj2 (Z.ltb_ge _ _)) by (by apply (boundary_end p l1 [])). done.
  - intros l1 r c l2 n Hs. destruct (boundary_lt p l1 r c l2 Hs). rewrite (proj2 (Z.ltb_lt _ _)) by lia. cbn [negb].
    destruct (boundary_byte p l1 r c l2 Hb Hs) as (b & Hbp & _ & Hasc). rewrite (idx_done _ _ _ Hbp). cbn [mbind outcome_bind].
    case_bool; [destruct Hasc as [-> _]; [lia|]; done|]. rewrite (boundary_slice p l1 r c l2) by done. cbn [mbind outcome_bind].
    by rewrite (proj2 (boundary_decode p l1 r c l2 Hs)).
Qed.

(** No segment of [p] is a rune above MaxRune. *)
Definition in_range (p : list Z) : bool := forallb (fun rc => rc.1 <=? MaxRune) (runes p).

Lemma in_range_at p l1 r c l2 : in_range p = true -> runes p = l1 ++ (r, c) :: l2 -> r <= MaxRune.
Proof.
  unfold in_range. intros H E. rewrite E, forallb_app, andb_true_iff in H. destruct H as [_ H]. cbn in H. bool_to_prop. done.
Qed.

Lemma stringiter_spec p l1 r c l2 : Forall is_byte p -> segs p (l1 ++ (r, c) :: l2) -> r <= MaxRune ->
  stringiter p (zlen (bytes_of l1)) = Done (zlen (bytes_of l1) + zlen c).
Proof.
  intros Hb Hs Hr. unfold stringiter. destruct (boundary_lt p l1 r c l2 Hs). rewrite (proj2 (Z.leb_gt _ _)) by lia.
  destruct (boundary_byte p l1 r c l2 Hb Hs) as (b & Hbp & _ & Hasc). rewrite (idx_done _ _ _ Hbp). cbn [mbind outcome_bind].
  case_bool; [destruct Hasc as [-> _]; [lia|]; done|]. rewrite (boundary_slice p l1 r c l2) by done. cbn [mbind outcome_bind].
  destruct (boundary_decode p l1 r c l2 Hs) as [Hc Hd]. rewrite charntorune_spec, Hd; [|by eapply boundary_bytes|by destruct c].
  unfold ranged. cbn [fst]. rewrite (proj2 (Z.ltb_ge _ _)) by lia. done.
Qed.

Lemma RuneCountInString_spec p : Forall is_byte p -> in_range p = true -> RuneCountInString p = Done (zlen (runes p)).
Proof.
  intros Hb Hr. apply count_loop; [done|..].
  - intros l1 n Hs. unfold stringiter. rewrite <- (app_nil_r l1) in Hs.
    by rewrite (proj2 (Z.leb_le _ _)) by (by apply (boundary_end p l1 [])).
  - intros l1 r c l2 n Hs. rewrite (stringiter_spec p l1 r c l2); [|done|done|].
    + cbn [mbind outcome_bind]. destruct (boundary_lt p l1 r c l2 Hs). pose proof (zlen_nonneg (bytes_of l1)).
      by rewrite (proj2 (Z.eqb_neq _ _)) by lia.
    + eapply in_range_at; [done|]. symmetry. by apply segs_runes.
Qed.

(** RuneCount counts the runes that decoding from the front finds in any
    bytes, and RuneCountInString, which counts the iterations of a [range]
    loop, agrees with it on strings without runes above unicode.MaxRune; on the
    four bytes F4 90 80 80, which DecodeRune takes for the rune 0x110000, it does
    not: [range] sees four errors. *)
Theorem RuneCount_correct p : Forall is_byte p ->
  RuneCount p = Done (zlen (runes p)) /\ (in_range p = true -> RuneCountInString p = RuneCount p) /\
  (RuneCount [0xF4; 0x90; 0x80; 0x80] = Done 1 /\ RuneCountInString [0xF4; 0x90; 0x80; 0x80] = Done 4).
Proof.
  intros Hb. rewrite RuneCount_spec by done. split; [done|]. split; [by apply RuneCountInString_spec|]. by vm_compute.
Qed.

Lemma RuneCount_correct_witness : RuneCountInString [0x61; 0xE2; 0x82; 0xAC] = RuneCount [0x61; 0xE2; 0x82; 0xAC].
Proof. apply RuneCount_correct; [bytes_concrete|]. by vm_compute. Defined.

(** * utf8.String *)

(** The leading ASCII bytes are runes of their own. *)
Lemma ascii_prefix k : forall p l, Forall is_byte p -> segs p l -> (k <= length p)%nat -> Forall (fun b => b < RuneSelf) (take k p) ->
  exists l2, l = ((fun b => (b, [b])) <$> take k p) ++ l2.
Proof.
  induction k as [|k IH]; intros p l Hb Hs Hk Ha; [by exists l|]. destruct p as [|b p]; [cbn in Hk; lia|]. cbn [take] in Ha. apply Forall_cons_iff in Ha as [Hb0 Ha].
  destruct l as [|[r c] l]; [inversion Hs|]. destruct (boundary_byte (b :: p) [] r c l Hb Hs) as (b' & Eb & _ & Hasc). injection Eb as <-.
  destruct (Hasc Hb0) as [-> ->]. pose proof (segs_suffix [(b, [b])] l _ Hs) as Hs'. pose proof (boundary_split _ [] _ _ _ Hs) as Ep. injection Ep as Ep. rewrite <- Ep in Hs'.
  apply Forall_cons_iff in Hb as [_ Hb]. destruct (IH p l Hb Hs' ltac:(cbn in Hk; lia) Ha) as [l2 ->]. by exists l2.
Qed.

Lemma bytes_of_ascii q : bytes_of ((fun b : Z => (b, [b])) <$> q) = q.
Proof. unfold bytes_of. induction q as [|b q IH]; [done|]. rewrite !fmap_cons. cbn [concat snd app]. by rewrite IH. Qed.

Section String.
Context (p : list Z) (Hb : Forall is_byte p).
Let l : list (Z * list Z) := runes p.

Lemma runes_here : segs p l.
Proof using Hb. by apply runes_segs. Qed.

(** A String for [p] whose cached position is after the runes [l1]. *)
Record at_pos (s : String) (l1 : list (Z * list Z)) : Prop := {
  at_str : str s = p;
  at_num : numRunes s = zlen l;
  at_byte : bytePos s = zlen (bytes_of l1);
  at_rune : runePos s = zlen l1;
}.

Lemma decode_here_spec s l1 r c l2 : at_pos s l1 -> l = l1 ++ (r, c) :: l2 ->
  decode_here s = Done (r, set_pos s (zlen c) (zlen (bytes_of l1)) (zlen l1)).
Proof using Hb.
  intros [Hstr _ Hbp Hrp] E. pose proof runes_here as Hs. rewrite E in Hs. unfold decode_here, DecodeRuneInString, decodeRuneInStringInternal.
  rewrite Hstr, Hbp, (boundary_slice p l1 r c l2) by done. cbn [mbind outcome_bind]. fold (DecodeRune (c ++ bytes_of l2)).
  rewrite (proj2 (boundary_decode p l1 r c l2 Hs)). by rewrite Hrp.
Qed.

Lemma decode_back_spec s l1 r c l2 : at_pos s (l1 ++ [(r, c)]) -> l = l1 ++ (r, c) :: l2 ->
  decode_back s = Done (r, set_pos s (zlen c) (zlen (bytes_of l1)) (zlen l1)).
Proof using Hb.
  intros [Hstr _ Hbp Hrp] E. pose proof runes_here as Hs. rewrite E in Hs. unfold decode_back, DecodeLastRuneInString.
  rewrite Hstr, Hbp, bytes_of_snoc. assert (Ep : p = (bytes_of l1 ++ c) ++ bytes_of l2).
  { rewrite <- app_assoc. by apply (boundary_split p l1 r c l2). }
  assert (slice p 0 (zlen (bytes_of l1 ++ c)) = Done (bytes_of l1 ++ c)) as -> by (rewrite Ep at 1; apply slice_prefix).
  cbn [mbind outcome_bind]. rewrite (DecodeLastRune_prefix p l1 r c l2) by done. cbn [mbind outcome_bind]. do 3 f_equal.
  - rewrite zlen_app. lia.
  - rewrite Hrp, zlen_app, zlen_cons, zlen_nil. lia.
Qed.

Lemma at_set_pos s l0 w l1 : at_pos s l0 -> at_pos (set_pos s w (zlen (bytes_of l1)) (zlen l1)) l1.
Proof. intros [? ? _ _]. by constructor. Qed.

(** The scans reach the rune they look for. *)
Lemma scan_forward_loop i l3 : forall s l1 r c l2 fuel, at_pos s l1 -> l = l1 ++ l3 ++ (r, c) :: l2 -> zlen (l1 ++ l3) = i -> (length l3 < fuel)%nat ->
  loop fuel (fun s =>
    '(rune, s) ← decode_here s;
    if runePos s =? i then Done (inr (rune, s)) else
    Done (inl (set_pos s (width s) (bytePos s + width s) (runePos s + 1)))) s =
  Done (r, set_pos s (zlen c) (zlen (bytes_of (l1 ++ l3))) i).
Proof using Hb.
  induction l3 as [|[r3 c3] l3 IH]; intros s l1 r c l2 [|fuel] Hat E Hi Hf; cbn [length] in Hf; try lia; cbn [loop].
  - cbn [app] in E. rewrite (decode_here_spec s l1 r c l2 Hat E). cbn [mbind outcome_bind runePos set_pos]. rewrite app_nil_r in *.
    by rewrite (proj2 (Z.eqb_eq _ _) Hi), Hi.
  - rewrite (decode_here_spec s l1 r3 c3 (l3 ++ (r, c) :: l2) Hat) by done. cbn [mbind outcome_bind runePos set_pos width bytePos].
    assert (zlen (l1 ++ (r3, c3) :: l3) = zlen l1 + 1 + zlen l3) as Hz by (rewrite zlen_app, zlen_cons; lia). pose proof (zlen_nonneg l3).
    rewrite (proj2 (Z.eqb_neq _ _)) by lia. cbn [mbind outcome_bind]. rewrite (snoc_app l1) in *.
    rewrite (IH _ (l1 ++ [(r3, c3)]) r c l2); [done| |by rewrite <- app_assoc|done|lia].
    destruct Hat as [? ? ? ?]. constructor; cbn; [done|done| |].
    + by rewrite bytes_of_snoc, zlen_app.
    + rewrite zlen_app, zlen_cons, zlen_nil. lia.
Qed.

Lemma scan_backward_loop i l3 : forall s l1 r c l2 fuel, at_pos s (l1 ++ (r, c) :: l3) -> l = l1 ++ (r, c) :: l3 ++ l2 -> zlen l1 = i -> (length l3 < fuel)%nat ->
  loop fuel (fun s =>
    '(rune, s) ← decode_back s;
    if runePos s =? i then Done (inr (rune, s)) else Done (inl s)) s =
  Done (r, set_pos s (zlen c) (zlen (bytes_of l1)) i).
Proof using Hb.
  induction l3 as [|[r3 c3] l3 IH] using rev_ind; intros s l1 r c l2 [|fuel] Hat E Hi Hf; rewrite ?length_app in Hf; cbn [length] in Hf; try lia; cbn [loop].
  - rewrite (decode_back_spec s l1 r c l2 Hat E). cbn [mbind outcome_bind runePos set_pos]. by rewrite (proj2 (Z.eqb_eq _ _) Hi), Hi.
  - replace (l1 ++ (r, c) :: l3 ++ [(r3, c3)]) with ((l1 ++ (r, c) :: l3) ++ [(r3, c3)]) in Hat by (by rewrite <- app_assoc).
    rewrite (decode_back_spec s (l1 ++ (r, c) :: l3) r3 c3 l2 Hat) by (rewrite E, <- !app_assoc; done).
    cbn [mbind outcome_bind runePos set_pos]. pose proof (zlen_nonneg l3). pose proof (zlen_nonneg l1).
    rewrite (proj2 (Z.eqb_neq _ _)) by (rewrite zlen_app, zlen_cons; lia). cbn [mbind outcome_bind].
    rewrite (IH _ l1 r c ((r3, c3) :: l2)); [done|by eapply at_set_pos|by rewrite E, <- app_assoc|done|lia].
Qed.

Lemma scan_forward_spec s l1 l3 r c l2 : at_pos s l1 -> l = l1 ++ l3 ++ (r, c) :: l2 ->
  scan_forward (zlen (l1 ++ l3)) s = Done (r, set_pos s (zlen c) (zlen (bytes_of (l1 ++ l3))) (zlen (l1 ++ l3))).
Proof using Hb.
  intros Hat E. unfold scan_forward. apply (scan_forward_loop _ l3 s l1 r c l2); [done|done|done|].
  rewrite (at_num _ _ Hat), zlen_to_nat, E, !length_app. cbn. lia.
Qed.

Lemma scan_backward_spec s l1 l3 r c l2 : at_pos s (l1 ++ (r, c) :: l3) -> l = l1 ++ (r, c) :: l3 ++ l2 ->
  scan_backward (zlen l1) s = Done (r, set_pos s (zlen c) (zlen (bytes_of l1)) (zlen l1)).
Proof using Hb.
  intros Hat E. unfold scan_backward. apply (scan_backward_loop _ l3 s l1 r c l2); [done|done|done|].
  rewrite (at_num _ _ Hat), zlen_to_nat, E, length_app. cbn. rewrite length_app. lia.
Qed.

(** ** Reaching rune [i] *)

Section Reach.
Context (i k : nat) (r : Z) (c : list Z) (Hi : l !! i = Some (r, c)).

Lemma reach_split : l = take i l ++ (r, c) :: drop (S i) l.
Proof using Hi. symmetry. by apply take_drop_middle. Qed.

Lemma reach_before : (k <= i)%nat -> take i l = take k l ++ drop k (take i l).
Proof using. intros Hk. rewrite <- (take_drop k (take i l)) at 1. rewrite take_take. by rewrite Nat.min_l. Qed.

Lemma reach_after : (i < k)%nat -> take k l = take i l ++ (r, c) :: drop (S i) (take k l).
Proof using Hi.
  intros Hk. rewrite <- (take_drop_middle (take k l) i (r, c)) at 1 by (by rewrite lookup_take_lt). by rewrite take_take, Nat.min_l by lia.
Qed.

Lemma zlen_take_i : zlen (take i l) = Z.of_nat i.
Proof using Hi. apply lookup_lt_Some in Hi. rewrite zlen_take. unfold zlen. lia. Qed.

(** After reaching it: the cached position is that of rune [i]. *)
Definition reached (s s' : String) : Prop := s' = set_pos s (zlen c) (zlen (bytes_of (take i l))) (Z.of_nat i).

Lemma here_reaches s : at_pos s (take i l) -> exists s', decode_here s = Done (r, s') /\ reached s s'.
Proof using Hb Hi.
  intros Hat. eexists. split; [eapply decode_here_spec; [exact Hat|exact reach_split]|]. unfold reached. by rewrite zlen_take_i.
Qed.

Lemma back_reaches s : at_pos s (take (S i) l) -> exists s', decode_back s = Done (r, s') /\ reached s s'.
Proof using Hb Hi.
  intros Hat. rewrite (take_S_r l i (r, c)) in Hat by done. eexists. split; [eapply decode_back_spec; [exact Hat|exact reach_split]|].
  unfold reached. by rewrite zlen_take_i.
Qed.

Lemma forward_reaches s : (k <= i)%nat -> at_pos s (take k l) -> exists s', scan_forward (Z.of_nat i) s = Done (r, s') /\ reached s s'.
Proof using Hb Hi.
  intros Hk Hat. pose proof (reach_before Hk) as E.
  pose proof (scan_forward_spec s (take k l) (drop k (take i l)) r c (drop (S i) l) Hat) as H. rewrite <- E, zlen_take_i in H.
  eexists. split; [|reflexivity]. apply H. rewrite app_assoc, <- E. exact reach_split.
Qed.

Lemma backward_reaches s : (i < k)%nat -> at_pos s (take k l) -> exists s', scan_backward (Z.of_nat i) s = Done (r, s') /\ reached s s'.
Proof using Hb Hi.
  intros Hk Hat. pose proof (reach_after Hk) as E. rewrite E in Hat.
  pose proof (scan_backward_spec s (take i l) (drop (S i) (take k l)) r c (drop k l) Hat) as H. rewrite zlen_take_i in H.
  eexists. split; [|reflexivity]. apply H. rewrite <- (take_drop k l) at 1. rewrite E at 1. by rewrite <- app_assoc.
Qed.
End Reach.

(** ** The invariant *)

Definition first : Z := default (zlen p) (first_nonASCII 0 p).

Record Sinv (s : String) : Prop := {
  inv_str : str s = p;
  inv_num : numRunes s = zlen l;
  inv_ascii : nonASCII s = first;
  inv_pos : first < zlen p -> exists (k : nat) (rc : Z * list Z), l !! k = Some rc /\ at_pos s (take k l) /\ width s = zlen rc.2;
}.

Lemma first_spec_at q : forall j, match first_nonASCII j q with
  | Some m => j <= m < j + zlen q /\ Forall (fun b => b < RuneSelf) (take (Z.to_nat (m - j)) q)
  | None => Forall (fun b => b < RuneSelf) q
  end.
Proof.
  induction q as [|b q IH]; intros j; cbn [first_nonASCII]; [done|]. rewrite zlen_cons. pose proof (zlen_nonneg q). case_bool.
  - split; [lia|]. rewrite Z.sub_diag. done.
  - specialize (IH (j + 1)). destruct (first_nonASCII (j + 1) q) as [m|]; [|by constructor]. destruct IH as [Hm Ha]. split; [lia|].
    replace (Z.to_nat (m - j)) with (S (Z.to_nat (m - (j + 1)))) by lia. cbn [take]. by constructor.
Qed.

Lemma first_spec : 0 <= first <= zlen p /\ Forall (fun b => b < RuneSelf) (take (Z.to_nat first) p).
Proof.
  unfold first. pose proof (first_spec_at p 0) as H. pose proof (zlen_nonneg p). destruct (first_nonASCII 0 p) as [m|]; cbn [from_option id].
  - destruct H as [Hm Ha]. rewrite Z.sub_0_r in Ha. split; [lia|done].
  - split; [lia|]. rewrite zlen_to_nat, take_ge by done. done.
Qed.

(** The runes before [first]. *)
Lemma first_runes : exists l2, l = ((fun b => (b, [b])) <$> take (Z.to_nat first) p) ++ l2.
Proof using Hb. destruct first_spec as [Hf Ha]. eapply ascii_prefix; [done|exact runes_here|unfold zlen in Hf; lia|done]. Qed.

Lemma first_at i : 0 <= i < first -> exists b, p.[i] = Some b /\ l.[i] = Some (b, [b]).
Proof using Hb.
  intros Hi. destruct first_spec as [Hf _]. destruct first_runes as [l2 E]. destruct (zlookup_lt p i) as [b Hp]; [lia|]. exists b. split; [done|].
  rewrite E. rewrite zlookup_nonneg by lia. rewrite zlookup_nonneg in Hp by lia. rewrite lookup_app_l by (rewrite length_fmap, length_take; unfold zlen in Hf; lia).
  rewrite list_lookup_fmap, lookup_take_lt by lia. by rewrite Hp.
Qed.

Lemma first_len : first <= zlen l /\ (first = zlen p -> zlen l = zlen p).
Proof using Hb.
  destruct first_spec as [Hf _]. destruct first_runes as [l2 E]. pose proof (zlen_nonneg l2).
  assert (Hl : zlen l = first + zlen l2) by (rewrite E, zlen_app; unfold zlen at 1; rewrite length_fmap, length_take; unfold zlen in *; lia).
  split; [lia|]. intros Hall. enough (l2 = []) as -> by (rewrite Hl, zlen_nil; lia).
  pose proof runes_here as Hs. rewrite E in Hs. apply (boundary_end _ _ _ Hs). rewrite Hall, zlen_to_nat, take_ge by done.
  by rewrite bytes_of_ascii.
Qed.

Lemma first_pos s : str s = p -> numRunes s = zlen l -> at_pos (set_pos s (width s) first first) (take (Z.to_nat first) l).
Proof using Hb.
  intros Hstr Hnum. destruct first_spec as [Hf _]. destruct first_runes as [l2 E].
  assert (Et : take (Z.to_nat first) l = (fun b => (b, [b])) <$> take (Z.to_nat first) p).
  { rewrite E. apply take_app_length'. rewrite length_fmap, length_take. unfold zlen in Hf. lia. }
  constructor; cbn; [done|done| |].
  - rewrite Et, bytes_of_ascii, zlen_take. unfold zlen in *. lia.
  - rewrite Et. unfold zlen. rewrite length_fmap, length_take. unfold zlen in Hf. lia.
Qed.

Lemma end_pos s : str s = p -> numRunes s = zlen l -> at_pos (set_pos s (width s) (zlen p) (zlen l)) (take (length l) l).
Proof using Hb.
  intros Hstr Hnum. rewrite take_ge by done. constructor; cbn; [done|done| |done]. by rewrite <- (segs_bytes _ _ runes_here).
Qed.

Lemma at_take_rune s k : (k <= length l)%nat -> at_pos s (take k l) -> runePos s = Z.of_nat k.
Proof using. intros Hk [_ _ _ ->]. rewrite zlen_take. unfold zlen. lia. Qed.

(** Stepping over one rune with the remembered width. *)
Lemma next_pos s k rc : l !! k = Some rc -> at_pos s (take k l) -> width s = zlen rc.2 ->
  at_pos (set_pos s (width s) (bytePos s + width s) (Z.of_nat (S k))) (take (S k) l).
Proof using.
  intros Hk [Hstr Hnum Hby Hru] Hw. rewrite (take_S_r l k rc) by done. destruct rc as [r c]. cbn in Hw. constructor; cbn; [done|done| |].
  - rewrite bytes_of_snoc, zlen_app. lia.
  - rewrite zlen_app, zlen_cons, zlen_nil, zlen_take. apply lookup_lt_Some in Hk. unfold zlen. lia.
Qed.

Lemma start_pos s w : str s = p -> numRunes s = zlen l -> at_pos (set_pos s w 0 0) (take 0 l).
Proof using. intros Hstr Hnum. by constructor. Qed.

(** The cases of At beyond the ASCII prefix, from any valid position. *)
Lemma At_reaches s k rck (i : nat) r c : l !! i = Some (r, c) -> str s = p -> numRunes s = zlen l -> nonASCII s = first -> first <= Z.of_nat i ->
  l !! k = Some rck -> at_pos s (take k l) -> width s = zlen rck.2 -> exists s0 s', At s (Z.of_nat i) = Done (r, s') /\
    str s0 = p /\ numRunes s0 = zlen l /\ nonASCII s0 = first /\ reached i c s0 s'.
Proof using Hb.
  intros Hi Hstr Hnum Hasc Hf Hk Hat Hw. pose proof (lookup_lt_Some _ _ _ Hi) as Hil. pose proof (lookup_lt_Some _ _ _ Hk) as Hkl.
  pose proof (at_take_rune s k ltac:(lia) Hat) as Hr. unfold At. rewrite Hasc, Hnum, Hr. destruct first_spec as [Hf0 _].
  rewrite (proj2 (Z.ltb_ge (Z.of_nat i) first)) by lia. unfold zlen at 1. rewrite (proj2 (Z.ltb_ge (Z.of_nat i) 0)), (proj2 (Z.leb_gt (Z.of_nat (length l)) _)) by lia.
  cbn [orb]. repeat case_bool.
  - destruct (back_reaches i r c Hi s) as (s' & Hd & Hre); [replace (S i) with k by lia; done|]. by exists s, s'.
  - pose proof (next_pos s k rck Hk Hat Hw) as Hn. replace (S k) with i in Hn by lia.
    destruct (here_reaches i r c Hi _ Hn) as (s' & Hd & Hre). by eexists _, s'.
  - destruct (here_reaches i r c Hi s) as (s' & Hd & Hre); [replace i with k by lia; done|]. by exists s, s'.
  - assert (i = 0%nat) as -> by lia. destruct (here_reaches 0 r c Hi _ (start_pos s (width s) Hstr Hnum)) as (s' & Hd & Hre). by eexists _, s'.
  - pose proof (end_pos s Hstr Hnum) as He. replace (length l) with (S i) in He by (unfold zlen in *; lia). rewrite Hstr.
    destruct (back_reaches i r c Hi _ He) as (s' & Hd & Hre). by eexists _, s'.
  - destruct (forward_reaches i (Z.to_nat first) r c Hi _ ltac:(lia) (first_pos s Hstr Hnum)) as (s' & Hd & Hre). by eexists _, s'.
  - destruct (backward_reaches i k r c Hi s ltac:(lia) Hat) as (s' & Hd & Hre). by exists s, s'.
  - destruct (forward_reaches i k r c Hi s ltac:(lia) Hat) as (s' & Hd & Hre). by exists s, s'.
  - rewrite Hstr. destruct (backward_reaches i (length l) r c Hi _ Hil (end_pos s Hstr Hnum)) as (s' & Hd & Hre). by eexists _, s'.
Qed.

Lemma At_ok s i r c : Sinv s -> l.[i] = Some (r, c) ->
  exists s', At s i = Done (r, s') /\ Sinv s' /\ (first <= i -> bytePos s' = zlen (bytes_of (take (Z.to_nat i) l))).
Proof using Hb.
  intros Hinv Hi. pose proof (zlookup_Some_lt _ _ _ Hi) as Hil. destruct first_len as [Hfl Hfa]. destruct (decide (i < first)) as [Hlt|Hge].
  - destruct (first_at i ltac:(lia)) as (b & Hp & Hl). rewrite Hi in Hl. injection Hl as -> _. exists s. split; [|split; [done|lia]].
    unfold At. rewrite (inv_ascii _ Hinv), (inv_str _ Hinv). rewrite (proj2 (Z.ltb_lt _ _)) by done. by rewrite (idx_done _ _ _ Hp).
  - destruct first_spec as [Hf0 _]. destruct (inv_pos _ Hinv) as (k & rck & Hk & Hat & Hw); [destruct (decide (first = zlen p)); lia|].
    rewrite zlookup_nonneg in Hi by lia. destruct Hinv as [Hstr Hnum Hasc _].
    destruct (At_reaches s k rck (Z.to_nat i) r c Hi Hstr Hnum Hasc ltac:(lia) Hk Hat Hw) as (s0 & s' & HA & Hs0 & Hn0 & Ha0 & ->).
    rewrite Z2Nat.id in HA by lia. eexists. split; [exact HA|]. split; [|done]. constructor; cbn; [done|done|done|]. intros _.
    exists (Z.to_nat i), (r, c). split; [done|]. split; [|done]. constructor; cbn [str numRunes bytePos runePos set_pos]; [done|done|done|]. rewrite (zlen_take_i _ _ _ Hi). lia.
Qed.

Lemma At_panic s i : Sinv s -> ~ 0 <= i < zlen l -> At s i = Panic.
Proof using Hb.
  intros Hinv Hi. destruct first_len as [Hfl _]. unfold At. rewrite (inv_ascii _ Hinv), (inv_str _ Hinv), (inv_num _ Hinv). case_bool.
  - unfold idx. rewrite zlookup_oob; [done|]. destruct first_spec. lia.
  - by destruct (Z.ltb_spec i 0), (Z.leb_spec (zlen l) i); try lia.
Qed.

(** The byte position of rune [i], and slices between such positions. *)
Definition pos_of (i : Z) : Z := zlen (bytes_of (take (Z.to_nat i) l)).

Lemma pos_of_small i : 0 <= i <= first -> pos_of i = i.
Proof using Hb.
  intros Hi. destruct first_spec as [Hf _]. destruct first_runes as [l2 E]. unfold pos_of.
  assert (take (Z.to_nat i) l = (fun b => (b, [b])) <$> take (Z.to_nat i) p) as ->.
  { rewrite E. rewrite take_app_le by (rewrite length_fmap, length_take; unfold zlen in Hf; lia). rewrite <- fmap_take, take_take. do 2 f_equal. lia. }
  rewrite bytes_of_ascii, zlen_take. unfold zlen in *. lia.
Qed.

Lemma pos_of_end : pos_of (zlen l) = zlen p.
Proof using Hb. unfold pos_of. rewrite zlen_to_nat, take_ge by done. by rewrite <- (segs_bytes _ _ runes_here). Qed.

Lemma slice_pos i j : 0 <= i <= j -> j <= zlen l ->
  slice p (pos_of i) (pos_of j) = Done (bytes_of (take (Z.to_nat (j - i)) (drop (Z.to_nat i) l))).
Proof using Hb.
  intros Hij Hj. set (a := take (Z.to_nat i) l). set (m := take (Z.to_nat (j - i)) (drop (Z.to_nat i) l)). set (z := drop (Z.to_nat j) l).
  assert (Ej : take (Z.to_nat j) l = a ++ m).
  { unfold a, m. rewrite take_take_drop. f_equal. lia. }
  assert (El : l = a ++ m ++ z) by (unfold z; by rewrite app_assoc, <- Ej, take_drop).
  assert (Ep : p = bytes_of a ++ bytes_of m ++ bytes_of z) by (rewrite (segs_bytes _ _ runes_here), El, !bytes_of_app; done).
  unfold pos_of. rewrite Ej, bytes_of_app, zlen_app. fold a. rewrite Ep at 1.
  pose proof (zlen_nonneg (bytes_of a)). pose proof (zlen_nonneg (bytes_of m)). pose proof (zlen_nonneg (bytes_of z)).
  rewrite slice_done by (rewrite ?zlen_app; lia). f_equal. rewrite zlen_to_nat, drop_app_length.
  replace (zlen (bytes_of a) + zlen (bytes_of m) - zlen (bytes_of a)) with (zlen (bytes_of m)) by lia. rewrite zlen_to_nat. apply take_app_length.
Qed.

(** The two positions of Slice. *)
Lemma Slice_low s i : Sinv s -> 0 <= i <= zlen l ->
  exists s', (if i <? nonASCII s then Done (i, s) else if i =? numRunes s then Done (zlen (str s), s)
              else '(_, s) ← At s i; Done (bytePos s, s)) = Done (pos_of i, s') /\ Sinv s'.
Proof using Hb.
  intros Hinv Hi. rewrite (inv_ascii _ Hinv), (inv_num _ Hinv), (inv_str _ Hinv). case_bool; [rewrite pos_of_small by lia; by exists s|].
  case_bool; [rewrite E0, pos_of_end; by exists s|]. destruct (zlookup_lt l i) as [[r c] Hl]; [lia|].
  destruct (At_ok s i r c Hinv Hl) as (s' & -> & Hinv' & Hpos). cbn [mbind outcome_bind]. rewrite Hpos by lia. by exists s'.
Qed.

Lemma Slice_high s j : Sinv s -> first <= j <= zlen l ->
  exists s', (if j =? numRunes s then Done (zlen (str s), s) else '(_, s) ← At s j; Done (bytePos s, s)) = Done (pos_of j, s') /\ Sinv s'.
Proof using Hb.
  intros Hinv Hj. destruct first_spec as [Hf _]. destruct (Slice_low s j Hinv ltac:(lia)) as (s' & Hs & Hinv'). exists s'. split; [|done].
  rewrite <- Hs, (inv_ascii _ Hinv). by rewrite (proj2 (Z.ltb_ge _ _)) by lia.
Qed.

Lemma Slice_ok s i j : Sinv s -> 0 <= i <= j -> j <= zlen l ->
  exists s', String_Slice s i j = Done (bytes_of (take (Z.to_nat (j - i)) (drop (Z.to_nat i) l)), s') /\ Sinv s'.
Proof using Hb.
  intros Hinv Hij Hj. destruct first_spec as [Hf _]. unfold String_Slice. rewrite (inv_ascii _ Hinv). case_bool.
  - rewrite (inv_str _ Hinv). pose proof (slice_pos i j Hij Hj) as Hs. rewrite !pos_of_small in Hs by lia. rewrite Hs. by exists s.
  - rewrite (inv_num _ Hinv). rewrite (proj2 (Z.ltb_ge i 0)), (proj2 (Z.ltb_ge (zlen l) j)), (proj2 (Z.ltb_ge j i)) by lia. cbn [orb].
    case_bool; [subst; rewrite Z.sub_diag; by exists s|].
    destruct (Slice_low s i Hinv ltac:(lia)) as (s1 & Hs1 & Hinv1). rewrite (inv_ascii _ Hinv), (inv_num _ Hinv) in Hs1. rewrite Hs1. cbn [mbind outcome_bind].
    destruct (Slice_high s1 j Hinv1 ltac:(lia)) as (s2 & -> & Hinv2). cbn [mbind outcome_bind].
    rewrite (inv_str _ Hinv2), slice_pos by lia. cbn [mbind outcome_bind]. by exists s2.
Qed.

Lemma Slice_panic s i j : Sinv s -> ~ (0 <= i <= j /\ j <= zlen l) -> String_Slice s i j = Panic.
Proof using Hb.
  intros Hinv Hij. destruct first_len as [Hfl _]. unfold String_Slice. rewrite (inv_ascii _ Hinv). case_bool.
  - unfold slice. destruct (Z.leb_spec 0 i), (Z.leb_spec i j), (Z.leb_spec j (zlen (str s))); try done; lia.
  - rewrite (inv_num _ Hinv). by destruct (Z.ltb_spec i 0), (Z.ltb_spec (zlen l) j), (Z.ltb_spec j i); try lia.
Qed.

Lemma Init_ok : in_range p = true -> exists s, NewString p = Done s /\ Sinv s.
Proof using Hb.
  intros Hr. unfold NewString, String_Init. pose proof (first_spec_at p 0) as Hfs. destruct first_len as [_ Hfa]. unfold first in Hfa.
  destruct (first_nonASCII 0 p) as [m|] eqn:Ef.
  - rewrite RuneCountInString_spec by done. cbn [mbind outcome_bind]. eexists. split; [done|]. destruct Hfs as [Hm _].
    constructor; cbn; [done|done|by unfold first; rewrite Ef|]. intros _. destruct l as [|[r c] l'] eqn:El.
    { pose proof runes_here as Hs. rewrite El in Hs. assert (zlen p = 0) by (by rewrite (segs_bytes _ _ Hs)). lia. }
    exists 0%nat, (r, c). split; [done|]. split; [by constructor|].
    pose proof runes_here as Hs. rewrite El in Hs. destruct (boundary_decode p [] r c l' Hs) as [_ Hd].
    change (DecodeRuneInString p) with (DecodeRune p). pose proof (boundary_split p [] r c l' Hs) as Ep. cbn [app] in Ep.
    change (bytes_of [] ++ c ++ bytes_of l') with (c ++ bytes_of l') in Ep. rewrite <- Ep in Hd. by rewrite Hd.
  - eexists. split; [done|]. cbn in Hfa. constructor; cbn; [done|by rewrite Hfa|by unfold first; rewrite Ef|]. unfold first. rewrite Ef. cbn. lia.
Qed.
End String.

(** ** Sequences of accesses *)

Inductive sop := OpAt (i : Z) | OpSlice (i j : Z).
Inductive sres := RRune (r : Z) | RBytes (b : list Z).

Definition exec_sop (o : sop) (s : String) : outcome (sres * String) :=
  match o with
  | OpAt i => '(r, s) ← At s i; Done (RRune r, s)
  | OpSlice i j => '(b, s) ← String_Slice s i j; Done (RBytes b, s)
  end.

Fixpoint exec_sops (os : list sop) (s : String) : outcome (list sres * String) :=
  match os with
  | [] => Done ([], s)
  | o :: os => '(r, s) ← exec_sop o s; '(rs, s) ← exec_sops os s; Done (r :: rs, s)
  end.

(** The same accesses to the list of runes; [None] is an index out of range. *)
Definition spec_sop (l : list (Z * list Z)) (o : sop) : option sres :=
  match o with
  | OpAt i => (fun rc => RRune rc.1) <$> l.[i]
  | OpSlice i j =>
      if (0 <=? i) && (i <=? j) && (j <=? zlen l) then Some (RBytes (bytes_of (take (Z.to_nat (j - i)) (drop (Z.to_nat i) l)))) else None
  end.

Lemma exec_sop_spec p s o : Forall is_byte p -> Sinv p s ->
  match spec_sop (runes p) o with
  | Some r => exists s', exec_sop o s = Done (r, s') /\ Sinv p s'
  | None => exec_sop o s = Panic
  end.
Proof.
  intros Hb Hinv. destruct o as [i|i j]; cbn [spec_sop exec_sop].
  - destruct ((runes p).[i]) as [[r c]|] eqn:Hi; cbn [fmap option_fmap option_map fst].
    + destruct (At_ok p Hb s i r c Hinv Hi) as (s' & -> & Hinv' & _). by exists s'.
    + rewrite (At_panic p Hb s i Hinv); [done|]. intros Hr. destruct (zlookup_lt _ _ Hr) as [x Hx]. congruence.
  - destruct ((0 <=? i) && (i <=? j) && (j <=? zlen (runes p))) eqn:E.
    + bool_to_prop. destruct (Slice_ok p Hb s i j Hinv) as (s' & -> & Hinv'); [lia|lia|]. by exists s'.
    + rewrite (Slice_panic p Hb s i j Hinv); [done|]. intros [? ?]. rewrite !(proj2 (Z.leb_le _ _)) in E by lia. done.
Qed.

Lemma exec_sops_spec p : Forall is_byte p -> forall os rs s, Sinv p s -> mapM (spec_sop (runes p)) os = Some rs ->
  exists s', exec_sops os s = Done (rs, s') /\ Sinv p s'.
Proof.
  intros Hb. induction os as [|o os IH]; intros rs s Hinv Hrs; cbn [mapM exec_sops] in *; [injection Hrs as <-; by exists s|].
  pose proof (exec_sop_spec p s o Hb Hinv) as Ho. destruct (spec_sop (runes p) o) as [r|]; [|done]. destruct Ho as (s1 & -> & Hinv1).
  cbn [mbind option_bind outcome_bind] in *. destruct (mapM (spec_sop (runes p)) os) as [rs'|] eqn:E; [|done]. injection Hrs as <-.
  destruct (IH rs' s1 Hinv1 eq_refl) as (s2 & -> & Hinv2). by exists s2.
Qed.

(** C10. utf8.String is a cache that never shows: for any string without runes
    above unicode.MaxRune (valid UTF-8 or not), every sequence of calls of At and
    Slice with indices in range, in any order, returns what indexing and slicing
    the list of the string's runes returns; the rune count is the list's length,
    and a further call with an index out of range panics. *)
Theorem String_refines p os rs : Forall is_byte p -> in_range p = true -> mapM (spec_sop (runes p)) os = Some rs ->
  exists s0 s1, NewString p = Done s0 /\ String_RuneCount s0 = zlen (runes p) /\ exec_sops os s0 = Done (rs, s1) /\
    forall o, spec_sop (runes p) o = None -> exec_sop o s1 = Panic.
Proof.
  intros Hb Hr Hrs. destruct (Init_ok p Hb Hr) as (s0 & H0 & Hinv0). destruct (exec_sops_spec p Hb os rs s0 Hinv0 Hrs) as (s1 & H1 & Hinv1).
  exists s0, s1. split; [done|]. split; [apply Hinv0|]. split; [done|]. intros o Ho. pose proof (exec_sop_spec p s1 o Hb Hinv1) as H. by rewrite Ho in H.
Qed.

(** a, e-acute, an error byte, the euro sign, z: back and forth. *)
Lemma String_refines_witness : exists s0 s1, NewString [0x61; 0xC3; 0xA9; 0x80; 0xE2; 0x82; 0xAC; 0x7A] = Done s0 /\
  exec_sops [OpAt 4; OpAt 1; OpAt 3; OpSlice 1 4; OpAt 2] s0 =
    Done ([RRune 0x7A; RRune 0xE9; RRune 0x20AC; RBytes [0xC3; 0xA9; 0x80; 0xE2; 0x82; 0xAC]; RRune RuneError], s1).
Proof.
  destruct (String_refines [0x61; 0xC3; 0xA9; 0x80; 0xE2; 0x82; 0xAC; 0x7A] [OpAt 4; OpAt 1; OpAt 3; OpSlice 1 4; OpAt 2]
    [RRune 0x7A; RRune 0xE9; RRune 0x20AC; RBytes [0xC3; 0xA9; 0x80; 0xE2; 0x82; 0xAC]; RRune RuneError]) as (s0 & s1 & H0 & _ & H1 & _);
    [bytes_concrete|by vm_compute|by vm_compute|]. by exists s0, s1.
Defined.

(** With a rune above MaxRune the count and the runes disagree. *)
Lemma String_out_of_range : exists s, NewString [0xF4; 0x90; 0x80; 0x80] = Done s /\ String_RuneCount s = 4 /\
  exists s1 s2, At s 0 = Done (0x110000, s1) /\ At s1 1 = Done (RuneError, s2) /\ IsASCII s2 = true.
Proof. eexists. split; [by vm_compute|]. split; [done|]. eexists _, _. split; [by vm_compute|]. split; by vm_compute. Qed.
