(* ===== verification/Io.v ===== *)
(** Package io (src/go/src/pkg/io/io.go): the interfaces Reader and Writer, and
    what the package builds on them.

    A value of an interface type is a state together with the class instance that
    gives its methods.  Read gets the slice it may write to, and returns that
    slice as it leaves it (it may use all of it as scratch space), the number of
    bytes read and the error.  The laws of the classes are the contracts that the
    comments in io.go give, and for readers three assumptions more: what a reader
    still delivers before it returns the error [ending] is a finite [stream]; it is
    the same error each time; and the number of calls that return no error is
    bounded by [calls], without which the loops over a reader need not end.
    [EmptyReads] is a further assumption on calls with an empty slice.  [written]
    is what a writer has accepted. *)

From S2P Require Import Prelude.

(** The errors of the package, [os.EOF], and any other error. *)
Inductive error := EOF | ErrShortWrite | ErrShortBuffer | ErrUnexpectedEOF | NewError (msg : list Z).

#[export] Instance error_eq_dec : EqDecision error.
Proof. solve_decision. Defined.

(** * Interfaces *)

Class Reader (R : Type) := Read : R -> list Z -> outcome (list Z * Z * option error * R).
Class Writer (W : Type) := Write : W -> list Z -> outcome (Z * option error * W).

(** What a call of Read on [r] with the slice [p] may return.  A call that
    returns no error brings the end nearer. *)
Definition read_ok {R} (stream : R -> list Z) (ending : R -> error) (calls : R -> nat) (r : R) (p p' : list Z) (n : Z)
    (e : option error) (r' : R) : Prop :=
  zlen p' = zlen p /\ 0 <= n <= zlen p /\ stream r = take (Z.to_nat n) p' ++ stream r' /\ ending r' = ending r /\
  match e with
  | None => (calls r' < calls r)%nat
  | Some x => x = ending r /\ stream r' = [] /\ (calls r' <= calls r)%nat
  end.

Class ReaderLaws (R : Type) `{Reader R} := {
  reader_inv : R -> Prop;
  stream : R -> list Z;
  ending : R -> error;
  (** A bound on the calls that return no error. *)
  calls : R -> nat;
  Read_spec r p : reader_inv r -> 0 < zlen p < 2 ^ 31 ->
    returns (Read r p) (fun '(p', n, e, r') => reader_inv r' /\ read_ok stream ending calls r p p' n e r') }.

(** Readers that return no error before their end also when they are asked for
    nothing. *)
Class EmptyReads (R : Type) `{ReaderLaws R} :=
  Read_empty r : reader_inv r ->
    returns (Read r []) (fun '(p', n, e, r') => reader_inv r' /\ p' = [] /\ n = 0 /\ stream r' = stream r /\ ending r' = ending r /\
      (calls r' <= calls r)%nat /\ forall x, e = Some x -> x = ending r /\ stream r = []).

Class WriterLaws (W : Type) `{Writer W} := {
  (** The writer is able to take these bytes without running out of memory. *)
  writer_room : W -> list Z -> Prop;
  written : W -> list Z;
  (** The writer returns no errors. *)
  reliable : W -> Prop;
  Write_spec w p q : writer_room w (p ++ q) -> zlen p < 2 ^ 31 ->
    returns (Write w p) (fun '(n, e, w') => 0 <= n <= zlen p /\ written w' = written w ++ take (Z.to_nat n) p /\
      (n < zlen p -> e <> None) /\ writer_room w' q /\ (reliable w -> e = None /\ reliable w')) }.

(** * Functions *)

(** [dst[n:]] replaced by [src], as a callee that got the slice leaves it. *)
Definition put_slice (dst : list Z) (n : Z) (src : list Z) : list Z := take (Z.to_nat n) dst ++ src.

Section ReadAtLeast.
Context {R : Type} `{Reader R}.

(** [nn, err = r.Read(buf[n:]); n += nn]. *)
Definition read_next (buf : list Z) (n : Z) (r : R) : outcome (list Z * Z * option error * R) :=
  p ← slice buf n (zlen buf);
  '(p, nn, err, r) ← Read r p;
  Done (put_slice buf n p, n + nn, err, r).

(** ReadAtLeast; [fuel] bounds the calls of Read. *)
Definition ReadAtLeast (fuel : nat) (r : R) (buf : list Z) (min : Z) : outcome (list Z * Z * option error * R) :=
  if zlen buf <? min then Done (buf, 0, Some ErrShortBuffer, r) else
  '(buf, n, err, r) ← loop fuel (fun '(buf, n, err, r) =>
    if (n <? min) && bool_decide (err = None) then
      st ← read_next buf n r;
      Done (inl st)
    else Done (inr (buf, n, err, r))) (buf, 0, None, r);
  let err := if decide (err = Some EOF) then
               if min <=? n then None else if 0 <? n then Some ErrUnexpectedEOF else err
             else err in
  Done (buf, n, err, r).

Definition ReadFull (fuel : nat) (r : R) (buf : list Z) : outcome (list Z * Z * option error * R) :=
  ReadAtLeast fuel r buf (zlen buf).

(** ** LimitedReader *)

Record LimitedReader := MkLimitedReader { limited : R; N : Z }.

Definition LimitReader (r : R) (n : Z) : LimitedReader := MkLimitedReader r n.

Definition LimitedReader_Read (l : LimitedReader) (p : list Z) : outcome (list Z * Z * option error * LimitedReader) :=
  if N l <=? 0 then Done (p, 0, Some EOF, l) else
  q ← (if N l <? zlen p then slice p 0 (N l) else Done p);
  '(q', n, err, r) ← Read (limited l) q;
  Done (q' ++ drop (length q) p, n, err, MkLimitedReader r (int64 (N l - n))).

#[export] Instance LimitedReader_Reader : Reader LimitedReader := LimitedReader_Read.
End ReadAtLeast.
Arguments LimitedReader R : clear implicits.

Section Copy.
Context {R W : Type} `{Reader R} `{Writer W}.

(** The methods that a type may have in addition: ReadFrom of the destination,
    WriteTo of the source. *)
Definition ReadFrom_method (S : Type) : Type := W -> S -> outcome (Z * option error * W * S).
Definition WriteTo_method : Type := R -> W -> outcome (Z * option error * W * R).

(** The part of the loops that writes the [nr] bytes read; [inr] breaks with
    the error of the writer. *)
Definition write_chunk (dst : W) (buf : list Z) (nr written : Z) : outcome (W * Z * option error) :=
  if 0 <? nr then
    chunk ← slice buf 0 nr;
    '(nw, ew, dst) ← Write dst chunk;
    let written := if 0 <? nw then int64 (written + nw) else written in
    match ew with
    | Some e => Done (dst, written, Some e)
    | None => if negb (nr =? nw) then Done (dst, written, Some ErrShortWrite) else Done (dst, written, None)
    end
  else Done (dst, written, None).

(** One iteration: read into [buf[0:l]] and write what came. *)
Definition copy_chunk (dst : W) (src : R) (buf : list Z) (l written : Z)
    : outcome (list Z * Z * W * R * option error * option error) :=
  p ← slice buf 0 l;
  '(p, nr, er, src) ← Read src p;
  let buf := p ++ drop (Z.to_nat l) buf in
  '(dst, written, ew) ← write_chunk dst buf nr written;
  Done (buf, written, dst, src, er, ew).

Definition Copyn_loop (fuel : nat) (dst : W) (src : R) (n : Z) : outcome (Z * option error * W * R) :=
  loop fuel (fun '(buf, written, dst, src) =>
    if written <? n then
      let d := int64 (n - written) in
      let l := if d <? zlen buf then d else zlen buf in
      '(buf, written, dst, src, er, ew) ← copy_chunk dst src buf l written;
      match ew, er with
      | Some e, _ | None, Some e => Done (inr (written, Some e, dst, src))
      | None, None => Done (inl (buf, written, dst, src))
      end
    else Done (inr (written, None, dst, src))) (replicate (32 * 1024) 0, 0, dst, src).

Definition Copyn (fuel : nat) (rt : option (ReadFrom_method (LimitedReader R))) (dst : W) (src : R) (n : Z)
    : outcome (Z * option error * W * R) :=
  match rt with
  | Some ReadFrom =>
      '(written, err, dst, l) ← ReadFrom dst (LimitReader src n);
      let err := if (written <? n) && bool_decide (err = None) then Some EOF else err in
      Done (written, err, dst, limited l)
  | None => Copyn_loop fuel dst src n
  end.

Definition Copy_loop (fuel : nat) (dst : W) (src : R) : outcome (Z * option error * W * R) :=
  loop fuel (fun '(buf, written, dst, src) =>
    '(buf, written, dst, src, er, ew) ← copy_chunk dst src buf (zlen buf) written;
    match ew, er with
    | Some e, _ => Done (inr (written, Some e, dst, src))
    | None, Some EOF => Done (inr (written, None, dst, src))
    | None, Some e => Done (inr (written, Some e, dst, src))
    | None, None => Done (inl (buf, written, dst, src))
    end) (replicate (32 * 1024) 0, 0, dst, src).

Definition Copy (fuel : nat) (rt : option (ReadFrom_method R)) (wt : option WriteTo_method) (dst : W) (src : R)
    : outcome (Z * option error * W * R) :=
  match rt, wt with
  | Some ReadFrom, _ => ReadFrom dst src
  | None, Some WriteTo => WriteTo src dst
  | None, None => Copy_loop fuel dst src
  end.
End Copy.

(** * Reading *)

Section ReadProofs.
Context {R : Type} `{HR : Reader R} {HL : ReaderLaws R}.
Implicit Types (r : R) (p buf : list Z).

Lemma put_slice_len buf n p : 0 <= n <= zlen buf -> zlen p = zlen buf - n -> zlen (put_slice buf n p) = zlen buf.
Proof. intros Hn Hp. unfold put_slice. rewrite zlen_app, zlen_take. lia. Qed.

(** Bytes read behind those that are there. *)
Lemma take_put_slice buf n p k : 0 <= n <= zlen buf -> 0 <= k <= zlen p ->
  take (Z.to_nat (n + k)) (put_slice buf n p) = take (Z.to_nat n) buf ++ take (Z.to_nat k) p.
Proof.
  intros Hn Hk. unfold put_slice, zlen in *. rewrite take_app. f_equal.
  - rewrite take_take. f_equal. lia.
  - f_equal. rewrite length_take. lia.
Qed.

(** What ReadAtLeast has done: [buf] holds [n] bytes of [r0], and [r] is left. *)
Definition reading (r0 : R) (len : Z) : list Z * Z * option error * R -> Prop := fun '(buf, n, err, r) =>
  reader_inv r /\ zlen buf = len /\ 0 <= n <= len /\ stream r0 = take (Z.to_nat n) buf ++ stream r /\
  ending r = ending r0 /\ (calls r <= calls r0)%nat /\
  match err with None => True | Some x => x = ending r0 /\ stream r = [] end.

Lemma read_more r0 len buf n r : reading r0 len (buf, n, None, r) -> n < len < 2 ^ 31 ->
  returns (read_next buf n r)
    (fun '(buf', n', err, r') => reading r0 len (buf', n', err, r') /\
       (err = None -> (calls r' < calls r)%nat)).
Proof.
  intros (Hi & Hb & Hn & Hs & He & Hc & _) Hlen. unfold read_next. rewrite slice_done by lia. cbn [mbind outcome_bind].
  set (p := take _ (drop _ buf)).
  assert (Hp : zlen p = len - n) by (unfold p; rewrite zlen_take, zlen_drop; lia).
  go_call Read_spec; [done|lia|]. intros [[[p' nn] err] r'] (Hi' & Hp' & Hnn & Hs' & He' & Hx). go_ret.
  split; [|by intros ->]. unfold reading. split_and!; try done; try lia.
  - rewrite put_slice_len by lia. done.
  - rewrite take_put_slice by lia. rewrite Hs, Hs', app_assoc. done.
  - congruence.
  - destruct err; lia.
  - destruct err; [|done]. destruct Hx as (-> & ? & _). split; [congruence|done].
Qed.

(** The error of ReadAtLeast when fewer than [min] bytes came. *)
Definition short_error (e : error) (n : Z) : error :=
  if decide (e = EOF) then if 0 <? n then ErrUnexpectedEOF else EOF else e.

Lemma ReadAtLeast_spec fuel r buf min : reader_inv r -> zlen buf < 2 ^ 31 -> min <= zlen buf -> (S (calls r) < fuel)%nat ->
  returns (ReadAtLeast fuel r buf min) (fun '(buf', n, e, r') =>
    reader_inv r' /\ zlen buf' = zlen buf /\ 0 <= n <= zlen buf /\ stream r = take (Z.to_nat n) buf' ++ stream r' /\
    ending r' = ending r /\ (calls r' <= calls r)%nat /\
    if min <=? n then e = None \/ e = Some (ending r) /\ ending r <> EOF /\ stream r' = []
    else e = Some (short_error (ending r) n) /\ stream r' = []).
Proof.
  intros Hi Hlen Hmin Hf. unfold ReadAtLeast. case_bool; [lia|]. eapply returns_bind.
  - apply (loop_returns (reading r (zlen buf)) (fun '(_, _, err, r) => match err with None => S (calls r) | Some _ => O end)
      (fun st => reading r (zlen buf) st /\ (st.1.2 = None -> min <= st.1.1.2))).
    + intros [[[b n] err] r'] Hst. case_bool.
      * apply bool_decide_eq_true in H0 as ->. go_call read_more; [done|lia|]. intros [[[b' n'] err'] r''] [Hst' Hc]. go_ret.
        split; [done|]. destruct err'; [lia|]. specialize (Hc eq_refl). lia.
      * go_ret. split; [done|]. cbn. intros ->. destruct E0 as [|E0]; [lia|]. by apply bool_decide_eq_false in E0.
    + unfold reading. pose proof (zlen_nonneg buf). split_and!; try done; lia.
    + done.
  - intros [[[b n] err] r'] [(Hi' & Hb & Hn & Hs & He & Hc & Hx) Hdone]. cbn in Hdone. go_ret. split_and!; try done; try lia.
    destruct err as [x|]; [destruct Hx as [-> Hnil]|].
    + unfold short_error. repeat case_decide; repeat case_bool; try done; try congruence; auto.
    + rewrite decide_False by done. case_bool; [by left|]. specialize (Hdone eq_refl). lia.
Qed.
(** ** A limited reader is a reader of the beginning of the stream

    When the limit is the length of the stream, the reader below has to end with
    EOF: it may return its error together with the last bytes, or after them. *)
Definition limited_inv (l : LimitedReader R) : Prop :=
  reader_inv (limited l) /\ - 2 ^ 63 <= N l < 2 ^ 63 /\ (N l = zlen (stream (limited l)) -> ending (limited l) = EOF).
Definition limited_stream (l : LimitedReader R) : list Z := take (Z.to_nat (N l)) (stream (limited l)).
Definition limited_ending (l : LimitedReader R) : error :=
  if N l <=? zlen (stream (limited l)) then EOF else ending (limited l).

Lemma LimitedReader_Read_spec l p : limited_inv l -> 0 < zlen p < 2 ^ 31 ->
  returns (LimitedReader_Read l p) (fun '(p', n, e, l') => limited_inv l' /\
    read_ok limited_stream limited_ending (fun l => calls (limited l)) l p p' n e l').
Proof.
  intros (Hi & HN & Heof) Hp. unfold LimitedReader_Read, limited_inv, read_ok, limited_stream, limited_ending.
  pose proof (zlen_nonneg p). pose proof (zlen_nonneg (stream (limited l))). case_bool.
  { go_ret. repeat case_bool; [|lia]. split; [done|]. replace (Z.to_nat (N l)) with O by lia. split_and!; done || lia. }
  set (k := Z.min (N l) (zlen p)).
  assert (Hq : (if N l <? zlen p then slice p 0 (N l) else Done p) = Done (take (Z.to_nat k) p)).
  { case_bool; [rewrite slice_done by lia; do 2 f_equal; lia|]. by rewrite take_ge by (unfold zlen in *; lia). }
  rewrite Hq. cbn [mbind outcome_bind]. set (q := take _ p). assert (Hql : zlen q = k) by (unfold q; rewrite zlen_take; lia).
  go_call Read_spec; [done|lia|]. intros [[[q' n] e] r'] (Hi' & Hq' & Hn & Hs & He & Hx). go_ret. cbn [limited N].
  rewrite int64_small by lia. pose proof (f_equal zlen Hs) as Hsl. rewrite zlen_app, zlen_take in Hsl.
  split_and!; try done; try lia.
  - intros Hz. rewrite He. apply Heof. lia.
  - rewrite zlen_app, zlen_drop. unfold zlen in *. lia.
  - rewrite Hs at 1. rewrite take_app, !take_take, (take_app_le q') by (unfold zlen in *; lia). f_equal.
    + f_equal. lia.
    + f_equal. rewrite length_take. unfold zlen in *. lia.
  - rewrite He. repeat case_bool; try done; lia.
  - destruct e as [x|].
    + destruct Hx as (-> & Hnil & Hc). rewrite Hnil in *. change (zlen (@nil Z)) with 0 in *. rewrite take_nil.
      split_and!; try done. case_bool; [apply Heof; lia|done].
    + done.
Qed.

#[export] Instance LimitedReader_laws : ReaderLaws (LimitedReader R) := {
  reader_inv := limited_inv; stream := limited_stream; ending := limited_ending;
  calls := fun l => calls (limited l); Read_spec := LimitedReader_Read_spec }.

#[export] Instance LimitedReader_EmptyReads `{!EmptyReads R} : EmptyReads (LimitedReader R).
Proof.
  intros l Hl. pose proof Hl as (Hi & HN & Heof). pose proof (zlen_nonneg (stream (limited l))).
  unfold Read, LimitedReader_Reader, LimitedReader_Read. unfold stream, ending, calls, reader_inv. cbn [LimitedReader_laws].
  unfold limited_stream, limited_ending. case_bool.
  { go_ret. split_and!; try done. intros x [= <-]. replace (Z.to_nat (N l)) with O by lia. by case_bool; [|lia]. }
  change (zlen (@nil Z)) with 0. case_bool; [lia|]. cbn [mbind outcome_bind]. go_call Read_empty; [done|].
  intros [[[p' n] e] r'] (Hi' & -> & -> & Hs & He & Hc & Hx). go_ret. cbn [limited N]. rewrite Z.sub_0_r, int64_small, Hs, He by lia.
  split_and!; try done.
  - unfold limited_inv. cbn [limited N]. by rewrite Hs, He.
  - intros x Hx'. destruct (Hx x Hx') as [-> ->]. change (zlen (@nil Z)) with 0. case_bool; [lia|]. by rewrite take_nil.
Qed.
End ReadProofs.

(** * Copying *)

Section CopyProofs.
Context {R W : Type} `{HR : Reader R} {HL : ReaderLaws R} `{HW : Writer W} {HLW : WriterLaws W}.
Implicit Types (src : R) (dst : W).

Lemma write_chunk_spec dst buf nr w0 q : writer_room dst (take (Z.to_nat nr) buf ++ q) -> 0 <= nr <= zlen buf -> zlen buf < 2 ^ 31 ->
  0 <= w0 -> w0 + nr < 2 ^ 63 ->
  returns (write_chunk dst buf nr w0) (fun '(dst', w, ew) => exists k, 0 <= k <= nr /\
    written dst' = written dst ++ take (Z.to_nat k) buf /\ w = w0 + k /\ (ew = None -> k = nr) /\
    writer_room dst' q /\ (reliable dst -> ew = None /\ reliable dst')).
Proof.
  intros Hroom Hnr Hb Hw0 Hw. unfold write_chunk. case_bool.
  - rewrite slice_done by lia. cbn [mbind outcome_bind]. rewrite Z.sub_0_r, drop_0.
    assert (Hl : zlen (take (Z.to_nat nr) buf) = nr) by (rewrite zlen_take; lia).
    go_call (Write_spec dst (take (Z.to_nat nr) buf) q); [done|lia|]. intros [[n e] dst'] (Hn & Hwr & Hshort & Hroom' & Hrel).
    rewrite Hl in *. replace (if 0 <? n then int64 (w0 + n) else w0) with (w0 + n) by (case_bool; [rewrite int64_small|]; lia).
    rewrite take_take in Hwr. replace (Nat.min (Z.to_nat n) (Z.to_nat nr)) with (Z.to_nat n) in Hwr by lia.
    destruct e as [x|]; [|destruct (Z.eqb_spec nr n); cbn [negb]]; go_ret; exists n; split_and!; try done; try lia; auto.
    intros ?. exfalso. apply Hshort; [lia|done].
  - go_ret. exists 0. assert (nr = 0) as -> by lia. rewrite Z.add_0_r, app_nil_r. split_and!; try done; lia.
Qed.

(** [w] bytes of the stream of [src0] have been copied, and the rest is still in
    [src]. *)
Definition copying (dst0 : W) (src0 : R) (w : Z) (dst : W) (src : R) : Prop :=
  reader_inv src /\ 0 <= w <= zlen (stream src0) /\ stream src = drop (Z.to_nat w) (stream src0) /\
  written dst = written dst0 ++ take (Z.to_nat w) (stream src0) /\ ending src = ending src0 /\
  (calls src <= calls src0)%nat /\ writer_room dst (stream src) /\ (reliable dst0 -> reliable dst).

(** What a copy that ended early has done. *)
Definition copied_part (dst0 : W) (src0 : R) (w : Z) (dst : W) (src : R) : Prop :=
  reader_inv src /\ 0 <= w <= zlen (stream src0) /\ written dst = written dst0 ++ take (Z.to_nat w) (stream src0) /\
  ~ reliable dst0.

Lemma copy_chunk_spec dst0 src0 dst src buf l w : copying dst0 src0 w dst src -> zlen (stream src0) < 2 ^ 63 ->
  0 < l <= zlen buf -> zlen buf < 2 ^ 31 ->
  returns (copy_chunk dst src buf l w) (fun '(buf', w', dst', src', er, ew) => zlen buf' = zlen buf /\ w' <= w + l /\
    match ew with
    | Some _ => copied_part dst0 src0 w' dst' src'
    | None => copying dst0 src0 w' dst' src' /\
        match er with
        | Some x => x = ending src0 /\ w' = zlen (stream src0)
        | None => (calls src' < calls src)%nat
        end
    end).
Proof.
  intros (Hi & Hw & Hs & Hwr & He & Hc & Hroom & Hrel) Hbig Hl Hb. unfold copy_chunk. rewrite slice_done by lia.
  cbn [mbind outcome_bind]. rewrite Z.sub_0_r, drop_0. set (p := take _ buf).
  assert (Hp : zlen p = l) by (unfold p; rewrite zlen_take; lia).
  go_call Read_spec; [done|lia|]. intros [[[p' nr] er] src'] (Hi' & Hp' & Hnr & Hs' & He' & Hx).
  rewrite Hs' in Hroom. set (buf' := p' ++ _).
  assert (Hb' : zlen buf' = zlen buf) by (unfold buf'; rewrite zlen_app, zlen_drop; lia).
  assert (Ht : forall k, 0 <= k <= nr -> take (Z.to_nat k) buf' = take (Z.to_nat k) p')
    by (intros k Hk; apply take_app_le; unfold zlen in *; lia).
  assert (Hlen : w + nr + zlen (stream src') = zlen (stream src0)).
  { pose proof (f_equal zlen Hs'). rewrite Hs, zlen_drop, zlen_app, zlen_take in H. lia. }
  pose proof (zlen_nonneg (stream src')).
  go_call (write_chunk_spec dst buf' nr w (stream src')); [by rewrite Ht by lia|lia|lia|lia|lia|].
  intros [[dst' w'] ew] (k & Hk & Hwr' & -> & Hfull & Hroom' & Hrel'). go_ret. split; [done|]. split; [lia|].
  assert (Hpre : written dst' = written dst0 ++ take (Z.to_nat (w + k)) (stream src0)).
  { rewrite Hwr', Hwr, <- app_assoc, Ht by lia. f_equal.
    rewrite <- (take_drop (Z.to_nat w) (stream src0)) at 2. rewrite <- Hs, Hs'. rewrite take_app, length_take.
    rewrite take_take. f_equal; [f_equal; lia|]. rewrite take_app_le by (rewrite length_take; unfold zlen in *; lia).
    rewrite take_take. f_equal. unfold zlen in *. lia. }
  destruct ew as [x|].
  - split_and!; try done; try lia. intros Hr. by destruct (Hrel' (Hrel Hr)).
  - rewrite (Hfull eq_refl) in *. split.
    + split_and!; try done; try lia; [|congruence|destruct er; lia|naive_solver].
      rewrite Z2Nat.inj_add by lia. rewrite <- drop_drop, <- Hs, Hs'. rewrite drop_app_length'; [done|].
      rewrite length_take. unfold zlen in *. lia.
    + destruct er as [x|]; [|done]. destruct Hx as (-> & Hnil & _). rewrite Hnil in Hlen. split; [done|].
      change (zlen (@nil Z)) with 0 in Hlen. lia.
Qed.

(** The error that a copy returns for the error of its source. *)
Definition eof_nil (x : error) : option error := if decide (x = EOF) then None else Some x.

(** What Copy promises, and the methods that it may use instead of its loop. *)
Definition copied {S} `{ReaderLaws S} (dst0 : W) (src0 : S) (n : Z) (e : option error) (dst : W) (src : S) : Prop :=
  reader_inv src /\ 0 <= n <= zlen (stream src0) /\ written dst = written dst0 ++ take (Z.to_nat n) (stream src0) /\
  (e = None -> n = zlen (stream src0) /\ ending src0 = EOF /\ writer_room dst []) /\
  (reliable dst0 -> n = zlen (stream src0) /\ e = eof_nil (ending src0) /\ reliable dst).

Lemma copied_all dst0 src0 w dst src : copying dst0 src0 w dst src -> w = zlen (stream src0) ->
  copied dst0 src0 w (eof_nil (ending src0)) dst src.
Proof.
  intros (Hi & Hw & Hs & Hwr & He & Hc & Hroom & Hrel) ->. unfold copied, eof_nil.
  do 3 (split; [done|]). rewrite Hs, zlen_to_nat, drop_all in Hroom. split; [by case_decide|auto].
Qed.

Lemma copied_failed dst0 src0 w x dst src : copied_part dst0 src0 w dst src -> copied dst0 src0 w (Some x) dst src.
Proof. intros (? & ? & ? & Hno). unfold copied. split_and!; try (done || lia); intros Hr; by destruct (Hno Hr). Qed.

Lemma copying_start dst src : reader_inv src -> writer_room dst (stream src) -> copying dst src 0 dst src.
Proof.
  intros. pose proof (zlen_nonneg (stream src)). unfold copying. rewrite app_nil_r, drop_0. split_and!; done || lia.
Qed.

Lemma Copy_loop_spec fuel dst src : reader_inv src -> writer_room dst (stream src) -> zlen (stream src) < 2 ^ 63 ->
  (calls src < fuel)%nat ->
  returns (Copy_loop fuel dst src) (fun '(n, e, dst', src') => copied dst src n e dst' src').
Proof.
  intros Hi Hroom Hbig Hf. unfold Copy_loop.
  apply (loop_returns (fun '(buf, w, d, s) => zlen buf = 32 * 1024 /\ copying dst src w d s) (fun '(_, _, _, s) => calls s)).
  - intros [[[buf w] d] s] [Hb Hcp]. go_call (copy_chunk_spec dst src); [done|done|lia|lia|].
    intros [[[[[buf' w'] d'] s'] er] ew] (Hb' & _ & Hres). destruct ew as [x|]; [go_ret; by apply copied_failed|].
    destruct Hres as [Hcp' Hres]. destruct er as [x|]; [|go_ret; split; [split; [lia|done]|done]].
    destruct Hres as [-> Hw]. pose proof (copied_all _ _ _ _ _ Hcp' Hw) as Hall. unfold eof_nil in Hall.
    destruct (ending src); go_ret; exact Hall.
  - split; [rewrite zlen_replicate; lia|]. by apply copying_start.
  - done.
Qed.

(** What Copyn promises. *)
Definition copied_n (dst0 : W) (src0 : R) (max n : Z) (e : option error) (dst : W) (src : R) : Prop :=
  let s := take (Z.to_nat max) (stream src0) in
  reader_inv src /\ 0 <= n <= zlen s /\ written dst = written dst0 ++ take (Z.to_nat n) s /\
  (e = None -> n = Z.max 0 max) /\
  (reliable dst0 -> n = zlen s /\ reliable dst /\ (e = None \/ e = Some (ending src0) /\ zlen (stream src0) <= max)).

Lemma Copyn_loop_spec fuel dst src n : reader_inv src -> writer_room dst (stream src) -> zlen (stream src) < 2 ^ 63 -> n < 2 ^ 63 ->
  (S (calls src) < fuel)%nat ->
  returns (Copyn_loop fuel dst src n) (fun '(w, e, dst', src') => copied_n dst src n w e dst' src').
Proof.
  intros Hi Hroom Hbig Hn Hf. unfold Copyn_loop. pose proof (zlen_nonneg (stream src)).
  assert (Ht : forall w, w <= n -> 0 <= w -> take (Z.to_nat w) (take (Z.to_nat n) (stream src)) = take (Z.to_nat w) (stream src))
    by (intros; rewrite take_take; f_equal; lia).
  apply (loop_returns (fun '(buf, w, d, s) => zlen buf = 32 * 1024 /\ copying dst src w d s /\ w <= Z.max 0 n) (fun '(_, _, _, s) => S (calls s))).
  - intros [[[buf w] d] s] (Hb & Hcp & Hwn). destruct (Z.ltb_spec w n).
    + assert (0 <= w) by (destruct Hcp; lia). rewrite int64_small by lia. set (l := if n - w <? zlen buf then _ else _).
      assert (0 < l <= zlen buf /\ l <= n - w) by (unfold l; case_bool; lia).
      go_call (copy_chunk_spec dst src); [done|done|lia|lia|].
      intros [[[[[buf' w'] d'] s'] er] ew] (Hb' & Hl & Hres). destruct ew as [x|].
      { go_ret. destruct Hres as (? & ? & Hwr & ?). unfold copied_n. rewrite Ht, zlen_take by lia. split_and!; try done; lia. }
      destruct Hres as [Hcp' Hres]. destruct er as [x|]; go_ret; [|split_and!; try done; lia].
      destruct Hres as [-> Hw]. destruct Hcp' as (? & ? & ? & Hwr & ? & ? & ? & Hrel). unfold copied_n. rewrite Ht, zlen_take by lia.
      split_and!; try done; try lia. intros ?. split_and!; [lia|auto|right; split; [done|lia]].
    + go_ret. destruct Hcp as (? & ? & ? & Hwr & ? & ? & ? & Hrel). unfold copied_n. rewrite zlen_take.
      destruct (decide (n <= 0)).
      * assert (w = 0) as -> by lia. split_and!; try done; try lia. intros ?. split_and!; [lia|auto|by left].
      * rewrite Ht by lia. split_and!; try done; try lia. intros ?. split_and!; [lia|auto|by left].
  - split_and!; [rewrite zlen_replicate; lia|by apply copying_start|lia].
  - done.
Qed.

Lemma Copyn_ReadFrom_spec fuel f dst src n :
  returns (f dst (LimitReader src n)) (fun '(w, e, dst', l) => copied dst (LimitReader src n) w e dst' l) ->
  returns (Copyn fuel (Some f) dst src n) (fun '(w, e, dst', src') => copied_n dst src n w e dst' src').
Proof.
  intros Hf. unfold Copyn. eapply returns_bind; [exact Hf|]. cbv beta. intros [[[w e] dst'] l] (Hi & Hw & Hwr & Hnone & Hrel). go_ret.
  unfold stream, ending in *. cbn [LimitedReader_laws] in *. unfold limited_stream, limited_ending in *. cbn [N limited LimitReader] in *.
  rewrite zlen_take in *. pose proof (zlen_nonneg (stream src)). unfold copied_n. rewrite zlen_take. split_and!; try done; try lia.
  - apply Hi.
  - intros He. destruct ((w <? n) && bool_decide (e = None)) eqn:E; [done|]. subst e. rewrite bool_decide_eq_true_2, andb_true_r in E by done.
    bool_to_prop. lia.
  - intros Hr. destruct (Hrel Hr) as (-> & -> & Hr'). split_and!; try done. unfold eof_nil. case_bool; [rewrite decide_True by done|].
    + rewrite (proj2 (Z.ltb_ge _ _)) by lia. by left.
    + right. split; [|lia]. case_decide as Hd; [|by rewrite andb_false_r].
      rewrite (proj2 (Z.ltb_lt _ _)) by lia. cbn. by rewrite Hd.
Qed.

(** * Properties *)

(** ReadAtLeast reads at least [min] bytes from any reader that keeps the
    contract of io.Reader, in order and without losing any, or all there are; it
    returns an error exactly when fewer came, except an error of the reader other
    than EOF that came with the last bytes.  It terminates whenever the reader
    ends.  A slice shorter than [min] is ErrShortBuffer. *)
Theorem ReadAtLeast_correct fuel src buf min : reader_inv src -> zlen buf < 2 ^ 31 -> (S (calls src) < fuel)%nat ->
  (zlen buf < min -> ReadAtLeast fuel src buf min = Done (buf, 0, Some ErrShortBuffer, src)) /\
  (min <= zlen buf -> returns (ReadAtLeast fuel src buf min) (fun '(buf', n, e, src') =>
    reader_inv src' /\ zlen buf' = zlen buf /\ 0 <= n <= zlen buf /\ stream src = take (Z.to_nat n) buf' ++ stream src' /\
    ending src' = ending src /\
    if min <=? n then e = None \/ e = Some (ending src) /\ ending src <> EOF /\ stream src' = []
    else e = Some (short_error (ending src) n) /\ stream src' = [])).
Proof.
  intros Hi Hb Hf. split; intros Hm.
  - unfold ReadAtLeast. by case_bool; [|lia].
  - go_mono ReadAtLeast_spec; [done|done|done|done|]. intros [[[buf' n] e] src'] (? & ? & ? & ? & ? & ? & ?). split_and!; done || lia.
Qed.

(** Copy and Copyn move a prefix of the source's stream to the destination, for
    any reader and writer that keep the contracts of package io: all of it, or
    the first [n] bytes, when the writer reports no error.  Copy returns no error
    only at the end of the source, and EOF is not an error; the count is that of
    the bytes written. *)
Theorem Copy_correct fuel dst src n : reader_inv src -> writer_room dst (stream src) -> zlen (stream src) < 2 ^ 63 -> n < 2 ^ 63 ->
  (S (calls src) < fuel)%nat ->
  returns (Copy fuel None None dst src) (fun '(w, e, dst', src') => copied dst src w e dst' src') /\
  returns (Copyn fuel None dst src n) (fun '(w, e, dst', src') => copied_n dst src n w e dst' src').
Proof.
  intros Hi Hroom Hbig Hn Hf. split; [apply Copy_loop_spec|apply Copyn_loop_spec]; done || lia.
Qed.
End CopyProofs.
