(* ===== verification/Buffer.v ===== *)
(** bytes.Buffer (src/go/src/pkg/bytes/buffer.go).

    The slice [b.buf] is its backing array [arr], whose length is the capacity,
    and its length [len]; the bootstrap array is all zeros until it becomes the
    backing array, because it is written only through [b.buf].  Buffer is an
    instance of the interfaces Reader and Writer of package io; ReadFrom and
    WriteTo are written against them. *)

From S2P Require Import Prelude Io Utf8.

(** * Code *)

Inductive readOp := opInvalid | opReadRune | opRead.

#[export] Instance readOp_eq_dec : EqDecision readOp.
Proof. solve_decision. Defined.

Record Buffer := MkBuffer {
  arr : list Z; len : Z; isnil : bool;  (* buf *)
  off : Z; runeBytes : list Z; lastRead : readOp }.

Definition set_last (o : readOp) (b : Buffer) : Buffer := MkBuffer (arr b) (len b) (isnil b) (off b) (runeBytes b) o.
Definition set_off (o : Z) (b : Buffer) : Buffer := MkBuffer (arr b) (len b) (isnil b) o (runeBytes b) (lastRead b).
Definition set_arr (a : list Z) (b : Buffer) : Buffer := MkBuffer a (len b) (isnil b) (off b) (runeBytes b) (lastRead b).
Definition set_runeBytes (rb : list Z) (b : Buffer) : Buffer := MkBuffer (arr b) (len b) (isnil b) (off b) rb (lastRead b).

Definition cap (b : Buffer) : Z := zlen (arr b).

(** [b.buf = b.buf[0:n]]. *)
Definition reslice (n : Z) (b : Buffer) : outcome Buffer :=
  if (0 <=? n) && (n <=? cap b) then Done (MkBuffer (arr b) n (isnil b) (off b) (runeBytes b) (lastRead b)) else Panic.

(** [b.buf = buf], [b.off = 0] with a new array of length [len]. *)
Definition new_buf (a : list Z) (n : Z) (b : Buffer) : Buffer := MkBuffer a n false 0 (runeBytes b) (lastRead b).

Definition Bytes (b : Buffer) : outcome (list Z) := slice (arr b) (off b) (len b).

Definition Buffer_String (b : option Buffer) : outcome (list Z) :=
  match b with
  | None => Done (lit "<nil>")
  | Some b => slice (arr b) (off b) (len b)
  end.

Definition Len (b : Buffer) : Z := len b - off b.

Definition Truncate (n : Z) (b : Buffer) : outcome Buffer :=
  let b := set_last opInvalid b in
  let b := if n =? 0 then set_off 0 b else b in
  reslice (int (off b + n)) b.

Definition Reset (b : Buffer) : outcome Buffer := Truncate 0 b.

(** [make([]byte, n)]. *)
Definition make_bytes (n : Z) : outcome (list Z) := if n <? 0 then Panic else Done (replicate (Z.to_nat n) 0).

(** The part of grow that finds space. *)
Definition enlarge (n : Z) (b : Buffer) : outcome Buffer :=
  if cap b <? int (len b + n) then
    if isnil b && (n <=? 64) then Done (new_buf (replicate 64 0) 64 b)
    else
      a ← make_bytes (int (2 * cap b + n));
      data ← Bytes b;
      '(a, _) ← copy_at a 0 (zlen a) data;
      Done (new_buf a (zlen a) b)
  else Done b.

Definition grow (n : Z) (b : Buffer) : outcome (Z * Buffer) :=
  let m := Len b in
  b ← (if (m =? 0) && negb (off b =? 0) then Truncate 0 b else Done b);
  b ← enlarge n b;
  b ← reslice (int (off b + m + n)) b;
  Done (off b + m, b).

Definition Buffer_Write (b : Buffer) (p : list Z) : outcome (Z * option error * Buffer) :=
  let b := set_last opInvalid b in
  '(m, b) ← grow (zlen p) b;
  '(a, _) ← copy_at (arr b) m (len b) p;
  Done (zlen p, None, set_arr a b).

Definition WriteString (b : Buffer) (s : list Z) : outcome (Z * option error * Buffer) :=
  let b := set_last opInvalid b in
  '(m, b) ← grow (zlen s) b;
  '(a, n) ← copy_at (arr b) m (len b) s;
  Done (n, None, set_arr a b).

#[export] Instance Buffer_Writer : Writer Buffer := Buffer_Write.

Definition MinRead : Z := 512.

(** The part of ReadFrom's loop that makes space for MinRead bytes. *)
Definition make_space (b : Buffer) : outcome Buffer :=
  if cap b - len b <? MinRead then
    data ← Bytes b;
    if MinRead <=? off b + cap b - len b then
      '(a, _) ← copy_at (arr b) 0 (len b - off b) data;
      Done (MkBuffer a (len b - off b) (isnil b) 0 (runeBytes b) (lastRead b))
    else
      a ← make_bytes (int (2 * (cap b - off b) + MinRead));
      '(a, _) ← copy_at a 0 (len b - off b) data;
      Done (new_buf a (len b - off b) b)
  else Done b.

Definition ReadFrom {R} `{Reader R} (fuel : nat) (b : Buffer) (r : R) : outcome (Z * option error * Buffer * R) :=
  let b := set_last opInvalid b in
  b ← (if len b <=? off b then Truncate 0 b else Done b);
  loop fuel (fun '(b, r, n) =>
    b ← make_space b;
    p ← slice (arr b) (len b) (cap b);
    '(p, m, e, r) ← Read r p;
    b ← reslice (int (len b + m)) (set_arr (put_slice (arr b) (len b) p) b);
    let n := int64 (n + m) in
    match e with
    | Some EOF => Done (inr (n, None, b, r))
    | Some e => Done (inr (n, Some e, b, r))
    | None => Done (inl (b, r, n))
    end) (b, r, 0).

Definition WriteTo {W} `{Writer W} (b : Buffer) (w : W) : outcome (Z * option error * W * Buffer) :=
  let b := set_last opInvalid b in
  if off b <? len b then
    data ← Bytes b;
    '(m, e, w) ← Write w data;
    let b := set_off (off b + m) b in
    match e with
    | Some e => Done (m, Some e, w, b)
    | None => b ← Truncate 0 b; Done (m, None, w, b)
    end
  else b ← Truncate 0 b; Done (0, None, w, b).

(** [b.buf[m] = c] and [b.buf[m]]. *)
Definition set_at (m c : Z) (b : Buffer) : outcome Buffer :=
  if m <? len b then a ← set_idx (arr b) m c; Done (set_arr a b) else Panic.
Definition get_at (m : Z) (b : Buffer) : outcome Z := if m <? len b then idx (arr b) m else Panic.

Definition WriteByte (c : Z) (b : Buffer) : outcome Buffer :=
  let b := set_last opInvalid b in
  '(m, b) ← grow 1 b;
  set_at m c b.

Definition WriteRune (r : Z) (b : Buffer) : outcome (Z * Buffer) :=
  if r <? RuneSelf then b ← WriteByte (byte r) b; Done (1, b)
  else
    '(rb, n) ← EncodeRune (runeBytes b) r;
    let b := set_runeBytes rb b in
    p ← slice rb 0 n;
    '(_, _, b) ← Buffer_Write b p;
    Done (n, b).

Definition Buffer_Read (b : Buffer) (p : list Z) : outcome (list Z * Z * option error * Buffer) :=
  let b := set_last opInvalid b in
  if len b <=? off b then
    b ← Truncate 0 b; Done (p, 0, Some EOF, b)
  else
    data ← Bytes b;
    '(p, n) ← copy_at p 0 (zlen p) data;
    let b := set_off (off b + n) b in
    let b := if 0 <? n then set_last opRead b else b in
    Done (p, n, None, b).

#[export] Instance Buffer_Reader : Reader Buffer := Buffer_Read.

Definition Next (n : Z) (b : Buffer) : outcome (list Z * Buffer) :=
  let b := set_last opInvalid b in
  let m := Len b in
  let n := if m <? n then m else n in
  data ← slice (arr b) (off b) (off b + n);
  let b := set_off (off b + n) b in
  let b := if 0 <? n then set_last opRead b else b in
  Done (data, b).

Definition ReadByte (b : Buffer) : outcome (Z * option error * Buffer) :=
  let b := set_last opInvalid b in
  if len b <=? off b then b ← Truncate 0 b; Done (0, Some EOF, b)
  else
    c ← get_at (off b) b;
    Done (c, None, set_last opRead (set_off (off b + 1) b)).

Definition ReadRune (b : Buffer) : outcome (Z * Z * option error * Buffer) :=
  let b := set_last opInvalid b in
  if len b <=? off b then b ← Truncate 0 b; Done (0, 0, Some EOF, b)
  else
    let b := set_last opReadRune b in
    c ← get_at (off b) b;
    if c <? RuneSelf then Done (c, 1, None, set_off (off b + 1) b)
    else
      data ← Bytes b;
      let '(r, n) := DecodeRune data in
      Done (r, n, None, set_off (off b + n) b).

Definition UnreadRune (b : Buffer) : outcome (option error * Buffer) :=
  if negb (bool_decide (lastRead b = opReadRune)) then
    Done (Some (NewError (lit "bytes.Buffer: UnreadRune: previous operation was not ReadRune")), b)
  else
    let b := set_last opInvalid b in
    if 0 <? off b then
      p ← slice (arr b) 0 (off b);
      '(_, n) ← DecodeLastRune p;
      Done (None, set_off (off b - n) b)
    else Done (None, b).

Definition UnreadByte (b : Buffer) : outcome (option error * Buffer) :=
  if negb (bool_decide (lastRead b = opReadRune)) && negb (bool_decide (lastRead b = opRead)) then
    Done (Some (NewError (lit "bytes.Buffer: UnreadByte: previous operation was not a read")), b)
  else
    let b := set_last opInvalid b in
    Done (None, if 0 <? off b then set_off (off b - 1) b else b).

(** bytes.IndexByte, in its portable form. *)
Fixpoint indexByte_from (i : Z) (s : list Z) (c : Z) : Z :=
  match s with
  | [] => -1
  | b :: s => if b =? c then i else indexByte_from (i + 1) s c
  end.
Definition IndexByte (s : list Z) (c : Z) : Z := indexByte_from 0 s c.

Definition ReadBytes (delim : Z) (b : Buffer) : outcome (list Z * option error * Buffer) :=
  data ← Bytes b;
  let i := IndexByte data delim in
  let size := if i <? 0 then len b - off b else i + 1 in
  let err := if i <? 0 then Some EOF else None in
  line ← make_bytes size;
  '(line, _) ← copy_at line 0 (zlen line) data;
  Done (line, err, set_off (off b + size) b).

Definition ReadString (delim : Z) (b : Buffer) : outcome (list Z * option error * Buffer) := ReadBytes delim b.

(** The zero value, which NewBuffer(nil) returns too; NewBuffer of the slice of
    length [n] of an array; NewBufferString. *)
Definition zero_Buffer : Buffer := MkBuffer [] 0 true 0 (replicate 4 0) opInvalid.
Definition NewBuffer (a : list Z) (n : Z) : Buffer := MkBuffer a n false 0 (replicate 4 0) opInvalid.
Definition NewBufferString (s : list Z) : Buffer := NewBuffer s (zlen s).

(** * Contents *)

(** The array holds the bytes [pre] that were read, then the unread [rest]. *)
Definition holds (b : Buffer) (pre rest : list Z) : Prop :=
  (exists post, arr b = pre ++ rest ++ post) /\ off b = zlen pre /\ len b = zlen pre + zlen rest /\
  cap b < 2 ^ 31 /\ zlen (runeBytes b) = 4 /\ (isnil b = true -> arr b = []).

Lemma holds_cap b pre rest : holds b pre rest -> zlen pre + zlen rest <= cap b.
Proof. intros ((post & E) & _). unfold cap. rewrite E, !zlen_app. pose proof (zlen_nonneg post). lia. Qed.

Lemma holds_last o b pre rest : holds b pre rest -> holds (set_last o b) pre rest.
Proof. done. Qed.

Lemma Bytes_spec b pre rest : holds b pre rest -> Bytes b = Done rest.
Proof.
  intros ((post & E) & Ho & Hl & _). unfold Bytes. rewrite E, Ho, Hl.
  pose proof (zlen_nonneg pre). pose proof (zlen_nonneg rest). pose proof (zlen_nonneg post).
  rewrite slice_done by (rewrite ?zlen_app; lia). rewrite Z.add_simpl_l. unfold zlen. rewrite !Nat2Z.id.
  by rewrite drop_app_length, take_app_length.
Qed.

Lemma Truncate_0_spec b pre rest : holds b pre rest -> exists b', Truncate 0 b = Done b' /\ holds b' [] [] /\ lastRead b' = opInvalid /\
  runeBytes b' = runeBytes b /\ isnil b' = isnil b /\ cap b' = cap b.
Proof.
  intros (_ & _ & _ & Hc & Hr & Hn). pose proof (zlen_nonneg (arr b)). unfold Truncate, reslice. cbn [Z.eqb].
  change (int (off (set_off 0 (set_last opInvalid b)) + 0)) with 0. case_bool; [|unfold cap in *; cbn [arr set_off set_last] in *; lia]. eexists. split; [done|].
  unfold holds, cap in *. cbn. split_and!; try done. by exists (arr b).
Qed.

(** Moving the read position. *)
Lemma holds_off b x y z : holds b x (y ++ z) -> holds (set_off (off b + zlen y) b) (x ++ y) z.
Proof.
  intros ((post & E) & Ho & Hl & Hc & Hr & Hn). unfold holds, cap in *. cbn. rewrite !zlen_app in *.
  split_and!; try done; [|lia|lia]. exists post. by rewrite E, <- !app_assoc.
Qed.

Lemma holds_back b x y z : holds b (x ++ y) z -> holds (set_off (off b - zlen y) b) x (y ++ z).
Proof.
  intros ((post & E) & Ho & Hl & Hc & Hr & Hn). unfold holds, cap in *. cbn. rewrite !zlen_app in *.
  split_and!; try done; [|lia|lia]. exists post. by rewrite E, <- !app_assoc.
Qed.

Lemma enlarge_spec n b pre rest : holds b pre rest -> 0 <= n -> len b + n <= 2 ^ 29 ->
  returns (enlarge n b) (fun b' => exists pre' post, arr b' = pre' ++ rest ++ post /\ n <= zlen post /\ off b' = zlen pre' /\
    cap b' < 2 ^ 31 /\ (pre' = [] \/ pre' = pre) /\ (isnil b' = true -> arr b' = []) /\ runeBytes b' = runeBytes b /\ lastRead b' = lastRead b).
Proof.
  intros Hh Hn Hmax. pose proof Hh as ((post & E) & Ho & Hl & Hc & Hr & Hnil). pose proof (holds_cap _ _ _ Hh).
  pose proof (zlen_nonneg pre). pose proof (zlen_nonneg rest). pose proof (zlen_nonneg post). unfold enlarge.
  rewrite (int_small (len b + n)) by lia. case_bool; [case_bool|].
  - go_ret. assert (arr b = []) as Ea by auto. rewrite E in Ea. apply app_nil in Ea as [-> Ea]. apply app_nil in Ea as [-> ->].
    exists [], (replicate 64 0). unfold cap. cbn [arr off isnil runeBytes lastRead new_buf]. split_and!; try done. by left.
  - unfold make_bytes. rewrite int_small by lia. case_bool; [lia|]. cbn [mbind outcome_bind].
    rewrite (Bytes_spec b pre rest Hh). cbn [mbind outcome_bind]. set (k := 2 * cap b + n).
    assert (n + zlen rest <= k < 2 ^ 31) by (unfold k; lia).
    assert (Hk : zlen (replicate (Z.to_nat k) 0) = k) by (rewrite zlen_replicate; lia).
    rewrite copy_at_done by lia. cbn [mbind outcome_bind]. go_ret. rewrite Hk, Z.sub_0_r.
    replace (Z.min k (zlen rest)) with (zlen rest) by lia. rewrite take_ge with (l := rest) by (unfold zlen; lia). change (take (Z.to_nat 0) ?l) with (@nil Z).
    exists [], (drop (Z.to_nat (0 + zlen rest)) (replicate (Z.to_nat k) 0)). unfold cap. cbn [arr off isnil runeBytes lastRead new_buf app].
    rewrite !zlen_app, zlen_drop, Hk. split_and!; first [done|lia|by left].
  - go_ret. exists pre, post. pose proof (f_equal zlen E) as El. rewrite !zlen_app in El. unfold cap in *. split_and!; first [done|lia|by right].
Qed.

(** What grow leaves: a gap of [n] bytes behind the unread bytes. *)
Definition grown (b : Buffer) (pre rest : list Z) (n m : Z) (b' : Buffer) : Prop :=
  exists pre' gap post, arr b' = pre' ++ rest ++ gap ++ post /\ zlen gap = n /\ off b' = zlen pre' /\
    m = zlen pre' + zlen rest /\ len b' = m + n /\ cap b' < 2 ^ 31 /\ (pre' = [] \/ pre' = pre) /\ (isnil b' = true -> arr b' = []) /\
    runeBytes b' = runeBytes b /\ lastRead b' = opInvalid.

Lemma grow_spec n b pre rest : holds b pre rest -> 0 <= n -> len b + n <= 2 ^ 29 -> lastRead b = opInvalid ->
  returns (grow n b) (fun '(m, b') => grown b pre rest n m b').
Proof.
  intros Hh Hn Hmax Hlast. pose proof Hh as (_ & Ho & Hl & _). unfold grow, Len.
  pose proof (zlen_nonneg pre). pose proof (zlen_nonneg rest). replace (len b - off b) with (zlen rest) by lia.
  eapply (returns_bind _ _ (fun b1 => exists pre1, holds b1 pre1 rest /\ (pre1 = [] \/ pre1 = pre) /\ runeBytes b1 = runeBytes b /\
    lastRead b1 = opInvalid)).
  { case_bool; [|go_ret; exists pre; auto]. destruct (Truncate_0_spec b pre rest Hh) as (b1 & -> & ? & ? & ? & _). go_ret.
    destruct rest; [exists []; auto|rewrite zlen_cons in *; pose proof (zlen_nonneg rest); lia]. }
  intros b1 (pre1 & Hh1 & Hp1 & Hr1 & Hl1). pose proof Hh1 as (_ & Ho1 & Hlen1 & _). pose proof (zlen_nonneg pre1).
  assert (zlen pre1 <= zlen pre) by (destruct Hp1 as [->| ->]; [change (zlen (@nil Z)) with 0|]; lia).
  go_call (enlarge_spec n b1 pre1 rest); [done|lia|lia|].
  intros b2 (pre2 & post & E2 & Hn2 & Ho2 & Hc2 & Hp2 & Hnil2 & Hr2 & Hl2).
  assert (zlen pre2 <= zlen pre) by (destruct Hp2 as [->| ->]; [change (zlen (@nil Z)) with 0|]; lia). rewrite Ho2, int_small by (pose proof (zlen_nonneg pre2); lia).
  unfold reslice. unfold cap in *. pose proof (f_equal zlen E2) as El. rewrite !zlen_app in El. pose proof (zlen_nonneg pre2).
  case_bool; [|lia]. cbn [mbind outcome_bind]. go_ret. exists pre2, (take (Z.to_nat n) post), (drop (Z.to_nat n) post).
  unfold cap. cbn [arr off len isnil runeBytes lastRead]. rewrite take_drop, zlen_take.
  split_and!; try done; try lia; [|congruence|congruence]. destruct Hp2 as [->| ->]; auto.
Qed.

(** ** Writing *)

(** A buffer to which [p] was appended. *)
Definition appended (pre rest p : list Z) (b' : Buffer) : Prop :=
  exists pre', holds b' pre' (rest ++ p) /\ (pre' = [] \/ pre' = pre) /\ lastRead b' = opInvalid.

Lemma fill_gap b pre rest p m b' : grown b pre rest (zlen p) m b' -> zlen (runeBytes b) = 4 ->
  exists a, copy_at (arr b') m (len b') p = Done (a, zlen p) /\ appended pre rest p (set_arr a b').
Proof.
  intros (pre' & gap & post & E & Hg & Ho & -> & Hl & Hc & Hp & Hnil & Hr & Hlast) Hrb.
  exists (pre' ++ rest ++ p ++ post). split.
  - rewrite E, Hl, app_assoc, <- zlen_app, <- Hg, copy_at_app by done. by rewrite <- app_assoc, Hg.
  - exists pre'. split; [|done]. unfold holds, cap in *. cbn [arr set_arr off len runeBytes isnil]. rewrite E, !zlen_app in Hc.
    split_and!; try done; [exists post; by rewrite <- app_assoc|rewrite zlen_app; lia|rewrite !zlen_app; lia|by rewrite Hr|].
    intros Hz. specialize (Hnil Hz). rewrite E in Hnil. apply app_nil in Hnil as [-> Hnil]. apply app_nil in Hnil as [-> Hnil].
    apply app_nil in Hnil as [-> ->]. destruct p; [done|]. rewrite zlen_cons, zlen_nil in Hg. pose proof (zlen_nonneg p). lia.
Qed.

Lemma Buffer_Write_spec b p pre rest : holds b pre rest -> len b + zlen p <= 2 ^ 29 ->
  returns (Buffer_Write b p) (fun '(n, e, b') => n = zlen p /\ e = None /\ appended pre rest p b').
Proof.
  intros Hh Hmax. unfold Buffer_Write. go_call (grow_spec (zlen p) (set_last opInvalid b) pre rest); [done|apply zlen_nonneg|done|done|].
  intros [m b'] Hg. destruct (fill_gap _ _ _ p _ _ Hg) as (a & -> & Ha); [apply Hh|]. cbn [mbind outcome_bind]. by go_ret.
Qed.

Lemma WriteString_spec b p pre rest : holds b pre rest -> len b + zlen p <= 2 ^ 29 ->
  returns (WriteString b p) (fun '(n, e, b') => n = zlen p /\ e = None /\ appended pre rest p b').
Proof.
  intros Hh Hmax. unfold WriteString. go_call (grow_spec (zlen p) (set_last opInvalid b) pre rest); [done|apply zlen_nonneg|done|done|].
  intros [m b'] Hg. destruct (fill_gap _ _ _ p _ _ Hg) as (a & -> & Ha); [apply Hh|]. cbn [mbind outcome_bind]. by go_ret.
Qed.

Lemma WriteByte_spec c b pre rest : holds b pre rest -> len b + 1 <= 2 ^ 29 ->
  returns (WriteByte c b) (appended pre rest [c]).
Proof.
  intros Hh Hmax. unfold WriteByte. go_call (grow_spec 1 (set_last opInvalid b) pre rest); [done|lia|done|done|].
  intros [m b'] Hg. destruct (fill_gap _ _ _ [c] _ _ Hg) as (a & Hcp & Ha); [apply Hh|].
  destruct Hg as (pre' & gap & post & E & Hgap & Ho & -> & Hl & _). unfold set_at. case_bool; [|lia].
  destruct gap as [|g [|g' gap]]; [done| |rewrite !zlen_cons in Hgap; pose proof (zlen_nonneg gap); lia].
  rewrite E, Hl, app_assoc, <- zlen_app in Hcp.
  change (zlen (pre' ++ rest) + 1) with (zlen (pre' ++ rest) + zlen [g]) in Hcp. rewrite (copy_at_app (pre' ++ rest) [g] post [c]) in Hcp by done.
  rewrite E, app_assoc, <- zlen_app. cbn [app]. rewrite set_idx_at. cbn [mbind outcome_bind]. go_ret. cbn [app] in Hcp. congruence.
Qed.

Lemma WriteRune_spec r b pre rest : holds b pre rest -> len b + 4 <= 2 ^ 29 -> 0 <= r < 2 ^ 31 ->
  returns (WriteRune r b) (fun '(n, b') => n = zlen (encoding (valid_rune r)) /\ appended pre rest (encoding (valid_rune r)) b').
Proof.
  intros Hh Hmax Hr. unfold WriteRune. case_bool.
  - go_call WriteByte_spec; [done|lia|]. intros b' Hb. go_ret.
    assert (valid_rune r = r) as -> by (unfold valid_rune, MaxRune, RuneSelf in *; case_bool; [lia|done]).
    unfold RuneSelf in *. assert (encoding r = [r]) as -> by (unfold encoding; case_bool; [done|unfold rune1Max in *; lia]).
    by rewrite byte_small in Hb by (unfold is_byte; lia).
  - assert (Hl : zlen (encoding (valid_rune r)) <= 4) by (unfold encoding; repeat case_bool; unfold zlen; cbn; lia).
    pose proof Hh as (_ & _ & _ & _ & Hrb & _). rewrite EncodeRune_spec by lia. cbn [mbind outcome_bind].
    rewrite slice_prefix. cbn [mbind outcome_bind]. set (e := encoding _) in *.
    go_call (Buffer_Write_spec (set_runeBytes (e ++ drop (length e) (runeBytes b)) b) e pre rest); [|cbn; lia|].
    + destruct Hh as (? & ? & ? & ? & ? & ?). unfold holds. cbn. split_and!; try done. rewrite zlen_app, zlen_drop. unfold zlen in *. lia.
    + intros [[n x] b'] (-> & -> & Hb). by go_ret.
Qed.

(** * Specification: a queue of bytes

    The state is the unread bytes, and what the next Unread operation puts back.
    ReadBytes does not record itself as the last operation, contrary to the
    comments on the Unread operations: after it UnreadByte works if it would have
    worked before it.  The specification says nothing about UnreadRune after a
    ReadRune that returned a byte that is no rune, or that was followed by
    ReadBytes: it then depends on what is left in the array. *)
Inductive undo := NoUndo | UndoByte (c : Z) | UndoRune (c : list Z) (good : bool).

Inductive bop :=
  | Write_op (p : list Z) | WriteString_op (s : list Z) | WriteByte_op (c : Z) | WriteRune_op (r : Z)
  | Read_op (n : Z) | Next_op (n : Z) | ReadByte_op | ReadRune_op | ReadBytes_op (delim : Z)
  | UnreadByte_op | UnreadRune_op | Truncate_op (n : Z) | Len_op | String_op
  | ReadFrom_op (s : list Z) | WriteTo_op.

Inductive bres :=
  | ResInt (n : Z) | ResBytes (p : list Z) (e : option error) | ResRune (r size : Z) (e : option error) | ResErr (e : option error)
  | ResLine (p : list Z) (isPrefix : bool) (e : option error) | ResCopy (n : Z) (p : list Z) (e : option error).

(** The results of the operations of Buffer; Read gets a slice of length [n],
    ReadFrom a buffer that holds [s], WriteTo an empty buffer. *)
Definition exec_bop (o : bop) (b : Buffer) : outcome (bres * Buffer) :=
  match o with
  | Write_op p => '(n, _, b) ← Buffer_Write b p; Done (ResInt n, b)
  | WriteString_op s => '(n, _, b) ← WriteString b s; Done (ResInt n, b)
  | WriteByte_op c => b ← WriteByte c b; Done (ResErr None, b)
  | WriteRune_op r => '(n, b) ← WriteRune r b; Done (ResInt n, b)
  | Read_op n => p ← make_bytes n; '(p, k, e, b) ← Buffer_Read b p; q ← slice p 0 k; Done (ResBytes q e, b)
  | Next_op n => '(p, b) ← Next n b; Done (ResBytes p None, b)
  | ReadByte_op => '(c, e, b) ← ReadByte b; Done (ResRune c 1 e, b)
  | ReadRune_op => '(r, n, e, b) ← ReadRune b; Done (ResRune r n e, b)
  | ReadBytes_op delim => '(p, e, b) ← ReadBytes delim b; Done (ResBytes p e, b)
  | UnreadByte_op => '(e, b) ← UnreadByte b; Done (ResErr e, b)
  | UnreadRune_op => '(e, b) ← UnreadRune b; Done (ResErr e, b)
  | Truncate_op n => b ← Truncate n b; Done (ResErr None, b)
  | Len_op => Done (ResInt (Len b), b)
  | String_op => p ← Buffer_String (Some b); Done (ResBytes p None, b)
  | ReadFrom_op s =>
      '(n, e, b, _) ← ReadFrom (S (length s)) b (NewBufferString s);
      Done (ResCopy n [] e, b)
  | WriteTo_op =>
      '(n, e, w, b) ← WriteTo b zero_Buffer;
      p ← Bytes w;
      Done (ResCopy n p e, b)
  end.

#[export] Instance is_byte_dec c : Decision (is_byte c).
Proof. unfold is_byte. apply _. Defined.

(** The bytes up to and including the first [delim], and the rest. *)
Fixpoint split_at (delim : Z) (l : list Z) : option (list Z * list Z) :=
  match l with
  | [] => None
  | c :: l => if c =? delim then Some ([c], l) else '(x, y) ← split_at delim l; Some (c :: x, y)
  end.

(** The bytes taken by a read, and what it leaves to unread. *)
Definition undo_read (p : list Z) : undo := match p.[zlen p - 1] with Some c => UndoByte c | None => NoUndo end.

(** What is left to unread after ReadBytes has returned [line]. *)
Definition undo_line (line : list Z) (u : undo) : undo :=
  match line.[zlen line - 1], u with
  | None, _ => u
  | Some _, NoUndo => NoUndo
  | Some c, UndoByte _ => UndoByte c
  | Some c, UndoRune _ _ => UndoRune [c] false
  end.

Definition spec_bop (o : bop) (st : list Z * undo) : option (bres * (list Z * undo)) :=
  let '(rest, u) := st in
  match o with
  | Write_op p | WriteString_op p => if decide (Forall is_byte p) then Some (ResInt (zlen p), (rest ++ p, NoUndo)) else None
  | WriteByte_op c => if decide (is_byte c) then Some (ResErr None, (rest ++ [c], NoUndo)) else None
  | WriteRune_op r => if decide (0 <= r < 2 ^ 31) then let e := encoding (valid_rune r) in Some (ResInt (zlen e), (rest ++ e, NoUndo)) else None
  | Read_op n =>
      if decide (0 <= n) then
        match rest with
        | [] => Some (ResBytes [] (Some EOF), ([], NoUndo))
        | _ => let p := take (Z.to_nat n) rest in Some (ResBytes p None, (drop (Z.to_nat n) rest, undo_read p))
        end
      else None
  | Next_op n => if decide (0 <= n) then let p := take (Z.to_nat n) rest in Some (ResBytes p None, (drop (Z.to_nat n) rest, undo_read p)) else None
  | ReadByte_op => match rest with [] => Some (ResRune 0 1 (Some EOF), ([], NoUndo)) | c :: l => Some (ResRune c 1 None, (l, UndoByte c)) end
  | ReadRune_op =>
      match rest with
      | [] => Some (ResRune 0 0 (Some EOF), ([], NoUndo))
      | _ => let '(r, n) := DecodeRune rest in
             Some (ResRune r n None, (drop (Z.to_nat n) rest, UndoRune (take (Z.to_nat n) rest) (negb (bool_decide ((r, n) = (RuneError, 1))))))
      end
  | ReadBytes_op delim =>
      match split_at delim rest with
      | Some (x, y) => Some (ResBytes x None, (y, undo_line x u))
      | None => Some (ResBytes rest (Some EOF), ([], undo_line rest u))
      end
  | UnreadByte_op =>
      match u with
      | NoUndo => Some (ResErr (Some (NewError (lit "bytes.Buffer: UnreadByte: previous operation was not a read"))), (rest, NoUndo))
      | UndoByte c => Some (ResErr None, (c :: rest, NoUndo))
      | UndoRune p _ => c ← p.[zlen p - 1]; Some (ResErr None, (c :: rest, NoUndo))
      end
  | UnreadRune_op =>
      match u with
      | UndoRune p true => Some (ResErr None, (p ++ rest, NoUndo))
      | UndoRune _ false => None
      | _ => Some (ResErr (Some (NewError (lit "bytes.Buffer: UnreadRune: previous operation was not ReadRune"))), (rest, u))
      end
  | Truncate_op n => if decide (0 <= n <= zlen rest) then Some (ResErr None, (take (Z.to_nat n) rest, NoUndo)) else None
  | Len_op => Some (ResInt (zlen rest), st)
  | String_op => Some (ResBytes rest None, st)
  | ReadFrom_op s => if decide (Forall is_byte s) then Some (ResCopy (zlen s) [] None, (rest ++ s, NoUndo)) else None
  | WriteTo_op => Some (ResCopy (zlen rest) rest None, ([], NoUndo))
  end.

(** The bytes that an operation adds to the buffer. *)
Definition added (o : bop) : Z :=
  match o with Write_op p | WriteString_op p | ReadFrom_op p => zlen p | WriteByte_op _ => 1 | WriteRune_op _ => 4 | _ => 0 end.

(** What the array holds before the unread bytes. *)
Definition undo_ok (u : undo) (pre : list Z) (o : readOp) : Prop :=
  match u with
  | NoUndo => o = opInvalid
  | UndoByte c => o = opRead /\ exists x, pre = x ++ [c]
  | UndoRune p good => o = opReadRune /\ (exists x, pre = x ++ p) /\ p <> [] /\
      (good = true -> exists r, 0 <= r <= rune4Max /\ p = encoding r)
  end.

Definition buffer_rel (b : Buffer) (st : list Z * undo) : Prop :=
  exists pre, holds b pre st.1 /\ undo_ok st.2 pre (lastRead b) /\ Forall is_byte (pre ++ st.1).

(** ** Reading *)

Lemma holds_nonneg b pre rest : holds b pre rest -> 0 <= off b <= len b /\ len b - off b = zlen rest.
Proof. intros (_ & -> & -> & _). pose proof (zlen_nonneg pre). pose proof (zlen_nonneg rest). lia. Qed.

(** The test for an empty buffer. *)
Lemma empty_spec b pre rest : holds b pre rest -> (len b <=? off b) = bool_decide (rest = []).
Proof.
  intros Hh. pose proof (holds_nonneg _ _ _ Hh). destruct (Z.leb_spec (len b) (off b)); symmetry.
  - apply bool_decide_eq_true_2. destruct rest; [done|]. rewrite zlen_cons in *. pose proof (zlen_nonneg rest). lia.
  - apply bool_decide_eq_false_2. intros ->. change (zlen (@nil Z)) with 0 in *. lia.
Qed.

Lemma undo_read_ok x p (o : readOp) : o = (if 0 <? zlen p then opRead else opInvalid) -> undo_ok (undo_read p) (x ++ p) o.
Proof.
  intros ->. unfold undo_read. destruct p as [|c p _] using rev_ind; [done|]. rewrite last_at, zlen_app. change (zlen [c]) with 1.
  case_bool; [|pose proof (zlen_nonneg p); lia]. split; [done|]. exists (x ++ p). by rewrite <- app_assoc.
Qed.

Lemma take_min (l : list Z) n : 0 <= n -> take (Z.to_nat n) l = take (Z.to_nat (Z.min n (zlen l))) l /\
  drop (Z.to_nat n) l = drop (Z.to_nat (Z.min n (zlen l))) l.
Proof.
  intros Hn. destruct (Z.le_gt_cases n (zlen l)); [by rewrite Z.min_l|]. rewrite Z.min_r by lia.
  rewrite zlen_to_nat, !take_ge, !drop_ge by (unfold zlen in *; lia). done.
Qed.

Lemma Next_spec n b pre rest : holds b pre rest -> 0 <= n ->
  returns (Next n b) (fun '(p, b') => p = take (Z.to_nat n) rest /\ holds b' (pre ++ p) (drop (Z.to_nat n) rest) /\
    lastRead b' = (if 0 <? zlen p then opRead else opInvalid) /\ len b' = len b).
Proof.
  intros Hh Hn. destruct (take_min rest n Hn) as [-> ->]. pose proof (holds_nonneg _ _ _ Hh). pose proof (holds_cap _ _ _ Hh).
  unfold Next, Len. cbn [len off set_last]. replace (if len b - off b <? n then len b - off b else n) with (Z.min n (zlen rest)) by (case_bool; lia).
  set (k := Z.min _ _). pose proof (zlen_nonneg rest).
  assert (Hk : zlen (take (Z.to_nat k) rest) = k) by (rewrite zlen_take; lia).
  pose proof Hh as ((post & E) & Ho & Hl & _).
  assert (slice (arr (set_last opInvalid b)) (off b) (off b + k) = Done (take (Z.to_nat k) rest)) as ->.
  { cbn [arr set_last]. rewrite slice_done by (unfold cap in *; lia). rewrite E, Ho, zlen_to_nat, drop_app_length.
    f_equal. rewrite take_app_le by (unfold zlen in *; lia). f_equal. lia. }
  cbn [mbind outcome_bind]. go_ret. split; [done|]. rewrite Hk. split; [|by case_bool].
  assert (Hh' : holds (set_last opInvalid b) pre (take (Z.to_nat k) rest ++ drop (Z.to_nat k) rest)) by (by rewrite take_drop).
  apply holds_off in Hh'. rewrite Hk in Hh'. by case_bool.
Qed.

Lemma Read_spec_b b p pre rest : holds b pre rest ->
  returns (Buffer_Read b p) (fun '(p', n, e, b') =>
    if decide (rest = []) then p' = p /\ n = 0 /\ e = Some EOF /\ holds b' [] [] /\ lastRead b' = opInvalid /\ len b' <= len b
    else n = Z.min (zlen p) (zlen rest) /\ e = None /\ p' = take (Z.to_nat n) rest ++ drop (Z.to_nat n) p /\
      holds b' (pre ++ take (Z.to_nat n) rest) (drop (Z.to_nat n) rest) /\ len b' = len b /\
      lastRead b' = (if 0 <? n then opRead else opInvalid)).
Proof.
  intros Hh. unfold Buffer_Read. cbn [len off set_last]. rewrite (empty_spec _ _ _ Hh). pose proof (holds_nonneg _ _ _ Hh).
  destruct (decide (rest = [])) as [->|Hr]; [rewrite bool_decide_eq_true_2 by done|rewrite bool_decide_eq_false_2 by done].
  { destruct (Truncate_0_spec (set_last opInvalid b) pre [] Hh) as (b' & -> & Hh' & ? & _). cbn [mbind outcome_bind]. go_ret.
    split_and!; try done. destruct Hh' as (_ & _ & -> & _). change (zlen (@nil Z)) with 0. lia. }
  rewrite (Bytes_spec (set_last opInvalid b) pre rest Hh). cbn [mbind outcome_bind]. pose proof (zlen_nonneg p). pose proof (zlen_nonneg rest).
  rewrite copy_at_done by lia. cbn [mbind outcome_bind]. go_ret. rewrite Z.sub_0_r. set (n := Z.min _ _). split; [done|].
  assert (Hk : zlen (take (Z.to_nat n) rest) = n) by (rewrite zlen_take; lia).
  assert (Hh' : holds (set_last opInvalid b) pre (take (Z.to_nat n) rest ++ drop (Z.to_nat n) rest)) by (by rewrite take_drop).
  apply holds_off in Hh'. rewrite Hk in Hh'. split_and!; try done; by case_bool.
Qed.

Lemma get_at_off b pre c rest : holds b pre (c :: rest) -> get_at (off b) b = Done c.
Proof.
  intros Hh. pose proof (holds_nonneg _ _ _ Hh). destruct Hh as ((post & E) & Ho & Hl & _). unfold get_at.
  rewrite zlen_cons in *. pose proof (zlen_nonneg rest). case_bool; [|lia]. rewrite E, Ho. cbn [app]. apply idx_done, zlookup_at.
Qed.

Lemma ReadByte_spec b pre rest : holds b pre rest ->
  match rest with
  | [] => exists b', ReadByte b = Done (0, Some EOF, b') /\ holds b' [] [] /\ lastRead b' = opInvalid /\ len b' <= len b
  | c :: l => exists b', ReadByte b = Done (c, None, b') /\ holds b' (pre ++ [c]) l /\ lastRead b' = opRead /\ len b' = len b
  end.
Proof.
  intros Hh. unfold ReadByte. cbn [len off set_last]. rewrite (empty_spec _ _ _ Hh). pose proof (holds_nonneg _ _ _ Hh). destruct rest as [|c l].
  - destruct (Truncate_0_spec (set_last opInvalid b) pre [] Hh) as (b' & -> & Hh' & Hl & _). cbn. exists b'. split_and!; try done.
    destruct Hh' as (_ & _ & -> & _). change (zlen (@nil Z)) with 0. lia.
  - rewrite bool_decide_eq_false_2 by done. rewrite (get_at_off (set_last opInvalid b) pre c l Hh : get_at (off b) (set_last opInvalid b) = _).
    cbn [mbind outcome_bind]. eexists. split; [done|]. split_and!; try done. exact (holds_off (set_last opRead b) pre [c] l Hh).
Qed.

Lemma DecodeRune_ascii c l : 0 <= c < RuneSelf -> DecodeRune (c :: l) = (c, 1).
Proof. intros Hc. unfold DecodeRune, decodeRuneInternal, RuneSelf, tx in *. case_bool; [done|lia]. Qed.

Lemma ReadRune_spec b pre rest : holds b pre rest -> Forall is_byte rest ->
  match rest with
  | [] => exists b', ReadRune b = Done (0, 0, Some EOF, b') /\ holds b' [] [] /\ lastRead b' = opInvalid /\ len b' <= len b
  | _ => let '(r, n) := DecodeRune rest in
      exists b', ReadRune b = Done (r, n, None, b') /\ 0 <= n <= zlen rest /\
        holds b' (pre ++ take (Z.to_nat n) rest) (drop (Z.to_nat n) rest) /\ lastRead b' = opReadRune /\ len b' = len b
  end.
Proof.
  intros Hh Hb. unfold ReadRune. cbn [len off set_last]. rewrite (empty_spec _ _ _ Hh). pose proof (holds_nonneg _ _ _ Hh). destruct rest as [|c l].
  - destruct (Truncate_0_spec (set_last opInvalid b) pre [] Hh) as (b' & -> & Hh' & Hl & _). cbn. exists b'. split_and!; try done.
    destruct Hh' as (_ & _ & -> & _). change (zlen (@nil Z)) with 0. lia.
  - rewrite bool_decide_eq_false_2 by done.
    rewrite (get_at_off (set_last opReadRune b) pre c l Hh : get_at (off b) (set_last opReadRune (set_last opInvalid b)) = _).
    cbn [mbind outcome_bind]. destruct (DecodeRune_split (c :: l) Hb) as (r & p & q & Hp & E & Hd); [done|]. rewrite Hd, E.
    rewrite zlen_to_nat, take_app_length, drop_app_length, zlen_app. pose proof (zlen_nonneg p). pose proof (zlen_nonneg q).
    assert (Hh' : holds (set_off (off b + zlen p) (set_last opReadRune b)) (pre ++ p) q).
    { rewrite E in Hh. exact (holds_off (set_last opReadRune b) pre p q Hh). }
    apply Forall_cons_iff in Hb as [Hc _]. unfold is_byte in Hc. destruct (Z.ltb_spec c RuneSelf).
    + rewrite DecodeRune_ascii in Hd by lia. injection Hd as <- Hl. rewrite <- Hl in *. eexists. split; [done|]. split_and!; done || lia.
    + rewrite (Bytes_spec (set_last opReadRune b) pre (c :: l) Hh : Bytes (set_last opReadRune (set_last opInvalid b)) = _).
      cbn [mbind outcome_bind]. rewrite Hd. eexists. split; [done|]. split_and!; done || lia.
Qed.

Lemma IndexByte_spec delim l : forall i, 0 <= i ->
  match split_at delim l with
  | Some (x, y) => l = x ++ y /\ indexByte_from i l delim = i + zlen x - 1 /\ x <> []
  | None => indexByte_from i l delim = -1
  end.
Proof.
  induction l as [|c l IH]; intros i Hi; cbn [split_at indexByte_from]; [done|].
  destruct (Z.eqb_spec c delim); [split_and!; [done|change (zlen [c]) with 1; lia|done]|].
  specialize (IH (i + 1) ltac:(lia)). destruct (split_at delim l) as [[x y]|]; cbn [mbind option_bind]; [|done].
  destruct IH as (-> & -> & Hx). rewrite zlen_cons. split_and!; [done|lia|done].
Qed.

Lemma ReadBytes_spec delim b pre rest : holds b pre rest ->
  let '(x, y, e) := match split_at delim rest with Some (x, y) => (x, y, None) | None => (rest, [], Some EOF) end in
  exists b', ReadBytes delim b = Done (x, e, b') /\ rest = x ++ y /\ holds b' (pre ++ x) y /\ len b' = len b /\ lastRead b' = lastRead b.
Proof.
  intros Hh. pose proof (IndexByte_spec delim rest 0 ltac:(lia)) as Hi. pose proof (holds_nonneg _ _ _ Hh) as Hn.
  unfold ReadBytes. rewrite (Bytes_spec b pre rest Hh). cbn [mbind outcome_bind]. unfold IndexByte.
  assert (Hgo : forall x y, rest = x ++ y -> exists b',
    (line ← make_bytes (zlen x); '(line, _) ← copy_at line 0 (zlen line) rest; Done (line, set_off (off b + zlen x) b)) = Done (x, b') /\
    holds b' (pre ++ x) y /\ len b' = len b /\ lastRead b' = lastRead b).
  { intros x y ->. pose proof (zlen_nonneg x). unfold make_bytes. case_bool; [lia|]. cbn [mbind outcome_bind].
    rewrite copy_at_done by (rewrite ?zlen_replicate; lia). cbn [mbind outcome_bind]. rewrite zlen_replicate, Z2Nat.id, Z.sub_0_r by lia.
    rewrite Z.min_l by (rewrite zlen_app; pose proof (zlen_nonneg y); lia). rewrite zlen_to_nat, take_app_length.
    eexists. split; [|split; [by apply holds_off|done]]. cbn [Z.to_nat take app]. rewrite drop_ge by (rewrite length_replicate; unfold zlen; lia).
    by rewrite app_nil_r. }
  destruct (split_at delim rest) as [[x y]|].
  - destruct Hi as (E & -> & Hx). pose proof (zlen_pos x Hx). case_bool; [lia|]. destruct (Hgo x y E) as (b' & Hb & Hh' & Hl').
    exists b'. split; [|done]. replace (0 + zlen x - 1 + 1) with (zlen x) by lia.
    destruct (make_bytes (zlen x)) as [m| |]; [|done|done]. cbn [mbind outcome_bind] in *.
    destruct (copy_at m 0 (zlen m) rest) as [[m' k]| |]; [|done|done]. cbn [mbind outcome_bind] in *. congruence.
  - rewrite Hi. cbn [Z.ltb Z.compare]. destruct (Hgo rest []) as (b' & Hb & Hh' & Hl'); [by rewrite app_nil_r|].
    exists b'. rewrite app_nil_r. split; [|done]. replace (len b - off b) with (zlen rest) by lia.
    destruct (make_bytes (zlen rest)) as [m| |]; [|done|done]. cbn [mbind outcome_bind] in *.
    destruct (copy_at m 0 (zlen m) rest) as [[m' k]| |]; [|done|done]. cbn [mbind outcome_bind] in *. congruence.
Qed.

Lemma UnreadByte_spec b x c rest : holds b (x ++ [c]) rest -> lastRead b <> opInvalid ->
  exists b', UnreadByte b = Done (None, b') /\ holds b' x (c :: rest) /\ lastRead b' = opInvalid /\ len b' = len b.
Proof.
  intros Hh Hl. unfold UnreadByte. assert (0 < off b). { destruct Hh as (_ & -> & _). rewrite zlen_app. change (zlen [c]) with 1. pose proof (zlen_nonneg x). lia. }
  assert (negb (bool_decide (lastRead b = opReadRune)) && negb (bool_decide (lastRead b = opRead)) = false) as ->
    by (by destruct (lastRead b)).
  eexists. split; [done|]. cbn [off set_last]. case_bool; [|lia]. split_and!; try done. exact (holds_back (set_last opInvalid b) x [c] rest Hh).
Qed.

Lemma UnreadRune_spec b x r rest : holds b (x ++ encoding r) rest -> Forall is_byte (x ++ encoding r) -> 0 <= r <= rune4Max ->
  lastRead b = opReadRune ->
  exists b', UnreadRune b = Done (None, b') /\ holds b' x (encoding r ++ rest) /\ lastRead b' = opInvalid /\ len b' = len b.
Proof.
  intros Hh Hb Hr Hl. unfold UnreadRune. rewrite bool_decide_eq_true_2 by done. cbn [negb off set_last arr].
  destruct (encoding_shape r Hr) as (c & t & E & _). pose proof (zlen_pos (encoding r) ltac:(by rewrite E)). pose proof (zlen_nonneg x).
  assert (Ho : off b = zlen (x ++ encoding r)) by apply Hh. rewrite zlen_app in Ho. case_bool; [|lia].
  assert (slice (arr b) 0 (off b) = Done (x ++ encoding r)) as ->.
  { destruct Hh as ((post & Ea) & -> & _). rewrite Ea. apply slice_prefix. }
  cbn [mbind outcome_bind]. rewrite DecodeLastRune_encoding by done. cbn [mbind outcome_bind]. eexists. split; [done|].
  split_and!; try done. exact (holds_back (set_last opInvalid b) x (encoding r) rest Hh).
Qed.

Lemma Truncate_spec n b pre rest : holds b pre rest -> 0 <= n <= zlen rest ->
  exists b' pre', Truncate n b = Done b' /\ holds b' pre' (take (Z.to_nat n) rest) /\ lastRead b' = opInvalid /\
    (pre' = [] \/ pre' = pre) /\ len b' <= len b.
Proof.
  intros Hh Hn. pose proof (holds_cap _ _ _ Hh). pose proof (holds_nonneg _ _ _ Hh). destruct (decide (n = 0)) as [->|].
  { destruct (Truncate_0_spec b pre rest Hh) as (b' & ? & Hh' & ? & _). exists b', []. split_and!; try done; [by left|].
    destruct Hh' as (_ & _ & -> & _). change (zlen (@nil Z)) with 0. lia. }
  unfold Truncate. rewrite (proj2 (Z.eqb_neq n 0)) by done. cbn [off set_last].
  destruct Hh as ((post & E) & Ho & Hl & Hc & Hr & Hnil). rewrite int_small by (pose proof (zlen_nonneg pre); lia).
  unfold reslice, cap in *. cbn [arr off isnil runeBytes lastRead set_last]. case_bool; [|lia]. eexists _, pre. split; [done|].
  unfold holds, cap. cbn [arr off len isnil runeBytes lastRead]. rewrite zlen_take. split_and!; try done; try lia; [|by right].
  exists (drop (Z.to_nat n) rest ++ post). by rewrite (app_assoc (take _ _)), take_drop.
Qed.

(** * Refinement *)

Lemma rel_appended b pre rest p b' : appended pre rest p b' -> holds b pre rest -> Forall is_byte (pre ++ rest) -> Forall is_byte p ->
  buffer_rel b' (rest ++ p, NoUndo) /\ len b' <= len b + zlen p.
Proof.
  intros (pre' & Hh' & Hp & Hl) Hh Hb Hp'. apply Forall_app in Hb as [Hpre Hrest]. split.
  - exists pre'. split_and!; [done|done|]. cbn [fst]. rewrite !Forall_app. split_and!; try done. destruct Hp as [->| ->]; done.
  - destruct Hh' as (_ & _ & -> & _), Hh as (_ & _ & -> & _). rewrite zlen_app. pose proof (zlen_nonneg pre).
    destruct Hp as [->| ->]; [change (zlen (@nil Z)) with 0|]; lia.
Qed.

Lemma rel_read b' pre x rest u : holds b' (pre ++ x) rest -> Forall is_byte (pre ++ x ++ rest) -> undo_ok u (pre ++ x) (lastRead b') ->
  buffer_rel b' (rest, u).
Proof. intros. exists (pre ++ x). split_and!; try done. by rewrite <- app_assoc. Qed.

Lemma rel_empty b' u : holds b' [] [] -> lastRead b' = opInvalid -> u = NoUndo -> buffer_rel b' ([], u).
Proof. intros ? ? ->. exists []. by split_and!. Qed.

(** What an operation does, if the specification says what it has to do. *)
Definition refines_op (o : bop) (b : Buffer) (st : list Z * undo) : Prop :=
  forall res st', spec_bop o st = Some (res, st') -> len b + added o <= 2 ^ 29 ->
  returns (exec_bop o b) (fun '(res', b') => res' = res /\ buffer_rel b' st' /\ len b' <= len b + added o).

Lemma refines_write o p b st : buffer_rel b st -> o = Write_op p \/ o = WriteString_op p -> refines_op o b st.
Proof.
  intros (pre & Hh & _ & Hb) Ho res st' Hspec Hmax. destruct st as [rest u]. cbn [fst] in *.
  destruct Ho as [-> | ->]; cbn [spec_bop exec_bop added] in *; (case_decide as Hp; [|done]); simplify_eq.
  - go_call Buffer_Write_spec; [done|done|]. intros [[n e] b'] (-> & _ & Ha). go_ret. split; [done|]. by eapply rel_appended.
  - go_call WriteString_spec; [done|done|]. intros [[n e] b'] (-> & _ & Ha). go_ret. split; [done|]. by eapply rel_appended.
Qed.

Lemma refines_write_one o c b st : buffer_rel b st -> o = WriteByte_op c \/ o = WriteRune_op c -> refines_op o b st.
Proof.
  intros (pre & Hh & _ & Hb) Ho res st' Hspec Hmax. destruct st as [rest u]. cbn [fst] in *.
  destruct Ho as [-> | ->]; cbn [spec_bop exec_bop added] in *; (case_decide as Hp; [|done]); simplify_eq.
  - go_call WriteByte_spec; [done|done|]. intros b' Ha. go_ret. split; [done|].
    change 1 with (zlen [c]). eapply rel_appended; [done|done|done|by constructor].
  - go_call WriteRune_spec; [done|done|done|]. intros [n b'] (-> & Ha). go_ret. split; [done|].
    assert (Hv : 0 <= valid_rune c <= rune4Max) by (unfold valid_rune, RuneError, MaxRune, rune4Max; case_bool; lia).
    destruct (rel_appended b pre rest _ b' Ha Hh Hb) as [? Hl]; [by apply encoding_bytes|]. split; [done|].
    pose proof (encoding_length (valid_rune c) Hv). lia.
Qed.

Lemma refines_read o n b st : buffer_rel b st -> o = Read_op n \/ o = Next_op n -> refines_op o b st.
Proof.
  intros (pre & Hh & _ & Hb) Ho res st' Hspec Hmax. destruct st as [rest u]. cbn [fst snd] in *.
  destruct Ho as [-> | ->]; cbn [spec_bop exec_bop added] in *; (case_decide as Hn; [|done]).
  - unfold make_bytes. case_bool; [lia|]. cbn [mbind outcome_bind]. go_call Read_spec_b; [done|]. rewrite zlen_replicate, Z2Nat.id by lia.
    intros [[[p k] e] b'] Hr. destruct (decide (rest = [])) as [->|Hne].
    { destruct Hr as (-> & -> & -> & Hh' & Hl & Hlen). simplify_eq. rewrite slice_done by (rewrite ?zlen_replicate; lia). cbn [mbind outcome_bind].
      go_ret. split; [done|]. split; [by apply rel_empty|lia]. }
    destruct Hr as (-> & -> & -> & Hh' & Hlen & Hl). destruct (take_min rest n Hn) as [Et Ed].
    assert (Hspec' : Some (ResBytes (take (Z.to_nat n) rest) None, (drop (Z.to_nat n) rest, undo_read (take (Z.to_nat n) rest))) = Some (res, st'))
      by (by destruct rest). rewrite Et, Ed in Hspec'. simplify_eq. set (k := Z.min n (zlen rest)) in *. pose proof (zlen_nonneg rest).
    assert (Hk : zlen (take (Z.to_nat k) rest) = k) by (rewrite zlen_take; lia).
    rewrite <- Hk at 3. rewrite slice_prefix. cbn [mbind outcome_bind]. go_ret. split; [done|]. split; [|lia].
    eapply rel_read; [done|by rewrite take_drop|]. apply undo_read_ok. by rewrite Hk.
  - simplify_eq. go_call Next_spec; [done|done|]. intros [p b'] (-> & Hh' & Hl & Hlen). go_ret. split; [done|]. split; [|lia].
    eapply rel_read; [done|by rewrite take_drop|]. by apply undo_read_ok.
Qed.

Lemma refines_ReadByte b st : buffer_rel b st -> refines_op ReadByte_op b st.
Proof.
  intros (pre & Hh & _ & Hb) res st' Hspec _. destruct st as [rest u]. cbn [fst snd spec_bop exec_bop added] in *.
  pose proof (ReadByte_spec b pre rest Hh) as Hr. destruct rest as [|c l]; destruct Hr as (b' & -> & Hh' & Hl & Hlen); simplify_eq;
    cbn [mbind outcome_bind]; go_ret; (split; [done|]); (split; [|lia]).
  - by apply rel_empty.
  - eapply rel_read; [done|done|]. split; [done|]. by exists pre.
Qed.

Lemma refines_ReadRune b st : buffer_rel b st -> refines_op ReadRune_op b st.
Proof.
  intros (pre & Hh & _ & Hb) res st' Hspec _. destruct st as [rest u]. cbn [fst snd spec_bop exec_bop added] in *.
  apply Forall_app in Hb as Hb'. destruct Hb' as [_ Hbr]. pose proof (ReadRune_spec b pre rest Hh Hbr) as Hr.
  destruct rest as [|c l].
  { destruct Hr as (b' & -> & Hh' & Hl & Hlen). simplify_eq. cbn [mbind outcome_bind]. go_ret. split; [done|]. split; [by apply rel_empty|lia]. }
  destruct (DecodeRune_exact_any (c :: l) Hbr ltac:(done)) as (r & p & q & Hp & E & Hd & Hgood).
  rewrite Hd in *. rewrite E in *. rewrite zlen_to_nat, take_app_length, drop_app_length in *.
  destruct Hr as (b' & -> & _ & Hh' & Hl & Hlen). injection Hspec as <- <-. cbn [mbind outcome_bind]. go_ret. split; [done|]. split; [|lia].
  eapply rel_read; [done|done|]. split_and!; [done|by exists pre|done|]. intros Hn. apply Hgood. apply negb_true_iff, bool_decide_eq_false in Hn. done.
Qed.

Lemma undo_line_ok x p u o : undo_ok u x o -> undo_ok (undo_line p u) (x ++ p) o.
Proof.
  unfold undo_line. destruct p as [|c p _] using rev_ind; [by rewrite app_nil_r|]. rewrite last_at, app_assoc.
  destruct u; cbn [undo_ok]; [done| |]; intros (-> & _); split_and!; try done; by exists (x ++ p).
Qed.

Lemma refines_ReadBytes d b st : buffer_rel b st -> refines_op (ReadBytes_op d) b st.
Proof.
  intros (pre & Hh & Hu & Hb) res st' Hspec _. destruct st as [rest u]. cbn [fst snd spec_bop exec_bop added] in *.
  pose proof (ReadBytes_spec d b pre rest Hh) as Hr. destruct (split_at d rest) as [[x y]|];
    destruct Hr as (b' & -> & E & Hh' & Hlen & Hl'); simplify_eq; cbn [mbind outcome_bind]; go_ret; (split; [done|]); (split; [|lia]).
  - eapply rel_read; [done|done|]. rewrite Hl'. by apply undo_line_ok.
  - eapply rel_read; [done|by rewrite app_nil_r|]. rewrite Hl'. by apply undo_line_ok.
Qed.

Lemma refines_Unread o b st : buffer_rel b st -> o = UnreadByte_op \/ o = UnreadRune_op -> refines_op o b st.
Proof.
  intros (pre & Hh & Hu & Hb) Ho res st' Hspec _. destruct st as [rest u]. cbn [fst snd] in *.
  assert (Hput : forall x p b', pre = x ++ p -> holds b' x (p ++ rest) -> lastRead b' = opInvalid -> buffer_rel b' (p ++ rest, NoUndo)).
  { intros x p b' -> ? ?. exists x. split_and!; try done. cbn [fst]. by rewrite app_assoc. }
  destruct Ho as [-> | ->]; destruct u as [|c|p good]; cbn [spec_bop exec_bop added undo_ok] in *; try done.
  - simplify_eq. unfold UnreadByte. rewrite Hu. cbn [bool_decide decide negb andb mbind outcome_bind]. go_ret. split; [done|]. split; [by exists pre|lia].
  - simplify_eq. destruct Hu as [Hl [x ->]]. destruct (UnreadByte_spec b x c rest Hh) as (b' & -> & Hh' & Hl' & Hlen); [congruence|].
    cbn [mbind outcome_bind]. go_ret. split; [done|]. split; [|lia]. by apply (Hput x [c]).
  - destruct Hu as (Hl & [x ->] & Hp & _). destruct p as [|c p _] using rev_ind; [done|]. rewrite last_at in Hspec. cbn [mbind option_bind] in Hspec.
    simplify_eq. rewrite app_assoc in Hh. destruct (UnreadByte_spec b (x ++ p) c rest Hh) as (b' & -> & Hh' & Hl' & Hlen); [congruence|].
    cbn [mbind outcome_bind]. go_ret. split; [done|]. split; [|lia]. apply (Hput (x ++ p) [c]); try done. by rewrite app_assoc.
  - simplify_eq. unfold UnreadRune. rewrite Hu. cbn [bool_decide decide negb andb mbind outcome_bind]. go_ret. split; [done|]. split; [by exists pre|lia].
  - simplify_eq. unfold UnreadRune. destruct Hu as [Hl Hx]. rewrite Hl. cbn [bool_decide decide negb andb mbind outcome_bind]. go_ret.
    split; [done|]. split; [by exists pre|lia].
  - destruct good; [|done]. simplify_eq. destruct Hu as (Hl & [x ->] & Hp & Hg). destruct (Hg eq_refl) as (r & Hr & ->).
    apply Forall_app in Hb as [Hb _]. destruct (UnreadRune_spec b x r rest Hh Hb Hr Hl) as (b' & -> & Hh' & Hl' & Hlen).
    cbn [mbind outcome_bind]. go_ret. split; [done|]. split; [|lia]. by apply (Hput x).
Qed.

Lemma NewBuffer_rel a n : Forall is_byte a -> 0 <= n <= zlen a -> zlen a < 2 ^ 31 -> buffer_rel (NewBuffer a n) (take (Z.to_nat n) a, NoUndo).
Proof.
  intros Hb Hn Hmax. exists []. split_and!; [|done|by apply Forall_take]. unfold holds, cap, NewBuffer. cbn [arr len off isnil runeBytes fst].
  rewrite zlen_take. split_and!; try done; [|change (zlen (@nil Z)) with 0; lia]. exists (drop (Z.to_nat n) a). by rewrite take_drop.
Qed.

Lemma zero_Buffer_rel : buffer_rel zero_Buffer ([], NoUndo).
Proof. exists []. split_and!; [|done|done]. unfold holds, cap. cbn. split_and!; try done. by exists []. Qed.

(** * Instances of the interfaces of package io *)

Definition contents (b : Buffer) : list Z := take (Z.to_nat (len b - off b)) (drop (Z.to_nat (off b)) (arr b)).
Definition buffer_ok (b : Buffer) : Prop := exists pre rest, holds b pre rest.

Lemma contents_holds b pre rest : holds b pre rest -> contents b = rest.
Proof.
  intros Hh. pose proof (holds_nonneg _ _ _ Hh) as [_ Hl]. destruct Hh as ((post & E) & Ho & _). unfold contents.
  by rewrite Hl, Ho, E, !zlen_to_nat, drop_app_length, take_app_length.
Qed.

Lemma Buffer_Read_law b p : buffer_ok b -> 0 < zlen p < 2 ^ 31 ->
  returns (Buffer_Read b p) (fun '(p', n, e, b') => buffer_ok b' /\ read_ok contents (fun _ => EOF) (fun b => length (contents b)) b p p' n e b').
Proof.
  intros (pre & rest & Hh) Hp. go_mono (Read_spec_b b p pre rest Hh). intros [[[p' n] e] b'] Hr. pose proof (zlen_nonneg p).
  unfold read_ok. rewrite (contents_holds _ _ _ Hh). destruct (decide (rest = [])) as [->|Hne].
  - destruct Hr as (-> & -> & -> & Hh' & _ & _). rewrite (contents_holds _ _ _ Hh'). split; [by exists [], []|]. split_and!; done || lia.
  - destruct Hr as (-> & -> & -> & Hh' & _ & _). rewrite (contents_holds _ _ _ Hh'). split; [by eexists _, _|].
    set (n := Z.min (zlen p) (zlen rest)) in *. pose proof (zlen_pos rest Hne).
    assert (Hk : zlen (take (Z.to_nat n) rest) = n) by (rewrite zlen_take; lia).
    split_and!; try done; try lia.
    + rewrite zlen_app, zlen_drop. lia.
    + rewrite take_app_le by (unfold zlen in *; lia). rewrite take_take, Nat.min_id. by rewrite take_drop.
    + rewrite length_drop. unfold zlen in *. lia.
Qed.

#[export] Instance Buffer_ReaderLaws : ReaderLaws Buffer := {
  reader_inv := buffer_ok; stream := contents; ending := fun _ => EOF; calls := fun b => length (contents b);
  Read_spec := Buffer_Read_law }.

#[export] Instance Buffer_EmptyReads : EmptyReads Buffer.
Proof.
  intros b (pre & rest & Hh). cbn [stream ending calls reader_inv Buffer_ReaderLaws]. go_mono (Read_spec_b b [] pre rest Hh).
  intros [[[p' n] e] b'] Hr. rewrite (contents_holds _ _ _ Hh). pose proof (zlen_nonneg rest). destruct (decide (rest = [])) as [->|Hne].
  - destruct Hr as (-> & -> & -> & Hh' & _ & _). rewrite (contents_holds _ _ _ Hh'). split_and!; try done; [by exists [], []|].
    intros x Hx. by simplify_eq.
  - change (zlen (@nil Z)) with 0 in Hr. rewrite Z.min_l in Hr by done. destruct Hr as (-> & -> & -> & Hh' & _ & _).
    rewrite (contents_holds _ _ _ Hh'). split_and!; try done. by eexists _, _.
Qed.

Lemma Buffer_Write_law b p q : buffer_ok b /\ len b + zlen (p ++ q) <= 2 ^ 29 -> zlen p < 2 ^ 31 ->
  returns (Buffer_Write b p) (fun '(n, e, b') => 0 <= n <= zlen p /\ contents b' = contents b ++ take (Z.to_nat n) p /\
    (n < zlen p -> e <> None) /\ (buffer_ok b' /\ len b' + zlen q <= 2 ^ 29) /\ (True -> e = None /\ True)).
Proof.
  rewrite zlen_app. intros [(pre & rest & Hh) Hmax] _. pose proof (zlen_nonneg q). pose proof (zlen_nonneg p).
  go_mono Buffer_Write_spec; [done|lia|]. intros [[n e] b'] (-> & -> & pre' & Hh' & Hp & _).
  rewrite (contents_holds _ _ _ Hh), (contents_holds _ _ _ Hh'), zlen_to_nat, take_ge by lia. split_and!; try done; try lia; [by eexists _, _|].
  destruct Hh' as (_ & _ & -> & _), Hh as (_ & _ & Hl & _). rewrite zlen_app. pose proof (zlen_nonneg pre).
  destruct Hp as [->| ->]; [change (zlen (@nil Z)) with 0|]; lia.
Qed.

#[export] Instance Buffer_WriterLaws : WriterLaws Buffer := {
  writer_room := fun b p => buffer_ok b /\ len b + zlen p <= 2 ^ 29; written := contents; reliable := fun _ => True;
  Write_spec := Buffer_Write_law }.

(** ** ReadFrom and WriteTo *)

Lemma WriteTo_spec {W} `{HW : Writer W} {HLW : WriterLaws W} b (w : W) : buffer_ok b -> writer_room w (contents b) -> cap b < 2 ^ 31 ->
  returns (WriteTo b w) (fun '(n, e, w', b') => copied w b n e w' b' /\ (e = None -> holds b' [] [] /\ lastRead b' = opInvalid)).
Proof.
  intros (pre & rest & Hh) Hroom Hc. pose proof (holds_nonneg _ _ _ Hh). pose proof (holds_cap _ _ _ Hh). pose proof (zlen_nonneg pre).
  unfold WriteTo, copied. cbn [off len set_last stream reader_inv ending Buffer_ReaderLaws].
  rewrite (contents_holds _ _ _ Hh) in *. pose proof (zlen_nonneg rest). case_bool.
  - rewrite (Bytes_spec (set_last opInvalid b) pre rest Hh). cbn [mbind outcome_bind].
    rewrite <- (app_nil_r rest) in Hroom. go_call Write_spec; [done|lia|].
    intros [[m e] w'] (Hm & Hwr & Hshort & Hroom' & Hrel).
    assert (Hh' : holds (set_last opInvalid b) pre (take (Z.to_nat m) rest ++ drop (Z.to_nat m) rest)) by (by rewrite take_drop).
    apply holds_off in Hh'. rewrite zlen_take in Hh'. replace (Z.min _ _) with m in Hh' by lia. cbn [off set_last] in Hh'. destruct e as [x|].
    + go_ret. split; [|done]. split_and!; try done; try lia; [by eexists _, _|]. intros Hr. by destruct (Hrel Hr).
    + assert (m = zlen rest) as -> by (destruct (Z.lt_ge_cases m (zlen rest)); [by destruct Hshort|lia]).
      destruct (Truncate_0_spec _ _ _ Hh') as (b' & -> & Hb' & Hl' & _). cbn [mbind outcome_bind]. go_ret. split; [|done].
      split_and!; try done; try lia; [by exists [], []|]. intros Hr. by destruct (Hrel Hr).
  - assert (rest = []) as -> by (destruct rest; [done|rewrite zlen_cons in *; pose proof (zlen_nonneg rest); lia]).
    destruct (Truncate_0_spec (set_last opInvalid b) _ _ Hh) as (b' & -> & Hb' & Hl' & _). cbn [mbind outcome_bind]. go_ret. split; [|done].
    rewrite app_nil_r. split_and!; try done. by exists [], [].
Qed.

Lemma make_space_spec b pre rest : holds b pre rest -> len b <= 2 ^ 29 ->
  returns (make_space b) (fun b' => exists pre', holds b' pre' rest /\ MinRead <= cap b' - len b' /\ (pre' = [] \/ pre' = pre) /\ lastRead b' = lastRead b).
Proof.
  intros Hh Hmax. pose proof Hh as ((post & E) & Ho & Hl & Hc & Hr & Hnil). pose proof (holds_cap _ _ _ Hh).
  pose proof (zlen_nonneg pre). pose proof (zlen_nonneg rest). unfold make_space, MinRead. case_bool; [|go_ret; exists pre; split_and!; (done || lia || by right)].
  rewrite (Bytes_spec b pre rest Hh). cbn [mbind outcome_bind]. replace (len b - off b) with (zlen rest) by lia.
  assert (Hcopy : forall a, zlen rest <= zlen a -> copy_at a 0 (zlen rest) rest = Done (rest ++ drop (Z.to_nat (zlen rest)) a, zlen rest)).
  { intros a Ha. rewrite copy_at_done by lia. rewrite Z.sub_0_r, Z.min_id. by rewrite (take_ge rest) by (unfold zlen; lia). }
  assert (Hh' : forall a isn rb o, zlen rest <= zlen a -> zlen a < 2 ^ 31 -> (isn = true -> a = []) -> zlen rb = 4 ->
    holds (MkBuffer (rest ++ drop (Z.to_nat (zlen rest)) a) (zlen rest) isn 0 rb o) [] rest).
  { intros a isn rb o Ha Hamax Hna Hrb. unfold holds, cap. cbn [arr len off isnil runeBytes]. rewrite zlen_app, zlen_drop.
    split_and!; try done; [by eexists|lia|]. intros Hz. rewrite (Hna Hz) in *. change (zlen (@nil Z)) with 0 in *.
    destruct rest; [done|rewrite zlen_cons in *; pose proof (zlen_nonneg rest); lia]. }
  unfold cap in *. case_bool.
  - rewrite Hcopy by lia. cbn [mbind outcome_bind]. go_ret. exists []. cbn [arr len]. rewrite zlen_app, zlen_drop.
    split_and!; [apply Hh'; done || lia|lia|by left|done].
  - unfold make_bytes. rewrite int_small by lia. case_bool; [lia|]. cbn [mbind outcome_bind]. set (k := 2 * _ + _).
    assert (Hk : zlen (replicate (Z.to_nat k) 0) = k) by (rewrite zlen_replicate; lia).
    assert (zlen rest + 512 <= k < 2 ^ 31) by (unfold k; lia).
    rewrite Hcopy by lia. cbn [mbind outcome_bind]. go_ret. exists []. unfold new_buf. cbn [arr len]. rewrite zlen_app, zlen_drop.
    split_and!; [apply Hh'; done || lia|lia|by left|done].
Qed.

(** The reader stores [m] bytes behind the contents. *)
Lemma holds_put b pre rest p m : holds b pre rest -> zlen p = cap b - len b -> 0 <= m <= zlen p ->
  exists b', reslice (int (len b + m)) (set_arr (put_slice (arr b) (len b) p) b) = Done b' /\
    holds b' pre (rest ++ take (Z.to_nat m) p) /\ len b' = len b + m /\ lastRead b' = lastRead b.
Proof.
  intros Hh Hp Hm. pose proof (holds_cap _ _ _ Hh). pose proof (zlen_nonneg pre). pose proof (zlen_nonneg rest).
  destruct Hh as ((post & E) & Ho & Hl & Hc & Hr & Hnil). unfold cap in *.
  assert (Ea : put_slice (arr b) (len b) p = pre ++ rest ++ p).
  { unfold put_slice. rewrite E, Hl, app_assoc, <- zlen_app, zlen_to_nat, take_app_length. by rewrite <- app_assoc. }
  assert (Hla : zlen (pre ++ rest ++ p) = zlen (arr b)) by (rewrite !zlen_app; lia).
  rewrite Ea. unfold reslice, cap. cbn [arr set_arr off isnil runeBytes lastRead]. rewrite int_small, Hla by lia. case_bool; [|lia].
  eexists. split; [done|]. split; [|done]. unfold holds, cap. cbn [arr len off isnil runeBytes]. rewrite Hla, zlen_app, zlen_take.
  split_and!; try done; [|lia|].
  - exists (drop (Z.to_nat m) p). by rewrite <- app_assoc, take_drop.
  - intros Hz. specialize (Hnil Hz). apply (f_equal zlen) in Hnil. rewrite <- Hla in Hnil. change (zlen (@nil Z)) with 0 in Hnil.
    destruct (pre ++ rest ++ p); [done|]. rewrite zlen_cons in Hnil. pose proof (zlen_nonneg l). lia.
Qed.

Lemma ReadFrom_spec {R} `{HR : Reader R} {HL : ReaderLaws R} fuel b (r : R) pre rest : holds b pre rest -> reader_inv r ->
  len b + zlen (stream r) <= 2 ^ 29 -> (calls r < fuel)%nat ->
  returns (ReadFrom fuel b r) (fun '(n, e, b', r') => copied b r n e b' r' /\ appended pre rest (stream r) b').
Proof.
  intros Hh Hi Hmax Hf. unfold ReadFrom. cbn [len off set_last]. rewrite (empty_spec _ _ _ Hh).
  pose proof (zlen_nonneg (stream r)). pose proof (holds_nonneg _ _ _ Hh).
  eapply (returns_bind _ _ (fun b1 => exists pre1, holds b1 pre1 rest /\ len b1 <= len b /\ (pre1 = [] \/ pre1 = pre) /\ lastRead b1 = opInvalid)).
  { case_bool_decide; [|go_ret; exists pre; split_and!; [done|cbn; lia|by right|done]]. subst rest.
    destruct (Truncate_0_spec (set_last opInvalid b) _ _ Hh) as (b1 & -> & Hh1 & Hl1 & _). go_ret. exists []. split_and!; [done| |by left|done].
    destruct Hh1 as (_ & _ & -> & _). change (zlen (@nil Z)) with 0. lia. }
  intros b1 (pre1 & Hh1 & Hl1 & Hp1 & Hlast1).
  apply (loop_returns (fun '(b2, r2, n) => reader_inv r2 /\ 0 <= n <= zlen (stream r) /\ stream r2 = drop (Z.to_nat n) (stream r) /\
    ending r2 = ending r /\ len b2 + zlen (stream r2) <= 2 ^ 29 /\ exists pre2, holds b2 pre2 (rest ++ take (Z.to_nat n) (stream r)) /\
      (pre2 = [] \/ pre2 = pre) /\ lastRead b2 = opInvalid)
    (fun '(_, r2, _) => calls r2)); [| |done]; last first.
  { split_and!; try done; try lia. exists pre1. by rewrite app_nil_r. }
  intros [[b2 r2] n] (Hi2 & Hn & Hs2 & He2 & Hm2 & pre2 & Hh2 & Hp2 & Hlast2). pose proof (zlen_nonneg (stream r2)).
  go_call (make_space_spec b2 _ _ Hh2); [lia|]. intros b3 (pre3 & Hh3 & Hsp & Hp3 & Hlast3). unfold MinRead in Hsp.
  pose proof (holds_nonneg _ _ _ Hh3). assert (Hl3 : len b3 <= len b2).
  { assert (zlen pre3 <= zlen pre2) by (destruct Hp3 as [->| ->]; [apply zlen_nonneg|done]).
    destruct Hh3 as (_ & _ & -> & _), Hh2 as (_ & _ & -> & _). lia. }
  pose proof Hh3 as (_ & _ & _ & Hc3 & _). unfold cap in *. rewrite slice_done by (unfold cap; lia). cbn [mbind outcome_bind].
  set (p := take _ _). assert (Hp : zlen p = cap b3 - len b3) by (unfold p, cap; rewrite zlen_take, zlen_drop; lia).
  go_call Read_spec; [done|unfold cap in *; lia|]. intros [[[p' m] e] r3] (Hi3 & Hp' & Hm & Hs3 & He3 & Hx).
  destruct (holds_put b3 pre3 _ p' m Hh3) as (b4 & -> & Hh4 & Hl4 & Hlast4); [lia|lia|]. cbn [mbind outcome_bind].
  assert (Hlen : zlen (stream r2) = m + zlen (stream r3)) by (rewrite Hs3, zlen_app, zlen_take; lia).
  pose proof (zlen_nonneg (stream r3)). pose proof Hlen as Hlen2. rewrite Hs2, zlen_drop in Hlen.
  assert (Htk : take (Z.to_nat n) (stream r) ++ take (Z.to_nat m) p' = take (Z.to_nat (n + m)) (stream r)).
  { rewrite Z2Nat.inj_add, <- take_take_drop, <- Hs2, Hs3 by lia. f_equal. rewrite take_app_le by (rewrite length_take; unfold zlen in *; lia).
    rewrite take_take. f_equal. lia. }
  rewrite <- app_assoc, Htk in Hh4. rewrite int64_small by lia.
  assert (Hcop : forall e, (stream r3 = []) -> e = eof_nil (ending r) -> copied b r (n + m) e b4 r3 /\ appended pre rest (stream r) b4).
  { intros e' Hnil ->. split; [|exists pre3; rewrite Hnil in Hlen; change (zlen (@nil Z)) with 0 in Hlen;
      rewrite take_ge in Hh4 by (unfold zlen in *; lia); split_and!; [done|destruct Hp3 as [->| ->]; auto|congruence]]. rewrite Hnil in Hlen. change (zlen (@nil Z)) with 0 in Hlen. unfold copied, eof_nil.
    cbn [written reliable Buffer_WriterLaws]. rewrite (contents_holds _ _ _ Hh4), (contents_holds _ _ _ Hh).
    assert (Hroom : buffer_ok b4 /\ len b4 + zlen (@nil Z) <= 2 ^ 29) by (split; [by eexists _, _|change (zlen (@nil Z)) with 0; lia]).
    split_and!; try done; try lia; [case_decide; [|done]|]; intros; (split_and!; [lia|done..]). }
  destruct e as [x|]; [destruct Hx as (-> & Hnil & _)|].
  - rewrite He2. unfold eof_nil in Hcop. destruct (ending r) eqn:Er; go_ret; apply Hcop; done.
  - go_ret. split; [|done]. split_and!; try done; try lia; [|congruence|exists pre3; split_and!; [done|destruct Hp3 as [->| ->]; auto|congruence]].
    rewrite Z2Nat.inj_add, <- drop_drop, <- Hs2, Hs3 by lia. rewrite drop_app_length'; [done|]. rewrite length_take. unfold zlen in *. lia.
Qed.

(** ** Sequences of operations *)

Lemma NewBufferString_ok s : zlen s < 2 ^ 31 -> buffer_ok (NewBufferString s).
Proof.
  intros Hs. exists [], s. unfold holds, cap, NewBufferString, NewBuffer. cbn [arr len off isnil runeBytes].
  split_and!; try done. exists []. by rewrite app_nil_r.
Qed.

Lemma contents_string s : contents (NewBufferString s) = s.
Proof. unfold contents. cbn. by rewrite Z.sub_0_r, zlen_to_nat, take_ge. Qed.

Lemma Bytes_contents b : buffer_ok b -> Bytes b = Done (contents b).
Proof. intros (pre & rest & Hh). by rewrite (contents_holds _ _ _ Hh), (Bytes_spec _ _ _ Hh). Qed.

Lemma refines_ReadFrom s b st : buffer_rel b st -> refines_op (ReadFrom_op s) b st.
Proof.
  intros (pre & Hh & _ & Hb) res st' Hspec Hmax. destruct st as [rest u]. cbn [fst snd spec_bop exec_bop added] in *.
  case_decide as Hs; [|done]. simplify_eq. pose proof (holds_nonneg _ _ _ Hh).
  go_call (ReadFrom_spec (S (length s)) b (NewBufferString s) pre rest); cbn [stream calls reader_inv Buffer_ReaderLaws]; rewrite ?contents_string;
    [done|apply NewBufferString_ok; lia|done|lia|].
  intros [[[n e] b'] r'] ((_ & _ & _ & _ & Hrel) & Ha). destruct (Hrel I) as (-> & -> & _). cbn [stream Buffer_ReaderLaws] in *.
  rewrite contents_string in *. go_ret. split; [done|]. by eapply rel_appended.
Qed.

Lemma refines_WriteTo b st : buffer_rel b st -> refines_op WriteTo_op b st.
Proof.
  intros (pre & Hh & _ & Hb) res st' Hspec Hmax. destruct st as [rest u]. cbn [fst snd spec_bop exec_bop added] in *. simplify_eq.
  pose proof (holds_nonneg _ _ _ Hh). pose proof Hh as (_ & _ & _ & Hc & _). pose proof (contents_holds _ _ _ Hh) as Ec.
  assert (H0 : buffer_ok zero_Buffer) by (destruct zero_Buffer_rel as (pre0 & Hh0 & _); by eexists _, _).
  go_call (WriteTo_spec b zero_Buffer); [by eexists _, _|cbn [writer_room Buffer_WriterLaws]; split; [done|rewrite Ec; cbn; lia]|done|].
  intros [[[n e] w] b'] [(_ & _ & Hw & Hroom & Hrel) Hb']. destruct (Hrel I) as (-> & -> & _).
  destruct (Hb' eq_refl) as [Hh' Hl']. destruct (Hroom eq_refl) as (_ & _ & Hok & _). cbn [stream written Buffer_ReaderLaws Buffer_WriterLaws] in *.
  rewrite (Bytes_contents w Hok), Hw, Ec. cbn [mbind outcome_bind]. go_ret. split; [|split; [by apply rel_empty|]].
  - by rewrite zlen_to_nat, take_ge by lia.
  - destruct Hh' as (_ & _ & -> & _). change (zlen (@nil Z)) with 0. lia.
Qed.

Lemma exec_bop_refines o b st : buffer_rel b st -> refines_op o b st.
Proof.
  intros Hrel. destruct o; try (by eapply refines_write; eauto); try (by eapply refines_write_one; eauto);
    try (by eapply refines_read; eauto); try (by eapply refines_Unread; eauto);
    [by apply refines_ReadByte|by apply refines_ReadRune|by apply refines_ReadBytes|..|by apply refines_ReadFrom|by apply refines_WriteTo];
    destruct Hrel as (pre & Hh & Hu & Hb); intros res st' Hspec Hmax; destruct st as [rest u]; cbn [fst snd spec_bop exec_bop added] in *.
  - case_decide as Hn; [|done]. simplify_eq. destruct (Truncate_spec n b pre rest Hh Hn) as (b' & pre' & -> & Hh' & Hl & Hp & Hlen).
    cbn [mbind outcome_bind]. go_ret. split; [done|]. split; [|lia]. exists pre'. split_and!; [done|done|]. cbn [fst].
    apply Forall_app in Hb as [Hpre Hrest]. apply Forall_app. split; [destruct Hp as [->| ->]; done|by apply Forall_take].
  - simplify_eq. go_ret. pose proof (holds_nonneg _ _ _ Hh). unfold Len. split; [f_equal; lia|]. split; [by exists pre|lia].
  - simplify_eq. change (slice (arr b) (off b) (len b)) with (Bytes b). cbn [Buffer_String]. change (slice (arr b) (off b) (len b)) with (Bytes b).
    rewrite (Bytes_spec b pre rest Hh). cbn [mbind outcome_bind]. go_ret. split; [done|]. split; [by exists pre|lia].
Qed.

(** Sequences of operations. *)
Fixpoint exec_bops (os : list bop) (b : Buffer) : outcome (list bres * Buffer) :=
  match os with
  | [] => Done ([], b)
  | o :: os => '(r, b) ← exec_bop o b; '(rs, b) ← exec_bops os b; Done (r :: rs, b)
  end.

Fixpoint spec_bops (os : list bop) (st : list Z * undo) : option (list bres * (list Z * undo)) :=
  match os with
  | [] => Some ([], st)
  | o :: os => '(r, st) ← spec_bop o st; '(rs, st) ← spec_bops os st; Some (r :: rs, st)
  end.

Definition total_added (os : list bop) : Z := foldr (fun o n => added o + n) 0 os.

Lemma added_nonneg o : 0 <= added o.
Proof. destruct o; cbn; try lia; apply zlen_nonneg. Qed.

Lemma total_added_nonneg os : 0 <= total_added os.
Proof. induction os as [|o os IH]; cbn [total_added foldr]; [done|]. pose proof (added_nonneg o). fold (total_added os). lia. Qed.

Lemma exec_bops_refines os : forall b st rs st', buffer_rel b st -> spec_bops os st = Some (rs, st') -> len b + total_added os <= 2 ^ 29 ->
  returns (exec_bops os b) (fun '(rs', b') => rs' = rs /\ buffer_rel b' st').
Proof.
  induction os as [|o os IH]; intros b st rs st' Hrel Hs Hmax; cbn [exec_bops spec_bops total_added foldr] in *; [simplify_eq; by go_ret|].
  fold (total_added os) in Hmax. pose proof (total_added_nonneg os). pose proof (added_nonneg o).
  apply bind_Some in Hs as ([r st1] & Hs1 & Hs). apply bind_Some in Hs as ([rs1 st2] & Hs2 & Hs). simplify_eq.
  go_call (exec_bop_refines o b st Hrel r st1 Hs1); [lia|]. intros [r' b1] (-> & Hrel1 & Hl). 
  go_call (IH b1 st1 rs1 st' Hrel1 Hs2); [lia|]. intros [rs' b2] [-> Hrel2]. by go_ret.
Qed.


(** * Properties *)



(** Copying to and from a Buffer: Copy with its methods ReadFrom and WriteTo, and
    Copyn with ReadFrom on a LimitedReader, keep the contract of Copy and Copyn for
    any reader and any writer. *)
Theorem Buffer_copy_correct {R W} `{HR : Reader R} {HL : ReaderLaws R} `{HW : Writer W} {HLW : WriterLaws W}
    fuel b (r : R) (w : W) n :
  buffer_ok b -> reader_inv r -> len b + zlen (stream r) <= 2 ^ 29 -> (calls r < fuel)%nat -> - 2 ^ 63 <= n < 2 ^ 63 ->
  (n = zlen (stream r) -> ending r = EOF) -> writer_room w (contents b) ->
  returns (Copy fuel (Some (ReadFrom fuel)) None b r) (fun '(k, e, b', r') => copied b r k e b' r') /\
  returns (Copy fuel None (Some WriteTo) w b) (fun '(k, e, w', b') => copied w b k e w' b') /\
  returns (Copyn fuel (Some (ReadFrom fuel)) b r n) (fun '(k, e, b', r') => copied_n b r n k e b' r').
Proof.
  intros Hb Hr Hmax Hf Hn Heof Hroom. split_and!.
  - destruct Hb as (pre & rest & Hh). go_mono (ReadFrom_spec fuel b r pre rest); [done..|]. by intros [[[k e] b'] r'] [? _].
  - go_mono (WriteTo_spec b w); [done|done|destruct Hb as (? & ? & Hh); apply Hh|]. by intros [[[k e] w'] b'] [? _].
  - destruct Hb as (pre & rest & Hh). apply Copyn_ReadFrom_spec. go_mono (ReadFrom_spec fuel b (LimitReader r n) pre rest);
      [done|done| |done|by intros [[[k e] b'] r'] [? _]].
    unfold stream. cbn [LimitedReader_laws]. unfold limited_stream. cbn [N limited LimitReader]. rewrite zlen_take. pose proof (zlen_nonneg (stream r)). lia.
Qed.

(** Where the Unread operations depart from their comments.  UnreadRune after a
    byte that is no rune may put back more than that byte: here the three bytes of
    a euro sign of which the first two were read by Next.  ReadBytes does not
    count as a read operation: UnreadByte after it fails, and UnreadRune after it
    succeeds if a ReadRune came before. *)
Theorem Buffer_unread_departs :
  (exists b, exec_bops [Next_op 2; ReadRune_op; UnreadRune_op; String_op] (NewBufferString [0xE2; 0x82; 0xAC]) =
    Done ([ResBytes [0xE2; 0x82] None; ResRune RuneError 1 None; ResErr None; ResBytes [0xE2; 0x82; 0xAC] None], b)) /\
  (exists b, exec_bops [ReadBytes_op 10; UnreadByte_op] (NewBufferString (lit "ab")) =
    Done ([ResBytes (lit "ab") (Some EOF); ResErr (Some (NewError (lit "bytes.Buffer: UnreadByte: previous operation was not a read")))], b)) /\
  (exists b, exec_bops [ReadRune_op; ReadBytes_op 98; UnreadRune_op; String_op] (NewBufferString (lit "abc")) =
    Done ([ResRune 97 1 None; ResBytes (lit "b") None; ResErr None; ResBytes (lit "bc") None], b)).
Proof. split_and!; eexists; vm_compute; reflexivity. Qed.

(** ** Executions of package io over buffers *)

Lemma ReadAtLeast_correct_witness :
  ReadAtLeast 6 (NewBufferString (lit "abc")) [0; 0] 2 = Done (lit "ab", 2, None, set_last opRead (set_off 2 (NewBufferString (lit "abc")))) /\
  stream (set_last opRead (set_off 2 (NewBufferString (lit "abc")))) = lit "c".
Proof.
  destruct (ReadAtLeast_correct 6 (NewBufferString (lit "abc")) [0; 0] 2) as [_ H]; [by apply NewBufferString_ok|reflexivity|vm_compute; lia|].
  destruct (H ltac:(vm_compute; discriminate)) as ([[[buf n] e] b] & E & _ & _ & _ & Hs & _). vm_compute in E. injection E as <- <- <- <-.
  split; [vm_compute; reflexivity|]. apply (app_inv_head (lit "ab")). exact (eq_sym Hs).
Defined.

Lemma Copy_correct_witness : exists src' dst', Copy 6 None None zero_Buffer (NewBufferString (lit "abc")) = Done (3, None, dst', src') /\ contents dst' = lit "abc".
Proof.
  destruct (Copy_correct 6 zero_Buffer (NewBufferString (lit "abc")) 2) as [H _]; [by apply NewBufferString_ok| |reflexivity|reflexivity|vm_compute; lia|].
  { split; [|by vm_compute]. destruct zero_Buffer_rel as (pre & Hh & _). by eexists _, _. }
  destruct H as ([[[k e] dst'] src'] & E & _ & _ & Hw & _ & Hrel). destruct (Hrel I) as (-> & -> & _).
  exists src', dst'. split; [exact E|]. etransitivity; [exact Hw|]. vm_compute. reflexivity.
Defined.

Lemma Buffer_copy_correct_witness : exists b r, Copyn 6 (Some (ReadFrom 6)) zero_Buffer (NewBufferString (lit "abc")) 2 = Done (2, None, b, r) /\ contents b = lit "ab".
Proof.
  assert (H0 : buffer_ok zero_Buffer) by (destruct zero_Buffer_rel as (pre & Hh & _); by eexists _, _).
  destruct (Buffer_copy_correct (W := Buffer) 6 zero_Buffer (NewBufferString (lit "abc")) zero_Buffer 2) as (_ & _ & H);
    [done|by apply NewBufferString_ok|by vm_compute|vm_compute; lia|lia|done|by split|].
  destruct H as ([[[k e] b] r] & E & _ & _ & Hw & Hn & Hrel). destruct (Hrel I) as (-> & _ & [->|[-> Hlt]]); [|exfalso; by apply Hlt].
  exists b, r. split; [exact E|]. etransitivity; [exact Hw|]. vm_compute. reflexivity.
Defined.
