(* ===== verification/Utf16.v ===== *)
(** Package utf16 (src/go/src/pkg/utf16/utf16.go): code points as ints, units as
    16-bit numbers. *)

From S2P Require Import Prelude Utf8.

(** * Code *)

Definition surr1 : Z := 0xd800.
Definition surr2 : Z := 0xdc00.
Definition surr3 : Z := 0xe000.
Definition surrSelf : Z := 0x10000.

Definition IsSurrogate (rune : Z) : bool := (surr1 <=? rune) && (rune <? surr3).

Definition DecodeRune (r1 r2 : Z) : Z :=
  if (surr1 <=? r1) && (r1 <? surr2) && (surr2 <=? r2) && (r2 <? surr3)
  then Z.lor (Z.shiftl (r1 - surr1) 10) (r2 - surr2) + 0x10000
  else RuneError.

Definition EncodeRune (rune : Z) : Z * Z :=
  if (rune <? surrSelf) || (MaxRune <? rune) || IsSurrogate rune then (RuneError, RuneError) else
  let rune := rune - surrSelf in
  (surr1 + Z.land (Z.shiftr rune 10) 0x3ff, surr2 + Z.land rune 0x3ff).

(** The first loop of Encode: the size of the result. *)
Fixpoint encoded_len (s : list Z) : Z :=
  match s with [] => 0 | v :: s => (if surrSelf <=? v then 2 else 1) + encoded_len s end.

(** One iteration of the second loop. *)
Definition encode_step (a : list Z) (n v : Z) : outcome (list Z * Z) :=
  let bad := (v <? 0) || ((surr1 <=? v) && (v <? surr3)) || (MaxRune <? v) in
  if bad || (v <? surrSelf) then
    let v := if bad then RuneError else v in
    a ← set_idx a n (wrap 16 v); Done (a, n + 1)
  else
    let '(r1, r2) := EncodeRune v in
    a ← set_idx a n (wrap 16 r1);
    a ← set_idx a (n + 1) (wrap 16 r2);
    Done (a, n + 2).

Fixpoint encode_loop (s a : list Z) (n : Z) : outcome (list Z * Z) :=
  match s with
  | [] => Done (a, n)
  | v :: s => '(a, n) ← encode_step a n v; encode_loop s a n
  end.

Definition Encode (s : list Z) : outcome (list Z) :=
  '(a, n) ← encode_loop s (replicate (Z.to_nat (encoded_len s)) 0) 0;
  slice a 0 n.

(** One iteration of Decode's loop: the rune, and how far [i] moves. *)
Definition decode_step (s : list Z) (i r : Z) : Z * Z :=
  let pair := match s.[i + 1] with Some r2 => (surr2 <=? r2) && (r2 <? surr3) | None => false end in
  if (surr1 <=? r) && (r <? surr2) && pair then (DecodeRune r (default 0 s.[i + 1]), 2)
  else if (surr1 <=? r) && (r <? surr3) then (RuneError, 1)
  else (r, 1).

Definition Decode (s : list Z) : outcome (list Z) :=
  '(a, n) ← loop (S (length s)) (fun '(a, n, i) =>
    if negb (i <? zlen s) then Done (inr (a, n)) else
    r ← idx s i;
    let '(v, d) := decode_step s i r in
    a ← set_idx a n v;
    Done (inl (a, n + 1, i + d))) (replicate (length s) 0, 0, 0);
  slice a 0 n.

(** * Correctness *)

(** The code point a rune is encoded as, and its encoding. *)
Definition valid16 (v : Z) : Z := if (v <? 0) || ((surr1 <=? v) && (v <? surr3)) || (MaxRune <? v) then RuneError else v.
Definition enc16 (v : Z) : list Z :=
  if valid16 v <? surrSelf then [valid16 v] else [surr1 + (v - surrSelf) / 1024; surr2 + (v - surrSelf) mod 1024].

Ltac surr := unfold surr1, surr2, surr3, surrSelf, MaxRune, RuneError in *.

Lemma valid16_range v : 0 <= valid16 v <= MaxRune /\ ~ surr1 <= valid16 v < surr3.
Proof. unfold valid16. surr. case_bool; bool_to_prop; lia. Qed.

Lemma EncodeRune_pair v : surrSelf <= v <= MaxRune -> EncodeRune v = (surr1 + (v - surrSelf) / 1024, surr2 + (v - surrSelf) mod 1024).
Proof.
  intros Hv. unfold EncodeRune, IsSurrogate. surr. rewrite (proj2 (Z.ltb_ge v _)), (proj2 (Z.ltb_ge _ v)), (proj2 (Z.ltb_ge v 57344)) by lia.
  rewrite andb_false_r. cbn [orb]. change 0x3ff with (Z.ones 10). rewrite !Z.land_ones, Z.shiftr_div_pow2 by lia. change (2 ^ 10) with 1024. f_equal. zlia.
Qed.

Lemma encode_step_spec out rest v : (if surrSelf <=? v then 2 else 1) <= zlen rest ->
  exists rest', encode_step (out ++ rest) (zlen out) v = Done (out ++ enc16 v ++ rest', zlen (out ++ enc16 v)) /\
    zlen rest' + (if surrSelf <=? v then 2 else 1) >= zlen rest.
Proof.
  intros Hr. unfold encode_step, enc16. pose proof (valid16_range v) as [Hv Hs]. fold (valid16 v). unfold valid16 in *.
  destruct ((v <? 0) || ((surr1 <=? v) && (v <? surr3)) || (MaxRune <? v)) eqn:Eb; cbn [orb].
  - destruct rest as [|x rest]; [rewrite zlen_nil in Hr; destruct (surrSelf <=? v); lia|]. rewrite (proj2 (Z.ltb_lt RuneError surrSelf)) by done.
    rewrite set_idx_at. cbn [mbind outcome_bind]. exists rest. split; [|rewrite zlen_cons; destruct (surrSelf <=? v); lia].
    rewrite wrap_small by (surr; lia). cbn [app]. do 2 f_equal. rewrite zlen_app, zlen_cons, zlen_nil. lia.
  - bool_to_prop. destruct (v <? surrSelf) eqn:E.
    + bool_to_prop. destruct rest as [|x rest]; [rewrite zlen_nil in Hr; destruct (surrSelf <=? v); lia|]. rewrite set_idx_at. cbn [mbind outcome_bind].
      exists rest. split; [|rewrite zlen_cons; destruct (surrSelf <=? v); lia]. rewrite wrap_small by (surr; lia). cbn [app]. do 2 f_equal.
      rewrite zlen_app, zlen_cons, zlen_nil. lia.
    + bool_to_prop. rewrite EncodeRune_pair by lia. rewrite (proj2 (Z.leb_le surrSelf v)) in * by lia.
      destruct rest as [|x [|y rest]]; [rewrite zlen_nil in Hr; lia|rewrite zlen_cons, zlen_nil in Hr; lia|]. rewrite set_idx_at. cbn [mbind outcome_bind].
      rewrite !wrap_small by (surr; zlia). set (a := surr1 + _). set (b := surr2 + _).
      replace (zlen out + 1) with (zlen (out ++ [a])) by (rewrite zlen_app, zlen_cons, zlen_nil; lia). rewrite (snoc_app out a), set_idx_at. cbn [mbind outcome_bind].
      exists rest. split; [|rewrite !zlen_cons; lia]. rewrite <- app_assoc. cbn [app]. do 2 f_equal. rewrite zlen_app, !zlen_cons, zlen_nil. lia.
Qed.

Lemma encode_loop_spec s : forall out rest, encoded_len s <= zlen rest ->
  exists rest', encode_loop s (out ++ rest) (zlen out) = Done (out ++ concat (enc16 <$> s) ++ rest', zlen (out ++ concat (enc16 <$> s))).
Proof.
  induction s as [|v s IH]; intros out rest Hr; cbn [encode_loop encoded_len] in *.
  - exists rest. cbn. by rewrite app_nil_r.
  - assert (0 <= encoded_len s) by (clear; induction s as [|v s IH]; cbn; [lia|case_bool; lia]).
    destruct (encode_step_spec out rest v) as (rest1 & -> & Hl); [lia|]. cbn [mbind outcome_bind]. rewrite app_assoc.
    destruct (IH (out ++ enc16 v) rest1) as (rest' & ->); [lia|]. exists rest'. rewrite fmap_cons. cbn [concat]. by rewrite <- !app_assoc.
Qed.

Lemma Encode_spec s : Encode s = Done (concat (enc16 <$> s)).
Proof.
  unfold Encode. assert (0 <= encoded_len s) by (induction s as [|v s IH]; cbn; [lia|case_bool; lia]).
  destruct (encode_loop_spec s [] (replicate (Z.to_nat (encoded_len s)) 0)) as (rest & E); [rewrite zlen_replicate; lia|].
  cbn [app] in E. change (zlen (@nil Z)) with 0 in E. rewrite E. cbn [mbind outcome_bind]. apply slice_prefix.
Qed.

(** Decoding, as a function on the units. *)
Definition unit_rune (r : Z) : Z := if (surr1 <=? r) && (r <? surr3) then RuneError else r.
Fixpoint dec16 (s : list Z) : list Z :=
  match s with
  | [] => []
  | r :: s1 =>
      match s1 with
      | r2 :: s2 =>
          if (surr1 <=? r) && (r <? surr2) && ((surr2 <=? r2) && (r2 <? surr3)) then DecodeRune r r2 :: dec16 s2 else unit_rune r :: dec16 s1
      | [] => [unit_rune r]
      end
  end.

Lemma dec16_cons s r s1 : forall pre, s = pre ++ r :: s1 ->
  exists v d, decode_step s (zlen pre) r = (v, d) /\ (d = 1 \/ d = 2) /\ d <= 1 + zlen s1 /\ dec16 (r :: s1) = v :: dec16 (drop (Z.to_nat (d - 1)) s1).
Proof.
  intros pre ->. unfold decode_step. pose proof (zlen_nonneg pre).
  assert ((pre ++ r :: s1).[zlen pre + 1] = s1.[0]) as ->.
  { rewrite (snoc_app pre r). replace (zlen pre + 1) with (zlen (pre ++ [r])) by (rewrite zlen_app, zlen_cons, zlen_nil; lia).
    rewrite zlookup_app, Z.sub_diag. by rewrite (proj2 (Z.ltb_ge _ _)) by lia. }
  destruct s1 as [|r2 s2].
  - change ([].[0]) with (@None Z). rewrite andb_false_r. cbn [dec16]. unfold unit_rune. rewrite zlen_nil.
    case_bool; (eexists _, _; split; [reflexivity|]; split; [by left|]; split; [lia|done]).
  - change ((r2 :: s2).[0]) with (Some r2). cbn [default from_option id]. rewrite zlen_cons. pose proof (zlen_nonneg s2). cbn [dec16].
    destruct ((surr1 <=? r) && (r <? surr2) && ((surr2 <=? r2) && (r2 <? surr3))); [eexists _, _; split; [reflexivity|]; split; [by right|]; split; [lia|done]|].
    unfold unit_rune. case_bool; (eexists _, _; split; [reflexivity|]; split; [by left|]; split; [lia|done]).
Qed.

(** The loop of Decode, from unit [zlen pre] on. *)
Lemma Decode_loop s fuel : forall pre rest out spare, s = pre ++ rest -> (length rest < fuel)%nat -> zlen rest <= zlen spare ->
  exists spare', loop fuel (fun '(a, n, i) =>
    if negb (i <? zlen s) then Done (inr (a, n)) else
    r ← idx s i;
    let '(v, d) := decode_step s i r in
    a ← set_idx a n v;
    Done (inl (a, n + 1, i + d))) (out ++ spare, zlen out, zlen pre) = Done (out ++ dec16 rest ++ spare', zlen (out ++ dec16 rest)).
Proof.
  induction fuel as [|fuel IH]; intros pre rest out spare E Hf Hsp; [lia|]. cbn [loop]. destruct rest as [|r s1].
  - rewrite app_nil_r in E. subst pre. rewrite Z.ltb_irrefl. cbn. exists spare. by rewrite app_nil_r.
  - rewrite zlen_cons in Hsp. pose proof (zlen_nonneg s1). rewrite (proj2 (Z.ltb_lt _ _)) by (rewrite E, zlen_app, zlen_cons; lia). cbn [negb].
    rewrite (idx_done _ _ r) by (rewrite E; apply zlookup_at). cbn [mbind outcome_bind].
    destruct (dec16_cons s r s1 pre E) as (v & d & -> & Hd & Hd1 & ->). destruct spare as [|x spare]; [rewrite zlen_nil in Hsp; lia|].
    rewrite set_idx_at. cbn [mbind outcome_bind]. rewrite zlen_cons in Hsp.
    set (taken := take (Z.to_nat (d - 1)) s1). set (left := drop (Z.to_nat (d - 1)) s1).
    assert (Es1 : s1 = taken ++ left) by (unfold taken, left; by rewrite take_drop).
    assert (Ht : zlen taken = d - 1) by (unfold taken; rewrite zlen_take; lia).
    assert (Hll : zlen left = zlen s1 - (d - 1)) by (unfold left; rewrite zlen_drop; lia).
    replace (zlen pre + d) with (zlen (pre ++ r :: taken)) by (rewrite zlen_app, zlen_cons; lia).
    replace (zlen out + 1) with (zlen (out ++ [v])) by (rewrite zlen_app, zlen_cons, zlen_nil; lia). rewrite (snoc_app out v).
    destruct (IH (pre ++ r :: taken) left (out ++ [v]) spare) as (spare' & ->).
    + rewrite E, Es1 at 1. by rewrite <- app_assoc.
    + cbn in Hf. unfold zlen in *. lia.
    + lia.
    + exists spare'. by rewrite <- !app_assoc.
Qed.

Lemma Decode_spec s : Decode s = Done (dec16 s).
Proof.
  unfold Decode. destruct (Decode_loop s (S (length s)) [] s [] (replicate (length s) 0)) as (spare & E); [done|lia|by rewrite zlen_replicate|].
  cbn [app] in E. change (zlen (@nil Z)) with 0 in E. rewrite E. cbn [mbind outcome_bind]. apply slice_prefix.
Qed.

(** Decoding an encoded rune. *)
Lemma dec16_enc v s : dec16 (enc16 v ++ s) = valid16 v :: dec16 s.
Proof.
  pose proof (valid16_range v) as [Hv Hs]. unfold enc16. destruct (valid16 v <? surrSelf) eqn:E; bool_to_prop.
  - assert ((surr1 <=? valid16 v) && (valid16 v <? surr3) = false /\ (surr1 <=? valid16 v) && (valid16 v <? surr2) = false) as [H1 H2].
    { split; apply andb_false_iff; rewrite Z.leb_gt, Z.ltb_ge; surr; lia. }
    cbn [app dec16]. unfold unit_rune. rewrite H1, H2. cbn [andb]. by destruct s.
  - assert (valid16 v = v) as Ev by (unfold valid16 in *; surr; destruct ((v <? 0) || _ || _); lia). rewrite Ev in *. cbn [app dec16].
    rewrite !(proj2 (Z.leb_le _ _)), !(proj2 (Z.ltb_lt _ _)) by (surr; zlia). cbn [andb]. f_equal. unfold DecodeRune.
    rewrite !(proj2 (Z.leb_le _ _)), !(proj2 (Z.ltb_lt _ _)) by (surr; zlia). cbn [andb]. rewrite Z.shiftl_mul_pow2, lor_add by (surr; zlia). surr. change (2 ^ 10) with 1024. zlia.
Qed.

(** UTF-16 round trip: Encode never fails, and Decode of its result gives the
    code points back, with U+FFFD in place of surrogates and of ints that are no
    code points. *)
Theorem Utf16_roundtrip s : exists u, Encode s = Done u /\ Decode u = Done (valid16 <$> s).
Proof.
  rewrite Encode_spec. eexists. split; [done|]. rewrite Decode_spec. f_equal. induction s as [|v s IH]; [done|].
  rewrite !fmap_cons. cbn [concat]. by rewrite dec16_enc, IH.
Qed.
