(* ===== verification/Strconv.v ===== *)
(** Package strconv, the conversions of integers and booleans to and from text
    (src/go/src/pkg/strconv/atoi.go, itoa.go, atob.go).

    A string is the list of its bytes.  An [os.Error] that the package returns is
    a [NumError], with the string and one of the errors the package uses.  The
    parsers are compared with one reference definition, [parse], which takes the
    mathematical value of the leading digits and clamps it to the result type. *)

From S2P Require Import Prelude.

(** * itoa.go *)

Definition digits36 : list Z := lit "0123456789abcdefghijklmnopqrstuvwxyz".

Definition Uitob64 (u base : Z) : outcome (list Z) :=
  if (base <? 2) || (36 <? base) then Panic else
  if u =? 0 then Done (lit "0") else
  '(buf, j) ← loop 65 (fun '(buf, j, u) =>
    if 0 <? u then
      c ← idx digits36 (u mod base);
      buf ← set_idx buf (j - 1) c;
      Done (inl (buf, j - 1, u / base))
    else Done (inr (buf, j))) (replicate 64 0, 64, u);
  slice buf j 64.

Definition Itob64 (i base : Z) : outcome (list Z) :=
  if i =? 0 then Done (lit "0") else
  if i <? 0 then s ← Uitob64 (uint64 (- uint64 i)) base; Done (lit "-" ++ s)
  else Uitob64 (uint64 i) base.

Definition Itoa64 (i : Z) : outcome (list Z) := Itob64 i 10.
Definition Uitoa64 (i : Z) : outcome (list Z) := Uitob64 i 10.
Definition Uitob (i base : Z) : outcome (list Z) := Uitob64 (uint64 i) base.
Definition Itob (i base : Z) : outcome (list Z) := Itob64 (int64 i) base.
Definition Itoa (i : Z) : outcome (list Z) := Itob64 (int64 i) 10.
Definition Uitoa (i : Z) : outcome (list Z) := Uitob64 (uint64 i) 10.

(** * atoi.go *)

(** The errors of package os that the package uses. *)
Inductive os_error := EINVAL | ERANGE | NewError (msg : list Z).

Record NumError := MkNumError { Num : list Z; Error : os_error }.

Definition computeIntsize : outcome Z :=
  loop 8 (fun siz =>
    if negb (int (Z.shiftl 1 siz) =? 0) then Done (inl (uint (siz * 2))) else Done (inr siz)) 8.

Definition IntSize : outcome Z := computeIntsize.

Definition cutoff64 (base : Z) : Z :=
  if base <? 2 then 0 else uint64 (Z.quot (2 ^ 64 - 1) (uint64 base) + 1).

(** The value of a digit; [None] where the code returns EINVAL. *)
Definition digit_value (d : Z) : option Z :=
  if (48 <=? d) && (d <=? 57) then Some (byte (d - 48))
  else if (97 <=? d) && (d <=? 122) then Some (byte (d - 97 + 10))
  else if (65 <=? d) && (d <=? 90) then Some (byte (d - 65 + 10))
  else None.

(** The results of the parsers. *)
Definition num_result : Type := Z * option NumError.

(** The body of Btoui64's loop. *)
Definition Btoui64_step (s0 s : list Z) (b cutoff : Z) : Z * Z -> outcome (Z * Z + num_result) := fun '(n, i) =>
  if i <? zlen s then
    d ← idx s i;
    match digit_value d with
    | None => Done (inr (0, Some (MkNumError s0 EINVAL)))
    | Some v =>
        if b <=? v then Done (inr (0, Some (MkNumError s0 EINVAL))) else
        if cutoff <=? n then Done (inr (2 ^ 64 - 1, Some (MkNumError s0 ERANGE))) else
        let n := uint64 (n * uint64 b) in
        let n1 := uint64 (n + uint64 v) in
        if n1 <? n then Done (inr (2 ^ 64 - 1, Some (MkNumError s0 ERANGE)))
        else Done (inl (n1, i + 1))
    end
  else Done (inr (n, None)).

(** From [n = 0] to the end of Btoui64, with the base and the digits settled. *)
Definition Btoui64_digits (s0 s : list Z) (b : Z) : outcome num_result :=
  loop (S (length s)) (Btoui64_step s0 s b (cutoff64 b)) (0, 0).

(** [s[0] == '0' && len(s) > 1 && (s[1] == 'x' || s[1] == 'X')]. *)
Definition hex_prefix (s : list Z) : outcome bool :=
  c0 ← idx s 0;
  if (c0 =? 48) && (1 <? zlen s) then c1 ← idx s 1; Done ((c1 =? 120) || (c1 =? 88))
  else Done false.

Definition Btoui64 (s : list Z) (b : Z) : outcome num_result :=
  if zlen s <? 1 then Done (0, Some (MkNumError s EINVAL)) else
  if (2 <=? b) && (b <=? 36) then Btoui64_digits s s b else
  if b =? 0 then
    hex ← hex_prefix s;
    c0 ← idx s 0;
    if hex : bool then
      t ← slice s 2 (zlen s);
      if zlen t <? 1 then Done (0, Some (MkNumError s EINVAL)) else Btoui64_digits s t 16
    else if c0 =? 48 then Btoui64_digits s s 8
    else Btoui64_digits s s 10
  else
    m ← Itoa b;
    Done (0, Some (MkNumError s (NewError (lit "invalid base " ++ m)))).

Definition Atoui64 (s : list Z) : outcome num_result := Btoui64 s 10.

(** [err != nil && err.( *NumError).Error != os.ERANGE]. *)
Definition not_range (err : option NumError) : bool :=
  match err with Some e => match Error e with ERANGE => false | _ => true end | None => false end.

(** [err.( *NumError).Num = s0]. *)
Definition set_Num (s0 : list Z) (err : option NumError) : option NumError :=
  (fun e => MkNumError s0 (Error e)) <$> err.

Definition Btoi64 (s : list Z) (base : Z) : outcome num_result :=
  if zlen s =? 0 then Done (0, Some (MkNumError s EINVAL)) else
  c ← idx s 0;
  '(neg, t) ← (if c =? 43 then t ← slice s 1 (zlen s); Done (false, t)
               else if c =? 45 then t ← slice s 1 (zlen s); Done (true, t)
               else Done (false, s));
  '(un, err) ← Btoui64 t base;
  if not_range err then Done (0, set_Num s err) else
  if negb neg && (2 ^ 63 <=? un) then Done (2 ^ 63 - 1, Some (MkNumError s ERANGE)) else
  if neg && (2 ^ 63 <? un) then Done (- 2 ^ 63, Some (MkNumError s ERANGE)) else
  let n := int64 un in
  Done (if neg : bool then int64 (- n) else n, None).

Definition Atoi64 (s : list Z) : outcome num_result := Btoi64 s 10.

Definition Atoui (s : list Z) : outcome num_result :=
  '(i1, e1) ← Atoui64 s;
  if not_range e1 then Done (0, e1) else
  let i := uint i1 in
  if negb (uint64 i =? i1) then Done (2 ^ 32 - 1, Some (MkNumError s ERANGE)) else
  Done (i, None).

Definition Atoi (s : list Z) : outcome num_result :=
  '(i1, e1) ← Atoi64 s;
  if not_range e1 then Done (0, e1) else
  let i := int i1 in
  if negb (int64 i =? i1) then
    size ← IntSize;
    if i1 <? 0 then Done (int (Z.shiftl (-1) (size - 1)), Some (MkNumError s ERANGE))
    else Done (int (int (Z.shiftl 1 (size - 1)) - 1), Some (MkNumError s ERANGE))
  else Done (i, None).

(** * atob.go *)

Definition Atob (str : list Z) : bool * option NumError :=
  if decide (str ∈ [lit "1"; lit "t"; lit "T"; lit "true"; lit "TRUE"; lit "True"]) then (true, None)
  else if decide (str ∈ [lit "0"; lit "f"; lit "F"; lit "false"; lit "FALSE"; lit "False"]) then (false, None)
  else (false, Some (MkNumError str EINVAL)).

Definition Btoa (b : bool) : list Z := if b then lit "true" else lit "false".

(** * Reference *)

(** The leading digits of a string in base [b], and what follows them. *)
Fixpoint leading (b : Z) (s : list Z) : list Z * list Z :=
  match s with
  | [] => ([], [])
  | c :: t =>
      match digit_value c with
      | Some v => if v <? b then let '(ds, rest) := leading b t in (v :: ds, rest) else ([], s)
      | None => ([], s)
      end
  end.

(** The base and the digits that a string with a prefix stands for. *)
Definition radix (s : list Z) (b : Z) : Z * list Z :=
  if b =? 0 then
    if decide (take 2 s ∈ [lit "0x"; lit "0X"]) then (16, drop 2 s)
    else if decide (take 1 s = lit "0") then (8, s)
    else (10, s)
  else (b, s).

Definition clamp (lo hi v : Z) : Z := Z.max lo (Z.min hi v).

(** The number that the digits [u] of the string [s] stand for, negated if [neg],
    as a value of a type from [lo] to [hi], as the code has it: a number of 2^64 or
    more is out of range even if something that is no digit follows. *)
Definition parse (lo hi : Z) (s : list Z) (neg : bool) (u : list Z) (b : Z) : num_result :=
  let '(r, t) := radix u b in
  let '(ds, rest) := leading r t in
  let v := if neg then - digits_val r ds else digits_val r ds in
  if (2 ^ 64 <=? Z.abs v) || bool_decide (rest = [] /\ ~ lo <= v <= hi) then (clamp lo hi v, Some (MkNumError s ERANGE))
  else if bool_decide (t = [] \/ rest <> []) then (0, Some (MkNumError s EINVAL))
  else (v, None).

(** What the comments of the package promise for the same arguments: EINVAL if there
    are no digits or one of them is invalid, and else ERANGE if the value does not
    fit. *)
Definition digit_of (b c : Z) : option Z := v ← digit_value c; if v <? b then Some v else None.

Definition documented (lo hi : Z) (s : list Z) (neg : bool) (u : list Z) (b : Z) : num_result :=
  let '(r, t) := radix u b in
  match mapM (digit_of r) t with
  | None | Some [] => (0, Some (MkNumError s EINVAL))
  | Some ds =>
      let v := if neg then - digits_val r ds else digits_val r ds in
      if decide (lo <= v <= hi) then (v, None) else (clamp lo hi v, Some (MkNumError s ERANGE))
  end.

(** An invalid digit comes after digits whose value is 2^64 or more. *)
Definition late_invalid (u : list Z) (b : Z) : bool :=
  let '(r, t) := radix u b in
  let '(ds, rest) := leading r t in
  bool_decide (rest <> []) && (2 ^ 64 <=? digits_val r ds).

(** What the parsers return: what is documented, except that a late invalid digit is
    not seen and the result is out of range. *)
Definition parsed (lo hi : Z) (s : list Z) (neg : bool) (u : list Z) (b : Z) (r : outcome num_result) : Prop :=
  (late_invalid u b = false -> r = Done (documented lo hi s neg u b)) /\
  (late_invalid u b = true -> r = Done (if neg then lo else hi, Some (MkNumError s ERANGE))).

(** A sign, and what follows it. *)
Definition signed (s : list Z) : bool * list Z :=
  if decide (take 1 s = lit "+") then (false, drop 1 s)
  else if decide (take 1 s = lit "-") then (true, drop 1 s)
  else (false, s).

Definition base_ok (b : Z) : Prop := b = 0 \/ 2 <= b <= 36.

(** * Parsing *)

Lemma digit_value_range c v : digit_value c = Some v -> 0 <= v < 36.
Proof.
  unfold digit_value. repeat case_bool; intros; simplify_eq; rewrite byte_small by (unfold is_byte; lia); lia.
Qed.

Lemma leading_digits b s : Forall (fun d => 0 <= d < b) (leading b s).1.
Proof.
  induction s as [|c t IH]; cbn [leading]; [constructor|].
  destruct (digit_value c) as [v|] eqn:Hc; [|constructor]. destruct (leading b t) as [ds rest]. cbn [fst] in IH.
  destruct (Z.ltb_spec v b); [|constructor]. apply digit_value_range in Hc. constructor; [lia|done].
Qed.

Lemma cutoff64_spec b : 2 <= b <= 36 -> forall n, cutoff64 b <= n <-> 2 ^ 64 <= n * b.
Proof.
  intros Hb n. unfold cutoff64, uint64. case_bool; [lia|].
  rewrite (wrap_small 64 b) by lia. rewrite Z.quot_div_nonneg by lia.
  pose proof (Z.div_mod (2 ^ 64 - 1) b ltac:(lia)). pose proof (Z.mod_pos_bound (2 ^ 64 - 1) b ltac:(lia)).
  assert (0 <= (2 ^ 64 - 1) / b <= 2 ^ 63) by (split; [apply Z.div_pos; lia|apply Z.div_le_upper_bound; lia]).
  rewrite wrap_small by lia. nia.
Qed.

(** What the loop returns from the value [n] of the digits read so far. *)
Definition digits_result (s0 : list Z) (b n : Z) (s : list Z) : num_result :=
  let '(ds, rest) := leading b s in
  let v := n * b ^ zlen ds + digits_val b ds in
  if 2 ^ 64 <=? v then (2 ^ 64 - 1, Some (MkNumError s0 ERANGE))
  else if bool_decide (rest <> []) then (0, Some (MkNumError s0 EINVAL))
  else (v, None).

Lemma digits_result_over s0 b n c t v : 2 <= b <= 36 -> 0 <= n -> digit_value c = Some v -> v < b ->
  2 ^ 64 <= n * b + v -> digits_result s0 b n (c :: t) = (2 ^ 64 - 1, Some (MkNumError s0 ERANGE)).
Proof.
  intros Hb Hn Hc Hv Ho. unfold digits_result. cbn [leading]. rewrite Hc. rewrite (proj2 (Z.ltb_lt v b)) by done.
  pose proof (leading_digits b t) as Hd. destruct (leading b t) as [ds rest]. cbn [fst] in Hd.
  pose proof (digits_val_nonneg b ds ltac:(lia) Hd). pose proof (Z.pow_pos_nonneg b (zlen ds) ltac:(lia) (zlen_nonneg ds)).
  rewrite digits_val_cons, zlen_cons, Z.pow_add_r, Z.pow_1_r by (pose proof (zlen_nonneg ds); lia).
  rewrite (proj2 (Z.leb_le (2 ^ 64) _)); [done|]. nia.
Qed.

Lemma digits_result_step s0 b n c t v : 2 <= b <= 36 -> digit_value c = Some v -> v < b ->
  digits_result s0 b n (c :: t) = digits_result s0 b (n * b + v) t.
Proof.
  intros Hb Hc Hv. unfold digits_result. cbn [leading]. rewrite Hc. rewrite (proj2 (Z.ltb_lt v b)) by done.
  destruct (leading b t) as [ds rest].
  rewrite digits_val_cons, zlen_cons, Z.pow_add_r, Z.pow_1_r by (pose proof (zlen_nonneg ds); lia).
  replace (n * (b * b ^ zlen ds) + (v * b ^ zlen ds + digits_val b ds)) with ((n * b + v) * b ^ zlen ds + digits_val b ds) by ring.
  done.
Qed.

Lemma digits_result_stop s0 b n c t : 0 <= n < 2 ^ 64 -> (forall v, digit_value c = Some v -> b <= v) ->
  digits_result s0 b n (c :: t) = (0, Some (MkNumError s0 EINVAL)).
Proof.
  intros Hn Hc. unfold digits_result. cbn [leading].
  assert (E : match digit_value c with
    | Some v => if v <? b then let '(ds, rest) := leading b t in (v :: ds, rest) else ([], c :: t)
    | None => ([], c :: t) end = ([], c :: t)).
  { destruct (digit_value c) as [v|]; [|done]. specialize (Hc v eq_refl). case_bool; [lia|done]. }
  rewrite E. change (digits_val b []) with 0. rewrite zlen_nil, Z.pow_0_r, Z.mul_1_r, Z.add_0_r. by case_bool; [lia|].
Qed.

Lemma Btoui64_step_spec s0 b n pre c t : 2 <= b <= 36 -> 0 <= n < 2 ^ 64 ->
  Btoui64_step s0 (pre ++ c :: t) b (cutoff64 b) (n, zlen pre) =
    match digit_value c with
    | Some v => if (v <? b) && (n * b + v <? 2 ^ 64) then Done (inl (n * b + v, zlen pre + 1))
                else Done (inr (digits_result s0 b n (c :: t)))
    | None => Done (inr (digits_result s0 b n (c :: t)))
    end.
Proof.
  intros Hb Hn. unfold Btoui64_step. rewrite zlen_app, zlen_cons. case_bool; [|pose proof (zlen_nonneg t); lia].
  rewrite (idx_done _ _ _ (zlookup_at pre c t)). cbn [mbind outcome_bind].
  destruct (digit_value c) as [v|] eqn:Hc; [|by rewrite digits_result_stop by congruence].
  pose proof (digit_value_range c v Hc). pose proof (cutoff64_spec b Hb n) as Hcut.
  case_bool; [case_bool; [lia|]; by rewrite digits_result_stop by (done || (intros; simplify_eq; done))|].
  rewrite (uint64_small b), (uint64_small v) by lia.
  case_bool; [case_bool; [lia|]; by erewrite digits_result_over by first [done|lia]|].
  rewrite (uint64_small (n * b)) by lia. destruct (Z.lt_ge_cases (n * b + v) (2 ^ 64)) as [Hlt|Hge].
  - rewrite (uint64_small (n * b + v)) by lia. case_bool; [lia|]. by case_bool; [|lia].
  - assert (uint64 (n * b + v) = n * b + v - 2 ^ 64) as -> by (symmetry; apply Z.mod_unique with 1; lia).
    case_bool; [|lia]. case_bool; [lia|]. by erewrite digits_result_over by first [done|lia].
Qed.

Lemma Btoui64_loop_spec s0 b suf : 2 <= b <= 36 -> forall pre n fuel, 0 <= n < 2 ^ 64 -> (length suf < fuel)%nat ->
  loop fuel (Btoui64_step s0 (pre ++ suf) b (cutoff64 b)) (n, zlen pre) = Done (digits_result s0 b n suf).
Proof.
  intros Hb. induction suf as [|c t IH]; intros pre n [|fuel] Hn Hf; try (cbn in Hf; lia); cbn [loop].
  { rewrite app_nil_r. cbn [Btoui64_step]. case_bool; [lia|]. cbn. unfold digits_result. cbn.
    rewrite zlen_nil. case_bool; [lia|]. do 2 f_equal. lia. }
  rewrite Btoui64_step_spec by done. destruct (digit_value c) as [v|] eqn:Hc; [|done]. case_bool; [|done].
  pose proof (digit_value_range c v Hc). cbn [mbind outcome_bind]. erewrite digits_result_step by first [done|lia].
  rewrite snoc_app. replace (zlen pre + 1) with (zlen (pre ++ [c])) by (rewrite zlen_app; done).
  apply IH; [lia|]. cbn in Hf. lia.
Qed.

Lemma Btoui64_digits_spec s0 s b : 2 <= b <= 36 -> Btoui64_digits s0 s b = Done (digits_result s0 b 0 s).
Proof. intros Hb. apply (Btoui64_loop_spec s0 b s Hb []); lia. Qed.

Lemma digits_result_parse s0 r t : 2 <= r <= 36 -> t <> [] ->
  digits_result s0 r 0 t = parse 0 (2 ^ 64 - 1) s0 false t r.
Proof.
  intros Hr Ht. unfold parse, radix. case_bool; [lia|]. unfold digits_result.
  pose proof (leading_digits r t) as Hd. destruct (leading r t) as [ds rest]. cbn [fst] in Hd.
  pose proof (digits_val_nonneg r ds ltac:(lia) Hd). set (v := digits_val r ds) in *.
  replace (0 * r ^ zlen ds + v) with v by ring. rewrite Z.abs_eq by done.
  destruct (Z.leb_spec (2 ^ 64) v); cbn [orb]; [unfold clamp; do 2 f_equal; lia|].
  rewrite (bool_decide_eq_false_2 (rest = [] /\ ~ _)) by lia.
  destruct (decide (rest = [])).
  - rewrite !bool_decide_eq_false_2 by naive_solver. done.
  - rewrite !bool_decide_eq_true_2 by naive_solver. done.
Qed.

(** The digits that a prefix leaves. *)
Lemma parse_radix lo hi s neg u : parse lo hi s neg u 0 = parse lo hi s neg (radix u 0).2 (radix u 0).1.
Proof.
  unfold parse. destruct (radix u 0) as [r t] eqn:E. cbn [fst snd].
  assert (radix t r = (r, t)) as ->; [|done].
  unfold radix in *. cbn [Z.eqb] in E. repeat case_decide; by simplify_eq.
Qed.

Lemma hex_prefix_spec c s : hex_prefix (c :: s) = Done (bool_decide (take 2 (c :: s) ∈ [lit "0x"; lit "0X"])).
Proof.
  unfold hex_prefix. change (idx (c :: s) 0) with (Done c). cbn [mbind outcome_bind].
  assert (E : forall d t, bool_decide (take 2 (c :: d :: t) ∈ [lit "0x"; lit "0X"]) = (c =? 48) && ((d =? 120) || (d =? 88))).
  { intros d t. apply eq_bool_prop_intro. rewrite bool_decide_spec, Is_true_true. cbn [take].
    rewrite elem_of_cons, list_elem_of_singleton, andb_true_iff, orb_true_iff, !Z.eqb_eq.
    split; [intros [H|H]; injection H; lia|]. intros [-> [->| ->]]; [by left|by right]. }
  destruct s as [|d t].
  - rewrite zlen_cons, zlen_nil, andb_false_r. f_equal. symmetry. apply bool_decide_eq_false_2.
    rewrite elem_of_cons, list_elem_of_singleton. by intros [?|?].
  - rewrite E, !zlen_cons. change (idx (c :: d :: t) 1) with (Done d). pose proof (zlen_nonneg t).
    rewrite (proj2 (Z.ltb_lt 1 _)) by lia. rewrite andb_true_r. by destruct (c =? 48).
Qed.

Lemma parse_empty lo hi s b : lo <= 0 <= hi -> base_ok b -> parse lo hi s false [] b = (0, Some (MkNumError s EINVAL)).
Proof.
  intros Hr Hb. unfold parse, radix. replace (if b =? 0 then _ else _) with (if b =? 0 then 10 else b, @nil Z) by (by destruct (b =? 0)).
  cbn [leading]. change (digits_val _ []) with 0. cbn [Z.abs Z.leb Z.compare orb].
  by rewrite (bool_decide_eq_false_2 (_ /\ _)), bool_decide_eq_true_2 by (tauto || lia).
Qed.

Lemma Btoui64_spec s b : base_ok b -> Btoui64 s b = Done (parse 0 (2 ^ 64 - 1) s false s b).
Proof.
  intros Hb. unfold Btoui64. destruct s as [|c s]; [by rewrite parse_empty by (done || lia)|].
  pose proof (zlen_pos (c :: s) ltac:(done)). case_bool; [lia|]. case_bool.
  { rewrite Btoui64_digits_spec by lia. by rewrite digits_result_parse by (done || lia). }
  case_bool; [|exfalso; unfold base_ok in *; lia]. subst b. rewrite hex_prefix_spec. change (idx (c :: s) 0) with (Done c).
  rewrite parse_radix. unfold radix. cbn [mbind outcome_bind Z.eqb].
  destruct (decide (take 2 (c :: s) ∈ _)) as [Hin|Hin];
    [rewrite bool_decide_eq_true_2 by done|rewrite bool_decide_eq_false_2 by done]; cbn [mbind outcome_bind fst snd].
  - destruct s as [|d t]; [rewrite elem_of_cons, list_elem_of_singleton in Hin; by destruct Hin|].
    change (slice (c :: d :: t) 2 (zlen (c :: d :: t))) with (slice ([c; d] ++ t) (zlen [c; d]) (zlen ([c; d] ++ t))).
    rewrite slice_suffix. cbn [mbind outcome_bind drop]. destruct t as [|e t]; [by rewrite parse_empty by (unfold base_ok; lia)|].
    case_bool; [pose proof (zlen_pos (e :: t) ltac:(done)); lia|]. by rewrite Btoui64_digits_spec, digits_result_parse by (done || lia).
  - destruct (decide (take 1 (c :: s) = lit "0")) as [[= ->]|Hz]; cbn [fst snd].
    + by rewrite Btoui64_digits_spec, digits_result_parse by (done || lia).
    + case_bool; [by subst|]. by rewrite Btoui64_digits_spec, digits_result_parse by (done || lia).
Qed.

Lemma radix_range u b : base_ok b -> 2 <= (radix u b).1 <= 36.
Proof. intros Hb. unfold radix, base_ok in *. case_bool; [|cbn; lia]. repeat case_decide; cbn; lia. Qed.

(** The value of the digits decides what every type makes of them. *)
Lemma parse_cases u b : base_ok b -> exists (v : Z) (good : bool), 0 <= v /\
  forall lo hi s (neg : bool), - 2 ^ 64 < lo <= 0 -> 0 <= hi < 2 ^ 64 -> let w := if neg then - v else v in
  parse lo hi s neg u b =
    if decide (2 ^ 64 <= v) then (clamp lo hi w, Some (MkNumError s ERANGE))
    else if good then if decide (lo <= w <= hi) then (w, None) else (clamp lo hi w, Some (MkNumError s ERANGE))
    else (0, Some (MkNumError s EINVAL)).
Proof.
  intros Hb. pose proof (radix_range u b Hb) as Hr. unfold parse. destruct (radix u b) as [r t]. cbn [fst] in Hr.
  pose proof (leading_digits r t) as Hd. destruct (leading r t) as [ds rest] eqn:Hl. cbn [fst] in Hd.
  pose proof (digits_val_nonneg r ds ltac:(lia) Hd). exists (digits_val r ds), (bool_decide (t <> [] /\ rest = [])).
  split; [done|]. intros lo hi s neg Hlo Hhi. set (w := if neg then _ else _).
  assert (Z.abs w = digits_val r ds) as -> by (unfold w; destruct neg; lia).
  case_decide; [by rewrite (proj2 (Z.leb_le _ _)) by done|]. rewrite (proj2 (Z.leb_gt _ _)) by lia. cbn [orb].
  destruct (decide (rest = [])) as [->|Hrest].
  - destruct (decide (t = [])) as [->|Ht].
    + cbn in Hl. simplify_eq. assert (w = 0) as -> by (unfold w; by destruct neg).
      by rewrite (bool_decide_eq_false_2 (_ /\ ~ _)), !bool_decide_eq_true_2, bool_decide_eq_false_2 by (tauto || lia).
    + rewrite (bool_decide_eq_true_2 (t <> [] /\ _)) by done. case_decide.
      * by rewrite (bool_decide_eq_false_2 (_ /\ ~ _)), bool_decide_eq_false_2 by (tauto || lia).
      * by rewrite bool_decide_eq_true_2 by done.
  - rewrite (bool_decide_eq_false_2 (_ /\ ~ _)), (bool_decide_eq_false_2 (t <> [] /\ _)) by tauto.
    by rewrite bool_decide_eq_true_2 by auto.
Qed.

Lemma sign_spec s c t : s = c :: t ->
  (if c =? 43 then t ← slice s 1 (zlen s); Done (false, t)
   else if c =? 45 then t ← slice s 1 (zlen s); Done (true, t) else Done (false, s)) = Done (signed s).
Proof.
  intros ->. change (slice (c :: t) 1 (zlen (c :: t))) with (slice ([c] ++ t) (zlen [c]) (zlen ([c] ++ t))).
  rewrite slice_suffix. unfold signed. change (lit "+") with [43]. change (lit "-") with [45]. cbn [take drop mbind outcome_bind].
  destruct (Z.eqb_spec c 43), (Z.eqb_spec c 45); repeat case_decide; by simplify_eq.
Qed.

Lemma Btoi64_spec s b : base_ok b ->
  Btoi64 s b = Done (let '(neg, u) := signed s in parse (- 2 ^ 63) (2 ^ 63 - 1) s neg u b).
Proof.
  intros Hb. unfold Btoi64. destruct s as [|c t]; [change (signed []) with (false, @nil Z); cbv beta iota; by rewrite parse_empty by (done || lia)|].
  case_bool; [pose proof (zlen_pos (c :: t) ltac:(done)); lia|].
  change (idx (c :: t) 0) with (Done c). cbn [mbind outcome_bind]. rewrite (sign_spec _ c t eq_refl). cbn [mbind outcome_bind].
  destruct (signed (c :: t)) as [neg u]. rewrite Btoui64_spec by done. cbn [mbind outcome_bind].
  destruct (parse_cases u b Hb) as (v & good & Hv & Hp). rewrite !Hp by lia. cbv zeta.
  destruct (decide (2 ^ 64 <= v)); cbn [not_range Error].
  { unfold clamp. destruct neg; cbn [negb andb]; repeat case_bool; try lia; do 3 f_equal; lia. }
  destruct good; [|done]. rewrite decide_True by lia. cbn [not_range].
  destruct neg; cbn [negb andb]; case_bool; case_decide; try lia; [do 3 f_equal; unfold clamp; lia| |do 3 f_equal; unfold clamp; lia|].
  - do 2 f_equal. destruct (decide (v = 2 ^ 63)) as [->|]; [done|]. rewrite (int64_small v), int64_small by lia. done.
  - by rewrite int64_small by lia.
Qed.

Lemma int_fix x : int64 (int x) = x <-> - 2 ^ 31 <= x < 2 ^ 31.
Proof.
  assert (- 2 ^ 31 <= int x < 2 ^ 31).
  { unfold int, swrap. pose proof (Z.mod_pos_bound (x + 2 ^ (32 - 1)) (2 ^ 32)). change (2 ^ (32 - 1)) with (2 ^ 31) in *. lia. }
  rewrite int64_small by lia. split; [lia|]. apply int_small.
Qed.

Lemma uint_fix x : uint64 (uint x) = x <-> 0 <= x < 2 ^ 32.
Proof.
  pose proof (wrap_range 32 x ltac:(lia)). unfold uint. rewrite uint64_small by lia. split; [lia|]. apply wrap_small.
Qed.

Lemma Atoui_spec s : Atoui s = Done (parse 0 (2 ^ 32 - 1) s false s 10).
Proof.
  unfold Atoui, Atoui64. assert (Hb : base_ok 10) by (unfold base_ok; lia). rewrite Btoui64_spec by done. cbn [mbind outcome_bind].
  destruct (parse_cases s 10 Hb) as (v & good & Hv & Hp). rewrite !Hp by lia. cbv zeta. clear Hp.
  destruct (decide (2 ^ 64 <= v)); cbn [not_range Error].
  { unfold clamp. replace (0 `max` _) with (2 ^ 64 - 1) by lia. change (negb _) with true. do 3 f_equal. lia. }
  destruct good; [|done]. rewrite decide_True by lia. cbn [not_range]. pose proof (uint_fix v) as Hu.
  case_bool; case_decide; try lia; unfold clamp; [do 3 f_equal; lia|]. do 2 f_equal. apply wrap_small. lia.
Qed.

Lemma Atoi_spec s : Atoi s = Done (let '(neg, u) := signed s in parse (- 2 ^ 31) (2 ^ 31 - 1) s neg u 10).
Proof.
  unfold Atoi, Atoi64. assert (Hb : base_ok 10) by (unfold base_ok; lia). rewrite Btoi64_spec by done. cbn [mbind outcome_bind].
  change IntSize with (Done 32). cbn [mbind outcome_bind]. change (int (Z.shiftl (-1) (32 - 1))) with (- 2 ^ 31).
  change (int (int (Z.shiftl 1 (32 - 1)) - 1)) with (2 ^ 31 - 1).
  destruct (signed s) as [neg u]. destruct (parse_cases u 10 Hb) as (v & good & Hv & Hp). rewrite !Hp by lia. cbv zeta. clear Hp.
  destruct (decide (2 ^ 64 <= v)); cbn [not_range Error].
  { unfold clamp. destruct neg; [replace (_ `max` _) with (- 2 ^ 63) by lia|replace (_ `max` _) with (2 ^ 63 - 1) by lia];
      change (negb _) with true; cbn [Z.ltb Z.compare]; do 3 f_equal; lia. }
  destruct good; [|done]. set (w := if neg then - v else v). pose proof (int_fix w) as Hw.
  case_decide; cbn [not_range Error].
  - case_bool; [case_bool|]; case_decide; try lia; unfold clamp; [do 3 f_equal; lia|do 3 f_equal; lia|]. do 2 f_equal. apply int_small. lia.
  - unfold clamp. rewrite decide_False by lia. set (x := (- 2 ^ 63) `max` _). pose proof (int_fix x).
    case_bool; [|lia]. case_bool; do 3 f_equal; lia.
Qed.

(** * Printing *)

Definition digit_char (d : Z) : Z := if d <? 10 then 48 + d else 87 + d.

Lemma digits36_spec d : 0 <= d < 36 -> idx digits36 d = Done (digit_char d) /\ digit_value (digit_char d) = Some d.
Proof.
  intros Hd. assert (H : forallb (fun d => bool_decide (digits36.[d] = Some (digit_char d)) &&
    bool_decide (digit_value (digit_char d) = Some d)) (seqZ 0 36) = true) by (vm_compute; reflexivity).
  rewrite forallb_forall in H. specialize (H d ltac:(apply list_elem_of_In, elem_of_seqZ; lia)).
  apply andb_prop in H as [H1 H2]. apply bool_decide_eq_true in H1, H2. split; [by apply idx_done|done].
Qed.

(** The digits of a number, without leading zeros. *)
Definition numeral (b u : Z) (ds : list Z) : Prop :=
  Forall (fun d => 0 <= d < b) ds /\ digits_val b ds = u /\ ds <> [] /\ (head ds = Some 0 -> ds = [0]).

(** The buffer of Uitob64 holds the digits below those of [u]. *)
Definition printed (b U : Z) : list Z * Z * Z -> Prop := fun '(buf, j, u) =>
  0 <= u /\ exists pre ds, buf = pre ++ (digit_char <$> ds) /\ zlen pre = j /\ zlen buf = 64 /\
    Forall (fun d => 0 <= d < b) ds /\ digits_val b ds + b ^ zlen ds * u = U /\
    (u = 0 -> ds <> [] /\ head ds <> Some 0).

Lemma printed_step b U buf j u : 2 <= b <= 36 -> U < 2 ^ 64 -> printed b U (buf, j, u) -> 0 < u ->
  returns (c ← idx digits36 (u mod b); buf ← set_idx buf (j - 1) c; Done (buf, j - 1, u / b))
    (fun '(buf', j', u') => printed b U (buf', j', u') /\ 0 <= j' < j).
Proof.
  intros Hb HU (_ & pre & ds & -> & <- & Hlen & Hds & HV & _) Hu.
  pose proof (Z.mod_pos_bound u b ltac:(lia)) as Hm. pose proof (Z.div_mod u b ltac:(lia)) as Hdm.
  rewrite zlen_app in Hlen. replace (zlen (digit_char <$> ds)) with (zlen ds) in Hlen by (unfold zlen; by rewrite length_fmap).
  assert (Hne : pre <> []).
  { intros ->. rewrite zlen_nil in Hlen. replace (zlen ds) with 64 in HV by lia.
    pose proof (digits_val_nonneg b ds ltac:(lia) Hds). pose proof (Z.pow_le_mono_l 2 b 64 ltac:(lia)). nia. }
  destruct (exists_last Hne) as (pre' & x & ->). rewrite zlen_app in *. change (zlen [x]) with 1 in *.
  destruct (digits36_spec (u mod b) ltac:(lia)) as [-> _]. cbn [mbind outcome_bind].
  rewrite <- app_assoc. replace (zlen pre' + 1 - 1) with (zlen pre') by lia. cbn [app]. rewrite set_idx_at. cbn [mbind outcome_bind].
  go_ret. pose proof (zlen_nonneg pre'). split; [|lia]. split; [apply Z.div_pos; lia|].
  exists pre', (u mod b :: ds). split_and!; [done|done| | | |].
  - rewrite zlen_app, zlen_cons. replace (zlen (digit_char <$> ds)) with (zlen ds) by (unfold zlen; by rewrite length_fmap). lia.
  - by constructor.
  - rewrite digits_val_cons, zlen_cons, Z.pow_add_r, Z.pow_1_r by (pose proof (zlen_nonneg ds); lia).
    rewrite <- HV. rewrite Hdm at 3. ring.
  - intros H0. split; [done|]. cbn. intros [= H1]. rewrite H0, H1 in Hdm. lia.
Qed.

Lemma Uitob64_spec u b : 2 <= b <= 36 -> 0 <= u < 2 ^ 64 ->
  returns (Uitob64 u b) (fun s => exists ds, s = digit_char <$> ds /\ numeral b u ds).
Proof.
  intros Hb Hu. unfold Uitob64. case_bool; [lia|]. case_bool.
  { go_ret. exists [0]. split; [done|]. subst u. split_and!; [constructor; [lia|done]|done|done|done]. }
  eapply returns_bind.
  - apply (loop_returns (fun s => printed b u s /\ 0 <= s.1.2) (fun s => Z.to_nat s.1.2) (fun '(buf, j) => printed b u (buf, j, 0))); [| |cbn; lia].
    + intros [[buf j] x] [Hp Hj]. cbn [fst snd] in *. destruct (Z.ltb_spec 0 x).
      * destruct (printed_step b u buf j x Hb ltac:(lia) Hp ltac:(lia)) as ([[buf' j'] x'] & Hrun & Hp' & Hj').
        destruct (idx digits36 (x mod b)); cbn [mbind outcome_bind] in *; [|done|done].
        destruct (set_idx buf (j - 1) a); cbn [mbind outcome_bind] in *; [|done|done]. simplify_eq.
        go_ret. cbn [fst snd]. split; [split; [done|lia]|lia].
      * go_ret. assert (x = 0) as -> by (destruct Hp; lia). done.
    + cbn. split; [|lia]. split; [lia|]. exists (replicate 64 0), []. split_and!; try done; [].
      change (0 + b ^ 0 * u = u). rewrite Z.pow_0_r. lia.
  - intros [buf j] (_ & pre & ds & -> & <- & Hlen & Hds & HV & Hz). rewrite <- Hlen, slice_suffix. go_ret.
    exists ds. split; [done|]. rewrite Z.mul_0_r, Z.add_0_r in HV. destruct (Hz eq_refl) as [Hne Hhd].
    split_and!; [done|done|done|]. intros Hh0. by rewrite Hh0 in Hhd.
Qed.

Lemma leading_numeral b ds : b <= 36 -> Forall (fun d => 0 <= d < b) ds -> leading b (digit_char <$> ds) = (ds, []).
Proof.
  intros Hb. induction 1 as [|d ds Hd _ IH]; [done|]. cbn [fmap list_fmap leading]. cbn [fmap] in IH.
  rewrite (proj2 (digits36_spec d ltac:(lia))), (proj2 (Z.ltb_lt d b)) by lia. by rewrite IH.
Qed.

Lemma parse_numeral lo hi s (neg : bool) b u ds : 2 <= b <= 36 -> 0 <= u < 2 ^ 64 -> numeral b u ds ->
  let v := if neg then - u else u in lo <= v <= hi -> parse lo hi s neg (digit_char <$> ds) b = (v, None).
Proof.
  intros Hb Hu (Hds & Hv & Hne & _) v Hr. unfold parse, radix. rewrite (proj2 (Z.eqb_neq b 0)) by lia.
  rewrite leading_numeral by (done || lia). rewrite Hv. fold v.
  rewrite (proj2 (Z.leb_gt _ _)) by (unfold v; destruct neg; lia). cbn [orb].
  rewrite (bool_decide_eq_false_2 (_ /\ _)) by tauto. rewrite bool_decide_eq_false_2; [done|].
  intros [H|H]; [|done]. by apply fmap_nil_inv in H.
Qed.

Lemma signed_numeral ds : Forall (fun d => 0 <= d) ds -> signed (digit_char <$> ds) = (false, digit_char <$> ds).
Proof.
  intros Hds. unfold signed. destruct Hds as [|d ds Hd _]; [done|].
  assert (48 <= digit_char d) by (unfold digit_char; case_bool; lia). cbn. repeat case_decide; simplify_eq; lia || done.
Qed.

Lemma Itob64_spec i b : 2 <= b <= 36 -> - 2 ^ 63 <= i < 2 ^ 63 ->
  returns (Itob64 i b) (fun s => exists ds, s = (if i <? 0 then lit "-" else []) ++ (digit_char <$> ds) /\ numeral b (Z.abs i) ds).
Proof.
  intros Hb Hi. unfold Itob64. case_bool.
  { subst i. go_ret. exists [0]. split; [done|]. split_and!; [constructor; [lia|done]|done|done|done]. }
  case_bool.
  - assert (uint64 (- uint64 i) = Z.abs i) as ->.
    { assert (uint64 i = i + 2 ^ 64) as -> by (symmetry; apply Z.mod_unique with (-1); lia).
      symmetry. apply Z.mod_unique with (-1); lia. }
    go_call Uitob64_spec; [done|lia|]. intros s (ds & -> & Hd). go_ret. by exists ds.
  - rewrite uint64_small by lia. go_mono Uitob64_spec; [done|lia|]. intros s (ds & -> & Hd). exists ds. by rewrite Z.abs_eq by lia.
Qed.

(** What the signed parsers read back. *)
Lemma parse_printed lo hi b i s ds : 2 <= b <= 36 -> - 2 ^ 63 <= i < 2 ^ 63 -> lo <= i <= hi ->
  s = (if i <? 0 then lit "-" else []) ++ (digit_char <$> ds) -> numeral b (Z.abs i) ds ->
  (let '(neg, u) := signed s in parse lo hi s neg u b) = (i, None).
Proof.
  intros Hb Hi Hr Hs Hd. destruct (Z.ltb_spec i 0).
  - assert (signed s = (true, digit_char <$> ds)) as -> by (by subst s).
    rewrite (parse_numeral lo hi s true b (Z.abs i) ds) by (done || lia). f_equal. lia.
  - cbn [app] in Hs. rewrite Hs at 1. rewrite signed_numeral by (eapply Forall_impl; [|exact (proj1 Hd)]; cbn; lia).
    rewrite (parse_numeral lo hi s false b (Z.abs i) ds) by (done || lia). f_equal. lia.
Qed.

(** ** The documented results *)

Lemma leading_mapM b s : mapM (digit_of b) s = let '(ds, rest) := leading b s in if decide (rest = []) then Some ds else None.
Proof.
  induction s as [|c t IH]; [done|]. cbn [mapM leading].
  assert (Hc : digit_of b c = v ← digit_value c; if v <? b then Some v else None) by done. rewrite Hc.
  destruct (digit_value c) as [v|]; cbn [mbind option_bind]; [|by rewrite decide_False]. destruct (v <? b); [|by rewrite decide_False].
  cbn [mbind option_bind]. rewrite IH. destruct (leading b t) as [ds rest]. by destruct (decide (rest = [])).
Qed.

Lemma leading_nil b s rest : leading b s = ([], rest) -> rest = s.
Proof.
  destruct s as [|c t]; cbn [leading]; [by intros [=]|]. destruct (digit_value c) as [v|]; [|by intros [=]].
  destruct (v <? b); [|by intros [=]]. by destruct (leading b t).
Qed.

Lemma parse_parsed lo hi s neg u b : base_ok b -> - 2 ^ 64 < lo <= 0 -> 0 <= hi < 2 ^ 64 -> parsed lo hi s neg u b (Done (parse lo hi s neg u b)).
Proof.
  intros Hb Hlo Hhi. pose proof (radix_range u b Hb) as Hr. unfold parsed, late_invalid, parse, documented. destruct (radix u b) as [r t]. cbn [fst] in Hr.
  rewrite leading_mapM. pose proof (leading_digits r t) as Hd. destruct (leading r t) as [ds rest] eqn:El. cbn [fst] in Hd.
  pose proof (digits_val_nonneg r ds ltac:(lia) Hd) as Hv. set (w := if neg then _ else _).
  assert (Hw : Z.abs w = digits_val r ds) by (unfold w; destruct neg; lia). rewrite Hw. split; intros Hlate.
  - destruct (decide (rest = [])) as [->|Hrest].
    + clear Hlate. destruct ds as [|d ds].
      { apply leading_nil in El. subst t. change (digits_val r []) with 0 in *. rewrite (proj2 (Z.leb_gt _ _)) by lia.
        rewrite (bool_decide_eq_false_2 (_ /\ _)), bool_decide_eq_true_2 by (tauto || lia). done. }
      assert (t <> []) by (by intros ->; cbn in El). case_decide.
      * rewrite (proj2 (Z.leb_gt _ _)), !bool_decide_eq_false_2 by (naive_solver || lia). done.
      * rewrite (bool_decide_eq_true_2 (_ /\ _)), orb_true_r by done. done.
    + rewrite bool_decide_eq_true_2 in Hlate by done. cbn [andb] in Hlate. rewrite Hlate. cbn [orb].
      by rewrite bool_decide_eq_false_2, bool_decide_eq_true_2 by naive_solver.
  - apply andb_true_iff in Hlate as [_ Hlate]. rewrite Hlate. apply Z.leb_le in Hlate. cbn [orb]. unfold clamp. do 2 f_equal. destruct neg; lia.
Qed.

(** An invalid base is seen if there is something to parse. *)
Definition base_error (s u m : list Z) : num_result :=
  (0, Some (MkNumError s (if decide (u = []) then EINVAL else NewError (lit "invalid base " ++ m)))).

Lemma Btoui64_base s b m : ~ base_ok b -> Itoa b = Done m -> Btoui64 s b = Done (base_error s s m).
Proof.
  intros Hb Hm. unfold base_ok in Hb. unfold Btoui64, base_error. destruct (decide (s = [])) as [->|Hs]; [done|].
  pose proof (zlen_pos s Hs). do 3 (case_bool; [lia|]). by rewrite Hm.
Qed.

Lemma Btoi64_base s b m : ~ base_ok b -> Itoa b = Done m -> Btoi64 s b = Done (base_error s (signed s).2 m).
Proof.
  intros Hb Hm. unfold Btoi64. destruct s as [|c t]; [done|]. case_bool; [pose proof (zlen_pos (c :: t) ltac:(done)); lia|].
  change (idx (c :: t) 0) with (Done c). cbn [mbind outcome_bind]. rewrite (sign_spec _ c t eq_refl). cbn [mbind outcome_bind].
  destruct (signed (c :: t)) as [neg u]. rewrite (Btoui64_base u b m Hb Hm). cbn [mbind outcome_bind snd]. unfold base_error.
  by destruct (decide (u = [])).
Qed.

Lemma Itoa_returns b : - 2 ^ 31 <= b < 2 ^ 31 -> exists m, Itoa b = Done m.
Proof. intros Hb. destruct (Itob64_spec (int64 b) 10 ltac:(lia)) as (m & Hm & _); [rewrite int64_small; lia|]. by exists m. Qed.

(** * Properties *)

(** C24. The parsers return, for every string and every base from 2 to 36 or 0, what
    their comments document: EINVAL when there are no digits or one of them is
    invalid, ERANGE with the nearest value of the type when the number does not fit,
    and else the value.  The only strings on which they depart from it are those in
    which an invalid digit comes after digits worth 2^64 or more: there the result
    is ERANGE.  With any other base, Btoui64 and Btoi64 return an error that names
    the base, or EINVAL when there is nothing to parse. *)
Theorem strconv_parse_correct s b :
  (base_ok b -> parsed 0 (2 ^ 64 - 1) s false s b (Btoui64 s b) /\
    parsed (- 2 ^ 63) (2 ^ 63 - 1) s (signed s).1 (signed s).2 b (Btoi64 s b)) /\
  parsed 0 (2 ^ 32 - 1) s false s 10 (Atoui s) /\
  parsed (- 2 ^ 31) (2 ^ 31 - 1) s (signed s).1 (signed s).2 10 (Atoi s) /\
  (~ base_ok b -> - 2 ^ 31 <= b < 2 ^ 31 -> exists m, Itoa b = Done m /\
    Btoui64 s b = Done (base_error s s m) /\ Btoi64 s b = Done (base_error s (signed s).2 m)).
Proof.
  split_and!.
  - intros Hb. rewrite Btoui64_spec, Btoi64_spec by done. destruct (signed s). split; apply parse_parsed; (done || lia).
  - rewrite Atoui_spec. apply parse_parsed; (unfold base_ok; lia).
  - rewrite Atoi_spec. destruct (signed s). apply parse_parsed; (unfold base_ok; lia).
  - intros Hb Hr. destruct (Itoa_returns b Hr) as [m Hm]. exists m. split_and!; [done|by apply Btoui64_base|by apply Btoi64_base].
Qed.

Lemma strconv_parse_correct_witness :
  Btoi64 (lit "-0x7fffffffffffffff") 0 = Done (- (2 ^ 63 - 1), None) /\
  Btoui64 (lit "123x") 10 = Done (0, Some (MkNumError (lit "123x") EINVAL)) /\
  Btoui64 (lit "99999999999999999999x") 10 = Done (2 ^ 64 - 1, Some (MkNumError (lit "99999999999999999999x") ERANGE)) /\
  exists m, Itoa 1 = Done m /\ Btoi64 (lit "-7") 1 = Done (0, Some (MkNumError (lit "-7") (NewError (lit "invalid base " ++ m)))).
Proof.
  split_and!.
  - destruct (proj1 (strconv_parse_correct (lit "-0x7fffffffffffffff") 0)) as [_ [H _]]; [left; reflexivity|]. rewrite H; vm_compute; reflexivity.
  - destruct (proj1 (strconv_parse_correct (lit "123x") 10)) as [[H _] _]; [right; lia|]. rewrite H; vm_compute; reflexivity.
  - destruct (proj1 (strconv_parse_correct (lit "99999999999999999999x") 10)) as [[_ H] _]; [right; lia|]. rewrite H; vm_compute; reflexivity.
  - destruct (strconv_parse_correct (lit "-7") 1) as (_ & _ & _ & H). destruct H as (m & Hm & _ & Hb); [unfold base_ok; lia|lia|].
    exists m. split; [exact Hm|exact Hb].
Defined.

(** C27. Printing and parsing invert each other, in every base from 2 to 36: what
    Uitob64, Itob64 and Itoa print is read back by Btoui64, Btoi64 and Atoi, and
    it is the shortest numeral; other bases panic. *)
Theorem strconv_roundtrip b : 2 <= b <= 36 ->
  (forall u, 0 <= u < 2 ^ 64 -> returns (Uitob64 u b) (fun s =>
    Btoui64 s b = Done (u, None) /\ exists ds, s = digit_char <$> ds /\ numeral b u ds)) /\
  (forall i, - 2 ^ 63 <= i < 2 ^ 63 -> returns (Itob64 i b) (fun s => Btoi64 s b = Done (i, None))) /\
  (forall i, - 2 ^ 31 <= i < 2 ^ 31 -> returns (Itoa i) (fun s => Atoi s = Done (i, None))) /\
  (forall u c, ~ 2 <= c <= 36 -> Uitob64 u c = Panic).
Proof.
  intros Hb. assert (base_ok b) by (unfold base_ok; lia). split_and!.
  - intros u Hu. go_mono Uitob64_spec; [done|done|]. intros s (ds & -> & Hd). split; [|by exists ds].
    rewrite Btoui64_spec by done. by rewrite (parse_numeral _ _ _ false b u ds) by (done || lia).
  - intros i Hi. go_mono Itob64_spec; [done|done|]. intros s (ds & Hs & Hd).
    rewrite Btoi64_spec by done. f_equal. apply parse_printed with ds; (done || lia).
  - intros i Hi. unfold Itoa. rewrite int64_small by lia. go_mono Itob64_spec; [lia|lia|]. intros s (ds & Hs & Hd).
    rewrite Atoi_spec. f_equal. apply parse_printed with ds; (done || lia).
  - intros u c Hc. unfold Uitob64. by case_bool; [|lia].
Qed.

Lemma strconv_roundtrip_witness : returns (Itob64 (- 2 ^ 63) 36) (fun s => Btoi64 s 36 = Done (- 2 ^ 63, None)) /\
  Itob64 (- 2 ^ 63) 36 = Done (lit "-1y2p0ij32e8e8").
Proof. split; [exact (proj1 (proj2 (strconv_roundtrip 36 ltac:(lia))) (- 2 ^ 63) ltac:(lia))|vm_compute; reflexivity]. Defined.

Lemma Atob_Btoa b : Atob (Btoa b) = (b, None).
Proof. by destruct b. Qed.
