(* ===== verification/Bufio.v ===== *)
(** Package bufio (src/go/src/pkg/bufio/bufio.go): buffered readers, over any
    reader that keeps the contract of package io.

    A slice of the buffer that a method returns is the list of its bytes when it
    returns, which is what its comment promises to the caller.  [fuel] bounds the
    calls of the underlying reader. *)

From S2P Require Import Prelude Io Utf8 Buffer Strconv.

(** * Code *)

Definition defaultBufSize : Z := 4096.

Definition ErrInvalidUnreadByte : error := Io.NewError (lit "bufio: invalid use of UnreadByte").
Definition ErrInvalidUnreadRune : error := Io.NewError (lit "bufio: invalid use of UnreadRune").
Definition ErrBufferFull : error := Io.NewError (lit "bufio: buffer full").
Definition ErrNegativeCount : error := Io.NewError (lit "bufio: negative count").

Definition BufSizeError (n : Z) : outcome error := s ← Itoa n; Done (Io.NewError (lit "bufio: bad buffer size " ++ s)).

(** ** Reader *)

Section Reader.
Context {R : Type} `{Reader R}.

Record bReader := MkReader { rbuf : list Z; rd : R; rr : Z; rw : Z; rerr : option error; lastByte : Z; lastRuneSize : Z }.

(** NewReaderSize of a reader that is not itself a bufio.Reader. *)
Definition NewReaderSize (r : R) (size : Z) : outcome (bReader + error) :=
  if size <=? 0 then e ← BufSizeError size; Done (inr e) else
  buf ← make_bytes size;
  Done (inl (MkReader buf r 0 0 None (-1) (-1))).

Definition NewReader (r : R) : outcome bReader :=
  b ← NewReaderSize r defaultBufSize;
  match b with inl b => Done b | inr _ => Panic end.

(** Assignments to the fields. *)
Definition set_pos (r w : Z) (b : bReader) : bReader := MkReader (rbuf b) (rd b) r w (rerr b) (lastByte b) (lastRuneSize b).
Definition set_lasts (lb lr : Z) (b : bReader) : bReader := MkReader (rbuf b) (rd b) (rr b) (rw b) (rerr b) lb lr.
Definition set_rerr (e : option error) (b : bReader) : bReader := MkReader (rbuf b) (rd b) (rr b) (rw b) e (lastByte b) (lastRuneSize b).
Definition set_rbuf (p : list Z) (b : bReader) : bReader := MkReader p (rd b) (rr b) (rw b) (rerr b) (lastByte b) (lastRuneSize b).
Definition set_rd (r : R) (b : bReader) : bReader := MkReader (rbuf b) r (rr b) (rw b) (rerr b) (lastByte b) (lastRuneSize b).

(** [b.buf[b.r:b.w]]. *)
Definition pending (b : bReader) : outcome (list Z) := slice (rbuf b) (rr b) (rw b).

Definition fill (b : bReader) : outcome bReader :=
  b ← (if 0 <? rr b then
         data ← pending b;
         '(buf, _) ← copy_at (rbuf b) 0 (zlen (rbuf b)) data;
         Done (set_pos 0 (rw b - rr b) (set_rbuf buf b))
       else Done b);
  p ← slice (rbuf b) (rw b) (zlen (rbuf b));
  '(p, n, e, r) ← Read (rd b) p;
  let b := set_pos (rr b) (rw b + n) (set_rd r (set_rbuf (put_slice (rbuf b) (rw b) p) b)) in
  Done (match e with Some _ => set_rerr e b | None => b end).

Definition readErr (b : bReader) : option error * bReader := (rerr b, set_rerr None b).

(** [for !test && b.err == nil { b.fill() }]. *)
Definition fill_until (fuel : nat) (test : bReader -> outcome bool) (b : bReader) : outcome bReader :=
  loop fuel (fun b =>
    t ← test b;
    if negb t && bool_decide (rerr b = None) then b ← fill b; Done (inl b) else Done (inr b)) b.

Definition Peek (fuel : nat) (n : Z) (b : bReader) : outcome (list Z * option error * bReader) :=
  if n <? 0 then Done ([], Some ErrNegativeCount, b) else
  if zlen (rbuf b) <? n then Done ([], Some ErrBufferFull, b) else
  b ← fill_until fuel (fun b => Done (negb (rw b - rr b <? n))) b;
  let m := rw b - rr b in
  let m := if n <? m then n else m in
  let '(err, b) := readErr b in
  let err := if (m <? n) && bool_decide (err = None) then Some ErrBufferFull else err in
  p ← slice (rbuf b) (rr b) (rr b + m);
  Done (p, err, b).

(** The end of Read: copy from the buffer. *)
Definition read_buffered (b : bReader) (p : list Z) : outcome (list Z * Z * option error * bReader) :=
  let n := if rw b - rr b <? zlen p then rw b - rr b else zlen p in
  data ← slice (rbuf b) (rr b) (zlen (rbuf b));
  '(p, _) ← copy_at p 0 n data;
  let b := set_pos (rr b + n) (rw b) b in
  c ← idx (rbuf b) (rr b - 1);
  Done (p, n, None, set_lasts c (-1) b).

Definition Reader_Read (b : bReader) (p : list Z) : outcome (list Z * Z * option error * bReader) :=
  if zlen p =? 0 then let '(e, b) := readErr b in Done (p, 0, e, b) else
  if rw b =? rr b then
    match rerr b with
    | Some _ => let '(e, b) := readErr b in Done (p, 0, e, b)
    | None =>
        if zlen (rbuf b) <=? zlen p then
          '(p, n, e, r) ← Read (rd b) p;
          let b := set_rerr e (set_rd r b) in
          b ← (if 0 <? n then c ← idx p (n - 1); Done (set_lasts c (-1) b) else Done b);
          let '(e, b) := readErr b in
          Done (p, n, e, b)
        else
          b ← fill b;
          if rw b =? rr b then let '(e, b) := readErr b in Done (p, 0, e, b) else read_buffered b p
    end
  else read_buffered b p.

#[export] Instance bReader_Reader : Reader bReader := Reader_Read.

Definition Reader_ReadByte (fuel : nat) (b : bReader) : outcome (Z * option error * bReader) :=
  let b := set_lasts (lastByte b) (-1) b in
  r ← loop fuel (fun b =>
    if rw b =? rr b then
      match rerr b with
      | Some _ => let '(e, b) := readErr b in Done (inr (inr (e, b)))
      | None => b ← fill b; Done (inl b)
      end
    else Done (inr (inl b))) b;
  match r with
  | inr (e, b) => Done (0, e, b)
  | inl b =>
      c ← idx (rbuf b) (rr b);
      Done (c, None, set_lasts c (lastRuneSize b) (set_pos (rr b + 1) (rw b) b))
  end.

Definition Reader_UnreadByte (b : bReader) : outcome (option error * bReader) :=
  let b := set_lasts (lastByte b) (-1) b in
  if (rr b =? rw b) && (0 <=? lastByte b) then
    buf ← set_idx (rbuf b) 0 (byte (lastByte b));
    Done (None, set_lasts (-1) (-1) (set_pos 0 1 (set_rbuf buf b)))
  else if rr b <=? 0 then Done (Some ErrInvalidUnreadByte, b)
  else Done (None, set_lasts (-1) (-1) (set_pos (rr b - 1) (rw b) b)).

Definition Reader_ReadRune (fuel : nat) (b : bReader) : outcome (Z * Z * option error * bReader) :=
  b ← fill_until fuel (fun b => data ← pending b; Done (negb ((rw b <? rr b + UTFMax) && negb (FullRune data)))) b;
  let b := set_lasts (lastByte b) (-1) b in
  if rr b =? rw b then let '(e, b) := readErr b in Done (0, 0, e, b) else
  c ← idx (rbuf b) (rr b);
  data ← pending b;
  let '(rune, size) := if 0x80 <=? c then DecodeRune data else (c, 1) in
  let b := set_pos (rr b + size) (rw b) b in
  c ← idx (rbuf b) (rr b - 1);
  Done (rune, size, None, set_lasts c size b).

Definition Reader_UnreadRune (b : bReader) : option error * bReader :=
  if (lastRuneSize b <? 0) || (rr b =? 0) then (Some ErrInvalidUnreadRune, b)
  else (None, set_lasts (-1) (-1) (set_pos (rr b - lastRuneSize b) (rw b) b)).

Definition Buffered (b : bReader) : Z := rw b - rr b.

Definition ReadSlice (fuel : nat) (delim : Z) (b : bReader) : outcome (list Z * option error * bReader) :=
  data ← pending b;
  let i := IndexByte data delim in
  if 0 <=? i then
    line ← slice (rbuf b) (rr b) (rr b + i + 1);
    Done (line, None, set_pos (rr b + (i + 1)) (rw b) b)
  else
    loop fuel (fun b =>
      match rerr b with
      | Some _ =>
          line ← pending b;
          let '(e, b) := readErr (set_pos (rw b) (rw b) b) in
          Done (inr (line, e, b))
      | None =>
          let n := Buffered b in
          b ← fill b;
          data ← slice (rbuf b) n (rw b);
          let i := IndexByte data delim in
          if 0 <=? i then
            line ← slice (rbuf b) 0 (n + i + 1);
            Done (inr (line, None, set_pos (n + i + 1) (rw b) b))
          else if zlen (rbuf b) <=? Buffered b then
            Done (inr (rbuf b, Some ErrBufferFull, set_pos (rw b) (rw b) b))
          else Done (inl b)
      end) b.

Definition ReadLine (fuel : nat) (b : bReader) : outcome (list Z * bool * option error * bReader) :=
  '(line, err, b) ← ReadSlice fuel 10 b;
  if decide (err = Some ErrBufferFull) then Done (line, true, None, b) else
  if zlen line =? 0 then Done (line, false, err, b) else
  c ← idx line (zlen line - 1);
  line ← (if c =? 10 then slice line 0 (zlen line - 1) else Done line);
  line ← (if 0 <? zlen line then
            c ← idx line (zlen line - 1);
            if c =? 13 then slice line 0 (zlen line - 1) else Done line
          else Done line);
  Done (line, false, None, b).

(** Copy the pieces of [full] into [buf] from [n] on. *)
Fixpoint copy_full (full : list (list Z)) (buf : list Z) (n : Z) : outcome (list Z * Z) :=
  match full with
  | [] => Done (buf, n)
  | f :: full => '(buf, k) ← copy_at buf n (zlen buf) f; copy_full full buf (n + k)
  end.

Definition Reader_ReadBytes (fuel : nat) (delim : Z) (b : bReader) : outcome (list Z * option error * bReader) :=
  '(full, frag, err, b) ← loop fuel (fun '(full, b) =>
    '(frag, e, b) ← ReadSlice fuel delim b;
    if decide (e = None) then Done (inr (full, frag, None, b))
    else if decide (e <> Some ErrBufferFull) then Done (inr (full, frag, e, b))
    else Done (inl (full ++ [frag], b))) ([], b);
  let n := foldl (fun n f => n + zlen f) 0 full in
  buf ← make_bytes (int (n + zlen frag));
  '(buf, n) ← copy_full full buf 0;
  '(buf, _) ← copy_at buf n (zlen buf) frag;
  Done (buf, err, b).

Definition Reader_ReadString (fuel : nat) (delim : Z) (b : bReader) : outcome (list Z * option error * bReader) := Reader_ReadBytes fuel delim b.
End Reader.
Arguments bReader R : clear implicits.

(** NewReaderSize of a bufio.Reader: that reader itself if its buffer is large
    enough. *)
Definition NewReaderSize_buffered {R} `{Reader R} (b : bReader R) (size : Z) : outcome (bReader R + bReader (bReader R) + error) :=
  if size <=? 0 then e ← BufSizeError size; Done (inr e) else
  if size <=? zlen (rbuf b) then Done (inl (inl b)) else
  r ← NewReaderSize b size;
  Done (match r with inl b => inl (inr b) | inr e => inr e end).

(** * Contents *)

Section Inv.
Context {R : Type} `{HR : Reader R} {HL : ReaderLaws R}.
Implicit Types (b : bReader R).

(** The buffer holds [pend] between [b.r] and [b.w]; an error that waits to be
    returned is that of the end of the reader below. *)
Definition binv b (pre pend : list Z) : Prop :=
  reader_inv (rd b) /\ (exists post, rbuf b = pre ++ pend ++ post) /\ rr b = zlen pre /\ rw b = zlen pre + zlen pend /\
  0 < zlen (rbuf b) < 2 ^ 31 /\ (forall x, rerr b = Some x -> x = ending (rd b) /\ stream (rd b) = []).

Lemma binv_range b pre pend : binv b pre pend -> zlen pre + zlen pend <= zlen (rbuf b).
Proof. intros (_ & (post & ->) & _). rewrite !zlen_app. pose proof (zlen_nonneg post). lia. Qed.

Lemma pending_spec b pre pend : binv b pre pend -> pending b = Done pend.
Proof.
  intros Hb. pose proof (binv_range _ _ _ Hb). destruct Hb as (_ & (post & E) & Hr & Hw & _). unfold pending.
  pose proof (zlen_nonneg pre). pose proof (zlen_nonneg pend). rewrite slice_done by lia. rewrite Hr, Hw, Z.add_simpl_l, E, !zlen_to_nat.
  by rewrite drop_app_length, take_app_length.
Qed.

(** Taking bytes from the buffer. *)
Lemma binv_take b pre x y : binv b pre (x ++ y) -> binv (set_pos (rr b + zlen x) (rw b) b) (pre ++ x) y.
Proof.
  intros (Hi & (post & E) & Hr & Hw & Hl & He). unfold binv. cbn. rewrite !zlen_app in *. split_and!; try done; try lia.
  exists post. by rewrite E, <- !app_assoc.
Qed.

Lemma binv_lasts lb lr b pre pend : binv b pre pend -> binv (set_lasts lb lr b) pre pend.
Proof. done. Qed.

Lemma binv_readErr b pre pend : binv b pre pend -> binv (readErr b).2 pre pend.
Proof. intros (Hi & He & Hr & Hw & Hl & _). unfold binv. cbn. split_and!; done || lia. Qed.

(** What fill adds. *)
Definition filled b (pend : list Z) (b' : bReader R) : Prop :=
  exists chunk, binv b' [] (pend ++ chunk) /\ stream (rd b) = chunk ++ stream (rd b') /\ ending (rd b') = ending (rd b) /\
    zlen (rbuf b') = zlen (rbuf b) /\ lastByte b' = lastByte b /\ lastRuneSize b' = lastRuneSize b /\
    (calls (rd b') <= calls (rd b))%nat.

(** Sliding the data to the beginning of the buffer. *)
Lemma slide_spec b pre pend : binv b pre pend ->
  returns (if 0 <? rr b then
             data ← pending b;
             '(buf, _) ← copy_at (rbuf b) 0 (zlen (rbuf b)) data;
             Done (set_pos 0 (rw b - rr b) (set_rbuf buf b))
           else Done b)
    (fun b' => binv b' [] pend /\ rd b' = rd b /\ zlen (rbuf b') = zlen (rbuf b) /\ rerr b' = rerr b /\ lastByte b' = lastByte b /\
       lastRuneSize b' = lastRuneSize b).
Proof.
  intros Hb. pose proof (binv_range _ _ _ Hb). pose proof (zlen_nonneg pre). pose proof (zlen_nonneg pend).
  pose proof Hb as (Hi & (post & E) & Hr & Hw & Hl & He). case_bool.
  - rewrite (pending_spec _ _ _ Hb). cbn [mbind outcome_bind]. rewrite copy_at_done by lia. cbn [mbind outcome_bind]. go_ret.
    rewrite Z.sub_0_r, Z.min_r by lia. rewrite (take_ge pend) by (unfold zlen; lia). change (take (Z.to_nat 0) (rbuf b)) with (@nil Z).
    cbn [app]. unfold binv. cbn [rd rbuf rr rw rerr lastByte lastRuneSize set_pos set_rbuf].
    rewrite zlen_app, zlen_drop. change (zlen (@nil Z)) with 0. split_and!; try done; try lia. by eexists.
  - go_ret. assert (pre = []) as -> by (destruct pre; [done|rewrite zlen_cons in *; pose proof (zlen_nonneg pre); lia]). by split_and!.
Qed.

(** Reading into the buffer behind the data. *)
Lemma filled_put b b1 pend p n (e : option error) r :
  binv b1 [] pend -> rd b1 = rd b -> zlen (rbuf b1) = zlen (rbuf b) -> rerr b1 = None -> lastByte b1 = lastByte b -> lastRuneSize b1 = lastRuneSize b ->
  reader_inv r -> zlen p = zlen (rbuf b1) - rw b1 -> 0 <= n <= zlen p -> stream (rd b) = take (Z.to_nat n) p ++ stream r ->
  ending r = ending (rd b) -> (calls r <= calls (rd b))%nat -> (forall x, e = Some x -> x = ending (rd b) /\ stream r = []) ->
  let b2 := set_pos (rr b1) (rw b1 + n) (set_rd r (set_rbuf (put_slice (rbuf b1) (rw b1) p) b1)) in
  filled b pend (match e with Some _ => set_rerr e b2 | None => b2 end) /\ rerr (match e with Some _ => set_rerr e b2 | None => b2 end) = e.
Proof.
  intros (Hi & (post & E) & Hr & Hw & Hl & _) Hrd Hlen He1 Hlb Hlr Hi' Hp Hn Hs Hend Hc Hx b2. change (zlen (@nil Z)) with 0 in *. cbn [app] in *.
  pose proof (zlen_nonneg pend).
  assert (Hput : put_slice (rbuf b1) (rw b1) p = pend ++ p).
  { unfold put_slice. rewrite E, Hw, Z.add_0_l, zlen_to_nat, take_app_length. done. }
  assert (Hb2 : binv (set_rerr e b2) [] (pend ++ take (Z.to_nat n) p)).
  { unfold binv, b2. cbn [rd rbuf rr rw rerr set_pos set_rd set_rbuf set_rerr]. rewrite Hput, !zlen_app, zlen_take. change (zlen (@nil Z)) with 0.
    split_and!; try done; try lia; [|by rewrite Hend]. exists (drop (Z.to_nat n) p). cbn [app]. by rewrite <- app_assoc, take_drop. }
  assert (Heq : (match e with Some _ => set_rerr e b2 | None => b2 end) = set_rerr e b2).
  { destruct e; [done|]. unfold b2, set_rerr, set_pos, set_rd, set_rbuf. cbn. by rewrite He1. }
  rewrite Heq. split; [|done]. exists (take (Z.to_nat n) p). split; [done|]. unfold b2.
  cbn [rd rbuf set_pos set_rd set_rbuf set_rerr lastByte lastRuneSize]. rewrite Hput, zlen_app. split_and!; try done; lia.
Qed.

Lemma fill_spec b pre pend : binv b pre pend -> rerr b = None -> zlen pend < zlen (rbuf b) ->
  returns (fill b) (fun b' => filled b pend b' /\ (rerr b' = None -> (calls (rd b') < calls (rd b))%nat)).
Proof.
  intros Hb He Hroom. unfold fill. go_call slide_spec; [done|]. intros b1 (Hb1 & Hrd & Hlen & He1 & Hlb & Hlr).
  pose proof Hb1 as (Hi & _ & Hr1 & Hw1 & Hl1 & _). pose proof (zlen_nonneg pend). change (zlen (@nil Z)) with 0 in *.
  rewrite slice_done by lia. cbn [mbind outcome_bind]. set (p := take _ _).
  assert (Hp : zlen p = zlen (rbuf b1) - rw b1) by (unfold p; rewrite zlen_take, zlen_drop; lia).
  go_call Read_spec; [done|lia|]. intros [[[p' n] e] r] (Hi' & Hp' & Hn & Hs & Hend & Hx). go_ret. rewrite Hrd in *.
  destruct (filled_put b b1 pend p' n e r) as [Hf Hfe]; try done; try lia; try congruence.
  { destruct e; lia. }
  { intros x ->. by destruct Hx as (-> & ? & _). }
  split; [done|]. rewrite Hfe. intros ->. done.
Qed.

(** ** As a reader *)

Definition bstream b : list Z := take (Z.to_nat (rw b - rr b)) (drop (Z.to_nat (rr b)) (rbuf b)) ++ stream (rd b).
Definition bok b : Prop := exists pre pend, binv b pre pend.
Definition bending b : error := ending (rd b).
Definition bcalls b : nat := calls (rd b) + length (bstream b).

Lemma bstream_spec b pre pend : binv b pre pend -> bstream b = pend ++ stream (rd b).
Proof.
  intros (_ & (post & E) & Hr & Hw & _). unfold bstream. by rewrite Hr, Hw, Z.add_simpl_l, E, !zlen_to_nat, drop_app_length, take_app_length.
Qed.

(** Reading from a buffer that is not empty. *)
Lemma read_buffered_spec b pre pend p : binv b pre pend -> pend <> [] -> 0 < zlen p ->
  returns (read_buffered b p) (fun '(p', n, e, b') => n = Z.min (zlen pend) (zlen p) /\ e = None /\
    p' = take (Z.to_nat n) pend ++ drop (Z.to_nat n) p /\ rd b' = rd b /\ zlen (rbuf b') = zlen (rbuf b) /\
    binv b' (pre ++ take (Z.to_nat n) pend) (drop (Z.to_nat n) pend) /\ lastRuneSize b' = -1 /\
    exists x c, pre ++ take (Z.to_nat n) pend = x ++ [c] /\ lastByte b' = c).
Proof.
  intros Hb Hne Hp. pose proof (binv_range _ _ _ Hb). pose proof Hb as (Hi & (post & E) & Hr & Hw & Hl & He). unfold read_buffered.
  pose proof (zlen_nonneg pre). pose proof (zlen_pos pend Hne).
  replace (if rw b - rr b <? zlen p then rw b - rr b else zlen p) with (Z.min (zlen pend) (zlen p)) by (case_bool; lia).
  set (n := Z.min _ _). rewrite slice_done by lia. cbn [mbind outcome_bind].
  assert (Ed : take (Z.to_nat (zlen (rbuf b) - rr b)) (drop (Z.to_nat (rr b)) (rbuf b)) = pend ++ post).
  { rewrite take_ge by (rewrite length_drop; unfold zlen; lia). by rewrite E, Hr, zlen_to_nat, drop_app_length. }
  rewrite Ed. rewrite copy_at_done by lia. cbn [mbind outcome_bind].
  assert (Et : take (Z.to_nat (Z.min (n - 0) (zlen (pend ++ post)))) (pend ++ post) = take (Z.to_nat n) pend).
  { rewrite zlen_app. pose proof (zlen_nonneg post). replace (Z.min (n - 0) _) with n by lia. apply take_app_le. unfold zlen in *. lia. }
  assert (Hnl : zlen (take (Z.to_nat n) pend) = n) by (rewrite zlen_take; lia).
  assert (Hb' : binv (set_pos (rr b + n) (rw b) b) (pre ++ take (Z.to_nat n) pend) (drop (Z.to_nat n) pend)).
  { rewrite <- Hnl at 1. apply binv_take. by rewrite take_drop. }
  assert (Htn : take (Z.to_nat n) pend <> []) by (intros Hz; rewrite Hz in Hnl; change (zlen (@nil Z)) with 0 in Hnl; lia).
  destruct (exists_last Htn) as (l & c & El). rewrite Et. rewrite El in Hb' |- *.
  assert (Hc : idx (rbuf (set_pos (rr b + n) (rw b) b)) (rr (set_pos (rr b + n) (rw b) b) - 1) = Done c).
  { destruct Hb' as (_ & (post' & E') & Hr' & _). rewrite E', Hr'. apply idx_done. rewrite !zlen_app. change (zlen [c]) with 1.
    rewrite <- !app_assoc. rewrite app_assoc. replace (zlen pre + (zlen l + 1) - 1) with (zlen (pre ++ l)) by (rewrite zlen_app; lia).
    cbn [app]. apply zlookup_at. }
  rewrite Hc. cbn [mbind outcome_bind]. go_ret.
  replace (Z.min (n - 0) (zlen (pend ++ post))) with n by (rewrite zlen_app; pose proof (zlen_nonneg post); lia).
  rewrite Z.add_0_l, El. split_and!; try done. exists (pre ++ l), c. by rewrite app_assoc.
Qed.

Lemma filled_stream b pre pend b' : binv b pre pend -> filled b pend b' -> exists pend', binv b' [] pend' /\ bstream b' = bstream b /\ bending b' = bending b.
Proof.
  intros Hb (chunk & Hb' & Hs & He & _). exists (pend ++ chunk). split; [done|]. split; [|done].
  by rewrite (bstream_spec _ _ _ Hb), (bstream_spec _ _ _ Hb'), Hs, app_assoc.
Qed.

Lemma read_buffered_ok b pre pend p : binv b pre pend -> pend <> [] -> 0 < zlen p ->
  returns (read_buffered b p) (fun '(p', n, e, b') => bok b' /\ read_ok bstream bending bcalls b p p' n e b').
Proof.
  intros Hb Hne Hp. go_mono read_buffered_spec; [done|done|done|].
  intros [[[p' n] e] b'] (-> & -> & -> & Hrd & Hlen & Hb' & _). split; [by eexists _, _|]. set (n := Z.min _ _) in *.
  pose proof (zlen_pos pend Hne). unfold read_ok, bending, bcalls. rewrite (bstream_spec _ _ _ Hb), (bstream_spec _ _ _ Hb'), Hrd.
  assert (Hk : zlen (take (Z.to_nat n) pend) = n) by (rewrite zlen_take; lia). split_and!; try done; try lia.
  - rewrite zlen_app, zlen_drop. lia.
  - rewrite take_app_le by (unfold zlen in *; lia). by rewrite take_take, Nat.min_id, app_assoc, take_drop.
  - rewrite !length_app, length_drop. unfold zlen in *. lia.
Qed.

Lemma Reader_Read_law b p : bok b -> 0 < zlen p < 2 ^ 31 ->
  returns (Reader_Read b p) (fun '(p', n, e, b') => bok b' /\ read_ok bstream bending bcalls b p p' n e b').
Proof.
  intros (pre & pend & Hb) Hp. unfold Reader_Read. case_bool; [lia|]. pose proof Hb as (Hi & _ & Hr & Hw & Hl & He).
  case_bool; last first.
  { eapply read_buffered_ok; [done| |lia]. intros ->. change (zlen (@nil Z)) with 0 in *. lia. }
  assert (pend = []) as -> by (destruct pend; [done|rewrite zlen_cons in *; pose proof (zlen_nonneg pend); lia]).
  destruct (rerr b) as [x|] eqn:Hx.
  - destruct (He x eq_refl) as [-> Hs]. cbn [readErr]. rewrite Hx. go_ret.
    pose proof (binv_readErr _ _ _ Hb) as Hb'. cbn [readErr snd] in Hb'. split; [by eexists _, _|].
    unfold read_ok, bending, bcalls. rewrite (bstream_spec _ _ _ Hb), (bstream_spec _ _ _ Hb'). cbn [rd set_rerr].
    rewrite Hs. split_and!; done || lia.
  - case_bool.
    + go_call Read_spec; [done|lia|]. intros [[[p' n] e] r] (Hi' & Hp' & Hn & Hs & Hend & Hres).
      eapply (returns_bind _ _ (fun b' => rbuf b' = rbuf b /\ rd b' = r /\ rr b' = rr b /\ rw b' = rw b /\ rerr b' = e)).
      { case_bool; [|by go_ret]. destruct (zlookup_lt p' (n - 1)) as [c Hc]; [lia|]. rewrite (idx_done _ _ _ Hc). by go_ret. }
      intros b1 (Hb1 & Hrd & Hr1 & Hw1 & He1). cbn [readErr]. go_ret. rewrite He1.
      assert (Hb' : binv (set_rerr None b1) pre []).
      { unfold binv. cbn [rd rbuf rr rw rerr set_rerr]. rewrite Hb1, Hrd, Hr1, Hw1. destruct Hb as (_ & ? & _). split_and!; done || lia. }
      split; [by eexists _, _|]. unfold read_ok, bending, bcalls. rewrite (bstream_spec _ _ _ Hb), (bstream_spec _ _ _ Hb').
      cbn [rd set_rerr app]. rewrite Hrd. split_and!; try done; try lia. destruct e as [x|].
      * destruct Hres as (-> & -> & Hc). split_and!; try done. cbn [length]. lia.
      * rewrite Hs, length_app. lia.
    + go_call fill_spec; [done|done|change (zlen (@nil Z)) with 0; lia|]. intros b1 [Hf Hc1].
      destruct (filled_stream _ _ _ _ Hb Hf) as (pend' & Hb1 & Hs1 & He1). pose proof Hf as (chunk & _ & _ & _ & _ & _ & _ & Hc).
      pose proof Hb1 as (_ & _ & Hr1 & Hw1 & _ & Hx1). change (zlen (@nil Z)) with 0 in *. case_bool.
      * assert (pend' = []) as -> by (destruct pend'; [done|rewrite zlen_cons in *; pose proof (zlen_nonneg pend'); lia]).
        cbn [readErr]. go_ret. pose proof (binv_readErr _ _ _ Hb1) as Hb2. cbn [readErr snd] in Hb2. split; [by eexists _, _|].
        assert (Hs2 : bstream (set_rerr None b1) = bstream b).
        { rewrite (bstream_spec _ _ _ Hb2). rewrite <- Hs1. by rewrite (bstream_spec _ _ _ Hb1). }
        unfold read_ok, bending, bcalls in *. rewrite Hs2. cbn [rd set_rerr]. split_and!; try done; try lia.
        destruct (rerr b1) as [x|]; [|specialize (Hc1 eq_refl); lia]. destruct (Hx1 x eq_refl) as [-> Hnil].
        rewrite <- Hs1, (bstream_spec _ _ _ Hb1), Hnil. split_and!; try done. lia.
      * go_mono read_buffered_ok; [done|intros ->; change (zlen (@nil Z)) with 0 in *; lia|lia|].
        intros [[[p' n] e] b'] [Hok Hread]. split; [done|]. unfold read_ok, bending, bcalls in *. rewrite Hs1, He1 in Hread.
        destruct Hread as (? & ? & ? & ? & Hres). split_and!; try done; try lia. destruct e; [destruct Hres as (? & ? & ?); split_and!; done || lia|lia].
Qed.

#[export] Instance bReader_laws : ReaderLaws (bReader R) := {
  reader_inv := bok; stream := bstream; ending := bending; calls := bcalls; Read_spec := Reader_Read_law }.

(** ** The other operations *)

(** [b] is [b0] after some calls of fill. *)
Definition reach (b0 b : bReader R) : Prop :=
  bok b /\ bstream b = bstream b0 /\ bending b = bending b0 /\ zlen (rbuf b) = zlen (rbuf b0) /\
  lastByte b = lastByte b0 /\ lastRuneSize b = lastRuneSize b0 /\ (calls (rd b) <= calls (rd b0))%nat.

Lemma reach_refl b : bok b -> reach b b.
Proof. intros. unfold reach. split_and!; done || lia. Qed.

Lemma reach_fill b0 b pre pend : reach b0 b -> binv b pre pend -> rerr b = None -> zlen pend < zlen (rbuf b) ->
  returns (fill b) (fun b' => reach b0 b' /\ (rerr b' = None -> (calls (rd b') < calls (rd b))%nat)).
Proof.
  intros (_ & Hs & He & Hl & Hlb & Hlr & Hc) Hb Hx Hroom. go_mono fill_spec; [done|done|done|]. intros b' [Hf Hc']. split; [|done].
  destruct (filled_stream _ _ _ _ Hb Hf) as (pend' & Hb' & Hs' & He'). destruct Hf as (chunk & _ & _ & _ & Hl' & Hlb' & Hlr' & Hcc).
  split_and!; try congruence; [by eexists _, _|lia].
Qed.

(** The buffered bytes, and whether the reader below has ended. *)
Lemma binv_end b pre pend x : binv b pre pend -> rerr b = Some x -> x = bending b /\ bstream b = pend.
Proof.
  intros Hb Hx. rewrite (bstream_spec _ _ _ Hb). destruct Hb as (_ & _ & _ & _ & _ & He). destruct (He x Hx) as [-> ->].
  by rewrite app_nil_r.
Qed.

(** Loops that fill until a condition on the buffered bytes holds or there is an
    error. *)
Lemma fill_loop (cond : list Z -> bool) (test : bReader R -> outcome bool) fuel b :
  bok b -> (forall b pre pend, binv b pre pend -> test b = Done (cond pend)) ->
  (forall pend, cond pend = false -> zlen pend < zlen (rbuf b)) -> (S (calls (rd b)) < fuel)%nat ->
  returns (fill_until fuel test b)
    (fun b' => reach b b' /\ exists pre pend, binv b' pre pend /\ (cond pend = true \/ exists x, rerr b' = Some x)).
Proof.
  intros Hok Htest Hroom Hf.
  apply (loop_returns (reach b) (fun b => match rerr b with None => S (calls (rd b)) | Some _ => O end)).
  - intros b1 Hr1. pose proof Hr1 as ((pre & pend & Hb1) & _ & _ & Hl1 & _). rewrite (Htest _ _ _ Hb1). cbn [mbind outcome_bind].
    destruct (rerr b1) as [x|] eqn:Hx.
    + rewrite bool_decide_eq_false_2, andb_false_r by done. go_ret. split; [done|]. exists pre, pend. split; [done|]. right. by exists x.
    + rewrite bool_decide_eq_true_2, andb_true_r by done. destruct (cond pend) eqn:Hcond; cbn [negb].
      * go_ret. split; [done|]. exists pre, pend. auto.
      * go_call (reach_fill b b1 pre pend); [done|done|done|rewrite Hl1; by apply Hroom|]. intros b2 [Hr2 Hc2]. go_ret. split; [done|].
        destruct (rerr b2); [lia|]. specialize (Hc2 eq_refl). lia.
  - by apply reach_refl.
  - destruct (rerr b); lia.
Qed.

Lemma Peek_spec fuel n b : bok b -> 0 <= n <= zlen (rbuf b) -> (S (calls (rd b)) < fuel)%nat ->
  returns (Peek fuel n b) (fun '(p, e, b') => p = take (Z.to_nat n) (bstream b) /\ reach b b' /\
    (zlen p < n -> e = Some (bending b)) /\ (forall x, e = Some x -> x = bending b)).
Proof.
  intros Hok Hn Hf. unfold Peek. do 2 (case_bool; [lia|]).
  go_call (fill_loop (fun pend => n <=? zlen pend)); [done| | |done|].
  - intros b1 pre pend (_ & _ & Hr & Hw & _). f_equal. rewrite Hr, Hw, Z.add_simpl_l. apply eq_bool_prop_intro.
    rewrite !Is_true_true, negb_true_iff, Z.ltb_ge, Z.leb_le. done.
  - intros pend Hc. apply Z.leb_gt in Hc. lia.
  - intros b1 (Hr & pre & pend & Hb1 & Hend). pose proof (binv_range _ _ _ Hb1). pose proof Hb1 as (_ & (post & Ep) & Hr1 & Hw1 & Hl1 & _).
    destruct Hr as (Hok1 & Hs & He & Hl & Hlb & Hlr & Hc). pose proof (zlen_nonneg pre). pose proof (zlen_nonneg pend).
    replace (if n <? rw b1 - rr b1 then n else rw b1 - rr b1) with (Z.min n (zlen pend)) by (case_bool; lia). set (m := Z.min _ _).
    cbn [readErr rbuf rr set_rerr]. rewrite slice_done by lia. cbn [mbind outcome_bind]. go_ret.
    assert (Ht : take (Z.to_nat (rr b1 + m - rr b1)) (drop (Z.to_nat (rr b1)) (rbuf b1)) = take (Z.to_nat m) pend).
    { rewrite Z.add_simpl_l, Ep, Hr1, zlen_to_nat, drop_app_length. apply take_app_le. unfold zlen in *. lia. }
    rewrite Ht, <- Hs, (bstream_spec _ _ _ Hb1).
    assert (Hp : take (Z.to_nat m) pend = take (Z.to_nat n) (pend ++ stream (rd b1)) /\ (m < n -> exists x, rerr b1 = Some x)).
    { destruct Hend as [Hend|[x Hx]].
      - apply Z.leb_le in Hend. split; [|lia]. rewrite take_app_le by (unfold zlen in *; lia). f_equal. lia.
      - destruct (binv_end _ _ _ _ Hb1 Hx) as [_ Ha]. rewrite (bstream_spec _ _ _ Hb1) in Ha. rewrite Ha. split; [|by eauto].
        symmetry. apply take_min. lia. }
    destruct Hp as [Hp Hshort]. split; [done|]. assert (Hxe : forall x, rerr b1 = Some x -> x = bending b).
    { intros x Hx. rewrite <- He. by destruct (binv_end _ _ _ _ Hb1 Hx). }
    split; [unfold reach; split_and!; try done; eexists _, _; by apply (binv_readErr b1)|].
    rewrite zlen_take. replace (Z.min _ _) with m by lia. split.
    + intros Hm. destruct (Hshort Hm) as [x Hx]. rewrite Hx. rewrite bool_decide_eq_false_2, andb_false_r by done. by rewrite (Hxe x Hx).
    + intros x. destruct (rerr b1) as [y|] eqn:Hy; [rewrite bool_decide_eq_false_2, andb_false_r by done; intros [= <-]; by apply Hxe|].
      case_bool; [|done]. destruct Hshort as [? ?]; [lia|done].
Qed.

Lemma Reader_ReadByte_spec fuel b : bok b -> (S (S (calls (rd b))) < fuel)%nat ->
  returns (Reader_ReadByte fuel b) (fun '(c, e, b') => zlen (rbuf b') = zlen (rbuf b) /\ bending b' = bending b /\ (calls (rd b') <= calls (rd b))%nat /\
    lastRuneSize b' = -1 /\
    match bstream b with
    | [] => c = 0 /\ e = Some (bending b) /\ bok b' /\ bstream b' = []
    | x :: t => c = x /\ e = None /\ lastByte b' = x /\ bstream b' = t /\ exists pre pend, binv b' (pre ++ [x]) pend
    end).
Proof.
  intros Hok Hf. unfold Reader_ReadByte. set (b0 := set_lasts (lastByte b) (-1) b).
  assert (Hok0 : bok b0) by exact Hok. eapply (returns_bind _ _ (fun r => match r with
    | inl b1 => reach b0 b1 /\ exists pre x pend, binv b1 pre (x :: pend)
    | inr (e, b1) => e = Some (bending b0) /\ reach b0 b1 /\ bstream b1 = [] end)).
  - apply (loop_returns (reach b0) (fun b => match rerr b with None => S (calls (rd b)) | Some _ => O end)); [|by apply reach_refl|destruct (rerr b0); cbn; lia].
    intros b1 Hr1. pose proof Hr1 as ((pre & pend & Hb1) & Hs1 & He1 & Hl1 & Hlb1 & Hlr1 & Hc1). pose proof Hb1 as (_ & _ & Hr & Hw & Hl & _). case_bool.
    + assert (pend = []) as -> by (destruct pend; [done|rewrite zlen_cons in *; pose proof (zlen_nonneg pend); lia]).
      destruct (rerr b1) as [x|] eqn:Hx.
      * destruct (binv_end _ _ _ _ Hb1 Hx) as [-> Hnil]. cbn [readErr]. go_ret. split; [congruence|]. pose proof (binv_readErr _ _ _ Hb1) as Hb2.
        assert (Hs2 : bstream (set_rerr None b1) = bstream b1) by done.
        split; [|congruence]. unfold reach. split_and!; try done; by eexists _, _.
      * go_call (reach_fill b0 b1 pre []); [done|done|done|change (zlen (@nil Z)) with 0; lia|]. intros b2 [Hr2 Hc2]. go_ret. split; [done|].
        destruct (rerr b2); [lia|]. specialize (Hc2 eq_refl). lia.
    + go_ret. split; [done|]. destruct pend as [|x pend]; [change (zlen (@nil Z)) with 0 in *; lia|]. by exists pre, x, pend.
  - intros [b1|[e b1]].
    + intros [(_ & Hs1 & He1 & Hl1 & Hlb1 & Hlr1 & Hc1) (pre & x & pend & Hb1)]. pose proof Hb1 as (_ & (post & Ep) & Hr & Hw & _).
      assert (Hix : idx (rbuf b1) (rr b1) = Done x) by (rewrite Ep, Hr; apply idx_done; cbn [app]; apply zlookup_at).
      rewrite Hix. cbn [mbind outcome_bind]. go_ret. cbn [lastRuneSize set_lasts set_pos]. rewrite Hlr1.
      pose proof (binv_take b1 pre [x] pend Hb1) as Hb2. change (zlen [x]) with 1 in Hb2. change (bstream b0) with (bstream b) in Hs1.
      rewrite <- Hs1, (bstream_spec _ _ _ Hb1). cbn [app]. split_and!; try done; [|by exists pre, pend]. exact (bstream_spec _ _ _ Hb2).
    + intros (-> & (Hok1 & Hs1 & He1 & Hl1 & Hlb1 & Hlr1 & Hc1) & Hnil). go_ret. change (bstream b0) with (bstream b) in Hs1.
      rewrite <- Hs1, Hnil. split_and!; done.
Qed.

(** The bytes that ReadRune decodes decide the rune at the head of the stream. *)
Lemma rune_ready b pre pend : binv b pre pend ->
  negb ((rw b <? rr b + UTFMax) && negb (FullRune pend)) = true \/ (exists x, rerr b = Some x) -> pend <> [] ->
  DecodeRune (bstream b) = DecodeRune pend.
Proof.
  intros Hb Hready Hne. rewrite (bstream_spec _ _ _ Hb). destruct Hready as [Hc|[x Hx]].
  - apply FullRune_app. destruct (FullRune pend) eqn:E; [done|]. rewrite <- E. apply FullRune_4.
    destruct Hb as (_ & _ & Hr & Hw & _). unfold UTFMax in Hc. rewrite andb_true_r in Hc. bool_to_prop. lia.
  - destruct (binv_end _ _ _ _ Hb Hx) as [_ Hs]. rewrite (bstream_spec _ _ _ Hb) in Hs. by rewrite Hs.
Qed.

Lemma Reader_ReadRune_spec fuel b : bok b -> 4 <= zlen (rbuf b) -> Forall is_byte (bstream b) -> (S (calls (rd b)) < fuel)%nat ->
  returns (Reader_ReadRune fuel b) (fun '(r, n, e, b') => zlen (rbuf b') = zlen (rbuf b) /\ bending b' = bending b /\ (calls (rd b') <= calls (rd b))%nat /\
    match bstream b with
    | [] => (r, n) = (0, 0) /\ e = Some (bending b) /\ bok b' /\ bstream b' = [] /\ lastRuneSize b' = -1
    | _ => exists p q c x, bstream b = p ++ q /\ p = x ++ [c] /\ DecodeRune (bstream b) = (r, n) /\ n = zlen p /\ e = None /\ bstream b' = q /\
        lastByte b' = c /\ lastRuneSize b' = n /\ exists pre pend, binv b' (pre ++ p) pend
    end).
Proof.
  intros Hok H4 Hbytes Hf. unfold Reader_ReadRune.
  set (cond := fun pend => negb ((zlen pend <? UTFMax) && negb (FullRune pend))).
  assert (Hcond : forall b pre pend, binv b pre pend -> negb ((rw b <? rr b + UTFMax) && negb (FullRune pend)) = cond pend).
  { intros b1 pre pend (_ & _ & Hr & Hw & _). unfold cond. do 2 f_equal. apply eq_bool_prop_intro. rewrite !Is_true_true, !Z.ltb_lt. lia. }
  go_call (fill_loop cond); [done| | |done|].
  - intros b1 pre pend Hb1. rewrite (pending_spec _ _ _ Hb1). cbn [mbind outcome_bind]. by rewrite (Hcond _ _ _ Hb1).
  - intros pend Hc. unfold cond in Hc. bool_to_prop. unfold UTFMax in *. lia.
  - intros b1 ((Hok1 & Hs & He & Hl & Hlb & Hlr & Hc) & pre & pend & Hb1 & Hend). rewrite <- (Hcond _ _ _ Hb1) in Hend.
    pose proof Hb1 as (_ & (post & Ep) & Hr & Hw & _). cbn [rr rw set_lasts]. rewrite <- Hs in Hbytes |- *. destruct pend as [|c0 pend'].
    + change (zlen (@nil Z)) with 0 in Hw. rewrite Z.add_0_r in Hw. rewrite Hr, Hw, Z.eqb_refl. cbn [readErr rerr set_lasts].
      destruct Hend as [Hend|[x Hx]]; [exfalso; bool_to_prop; unfold UTFMax in *; destruct Hend; [lia|done]|].
      destruct (binv_end _ _ _ _ Hb1 Hx) as [-> Hnil]. rewrite Hnil, Hx. go_ret. split_and!; try done; [congruence|].
      eexists _, _. by apply binv_readErr.
    + assert (Hne : (rr b1 =? rw b1) = false) by (apply Z.eqb_neq; rewrite zlen_cons in Hw; pose proof (zlen_nonneg pend'); lia).
      rewrite Hne. set (pend := c0 :: pend') in *.
      assert (Hix : idx (rbuf b1) (rr b1) = Done c0) by (rewrite Ep, Hr; apply idx_done; cbn [app]; apply zlookup_at).
      cbn [rbuf set_lasts]. rewrite Hix. cbn [mbind outcome_bind]. change (pending (set_lasts (lastByte b1) (-1) b1)) with (pending b1).
      rewrite (pending_spec _ _ _ Hb1). cbn [mbind outcome_bind].
      assert (Hbp : Forall is_byte pend) by (rewrite (bstream_spec _ _ _ Hb1) in Hbytes; by apply Forall_app in Hbytes as [? _]).
      destruct (DecodeRune_split pend Hbp) as (r & p & q & Hp & E & Hd); [done|].
      assert (Hdec : (if 128 <=? c0 then DecodeRune pend else (c0, 1)) = (r, zlen p)).
      { apply Forall_cons_iff in Hbp as [Hc0 _]. unfold is_byte in Hc0. case_bool; [done|]. rewrite <- Hd. symmetry. apply DecodeRune_ascii. unfold RuneSelf. lia. }
      rewrite Hdec. destruct (exists_last Hp) as (x & c & Ex).
      rewrite E in Hb1. pose proof (binv_take b1 pre p q Hb1) as Hb2.
      assert (Hlast : idx (rbuf b1) (rr b1 + zlen p - 1) = Done c).
      { destruct Hb1 as (_ & (post2 & Ep2) & _). rewrite Ep2, Hr, Ex, zlen_app. change (zlen [c]) with 1. apply idx_done.
        replace (zlen pre + (zlen x + 1) - 1) with (zlen (pre ++ x)) by (rewrite zlen_app; lia). rewrite <- !app_assoc, app_assoc. apply zlookup_at. }
      cbn [rbuf rr rw set_pos set_lasts]. rewrite Hlast. cbn [mbind outcome_bind]. go_ret. cbn [rbuf rd set_pos set_lasts].
      split_and!; try done. assert (Hs1 : bstream b1 = p ++ q ++ stream (rd b1)) by (rewrite (bstream_spec _ _ _ Hb1), app_assoc; done).
      assert (Hdr : DecodeRune (bstream b1) = (r, zlen p)).
      { rewrite <- Hd. eapply rune_ready; [rewrite E; exact Hb1|by rewrite E in Hend |- *|done]. }
      destruct (bstream b1) as [|d t] eqn:Hbs; [by destruct p|].
      exists p, (q ++ stream (rd b1)), c, x. split_and!; try done; [exact (bstream_spec _ _ _ Hb2)|by exists pre, q].
Qed.
End Inv.

(** ** Reading up to a delimiter *)

Lemma copy_prefix (x y src : list Z) : zlen src <= zlen y ->
  copy_at (x ++ y) (zlen x) (zlen (x ++ y)) src = Done (x ++ src ++ drop (length src) y, zlen src).
Proof.
  intros Hl. pose proof (zlen_nonneg x). pose proof (zlen_nonneg src). rewrite zlen_app, copy_at_done by (rewrite ?zlen_app; lia).
  replace (Z.min _ _) with (zlen src) by lia. rewrite !zlen_to_nat, take_app_length, take_ge by lia. do 3 f_equal.
  rewrite Z2Nat.inj_add, !zlen_to_nat, <- drop_drop, drop_app_length by lia. done.
Qed.

Lemma copy_full_spec full : forall x y, zlen (concat full) <= zlen y ->
  copy_full full (x ++ y) (zlen x) = Done (x ++ concat full ++ drop (length (concat full)) y, zlen (x ++ concat full)).
Proof.
  induction full as [|f full IH]; intros x y Hl; cbn [copy_full concat] in *; [by rewrite app_nil_r|].
  rewrite zlen_app in Hl. pose proof (zlen_nonneg (concat full)). pose proof (zlen_nonneg f).
  rewrite copy_prefix by lia. cbn [mbind outcome_bind]. rewrite <- zlen_app, app_assoc, IH by (rewrite zlen_drop; unfold zlen in *; lia).
  by rewrite <- !app_assoc, drop_drop, length_app.
Qed.

Lemma foldl_zlen full : forall n, foldl (fun n (f : list Z) => n + zlen f) n full = n + zlen (concat full).
Proof. induction full as [|f full IH]; intros n; cbn [foldl concat]; [change (zlen (@nil Z)) with 0; lia|]. rewrite IH, zlen_app. lia. Qed.

Lemma split_at_app d p q :
  split_at d (p ++ q) = match split_at d p with
                        | Some (x, y) => Some (x, y ++ q)
                        | None => '(x, y) ← split_at d q; Some (p ++ x, y)
                        end.
Proof.
  induction p as [|c p IH]; cbn [split_at app]; [by destruct (split_at d q) as [[]|]|].
  destruct (c =? d); [done|]. rewrite IH. destruct (split_at d p) as [[]|]; [done|]. by destruct (split_at d q) as [[]|].
Qed.

Lemma split_at_Some d l x y : split_at d l = Some (x, y) -> l = x ++ y /\ x <> [] /\ IndexByte l d = zlen x - 1.
Proof. intros H. pose proof (IndexByte_spec d l 0 ltac:(lia)) as Hi. rewrite H in Hi. destruct Hi as (-> & Hi & Hx). unfold IndexByte. rewrite Hi. split_and!; [done|done|lia]. Qed.

Lemma split_at_None d l : split_at d l = None -> IndexByte l d = -1.
Proof. intros H. pose proof (IndexByte_spec d l 0 ltac:(lia)) as Hi. by rewrite H in Hi. Qed.

(** What ReadSlice may return from the stream [s]: a line that ends with the
    delimiter, a full buffer, or the rest with the error.  When the rest just fits
    the buffer, either of the last two. *)
Definition slice_ok (delim size : Z) (s : list Z) (last : error) (line : list Z) (e : option error) (s' : list Z) : Prop :=
  (split_at delim s = Some (line, s') /\ zlen line <= size /\ e = None) \/
  (split_at delim line = None /\ s = line ++ s' /\ zlen line = size /\ e = Some ErrBufferFull) \/
  (split_at delim line = None /\ s = line /\ s' = [] /\ zlen line <= size /\ e = Some last).

(** A line without its last byte, if that is [c]. *)
Definition drop_end (c : Z) (l : list Z) : list Z := if decide (l.[zlen l - 1] = Some c) then take (length l - 1) l else l.
Definition trim_eol (l : list Z) : list Z := drop_end 13 (drop_end 10 l).

Lemma trim_step x (l : list Z) : l <> [] -> (c ← idx l (zlen l - 1); if c =? x then slice l 0 (zlen l - 1) else Done l) = Done (drop_end x l).
Proof.
  intros Hl. destruct (exists_last Hl) as (l' & c & ->). unfold drop_end, idx. rewrite last_at. cbn [mbind outcome_bind of_option].
  destruct (Z.eqb_spec c x) as [->|Hc]; [|by rewrite decide_False by congruence]. rewrite decide_True by done.
  rewrite zlen_app, length_app. change (zlen [x]) with 1. cbn [length]. rewrite Z.add_simpl_r, Nat.add_sub, slice_prefix, take_app_length. done.
Qed.

Lemma trim_bind {A} x (l : list Z) (k : list Z -> outcome A) : l <> [] ->
  (c ← idx l (zlen l - 1); l ← (if c =? x then slice l 0 (zlen l - 1) else Done l); k l) = k (drop_end x l).
Proof. intros Hl. pose proof (trim_step x l Hl) as H. destruct (idx l (zlen l - 1)); cbn [mbind outcome_bind] in *; [by rewrite H|done..]. Qed.

Section Slice.
Context {R : Type} `{HR : Reader R} {HL : ReaderLaws R} {HE : EmptyReads R}.
Implicit Types (b : bReader R).

(** fill, also of a full buffer. *)
Lemma fill_any b pre pend : binv b pre pend -> rerr b = None ->
  returns (fill b) (fun b' => filled b pend b' /\ (zlen pend < zlen (rbuf b) -> rerr b' = None -> (calls (rd b') < calls (rd b))%nat)).
Proof.
  intros Hb He. destruct (Z.lt_ge_cases (zlen pend) (zlen (rbuf b))).
  { go_mono fill_spec; [done|done|done|]. intros b' [? ?]. auto. }
  unfold fill. go_call slide_spec; [done|]. intros b1 (Hb1 & Hrd & Hlen & He1 & Hlb & Hlr).
  pose proof Hb1 as (Hi & _ & Hr1 & Hw1 & Hl1 & _). pose proof (binv_range _ _ _ Hb1). pose proof (zlen_nonneg pend). change (zlen (@nil Z)) with 0 in *.
  rewrite slice_done by lia. cbn [mbind outcome_bind]. replace (zlen (rbuf b1) - rw b1) with 0 by lia. cbn [Z.to_nat take].
  go_call Read_empty; [done|]. intros [[[p' n] e] r] (Hi' & -> & -> & Hs & Hend & Hc & Hx). go_ret. rewrite Hrd in *.
  destruct (filled_put b b1 pend [] 0 e r) as [Hf Hfe]; try done; try lia; try congruence.
  { change (zlen (@nil Z)) with 0. lia. }
  { intros x ->. rewrite Hs. by apply Hx. }
  split; [done|]. lia.
Qed.

(** The state after ReadSlice. *)
Definition sliced (delim : Z) b (line : list Z) (e : option error) (b' : bReader R) : Prop :=
  bok b' /\ slice_ok delim (zlen (rbuf b)) (bstream b) (bending b) line e (bstream b') /\ bending b' = bending b /\
  zlen (rbuf b') = zlen (rbuf b) /\ (calls (rd b') <= calls (rd b))%nat.

(** Giving away the whole buffer. *)
Lemma binv_all b pre pend : binv b pre pend -> binv (set_pos (rw b) (rw b) b) (pre ++ pend) [].
Proof.
  intros Hb. pose proof Hb as (_ & _ & Hr & Hw & _). rewrite <- (app_nil_r pend) in Hb. apply binv_take in Hb.
  by replace (rr b + zlen pend) with (rw b) in Hb by lia.
Qed.

Lemma sliced_intro delim b b2 r w pre pend line e : bending b2 = bending b -> zlen (rbuf b2) = zlen (rbuf b) -> (calls (rd b2) <= calls (rd b))%nat ->
  binv (set_pos r w b2) pre pend -> slice_ok delim (zlen (rbuf b)) (bstream b) (bending b) line e (pend ++ stream (rd b2)) ->
  sliced delim b line e (set_pos r w b2).
Proof.
  intros He Hl Hc Hb Hs. unfold sliced. rewrite (bstream_spec _ _ _ Hb). split; [by eexists _, _|]. done.
Qed.

Lemma read_slice_step delim b b1 pre pend : reach b b1 -> binv b1 pre pend -> split_at delim pend = None -> rerr b1 = None ->
  returns (let n := Buffered b1 in
           b ← fill b1;
           data ← slice (rbuf b) n (rw b);
           let i := IndexByte data delim in
           if 0 <=? i then
             line ← slice (rbuf b) 0 (n + i + 1);
             Done (inr (line, None, set_pos (n + i + 1) (rw b) b))
           else if zlen (rbuf b) <=? Buffered b then
             Done (inr (rbuf b, Some ErrBufferFull, set_pos (rw b) (rw b) b))
           else Done (inl b))
    (fun r => match r with
     | inl b2 => reach b b2 /\ (exists pre2 pend2, binv b2 pre2 pend2 /\ split_at delim pend2 = None) /\ (rerr b2 = None -> (calls (rd b2) < calls (rd b1))%nat)
     | inr (line, e, b2) => sliced delim b line e b2 end).
Proof.
  intros (Hok & Hs & He & Hl & Hlb & Hlr & Hc) Hb1 Hno Hx. cbv zeta.
  assert (Hn : Buffered b1 = zlen pend) by (destruct Hb1 as (_ & _ & Hr & Hw & _); unfold Buffered; lia). rewrite Hn.
  go_call fill_any; [done|done|]. intros b2 [Hf Hc2]. destruct (filled_stream _ _ _ _ Hb1 Hf) as (_ & _ & Hs2 & He2).
  destruct Hf as (chunk & Hb2 & _ & _ & Hl2 & Hlb2 & Hlr2 & Hcc). pose proof (binv_range _ _ _ Hb2) as Hrange. pose proof Hb2 as (_ & (post & Ep) & Hr2 & Hw2 & _).
  change (zlen (@nil Z)) with 0 in *. cbn [app] in Ep. rewrite zlen_app in Hw2, Hrange. pose proof (zlen_nonneg pend). pose proof (zlen_nonneg chunk).
  rewrite slice_done by lia. cbn [mbind outcome_bind].
  assert (Hd : take (Z.to_nat (rw b2 - zlen pend)) (drop (Z.to_nat (zlen pend)) (rbuf b2)) = chunk).
  { rewrite Hw2, Ep, <- app_assoc, zlen_to_nat, drop_app_length. replace (0 + (zlen pend + zlen chunk) - zlen pend) with (zlen chunk) by lia.
    by rewrite zlen_to_nat, take_app_length. }
  rewrite Hd. pose proof (bstream_spec _ _ _ Hb2) as Hst. destruct (split_at delim chunk) as [[x y]|] eqn:Hsp.
  - destruct (split_at_Some _ _ _ _ Hsp) as (E & Hxne & ->). pose proof (zlen_pos x Hxne). case_bool; [|lia].
    assert (Hle : zlen pend + zlen x <= rw b2) by (rewrite Hw2, E, zlen_app; pose proof (zlen_nonneg y); lia).
    replace (zlen pend + (zlen x - 1) + 1) with (zlen (pend ++ x)) by (rewrite zlen_app; lia).
    assert (Hbuf : rbuf b2 = (pend ++ x) ++ (y ++ post)) by (rewrite Ep, E, <- !app_assoc; done).
    rewrite Hbuf, slice_prefix. cbn [mbind outcome_bind]. go_ret.
    assert (Hb3 : binv (set_pos (zlen (pend ++ x)) (rw b2) b2) (pend ++ x) y).
    { rewrite E, app_assoc in Hb2. apply binv_take in Hb2. rewrite Hr2 in Hb2. by rewrite Z.add_0_l in Hb2. }
    eapply sliced_intro; [congruence|congruence|lia|exact Hb3|]. left. rewrite <- Hs, <- Hs2, Hst. rewrite <- app_assoc, split_at_app, Hno, split_at_app, Hsp.
    cbn [mbind option_bind]. split_and!; try done. rewrite zlen_app. lia.
  - rewrite (split_at_None _ _ Hsp). cbn [Z.leb Z.compare].
    assert (Hno2 : split_at delim (pend ++ chunk) = None) by (by rewrite split_at_app, Hno, Hsp).
    unfold Buffered. rewrite Hr2, Hw2. destruct (Z.leb_spec (zlen (rbuf b2)) (0 + (zlen pend + zlen chunk) - 0)).
    + go_ret. assert (post = []) as -> by (apply (f_equal zlen) in Ep; rewrite !zlen_app in Ep; destruct post; [done|rewrite zlen_cons in Ep; pose proof (zlen_nonneg post); lia]).
      rewrite app_nil_r in Ep. pose proof (binv_all _ _ _ Hb2) as Hb3. cbn [app] in Hb3. rewrite Hw2 in Hb3.
      eapply sliced_intro; [congruence|congruence|lia|exact Hb3|]. right; left. rewrite <- Hs, <- Hs2, Hst, Ep, <- Hl, <- Hl2, Ep. by split_and!.
    + go_ret. split; [unfold reach; split_and!; try congruence; [by eexists _, _|lia]|]. split; [by exists [], (pend ++ chunk)|]. apply Hc2. lia.
Qed.

Lemma ReadSlice_spec fuel delim b : bok b -> (S (S (calls (rd b))) < fuel)%nat ->
  returns (ReadSlice fuel delim b) (fun '(line, e, b') => sliced delim b line e b').
Proof.
  intros (pre & pend & Hb) Hf. unfold ReadSlice. rewrite (pending_spec _ _ _ Hb). cbn [mbind outcome_bind].
  pose proof (binv_range _ _ _ Hb). pose proof Hb as (_ & (post & Ep) & Hr & Hw & _). pose proof (zlen_nonneg pre). pose proof (zlen_nonneg pend).
  destruct (split_at delim pend) as [[x y]|] eqn:Hsp.
  - destruct (split_at_Some _ _ _ _ Hsp) as (E & Hx & ->). pose proof (zlen_pos x Hx). case_bool; [|lia].
    replace (rr b + (zlen x - 1) + 1) with (rr b + zlen x) by lia. replace (rr b + (zlen x - 1 + 1)) with (rr b + zlen x) by lia.
    assert (slice (rbuf b) (rr b) (rr b + zlen x) = Done x) as -> by (rewrite Ep, E, Hr, <- app_assoc; apply slice_mid).
    cbn [mbind outcome_bind]. go_ret. eapply sliced_intro; [done|done|done|apply (binv_take b pre x y); by rewrite <- E|].
    left. rewrite (bstream_spec _ _ _ Hb), split_at_app, Hsp. split_and!; try done. rewrite E, zlen_app in *. pose proof (zlen_nonneg y). lia.
  - rewrite (split_at_None _ _ Hsp). cbn [Z.leb Z.compare].
    apply (loop_returns (fun b1 => reach b b1 /\ exists pre pend, binv b1 pre pend /\ split_at delim pend = None)
      (fun b => match rerr b with None => S (calls (rd b)) | Some _ => O end)).
    + intros b1 (Hr1 & pre1 & pend1 & Hb1 & Hno). destruct (rerr b1) as [x|] eqn:Hx.
      * rewrite (pending_spec _ _ _ Hb1). cbn [mbind outcome_bind readErr rerr set_pos]. go_ret. rewrite Hx.
        destruct (binv_end _ _ _ _ Hb1 Hx) as [-> Hs1]. destruct Hr1 as (_ & Hs & He & Hl & _ & _ & Hc).
        pose proof (binv_range _ _ _ Hb1). pose proof (zlen_nonneg pre1). pose proof (binv_all _ _ _ Hb1) as Hb2. apply binv_readErr in Hb2.
        unfold sliced. split; [by eexists _, _|]. split; [|done]. right; right. rewrite <- Hs, Hs1, He.
        assert (Hnil : bstream (set_rerr None (set_pos (rw b1) (rw b1) b1)) = stream (rd b1)) by exact (bstream_spec _ _ _ Hb2).
        rewrite Hnil. destruct Hb1 as (_ & _ & _ & _ & _ & Hend). destruct (Hend _ Hx) as [_ ->]. split_and!; try done. lia.
      * go_mono read_slice_step; [done|done|done|done|]. intros [b2|[[line e] b2]]; [|done]. intros (? & ? & Hc2). split; [done|].
        destruct (rerr b2); [lia|]. specialize (Hc2 eq_refl). lia.
    + split; [apply reach_refl; by eexists _, _|]. by exists pre, pend.
    + destruct (rerr b); lia.
Qed.

Lemma ReadLine_spec fuel b : bok b -> (S (S (calls (rd b))) < fuel)%nat ->
  returns (ReadLine fuel b) (fun '(line, isPrefix, e, b') => exists raw e0, sliced 10 b raw e0 b' /\
    (line, isPrefix, e) = if decide (e0 = Some ErrBufferFull) then (raw, true, None) else (trim_eol raw, false, if decide (raw = []) then e0 else None)).
Proof.
  intros Hok Hf. unfold ReadLine. go_call ReadSlice_spec; [done|done|]. intros [[raw e0] b'] Hs. case_decide as He.
  { go_ret. exists raw, e0. by rewrite decide_True. }
  destruct (decide (raw = [])) as [->|Hne].
  { change (zlen (@nil Z)) with 0. cbn [Z.eqb]. go_ret. exists [], e0. by rewrite decide_False. }
  pose proof (zlen_pos raw Hne). case_bool; [lia|]. rewrite (trim_bind 10 raw _ Hne).
  assert (Ht : forall (l : list Z), (if 0 <? zlen l then c ← idx l (zlen l - 1); if c =? 13 then slice l 0 (zlen l - 1) else Done l else Done l) = Done (drop_end 13 l)).
  { intros l. destruct (decide (l = [])) as [->|Hl]; [done|]. pose proof (zlen_pos l Hl). case_bool; [|lia]. by apply trim_step. }
  rewrite Ht. cbn [mbind outcome_bind]. go_ret. exists raw, e0. by rewrite !decide_False.
Qed.

(** What ReadBytes returns from the stream [s]. *)
Definition bytes_result (delim : Z) (s : list Z) (last : error) : list Z * option error * list Z :=
  match split_at delim s with Some (x, y) => (x, None, y) | None => (s, Some last, []) end.

Lemma Reader_ReadBytes_spec fuel delim b : bok b -> bending b <> ErrBufferFull -> zlen (bstream b) < 2 ^ 31 ->
  (calls (rd b) + length (bstream b) + 3 < fuel)%nat ->
  returns (Reader_ReadBytes fuel delim b) (fun '(line, e, b') => (line, e, bstream b') = bytes_result delim (bstream b) (bending b) /\
    bok b' /\ bending b' = bending b /\ zlen (rbuf b') = zlen (rbuf b) /\ (calls (rd b') <= calls (rd b))%nat).
Proof.
  intros Hok Hne Hmax Hf. unfold Reader_ReadBytes.
  set (inv := fun b1 => bok b1 /\ bending b1 = bending b /\ zlen (rbuf b1) = zlen (rbuf b) /\ (calls (rd b1) <= calls (rd b))%nat).
  eapply (returns_bind _ _ (fun '(full, frag, e, b1) => inv b1 /\
    (concat full ++ frag, e, bstream b1) = bytes_result delim (bstream b) (bending b))).
  - apply (loop_returns (fun '(full, b1) => inv b1 /\ bstream b = concat full ++ bstream b1 /\ split_at delim (concat full) = None)
      (fun '(_, b1) => length (bstream b1))); [|split_and!; done|lia].
    intros [full b1] ((Hok1 & He1 & Hl1 & Hc1) & Hs1 & Hno). pose proof (f_equal length Hs1) as Hlen. rewrite length_app in Hlen.
    go_call ReadSlice_spec; [done|lia|]. intros [[frag e] b2] (Hok2 & Hsl & He2 & Hl2 & Hc2). rewrite He1, Hl1 in *.
    assert (Hinv2 : inv b2) by (unfold inv; split_and!; first [done|congruence|lia]).
    unfold bytes_result. rewrite Hs1, split_at_app, Hno. destruct Hsl as [(Hsp & _ & ->)|[(Hsp & E & Hfull & ->)|(Hsp & E & Hnil & _ & ->)]].
    + rewrite decide_True by done. go_ret. split; [done|]. by rewrite Hsp.
    + rewrite decide_False, decide_False by naive_solver. go_ret. split.
      * split; [done|]. rewrite concat_app. cbn [concat]. rewrite app_nil_r. split; [by rewrite E, app_assoc|]. by rewrite split_at_app, Hno, Hsp.
      * apply (f_equal length) in E. rewrite length_app in E. destruct Hok1 as (? & ? & (_ & _ & _ & _ & Hpos & _)).
        unfold zlen in *. lia.
    + rewrite decide_False, decide_True by naive_solver. go_ret. split; [done|]. by rewrite E, Hsp, Hnil.
  - intros [[[full frag] e] b1] [(Hok1 & He1 & Hl1 & Hc1) Hres].
    assert (Hlen : zlen (concat full ++ frag) <= zlen (bstream b)).
    { unfold bytes_result in Hres. destruct (split_at delim (bstream b)) as [[x y]|] eqn:Hsp; [|by injection Hres as -> _ _].
      destruct (split_at_Some _ _ _ _ Hsp) as (-> & _). injection Hres as -> _ _. rewrite zlen_app. pose proof (zlen_nonneg y). lia. }
    rewrite foldl_zlen, Z.add_0_l, <- zlen_app. pose proof (zlen_nonneg (concat full ++ frag)). rewrite int_small by lia.
    unfold make_bytes. case_bool; [lia|]. cbn [mbind outcome_bind]. set (buf := replicate _ 0).
    assert (Hbl : zlen buf = zlen (concat full) + zlen frag) by (unfold buf; rewrite zlen_replicate, zlen_app in *; lia).
    pose proof (zlen_nonneg frag). pose proof (copy_full_spec full [] buf ltac:(lia)) as Hcf. cbn [app] in Hcf.
    change (zlen (@nil Z)) with 0 in Hcf. rewrite Hcf. cbn [mbind outcome_bind].
    rewrite copy_prefix by (rewrite zlen_drop; unfold zlen in *; lia). cbn [mbind outcome_bind]. go_ret.
    rewrite (drop_ge (drop _ _)) by (rewrite length_drop; unfold zlen in *; lia). rewrite app_nil_r. by split_and!.
Qed.
End Slice.

(** * Specification: a stream of bytes *)

(** What the next Unread operation puts back.  [Gone] is the state after an Unread
    operation or a failed read, [Unknown] that after an operation which does not
    keep the record of the last byte and rune. *)
Inductive bundo := Fresh | UByte (c : Z) | URune (p : list Z) | Gone | Unknown.

Inductive rop := ReadByte_rop | ReadRune_rop | ReadBytes_rop (delim : Z) | ReadLine_rop | Peek_rop (n : Z) | UnreadByte_rop | UnreadRune_rop.

Definition exec_rop {R} `{Reader R} (fuel : nat) (o : rop) (b : bReader R) : outcome (bres * bReader R) :=
  match o with
  | ReadByte_rop => '(c, e, b) ← Reader_ReadByte fuel b; Done (ResRune c 1 e, b)
  | ReadRune_rop => '(r, n, e, b) ← Reader_ReadRune fuel b; Done (ResRune r n e, b)
  | ReadBytes_rop d => '(p, e, b) ← Reader_ReadBytes fuel d b; Done (ResBytes p e, b)
  | ReadLine_rop => '(p, isPrefix, e, b) ← ReadLine fuel b; Done (ResLine p isPrefix e, b)
  | Peek_rop n => '(p, e, b) ← Peek fuel n b; Done (ResBytes p e, b)
  | UnreadByte_rop => '(e, b) ← Reader_UnreadByte b; Done (ResErr e, b)
  | UnreadRune_rop => let '(e, b) := Reader_UnreadRune b in Done (ResErr e, b)
  end.

(** The line at the head of a stream without its end-of-line bytes, or a full buffer
    of it with isPrefix set.  What happens when the last line has no newline and
    just fits the buffer depends on the reader. *)
Definition line_result (size : Z) (s : list Z) (last : error) : option (list Z * bool * option error * list Z) :=
  let prefix := Some (take (Z.to_nat size) s, true, None, drop (Z.to_nat size) s) in
  match split_at 10 s with
  | Some (x, y) => if zlen x <=? size then Some (trim_eol x, false, None, y) else prefix
  | None =>
      if zlen s <? size then Some (trim_eol s, false, if decide (s = []) then Some last else None, [])
      else if size <? zlen s then prefix else None
  end.

(** The operations on a stream that ends with the error [last], through a buffer
    of [size] bytes.  Not defined are ReadRune with a buffer that has no room for
    every rune, Peek of more than the buffer, and the Unread operations where their
    result depends on the state of the buffer. *)
Definition spec_rop (size : Z) (last : error) (o : rop) (st : list Z * bundo) : option (bres * (list Z * bundo)) :=
  let '(s, u) := st in
  match o with
  | ReadByte_rop => match s with [] => Some (ResRune 0 1 (Some last), ([], Gone)) | c :: t => Some (ResRune c 1 None, (t, UByte c)) end
  | ReadRune_rop =>
      if size <? UTFMax then None else
      match s with
      | [] => Some (ResRune 0 0 (Some last), ([], Gone))
      | _ => let '(r, n) := DecodeRune s in Some (ResRune r n None, (drop (Z.to_nat n) s, URune (take (Z.to_nat n) s)))
      end
  | ReadBytes_rop d => let '(x, e, y) := bytes_result d s last in Some (ResBytes x e, (y, Unknown))
  | ReadLine_rop => '(p, isPrefix, e, y) ← line_result size s last; Some (ResLine p isPrefix e, (y, Unknown))
  | Peek_rop n =>
      if decide (0 <= n <= size) then
        let p := take (Z.to_nat n) s in Some (ResBytes p (if zlen p <? n then Some last else None), (s, Unknown))
      else None
  | UnreadByte_rop =>
      match u with
      | Fresh => Some (ResErr (Some ErrInvalidUnreadByte), (s, Fresh))
      | UByte c => Some (ResErr None, (c :: s, Gone))
      | URune p => c ← p.[zlen p - 1]; Some (ResErr None, (c :: s, Gone))
      | Gone | Unknown => None
      end
  | UnreadRune_rop =>
      match u with
      | URune p => Some (ResErr None, (p ++ s, Gone))
      | Unknown => None
      | _ => Some (ResErr (Some ErrInvalidUnreadRune), (s, u))
      end
  end.

(** A result of the operation, where the specification has [spec].  Peek may
    return the error that ends the stream also when all bytes came. *)
Definition result_ok (last : error) (o : rop) (res spec : bres) : Prop :=
  res = spec \/ exists n p, o = Peek_rop n /\ spec = ResBytes p None /\ res = ResBytes p (Some last).

Section Refine.
Context {R : Type} `{HR : Reader R} {HL : ReaderLaws R} {HE : EmptyReads R}.
Implicit Types (b : bReader R).

Definition bundo_ok (u : bundo) (pre : list Z) (lb lr : Z) : Prop :=
  match u with
  | Fresh => pre = [] /\ lb = -1 /\ lr = -1
  | UByte c => (exists x, pre = x ++ [c]) /\ is_byte c /\ lb = c /\ lr = -1
  | URune p => (exists x, pre = x ++ p) /\ Forall is_byte p /\ (exists x, p = x ++ [lb]) /\ lr = zlen p /\ (length p <= 4)%nat
  | Gone => lr = -1
  | Unknown => True
  end.

Definition reader_rel (size : Z) (last : error) (k : nat) b (st : list Z * bundo) : Prop :=
  (exists pre pend, binv b pre pend /\ bundo_ok st.2 pre (lastByte b) (lastRuneSize b)) /\ bstream b = st.1 /\ bending b = last /\
  zlen (rbuf b) = size /\ Forall is_byte st.1 /\ (calls (rd b) + length st.1 <= k)%nat.

Lemma rel_ok size last k b st : reader_rel size last k b st -> bok b.
Proof. intros ((pre & pend & Hb & _) & _). by exists pre, pend. Qed.

(** Moving back. *)
Lemma binv_back b x p pend : binv b (x ++ p) pend -> binv (set_pos (rr b - zlen p) (rw b) b) x (p ++ pend).
Proof.
  intros (Hi & (post & E) & Hr & Hw & Hl & He). unfold binv. cbn. rewrite !zlen_app in *. split_and!; try done; try lia.
  exists post. by rewrite E, <- !app_assoc.
Qed.

Lemma Reader_UnreadByte_spec b x c pend : binv b (x ++ [c]) pend -> is_byte c -> lastByte b = c ->
  exists b' pre', Reader_UnreadByte b = Done (None, b') /\ binv b' pre' (c :: pend) /\ lastRuneSize b' = -1 /\ rd b' = rd b /\ zlen (rbuf b') = zlen (rbuf b).
Proof.
  intros Hb Hc Hlb. pose proof Hb as (Hi & (post & Ep) & Hr & Hw & Hl & He). unfold Reader_UnreadByte.
  cbn [rr rw lastByte rbuf set_lasts]. rewrite Hlb. unfold is_byte in Hc. pose proof (zlen_nonneg x). pose proof (zlen_nonneg pend).
  rewrite zlen_app in Hr, Hw. change (zlen [c]) with 1 in Hr, Hw. rewrite byte_small by done. case_bool.
  - assert (pend = []) as -> by (destruct pend; [done|rewrite zlen_cons in Hw; pose proof (zlen_nonneg pend); lia]).
    rewrite set_idx_done by lia. cbn [mbind outcome_bind]. eexists _, []. split; [done|]. unfold binv. cbn [rd rbuf rr rw rerr lastRuneSize set_pos set_lasts set_rbuf].
    rewrite zlen_insert. split_and!; try done; try lia. destruct (rbuf b) as [|d l]; [change (zlen (@nil Z)) with 0 in Hl; lia|]. by exists l.
  - case_bool; [lia|]. eexists _, x. split; [done|]. split_and!; try done. exact (binv_back b x [c] pend Hb).
Qed.

(** A step of the buffered reader, if the specification says what it does. *)
Definition refines_rop (size : Z) (last : error) (fuel : nat) (o : rop) : Prop :=
  forall b st res st' k, reader_rel size last k b st -> spec_rop size last o st = Some (res, st') -> (k + 3 < fuel)%nat ->
  zlen st.1 < 2 ^ 31 ->
  returns (exec_rop fuel o b) (fun '(res', b') => result_ok last o res' res /\ reader_rel size last (k + 4) b' st').

Lemma refines_ReadByte_rop size last fuel : refines_rop size last fuel ReadByte_rop.
Proof.
  intros b [s u] res st' k Hrel Hspec Hf _. pose proof (rel_ok _ _ _ _ _ Hrel) as Hok. destruct Hrel as (_ & Hs & He & Hl & Hb & Hk).
  cbn [fst snd exec_rop spec_rop] in *. go_call Reader_ReadByte_spec; [done|lia|]. intros [[c e] b'] (Hl' & He' & Hc & Hlr & Hres). go_ret.
  rewrite Hs in Hres. destruct s as [|x t]; simplify_eq.
  - destruct Hres as (-> & -> & (pre & pend & Hb') & Hnil). split; [by left|]. unfold reader_rel. cbn [fst snd length] in *. split_and!; try done; [|lia].
    by exists pre, pend.
  - destruct Hres as (-> & -> & Hlb & Ht & pre & pend & Hb'). apply Forall_cons_iff in Hb as [Hbx Hbt]. split; [by left|].
    unfold reader_rel. cbn [fst snd length] in *. split_and!; try done; [|lia]. exists (pre ++ [x]), pend. split; [done|]. split_and!; try done. by exists pre.
Qed.

Lemma refines_ReadRune_rop size last fuel : refines_rop size last fuel ReadRune_rop.
Proof.
  intros b [s u] res st' k Hrel Hspec Hf _. pose proof (rel_ok _ _ _ _ _ Hrel) as Hok. destruct Hrel as (_ & Hs & He & Hl & Hb & Hk).
  cbn [fst snd exec_rop spec_rop] in *. destruct (Z.ltb_spec size UTFMax) as [|H4]; [done|]. unfold UTFMax in H4.
  go_call Reader_ReadRune_spec; [done|lia|by rewrite Hs|lia|].
  intros [[[r n] e] b'] (Hl' & He' & Hc & Hres). go_ret. rewrite Hs in Hres. destruct s as [|x t].
  - destruct Hres as ([= -> ->] & -> & (pre & pend & Hb') & Hnil & Hlr). simplify_eq. split; [by left|]. unfold reader_rel. cbn [fst snd length] in *.
    split_and!; try done; [|lia]. by exists pre, pend.
  - destruct Hres as (p & q & c & y & E & Ep & Hd & -> & -> & Hq & Hlb & Hlr & pre & pend & Hb'). rewrite Hd, E, zlen_to_nat, take_app_length, drop_app_length in Hspec.
    injection Hspec as <- <-. rewrite E in Hb, Hk. apply Forall_app in Hb as [Hbp Hbq]. split; [by left|]. unfold reader_rel. cbn [fst snd] in *. rewrite length_app in Hk.
    split_and!; try done; [|congruence|congruence|lia]. exists (pre ++ p), pend. split; [done|]. split_and!; try done; [by exists pre|exists y; by rewrite Hlb|].
    pose proof (DecodeRune_width (x :: t)) as Hw. rewrite Hd in Hw. cbn in Hw. unfold zlen in Hw. lia.
Qed.

Lemma refines_ReadBytes_rop size last fuel d : last <> ErrBufferFull -> refines_rop size last fuel (ReadBytes_rop d).
Proof.
  intros Hne b [s u] res st' k Hrel Hspec Hf Hmax. pose proof (rel_ok _ _ _ _ _ Hrel) as Hok. destruct Hrel as (_ & Hs & He & Hl & Hb & Hk).
  cbn [fst snd exec_rop spec_rop] in *. go_call Reader_ReadBytes_spec; [done|congruence|by rewrite Hs|rewrite Hs; lia|].
  intros [[p e] b'] (Hres & (pre & pend & Hb') & He' & Hl' & Hc). go_ret. rewrite Hs, He in Hres. rewrite <- Hres in Hspec. injection Hspec as <- <-. split; [by left|].
  assert (Hsuf : exists x, s = x ++ bstream b').
  { unfold bytes_result in Hres. destruct (split_at d s) as [[x y]|] eqn:Hsp; [|injection Hres as _ _ ->; exists s; by rewrite app_nil_r].
    destruct (split_at_Some _ _ _ _ Hsp) as (E & _). injection Hres as _ _ ->. by exists x. }
  destruct Hsuf as [x Ex]. rewrite Ex in Hb, Hk. apply Forall_app in Hb as [_ Hb]. rewrite length_app in Hk. unfold reader_rel. cbn [fst snd].
  split_and!; try done; [by exists pre, pend|congruence|congruence|lia].
Qed.

Lemma line_determined size last raw e0 s s' : last <> ErrBufferFull -> slice_ok 10 size s last raw e0 s' ->
  forall r, line_result size s last = Some r ->
  r = (if decide (e0 = Some ErrBufferFull) then (raw, true, None) else (trim_eol raw, false, if decide (raw = []) then e0 else None), s').
Proof.
  intros Hne Hok r. unfold line_result. destruct Hok as [(Hsp & Hl & ->)|[(Hno & -> & Hl & ->)|(Hno & -> & -> & Hl & ->)]].
  - rewrite Hsp. case_bool; [|lia]. intros [= <-]. rewrite decide_False by done. by case_decide.
  - destruct (decide (Some ErrBufferFull = Some ErrBufferFull)) as [_|?]; [|done]. rewrite split_at_app, Hno, <- Hl, zlen_to_nat, take_app_length, drop_app_length, zlen_app.
    destruct (split_at 10 s') as [[x y]|] eqn:Hsp; cbn [mbind option_bind].
    + destruct (split_at_Some _ _ _ _ Hsp) as (_ & Hx & _). pose proof (zlen_pos x Hx). rewrite zlen_app. case_bool; [lia|]. by intros [= <-].
    + pose proof (zlen_nonneg s'). case_bool; [lia|]. case_bool; [|done]. by intros [= <-].
  - rewrite Hno. destruct (decide (Some last = Some ErrBufferFull)); [congruence|]. case_bool; [by intros [= <-]|]. case_bool; [lia|done].
Qed.

Lemma refines_ReadLine_rop size last fuel : last <> ErrBufferFull -> refines_rop size last fuel ReadLine_rop.
Proof.
  intros Hne b [s u] res st' k Hrel Hspec Hf Hmax. pose proof (rel_ok _ _ _ _ _ Hrel) as Hok. destruct Hrel as (_ & Hs & He & Hl & Hb & Hk).
  cbn [fst snd exec_rop spec_rop] in *. go_call ReadLine_spec; [done|lia|].
  intros [[[line isP] e] b'] (raw & e0 & ((pre & pend & Hb') & Hsl & He' & Hl' & Hc) & Hres). go_ret. rewrite Hs, He, Hl in Hsl.
  apply bind_Some in Hspec as (r & Hr & Hspec). pose proof (line_determined _ _ _ _ _ _ Hne Hsl _ Hr) as ->. rewrite <- Hres in Hspec.
  injection Hspec as <- <-. split; [by left|].
  assert (Hsuf : exists x, s = x ++ bstream b').
  { destruct Hsl as [(Hsp & _)|[(_ & -> & _)|(_ & -> & -> & _)]]; [|by eexists|exists raw; by rewrite app_nil_r].
    destruct (split_at_Some _ _ _ _ Hsp) as (-> & _). by eexists. }
  destruct Hsuf as [x Ex]. rewrite Ex in Hb, Hk. apply Forall_app in Hb as [_ Hb]. rewrite length_app in Hk. unfold reader_rel. cbn [fst snd].
  split_and!; try done; [by exists pre, pend|congruence|congruence|lia].
Qed.

Lemma refines_Peek_rop size last fuel n : refines_rop size last fuel (Peek_rop n).
Proof.
  intros b [s u] res st' k Hrel Hspec Hf _. pose proof (rel_ok _ _ _ _ _ Hrel) as Hok. destruct Hrel as (_ & Hs & He & Hl & Hb & Hk).
  cbn [fst snd exec_rop spec_rop] in *. case_decide as Hn; [|done]. simplify_eq.
  go_call Peek_spec; [done|done|lia|]. intros [[p e] b'] (-> & ((pre & pend & Hb') & Hs' & He' & Hl' & _ & _ & Hc) & Hshort & Hend). go_ret. split.
  - unfold result_ok. case_bool; [left; by rewrite Hshort|]. destruct e as [x|]; [|by left]. right. eexists _, _.
    split_and!; [done|done|]. by rewrite (Hend x eq_refl).
  - unfold reader_rel. cbn [fst snd]. split_and!; try done; [by exists pre, pend|lia].
Qed.

Lemma refines_Unread_rop size last fuel o : o = UnreadByte_rop \/ o = UnreadRune_rop -> refines_rop size last fuel o.
Proof.
  intros Ho b [s u] res st' k ((pre & pend & Hbv & Hu) & Hs & He & Hl & Hb & Hk) Hspec Hf _. cbn [fst snd] in *.
  pose proof (bstream_spec _ _ _ Hbv) as Hst. rewrite Hs in Hst.
  assert (Hput : forall b' pre' p, binv b' pre' (p ++ pend) -> lastRuneSize b' = -1 -> rd b' = rd b -> zlen (rbuf b') = zlen (rbuf b) ->
    Forall is_byte p -> (length p <= 4)%nat -> reader_rel size last (k + 4) b' (p ++ s, Gone)).
  { intros b' pre' p Hb' Hlr Hrd Hl' Hp H4. unfold reader_rel, bending in *. rewrite (bstream_spec _ _ _ Hb'), Hrd. cbn [fst snd].
    rewrite length_app. split_and!; try done; try lia; [by exists pre', (p ++ pend)|by rewrite Hst, app_assoc|by apply Forall_app]. }
  assert (Hsame : reader_rel size last (k + 4) b (s, u)).
  { unfold reader_rel. cbn [fst snd]. split_and!; try done; [by exists pre, pend|lia]. }
  destruct Ho as [-> | ->]; destruct u as [|c|p| |]; cbn [spec_rop exec_rop bundo_ok] in *; try done.
  - simplify_eq. destruct Hu as (-> & Hlb & Hlr). unfold Reader_UnreadByte. cbn [rr rw lastByte set_lasts]. rewrite Hlb, andb_false_r.
    destruct Hbv as (Hi & Ep & Hr & Hw). change (zlen (@nil Z)) with 0 in *. rewrite Hr. cbn [Z.leb Z.compare mbind outcome_bind]. go_ret. split; [by left|].
    unfold reader_rel. cbn [fst snd]. split_and!; try done; [|cbn [rd set_lasts]; lia]. exists [], pend. split; [done|]. by cbn.
  - simplify_eq. destruct Hu as ([x ->] & Hc & Hlb & Hlr). destruct (Reader_UnreadByte_spec b x c pend Hbv Hc Hlb) as (b' & pre' & -> & ? & ? & ? & ?).
    cbn [mbind outcome_bind]. go_ret. split; [by left|]. apply (Hput b' pre' [c]); try done; [by constructor|cbn; lia].
  - destruct Hu as ([x ->] & Hp & [y ->] & Hlr & H4). rewrite last_at in Hspec. cbn [mbind option_bind] in Hspec. simplify_eq.
    rewrite app_assoc in Hbv. apply Forall_app in Hp as [_ Hp]. apply Forall_cons_iff in Hp as [Hc _].
    destruct (Reader_UnreadByte_spec b _ _ pend Hbv Hc eq_refl) as (b' & pre' & -> & ? & ? & ? & ?).
    cbn [mbind outcome_bind]. go_ret. split; [by left|]. apply (Hput b' pre' [lastByte b]); try done; [by constructor|cbn; lia].
  - simplify_eq. destruct Hu as (-> & Hlb & Hlr). unfold Reader_UnreadRune. rewrite Hlr. cbn [Z.ltb Z.compare orb]. go_ret. split; [by left|done].
  - simplify_eq. destruct Hu as ([x ->] & Hc & Hlb & Hlr). unfold Reader_UnreadRune. rewrite Hlr. cbn [Z.ltb Z.compare orb]. go_ret. split; [by left|done].
  - simplify_eq. destruct Hu as ([x ->] & Hp & [y Ey] & Hlr & H4). unfold Reader_UnreadRune. rewrite Hlr.
    pose proof (zlen_nonneg p). pose proof Hbv as (_ & _ & Hr & _). rewrite zlen_app in Hr. pose proof (zlen_nonneg x).
    assert (0 < zlen p) by (rewrite Ey, zlen_app; change (zlen [lastByte b]) with 1; pose proof (zlen_nonneg y); lia).
    case_bool; [lia|]. go_ret. split; [by left|]. apply (Hput _ x p); try done; by apply (binv_back b x p pend).
  - simplify_eq. unfold Reader_UnreadRune. rewrite Hu. cbn [Z.ltb Z.compare orb]. go_ret. split; [by left|done].
Qed.

Lemma exec_rop_refines size last fuel o : last <> ErrBufferFull -> refines_rop size last fuel o.
Proof.
  intros Hl. destruct o; [apply refines_ReadByte_rop|apply refines_ReadRune_rop|by apply refines_ReadBytes_rop|by apply refines_ReadLine_rop|apply refines_Peek_rop|..];
    apply refines_Unread_rop; auto.
Qed.
End Refine.

(** Sequences of operations. *)
Fixpoint exec_rops {R} `{Reader R} (fuel : nat) (os : list rop) (b : bReader R) : outcome (list bres * bReader R) :=
  match os with
  | [] => Done ([], b)
  | o :: os => '(r, b) ← exec_rop fuel o b; '(rs, b) ← exec_rops fuel os b; Done (r :: rs, b)
  end.

Fixpoint spec_rops (size : Z) (last : error) (os : list rop) (st : list Z * bundo) : option (list bres * (list Z * bundo)) :=
  match os with
  | [] => Some ([], st)
  | o :: os => '(r, st) ← spec_rop size last o st; '(rs, st) ← spec_rops size last os st; Some (r :: rs, st)
  end.

(** ReadRune on a buffer that is too small for the rune. *)
Lemma fill_forever (test : bReader Buffer -> outcome bool) b : test b = Done false -> rerr b = None -> fill b = Done b ->
  forall fuel, fill_until fuel test b = OutOfFuel.
Proof.
  intros Ht He Hfill. unfold fill_until. induction fuel as [|fuel IH]; [done|]. cbn [loop]. rewrite Ht, He. cbn [mbind outcome_bind negb andb].
  rewrite bool_decide_true by done. rewrite Hfill. cbn [mbind outcome_bind]. exact IH.
Qed.

Lemma small_buffer_diverges :
  exists small, NewReaderSize (NewBufferString [0xC3; 0xA9]) 1 = Done (inl small) /\ forall fuel, Reader_ReadRune fuel small = OutOfFuel.
Proof.
  eexists. split; [reflexivity|]. intros fuel. unfold Reader_ReadRune.
  set (test := fun b : bReader Buffer => data ← pending b; Done (negb ((rw b <? rr b + UTFMax) && negb (FullRune data)))).
  assert (fill_until fuel test (MkReader [0] (NewBufferString [0xC3; 0xA9]) 0 0 None (-1) (-1)) = OutOfFuel) as E; [|exact (f_equal (fun m => m ≫= _) E)].
  do 2 (destruct fuel as [|fuel]; [reflexivity|]).
  exact (fill_forever test (MkReader [0xC3] (set_last opInvalid (set_off 1 (NewBufferString [0xC3; 0xA9]))) 0 1 None (-1) (-1)) eq_refl eq_refl eq_refl fuel).
Qed.

Section Properties.
Context {R : Type} `{HR : Reader R} {HL : ReaderLaws R} {HE : EmptyReads R}.

Lemma exec_rops_refines size last fuel os : last <> ErrBufferFull -> forall (b : bReader R) st rs st' k,
  reader_rel size last k b st -> spec_rops size last os st = Some (rs, st') -> (k + 4 * length os + 3 < fuel)%nat ->
  Z.of_nat (k + 4 * length os) < 2 ^ 31 ->
  returns (exec_rops fuel os b) (fun '(rs', b') => Forall3 (result_ok last) os rs' rs /\ bstream b' = st'.1).
Proof.
  intros Hl. induction os as [|o os IH]; intros b st rs st' k Hrel Hs Hf Hmax; cbn [exec_rops spec_rops] in *.
  { simplify_eq. go_ret. split; [constructor|]. apply Hrel. }
  cbn [length] in *. apply bind_Some in Hs as ([r st1] & Hs1 & Hs). apply bind_Some in Hs as ([rs1 st2] & Hs2 & Hs). simplify_eq.
  go_call (exec_rop_refines size last fuel o Hl b st r st1 k Hrel Hs1); [lia| |].
  { destruct Hrel as (_ & _ & _ & _ & _ & Hk). unfold zlen. lia. }
  intros [r' b1] [Hr1 Hrel1]. go_call (IH b1 st1 rs1 st' (k + 4)%nat Hrel1 Hs2); [lia|lia|]. intros [rs' b2] [Hrs2 Hb2]. go_ret.
  split; [by constructor|done].
Qed.

Lemma NewReaderSize_spec (r : R) size : reader_inv r -> 0 < size < 2 ^ 31 ->
  exists b, NewReaderSize r size = Done (inl b) /\ binv b [] [] /\ rd b = r /\ zlen (rbuf b) = size /\ lastByte b = -1 /\ lastRuneSize b = -1.
Proof.
  intros Hi Hs. unfold NewReaderSize, make_bytes. case_bool; [lia|]. case_bool; [lia|]. cbn [mbind outcome_bind]. eexists. split; [done|].
  assert (Hz : zlen (replicate (Z.to_nat size) 0) = size) by (rewrite zlen_replicate; lia).
  unfold binv. cbn [rd rbuf rr rw rerr lastByte lastRuneSize]. rewrite Hz. split_and!; try done; try lia. by eexists.
Qed.

(** C22. A buffered reader is the stream of the reader below, for any reader that
    keeps the laws of io.Reader (also when it is asked for no bytes) and does not
    end with the error ErrBufferFull: through a buffer of any positive size, every
    sequence of ReadByte, ReadRune, ReadBytes, ReadLine, Peek and the Unread
    operations for which the specification on the stream is defined returns what
    the specification returns, with the error of the reader at the end, whatever
    the sizes of the reader's answers, as long as the stream and the number of
    calls fit 32 bits; only Peek may return that error also with all its bytes.  The specification is not defined for ReadRune with a buffer
    below four bytes, Peek of more than the buffer, ReadLine of a last line without
    a newline that just fills the buffer, the Unread operations after ReadBytes,
    ReadLine or Peek, and UnreadByte after another Unread operation or a failed
    read.  The buffered reader keeps the laws of io.Reader with the same stream, so
    that it can take the reader's place. *)
Theorem bufio_reader_refines (r : R) size os fuel rs st : reader_inv r -> 0 < size < 2 ^ 31 -> Forall is_byte (stream r) ->
  ending r <> ErrBufferFull -> (calls r + length (stream r) + 4 * length os + 3 < fuel)%nat ->
  Z.of_nat (calls r + length (stream r) + 4 * length os) < 2 ^ 31 ->
  spec_rops size (ending r) os (stream r, Fresh) = Some (rs, st) ->
  exists b, NewReaderSize r size = Done (inl b) /\ reader_inv b /\ stream b = stream r /\ ending b = ending r /\
    returns (exec_rops fuel os b) (fun '(rs', b') => Forall3 (result_ok (ending r)) os rs' rs /\ stream b' = st.1).
Proof.
  intros Hi Hsize Hb He Hf Hmax Hs. destruct (NewReaderSize_spec r size Hi) as (b & Hnew & Hbv & Hrd & Hl & Hlb & Hlr); [lia|].
  assert (Hst : bstream b = stream r) by (by rewrite (bstream_spec _ _ _ Hbv), Hrd).
  exists b. split; [done|]. split; [by exists [], []|]. split; [done|]. split; [by rewrite <- Hrd|].
  eapply (exec_rops_refines size (ending r) fuel os); [done| |done|exact Hf|exact Hmax].
  unfold reader_rel. cbn [fst snd]. split_and!; try done; [|by rewrite <- Hrd|rewrite Hrd; lia]. exists [], []. by split_and!.
Qed.

(** C25. The loops of the reader end: each operation returns, with as many calls of the
    reader below as it has bytes left and calls without an error, if the buffer has
    room for a rune.  A smaller buffer is accepted by NewReaderSize, and ReadRune
    then asks forever for bytes that have no place in the buffer: on the two bytes
    of U+00E9 and a buffer of one byte there is no number of calls after which it
    returns. *)
Theorem bufio_reader_terminates (b : bReader R) delim n fuel :
  reader_inv b -> 4 <= zlen (rbuf b) -> Forall is_byte (stream b) -> ending b <> ErrBufferFull -> zlen (stream b) < 2 ^ 31 ->
  (calls b + 3 < fuel)%nat ->
  (returns (Reader_ReadByte fuel b) (fun _ => True) /\ returns (Reader_ReadRune fuel b) (fun _ => True) /\
   returns (Peek fuel n b) (fun _ => True) /\ returns (ReadSlice fuel delim b) (fun _ => True) /\
   returns (ReadLine fuel b) (fun _ => True) /\ returns (Reader_ReadBytes fuel delim b) (fun _ => True)) /\
  exists small, NewReaderSize (NewBufferString [0xC3; 0xA9]) 1 = Done (inl small) /\ forall fuel, Reader_ReadRune fuel small = OutOfFuel.
Proof.
  intros Hi H4 Hb Hl Hmax Hf. change (calls b) with (calls (rd b) + length (bstream b))%nat in Hf. split; [|exact small_buffer_diverges]. split_and!.
  - go_mono Reader_ReadByte_spec; [done|lia|done].
  - go_mono Reader_ReadRune_spec; [done|done|done|lia|done].
  - destruct (decide (0 <= n <= zlen (rbuf b))) as [Hn|Hn]; [go_mono Peek_spec; [done|done|lia|done]|].
    unfold Peek. case_bool; [by go_ret|]. case_bool; [by go_ret|lia].
  - go_mono ReadSlice_spec; [done|lia|done].
  - go_mono ReadLine_spec; [done|lia|done].
  - go_mono Reader_ReadBytes_spec; [done|done|done|lia|done].
Qed.
End Properties.

Lemma bufio_reader_refines_witness :
  let os := [ReadLine_rop; Peek_rop 2; ReadRune_rop; UnreadRune_rop; ReadRune_rop; ReadByte_rop; UnreadByte_rop; ReadBytes_rop 10; ReadByte_rop] in
  exists b rs b', NewReaderSize (NewBufferString (lit "ab" ++ [13; 10; 0xE2; 0x82; 0xAC] ++ lit "cdefg")) 4 = Done (inl b) /\
    exec_rops 64 os b = Done (rs, b') /\ stream b' = [] /\
    Forall3 (result_ok EOF) os rs [ResLine (lit "ab") false None; ResBytes [0xE2; 0x82] None; ResRune 0x20AC 3 None; ResErr None;
      ResRune 0x20AC 3 None; ResRune 99 1 None; ResErr None; ResBytes (lit "cdefg") (Some EOF); ResRune 0 1 (Some EOF)].
Proof.
  pose proof (bufio_reader_refines (NewBufferString (lit "ab" ++ [13; 10; 0xE2; 0x82; 0xAC] ++ lit "cdefg")) 4
    [ReadLine_rop; Peek_rop 2; ReadRune_rop; UnreadRune_rop; ReadRune_rop; ReadByte_rop; UnreadByte_rop; ReadBytes_rop 10; ReadByte_rop] 64) as H.
  edestruct H as (b & Hnew & _ & _ & _ & (x & Hx & HQ)); [by apply NewBufferString_ok|lia| |discriminate|vm_compute; lia|reflexivity|vm_compute; reflexivity|].
  { apply (bool_decide_unpack _). vm_compute. exact I. }
  destruct x as [rs b']. destruct HQ as [Hrs Hs]. exists b, rs, b'. split_and!; [exact Hnew|exact Hx|exact Hs|exact Hrs].
Defined.

Lemma bufio_reader_terminates_witness : exists x, Reader_ReadRune 8 (MkReader [0; 0; 0; 0] (NewBufferString [97]) 0 0 None (-1) (-1)) = Done x.
Proof.
  edestruct (bufio_reader_terminates (MkReader [0; 0; 0; 0] (NewBufferString [97]) 0 0 None (-1) (-1)) 10 1 8) as ((_ & (x & Hx & _) & _) & _).
  - exists [], []. split_and!; try done; [by apply NewBufferString_ok|by eexists].
  - done.
  - by repeat constructor.
  - discriminate.
  - done.
  - vm_compute. lia.
  - by exists x.
Defined.

(** ** Departures from the comments *)

(** A reader that returns the error with its last bytes, as io.Reader allows. *)
Record Burst := MkBurst { burst : list Z }.

Definition Burst_Read (r : Burst) (p : list Z) : outcome (list Z * Z * option error * Burst) :=
  let n := Z.min (zlen p) (zlen (burst r)) in
  let rest := drop (Z.to_nat n) (burst r) in
  Done (take (Z.to_nat n) (burst r) ++ drop (Z.to_nat n) p, n, if decide (rest = []) then Some EOF else None, MkBurst rest).

#[export] Instance Burst_Reader : Reader Burst := Burst_Read.

Lemma Burst_Read_law (r : Burst) p : True -> 0 < zlen p < 2 ^ 31 ->
  returns (Read r p) (fun '(p', n, e, r') => True /\ read_ok burst (fun _ => EOF) (fun r => length (burst r)) r p p' n e r').
Proof.
  intros _ Hp. unfold Read, Burst_Reader, Burst_Read. go_ret. split; [done|]. unfold read_ok. cbn [burst].
  pose proof (zlen_nonneg (burst r)). set (n := Z.min _ _). rewrite zlen_app, zlen_take, zlen_drop. split_and!; try done; try lia.
  - rewrite take_app_length' by (rewrite length_take; unfold zlen in *; lia). by rewrite take_drop.
  - case_decide as Hr; [rewrite Hr; split_and!; [done|done|cbn [length]; lia]|]. rewrite length_drop. unfold zlen in *.
    assert (length (drop (Z.to_nat n) (burst r)) <> 0)%nat by (by destruct (drop _ _)). rewrite length_drop in *. lia.
Qed.

#[export] Instance Burst_ReaderLaws : ReaderLaws Burst := {
  reader_inv := fun _ => True; stream := burst; ending := fun _ => EOF; calls := fun r => length (burst r); Read_spec := Burst_Read_law }.

(** Where the reader departs from its comments.  ReadSlice, and with it ReadBytes
    and ReadLine, does not record what it read: UnreadByte after it puts back the
    byte of an older ReadByte when the buffer is empty, and UnreadRune after it
    succeeds.  Two bytes can be unread if more are in the buffer.  Read with an empty slice returns the error
    that waits behind bytes that were not yet read. *)
Example bufio_unread_departs :
  let new {R} (r : R) := MkReader (replicate 16 0) r 0 0 None (-1) (-1) in
  (exists b, exec_rops 9 [ReadByte_rop; ReadBytes_rop 10; UnreadByte_rop; ReadByte_rop] (new (NewBufferString (lit "ab" ++ [10]))) =
    Done ([ResRune 97 1 None; ResBytes (lit "b" ++ [10]) None; ResErr None; ResRune 97 1 None], b)) /\
  (exists b, exec_rops 9 [ReadRune_rop; ReadLine_rop; UnreadRune_rop; ReadRune_rop] (new (NewBufferString (lit "ab" ++ [10]))) =
    Done ([ResRune 97 1 None; ResLine (lit "b") false None; ResErr None; ResRune 10 1 None], b)) /\
  (exists b, exec_rops 9 [ReadByte_rop; ReadByte_rop; UnreadByte_rop; UnreadByte_rop; ReadByte_rop] (new (NewBufferString (lit "abc"))) =
    Done ([ResRune 97 1 None; ResRune 98 1 None; ResErr None; ResErr None; ResRune 97 1 None], b)) /\
  (exists b b', Reader_ReadByte 9 (new (MkBurst (lit "ab"))) = Done (97, None, b) /\ Reader_Read b [] = Done ([], 0, Some EOF, b') /\ stream b' = lit "b").
Proof. split_and!; [eexists; vm_compute; reflexivity..|]. eexists _, _. split_and!; vm_compute; reflexivity. Qed.
