(* ===== verification/BufioWriter.v ===== *)
(** Package bufio (src/go/src/pkg/bufio/bufio.go): buffered writers, over any
    writer that keeps the contract of package io.

    A buffered writer is a writer again: what it has accepted is what the writer
    below has accepted, and then what is in the buffer, also after an error. *)

From S2P Require Import Prelude Io Utf8 Buffer Bufio.

(** * Code *)

Section Writer.
Context {W : Type} `{Writer W}.

Record bWriter := MkWriter { werr : option error; wbuf : list Z; wn : Z; wr : W }.

(** NewWriterSize of a writer that is not itself a bufio.Writer. *)
Definition NewWriterSize (w : W) (size : Z) : outcome (bWriter + error) :=
  if size <=? 0 then e ← BufSizeError size; Done (inr e) else
  buf ← make_bytes size;
  Done (inl (MkWriter None buf 0 w)).

Definition NewWriter (w : W) : outcome bWriter :=
  b ← NewWriterSize w defaultBufSize;
  match b with inl b => Done b | inr _ => Panic end.

Definition Flush (b : bWriter) : outcome (option error * bWriter) :=
  match werr b with
  | Some e => Done (Some e, b)
  | None =>
      if wn b =? 0 then Done (None, b) else
      p ← slice (wbuf b) 0 (wn b);
      '(n, e, w) ← Write (wr b) p;
      let e := if (n <? wn b) && bool_decide (e = None) then Some ErrShortWrite else e in
      match e with
      | Some _ =>
          buf ← (if (0 <? n) && (n <? wn b) then
                   data ← slice (wbuf b) n (wn b);
                   '(buf, _) ← copy_at (wbuf b) 0 (wn b - n) data;
                   Done buf
                 else Done (wbuf b));
          Done (e, MkWriter e buf (wn b - n) w)
      | None => Done (None, MkWriter None (wbuf b) 0 w)
      end
  end.

Definition Available (b : bWriter) : Z := zlen (wbuf b) - wn b.
Definition Writer_Buffered (b : bWriter) : Z := wn b.

(** [n := copy(b.buf[b.n:], p); b.n += n]. *)
Definition copy_in (b : bWriter) (p : list Z) : outcome (Z * bWriter) :=
  '(buf, n) ← copy_at (wbuf b) (wn b) (zlen (wbuf b)) p;
  Done (n, MkWriter (werr b) buf (wn b + n) (wr b)).

(** The end of Write and of WriteString. *)
Definition write_rest (b : bWriter) (p : list Z) (nn : Z) : outcome (Z * option error * bWriter) :=
  match werr b with
  | Some e => Done (nn, Some e, b)
  | None => '(n, b) ← copy_in b p; Done (nn + n, None, b)
  end.

Definition Writer_Write_fuel (fuel : nat) (b : bWriter) (p : list Z) : outcome (Z * option error * bWriter) :=
  '(b, p, nn) ← loop fuel (fun '(b, p, nn) =>
    if (Available b <? zlen p) && bool_decide (werr b = None) then
      '(n, b) ← (if Writer_Buffered b =? 0 then
                   '(n, e, w) ← Write (wr b) p;
                   Done (n, MkWriter e (wbuf b) (wn b) w)
                 else
                   '(n, b) ← copy_in b p;
                   '(_, b) ← Flush b;
                   Done (n, b));
      p ← slice p n (zlen p);
      Done (inl (b, p, nn + n))
    else Done (inr (b, p, nn))) (b, p, 0);
  write_rest b p nn.

(** Two iterations are enough for a writer that keeps its contract. *)
Definition Writer_Write (b : bWriter) (p : list Z) : outcome (Z * option error * bWriter) := Writer_Write_fuel 4 b p.

#[export] Instance bWriter_Writer : Writer bWriter := Writer_Write.

Definition Writer_WriteByte (c : Z) (b : bWriter) : outcome (option error * bWriter) :=
  match werr b with
  | Some e => Done (Some e, b)
  | None =>
      '(e, b) ← (if Available b <=? 0 then Flush b else Done (None, b));
      match e with
      | Some _ => Done (werr b, b)
      | None =>
          buf ← set_idx (wbuf b) (wn b) c;
          Done (None, MkWriter (werr b) buf (wn b + 1) (wr b))
      end
  end.

Definition Writer_WriteString (b : bWriter) (s : list Z) : outcome (Z * option error * bWriter) :=
  '(b, s, nn) ← loop (3 + length s) (fun '(b, s, nn) =>
    if (Available b <? zlen s) && bool_decide (werr b = None) then
      '(n, b) ← copy_in b s;
      s ← slice s n (zlen s);
      '(_, b) ← Flush b;
      Done (inl (b, s, nn + n))
    else Done (inr (b, s, nn))) (b, s, 0);
  write_rest b s nn.

Definition Writer_WriteRune (rune : Z) (b : bWriter) : outcome (Z * option error * bWriter) :=
  if rune <? RuneSelf then
    '(err, b) ← Writer_WriteByte (byte rune) b;
    match err with Some _ => Done (0, err, b) | None => Done (1, None, b) end
  else
    match werr b with
    | Some e => Done (0, Some e, b)
    | None =>
        b ← (if Available b <? UTFMax then '(_, b) ← Flush b; Done b else Done b);
        match werr b with
        | Some e => Done (0, Some e, b)
        | None =>
            if Available b <? UTFMax then s ← intstring rune; Writer_WriteString b s
            else
              p ← slice (wbuf b) (wn b) (zlen (wbuf b));
              '(p, size) ← EncodeRune p rune;
              Done (size, None, MkWriter None (put_slice (wbuf b) (wn b) p) (wn b + size) (wr b))
        end
    end.
End Writer.
Arguments bWriter W : clear implicits.

(** NewWriterSize of a bufio.Writer: that writer itself if its buffer is large
    enough. *)
Definition NewWriterSize_buffered {W} `{Writer W} (b : bWriter W) (size : Z) : outcome (bWriter W + bWriter (bWriter W) + error) :=
  if size <=? 0 then e ← BufSizeError size; Done (inr e) else
  if size <=? zlen (wbuf b) then Done (inl (inl b)) else
  r ← NewWriterSize b size;
  Done (match r with inl b => inl (inr b) | inr e => inr e end).

(** * Contents *)

Section Inv.
Context {W : Type} `{HW : Writer W} {HLW : WriterLaws W}.
Implicit Types (b : bWriter W) (p q pend : list Z).

(** The buffer holds [pend]. *)
Definition wholds b pend : Prop := (exists post, wbuf b = pend ++ post) /\ wn b = zlen pend /\ 0 < zlen (wbuf b) < 2 ^ 31.

Definition buffered b : list Z := take (Z.to_nat (wn b)) (wbuf b).

Lemma buffered_spec b pend : wholds b pend -> buffered b = pend.
Proof. intros ((post & E) & Hn & _). unfold buffered. by rewrite E, Hn, zlen_to_nat, take_app_length. Qed.

Lemma wholds_range b pend : wholds b pend -> 0 <= wn b <= zlen (wbuf b).
Proof. intros ((post & ->) & -> & _). rewrite zlen_app. pose proof (zlen_nonneg pend). pose proof (zlen_nonneg post). lia. Qed.

(** The work on the bytes [p0], of which [p] are left, and then [q] to come: what
    the writer has and what is in the buffer are the bytes accepted so far. *)
Definition progress b0 pend0 p0 q b p (nn : Z) : Prop := exists pend,
  wholds b pend /\ zlen (wbuf b) = zlen (wbuf b0) /\ 0 <= nn <= zlen p0 /\ p = drop (Z.to_nat nn) p0 /\
  written (wr b) ++ pend = written (wr b0) ++ pend0 ++ take (Z.to_nat nn) p0 /\
  (werr b = None -> writer_room (wr b) (pend ++ p ++ q)) /\ (reliable (wr b0) -> werr b = None /\ reliable (wr b)).

Lemma progress_start b pend p q : wholds b pend -> werr b = None -> writer_room (wr b) (pend ++ p ++ q) -> progress b pend p q b p 0.
Proof.
  intros Hb He Hr. exists pend. change (Z.to_nat 0) with 0%nat. rewrite drop_0, app_nil_r. pose proof (zlen_nonneg p). by split_and!; try lia.
Qed.

(** Giving [n] more bytes to the writer or to the buffer. *)
Lemma take_more (p0 : list Z) nn n : 0 <= nn <= zlen p0 -> 0 <= n -> take (Z.to_nat (nn + n)) p0 = take (Z.to_nat nn) p0 ++ take (Z.to_nat n) (drop (Z.to_nat nn) p0).
Proof. intros. by rewrite take_take_drop, Z2Nat.inj_add by lia. Qed.

Lemma copy_in_spec b pend p : wholds b pend ->
  exists b', copy_in b p = Done (Z.min (Available b) (zlen p), b') /\ wr b' = wr b /\ werr b' = werr b /\ zlen (wbuf b') = zlen (wbuf b) /\
    wholds b' (pend ++ take (Z.to_nat (Z.min (Available b) (zlen p))) p).
Proof.
  intros Hb. pose proof (wholds_range _ _ Hb). destruct Hb as ((post & E) & Hn & Hl). unfold copy_in, Available.
  rewrite copy_at_done by lia. cbn [mbind outcome_bind]. eexists. split; [done|]. cbn [wr werr wbuf wn].
  set (k := Z.min _ _). pose proof (zlen_nonneg p). assert (Hz : zlen (take (Z.to_nat k) p) = k) by (rewrite zlen_take; lia).
  assert (Hlen : zlen (take (Z.to_nat (wn b)) (wbuf b) ++ take (Z.to_nat k) p ++ drop (Z.to_nat (wn b + k)) (wbuf b)) = zlen (wbuf b)).
  { rewrite !zlen_app, Hz, zlen_take, zlen_drop. lia. }
  split_and!; try done. unfold wholds. cbn [wbuf wn]. rewrite Hlen, !zlen_app, Hz. split_and!; try lia.
  exists (drop (Z.to_nat (wn b + k)) (wbuf b)). rewrite <- app_assoc. f_equal. by rewrite E, Hn, zlen_to_nat, take_app_length.
Qed.

Lemma progress_copy b0 pend0 p0 q b p nn : progress b0 pend0 p0 q b p nn ->
  let n := Z.min (Available b) (zlen p) in
  exists b', copy_in b p = Done (n, b') /\ werr b' = werr b /\ wn b' = wn b + n /\ 0 <= n /\ progress b0 pend0 p0 q b' (drop (Z.to_nat n) p) (nn + n).
Proof.
  intros (pend & Hb & Hl & Hn & -> & Hw & Hroom & Hrel) n. destruct (copy_in_spec b pend (drop (Z.to_nat nn) p0) Hb) as (b' & E & Hwr & He & Hl' & Hb').
  fold n in E, Hb'. pose proof (wholds_range _ _ Hb). pose proof (zlen_nonneg (drop (Z.to_nat nn) p0)).
  assert (Hn0 : 0 <= n) by (unfold n, Available; lia). exists b'. split_and!; try done.
  - destruct Hb' as (_ & -> & _). destruct Hb as (_ & -> & _). rewrite zlen_app, zlen_take. lia.
  - exists (pend ++ take (Z.to_nat n) (drop (Z.to_nat nn) p0)). rewrite Hwr, He. assert (n <= zlen (drop (Z.to_nat nn) p0)) as Hle by lia.
    rewrite zlen_drop in Hle. split_and!; try done; try lia.
    + rewrite drop_drop, Z2Nat.inj_add by lia. done.
    + rewrite take_more by lia. rewrite !app_assoc, <- (app_assoc _ pend0), Hw. by rewrite <- !app_assoc.
    + intros Hnone. rewrite <- app_assoc, (app_assoc (take _ _)), take_drop. by apply Hroom.
Qed.

(** Flush. *)
Lemma Flush_slide b pend n : wholds b pend -> 0 <= n <= zlen pend ->
  returns (if (0 <? n) && (n <? wn b) then
             data ← slice (wbuf b) n (wn b);
             '(buf, _) ← copy_at (wbuf b) 0 (wn b - n) data;
             Done buf
           else Done (wbuf b))
    (fun buf => zlen buf = zlen (wbuf b) /\ exists post, buf = drop (Z.to_nat n) pend ++ post).
Proof.
  intros Hb Hn. pose proof (wholds_range _ _ Hb). destruct Hb as ((post & E) & Hwn & Hl). case_bool.
  - rewrite slice_done by lia. cbn [mbind outcome_bind]. rewrite copy_at_done by lia. cbn [mbind outcome_bind]. go_ret.
    assert (Hd : take (Z.to_nat (wn b - n)) (drop (Z.to_nat n) (wbuf b)) = drop (Z.to_nat n) pend).
    { rewrite E, drop_app_le, take_app_length' by (rewrite ?length_drop; unfold zlen in *; lia). done. }
    rewrite Hd. assert (Hz : zlen (drop (Z.to_nat n) pend) = wn b - n) by (rewrite zlen_drop; lia).
    change (Z.to_nat 0) with 0%nat. rewrite take_0, Hz, Z.sub_0_r, Z.min_id, Z.add_0_l. cbn [app]. rewrite take_ge by (unfold zlen in *; lia).
    split; [rewrite zlen_app, Hz, zlen_drop; lia|by eexists].
  - go_ret. split; [done|]. bool_to_prop. assert (n = 0 \/ n = zlen pend) as [->| ->] by lia; rewrite E; [by exists post|].
    rewrite zlen_to_nat, drop_all. by eexists.
Qed.

Lemma Flush_spec b0 pend0 p0 q b p nn : progress b0 pend0 p0 q b p nn ->
  returns (Flush b) (fun '(e, b') => e = werr b' /\ progress b0 pend0 p0 q b' p nn /\ (werr b' = None -> wn b' = 0) /\ (werr b <> None -> b' = b)).
Proof.
  intros Hp. unfold Flush. destruct (werr b) as [x|] eqn:He; [go_ret; by rewrite He|]. destruct (Z.eqb_spec (wn b) 0) as [Hz|_]; [go_ret; by rewrite He|].
  destruct Hp as (pend & Hb & Hl & Hn & -> & Hw & Hroom & Hrel). pose proof Hb as ((post & E) & Hwn & Hl').
  rewrite E, Hwn, slice_prefix. cbn [mbind outcome_bind]. pose proof (wholds_range _ _ Hb). rewrite <- E. go_call Write_spec; [by apply Hroom|lia|].
  intros [[k e] w] (Hk & Hwr & Hshort & Hroom' & Hrel'). set (e' := if (k <? zlen pend) && bool_decide (e = None) then Some ErrShortWrite else e).
  assert (He' : e' = None -> e = None /\ k = zlen pend).
  { unfold e'. case_bool; [done|]. intros ->. split; [done|]. destruct (Z.lt_ge_cases k (zlen pend)); [by destruct Hshort|lia]. }
  assert (Hr : reliable (wr b0) -> e' = None /\ reliable w).
  { intros H0. destruct (Hrel H0) as [_ H1]. destruct (Hrel' H1) as [-> H2]. split; [|done]. unfold e'. case_bool; [|done].
    exfalso. by apply Hshort; [bool_to_prop; lia|]. }
  destruct e' as [x|] eqn:Ee.
  - rewrite <- Hwn. go_call Flush_slide; [done|lia|]. intros buf (Hlb & post' & Eb). go_ret. cbn [werr wn]. split_and!; try done.
    exists (drop (Z.to_nat k) pend). cbn [wr wbuf werr]. rewrite Hlb. split_and!; try done; try lia.
    + unfold wholds. cbn [wbuf wn]. rewrite Hlb, zlen_drop. split_and!; try lia. by eexists.
    + rewrite Hwr, <- app_assoc, take_drop. done.
  - destruct (He' eq_refl) as [-> ->]. go_ret. cbn [werr wn]. split_and!; try done. exists []. cbn [wr wbuf werr app]. split_and!; try done; try lia.
    + unfold wholds. cbn [wbuf wn]. split_and!; try done; try lia. by exists (wbuf b).
    + rewrite Hwr, app_nil_r, zlen_to_nat, firstn_all. done.
Qed.

(** An operation that writes [p]: it accepts the first [n] bytes, all of them if
    there is no error; after an error it does nothing. *)
Definition wstep b pend p q (n : Z) (e : option error) b' : Prop :=
  e = werr b' /\ (e = None -> n = zlen p) /\
  match werr b with None => progress b pend p q b' (drop (Z.to_nat n) p) n | Some _ => n = 0 /\ b' = b end.

Lemma write_rest_spec b0 pend0 p0 q b p nn : werr b0 = None -> progress b0 pend0 p0 q b p nn -> (werr b = None -> zlen p <= Available b) ->
  returns (write_rest b p nn) (fun '(n, e, b') => wstep b0 pend0 p0 q n e b').
Proof.
  intros H0 Hp Hav. unfold write_rest, wstep. rewrite H0. destruct (werr b) as [x|] eqn:He.
  - go_ret. rewrite He. split_and!; try done. pose proof Hp as (_ & _ & _ & _ & Hd & _). by rewrite <- Hd.
  - destruct (progress_copy _ _ _ _ _ _ _ Hp) as (b' & -> & He' & _ & Hn0 & Hp'). specialize (Hav eq_refl). rewrite Z.min_r in * by lia. cbn [mbind outcome_bind].
    go_ret. rewrite He', He. split_and!; try done.
    + destruct Hp as (_ & _ & _ & Hn & -> & _). intros _. rewrite zlen_drop. lia.
    + pose proof Hp' as (_ & _ & _ & _ & Hd & _). by rewrite <- Hd.
Qed.

(** The remaining bytes after [n] of them. *)
Lemma slice_rest (p : list Z) n : 0 <= n <= zlen p -> slice p n (zlen p) = Done (drop (Z.to_nat n) p).
Proof. intros Hn. rewrite slice_done by lia. f_equal. apply take_ge. rewrite length_drop. unfold zlen in *. lia. Qed.

Lemma progress_write b0 pend0 p0 q b p nn : progress b0 pend0 p0 q b p nn -> werr b = None -> wn b = 0 -> zlen p < 2 ^ 31 ->
  returns ('(n, e, w) ← Write (wr b) p; Done (n, MkWriter e (wbuf b) (wn b) w)) (fun '(n, b') => 0 <= n <= zlen p /\
    progress b0 pend0 p0 q b' (drop (Z.to_nat n) p) (nn + n) /\ (werr b' = None -> n = zlen p)).
Proof.
  intros (pend & Hb & Hl & Hn & -> & Hw & Hroom & Hrel) He Hz Hlp. specialize (Hroom He). pose proof Hb as ((post & E) & Hwn & Hlen).
  assert (pend = []) as -> by (destruct pend as [|c pend]; [done|rewrite zlen_cons in Hwn; pose proof (zlen_nonneg pend); lia]).
  rewrite app_nil_l in Hroom. go_call Write_spec; [done|done|]. intros [[n e] w] (Hk & Hwr & Hshort & Hroom' & Hrel'). go_ret. split; [done|].
  assert (Hall : e = None -> n = zlen (drop (Z.to_nat nn) p0)).
  { intros ->. destruct (Z.lt_ge_cases n (zlen (drop (Z.to_nat nn) p0))); [by destruct Hshort|lia]. }
  split; [|done]. exists []. cbn [wbuf wr werr]. split_and!; try done; try lia.
  - rewrite zlen_drop in *. lia.
  - rewrite drop_drop, Z2Nat.inj_add by lia. done.
  - rewrite app_nil_r, Hwr, take_more, !app_assoc by lia. f_equal. rewrite <- app_assoc, <- Hw. by rewrite app_nil_r.
  - intros Hnone. rewrite (Hall Hnone), zlen_to_nat, drop_all. done.
  - intros H0. destruct (Hrel H0) as [_ H1]. by destruct (Hrel' H1).
Qed.

Lemma wstep_err b pend p q x : werr b = Some x -> wstep b pend p q 0 (Some x) b.
Proof. intros He. unfold wstep. by rewrite He. Qed.

(** One iteration of Write. *)
Definition write_step b p : outcome (Z * bWriter W) :=
  if Writer_Buffered b =? 0 then '(n, e, w) ← Write (wr b) p; Done (n, MkWriter e (wbuf b) (wn b) w)
  else '(n, b) ← copy_in b p; '(_, b) ← Flush b; Done (n, b).

Lemma write_step_spec b0 pend0 p0 q b p nn : progress b0 pend0 p0 q b p nn -> werr b = None -> Available b < zlen p -> zlen p < 2 ^ 31 ->
  returns (write_step b p) (fun '(n, b') => 0 <= n <= zlen p /\ progress b0 pend0 p0 q b' (drop (Z.to_nat n) p) (nn + n) /\
    (werr b' = None -> (wn b = 0 /\ n = zlen p) \/ (wn b <> 0 /\ wn b' = 0))).
Proof.
  intros Hp He Hav Hlp. unfold write_step, Writer_Buffered. destruct (Z.eqb_spec (wn b) 0) as [Hz|Hz].
  - go_mono progress_write; [done|done|done|done|]. intros [n b'] (Hn & Hp' & Hall). split_and!; [lia|lia|done|auto].
  - destruct (progress_copy _ _ _ _ _ _ _ Hp) as (b1 & -> & He1 & _ & Hn0 & Hp1). cbn [mbind outcome_bind].
    go_call Flush_spec; [done|]. intros [e b'] (_ & Hp' & Hz' & _). go_ret. split_and!; [lia|lia|done|auto].
Qed.

Lemma Writer_Write_spec b pend p q : wholds b pend -> (werr b = None -> writer_room (wr b) (pend ++ p ++ q)) -> zlen p < 2 ^ 31 ->
  returns (Writer_Write b p) (fun '(n, e, b') => wstep b pend p q n e b').
Proof.
  intros Hb Hroom Hlp. unfold Writer_Write, Writer_Write_fuel. destruct (werr b) as [x|] eqn:He.
  { cbn [loop]. rewrite He, bool_decide_false, andb_false_r by done. cbn [mbind outcome_bind]. unfold write_rest. rewrite He. go_ret. by apply wstep_err. }
  pose proof (progress_start b pend p q Hb He (Hroom eq_refl)) as Hp.
  apply returns_bind with (P := fun '(b1, p1, nn) => progress b pend p q b1 p1 nn /\ (werr b1 = None -> zlen p1 <= Available b1));
    [|intros [[b1 p1] nn] [Hp1 Hav]; by eapply write_rest_spec].
  apply (loop_returns (fun '(b1, p1, nn) => progress b pend p q b1 p1 nn)
    (fun '(b1, p1, nn) => if decide (werr b1 = None) then if decide (p1 = []) then 0%nat else if decide (wn b1 = 0) then 1%nat else 2%nat else 0%nat)); [|done|by repeat case_decide; lia].
  intros [[b1 p1] nn] Hp1. assert (Hl1 : zlen p1 <= zlen p) by (destruct Hp1 as (_ & _ & _ & Hn & -> & _); rewrite zlen_drop; lia).
  fold (write_step b1 p1). destruct (Z.ltb_spec (Available b1) (zlen p1)) as [Hlt|Hge]; [|go_ret; auto].
  case_bool_decide as He1; [|go_ret; by split]. cbn [andb]. go_call write_step_spec; [done|done|done|lia|].
  intros [n b'] (Hn & Hp' & Hdec). rewrite slice_rest by done. cbn [mbind outcome_bind]. go_ret. split; [done|].
  rewrite (decide_True (P := werr b1 = None)) by done. assert (p1 <> []) as Hne.
  { intros ->. pose proof Hp1 as (x & Hx & _). apply wholds_range in Hx. unfold Available in Hlt. change (zlen (@nil Z)) with 0 in Hlt. lia. }
  rewrite (decide_False (P := p1 = [])) by done. case_decide as He'; [|by case_decide; lia].
  destruct (Hdec He') as [[Hz ->]|[Hz Hz']].
  - rewrite zlen_to_nat, drop_all. rewrite decide_True by done. by case_decide; lia.
  - rewrite (decide_False (P := wn b1 = 0)), (decide_True (P := wn b' = 0)) by done. case_decide; lia.
Qed.

(** WriteString, also after a Flush. *)
Lemma WriteString_progress b0 pend0 p q b : progress b0 pend0 p q b p 0 -> werr b0 = None ->
  returns (Writer_WriteString b p) (fun '(n, e, b') => wstep b0 pend0 p q n e b').
Proof.
  intros Hp He0. unfold Writer_WriteString.
  apply returns_bind with (P := fun '(b1, p1, nn) => progress b0 pend0 p q b1 p1 nn /\ (werr b1 = None -> zlen p1 <= Available b1));
    [|intros [[b1 p1] nn] [Hp1 Hav]; by eapply write_rest_spec].
  apply (loop_returns (fun '(b1, p1, nn) => progress b0 pend0 p q b1 p1 nn)
    (fun '(b1, p1, nn) => if decide (werr b1 = None) then (length p1 + if decide (wn b1 = 0%Z) then 1 else 2)%nat else 0%nat)); [|done|by repeat case_decide; lia].
  intros [[b1 p1] nn] Hp1. destruct (Z.ltb_spec (Available b1) (zlen p1)) as [Hlt|Hge]; [|go_ret; auto].
  case_bool_decide as He1; [|go_ret; by split]. cbn [andb].
  destruct (progress_copy _ _ _ _ _ _ _ Hp1) as (b2 & -> & He2 & Hwn2 & Hn0 & Hp2). rewrite Z.min_l in * by lia. cbn [mbind outcome_bind].
  rewrite slice_rest by lia. cbn [mbind outcome_bind]. go_call Flush_spec; [done|]. intros [e b3] (_ & Hp3 & Hz & _). go_ret. split; [done|].
  rewrite (decide_True (P := werr b1 = None)) by done. case_decide as He3; [|case_decide; lia].
  rewrite (decide_True (P := wn b3 = 0)) by auto. rewrite length_drop. case_decide as Hz1; [|lia].
  pose proof Hp1 as (x & (_ & _ & Hpos) & _). unfold Available in *. unfold zlen in *. lia.
Qed.

Lemma Writer_WriteString_spec b pend p q : wholds b pend -> (werr b = None -> writer_room (wr b) (pend ++ p ++ q)) ->
  returns (Writer_WriteString b p) (fun '(n, e, b') => wstep b pend p q n e b').
Proof.
  intros Hb Hroom. destruct (werr b) as [x|] eqn:He; [|apply WriteString_progress; [apply progress_start; auto|done]].
  unfold Writer_WriteString. cbn [loop Nat.add]. rewrite He, bool_decide_false, andb_false_r by done. cbn [mbind outcome_bind]. unfold write_rest.
  rewrite He. go_ret. by apply wstep_err.
Qed.

(** A step that ends with bytes copied to a buffer that has room for them. *)
Lemma wstep_copy b0 pend0 p q b b' : werr b0 = None -> progress b0 pend0 p q b p 0 -> werr b = None -> zlen p <= Available b ->
  copy_in b p = Done (zlen p, b') -> wstep b0 pend0 p q (zlen p) None b'.
Proof.
  intros He0 Hp He Hav E. destruct (progress_copy _ _ _ _ _ _ _ Hp) as (b1 & E1 & He1 & _ & _ & Hp1). rewrite Z.min_r in * by lia.
  rewrite E in E1. injection E1 as <-. unfold wstep. rewrite He0, He1, He. by split_and!.
Qed.

Lemma wstep_failed b0 pend0 p q b x : werr b0 = None -> progress b0 pend0 p q b p 0 -> werr b = Some x -> wstep b0 pend0 p q 0 (Some x) b.
Proof. intros He0 Hp He. unfold wstep. rewrite He0, He. by split_and!. Qed.

Lemma Writer_WriteByte_spec c b pend q : wholds b pend -> (werr b = None -> writer_room (wr b) (pend ++ [c] ++ q)) ->
  returns (Writer_WriteByte c b) (fun '(e, b') => wstep b pend [c] q (if decide (e = None) then 1 else 0) e b').
Proof.
  intros Hb Hroom. unfold Writer_WriteByte. destruct (werr b) as [x|] eqn:He; [go_ret; by apply wstep_err|].
  pose proof (progress_start b pend [c] q Hb He (Hroom eq_refl)) as Hp.
  apply returns_bind with (P := fun '(e, b1) => e = werr b1 /\ progress b pend [c] q b1 [c] 0 /\ (e = None -> 0 < Available b1)).
  - case_bool; [|go_ret; by rewrite He]. go_mono Flush_spec; [done|]. intros [e b1] (-> & Hp1 & Hz & _). split_and!; [done|done|].
    intros Hn. pose proof Hp1 as (x & (_ & _ & Hpos) & _). unfold Available. rewrite Hz by done. lia.
  - intros [e b1] (-> & Hp1 & Hav). destruct (werr b1) as [x|] eqn:He1; [go_ret; by apply wstep_failed|]. specialize (Hav eq_refl).
    pose proof Hp1 as (pend1 & Hb1 & _). pose proof (wholds_range _ _ Hb1). pose proof Hb1 as ((post & Ep) & Hwn & _). unfold Available in Hav.
    destruct post as [|y post]; [rewrite app_nil_r in Ep; rewrite Ep in Hav; lia|].
    rewrite Ep, Hwn, set_idx_at. cbn [mbind outcome_bind]. go_ret. rewrite decide_True by done. change 1 with (zlen [c]) at 2.
    eapply wstep_copy; [done|done|done|unfold Available; change (zlen [c]) with 1; lia|]. unfold copy_in. rewrite Ep, Hwn, He1.
    change (y :: post) with ([y] ++ post). rewrite copy_prefix by (rewrite zlen_app; change (zlen [c]) with 1; change (zlen [y]) with 1; pose proof (zlen_nonneg post); lia).
    done.
Qed.

(** The bytes of WriteRune; a negative number is cut to a byte. *)
Definition rune_bytes (rune : Z) : list Z := if rune <? RuneSelf then [byte rune] else encoding (valid_rune rune).

Lemma zlen_encoding r : 0 < zlen (encoding r) <= UTFMax.
Proof. unfold encoding, UTFMax. repeat case_bool; unfold zlen; cbn; lia. Qed.

(** The end of WriteRune: the rune is encoded into the buffer. *)
Lemma encode_copy b pend rune : wholds b pend -> - 2 ^ 31 <= rune < 2 ^ 31 -> UTFMax <= Available b -> let e := encoding (valid_rune rune) in
  exists buf, (p ← slice (wbuf b) (wn b) (zlen (wbuf b)); '(p, size) ← EncodeRune p rune; Done (put_slice (wbuf b) (wn b) p, size)) = Done (buf, zlen e) /\
    copy_in b e = Done (zlen e, MkWriter (werr b) buf (wn b + zlen e) (wr b)).
Proof.
  intros Hb Hr Hav e. pose proof (wholds_range _ _ Hb). destruct Hb as ((post & E) & Hn & _). pose proof (zlen_encoding (valid_rune rune)). fold e in H0.
  assert (zlen e <= zlen post) by (unfold Available in Hav; rewrite E, Hn, zlen_app in Hav; lia).
  rewrite E, Hn, slice_suffix. cbn [mbind outcome_bind]. rewrite EncodeRune_spec by done. fold e. cbn [mbind outcome_bind]. unfold put_slice.
  rewrite zlen_to_nat, take_app_length. eexists. split; [done|]. unfold copy_in. rewrite E, Hn, copy_prefix by done. done.
Qed.

Lemma Writer_WriteRune_spec rune b pend q : wholds b pend -> - 2 ^ 31 <= rune < 2 ^ 31 -> (werr b = None -> writer_room (wr b) (pend ++ rune_bytes rune ++ q)) ->
  returns (Writer_WriteRune rune b) (fun '(n, e, b') => wstep b pend (rune_bytes rune) q n e b').
Proof.
  intros Hb Hr Hroom. unfold Writer_WriteRune, rune_bytes in *. destruct (Z.ltb_spec rune RuneSelf) as [Hs|Hs].
  { go_call Writer_WriteByte_spec; [done|done|]. intros [[x|] b'] Hw; by go_ret. }
  destruct (werr b) as [x|] eqn:He; [go_ret; by apply wstep_err|]. set (e := encoding (valid_rune rune)) in *.
  pose proof (progress_start b pend e q Hb He (Hroom eq_refl)) as Hp.
  apply returns_bind with (P := fun b1 => progress b pend e q b1 e 0).
  { case_bool; [|by go_ret]. go_call Flush_spec; [done|]. intros [y b1] (_ & Hp1 & _). by go_ret. }
  intros b1 Hp1. destruct (werr b1) as [x|] eqn:He1; [go_ret; by apply wstep_failed|]. case_bool.
  - rewrite intstring_spec by done. cbn [mbind outcome_bind]. by apply WriteString_progress.
  - pose proof Hp1 as (pend1 & Hb1 & _). destruct (encode_copy b1 pend1 rune Hb1 Hr) as (buf & E1 & E2); [lia|]. fold e in E1, E2.
    destruct (slice (wbuf b1) (wn b1) (zlen (wbuf b1))) as [p1| |]; [|done..]. cbn [mbind outcome_bind] in *.
    destruct (EncodeRune p1 rune) as [[p2 size]| |]; [|done..]. cbn [mbind outcome_bind] in *. injection E1 as <- ->. go_ret. rewrite He1 in E2.
    eapply wstep_copy; [done|done|done|pose proof (zlen_encoding (valid_rune rune)); fold e in H; lia|done].
Qed.
End Inv.

(** * A buffered writer is a writer *)

Section Laws.
Context {W : Type} `{HW : Writer W} {HLW : WriterLaws W}.
Implicit Types (b : bWriter W).

Definition broom b (p : list Z) : Prop := wholds b (buffered b) /\ (werr b = None -> writer_room (wr b) (buffered b ++ p)).
Definition bwritten b : list Z := written (wr b) ++ buffered b.
Definition breliable b : Prop := werr b = None /\ reliable (wr b).

Lemma bWriter_Write_law b p q : broom b (p ++ q) -> zlen p < 2 ^ 31 ->
  returns (Write b p) (fun '(n, e, b') => 0 <= n <= zlen p /\ bwritten b' = bwritten b ++ take (Z.to_nat n) p /\ (n < zlen p -> e <> None) /\ broom b' q /\
    (breliable b -> e = None /\ breliable b')).
Proof.
  intros [Hb Hroom] Hp. go_mono Writer_Write_spec; [done|done|done|]. intros [[n e] b'] (-> & Hall & Hs).
  assert (Hshort : n < zlen p -> werr b' <> None) by (intros Hlt Hn; rewrite (Hall Hn) in Hlt; lia).
  destruct (werr b) as [x|] eqn:He.
  - destruct Hs as [-> ->]. pose proof (zlen_nonneg p). split_and!; try done; try lia; [by rewrite app_nil_r|split; [done|by rewrite He]|]. intros [H1 _]. congruence.
  - destruct Hs as (pend & Hb' & Hl & Hn & _ & Hw & Hroom' & Hrel). unfold bwritten, broom, breliable. rewrite !(buffered_spec b' _ Hb'), He.
    split_and!; try done; try lia; [by rewrite Hw, app_assoc| |].
    + intros Hnone. specialize (Hroom' Hnone). rewrite (Hall Hnone), zlen_to_nat, drop_all in Hroom'. done.
    + intros [_ Hr]. by destruct (Hrel Hr).
Qed.

#[export] Instance bWriter_laws : WriterLaws (bWriter W) := {
  writer_room := broom; written := bwritten; reliable := breliable; Write_spec := bWriter_Write_law }.
End Laws.

(** ** Sequences of operations *)

Inductive wop := Write_wop (p : list Z) | WriteString_wop (s : list Z) | WriteByte_wop (c : Z) | WriteRune_wop (r : Z) | Flush_wop.

(** The bytes that an operation accepts, and its error. *)
Definition exec_wop {W} `{Writer W} (o : wop) (b : bWriter W) : outcome (Z * option error * bWriter W) :=
  match o with
  | Write_wop p => Writer_Write b p
  | WriteString_wop s => Writer_WriteString b s
  | WriteByte_wop c => '(e, b) ← Writer_WriteByte c b; Done (if decide (e = None) then 1 else 0, e, b)
  | WriteRune_wop r => Writer_WriteRune r b
  | Flush_wop => '(e, b) ← Flush b; Done (0, e, b)
  end.

Fixpoint exec_wops {W} `{Writer W} (os : list wop) (b : bWriter W) : outcome (list (Z * option error) * bWriter W) :=
  match os with
  | [] => Done ([], b)
  | o :: os => '(n, e, b) ← exec_wop o b; '(rs, b) ← exec_wops os b; Done ((n, e) :: rs, b)
  end.

(** The bytes that an operation is to write. *)
Definition wop_bytes (o : wop) : list Z :=
  match o with Write_wop p | WriteString_wop p => p | WriteByte_wop c => [c] | WriteRune_wop r => rune_bytes r | Flush_wop => [] end.

Definition wop_ok (o : wop) : Prop :=
  match o with Write_wop p => zlen p < 2 ^ 31 | WriteRune_wop r => - 2 ^ 31 <= r < 2 ^ 31 | _ => True end.

Definition all_bytes (os : list wop) : list Z := concat (map wop_bytes os).

(** The results of operations that all succeed. *)
Definition full_results (os : list wop) : list (Z * option error) := map (fun o => (zlen (wop_bytes o), None)) os.

(** The number of bytes accepted. *)
Fixpoint total (rs : list (Z * option error)) : Z := match rs with [] => 0 | (n, _) :: rs => n + total rs end.

(** After the first error every result is that error, and no byte is accepted. *)
Fixpoint error_sticks (rs : list (Z * option error)) : Prop :=
  match rs with
  | [] => True
  | (_, None) :: rs => error_sticks rs
  | (_, Some x) :: rs => Forall (eq (0, Some x)) rs
  end.

Section Sequence.
Context {W : Type} `{HW : Writer W} {HLW : WriterLaws W}.
Implicit Types (b : bWriter W).

Lemma exec_wop_spec o b pend q : wop_ok o -> wholds b pend -> (werr b = None -> writer_room (wr b) (pend ++ wop_bytes o ++ q)) ->
  returns (exec_wop o b) (fun '(n, e, b') => wstep b pend (wop_bytes o) q n e b').
Proof.
  intros Hok Hb Hroom. destruct o; cbn [exec_wop wop_bytes wop_ok] in *.
  - by apply Writer_Write_spec.
  - by apply Writer_WriteString_spec.
  - go_call Writer_WriteByte_spec; [done|done|]. intros [e b'] Hw. by go_ret.
  - by apply Writer_WriteRune_spec.
  - destruct (werr b) as [x|] eqn:He; [unfold Flush; rewrite He; go_ret; by apply wstep_err|].
    go_call Flush_spec; [apply progress_start; [done|done|by apply Hroom]|]. intros [e b'] (-> & Hp & _). go_ret. unfold wstep. rewrite He. by split_and!.
Qed.

(** What a sequence does. *)
Definition wsteps b pend (os : list wop) q (rs : list (Z * option error)) b' : Prop :=
  error_sticks rs /\ (werr b' = None -> rs = full_results os) /\
  match werr b with
  | Some x => rs = replicate (length os) (0, Some x) /\ b' = b
  | None => progress b pend (all_bytes os) q b' (drop (Z.to_nat (total rs)) (all_bytes os)) (total rs)
  end.

Lemma total_replicate n x : total (replicate n (0, Some x)) = 0.
Proof. induction n; cbn [replicate total]; lia. Qed.

(** Work on [p] seen as work on more bytes, and followed by work on those. *)
Lemma progress_extend b0 pend0 p p2 q b r nn : progress b0 pend0 p (p2 ++ q) b r nn -> progress b0 pend0 (p ++ p2) q b (drop (Z.to_nat nn) (p ++ p2)) nn.
Proof.
  intros (pend & Hb & Hl & Hn & -> & Hw & Hroom & Hrel). exists pend. pose proof (zlen_nonneg p2). rewrite zlen_app, take_app_le, drop_app_le by (unfold zlen in *; lia).
  split_and!; try done; try lia. by rewrite <- app_assoc.
Qed.

Lemma progress_seq b0 pend0 p p2 q b pend r nn b' : progress b0 pend0 p (p2 ++ q) b [] (zlen p) -> wholds b pend -> werr b = None ->
  progress b pend p2 q b' r nn -> progress b0 pend0 (p ++ p2) q b' r (zlen p + nn).
Proof.
  intros (pend1 & Hb & Hl & Hn & _ & Hw & _ & Hrel) Hb1 He (pend' & Hb' & Hl' & Hn' & -> & Hw' & Hroom' & Hrel').
  rewrite <- (buffered_spec b pend1 Hb), (buffered_spec b pend Hb1) in Hw. exists pend'. pose proof (zlen_nonneg p).
  rewrite zlen_app, Z2Nat.inj_add, zlen_to_nat, take_app_add, drop_app_add by lia. split_and!; try done; try lia.
  - rewrite Hw', !app_assoc, Hw. by rewrite zlen_to_nat, firstn_all, <- !app_assoc.
  - intros H0. destruct (Hrel H0). auto.
Qed.

Lemma exec_wops_spec os : forall b pend q, Forall wop_ok os -> wholds b pend -> (werr b = None -> writer_room (wr b) (pend ++ all_bytes os ++ q)) ->
  returns (exec_wops os b) (fun '(rs, b') => wsteps b pend os q rs b').
Proof.
  induction os as [|o os IH]; intros b pend q Hok Hb Hroom; cbn [exec_wops].
  { go_ret. unfold wsteps. split_and!; try done. destruct (werr b) eqn:He; [done|]. apply progress_start; auto. }
  apply Forall_cons_1 in Hok as [Ho Hok]. unfold all_bytes in Hroom. cbn [map concat] in Hroom. fold (all_bytes os) in Hroom.
  go_call (exec_wop_spec o b pend (all_bytes os ++ q) Ho Hb); [intros Hn; rewrite app_assoc; rewrite <- app_assoc in Hroom; rewrite <- app_assoc; by apply Hroom|].
  intros [[n e] b1] (-> & Hall & Hs). unfold wsteps, all_bytes. cbn [map concat length replicate]. fold (all_bytes os). destruct (werr b) as [x|] eqn:He.
  - destruct Hs as [-> ->]. go_call (IH b pend q Hok Hb); [congruence|]. intros [rs b'] (_ & _ & Hr). rewrite He in *. destruct Hr as [-> ->]. go_ret.
    rewrite He. split_and!; try done. by apply Forall_replicate.
  - pose proof Hs as (pend1 & Hb1 & _ & _ & _ & _ & Hroom1 & _). destruct (werr b1) as [x|] eqn:He1.
    + go_call (IH b1 pend1 q Hok Hb1); [congruence|]. intros [rs b'] (_ & _ & Hr). rewrite He1 in Hr. destruct Hr as [-> ->]. go_ret.
      rewrite He1. cbn [total]. rewrite total_replicate, Z.add_0_r. split_and!; [by apply Forall_replicate|done|]. by eapply progress_extend.
    + specialize (Hall eq_refl). subst n. rewrite zlen_to_nat, drop_all in Hroom1, Hs.
      go_call (IH b1 pend1 q Hok Hb1); [intros _; by apply Hroom1|]. intros [rs b'] (Hst & Hfull & Hr). rewrite He1 in Hr. go_ret. cbn [total].
      split_and!; [done|intros Hn; by rewrite (Hfull Hn)|].
      pose proof (progress_seq _ _ _ _ _ _ _ _ _ _ Hs Hb1 He1 Hr) as Hp. pose proof Hp as (_ & _ & _ & _ & Hd & _). by rewrite <- Hd.
Qed.
End Sequence.

Section Properties.
Context {W : Type} `{HW : Writer W} {HLW : WriterLaws W}.

Lemma NewWriterSize_spec (w : W) size : 0 < size < 2 ^ 31 ->
  exists b, NewWriterSize w size = Done (inl b) /\ wholds b [] /\ werr b = None /\ wr b = w /\ zlen (wbuf b) = size.
Proof.
  intros Hs. unfold NewWriterSize, make_bytes. case_bool; [lia|]. case_bool; [lia|]. cbn [mbind outcome_bind]. eexists. split; [done|].
  assert (Hz : zlen (replicate (Z.to_nat size) 0) = size) by (rewrite zlen_replicate; lia).
  unfold wholds. cbn [wbuf wn werr wr]. rewrite Hz. split_and!; try done; try lia. by eexists.
Qed.

(** C23. A buffered writer delivers, for any writer that keeps the contract of io.Writer.
    After any sequence of Write, WriteString, WriteByte, WriteRune and Flush, and a
    last Flush, what the writer below has got together with what is still in the
    buffer is exactly the bytes that the operations report as accepted, a prefix of
    all the bytes in order, also when the writer failed in the middle.  An error
    stays: every operation after it fails with it and accepts nothing.  So if the
    last Flush returns no error, each operation accepted all its bytes and the
    writer has got them; and that is the case if the writer returns no errors. *)
Theorem bufio_writer_delivers (w : W) size os : 0 < size < 2 ^ 31 -> Forall wop_ok os -> writer_room w (all_bytes os) ->
  exists b, NewWriterSize w size = Done (inl b) /\
  returns ('(rs, b) ← exec_wops os b; '(e, b) ← Flush b; Done (rs, e, b)) (fun '(rs, e, b') =>
    0 <= total rs <= zlen (all_bytes os) /\ written (wr b') ++ buffered b' = written w ++ take (Z.to_nat (total rs)) (all_bytes os) /\
    error_sticks rs /\ (e = None -> rs = full_results os /\ written (wr b') = written w ++ all_bytes os) /\ (reliable w -> e = None)).
Proof.
  intros Hs Hok Hroom. destruct (NewWriterSize_spec w size Hs) as (b & Hnew & Hb & He & Hw & _). exists b. split; [done|].
  go_call (exec_wops_spec os b [] [] Hok Hb); [by rewrite app_nil_r, Hw|]. intros [rs b1] (Hst & Hfull & Hp). rewrite He in Hp.
  go_call Flush_spec; [exact Hp|]. intros [e b'] (-> & (pend & Hb' & _ & Hn & _ & Hwr & _ & Hrel) & Hz & Hsame). go_ret.
  rewrite (buffered_spec _ _ Hb'), <- Hw. split_and!; try done; try lia.
  - intros Hnone. assert (Hf : rs = full_results os).
    { apply Hfull. destruct (werr b1) eqn:He1; [|done]. rewrite Hsame in Hnone by done. congruence. }
    split; [done|]. assert (pend = []) as ->.
    { destruct Hb' as (_ & Hlen & _). rewrite Hz in Hlen by done. destruct pend as [|c pend]; [done|]. rewrite zlen_cons in Hlen. pose proof (zlen_nonneg pend). lia. }
    rewrite app_nil_r in Hwr. rewrite Hwr. cbn [app]. f_equal. rewrite take_ge; [done|].
    assert (total rs = zlen (all_bytes os)) as ->; [|unfold zlen; lia]. rewrite Hf. unfold all_bytes. clear.
    induction os as [|o os IH]; [done|]. cbn [full_results map total concat]. rewrite zlen_app. unfold full_results in IH. lia.
  - intros Hr. by destruct (Hrel Hr).
Qed.
End Properties.

Lemma bufio_writer_delivers_witness :
  let os := [Write_wop (lit "abc"); WriteRune_wop 0x20AC; WriteByte_wop 100; WriteString_wop (lit "efghijk")] in
  exists b b', NewWriterSize zero_Buffer 4 = Done (inl b) /\
    ('(rs, b) ← exec_wops os b; '(e, b) ← Flush b; Done (rs, e, b)) = Done ([(3, None); (3, None); (1, None); (7, None)], None, b') /\
    written (wr b') = lit "abc" ++ [0xE2; 0x82; 0xAC] ++ lit "defghijk".
Proof.
  destruct (bufio_writer_delivers zero_Buffer 4 [Write_wop (lit "abc"); WriteRune_wop 0x20AC; WriteByte_wop 100; WriteString_wop (lit "efghijk")])
    as (b & Hnew & ([[rs e] b'] & E & _ & _ & _ & Hd & Hr)).
  - done.
  - repeat constructor; by vm_compute.
  - split; [|by vm_compute]. destruct zero_Buffer_rel as (pre & Hh & _). by eexists _, _.
  - specialize (Hr I). subst e. destruct (Hd eq_refl) as [-> Hw]. exists b, b'. split_and!; [done|exact E|exact Hw].
Defined.

(** ** Copying through buffers *)

Section Copy.
Context {R W : Type} `{HR : Reader R} {HL : ReaderLaws R} `{HW : Writer W} {HLW : WriterLaws W}.

(** [n, err := io.Copy(bw, br)], and [bw.Flush()] unless it failed. *)
Definition copy_flush (fuel : nat) (bw : bWriter W) (br : bReader R) : outcome (Z * option error * bWriter W) :=
  '(n, e, bw, _) ← Copy fuel None None bw br;
  match e with Some _ => Done (n, e, bw) | None => '(e, bw) ← Flush bw; Done (n, e, bw) end.

(** C26. The stack composes: copying from a buffered reader to a buffered writer and
    flushing moves the stream of the reader at the bottom to the writer at the
    bottom.  No error is reported only if every byte has arrived there, and there
    is no other error than the reader's if the writer returns none. *)
Theorem buffered_copy_delivers (r : R) (w : W) size1 size2 fuel :
  reader_inv r -> writer_room w (stream r) -> 0 < size1 < 2 ^ 31 -> 0 < size2 < 2 ^ 31 -> zlen (stream r) < 2 ^ 63 ->
  (calls r + length (stream r) < fuel)%nat ->
  exists br bw, NewReaderSize r size1 = Done (inl br) /\ NewWriterSize w size2 = Done (inl bw) /\
  returns (copy_flush fuel bw br) (fun '(n, e, bw') => 0 <= n <= zlen (stream r) /\
    (e = None -> n = zlen (stream r) /\ ending r = EOF /\ written (wr bw') = written w ++ stream r) /\
    (reliable w -> n = zlen (stream r) /\ e = eof_nil (ending r))).
Proof.
  intros Hi Hroom H1 H2 Hbig Hf. destruct (NewReaderSize_spec r size1 Hi H1) as (br & Hnr & Hbr & Hrd & _).
  destruct (NewWriterSize_spec w size2 H2) as (bw & Hnw & Hbw & He & Hw & _). exists br, bw. split; [done|]. split; [done|].
  assert (Hst : stream br = stream r) by (rewrite <- Hrd; exact (bstream_spec _ _ _ Hbr)).
  assert (Hbuf : buffered bw = []) by (by apply buffered_spec). unfold copy_flush, Copy.
  go_call (Copy_loop_spec fuel bw br); [by exists [], []| |by rewrite Hst| |].
  { rewrite Hst. split; rewrite Hbuf; [done|by rewrite Hw]. }
  { unfold calls. cbn [bReader_laws]. unfold bcalls. change (bstream br) with (stream br). by rewrite Hst, Hrd. }
  intros [[[n e] bw1] br1] (_ & Hn & Hwr & Hnone & Hrel). rewrite Hst in Hn, Hwr, Hnone, Hrel.
  change (ending br) with (ending (rd br)) in Hnone, Hrel. rewrite Hrd in Hnone, Hrel.
  assert (Hrel' : reliable w -> n = zlen (stream r) /\ e = eof_nil (ending r) /\ reliable bw1) by (intros Hr; apply Hrel; split; [done|by rewrite Hw]).
  destruct e as [x|].
  { go_ret. split_and!; try done; try lia. intros Hr. by destruct (Hrel' Hr) as (? & ? & _). }
  destruct (Hnone eq_refl) as (-> & Hend & Hb1 & Hroom1). rewrite app_nil_r in Hroom1.
  destruct (werr bw1) as [x|] eqn:Hx.
  { unfold Flush. rewrite Hx. go_ret. split_and!; try done; try lia. intros Hr. destruct (Hrel' Hr) as (_ & _ & Hno & _). congruence. }
  go_call (Flush_spec bw1 (buffered bw1) [] []); [by apply progress_start; [done|done|rewrite app_nil_r; auto]|].
  intros [e b'] (-> & (pend & Hb' & _ & _ & _ & Hwr' & _ & Hrl) & Hz & _). go_ret. split_and!; try lia.
  - intros Hn0. split_and!; try done. rewrite take_nil, app_nil_r in Hwr'. change (written bw1) with (written (wr bw1) ++ buffered bw1) in Hwr.
    change (written bw) with (written (wr bw) ++ buffered bw) in Hwr. rewrite Hbuf, app_nil_r, Hw, zlen_to_nat, firstn_all in Hwr.
    rewrite <- Hwr, <- Hwr'. destruct Hb' as (_ & Hlen & _). rewrite Hz in Hlen by done.
    destruct pend as [|c pend]; [by rewrite app_nil_r|]. rewrite zlen_cons in Hlen. pose proof (zlen_nonneg pend). lia.
  - intros Hr. destruct (Hrel' Hr) as (_ & He0 & _ & Hr1). split; [done|]. rewrite <- He0. by destruct (Hrl Hr1).
Qed.
End Copy.

Lemma buffered_copy_delivers_witness : exists br bw bw', NewReaderSize (NewBufferString (lit "hello, world")) 3 = Done (inl br) /\
  NewWriterSize zero_Buffer 5 = Done (inl bw) /\ copy_flush 32 bw br = Done (12, None, bw') /\ written (wr bw') = lit "hello, world".
Proof.
  destruct (buffered_copy_delivers (NewBufferString (lit "hello, world")) zero_Buffer 3 5 32) as (br & bw & Hr & Hw & ([[n e] bw'] & E & _ & Hd & Hrel)).
  - by apply NewBufferString_ok.
  - split; [|by vm_compute]. destruct zero_Buffer_rel as (pre & Hh & _). by eexists _, _.
  - done.
  - done.
  - reflexivity.
  - vm_compute. lia.
  - destruct (Hrel I) as [-> ->]. destruct (Hd eq_refl) as (_ & _ & Hwr). exists br, bw, bw'. split_and!; [done|done|exact E|exact Hwr].
Defined.
