(* ===== verification/Base64.v ===== *)
(** Package encoding/base64 (src/go/src/pkg/encoding/base64/base64.go).

    Slices written through a parameter are returned with the writes; re-slicing
    [dst = dst[4:]] continues on the tail.  The stream encoder writes to an
    io.Writer, the class [Writer] below. *)

From S2P Require Import Prelude.

(** * Encodings *)

Record Encoding := MkEncoding { encode : list Z; decodeMap : list Z }.

(** The alphabets, as bytes. *)
Definition encode62 : list Z := seqZ 65 26 ++ seqZ 97 26 ++ seqZ 48 10.
Definition encodeStd : list Z := encode62 ++ [43; 47].
Definition encodeURL : list Z := encode62 ++ [45; 95].

(** The second loop of NewEncoding, from index [i] of the alphabet on. *)
Fixpoint fill_map (encoder : list Z) (i : Z) (m : list Z) : outcome (list Z) :=
  match encoder with
  | [] => Done m
  | c :: encoder => m ← set_idx m c (byte i); fill_map encoder (i + 1) m
  end.

Definition NewEncoding (encoder : list Z) : outcome Encoding :=
  m ← fill_map encoder 0 (replicate 256 0xFF);
  Done (MkEncoding encoder m).

(** The package variables, by evaluation of NewEncoding on the constants. *)
Definition StdEncoding : Encoding :=
  Eval vm_compute in match NewEncoding encodeStd with Done enc => enc | _ => MkEncoding [] [] end.
Definition URLEncoding : Encoding :=
  Eval vm_compute in match NewEncoding encodeURL with Done enc => enc | _ => MkEncoding [] [] end.

(** * Encoder *)

(** The four 6-bit blocks of up to three source bytes. *)
Definition unpack (src : list Z) : Z * Z * Z * Z :=
  match src with
  | [] => (0, 0, 0, 0)
  | s0 :: src =>
      let '(d1, d2, d3) :=
        match src with
        | [] => (0, 0, 0)
        | s1 :: src =>
            let '(d2, d3) := match src with [] => (0, 0) | s2 :: _ => (Z.shiftr s2 6, Z.land s2 0x3F) end in
            (Z.shiftr s1 4, Z.lor d2 (Z.land (byte (Z.shiftl s1 2)) 0x3F), d3)
        end in
      (Z.shiftr s0 2, Z.lor d1 (Z.land (byte (Z.shiftl s0 4)) 0x3F), d2, d3)
  end.

Section Code.
Context (enc : Encoding).

(** The contents of [dst] after the loop. *)
Fixpoint Encode_loop (fuel : nat) (dst src : list Z) : outcome (list Z) :=
  match fuel with
  | O => OutOfFuel
  | S fuel =>
      if zlen src =? 0 then Done dst else
      match dst with
      | _ :: _ :: _ :: _ :: dst =>
          let '(d0, d1, d2, d3) := unpack src in
          e0 ← idx (encode enc) d0;
          e1 ← idx (encode enc) d1;
          e2 ← idx (encode enc) d2;
          e3 ← idx (encode enc) d3;
          let e3 := if zlen src <? 3 then 61 else e3 in
          let e2 := if zlen src <? 2 then 61 else e2 in
          if zlen src <? 3 then Done (e0 :: e1 :: e2 :: e3 :: dst) else
          dst ← Encode_loop fuel dst (drop 3 src);
          Done (e0 :: e1 :: e2 :: e3 :: dst)
      | _ => Panic
      end
  end.
Definition Encode (dst src : list Z) : outcome (list Z) := Encode_loop (S (length src)) dst src.

Definition EncodedLen (n : Z) : Z := int (Z.quot (int (n + 2)) 3 * 4).

Definition EncodeToString (src : list Z) : outcome (list Z) :=
  if EncodedLen (zlen src) <? 0 then Panic else
  Encode (replicate (Z.to_nat (EncodedLen (zlen src))) 0) src.

(** * Decoder *)

Inductive error := CorruptInputError (offset : Z).

(** The inner loop: the values decoded and, when it stops at padding, their
    number. *)
Fixpoint dbuf_loop (fuel : nat) (src : list Z) (i j : Z) (dbuf : list Z) : outcome (list Z * bool + error) :=
  match fuel with
  | O => OutOfFuel
  | S fuel =>
      if negb (j <? 4) then Done (inl (dbuf, false)) else
      c ← idx src (i * 4 + j);
      if (c =? 61) && (2 <=? j) && (i =? Z.quot (zlen src) 4 - 1) then
        c3 ← idx src (i * 4 + 3);
        if negb (c3 =? 61) then Done (inr (CorruptInputError (i * 4 + 2))) else Done (inl (dbuf, true))
      else
        v ← idx (decodeMap enc) c;
        if v =? 0xFF then Done (inr (CorruptInputError (i * 4 + j))) else
        dbuf_loop fuel src i (j + 1) (dbuf ++ [v])
  end.

(** The packing of a quantum into [dst], by [dlen], the length of [dbuf]. *)
Definition pack (dst : list Z) (i : Z) (dbuf : list Z) : outcome (list Z) :=
  match dbuf with
  | [a; b; c; d] =>
      dst ← set_idx dst (i * 3 + 2) (Z.lor (byte (Z.shiftl c 6)) d);
      dst ← set_idx dst (i * 3 + 1) (Z.lor (byte (Z.shiftl b 4)) (Z.shiftr c 2));
      set_idx dst (i * 3) (Z.lor (byte (Z.shiftl a 2)) (Z.shiftr b 4))
  | [a; b; c] =>
      dst ← set_idx dst (i * 3 + 1) (Z.lor (byte (Z.shiftl b 4)) (Z.shiftr c 2));
      set_idx dst (i * 3) (Z.lor (byte (Z.shiftl a 2)) (Z.shiftr b 4))
  | [a; b] => set_idx dst (i * 3) (Z.lor (byte (Z.shiftl a 2)) (Z.shiftr b 4))
  | _ => Done dst
  end.

(** A quantum: the loop goes on with [dst], [i], [n] and [end], or returns. *)
Definition decode_step (src : list Z) : list Z * Z * Z * bool -> outcome ((list Z * Z * Z * bool) + (list Z * Z * bool * option error)) :=
  fun '(dst, i, n, fin) =>
    if negb ((i <? Z.quot (zlen src) 4) && negb fin) then Done (inr (dst, n, fin, None)) else
    r ← dbuf_loop 5 src i 0 [];
    match r with
    | inr e => Done (inr (dst, n, false, Some e))
    | inl (dbuf, fin) => dst ← pack dst i dbuf; Done (inl (dst, i + 1, n + (zlen dbuf - 1), fin))
    end.

(** [dst] with the writes, and the results. *)
Definition decode (dst src : list Z) : outcome (list Z * Z * bool * option error) :=
  loop (S (length src)) (decode_step src) (dst, 0, 0, false).

Definition Decode (dst src : list Z) : outcome (list Z * Z * option error) :=
  if negb (Z.rem (zlen src) 4 =? 0) then Done (dst, 0, Some (CorruptInputError (Z.quot (zlen src) 4 * 4))) else
  '(dst, n, _, err) ← decode dst src;
  Done (dst, n, err).

Definition DecodedLen (n : Z) : Z := Z.quot n 4 * 3.

Definition DecodeString (s : list Z) : outcome (list Z * option error) :=
  '(dbuf, n, err) ← Decode (replicate (Z.to_nat (DecodedLen (zlen s))) 0) s;
  r ← slice dbuf 0 n;
  Done (r, err).
End Code.

(** * Stream encoder *)

(** An io.Writer with its state; [Write] returns an error or the new state. *)
Class Writer (W E : Type) := Write : list Z -> W -> W * option E.

Section Stream.
Context {W E : Type} `{HW : Writer W E} (enc : Encoding).

Record encoder := MkEncoder { err : option E; w : W; buf : list Z; nbuf : Z; out : list Z }.

Definition NewEncoder (w : W) : encoder := MkEncoder None w (replicate 3 0) 0 (replicate 1024 0).

(** Encoding [src] into [e.out] and writing [m] bytes of it. *)
Definition flush (e : encoder) (src : list Z) (m : Z) : outcome encoder :=
  o ← Encode enc (out e) src;
  q ← slice o 0 m;
  let '(w', x) := Write q (w e) in
  Done (MkEncoder x w' (buf e) (nbuf e) o).

(** The leading fringe: bytes of [p] that fill [e.buf]. *)
Fixpoint fringe (p : list Z) (b : list Z) (nb i : Z) : outcome (list Z * Z * Z) :=
  match p with
  | c :: p => if nb <? 3 then b ← set_idx b nb c; fringe p b (nb + 1) (i + 1) else Done (b, nb, i)
  | [] => Done (b, nb, i)
  end.

(** The large interior chunks: [n], the rest of [p] and the encoder. *)
Definition interior (n : Z) (p : list Z) (e : encoder) : outcome (Z * list Z * encoder) :=
  loop (S (length p)) (fun '(n, p, e) =>
    if negb (3 <=? zlen p) then Done (inr (n, p, e)) else
    let nn := Z.quot (zlen (out e)) 4 * 3 in
    let nn := if zlen p <? nn then zlen p else nn in
    let nn := nn - Z.rem nn 3 in
    e ← (if 0 <? nn then q ← slice p 0 nn; flush e q (Z.quot nn 3 * 4) else Done e);
    match err e with
    | Some _ => Done (inr (n, p, e))
    | None => p ← slice p nn (zlen p); Done (inl (n + nn, p, e))
    end) (n, p, e).

(** The trailing fringe: [e.buf[i] = p[i]]. *)
Fixpoint fill_buf (p : list Z) (i : Z) (b : list Z) : outcome (list Z) :=
  match p with [] => Done b | c :: p => b ← set_idx b i c; fill_buf p (i + 1) b end.

(** The number of bytes consumed and the error are returned with the encoder. *)
Definition encoder_Write (p : list Z) (e : encoder) : outcome (Z * option E * encoder) :=
  match err e with
  | Some x => Done (0, Some x, e)
  | None =>
      '(n, p, e, ret) ←
        (if 0 <? nbuf e then
           '(b, nb, i) ← fringe p (buf e) (nbuf e) 0;
           let e := MkEncoder (err e) (w e) b nb (out e) in
           p ← slice p i (zlen p);
           if nb <? 3 then Done (i, p, e, true) else
           e ← flush e (buf e) 4;
           match err e with
           | Some _ => Done (i, p, e, true)
           | None => Done (i, p, MkEncoder (err e) (w e) (buf e) 0 (out e), false)
           end
         else Done (0, p, e, false));
      if (ret : bool) then Done (n, err e, e) else
      '(n, p, e) ← interior n p e;
      match err e with
      | Some x => Done (n, Some x, e)
      | None =>
          b ← fill_buf p 0 (buf e);
          Done (n + zlen p, None, MkEncoder (err e) (w e) b (zlen p) (out e))
      end
  end.

Definition encoder_Close (e : encoder) : outcome (option E * encoder) :=
  match err e with
  | None =>
      if 0 <? nbuf e then
        q ← slice (buf e) 0 (nbuf e);
        e ← flush (MkEncoder (err e) (w e) (buf e) (nbuf e) (out e)) q 4;
        let e := MkEncoder (err e) (w e) (buf e) 0 (out e) in
        Done (err e, e)
      else Done (None, e)
  | Some x => Done (Some x, e)
  end.
End Stream.

(** * Alphabets *)

(** The decoding map inverts the alphabet and marks every other byte. *)
Record good_encoding (enc : Encoding) : Prop := {
  good_len : zlen (encode enc) = 64;
  good_bytes : Forall is_byte (encode enc);
  good_pad : 61 ∉ encode enc;
  good_map_len : zlen (decodeMap enc) = 256;
  good_inverse : forall k c, (encode enc).[k] = Some c -> (decodeMap enc).[c] = Some k;
  good_other : forall c, is_byte c -> c ∉ encode enc -> (decodeMap enc).[c] = Some 0xFF;
}.

Lemma fill_map_spec e : forall i m, zlen m = 256 -> Forall is_byte e -> NoDup e -> 0 <= i -> i + zlen e <= 256 ->
  exists m', fill_map e i m = Done m' /\ zlen m' = 256 /\
    (forall k c, e.[k] = Some c -> m'.[c] = Some (i + k)) /\ (forall c, c ∉ e -> m'.[c] = m.[c]).
Proof.
  induction e as [|c e IH]; intros i m Hm Hb Hnd Hi Hl; cbn [fill_map].
  - exists m. split_and!; try done. intros k c. by rewrite zlookup_nil.
  - apply Forall_cons_iff in Hb as [Hc Hb]. apply list.NoDup_cons in Hnd as [Hnc Hnd]. rewrite zlen_cons in Hl. pose proof (zlen_nonneg e).
    unfold is_byte in Hc. rewrite set_idx_done by lia. cbn [mbind outcome_bind].
    destruct (IH (i + 1) (<[Z.to_nat c:=byte i]> m)) as (m' & -> & Hm' & Hin & Hout); [by rewrite zlen_insert|done|done|lia|lia|].
    exists m'. split_and!; [done|done| |].
    + intros k d. rewrite zlookup_cons. case_bool.
      * intros [= <-]. rewrite Hout, zlookup_insert by (done || lia). rewrite byte_small by (unfold is_byte; lia). case_bool; [f_equal; lia|lia].
      * intros Hk. rewrite (Hin (k - 1) d Hk). f_equal. lia.
    + intros d Hd. apply not_elem_of_cons in Hd as [Hdc Hd]. rewrite Hout, zlookup_insert by (done || lia).
      case_bool; [congruence|done].
Qed.

Lemma NewEncoding_spec e : zlen e = 64 -> Forall is_byte e -> NoDup e -> (61 ∉ e) ->
  exists enc, NewEncoding e = Done enc /\ encode enc = e /\ good_encoding enc.
Proof.
  intros Hl Hb Hnd Hp. unfold NewEncoding. destruct (fill_map_spec e 0 (replicate 256 0xFF)) as (m & -> & Hm & Hin & Hout); [done|done|done|lia|lia|].
  eexists. split; [done|]. split; [done|]. constructor; cbn; try done.
  intros c Hc Hne. unfold is_byte in Hc. rewrite Hout by done. rewrite zlookup_replicate. case_bool; [done|]. bool_to_prop. lia.
Qed.

(** * Arithmetic of the blocks *)

Lemma unpack1 a : is_byte a -> unpack [a] = (a / 4, a mod 4 * 16, 0, 0).
Proof.
  intros Ha. unfold is_byte in Ha. cbn [unpack]. rewrite Z.lor_0_l, Z.shiftr_div_pow2, Z.shiftl_mul_pow2 by lia.
  unfold byte, wrap. change 0x3F with (Z.ones 6). rewrite Z.land_ones by lia. repeat f_equal; zlia.
Qed.

Lemma unpack2 a b : is_byte a -> is_byte b -> unpack [a; b] = (a / 4, a mod 4 * 16 + b / 16, b mod 16 * 4, 0).
Proof.
  intros Ha Hb. unfold is_byte in *. cbn [unpack]. rewrite Z.lor_0_l, !Z.shiftr_div_pow2, !Z.shiftl_mul_pow2 by lia.
  unfold byte, wrap. change 0x3F with (Z.ones 6). rewrite !Z.land_ones by lia.
  replace ((a * 2 ^ 4) mod 2 ^ 8 mod 2 ^ 6) with (a mod 4 * 2 ^ 4) by zlia. rewrite Z.lor_comm, lor_add by zlia. repeat f_equal; zlia.
Qed.

Lemma unpack3 a b c src : is_byte a -> is_byte b -> is_byte c ->
  unpack (a :: b :: c :: src) = (a / 4, a mod 4 * 16 + b / 16, b mod 16 * 4 + c / 64, c mod 64).
Proof.
  intros Ha Hb Hc. unfold is_byte in *. cbn [unpack]. rewrite !Z.shiftr_div_pow2, !Z.shiftl_mul_pow2 by lia.
  unfold byte, wrap. change 0x3F with (Z.ones 6). rewrite !Z.land_ones by lia.
  replace ((a * 2 ^ 4) mod 2 ^ 8 mod 2 ^ 6) with (a mod 4 * 2 ^ 4) by zlia. replace ((b * 2 ^ 2) mod 2 ^ 8 mod 2 ^ 6) with (b mod 16 * 2 ^ 2) by zlia.
  rewrite (Z.lor_comm (b / 2 ^ 4)), (Z.lor_comm (c / 2 ^ 6)), !lor_add by zlia. repeat f_equal; zlia.
Qed.

(** The bytes that packing recovers. *)
Lemma pack_hi a b : is_byte a -> 0 <= b < 16 -> Z.lor (byte (Z.shiftl (a / 4) 2)) (Z.shiftr (a mod 4 * 16 + b) 4) = a.
Proof.
  intros Ha Hb. unfold is_byte, byte, wrap in *. rewrite Z.shiftr_div_pow2, Z.shiftl_mul_pow2 by lia.
  replace ((a / 4 * 2 ^ 2) mod 2 ^ 8) with (a / 4 * 2 ^ 2) by zlia. rewrite lor_add by zlia. zlia.
Qed.

Lemma pack_mid a b c : 0 <= a < 4 -> is_byte b -> 0 <= c < 4 -> Z.lor (byte (Z.shiftl (a * 16 + b / 16) 4)) (Z.shiftr (b mod 16 * 4 + c) 2) = b.
Proof.
  intros Ha Hb Hc. unfold is_byte, byte, wrap in *. rewrite Z.shiftr_div_pow2, Z.shiftl_mul_pow2 by lia.
  replace (((a * 16 + b / 16) * 2 ^ 4) mod 2 ^ 8) with (b / 16 * 2 ^ 4) by zlia. rewrite lor_add by zlia. zlia.
Qed.

Lemma pack_lo b c : 0 <= b < 16 -> is_byte c -> Z.lor (byte (Z.shiftl (b * 4 + c / 64) 6)) (c mod 64) = c.
Proof.
  intros Hb Hc. unfold is_byte, byte, wrap in *. rewrite Z.shiftl_mul_pow2 by lia.
  replace (((b * 4 + c / 64) * 2 ^ 6) mod 2 ^ 8) with (c / 64 * 2 ^ 6) by zlia. rewrite lor_add by zlia. zlia.
Qed.

(** * The encoding as a function of the source *)

Section Proofs.
Context (enc : Encoding) (Hgood : good_encoding enc).

Definition sym (k : Z) : Z := default 0 ((encode enc).[k]).

(** RFC 4648: every three bytes are the base 64 digits of a 24-bit number; the
    last one or two bytes are completed by zero bits and padding. *)
Fixpoint enc64 (src : list Z) : list Z :=
  match src with
  | [] => []
  | [a] => [sym (a / 4); sym (a mod 4 * 16); 61; 61]
  | [a; b] => [sym (a / 4); sym (a mod 4 * 16 + b / 16); sym (b mod 16 * 4); 61]
  | a :: b :: c :: src =>
      sym (a / 4) :: sym (a mod 4 * 16 + b / 16) :: sym (b mod 16 * 4 + c / 64) :: sym (c mod 64) :: enc64 src
  end.

Lemma triples_ind (P : list Z -> Prop) :
  P [] -> (forall a, P [a]) -> (forall a b, P [a; b]) -> (forall a b c l, P l -> P (a :: b :: c :: l)) -> forall l, P l.
Proof.
  intros H0 H1 H2 H3. refine (fix IH l := _). destruct l as [|a [|b [|c l]]]; [exact H0|apply H1|apply H2|apply H3, IH].
Qed.

Lemma sym_idx k : 0 <= k < 64 -> (encode enc).[k] = Some (sym k).
Proof.
  intros Hk. unfold sym. destruct (zlookup_lt (encode enc) k) as [c ->]; [|done]. rewrite (good_len _ Hgood). lia.
Qed.

Lemma idx_sym k : 0 <= k < 64 -> idx (encode enc) k = Done (sym k).
Proof. intros Hk. by apply idx_done, sym_idx. Qed.

Lemma sym_elem k : 0 <= k < 64 -> sym k ∈ encode enc.
Proof. intros Hk. by eapply zlookup_elem, sym_idx. Qed.

Lemma sym_not_pad k : 0 <= k < 64 -> sym k <> 61.
Proof. intros Hk E. apply (good_pad _ Hgood). rewrite <- E. by apply sym_elem. Qed.

Lemma decode_sym k : 0 <= k < 64 -> idx (decodeMap enc) (sym k) = Done k.
Proof. intros Hk. apply idx_done, (good_inverse _ Hgood), sym_idx, Hk. Qed.

Lemma quad_cases (l : list Z) : 4 <= zlen l -> exists x0 x1 x2 x3 l', l = x0 :: x1 :: x2 :: x3 :: l'.
Proof. destruct l as [|? [|? [|? [|? l]]]]; [done..|by eauto 6]. Qed.

Lemma Encode_loop_spec src : forall fuel dst, (length src < fuel)%nat -> Forall is_byte src -> zlen (enc64 src) <= zlen dst ->
  Encode_loop enc fuel dst src = Done (enc64 src ++ drop (length (enc64 src)) dst).
Proof.
  induction src as [|a|a b|a b c src IH] using triples_ind; intros [|fuel] dst Hf Hb Hl; try lia; cbn [Encode_loop]; [done|..].
  - destruct (quad_cases dst Hl) as (? & ? & ? & ? & dst' & ->).
    apply Forall_cons_iff in Hb as [Ha _]. rewrite unpack1 by done. unfold is_byte in Ha. by rewrite !idx_sym by zlia.
  - destruct (quad_cases dst Hl) as (? & ? & ? & ? & dst' & ->).
    apply Forall_cons_iff in Hb as [Ha Hb]. apply Forall_cons_iff in Hb as [Hb _]. rewrite unpack2 by done. unfold is_byte in *.
    by rewrite !idx_sym by zlia.
  - cbn [enc64] in Hl. rewrite !zlen_cons in Hl. pose proof (zlen_nonneg (enc64 src)). pose proof (zlen_nonneg src).
    destruct (quad_cases dst) as (? & ? & ? & ? & dst' & ->); [lia|]. rewrite !zlen_cons in Hl.
    apply Forall_cons_iff in Hb as [Ha Hb]. apply Forall_cons_iff in Hb as [Hb Hc]. apply Forall_cons_iff in Hc as [Hc Hsrc].
    rewrite unpack3 by done. unfold is_byte in Ha, Hb, Hc. rewrite !idx_sym by zlia. rewrite !zlen_cons in *. cbn [mbind outcome_bind].
    do 3 (case_bool; try lia). cbn [mbind outcome_bind drop]. rewrite IH; [|cbn in Hf; lia|done|lia]. done.
Qed.

Lemma Encode64_spec src dst : Forall is_byte src -> zlen (enc64 src) <= zlen dst ->
  Encode enc dst src = Done (enc64 src ++ drop (length (enc64 src)) dst).
Proof. intros. apply Encode_loop_spec; [lia|done|done]. Qed.

Lemma zlen_enc64 src : zlen (enc64 src) = Z.quot (zlen src + 2) 3 * 4.
Proof.
  induction src as [|a|a b|a b c src IH] using triples_ind; [done..|]. cbn [enc64]. rewrite !zlen_cons, IH.
  pose proof (zlen_nonneg src). rewrite !Z.quot_div_nonneg by lia. zlia.
Qed.

Lemma EncodedLen_spec src : zlen src <= 3 * 2 ^ 29 - 3 -> EncodedLen (zlen src) = zlen (enc64 src).
Proof.
  intros Hl. pose proof (zlen_nonneg src). unfold EncodedLen.
  rewrite zlen_enc64, !int_small; [done|..]; rewrite ?int_small; rewrite ?Z.quot_div_nonneg; zlia.
Qed.

Lemma EncodeToString_spec src : Forall is_byte src -> zlen src <= 3 * 2 ^ 29 - 3 -> EncodeToString enc src = Done (enc64 src).
Proof.
  intros Hb Hl. unfold EncodeToString. rewrite EncodedLen_spec by done. pose proof (zlen_nonneg (enc64 src)).
  case_bool; [lia|]. rewrite zlen_to_nat, Encode64_spec, drop_ge, app_nil_r; try done;
    rewrite ?length_replicate, ?zlen_replicate; try lia. unfold zlen. lia.
Qed.

(** * Decoding an encoding *)

Lemma zlookup_shift (P l : list Z) i j : zlen P = i -> 0 <= j -> (P ++ l).[i + j] = l.[j].
Proof. intros <- Hj. pose proof (zlen_nonneg P). rewrite zlookup_app. case_bool; [lia|]. f_equal. lia. Qed.

Lemma set_idx_shift (P l : list Z) i j v : zlen P = i -> 0 <= j < zlen l -> set_idx (P ++ l) (i + j) v = Done (P ++ <[Z.to_nat j:=v]> l).
Proof.
  intros <- Hj. pose proof (zlen_nonneg P). rewrite set_idx_done by (rewrite zlen_app; lia).
  rewrite insert_app_r_alt by (unfold zlen in *; lia). do 3 f_equal. unfold zlen. lia.
Qed.

Lemma dbuf_sym fuel src i j dbuf k : src.[i * 4 + j] = Some (sym k) -> 0 <= k < 64 -> j < 4 ->
  dbuf_loop enc (S fuel) src i j dbuf = dbuf_loop enc fuel src i (j + 1) (dbuf ++ [k]).
Proof.
  intros Hs Hk Hj. cbn [dbuf_loop]. pose proof (sym_not_pad k Hk). rewrite (proj2 (Z.ltb_lt j 4)) by lia.
  cbn [negb]. rewrite (idx_done _ _ _ Hs). cbn [mbind outcome_bind]. rewrite (proj2 (Z.eqb_neq _ 61)) by done. cbn [andb].
  rewrite decode_sym by done. cbn [mbind outcome_bind]. by case_bool; [lia|].
Qed.

Lemma dbuf_pad fuel src i j dbuf : src.[i * 4 + j] = Some 61 -> src.[i * 4 + 3] = Some 61 -> 2 <= j < 4 -> i = Z.quot (zlen src) 4 - 1 ->
  dbuf_loop enc (S fuel) src i j dbuf = Done (inl (dbuf, true)).
Proof.
  intros Hs H3 Hj Hi. cbn [dbuf_loop]. rewrite (proj2 (Z.ltb_lt j 4)) by lia. cbn [negb]. rewrite (idx_done _ _ _ Hs). cbn [mbind outcome_bind].
  rewrite (proj2 (Z.leb_le 2 j)), (proj2 (Z.eqb_eq i _) Hi) by lia. cbn. by rewrite (idx_done _ _ _ H3).
Qed.

Lemma dbuf_end fuel src i dbuf : dbuf_loop enc (S fuel) src i (0 + 1 + 1 + 1 + 1) dbuf = Done (inl (dbuf, false)).
Proof. done. Qed.

Lemma set_idx_shift0 (P l : list Z) i v : zlen P = i -> 0 < zlen l -> set_idx (P ++ l) i v = Done (P ++ <[0%nat:=v]> l).
Proof. intros HP Hl. rewrite <- (Z.add_0_r i). apply (set_idx_shift P l i 0 v); [done|lia]. Qed.

(** The step on a quantum of the encoding, by the number of bytes it encodes. *)
Section Quantum.
Context (P : list Z) (i : Z) (HP : zlen P = i * 4) (O : list Z) (HO : zlen O = i * 3).

Ltac quantum := rewrite (zlookup_shift P) by (done || lia); reflexivity.
Ltac live := unfold decode_step; rewrite (proj2 (Z.ltb_lt i _)) by (rewrite zlen_app, !zlen_cons, ?zlen_nil, Z.quot_div_nonneg; zlia); cbn [andb negb].
Ltac next_sym := erewrite dbuf_sym; [|quantum|unfold is_byte in *; zlia|lia].
Ltac stores := repeat (rewrite set_idx_shift || rewrite set_idx_shift0; [|rewrite ?zlen_insert, ?zlen_cons; lia..]; cbn [mbind outcome_bind]).
Ltac last_pad := rewrite dbuf_pad; [|quantum|quantum|lia|rewrite zlen_app, !zlen_cons, zlen_nil, Z.quot_div_nonneg; zlia].

Lemma step3 a b c x0 x1 x2 dst n rest : is_byte a -> is_byte b -> is_byte c ->
  decode_step enc (P ++ enc64 [a; b; c] ++ rest) (O ++ x0 :: x1 :: x2 :: dst, i, n, false) =
  Done (inl (O ++ a :: b :: c :: dst, i + 1, n + 3, false)).
Proof.
  intros Ha Hb Hc. pose proof (zlen_nonneg P). pose proof (zlen_nonneg rest). pose proof (zlen_nonneg dst). cbn [enc64 app]. live.
  do 4 next_sym. rewrite dbuf_end. cbn [app mbind outcome_bind pack].
  rewrite pack_hi, pack_mid, pack_lo by (unfold is_byte in *; zlia).
  by stores.
Qed.

Lemma step2 a b x0 x1 dst n : is_byte a -> is_byte b ->
  decode_step enc (P ++ enc64 [a; b]) (O ++ x0 :: x1 :: dst, i, n, false) =
  Done (inl (O ++ a :: b :: dst, i + 1, n + 2, true)).
Proof.
  intros Ha Hb. pose proof (zlen_nonneg P). pose proof (zlen_nonneg dst). cbn [enc64 app]. live.
  do 3 next_sym. last_pad. cbn [app mbind outcome_bind pack].
  rewrite pack_hi by (unfold is_byte in *; zlia). rewrite <- (Z.add_0_r (b mod 16 * 4)), (pack_mid (a mod 4) b 0) by (unfold is_byte in *; zlia).
  by stores.
Qed.

Lemma step1 a x0 dst n : is_byte a ->
  decode_step enc (P ++ enc64 [a]) (O ++ x0 :: dst, i, n, false) = Done (inl (O ++ a :: dst, i + 1, n + 1, true)).
Proof.
  intros Ha. pose proof (zlen_nonneg P). pose proof (zlen_nonneg dst). cbn [enc64 app]. live.
  do 2 next_sym. last_pad. cbn [app mbind outcome_bind pack].
  rewrite <- (Z.add_0_r (a mod 4 * 16)), (pack_hi a 0) by (unfold is_byte in *; zlia).
  by stores.
Qed.
End Quantum.

Lemma decode_stop src dst i n fin fuel : fin = true \/ i = Z.quot (zlen src) 4 ->
  loop (S fuel) (decode_step enc src) (dst, i, n, fin) = Done (dst, n, fin, None).
Proof.
  intros H. cbn [loop]. replace (decode_step enc src (dst, i, n, fin)) with (Done (@inr (list Z * Z * Z * bool) _ (dst, n, fin, @None error))); [done|].
  unfold decode_step. case_bool; [done|]. destruct fin; naive_solver lia.
Qed.

Lemma decode_next src st st' fuel : decode_step enc src st = Done (inl st') ->
  loop (S fuel) (decode_step enc src) st = loop fuel (decode_step enc src) st'.
Proof. intros E. cbn [loop]. by rewrite E. Qed.

Lemma decode_stop_pos src dst i n fin fuel : fin = true \/ i = Z.quot (zlen src) 4 -> (0 < fuel)%nat ->
  loop fuel (decode_step enc src) (dst, i, n, fin) = Done (dst, n, fin, None).
Proof. intros H Hf. destruct fuel; [lia|]. by apply decode_stop. Qed.

Lemma decode_last src st dst i n fuel : decode_step enc src st = Done (inl (dst, i, n, true)) -> (1 < fuel)%nat ->
  loop fuel (decode_step enc src) st = Done (dst, n, true, None).
Proof. intros E Hf. destruct fuel; [lia|]. rewrite (decode_next _ _ _ _ E). apply decode_stop_pos; [by left|lia]. Qed.

(** The loop from a quantum boundary decodes the rest of the encoding; [tail]
    is what follows the encoded triples. *)
Lemma decode_triples suf : forall fuel P O i n dst tail, zlen P = i * 4 -> zlen O = i * 3 -> Forall is_byte suf -> zlen suf mod 3 = 0 ->
  zlen suf <= zlen dst ->
  loop (length suf + fuel) (decode_step enc (P ++ enc64 suf ++ tail)) (O ++ dst, i, n, false) =
  loop (length suf + fuel - Z.to_nat (zlen suf / 3)) (decode_step enc (P ++ enc64 suf ++ tail))
    (O ++ suf ++ drop (length suf) dst, i + zlen suf / 3, n + zlen suf, false).
Proof.
  induction suf as [|a|a b|a b c suf IH] using triples_ind; intros fuel P O i n dst tail HP HO Hb Hm Hl; [|done..|].
  - cbn. change (zlen []) with 0. rewrite Z.div_0_l, !Z.add_0_r by lia. by rewrite Nat.sub_0_r.
  - destruct dst as [|x0 [|x1 [|x2 dst]]]; try (rewrite ?zlen_cons, ?zlen_nil in Hl; pose proof (zlen_nonneg suf); lia).
    apply Forall_cons_iff in Hb as [Ha Hb]. apply Forall_cons_iff in Hb as [Hb Hc]. apply Forall_cons_iff in Hc as [Hc Hsuf].
    change (enc64 (a :: b :: c :: suf)) with (enc64 [a; b; c] ++ enc64 suf). rewrite <- (app_assoc (enc64 [a; b; c])).
    cbn [length Nat.add]. erewrite decode_next by (apply step3; done).
    rewrite !zlen_cons in *. pose proof (zlen_nonneg suf).
    pose proof (IH (S (S fuel)) (P ++ enc64 [a; b; c]) (O ++ [a; b; c]) (i + 1) (n + 3) dst tail) as IH'.
    rewrite <- !app_assoc in IH'. cbn [app] in IH'. replace (S (S (length suf + fuel))) with (length suf + S (S fuel))%nat by lia.
    cbn [app]. rewrite IH'; [|rewrite zlen_app, HP; change (zlen (enc64 [a; b; c])) with 4; lia|rewrite zlen_app, HO; change (zlen [a; b; c]) with 3; lia|done|zlia|lia].
    replace (1 + (1 + (1 + zlen suf))) with (1 * 3 + zlen suf) by lia. rewrite Z.div_add_l by lia.
    rewrite !Z.add_assoc. cbn [drop]. f_equal. zlia.
Qed.

Lemma triples_split (l : list Z) : exists pre r, l = pre ++ r /\ zlen pre mod 3 = 0 /\ zlen r < 3.
Proof.
  induction l as [|a|a b|a b c l (pre & r & -> & Hm & Hr)] using triples_ind; [by exists [], []|by exists [], [a]|by exists [], [a; b]|].
  exists (a :: b :: c :: pre), r. split_and!; [done| |done]. rewrite !zlen_cons. zlia.
Qed.

Lemma enc64_app pre l : zlen pre mod 3 = 0 -> enc64 (pre ++ l) = enc64 pre ++ enc64 l.
Proof.
  induction pre as [|a|a b|a b c pre IH] using triples_ind; intros Hm; [done..|]. cbn [enc64 app]. rewrite IH; [done|].
  rewrite !zlen_cons in Hm. zlia.
Qed.

Lemma zlen_enc64_triples pre : zlen pre mod 3 = 0 -> zlen (enc64 pre) = zlen pre / 3 * 4.
Proof. intros Hm. pose proof (zlen_nonneg pre). rewrite zlen_enc64, Z.quot_div_nonneg by lia. zlia. Qed.

Lemma length_enc64 l : (length l <= length (enc64 l))%nat.
Proof. induction l as [|a|a b|a b c l IH] using triples_ind; cbn; lia. Qed.

(** From the start, the complete triples before [tail] are decoded. *)
Lemma decode64_prefix pre tail dst fuel : Forall is_byte pre -> zlen pre mod 3 = 0 -> zlen pre <= zlen dst -> (length pre <= fuel)%nat ->
  loop fuel (decode_step enc (enc64 pre ++ tail)) (dst, 0, 0, false) =
  loop (fuel - Z.to_nat (zlen pre / 3)) (decode_step enc (enc64 pre ++ tail)) (pre ++ drop (length pre) dst, zlen pre / 3, zlen pre, false).
Proof.
  intros Hb Hm Hl Hf. pose proof (decode_triples pre (fuel - length pre) [] [] 0 0 dst tail) as E. cbn [app] in E.
  replace (length pre + (fuel - length pre))%nat with fuel in E by lia. by rewrite E.
Qed.

Lemma decode_enc64 src dst : Forall is_byte src -> zlen src <= zlen dst ->
  exists fin, decode enc dst (enc64 src) = Done (src ++ drop (length src) dst, zlen src, fin, None).
Proof.
  intros Hb Hl. destruct (triples_split src) as (pre & r & -> & Hm & Hr). apply Forall_app in Hb as [Hpre Hb].
  rewrite zlen_app in Hl. pose proof (zlen_nonneg pre). pose proof (zlen_nonneg r). unfold decode.
  assert (Hf : (length (pre ++ r) <= length (enc64 (pre ++ r)))%nat) by apply length_enc64. rewrite length_app in Hf.
  rewrite enc64_app by done. rewrite decode64_prefix by (done || lia || (rewrite <- enc64_app by done; lia)).
  assert (HP : zlen (enc64 pre) = zlen pre / 3 * 4) by by apply zlen_enc64_triples.
  assert (HO : zlen pre = zlen pre / 3 * 3) by zlia.
  set (fuel := (S (length (enc64 pre ++ enc64 r)) - Z.to_nat (zlen pre / 3))%nat).
  assert (Hfuel : (length r < fuel)%nat).
  { subst fuel. rewrite enc64_app in Hf by done. unfold zlen in *. zlia. }
  assert (Hd : drop (length pre) dst = take (length r) (drop (length pre) dst) ++ drop (length (pre ++ r)) dst).
  { rewrite length_app, <- drop_drop. by rewrite take_drop. }
  assert (Ht : length (take (length r) (drop (length pre) dst)) = length r).
  { rewrite length_take, length_drop. unfold zlen in *. lia. }
  rewrite Hd. destruct r as [|a [|b [|? ?]]]; destruct (take _ _) as [|x0 [|x1 [|? ?]]]; try done; cbn [app].
  - exists false. rewrite !app_nil_r. rewrite decode_stop_pos; [done|by right; rewrite HP, Z.quot_mul|done].
  - exists true. inv Hb. erewrite decode_last; [|by apply step1|done]. rewrite <- !app_assoc, zlen_app. done.
  - exists true. apply Forall_cons_iff in Hb as [Ha Hb]. apply Forall_cons_iff in Hb as [Hb _].
    erewrite decode_last; [|by apply step2|cbn in Hfuel; lia]. rewrite <- !app_assoc, zlen_app. done.
  - rewrite !zlen_cons in Hr. pose proof (zlen_nonneg l). lia.
Qed.

Lemma DecodeString_enc64 src : Forall is_byte src -> DecodeString enc (enc64 src) = Done (src, None).
Proof.
  intros Hb. pose proof (zlen_nonneg src). pose proof (zlen_enc64 src) as Hl. rewrite Z.quot_div_nonneg in Hl by lia.
  unfold DecodeString, Decode, DecodedLen. rewrite Hl, Z.rem_mul, Z.quot_mul by lia. cbn [Z.eqb negb].
  destruct (decode_enc64 src (replicate (Z.to_nat ((zlen src + 2) / 3 * 3)) 0) Hb) as [fin ->]; [rewrite zlen_replicate; zlia|].
  cbn [mbind outcome_bind]. rewrite slice_prefix. done.
Qed.

(** * Corrupt input *)

Lemma dbuf_syms src i ks : forall fuel j dbuf, (forall k, 0 <= k < zlen ks -> src.[i * 4 + (j + k)] = sym <$> ks.[k]) ->
  Forall (fun k => 0 <= k < 64) ks -> j + zlen ks <= 4 ->
  dbuf_loop enc (length ks + fuel) src i j dbuf = dbuf_loop enc fuel src i (j + zlen ks) (dbuf ++ ks).
Proof.
  induction ks as [|k ks IH]; intros fuel j dbuf Hs Hk Hj; [by rewrite app_nil_r, Z.add_0_r|].
  apply Forall_cons_iff in Hk as [Hk Hks]. rewrite zlen_cons in *. pose proof (zlen_nonneg ks). cbn [length Nat.add].
  erewrite dbuf_sym; [|specialize (Hs 0); rewrite Z.add_0_r in Hs; rewrite Hs by lia; done|done|lia].
  rewrite IH; [by rewrite <- app_assoc, Z.add_assoc| |done|lia].
  intros l Hl. specialize (Hs (l + 1)). rewrite zlookup_cons in Hs. destruct (Z.eqb_spec (l + 1) 0); [lia|].
  replace (j + 1 + l) with (j + (l + 1)) by lia. rewrite Hs by lia. do 2 f_equal. lia.
Qed.

Lemma zlen_fmap (f : Z -> Z) l : zlen (f <$> l) = zlen l.
Proof. unfold zlen. by rewrite length_fmap. Qed.

Lemma zlookup_fmap (f : Z -> Z) l i : (f <$> l).[i] = f <$> l.[i].
Proof. destruct (Z.ltb_spec i 0); [rewrite !zlookup_oob by lia; done|]. rewrite !zlookup_nonneg by done. apply list_lookup_fmap. Qed.

(** The byte [c] cannot stand at position [j] of a quantum followed by [t]: it
    is outside the alphabet, and is not padding of the last quantum. *)
Definition bad_byte (j c : Z) (t : list Z) : Prop :=
  is_byte c /\ (c ∉ encode enc) /\ (c = 61 -> j < 2 \/ 4 <= zlen t \/ exists d, t = [d] /\ d <> 61).

Lemma dbuf_bad P ks c t i : zlen P = i * 4 -> Forall (fun k => 0 <= k < 64) ks -> zlen ks < 4 ->
  zlen (P ++ (sym <$> ks) ++ c :: t) mod 4 = 0 -> bad_byte (zlen ks) c t ->
  dbuf_loop enc 5 (P ++ (sym <$> ks) ++ c :: t) i 0 [] = Done (inr (CorruptInputError (i * 4 + zlen ks))).
Proof.
  intros HP Hks Hj Hm (Hc & Hn & Hp). set (src := P ++ (sym <$> ks) ++ c :: t) in *. pose proof (zlen_nonneg ks). pose proof (zlen_nonneg P). pose proof (zlen_nonneg t).
  assert (Hl : zlen src = i * 4 + zlen ks + 1 + zlen t) by (subst src; rewrite !zlen_app, zlen_fmap, zlen_cons; lia).
  assert (Hsrc : src.[i * 4 + zlen ks] = Some c).
  { subst src. rewrite app_assoc, <- HP, <- (zlen_fmap sym ks), <- zlen_app. apply zlookup_at. }
  replace 5%nat with (length ks + S (4 - length ks))%nat by (unfold zlen in *; lia).
  rewrite dbuf_syms; [|intros k Hk; subst src; rewrite (zlookup_shift P) by (done || lia); rewrite zlookup_app, zlen_fmap;
    case_bool; [by rewrite zlookup_fmap|lia]|done|lia].
  rewrite Z.add_0_l. cbn [dbuf_loop app]. rewrite (proj2 (Z.ltb_lt (zlen ks) 4) Hj). cbn [negb].
  rewrite (idx_done _ _ _ Hsrc). cbn [mbind outcome_bind]. case_bool.
  - destruct Hp as [?|[?|(d & -> & Hd)]]; [lia|lia|rewrite Z.quot_div_nonneg in *; zlia|].
    change (zlen [d]) with 1 in *. assert (zlen ks = 2) as Hk2 by zlia.
    rewrite (idx_done _ _ d); [|].
    + cbn [mbind outcome_bind]. rewrite (proj2 (Z.eqb_neq d 61) Hd), Hk2. done.
    + subst src. replace (i * 4 + 3) with (i * 4 + 2 + 1) by lia. rewrite app_assoc, (zlookup_shift _ _ (i * 4 + 2) 1) by (rewrite ?zlen_app, ?zlen_fmap; lia).
      rewrite zlookup_cons. done.
  - rewrite (idx_done _ _ _ (good_other _ Hgood c Hc Hn)). done.
Qed.

Lemma step_bad src dst i n e : dbuf_loop enc 5 src i 0 [] = Done (inr e) -> i < Z.quot (zlen src) 4 ->
  decode_step enc src (dst, i, n, false) = Done (inr (dst, n, false, Some e)).
Proof. intros E Hi. unfold decode_step. rewrite (proj2 (Z.ltb_lt _ _) Hi), E. done. Qed.

Lemma DecodeString_bad pre ks c t : Forall is_byte pre -> zlen pre mod 3 = 0 -> Forall (fun k => 0 <= k < 64) ks -> zlen ks < 4 ->
  zlen (enc64 pre ++ (sym <$> ks) ++ c :: t) mod 4 = 0 -> bad_byte (zlen ks) c t ->
  DecodeString enc (enc64 pre ++ (sym <$> ks) ++ c :: t) = Done (pre, Some (CorruptInputError (zlen (enc64 pre) + zlen ks))).
Proof.
  intros Hb Hm Hks Hj H4 Hbad. pose proof (zlen_enc64_triples pre Hm) as HP. set (src := enc64 pre ++ (sym <$> ks) ++ c :: t) in *.
  pose proof (zlen_nonneg src). pose proof (zlen_nonneg pre). pose proof (zlen_nonneg ks). pose proof (zlen_nonneg t).
  assert (Hl : zlen src = zlen pre / 3 * 4 + zlen ks + 1 + zlen t) by (subst src; rewrite !zlen_app, zlen_fmap, zlen_cons; lia).
  unfold DecodeString, Decode, DecodedLen, decode. rewrite Z.quot_div_nonneg, Z.rem_mod_nonneg, H4 by lia. cbn [Z.eqb negb].
  subst src. rewrite decode64_prefix; [|done|done|rewrite zlen_replicate; zlia|rewrite !length_app; pose proof (length_enc64 pre); lia].
  set (src := enc64 pre ++ (sym <$> ks) ++ c :: t) in *.
  destruct (S (length src) - Z.to_nat (zlen pre / 3))%nat eqn:Ef; [unfold zlen in *; zlia|]. cbn [loop].
  erewrite step_bad; [|by apply dbuf_bad|rewrite Z.quot_div_nonneg; zlia].
  cbn [mbind outcome_bind]. rewrite slice_prefix, HP. done.
Qed.
End Proofs.

(** * The stream encoder *)

(** A writer that never fails and keeps what is written to it. *)
Class Recorder (W E : Type) `{Writer W E} := {
  contents : W -> list Z;
  write_contents : forall q w, exists w', Write q w = (w', None) /\ contents w' = contents w ++ q;
}.

Section StreamProofs.
Context {W E : Type} `{HW : Writer W E} `{HR : !Recorder W E} (enc : Encoding) (Hgood : good_encoding enc).

(** What the encoder has written encodes [pre], the complete triples of its
    input; the rest of the input is buffered. *)
Definition einv (c0 input : list Z) (e : encoder (W:=W) (E:=E)) : Prop :=
  err e = None /\ zlen (buf e) = 3 /\ zlen (out e) = 1024 /\ 0 <= nbuf e < 3 /\ Forall is_byte input /\
  exists pre b rest, input = pre ++ b /\ buf e = b ++ rest /\ zlen b = nbuf e /\
    zlen pre mod 3 = 0 /\ contents (w e) = c0 ++ enc64 enc pre.

Lemma flush_spec e src m : Forall is_byte src -> m = zlen (enc64 enc src) -> m <= 1024 -> zlen (out e) = 1024 ->
  exists w' o', flush enc e src m = Done (MkEncoder None w' (buf e) (nbuf e) o') /\
    contents w' = contents (w e) ++ enc64 enc src /\ zlen o' = 1024.
Proof.
  intros Hb -> Hm Ho. unfold flush. rewrite Encode64_spec by (done || lia). cbn [mbind outcome_bind].
  rewrite slice_prefix. cbn [mbind outcome_bind].
  destruct (write_contents (enc64 enc src) (w e)) as (w' & -> & Hw). do 2 eexists. split; [done|]. split; [done|].
  rewrite zlen_app, zlen_drop. unfold zlen in *. lia.
Qed.

(** The leading fringe takes bytes of [p] until it is used up or the buffer full. *)
Lemma fringe_spec p : forall b r i, zlen b + zlen r = 3 ->
  exists p1 p2 r', p = p1 ++ p2 /\ fringe p (b ++ r) (zlen b) i = Done (b ++ p1 ++ r', zlen b + zlen p1, i + zlen p1) /\
    zlen b + zlen p1 + zlen r' = 3 /\ (p2 = [] \/ r' = []).
Proof.
  induction p as [|c p IH]; intros b r i Hl; cbn [fringe].
  - exists [], [], r. rewrite zlen_nil, !Z.add_0_r. by split_and!; [..|left].
  - case_bool.
    + destruct r as [|x r]; [rewrite zlen_nil in Hl; lia|]. rewrite set_idx_at, snoc_app. cbn [mbind outcome_bind]. rewrite zlen_cons in Hl.
      destruct (IH (b ++ [c]) r (i + 1)) as (p1 & p2 & r' & -> & Ef & Hl' & Hor); [rewrite zlen_app, zlen_cons, zlen_nil; lia|].
      rewrite zlen_app, zlen_cons, zlen_nil in Ef, Hl'. rewrite Z.add_0_r in Ef, Hl'. rewrite Ef. exists (c :: p1), p2, r'.
      rewrite zlen_cons, <- app_assoc, <- !Z.add_assoc. split_and!; [done|done|lia|done].
    + destruct r as [|x r]; [|rewrite zlen_cons in Hl; pose proof (zlen_nonneg r); lia].
      exists [], (c :: p), []. rewrite !zlen_nil in *. rewrite !Z.add_0_r in *. by split_and!; [..|right].
Qed.

Lemma fill_buf_spec p : forall b r, zlen p <= zlen r ->
  exists r', fill_buf p (zlen b) (b ++ r) = Done (b ++ p ++ r') /\ zlen p + zlen r' = zlen r.
Proof.
  induction p as [|c p IH]; intros b r Hl; cbn [fill_buf].
  - by exists r.
  - rewrite zlen_cons in *. destruct r as [|x r]; [rewrite zlen_nil in Hl; pose proof (zlen_nonneg p); lia|].
    rewrite set_idx_at, snoc_app. cbn [mbind outcome_bind]. rewrite zlen_cons in Hl.
    destruct (IH (b ++ [c]) r) as (r' & Ef & Hr); [lia|]. rewrite zlen_app, zlen_cons, zlen_nil, Z.add_0_r in Ef. rewrite Ef.
    exists r'. rewrite <- app_assoc, zlen_cons. split; [done|lia].
Qed.

Lemma slice_split (p : list Z) n : 0 <= n <= zlen p -> exists q r, p = q ++ r /\ zlen q = n.
Proof. intros Hn. exists (take (Z.to_nat n) p), (drop (Z.to_nat n) p). rewrite take_drop, zlen_take. split; [done|lia]. Qed.

(** The interior chunks: every pass writes the encoding of complete triples. *)
Lemma interior_spec n p e : Forall is_byte p -> err e = None -> zlen (out e) = 1024 ->
  returns (interior enc n p e) (fun '(n', p', e') => exists pre, p = pre ++ p' /\ n' = n + zlen pre /\ zlen pre mod 3 = 0 /\ zlen p' < 3 /\
    err e' = None /\ buf e' = buf e /\ nbuf e' = nbuf e /\ zlen (out e') = 1024 /\ contents (w e') = contents (w e) ++ enc64 enc pre).
Proof.
  intros Hb He Ho. unfold interior.
  apply (loop_returns (fun '(n', p', e') => exists pre, p = pre ++ p' /\ n' = n + zlen pre /\ zlen pre mod 3 = 0 /\
    err e' = None /\ buf e' = buf e /\ nbuf e' = nbuf e /\ zlen (out e') = 1024 /\ contents (w e') = contents (w e) ++ enc64 enc pre)
    (fun '(_, p', _) => length p')); [| |lia].
  - intros [[n' p'] e'] (pre & -> & -> & Hm & He' & Hbuf & Hn & Ho' & Hc). apply Forall_app in Hb as [Hpre Hb]. pose proof (zlen_nonneg p').
    case_bool; [go_ret; exists pre; naive_solver lia|].
    rewrite Ho'. change (Z.quot 1024 4 * 3) with 768.
    set (nn := (if zlen p' <? 768 then zlen p' else 768) - _).
    assert (Hnn : 0 < nn <= 768 /\ nn <= zlen p' /\ nn mod 3 = 0).
    { subst nn. case_bool; rewrite Z.rem_mod_nonneg by lia; zlia. }
    rewrite (proj2 (Z.ltb_lt 0 nn)) by lia.
    destruct (slice_split p' nn) as (q & r & -> & Hq); [lia|]. apply Forall_app in Hb as [Hbq Hbr]. rewrite <- Hq in *.
    rewrite slice_prefix. cbn [mbind outcome_bind].
    destruct (flush_spec e' q (Z.quot (zlen q) 3 * 4)) as (w' & o' & -> & Hw & Hlo);
      [done|rewrite zlen_enc64_triples, Z.quot_div_nonneg by lia; done|rewrite Z.quot_div_nonneg by lia; zlia|done|].
    cbn [mbind outcome_bind err]. rewrite slice_suffix. cbn [mbind outcome_bind]. go_ret.
    split; [|rewrite length_app; unfold zlen in *; lia]. exists (pre ++ q). rewrite <- !app_assoc, zlen_app. cbn.
    split_and!; try done; [lia|rewrite Z.add_mod, Hm, (proj2 (proj2 Hnn)) by lia; done|].
    rewrite Hw, Hc, enc64_app by done. by rewrite app_assoc.
  - exists []. rewrite zlen_nil, Z.add_0_r, app_nil_r. by split_and!.
Qed.

Lemma zlen_nil_inv (l : list Z) : zlen l = 0 -> l = [].
Proof. destruct l; [done|]. rewrite zlen_cons. pose proof (zlen_nonneg l). lia. Qed.

(** Interior and trailing fringe, with nothing buffered. *)
Lemma write_rest n p e c0 input : Forall is_byte input -> Forall is_byte p -> err e = None -> zlen (buf e) = 3 -> zlen (out e) = 1024 ->
  zlen input mod 3 = 0 -> contents (w e) = c0 ++ enc64 enc input ->
  returns ('(n, p, e) ← interior enc n p e;
      match err e with
      | Some x => Done (n, Some x, e)
      | None =>
          b ← fill_buf p 0 (buf e);
          Done (n + zlen p, None, MkEncoder (err e) (w e) b (zlen p) (out e))
      end) (fun '(n', x, e') => n' = n + zlen p /\ x = None /\ einv c0 (input ++ p) e').
Proof.
  intros Hi Hb He Hbuf Ho Hm Hc. eapply returns_bind; [by apply interior_spec|].
  intros [[n' r] e'] (pre & -> & -> & Hp & Hr & He' & Hbuf' & _ & Ho' & Hc'). rewrite He'.
  destruct (fill_buf_spec r [] (buf e')) as (b' & Ef & Hl); [rewrite Hbuf'; lia|]. cbn [app] in Ef. rewrite zlen_nil in Ef. rewrite Ef.
  cbn [mbind outcome_bind]. go_ret. rewrite zlen_app. split_and!; [lia|done|]. pose proof (zlen_nonneg r).
  unfold einv. cbn. rewrite zlen_app. split_and!; try done; [rewrite Hbuf' in Hl; lia|apply Forall_app; by split|].
  exists (input ++ pre), r, b'. rewrite zlen_app, app_assoc. split_and!; try done; [rewrite Z.add_mod, Hm, Hp by lia; done|].
  by rewrite Hc', Hc, enc64_app, app_assoc.
Qed.

Lemma encoder_Write_spec c0 input p e : einv c0 input e -> Forall is_byte p ->
  returns (encoder_Write enc p e) (fun '(n, x, e') => n = zlen p /\ x = None /\ einv c0 (input ++ p) e').
Proof.
  intros (He & Hbuf & Ho & Hn & Hi & pre & b & rest & -> & Eb & Hb & Hm & Hc) Hp. unfold encoder_Write. rewrite He.
  apply Forall_app in Hi as [Hpre Hbb]. case_bool.
  - rewrite Eb, <- Hb. destruct (fringe_spec p b rest 0) as (p1 & p2 & r' & -> & -> & Hl & Hor); [rewrite Eb, zlen_app in Hbuf; lia|].
    cbn [mbind outcome_bind]. rewrite Z.add_0_l, slice_suffix. cbn [mbind outcome_bind]. apply Forall_app in Hp as [Hp1 Hp2]. case_bool.
    + destruct Hor as [-> | ->]; [|rewrite zlen_nil in Hl; lia]. cbn [mbind outcome_bind]. go_ret. rewrite app_nil_r.
      split_and!; [done|done|]. unfold einv. cbn. rewrite !zlen_app. pose proof (zlen_nonneg p1). split_and!; try done; try lia.
      { rewrite !Forall_app. done. }
      exists pre, (b ++ p1), r'. rewrite <- !app_assoc, zlen_app. done.
    + pose proof (zlen_nonneg r'). assert (r' = []) as -> by (apply zlen_nil_inv; lia). rewrite app_nil_r.
      destruct (flush_spec (MkEncoder None (w e) (b ++ p1) (zlen b + zlen p1) (out e)) (b ++ p1) 4) as (w' & o' & Ef & Hw & Hlo).
      { by apply Forall_app. }
      { rewrite zlen_enc64_triples, zlen_app; rewrite ?zlen_app; rewrite zlen_nil, Z.add_0_r in Hl; by rewrite Hl. }
      { lia. } { done. }
      cbn [err w buf nbuf out] in Ef, Hw |- *. rewrite Ef. cbn [mbind outcome_bind err w buf out]. rewrite zlen_nil, Z.add_0_r in Hl.
      eapply returns_mono; [apply (write_rest (zlen p1) p2 _ c0 (pre ++ b ++ p1))|]; cbn; try done.
      { by rewrite !Forall_app. }
      { by rewrite zlen_app. }
      { rewrite !zlen_app, Hl, Z.add_mod, Hm by lia. done. }
      { by rewrite Hw, Hc, (enc64_app _ pre), app_assoc. }
      { intros [[n x] e'] (-> & -> & He'). rewrite zlen_app, <- !app_assoc in *. done. }
  - cbn [mbind outcome_bind].
    assert (b = []) as -> by (apply zlen_nil_inv; lia). rewrite app_nil_r. apply (write_rest 0 p e c0 pre); done.
Qed.

Lemma encoder_Close_spec c0 input e : einv c0 input e ->
  returns (encoder_Close enc e) (fun '(x, e') => x = None /\ contents (w e') = c0 ++ enc64 enc input).
Proof.
  intros (He & Hbuf & Ho & Hn & Hi & pre & b & rest & -> & Eb & Hb & Hm & Hc). apply Forall_app in Hi as [Hpre Hbb].
  unfold encoder_Close. rewrite He. rewrite enc64_app by done. case_bool.
  - rewrite Eb, <- Hb, slice_prefix. cbn [mbind outcome_bind].
    assert (zlen (enc64 enc b) = 4) as H4 by (rewrite zlen_enc64, Z.quot_div_nonneg; zlia).
    destruct (flush_spec (MkEncoder None (w e) (b ++ rest) (zlen b) (out e)) b 4) as (w' & o' & -> & Hw & Hlo); [done|done|lia|done|].
    cbn [mbind outcome_bind]. go_ret. split; [done|]. cbn in Hw |- *. by rewrite Hw, Hc, app_assoc.
  - assert (b = []) as -> by (apply zlen_nil_inv; lia). go_ret. by rewrite app_nil_r.
Qed.

(** A sequence of writes, with their results. *)
Fixpoint Writes (ps : list (list Z)) (e : encoder) : outcome (list (Z * option E) * encoder) :=
  match ps with
  | [] => Done ([], e)
  | p :: ps =>
      '(n, x, e) ← encoder_Write enc p e;
      '(rs, e) ← Writes ps e;
      Done ((n, x) :: rs, e)
  end.

Lemma Writes_spec ps : forall c0 input e, einv c0 input e -> Forall (Forall is_byte) ps ->
  returns (Writes ps e) (fun '(rs, e') => rs = (fun p => (zlen p, None)) <$> ps /\ einv c0 (input ++ concat ps) e').
Proof.
  induction ps as [|p ps IH]; intros c0 input e He Hb; cbn [Writes concat].
  - go_ret. by rewrite app_nil_r.
  - apply Forall_cons_iff in Hb as [Hp Hb]. eapply returns_bind; [by apply encoder_Write_spec|].
    intros [[n x] e'] (-> & -> & He'). eapply returns_bind; [by apply IH|]. intros [rs e''] [-> He'']. go_ret.
    rewrite <- app_assoc in He''. done.
Qed.

Lemma NewEncoder_einv w0 : einv (contents w0) [] (NewEncoder w0).
Proof. unfold einv, NewEncoder. cbn. split_and!; try done; try lia. exists [], [], (replicate 3 0). split_and!; try done. cbn. by rewrite app_nil_r. Qed.
End StreamProofs.

(** * Properties *)

(** For every alphabet of 64 distinct bytes without the padding character,
    NewEncoding gives an encoding with which EncodeToString returns the RFC 4648
    encoding, of EncodedLen bytes, of every source whose encoded length is an
    int, and DecodeString returns the source back without an error. *)
Theorem base64_roundtrip alphabet : zlen alphabet = 64 -> Forall is_byte alphabet -> NoDup alphabet -> (61 ∉ alphabet) ->
  exists enc, NewEncoding alphabet = Done enc /\
    forall src, Forall is_byte src -> zlen src <= 3 * 2 ^ 29 - 3 ->
      exists s, EncodeToString enc src = Done s /\ s = enc64 enc src /\ zlen s = EncodedLen (zlen src) /\
        DecodeString enc s = Done (src, None).
Proof.
  intros Hl Hb Hnd Hp. destruct (NewEncoding_spec alphabet Hl Hb Hnd Hp) as (enc & -> & _ & Hgood). exists enc. split; [done|].
  intros src Hs Hn. exists (enc64 enc src). split_and!; [by apply EncodeToString_spec|done|by rewrite (EncodedLen_spec enc)|by apply DecodeString_enc64].
Qed.

(** DecodeString on an input that is broken by a byte which is neither in
    the alphabet nor padding of the last quantum (or is padding that is not
    completed) returns the bytes of the quanta before it, and the error with
    the offset of that byte. *)
Theorem base64_corrupt enc pre ks c t : good_encoding enc -> Forall is_byte pre -> zlen pre mod 3 = 0 ->
  Forall (fun k => 0 <= k < 64) ks -> zlen ks < 4 ->
  zlen (enc64 enc pre ++ (sym enc <$> ks) ++ c :: t) mod 4 = 0 -> bad_byte enc (zlen ks) c t ->
  DecodeString enc (enc64 enc pre ++ (sym enc <$> ks) ++ c :: t) =
  Done (pre, Some (CorruptInputError (zlen (enc64 enc pre ++ (sym enc <$> ks))))).
Proof. intros. rewrite zlen_app, zlen_fmap. by apply DecodeString_bad. Qed.

(** C11. The stream encoder over a writer that records what it is given: however
    the data is divided among the calls of Write, each call returns the length
    of its argument and no error, and after Close the bytes written are those
    that EncodeToString returns for the concatenated data. *)
Theorem stream_encoder_equiv {W E} `{HW : Writer W E} `{HR : !Recorder W E} enc w0 ps s :
  good_encoding enc -> Forall (Forall is_byte) ps -> zlen (concat ps) <= 3 * 2 ^ 29 - 3 -> EncodeToString enc (concat ps) = Done s ->
  returns ('(rs, e) ← Writes enc ps (NewEncoder w0); '(x, e) ← encoder_Close enc e; Done (rs, x, e))
    (fun '(rs, x, e) => rs = (fun p => (zlen p, None)) <$> ps /\ x = None /\ contents (w e) = contents w0 ++ s).
Proof.
  intros Hg Hb Hl. rewrite EncodeToString_spec; [|done|by apply Forall_concat|done]. intros [= <-].
  eapply returns_bind; [apply Writes_spec; [done|apply NewEncoder_einv|done]|].
  intros [rs e] [-> He]. eapply returns_bind; [by apply encoder_Close_spec|]. intros [x e'] [-> Hc]. go_ret. done.
Qed.

(** The standard encoding. *)
Lemma encodeStd_good : zlen encodeStd = 64 /\ Forall is_byte encodeStd /\ NoDup encodeStd /\ (61 ∉ encodeStd).
Proof. split_and!; [done| |by apply (bool_decide_unpack _)|by apply (bool_decide_unpack _)]. unfold is_byte. by apply (bool_decide_unpack _). Qed.

Lemma encodeURL_good : zlen encodeURL = 64 /\ Forall is_byte encodeURL /\ NoDup encodeURL /\ (61 ∉ encodeURL).
Proof. split_and!; [done| |by apply (bool_decide_unpack _)|by apply (bool_decide_unpack _)]. unfold is_byte. by apply (bool_decide_unpack _). Qed.

Lemma StdEncoding_good : good_encoding StdEncoding.
Proof.
  destruct encodeStd_good as (Hl & Hb & Hnd & Hp). destruct (NewEncoding_spec encodeStd Hl Hb Hnd Hp) as (enc & E & _ & Hg).
  assert (NewEncoding encodeStd = Done StdEncoding) as E' by (vm_compute; reflexivity). congruence.
Qed.

(** A writer that records everything. *)
#[local] Instance record_writer : Writer (list Z) unit := fun q w => (w ++ q, None).
#[local] Instance record_recorder : Recorder (list Z) unit.
Proof. refine {| contents := fun w => w |}. intros q w. by exists (w ++ q). Defined.

(** "Hello" *)
Lemma base64_roundtrip_witness :
  exists enc, NewEncoding encodeStd = Done enc /\ exists s, EncodeToString enc [72; 101; 108; 108; 111] = Done s /\
    DecodeString enc s = Done ([72; 101; 108; 108; 111], None).
Proof.
  destruct (base64_roundtrip encodeStd) as (enc & Henc & H); [apply encodeStd_good..|].
  exists enc. split; [exact Henc|]. destruct (H [72; 101; 108; 108; 111]) as (s & E & _ & _ & D); [repeat constructor; unfold is_byte; lia|vm_compute; congruence|].
  exists s. split; assumption.
Defined.

(** "SGVsbG*v": the byte at offset 6 is outside the alphabet. *)
Lemma base64_corrupt_witness :
  DecodeString StdEncoding [83; 71; 86; 115; 98; 71; 42; 118] = Done ([72; 101; 108], Some (CorruptInputError 6)).
Proof.
  apply (base64_corrupt StdEncoding [72; 101; 108] [27; 6] 42 [118] StdEncoding_good); [repeat constructor; unfold is_byte; lia|reflexivity| |reflexivity|reflexivity|].
  - repeat constructor; lia.
  - split; [unfold is_byte; lia|]. split; [by apply (bool_decide_unpack _)|done].
Defined.

Lemma stream_encoder_equiv_witness :
  returns ('(rs, e) ← Writes StdEncoding [[72; 101]; []; [108; 108; 111]] (NewEncoder []); '(x, e) ← encoder_Close StdEncoding e; Done (rs, x, e))
    (fun '(rs, x, e) => rs = [(2, None); (0, None); (3, None)] /\ x = None /\ w e = [83; 71; 86; 115; 98; 71; 56; 61]).
Proof.
  apply (stream_encoder_equiv (HW:=record_writer) (HR:=record_recorder) StdEncoding [] [[72; 101]; []; [108; 108; 111]] [83; 71; 86; 115; 98; 71; 56; 61] StdEncoding_good).
  - repeat constructor; unfold is_byte; lia.
  - vm_compute. congruence.
  - vm_compute. reflexivity.
Defined.
