(* ===== verification/Binary.v ===== *)
(** Package encoding/binary (src/go/src/pkg/encoding/binary/binary.go): byte
    orders.

    [ByteOrder] is the interface, [ByteOrderLaws] what a client relies on; the
    two implementations are the tables of the code: which byte of the slice
    goes to which bits. *)

From S2P Require Import Prelude.

(** [uintw(b[i0]) | uintw(b[i1])<<s1 | ...]. *)
Fixpoint or_bytes (w : Z) (tbl : list (Z * Z)) (b : list Z) (acc : Z) : outcome Z :=
  match tbl with
  | [] => Done acc
  | (i, s) :: tbl => x ← idx b i; or_bytes w tbl b (Z.lor acc (wrap w (Z.shiftl x s)))
  end.

(** [b[i0] = byte(v >> s0); b[i1] = byte(v >> s1); ...]. *)
Fixpoint put_bytes (tbl : list (Z * Z)) (b : list Z) (v : Z) : outcome (list Z) :=
  match tbl with
  | [] => Done b
  | (i, s) :: tbl => b ← set_idx b i (byte (Z.shiftr v s)); put_bytes tbl b v
  end.

Class ByteOrder := {
  Uint16 : list Z -> outcome Z;
  Uint32 : list Z -> outcome Z;
  Uint64 : list Z -> outcome Z;
  PutUint16 : list Z -> Z -> outcome (list Z);
  PutUint32 : list Z -> Z -> outcome (list Z);
  PutUint64 : list Z -> Z -> outcome (list Z);
}.

Definition littleEndian : ByteOrder := {|
  Uint16 b := or_bytes 16 [(0, 0); (1, 8)] b 0;
  Uint32 b := or_bytes 32 [(0, 0); (1, 8); (2, 16); (3, 24)] b 0;
  Uint64 b := or_bytes 64 [(0, 0); (1, 8); (2, 16); (3, 24); (4, 32); (5, 40); (6, 48); (7, 56)] b 0;
  PutUint16 := put_bytes [(0, 0); (1, 8)];
  PutUint32 := put_bytes [(0, 0); (1, 8); (2, 16); (3, 24)];
  PutUint64 := put_bytes [(0, 0); (1, 8); (2, 16); (3, 24); (4, 32); (5, 40); (6, 48); (7, 56)];
|}.

Definition bigEndian : ByteOrder := {|
  Uint16 b := or_bytes 16 [(1, 0); (0, 8)] b 0;
  Uint32 b := or_bytes 32 [(3, 0); (2, 8); (1, 16); (0, 24)] b 0;
  Uint64 b := or_bytes 64 [(7, 0); (6, 8); (5, 16); (4, 24); (3, 32); (2, 40); (1, 48); (0, 56)] b 0;
  PutUint16 := put_bytes [(0, 8); (1, 0)];
  PutUint32 := put_bytes [(0, 24); (1, 16); (2, 8); (3, 0)];
  PutUint64 := put_bytes [(0, 56); (1, 48); (2, 40); (3, 32); (4, 24); (5, 16); (6, 8); (7, 0)];
|}.

(** ** What a byte order promises *)

(** [put] writes [w/8] bytes that [get] reads back, and changes nothing else;
    both panic on a shorter slice; [get] of bytes fits the width, and writing
    it back changes nothing. *)
Definition codec_law (w : Z) (get : list Z -> outcome Z) (put : list Z -> Z -> outcome (list Z)) : Prop :=
  let n := Z.to_nat (w / 8) in
  (forall b v, 0 <= v < 2 ^ w -> (n <= length b)%nat ->
     exists c, put b v = Done (c ++ drop n b) /\ length c = n /\ Forall is_byte c /\
       forall rest, get (c ++ rest) = Done v) /\
  (forall b, Forall is_byte b -> (n <= length b)%nat -> exists v, get b = Done v /\ 0 <= v < 2 ^ w /\ put b v = Done b) /\
  (forall b v, (length b < n)%nat -> get b = Panic /\ put b v = Panic).

Class ByteOrderLaws (O : ByteOrder) : Prop := {
  law16 : codec_law 16 Uint16 PutUint16;
  law32 : codec_law 32 Uint32 PutUint32;
  law64 : codec_law 64 Uint64 PutUint64;
}.

(** ** The tables satisfy the laws *)

Lemma or_byte w v s : 0 <= s -> s + 8 <= w ->
  Z.lor (v mod 2 ^ s) (wrap w (Z.shiftl (byte (Z.shiftr v s)) s)) = v mod 2 ^ (s + 8).
Proof.
  intros Hs Hw. unfold byte, wrap. apply Z.bits_inj'. intros n Hn.
  rewrite Z.lor_spec. destruct (Z.ltb_spec n s) as [Hns|Hns].
  - rewrite !Z.mod_pow2_bits_low, Z.shiftl_spec_low by lia. apply orb_false_r.
  - rewrite Z.mod_pow2_bits_high by lia. cbn [orb]. destruct (Z.ltb_spec n (s + 8)).
    + rewrite !Z.mod_pow2_bits_low, Z.shiftl_spec, Z.mod_pow2_bits_low, Z.shiftr_spec by lia. f_equal; lia.
    + rewrite (Z.mod_pow2_bits_high v) by lia. destruct (Z.ltb_spec n w).
      * by rewrite Z.mod_pow2_bits_low, Z.shiftl_spec, Z.mod_pow2_bits_high by lia.
      * by rewrite Z.mod_pow2_bits_high by lia.
Qed.

(** One step of reading bytes that fit. *)
Lemma or_next w acc b s : 0 <= s -> s + 8 <= w -> is_byte b -> 0 <= acc < 2 ^ s ->
  Z.lor acc (wrap w (Z.shiftl b s)) = acc + b * 2 ^ s /\ 0 <= acc + b * 2 ^ s < 2 ^ (s + 8).
Proof.
  intros Hs Hw Hb Ha. unfold is_byte in Hb. pose proof (Z.pow_pos_nonneg 2 s ltac:(lia) Hs).
  assert (Hp : 2 ^ (s + 8) = 256 * 2 ^ s) by (rewrite Z.pow_add_r by lia; change (2 ^ 8) with 256; ring).
  assert (2 ^ (s + 8) <= 2 ^ w) by (apply Z.pow_le_mono_r; lia).
  assert (Hbs : 0 <= b * 2 ^ s <= 255 * 2 ^ s) by (split; [lia|apply Z.mul_le_mono_nonneg_r; lia]).
  rewrite Z.shiftl_mul_pow2, wrap_small, Z.lor_comm, lor_add by lia. lia.
Qed.

(** [tbl] reads bits from [s] on, eight at a time, and [b] holds the bytes of [v]. *)
Fixpoint reads (b : list Z) (v s : Z) (tbl : list (Z * Z)) : Prop :=
  match tbl with
  | [] => True
  | (i, s') :: tbl => s' = s /\ b.[i] = Some (byte (Z.shiftr v s)) /\ reads b v (s + 8) tbl
  end.

Lemma or_bytes_reads w b v tbl : forall s, 0 <= s -> s + 8 * zlen tbl <= w -> reads b v s tbl ->
  or_bytes w tbl b (v mod 2 ^ s) = Done (v mod 2 ^ (s + 8 * zlen tbl)).
Proof.
  induction tbl as [|[i s'] tbl IH]; intros s Hs Hw Hr; [by rewrite (@zlen_nil (Z * Z)), Z.mul_0_r, Z.add_0_r|].
  destruct Hr as (-> & Hi & Hr). rewrite zlen_cons in *. pose proof (zlen_nonneg tbl). cbn [or_bytes].
  rewrite (idx_done _ _ _ Hi). cbn [mbind outcome_bind]. rewrite or_byte, IH by (done || lia).
  by replace (s + 8 * (1 + zlen tbl)) with (s + 8 + 8 * zlen tbl) by lia.
Qed.

(** Reading bytes gives the number they are the bytes of. *)
Lemma or_bytes_spec w b tbl : forall s acc, Forall is_byte b -> 0 <= s -> s + 8 * zlen tbl <= w -> 0 <= acc < 2 ^ s ->
  (forall k i s', tbl !! k = Some (i, s') -> 0 <= i < zlen b /\ s' = s + 8 * Z.of_nat k) ->
  exists v, or_bytes w tbl b acc = Done v /\ 0 <= v < 2 ^ (s + 8 * zlen tbl) /\ v mod 2 ^ s = acc /\ reads b v s tbl.
Proof.
  induction tbl as [|[i s'] tbl IH]; intros s acc Hb Hs Hw Ha Ht.
  { exists acc. rewrite (@zlen_nil (Z * Z)), Z.mul_0_r, Z.add_0_r. split_and!; try done; try lia. by apply Z.mod_small. }
  rewrite zlen_cons in *. pose proof (zlen_nonneg tbl). cbn [or_bytes].
  destruct (Ht 0%nat i s' eq_refl) as [Hi Hs']. replace s' with s in * by lia.
  destruct (zlookup_lt b i Hi) as [x Hx]. rewrite (idx_done _ _ _ Hx). cbn [mbind outcome_bind].
  assert (Hbx : is_byte x) by (apply (proj1 (list.Forall_forall _ b) Hb), (zlookup_elem _ _ _ Hx)).
  destruct (or_next w acc x s Hs ltac:(lia) Hbx Ha) as [-> Hb'].
  destruct (IH (s + 8) (acc + x * 2 ^ s) Hb ltac:(lia) ltac:(lia) Hb') as (v & -> & Hv & Hm & Hr).
  { intros k i' s2 Hk. specialize (Ht (S k) i' s2 Hk). lia. }
  pose proof (Z.pow_pos_nonneg 2 s ltac:(lia) Hs).
  assert (Hp : 2 ^ (s + 8) = 2 ^ s * 256) by (rewrite Z.pow_add_r by lia; done).
  exists v. split_and!; [done|lia| |..].
  - replace (s + 8 * (1 + zlen tbl)) with (s + 8 + 8 * zlen tbl) by lia. apply Hv.
  - rewrite <- (Z.mod_mod_divide v (2 ^ s * 256) (2 ^ s)) by (exists 256; ring).
    rewrite <- Hp, Hm, Z.mod_add, Z.mod_small by lia. done.
  - cbn [reads]. split_and!; [done| |done].
    rewrite Hx. f_equal. unfold byte, wrap. rewrite Z.shiftr_div_pow2 by lia.
    assert (Hd : (v mod (2 ^ s * 256)) / 2 ^ s = (v / 2 ^ s) mod 2 ^ 8).
    { rewrite Z.rem_mul_r by lia. rewrite Z.mul_comm, Z.div_add by lia.
      rewrite Z.div_small by (apply Z.mod_pos_bound; lia). done. }
    rewrite <- Hd, <- Hp, Hm, Z.div_add, Z.div_small by lia. done.
Qed.

(** The writing tables go through the slice in order. *)
Fixpoint ascending (k : Z) (tbl : list (Z * Z)) : bool :=
  match tbl with [] => true | (i, _) :: tbl => (i =? k) && ascending (k + 1) tbl end.

Lemma ascending_lookup tbl : forall k j i s, ascending k tbl = true -> tbl !! j = Some (i, s) -> i = k + Z.of_nat j.
Proof.
  induction tbl as [|[i' s'] tbl IH]; intros k j i s Ha Hj; [done|]. cbn [ascending] in Ha. bool_to_prop.
  destruct j as [|j]; [simplify_eq/=; lia|]. rewrite (IH (k + 1) j i s) by done. lia.
Qed.

Lemma put_bytes_spec v tbl : forall pre b, ascending (zlen pre) tbl = true -> (length tbl <= length b)%nat ->
  put_bytes tbl (pre ++ b) v = Done (pre ++ map (fun '(_, s) => byte (Z.shiftr v s)) tbl ++ drop (length tbl) b).
Proof.
  induction tbl as [|[i s] tbl IH]; intros pre b Ha Hl; [done|]. cbn [ascending put_bytes] in *. bool_to_prop. subst i.
  destruct b as [|x b]; [simpl in Hl; lia|].
  rewrite set_idx_done by (rewrite zlen_app, zlen_cons; pose proof (zlen_nonneg pre); pose proof (zlen_nonneg b); lia).
  cbn [mbind outcome_bind]. unfold zlen at 1. rewrite Nat2Z.id, insert_app_r_alt, Nat.sub_diag by lia.
  cbn [insert list_insert]. rewrite cons_middle, app_assoc, IH.
  - cbn [map length drop]. by rewrite <- app_assoc.
  - by rewrite zlen_app.
  - simpl in Hl. lia.
Qed.

Lemma put_bytes_same v tbl b :
  Forall (fun '(i, s) => b.[i] = Some (byte (Z.shiftr v s))) tbl -> put_bytes tbl b v = Done b.
Proof.
  induction 1 as [|[i s] tbl Hi Ht IH]; [done|]. cbn [put_bytes]. pose proof (zlookup_Some_lt _ _ _ Hi) as Hr.
  rewrite set_idx_done by lia. cbn [mbind outcome_bind]. rewrite zlookup_nonneg in Hi by lia.
  rewrite list_insert_id by done. done.
Qed.

Section Law.
Variables (w : Z) (G P : list (Z * Z)).

(** What the tables must satisfy, decided by evaluation. *)
Definition tables_ok : bool :=
  (0 <? w) && (8 * zlen G =? w) && (length G =? length P)%nat && (length G =? Z.to_nat (w / 8))%nat && ascending 0 P &&
  forallb (fun k => bool_decide (snd <$> G !! k = Some (8 * Z.of_nat k))) (seq 0 (length G)) &&
  forallb (fun '(i, s) => (0 <=? i) && bool_decide (P !! Z.to_nat i = Some (i, s))) G &&
  forallb (fun '(i, s) => bool_decide ((i, s) ∈ G)) P.

Hypothesis Hok : tables_ok = true.

Lemma tables_facts : 0 < w /\ 8 * zlen G = w /\ length P = length G /\ length G = Z.to_nat (w / 8) /\ ascending 0 P = true /\
  (forall k i s, G !! k = Some (i, s) -> s = 8 * Z.of_nat k /\ 0 <= i /\ P !! Z.to_nat i = Some (i, s)) /\
  (forall i s, (i, s) ∈ P -> exists k, G !! k = Some (i, s)).
Proof.
  unfold tables_ok in Hok. rewrite !andb_true_iff, !forallb_forall, !Nat.eqb_eq, Z.ltb_lt, Z.eqb_eq in Hok.
  destruct Hok as [[[[[[[Hw HG] HP] Hn] Ha] Hs] Hi] Hp]. split_and!; auto.
  - intros k i s Hk. apply lookup_lt_Some in Hk as Hlt.
    pose proof (Hs k ltac:(apply in_seq; lia)) as H1. rewrite Hk in H1. apply bool_decide_eq_true in H1.
    pose proof (Hi (i, s) ltac:(apply list_elem_of_In; by eapply list_elem_of_lookup_2)) as H2. cbv beta iota in H2.
    apply andb_prop in H2 as [H2 H3]. apply bool_decide_eq_true in H3. apply Z.leb_le in H2. simpl in H1. by simplify_eq.
  - intros i s Hin. pose proof (Hp (i, s) ltac:(by apply list_elem_of_In)) as H1.
    by apply bool_decide_eq_true, list_elem_of_lookup in H1.
Qed.

Lemma table_reads b v (tbl : list (Z * Z)) s : 0 <= s ->
  (forall k i s', tbl !! k = Some (i, s') -> s' = s + 8 * Z.of_nat k /\ b.[i] = Some (byte (Z.shiftr v s'))) ->
  reads b v s tbl.
Proof.
  revert s. induction tbl as [|[i s'] tbl IH]; intros s Hs Ht; [done|]. destruct (Ht 0%nat i s' eq_refl) as [E Hi].
  replace s' with s in * by lia. split_and!; [done|done|]. apply IH; [lia|]. intros k i' s2 Hk.
  destruct (Ht (S k) i' s2 Hk) as [E2 ?]. split; [lia|done].
Qed.

Lemma reads_table b v (tbl : list (Z * Z)) s : reads b v s tbl ->
  forall k i s', tbl !! k = Some (i, s') -> b.[i] = Some (byte (Z.shiftr v s')).
Proof.
  revert s. induction tbl as [|[i s'] tbl IH]; intros s Hr k i' s2 Hk; [done|]. destruct Hr as (-> & Hi & Hr).
  destruct k as [|k]; [by simplify_eq/=|]. by eapply IH.
Qed.

Lemma or_bytes_short tbl b acc k i s : tbl !! k = Some (i, s) -> zlen b <= i -> or_bytes w tbl b acc = Panic.
Proof.
  revert acc k. induction tbl as [|[i' s'] tbl IH]; intros acc k Hk Hi; [done|]. cbn [or_bytes].
  destruct k as [|k]; [simplify_eq/=|].
  - unfold idx. rewrite zlookup_oob by lia. done.
  - destruct (idx b i') eqn:E; cbn; [by eapply IH|done|]. unfold idx, of_option in E. by destruct (b.[i']).
Qed.

Lemma put_bytes_short tbl v : forall b k i s, tbl !! k = Some (i, s) -> zlen b <= i -> put_bytes tbl b v = Panic.
Proof.
  induction tbl as [|[i' s'] tbl IH]; intros b k i s Hk Hi; [done|]. cbn [put_bytes]. unfold set_idx.
  destruct ((0 <=? i') && (i' <? zlen b)) eqn:E; [|done]. cbn [mbind outcome_bind].
  destruct k as [|k]; [simplify_eq/=; bool_to_prop; lia|]. eapply IH; [done|]. by rewrite zlen_insert.
Qed.

Lemma tables_law : codec_law w (fun b => or_bytes w G b 0) (put_bytes P).
Proof.
  destruct tables_facts as (Hw & HG & HPG & Hn & Ha & HGP & HPinG). unfold codec_law. cbv zeta. rewrite <- Hn.
  assert (HGi : forall k i s, G !! k = Some (i, s) -> 0 <= i < zlen G).
  { intros k i s Hk. destruct (HGP k i s Hk) as (_ & Hi & HPi). apply lookup_lt_Some in HPi. unfold zlen. lia. }
  split_and!.
  - intros b v Hv Hl. set (c := map (fun '(_, s) => byte (Z.shiftr v s)) P). exists c. split_and!.
    + rewrite <- HPG in Hl |- *. exact (put_bytes_spec v P [] b Ha Hl).
    + unfold c. by rewrite length_map.
    + unfold c. apply List.Forall_map, list.Forall_forall. intros [i s] _. apply byte_is_byte.
    + intros rest. replace 0 with (v mod 2 ^ 0) by (by rewrite Z.mod_1_r).
      rewrite or_bytes_reads; [|lia|lia|].
      * rewrite Z.add_0_l, HG, Z.mod_small by done. done.
      * apply table_reads; [lia|]. intros k i s Hk. destruct (HGP k i s Hk) as (-> & Hi & HPi). split; [lia|].
        rewrite zlookup_nonneg by lia. apply lookup_app_l_Some. unfold c. rewrite list_lookup_fmap, HPi. done.
  - intros b Hb Hl. destruct (or_bytes_spec w b G 0 0 Hb) as (v & Hv & Hvb & _ & Hr); [lia|lia|done| |].
    { intros k i s Hk. destruct (HGP k i s Hk) as (-> & _). specialize (HGi _ _ _ Hk). unfold zlen in *. lia. }
    exists v. rewrite Z.add_0_l, HG in Hvb. split_and!; [done|lia|lia|].
    apply put_bytes_same, list.Forall_forall. intros [i s] Hin. destruct (HPinG i s Hin) as [k Hk]. by eapply reads_table.
  - intros b v Hl. destruct (lookup_lt_is_Some_2 P (length b) ltac:(lia)) as [[i s] HP'].
    pose proof (ascending_lookup P 0 _ _ _ Ha HP') as Hi.
    destruct (HPinG i s ltac:(by eapply list_elem_of_lookup_2)) as [k Hk].
    assert (zlen b <= i) by (unfold zlen; lia).
    split; [by eapply or_bytes_short|by eapply put_bytes_short].
Qed.

End Law.

#[export] Instance littleEndian_laws : ByteOrderLaws littleEndian.
Proof. constructor; apply tables_law; vm_compute; reflexivity. Qed.

#[export] Instance bigEndian_laws : ByteOrderLaws bigEndian.
Proof. constructor; apply tables_law; vm_compute; reflexivity. Qed.

(** * Properties *)

(** Both byte orders keep the contract of [ByteOrder] at all three widths:
    writing a number and reading it back gives the number and touches only its
    bytes, reading bytes and writing the result back changes nothing, and a
    slice that is too short panics. *)
Theorem byte_orders_correct O : O = littleEndian \/ O = bigEndian ->
  codec_law 16 (@Uint16 O) (@PutUint16 O) /\ codec_law 32 (@Uint32 O) (@PutUint32 O) /\
  codec_law 64 (@Uint64 O) (@PutUint64 O).
Proof.
  intros [-> | ->]; split_and!;
    first [apply littleEndian_laws|apply bigEndian_laws].
Qed.

Lemma byte_orders_correct_witness :
  codec_law 32 (@Uint32 bigEndian) (@PutUint32 bigEndian) /\
  @PutUint32 bigEndian [0; 0; 0; 0; 9] 0x01020304 = Done [1; 2; 3; 4; 9].
Proof.
  split; [apply (byte_orders_correct bigEndian); by right|reflexivity].
Defined.
