(* ===== verification/BigArith.v ===== *)
(** Package big, file arith.go (src/go/src/pkg/big/arith.go): elementary
    operations on words and vectors of words.

    [Word] is [uintptr], 64 bits on the amd64 port.  Words are integers in
    [0, _B) and every operation that can exceed the range is wrapped.  A vector
    operation takes the length of its destination and returns the new contents
    of the destination with the carry; reading past the end of a source panics.

    [Arith] is the interface of arith_decl.go, which nat.go calls and which
    each port implements (in assembly, or by jumping to the [_g] functions);
    [ArithLaws] says what nat.go relies on.  The [_g] functions are proved to
    satisfy it. *)

From S2P Require Import Prelude.

(** * Words *)

Definition _m : Z := 2 ^ 64 - 1.
Definition _logS : Z :=
  Z.land (Z.shiftr _m 8) 1 + Z.land (Z.shiftr _m 16) 1 + Z.land (Z.shiftr _m 32) 1.
Definition _S : Z := Z.shiftl 1 _logS.
Definition _W : Z := Z.shiftl _S 3.
Definition _B : Z := Z.shiftl 1 _W.
Definition _M : Z := _B - 1.
Definition _W2 : Z := Z.quot _W 2.
Definition _B2 : Z := Z.shiftl 1 _W2.
Definition _M2 : Z := _B2 - 1.

(** The conversion to [Word]. *)
Definition Word (x : Z) : Z := x mod _B.

Definition addWW_g (x y c : Z) : Z * Z :=
  let yc := Word (y + c) in
  let z0 := Word (x + yc) in
  (if (z0 <? x) || (yc <? y) then 1 else 0, z0).

Definition subWW_g (x y c : Z) : Z * Z :=
  let yc := Word (y + c) in
  let z0 := Word (x - yc) in
  (if (x <? z0) || (yc <? y) then 1 else 0, z0).

Definition mulWW_g (x y : Z) : Z * Z :=
  let x0 := Z.land x _M2 in
  let x1 := Z.shiftr x _W2 in
  let y0 := Z.land y _M2 in
  let y1 := Z.shiftr y _W2 in
  let w0 := Word (x0 * y0) in
  let t := Word (Word (x1 * y0) + Z.shiftr w0 _W2) in
  let w1 := Z.land t _M2 in
  let w2 := Z.shiftr t _W2 in
  let w1 := Word (w1 + Word (x0 * y1)) in
  let z1 := Word (Word (Word (x1 * y1) + w2) + Z.shiftr w1 _W2) in
  let z0 := Word (x * y) in
  (z1, z0).

(** [for ; x >= 0x100; x >>= 8 { n += 8 }; for ; x > 0; x >>= 1 { n++ }]. *)
Definition bitLen (x : Z) : outcome Z :=
  '(x, n) ← loop (S (Z.to_nat _S)) (fun '(x, n) =>
    if 256 <=? x then Done (inl (Z.shiftr x 8, n + 8)) else Done (inr (x, n))) (x, 0);
  loop 9 (fun '(x, n) =>
    if 0 <? x then Done (inl (Z.shiftr x 1, n + 1)) else Done (inr n)) (x, n).

Definition log2 (x : Z) : outcome Z :=
  n ← bitLen x; Done (n - 1).

Definition leadingZeros (x : Z) : outcome Z :=
  n ← bitLen x; Done (_W - n).

(** The correction loop [again1] (and [again2]) of [divWW_g]: decrease the
    estimate [q] while it is too large for the divisor's low half [vn0]. *)
Definition divWW_again (vn1 vn0 un : Z) : Z * Z -> outcome (Z * Z + Z * Z) :=
  fun '(q, rhat) =>
    if (_B2 <=? q) || (Word (_B2 * rhat + un) <? Word (q * vn0)) then
      let q := Word (q - 1) in
      let rhat := Word (rhat + vn1) in
      if rhat <? _B2 then Done (inl (q, rhat)) else Done (inr (q, rhat))
    else Done (inr (q, rhat)).

Definition divWW_g (u1 u0 v : Z) : outcome (Z * Z) :=
  if v <=? u1 then Done (_M, _M) else
  s ← leadingZeros v;
  let v := Word (Z.shiftl v s) in
  let vn1 := Z.shiftr v _W2 in
  let vn0 := Z.land v _M2 in
  let un32 := Z.lor (Word (Z.shiftl u1 s)) (Z.shiftr u0 (_W - s)) in
  let un10 := Word (Z.shiftl u0 s) in
  let un1 := Z.shiftr un10 _W2 in
  let un0 := Z.land un10 _M2 in
  let q1 := Z.quot un32 vn1 in
  let rhat := Word (un32 - Word (q1 * vn1)) in
  '(q1, rhat) ← loop 4 (divWW_again vn1 vn0 un1) (q1, rhat);
  let un21 := Word (Word (un32 * _B2) + un1 - Word (q1 * v)) in
  let q0 := Z.quot un21 vn1 in
  let rhat := Word (un21 - Word (q0 * vn1)) in
  '(q0, rhat) ← loop 4 (divWW_again vn1 vn0 un0) (q0, rhat);
  Done (Word (Word (q1 * _B2) + q0),
        Z.shiftr (Word (Word (un21 * _B2) + un0 - Word (q0 * v))) s).

(** * The interface of arith_decl.go *)

Class Arith := {
  mulWW : Z -> Z -> Z * Z;
  divWW : Z -> Z -> Z -> outcome (Z * Z);
  addVV : nat -> list Z -> list Z -> outcome (Z * list Z);
  subVV : nat -> list Z -> list Z -> outcome (Z * list Z);
  addVW : nat -> list Z -> Z -> outcome (Z * list Z);
  subVW : nat -> list Z -> Z -> outcome (Z * list Z);
  shlVU : nat -> list Z -> Z -> outcome (Z * list Z);
  shrVU : nat -> list Z -> Z -> outcome (Z * list Z);
  mulAddVWW : nat -> list Z -> Z -> Z -> outcome (Z * list Z);
  addMulVVW : list Z -> list Z -> Z -> outcome (Z * list Z);
  divWVW : nat -> Z -> list Z -> Z -> outcome (list Z * Z)
}.

(** * The Go implementations of the vector operations *)

(** [z1<<_W + z0 = x*y + c]; the first step is a call of [mulWW]. *)
Definition mulAddWWW_g (mulWW : Z -> Z -> Z * Z) (x y c : Z) : Z * Z :=
  let '(z1, zz0) := mulWW x y in
  let z0 := Word (zz0 + c) in
  (if z0 <? zz0 then Word (z1 + 1) else z1, z0).

(** [for i := range z { c, z[i] = op(x[i], y[i], c) }]. *)
Fixpoint rangeVV (op : Z -> Z -> Z -> Z * Z) (n : nat) (x y : list Z) (c : Z)
    : outcome (Z * list Z) :=
  match n with
  | O => Done (c, [])
  | S n =>
      match x, y with
      | xi :: x, yi :: y =>
          let '(c, zi) := op xi yi c in
          '(c, z) ← rangeVV op n x y c;
          Done (c, zi :: z)
      | _, _ => Panic
      end
  end.

(** [for i := range z { c, z[i] = op(x[i], c) }]. *)
Fixpoint rangeV (op : Z -> Z -> Z * Z) (n : nat) (x : list Z) (c : Z)
    : outcome (Z * list Z) :=
  match n with
  | O => Done (c, [])
  | S n =>
      match x with
      | xi :: x =>
          let '(c, zi) := op xi c in
          '(c, z) ← rangeV op n x c;
          Done (c, zi :: z)
      | [] => Panic
      end
  end.

Definition addVV_g (n : nat) (x y : list Z) : outcome (Z * list Z) := rangeVV addWW_g n x y 0.
Definition subVV_g (n : nat) (x y : list Z) : outcome (Z * list Z) := rangeVV subWW_g n x y 0.
Definition addVW_g (n : nat) (x : list Z) (y : Z) : outcome (Z * list Z) :=
  rangeV (fun xi c => addWW_g xi c 0) n x y.
Definition subVW_g (n : nat) (x : list Z) (y : Z) : outcome (Z * list Z) :=
  rangeV (fun xi c => subWW_g xi c 0) n x y.
Definition mulAddVWW_g (mulWW : Z -> Z -> Z * Z) (n : nat) (x : list Z) (y r : Z)
    : outcome (Z * list Z) :=
  rangeV (fun xi c => mulAddWWW_g mulWW xi y c) n x r.
(** The destination is also a source here: [z] comes first. *)
Definition addMulVVW_g (mulWW : Z -> Z -> Z * Z) (z x : list Z) (y : Z) : outcome (Z * list Z) :=
  rangeVV (fun xi zi c =>
    let '(z1, z0) := mulAddWWW_g mulWW xi y zi in
    let '(c, zi) := addWW_g z0 c 0 in
    (Word (c + z1), zi)) (length z) x z 0.

(** [x << s] and [x >> s] on words, for a shift count that may reach [_W]. *)
Definition shl (x s : Z) : Z := Word (Z.shiftl x s).
Definition shr (x s : Z) : Z := Z.shiftr x s.

(** From the top word down: [w1] is the word just read, and the words written
    so far are [z]. *)
Definition shlVU_g (n : nat) (x : list Z) (s : Z) : outcome (Z * list Z) :=
  if (n =? 0)%nat then Done (0, []) else
  w1 ← idx x (Z.of_nat n - 1);
  let c := shr w1 (_W - s) in
  '(z, w1) ← loop n (fun '(z, i, w1) =>
    if 0 <? i then
      let w := w1 in
      w1 ← idx x (i - 1);
      Done (inl (Z.lor (shl w s) (shr w1 (_W - s)) :: z, i - 1, w1))
    else Done (inr (z, w1))) ([], Z.of_nat n - 1, w1);
  Done (c, shl w1 s :: z).

Definition shrVU_g (n : nat) (x : list Z) (s : Z) : outcome (Z * list Z) :=
  if (n =? 0)%nat then Done (0, []) else
  w1 ← idx x 0;
  let c := shl w1 (_W - s) in
  '(z, w1) ← loop n (fun '(z, i, w1) =>
    if i <? Z.of_nat n - 1 then
      let w := w1 in
      w1 ← idx x (i + 1);
      Done (inl (z ++ [Z.lor (shr w s) (shl w1 (_W - s))], i + 1, w1))
    else Done (inr (z, w1))) ([], 0, w1);
  Done (c, z ++ [shr w1 s]).

(** From the top word down, as the loop runs. *)
Definition divWVW_g (n : nat) (xn : Z) (x : list Z) (y : Z) : outcome (list Z * Z) :=
  loop (S n) (fun '(z, i, r) =>
    if 0 <=? i then
      xi ← idx x i;
      '(zi, r) ← divWW_g r xi y;
      Done (inl (zi :: z, i - 1, r))
    else Done (inr (z, r))) ([], Z.of_nat n - 1, xn).

#[export] Instance arith_g : Arith := {
  mulWW := mulWW_g;
  divWW := divWW_g;
  addVV := addVV_g;
  subVV := subVV_g;
  addVW := addVW_g;
  subVW := subVW_g;
  shlVU := shlVU_g;
  shrVU := shrVU_g;
  mulAddVWW := mulAddVWW_g mulWW_g;
  addMulVVW := addMulVVW_g mulWW_g;
  divWVW := divWVW_g
}.

(** * Facts on words *)

Definition word (x : Z) : Prop := 0 <= x < _B.

Lemma _W_eq : _W = 64.
Proof. reflexivity. Qed.
Lemma _W2_eq : _W2 = 32.
Proof. reflexivity. Qed.
Lemma _B_eq : _B = 2 ^ 64.
Proof. reflexivity. Qed.
Lemma _B2_eq : _B2 = 2 ^ 32.
Proof. reflexivity. Qed.
Lemma _B2_square : _B2 * _B2 = _B.
Proof. reflexivity. Qed.
Lemma _M2_ones : _M2 = Z.ones _W2.
Proof. reflexivity. Qed.
Lemma _B_pos : 0 < _B.
Proof. reflexivity. Qed.

#[global] Opaque _B _B2 _M2 _W _W2.

Lemma Word_small x : word x -> Word x = x.
Proof. apply Z.mod_small. Qed.

Lemma Word_word x : word (Word x).
Proof. apply Z.mod_pos_bound, _B_pos. Qed.

(** The wrap-around of a value in [0, 2*_B) and in [-_B, _B). *)
Lemma Word_carry x : 0 <= x < 2 * _B -> Word x = if x <? _B then x else x - _B.
Proof.
  intros Hx. unfold Word. case_bool; [apply Z.mod_small; lia|].
  rewrite <- (Z.mod_add x (-1) _B), Z.mod_small by lia. lia.
Qed.

Lemma Word_borrow x : - _B <= x < _B -> Word x = if x <? 0 then x + _B else x.
Proof.
  intros Hx. unfold Word. case_bool; [|apply Z.mod_small; lia].
  rewrite <- (Z.mod_add x 1 _B), Z.mod_small by lia. lia.
Qed.

Lemma shiftr_W2 x : Z.shiftr x _W2 = x / _B2.
Proof. rewrite Z.shiftr_div_pow2 by (rewrite _W2_eq; lia). by rewrite _B2_eq, _W2_eq. Qed.

Lemma land_M2 x : Z.land x _M2 = x mod _B2.
Proof. rewrite _M2_ones, Z.land_ones by (rewrite _W2_eq; lia). by rewrite _B2_eq, _W2_eq. Qed.

(** A word is its two halves. *)
Lemma halves x : word x ->
  exists h l, x / _B2 = h /\ x mod _B2 = l /\ x = h * _B2 + l /\ 0 <= h < _B2 /\ 0 <= l < _B2.
Proof.
  intros Hx. unfold word in Hx. pose proof _B2_square. pose proof _B2_eq.
  exists (x / _B2), (x mod _B2). split_and!; try done.
  - rewrite Z.mul_comm. apply Z.div_mod. lia.
  - apply Z.div_pos; lia.
  - apply Z.div_lt_upper_bound; lia.
  - apply Z.mod_pos_bound. lia.
  - apply Z.mod_pos_bound. lia.
Qed.

Lemma addWW_g_spec x y c :
  word x -> word y -> 0 <= c <= 1 ->
  let '(z1, z0) := addWW_g x y c in
  word z0 /\ 0 <= z1 <= 1 /\ z1 * _B + z0 = x + y + c.
Proof.
  unfold word, addWW_g. intros Hx Hy Hc. rewrite (Word_carry (y + c)) by lia.
  pose proof _B_eq.
  destruct (Z.ltb_spec (y + c) _B); rewrite Word_carry by lia; case_bool; case_bool; lia.
Qed.

(** A carry-in of a whole word, as in [addVW_g]. *)
Lemma addWW_g_word x y :
  word x -> word y ->
  let '(z1, z0) := addWW_g x y 0 in
  word z0 /\ 0 <= z1 <= 1 /\ z1 * _B + z0 = x + y.
Proof.
  intros Hx Hy. pose proof (addWW_g_spec x y 0 Hx Hy ltac:(lia)) as H.
  destruct (addWW_g x y 0). split_and!; try apply H; lia.
Qed.

Lemma subWW_g_spec x y c :
  word x -> word y -> 0 <= c <= 1 ->
  let '(z1, z0) := subWW_g x y c in
  word z0 /\ 0 <= z1 <= 1 /\ z0 - z1 * _B = x - y - c.
Proof.
  unfold word, subWW_g. intros Hx Hy Hc. rewrite (Word_carry (y + c)) by lia.
  pose proof _B_eq.
  destruct (Z.ltb_spec (y + c) _B); rewrite Word_borrow by lia; case_bool; case_bool; lia.
Qed.

Lemma mul_bound a b m n : 0 <= a <= m -> 0 <= b <= n -> 0 <= a * b <= m * n.
Proof. intros. split; [apply Z.mul_nonneg_nonneg; lia|apply Z.mul_le_mono_nonneg; lia]. Qed.

Lemma mulWW_g_spec x y :
  word x -> word y ->
  let '(z1, z0) := mulWW_g x y in
  word z0 /\ word z1 /\ z1 * _B + z0 = x * y.
Proof.
  intros Hx Hy. unfold mulWW_g. rewrite !shiftr_W2, !land_M2.
  destruct (halves x Hx) as (x1 & x0 & -> & -> & -> & Hx1 & Hx0).
  destruct (halves y Hy) as (y1 & y0 & -> & -> & -> & Hy1 & Hy0).
  pose proof _B2_square as HB. pose proof _B2_eq as HB2.
  assert (Hb : forall a b, 0 <= a < _B2 -> 0 <= b < _B2 -> 0 <= a * b <= _B - 2 * _B2 + 1).
  { intros a b Ha Hb. pose proof (mul_bound a b (_B2 - 1) (_B2 - 1)). lia. }
  pose proof (Hb x0 y0 Hx0 Hy0). pose proof (Hb x1 y0 Hx1 Hy0).
  pose proof (Hb x0 y1 Hx0 Hy1). pose proof (Hb x1 y1 Hx1 Hy1).
  rewrite (Word_small (x0 * y0)), (Word_small (x1 * y0)), (Word_small (x0 * y1)),
    (Word_small (x1 * y1)) by (unfold word; lia).
  destruct (halves (x0 * y0)) as (h0 & l0 & -> & _ & E0 & ? & ?); [unfold word; lia|].
  rewrite (Word_small (x1 * y0 + h0)) by (unfold word; lia).
  destruct (halves (x1 * y0 + h0)) as (w2 & w1 & -> & -> & E1 & ? & ?); [unfold word; lia|].
  rewrite (Word_small (w1 + x0 * y1)) by (unfold word; lia).
  destruct (halves (w1 + x0 * y1)) as (h1 & l1 & -> & _ & E2 & ? & ?); [unfold word; lia|].
  rewrite (Word_small (x1 * y1 + w2)) by (unfold word; lia).
  assert (E3 : (x1 * _B2 + x0) * (y1 * _B2 + y0) = (x1 * y1 + w2 + h1) * _B + (l1 * _B2 + l0)).
  { rewrite <- HB. nia. }
  assert (0 <= l1 * _B2 + l0 < _B) by nia.
  split_and!; try apply Word_word.
  rewrite E3. assert (word (x1 * y1 + w2 + h1)).
  { unfold word. split; [lia|].
    assert ((x1 * _B2 + x0) * (y1 * _B2 + y0) < _B * _B) by (unfold word in *; nia). nia. }
  rewrite (Word_small (x1 * y1 + w2 + h1)) by done. f_equal.
  unfold Word. rewrite Z.add_comm, Z.mod_add, Z.mod_small; lia.
Qed.

(** * Bit lengths *)

(** [n] is the length of [x] in bits. *)
Definition is_bitlen (x n : Z) : Prop :=
  0 <= n /\ x < 2 ^ n /\ (x = 0 -> n = 0) /\ (0 < x -> 2 ^ (n - 1) <= x).

Lemma is_bitlen_log2 x n : 0 < x -> is_bitlen x n -> n = Z.log2 x + 1 /\ 0 < n.
Proof.
  intros Hx (Hn & Hlt & _ & Hle). specialize (Hle Hx).
  destruct (decide (n = 0)) as [->|]; [change (2 ^ 0) with 1 in Hlt; lia|].
  split; [|lia]. assert (Z.log2 x = n - 1); [|lia].
  apply Z.log2_unique; [lia|]. by replace (Z.succ (n - 1)) with n by lia.
Qed.

Lemma bitLen_step x0 n k : 0 <= x0 -> 0 <= n -> 0 < k ->
  2 ^ (k - 1) <= x0 / 2 ^ n -> 2 ^ (n + k - 1) <= x0.
Proof.
  intros Hx Hn Hk Hle. assert (0 < 2 ^ n) by (apply Z.pow_pos_nonneg; lia).
  replace (n + k - 1) with (k - 1 + n) by lia. rewrite Z.pow_add_r by lia.
  pose proof (Z.mul_div_le x0 (2 ^ n)). nia.
Qed.

Lemma bitLen_spec x : word x -> returns (bitLen x) (is_bitlen x).
Proof.
  unfold word. rewrite _B_eq. intros Hx. unfold bitLen. change _S with 8.
  assert (Hdiv : forall n k, 0 <= n -> 0 <= k -> x / 2 ^ n / 2 ^ k = x / 2 ^ (n + k)).
  { intros n k ??. pose proof (Z.pow_pos_nonneg 2 n). pose proof (Z.pow_pos_nonneg 2 k).
    by rewrite Z.pow_add_r, Z.div_div by lia. }
  eapply returns_bind with (P := fun '(y, n) => 0 <= n <= 56 /\ y = x / 2 ^ n /\ y < 256 /\
    (n = 0 \/ 2 ^ (n - 1) <= x)).
  - apply (loop_returns (fun '(y, n) => 0 <= n <= 56 /\ n mod 8 = 0 /\ y = x / 2 ^ n /\
      (n = 0 \/ 2 ^ (n - 1) <= x)) (fun '(_, n) => Z.to_nat ((56 - n) / 8))); [| |zlia].
    2: { split_and!; try done. - by rewrite Z.div_1_r. - by left. }
    intros [y n] (Hn & Hmod & -> & Hle). case_bool.
    + go_ret. rewrite Z.shiftr_div_pow2, Hdiv by lia.
      assert (n <> 56).
      { intros ->. pose proof (Z.div_lt_upper_bound x (2 ^ 56) 256). lia. }
      split_and!; [lia|zlia|zlia|done| |zlia].
      right. apply bitLen_step; [lia..|]. change (2 ^ (8 - 1)) with 128. lia.
    + go_ret. done.
  - intros [y n0] (Hn0 & -> & Hy & Hle0).
    apply (loop_returns (fun '(y, n) => n0 <= n <= n0 + 8 /\ y = x / 2 ^ n /\
      (n = 0 \/ 2 ^ (n - 1) <= x) /\ y < 2 ^ (n0 + 8 - n))
      (fun '(_, n) => Z.to_nat (n0 + 8 - n))); [| |lia].
    2: { split_and!; try (done || lia). by replace (n0 + 8 - n0) with 8 by lia. }
    clear Hle0. intros [y n] (Hn & -> & Hle & Hlt). case_bool.
    + go_ret. rewrite Z.shiftr_div_pow2, Hdiv by lia.
      assert (n <> n0 + 8). { intros ->. rewrite Z.sub_diag in Hlt. change (2 ^ 0) with 1 in Hlt. lia. }
      split_and!; [lia|lia|done| |  |lia].
      * right. apply bitLen_step; [lia..|]. change (2 ^ (1 - 1)) with 1. lia.
      * rewrite <- Hdiv by lia. apply Z.div_lt_upper_bound; [lia|].
        change (2 ^ 1) with 2. rewrite <- Z.pow_succ_r by lia.
        by replace (Z.succ (n0 + 8 - (n + 1))) with (n0 + 8 - n) by lia.
    + go_ret. assert (0 < 2 ^ n) by (apply Z.pow_pos_nonneg; lia).
      pose proof (Z.div_mod x (2 ^ n)). pose proof (Z.mod_pos_bound x (2 ^ n)).
      assert (x < 2 ^ n) by nia.
      split_and!; [lia|lia| |].
      * intros ->. destruct Hle as [|Hle]; [done|].
        pose proof (Z.pow_nonneg 2 (n - 1)). destruct (decide (n = 0)); [done|].
        pose proof (Z.pow_pos_nonneg 2 (n - 1)). lia.
      * intros. destruct Hle as [->|]; [change (2 ^ 0) with 1 in *; lia|done].
Qed.

Lemma leadingZeros_spec v :
  word v -> 0 < v ->
  returns (leadingZeros v) (fun s => 0 <= s < _W /\ _B <= 2 * (v * 2 ^ s) /\ v * 2 ^ s < _B).
Proof.
  intros Hv Hpos. unfold leadingZeros. go_call (bitLen_spec v); [done|].
  intros n Hn. destruct (is_bitlen_log2 v n Hpos Hn) as [_ Hn0].
  destruct Hn as (_ & Hlt & _ & Hle). specialize (Hle Hpos). go_ret.
  unfold word in Hv. rewrite _B_eq, _W_eq in *.
  assert (n <= 64).
  { destruct (decide (n <= 64)); [done|]. pose proof (Z.pow_le_mono_r 2 64 (n - 1)). lia. }
  assert (Hp : 0 < 2 ^ (64 - n)) by (apply Z.pow_pos_nonneg; lia).
  assert (2 ^ 64 = 2 ^ n * 2 ^ (64 - n)) by (rewrite <- Z.pow_add_r by lia; f_equal; lia).
  assert (2 ^ n = 2 * 2 ^ (n - 1)) by (rewrite <- Z.pow_succ_r by lia; f_equal; lia).
  split_and!; [lia|lia|nia|nia].
Qed.

(** * Division of a double word by a word *)

(** One half of the quotient: from the estimate [U / vn1] the loop reaches
    the exact quotient of [U * _B2 + d] by [vn1 * _B2 + vn0]. *)
Lemma divWW_again_spec vn1 vn0 U d :
  _B2 <= 2 * vn1 -> vn1 < _B2 -> 0 <= vn0 < _B2 -> 0 <= d < _B2 ->
  0 <= U < vn1 * _B2 + vn0 ->
  returns (loop 4 (divWW_again vn1 vn0 d) (Z.quot U vn1, Word (U - Word (Z.quot U vn1 * vn1))))
    (fun '(q, _) => q = (U * _B2 + d) / (vn1 * _B2 + vn0)).
Proof.
  intros Hn1 Hn1' Hn0 Hd HU. pose proof _B2_eq as HB2. pose proof _B2_square as HB.
  set (v := vn1 * _B2 + vn0) in *. set (qt := (U * _B2 + d) / v).
  pose proof (mul_bound vn1 _B2 (_B2 - 1) _B2 ltac:(lia) ltac:(lia)).
  assert (Hv : 0 < v < _B) by (unfold v; lia).
  assert (Hqt : qt * v <= U * _B2 + d < (qt + 1) * v).
  { unfold qt. pose proof (Z.div_mod (U * _B2 + d) v).
    pose proof (Z.mod_pos_bound (U * _B2 + d) v). lia. }
  pose proof (mul_bound U _B2 (v - 1) _B2 ltac:(lia) ltac:(lia)).
  assert (Hqt0 : 0 <= qt < _B2).
  { split; [apply Z.div_pos; lia|]. apply Z.div_lt_upper_bound; lia. }
  rewrite Z.quot_div_nonneg by lia.
  pose proof (Z.div_mod U vn1 ltac:(lia)) as Hdm. pose proof (Z.mod_pos_bound U vn1 ltac:(lia)).
  pose proof (Z.div_pos U vn1 ltac:(lia) ltac:(lia)) as Hdp.
  set (q0 := U / vn1) in *.
  rewrite (Word_small (q0 * vn1)), Word_small by (unfold word; lia).
  assert (Hq0 : qt <= q0 <= _B2 + 1).
  { split.
    - assert (qt * vn1 < (q0 + 1) * vn1); [|apply Z.mul_lt_mono_pos_r in H2; lia].
      assert (qt * v = qt * vn1 * _B2 + qt * vn0) by (unfold v; ring).
      pose proof (Z.mul_nonneg_nonneg qt vn0). 
      assert (qt * vn1 * _B2 < (U + 1) * _B2) as Hlt by lia.
      apply Z.mul_lt_mono_pos_r in Hlt; lia.
    - apply Z.lt_succ_r. apply Z.div_lt_upper_bound; [lia|]. unfold v in HU. lia. }
  apply (loop_returns (fun '(q, rhat) => qt <= q <= _B2 + 1 /\ rhat = U - q * vn1 /\ 0 <= rhat < _B2)
    (fun '(_, rhat) => Z.to_nat (2 - rhat / vn1))); [|split_and!; lia|].
  2: { assert (0 <= (U - q0 * vn1) / vn1) by (apply Z.div_pos; lia). lia. }
  clear Hq0 Hdm Hdp. clearbody q0. clear q0 H1. intros [q rhat] (Hq & Hrhat & Hr). unfold divWW_again.
  pose proof (mul_bound _B2 rhat _B2 (_B2 - 1) ltac:(lia) ltac:(lia)).
  assert (Hqv : q * v = (U - rhat) * _B2 + q * vn0) by (rewrite Hrhat; unfold v; ring).
  pose proof (mul_bound q vn0 (_B2 + 1) (_B2 - 1) ltac:(lia) ltac:(lia)).
  rewrite (Word_small (_B2 * rhat + d)) by (unfold word; lia).
  rewrite (Word_small (q * vn0)) by (unfold word; lia).
  case_bool.
  - assert (qt < q).
    { destruct E as [|E]; [lia|]. apply (Z.mul_lt_mono_pos_r v); lia. }
    rewrite (Word_small (q - 1)) by (unfold word; lia).
    rewrite (Word_small (rhat + vn1)) by (unfold word; lia). case_bool.
    + go_ret. split_and!; [lia..|].
      replace ((rhat + vn1) / vn1) with (rhat / vn1 + 1)
        by (rewrite <- (Z.div_add rhat 1) by lia; f_equal; lia).
      assert (0 <= rhat / vn1 < 2) by (split; [apply Z.div_pos|apply Z.div_lt_upper_bound]; lia). lia.
    + go_ret. assert ((q - 1) * v < (qt + 1) * v) as Hlt.
      { assert ((q - 1) * v = (U - (rhat + vn1)) * _B2 + (q - 1) * vn0) by (rewrite Hrhat; unfold v; ring).
        pose proof (mul_bound (q - 1) vn0 _B2 _B2 ltac:(lia) ltac:(lia)).
        pose proof (mul_bound _B2 _B2 (rhat + vn1) _B2 ltac:(lia) ltac:(lia)). lia. }
      apply Z.mul_lt_mono_pos_r in Hlt; lia.
  - go_ret. assert (q * v < (qt + 1) * v) as Hlt by lia.
    apply Z.mul_lt_mono_pos_r in Hlt; lia.
Qed.

(** Normalisation: shifting the dividend and the divisor by [s]. *)
Lemma shift_double u1 u0 v s :
  word u1 -> word u0 -> 0 <= s < _W -> u1 < v -> v * 2 ^ s < _B ->
  let un32 := Z.lor (Word (Z.shiftl u1 s)) (Z.shiftr u0 (_W - s)) in
  let un10 := Word (Z.shiftl u0 s) in
  un32 * _B + un10 = (u1 * _B + u0) * 2 ^ s /\ 0 <= un32 < v * 2 ^ s.
Proof.
  unfold word. intros Hu1 Hu0 Hs Hlt Hv. cbv zeta.
  assert (Hp : 0 < 2 ^ s) by (apply Z.pow_pos_nonneg; lia).
  pose proof (mul_bound u1 (2 ^ s) (v - 1) (2 ^ s) ltac:(lia) ltac:(lia)).
  rewrite !Z.shiftl_mul_pow2, Z.shiftr_div_pow2 by lia.
  rewrite (Word_small (u1 * _)) by (unfold word; lia).
  set (p := 2 ^ s) in *. set (r := 2 ^ (_W - s)).
  assert (Hr : 0 < r) by (apply Z.pow_pos_nonneg; lia).
  assert (HB : p * r = _B).
  { unfold p, r. rewrite <- Z.pow_add_r, _B_eq, <- _W_eq by lia. f_equal. lia. }
  pose proof (Z.div_mod u0 r ltac:(lia)) as Hdm. pose proof (Z.mod_pos_bound u0 r Hr).
  set (h := u0 / r) in *. set (l := u0 mod r) in *.
  assert (0 <= h < p).
  { split; [apply Z.div_pos; lia|apply Z.div_lt_upper_bound; lia]. }
  assert (Hlor : Z.lor (u1 * p) h = u1 * p + h) by (unfold p; apply lor_add; unfold p in *; lia).
  rewrite Hlor. clearbody h l p.
  assert (Hlow : Word (u0 * p) = l * p).
  { unfold Word. rewrite Hdm. replace ((r * h + l) * p) with (l * p + h * _B) by (rewrite <- HB; ring).
    rewrite Z.mod_add by lia. apply Z.mod_small.
    pose proof (mul_bound l p (r - 1) p ltac:(lia) ltac:(lia)). lia. }
  rewrite Hlow. split; [|lia]. rewrite Hdm, <- HB. ring.
Qed.

Lemma Word_sub_wrapped a b c : Word (Word a + b - Word c) = Word (a + b - c).
Proof.
  unfold Word. rewrite Zminus_mod, Zplus_mod, !Z.mod_mod, <- Zplus_mod, <- Zminus_mod by (pose proof _B_pos; lia).
  done.
Qed.

(** One half step: quotient digit and remainder of [U * _B2 + d] by [v]. *)
Lemma div_digit U d v : 0 <= U < v -> v < _B -> 0 <= d < _B2 ->
  let q := (U * _B2 + d) / v in
  0 <= q < _B2 /\ 0 <= U * _B2 + d - q * v < v /\
  Word (Word (U * _B2) + d - Word (q * v)) = U * _B2 + d - q * v.
Proof.
  intros HU Hv Hd q. pose proof _B2_eq.
  pose proof (mul_bound U _B2 (v - 1) _B2 ltac:(lia) ltac:(lia)).
  pose proof (Z.div_mod (U * _B2 + d) v ltac:(lia)).
  pose proof (Z.mod_pos_bound (U * _B2 + d) v ltac:(lia)).
  fold q in H1. split_and!; [apply Z.div_pos; lia|apply Z.div_lt_upper_bound; lia|lia|lia|].
  rewrite Word_sub_wrapped. apply Word_small. unfold word. lia.
Qed.

Lemma divWW_g_spec u1 u0 v :
  word u1 -> word u0 -> word v -> u1 < v ->
  returns (divWW_g u1 u0 v) (fun '(q, r) =>
    word q /\ 0 <= r < v /\ q * v + r = u1 * _B + u0).
Proof.
  intros Hu1 Hu0 Hv Hlt. unfold divWW_g. bool_decide_goal.
  pose proof _B2_eq as HB2. pose proof _B2_square as HB.
  go_call leadingZeros_spec; [done|unfold word in *; lia|]. intros s (Hs & Hnorm & Hov).
  destruct (shift_double u1 u0 v s Hu1 Hu0 Hs Hlt Hov) as [Hun H32].
  set (un32 := Z.lor _ _) in *. set (un10 := Word (Z.shiftl u0 s)) in *. clearbody un32.
  assert (Hvs : Word (Z.shiftl v s) = v * 2 ^ s).
  { rewrite Z.shiftl_mul_pow2 by lia. apply Word_small. unfold word in *. lia. }
  rewrite Hvs. clear Hvs. set (vs := v * 2 ^ s) in *.
  assert (Hwvs : word vs) by (unfold word; lia).
  assert (Hwu : word un10) by apply Word_word. clearbody un10.
  rewrite !shiftr_W2, !land_M2.
  destruct (halves vs Hwvs) as (vn1 & vn0 & -> & -> & Evs & Hvn1 & Hvn0).
  destruct (halves un10 Hwu) as (un1 & un0 & -> & -> & Eun & Hun1 & Hun0).
  eapply returns_bind; [apply divWW_again_spec; lia|]. cbv beta. rewrite <- Evs.
  intros [q1 r1] ->. destruct (div_digit un32 un1 vs) as (Hq1 & Hr1 & ->); [lia..|].
  set (q1 := (un32 * _B2 + un1) / vs) in *. set (un21 := un32 * _B2 + un1 - q1 * vs) in *.
  eapply returns_bind; [apply divWW_again_spec; lia|]. cbv beta. rewrite <- Evs.
  intros [q0 r0] ->. destruct (div_digit un21 un0 vs) as (Hq0 & Hr0 & ->); [lia..|].
  set (q0 := (un21 * _B2 + un0) / vs) in *. go_ret.
  pose proof (mul_bound q1 _B2 (_B2 - 1) _B2 ltac:(lia) ltac:(lia)).
  rewrite (Word_small (q1 * _B2)), Word_small by (unfold word; lia).
  assert (Hp : 0 < 2 ^ s) by (apply Z.pow_pos_nonneg; lia).
  assert (Hrem : un21 * _B2 + un0 - q0 * vs = (u1 * _B + u0 - (q1 * _B2 + q0) * v) * 2 ^ s).
  { rewrite Z.mul_sub_distr_r, <- Hun, Eun, <- HB. unfold un21, vs. ring. }
  rewrite Hrem in *. rewrite Z.shiftr_div_pow2, Z.div_mul by lia.
  split_and!; [unfold word; lia| | |lia].
  - apply (Z.mul_le_mono_pos_r _ _ (2 ^ s)); lia.
  - apply (Z.mul_lt_mono_pos_r (2 ^ s)); unfold vs in *; lia.
Qed.

(** * Vectors of words as numbers *)

Definition words : list Z -> Prop := Forall word.

(** The value of a vector, least significant word first. *)
Fixpoint val (l : list Z) : Z :=
  match l with
  | [] => 0
  | x :: l => x + _B * val l
  end.

Definition Bpow (n : nat) : Z := _B ^ Z.of_nat n.

Lemma Bpow_0 : Bpow 0 = 1.
Proof. done. Qed.

Lemma Bpow_S n : Bpow (S n) = _B * Bpow n.
Proof. unfold Bpow. rewrite Nat2Z.inj_succ, Z.pow_succ_r; lia. Qed.

Lemma Bpow_add n m : Bpow (n + m) = Bpow n * Bpow m.
Proof. unfold Bpow. rewrite Nat2Z.inj_add, Z.pow_add_r; lia. Qed.

Lemma Bpow_pos n : 0 < Bpow n.
Proof. apply Z.pow_pos_nonneg; [apply _B_pos|lia]. Qed.

Lemma val_nil : val [] = 0.
Proof. done. Qed.

Lemma val_cons x l : val (x :: l) = x + _B * val l.
Proof. done. Qed.

Lemma val_app l1 l2 : val (l1 ++ l2) = val l1 + Bpow (length l1) * val l2.
Proof.
  induction l1 as [|x l1 IH]; cbn [app length val]; [rewrite Bpow_0|rewrite Bpow_S, IH]; ring.
Qed.

Lemma val_take_drop n l : (n <= length l)%nat -> val l = val (take n l) + Bpow n * val (drop n l).
Proof. intros Hn. rewrite <- (take_drop n l) at 1. by rewrite val_app, length_take_le. Qed.

Lemma val_replicate0 n : val (replicate n 0) = 0.
Proof. induction n as [|n IH]; cbn [replicate val]; [done|rewrite IH; ring]. Qed.

Lemma words_nil : words [].
Proof. constructor. Qed.

Lemma words_cons x l : words (x :: l) <-> word x /\ words l.
Proof. apply Forall_cons_iff. Qed.

Lemma words_app l1 l2 : words (l1 ++ l2) <-> words l1 /\ words l2.
Proof. apply Forall_app. Qed.

Lemma words_take n l : words l -> words (take n l).
Proof. apply Forall_take. Qed.

Lemma words_drop n l : words l -> words (drop n l).
Proof. apply Forall_drop. Qed.

Lemma words_lookup l i x : words l -> l !! i = Some x -> word x.
Proof. intros Hl Hx. by eapply Forall_lookup_1. Qed.

Lemma words_zlookup l i x : words l -> l.[i] = Some x -> word x.
Proof. intros Hl Hx%zlookup_elem. unfold words in Hl; rewrite list.Forall_forall in Hl; auto. Qed.

Lemma word_0 : word 0.
Proof. pose proof _B_pos. unfold word. lia. Qed.

Lemma words_replicate0 n : words (replicate n 0).
Proof. apply Forall_replicate, word_0. Qed.

Create HintDb words discriminated.
#[export] Hint Resolve words_nil words_take words_drop words_replicate0 word_0 Word_word : words.
#[export] Hint Extern 2 (words (_ :: _)) => apply words_cons; split : words.
#[export] Hint Extern 2 (words (_ ++ _)) => apply words_app; split : words.

Lemma val_bound l : words l -> 0 <= val l < Bpow (length l).
Proof.
  induction 1 as [|x l Hx Hl IH]; cbn [val length]; [rewrite Bpow_0; lia|].
  rewrite Bpow_S. unfold word in Hx.
  pose proof (mul_bound _B (val l) _B (Bpow (length l) - 1) ltac:(lia) ltac:(lia)). lia.
Qed.

Lemma val_nonneg l : words l -> 0 <= val l.
Proof. intros Hl%val_bound. lia. Qed.

(** * The vector operations that run from the bottom up *)

Lemma mulAddWWW_g_spec x y c : word x -> word y -> word c ->
  let '(z1, z0) := mulAddWWW_g mulWW_g x y c in
  word z1 /\ word z0 /\ z1 * _B + z0 = x * y + c.
Proof.
  intros Hx Hy Hc. unfold mulAddWWW_g. pose proof (mulWW_g_spec x y Hx Hy) as Hm.
  destruct (mulWW_g x y) as [z1 zz0]. destruct Hm as (Hz1 & Hz0 & Hm).
  unfold word in *. pose proof (mul_bound x y (_B - 1) (_B - 1) ltac:(lia) ltac:(lia)) as Hb.
  assert (z1 <= _B - 2).
  { pose proof _B_eq; apply Z.lt_succ_r, (Z.mul_lt_mono_pos_r _B); lia. }
  rewrite (Word_carry (zz0 + c)) by lia. repeat case_bool; rewrite ?Word_small by (unfold word; lia); lia.
Qed.

Lemma rangeVV_spec op (C : Z -> Prop) (a b e : Z) :
  (forall x y c, word x -> word y -> C c ->
     let '(c', z) := op x y c in word z /\ C c' /\ z + e * c' * _B = a * x + b * y + e * c) ->
  forall n x y c, (n <= length x)%nat -> (n <= length y)%nat -> words x -> words y -> C c ->
  returns (rangeVV op n x y c) (fun '(c', z) =>
    length z = n /\ words z /\ C c' /\
    val z + e * c' * Bpow n = a * val (take n x) + b * val (take n y) + e * c).
Proof.
  intros Hop. induction n as [|n IH]; intros x y c Hlx Hly Hx Hy Hc; cbn [rangeVV take].
  - go_ret. rewrite Bpow_0. split_and!; auto with words. rewrite !take_0, val_nil; ring.
  - destruct x as [|xi x]; [simpl in Hlx; lia|]. destruct y as [|yi y]; [simpl in Hly; lia|].
    apply words_cons in Hx as [Hxi Hx], Hy as [Hyi Hy].
    specialize (Hop xi yi c Hxi Hyi Hc). destruct (op xi yi c) as [c1 zi].
    destruct Hop as (Hzi & Hc1 & Heq).
    go_call (IH x y c1); [simpl in *; lia..|done|done|done|].
    intros [c2 z] (Hlz & Hz & Hc2 & Hval). go_ret.
    split_and!; [simpl; lia|auto with words|done|].
    rewrite firstn_cons, !val_cons, Bpow_S.
    replace (zi + _B * val z + e * c2 * (_B * Bpow n))
      with (zi + _B * (val z + e * c2 * Bpow n)) by ring.
    rewrite Hval, firstn_cons, val_cons. lia.
Qed.

Lemma rangeV_VV op n x c :
  rangeV op n x c = rangeVV (fun xi _ => op xi) n x x c.
Proof.
  revert x c. induction n as [|n IH]; intros [|xi x] c; cbn; try done.
  destruct (op xi c). by rewrite IH.
Qed.

Lemma rangeV_spec op (C : Z -> Prop) (a e : Z) :
  (forall x c, word x -> C c ->
     let '(c', z) := op x c in word z /\ C c' /\ z + e * c' * _B = a * x + e * c) ->
  forall n x c, (n <= length x)%nat -> words x -> C c ->
  returns (rangeV op n x c) (fun '(c', z) =>
    length z = n /\ words z /\ C c' /\ val z + e * c' * Bpow n = a * val (take n x) + e * c).
Proof.
  intros Hop n x c Hl Hx Hc. rewrite rangeV_VV.
  go_mono (rangeVV_spec _ C a 0 e); [|done..|].
  - intros xi yi ci Hxi _ Hci. specialize (Hop xi ci Hxi Hci). destruct (op xi ci).
    destruct Hop as (? & ? & ?). split_and!; auto; lia.
  - intros [c' z] (? & ? & ? & ?). split_and!; auto; lia.
Qed.

Lemma addVV_g_spec n x y : (n <= length x)%nat -> (n <= length y)%nat -> words x -> words y ->
  returns (addVV_g n x y) (fun '(c, z) =>
    length z = n /\ words z /\ 0 <= c <= 1 /\
    val z + c * Bpow n = val (take n x) + val (take n y)).
Proof.
  intros. go_mono (rangeVV_spec _ (fun c => 0 <= c <= 1) 1 1 1); [|(done || lia)..|].
  - intros xi yi c Hxi Hyi Hc. pose proof (addWW_g_spec xi yi c Hxi Hyi Hc) as Hs.
    destruct (addWW_g xi yi c), Hs as (? & ? & ?). split_and!; auto; lia.
  - intros [c z] (? & ? & ? & ?). split_and!; auto; lia.
Qed.

Lemma subVV_g_spec n x y : (n <= length x)%nat -> (n <= length y)%nat -> words x -> words y ->
  returns (subVV_g n x y) (fun '(c, z) =>
    length z = n /\ words z /\ 0 <= c <= 1 /\
    val z - c * Bpow n = val (take n x) - val (take n y)).
Proof.
  intros. go_mono (rangeVV_spec _ (fun c => 0 <= c <= 1) 1 (-1) (-1)); [|(done || lia)..|].
  - intros xi yi c Hxi Hyi Hc. pose proof (subWW_g_spec xi yi c Hxi Hyi Hc) as Hs.
    destruct (subWW_g xi yi c), Hs as (? & ? & ?). split_and!; auto; lia.
  - intros [c z] (? & ? & ? & ?). split_and!; auto; lia.
Qed.

Lemma addVW_g_spec n x y : (n <= length x)%nat -> words x -> word y ->
  returns (addVW_g n x y) (fun '(c, z) =>
    length z = n /\ words z /\ word c /\ val z + c * Bpow n = val (take n x) + y).
Proof.
  intros. go_mono (rangeV_spec _ word 1 1); [|done..|].
  - intros xi c Hxi Hc. pose proof (addWW_g_word xi c Hxi Hc) as Hs. pose proof _B_eq.
    destruct (addWW_g xi c 0), Hs as (? & ? & ?). split_and!; auto; unfold word in *; lia.
  - intros [c z] (? & ? & ? & ?). split_and!; auto; lia.
Qed.

Lemma subVW_g_spec n x y : (n <= length x)%nat -> words x -> word y ->
  returns (subVW_g n x y) (fun '(c, z) =>
    length z = n /\ words z /\ word c /\ val z - c * Bpow n = val (take n x) - y).
Proof.
  intros. go_mono (rangeV_spec _ word 1 (-1)); [|done..|].
  - intros xi c Hxi Hc. pose proof (subWW_g_spec xi c 0 Hxi Hc ltac:(lia)) as Hs. pose proof _B_eq.
    destruct (subWW_g xi c 0), Hs as (? & ? & ?). split_and!; auto; unfold word in *; lia.
  - intros [c z] (? & ? & ? & ?). split_and!; auto; lia.
Qed.

Lemma mulAddVWW_g_spec n x y r : (n <= length x)%nat -> words x -> word y -> word r ->
  returns (mulAddVWW_g mulWW_g n x y r) (fun '(c, z) =>
    length z = n /\ words z /\ word c /\ val z + c * Bpow n = val (take n x) * y + r).
Proof.
  intros. go_mono (rangeV_spec _ word y 1); [|done..|].
  - intros xi c Hxi Hc. pose proof (mulAddWWW_g_spec xi y c Hxi ltac:(done) Hc) as Hs.
    destruct (mulAddWWW_g mulWW_g xi y c), Hs as (? & ? & ?). split_and!; auto; lia.
  - intros [c z] (? & ? & ? & ?). split_and!; auto; lia.
Qed.

Lemma addMulVVW_g_step x y z c : word x -> word y -> word z -> word c ->
  let '(z1, z0) := mulAddWWW_g mulWW_g x y z in
  let '(c', zi) := addWW_g z0 c 0 in
  word zi /\ word (Word (c' + z1)) /\ zi + Word (c' + z1) * _B = x * y + z + c.
Proof.
  intros Hx Hy Hz Hc. pose proof (mulAddWWW_g_spec x y z Hx Hy Hz) as Hm.
  destruct (mulAddWWW_g mulWW_g x y z) as [z1 z0]. destruct Hm as (Hz1 & Hz0 & Hm).
  pose proof (addWW_g_word z0 c Hz0 Hc) as Ha.
  destruct (addWW_g z0 c 0) as [c' zi]. destruct Ha as (Hzi & Hc' & Ha).
  unfold word in *. pose proof (mul_bound x y (_B - 1) (_B - 1) ltac:(lia) ltac:(lia)) as Hb.
  assert (Hs : 0 <= c' + z1 < _B) by (split; [lia|apply (Z.mul_lt_mono_pos_r _B); lia]).
  rewrite Word_small by (unfold word; lia). lia.
Qed.

Lemma addMulVVW_g_spec z x y : (length z <= length x)%nat -> words z -> words x -> word y ->
  returns (addMulVVW_g mulWW_g z x y) (fun '(c, z') =>
    length z' = length z /\ words z' /\ word c /\
    val z' + c * Bpow (length z) = val z + val (take (length z) x) * y).
Proof.
  intros. go_mono (rangeVV_spec _ word y 1 1); [|(done || lia || auto with words)..|].
  - intros xi zi c Hxi Hzi Hc. pose proof (addMulVVW_g_step xi y zi c Hxi ltac:(done) Hzi Hc) as Hs.
    destruct (mulAddWWW_g mulWW_g xi y zi) as [z1 z0]. destruct (addWW_g z0 c 0) as [c' zi'].
    destruct Hs as (? & ? & ?). split_and!; auto; lia.
  - intros [c z'] (? & ? & ? & Hv). rewrite (firstn_all z) in Hv. split_and!; auto; lia.
Qed.

(** * The vector operations that carry a word along: shifts and division *)

(** [w << s] and [w >> (_W - s)] split [w * 2^s] into its two words. *)
Lemma shl_shr_split w s : word w -> 0 <= s < _W ->
  shr w (_W - s) * _B + shl w s = w * 2 ^ s /\ 0 <= shr w (_W - s) < 2 ^ s /\
  word (shl w s) /\
  (forall h, 0 <= h < 2 ^ s -> Z.lor (shl w s) h = shl w s + h /\ word (shl w s + h)).
Proof.
  intros Hw Hs. unfold shl, shr, word in *. pose proof _B_pos.
  assert (Hp : 0 < 2 ^ s) by (apply Z.pow_pos_nonneg; lia).
  assert (Hr : 0 < 2 ^ (_W - s)) by (apply Z.pow_pos_nonneg; lia).
  assert (HB : 2 ^ s * 2 ^ (_W - s) = _B).
  { rewrite <- Z.pow_add_r, _B_eq, <- _W_eq by lia. f_equal. lia. }
  rewrite Z.shiftl_mul_pow2, Z.shiftr_div_pow2 by lia.
  pose proof (Z.div_mod w (2 ^ (_W - s)) ltac:(lia)) as Hdm.
  pose proof (Z.mod_pos_bound w (2 ^ (_W - s)) Hr) as Hmod.
  set (h := w / 2 ^ (_W - s)) in *. set (l := w mod 2 ^ (_W - s)) in *.
  pose proof (mul_bound l (2 ^ s) (2 ^ (_W - s) - 1) (2 ^ s) ltac:(lia) ltac:(lia)) as Hls.
  assert (Hlow : Word (w * 2 ^ s) = l * 2 ^ s).
  { unfold Word. rewrite Hdm.
    replace ((2 ^ (_W - s) * h + l) * 2 ^ s) with (l * 2 ^ s + h * _B) by (rewrite <- HB; ring).
    rewrite Z.mod_add by lia. apply Z.mod_small. lia. }
  rewrite Hlow. split_and!; try lia.
  - apply Z.div_pos; lia.
  - apply Z.div_lt_upper_bound; lia.
  - intros k Hk. rewrite lor_add by lia. lia.
Qed.

(** [w << (_W - s)] and [w >> s] likewise, for right shifts. *)
Lemma shr_shl_split w s : word w -> 0 <= s < _W ->
  shr w s * 2 ^ s + w mod 2 ^ s = w /\ shl w (_W - s) = w mod 2 ^ s * 2 ^ (_W - s) /\
  0 <= shr w s < 2 ^ (_W - s) /\
  (forall v, word v -> Z.lor (shr w s) (shl v (_W - s)) = shr w s + shl v (_W - s) /\
                       word (shr w s + shl v (_W - s))).
Proof.
  intros Hw Hs. unfold shl, shr, word in *. pose proof _B_pos.
  assert (Hp : 0 < 2 ^ s) by (apply Z.pow_pos_nonneg; lia).
  assert (Hr : 0 < 2 ^ (_W - s)) by (apply Z.pow_pos_nonneg; lia).
  assert (HB : 2 ^ s * 2 ^ (_W - s) = _B).
  { rewrite <- Z.pow_add_r, _B_eq, <- _W_eq by lia. f_equal. lia. }
  assert (Hshl : forall v, Word (Z.shiftl v (_W - s)) = v mod 2 ^ s * 2 ^ (_W - s)).
  { intros v. unfold Word. rewrite Z.shiftl_mul_pow2, <- HB by lia. by rewrite Z.mul_mod_distr_r by lia. }
  rewrite Hshl, Z.shiftr_div_pow2 by lia.
  assert (Hd : 0 <= w / 2 ^ s < 2 ^ (_W - s)).
  { split; [apply Z.div_pos; lia|apply Z.div_lt_upper_bound; lia]. }
  split_and!; try lia; [rewrite Z.mul_comm; symmetry; apply Z.div_mod; lia|].
  intros v Hv. rewrite Hshl, Z.lor_comm, lor_add by lia.
  pose proof (Z.mod_pos_bound v (2 ^ s) Hp).
  pose proof (mul_bound (v mod 2 ^ s) (2 ^ (_W - s)) (2 ^ s - 1) (2 ^ (_W - s)) ltac:(lia) ltac:(lia)).
  lia.
Qed.

Lemma idx_take n (x : list Z) i w : (take n x).[i] = Some w -> idx x i = Done w.
Proof.
  intros Hw. unfold idx. rewrite zlookup_take in Hw. destruct (i <? Z.of_nat n); [|done]. by rewrite Hw.
Qed.

(** The value of the words from the [i]th on. *)
Definition hi_val (x : list Z) (i : Z) : Z := val (drop (Z.to_nat i) x).

Lemma hi_val_step x i w : x.[i] = Some w -> hi_val x i = w + _B * hi_val x (i + 1).
Proof.
  intros Hw. pose proof (zlookup_Some_lt _ _ _ Hw). rewrite zlookup_nonneg in Hw by lia.
  unfold hi_val. rewrite (drop_S _ _ _ Hw), val_cons. by replace (Z.to_nat (i + 1)) with (S (Z.to_nat i)) by lia.
Qed.

Lemma hi_val_0 x : hi_val x 0 = val x.
Proof. done. Qed.

Lemma hi_val_end x i : zlen x <= i -> hi_val x i = 0.
Proof. unfold zlen, hi_val. intros. by rewrite drop_ge by lia. Qed.

Lemma zlookup_take_lt n (x : list Z) i : (n <= length x)%nat -> 0 <= i < Z.of_nat n ->
  exists w, (take n x).[i] = Some w.
Proof. intros. apply zlookup_lt. rewrite zlen_take. unfold zlen. lia. Qed.

Lemma shlVU_g_spec n x s : (n <= length x)%nat -> words x -> 0 <= s < _W ->
  returns (shlVU_g n x s) (fun '(c, z) =>
    length z = n /\ words z /\ 0 <= c < 2 ^ s /\ val z + c * Bpow n = val (take n x) * 2 ^ s).
Proof.
  intros Hn Hx Hs. unfold shlVU_g. destruct (Nat.eqb_spec n 0) as [->|Hn0].
  { go_ret. split_and!; [done|auto with words|lia|apply Z.pow_pos_nonneg; lia|]. rewrite take_0, val_nil. lia. }
  assert (Hzl : zlen (take n x) = Z.of_nat n) by (rewrite zlen_take; unfold zlen; lia).
  assert (Hx' : words (take n x)) by auto with words.
  destruct (zlookup_take_lt n x (Z.of_nat n - 1) Hn ltac:(lia)) as [w1 Hw1].
  rewrite (idx_take n _ _ _ Hw1). cbn [mbind outcome_bind].
  set (c := shr w1 (_W - s)).
  eapply returns_bind.
  - apply (loop_returns
      (fun '(z, i, w) => 0 <= i /\ (take n x).[i] = Some w /\ length z = Z.to_nat (Z.of_nat n - 1 - i) /\
        words z /\ val z + c * Bpow (length z) = hi_val (take n x) (i + 1) * 2 ^ s + shr w (_W - s))
      (fun '(z, i, w) => Z.to_nat i)
      (fun '(z, w) => (take n x).[0] = Some w /\ length z = (n - 1)%nat /\
        words z /\ val z + c * Bpow (length z) = hi_val (take n x) 1 * 2 ^ s + shr w (_W - s))).
    + intros [[z i] w] (Hi & Hw & Hlz & Hz & Hv). case_bool.
      * destruct (zlookup_take_lt n x (i - 1) Hn) as [w' Hw'].
        { pose proof (zlookup_Some_lt _ _ _ Hw). lia. }
        rewrite (idx_take n _ _ _ Hw'). cbn [mbind outcome_bind]. go_ret.
        destruct (shl_shr_split w s (words_zlookup _ _ _ Hx' Hw) Hs) as (Hsp & _ & _ & Hlor).
        destruct (shl_shr_split w' s (words_zlookup _ _ _ Hx' Hw') Hs) as (_ & Hh & _).
        destruct (Hlor _ Hh) as [-> Hwd]. pose proof (zlookup_Some_lt _ _ _ Hw).
        split_and!; [lia|done|simpl; lia|auto with words| |lia].
        replace (i - 1 + 1) with i by lia.
        rewrite (hi_val_step _ _ _ Hw), val_cons. cbn [length]. rewrite Bpow_S.
        transitivity (shl w s + shr w' (_W - s) + _B * (val z + c * Bpow (length z))); [ring|].
        rewrite Hv. rewrite Z.mul_add_distr_r, <- Hsp. ring.
      * go_ret. replace i with 0 in * by lia. split_and!; auto. lia.
    + split_and!; [lia|done|simpl; lia|auto with words|].
      rewrite hi_val_end by lia. unfold c. simpl. rewrite Bpow_0. lia.
    + lia.
  - intros [z w] (Hw & Hlz & Hz & Hv). go_ret.
    destruct (shl_shr_split w s (words_zlookup _ _ _ Hx' Hw) Hs) as (Hsp & _ & Hwd & _).
    destruct (shl_shr_split w1 s (words_zlookup _ _ _ Hx' Hw1) Hs) as (_ & Hc & _).
    split_and!; [simpl; lia|auto with words|apply Hc|apply Hc|].
    rewrite <- (hi_val_0 (take n x)), (hi_val_step _ _ _ Hw), val_cons.
    replace n with (S (length z)) at 1 by lia. rewrite Bpow_S.
    transitivity (shl w s + _B * (val z + c * Bpow (length z))); [ring|].
    change (0 + 1) with 1. rewrite Hv, Z.mul_add_distr_r, <- Hsp. ring.
Qed.

Lemma take_step {A} (x : list A) i w : x.[i] = Some w ->
  take (Z.to_nat (i + 1)) x = take (Z.to_nat i) x ++ [w].
Proof.
  intros Hw. pose proof (zlookup_Some_lt _ _ _ Hw). rewrite zlookup_nonneg in Hw by lia.
  replace (Z.to_nat (i + 1)) with (S (Z.to_nat i)) by lia. by apply take_S_r.
Qed.

Lemma val_take_step x i w : x.[i] = Some w ->
  val (take (Z.to_nat (i + 1)) x) = val (take (Z.to_nat i) x) + Bpow (Z.to_nat i) * w.
Proof.
  intros Hw. pose proof (zlookup_Some_lt _ _ _ Hw) as Hi. unfold zlen in Hi.
  rewrite (take_step _ _ _ Hw), val_app, length_take_le by lia. cbn [val]. ring.
Qed.

Lemma shrVU_g_spec n x s : (n <= length x)%nat -> words x -> 0 <= s < _W ->
  returns (shrVU_g n x s) (fun '(c, z) =>
    length z = n /\ words z /\ val z = val (take n x) / 2 ^ s /\
    c = val (take n x) mod 2 ^ s * 2 ^ (_W - s)).
Proof.
  intros Hn Hx Hs. unfold shrVU_g. destruct (Nat.eqb_spec n 0) as [->|Hn0].
  { go_ret. rewrite take_0, val_nil, Zdiv_0_l, Zmod_0_l. split_and!; auto with words. }
  assert (Hp : 0 < 2 ^ s) by (apply Z.pow_pos_nonneg; lia).
  destruct (zlookup_lt x 0) as [w1 Hw1]; [unfold zlen; lia|].
  rewrite (idx_done _ _ _ Hw1). cbn [mbind outcome_bind].
  destruct (shr_shl_split w1 s (words_zlookup _ _ _ Hx Hw1) Hs) as (Hsp1 & Hc1 & _).
  eapply returns_bind.
  - apply (loop_returns
      (fun '(z, i, w) => 0 <= i < Z.of_nat n /\ x.[i] = Some w /\ length z = Z.to_nat i /\ words z /\
        val z * 2 ^ s + w1 mod 2 ^ s + Bpow (length z) * (shr w s * 2 ^ s) = val (take (Z.to_nat (i + 1)) x))
      (fun '(z, i, w) => Z.to_nat (Z.of_nat n - 1 - i))
      (fun '(z, w) => x.[Z.of_nat n - 1] = Some w /\ length z = (n - 1)%nat /\ words z /\
        val z * 2 ^ s + w1 mod 2 ^ s + Bpow (length z) * (shr w s * 2 ^ s) = val (take n x))).
    + intros [[z i] w] (Hi & Hw & Hlz & Hz & Hv). case_bool.
      * destruct (zlookup_lt x (i + 1)) as [w' Hw']; [unfold zlen; lia|].
        rewrite (idx_done _ _ _ Hw'). cbn [mbind outcome_bind]. go_ret.
        destruct (shr_shl_split w s (words_zlookup _ _ _ Hx Hw) Hs) as (Hsp & _ & _ & Hlor).
        pose proof (words_zlookup _ _ _ Hx Hw') as Hww'.
        destruct (shr_shl_split w' s Hww' Hs) as (Hsp' & Hc' & _).
        destruct (Hlor _ Hww') as [-> Hwd].
        rewrite length_app. split_and!; [lia|lia|done|simpl; lia|auto with words| |lia].
        rewrite (val_take_step _ _ _ Hw'), <- Hv, val_app, Hc'.
        remember (w' mod 2 ^ s) as m. remember (shr w' s) as q.
        replace (Z.to_nat (i + 1)) with (S (length z)) by lia.
        cbn [val length]. rewrite Nat.add_1_r, Bpow_S.
        assert (HB : 2 ^ (_W - s) * 2 ^ s = _B).
        { rewrite <- Z.pow_add_r, _B_eq, <- _W_eq by lia. f_equal. lia. }
        rewrite <- HB, <- Hsp'. ring.
      * go_ret. replace i with (Z.of_nat n - 1) in * by lia. split_and!; auto; [lia|].
        rewrite Hv. do 2 f_equal. lia.
    + split_and!; [lia|lia|done|done|auto with words|].
      rewrite (val_take_step _ _ _ Hw1). change (Z.to_nat 0) with 0%nat.
      cbn [length]. rewrite take_0, val_nil, !Bpow_0. lia.
    + lia.
  - intros [z w] (Hw & Hlz & Hz & Hv). go_ret.
    destruct (shr_shl_split w s (words_zlookup _ _ _ Hx Hw) Hs) as (_ & _ & Hr & _).
    assert (Hq : val (z ++ [shr w s]) * 2 ^ s + w1 mod 2 ^ s = val (take n x)).
    { rewrite val_app, <- Hv. cbn [val]. ring. }
    pose proof (Z.mod_pos_bound w1 (2 ^ s) Hp).
    split_and!; [rewrite length_app; simpl; lia| | |].
    + apply words_app; split; [done|]. repeat constructor; [lia|].
      apply Z.lt_le_trans with (2 ^ (_W - s)); [lia|].
      rewrite _B_eq, <- _W_eq. apply Z.pow_le_mono_r; lia.
    + apply Z.div_unique with (w1 mod 2 ^ s); lia.
    + rewrite Hc1. f_equal. apply Z.mod_unique with (val (z ++ [shr w s])); lia.
Qed.

Lemma divWVW_g_spec n xn x y : (n <= length x)%nat -> words x -> word y -> 0 <= xn < y ->
  returns (divWVW_g n xn x y) (fun '(z, r) =>
    length z = n /\ words z /\ 0 <= r < y /\ val z * y + r = xn * Bpow n + val (take n x)).
Proof.
  intros Hn Hx Hy Hxn. unfold divWVW_g.
  assert (Hzl : zlen (take n x) = Z.of_nat n) by (rewrite zlen_take; unfold zlen; lia).
  apply (loop_returns
    (fun '(z, i, r) => -1 <= i < Z.of_nat n /\ length z = Z.to_nat (Z.of_nat n - 1 - i) /\ words z /\
      0 <= r < y /\ val z * y + r = xn * Bpow (length z) + hi_val (take n x) (i + 1))
    (fun '(z, i, r) => Z.to_nat (i + 1))).
  - intros [[z i] r] (Hi & Hlz & Hz & Hr & Hv). case_bool.
    + destruct (zlookup_take_lt n x i Hn ltac:(lia)) as [w Hw].
      rewrite (idx_take n _ _ _ Hw). cbn [mbind outcome_bind].
      go_call divWW_g_spec; [unfold word in *; lia| |done|lia|].
      { apply (words_zlookup (take n x) i); auto with words. }
      intros [zi r'] (Hzi & Hr' & Hq). go_ret.
      split_and!; [lia|lia|simpl; lia|auto with words|lia|lia| |lia].
      replace (i - 1 + 1) with i by lia. rewrite (hi_val_step _ _ _ Hw).
      cbn [val length]. rewrite Bpow_S.
      transitivity (_B * (val z * y + r) - r * _B + (zi * y + r')); [ring|]. rewrite Hv, Hq. ring.
    + go_ret. replace i with (-1) in * by lia. rewrite hi_val_0 in Hv.
      split_and!; [lia|done|lia|lia|]. rewrite Hv. do 3 f_equal. lia.
  - split_and!; [lia|lia|simpl; lia|auto with words|lia|lia|].
    rewrite hi_val_end by lia. simpl. rewrite Bpow_0. lia.
  - lia.
Qed.

(** * What nat.go relies on *)

Class ArithLaws `{Arith} : Prop := {
  mulWW_law x y : word x -> word y ->
    let '(z1, z0) := mulWW x y in word z0 /\ word z1 /\ z1 * _B + z0 = x * y;
  divWW_law u1 u0 v : word u1 -> word u0 -> word v -> u1 < v ->
    returns (divWW u1 u0 v) (fun '(q, r) =>
      word q /\ 0 <= r < v /\ q * v + r = u1 * _B + u0);
  addVV_law n x y : (n <= length x)%nat -> (n <= length y)%nat -> words x -> words y ->
    returns (addVV n x y) (fun '(c, z) =>
      length z = n /\ words z /\ 0 <= c <= 1 /\
      val z + c * Bpow n = val (take n x) + val (take n y));
  subVV_law n x y : (n <= length x)%nat -> (n <= length y)%nat -> words x -> words y ->
    returns (subVV n x y) (fun '(c, z) =>
      length z = n /\ words z /\ 0 <= c <= 1 /\
      val z - c * Bpow n = val (take n x) - val (take n y));
  addVW_law n x y : (n <= length x)%nat -> words x -> word y ->
    returns (addVW n x y) (fun '(c, z) =>
      length z = n /\ words z /\ word c /\ val z + c * Bpow n = val (take n x) + y);
  subVW_law n x y : (n <= length x)%nat -> words x -> word y ->
    returns (subVW n x y) (fun '(c, z) =>
      length z = n /\ words z /\ word c /\ val z - c * Bpow n = val (take n x) - y);
  shlVU_law n x s : (n <= length x)%nat -> words x -> 0 <= s < _W ->
    returns (shlVU n x s) (fun '(c, z) =>
      length z = n /\ words z /\ 0 <= c < 2 ^ s /\ val z + c * Bpow n = val (take n x) * 2 ^ s);
  shrVU_law n x s : (n <= length x)%nat -> words x -> 0 <= s < _W ->
    returns (shrVU n x s) (fun '(c, z) =>
      length z = n /\ words z /\ val z = val (take n x) / 2 ^ s /\
      c = val (take n x) mod 2 ^ s * 2 ^ (_W - s));
  mulAddVWW_law n x y r : (n <= length x)%nat -> words x -> word y -> word r ->
    returns (mulAddVWW n x y r) (fun '(c, z) =>
      length z = n /\ words z /\ word c /\ val z + c * Bpow n = val (take n x) * y + r);
  addMulVVW_law z x y : (length z <= length x)%nat -> words z -> words x -> word y ->
    returns (addMulVVW z x y) (fun '(c, z') =>
      length z' = length z /\ words z' /\ word c /\
      val z' + c * Bpow (length z) = val z + val (take (length z) x) * y);
  divWVW_law n xn x y : (n <= length x)%nat -> words x -> word y -> 0 <= xn < y ->
    returns (divWVW n xn x y) (fun '(z, r) =>
      length z = n /\ words z /\ 0 <= r < y /\ val z * y + r = xn * Bpow n + val (take n x))
}.
Arguments ArithLaws _ : clear implicits.

#[export] Instance arith_g_laws : ArithLaws arith_g.
Proof.
  constructor; cbn.
  - apply mulWW_g_spec.
  - apply divWW_g_spec.
  - apply addVV_g_spec.
  - apply subVV_g_spec.
  - apply addVW_g_spec.
  - apply subVW_g_spec.
  - apply shlVU_g_spec.
  - apply shrVU_g_spec.
  - apply mulAddVWW_g_spec.
  - apply addMulVVW_g_spec.
  - apply divWVW_g_spec.
Qed.

(** * Properties *)

(** The double-word division [divWW_g]: on every dividend [u1 * _B + u0]
    and divisor [v] with [u1 < v] the two correction loops terminate, no
    intermediate overflow is visible, and the result is the quotient (one
    word) and the remainder. *)
Theorem divWW_g_correct u1 u0 v :
  word u1 -> word u0 -> word v -> u1 < v ->
  divWW_g u1 u0 v = Done ((u1 * _B + u0) / v, (u1 * _B + u0) mod v).
Proof.
  intros Hu1 Hu0 Hv Hlt. destruct (divWW_g_spec u1 u0 v Hu1 Hu0 Hv Hlt) as ([q r] & -> & _ & Hr & Heq).
  f_equal. f_equal; [apply Z.div_unique with r|apply Z.mod_unique with q]; lia.
Qed.

Lemma divWW_g_correct_witness :
  divWW_g (2 ^ 63) 12345 (2 ^ 63 + 1) =
  Done ((2 ^ 63 * _B + 12345) / (2 ^ 63 + 1), (2 ^ 63 * _B + 12345) mod (2 ^ 63 + 1)).
Proof. apply (divWW_g_correct (2 ^ 63) 12345 (2 ^ 63 + 1)); unfold word; rewrite ?_B_eq; lia. Defined.

(** C12. The Go implementations of the word-vector operations compute what
    their signatures in arith_decl.go promise, for vectors of every length:
    sums, differences, products, shifts and quotients with their carries,
    borrows, shifted-out bits and remainders. *)
Theorem arith_g_correct : ArithLaws arith_g.
Proof. exact arith_g_laws. Qed.
