(* ===== verification/BigNat.v ===== *)
(** Package big, file nat.go (src/go/src/pkg/big/nat.go), first part: the
    representation of natural numbers, addition, subtraction, comparison and
    multiplication by a word.

    A [nat] is a slice of words, least significant first, without leading zero
    words ([normal]).  Methods of nat.go take the result's storage as their
    receiver [z]; here [z] is the contents of that storage up to its capacity,
    which [nat_make] reuses when it is large enough, so a result that exposed
    old contents would be visible.  A slice that is returned is given by its
    words; its spare capacity is not tracked.  Operands are values: that the
    storage of [z] may be shared with an operand is not modelled, and the tests
    of [alias] in the code, which give up the storage in that case, have no
    counterpart.  Lengths are natural numbers; they are far below [2^31]. *)

From S2P Require Import Prelude BigArith.

(** * Slices of words *)

(** [z[a:b]] as an rvalue. *)
Definition sub_slice (z : list Z) (a b : nat) : outcome (list Z) :=
  if ((a <=? b) && (b <=? length z))%nat then Done (take (b - a) (drop a z)) else Panic.

(** Store the words [l] at [z[i:i+len(l)]]. *)
Definition put (z : list Z) (i : nat) (l : list Z) : outcome (list Z) :=
  if (i + length l <=? length z)%nat
  then Done (take i z ++ l ++ drop (i + length l) z) else Panic.

(** Run [f] on [z[i:]], which shares its words with [z]. *)
Definition on_tail (z : list Z) (i : nat) (f : list Z -> outcome (list Z)) : outcome (list Z) :=
  if (i <=? length z)%nat then w ← f (drop i z); Done (take i z ++ w) else Panic.

(** * The representation *)

Definition natOne : list Z := [1].
Definition natTwo : list Z := [2].

Definition nat_clear (z : list Z) : list Z := map (fun _ => 0) z.

(** [for i > 0 && z[i-1] == 0 { i-- }]. *)
Fixpoint norm_len (z : list Z) (i : nat) : nat :=
  match i with
  | O => O
  | S j => if decide (z !! j = Some 0) then norm_len z j else i
  end.

Definition nat_norm (z : list Z) : list Z := take (norm_len z (length z)) z.

Definition nat_make (z : list Z) (n : nat) : list Z :=
  if (n <=? length z)%nat then take n z else replicate n 0.

Definition nat_setWord (z : list Z) (x : Z) : outcome (list Z) :=
  if x =? 0 then Done (nat_make z 0) else put (nat_make z 1) 0 [x].

Definition nat_setUint64 (z : list Z) (x : Z) : outcome (list Z) :=
  let w := Word x in
  if uint64 w =? x then nat_setWord z w else
  n ← loop 2 (fun '(t, n) =>
    if 0 <? t then Done (inl (Z.shiftr t _W, S n)) else Done (inr n)) (x, O);
  let z := nat_make z n in
  '(z, _) ← foldl (fun acc i =>
    '(z, x) ← acc;
    z ← put z i [Word (Z.land x _M)];
    Done (z, Z.shiftr x _W)) (Done (z, x)) (seq 0 n);
  Done z.

Definition nat_set (z x : list Z) : outcome (list Z) :=
  put (nat_make z (length x)) 0 x.

Section Arithmetic.
Context `{Arith}.

(** * Addition and subtraction *)

(** [add] for [len(x) >= len(y)]. *)
Definition nat_add_ge (z x y : list Z) : outcome (list Z) :=
  let m := length x in
  let n := length y in
  if (m =? 0)%nat then Done (nat_make z 0) else
  if (n =? 0)%nat then nat_set z x else
  let z := nat_make z (m + 1) in
  '(c, l) ← addVV n x y;
  z ← put z 0 l;
  '(c, z) ← (if (n <? m)%nat
             then '(c, l) ← addVW (m - n) (drop n x) c;
                  z ← put z n l;
                  Done (c, z)
             else Done (c, z));
  z ← put z m [c];
  Done (nat_norm z).

Definition nat_add (z x y : list Z) : outcome (list Z) :=
  if (length x <? length y)%nat then nat_add_ge z y x else nat_add_ge z x y.

Definition nat_sub (z x y : list Z) : outcome (list Z) :=
  let m := length x in
  let n := length y in
  if (m <? n)%nat then Panic else
  if (m =? 0)%nat then Done (nat_make z 0) else
  if (n =? 0)%nat then nat_set z x else
  let z := nat_make z m in
  '(c, l) ← subVV n x y;
  z ← put z 0 l;
  '(c, z) ← (if (n <? m)%nat
             then '(c, l) ← subVW (m - n) (drop n x) c;
                  z ← put z n l;
                  Done (c, z)
             else Done (c, z));
  if negb (c =? 0) then Panic else Done (nat_norm z).

(** [i := m - 1; for i > 0 && x[i] == y[i] { i-- }]. *)
Fixpoint cmp_idx (x y : list Z) (i : nat) : nat :=
  match i with
  | O => O
  | S j => if decide (x !! i = y !! i) then cmp_idx x y j else i
  end.

Definition nat_cmp (x y : list Z) : outcome Z :=
  let m := length x in
  let n := length y in
  if negb (m =? n)%nat || (m =? 0)%nat then
    Done (if (m <? n)%nat then -1 else if (n <? m)%nat then 1 else 0)
  else
    let i := cmp_idx x y (m - 1) in
    xi ← of_option (x !! i);
    yi ← of_option (y !! i);
    Done (if xi <? yi then -1 else if yi <? xi then 1 else 0).

(** * Multiplication by a word *)

Definition nat_mulAddWW (z x : list Z) (y r : Z) : outcome (list Z) :=
  let m := length x in
  if (m =? 0)%nat || (y =? 0) then nat_setWord z r else
  let z := nat_make z (m + 1) in
  '(c, l) ← mulAddVWW m x y r;
  z ← put z 0 l;
  z ← put z m [c];
  Done (nat_norm z).

End Arithmetic.

(** * Normalised numbers *)

(** [x] is normalised: its words are words and the last one is not zero. *)
Definition normal (x : list Z) : Prop := words x /\ list.last x <> Some 0.

(** [x] is the normalised representation of [v]. *)
Definition nat_is (v : Z) (x : list Z) : Prop := normal x /\ val x = v.

(** Discharges [words] and [normal] of a literal. *)
Ltac normal_concrete :=
  try done; repeat constructor; rewrite ?_B_eq; try lia; try done.

(** * Lemmas on slices of words *)

Lemma put_app p r i l : length p = i -> (length l <= length r)%nat ->
  put (p ++ r) i l = Done (p ++ l ++ drop (length l) r).
Proof.
  intros <- Hl. unfold put. rewrite length_app.
  rewrite (proj2 (Nat.leb_le _ _)) by lia.
  by rewrite take_app_length, drop_app_add.
Qed.

Lemma put_0 z l : (length l <= length z)%nat -> put z 0 l = Done (l ++ drop (length l) z).
Proof. intros Hl. exact (put_app [] z 0 l eq_refl Hl). Qed.

Lemma put_end p r i l : length p = i -> length l = length r -> put (p ++ r) i l = Done (p ++ l).
Proof.
  intros Hi Hl. rewrite put_app by lia. by rewrite drop_ge, app_nil_r by lia.
Qed.

Lemma put_all z l : length l = length z -> put z 0 l = Done l.
Proof. intros Hl. exact (put_end [] z 0 l eq_refl Hl). Qed.

Lemma put_one q j x : (j < length q)%nat -> put q j [x] = Done (<[j:=x]> q).
Proof.
  intros Hj. unfold put. rewrite (proj2 (Nat.leb_le _ _)) by (simpl; lia).
  rewrite insert_take_drop by done. cbn [length app]. by rewrite Nat.add_1_r.
Qed.

Lemma sub_slice_done z a b : (a <= b)%nat -> (b <= length z)%nat ->
  sub_slice z a b = Done (take (b - a) (drop a z)).
Proof. intros. unfold sub_slice. by rewrite !(proj2 (Nat.leb_le _ _)) by lia. Qed.

Lemma on_tail_done z i f Q : (i <= length z)%nat -> returns (f (drop i z)) (fun w => Q (take i z ++ w)) ->
  returns (on_tail z i f) Q.
Proof.
  intros Hi Hf. unfold on_tail. rewrite (proj2 (Nat.leb_le _ _)) by lia.
  eapply returns_bind; [exact Hf|]. intros w Hw. by go_ret.
Qed.

Lemma length_nat_make z n : length (nat_make z n) = n.
Proof.
  unfold nat_make. case_bool; [|apply length_replicate].
  apply Nat.leb_le in E. apply length_take_le. lia.
Qed.

Lemma words_nat_make z n : words z -> words (nat_make z n).
Proof. unfold nat_make. case_bool; auto with words. Qed.

Lemma nat_make_0 z : nat_make z 0 = [].
Proof. apply nil_length_inv, length_nat_make. Qed.

Lemma nat_clear_zero z : nat_clear z = replicate (length z) 0.
Proof. induction z; simpl; congruence. Qed.

#[export] Hint Rewrite length_nat_make : go_len.
#[export] Hint Resolve words_nat_make : words.

(** * Lemmas on values *)

Lemma nat_is_nil : nat_is 0 [].
Proof. repeat split; [constructor|done]. Qed.

Lemma nat_is_words v x : nat_is v x -> words x.
Proof. intros [[Hx _] _]. done. Qed.

Lemma normal_words x : normal x -> words x.
Proof. intros [Hx _]. done. Qed.

#[export] Hint Resolve normal_words nat_is_words : words.

Lemma nat_is_val x : normal x -> nat_is (val x) x.
Proof. done. Qed.

Lemma norm_len_spec z i : (i <= length z)%nat ->
  (norm_len z i <= i)%nat /\ val (take (norm_len z i) z) = val (take i z) /\
  list.last (take (norm_len z i) z) <> Some 0.
Proof.
  induction i as [|i IH]; intros Hi; cbn [norm_len]; [by rewrite take_0|].
  case_decide as Hz.
  - destruct (IH ltac:(lia)) as (? & Hv & ?). split_and!; [lia| |done].
    rewrite Hv, (take_S_r _ _ _ Hz), val_app. cbn [val]. ring.
  - split_and!; [done|done|]. destruct (lookup_lt_is_Some_2 z i ltac:(lia)) as [w Hw].
    rewrite (take_S_r _ _ _ Hw), last_snoc. congruence.
Qed.

Lemma nat_norm_spec z : words z -> nat_is (val z) (nat_norm z).
Proof.
  intros Hz. destruct (norm_len_spec z (length z) ltac:(lia)) as (_ & Hv & Hl).
  unfold nat_norm. rewrite firstn_all in Hv. repeat split; auto with words.
Qed.

(** A normalised number has a non-zero leading word. *)
Lemma normal_snoc x : normal x -> x <> [] ->
  exists l w, x = l ++ [w] /\ words l /\ word w /\ 0 < w.
Proof.
  intros [Hx Hl] Hne. destruct (list.last x) as [w|] eqn:Hw; [|by apply last_None in Hw].
  apply last_Some in Hw as [l ->]. apply words_app in Hx as [Hx [Hw _]%words_cons].
  exists l, w. split_and!; try done. unfold word in Hw.
  destruct (decide (w = 0)) as [->|]; [done|lia].
Qed.

Lemma normal_ge x n : normal x -> (n < length x)%nat -> Bpow n <= val x.
Proof.
  intros Hx Hn. destruct (normal_snoc x Hx) as (l & w & -> & Hl & _ & Hw); [by intros ->; simpl in Hn; lia|].
  rewrite val_app. cbn [val]. rewrite length_app in Hn. simpl in Hn.
  assert (Bpow n <= Bpow (length l)).
  { replace (length l) with (n + (length l - n))%nat by lia. rewrite Bpow_add.
    pose proof (Bpow_pos n). pose proof (Bpow_pos (length l - n)). nia. }
  pose proof (val_bound l Hl). pose proof (Bpow_pos (length l)). nia.
Qed.

Lemma normal_length x n : normal x -> val x < Bpow n -> (length x <= n)%nat.
Proof.
  intros Hx Hv. destruct (decide (n < length x)%nat) as [Hn|]; [|lia].
  pose proof (normal_ge x n Hx Hn). lia.
Qed.

Lemma normal_pos x : normal x -> (0 < length x)%nat -> 0 < val x.
Proof. intros Hx Hl. pose proof (normal_ge x 0 Hx Hl). rewrite Bpow_0 in *. lia. Qed.

Lemma normal_zero x : normal x -> val x = 0 -> x = [].
Proof.
  intros Hx Hv. apply nil_length_inv. destruct (decide (length x = O)); [done|].
  pose proof (normal_pos x Hx ltac:(lia)). lia.
Qed.

Lemma Bpow_mono n m : (n <= m)%nat -> Bpow n <= Bpow m.
Proof.
  intros Hnm. replace m with (n + (m - n))%nat by lia. rewrite Bpow_add.
  pose proof (Bpow_pos n). pose proof (Bpow_pos (m - n)). nia.
Qed.

Lemma Bpow_lt n m : (n < m)%nat -> Bpow n < Bpow m.
Proof.
  intros Hnm. apply Z.lt_le_trans with (Bpow (S n)); [|by apply Bpow_mono].
  rewrite Bpow_S. pose proof (Bpow_pos n). pose proof _B_eq. nia.
Qed.

Lemma normal_lt_length x y : normal x -> normal y -> (length x < length y)%nat -> val x < val y.
Proof.
  intros Hx Hy Hl. pose proof (normal_ge y (length x) Hy Hl).
  pose proof (val_bound x (normal_words _ Hx)). lia.
Qed.

Lemma val_inj x : words x -> forall y, words y -> length x = length y -> val x = val y -> x = y.
Proof.
  induction 1 as [|a x Ha Hx IH]; intros [|b y] Hy Hl Hv; try done.
  apply words_cons in Hy as [Hb Hy]. cbn [val] in Hv. unfold word in *.
  assert (a = b) as ->.
  { rewrite <- (Z.mod_small a _B), <- (Z.mod_small b _B) by lia.
    rewrite <- (Z.mod_add a (val x) _B), <- (Z.mod_add b (val y) _B) by lia. f_equal. lia. }
  f_equal. apply IH; [done|simpl in Hl; lia|]. apply (Z.mul_cancel_l _ _ _B); lia.
Qed.

(** The representation of a number is unique. *)
Lemma normal_inj x y : normal x -> normal y -> val x = val y -> x = y.
Proof.
  intros Hx Hy Hv. apply val_inj; auto with words.
  destruct (Nat.lt_trichotomy (length x) (length y)) as [Hl|[Hl|Hl]]; [|done|].
  - pose proof (normal_lt_length x y Hx Hy Hl). lia.
  - pose proof (normal_lt_length y x Hy Hx Hl). lia.
Qed.

Lemma nat_is_inj v x y : nat_is v x -> nat_is v y -> x = y.
Proof. intros [Hx <-] [Hy Hv]. by apply normal_inj. Qed.

(** Replacing equal upper words: the difference of two values is decided by
    the highest word where they differ. *)
Lemma val_compare_at x y i xi yi :
  words x -> words y -> length x = length y ->
  x !! i = Some xi -> y !! i = Some yi -> drop (S i) x = drop (S i) y ->
  (xi < yi -> val x < val y) /\ (xi = yi -> i = O -> val x = val y).
Proof.
  intros Hx Hy Hlen Hxi Hyi Hd. pose proof (lookup_lt_Some _ _ _ Hxi).
  rewrite (val_take_drop i x), (val_take_drop i y), (drop_S _ _ _ Hxi), (drop_S _ _ _ Hyi), Hd by lia.
  cbn [val]. pose proof (val_bound (take i x) (words_take _ _ Hx)) as H1.
  pose proof (val_bound (take i y) (words_take _ _ Hy)) as H2.
  rewrite length_take_le in H1, H2 by lia. set (t := _B * val _).
  split; [intros Hlt|intros -> ->; by rewrite !take_0].
  assert (Bpow i * (xi + t) + Bpow i <= Bpow i * (yi + t)); [|lia].
  replace (Bpow i * (xi + t) + Bpow i) with (Bpow i * (xi + t + 1)) by ring.
  apply Z.mul_le_mono_nonneg_l; lia.
Qed.

Lemma cmp_idx_spec x y i : drop (S i) x = drop (S i) y ->
  (i < length x)%nat -> length x = length y ->
  (cmp_idx x y i <= i)%nat /\ drop (S (cmp_idx x y i)) x = drop (S (cmp_idx x y i)) y /\
  (cmp_idx x y i = O \/ x !! cmp_idx x y i <> y !! cmp_idx x y i).
Proof.
  induction i as [|i IH]; intros Hd Hi Hlen; cbn [cmp_idx]; [by auto|].
  case_decide as He; [|by auto].
  destruct IH as (? & ? & ?); [|lia|done|by auto].
  destruct (lookup_lt_is_Some_2 x (S i) Hi) as [w Hw].
  rewrite (drop_S x w (S i) Hw), (drop_S y w (S i)) by congruence. congruence.
Qed.

Definition Zcmp (a b : Z) : Z := if a <? b then -1 else if b <? a then 1 else 0.

Lemma nat_cmp_spec x y : normal x -> normal y ->
  nat_cmp x y = Done (Zcmp (val x) (val y)).
Proof.
  intros Hx Hy. unfold nat_cmp, Zcmp.
  destruct (Nat.eqb_spec (length x) (length y)) as [Hl|Hl]; cbn [negb orb].
  - destruct (Nat.eqb_spec (length x) 0) as [H0|H0].
    { rewrite (nil_length_inv x), (nil_length_inv y) by lia. done. }
    destruct (cmp_idx_spec x y (length x - 1)) as (Hi & Hd & Hc); [rewrite !drop_ge by lia; done|lia|done|].
    set (i := cmp_idx x y _) in *.
    destruct (lookup_lt_is_Some_2 x i ltac:(lia)) as [xi Hxi].
    destruct (lookup_lt_is_Some_2 y i ltac:(lia)) as [yi Hyi].
    rewrite Hxi, Hyi in *. cbn [of_option mbind outcome_bind]. f_equal.
    destruct (val_compare_at x y i xi yi) as [H1 H2]; auto with words.
    destruct (val_compare_at y x i yi xi) as [H3 _]; auto with words.
    destruct (Z.lt_total xi yi) as [Hlt|[Heq|Hgt]].
    + specialize (H1 Hlt). by bool_decide_goal.
    + destruct Hc as [Hc|Hc]; [|congruence]. specialize (H2 Heq Hc). by bool_decide_goal.
    + specialize (H3 Hgt). by bool_decide_goal.
  - destruct (Nat.ltb_spec (length x) (length y)).
    + pose proof (normal_lt_length x y Hx Hy ltac:(lia)). by bool_decide_goal.
    + pose proof (normal_lt_length y x Hy Hx ltac:(lia)).
      rewrite (proj2 (Nat.ltb_lt _ _)) by lia. by bool_decide_goal.
Qed.

(** * Specifications of the operations *)

Lemma nat_setWord_spec z x : word x -> returns (nat_setWord z x) (nat_is x).
Proof.
  intros Hx. unfold nat_setWord. case_bool; subst.
  - rewrite nat_make_0. go_ret. apply nat_is_nil.
  - rewrite put_all by by rewrite length_nat_make. go_ret. unfold nat_is, normal. cbn.
    split_and!; auto with words; [congruence|lia].
Qed.

Lemma nat_set_spec z x : nat_set z x = Done x.
Proof. apply put_all. by rewrite length_nat_make. Qed.

Lemma nat_setUint64_spec z x : 0 <= x < 2 ^ 64 -> returns (nat_setUint64 z x) (nat_is x).
Proof.
  intros Hx. unfold nat_setUint64.
  assert (Hw : word x) by (unfold word; rewrite _B_eq; lia).
  rewrite (Word_small x Hw). unfold uint64. rewrite wrap_small by done. rewrite Z.eqb_refl.
  by apply nat_setWord_spec.
Qed.

Section Specs.
Context `{HA : Arith} {HL : ArithLaws HA}.

(** Adding the lower words and carrying into the upper ones. *)
Lemma add_split n x y (c c' : Z) (l l' : list Z) :
  length y = n -> (n <= length x)%nat -> length l = n ->
  val l + c * Bpow n = val (take n x) + val y ->
  val l' + c' * Bpow (length x - n) = val (drop n x) + c ->
  val (l ++ l' ++ [c']) = val x + val y - c' * Bpow (length x) + c' * Bpow (n + length l').
Proof.
  intros Hy Hn Hl Hv Hv'. rewrite !val_app, (val_take_drop n x) by done. cbn [val].
  rewrite Hl, Bpow_add. replace (length x) with (n + (length x - n))%nat by lia.
  rewrite (Bpow_add n (length x - n)).
  replace (val l) with (val (take n x) + val y - c * Bpow n) by lia.
  replace (val l') with (val (drop n x) + c - c' * Bpow (length x - n)) by lia. ring.
Qed.

Lemma nat_add_ge_spec z x y : normal x -> normal y -> (length y <= length x)%nat ->
  returns (nat_add_ge z x y) (nat_is (val x + val y)).
Proof.
  intros Hx Hy Hl. unfold nat_add_ge.
  destruct (Nat.eqb_spec (length x) 0) as [Hx0|Hx0].
  { rewrite nat_make_0. go_ret. rewrite (nil_length_inv x), (nil_length_inv y) by lia. apply nat_is_nil. }
  destruct (Nat.eqb_spec (length y) 0) as [Hy0|Hy0].
  { rewrite nat_set_spec. go_ret. rewrite (nil_length_inv y) by lia. rewrite val_nil, Z.add_0_r. by apply nat_is_val. }
  go_call addVV_law; [done|done|auto with words..|]. intros [c l] (Hll & Hlw & Hc & Hv).
  rewrite firstn_all in Hv. rewrite put_0 by (rewrite length_nat_make; lia). cbn [mbind outcome_bind].
  set (z' := nat_make z (length x + 1)).
  assert (Hz' : length z' = (length x + 1)%nat) by apply length_nat_make.
  assert (Hmid : returns
    (if (length y <? length x)%nat
     then '(c, l0) ← addVW (length x - length y) (drop (length y) x) c;
          z ← put (l ++ drop (length l) z') (length y) l0; Done (c, z)
     else Done (c, l ++ drop (length l) z'))
    (fun '(c', w) => exists l', length l' = (length x - length y)%nat /\ words l' /\ word c' /\
       w = (l ++ l') ++ drop (length x) z' /\
       val l' + c' * Bpow (length x - length y) = val (drop (length y) x) + c)).
  { pose proof _B_eq. assert (word c) by (unfold word; lia). case_bool.
    - apply Nat.ltb_lt in E. go_call addVW_law; [rewrite length_drop; lia|auto with words|done|].
      intros [c' l'] (Hll' & Hlw' & Hc' & Hv').
      rewrite put_app by (rewrite ?length_drop; lia). cbn [mbind outcome_bind]. go_ret.
      exists l'. split_and!; auto.
      + rewrite drop_drop, <- (app_assoc l l'). do 3 f_equal. lia.
      + rewrite firstn_all2 in Hv' by (rewrite length_drop; lia). done.
    - apply Nat.ltb_ge in E. go_ret. exists []. replace (length x - length y)%nat with O by lia.
      rewrite app_nil_r, (drop_ge x), val_nil, Bpow_0 by lia. split_and!; auto with words; [|lia].
      do 2 f_equal. lia. }
  eapply returns_bind; [exact Hmid|]. intros [c' w] (l' & Hll' & Hlw' & Hc' & -> & Hv').
  rewrite put_end by (rewrite ?length_app, ?length_drop; simpl; lia). cbn [mbind outcome_bind]. go_ret.
  replace (val x + val y) with (val ((l ++ l') ++ [c'])); [apply nat_norm_spec; auto with words|].
  rewrite <- app_assoc, (add_split (length y) x y c c' l l') by auto.
  replace (length y + length l')%nat with (length x) by lia. ring.
Qed.

Lemma nat_add_spec z x y : normal x -> normal y ->
  returns (nat_add z x y) (nat_is (val x + val y)).
Proof.
  intros Hx Hy. unfold nat_add. case_bool.
  - apply Nat.ltb_lt in E. rewrite Z.add_comm. apply nat_add_ge_spec; auto with lia.
  - apply Nat.ltb_ge in E. by apply nat_add_ge_spec.
Qed.

(** The borrow out of the upper words tells whether [x < y]. *)
Lemma nat_sub_mid z' x y c l :
  words x -> words l -> length l = length y -> (length y <= length x)%nat -> length z' = length x ->
  0 <= c <= 1 ->
  val l - c * Bpow (length y) = val (take (length y) x) - val y ->
  returns
    (if (length y <? length x)%nat
     then '(c, l0) ← subVW (length x - length y) (drop (length y) x) c;
          z ← put (l ++ drop (length l) z') (length y) l0; Done (c, z)
     else Done (c, l ++ drop (length l) z'))
    (fun '(c', w) => length w = length x /\ words w /\
       val w - c' * Bpow (length x) = val x - val y).
Proof.
  intros Hx Hlw Hll Hle Hz Hc Hv. pose proof _B_eq. assert (word c) by (unfold word; lia).
  rewrite (val_take_drop (length y) x) by done. case_bool.
  - apply Nat.ltb_lt in E. go_call subVW_law; [rewrite length_drop; lia|auto with words|done|].
    intros [c' l'] (Hll' & Hlw' & Hc' & Hv').
    rewrite put_end by (rewrite ?length_drop; lia). cbn [mbind outcome_bind]. go_ret.
    rewrite firstn_all2 in Hv' by (rewrite length_drop; lia).
    split_and!; [rewrite length_app; lia|auto with words|].
    rewrite val_app, Hll. replace (length x) with (length y + (length x - length y))%nat by lia.
    rewrite Bpow_add.
    replace (val l) with (val (take (length y) x) - val y + c * Bpow (length y)) by lia.
    replace (val l') with (val (drop (length y) x) - c + c' * Bpow (length x - length y)) by lia. ring.
  - apply Nat.ltb_ge in E. go_ret. rewrite !drop_ge, app_nil_r, val_nil by lia.
    replace (length x) with (length y) by lia. split_and!; auto; lia.
Qed.

Lemma nat_sub_spec z x y : normal x -> normal y ->
  match nat_sub z x y with
  | Done r => nat_is (val x - val y) r
  | Panic => val x < val y
  | OutOfFuel => False
  end.
Proof.
  intros Hx Hy. unfold nat_sub.
  destruct (Nat.ltb_spec (length x) (length y)) as [Hl|Hl]; [by apply normal_lt_length|].
  destruct (Nat.eqb_spec (length x) 0) as [Hx0|Hx0].
  { rewrite nat_make_0, (nil_length_inv x), (nil_length_inv y) by lia. apply nat_is_nil. }
  destruct (Nat.eqb_spec (length y) 0) as [Hy0|Hy0].
  { rewrite nat_set_spec, (nil_length_inv y) by lia. rewrite val_nil, Z.sub_0_r. by apply nat_is_val. }
  destruct (subVV_law (length y) x y) as ([c l] & -> & Hll & Hlw & Hc & Hv); [lia|lia|auto with words..|].
  rewrite firstn_all in Hv. cbn [mbind outcome_bind].
  rewrite put_0 by (rewrite length_nat_make; lia). cbn [mbind outcome_bind].
  destruct (nat_sub_mid (nat_make z (length x)) x y c l) as ([c' w] & -> & Hlw' & Hww & Hvw);
    auto using length_nat_make with words.
  cbn [mbind outcome_bind]. pose proof (val_bound w Hww) as Hb. rewrite Hlw' in Hb.
  pose proof (Bpow_pos (length x)). pose proof (val_bound x ltac:(auto with words)) as Hbx.
  pose proof (val_bound y ltac:(auto with words)) as Hby.
  destruct (Z.eqb_spec c' 0) as [->|Hc']; cbn [negb].
  - replace (val x - val y) with (val w) by lia. by apply nat_norm_spec.
  - destruct (decide (val x < val y)) as [|Hge]; [done|]. exfalso.
    assert (c' <= -1 \/ 1 <= c') as [?|?] by lia.
    + assert (c' * Bpow (length x) <= -1 * Bpow (length x)) by (apply Z.mul_le_mono_nonneg_r; lia). lia.
    + assert (1 * Bpow (length x) <= c' * Bpow (length x)) by (apply Z.mul_le_mono_nonneg_r; lia). lia.
Qed.

Lemma nat_sub_ge z x y : normal x -> normal y -> val y <= val x ->
  returns (nat_sub z x y) (nat_is (val x - val y)).
Proof.
  intros Hx Hy Hle. pose proof (nat_sub_spec z x y Hx Hy) as Hs.
  destruct (nat_sub z x y) as [r| |]; [by go_ret|lia|done].
Qed.

Lemma nat_mulAddWW_spec z x y r : normal x -> word y -> word r ->
  returns (nat_mulAddWW z x y r) (nat_is (val x * y + r)).
Proof.
  intros Hx Hy Hr. unfold nat_mulAddWW.
  destruct (Nat.eqb_spec (length x) 0) as [Hx0|Hx0]; cbn [orb].
  { rewrite (nil_length_inv x) by done. by apply nat_setWord_spec. }
  destruct (Z.eqb_spec y 0) as [->|Hy0]; [rewrite Z.mul_0_r; by apply nat_setWord_spec|].
  go_call mulAddVWW_law; [lia|auto with words|done|done|]. intros [c l] (Hll & Hlw & Hc & Hv).
  rewrite firstn_all in Hv.
  rewrite put_0 by (rewrite length_nat_make; lia). cbn [mbind outcome_bind].
  rewrite put_end by (rewrite ?length_drop, ?length_nat_make; simpl; lia). cbn [mbind outcome_bind]. go_ret.
  replace (val x * y + r) with (val (l ++ [c])); [apply nat_norm_spec; auto with words|].
  rewrite val_app, Hll, <- Hv. cbn [val]. ring.
Qed.

End Specs.
