(* ===== verification/BigMul.v ===== *)
(** Package big, file nat.go (src/go/src/pkg/big/nat.go): multiplication.

    [basicMul] is the grade-school product, [karatsuba] the recursive one that
    works in a single buffer of six times the operands' length: the buffer is
    a list of words here too, and the sub-slices the code takes of it
    ([xd], [yd], [p], [r]) are read from and written back to it, so that a
    slice overwritten too early would show.  [nat_mul] combines them, and every
    product is proved equal to the product of the values. *)

From S2P Require Import Prelude BigArith BigNat.

Definition karatsubaThreshold : nat := 32.

Definition max (x y : nat) : nat := if (y <? x)%nat then x else y.

(** [for n > karatsubaThreshold { n >>= 1; i++ }; return n << i]. *)
Definition karatsubaLen (n : nat) : outcome nat :=
  loop (S n) (fun '(n, i) =>
    if (karatsubaThreshold <? n)%nat then Done (inl (Nat.div2 n, S i))
    else Done (inr (Nat.shiftl n i))) (n, O).

Section Multiplication.
Context `{Arith}.

(** [z[len(x)+i] = addMulVVW(z[i:i+len(x)], x, d)]. *)
Definition basicMul_row (x : list Z) (i : nat) (d : Z) (z : list Z) : outcome (list Z) :=
  if d =? 0 then Done z else
  w ← sub_slice z i (i + length x);
  '(c, l) ← addMulVVW w x d;
  z ← put z i l;
  put z (length x + i) [c].

(** [for i, d := range y]. *)
Fixpoint basicMul_rows (x y : list Z) (i : nat) (z : list Z) : outcome (list Z) :=
  match y with
  | [] => Done z
  | d :: y => z ← basicMul_row x i d z; basicMul_rows x y (S i) z
  end.

Definition basicMul (z x y : list Z) : outcome (list Z) :=
  w ← sub_slice z 0 (length x + length y);
  z ← put z 0 (nat_clear w);
  basicMul_rows x y 0 z.

(** In-place [z[0:n+n>>1] += x[0:n]], dropping the last carry. *)
Definition karatsubaAdd (z x : list Z) (n : nat) : outcome (list Z) :=
  '(c, l) ← addVV n z x;
  z ← put z 0 l;
  if negb (c =? 0) then
    w ← sub_slice z n (n + Nat.div2 n);
    '(_, l) ← addVW (length w) (drop n z) c;
    put z n l
  else Done z.

Definition karatsubaSub (z x : list Z) (n : nat) : outcome (list Z) :=
  '(c, l) ← subVV n z x;
  z ← put z 0 l;
  if negb (c =? 0) then
    w ← sub_slice z n (n + Nat.div2 n);
    '(_, l) ← subVW (length w) (drop n z) c;
    put z n l
  else Done z.

(** [xd := z[i:i+len(a)]; if subVV(xd, a, b) != 0 { s = -s; subVV(xd, b, a) }]:
    the buffer with [|a - b|] at [i], and the sign. *)
Definition karatsubaDiff (z : list Z) (i : nat) (a b : list Z) (s : Z) : outcome (list Z * Z) :=
  xd ← sub_slice z i (i + length a);
  '(c, l) ← subVV (length xd) a b;
  z ← put z i l;
  if negb (c =? 0) then
    '(_, l) ← subVV (length xd) b a;
    z ← put z i l;
    Done (z, - s)
  else Done (z, s).

(** [copy(r, z)] for [r := z[i:]]: the words move as if through a copy. *)
Definition copy_up (z : list Z) (i : nat) : outcome (list Z) :=
  if (i <=? length z)%nat then Done (take i z ++ take (length z - i) z) else Panic.

(** Save [z2:z0] in the upper part of [z] and add up the partial products. *)
Definition karatsuba_sum (z : list Z) (n : nat) (s : Z) : outcome (list Z) :=
  let n2 := Nat.div2 n in
  z ← copy_up z (4 * n);
  z ← on_tail z n2 (fun w => karatsubaAdd w (drop (4 * n) z) n);
  z ← on_tail z n2 (fun w => karatsubaAdd w (drop n (drop (4 * n) z)) n);
  if 0 <? s
  then on_tail z n2 (fun w => karatsubaAdd w (drop (3 * n) z) n)
  else on_tail z n2 (fun w => karatsubaSub w (drop (3 * n) z) n).

Fixpoint karatsuba (fuel : nat) (z x y : list Z) : outcome (list Z) :=
  match fuel with
  | O => OutOfFuel
  | S fuel =>
      let n := length y in
      if Nat.odd n || (n <? karatsubaThreshold)%nat || (n <? 2)%nat then basicMul z x y else
      let n2 := Nat.div2 n in
      let x1 := drop n2 x in let x0 := take n2 x in
      let y1 := drop n2 y in let y0 := take n2 y in
      z ← karatsuba fuel z x0 y0;
      z ← on_tail z n (fun w => karatsuba fuel w x1 y1);
      '(z, s) ← karatsubaDiff z (2 * n) x1 x0 1;
      '(z, s) ← karatsubaDiff z (2 * n + n2) y0 y1 s;
      xd ← sub_slice z (2 * n) (2 * n + n2);
      yd ← sub_slice z (2 * n + n2) (3 * n);
      z ← on_tail z (3 * n) (fun p => karatsuba fuel p xd yd);
      karatsuba_sum z n s
  end.

(** [z += x << (_W*i)], in place. *)
Definition addAt (z x : list Z) (i : nat) : outcome (list Z) :=
  let n := length x in
  if (n =? 0)%nat then Done z else
  w ← sub_slice z i (i + n);
  '(c, l) ← addVV (length w) (drop i z) x;
  z ← put z i l;
  let j := (i + n)%nat in
  if negb (c =? 0) && (j <? length z)%nat then
    '(_, l) ← addVW (length z - j) (drop j z) c;
    put z j l
  else Done z.

(** [copy(z[i:], t); z[i+len(t):].clear()]. *)
Definition copy_clear (z : list Z) (i : nat) (t : list Z) : outcome (list Z) :=
  w ← sub_slice z i (length z);
  z ← put z i (take (length w) t);
  w ← sub_slice z (i + length t) (length z);
  put z (i + length t) (nat_clear w).

(** Add the terms with [x1 := x[k:]] and [y1 := y[k:]] to [z]; [mul] is the
    recursive call. *)
Definition nat_mul_rest (mul : list Z -> list Z -> list Z -> outcome (list Z))
    (z x y x0 y0 : list Z) (k : nat) : outcome (list Z) :=
  let x1 := drop k x in
  let y1 := drop k y in
  t ← mul [] x1 y1;
  z ← copy_clear z (2 * k) t;
  t ← mul t x1 (nat_norm y0);
  z ← addAt z t k;
  t ← mul t (nat_norm x0) y1;
  addAt z t k.

Fixpoint nat_mul_rec (fuel : nat) (z x y : list Z) : outcome (list Z) :=
  match fuel with
  | O => OutOfFuel
  | S fuel =>
      let m := length x in
      let n := length y in
      if (m <? n)%nat then nat_mul_rec fuel z y x else
      if (m =? 0)%nat || (n =? 0)%nat then Done (nat_make z 0) else
      if (n =? 1)%nat then y0 ← of_option (y !! 0%nat); nat_mulAddWW z x y0 0 else
      if (n <? karatsubaThreshold)%nat || (n <? 2)%nat then
        z ← basicMul (nat_make z (m + n)) x y;
        Done (nat_norm z)
      else
      k ← karatsubaLen n;
      x0 ← sub_slice x 0 k;
      y0 ← sub_slice y 0 k;
      z ← karatsuba (S k) (nat_make z (max (6 * k) (m + n))) x0 y0;
      z ← sub_slice z 0 (m + n);
      if (k <? n)%nat || negb (m =? n)%nat then
        z ← nat_mul_rest (nat_mul_rec fuel) z x y x0 y0 k;
        Done (nat_norm z)
      else Done (nat_norm z)
  end.

(** Every recursive call has shorter operands in total, or swaps them. *)
Definition nat_mul (z x y : list Z) : outcome (list Z) :=
  nat_mul_rec (2 * (length x + length y) + 2) z x y.

(** [a] and [b] are [uint64]; the recursion halves the range. *)
Fixpoint nat_mulRange_rec (fuel : nat) (z : list Z) (a b : Z) : outcome (list Z) :=
  match fuel with
  | O => OutOfFuel
  | S fuel =>
      if a =? 0 then nat_setUint64 z 0 else
      if b <? a then nat_setUint64 z 1 else
      if a =? b then nat_setUint64 z a else
      if uint64 (a + 1) =? b then
        x ← nat_setUint64 [] a; y ← nat_setUint64 [] b; nat_mul z x y
      else
      let m := uint64 (a + b) / 2 in
      x ← nat_mulRange_rec fuel [] a m;
      y ← nat_mulRange_rec fuel [] (uint64 (m + 1)) b;
      nat_mul z x y
  end.

Definition nat_mulRange (z : list Z) (a b : Z) : outcome (list Z) := nat_mulRange_rec 65 z a b.

End Multiplication.

(** * Grade-school multiplication *)

Section Specs.
Context `{HA : Arith} {HL : ArithLaws HA}.

Lemma sub_slice_app a w r i j : length a = i -> (i + length w)%nat = j ->
  sub_slice (a ++ w ++ r) i j = Done w.
Proof.
  intros <- <-. rewrite sub_slice_done by (rewrite ?length_app; lia).
  rewrite drop_app_length. replace (_ + _ - _)%nat with (length w) by lia. by rewrite take_app_length.
Qed.

Lemma put_mid a w r i l : length a = i -> length w = length l ->
  put (a ++ w ++ r) i l = Done (a ++ l ++ r).
Proof.
  intros Hi Hl. rewrite put_app by (rewrite ?length_app; lia). by rewrite <- Hl, drop_app_length.
Qed.

Lemma put_mid0 w r l : length w = length l -> put (w ++ r) 0 l = Done (l ++ r).
Proof. intros Hl. exact (put_mid [] w r 0 l eq_refl Hl). Qed.

Lemma basicMul_row_spec x i d a r :
  words x -> word d -> words a -> length a = (length x + i)%nat ->
  returns (basicMul_row x i d (a ++ 0 :: r)) (fun z => exists a',
    z = a' ++ r /\ length a' = S (length a) /\ words a' /\ val a' = val a + Bpow i * (val x * d)).
Proof.
  intros Hx Hd Ha Hla. unfold basicMul_row. destruct (Z.eqb_spec d 0) as [->|Hd0].
  - go_ret. exists (a ++ [0]). rewrite <- app_assoc, length_app, val_app. cbn.
    split_and!; auto with words; lia.
  - rewrite <- (take_drop i a), <- app_assoc.
    assert (Hlo : length (take i a) = i) by (apply length_take_le; lia).
    assert (Hhi : length (drop i a) = length x) by (rewrite length_drop; lia).
    rewrite (sub_slice_app (take i a) (drop i a)) by lia. cbn [mbind outcome_bind].
    go_call addMulVVW_law; [lia|auto with words..|]. intros [c l] (Hl & Hlw & Hc & Hv).
    rewrite firstn_all2, Hhi in Hv by lia.
    rewrite put_mid by lia. cbn [mbind outcome_bind].
    rewrite app_assoc, (put_mid _ [0] r) by (rewrite ?length_app; simpl; lia). go_ret.
    exists ((take i a ++ l) ++ [c]). rewrite <- !app_assoc. split_and!; auto with words.
    + rewrite !length_app. simpl. lia.
    + rewrite take_drop, !val_app, Hlo, Hl, Hhi. cbn [val].
      rewrite (val_take_drop i a) by lia.
      transitivity (val (take i a) + Bpow i * (val l + c * Bpow (length x))); [ring|rewrite Hv; ring].
Qed.

Lemma basicMul_rows_spec x y : words x -> words y -> forall i a r,
  words a -> length a = (length x + i)%nat ->
  returns (basicMul_rows x y i (a ++ replicate (length y) 0 ++ r)) (fun z => exists a',
    z = a' ++ r /\ length a' = (length a + length y)%nat /\ words a' /\
    val a' = val a + Bpow i * (val x * val y)).
Proof.
  intros Hx. induction 1 as [|d y Hd Hy IH]; intros i a r Ha Hla; cbn [basicMul_rows replicate length].
  - go_ret. exists a. cbn. split_and!; auto; lia.
  - go_call basicMul_row_spec; [done..|]. intros z (a1 & -> & Hl1 & Ha1 & Hv1).
    go_mono (IH (S i) a1 r); [done|lia|]. intros z' (a' & -> & Hl' & Ha' & Hv').
    exists a'. split_and!; auto; [lia|]. rewrite Hv', Hv1, Bpow_S. cbn [val]. ring.
Qed.

Lemma basicMul_spec z x y : words x -> words y -> (length x + length y <= length z)%nat ->
  returns (basicMul z x y) (fun z' => exists p,
    z' = p ++ drop (length x + length y) z /\ length p = (length x + length y)%nat /\
    words p /\ val p = val x * val y).
Proof.
  intros Hx Hy Hl. unfold basicMul. rewrite sub_slice_done by lia. cbn [mbind outcome_bind].
  rewrite Nat.sub_0_r, drop_0, nat_clear_zero, length_take_le by lia.
  rewrite put_0 by (rewrite length_replicate; lia). cbn [mbind outcome_bind].
  rewrite length_replicate, replicate_add, <- app_assoc.
  go_mono (basicMul_rows_spec x y Hx Hy 0 (replicate (length x) 0)); [auto with words| |].
  - rewrite length_replicate. lia.
  - intros z' (p & -> & Hlp & Hp & Hv). rewrite length_replicate in Hlp.
    exists p. split_and!; auto. rewrite Hv, val_replicate0, Bpow_0. ring.
Qed.

(** * Karatsuba multiplication *)

(** A list cut at two lengths. *)
Lemma cut2 (z : list Z) n m : (n + m <= length z)%nat -> words z ->
  exists a b r, z = a ++ b ++ r /\ length a = n /\ length b = m /\ words a /\ words b /\ words r.
Proof.
  intros Hl Hz. exists (take n z), (take m (drop n z)), (drop m (drop n z)).
  rewrite !take_drop, !length_take_le by (rewrite ?length_drop; lia).
  split_and!; auto with words.
Qed.

Lemma take_app_exact {A} (l k : list A) n : length l = n -> take n (l ++ k) = l.
Proof. intros <-. apply take_app_length. Qed.

Lemma drop_app_exact {A} (l k : list A) n : length l = n -> drop n (l ++ k) = k.
Proof. intros <-. apply drop_app_length. Qed.

Lemma karatsubaAdd_spec a b r x n :
  words a -> words b -> words r -> words x -> length a = n -> length b = Nat.div2 n -> (n <= length x)%nat ->
  returns (karatsubaAdd (a ++ b ++ r) x n) (fun z => exists l k,
    z = l ++ r /\ length l = (n + Nat.div2 n)%nat /\ words l /\
    val l = val (a ++ b) + val (take n x) + k * Bpow (n + Nat.div2 n)).
Proof.
  intros Ha Hb Hr Hx Hla Hlb Hlx. unfold karatsubaAdd.
  go_call addVV_law; [rewrite length_app; lia|lia|auto with words..|].
  intros [c l] (Hl & Hlw & Hc & Hv). rewrite (take_app_exact a) in Hv by done.
  rewrite (put_mid0 a) by lia. cbn [mbind outcome_bind].
  destruct (Z.eqb_spec c 0) as [->|Hc0]; cbn [negb].
  - go_ret. exists (l ++ b), 0. rewrite !val_app, length_app, <- app_assoc, Hl, Hla.
    split_and!; auto with words; lia.
  - rewrite (sub_slice_app l b), (drop_app_exact l) by lia. cbn [mbind outcome_bind].
    assert (word c) by (pose proof _B_eq; unfold word; lia).
    go_call addVW_law; [rewrite length_app; lia|auto with words|done|].
    intros [c2 l2] (Hl2 & Hlw2 & Hc2 & Hv2). rewrite (take_app_exact b) in Hv2 by done.
    rewrite put_mid by lia. go_ret. exists (l ++ l2), (- c2).
    rewrite !val_app, length_app, <- app_assoc, Hl, Hla, Bpow_add, <- Hlb.
    split_and!; [done|lia|auto with words|].
    replace (val l2) with (val b + c - c2 * Bpow (length b)) by lia.
    replace (val l) with (val a + val (take n x) - c * Bpow n) by lia. ring.
Qed.

Lemma karatsubaSub_spec a b r x n :
  words a -> words b -> words r -> words x -> length a = n -> length b = Nat.div2 n -> (n <= length x)%nat ->
  returns (karatsubaSub (a ++ b ++ r) x n) (fun z => exists l k,
    z = l ++ r /\ length l = (n + Nat.div2 n)%nat /\ words l /\
    val l = val (a ++ b) - val (take n x) + k * Bpow (n + Nat.div2 n)).
Proof.
  intros Ha Hb Hr Hx Hla Hlb Hlx. unfold karatsubaSub.
  go_call subVV_law; [rewrite length_app; lia|lia|auto with words..|].
  intros [c l] (Hl & Hlw & Hc & Hv). rewrite (take_app_exact a) in Hv by done.
  rewrite (put_mid0 a) by lia. cbn [mbind outcome_bind].
  destruct (Z.eqb_spec c 0) as [->|Hc0]; cbn [negb].
  - go_ret. exists (l ++ b), 0. rewrite !val_app, length_app, <- app_assoc, Hl, Hla.
    split_and!; auto with words; lia.
  - rewrite (sub_slice_app l b), (drop_app_exact l) by lia. cbn [mbind outcome_bind].
    assert (word c) by (pose proof _B_eq; unfold word; lia).
    go_call subVW_law; [rewrite length_app; lia|auto with words|done|].
    intros [c2 l2] (Hl2 & Hlw2 & Hc2 & Hv2). rewrite (take_app_exact b) in Hv2 by done.
    rewrite put_mid by lia. go_ret. exists (l ++ l2), c2.
    rewrite !val_app, length_app, <- app_assoc, Hl, Hla, Bpow_add, <- Hlb.
    split_and!; [done|lia|auto with words|].
    replace (val l2) with (val b - c + c2 * Bpow (length b)) by lia.
    replace (val l) with (val a - val (take n x) + c * Bpow n) by lia. ring.
Qed.

(** One accumulation into the middle of the product [A], modulo its size. *)
Lemma karatsuba_acc (f : list Z -> list Z -> nat -> outcome (list Z)) (e : Z) A T x h :
  (forall a b r, words a -> words b -> words r -> length a = (2 * h)%nat -> length b = Nat.div2 (2 * h) ->
     returns (f (a ++ b ++ r) x (2 * h)%nat) (fun z => exists l k,
       z = l ++ r /\ length l = (2 * h + Nat.div2 (2 * h))%nat /\ words l /\
       val l = val (a ++ b) + e * val (take (2 * h) x) + k * Bpow (2 * h + Nat.div2 (2 * h)))) ->
  words A -> words T -> length A = (4 * h)%nat ->
  returns (on_tail (A ++ T) h (fun w => f w x (2 * h)%nat)) (fun z => exists A' k,
    z = A' ++ T /\ length A' = (4 * h)%nat /\ words A' /\
    val A' = val A + Bpow h * (e * val (take (2 * h) x)) + k * Bpow (4 * h)).
Proof.
  intros Hf HwA HT HlA. rewrite Nat.div2_double in Hf.
  destruct (cut2 A h (2 * h)) as (lo & a & b & -> & Hlo & Hla & Hwlo & Hwa & Hwb); [lia|done|].
  rewrite !length_app in HlA. apply on_tail_done; [rewrite !length_app; lia|].
  rewrite <- !app_assoc, (drop_app_exact lo), (take_app_exact lo) by done.
  go_mono (Hf a b T); [auto with words; lia..|].
  intros z (l & k & -> & Hl & Hlw & Hv). exists (lo ++ l), k. rewrite <- app_assoc.
  split_and!; auto with words; [rewrite length_app; lia|].
  rewrite (val_app lo l), (val_app lo (a ++ b)), Hlo, Hv.
  replace (4 * h)%nat with (h + (2 * h + h))%nat by lia. rewrite (Bpow_add h). ring.
Qed.

Lemma karatsubaDiff_spec p w r i a b s :
  words a -> words b -> length p = i -> length w = length a -> length b = length a ->
  returns (karatsubaDiff (p ++ w ++ r) i a b s) (fun '(z, s') => exists d,
    z = p ++ d ++ r /\ length d = length a /\ words d /\ (s' = s \/ s' = - s) /\
    s' * val d = s * (val a - val b)).
Proof.
  intros Ha Hb Hp Hw Hab. unfold karatsubaDiff. rewrite (sub_slice_app p w) by lia. cbn [mbind outcome_bind].
  go_call subVV_law; [lia..|done|done|]. intros [c l] (Hl & Hlw & Hc & Hv).
  rewrite !firstn_all2 in Hv by lia. rewrite put_mid by lia. cbn [mbind outcome_bind].
  pose proof (val_bound a Ha). pose proof (val_bound b Hb). pose proof (val_bound l Hlw) as Hbl.
  destruct (Z.eqb_spec c 0) as [->|Hc0]; cbn [negb].
  - go_ret. exists l. split_and!; auto; [lia|]. f_equal. lia.
  - assert (c = 1) as -> by lia.
    go_call subVV_law; [lia..|done|done|]. intros [c2 l2] (Hl2 & Hlw2 & Hc2 & Hv2).
    rewrite !firstn_all2 in Hv2 by lia. rewrite put_mid by lia. cbn [mbind outcome_bind]. go_ret.
    exists l2. split_and!; auto; [lia|]. pose proof (val_bound l2 Hlw2) as Hb2.
    rewrite Hl2 in Hb2. rewrite Hl in Hbl. rewrite Hw in *. rewrite Hab in *.
    assert (c2 = 0) as ->; [|rewrite Z.mul_opp_l, <- Z.mul_opp_r; f_equal; lia].
    destruct (decide (c2 = 1)) as [->|]; lia.
Qed.

(** The identity the algorithm rests on; [b] is the base of the half words. *)
Lemma karatsuba_identity x1 x0 y1 y0 b s1 s2 d1 d2 :
  (s1 = 1 \/ s1 = - (1)) -> s1 * d1 = 1 * (x1 - x0) -> s2 * d2 = s1 * (y0 - y1) ->
  (x0 + b * x1) * (y0 + b * y1) =
  x0 * y0 + b * b * (x1 * y1) + b * (x0 * y0) + b * (x1 * y1) + b * (s2 * (d1 * d2)).
Proof.
  intros Hs Hd1 Hd2.
  assert (s2 * (d1 * d2) = (x1 - x0) * (y0 - y1)) as ->; [|ring].
  replace (s2 * (d1 * d2)) with (d1 * (s2 * d2)) by ring. rewrite Hd2.
  replace (d1 * (s1 * (y0 - y1))) with (s1 * d1 * (y0 - y1)) by ring. rewrite Hd1. ring.
Qed.

(** Equal modulo [M] and both below [M]. *)
Lemma eq_mod_small a b k M : a = b + k * M -> 0 <= a < M -> 0 <= b < M -> a = b.
Proof.
  intros Ha Hb Hc. destruct (decide (k = 0)) as [->|]; [lia|].
  assert (k <= -1 \/ 1 <= k) as [|] by lia; nia.
Qed.

(** Copying the product up leaves room for it: the buffer has [12*h] words. *)
Lemma copy_up_spec p d q h : length p = (4 * h)%nat -> length d = (4 * h)%nat -> (4 * h <= length q)%nat ->
  words p -> words d -> words q ->
  exists rest, words rest /\ length rest = (length q - 4 * h)%nat /\ copy_up (p ++ d ++ q) (8 * h) = Done (p ++ d ++ p ++ rest).
Proof.
  intros Hp Hd Hq Hwp Hwd Hwq. unfold copy_up. rewrite !length_app, Hp, Hd.
  rewrite (proj2 (Nat.leb_le _ _)) by lia.
  replace (4 * h + (4 * h + length q) - 8 * h)%nat with (length p + (length q - 4 * h))%nat by lia.
  exists (take (length q - 4 * h) (d ++ q)).
  split_and!; [auto with words|rewrite length_take, length_app; lia|].
  rewrite take_app_add. rewrite (app_assoc p d q) at 1.
  rewrite (take_app_exact (p ++ d)) by (rewrite length_app; lia). by rewrite <- app_assoc.
Qed.

Definition kara_spec (z x y : list Z) (m : outcome (list Z)) : Prop :=
  returns m (fun z' => exists p r, z' = p ++ r /\ length p = (2 * length y)%nat /\
    length z' = length z /\ words p /\ words r /\ val p = val x * val y).

Lemma basicMul_kara z x y : words z -> words x -> words y -> length x = length y ->
  (2 * length y <= length z)%nat -> kara_spec z x y (basicMul z x y).
Proof.
  intros Hz Hx Hy Hl Hlz. unfold kara_spec. go_mono basicMul_spec; [done|done|lia|].
  intros z' (p & -> & Hlp & Hp & Hv). exists p, (drop (length x + length y) z).
  rewrite length_app, length_drop. split_and!; auto with words; lia.
Qed.

Lemma half_lists (x : list Z) h : length x = (2 * h)%nat -> words x ->
  val x = val (take h x) + Bpow h * val (drop h x) /\
  length (take h x) = h /\ length (drop h x) = h /\ words (take h x) /\ words (drop h x).
Proof.
  intros Hl Hx. rewrite length_take_le, length_drop by lia. rewrite <- (val_take_drop h x) by lia.
  split_and!; auto with words; lia.
Qed.

Lemma karatsuba_sum_spec p0 p1 d p2 q h s :
  words p0 -> words p1 -> words d -> words p2 -> words q -> s = 1 \/ s = -1 ->
  length p0 = (2 * h)%nat -> length p1 = (2 * h)%nat -> length d = (2 * h)%nat ->
  length p2 = (2 * h)%nat -> (4 * h <= length q)%nat ->
  returns (karatsuba_sum (p0 ++ p1 ++ d ++ p2 ++ q) (2 * h) s) (fun z' => exists A r k,
    z' = A ++ r /\ length A = (4 * h)%nat /\ length r = (4 * h + length q)%nat /\ words A /\ words r /\
    val A = val p0 + Bpow h * Bpow h * val p1 + Bpow h * val p0 + Bpow h * val p1
            + Bpow h * (s * val p2) + k * Bpow (4 * h)).
Proof.
  intros Hp0 Hp1 Hd Hp2 Hq Hs H0 H1 H2 H3 H4. unfold karatsuba_sum. rewrite Nat.div2_double.
  destruct (copy_up_spec (p0 ++ p1) (d ++ p2) q h) as (rest & Hrest & Hlrest & Hc);
    [rewrite length_app; lia|rewrite length_app; lia|lia|auto with words|auto with words|done|].
  replace (4 * (2 * h))%nat with (8 * h)%nat by lia. replace (3 * (2 * h))%nat with (6 * h)%nat by lia.
  rewrite (app_assoc p0 p1), (app_assoc d p2), Hc. cbn [mbind outcome_bind].
  set (T := (d ++ p2) ++ (p0 ++ p1) ++ rest).
  assert (HT : words T) by (unfold T; auto with words).
  assert (HlT : length T = (4 * h + length q)%nat) by (unfold T; rewrite !length_app; lia).
  assert (HR : forall A, length A = (4 * h)%nat -> drop (8 * h) (A ++ T) = (p0 ++ p1) ++ rest /\
    drop (6 * h) (A ++ T) = p2 ++ (p0 ++ p1) ++ rest).
  { intros A HlA. unfold T. split.
    - rewrite (app_assoc A). apply drop_app_exact. rewrite !length_app. lia.
    - rewrite <- (app_assoc d), (app_assoc A). apply drop_app_exact. rewrite !length_app. lia. }
  assert (HA0 : length (p0 ++ p1) = (4 * h)%nat) by (rewrite length_app; lia).
  rewrite (proj1 (HR _ HA0)).
  go_call (karatsuba_acc karatsubaAdd 1); [|auto with words..|].
  { intros. rewrite Z.mul_1_l. apply karatsubaAdd_spec; auto with words. rewrite !length_app. lia. }
  intros z1 (A1 & k1 & -> & HA1 & HwA1 & Hv1). rewrite (proj1 (HR _ HA1)).
  go_call (karatsuba_acc karatsubaAdd 1); [|auto with words..|].
  { intros. rewrite Z.mul_1_l. apply karatsubaAdd_spec; auto with words. rewrite length_drop, !length_app. lia. }
  intros z2 (A2 & k2 & -> & HA2 & HwA2 & Hv2). rewrite (proj2 (HR _ HA2)).
  rewrite <- (app_assoc p0), (take_app_exact p0) in Hv1 by done.
  rewrite <- (app_assoc p0), (drop_app_exact p0), (take_app_exact p1) in Hv2 by done.
  rewrite val_app, H0 in Hv1. replace (2 * h)%nat with (h + h)%nat in Hv1 by lia. rewrite Bpow_add in Hv1.
  destruct Hs as [-> | ->]; cbn [Z.ltb Z.compare].
  - go_mono (karatsuba_acc karatsubaAdd 1); [|auto with words..|].
    { intros. rewrite Z.mul_1_l. apply karatsubaAdd_spec; auto with words. rewrite !length_app. lia. }
    intros z3 (A3 & k3 & -> & HA3 & HwA3 & Hv3). rewrite (take_app_exact p2) in Hv3 by done.
    exists A3, T, (k1 + k2 + k3). split_and!; auto. rewrite Hv3, Hv2, Hv1. ring.
  - go_mono (karatsuba_acc karatsubaSub (-1)); [|auto with words..|].
    { intros a b r Ha Hb Hr Hla Hlb. go_mono (karatsubaSub_spec a b r); [auto with words..| |].
      { rewrite !length_app. lia. }
      intros z (l & k & ? & ? & ? & ?). exists l, k. split_and!; auto; lia. }
    intros z3 (A3 & k3 & -> & HA3 & HwA3 & Hv3). rewrite (take_app_exact p2) in Hv3 by done.
    exists A3, T, (k1 + k2 + k3). split_and!; auto. rewrite Hv3, Hv2, Hv1. ring.
Qed.

Lemma on_tail_app p r i f P : length p = i -> returns (f r) P ->
  returns (on_tail (p ++ r) i f) (fun z => exists w, z = p ++ w /\ P w).
Proof.
  intros Hi Hf. apply on_tail_done; [rewrite length_app; lia|].
  rewrite drop_app_exact, take_app_exact by done. eapply returns_mono; [exact Hf|]. eauto.
Qed.

Lemma karatsuba_value x y x1 x0 y1 y0 p0 p1 p2 d1 d2 s1 s2 A k h :
  words x -> words y -> words A -> length x = (2 * h)%nat -> length y = (2 * h)%nat -> length A = (4 * h)%nat ->
  val x = x0 + Bpow h * x1 -> val y = y0 + Bpow h * y1 ->
  p0 = x0 * y0 -> p1 = x1 * y1 -> p2 = d1 * d2 ->
  (s1 = 1 \/ s1 = - (1)) -> s1 * d1 = 1 * (x1 - x0) -> s2 * d2 = s1 * (y0 - y1) ->
  val A = p0 + Bpow h * Bpow h * p1 + Bpow h * p0 + Bpow h * p1 + Bpow h * (s2 * p2) + k * Bpow (4 * h) ->
  val A = val x * val y.
Proof.
  intros Hx Hy HwA Hlx Hly HlA Ex Ey -> -> -> Hs Hd1 Hd2 Ev.
  pose proof (val_bound A HwA) as HbA. pose proof (val_bound x Hx) as Hbx. pose proof (val_bound y Hy) as Hby.
  rewrite HlA in HbA. rewrite Hlx in Hbx. rewrite Hly in Hby.
  apply (eq_mod_small _ _ k (Bpow (4 * h))); [|done|].
  - rewrite Ev, Ex, Ey, (karatsuba_identity x1 x0 y1 y0 (Bpow h) s1 s2 d1 d2) by done. ring.
  - replace (4 * h)%nat with (2 * h + 2 * h)%nat by lia. rewrite Bpow_add.
    pose proof (mul_bound (val x) (val y) (Bpow (2 * h) - 1) (Bpow (2 * h) - 1) ltac:(lia) ltac:(lia)). lia.
Qed.

Lemma karatsuba_spec fuel : forall z x y,
  (length y < fuel)%nat -> length x = length y -> (6 * length y <= length z)%nat ->
  words z -> words x -> words y -> kara_spec z x y (karatsuba fuel z x y).
Proof.
  induction fuel as [|fuel IH]; intros z x y Hf Hlx Hlz Hz Hx Hy; [lia|]. cbn [karatsuba].
  destruct (_ || (length y <? 2)%nat) eqn:E; [apply basicMul_kara; auto; lia|].
  apply orb_false_elim in E as [[Hodd _]%orb_false_elim E%Nat.ltb_ge].
  assert (exists h, length y = (2 * h)%nat) as [h Hh].
  { exists (Nat.div2 (length y)). rewrite <- Nat.double_twice. apply Nat.Even_double.
    apply Nat.even_spec. by rewrite <- Nat.negb_odd, Hodd. }
  unfold kara_spec. rewrite Hh, Nat.div2_double.
  destruct (half_lists x h) as (Ex & Hx0 & Hx1 & Hwx0 & Hwx1); [lia|done|].
  destruct (half_lists y h) as (Ey & Hy0 & Hy1 & Hwy0 & Hwy1); [lia|done|].
  set (x0 := take h x) in *. set (x1 := drop h x) in *. set (y0 := take h y) in *. set (y1 := drop h y) in *.
  go_call (IH z x0 y0); [lia..|done|done|done|]. intros z1 (p0 & r0 & -> & Hp0 & Hl0 & Hwp0 & Hwr0 & Hv0).
  rewrite length_app in Hl0. rewrite Hy0 in Hp0.
  go_call on_tail_app; [done|apply (IH r0 x1 y1); auto; lia|].
  intros z1 (w & -> & p1 & r1 & -> & Hp1 & Hl1 & Hwp1 & Hwr1 & Hv1).
  rewrite length_app in Hl1. rewrite Hy1 in Hp1.
  destruct (cut2 r1 h h) as (w1 & w2 & q & -> & Hw1 & Hw2 & Hww1 & Hww2 & Hwq); [lia|done|].
  rewrite !length_app in Hl1.
  rewrite (app_assoc p0 p1). go_call karatsubaDiff_spec; [done|done|rewrite length_app; lia|lia|lia|].
  intros [z3 s1] (d1 & -> & Hd1 & Hwd1 & Hs1 & Hvd1).
  rewrite (app_assoc _ d1). go_call karatsubaDiff_spec; [done|done|rewrite !length_app; lia|lia|lia|].
  intros [z4 s2] (d2 & -> & Hd2 & Hwd2 & Hs2 & Hvd2).
  rewrite <- (app_assoc _ d1), (sub_slice_app (p0 ++ p1) d1 (d2 ++ q) (2 * (2 * h)) (2 * (2 * h) + h))
    by (rewrite ?length_app; lia). cbn [mbind outcome_bind].
  rewrite (app_assoc _ d1), (sub_slice_app _ d2) by (rewrite ?length_app; lia). cbn [mbind outcome_bind].
  rewrite (app_assoc _ d2). go_call on_tail_app; [rewrite !length_app; lia|apply (IH q d1 d2); auto; lia|].
  intros z5 (w & -> & p2 & r2 & -> & Hp2 & Hl2 & Hwp2 & Hwr2 & Hv2). rewrite length_app in Hl2.
  replace ((((p0 ++ p1) ++ d1) ++ d2) ++ p2 ++ r2) with (p0 ++ p1 ++ (d1 ++ d2) ++ p2 ++ r2)
    by by rewrite <- !app_assoc.
  go_mono karatsuba_sum_spec; [auto with words..|lia|lia|lia|rewrite length_app; lia|lia|lia|].
  intros z6 (A & r & k & -> & HlA & Hlr & HwA & Hwr & HvA). exists A, r.
  rewrite length_app. split_and!; [done|lia|lia|done|done|].
  eapply (karatsuba_value x y (val x1) (val x0) (val y1) (val y0)); eauto; lia.
Qed.

(** * General multiplication *)

Lemma karatsubaLen_spec n : (1 <= n)%nat -> returns (karatsubaLen n) (fun k => (1 <= k <= n)%nat).
Proof.
  intros Hn. unfold karatsubaLen.
  apply (loop_returns (fun '(m, i) => (1 <= m /\ m * 2 ^ i <= n)%nat) (fun '(m, _) => m)); [|simpl; lia|lia].
  intros [m i] [Hm Hle]. unfold karatsubaThreshold. destruct (Nat.ltb_spec 32 m) as [Hlt|Hge]; go_ret.
  - pose proof (Nat.div2_odd m) as Hd. pose proof (Nat.b2n_le_1 (Nat.odd m)).
    rewrite Nat.pow_succ_r'. nia.
  - rewrite Nat.shiftl_mul_pow2. pose proof (Nat.pow_nonzero 2 i). nia.
Qed.

Lemma words_nat_clear z : words (nat_clear z).
Proof. rewrite nat_clear_zero. auto with words. Qed.

Lemma copy_clear_spec p w i t : length p = i -> (length t <= length w)%nat ->
  copy_clear (p ++ w) i t = Done (p ++ t ++ replicate (length w - length t) 0).
Proof.
  intros Hp Ht. unfold copy_clear. rewrite sub_slice_done by (rewrite length_app; lia).
  cbn [mbind outcome_bind]. rewrite drop_app_exact by done.
  rewrite (firstn_all2 t) by (rewrite length_take; rewrite length_app; lia).
  rewrite put_app by done. cbn [mbind outcome_bind].
  rewrite app_assoc, sub_slice_done by (rewrite !length_app, ?length_drop; lia). cbn [mbind outcome_bind].
  rewrite drop_app_exact by (rewrite length_app; lia). rewrite nat_clear_zero.
  rewrite put_end; [|rewrite length_app; lia|]; rewrite ?length_replicate, ?length_take, ?length_app, ?length_drop; [|lia].
  rewrite <- app_assoc. do 4 f_equal. lia.
Qed.

(** If the sum fits, the carry [c] out of the middle words fits in [r]. *)
Lemma addAt_fit a b l r x c P Q R : 0 < P -> 0 < Q -> 0 <= a -> 0 <= l ->
  l + c * Q = b + x -> a + P * (b + Q * r) + P * x < P * (Q * R) -> r + c < R.
Proof.
  intros HP HQ Ha Hl Hv Hlt. apply (Z.mul_lt_mono_pos_l (P * Q)); [lia|].
  replace (P * Q * (r + c)) with (P * (l + c * Q + Q * r) - P * l) by ring. rewrite Hv.
  pose proof (Z.mul_nonneg_nonneg P l). lia.
Qed.

Lemma addAt_spec z x i : words z -> words x -> (i + length x <= length z)%nat ->
  val z + Bpow i * val x < Bpow (length z) ->
  returns (addAt z x i) (fun z' =>
    length z' = length z /\ words z' /\ val z' = val z + Bpow i * val x).
Proof.
  intros Hz Hx Hl Hlt. unfold addAt. destruct (Nat.eqb_spec (length x) 0) as [H0|H0].
  { go_ret. rewrite (nil_length_inv x H0), val_nil. split_and!; auto; lia. }
  destruct (cut2 z i (length x)) as (a & b & r & -> & Ha & Hb & Hwa & Hwb & Hwr); [lia|done|].
  rewrite (sub_slice_app a b), (drop_app_exact a) by lia. cbn [mbind outcome_bind].
  go_call addVV_law; [rewrite length_app; lia|lia|auto with words..|]. intros [c l] (Hll & Hlw & Hc & Hv).
  rewrite (take_app_exact b), firstn_all2 in Hv by lia. rewrite Hb in Hll, Hv.
  rewrite put_mid by lia. cbn [mbind outcome_bind].
  rewrite !length_app, !Bpow_add in Hlt.
  assert (Hfit : val r + c < Bpow (length r) \/ c = 0).
  { destruct (decide (c = 0)); [by right|left]. rewrite !val_app, Ha, Hb in Hlt.
    by apply (addAt_fit (val a) (val b) (val l) (val r) (val x) c (Bpow i) (Bpow (length x)));
      auto using Bpow_pos, val_nonneg. }
  destruct (negb (c =? 0) && _) eqn:E.
  - apply andb_prop in E as [Ec%negb_true_iff%Z.eqb_neq Er%Nat.ltb_lt]. destruct Hfit as [Hfit|]; [|lia].
    rewrite (app_assoc a l), (drop_app_exact (a ++ l)) by (rewrite length_app; lia).
    go_call addVW_law; [rewrite !length_app; lia|auto with words|pose proof _B_eq; unfold word; lia|].
    intros [c2 l2] (Hll2 & Hlw2 & Hc2 & Hv2).
    rewrite !length_app in Hll2, Hv2. replace (_ - _)%nat with (length r) in Hll2, Hv2 by lia.
    rewrite firstn_all in Hv2. pose proof (val_bound r Hwr). pose proof (val_bound l2 Hlw2) as Hb2.
    rewrite put_end by (rewrite ?length_app; lia). go_ret.
    assert (c2 = 0) as ->.
    { rewrite Hll2 in Hb2. unfold word in Hc2. destruct (decide (c2 = 0)); [done|].
      pose proof (Z.mul_le_mono_nonneg_r 1 c2 (Bpow (length r))). lia. }
    rewrite <- app_assoc, !length_app, !val_app, Ha, Hb, Hll. split_and!; [lia|auto with words|].
    replace (val l2) with (val r + c) by lia. replace (val l) with (val b + val x - c * Bpow (length x)) by lia.
    ring.
  - go_ret. assert (c = 0) as ->.
    { destruct Hfit as [Hfit|]; [|done]. destruct (Z.eqb_spec c 0); [done|]. simpl in E.
      apply Nat.ltb_ge in E. rewrite !length_app in E. rewrite (nil_length_inv r) in Hfit by lia.
      cbn [length] in Hfit. rewrite Bpow_0, val_nil in Hfit. lia. }
    rewrite !length_app, !val_app, Ha, Hb, Hll. split_and!; [lia|auto with words|].
    replace (val l) with (val b + val x) by lia. ring.
Qed.

Lemma normal_drop x k : normal x -> normal (drop k x).
Proof.
  intros [Hx Hl]. split; [auto with words|].
  destruct (decide (k < length x)%nat) as [Hk|]; [|by rewrite drop_ge by lia].
  rewrite <- (take_drop k x), last_app in Hl. destruct (list.last (drop k x)) eqn:E; [done|].
  done.
Qed.

(** The product put together from the four partial products. *)
Lemma mul_pieces_bound x y k : words x -> words y -> (k <= length x)%nat -> (k <= length y)%nat ->
  let x0 := val (take k x) in let x1 := val (drop k x) in
  let y0 := val (take k y) in let y1 := val (drop k y) in
  val x * val y = x0 * y0 + Bpow (2 * k) * (x1 * y1) + Bpow k * (x1 * y0) + Bpow k * (x0 * y1) /\
  val x * val y < Bpow (length x + length y) /\
  0 <= x0 * y1 /\ 0 <= x1 * y0 /\ 0 <= x1 * y1 /\ 0 <= x0 * y0.
Proof.
  intros Hx Hy Hkx Hky x0 x1 y0 y1.
  assert (0 <= x0 /\ 0 <= x1 /\ 0 <= y0 /\ 0 <= y1) as (? & ? & ? & ?).
  { split_and!; apply val_nonneg; auto with words. }
  split_and!; try (apply Z.mul_nonneg_nonneg; done).
  - rewrite (val_take_drop k x), (val_take_drop k y) by done.
    replace (2 * k)%nat with (k + k)%nat by lia. rewrite Bpow_add. fold x0 x1 y0 y1. ring.
  - rewrite Bpow_add. pose proof (val_bound x Hx). pose proof (val_bound y Hy).
    pose proof (mul_bound (val x) (val y) (Bpow (length x) - 1) (Bpow (length y) - 1) ltac:(lia) ltac:(lia)). lia.
Qed.

Lemma product_length t a b : normal t -> words a -> words b -> val t = val a * val b ->
  (length t <= length a + length b)%nat.
Proof.
  intros Ht Ha Hb Hv. apply normal_length; [done|]. rewrite Hv.
  apply (mul_pieces_bound a b 0); auto; lia.
Qed.

Lemma nat_mul_rest_spec mul x y k p w :
  (forall t x' y', words t -> normal x' -> normal y' ->
     (length x' + length y' < length x + length y)%nat ->
     returns (mul t x' y') (nat_is (val x' * val y'))) ->
  normal x -> normal y -> (1 <= k)%nat -> (k <= length y)%nat -> (length y <= length x)%nat ->
  words p -> length p = (2 * k)%nat -> length w = (length x + length y - 2 * k)%nat ->
  val p = val (take k x) * val (take k y) ->
  returns (nat_mul_rest mul (p ++ w) x y (take k x) (take k y) k) (fun z =>
    words z /\ val z = val x * val y).
Proof.
  intros Hmul Hx Hy Hk Hky Hyx Hp Hlp Hlw Hvp. unfold nat_mul_rest.
  destruct (mul_pieces_bound x y k) as (Hxy & Hlt & H01 & H10 & H11 & H00); [auto with words; lia..|].
  pose proof (normal_drop x k Hx) as Hx1. pose proof (normal_drop y k Hy) as Hy1.
  destruct (nat_norm_spec (take k x)) as [Hx0 Vx0]; [auto with words|].
  destruct (nat_norm_spec (take k y)) as [Hy0 Vy0]; [auto with words|].
  assert (Hlx0 : (length (nat_norm (take k x)) <= k)%nat).
  { unfold nat_norm. rewrite !length_take. lia. }
  assert (Hly0 : (length (nat_norm (take k y)) <= k)%nat).
  { unfold nat_norm. rewrite !length_take. lia. }
  pose proof (Bpow_pos k). pose proof (Bpow_pos (2 * k)). rewrite Hxy.
  set (x0 := val (take k x)) in *. set (x1 := val (drop k x)) in *.
  set (y0 := val (take k y)) in *. set (y1 := val (drop k y)) in *.
  assert (0 <= Bpow k * (x0 * y1) /\ 0 <= Bpow k * (x1 * y0)) as [? ?] by (split; apply Z.mul_nonneg_nonneg; lia).
  go_call (Hmul []); [auto with words|done|done|rewrite !length_drop; lia|]. intros t1 [Ht1 Vt1].
  assert (Hlt1 : (length t1 <= length w)%nat).
  { pose proof (product_length t1 (drop k x) (drop k y) Ht1) as Hpl. rewrite !length_drop in Hpl.
    specialize (Hpl ltac:(auto with words) ltac:(auto with words) Vt1). lia. }
  rewrite copy_clear_spec by done.
  cbn [mbind outcome_bind]. set (z1 := p ++ t1 ++ _).
  assert (Hz1 : words z1 /\ length z1 = (length x + length y)%nat /\ val z1 = x0 * y0 + Bpow (2 * k) * (x1 * y1)).
  { unfold z1. rewrite !length_app, length_replicate, !val_app, val_replicate0, Hvp, Hlp, Vt1.
    split_and!; [auto with words|lia|unfold x1, y1; ring]. }
  destruct Hz1 as (Hwz1 & Hlz1 & Vz1).
  go_call (Hmul t1); [auto with words|done|done|rewrite length_drop; lia|]. intros t2 [Ht2 Vt2].
  rewrite Vy0 in Vt2. fold x1 in Vt2.
  go_call addAt_spec; [done|auto with words| |rewrite Vz1, Vt2, Hlz1; lia|].
  { pose proof (product_length t2 (drop k x) (take k y) Ht2) as Hpl. rewrite length_drop, length_take in Hpl.
    specialize (Hpl ltac:(auto with words) ltac:(auto with words) Vt2). lia. }
  intros z2 (Hlz2 & Hwz2 & Vz2).
  go_call (Hmul t2); [auto with words|done|done|rewrite length_drop; lia|]. intros t3 [Ht3 Vt3].
  rewrite Vx0 in Vt3. fold y1 in Vt3.
  go_mono addAt_spec; [done|auto with words| |rewrite Vz2, Vz1, Vt2, Vt3, Hlz2, Hlz1; lia|].
  { pose proof (product_length t3 (take k x) (drop k y) Ht3) as Hpl. rewrite length_drop, length_take in Hpl.
    specialize (Hpl ltac:(auto with words) ltac:(auto with words) Vt3). lia. }
  intros z3 (_ & Hwz3 & Vz3). split; [done|]. rewrite Vz3, Vz2, Vz1, Vt2, Vt3. ring.
Qed.

Lemma nat_mul_rec_spec fuel : forall z x y, words z -> normal x -> normal y ->
  (2 * (length x + length y) + (if (length x <? length y)%nat then 1 else 0) < fuel)%nat ->
  returns (nat_mul_rec fuel z x y) (nat_is (val x * val y)).
Proof.
  induction fuel as [|fuel IH]; intros z x y Hz Hx Hy Hf; [lia|]. cbn [nat_mul_rec].
  destruct (Nat.ltb_spec (length x) (length y)) as [Hlt|Hle].
  { rewrite Z.mul_comm. apply IH; auto. destruct (Nat.ltb_spec (length y) (length x)); lia. }
  destruct (Nat.eqb_spec (length x) 0) as [Hx0|Hx0]; cbn [orb].
  { rewrite nat_make_0, (nil_length_inv x) by done. go_ret. apply nat_is_nil. }
  destruct (Nat.eqb_spec (length y) 0) as [Hy0|Hy0].
  { rewrite nat_make_0, (nil_length_inv y), Z.mul_0_r by done. go_ret. apply nat_is_nil. }
  destruct (Nat.eqb_spec (length y) 1) as [Hy1|Hy1].
  { destruct y as [|y0 [|]]; simpl in Hy1; try lia. cbn [lookup list_lookup of_option mbind outcome_bind].
    pose proof (normal_words _ Hy) as [Hw _]%words_cons.
    go_mono nat_mulAddWW_spec; [done|done|apply word_0|]. intros r. cbn [val].
    by replace (val x * y0 + 0) with (val x * (y0 + _B * 0)) by ring. }
  destruct ((_ <? _)%nat || _) eqn:E.
  { go_call basicMul_spec; [auto with words..|rewrite length_nat_make; lia|].
    intros z' (p & -> & Hlp & Hp & Hv). go_ret. rewrite <- Hv, drop_ge, app_nil_r by (rewrite length_nat_make; lia).
    by apply nat_norm_spec. }
  go_call karatsubaLen_spec; [lia|]. intros k Hk.
  rewrite !sub_slice_done by lia. cbn [mbind outcome_bind]. rewrite !Nat.sub_0_r, !drop_0.
  assert (Hmax : (6 * k <= max (6 * k) (length x + length y))%nat /\
    (length x + length y <= max (6 * k) (length x + length y))%nat).
  { unfold max. destruct (Nat.ltb_spec (length x + length y) (6 * k)); lia. }
  go_call karatsuba_spec; [rewrite ?length_nat_make, ?length_take; try lia; auto with words..|].
  intros z1 (p & r & -> & Hlp & Hlz & Hp & Hr & Hv). rewrite length_nat_make, length_app in Hlz.
  rewrite length_take_le in Hlp by lia.
  rewrite sub_slice_done by (rewrite ?length_app; lia). cbn [mbind outcome_bind].
  rewrite Nat.sub_0_r, drop_0, take_app, (firstn_all2 p), Hlp by lia.
  destruct ((k <? length y)%nat || _) eqn:E2.
  - go_call nat_mul_rest_spec; [|done|done|lia|lia|lia|done|done|rewrite length_take; lia|done|].
    { intros t x' y' Ht Hx' Hy' Hl. apply IH; auto. destruct (length x' <? length y')%nat; lia. }
    intros z' [Hz' <-]. go_ret. by apply nat_norm_spec.
  - apply orb_false_elim in E2 as [E2%Nat.ltb_ge E3%negb_false_iff%Nat.eqb_eq]. go_ret.
    replace (_ - _)%nat with O by lia. rewrite take_0, app_nil_r.
    rewrite !firstn_all2 in Hv by lia. rewrite <- Hv. by apply nat_norm_spec.
Qed.

Lemma nat_mul_spec z x y : words z -> normal x -> normal y ->
  returns (nat_mul z x y) (nat_is (val x * val y)).
Proof. intros. apply nat_mul_rec_spec; auto. destruct (_ <? _)%nat; lia. Qed.

(** The product of the integers from [a] to [b]. *)
Definition range_prod (a b : Z) : Z := foldr Z.mul 1 (seqZ a (b - a + 1)).

Lemma foldr_mul_app l1 l2 : foldr Z.mul 1 (l1 ++ l2) = foldr Z.mul 1 l1 * foldr Z.mul 1 l2.
Proof. induction l1 as [|x l1 IH]; cbn [foldr app]; rewrite ?IH; ring. Qed.

Lemma range_prod_split a m b : a <= m + 1 -> m <= b ->
  range_prod a b = range_prod a m * range_prod (m + 1) b.
Proof.
  intros Ham Hmb. unfold range_prod. rewrite <- foldr_mul_app.
  replace (b - a + 1) with ((m - a + 1) + (b - (m + 1) + 1)) by ring.
  rewrite seqZ_app by lia. by replace (a + (m - a + 1)) with (m + 1) by ring.
Qed.

Lemma range_prod_one a : range_prod a a = a.
Proof. unfold range_prod. rewrite Z.sub_diag. change (0 + 1) with 1. rewrite seqZ_cons by lia. change (Z.pred 1) with 0. rewrite seqZ_nil by lia. cbn. lia. Qed.

Lemma range_prod_empty a b : b < a -> range_prod a b = 1.
Proof. intros Hab. unfold range_prod. by rewrite seqZ_nil by lia. Qed.

Lemma range_prod_zero b : 0 <= b -> range_prod 0 b = 0.
Proof. intros Hb. rewrite (range_prod_split 0 0 b), range_prod_one by lia. ring. Qed.

Lemma nat_mulRange_rec_spec fuel : forall z a b, words z ->
  0 <= a <= 2 ^ 63 -> 0 <= b <= 2 ^ 63 -> b - a < 2 ^ (Z.of_nat fuel) ->
  returns (nat_mulRange_rec (S fuel) z a b) (nat_is (range_prod a b)).
Proof.
  assert (H64 : 2 ^ 64 = 2 * 2 ^ 63) by reflexivity.
  induction fuel as [|fuel IH]; intros z a b Hz Ha Hb Hfuel;
    [|set (f := S fuel)]; cbn [nat_mulRange_rec].
  all: destruct (Z.eqb_spec a 0) as [->|Ha0];
    [rewrite range_prod_zero by lia; apply nat_setUint64_spec; lia|].
  all: destruct (Z.ltb_spec b a); [rewrite range_prod_empty by lia; apply nat_setUint64_spec; lia|].
  all: destruct (Z.eqb_spec a b) as [<-|Hab]; [rewrite range_prod_one; apply nat_setUint64_spec; lia|].
  { cbn in Hfuel. lia. }
  unfold uint64. rewrite (wrap_small 64 (a + 1)), (wrap_small 64 (a + b)) by lia.
  destruct (Z.eqb_spec (a + 1) b) as [<-|Hab1].
  - go_call nat_setUint64_spec; [lia|]. intros x [Hx Hvx].
    go_call nat_setUint64_spec; [lia|]. intros y [Hy Hvy].
    rewrite (range_prod_split a a), !range_prod_one, <- Hvy, <- Hvx by lia. by apply nat_mul_spec.
  - rewrite Nat2Z.inj_succ, Z.pow_succ_r in Hfuel by lia.
    set (m := (a + b) / 2). assert (Hm : 2 * m <= a + b < 2 * m + 2) by (unfold m; zlia).
    rewrite wrap_small by lia. unfold f.
    go_call (IH [] a m); [auto with words|lia..|]. intros x [Hx Hvx].
    go_call (IH [] (m + 1) b); [auto with words|lia..|]. intros y [Hy Hvy].
    rewrite (range_prod_split a m b), <- Hvx, <- Hvy by lia. by apply nat_mul_spec.
Qed.

Lemma nat_mulRange_spec z a b : words z -> 0 <= a <= 2 ^ 63 -> 0 <= b <= 2 ^ 63 ->
  returns (nat_mulRange z a b) (nat_is (range_prod a b)).
Proof.
  intros Hz Ha Hb. apply nat_mulRange_rec_spec; auto.
  apply Z.le_lt_trans with (2 ^ 63); [lia|]. apply Z.pow_lt_mono_r; lia.
Qed.

End Specs.

(** * Properties *)

(** C2. Multiplication of natural numbers, whichever of the three algorithms
    [mul] picks for the operands' sizes: for normalised operands it
    terminates, never indexes outside its buffers, and returns the normalised
    product, whatever the old contents of the destination. *)
Theorem nat_mul_correct `{HA : Arith} {HL : ArithLaws HA} z x y :
  words z -> normal x -> normal y ->
  exists r, nat_mul z x y = Done r /\ normal r /\ val r = val x * val y.
Proof. intros Hz Hx Hy. exact (nat_mul_spec z x y Hz Hx Hy). Qed.

Lemma nat_mul_correct_witness :
  exists r, nat_mul [9; 9] [1; 2; 3] [0; 5] = Done r /\ normal r /\ val r = val [1; 2; 3] * val [0; 5].
Proof.
  apply (nat_mul_correct [9; 9] [1; 2; 3] [0; 5]).
  - repeat constructor; rewrite ?_B_eq; lia.
  - split; [repeat constructor; rewrite ?_B_eq; lia|done].
  - split; [repeat constructor; rewrite ?_B_eq; lia|done].
Defined.

(** The in-place Karatsuba multiplication: given two numbers of the same
    length [n] and a buffer of at least [6*n] words, it returns with the full
    product in the first [2*n] words of the buffer, although the recursion,
    the differences and the saved partial products all share that buffer. *)
Theorem karatsuba_correct `{HA : Arith} {HL : ArithLaws HA} z x y :
  words z -> words x -> words y -> length x = length y -> (6 * length y <= length z)%nat ->
  returns (karatsuba (S (length y)) z x y) (fun z' =>
    length z' = length z /\ val (take (2 * length y) z') = val x * val y).
Proof.
  intros Hz Hx Hy Hl Hlz. go_mono karatsuba_spec; [lia|done|done|done|done|done|].
  intros z' (p & r & -> & Hlp & Hlen & _ & _ & Hv). split; [done|].
  by rewrite take_app_exact.
Qed.

Lemma karatsuba_correct_witness :
  returns (karatsuba 65 (replicate 384 7) (replicate 64 (2 ^ 64 - 1)) (replicate 64 (2 ^ 63))) (fun z' =>
    length z' = length (replicate 384 7) /\
    val (take (2 * 64) z') = val (replicate 64 (2 ^ 64 - 1)) * val (replicate 64 (2 ^ 63))).
Proof.
  apply (karatsuba_correct (replicate 384 7) (replicate 64 (2 ^ 64 - 1)) (replicate 64 (2 ^ 63)));
    try (apply Forall_replicate; unfold word; rewrite _B_eq; lia); rewrite ?length_replicate; lia.
Defined.

(** [mulRange] computes the product of all the integers of a range, for
    all bounds up to [2^63] (the ones [Int.MulRange] passes). *)
Theorem nat_mulRange_correct `{HA : Arith} {HL : ArithLaws HA} z a b :
  words z -> 0 <= a <= 2 ^ 63 -> 0 <= b <= 2 ^ 63 ->
  returns (nat_mulRange z a b) (fun r => normal r /\ val r = range_prod a b).
Proof. apply nat_mulRange_spec. Qed.

Lemma nat_mulRange_correct_witness :
  returns (nat_mulRange [] 1 25) (fun r => normal r /\ val r = range_prod 1 25).
Proof. apply (nat_mulRange_correct [] 1 25); [constructor|lia|lia]. Defined.
