(* ===== verification/BigDiv.v ===== *)
(** Package big, file nat.go (src/go/src/pkg/big/nat.go): division.

    [nat_divW] divides by a word, [nat_divLarge] is Knuth's Algorithm D for a
    divisor of two or more words: it normalises the divisor, estimates one
    quotient digit at a time from the leading words, corrects the estimate and
    subtracts.  [nat_div] chooses between them.  The quotient and the remainder
    are proved to be those of the values, and division by zero to panic. *)

From S2P Require Import Prelude BigArith BigNat BigMul.

(** [(x1<<_W + x2) > (y1<<_W + y2)]. *)
Definition greaterThan (x1 x2 y1 y2 : Z) : bool :=
  (y1 <? x1) || ((x1 =? y1) && (y2 <? x2)).

Section Division.
Context `{Arith}.

Definition nat_divW (z x : list Z) (y : Z) : outcome (list Z * Z) :=
  let m := length x in
  if y =? 0 then Panic else
  if y =? 1 then q ← nat_set z x; Done (q, 0) else
  if (m =? 0)%nat then Done (nat_make z 0, 0) else
  '(l, r) ← divWVW m 0 x y;
  z ← put (nat_make z m) 0 l;
  Done (nat_norm z, r).

Definition nat_modW (x : list Z) (d : Z) : outcome Z :=
  '(_, r) ← divWVW (length x) 0 x d; Done r.

(** Step D3: the quotient digit estimated from the three leading words
    [u2 u1 u0] of the dividend and the two leading words [v1 v0] of the divisor.
    The loop runs while [qhat*v0 > rhat<<_W + u0]. *)
Definition divLarge_qhat (v1 v0 u2 u1 u0 : Z) : outcome Z :=
  if u2 =? v1 then Done _M else
  '(qhat, rhat) ← divWW u2 u1 v1;
  loop 3 (fun '(qhat, rhat) =>
    let '(x1, x2) := mulWW qhat v0 in
    if greaterThan x1 x2 rhat u0 then
      let qhat := Word (qhat - 1) in
      let prevRhat := rhat in
      let rhat := Word (rhat + v1) in
      if rhat <? prevRhat then Done (inr qhat) else Done (inl (qhat, rhat))
    else Done (inr qhat)) (qhat, rhat).

(** Step D4: subtract [qhat*v] from [u[j:j+n+1]]; if that borrows, add [v]
    back and decrease [qhat]. *)
Definition divLarge_sub (v : list Z) (j : nat) (u : list Z) (qhat : Z) : outcome (list Z * Z) :=
  let n := length v in
  '(c, l) ← mulAddVWW n v qhat 0;
  let qhatv := l ++ [c] in
  w ← sub_slice u j (j + length qhatv);
  '(c, l) ← subVV (length w) (drop j u) qhatv;
  u ← put u j l;
  if negb (c =? 0) then
    w ← sub_slice u j (j + n);
    '(c, l) ← addVV (length w) (drop j u) v;
    u ← put u j l;
    ujn ← of_option (u !! (j + n)%nat);
    u ← put u (j + n) [Word (ujn + c)];
    Done (u, Word (qhat - 1))
  else Done (u, qhat).

(** One iteration of the loop D2: digit [j] of the quotient. *)
Definition divLarge_step (v : list Z) (j : nat) (u q : list Z) : outcome (list Z * list Z) :=
  let n := length v in
  v1 ← of_option (v !! (n - 1)%nat);
  v0 ← of_option (v !! (n - 2)%nat);
  u2 ← of_option (u !! (j + n)%nat);
  u1 ← of_option (u !! (j + n - 1)%nat);
  u0 ← of_option (u !! (j + n - 2)%nat);
  qhat ← divLarge_qhat v1 v0 u2 u1 u0;
  '(u, qhat) ← divLarge_sub v j u qhat;
  q ← put q j [qhat];
  Done (u, q).

(** [for j := m; j >= 0; j--]; [k = j+1] iterations are left. *)
Fixpoint divLarge_loop (v : list Z) (k : nat) (u q : list Z) : outcome (list Z * list Z) :=
  match k with
  | O => Done (u, q)
  | S j => '(u, q) ← divLarge_step v j u q; divLarge_loop v j u q
  end.

Definition nat_divLarge (z u uIn v : list Z) : outcome (list Z * list Z) :=
  let n := length v in
  let m := (length uIn - n)%nat in
  let q := nat_make z (m + 1) in
  let u := nat_clear (nat_make u (length uIn + 1)) in
  vtop ← of_option (v !! (n - 1)%nat);
  shift ← leadingZeros vtop;
  v ← (if 0 <? shift then '(_, v1) ← shlVU n v shift; Done v1 else Done v);
  '(c, l) ← shlVU (length uIn) uIn shift;
  u ← put u 0 l;
  u ← put u (length uIn) [c];
  '(u, q) ← divLarge_loop v (m + 1) u q;
  '(_, l) ← shrVU (length u) u shift;
  u ← put u 0 l;
  Done (nat_norm q, nat_norm u).

Definition nat_div (z z2 u v : list Z) : outcome (list Z * list Z) :=
  if (length v =? 0)%nat then Panic else
  r ← nat_cmp u v;
  if r <? 0 then
    r ← nat_set z2 u;
    Done (nat_make z 0, r)
  else if (length v =? 1)%nat then
    v0 ← of_option (v !! 0%nat);
    '(q, rprime) ← nat_divW z u v0;
    if 0 <? rprime then
      r ← put (nat_make z2 1) 0 [rprime];
      Done (q, r)
    else Done (q, nat_make z2 0)
  else nat_divLarge z z2 u v.

End Division.

(** * Specifications *)

Lemma greaterThan_spec x1 x2 y1 y2 : word x2 -> word y2 ->
  greaterThan x1 x2 y1 y2 = (y1 * _B + y2 <? x1 * _B + x2).
Proof.
  unfold word, greaterThan. intros Hx Hy. symmetry.
  destruct (Z.ltb_spec y1 x1) as [Hlt|Hge]; cbn [orb].
  - apply Z.ltb_lt. pose proof (Z.mul_le_mono_nonneg_r (y1 + 1) x1 _B). lia.
  - destruct (Z.eqb_spec x1 y1) as [->|]; cbn [andb].
    + destruct (Z.ltb_spec y2 x2); [apply Z.ltb_lt|apply Z.ltb_ge]; lia.
    + apply Z.ltb_ge. pose proof (Z.mul_le_mono_nonneg_r (x1 + 1) y1 _B). lia.
Qed.

Section Specs.
Context `{HA : Arith} {HL : ArithLaws HA}.

Lemma divWVW_quot n x y : words x -> word y -> 0 < y -> length x = n ->
  returns (divWVW n 0 x y) (fun '(l, r) => length l = n /\ words l /\ val l = val x / y /\ r = val x mod y).
Proof.
  intros Hx Hy Hy0 Hn. go_mono divWVW_law; [lia|done|done|lia|].
  intros [l r] (Hl & Hw & Hr & Hv). rewrite firstn_all2 in Hv by lia.
  split_and!; auto; [apply Z.div_unique with r|apply Z.mod_unique with (val l)]; lia.
Qed.

Lemma nat_divW_spec z x y : normal x -> word y -> 0 < y ->
  returns (nat_divW z x y) (fun '(q, r) => nat_is (val x / y) q /\ r = val x mod y).
Proof.
  intros Hx Hy Hy0. unfold nat_divW. rewrite (proj2 (Z.eqb_neq y 0)) by lia.
  destruct (Z.eqb_spec y 1) as [->|].
  { rewrite nat_set_spec. go_ret. rewrite Z.div_1_r, Z.mod_1_r. by split; [apply nat_is_val|]. }
  destruct (Nat.eqb_spec (length x) 0) as [H0|H0].
  { go_ret. rewrite nat_make_0, (nil_length_inv x), val_nil, Zdiv_0_l, Zmod_0_l by done. by split; [apply nat_is_nil|]. }
  go_call divWVW_quot; [auto with words..|]. intros [l r] (Hl & Hw & Hv & ->).
  rewrite put_all by (rewrite length_nat_make; lia). go_ret. rewrite <- Hv. split; [by apply nat_norm_spec|done].
Qed.

Lemma nat_modW_spec x d : words x -> word d -> 0 < d -> nat_modW x d = Done (val x mod d).
Proof.
  intros Hx Hd Hd0. unfold nat_modW.
  destruct (divWVW_quot (length x) x d Hx Hd Hd0 eq_refl) as ([l r] & -> & _ & _ & _ & ->). done.
Qed.

(** ** The digit estimate of Algorithm D

    The dividend's window is [U = (u2*_B^2 + u1*_B + u0) * P + ul] and the
    divisor [V = (v1*_B + v0) * P + vl], where [P] is a power of [_B]. *)
Section Estimate.
Variables (P u2 u1 u0 ul v1 v0 vl : Z).
Hypotheses (HP : 0 < P) (Hul : 0 <= ul < P) (Hvl : 0 <= vl < P).
Hypotheses (Hu2 : word u2) (Hu1 : word u1) (Hu0 : word u0) (Hv1 : word v1) (Hv0 : word v0).
Hypothesis Hnorm : _B <= 2 * v1.
Let U3 := (u2 * _B + u1) * _B + u0.
Let V2 := v1 * _B + v0.
Let U := U3 * P + ul.
Let V := V2 * P + vl.
Hypothesis HUV : U < _B * V.

Lemma est_V_pos : _B * P <= V /\ 0 < _B * P.
Proof.
  pose proof _B_eq. unfold word in *. unfold V, V2.
  assert (0 < _B * P) by (apply Z.mul_pos_pos; lia).
  assert (1 * _B <= v1 * _B) by (apply Z.mul_le_mono_nonneg_r; lia).
  assert (_B * P <= (v1 * _B + v0) * P) by (apply Z.mul_le_mono_nonneg_r; lia). lia.
Qed.

Lemma est_u2 : u2 <= v1.
Proof.
  destruct (decide (v1 < u2)) as [Hlt|]; [exfalso|lia]. pose proof _B_eq. unfold word in *.
  assert ((v1 + 1) * _B * _B * P <= U).
  { unfold U, U3. apply Z.le_trans with (u2 * _B * _B * P); [|nia].
    apply Z.mul_le_mono_nonneg_r; [lia|]. apply Z.mul_le_mono_nonneg_r; [lia|].
    apply Z.mul_le_mono_nonneg_r; lia. }
  assert (_B * V <= (v1 + 1) * _B * _B * P); [|lia].
  replace ((v1 + 1) * _B * _B * P) with (_B * ((v1 * _B + _B) * P)) by ring.
  apply Z.mul_le_mono_nonneg_l; [lia|]. unfold V, V2.
  assert ((v1 * _B + v0) * P + P <= (v1 * _B + _B) * P); [|lia].
  replace ((v1 * _B + v0) * P + P) with ((v1 * _B + v0 + 1) * P) by ring.
  apply Z.mul_le_mono_nonneg_r; lia.
Qed.

(** An estimate whose product with the two leading words does not exceed the
    three leading words of the dividend is at most one too large. *)
Lemma est_le q : q < _B -> q * V2 <= U3 -> q <= U / V + 1.
Proof.
  intros Hq Hle. destruct est_V_pos as [HV HBP].
  assert (q * V < U + V).
  { unfold V at 1. replace (q * (V2 * P + vl)) with (q * V2 * P + q * vl) by ring.
    assert (q * V2 * P <= U3 * P) by (apply Z.mul_le_mono_nonneg_r; lia).
    assert (q * vl < _B * P).
    { destruct (decide (q <= 0)); [pose proof (Z.mul_nonpos_nonneg q vl); lia|].
      pose proof (mul_bound q vl (_B - 1) P ltac:(lia) ltac:(lia)). lia. }
    unfold U. lia. }
  assert (q - 1 <= U / V); [|lia]. apply Z.div_le_lower_bound; lia.
Qed.

(** An estimate whose product exceeds them is too large. *)
Lemma est_gt q : U3 < q * V2 -> 0 <= q -> U / V < q.
Proof.
  intros Hlt Hq. destruct est_V_pos as [HV HBP]. apply Z.div_lt_upper_bound; [lia|].
  assert ((U3 + 1) * P <= q * V2 * P) by (apply Z.mul_le_mono_nonneg_r; lia).
  unfold U, V. replace ((V2 * P + vl) * q) with (q * V2 * P + q * vl) by ring.
  pose proof (Z.mul_nonneg_nonneg q vl). lia.
Qed.

Lemma est_init q r : q * v1 + r = u2 * _B + u1 -> r < v1 -> 0 <= q -> U / V <= q.
Proof.
  intros Heq Hr Hq. destruct est_V_pos as [HV HBP]. pose proof _B_eq. unfold word in *.
  apply Z.lt_succ_r, Z.div_lt_upper_bound; [lia|]. unfold Z.succ.
  assert (U < (u2 * _B + u1 + 1) * (_B * P)).
  { unfold U, U3. assert (u0 * P + P <= _B * P); [|nia].
    replace (u0 * P + P) with ((u0 + 1) * P) by ring. apply Z.mul_le_mono_nonneg_r; lia. }
  assert ((u2 * _B + u1 + 1) * (_B * P) <= (q + 1) * v1 * (_B * P)) by (apply Z.mul_le_mono_nonneg_r; lia).
  assert ((q + 1) * (v1 * (_B * P)) <= (q + 1) * V); [|lia].
  apply Z.mul_le_mono_nonneg_l; [lia|]. unfold V, V2. pose proof (Z.mul_nonneg_nonneg v0 P). lia.
Qed.

Lemma est_equal : u2 = v1 -> U / V <= _B - 1 <= U / V + 1.
Proof.
  intros Heq. destruct est_V_pos as [HV HBP]. pose proof _B_eq. unfold word in *. split.
  - apply Z.lt_le_pred, Z.div_lt_upper_bound; lia.
  - assert (_B - 2 <= U / V); [|lia]. apply Z.div_le_lower_bound; [lia|].
    rewrite Z.mul_comm. apply Z.le_trans with ((_B - 2) * ((v1 + 1) * (_B * P))).
    + apply Z.mul_le_mono_nonneg_l; [lia|]. unfold V, V2.
      assert (v0 * P + P <= _B * P); [|lia].
      replace (v0 * P + P) with ((v0 + 1) * P) by ring. apply Z.mul_le_mono_nonneg_r; lia.
    + apply Z.le_trans with (v1 * _B * (_B * P)).
      * rewrite Z.mul_assoc. apply Z.mul_le_mono_nonneg_r; [lia|]. lia.
      * unfold U, U3. rewrite Heq. pose proof (Z.mul_nonneg_nonneg ((u1 * _B + u0)) P). nia.
Qed.

Lemma divLarge_qhat_spec :
  returns (divLarge_qhat v1 v0 u2 u1 u0) (fun q => word q /\ U / V <= q <= U / V + 1).
Proof.
  unfold divLarge_qhat. pose proof _B_eq as HB. destruct (Z.eqb_spec u2 v1) as [Heq|Hne].
  { go_ret. pose proof (est_equal Heq). unfold word. change _M with (_B - 1). split; lia. }
  pose proof est_u2. destruct est_V_pos as [HV HBP].
  assert (Hq0 : 0 <= U / V).
  { apply Z.div_pos; [|lia]. unfold U, U3, word in *. pose proof (Z.mul_nonneg_nonneg ((u2 * _B + u1) * _B + u0) P). nia. }
  go_call divWW_law; [done|done|done|lia|]. intros [q r] (Hq & Hr & Heq).
  apply (loop_returns
    (fun '(q, r) => word q /\ word r /\ q * v1 + r = u2 * _B + u1 /\ U / V <= q)
    (fun '(q, r) => Z.to_nat ((_B - 1 - r) / v1))).
  2:{ unfold word in *. split_and!; try lia. apply (est_init q r); lia. }
  2:{ unfold word in *. assert ((_B - 1 - r) / v1 < 2); [|lia]. apply Z.div_lt_upper_bound; lia. }
  clear q r Hq Hr Heq. intros [q r] (Hq & Hr & Heq & Hge).
  pose proof (mulWW_law q v0 Hq Hv0) as Hx. destruct (mulWW q v0) as [x1 x2]. destruct Hx as (Hx2 & Hx1 & Hx).
  rewrite greaterThan_spec by done. rewrite Hx.
  assert (HV2 : q * V2 - U3 = q * v0 - (r * _B + u0)).
  { unfold V2, U3. replace (u2 * _B + u1) with (q * v1 + r) by lia. ring. }
  unfold word in *. case_bool.
  - pose proof (est_gt q ltac:(lia) ltac:(lia)) as Hgt.
    rewrite (Word_small (q - 1)) by (unfold word; lia). rewrite (Word_carry (r + v1)) by lia.
    destruct (Z.ltb_spec (r + v1) _B) as [Hov|Hov].
    + rewrite (proj2 (Z.ltb_ge _ _)) by lia. go_ret. split; [split_and!; lia|].
      replace (_B - 1 - r) with ((_B - 1 - (r + v1)) + 1 * v1) by ring.
      rewrite Z.div_add by lia. pose proof (Z.div_pos (_B - 1 - (r + v1)) v1). lia.
    + rewrite (proj2 (Z.ltb_lt _ _)) by lia. go_ret. split; [lia|]. split; [lia|].
      apply est_le; [lia|]. pose proof (mul_bound (q - 1) v0 (_B - 1) (_B - 1) ltac:(lia) ltac:(lia)).
      pose proof (mul_bound _B _B (r + v1) _B ltac:(lia) ltac:(lia)). unfold V2 in *. lia.
  - go_ret. split; [lia|]. split; [lia|]. apply est_le; lia.
Qed.
End Estimate.

(** ** One digit *)

Lemma divLarge_addback lo l1 l2 hi j v (x : Z) :
  words v -> words l1 -> word l2 -> words hi -> length lo = j -> length l1 = length v ->
  returns (w ← sub_slice (lo ++ (l1 ++ [l2]) ++ hi) j (j + length v);
           '(c, l) ← addVV (length w) (drop j (lo ++ (l1 ++ [l2]) ++ hi)) v;
           u ← put (lo ++ (l1 ++ [l2]) ++ hi) j l;
           ujn ← of_option (u !! (j + length v)%nat);
           u ← put u (j + length v) [Word (ujn + c)];
           Done (u, x))
    (fun '(u, x') => x' = x /\ exists w k, u = lo ++ w ++ hi /\ length w = S (length v) /\ words w /\
       val w = val (l1 ++ [l2]) + val v + k * Bpow (S (length v))).
Proof.
  intros Hv Hl1 Hl2 Hhi Hlo Hlen. rewrite <- app_assoc.
  rewrite (sub_slice_app lo l1), (drop_app_exact lo) by lia. cbn [mbind outcome_bind].
  go_call addVV_law; [rewrite !length_app; lia|lia|auto with words|done|].
  intros [c l] (Hl & Hw & Hc & Hvl). rewrite (take_app_exact l1), firstn_all2 in Hvl by lia.
  rewrite put_mid by lia. cbn [mbind outcome_bind].
  rewrite (app_assoc lo l), lookup_app_r by (rewrite length_app; lia).
  replace (_ - _)%nat with O by (rewrite length_app; lia).
  change (([l2] ++ hi) !! 0%nat) with (Some l2). cbn [of_option mbind outcome_bind].
  rewrite (put_mid (lo ++ l) [l2]) by (rewrite ?length_app; simpl; lia). cbn [mbind outcome_bind]. go_ret.
  split; [done|].
  exists (l ++ [Word (l2 + c)]), (- ((l2 + c) / _B)).
  rewrite <- !app_assoc, length_app, !val_app, Hl, Hlen, Bpow_S. cbn [val].
  split_and!; [done|simpl; lia|auto with words|].
  unfold Word. rewrite Z.mod_eq by (pose proof _B_pos; lia).
  rewrite Hlen in Hvl.
  replace (val l) with (val l1 + val v - c * Bpow (length v)) by lia. ring.
Qed.

Lemma divLarge_sub_spec v j lo win hi qhat :
  words v -> words lo -> words win -> words hi -> length lo = j -> length win = S (length v) ->
  0 < val v -> word qhat -> val win / val v <= qhat <= val win / val v + 1 ->
  returns (divLarge_sub v j (lo ++ win ++ hi) qhat) (fun '(u, q) => exists w,
    u = lo ++ w ++ hi /\ length w = S (length v) /\ words w /\
    q = val win / val v /\ val w = val win mod val v).
Proof.
  intros Hv Hlo Hwin Hhi Hj Hlw Hpos Hq Hest. unfold divLarge_sub.
  pose proof (val_bound win Hwin) as Hbw. rewrite Hlw in Hbw.
  pose proof (Z.div_mod (val win) (val v) ltac:(lia)) as Hdm.
  pose proof (Z.mod_pos_bound (val win) (val v) Hpos) as Hmod.
  set (Q := val win / val v) in *. set (R := val win mod val v) in *.
  go_call mulAddVWW_law; [lia|done|done|apply word_0|]. intros [c1 l1] (Hl1 & Hwl1 & Hc1 & Hv1).
  rewrite firstn_all2, Z.add_0_r in Hv1 by lia.
  assert (Hqv : val (l1 ++ [c1]) = val v * qhat) by (rewrite val_app, Hl1; cbn [val]; lia).
  rewrite (sub_slice_app lo win), (drop_app_exact lo) by (rewrite ?length_app; simpl; lia). cbn [mbind outcome_bind].
  go_call subVV_law; [rewrite length_app; lia|rewrite length_app; simpl; lia|auto with words..|].
  intros [c l] (Hl & Hwl & Hc & Hvl).
  rewrite (take_app_exact win), firstn_all2, Hqv in Hvl by (rewrite ?length_app; simpl; lia).
  rewrite put_mid by lia. cbn [mbind outcome_bind].
  pose proof (val_bound l Hwl) as Hbl. rewrite Hl, Hlw in Hbl. rewrite Hlw in Hvl.
  assert (HBv : val v < Bpow (S (length v))).
  { pose proof (val_bound v Hv). pose proof (Bpow_lt (length v) (S (length v))). lia. }
  destruct (Z.eqb_spec c 0) as [->|Hc0]; cbn [negb].
  - go_ret. assert (qhat = Q) as ->.
    { destruct (decide (qhat = Q)); [done|]. assert (qhat = Q + 1) as -> by lia. lia. }
    exists l. split_and!; auto; lia.
  - assert (c = 1) as -> by lia. assert (qhat = Q + 1) as ->.
    { destruct (decide (qhat = Q)) as [->|]; lia. }
    destruct (exists_last (l:=l)) as (la & lb & ->); [by intros ->; simpl in Hl; lia|].
    rewrite length_app in Hl. simpl in Hl. apply words_app in Hwl as [Hla [Hlb _]%words_cons].
    go_mono divLarge_addback; [done|done|done|done|done|lia|].
    intros [u x] (-> & w & k & -> & Hlw' & Hww & Hvw). exists w.
    assert (0 <= Q) by (apply Z.div_pos; lia). rewrite Word_small by (unfold word in *; lia).
    split_and!; auto; [lia|]. pose proof (val_bound w Hww) as Hb. rewrite Hlw' in Hb.
    apply (eq_mod_small _ _ (k + 1) (Bpow (S (length v)))); lia.
Qed.

(** The leading words of a window and of a divisor. *)
Lemma list_last3 (l : list Z) k : length l = (k + 3)%nat ->
  exists a x y z, l = a ++ [x; y; z] /\ length a = k.
Proof.
  intros Hl. exists (take k l). rewrite length_take_le by lia.
  assert (Hd : length (drop k l) = 3%nat) by (rewrite length_drop; lia).
  destruct (drop k l) as [|x [|y [|z [|]]]] eqn:E; simpl in Hd; try lia.
  exists x, y, z. split; [|done]. rewrite <- E. symmetry. apply take_drop.
Qed.

Lemma list_last2 (l : list Z) k : length l = (k + 2)%nat ->
  exists a x y, l = a ++ [x; y] /\ length a = k.
Proof.
  intros Hl. exists (take k l). rewrite length_take_le by lia.
  assert (Hd : length (drop k l) = 2%nat) by (rewrite length_drop; lia).
  destruct (drop k l) as [|x [|y [|]]] eqn:E; simpl in Hd; try lia.
  exists x, y. split; [|done]. rewrite <- E. symmetry. apply take_drop.
Qed.

Lemma lookup_window (lo a b hi : list Z) j k i : length lo = j -> length a = k ->
  (i < length b)%nat -> (lo ++ (a ++ b) ++ hi) !! (j + k + i)%nat = b !! i.
Proof.
  intros Hj Hk Hi. rewrite <- (app_assoc a), !app_assoc, <- (app_assoc (lo ++ a)).
  rewrite lookup_app_r by (rewrite length_app; lia).
  rewrite lookup_app_l by (rewrite length_app; lia). f_equal. rewrite length_app. lia.
Qed.

(** A divisor whose leading word has its top bit set. *)
Definition div_normal (v : list Z) : Prop :=
  words v /\ exists vl v0 v1, v = vl ++ [v0; v1] /\ _B <= 2 * v1.

Lemma divLarge_step_spec v j lo win hi q :
  div_normal v -> words lo -> words win -> words hi -> length lo = j -> length win = S (length v) ->
  val win < _B * val v -> (j < length q)%nat ->
  returns (divLarge_step v j (lo ++ win ++ hi) q) (fun '(u, q') => exists w,
    u = lo ++ w ++ hi /\ length w = S (length v) /\ words w /\ val w = val win mod val v /\
    word (val win / val v) /\ q' = <[j:=val win / val v]> q).
Proof.
  intros [Hv (vl & v0 & v1 & -> & Hnorm)] Hlo Hwin Hhi Hj Hlw Hlt Hq. unfold divLarge_step.
  rewrite length_app in Hlw |- *. simpl in Hlw |- *.
  destruct (list_last3 win (length vl)) as (ul & u0 & u1 & u2 & -> & Hul); [lia|].
  assert (Hlook : forall i x, (i < 3)%nat -> [u0; u1; u2] !! i = Some x ->
    (lo ++ (ul ++ [u0; u1; u2]) ++ hi) !! (j + length vl + i)%nat = Some x).
  { intros i x Hi Hx. by rewrite lookup_window by done. }
  assert (Hvlook : forall i x, (i < 2)%nat -> [v0; v1] !! i = Some x ->
    (vl ++ [v0; v1]) !! (length vl + i)%nat = Some x).
  { intros i x Hi Hx. rewrite lookup_app_r by lia. rewrite <- Hx. f_equal. lia. }
  replace (length vl + 2 - 1)%nat with (length vl + 1)%nat by lia.
  replace (length vl + 2 - 2)%nat with (length vl + 0)%nat by lia.
  replace (j + (length vl + 2))%nat with (j + length vl + 2)%nat by lia.
  replace (j + length vl + 2 - 1)%nat with (j + length vl + 1)%nat by lia.
  replace (j + length vl + 2 - 2)%nat with (j + length vl + 0)%nat by lia.
  rewrite (Hvlook 1%nat v1), (Hvlook 0%nat v0), (Hlook 2%nat u2), (Hlook 1%nat u1), (Hlook 0%nat u0) by (done || lia).
  cbn [of_option mbind outcome_bind].
  apply words_app in Hv as [Hvl [Hv0 [Hv1 _]%words_cons]%words_cons].
  apply words_app in Hwin as [Hwul [Hu0 [Hu1 [Hu2 _]%words_cons]%words_cons]%words_cons].
  pose proof (val_bound vl Hvl) as Bvl. pose proof (val_bound ul Hwul) as Bul. rewrite Hul in Bul.
  assert (EU : val (ul ++ [u0; u1; u2]) = ((u2 * _B + u1) * _B + u0) * Bpow (length vl) + val ul).
  { rewrite val_app, Hul. cbn [val]. ring. }
  assert (EV : val (vl ++ [v0; v1]) = (v1 * _B + v0) * Bpow (length vl) + val vl).
  { rewrite val_app. cbn [val]. ring. }
  rewrite EU, EV in Hlt.
  go_call (divLarge_qhat_spec (Bpow (length vl)) u2 u1 u0 (val ul) v1 v0 (val vl)); [auto using Bpow_pos..|].
  rewrite <- EU, <- EV. intros qhat [Hqw Hest].
  assert (Hpos : 0 < val (vl ++ [v0; v1])).
  { rewrite EV. pose proof (Bpow_pos (length vl)). pose proof _B_eq. unfold word in *.
    assert (0 < (v1 * _B + v0) * Bpow (length vl)) by (apply Z.mul_pos_pos; lia). lia. }
  assert (Hww : words (ul ++ [u0; u1; u2])) by auto 10 with words.
  go_call divLarge_sub_spec; [auto 10 with words|done|done|done|done|rewrite !length_app; simpl; lia|done|done|done|].
  intros [u qd] (w & -> & Hlen & Hw & -> & Hvw). rewrite put_one by done. cbn [mbind outcome_bind]. go_ret.
  exists w. rewrite length_app in Hlen. simpl in Hlen. split_and!; [done|lia|done|done| |done].
  unfold word in *. split; [|lia]. apply Z.div_pos; [apply val_nonneg; auto|lia].
Qed.

(** ** The loop over the digits

    Before digit [k-1] is computed, [u] has been reduced so that its words from
    [k] on are a number below [v], and the digits from [k] on are those of the
    quotient. *)
Lemma drop_window (u : list Z) j n V : words u -> (j + S n <= length u)%nat -> V <= Bpow n ->
  val (drop (S j) u) < V ->
  exists lo win hi, u = lo ++ win ++ hi /\ length lo = j /\ length win = S n /\
    words lo /\ words win /\ words hi /\ val hi = 0 /\ val win < _B * V.
Proof.
  intros Hu Hl HV Hlt. destruct (cut2 u j (S n)) as (lo & win & hi & -> & Hlo & Hwin & ? & ? & Hhi); [lia|done|].
  exists lo, win, hi.
  destruct win as [|w0 win]; [simpl in Hwin; lia|]. cbn [length] in Hwin.
  replace (S j) with (length (lo ++ [w0])) in Hlt by (rewrite length_app; simpl; lia).
  replace (lo ++ (w0 :: win) ++ hi) with ((lo ++ [w0]) ++ win ++ hi) in Hlt by by rewrite <- app_assoc.
  rewrite drop_app_length, val_app in Hlt.
  assert (words win) by by eapply words_cons. assert (Hlw : length win = n) by lia. rewrite Hlw in Hlt.
  pose proof (val_bound hi Hhi) as [Hh _]. pose proof (val_bound win ltac:(done)) as [Hw0 _].
  pose proof (Bpow_pos n).
  assert (val hi = 0) as Hz.
  { destruct (decide (val hi = 0)); [done|]. pose proof (Z.mul_le_mono_nonneg_l 1 (val hi) (Bpow n)). lia. }
  assert (word w0) as Hw by by eapply words_cons. unfold word in Hw.
  split_and!; auto. cbn [val]. rewrite Hz in Hlt.
  pose proof (Z.mul_le_mono_nonneg_l (val win + 1) V _B). lia.
Qed.

Lemma divLarge_loop_spec v : div_normal v -> forall k u q,
  words u -> words q -> (k <= length q)%nat -> (k + length v <= length u)%nat -> val (drop k u) < val v ->
  returns (divLarge_loop v k u q) (fun '(u', q') =>
    length u' = length u /\ words u' /\ length q' = length q /\ words q' /\ drop k q' = drop k q /\
    val u = val (take k q') * val v + val u' /\ val u' < val v).
Proof.
  intros Hv. induction k as [|j IH]; intros u q Hu Hq Hlq Hlu Hlt; cbn [divLarge_loop].
  { go_ret. rewrite drop_0 in Hlt. rewrite take_0, val_nil. split_and!; auto. }
  pose proof (val_bound v (proj1 Hv)) as Hbv.
  destruct (drop_window u j (length v) (val v)) as (lo & win & hi & -> & Hlo & Hlw & Hwlo & Hwwin & Hwhi & Hhi & Hwin);
    [done|lia|lia|done|].
  go_call divLarge_step_spec; [done..|lia|]. intros [u1 q1] (w & -> & Hlw1 & Hww1 & Hvw & HQ & ->).
  assert (0 < val v) as Hpos.
  { destruct (decide (val v = 0)) as [e|]; [|lia]. rewrite e in *. pose proof (val_nonneg win Hwwin). lia. }
  pose proof (Z.mod_pos_bound (val win) (val v) Hpos). pose proof (Z.div_mod (val win) (val v) ltac:(lia)) as Hdm.
  set (Q := val win / val v) in *.
  go_mono IH.
  - auto with words.
  - by apply Forall_insert.
  - rewrite length_insert. lia.
  - rewrite !length_app in *. lia.
  - rewrite drop_app_exact, val_app, Hhi by done. lia.
  - intros [u2 q2] (Hlu2 & Hwu2 & Hlq2 & Hwq2 & Hd & Hval & Hu2).
    rewrite length_insert in Hlq2.
    assert (Hj : q2 !! j = Some Q).
    { rewrite <- (Nat.add_0_r j), <- lookup_drop, Hd, lookup_drop, Nat.add_0_r.
      apply list_lookup_insert_eq. lia. }
    split_and!; auto.
    + rewrite Hlu2, !length_app. lia.
    + assert (drop 1 (drop j q2) = drop 1 (drop j (<[j:=Q]> q))) as He by by rewrite Hd.
      rewrite !drop_drop, Nat.add_1_r in He. rewrite He. apply drop_insert_lt. lia.
    + rewrite (take_S_r _ _ _ Hj), (val_app (take j q2)), length_take_le by lia. cbn [val].
      rewrite !val_app, Hlo, Hhi, Hlw1 in Hval. rewrite !val_app, Hlo, Hhi, Hlw. lia.
Qed.

(** ** Long division *)

Lemma leadingZeros_div_normal v s v' :
  words v' -> length v' = length v -> words v -> (2 <= length v)%nat ->
  (forall w, list.last v = Some w -> _B <= 2 * (w * 2 ^ s) /\ w * 2 ^ s < _B) -> 0 <= s ->
  val v' = val v * 2 ^ s -> div_normal v'.
Proof.
  intros Hv' Hl Hv Hn Hs Hs0 Hval. split; [done|].
  destruct (list_last2 v' (length v - 2)) as (vl & v0 & v1 & -> & Hlvl); [lia|].
  exists vl, v0, v1. split; [done|].
  destruct (exists_last (l:=v)) as (a & w & ->); [by intros ->; simpl in Hn; lia|].
  destruct (Hs w (last_snoc _ _)) as [Hw1 Hw2]. rewrite !length_app in Hl. rewrite !length_app in Hlvl, Hn.
  cbn [length] in Hl, Hlvl, Hn.
  apply words_app in Hv' as [Hvl [Hv0 _]%words_cons]. apply words_app in Hv as [Ha _].
  rewrite !val_app in Hval. cbn [val] in Hval.
  replace (length a) with (S (length vl)) in Hval by lia. rewrite Bpow_S in Hval.
  pose proof (val_bound vl Hvl) as Hbv. pose proof (val_nonneg a Ha).
  pose proof (Z.mul_nonneg_nonneg (val a) (2 ^ s) ltac:(lia) ltac:(apply Z.pow_nonneg; lia)).
  unfold word in Hv0. pose proof (Bpow_pos (length vl)).
  assert (w * 2 ^ s <= v1); [|lia]. apply Z.lt_succ_r.
  apply (Z.mul_lt_mono_pos_l (_B * Bpow (length vl))); [apply Z.mul_pos_pos; [apply _B_pos|done]|].
  apply Z.le_lt_trans with (val vl + Bpow (length vl) * (v0 + _B * (v1 + _B * 0))); [lia|].
  assert (Bpow (length vl) * v0 + Bpow (length vl) <= Bpow (length vl) * _B); [|lia].
  replace (Bpow (length vl) * v0 + Bpow (length vl)) with (Bpow (length vl) * (v0 + 1)) by ring.
  apply Z.mul_le_mono_nonneg_l; lia.
Qed.

(** The normalised divisor is large enough for the first digit. *)
Lemma divLarge_start u v c (l : list Z) s : words u -> words l -> length l = length u -> 0 <= c < 2 ^ s ->
  div_normal v -> (length v <= length u)%nat -> 0 <= s < _W ->
  val l + c * Bpow (length u) = val u * 2 ^ s ->
  val (drop (length u - length v + 1) (l ++ [c])) < val v.
Proof.
  intros Hu Hl Hlen Hc [Hv (vl & v0 & v1 & -> & Hnorm)] Hle Hs Hval.
  remember (length u - length (vl ++ [v0; v1]) + 1)%nat as d eqn:Ed.
  rewrite length_app in Hle, Ed. cbn [length] in Hle, Ed.
  apply words_app in Hv as [Hvl [Hv0 _]%words_cons].
  assert (Hd : (d <= length (l ++ [c]))%nat) by (rewrite length_app; simpl; lia).
  assert (HP : 2 ^ s * 2 <= _B).
  { rewrite _B_eq, <- _W_eq, Z.mul_comm, <- Z.pow_succ_r by lia. apply Z.pow_le_mono_r; lia. }
  assert (Hlt : val (l ++ [c]) < Bpow (length u) * 2 ^ s).
  { rewrite val_app, Hlen. cbn [val]. pose proof (val_bound u Hu).
    replace (val l + Bpow (length u) * (c + _B * 0)) with (val u * 2 ^ s) by lia.
    apply Z.mul_lt_mono_pos_r; lia. }
  rewrite (val_take_drop d) in Hlt by done.
  assert (words (l ++ [c])) as Hw.
  { apply words_app. split; [done|]. constructor; [|constructor]. unfold word. lia. }
  pose proof (val_nonneg (take d (l ++ [c])) ltac:(auto with words)).
  assert (Hd2 : Bpow d * val (drop d (l ++ [c])) < Bpow d * (Bpow (length vl + 1) * 2 ^ s)).
  { rewrite Z.mul_assoc, <- Bpow_add. replace (d + (length vl + 1))%nat with (length u) by lia. lia. }
  apply Z.mul_lt_mono_pos_l in Hd2; [|apply Bpow_pos].
  apply Z.lt_le_trans with (1 := Hd2). rewrite val_app. cbn [val]. rewrite Bpow_add.
  pose proof (val_nonneg vl Hvl). pose proof (Bpow_pos (length vl)).
  rewrite Bpow_S, Bpow_0. unfold word in Hv0.
  apply Z.le_trans with (Bpow (length vl) * (v0 + _B * (v1 + _B * 0))); [|lia].
  rewrite <- Z.mul_assoc. apply Z.mul_le_mono_nonneg_l; [lia|].
  apply Z.le_trans with (_B * v1); [|lia]. rewrite <- Z.mul_assoc. apply Z.mul_le_mono_nonneg_l; lia.
Qed.

Lemma shift_room w s : 0 <= s < _W -> w * 2 ^ s < _B -> w * 2 ^ s + 2 ^ s <= _B.
Proof.
  intros Hs Hlt. assert (Hp : 0 < 2 ^ s) by (apply Z.pow_pos_nonneg; lia).
  assert (HB : 2 ^ (_W - s) * 2 ^ s = _B).
  { rewrite <- Z.pow_add_r, _B_eq, <- _W_eq by lia. f_equal. lia. }
  rewrite <- HB in *. apply Z.mul_lt_mono_pos_r in Hlt; [|done].
  replace (w * 2 ^ s + 2 ^ s) with ((w + 1) * 2 ^ s) by ring. apply Z.mul_le_mono_nonneg_r; lia.
Qed.

(** Both operands shifted by the same amount: the divisor as the code keeps it. *)
Lemma divLarge_shift_v v s w : normal v -> (2 <= length v)%nat -> list.last v = Some w ->
  0 <= s < _W -> _B <= 2 * (w * 2 ^ s) -> w * 2 ^ s < _B ->
  returns (if 0 <? s then '(_, v1) ← shlVU (length v) v s; Done v1 else Done v) (fun v' =>
    div_normal v' /\ length v' = length v /\ val v' = val v * 2 ^ s).
Proof.
  intros Hv Hn Hlast Hs Hw1 Hw2. destruct (Z.ltb_spec 0 s) as [Hs0|Hs0].
  - go_call shlVU_law; [lia|auto with words|done|]. intros [c v'] (Hl & Hw & Hc & Hval).
    rewrite firstn_all in Hval. go_ret.
    assert (c = 0) as ->.
    { pose proof (val_bound v' Hw) as Hb. rewrite Hl in Hb.
      apply last_Some in Hlast as [a ->]. apply normal_words, words_app in Hv as [Ha _].
      rewrite val_app, length_app in *. cbn [val length] in *. rewrite Nat.add_1_r, Bpow_S in *.
      pose proof (val_bound a Ha). pose proof (Bpow_pos (length a)).
      assert (Hp : 0 < 2 ^ s) by (apply Z.pow_pos_nonneg; lia).
      destruct (decide (c = 0)); [done|exfalso].
      assert ((val a + Bpow (length a) * (w + _B * 0)) * 2 ^ s < _B * Bpow (length a)).
      { assert (val a * 2 ^ s < Bpow (length a) * 2 ^ s) by (apply Z.mul_lt_mono_pos_r; lia).
        assert (Bpow (length a) * (w * 2 ^ s + 2 ^ s) <= Bpow (length a) * _B); [|lia].
        apply Z.mul_le_mono_nonneg_l; [lia|]. by apply shift_room. }
      pose proof (Z.mul_le_mono_nonneg_r 1 c (_B * Bpow (length a))). lia. }
    rewrite Z.mul_0_l, Z.add_0_r in Hval. split_and!; auto.
    apply (leadingZeros_div_normal v s v'); auto with words; [|lia].
    intros w' Hw'. rewrite Hlast in Hw'. by simplify_eq.
  - assert (s = 0) as -> by lia. go_ret. rewrite Z.mul_1_r.
    split_and!; [|done|lia]. apply (leadingZeros_div_normal v 0 v); auto with words; [|lia..].
    intros w' Hw'. rewrite Hlast in Hw'. by simplify_eq.
Qed.

Lemma div_scaled a b p r q : 0 < p -> 0 < b -> a * p = q * (b * p) + r -> 0 <= r < b * p ->
  q = a / b /\ r / p = a mod b.
Proof.
  intros Hp Hb Heq Hr.
  assert (r = (a - q * b) * p) as Er by (rewrite Z.mul_sub_distr_r; lia).
  rewrite Er in Hr |- *. rewrite Z.div_mul by lia.
  assert (0 <= a - q * b < b).
  { split; [apply (Z.mul_le_mono_pos_r _ _ p); lia|apply (Z.mul_lt_mono_pos_r p); lia]. }
  split; [apply Z.div_unique with (a - q * b)|apply Z.mod_unique with q]; lia.
Qed.

Lemma nat_divLarge_spec z z2 u v : words z -> normal u -> normal v ->
  (2 <= length v)%nat -> (length v <= length u)%nat ->
  returns (nat_divLarge z z2 u v) (fun '(q, r) =>
    nat_is (val u / val v) q /\ nat_is (val u mod val v) r).
Proof.
  intros Hz Hu Hv Hn Hle. unfold nat_divLarge.
  destruct (normal_snoc v Hv) as (va & w & Ev & _ & Hw & Hw0); [by intros ->; simpl in Hn; lia|].
  assert (Hlast : list.last v = Some w) by (rewrite Ev; apply last_snoc).
  assert (Htop : v !! (length v - 1)%nat = Some w).
  { rewrite Ev, lookup_app_r by (rewrite length_app; simpl; lia). rewrite length_app. simpl.
    by replace (length va + 1 - 1 - length va)%nat with O by lia. }
  rewrite Htop. cbn [of_option mbind outcome_bind].
  go_call leadingZeros_spec; [done|lia|]. intros s (Hs & Hs1 & Hs2).
  go_call divLarge_shift_v; [done..|]. intros v' (Hdn & Hlv & Vv).
  go_call shlVU_law; [lia|auto with words|done|]. intros [c l] (Hl & Hwl & Hc & Vl). rewrite firstn_all in Vl.
  set (u0 := nat_clear _).
  assert (Hlu0 : length u0 = (length u + 1)%nat).
  { unfold u0. rewrite nat_clear_zero, length_replicate. apply length_nat_make. }
  rewrite put_0 by lia. cbn [mbind outcome_bind].
  rewrite put_end by (rewrite ?length_drop; simpl; lia). cbn [mbind outcome_bind].
  assert (Hp : 0 < 2 ^ s) by (apply Z.pow_pos_nonneg; lia).
  assert (Hwc : word c).
  { unfold word. split; [lia|]. apply Z.lt_le_trans with (2 ^ s); [lia|]. rewrite _B_eq, <- _W_eq.
    apply Z.pow_le_mono_r; lia. }
  assert (Vu : val (l ++ [c]) = val u * 2 ^ s) by (rewrite val_app, Hl; cbn [val]; lia).
  pose proof (normal_pos v Hv ltac:(lia)) as Hpos.
  go_call divLarge_loop_spec; [done|auto with words|auto with words|rewrite length_nat_make; lia
    |rewrite length_app; simpl; lia|rewrite <- Hlv; apply (divLarge_start u v' c l s); auto with words; lia|].
  intros [u1 q] (Hlu1 & Hwu1 & Hlq & Hwq & _ & Hval & Hlt1).
  rewrite length_nat_make in Hlq. rewrite firstn_all2 in Hval by lia.
  go_call shrVU_law; [lia|done|done|]. intros [c2 l2] (Hl2 & Hwl2 & Vl2 & _). rewrite firstn_all in Vl2.
  rewrite put_all by done. cbn [mbind outcome_bind]. go_ret.
  rewrite Vu, Vv in Hval. rewrite Vv in Hlt1. pose proof (val_nonneg u1 Hwu1).
  destruct (div_scaled (val u) (val v) (2 ^ s) (val u1) (val q)) as [<- <-]; [done|done|done|lia|].
  rewrite <- Vl2. split; by apply nat_norm_spec.
Qed.

Lemma nat_div_spec z z2 u v : words z -> normal u -> normal v -> 0 < val v ->
  returns (nat_div z z2 u v) (fun '(q, r) =>
    nat_is (val u / val v) q /\ nat_is (val u mod val v) r).
Proof.
  intros Hz Hu Hv Hpos. unfold nat_div. pose proof (val_nonneg u (normal_words _ Hu)).
  destruct (Nat.eqb_spec (length v) 0) as [H0|H0].
  { rewrite (nil_length_inv v H0) in Hpos. cbn in Hpos. lia. }
  rewrite nat_cmp_spec by done. unfold Zcmp. cbn [mbind outcome_bind].
  destruct (Z.ltb_spec (val u) (val v)) as [Hlt|Hge].
  { change (-1 <? 0) with true. cbv iota. rewrite nat_set_spec, nat_make_0. cbn [mbind outcome_bind]. go_ret.
    rewrite Z.div_small, Z.mod_small by lia. by split; [apply nat_is_nil|apply nat_is_val]. }
  rewrite (proj2 (Z.ltb_ge _ 0)) by (case_bool; lia).
  destruct (Nat.eqb_spec (length v) 1) as [H1|H1].
  - destruct v as [|v0 [|]]; simpl in H1; try lia. cbn [lookup list_lookup of_option mbind outcome_bind].
    pose proof (normal_words _ Hv) as [Hw _]%words_cons.
    assert (Ev : val [v0] = v0) by (cbn [val]; ring). rewrite Ev in *.
    go_call nat_divW_spec; [done|done|lia|]. intros [q r] [Hq ->].
    pose proof (Z.mod_pos_bound (val u) v0 ltac:(lia)). case_bool.
    + rewrite put_all by by rewrite length_nat_make. go_ret. split; [done|].
      split; [split; [constructor; [|constructor]; unfold word in *; lia|]|cbn [val]; ring].
      cbn. intros [=]. lia.
    + go_ret. split; [done|]. rewrite nat_make_0. replace (val u mod v0) with 0 by lia. apply nat_is_nil.
  - apply nat_divLarge_spec; auto; [lia|].
    destruct (decide (length v <= length u)%nat); [done|].
    pose proof (normal_lt_length u v Hu Hv ltac:(lia)). lia.
Qed.

Lemma nat_div_zero z z2 u : nat_div z z2 u [] = Panic.
Proof. done. Qed.

End Specs.

(** * Properties *)

(** C3. Division of natural numbers: for every normalised dividend and every
    non-zero normalised divisor, of whatever lengths, [div] terminates without
    a panic and returns the normalised quotient and remainder; a zero divisor
    panics. *)
Theorem nat_div_correct `{HA : Arith} {HL : ArithLaws HA} z z2 u v :
  words z -> normal u -> normal v ->
  if decide (v = []) then nat_div z z2 u v = Panic
  else exists q r, nat_div z z2 u v = Done (q, r) /\ normal q /\ normal r /\
         val q = val u / val v /\ val r = val u mod val v.
Proof.
  intros Hz Hu Hv. destruct (decide (v = [])) as [->|Hne]; [done|].
  assert (0 < length v)%nat by (destruct v; [done|simpl; lia]).
  destruct (nat_div_spec z z2 u v Hz Hu Hv (normal_pos v Hv ltac:(done))) as ([q r] & -> & [? ?] & [? ?]).
  by exists q, r.
Qed.

Lemma nat_div_correct_witness :
  exists q r, nat_div [] [] [1; 2; 3; 4] [0; 2 ^ 63] = Done (q, r) /\ normal q /\ normal r /\
    val q = val [1; 2; 3; 4] / val [0; 2 ^ 63] /\ val r = val [1; 2; 3; 4] mod val [0; 2 ^ 63].
Proof.
  apply (nat_div_correct [] [] [1; 2; 3; 4] [0; 2 ^ 63]).
  - constructor.
  - split; [repeat constructor; rewrite ?_B_eq; lia|done].
  - split; [repeat constructor; rewrite ?_B_eq; lia|done].
Defined.

(** The digit estimate of Algorithm D: from the three leading words of the
    dividend's window and the two leading words of a divisor whose top bit is
    set, the estimate is the quotient digit or one more, and the correction
    loop ends within three rounds. *)
Theorem divLarge_qhat_correct `{HA : Arith} {HL : ArithLaws HA} P u2 u1 u0 ul v1 v0 vl :
  0 < P -> 0 <= ul < P -> 0 <= vl < P ->
  word u2 -> word u1 -> word u0 -> word v1 -> word v0 -> _B <= 2 * v1 ->
  let U := ((u2 * _B + u1) * _B + u0) * P + ul in
  let V := (v1 * _B + v0) * P + vl in
  U < _B * V ->
  returns (divLarge_qhat v1 v0 u2 u1 u0) (fun q => q = U / V \/ q = U / V + 1).
Proof.
  cbv zeta. intros. go_mono (divLarge_qhat_spec P u2 u1 u0 ul v1 v0 vl); [done..|]. intros q [_ Hq]. lia.
Qed.

Lemma divLarge_qhat_correct_witness :
  returns (divLarge_qhat (2 ^ 63) 5 7 8 9) (fun q =>
    q = (((7 * _B + 8) * _B + 9) * 1 + 0) / ((2 ^ 63 * _B + 5) * 1 + 0) \/
    q = (((7 * _B + 8) * _B + 9) * 1 + 0) / ((2 ^ 63 * _B + 5) * 1 + 0) + 1).
Proof.
  apply (divLarge_qhat_correct 1 7 8 9 0 (2 ^ 63) 5 0); unfold word; cbv zeta; rewrite ?_B_eq; [lia..|reflexivity].
Defined.
