(* ===== verification/BigBits.v ===== *)
(** Package big, file nat.go (src/go/src/pkg/big/nat.go): bits and bytes.

    Shifts, bit operations, the bit length, the de Bruijn computation of the
    number of trailing zero bits, and the conversion to and from big-endian
    byte strings; each is proved equal to the operation on the values. *)

From S2P Require Import Prelude BigArith BigNat BigMul.

Definition deBruijn32 : Z := 0x077CB531.
Definition deBruijn32Lookup : list Z := [
  0; 1; 28; 2; 29; 14; 24; 3; 30; 22; 20; 15; 25; 17; 4; 8;
  31; 27; 13; 23; 21; 19; 16; 7; 26; 12; 18; 6; 11; 5; 10; 9].

Definition deBruijn64 : Z := 0x03f79d71b4ca8b09.
Definition deBruijn64Lookup : list Z := [
  0; 1; 56; 2; 57; 49; 28; 3; 61; 58; 42; 50; 38; 29; 17; 4;
  62; 47; 59; 36; 45; 43; 51; 22; 53; 39; 33; 30; 24; 18; 12; 5;
  63; 55; 48; 27; 60; 41; 37; 16; 46; 35; 44; 21; 52; 32; 23; 11;
  54; 26; 40; 15; 34; 20; 31; 10; 25; 14; 19; 9; 13; 8; 7; 6].

Definition trailingZeroBits (x : Z) : outcome Z :=
  if _W =? 32 then idx deBruijn32Lookup (Z.shiftr (Word (Z.land x (Word (- x)) * deBruijn32)) 27)
  else if _W =? 64 then
    idx deBruijn64Lookup (Z.shiftr (Word (Z.land x (Word (- x)) * Z.land deBruijn64 _M)) 58)
  else Panic.

Definition nat_bitLen (x : list Z) : outcome Z :=
  if (length x =? 0)%nat then Done 0 else
  let i := (length x - 1)%nat in
  xi ← of_option (x !! i);
  b ← bitLen xi;
  Done (Z.of_nat i * _W + b).

Section Bits.
Context `{Arith}.

Definition nat_shl (z x : list Z) (s : Z) : outcome (list Z) :=
  let m := length x in
  if (m =? 0)%nat then Done (nat_make z 0) else
  let n := (m + Z.to_nat (s / _W))%nat in
  let z := nat_make z (n + 1) in
  '(c, l) ← shlVU m x (s mod _W);
  z ← put z (n - m) l;
  z ← put z n [c];
  w ← sub_slice z 0 (n - m);
  z ← put z 0 (nat_clear w);
  Done (nat_norm z).

Definition nat_shr (z x : list Z) (s : Z) : outcome (list Z) :=
  let m := length x in
  let n := Z.of_nat m - s / _W in
  if n <=? 0 then Done (nat_make z 0) else
  let n := Z.to_nat n in
  '(_, l) ← shrVU n (drop (m - n) x) (s mod _W);
  z ← put (nat_make z n) 0 l;
  Done (nat_norm z).

(** [x[i] == 0] for the lowest words, then the lowest non-zero word's bits. *)
Definition powersOfTwoDecompose (x : list Z) : outcome (list Z * Z) :=
  if (length x =? 0)%nat then Done (x, 0) else
  i ← loop (S (length x)) (fun i =>
    xi ← of_option (x !! i);
    if xi =? 0 then Done (inl (S i)) else Done (inr i)) O;
  xi ← of_option (x !! i);
  n ← trailingZeroBits xi;
  '(_, q) ← shrVU (length x - i) (drop i x) n;
  Done (nat_norm q, Z.of_nat i * _W + n).

End Bits.

(** The word [Word(1) << (i % _W)]. *)
Definition bit_mask (i : Z) : Z := Word (Z.shiftl 1 (i mod _W)).

(** The destination is [z.make(n)] with [x] copied over its first words; what
    it held beyond them is kept. *)
Definition nat_setBit (z x : list Z) (i b : Z) : outcome (list Z) :=
  let j := Z.to_nat (i / _W) in
  let m := bit_mask i in
  let n := length x in
  if b =? 0 then
    z ← put (nat_make z n) 0 x;
    if (n <=? j)%nat then Done z else
    zj ← of_option (z !! j);
    z ← put z j [Z.ldiff zj m];
    Done (nat_norm z)
  else if b =? 1 then
    let n := if (n <=? j)%nat then (j + 1)%nat else n in
    z ← put (nat_make z n) 0 x;
    zj ← of_option (z !! j);
    put z j [Z.lor zj m]
  else Panic.

Definition nat_bit (z : list Z) (i : Z) : outcome Z :=
  let j := Z.to_nat (i / _W) in
  if (length z <=? j)%nat then Done 0 else
  zj ← of_option (z !! j);
  Done (Z.land (Z.shiftr zj (i mod _W)) 1).

Definition nat_and (z x y : list Z) : outcome (list Z) :=
  let m := length x in
  let n := length y in
  let m := if (n <? m)%nat then n else m in
  z ← put (nat_make z m) 0 (zip_with Z.land (take m x) (take m y));
  Done (nat_norm z).

Definition nat_andNot (z x y : list Z) : outcome (list Z) :=
  let m := length x in
  let n := length y in
  let n := if (m <? n)%nat then m else n in
  z ← put (nat_make z m) 0 (zip_with Z.ldiff (take n x) (take n y));
  s ← sub_slice x n m;
  z ← put z n s;
  Done (nat_norm z).

(** [or] and [xor] differ in the operation on words only. *)
Definition nat_bitop (op : Z -> Z -> Z) (z x y : list Z) : outcome (list Z) :=
  let '(m, n, s) := if (length x <? length y)%nat then (length y, length x, y)
                    else (length x, length y, x) in
  z ← put (nat_make z m) 0 (zip_with op (take n x) (take n y));
  w ← sub_slice s n m;
  z ← put z n w;
  Done (nat_norm z).

Definition nat_or : list Z -> list Z -> list Z -> outcome (list Z) := nat_bitop Z.lor.
Definition nat_xor : list Z -> list Z -> list Z -> outcome (list Z) := nat_bitop Z.lxor.

(** * Bytes *)

(** [for j := 0; j < _S; j++ { i--; buf[i] = byte(d); d >>= 8 }]. *)
Fixpoint bytes_word (j : nat) (buf : list Z) (i d : Z) : outcome (list Z * Z) :=
  match j with
  | O => Done (buf, i)
  | S j =>
      let i := i - 1 in
      buf ← set_idx buf i (byte d);
      bytes_word j buf i (Z.shiftr d 8)
  end.

(** [for _, d := range z]. *)
Fixpoint bytes_words (z : list Z) (buf : list Z) (i : Z) : outcome (list Z * Z) :=
  match z with
  | [] => Done (buf, i)
  | d :: z =>
      '(buf, i) ← bytes_word (Z.to_nat _S) buf i d;
      bytes_words z buf i
  end.

Definition nat_bytes (z buf : list Z) : outcome (list Z * Z) :=
  '(buf, i) ← bytes_words z buf (zlen buf);
  i ← loop (S (length buf)) (fun i =>
    if i <? zlen buf then
      b ← idx buf i;
      if b =? 0 then Done (inl (i + 1)) else Done (inr i)
    else Done (inr i)) i;
  Done (buf, i).

Definition nat_setBytes (z buf : list Z) : outcome (list Z) :=
  let z := nat_make z (Z.to_nat (Z.quot (zlen buf + _S - 1) _S)) in
  '(z, k, d) ← loop (S (length buf)) (fun '(z, k, s, d, i) =>
    if 0 <? i then
      b ← idx buf (i - 1);
      let d := Z.lor d (Word (Z.shiftl b s)) in
      let s := s + 8 in
      if s =? _S * 8 then
        z ← set_idx z k d;
        Done (inl (z, k + 1, 0, 0, i - 1))
      else Done (inl (z, k, s, d, i - 1))
    else Done (inr (z, k, d))) (z, 0, 0, 0, zlen buf);
  z ← (if k <? zlen z then set_idx z k d else Done z);
  Done (nat_norm z).

(** * Trailing zero bits *)

Lemma odd_part x : 0 < x -> exists k m, 0 <= k /\ 0 <= m /\ x = 2 ^ k * (2 * m + 1).
Proof.
  intros Hx. assert (0 <= x) as Hx0 by lia. revert Hx. pattern x. apply Z_lt_induction; [|done].
  clear x Hx0. intros x IH Hx. destruct (Z.Even_or_Odd x) as [[h Hh]|[m Hm]].
  - destruct (IH h) as (k & m & ? & ? & E); [lia|lia|]. exists (k + 1), m.
    rewrite Hh, E, Z.pow_add_r by lia. change (2 ^ 1) with 2. split_and!; lia.
  - exists 0, m. rewrite Hm. split_and!; lia.
Qed.

Lemma odd_land_opp m : Z.land (2 * m + 1) (- (2 * m + 1)) = 1.
Proof.
  replace (- (2 * m + 1)) with (Z.lnot (2 * m)) by (unfold Z.lnot; lia).
  apply Z.bits_inj'. intros n Hn. rewrite Z.land_spec, Z.lnot_spec by done.
  destruct (decide (n = 0)) as [->|].
  - by rewrite Z.testbit_odd_0, Z.testbit_even_0.
  - replace n with (Z.succ (n - 1)) by lia.
    rewrite Z.testbit_odd_succ, Z.testbit_even_succ, andb_negb_r by lia.
    change 1 with (2 * 0 + 1) at 1. by rewrite Z.testbit_odd_succ, Z.bits_0 by lia.
Qed.

Lemma land_opp_pow2 x k m : word x -> 0 <= k -> x = 2 ^ k * (2 * m + 1) -> Z.land x (Word (- x)) = 2 ^ k.
Proof.
  intros Hx Hk E. unfold Word, word in *. rewrite _B_eq in *.
  rewrite <- Z.land_ones, (Z.land_comm (- x)), Z.land_assoc, Z.land_ones, Z.mod_small by lia.
  rewrite E, Z.mul_comm, <- Z.mul_opp_l, <- !Z.shiftl_mul_pow2, <- Z.shiftl_land, odd_land_opp by done.
  by rewrite Z.shiftl_1_l.
Qed.

(** The property of the de Bruijn constant, for each of the 64 bits. *)
Lemma deBruijn64_lookup k : 0 <= k < 64 ->
  deBruijn64Lookup.[Z.shiftr ((2 ^ k * deBruijn64) mod 2 ^ 64) 58] = Some k.
Proof.
  intros Hk.
  assert (Hall : forallb (fun k =>
    bool_decide (deBruijn64Lookup.[Z.shiftr ((2 ^ k * deBruijn64) mod 2 ^ 64) 58] = Some k)) (seqZ 0 64) = true)
    by (vm_compute; reflexivity).
  rewrite forallb_forall in Hall. refine (proj1 (bool_decide_eq_true _) (Hall k _)). apply list_elem_of_In, elem_of_seqZ. lia.
Qed.

Lemma trailingZeroBits_spec x : word x -> 0 < x ->
  returns (trailingZeroBits x) (fun k => 0 <= k < _W /\ exists m, 0 <= m /\ x = 2 ^ k * (2 * m + 1)).
Proof.
  intros Hx Hpos. destruct (odd_part x Hpos) as (k & m & Hk & Hm & E).
  assert (k < 64).
  { destruct (decide (k < 64)); [done|]. exfalso. unfold word in Hx. rewrite _B_eq in Hx.
    pose proof (Z.pow_le_mono_r 2 64 k). nia. }
  unfold trailingZeroBits. rewrite _W_eq. cbn [Z.eqb Pos.eqb].
  rewrite (land_opp_pow2 x k m) by done. apply idx_returns. exists k.
  change (Z.land deBruijn64 _M) with deBruijn64. unfold Word. rewrite _B_eq.
  split; [apply deBruijn64_lookup; lia|]. split; [lia|eauto].
Qed.

(** * Shifts *)

Lemma nat_bitLen_spec x : normal x ->
  returns (nat_bitLen x) (fun n => n = if decide (val x = 0) then 0 else Z.log2 (val x) + 1).
Proof.
  intros Hx. unfold nat_bitLen. destruct (Nat.eqb_spec (length x) 0) as [H0|H0].
  { go_ret. rewrite (nil_length_inv x H0). done. }
  destruct (normal_snoc x Hx) as (l & w & -> & Hl & Hw & Hw0); [by intros ->|].
  rewrite length_app, lookup_app_r by (simpl; lia).
  replace (_ - _ - _)%nat with O by (simpl; lia). cbn [lookup list_lookup of_option mbind outcome_bind length].
  go_call bitLen_spec; [done|]. intros n Hn. go_ret. destruct (is_bitlen_log2 w n Hw0 Hn) as [-> _].
  pose proof (val_bound l Hl) as Hb. pose proof (Bpow_pos (length l)) as HP.
  rewrite val_app. cbn [val]. replace (Bpow (length l) * (w + _B * 0)) with (w * Bpow (length l)) by ring.
  rewrite decide_False by (pose proof (Z.mul_pos_pos w (Bpow (length l))); lia).
  assert (EB : Bpow (length l) = 2 ^ (Z.of_nat (length l) * _W)).
  { unfold Bpow. rewrite _B_eq, _W_eq, <- Z.pow_mul_r by lia. f_equal. lia. }
  rewrite EB in *. assert (Hlw : 0 <= Z.of_nat (length l) * _W) by (rewrite _W_eq; lia).
  enough (Z.log2 (val l + w * 2 ^ (Z.of_nat (length l) * _W)) = Z.log2 w + Z.of_nat (length l) * _W) as ->.
  { rewrite Nat.add_sub. lia. }
  apply Z.log2_unique; [pose proof (Z.log2_nonneg w); lia|].
  pose proof (Z.log2_spec w Hw0) as [H1 H2]. rewrite <- Z.add_succ_l, !Z.pow_add_r by (pose proof (Z.log2_nonneg w); lia).
  set (P := 2 ^ (Z.of_nat (length l) * _W)) in *.
  pose proof (Z.mul_le_mono_nonneg_r (2 ^ Z.log2 w) w P). pose proof (Z.mul_le_mono_nonneg_r (w + 1) (2 ^ Z.succ (Z.log2 w)) P).
  lia.
Qed.

Lemma Bpow_pow2 (n : nat) : Bpow n = 2 ^ (Z.of_nat n * _W).
Proof. unfold Bpow. rewrite _B_eq, _W_eq, <- Z.pow_mul_r by lia. f_equal. lia. Qed.

(** A shift count splits into words and bits. *)
Lemma shift_split s : 0 <= s ->
  0 <= s / _W /\ 0 <= s mod _W < _W /\ 2 ^ s = Bpow (Z.to_nat (s / _W)) * 2 ^ (s mod _W).
Proof.
  intros Hs. rewrite Bpow_pow2. pose proof (Z.div_mod s _W). pose proof (Z.mod_pos_bound s _W).
  pose proof (Z.div_pos s _W). rewrite _W_eq in *. split_and!; [lia..|].
  rewrite <- Z.pow_add_r by lia. f_equal. lia.
Qed.

Section Specs.
Context `{HA : Arith} {HL : ArithLaws HA}.

Lemma nat_shl_spec z x s : normal x -> 0 <= s -> returns (nat_shl z x s) (nat_is (val x * 2 ^ s)).
Proof.
  intros Hx Hs. unfold nat_shl. destruct (Nat.eqb_spec (length x) 0) as [H0|H0].
  { go_ret. rewrite (nil_length_inv x H0), nat_make_0. apply nat_is_nil. }
  destruct (shift_split s Hs) as (Hq & Hr & Hp). set (d := Z.to_nat (s / _W)) in *.
  set (z' := nat_make z _). assert (Hz' : length z' = (length x + d + 1)%nat) by apply length_nat_make.
  go_call shlVU_law; [lia|auto with words|done|]. intros [c l] (Hl & Hw & Hc & Hv). rewrite firstn_all in Hv.
  replace (length x + d - length x)%nat with d by lia.
  rewrite <- (take_drop d z'), put_app by (rewrite ?length_take, ?length_drop; lia). cbn [mbind outcome_bind].
  rewrite app_assoc, put_end by (rewrite ?length_app, ?length_take, ?length_drop; simpl; lia). cbn [mbind outcome_bind].
  rewrite sub_slice_done by (rewrite ?length_app, ?length_take; simpl; lia). cbn [mbind outcome_bind].
  rewrite nat_clear_zero, drop_0, length_take_le by (rewrite ?length_app, ?length_take; simpl; lia).
  rewrite Nat.sub_0_r, <- app_assoc, (put_mid0 (take d z')) by (rewrite length_replicate, length_take; lia).
  cbn [mbind outcome_bind]. go_ret.
  assert (Hwc : word c).
  { unfold word. split; [lia|]. apply Z.lt_le_trans with (2 ^ (s mod _W)); [lia|].
    rewrite _B_eq, <- _W_eq. apply Z.pow_le_mono_r; lia. }
  replace (val x * 2 ^ s) with (val (replicate d 0 ++ l ++ [c])); [apply nat_norm_spec; auto with words|].
  rewrite !val_app, val_replicate0, length_replicate, Hl, Hp. cbn [val].
  transitivity (Bpow d * (val l + c * Bpow (length x))); [ring|rewrite Hv; ring].
Qed.

Lemma nat_shr_spec z x s : normal x -> 0 <= s -> returns (nat_shr z x s) (nat_is (val x / 2 ^ s)).
Proof.
  intros Hx Hs. unfold nat_shr. destruct (shift_split s Hs) as (Hq & Hr & Hp).
  set (d := Z.to_nat (s / _W)) in *. assert (Hd : s / _W = Z.of_nat d) by lia. rewrite Hd.
  pose proof (val_bound x ltac:(auto with words)) as Hb. pose proof (Bpow_pos d).
  assert (H2 : 0 < 2 ^ (s mod _W)) by (apply Z.pow_pos_nonneg; lia).
  destruct (Z.leb_spec (Z.of_nat (length x) - Z.of_nat d) 0) as [Hle|Hgt].
  - go_ret. rewrite nat_make_0, Z.div_small; [apply nat_is_nil|].
    pose proof (Bpow_mono (length x) d ltac:(lia)).
    pose proof (Z.mul_le_mono_nonneg_l 1 (2 ^ (s mod _W)) (Bpow d)). lia.
  - replace (Z.to_nat _) with (length x - d)%nat by lia.
    replace (length x - (length x - d))%nat with d by lia.
    go_call shrVU_law; [rewrite length_drop; lia|auto with words|done|]. intros [c l] (Hl & Hw & Hv & _).
    rewrite firstn_all2 in Hv by (rewrite length_drop; lia).
    rewrite put_all by (rewrite length_nat_make; lia). cbn [mbind outcome_bind]. go_ret.
    replace (val x / 2 ^ s) with (val l); [by apply nat_norm_spec|].
    rewrite Hv, Hp, <- Z.div_div by lia. f_equal.
    rewrite (val_take_drop d x) by lia.
    pose proof (val_bound (take d x) ltac:(auto with words)) as Hbt. rewrite length_take_le in Hbt by lia.
    rewrite Z.mul_comm, Z.div_add, Z.div_small by lia. lia.
Qed.

(** The number is [q * 2^k] with [q] odd. *)
Lemma powersOfTwoDecompose_spec x : normal x -> x <> [] ->
  returns (powersOfTwoDecompose x) (fun '(q, k) =>
    normal q /\ 0 <= k /\ val x = val q * 2 ^ k /\ Z.odd (val q) = true).
Proof.
  intros Hx Hne. unfold powersOfTwoDecompose.
  rewrite (proj2 (Nat.eqb_neq _ _)) by (by intros ?%nil_length_inv).
  eapply returns_bind with (P := fun i => (i < length x)%nat /\ val (take i x) = 0 /\
    exists xi, x !! i = Some xi /\ 0 < xi).
  { apply (loop_returns (fun i => (i < length x)%nat /\ val (take i x) = 0) (fun i => (length x - i)%nat)).
    - intros i [Hi Hv]. destruct (lookup_lt_is_Some_2 x i Hi) as [xi Hxi]. rewrite Hxi.
      cbn [of_option mbind outcome_bind]. pose proof (words_lookup x i xi ltac:(auto with words) Hxi) as Hw.
      unfold word in Hw. destruct (Z.eqb_spec xi 0) as [->|Hxi0]; go_ret; [|split_and!; auto; exists xi; auto with lia].
      assert (val (take (S i) x) = 0) as Hv'.
      { rewrite (take_S_r _ _ _ Hxi), val_app, Hv. cbn [val]. ring. }
      destruct (decide (S i = length x)) as [e|]; [|split_and!; auto; lia]. exfalso.
      rewrite e, firstn_all in Hv'. by apply Hne, normal_zero.
    - rewrite take_0. split; [destruct x; [done|simpl; lia]|done].
    - lia. }
  intros i (Hi & Hv & xi & Hxi & Hpos). rewrite Hxi. cbn [of_option mbind outcome_bind].
  pose proof (words_lookup x i xi ltac:(auto with words) Hxi) as Hw.
  go_call trailingZeroBits_spec; [done|done|]. intros n (Hn & m & Hm & E).
  go_call shrVU_law; [rewrite length_drop; lia|auto with words|done|]. intros [c q] (Hl & Hwq & Vq & _).
  rewrite firstn_all2 in Vq by (rewrite length_drop; lia). go_ret.
  destruct (nat_norm_spec q Hwq) as [Hnq ->]. split_and!; auto; [rewrite _W_eq; lia| |].
  all: assert (Hd : val (drop i x) = (2 * (m + 2 ^ (_W - 1 - n) * val (drop (S i) x)) + 1) * 2 ^ n).
  1,3: rewrite (drop_S _ _ _ Hxi), val_cons, E, _B_eq, <- _W_eq;
    replace (2 ^ _W) with (2 * 2 ^ (_W - 1 - n) * 2 ^ n)
      by (rewrite <- Z.pow_succ_r, <- Z.pow_add_r by lia; f_equal; lia); ring.
  - rewrite (val_take_drop i x), Hv, Vq, Hd, Z.div_mul, Bpow_pow2, Z.pow_add_r by (rewrite ?_W_eq; lia). ring.
  - rewrite Vq, Hd, Z.div_mul by lia. rewrite Z.add_comm, Z.odd_add_mul_2. done.
Qed.

End Specs.

(** * Bit operations *)

(** The bits of a number from its lowest word and the rest. *)
Lemma digit_testbit x X n : word x -> 0 <= n ->
  Z.testbit (x + _B * X) n = if n <? _W then Z.testbit x n else Z.testbit X (n - _W).
Proof.
  intros Hx Hn. unfold word in Hx. rewrite _B_eq, <- _W_eq in *.
  assert (0 <= _W) by (rewrite _W_eq; lia).
  rewrite (Z.mul_comm _ X), Z.add_comm, <- lor_add, Z.lor_spec by done. case_bool.
  - by rewrite Z.mul_pow2_bits_low.
  - rewrite Z.mul_pow2_bits by done. rewrite <- (Z.mod_small x (2 ^ _W)) by done.
    rewrite Z.mod_pow2_bits_high by lia. apply orb_false_r.
Qed.

(** Word-by-word evaluation of an operation [op] that acts on each bit by [f]. *)
Section Bitwise.
Variables (op : Z -> Z -> Z) (f : bool -> bool -> bool).
Hypothesis op_spec : forall a b n, 0 <= n -> Z.testbit (op a b) n = f (Z.testbit a n) (Z.testbit b n).
Hypothesis f_false : f false false = false.

Lemma op_word x y : word x -> word y -> word (op x y).
Proof.
  intros Hx Hy. enough (op x y = op x y mod _B) as ->; [apply (Word_word (op x y))|].
  unfold word in *. rewrite _B_eq in *. apply Z.bits_inj'. intros n Hn.
  destruct (decide (n < 64)); [by rewrite Z.mod_pow2_bits_low|].
  rewrite Z.mod_pow2_bits_high, op_spec by lia.
  by rewrite <- (Z.mod_small x (2 ^ 64)), <- (Z.mod_small y (2 ^ 64)), !Z.mod_pow2_bits_high by lia.
Qed.

Lemma op_zero : op 0 0 = 0.
Proof. apply Z.bits_inj'. intros n Hn. by rewrite op_spec, !Z.bits_0. Qed.

Lemma op_digit x X y Y : word x -> word y ->
  op (x + _B * X) (y + _B * Y) = op x y + _B * op X Y.
Proof.
  intros Hx Hy. apply Z.bits_inj'. intros n Hn. pose proof (op_word x y Hx Hy).
  rewrite op_spec, !digit_testbit by done.
  destruct (Z.ltb_spec n _W); rewrite op_spec; auto. lia.
Qed.

Lemma val_map_r y : words y -> val (map (op 0) y) = op 0 (val y).
Proof.
  induction 1 as [|b y Hb Hy IH]; cbn [map val]; [by rewrite op_zero|].
  rewrite IH, <- op_digit by auto with words. f_equal; ring.
Qed.

Lemma val_map_l x : words x -> val (map (fun a => op a 0) x) = op (val x) 0.
Proof.
  induction 1 as [|a x Ha Hx IH]; cbn [map val]; [by rewrite op_zero|].
  rewrite IH, <- op_digit by auto with words. f_equal; ring.
Qed.

Lemma val_zip x : words x -> forall y, words y ->
  val (zip_with op x y ++ map (fun a => op a 0) (drop (length y) x) ++ map (op 0) (drop (length x) y)) =
  op (val x) (val y).
Proof.
  induction 1 as [|a x Ha Hx IH]; intros y Hy.
  - cbn [zip_with app length drop map]. rewrite drop_nil, drop_0. cbn [map app]. by apply val_map_r.
  - destruct y as [|b y].
    + cbn [zip_with app length]. rewrite drop_nil, drop_0. cbn [map]. rewrite app_nil_r. by apply (val_map_l (a :: x)), Forall_cons.
    + apply words_cons in Hy as [Hb Hy]. cbn [zip_with app length drop map val].
      by rewrite IH, <- op_digit.
Qed.

Lemma words_zip x : words x -> forall y, words y -> words (zip_with op x y).
Proof.
  induction 1 as [|a x Ha Hx IH]; intros [|b y] Hy; cbn [zip_with]; auto with words.
  apply words_cons in Hy as [Hb Hy]. apply words_cons. auto using op_word.
Qed.
End Bitwise.

Lemma map_zero (l : list Z) (g : Z -> Z) : (forall a, g a = 0) -> map g l = replicate (length l) 0.
Proof. intros Hg. induction l; simpl; [done|]. by rewrite Hg, IHl. Qed.

Lemma map_same (l : list Z) (g : Z -> Z) : (forall a, g a = a) -> map g l = l.
Proof. intros Hg. induction l; simpl; [done|]. by rewrite Hg, IHl. Qed.

Lemma zip_with_take {A B C} (g : A -> B -> C) x y n :
  (Nat.min (length x) (length y) <= n)%nat -> zip_with g (take n x) (take n y) = zip_with g x y.
Proof.
  revert x y. induction n as [|n IH]; intros [|a x] [|b y] Hn; simpl in *; try done; try lia.
  rewrite IH; [done|lia].
Qed.

Lemma val_app_zeros l n : val (l ++ replicate n 0) = val l.
Proof. rewrite val_app, val_replicate0. ring. Qed.

Lemma nat_and_spec z x y : words x -> words y -> returns (nat_and z x y) (nat_is (Z.land (val x) (val y))).
Proof.
  intros Hx Hy. unfold nat_and. set (m := if (length y <? length x)%nat then length y else length x).
  assert (Hm : m = Nat.min (length x) (length y)).
  { unfold m. destruct (Nat.ltb_spec (length y) (length x)); lia. }
  rewrite zip_with_take by lia.
  rewrite put_all by (rewrite length_nat_make, length_zip_with; lia). cbn [mbind outcome_bind]. go_ret.
  rewrite <- (val_zip Z.land andb) by (auto using Z.land_spec).
  rewrite (map_zero (drop (length y) x)), (map_zero (drop (length x) y)) by (intros; rewrite ?Z.land_0_r; done).
  rewrite <- replicate_add, val_app_zeros. apply nat_norm_spec.
  apply (words_zip Z.land andb); auto using Z.land_spec.
Qed.

Lemma nat_andNot_spec z x y : words x -> words y -> returns (nat_andNot z x y) (nat_is (Z.ldiff (val x) (val y))).
Proof.
  intros Hx Hy. unfold nat_andNot. set (n := if (length x <? length y)%nat then length x else length y).
  assert (Hn : n = Nat.min (length x) (length y)).
  { unfold n. destruct (Nat.ltb_spec (length x) (length y)); lia. }
  rewrite zip_with_take by lia.
  rewrite put_0 by (rewrite length_nat_make, length_zip_with; lia). cbn [mbind outcome_bind].
  rewrite sub_slice_done by lia. cbn [mbind outcome_bind].
  rewrite put_end by (rewrite ?length_take, ?length_drop, ?length_nat_make, ?length_zip_with; lia).
  cbn [mbind outcome_bind]. go_ret. rewrite firstn_all2 by (rewrite length_drop; lia).
  rewrite <- (val_zip Z.ldiff (fun a b => a && negb b)) by (auto using Z.ldiff_spec).
  rewrite (map_same (drop (length y) x)), (map_zero (drop (length x) y)) by (intros; rewrite ?Z.ldiff_0_r; done).
  rewrite app_assoc, val_app_zeros.
  replace (drop n x) with (drop (length y) x).
  - apply nat_norm_spec, words_app. split; [|auto with words].
    apply (words_zip Z.ldiff (fun a b => a && negb b)); auto using Z.ldiff_spec.
  - destruct (decide (length y <= length x)%nat); [f_equal; lia|]. by rewrite !drop_ge by lia.
Qed.

Lemma nat_bitop_spec op f z x y :
  (forall a b n, 0 <= n -> Z.testbit (op a b) n = f (Z.testbit a n) (Z.testbit b n)) ->
  f false false = false -> (forall a, op a 0 = a) -> (forall a, op 0 a = a) ->
  words x -> words y -> returns (nat_bitop op z x y) (nat_is (op (val x) (val y))).
Proof.
  intros Hop Hf Hr Hl Hx Hy. unfold nat_bitop.
  assert (Hw : words (zip_with op x y)) by by apply (words_zip op f).
  rewrite <- (val_zip op f) by done.
  rewrite (map_same _ (fun a => op a 0)), (map_same _ (op 0)) by done.
  destruct (Nat.ltb_spec (length x) (length y)) as [Hlt|Hge].
  all: rewrite zip_with_take by lia.
  all: rewrite put_0 by (rewrite length_nat_make, length_zip_with; lia); cbn [mbind outcome_bind].
  all: rewrite sub_slice_done by lia; cbn [mbind outcome_bind].
  all: rewrite put_end by (rewrite ?length_take, ?length_drop, ?length_nat_make, ?length_zip_with; lia);
    cbn [mbind outcome_bind]; go_ret.
  - rewrite (drop_ge x), firstn_all2 by (rewrite ?length_drop; lia). apply nat_norm_spec; auto with words.
  - rewrite (drop_ge y), app_nil_r, firstn_all2 by (rewrite ?length_drop; lia). apply nat_norm_spec; auto with words.
Qed.

Lemma nat_or_spec z x y : words x -> words y -> returns (nat_or z x y) (nat_is (Z.lor (val x) (val y))).
Proof. apply (nat_bitop_spec Z.lor orb); auto using Z.lor_spec, Z.lor_0_r. Qed.

Lemma nat_xor_spec z x y : words x -> words y -> returns (nat_xor z x y) (nat_is (Z.lxor (val x) (val y))).
Proof. apply (nat_bitop_spec Z.lxor xorb); auto using Z.lxor_spec, Z.lxor_0_r. Qed.

(** * Single bits *)

(** The bits of a number, word by word. *)
Lemma val_testbit l : words l -> forall i, 0 <= i ->
  Z.testbit (val l) i =
  match l !! Z.to_nat (i / _W) with Some w => Z.testbit w (i mod _W) | None => false end.
Proof.
  assert (HW : 0 < _W) by (rewrite _W_eq; lia).
  induction 1 as [|w l Hw Hl IH]; intros i Hi; cbn [val]; [by rewrite Z.bits_0|].
  rewrite digit_testbit by done. destruct (Z.ltb_spec i _W).
  - by rewrite Z.div_small, Z.mod_small by lia.
  - rewrite IH by lia. pose proof (Z.div_pos (i - _W) _W).
    assert (Hi' : i = (i - _W) + 1 * _W) by ring.
    assert (i / _W = (i - _W) / _W + 1) as -> by (rewrite Hi' at 1; apply Z.div_add; lia).
    assert (i mod _W = (i - _W) mod _W) as -> by (rewrite Hi' at 1; apply Z.mod_add; lia).
    by replace (Z.to_nat ((i - _W) / _W + 1)) with (S (Z.to_nat ((i - _W) / _W))) by lia.
Qed.

Lemma nat_bit_spec z i : words z -> 0 <= i -> nat_bit z i = Done (Z.b2z (Z.testbit (val z) i)).
Proof.
  intros Hz Hi. unfold nat_bit. rewrite val_testbit by done.
  destruct (Nat.leb_spec (length z) (Z.to_nat (i / _W))) as [Hge|Hlt].
  - by rewrite lookup_ge_None_2.
  - destruct (lookup_lt_is_Some_2 z _ Hlt) as [w ->]. cbn [of_option mbind outcome_bind]. f_equal.
    assert (0 <= i mod _W) by (apply Z.mod_pos_bound; rewrite _W_eq; lia).
    change 1 with (Z.ones 1). rewrite Z.land_ones, Z.shiftr_div_pow2, Z.testbit_spec' by lia. done.
Qed.

Lemma bit_mask_spec i n : 0 <= i -> 0 <= n < _W ->
  word (bit_mask i) /\ bit_mask i <> 0 /\ Z.testbit (bit_mask i) n = (n =? i mod _W).
Proof.
  intros Hi Hn. unfold bit_mask. pose proof (Z.mod_pos_bound i _W ltac:(lia)) as Hm.
  rewrite Z.shiftl_mul_pow2, Z.mul_1_l by lia.
  assert (Hp : 0 < 2 ^ (i mod _W) < _B).
  { rewrite _B_eq, <- _W_eq. split; [apply Z.pow_pos_nonneg; lia|apply Z.pow_lt_mono_r; lia]. }
  rewrite Word_small by (unfold word; lia). split_and!; [unfold word; lia|lia|].
  rewrite Z.pow2_bits_eqb by lia. apply Z.eqb_sym.
Qed.

(** Setting or clearing a bit of one word, as seen from the value. *)
Lemma val_update_bits l j w w' i : words l -> word w' -> 0 <= i -> l !! j = Some w ->
  Z.testbit (val (<[j:=w']> l)) i =
  if (Z.to_nat (i / _W) =? j)%nat then Z.testbit w' (i mod _W) else Z.testbit (val l) i.
Proof.
  intros Hl Hw' Hi Hj. pose proof (lookup_lt_Some _ _ _ Hj).
  rewrite !val_testbit by (auto; by apply Forall_insert).
  destruct (Nat.eqb_spec (Z.to_nat (i / _W)) j) as [->|].
  - by rewrite list_lookup_insert_eq.
  - by rewrite list_lookup_insert_ne.
Qed.

Lemma same_bit i n : 0 <= i -> 0 <= n -> Z.to_nat (n / _W) = Z.to_nat (i / _W) ->
  (n mod _W =? i mod _W) = (i =? n).
Proof.
  intros Hi Hn He. assert (0 < _W) by (rewrite _W_eq; lia).
  pose proof (Z.div_pos i _W). pose proof (Z.div_pos n _W).
  pose proof (Z.div_mod i _W). pose proof (Z.div_mod n _W).
  destruct (Z.eqb_spec i n) as [->|Hne]; [apply Z.eqb_refl|]. apply Z.eqb_neq. intros Hm.
  apply Hne. assert (i / _W = n / _W) as Hd by lia. rewrite Hm, Hd in *. lia.
Qed.

Lemma other_word i n : 0 <= n -> Z.to_nat (n / _W) <> Z.to_nat (i / _W) -> (i =? n) = false.
Proof. intros Hn Hne. apply Z.eqb_neq. by intros ->. Qed.

Lemma setbit_word l i w : words l -> 0 <= i -> l !! Z.to_nat (i / _W) = Some w ->
  val (<[Z.to_nat (i / _W) := Z.lor w (bit_mask i)]> l) = Z.setbit (val l) i.
Proof.
  intros Hl Hi Hw. assert (HW : 0 < _W) by (rewrite _W_eq; lia).
  apply Z.bits_inj'. intros n Hn. pose proof (Z.mod_pos_bound n _W HW) as Hm.
  destruct (bit_mask_spec i (n mod _W) Hi Hm) as (Hmw & _ & Hmb).
  rewrite (val_update_bits l _ w) by (auto; apply (op_word Z.lor orb); auto using Z.lor_spec; by eapply words_lookup).
  rewrite Z.setbit_eqb by done.
  destruct (Nat.eqb_spec (Z.to_nat (n / _W)) (Z.to_nat (i / _W))) as [He|Hne].
  - rewrite Z.lor_spec, Hmb, same_bit, orb_comm by done. f_equal.
    rewrite val_testbit by done. by rewrite He, Hw.
  - by rewrite other_word by done.
Qed.

Lemma clearbit_word l i w : words l -> 0 <= i -> l !! Z.to_nat (i / _W) = Some w ->
  val (<[Z.to_nat (i / _W) := Z.ldiff w (bit_mask i)]> l) = Z.clearbit (val l) i.
Proof.
  intros Hl Hi Hw. assert (HW : 0 < _W) by (rewrite _W_eq; lia).
  apply Z.bits_inj'. intros n Hn. pose proof (Z.mod_pos_bound n _W HW) as Hm.
  destruct (bit_mask_spec i (n mod _W) Hi Hm) as (Hmw & _ & Hmb).
  rewrite (val_update_bits l _ w)
    by (auto; apply (op_word Z.ldiff (fun a b => a && negb b)); auto using Z.ldiff_spec; by eapply words_lookup).
  rewrite Z.clearbit_eqb by done.
  destruct (Nat.eqb_spec (Z.to_nat (n / _W)) (Z.to_nat (i / _W))) as [He|Hne].
  - rewrite Z.ldiff_spec, Hmb, same_bit by done. f_equal.
    rewrite val_testbit by done. by rewrite He, Hw.
  - by rewrite other_word, andb_true_r by done.
Qed.

(** The words of [z.make(n)] beyond [x], which [setBit] leaves as they are. *)
Definition setBit_tail (z x : list Z) (i : Z) : list Z :=
  let j := Z.to_nat (i / _W) in
  drop (length x) (nat_make z (if (length x <=? j)%nat then (j + 1)%nat else length x)).

Lemma nat_setBit_one z x i : words z -> words x -> 0 <= i ->
  let j := Z.to_nat (i / _W) in
  let l := x ++ setBit_tail z x i in
  words l /\ length l = Nat.max (length x) (j + 1) /\ exists w, l !! j = Some w /\
    nat_setBit z x i 1 = Done (<[j:=Z.lor w (bit_mask i)]> l).
Proof.
  intros Hz Hx Hi j l. unfold nat_setBit, setBit_tail in *. cbn [Z.eqb Pos.eqb]. fold j in l |- *.
  set (n := if (length x <=? j)%nat then (j + 1)%nat else length x) in *.
  assert (Hn : n = Nat.max (length x) (j + 1)).
  { unfold n. destruct (Nat.leb_spec (length x) j); lia. }
  rewrite put_0 by (rewrite length_nat_make; lia). cbn [mbind outcome_bind]. fold l.
  assert (Hl : length l = Nat.max (length x) (j + 1)).
  { unfold l. rewrite length_app, length_drop, length_nat_make. lia. }
  split_and!; [unfold l; auto with words|done|].
  destruct (lookup_lt_is_Some_2 l j ltac:(lia)) as [w Hw]. exists w. split; [done|].
  rewrite Hw. cbn [of_option mbind outcome_bind]. apply put_one. lia.
Qed.

(** The result's leading word is not zero. *)
Lemma setBit_last l x j w m : l = x ++ drop (length x) l -> normal x -> length l = Nat.max (length x) (j + 1) ->
  l !! j = Some w -> m <> 0 -> list.last (<[j:=Z.lor w m]> l) <> Some 0.
Proof.
  intros El Hx Hl Hw Hm. rewrite last_lookup, length_insert.
  destruct (decide (pred (length l) = j)) as [->|Hne].
  - rewrite list_lookup_insert_eq by (by eapply lookup_lt_Some). intros [=H0].
    apply Z.lor_eq_0_iff in H0 as [_ ?]. done.
  - rewrite list_lookup_insert_ne by done. assert (Hlen : length l = length x) by lia.
    assert (l = x) as -> by (etransitivity; [exact El|]; by rewrite drop_ge, app_nil_r by lia).
    rewrite <- last_lookup. apply Hx.
Qed.

Lemma nat_setBit_set z x i : words z -> normal x -> 0 <= i ->
  setBit_tail z x i = replicate (length (setBit_tail z x i)) 0 ->
  returns (nat_setBit z x i 1) (nat_is (Z.setbit (val x) i)).
Proof.
  intros Hz Hx Hi Ht. destruct (nat_setBit_one z x i) as (Hwl & Hl & w & Hw & ->); [auto with words..|].
  assert (HW : 0 <= 0 < _W) by (rewrite _W_eq; lia). destruct (bit_mask_spec i 0 Hi HW) as (Hm & Hm0 & _).
  set (l := x ++ setBit_tail z x i) in *. go_ret. split.
  - split; [apply Forall_insert; [done|]; apply (op_word Z.lor orb); auto using Z.lor_spec; by eapply words_lookup|].
    apply (setBit_last l x); auto. unfold l at 2. by rewrite drop_app_length.
  - rewrite (setbit_word l i w) by done. unfold l. by rewrite Ht, val_app_zeros.
Qed.

Lemma nat_setBit_clear z x i : normal x -> 0 <= i ->
  returns (nat_setBit z x i 0) (nat_is (Z.clearbit (val x) i)).
Proof.
  intros Hx Hi. unfold nat_setBit. cbn [Z.eqb].
  rewrite put_all by by rewrite length_nat_make. cbn [mbind outcome_bind].
  assert (HW : 0 <= 0 < _W) by (rewrite _W_eq; lia). destruct (bit_mask_spec i 0 Hi HW) as (Hm & Hm0 & _).
  destruct (Nat.leb_spec (length x) (Z.to_nat (i / _W))) as [Hge|Hlt].
  - go_ret. split; [done|]. apply Z.bits_inj'. intros n Hn. rewrite Z.clearbit_eqb by done.
    destruct (Z.eqb_spec i n) as [->|]; cbn [negb]; [|by rewrite andb_true_r].
    rewrite val_testbit by auto with words. by rewrite lookup_ge_None_2.
  - destruct (lookup_lt_is_Some_2 x _ Hlt) as [w Hw]. rewrite Hw. cbn [of_option mbind outcome_bind].
    rewrite put_one by done. cbn [mbind outcome_bind]. go_ret.
    rewrite <- (clearbit_word x i w) by auto with words. apply nat_norm_spec, Forall_insert; [by apply normal_words|].
    apply (op_word Z.ldiff (fun a b => a && negb b)); auto using Z.ldiff_spec.
    apply (words_lookup x (Z.to_nat (i / _W))); auto with words.
Qed.

(** A non-zero word has a bit set. *)
Lemma word_has_bit w : word w -> w <> 0 -> exists b, 0 <= b < _W /\ Z.testbit w b = true.
Proof.
  intros Hw Hne. unfold word in Hw. exists (Z.log2 w). split; [|apply Z.bit_log2; lia].
  split; [apply Z.log2_nonneg|]. apply Z.log2_lt_pow2; [lia|]. rewrite _W_eq, <- _B_eq. lia.
Qed.

Lemma nat_setBit_stale_spec z x i k w : words z -> words x -> 0 <= i ->
  let j := Z.to_nat (i / _W) in
  (length x <= k < j)%nat -> (j < length z)%nat -> z !! k = Some w -> w <> 0 ->
  returns (nat_setBit z x i 1) (fun r => val r <> Z.setbit (val x) i).
Proof.
  intros Hz Hx Hi j Hk Hj Hzk Hw0. destruct (nat_setBit_one z x i Hz Hx Hi) as (Hwl & Hl & v & Hv & ->).
  fold j in Hl, Hv |- *. set (l := x ++ setBit_tail z x i) in *. go_ret. intros Heq.
  assert (Hlk : l !! k = Some w).
  { unfold l, setBit_tail. fold j. rewrite lookup_app_r by lia. rewrite lookup_drop.
    rewrite (proj2 (Nat.leb_le _ _)) by lia. unfold nat_make. rewrite (proj2 (Nat.leb_le _ _)) by lia.
    replace (length x + (k - length x))%nat with k by lia. by rewrite lookup_take_lt by lia. }
  destruct (word_has_bit w (words_lookup z k w Hz Hzk) Hw0) as (b & Hb & Hbit).
  assert (HW : 0 < _W) by lia. set (n := Z.of_nat k * _W + b).
  assert (Hn : n / _W = Z.of_nat k /\ n mod _W = b).
  { unfold n. rewrite Z.add_comm, Z.div_add, Z.mod_add, Z.div_small, Z.mod_small by lia. lia. }
  assert (0 <= n) by lia. destruct (bit_mask_spec i 0 Hi ltac:(lia)) as (Hm & _ & _).
  apply (f_equal (fun a => Z.testbit a n)) in Heq.
  rewrite (val_update_bits l j v) in Heq
    by (auto; apply (op_word Z.lor orb); auto using Z.lor_spec; by eapply words_lookup).
  destruct Hn as [Hn1 Hn2]. rewrite Hn1, Nat2Z.id, (proj2 (Nat.eqb_neq k j)) in Heq by lia.
  rewrite val_testbit, Hn1, Nat2Z.id, Hlk, Hn2, Hbit, Z.setbit_eqb, (other_word i n) in Heq;
    [|done|rewrite Hn1, Nat2Z.id; fold j; lia|done|done|done].
  rewrite val_testbit, Hn1, Nat2Z.id, lookup_ge_None_2 in Heq by (done || lia). done.
Qed.

(** * Bytes *)

(** The value of a byte string, most significant byte first. *)
Definition be_val (l : list Z) : Z := foldl (fun a b => a * 256 + b) 0 l.

Lemma be_val_acc l : forall a, foldl (fun a b => a * 256 + b) a l = a * 256 ^ zlen l + be_val l.
Proof.
  induction l as [|b l IH]; intros a; unfold be_val; cbn [foldl]; [unfold zlen; cbn; lia|].
  rewrite !IH, zlen_cons, Z.pow_add_r by (unfold zlen; lia). ring.
Qed.

Lemma be_val_app l1 l2 : be_val (l1 ++ l2) = be_val l1 * 256 ^ zlen l2 + be_val l2.
Proof. unfold be_val at 1. rewrite foldl_app. apply be_val_acc. Qed.

Lemma be_val_bound l : Forall is_byte l -> 0 <= be_val l < 256 ^ zlen l.
Proof.
  induction l as [|b l IH] using rev_ind; intros Hl; [done|].
  apply Forall_app in Hl as [Hl [Hb _]%Forall_cons_iff]. specialize (IH Hl).
  rewrite be_val_app, zlen_app, Z.pow_add_r by (unfold zlen; lia).
  change (be_val [b]) with (0 * 256 + b). change (zlen [b]) with 1. unfold is_byte in Hb. lia.
Qed.

Lemma set_idx_app {A} (p : list A) x r i v : zlen p = i ->
  set_idx (p ++ x :: r) i v = Done (p ++ v :: r).
Proof.
  intros <-. rewrite set_idx_done by (rewrite zlen_app, zlen_cons; unfold zlen; lia).
  unfold zlen. rewrite Nat2Z.id. f_equal. rewrite insert_app_r_alt, Nat.sub_diag by lia. done.
Qed.

Lemma bytes_word_spec j : forall p suf d, (j <= length p)%nat -> 0 <= d ->
  exists ds, bytes_word j (p ++ suf) (zlen p) d = Done (take (length p - j) p ++ ds ++ suf, zlen p - Z.of_nat j) /\
    length ds = j /\ Forall is_byte ds /\ be_val ds = d mod 256 ^ Z.of_nat j.
Proof.
  induction j as [|j IH]; intros p suf d Hj Hd; cbn [bytes_word].
  { exists []. rewrite Nat.sub_0_r, firstn_all, Z.sub_0_r, Z.mod_1_r. by repeat split. }
  destruct (exists_last (l:=p)) as (p' & b & ->); [by intros ->; simpl in Hj; lia|].
  rewrite length_app in Hj |- *. cbn [length] in Hj |- *.
  rewrite zlen_app. change (zlen [b]) with 1. rewrite <- app_assoc. cbn [app].
  rewrite set_idx_app by lia. cbn [mbind outcome_bind].
  replace (zlen p' + 1 - 1) with (zlen p') by lia.
  destruct (IH p' (byte d :: suf) (Z.shiftr d 8)) as (ds & -> & Hl & Hb & Hv); [lia|by apply Z.shiftr_nonneg|].
  exists (ds ++ [byte d]). rewrite length_app. cbn [length].
  replace (length p' + 1 - S j)%nat with (length p' - j)%nat by lia.
  rewrite take_app_le, <- (app_assoc ds) by lia. split_and!; [|lia| |].
  - do 2 f_equal. lia.
  - apply Forall_app. split; [done|]. constructor; [|constructor]. apply (wrap_range 8). lia.
  - rewrite be_val_app, Hv. change (zlen [byte d]) with 1. change (be_val [byte d]) with (0 * 256 + byte d).
    unfold byte, wrap. rewrite Z.shiftr_div_pow2, Nat2Z.inj_succ, Z.pow_succ_r by lia.
    change (2 ^ 8) with 256. rewrite Z.rem_mul_r by (try apply Z.pow_nonzero; lia). change (256 ^ 1) with 256. ring.
Qed.

Lemma bytes_words_spec z : words z -> forall p suf, (8 * length z <= length p)%nat ->
  exists ws, bytes_words z (p ++ suf) (zlen p) =
      Done (take (length p - 8 * length z) p ++ ws ++ suf, zlen p - 8 * zlen z) /\
    length ws = (8 * length z)%nat /\ Forall is_byte ws /\ be_val ws = val z.
Proof.
  induction 1 as [|d z Hd Hz IH]; intros p suf Hl; cbn [bytes_words length].
  { exists []. rewrite Nat.mul_0_r, Nat.sub_0_r, firstn_all, Z.sub_0_r. by repeat split. }
  cbn [length] in Hl. change (Z.to_nat _S) with 8%nat. unfold word in Hd.
  destruct (bytes_word_spec 8 p suf d) as (ds & -> & Hlds & Hbds & Hvds); [lia|lia|]. cbn [mbind outcome_bind].
  set (p' := take (length p - 8) p).
  assert (Hp' : length p' = (length p - 8)%nat) by (unfold p'; rewrite length_take; lia).
  replace (zlen p - Z.of_nat 8) with (zlen p') by (unfold zlen; lia).
  destruct (IH p' (ds ++ suf)) as (ws & -> & Hlws & Hbws & Hvws); [lia|].
  exists (ws ++ ds). rewrite length_app, <- app_assoc. split_and!; [|lia|by apply Forall_app|].
  - unfold p' at 2. rewrite take_take, zlen_cons, Hp'.
    replace (Nat.min _ _) with (length p - 8 * S (length z))%nat by lia. do 2 f_equal. unfold zlen. lia.
  - rewrite be_val_app, Hvws, Hvds. unfold zlen. rewrite Hlds. cbn [val].
    change (256 ^ Z.of_nat 8) with (2 ^ 64). rewrite <- _B_eq, Z.mod_small by lia. ring.
Qed.

Lemma skip_zeros_spec buf i : 0 <= i <= zlen buf -> Forall is_byte (drop (Z.to_nat i) buf) ->
  returns (loop (S (length buf)) (fun i =>
    if i <? zlen buf then
      b ← idx buf i;
      if b =? 0 then Done (inl (i + 1)) else Done (inr i)
    else Done (inr i)) i) (fun k => i <= k <= zlen buf /\
      be_val (drop (Z.to_nat k) buf) = be_val (drop (Z.to_nat i) buf) /\
      (k = zlen buf \/ exists b, buf.[k] = Some b /\ b <> 0)).
Proof.
  intros Hi Hb. apply (loop_returns
    (fun k => i <= k <= zlen buf /\ be_val (drop (Z.to_nat k) buf) = be_val (drop (Z.to_nat i) buf))
    (fun k => Z.to_nat (zlen buf - k))); [|split; [lia|done]|unfold zlen; lia].
  intros k [Hk Hv]. destruct (Z.ltb_spec k (zlen buf)) as [Hlt|]; [|go_ret; split_and!; [lia|lia|done|left; lia]].
  destruct (zlookup_lt buf k ltac:(lia)) as [b Hkb]. rewrite (idx_done _ _ _ Hkb). cbn [mbind outcome_bind].
  destruct (Z.eqb_spec b 0) as [->|Hb0]; go_ret; [|split_and!; [lia|lia|done|right; eauto]].
  split; [|lia]. split; [lia|]. rewrite <- Hv.
  rewrite zlookup_nonneg in Hkb by lia. rewrite (drop_S _ _ _ Hkb).
  replace (Z.to_nat (k + 1)) with (S (Z.to_nat k)) by lia.
  change (0 :: drop (S (Z.to_nat k)) buf) with ([0] ++ drop (S (Z.to_nat k)) buf).
  rewrite be_val_app. change (be_val [0]) with 0. lia.
Qed.

Lemma nat_bytes_spec z buf : words z -> (8 * length z <= length buf)%nat ->
  returns (nat_bytes z buf) (fun '(buf', i) =>
    length buf' = length buf /\ zlen buf - 8 * zlen z <= i <= zlen buf' /\ Forall is_byte (drop (Z.to_nat i) buf') /\
    be_val (drop (Z.to_nat i) buf') = val z /\ (i = zlen buf' \/ exists b, buf'.[i] = Some b /\ b <> 0)).
Proof.
  intros Hz Hl. unfold nat_bytes.
  destruct (bytes_words_spec z Hz buf [] Hl) as (ws & Heq & Hlws & Hbws & Hvws).
  rewrite app_nil_r in Heq. rewrite Heq. cbn [mbind outcome_bind].
  set (pre := take (length buf - 8 * length z) buf).
  assert (Hpre : length pre = (length buf - 8 * length z)%nat) by (unfold pre; rewrite length_take; lia).
  rewrite app_nil_r. replace (zlen buf - 8 * zlen z) with (zlen pre) by (unfold zlen; lia).
  assert (Hd : drop (Z.to_nat (zlen pre)) (pre ++ ws) = ws).
  { unfold zlen. rewrite Nat2Z.id. apply drop_app_length. }
  pose proof (zlen_nonneg pre). assert (Hlen : zlen (pre ++ ws) = zlen buf) by (unfold zlen; rewrite length_app; lia).
  go_call skip_zeros_spec; [rewrite zlen_app; pose proof (zlen_nonneg ws); lia|by rewrite Hd|].
  intros k (Hk & Hv & Hnz). go_ret. rewrite Hd in Hv. split_and!; auto; [unfold zlen in Hlen; lia|unfold zlen in *; lia|lia| |congruence].
  rewrite <- Hd in Hbws.
  replace (Z.to_nat k) with (Z.to_nat (zlen pre) + (Z.to_nat k - Z.to_nat (zlen pre)))%nat by lia.
  rewrite <- drop_drop. by apply Forall_drop.
Qed.

(** After the bytes from [i] on, [8*k+t] of them, [k] words are stored and the
    next word has [t] bytes. *)
Definition setBytes_inv (buf : list Z) (N : nat) (z : list Z) (k s d i t : Z) : Prop :=
  0 <= i /\ 0 <= k /\ 0 <= t < 8 /\ s = 8 * t /\ zlen buf - i = 8 * k + t /\ 0 <= d < 256 ^ t /\
  length z = N /\ words z /\ be_val (drop (Z.to_nat i) buf) = val (take (Z.to_nat k) z) + Bpow (Z.to_nat k) * d.

Lemma pow256 n : 0 <= n -> 256 ^ n = 2 ^ (8 * n).
Proof. intros. by rewrite Z.pow_mul_r by lia. Qed.

Lemma drop_byte buf i b : 0 < i -> buf.[i - 1] = Some b ->
  be_val (drop (Z.to_nat (i - 1)) buf) = b * 256 ^ (zlen buf - i) + be_val (drop (Z.to_nat i) buf).
Proof.
  intros Hi Hb. pose proof (zlookup_Some_lt _ _ _ Hb). rewrite zlookup_nonneg in Hb by lia.
  rewrite (drop_S _ _ _ Hb). replace (S (Z.to_nat (i - 1))) with (Z.to_nat i) by lia.
  change (b :: drop (Z.to_nat i) buf) with ([b] ++ drop (Z.to_nat i) buf).
  rewrite be_val_app, zlen_drop. change (be_val [b]) with (0 * 256 + b).
  replace (Z.max 0 (zlen buf - Z.of_nat (Z.to_nat i))) with (zlen buf - i) by lia. ring.
Qed.

Lemma setBytes_digit d b t : 0 <= t < 8 -> 0 <= d < 256 ^ t -> is_byte b ->
  Z.lor d (Word (Z.shiftl b (8 * t))) = d + b * 256 ^ t /\ 0 <= d + b * 256 ^ t < 256 ^ (t + 1).
Proof.
  intros Ht Hd Hb. unfold is_byte in Hb. rewrite Z.shiftl_mul_pow2 by lia.
  rewrite !pow256 in * by lia. replace (8 * (t + 1)) with (8 + 8 * t) by ring. rewrite Z.pow_add_r by lia.
  assert (Hb1 : 0 <= b * 2 ^ (8 * t) /\ b * 2 ^ (8 * t) + 2 ^ (8 * t) <= 2 ^ 8 * 2 ^ (8 * t)).
  { split; [lia|]. replace (b * 2 ^ (8 * t) + 2 ^ (8 * t)) with ((b + 1) * 2 ^ (8 * t)) by ring.
    apply Z.mul_le_mono_nonneg_r; lia. }
  assert (2 ^ 8 * 2 ^ (8 * t) <= _B).
  { rewrite <- Z.pow_add_r, _B_eq by lia. apply Z.pow_le_mono_r; lia. }
  rewrite Word_small by (unfold word; lia). rewrite Z.lor_comm, lor_add by lia. lia.
Qed.

Lemma setBytes_step buf N z k s d i t b : setBytes_inv buf N z k s d i t -> (zlen buf + 7) / 8 = Z.of_nat N ->
  0 < i -> buf.[i - 1] = Some b -> is_byte b ->
  let d' := Z.lor d (Word (Z.shiftl b s)) in
  if s + 8 =? 64
  then exists z', set_idx z k d' = Done z' /\ setBytes_inv buf N z' (k + 1) 0 0 (i - 1) 0
  else setBytes_inv buf N z k (s + 8) d' (i - 1) (t + 1).
Proof.
  intros (Hi & Hk & Ht & -> & Hlen & Hd & Hlz & Hz & Hv) HN Hi0 Hb Hbb. cbv zeta.
  destruct (setBytes_digit d b t Ht Hd Hbb) as [-> Hd']. pose proof (drop_byte buf i b Hi0 Hb) as Hdrop.
  rewrite Hv, Hlen, Z.pow_add_r in Hdrop by lia.
  assert (HB : 256 ^ (8 * k) = Bpow (Z.to_nat k)).
  { rewrite Bpow_pow2, pow256, _W_eq by lia. f_equal. lia. }
  rewrite HB in Hdrop.
  destruct (Z.eqb_spec (8 * t + 8) 64) as [Ht8|Ht8].
  - assert (t = 7) as -> by lia. change (256 ^ (7 + 1)) with (2 ^ 64) in Hd'. rewrite <- _B_eq in Hd'.
    assert (Hkz : 0 <= k < zlen z).
    { unfold zlen. rewrite Hlz, <- HN. split; [done|]. apply Z.le_succ_l.
      apply Z.div_le_lower_bound; [lia|]. lia. }
    exists (<[Z.to_nat k:=d + b * 256 ^ 7]> z). split; [by apply set_idx_done|].
    unfold zlen in Hkz. unfold setBytes_inv. split_and!; try lia.
    + by rewrite length_insert.
    + by apply Forall_insert.
    + replace (Z.to_nat (k + 1)) with (S (Z.to_nat k)) by lia.
      rewrite Hdrop, (take_S_r _ _ (d + b * 256 ^ 7)) by (apply list_lookup_insert_eq; lia).
      rewrite take_insert_ge, val_app, length_take_le by lia. cbn [val]. ring.
  - unfold setBytes_inv. split_and!; try lia; done.
Qed.

Lemma nat_setBytes_spec z buf : words z -> Forall is_byte buf ->
  returns (nat_setBytes z buf) (nat_is (be_val buf)).
Proof.
  intros Hz Hbuf. unfold nat_setBytes. change _S with 8. change (8 * 8) with 64.
  set (N := Z.to_nat _). assert (HN : (zlen buf + 7) / 8 = Z.of_nat N).
  { unfold N. rewrite Z.quot_div_nonneg by (unfold zlen; lia). pose proof (Z.div_pos (zlen buf + 7) 8).
    unfold zlen in *. replace (Z.of_nat (length buf) + 8 - 1) with (Z.of_nat (length buf) + 7) by lia. lia. }
  eapply returns_bind with (P := fun '(z, k, d) => exists s t, setBytes_inv buf N z k s d 0 t).
  - apply (loop_returns (fun '(z, k, s, d, i) => exists t, setBytes_inv buf N z k s d i t)
      (fun '(_, _, _, _, i) => Z.to_nat i)).
    + intros [[[[z1 k] s] d] i] [t Hinv]. pose proof Hinv as (Hi & Hk & Ht & _ & Hlen & _).
      destruct (Z.ltb_spec 0 i) as [Hi0|Hi0].
      * destruct (zlookup_lt buf (i - 1)) as [b Hb]; [lia|].
        assert (Hbb : is_byte b) by (apply zlookup_elem in Hb; rewrite list.Forall_forall in Hbuf; by apply Hbuf).
        rewrite (idx_done _ _ _ Hb). cbn [mbind outcome_bind].
        pose proof (setBytes_step _ _ _ _ _ _ _ _ _ Hinv HN Hi0 Hb Hbb) as Hstep. cbv zeta in Hstep.
        destruct (s + 8 =? 64).
        -- destruct Hstep as (z' & -> & Hinv'). cbn [mbind outcome_bind]. go_ret. split; [by exists 0|lia].
        -- go_ret. split; [by exists (t + 1)|lia].
      * go_ret. exists s, t. by replace 0 with i by lia.
    + exists 0. unfold setBytes_inv. pose proof (zlen_nonneg buf).
      split_and!; try lia; [apply length_nat_make|auto with words|].
      unfold zlen. rewrite Nat2Z.id, drop_all, take_0. done.
    + unfold zlen. lia.
  - intros [[z1 k] d] (s & t & Hi & Hk & Ht & -> & Hlen & Hd & Hlz & Hz1 & Hv). rewrite drop_0 in Hv.
    assert (HNk : Z.of_nat N = if t =? 0 then k else k + 1).
    { rewrite <- HN. case_bool; symmetry; [apply Z.div_unique with 7|apply Z.div_unique with (t - 1)]; lia. }
    assert (HP : 256 ^ t <= _B).
    { rewrite pow256, _B_eq by lia. apply Z.pow_le_mono_r; lia. }
    unfold zlen in *. destruct (Z.ltb_spec k (Z.of_nat (length z1))) as [Hlt|Hge].
    + rewrite set_idx_done by (unfold zlen; lia). cbn [mbind outcome_bind]. go_ret. rewrite Hv.
      assert (Hword : word d) by (unfold word; lia).
      replace (_ + _) with (val (<[Z.to_nat k:=d]> z1)); [by apply nat_norm_spec, Forall_insert|].
      rewrite (val_take_drop (Z.to_nat k)) by (rewrite length_insert; lia).
      rewrite take_insert_ge by lia. rewrite (drop_S _ d) by (apply list_lookup_insert_eq; lia).
      rewrite (drop_ge (<[_:=_]> _)) by (rewrite length_insert; destruct (Z.eqb_spec t 0); lia). cbn [val]. ring.
    + cbn [mbind outcome_bind]. go_ret. destruct (Z.eqb_spec t 0) as [->|]; [|lia].
      rewrite Hv, firstn_all2 by lia. replace d with 0 by (change (256 ^ 0) with 1 in Hd; lia).
      rewrite Z.mul_0_r, Z.add_0_r. by apply nat_norm_spec.
Qed.

(** * Properties *)

(** [trailingZeroBits] of a non-zero word, computed by a multiplication
    with a de Bruijn constant and a table, is the number of its trailing zero
    bits. *)
Theorem trailingZeroBits_correct x : word x -> 0 < x ->
  returns (trailingZeroBits x) (fun k => 0 <= k < _W /\ (2 ^ k | x) /\ ~ (2 ^ (k + 1) | x)).
Proof.
  intros Hx Hpos. go_mono trailingZeroBits_spec; [done|done|]. intros k (Hk & m & Hm & ->).
  split_and!; [lia|lia|by exists (2 * m + 1); ring|]. rewrite Z.pow_add_r by lia. intros [c Hc].
  assert (0 < 2 ^ k) by (apply Z.pow_pos_nonneg; lia).
  assert (2 * m + 1 = c * 2); [|lia]. apply (Z.mul_cancel_l _ _ (2 ^ k)); lia.
Qed.

Lemma trailingZeroBits_correct_witness :
  returns (trailingZeroBits 40) (fun k => 0 <= k < _W /\ (2 ^ k | 40) /\ ~ (2 ^ (k + 1) | 40)).
Proof. apply (trailingZeroBits_correct 40); [unfold word; rewrite _B_eq|]; lia. Defined.

(** Shifts, bitwise operations and single-bit access of natural numbers
    agree with those of the integers, for every shift count and bit index. *)
Theorem nat_bits_correct `{HA : Arith} {HL : ArithLaws HA} z x y s :
  normal x -> normal y -> 0 <= s ->
  returns (nat_shl z x s) (nat_is (Z.shiftl (val x) s)) /\
  returns (nat_shr z x s) (nat_is (Z.shiftr (val x) s)) /\
  returns (nat_and z x y) (nat_is (Z.land (val x) (val y))) /\
  returns (nat_andNot z x y) (nat_is (Z.ldiff (val x) (val y))) /\
  returns (nat_or z x y) (nat_is (Z.lor (val x) (val y))) /\
  returns (nat_xor z x y) (nat_is (Z.lxor (val x) (val y))) /\
  nat_bit x s = Done (Z.b2z (Z.testbit (val x) s)) /\
  returns (nat_setBit z x s 0) (nat_is (Z.clearbit (val x) s)).
Proof.
  intros Hx Hy Hs. rewrite Z.shiftl_mul_pow2, Z.shiftr_div_pow2 by done.
  split_and!; [by apply nat_shl_spec|by apply nat_shr_spec|..].
  - apply nat_and_spec; auto with words.
  - apply nat_andNot_spec; auto with words.
  - apply nat_or_spec; auto with words.
  - apply nat_xor_spec; auto with words.
  - apply nat_bit_spec; auto with words.
  - by apply nat_setBit_clear.
Qed.

Lemma nat_bits_correct_witness :
  returns (nat_shl [] [5; 1] 70) (nat_is (Z.shiftl (val [5; 1]) 70)).
Proof.
  refine (proj1 (nat_bits_correct [] [5; 1] [7] 70 _ _ _)); [..|lia];
    (split; [repeat constructor; rewrite ?_B_eq; lia|done]).
Defined.

(** [setBit(x, i, 1)] into a reused destination exposes its old words: when
    the bit lies beyond [x] by more than a word and the destination's storage
    holds a non-zero word in between, the result is not [x] with bit [i] set. *)
Theorem nat_setBit_stale z x i k w : words z -> words x -> 0 <= i ->
  (length x <= k < Z.to_nat (i / _W))%nat -> (Z.to_nat (i / _W) < length z)%nat ->
  z !! k = Some w -> w <> 0 ->
  returns (nat_setBit z x i 1) (fun r => val r <> Z.setbit (val x) i).
Proof. apply nat_setBit_stale_spec. Qed.

Lemma nat_setBit_stale_witness :
  returns (nat_setBit [8; 9; 0] [1] 130 1) (fun r => val r <> Z.setbit (val [1]) 130).
Proof.
  apply (nat_setBit_stale [8; 9; 0] [1] 130 1 9); rewrite ?_W_eq.
  - repeat constructor; rewrite ?_B_eq; lia.
  - repeat constructor; rewrite ?_B_eq; lia.
  - lia.
  - change (Z.to_nat (130 / 64)) with 2%nat. simpl. lia.
  - change (Z.to_nat (130 / 64)) with 2%nat. simpl. lia.
  - done.
  - lia.
Defined.

(** Encoding a natural number as big-endian bytes and decoding it again
    gives the number back; the encoding has no leading zero byte. *)
Theorem bytes_setBytes_roundtrip z x buf :
  normal x -> words z -> (8 * length x <= length buf)%nat ->
  exists buf' i, nat_bytes x buf = Done (buf', i) /\ 0 <= i <= zlen buf' /\
    nat_setBytes z (drop (Z.to_nat i) buf') = Done x /\
    (i = zlen buf' \/ exists b, buf'.[i] = Some b /\ b <> 0).
Proof.
  intros Hx Hz Hl. destruct (nat_bytes_spec x buf) as ([buf' i] & -> & Hlb & Hi & Hb & Hv & Hnz); [auto with words|done|].
  exists buf', i. split_and!; [done|unfold zlen in *; lia|lia| |done].
  destruct (nat_setBytes_spec z _ Hz Hb) as (r & -> & Hr). f_equal. rewrite Hv in Hr.
  exact (nat_is_inj _ _ _ Hr (nat_is_val x Hx)).
Qed.

Lemma bytes_setBytes_roundtrip_witness :
  exists buf' i, nat_bytes [258; 1] (replicate 20 7) = Done (buf', i) /\ 0 <= i <= zlen buf' /\
    nat_setBytes [] (drop (Z.to_nat i) buf') = Done [258; 1] /\
    (i = zlen buf' \/ exists b, buf'.[i] = Some b /\ b <> 0).
Proof.
  apply (bytes_setBytes_roundtrip [] [258; 1] (replicate 20 7)); [|constructor|simpl; lia].
  split; [repeat constructor; rewrite ?_B_eq; lia|done].
Defined.
