(* ===== verification/BigConv.v ===== *)
(** Package big, file nat.go (src/go/src/pkg/big/nat.go): conversion of natural
    numbers to and from strings.

    [nat_string] writes the digits into a buffer from its end, by shifts when
    the base is a power of two and by repeated division by a large power of
    the base otherwise; the writes are checked against the buffer's bounds.
    [nat_scan] reads runes from a reader, which is the list of the runes left
    and the error that ends it. *)

From S2P Require Import Prelude BigArith BigNat BigMul BigDiv BigBits.

(** * Scanning *)

Definition MaxBase : Z := 122 - 97 + 10 + 1.

Definition hexValue (ch : Z) : Z :=
  Word (if (48 <=? ch) && (ch <=? 57) then ch - 48
        else if (97 <=? ch) && (ch <=? 122) then ch - 97 + 10
        else if (65 <=? ch) && (ch <=? 90) then ch - 65 + 10
        else MaxBase + 1).

(** What a reader returns when its runes are used up, and the errors of [scan]. *)
Inductive read_error := EOF | IOError.
Inductive scan_error := IllegalBase | SyntaxError | ReadError (e : read_error).

(** An [io.RuneScanner]: the runes it still delivers, then its error. *)
Record reader := { runes : list Z; at_end : read_error }.

Definition ReadRune (r : reader) : (Z * reader) + read_error :=
  match runes r with
  | ch :: l => inl (ch, {| runes := l; at_end := at_end r |})
  | [] => inr (at_end r)
  end.

(** Put back the rune read last. *)
Definition UnreadRune (ch : Z) (r : reader) : reader :=
  {| runes := ch :: runes r; at_end := at_end r |}.

(** The results of [scan]: the number, the base and the error, and the reader
    as it is left. *)
Definition scan_result : Type := list Z * Z * option scan_error * reader.

Section Conversion.
Context `{Arith}.

(** The loop that collects digits: [inl] when it ends with [break]. *)
Definition scan_digits (b : Z) (r : reader) (ch : Z) (z : list Z)
    : outcome (list Z * Z * Z * reader + scan_result) :=
  let max := Z.quot _M b in
  loop (S (length (runes r))) (fun '(z, bb, dd, ch, r) =>
    let d := hexValue ch in
    if b <=? d then Done (inr (inl (z, bb, dd, UnreadRune ch r))) else
    '(z, bb, dd) ← (if bb <=? max then Done (z, Word (bb * b), Word (Word (dd * b) + d))
                    else z ← nat_mulAddWW z z bb dd; Done (z, b, d));
    match ReadRune r with
    | inl (ch, r) => Done (inl (z, bb, dd, ch, r))
    | inr EOF => Done (inr (inl (z, bb, dd, r)))
    | inr e => Done (inr (inr (z, b, Some (ReadError e), r)))
    end) (z, 1, 0, ch, r).

(** From the base and the first rune of the digits to the result. *)
Definition scan_number (z : list Z) (base b ch : Z) (r : reader) : outcome scan_result :=
  res ← scan_digits b r ch (nat_make z 0);
  match res with
  | inr res => Done res
  | inl (z, bb, dd, r) =>
      if 1 <? bb then
        z ← nat_mulAddWW z z bb dd;
        Done (nat_norm z, b, None, r)
      else if (base =? 0) && (b =? 8) then Done (z, 10, None, r)
      else if negb (base =? 0) || negb (b =? 8) then Done (z, b, Some SyntaxError, r)
      else Done (nat_norm z, b, None, r)
  end.

Definition nat_scan (z : list Z) (r : reader) (base : Z) : outcome scan_result :=
  if (base <? 0) || (base =? 1) || (MaxBase <? base) then Done (z, 0, Some IllegalBase, r) else
  match ReadRune r with
  | inr e => Done (z, 0, Some (ReadError e), r)
  | inl (ch, r) =>
      if base =? 0 then
        if ch =? 48 then
          match ReadRune r with
          | inr EOF => Done (z, 10, None, r)
          | inr e => Done (z, 10, Some (ReadError e), r)
          | inl (ch, r) =>
              let b := if (ch =? 120) || (ch =? 88) then 16
                       else if (ch =? 98) || (ch =? 66) then 2 else 8 in
              if (b =? 2) || (b =? 16) then
                match ReadRune r with
                | inr e => Done (z, 0, Some (ReadError e), r)
                | inl (ch, r) => scan_number z base b ch r
                end
              else scan_number z base b ch r
          end
        else scan_number z base 10 ch r
      else scan_number z base (Word base) ch r
  end.

(** * Printing *)

Definition lowercaseDigits : list Z := seqZ 48 10 ++ seqZ 97 26.
Definition uppercaseDigits : list Z := seqZ 48 10 ++ seqZ 65 26.

(** [i--; s[i] = charset[d]]. *)
Definition emit (charset : list Z) (d : Z) (s : list Z) (i : Z) : outcome (list Z * Z) :=
  let i := i - 1 in
  c ← idx charset d;
  s ← set_idx s i c;
  Done (s, i).

(** [for nbits >= shift { i--; s[i] = charset[w&mask]; w >>= shift; nbits -= shift }]. *)
Definition string_full (charset : list Z) (shift : Z) (s : list Z) (i w nbits : Z)
    : outcome (list Z * Z * Z * Z) :=
  loop 66 (fun '(s, i, w, nbits) =>
    if shift <=? nbits then
      '(s, i) ← emit charset (Z.land w (Word (Z.shiftl 1 shift) - 1)) s i;
      Done (inl (s, i, Z.shiftr w shift, nbits - shift))
    else Done (inr (s, i, w, nbits))) (s, i, w, nbits).

(** [for k := 1; k < len(x); k++]: the less-significant words, where [xs] are
    the words from [k] on. *)
Fixpoint string_words (charset : list Z) (shift : Z) (xs : list Z) (s : list Z) (i w nbits : Z)
    : outcome (list Z * Z * Z * Z) :=
  match xs with
  | [] => Done (s, i, w, nbits)
  | xk :: xs =>
      '(s, i, w, nbits) ← string_full charset shift s i w nbits;
      if nbits =? 0 then string_words charset shift xs s i xk _W
      else
        let w := Z.lor w (Word (Z.shiftl xk nbits)) in
        '(s, i) ← emit charset (Z.land w (Word (Z.shiftl 1 shift) - 1)) s i;
        string_words charset shift xs s i (Z.shiftr xk (shift - nbits)) (_W - (shift - nbits))
  end.

(** [for nbits >= 0 && w != 0], where [nbits] is unsigned. *)
Definition string_top (charset : list Z) (shift : Z) (s : list Z) (i w : Z) : outcome (list Z * Z) :=
  loop 66 (fun '(s, i, w) =>
    if negb (w =? 0) then
      '(s, i) ← emit charset (Z.land w (Word (Z.shiftl 1 shift) - 1)) s i;
      Done (inl (s, i, Z.shiftr w shift))
    else Done (inr (s, i))) (s, i, w).

(** The digits of one group: [n] of them, or until [r] is zero for the most
    significant group. *)
Fixpoint string_group (charset : list Z) (b : Z) (skip : bool) (n : nat) (s : list Z) (i r : Z)
    : outcome (list Z * Z) :=
  match n with
  | O => Done (s, i)
  | S n =>
      if skip && (r =? 0) then Done (s, i) else
      '(s, i) ← emit charset (Z.rem r b) s i;
      string_group charset b skip n s i (Z.quot r b)
  end.

(** [for len(q) > 0 { q, r = q.divW(q, bb); ... }]; the code has this loop twice,
    once with the constant 10 for [b]. *)
Definition string_div (charset : list Z) (b bb : Z) (ndigits : nat) (x s : list Z) (i : Z)
    : outcome (list Z * Z) :=
  loop (S (Z.to_nat _W * length x)) (fun '(q, s, i) =>
    if (length q =? 0)%nat then Done (inr (s, i)) else
    '(q, r) ← nat_divW q q bb;
    '(s, i) ← string_group charset b (length q =? 0)%nat ndigits s i r;
    Done (inl (q, s, i))) (x, s, i).

Definition nat_string (x charset : list Z) : outcome (list Z) :=
  let b := Word (zlen charset) in
  if (b <? 2) || (256 <? b) then Panic else
  if (length x =? 0)%nat then c ← idx charset 0; Done [c] else
  bl ← nat_bitLen x;
  lb ← log2 b;
  let i := Z.quot bl lb + 1 in
  let s := replicate (Z.to_nat i) 0 in
  '(s, i) ← (if b =? Z.land b (Word (- b)) then
      shift ← trailingZeroBits b;
      w ← idx x 0;
      '(s, i, w, _) ← string_words charset shift (drop 1 x) s i w _W;
      string_top charset shift s i w
    else
      let max := Z.quot _M b in
      '(bb, ndigits) ← loop 65 (fun '(bb, n) =>
        if bb <=? max then Done (inl (Word (bb * b), S n)) else Done (inr (bb, n))) (1, O);
      q ← nat_set [] x;
      string_div charset b bb ndigits q s i);
  slice s i (zlen s).

Definition nat_decimalString (x : list Z) : outcome (list Z) :=
  cs ← slice lowercaseDigits 0 10;
  nat_string x cs.

End Conversion.

(** * Emitting the digits of [V] from the least significant one

    [emitted s i T]: the buffer [s] of length [L] holds from [i] on the digits
    of [V] below the part [T] that is still to be written; the leading digit
    written is not zero once nothing is left. *)
Section Emit.
Variables (charset : list Z) (b V L : Z).
Hypothesis Hb : 2 <= b.
Hypothesis Hcs : zlen charset = b.
(** The buffer is long enough for all the digits. *)
Hypothesis HL : V < b ^ L.

Definition emitted (s : list Z) (i T : Z) : Prop :=
  zlen s = L /\ 0 <= i <= L /\ 0 <= T /\ exists ds, Forall (fun d => 0 <= d < b) ds /\
    Forall2 (fun c d => charset.[d] = Some c) (drop (Z.to_nat i) s) ds /\
    digits_val b ds + b ^ zlen ds * T = V /\ (T = 0 -> exists d l, ds = d :: l /\ d <> 0).

Lemma emitted_room s i T : emitted s i T -> 0 < T -> 0 < i.
Proof.
  intros (Hs & Hi & _ & ds & Hds & Hf & Hv & _) HT. destruct (decide (i = 0)) as [->|]; [exfalso|lia].
  apply Forall2_length in Hf. rewrite drop_0 in Hf.
  assert (zlen ds = L) as Hlds by (unfold zlen in *; lia). rewrite Hlds in Hv.
  pose proof (digits_val_nonneg b ds ltac:(lia) Hds). pose proof (Z.pow_nonneg b L).
  pose proof (Z.mul_le_mono_nonneg_l 1 T (b ^ L)). lia.
Qed.

Lemma emit_spec s i T d : emitted s i T -> 0 < T -> d = T mod b ->
  returns (emit charset d s i) (fun '(s', i') => emitted s' i' (T / b)).
Proof.
  intros Hinv HT ->. pose proof (emitted_room s i T Hinv HT) as Hi.
  destruct Hinv as (Hls & Hi' & _ & ds & Hds & Hs & Hv & _).
  pose proof (Z.mod_pos_bound T b ltac:(lia)) as Hm. pose proof (Z.div_mod T b ltac:(lia)) as Hdm.
  unfold emit. destruct (zlookup_lt charset (T mod b)) as [c Hc]; [lia|].
  rewrite (idx_done _ _ _ Hc). cbn [mbind outcome_bind].
  rewrite set_idx_done by lia. cbn [mbind outcome_bind]. go_ret.
  split; [by rewrite zlen_insert|]. split; [lia|]. split; [apply Z.div_pos; lia|].
  exists (T mod b :: ds). split_and!.
  - by constructor.
  - unfold zlen in Hls. rewrite (drop_S _ c) by (apply list_lookup_insert_eq; lia).
    rewrite drop_insert_lt by lia. replace (S (Z.to_nat (i - 1))) with (Z.to_nat i) by lia. by constructor.
  - rewrite digits_val_cons, zlen_cons, Z.pow_add_r by (unfold zlen; lia). change (b ^ 1) with (b * 1).
    rewrite Hdm in Hv at 1. lia.
  - intros H0. exists (T mod b), ds. split; [done|]. lia.
Qed.

(** *** Bases that are powers of two *)
Section Pow2.
Variable shift : Z.
Hypothesis Hshift : 1 <= shift <= 8.
Hypothesis Hpow : b = 2 ^ shift.

Lemma mask_eq w : Z.land w (Word (Z.shiftl 1 shift) - 1) = w mod b.
Proof.
  rewrite Z.shiftl_1_l, Word_small, <- Hpow.
  - rewrite Hpow, Z.sub_1_r, <- Z.ones_equiv, Z.land_ones by lia. done.
  - unfold word. rewrite _B_eq. split; [apply Z.pow_nonneg; lia|apply Z.pow_lt_mono_r; lia].
Qed.

(** The remaining value from the bits of the current word and the words above. *)
Definition rest_val (w nbits : Z) (xs : list Z) : Z := w + 2 ^ nbits * val xs.

Lemma rest_mod w nbits xs : shift <= nbits -> w mod b = rest_val w nbits xs mod b.
Proof.
  intros Hn. unfold rest_val. rewrite Hpow.
  replace nbits with (shift + (nbits - shift)) by lia. rewrite Z.pow_add_r by lia.
  replace (w + 2 ^ shift * 2 ^ (nbits - shift) * val xs) with (w + (2 ^ (nbits - shift) * val xs) * 2 ^ shift) by ring.
  by rewrite Z.mod_add by (apply Z.pow_nonzero; lia).
Qed.

Lemma rest_div w nbits xs : shift <= nbits ->
  rest_val w nbits xs / b = rest_val (Z.shiftr w shift) (nbits - shift) xs.
Proof.
  intros Hn. unfold rest_val. rewrite Z.shiftr_div_pow2, Hpow by lia.
  replace nbits with (shift + (nbits - shift)) at 1 by lia. rewrite Z.pow_add_r by lia.
  replace (w + 2 ^ shift * 2 ^ (nbits - shift) * val xs) with (w + (2 ^ (nbits - shift) * val xs) * 2 ^ shift) by ring.
  by rewrite Z.div_add by (apply Z.pow_nonzero; lia).
Qed.

Lemma shiftr_bound w n k : 0 <= k <= n -> 0 <= w < 2 ^ n -> 0 <= Z.shiftr w k < 2 ^ (n - k).
Proof.
  intros Hk Hw. rewrite Z.shiftr_div_pow2 by lia. split; [apply Z.div_pos; [lia|apply Z.pow_pos_nonneg; lia]|].
  apply Z.div_lt_upper_bound; [apply Z.pow_pos_nonneg; lia|]. rewrite <- Z.pow_add_r by lia.
  replace (k + (n - k)) with n by lia. lia.
Qed.

Lemma string_full_spec xs s i w nbits : 0 < val xs ->
  0 <= nbits <= _W -> 0 <= w < 2 ^ nbits -> emitted s i (rest_val w nbits xs) ->
  returns (string_full charset shift s i w nbits) (fun '(s', i', w', nbits') =>
    0 <= nbits' < shift /\ 0 <= w' < 2 ^ nbits' /\ emitted s' i' (rest_val w' nbits' xs)).
Proof.
  intros Hxs Hn Hw Hinv. unfold string_full. rewrite _W_eq in Hn. apply (loop_returns
    (fun '(s, i, w, nbits) => 0 <= nbits <= 64 /\ 0 <= w < 2 ^ nbits /\ emitted s i (rest_val w nbits xs))
    (fun '(_, _, _, nbits) => Z.to_nat nbits)); [|done|lia].
  clear s i w nbits Hn Hw Hinv. intros [[[s i] w] nbits] (Hn & Hw & Hinv).
  destruct (Z.leb_spec shift nbits) as [Hge|Hlt]; [|go_ret; auto with lia].
  assert (0 < 2 ^ nbits) by (apply Z.pow_pos_nonneg; lia).
  rewrite mask_eq, (rest_mod w nbits xs) by done.
  go_call emit_spec; [done|unfold rest_val; nia|done|]. intros [s' i'] Hinv'. go_ret.
  rewrite rest_div in Hinv' by done.
  pose proof (shiftr_bound w nbits shift ltac:(lia) Hw). split_and!; auto; lia.
Qed.

(** A digit that straddles two words. *)
Lemma partial_digit w nbits xk xs : 0 < nbits < shift -> 0 <= w < 2 ^ nbits -> word xk ->
  Z.land (Z.lor w (Word (Z.shiftl xk nbits))) (Word (Z.shiftl 1 shift) - 1) =
    rest_val w nbits (xk :: xs) mod b /\
  rest_val w nbits (xk :: xs) / b = rest_val (Z.shiftr xk (shift - nbits)) (_W - (shift - nbits)) xs.
Proof.
  intros Hn Hw Hxk. pose proof _W_eq as HW.
  assert (H2n : 0 < 2 ^ nbits) by (apply Z.pow_pos_nonneg; lia).
  assert (H2s : 0 < 2 ^ (shift - nbits)) by (apply Z.pow_pos_nonneg; lia).
  assert (Eb : b = 2 ^ nbits * 2 ^ (shift - nbits)).
  { rewrite Hpow, <- Z.pow_add_r by lia. f_equal. lia. }
  assert (EB : _B = 2 ^ (_W - shift) * b).
  { rewrite Hpow, <- Z.pow_add_r, _B_eq, <- HW by lia. f_equal. lia. }
  unfold rest_val. cbn [val]. split.
  - rewrite mask_eq. unfold Word. rewrite Z.shiftl_mul_pow2 by lia.
    assert (El : (xk * 2 ^ nbits) mod _B = (xk * 2 ^ nbits / 2 ^ nbits) mod 2 ^ (_W - nbits) * 2 ^ nbits).
    { rewrite Z.div_mul by lia. rewrite _B_eq, <- HW. replace _W with ((_W - nbits) + nbits) at 1 by lia.
      rewrite Z.pow_add_r, Z.mul_mod_distr_r by (try apply Z.pow_nonzero; lia). done. }
    rewrite El, Z.lor_comm, lor_add, <- El, Z.add_comm by lia.
    rewrite (Z.mod_eq (xk * 2 ^ nbits) _B) by (pose proof _B_pos; lia).
    set (k := xk * 2 ^ nbits / _B). rewrite EB.
    replace (w + (xk * 2 ^ nbits - 2 ^ (_W - shift) * b * k))
      with (w + xk * 2 ^ nbits + (- (2 ^ (_W - shift) * k)) * b) by ring.
    replace (w + 2 ^ nbits * (xk + 2 ^ (_W - shift) * b * val xs))
      with (w + xk * 2 ^ nbits + (2 ^ nbits * 2 ^ (_W - shift) * val xs) * b) by ring.
    rewrite !Z.mod_add by lia. done.
  - rewrite Eb, <- Z.div_div by lia.
    replace (w + 2 ^ nbits * (xk + _B * val xs)) with (w + (xk + _B * val xs) * 2 ^ nbits) by ring.
    rewrite Z.div_add, (Z.div_small w), Z.add_0_l by lia. rewrite Z.shiftr_div_pow2 by lia.
    replace (xk + _B * val xs) with (xk + (2 ^ (_W - (shift - nbits)) * val xs) * 2 ^ (shift - nbits)).
    + by rewrite Z.div_add by lia.
    + rewrite _B_eq, <- HW. replace _W with ((_W - (shift - nbits)) + (shift - nbits)) at 2 by lia.
      rewrite Z.pow_add_r by lia. ring.
Qed.

Lemma string_words_spec xs : normal xs -> forall s i w nbits,
  0 <= nbits <= _W -> 0 <= w < 2 ^ nbits -> emitted s i (rest_val w nbits xs) ->
  returns (string_words charset shift xs s i w nbits) (fun '(s', i', w', _) =>
    0 <= w' < _B /\ emitted s' i' w').
Proof.
  pose proof _W_eq as HW. induction xs as [|xk xs IH]; intros Hn s i w nbits Hnb Hw Hinv; cbn [string_words].
  { go_ret. unfold rest_val in Hinv. cbn [val] in Hinv. rewrite Z.mul_0_r, Z.add_0_r in Hinv.
    split; [|done]. rewrite _B_eq, <- HW. split; [lia|]. apply Z.lt_le_trans with (2 ^ nbits); [lia|].
    apply Z.pow_le_mono_r; lia. }
  pose proof (normal_pos _ Hn ltac:(simpl; lia)) as Hpos.
  assert (Hn' : normal xs) by exact (normal_drop _ 1 Hn).
  pose proof (normal_words _ Hn) as [Hxk Hwxs]%words_cons.
  go_call string_full_spec; [done..|]. intros [[[s1 i1] w1] n1] (Hn1 & Hw1 & Hinv1).
  destruct (Z.eqb_spec n1 0) as [->|Hn10].
  - apply IH; [done|lia|rewrite HW, <- _B_eq; apply Hxk|].
    unfold rest_val in *. change (2 ^ 0) with 1 in *. cbn [val] in Hinv1.
    replace (xk + 2 ^ _W * val xs) with (w1 + 1 * (xk + _B * val xs)); [done|]. rewrite HW, <- _B_eq. lia.
  - destruct (partial_digit w1 n1 xk xs) as [-> Hdiv]; [lia|done|done|].
    assert (0 < 2 ^ n1) by (apply Z.pow_pos_nonneg; lia).
    go_call emit_spec; [done|unfold rest_val; nia|done|]. intros [s2 i2] Hinv2. rewrite Hdiv in Hinv2.
    apply IH; [done|lia| |done]. apply shiftr_bound; [lia|]. rewrite HW, <- _B_eq. apply Hxk.
Qed.

Lemma string_top_spec s i w : 0 <= w < _B -> emitted s i w ->
  returns (string_top charset shift s i w) (fun '(s', i') => emitted s' i' 0).
Proof.
  intros Hw Hinv. unfold string_top. rewrite _B_eq in Hw. apply (loop_returns
    (fun '(s, i, w) => 0 <= w < 2 ^ 64 /\ emitted s i w)
    (fun '(_, _, w) => Z.to_nat (Z.log2 (2 * w)))); [|done|].
  - clear s i w Hw Hinv. intros [[s i] w] [Hw Hinv]. destruct (Z.eqb_spec w 0) as [->|Hne]; cbn [negb].
    { go_ret. done. }
    rewrite mask_eq. go_call emit_spec; [done|lia|done|]. intros [s' i'] Hinv'. go_ret.
    rewrite Z.shiftr_div_pow2, <- Hpow by lia. pose proof (Z.div_pos w b). pose proof (Z.div_le_upper_bound w 2 w).
    assert (w / b <= w / 2) by (apply Z.div_le_compat_l; lia).
    assert (2 * (w / 2) <= w) by (pose proof (Z.mul_div_le w 2); lia).
    split; [split; [|done]; lia|]. rewrite (Z.log2_double w) by lia. pose proof (Z.log2_nonneg w).
    pose proof (Z.log2_le_mono (2 * (w / b)) w). lia.
  - destruct (decide (w = 0)) as [->|]; [simpl; lia|]. rewrite Z.log2_double by lia.
    pose proof (Z.log2_lt_pow2 w 64). lia.
Qed.
End Pow2.

(** *** Other bases *)

Lemma string_group_spec n : forall s i r q, 0 <= q -> 0 <= r < b ^ Z.of_nat n ->
  emitted s i (r + b ^ Z.of_nat n * q) ->
  returns (string_group charset b (q =? 0) n s i r) (fun '(s', i') => emitted s' i' q).
Proof.
  induction n as [|n IH]; intros s i r q Hq Hr Hinv; cbn [string_group].
  { go_ret. change (b ^ Z.of_nat 0) with 1 in *. by replace (r + 1 * q) with q in Hinv by lia. }
  rewrite Nat2Z.inj_succ, Z.pow_succ_r in * by lia.
  assert (Hp : 0 < b ^ Z.of_nat n) by (apply Z.pow_pos_nonneg; lia).
  destruct ((q =? 0) && (r =? 0)) eqn:E.
  { bool_to_prop. subst. go_ret. by replace (0 + b * b ^ Z.of_nat n * 0) with 0 in Hinv by ring. }
  set (T := r + b * b ^ Z.of_nat n * q) in *.
  assert (HT : 0 < T).
  { unfold T. apply andb_false_iff in E. bool_to_prop.
    pose proof (Z.mul_nonneg_nonneg (b * b ^ Z.of_nat n) q). pose proof (Z.mul_pos_pos b (b ^ Z.of_nat n)).
    destruct (decide (q = 0)) as [->|]; [lia|]. pose proof (Z.mul_pos_pos (b * b ^ Z.of_nat n) q). lia. }
  assert (ET : T = r + (b ^ Z.of_nat n * q) * b) by (unfold T; ring).
  rewrite Z.rem_mod_nonneg, Z.quot_div_nonneg by lia.
  go_call emit_spec; [done|done|by rewrite ET, Z.mod_add by lia|]. intros [s' i'] Hinv'.
  rewrite ET, Z.div_add in Hinv' by lia. apply IH; [done| |done].
  split; [apply Z.div_pos; lia|apply Z.div_lt_upper_bound; lia].
Qed.

Section Div.
Context `{HA : Arith} {HLaws : ArithLaws HA}.

Lemma string_div_spec bb n x s i : normal x -> word bb -> 2 <= bb -> bb = b ^ Z.of_nat n ->
  emitted s i (val x) ->
  returns (string_div charset b bb n x s i) (fun '(s', i') => emitted s' i' 0).
Proof.
  intros Hx Hbb Hbb2 Ebb Hinv. unfold string_div. apply (loop_returns
    (fun '(q, s, i) => normal q /\ emitted s i (val q))
    (fun '(q, _, _) => Z.to_nat (Z.log2 (2 * val q)))); [|done|].
  - clear x s i Hx Hinv. intros [[q s] i] [Hq Hinv]. destruct (Nat.eqb_spec (length q) 0) as [H0|H0].
    { go_ret. by rewrite (nil_length_inv q H0) in Hinv. }
    pose proof (normal_pos q Hq ltac:(lia)) as Hpos.
    go_call nat_divW_spec; [done|done|lia|]. intros [q' r] [[Hq' Vq'] ->].
    pose proof (Z.mod_pos_bound (val q) bb ltac:(lia)) as Hm. pose proof (Z.div_mod (val q) bb ltac:(lia)) as Hdm.
    replace (length q' =? 0)%nat with (val q' =? 0).
    2:{ destruct (Nat.eqb_spec (length q') 0) as [e|e]; [by rewrite (nil_length_inv q' e)|].
        apply Z.eqb_neq. pose proof (normal_pos q' Hq'). lia. }
    go_call (string_group_spec n s i (val q mod bb) (val q')).
    { apply val_nonneg. auto with words. }
    { by rewrite <- Ebb. }
    { rewrite <- Ebb, Vq'. replace (val q mod bb + bb * (val q / bb)) with (val q) by lia. done. }
    intros [s' i'] Hinv'. go_ret. split; [done|]. rewrite Vq'.
    pose proof (Z.div_pos (val q) bb). assert (val q / bb <= val q / 2) by (apply Z.div_le_compat_l; lia).
    pose proof (Z.mul_div_le (val q) 2). rewrite (Z.log2_double (val q)) by lia.
    pose proof (Z.log2_le_mono (2 * (val q / bb)) (val q)). pose proof (Z.log2_nonneg (val q)). lia.
  - destruct (decide (val x = 0)) as [->|]; [simpl; lia|].
    pose proof (val_bound x ltac:(auto with words)) as Hbx. rewrite Z.log2_double by lia.
    rewrite Bpow_pow2, _W_eq in Hbx. pose proof (Z.log2_lt_pow2 (val x) (Z.of_nat (length x) * 64)).
    rewrite _W_eq. lia.
Qed.
End Div.
End Emit.

(** [ds] are the digits of [v] in base [b], without superfluous zeros. *)
Definition digits_of (b v : Z) (ds : list Z) : Prop :=
  Forall (fun d => 0 <= d < b) ds /\ digits_val b ds = v /\
  exists d l, ds = d :: l /\ (d = 0 -> l = []).

Lemma buffer_fits b V lb : 2 <= b -> lb = Z.log2 b -> 0 < V ->
  V < b ^ (Z.quot (Z.log2 V + 1) lb + 1).
Proof.
  intros Hb -> HV. assert (Hlb : 1 <= Z.log2 b) by (change 1 with (Z.log2 2); apply Z.log2_le_mono; lia).
  pose proof (Z.log2_nonneg V). rewrite Z.quot_div_nonneg by lia. set (bl := Z.log2 V + 1).
  pose proof (Z.mul_succ_div_gt bl (Z.log2 b) ltac:(lia)) as Hgt. unfold Z.succ in Hgt.
  pose proof (Z.div_pos bl (Z.log2 b)).
  apply Z.lt_le_trans with (2 ^ bl); [unfold bl; rewrite Z.add_1_r; apply Z.log2_spec; lia|].
  apply Z.le_trans with (2 ^ (Z.log2 b * (bl / Z.log2 b + 1))); [apply Z.pow_le_mono_r; lia|].
  rewrite Z.pow_mul_r by lia. apply Z.pow_le_mono_l. split; [apply Z.pow_nonneg; lia|].
  apply Z.log2_spec. lia.
Qed.

Lemma emitted_init charset b V L : 0 <= L -> 0 < V ->
  emitted charset b V L (replicate (Z.to_nat L) 0) L V.
Proof.
  intros HL HV. assert (Hz : zlen (replicate (Z.to_nat L) 0) = L) by (rewrite zlen_replicate; lia).
  split; [done|]. split; [lia|]. split; [lia|]. exists [].
  rewrite drop_ge by (rewrite length_replicate; lia). split_and!; [done|done| |lia].
  unfold zlen, digits_val. cbn. lia.
Qed.

Section StringSpecs.
Context `{HA : Arith} {HL : ArithLaws HA}.

(** The largest power of [b] that fits in a word. *)
Lemma string_bigbase b : 2 <= b <= 256 ->
  returns (loop 65 (fun '(bb, n) =>
      if bb <=? Z.quot _M b then Done (inl (Word (bb * b), S n)) else Done (inr (bb, n))) (1, O))
    (fun '(bb, n) => word bb /\ 2 <= bb /\ bb = b ^ Z.of_nat n).
Proof.
  intros Hb. rewrite Z.quot_div_nonneg by (try (change _M with (_B - 1); pose proof _B_eq); lia).
  change _M with (_B - 1). pose proof _B_eq as HB. apply (loop_returns
    (fun '(bb, n) => word bb /\ 1 <= bb /\ bb = b ^ Z.of_nat n) (fun '(_, n) => (64 - n)%nat)).
  - intros [bb n] (Hw & H1 & E). destruct (Z.leb_spec bb ((_B - 1) / b)) as [Hle|Hgt]; go_ret.
    + assert (Hmul : bb * b <= _B - 1).
      { pose proof (Z.mul_div_le (_B - 1) b). pose proof (Z.mul_le_mono_nonneg_r bb ((_B - 1) / b) b). lia. }
      assert (1 * b <= bb * b) by (apply Z.mul_le_mono_nonneg_r; lia).
      rewrite Word_small by (unfold word; lia). split; [split; [unfold word; lia|split; [lia|]]|].
      * rewrite Nat2Z.inj_succ, Z.pow_succ_r, E by lia. ring.
      * assert (Z.of_nat n < 64); [|lia].
        destruct (decide (Z.of_nat n < 64)); [done|exfalso]. unfold word in Hw.
        assert (2 ^ 64 <= b ^ Z.of_nat n); [|lia].
        apply Z.le_trans with (2 ^ Z.of_nat n); [apply Z.pow_le_mono_r; lia|apply Z.pow_le_mono_l; lia].
    + split_and!; [done| |done]. destruct (decide (bb = 1)) as [->|]; [|lia].
      assert (1 <= (_B - 1) / b); [|lia]. apply Z.div_le_lower_bound; lia.
  - split_and!; [unfold word; lia|lia|done].
  - lia.
Qed.

Lemma nat_string_spec x charset : normal x -> 2 <= zlen charset <= 256 ->
  returns (nat_string x charset) (fun s => exists ds,
    Forall2 (fun c d => charset.[d] = Some c) s ds /\ digits_of (zlen charset) (val x) ds).
Proof.
  intros Hx Hcs. unfold nat_string. pose proof _B_eq as HB.
  rewrite Word_small by (unfold word; lia). set (b := zlen charset) in *. bool_decide_goal. cbn [orb].
  destruct (Nat.eqb_spec (length x) 0) as [H0|H0].
  { destruct (zlookup_lt charset 0) as [c Hc]; [lia|]. rewrite (idx_done _ _ _ Hc). go_ret.
    rewrite (nil_length_inv x H0). exists [0]. split; [by constructor|].
    split_and!; [constructor; [lia|done]|done|]. by exists 0, []. }
  pose proof (normal_pos x Hx ltac:(lia)) as Hpos.
  go_call nat_bitLen_spec; [done|]. intros bl ->. rewrite decide_False by lia.
  unfold log2. assert (Hwb : word b) by (unfold word; lia).
  destruct (bitLen_spec b Hwb) as (nb & -> & Hnb). cbn [mbind outcome_bind].
  destruct (is_bitlen_log2 b nb ltac:(lia) Hnb) as [-> _]. rewrite Z.add_simpl_r.
  set (L := Z.quot _ _ + 1). pose proof (buffer_fits b (val x) (Z.log2 b) ltac:(lia) eq_refl Hpos) as HV. fold L in HV.
  assert (HL0 : 0 <= L).
  { unfold L. pose proof (Z.log2_nonneg (val x)).
    assert (1 <= Z.log2 b) by (change 1 with (Z.log2 2); apply Z.log2_le_mono; lia).
    pose proof (Z.quot_pos (Z.log2 (val x) + 1) (Z.log2 b)). lia. }
  pose proof (emitted_init charset b (val x) L HL0 Hpos) as Hinit.
  set (s0 := replicate _ 0) in *. clearbody s0.
  eapply returns_bind with (P := fun '(s, i) => emitted charset b (val x) L s i 0).
  - destruct (Z.eqb_spec b (Z.land b (Word (- b)))) as [Hp2|Hp2].
    + go_call trailingZeroBits_spec; [done|lia|]. intros k (Hk & m & Hm & Ek).
      rewrite (land_opp_pow2 b k m) in Hp2 by (done || lia).
      assert (Hk8 : 1 <= k <= 8).
      { split; [destruct (decide (k = 0)) as [->|]; [simpl in Hp2; lia|lia]|].
        destruct (decide (k <= 8)); [done|]. pose proof (Z.pow_lt_mono_r 2 8 k). lia. }
      destruct x as [|x0 xs]; [done|]. change (idx (x0 :: xs) 0) with (Done x0). cbn [mbind outcome_bind drop].
      pose proof (normal_words _ Hx) as [Hx0 _]%words_cons. unfold word in Hx0.
      go_call (string_words_spec charset b (val (x0 :: xs)) L ltac:(lia) eq_refl HV k Hk8 Hp2 xs (normal_drop _ 1 Hx)).
      * rewrite _W_eq. lia.
      * rewrite _W_eq, <- HB. lia.
      * unfold rest_val. rewrite _W_eq, <- HB. exact Hinit.
      * intros [[[s i] w] nb] [Hw Hinv]. by apply (string_top_spec charset b (val (x0 :: xs)) L ltac:(lia) eq_refl HV k).
    + go_call string_bigbase; [lia|]. intros [bb n] (Hbb & Hbb2 & Ebb).
      rewrite nat_set_spec. cbn [mbind outcome_bind].
      by apply (string_div_spec charset b (val x) L ltac:(lia) eq_refl HV).
  - intros [s i] (Hls & Hi & _ & ds & Hds & Hf & Hv & Hhd).
    rewrite slice_done by lia. go_ret. exists ds. rewrite firstn_all2 by (rewrite length_drop; unfold zlen in *; lia).
    split; [done|]. rewrite Z.mul_0_r, Z.add_0_r in Hv. split_and!; [done|done|].
    destruct (Hhd eq_refl) as (d & l & -> & Hd). by exists d, l.
Qed.
End StringSpecs.

(** * Scanning digits *)

Definition is_digit (b ch : Z) : Prop := hexValue ch < b.

Lemma hexValue_nonneg ch : 0 <= hexValue ch.
Proof. apply (Word_word _). Qed.

Section ScanSpecs.
Context `{HA : Arith} {HL : ArithLaws HA}.

(** After the runes [pre], the number read is [z * bb + dd]. *)
Definition scanned (b : Z) (pre z : list Z) (bb dd : Z) : Prop :=
  normal z /\ word bb /\ 0 <= dd < bb /\ val z * bb + dd = digits_val b (map hexValue pre) /\
  (pre = [] -> z = []) /\ (1 < bb <-> pre <> []).

Lemma scanned_step b pre z bb dd ch : 2 <= b <= MaxBase -> scanned b pre z bb dd -> is_digit b ch ->
  returns (if bb <=? Z.quot _M b then Done (z, Word (bb * b), Word (Word (dd * b) + hexValue ch))
           else z ← nat_mulAddWW z z bb dd; Done (z, b, hexValue ch))
    (fun '(z, bb, dd) => scanned b (pre ++ [ch]) z bb dd).
Proof.
  intros Hb (Hz & Hbb & Hdd & Hv & Hnil & Hpre) Hch. unfold MaxBase, is_digit in *. pose proof _B_eq as HB.
  pose proof (hexValue_nonneg ch) as Hd. unfold word in Hbb.
  assert (Hne : pre ++ [ch] <> []) by by destruct pre.
  assert (Hdv : digits_val b (map hexValue (pre ++ [ch])) = (val z * bb + dd) * b + hexValue ch).
  { rewrite map_app. cbn [map]. by rewrite digits_val_snoc, Hv. }
  rewrite Z.quot_div_nonneg by (change _M with (_B - 1); lia). change _M with (_B - 1).
  destruct (Z.leb_spec bb ((_B - 1) / b)) as [Hle|Hgt].
  - assert (Hmul : bb * b <= _B - 1).
    { pose proof (Z.mul_div_le (_B - 1) b). pose proof (Z.mul_le_mono_nonneg_r bb ((_B - 1) / b) b). lia. }
    assert (Hdb : (dd + 1) * b <= bb * b) by (apply Z.mul_le_mono_nonneg_r; lia).
    assert (0 <= dd * b) by (apply Z.mul_nonneg_nonneg; lia).
    assert (1 * b <= bb * b) by (apply Z.mul_le_mono_nonneg_r; lia).
    rewrite (Word_small (bb * b)), (Word_small (dd * b)), Word_small by (unfold word; lia). go_ret.
    split_and!; [done|unfold word; lia|lia|lia| |done|split; [done|lia]].
    rewrite Hdv. ring.
  - go_call nat_mulAddWW_spec; [done|unfold word; lia|unfold word; lia|]. intros z' [Hz' Vz']. go_ret.
    split_and!; [done|unfold word; lia|lia|lia| |done|split; [done|lia]].
    rewrite Hdv, Vz'. ring.
Qed.

Lemma scan_digits_spec b r ch z pre rest : 2 <= b <= MaxBase -> at_end r = EOF ->
  ch :: runes r = pre ++ rest -> Forall (is_digit b) pre ->
  (forall c l, rest = c :: l -> ~ is_digit b c) -> z = [] ->
  returns (scan_digits b r ch z) (fun res => exists z' bb dd,
    res = inl (z', bb, dd, {| runes := rest; at_end := EOF |}) /\ scanned b pre z' bb dd).
Proof.
  intros Hb Hend Heq Hpre Hrest ->. unfold scan_digits.
  apply (loop_returns
    (fun '(z, bb, dd, ch, r) => at_end r = EOF /\ exists done todo, pre = done ++ todo /\
       ch :: runes r = todo ++ rest /\ scanned b done z bb dd)
    (fun '(_, _, _, _, r) => length (runes r))).
  - clear r ch Hend Heq. intros [[[[z bb] dd] ch] r] (Hend & dn & todo & -> & Heq & Hsc).
    destruct todo as [|c todo].
    + cbn [app] in *. symmetry in Heq.
      pose proof (Hrest ch (runes r) Heq) as Hnd. unfold is_digit in Hnd. bool_decide_goal. go_ret.
      exists z, bb, dd. rewrite app_nil_r. split; [|done]. unfold UnreadRune. by rewrite Hend, Heq.
    + cbn [app] in Heq. injection Heq as -> Heq. apply Forall_app in Hpre as [Hdn [Hc Htodo]%Forall_cons_iff].
      pose proof Hc as Hc'. unfold is_digit in Hc'. bool_decide_goal.
      go_call scanned_step; [done|done|done|]. intros [[z1 bb1] dd1] Hsc1.
      unfold ReadRune. destruct (runes r) as [|c' l] eqn:Er.
      * rewrite Hend. go_ret. exists z1, bb1, dd1. symmetry in Heq. apply app_eq_nil in Heq as [-> ->].
        split; [|done]. destruct r as [rs e]. simpl in *. by subst.
      * go_ret. split; [|simpl; lia]. split; [done|]. exists (dn ++ [c]), todo.
        rewrite <- app_assoc. split_and!; done.
  - split; [done|]. exists [], pre. split_and!; [done|done|].
    unfold scanned. cbn. pose proof _B_eq. split_and!; try done; try (unfold word; lia).
    split; [constructor|done].
  - lia.
Qed.

Lemma scan_number_spec z base b ch r pre rest : 2 <= b <= MaxBase -> at_end r = EOF ->
  ch :: runes r = pre ++ rest -> Forall (is_digit b) pre -> pre <> [] ->
  (forall c l, rest = c :: l -> ~ is_digit b c) ->
  returns (scan_number z base b ch r) (fun '(x, b', e, r') =>
    nat_is (digits_val b (map hexValue pre)) x /\ b' = b /\ e = None /\ r' = {| runes := rest; at_end := EOF |}).
Proof.
  intros Hb Hend Heq Hpre Hne Hrest. unfold scan_number. rewrite nat_make_0.
  go_call scan_digits_spec; [done..|]. intros res (z' & bb & dd & -> & Hz & Hbb & Hdd & Hv & _ & Hpos).
  rewrite (proj2 (Z.ltb_lt 1 bb)) by by apply Hpos.
  assert (Hdw : word dd) by (unfold word in *; lia).
  go_call nat_mulAddWW_spec; [done|done|done|]. intros x Hx. go_ret. rewrite Hv in Hx.
  destruct (nat_norm_spec x (nat_is_words _ _ Hx)) as [Hn Hvn]. destruct Hx as [Hx Vx].
  split_and!; [|done..]. split; [done|]. by rewrite Hvn.
Qed.

Lemma nat_scan_spec z b pre rest : 2 <= b <= MaxBase -> Forall (is_digit b) pre -> pre <> [] ->
  (forall c l, rest = c :: l -> ~ is_digit b c) ->
  returns (nat_scan z {| runes := pre ++ rest; at_end := EOF |} b) (fun '(x, b', e, r') =>
    nat_is (digits_val b (map hexValue pre)) x /\ b' = b /\ e = None /\ r' = {| runes := rest; at_end := EOF |}).
Proof.
  intros Hb Hpre Hne Hrest. unfold nat_scan. pose proof Hb as Hb'. unfold MaxBase in *. bool_decide_goal. cbn [orb].
  destruct pre as [|ch pre]; [done|]. unfold ReadRune. cbn [runes app].
  rewrite Word_small by (unfold word; rewrite _B_eq; lia). by apply scan_number_spec.
Qed.
End ScanSpecs.

(** * Printing and scanning *)

Lemma lowercase_hexValue d c : lowercaseDigits.[d] = Some c -> hexValue c = d.
Proof.
  intros Hc. pose proof (zlookup_Some_lt _ _ _ Hc) as Hd. change (zlen lowercaseDigits) with 36 in Hd.
  assert (Hall : forallb (fun d => bool_decide (hexValue <$> lowercaseDigits.[d] = Some d)) (seqZ 0 36) = true)
    by (vm_compute; reflexivity).
  rewrite forallb_forall in Hall.
  assert (Hin : In d (seqZ 0 36)) by (apply list_elem_of_In, elem_of_seqZ; lia).
  specialize (Hall d Hin). apply bool_decide_eq_true in Hall. rewrite Hc in Hall. by injection Hall.
Qed.

Lemma string_is_digits b s ds : 0 <= b -> Forall (fun d => 0 <= d < b) ds ->
  Forall2 (fun c d => (take (Z.to_nat b) lowercaseDigits).[d] = Some c) s ds ->
  Forall (is_digit b) s /\ map hexValue s = ds.
Proof.
  intros Hb Hds Hf. induction Hf as [|c d s ds Hc Hf IH]; [done|].
  apply Forall_cons_iff in Hds as [Hd Hds]. destruct (IH Hds) as [IH1 IH2].
  rewrite zlookup_take in Hc. destruct (d <? _); [|done]. pose proof (lowercase_hexValue d c Hc) as Hh.
  split; [constructor; [unfold is_digit; lia|done]|]. cbn [map]. congruence.
Qed.

Lemma string_scan_spec `{HA : Arith} {HL : ArithLaws HA} x b : normal x -> 2 <= b <= MaxBase ->
  exists s, nat_string x (take (Z.to_nat b) lowercaseDigits) = Done s /\ s <> [] /\ Forall (is_digit b) s /\
    forall z rest, (forall c l, rest = c :: l -> ~ is_digit b c) ->
      nat_scan z {| runes := s ++ rest; at_end := EOF |} b = Done (x, b, None, {| runes := rest; at_end := EOF |}).
Proof.
  intros Hx Hb. set (cs := take (Z.to_nat b) lowercaseDigits).
  assert (Hcs : zlen cs = b).
  { unfold cs. rewrite zlen_take. change (zlen lowercaseDigits) with 36. unfold MaxBase in Hb. lia. }
  destruct (nat_string_spec x cs) as (s & -> & ds & Hf & Hds & Hv & d & l & El & _);
    [done|unfold MaxBase in Hb; lia|].
  rewrite Hcs in Hds, Hv. exists s.
  destruct (string_is_digits b s ds ltac:(lia) Hds Hf) as [Hdig Hmap].
  assert (Hne : s <> []) by (intros ->; apply Forall2_nil_inv_l in Hf; congruence).
  split_and!; [done|done|done|]. intros z rest Hrest.
  destruct (nat_scan_spec z b s rest Hb Hdig Hne) as ([[[x' b'] e] r'] & Hsc & Hx' & -> & -> & ->); [done|].
  rewrite Hsc, Hmap, Hv in *. do 4 f_equal.
  exact (nat_is_inj _ _ _ Hx' (nat_is_val x Hx)).
Qed.

(** * Properties *)

(** Printing a natural number in any base from 2 to 36 and scanning the
    string gives the number back and consumes the whole string. *)
Theorem string_scan_roundtrip `{HA : Arith} {HL : ArithLaws HA} z x b :
  normal x -> 2 <= b <= MaxBase ->
  exists s, nat_string x (take (Z.to_nat b) lowercaseDigits) = Done s /\
    nat_scan z {| runes := s; at_end := EOF |} b = Done (x, b, None, {| runes := []; at_end := EOF |}).
Proof.
  intros Hx Hb. destruct (string_scan_spec x b Hx Hb) as (s & Hs & _ & _ & Hsc). exists s. split; [done|].
  rewrite <- (app_nil_r s). by apply Hsc.
Qed.

Lemma string_scan_roundtrip_witness :
  exists s, nat_string [7; 8; 9] (take (Z.to_nat 10) lowercaseDigits) = Done s /\
    nat_scan [5] {| runes := s; at_end := EOF |} 10 =
      Done ([7; 8; 9], 10, None, {| runes := []; at_end := EOF |}).
Proof.
  apply (string_scan_roundtrip [5] [7; 8; 9] 10); [|unfold MaxBase; lia].
  split; [repeat constructor; rewrite ?_B_eq; lia|done].
Defined.

(** [string] writes the digits of the number most significant first, with
    no leading zero, for every character set of 2 to 256 characters; the
    buffer it allocates is always long enough. *)
Theorem nat_string_correct `{HA : Arith} {HL : ArithLaws HA} x charset :
  normal x -> 2 <= zlen charset <= 256 ->
  returns (nat_string x charset) (fun s => exists ds,
    Forall2 (fun c d => charset.[d] = Some c) s ds /\ digits_of (zlen charset) (val x) ds).
Proof. apply nat_string_spec. Qed.

Lemma nat_string_correct_witness :
  returns (nat_string [2 ^ 63; 5] (seqZ 0 8)) (fun s => exists ds,
    Forall2 (fun c d => (seqZ 0 8).[d] = Some c) s ds /\ digits_of (zlen (seqZ 0 8)) (val [2 ^ 63; 5]) ds).
Proof.
  apply (nat_string_correct [2 ^ 63; 5] (seqZ 0 8)); [|change (zlen (seqZ 0 8)) with 8; lia].
  split; [repeat constructor; rewrite ?_B_eq; lia|done].
Defined.
