(* ===== verification/BigExp.v ===== *)
(** Package big, file nat.go (src/go/src/pkg/big/nat.go): exponentiation.

    [nat_expNN] walks the bits of the exponent from the top, squaring and
    multiplying, and reduces modulo [m] after each bit if a modulus is given.
    The modulus is an option: [None] is Go's nil slice. *)

From S2P Require Import Prelude BigArith BigNat BigMul BigDiv BigBits.

Section Exp.
Context `{Arith}.

(** One bit: square, multiply by [x] if the top bit of [v] is set, reduce,
    shift [v].  [q] is the storage of the quotients. *)
Definition expNN_bit (x : list Z) (m : option (list Z)) (z q : list Z) (v : Z)
    : outcome (list Z * list Z * Z) :=
  z ← nat_mul z z z;
  z ← (if negb (Z.land v (Z.shiftl 1 (_W - 1)) =? 0) then nat_mul z z x else Done z);
  '(q, z) ← (match m with
             | Some m => nat_div q z z m
             | None => Done (q, z)
             end);
  Done (z, q, Word (Z.shiftl v 1)).

(** [for j := 0; j < w; j++]. *)
Fixpoint expNN_bits (w : nat) (x : list Z) (m : option (list Z)) (z q : list Z) (v : Z)
    : outcome (list Z * list Z) :=
  match w with
  | O => Done (z, q)
  | S w => '(z, q, v) ← expNN_bit x m z q v; expNN_bits w x m z q v
  end.

(** [for i := len(y) - 2; i >= 0; i--]: [k = i+1] words are left. *)
Fixpoint expNN_words (k : nat) (x y : list Z) (m : option (list Z)) (z q : list Z) : outcome (list Z) :=
  match k with
  | O => Done z
  | S i =>
      v ← of_option (y !! i);
      '(z, q) ← expNN_bits (Z.to_nat _W) x m z q v;
      expNN_words i x y m z q
  end.

Definition nat_expNN (z x y : list Z) (m : option (list Z)) : outcome (list Z) :=
  if (length y =? 0)%nat then put (nat_make z 1) 0 [1] else
  let z := match m with Some m => nat_make z (length m) | None => z end in
  z ← nat_set z x;
  v ← of_option (y !! (length y - 1)%nat);
  lz ← leadingZeros v;
  let shift := lz + 1 in
  let v := Word (Z.shiftl v shift) in
  '(z, q) ← expNN_bits (Z.to_nat (_W - shift)) x m z [] v;
  expNN_words (length y - 1) x y m z q.

End Exp.

(** * Specification *)

(** Reduction by the modulus, if there is one. *)
Definition reduce (m : option (list Z)) (a : Z) : Z :=
  match m with Some m => a mod val m | None => a end.

Definition valid_modulus (m : option (list Z)) : Prop :=
  match m with Some m => normal m /\ 0 < val m | None => True end.

Lemma reduce_square m a e X : valid_modulus m -> a = (if e =? 1 then X else reduce m (X ^ e)) -> 0 <= e ->
  reduce m (a * a) = reduce m (X ^ (2 * e)) /\ reduce m (a * a * X) = reduce m (X ^ (2 * e + 1)).
Proof.
  intros Hm Ha He.
  assert (Hr : reduce m a = reduce m (X ^ e)).
  { rewrite Ha. destruct (Z.eqb_spec e 1) as [->|]; [by rewrite Z.pow_1_r|].
    destruct m as [m|]; simpl in *; [|done]. apply Z.mod_mod. lia. }
  replace (2 * e) with (e + e) by lia. rewrite !Z.pow_add_r, Z.pow_1_r by lia.
  destruct m as [m|]; simpl in *; [|by rewrite Hr].
  rewrite (Z.mul_mod a a), Hr, <- Z.mul_mod by lia. split; [done|].
  rewrite (Z.mul_mod (a * a) X), (Z.mul_mod a a), Hr, <- (Z.mul_mod (X ^ e)), <- Z.mul_mod by lia. done.
Qed.

Section Specs.
Context `{HA : Arith} {HL : ArithLaws HA}.
Variables (x : list Z) (m : option (list Z)).
Hypothesis Hx : normal x.
Hypothesis Hm : valid_modulus m.

(** [z] is [x^e], reduced unless no step has been made. *)
Definition power (e : Z) (z : list Z) : Prop :=
  nat_is (if e =? 1 then val x else reduce m (val x ^ e)) z.

Lemma top_bit v : word v -> (negb (Z.land v (Z.shiftl 1 (_W - 1)) =? 0)) = (2 ^ (_W - 1) <=? v) .
Proof.
  intros Hv. unfold word in Hv. rewrite _W_eq, _B_eq in *. rewrite Z.shiftl_1_l. change (64 - 1) with 63.
  assert (E : Z.land v (2 ^ 63) = if 2 ^ 63 <=? v then 2 ^ 63 else 0).
  { apply Z.bits_inj'. intros n Hn. rewrite Z.land_spec, Z.pow2_bits_eqb by lia.
    destruct (Z.eqb_spec 63 n) as [<-|Hne].
    - rewrite andb_true_r, Z.testbit_eqb by lia. destruct (Z.leb_spec (2 ^ 63) v).
      + rewrite <- (Z.div_unique v (2 ^ 63) 1 (v - 2 ^ 63)) by lia. done.
      + rewrite Z.div_small by lia. by rewrite Z.bits_0.
    - rewrite andb_false_r. destruct (2 ^ 63 <=? v); [|by rewrite Z.bits_0].
      rewrite Z.pow2_bits_eqb by lia. symmetry. by apply Z.eqb_neq. }
  rewrite E. by destruct (2 ^ 63 <=? v).
Qed.

Lemma expNN_bit_spec e z q v : 1 <= e -> power e z -> words q -> word v ->
  returns (expNN_bit x m z q v) (fun '(z', q', v') =>
    let d := v / 2 ^ (_W - 1) in
    power (2 * e + d) z' /\ words q' /\ 0 <= d <= 1 /\ v' = 2 * v - d * _B /\ word v').
Proof.
  intros He [Hz Hvz] Hq Hv. unfold expNN_bit.
  assert (Hd : v / 2 ^ (_W - 1) = if 2 ^ (_W - 1) <=? v then 1 else 0).
  { unfold word in Hv. rewrite _W_eq, _B_eq in *. change (64 - 1) with 63. case_bool; [|apply Z.div_small; lia].
    symmetry. apply Z.div_unique with (v - 2 ^ 63); lia. }
  destruct (reduce_square m (val z) e (val x) Hm Hvz ltac:(lia)) as [Hsq Hsqx].
  go_call nat_mul_spec; [auto with words|done|done|]. intros z1 [Hz1 Vz1]. rewrite top_bit by done.
  eapply returns_bind with (P := nat_is (if 2 ^ (_W - 1) <=? v then val z * val z * val x else val z * val z)).
  { case_bool; [|go_ret; split; [done|lia]]. rewrite <- Vz1. apply nat_mul_spec; auto with words. }
  intros z2 [Hz2 Vz2].
  eapply returns_bind with (P := fun '(q', z') => words q' /\ nat_is (reduce m (val z2)) z').
  { destruct m as [mm|]; [|go_ret; split; [done|by apply nat_is_val]]. destruct Hm as [Hmm Hpos].
    go_mono nat_div_spec; [done|done|done|done|]. intros [q' z'] [Hq' Hz']. split; [by eapply nat_is_words|done]. }
  intros [q' z'] [Hq' [Hz' Vz']]. go_ret. rewrite Hd.
  assert (Hv' : Word (Z.shiftl v 1) = 2 * v - (if 2 ^ (_W - 1) <=? v then 1 else 0) * _B).
  { rewrite Z.shiftl_mul_pow2, Word_carry by (unfold word in Hv; lia). change (2 ^ 1) with 2.
    assert (EB : _B = 2 * 2 ^ (_W - 1)) by (rewrite _W_eq, _B_eq; reflexivity). rewrite EB.
    case_bool; case_bool; lia. }
  split_and!; [|done|case_bool; lia|case_bool; lia|done|apply Word_word].
  split; [done|]. rewrite (proj2 (Z.eqb_neq _ 1)) by (case_bool; lia).
  rewrite Vz', Vz2. case_bool; [done|]. by rewrite Z.add_0_r.
Qed.

(** [n] bits append the top [n] bits of [v] to the exponent. *)
Lemma expNN_bits_spec n : forall e z q v, (Z.of_nat n <= _W) -> 1 <= e -> power e z -> words q -> word v ->
  returns (expNN_bits n x m z q v) (fun '(z', q') =>
    power (e * 2 ^ Z.of_nat n + v / 2 ^ (_W - Z.of_nat n)) z' /\ words q').
Proof.
  induction n as [|n IH]; intros e z q v Hn He Hp Hq Hv; cbn [expNN_bits].
  { go_ret. unfold word in Hv. rewrite Z.sub_0_r, Z.div_small by (rewrite _W_eq, <- _B_eq; lia).
    change (2 ^ Z.of_nat 0) with 1. by rewrite Z.mul_1_r, Z.add_0_r. }
  go_call (expNN_bit_spec e); [done..|]. intros [[z1 q1] v1] (Hp1 & Hq1 & Hd & -> & Hv1).
  set (d := v / 2 ^ (_W - 1)) in *.
  go_mono (IH (2 * e + d)); [lia|lia|done|done|done|]. intros [z2 q2] [Hp2 Hq2]. split; [|done].
  replace (e * 2 ^ Z.of_nat (S n) + v / 2 ^ (_W - Z.of_nat (S n)))
    with ((2 * e + d) * 2 ^ Z.of_nat n + (2 * v - d * _B) / 2 ^ (_W - Z.of_nat n)); [done|].
  rewrite Nat2Z.inj_succ, Z.pow_succ_r by lia.
  assert (Ep : 2 ^ (_W - Z.of_nat n) = 2 * 2 ^ (_W - Z.succ (Z.of_nat n))).
  { rewrite <- Z.pow_succ_r by lia. f_equal. lia. }
  assert (EB : _B = 2 * (2 ^ Z.of_nat n * 2 ^ (_W - Z.succ (Z.of_nat n)))).
  { rewrite _B_eq, <- _W_eq, <- Z.pow_add_r, <- Z.pow_succ_r by lia. f_equal. lia. }
  assert (0 < 2 ^ (_W - Z.succ (Z.of_nat n))) by (apply Z.pow_pos_nonneg; lia).
  rewrite Ep, EB. set (P := 2 ^ (_W - Z.succ (Z.of_nat n))) in *.
  replace (2 * v - d * (2 * (2 ^ Z.of_nat n * P))) with (2 * (v - d * 2 ^ Z.of_nat n * P)) by ring.
  rewrite Z.div_mul_cancel_l by lia.
  replace (v - d * 2 ^ Z.of_nat n * P) with (v + (- (d * 2 ^ Z.of_nat n)) * P) by ring.
  rewrite Z.div_add by lia. ring.
Qed.

Lemma expNN_words_spec y k : forall e z q, words y -> (k <= length y)%nat -> 1 <= e -> power e z -> words q ->
  returns (expNN_words k x y m z q) (power (e * Bpow k + val (take k y))).
Proof.
  induction k as [|i IH]; intros e z q Hy Hk He Hp Hq; cbn [expNN_words].
  { go_ret. by rewrite Bpow_0, take_0, val_nil, Z.mul_1_r, Z.add_0_r. }
  destruct (lookup_lt_is_Some_2 y i ltac:(lia)) as [v Hv]. rewrite Hv. cbn [of_option mbind outcome_bind].
  pose proof (words_lookup y i v Hy Hv) as Hw.
  assert (HW : Z.of_nat (Z.to_nat _W) = _W) by (rewrite _W_eq; done).
  go_call (expNN_bits_spec (Z.to_nat _W) e); [lia|done|done|done|done|]. rewrite HW. intros [z1 q1] [Hp1 Hq1].
  rewrite Z.sub_diag, Z.div_1_r, _W_eq, <- _B_eq in Hp1. unfold word in Hw.
  assert (1 <= e * _B + v) by (pose proof _B_pos; nia).
  go_mono (IH (e * _B + v)); [done|lia|done|done|done|]. intros z2 Hz2.
  rewrite (take_S_r _ _ _ Hv), val_app, length_take_le, Bpow_S by lia. cbn [val].
  replace (e * (_B * Bpow i) + (val (take i y) + Bpow i * (v + _B * 0)))
    with ((e * _B + v) * Bpow i + val (take i y)) by ring. done.
Qed.

Lemma nat_expNN_spec z y : normal y -> y <> [] -> returns (nat_expNN z x y m) (power (val y)).
Proof.
  intros Hy Hne. unfold nat_expNN. rewrite (proj2 (Nat.eqb_neq _ _)) by (by intros ?%nil_length_inv).
  rewrite nat_set_spec. cbn [mbind outcome_bind].
  destruct (normal_snoc y Hy Hne) as (l & v & -> & Hl & Hv & Hv0).
  rewrite length_app, Nat.add_sub, lookup_app_r, Nat.sub_diag by (simpl; lia).
  change ([v] !! 0%nat) with (Some v). cbn [of_option mbind outcome_bind].
  go_call leadingZeros_spec; [done|done|]. intros s (Hs & Hs1 & Hs2).
  assert (Hp : 0 < 2 ^ s) by (apply Z.pow_pos_nonneg; lia).
  assert (Hn : Z.of_nat (Z.to_nat (_W - (s + 1))) = _W - (s + 1)) by lia.
  assert (EB : _B = 2 ^ (s + 1) * 2 ^ (_W - (s + 1))).
  { rewrite _B_eq, <- _W_eq, <- Z.pow_add_r by lia. f_equal. lia. }
  assert (Hp1 : 2 ^ (s + 1) = 2 * 2 ^ s) by (rewrite Z.pow_add_r by lia; change (2 ^ 1) with 2; ring).
  assert (Hpw : 0 < 2 ^ (_W - (s + 1))) by (apply Z.pow_pos_nonneg; lia).
  assert (Ev : Word (Z.shiftl v (s + 1)) = (v - 2 ^ (_W - (s + 1))) * 2 ^ (s + 1)).
  { rewrite Z.shiftl_mul_pow2 by lia. unfold Word. symmetry. apply Z.mod_unique with 1; [|rewrite EB; ring].
    left. rewrite Z.mul_sub_distr_r, (Z.mul_comm (2 ^ (_W - (s + 1)))), <- EB. lia. }
  go_call (expNN_bits_spec (Z.to_nat (_W - (s + 1))) 1); [lia|lia| |auto with words|apply Word_word|].
  { by apply nat_is_val. }
  rewrite Hn. replace (_W - (_W - (s + 1))) with (s + 1) by lia.
  rewrite Ev, Z.div_mul by lia. intros [z1 q1] [Hp2 Hq1].
  replace (1 * 2 ^ (_W - (s + 1)) + (v - 2 ^ (_W - (s + 1)))) with v in Hp2 by ring.
  go_mono (expNN_words_spec (l ++ [v]) (length l) v); [by apply normal_words| |lia|done|done|].
  { rewrite length_app. lia. }
  intros z2 Hz2. rewrite take_app_length in Hz2. rewrite val_app. cbn [val].
  by replace (val l + Bpow (length l) * (v + _B * 0)) with (v * Bpow (length l) + val l) by ring.
Qed.

End Specs.


Lemma nat_expNN_full `{HA : Arith} {HL : ArithLaws HA} z x y m : normal x -> normal y -> valid_modulus m ->
  returns (nat_expNN z x y m) (nat_is
    (if val y =? 0 then 1 else if val y =? 1 then val x else reduce m (val x ^ val y))).
Proof.
  intros Hx Hy Hm. destruct (decide (y = [])) as [->|Hne].
  { unfold nat_expNN. cbn [length Nat.eqb]. rewrite put_all by (by rewrite length_nat_make).
    go_ret. split; [|done]. split; [|done]. repeat constructor; rewrite ?_B_eq; lia. }
  pose proof (normal_pos y Hy ltac:(destruct y; [done|simpl; lia])).
  rewrite (proj2 (Z.eqb_neq _ 0)) by lia. by apply nat_expNN_spec.
Qed.

(** Exponentiation computes [x ** y mod m], or
    [x ** y] without a modulus, for every exponent of at least two; for
    [y = 0] it returns one and for [y = 1] it returns [x] itself, without
    reducing either modulo [m]. *)
Theorem nat_expNN_correct `{HA : Arith} {HL : ArithLaws HA} z x y m :
  normal x -> normal y -> valid_modulus m ->
  returns (nat_expNN z x y m) (nat_is
    (if val y =? 0 then 1 else if val y =? 1 then val x else reduce m (val x ^ val y))).
Proof. intros. by apply nat_expNN_full. Qed.

Lemma nat_expNN_correct_witness :
  returns (nat_expNN [] [3] [77] (Some [1000])) (nat_is 763) /\
  returns (nat_expNN [] [5] [1] (Some [3])) (nat_is 5).
Proof.
  split.
  - apply (nat_expNN_correct [] [3] [77] (Some [1000])); split_and!; normal_concrete.
  - apply (nat_expNN_correct [] [5] [1] (Some [3])); split_and!; normal_concrete.
Defined.
