(* ===== verification/BigInt.v ===== *)
(** Package big, file int.go (src/go/src/pkg/big/int.go): signed integers.

    An [Int] is a sign and a natural number.  A method's receiver is given by
    the storage of its [abs] field ([z], the words up to the slice's capacity);
    the methods return the new value of the receiver.  Where a method takes the
    storage of an intermediate result again ([z.Add(z, intOne)]), the words of
    that result stand for it.  Pointers that may be nil are options.

    [ival] is the integer an [Int] stands for; [Int_is v x] says that [x] is the
    canonical representation of [v]: normalised, and zero without a sign. *)

From S2P Require Import Prelude BigArith BigNat BigMul BigDiv BigBits BigConv BigExp.

Record Int := { neg : bool; abs : list Z }.

Definition intOne : Int := {| neg := false; abs := natOne |}.

(** The zero value of the type. *)
Definition Int_zero : Int := {| neg := false; abs := [] |}.

(** [len(a) > 0 && n]: zero has no sign. *)
Definition signed (n : bool) (a : list Z) : Int := {| neg := (0 <? length a)%nat && n; abs := a |}.

Definition Int_Sign (x : Int) : Z :=
  if (length (abs x) =? 0)%nat then 0 else if neg x then -1 else 1.

Section Int.
Context `{Arith}.

Definition Int_SetInt64 (z : list Z) (x : Z) : outcome Int :=
  let '(n, x) := if x <? 0 then (true, int64 (- x)) else (false, x) in
  a ← nat_setUint64 z (uint64 x);
  Done {| neg := n; abs := a |}.

Definition NewInt (x : Z) : outcome Int := Int_SetInt64 [] x.

Definition Int_Set (z : list Z) (x : Int) : outcome Int :=
  a ← nat_set z (abs x);
  Done {| neg := neg x; abs := a |}.

Definition Int_Abs (z : list Z) (x : Int) : outcome Int :=
  a ← nat_set z (abs x);
  Done {| neg := false; abs := a |}.

Definition Int_Neg (z : list Z) (x : Int) : outcome Int :=
  a ← nat_set z (abs x);
  Done (signed (negb (neg x)) a).

Definition Int_Add (z : list Z) (x y : Int) : outcome Int :=
  let n := neg x in
  if Bool.eqb (neg x) (neg y) then
    a ← nat_add z (abs x) (abs y);
    Done (signed n a)
  else
    c ← nat_cmp (abs x) (abs y);
    if 0 <=? c then
      a ← nat_sub z (abs x) (abs y);
      Done (signed n a)
    else
      a ← nat_sub z (abs y) (abs x);
      Done (signed (negb n) a).

Definition Int_Sub (z : list Z) (x y : Int) : outcome Int :=
  let n := neg x in
  if negb (Bool.eqb (neg x) (neg y)) then
    a ← nat_add z (abs x) (abs y);
    Done (signed n a)
  else
    c ← nat_cmp (abs x) (abs y);
    if 0 <=? c then
      a ← nat_sub z (abs x) (abs y);
      Done (signed n a)
    else
      a ← nat_sub z (abs y) (abs x);
      Done (signed (negb n) a).

Definition Int_Mul (z : list Z) (x y : Int) : outcome Int :=
  a ← nat_mul z (abs x) (abs y);
  Done (signed (negb (Bool.eqb (neg x) (neg y))) a).

Definition Int_MulRange (z : list Z) (a b : Z) : outcome Int :=
  if b <? a then Int_SetInt64 z 1
  else if (a <=? 0) && (0 <=? b) then Int_SetInt64 z 0
  else
    let '(n, a, b) := if a <? 0 then (Z.land (int64 (b - a)) 1 =? 0, int64 (- b), int64 (- a))
                      else (false, a, b) in
    r ← nat_mulRange z (uint64 a) (uint64 b);
    Done {| neg := n; abs := r |}.

Definition Int_Quo (z : list Z) (x y : Int) : outcome Int :=
  '(a, _) ← nat_div z [] (abs x) (abs y);
  Done (signed (negb (Bool.eqb (neg x) (neg y))) a).

Definition Int_Binomial (z : list Z) (n k : Z) : outcome Int :=
  a ← Int_MulRange [] (int64 (int64 (n - k) + 1)) n;
  b ← Int_MulRange [] 1 k;
  Int_Quo z a b.

Definition Int_Rem (z : list Z) (x y : Int) : outcome Int :=
  '(_, a) ← nat_div [] z (abs x) (abs y);
  Done (signed (neg x) a).

Definition Int_QuoRem (z : list Z) (x y : Int) (r : list Z) : outcome (Int * Int) :=
  '(q, m) ← nat_div z r (abs x) (abs y);
  Done (signed (negb (Bool.eqb (neg x) (neg y))) q, signed (neg x) m).

Definition Int_Div (z : list Z) (x y : Int) : outcome Int :=
  '(q, r) ← Int_QuoRem z x y [];
  if neg r then
    if neg y then Int_Add (abs q) q intOne else Int_Sub (abs q) q intOne
  else Done q.

Definition Int_Mod (z : list Z) (x y : Int) : outcome Int :=
  '(_, m) ← Int_QuoRem [] x y z;
  if neg m then
    if neg y then Int_Sub (abs m) m y else Int_Add (abs m) m y
  else Done m.

Definition Int_DivMod (z : list Z) (x y : Int) (m : list Z) : outcome (Int * Int) :=
  '(q, m) ← Int_QuoRem z x y m;
  if neg m then
    if neg y then
      q ← Int_Add (abs q) q intOne;
      m ← Int_Sub (abs m) m y;
      Done (q, m)
    else
      q ← Int_Sub (abs q) q intOne;
      m ← Int_Add (abs m) m y;
      Done (q, m)
  else Done (q, m).

Definition Int_Cmp (x y : Int) : outcome Z :=
  if Bool.eqb (neg x) (neg y) then
    r ← nat_cmp (abs x) (abs y);
    Done (if neg x then - r else r)
  else if neg x then Done (-1)
  else Done 1.

(** [x] is nil or an integer; the text is ["<nil>"], or the digits after a ["-"]. *)
Definition Int_String (x : option Int) : outcome (list Z) :=
  match x with
  | None => Done [60; 110; 105; 108; 62]
  | Some x =>
      s ← nat_decimalString (abs x);
      Done (if neg x then 45 :: s else s)
  end.

(** [scan] sets the receiver [z]; on an error it may be left changed. *)
Definition Int_scan (z : Int) (r : reader) (base : Z) : outcome (Int * Z * option scan_error * reader) :=
  match ReadRune r with
  | inr e => Done (z, 0, Some (ReadError e), r)
  | inl (ch, r) =>
      let '(n, r) := if ch =? 45 then (true, r)
                     else if ch =? 43 then (false, r)
                     else (false, UnreadRune ch r) in
      '(a, base, err, r) ← nat_scan (abs z) r base;
      match err with
      | Some e => Done ({| neg := neg z; abs := a |}, base, Some e, r)
      | None => Done (signed n a, base, None, r)
      end
  end.

(** The base of a verb of [Scan]; [None] for an invalid verb. *)
Definition scan_verb (ch : Z) : option Z :=
  if ch =? 98 then Some 2
  else if ch =? 111 then Some 8
  else if ch =? 100 then Some 10
  else if (ch =? 120) || (ch =? 88) then Some 16
  else if (ch =? 115) || (ch =? 118) then Some 0
  else None.

(** [Scan] on a [fmt.ScanState], which can also skip leading space; [inr tt] is
    the error about an invalid verb. *)
Definition Int_Scan (SkipSpace : reader -> reader) (z : Int) (s : reader) (ch : Z)
    : outcome (Int * (option scan_error + unit) * reader) :=
  let s := SkipSpace s in
  match scan_verb ch with
  | None => Done (z, inr tt, s)
  | Some base =>
      '(z, _, err, s) ← Int_scan z s base;
      Done (z, inl err, s)
  end.

(** [s] is given by the runes a [strings.Reader] delivers. *)
Definition Int_SetString (z : Int) (s : list Z) (base : Z) : outcome (Int * bool) :=
  '(z, _, err, r) ← Int_scan z {| runes := s; at_end := EOF |} base;
  match err with
  | Some _ => Done (z, false)
  | None => Done (z, match ReadRune r with inr EOF => true | _ => false end)
  end.

Definition Int_Int64 (x : Int) : outcome Z :=
  if (length (abs x) =? 0)%nat then Done 0 else
  w ← idx (abs x) 0;
  v ← (if (_W =? 32) && (1 <? length (abs x))%nat
       then w1 ← idx (abs x) 1; Done (Z.lor (int64 w) (int64 (Z.shiftl (int64 w1) 32)))
       else Done (int64 w));
  Done (if neg x then int64 (- v) else v).

Definition Int_SetBytes (z : list Z) (buf : list Z) : outcome Int :=
  a ← nat_setBytes z buf;
  Done {| neg := false; abs := a |}.

Definition Int_Bytes (z : Int) : outcome (list Z) :=
  let buf := replicate (length (abs z) * Z.to_nat _S) 0 in
  '(buf, i) ← nat_bytes (abs z) buf;
  slice buf i (zlen buf).

Definition Int_BitLen (z : Int) : outcome Z := nat_bitLen (abs z).

(** [m] is nil or an integer; [nil_abs] tells whether its slice is nil. *)
Definition Int_Exp (z : list Z) (x y : Int) (m : option Int) (nil_abs : bool) : outcome Int :=
  if neg y || (length (abs y) =? 0)%nat then
    r ← Int_SetInt64 z 1;
    Done {| neg := neg x; abs := abs r |}
  else
    let mWords := match m with
                  | Some m => if nil_abs then None else Some (abs m)
                  | None => None
                  end in
    a ← nat_expNN z (abs x) (abs y) mWords;
    y0 ← idx (abs y) 0;
    Done (signed (neg x && (Z.land y0 1 =? 1)) a).

(** One round of the loop of [GcdInt]: [X, lastX = lastX - q*X, X]. *)
Definition gcd_step (q X lastX : Int) : outcome (Int * Int) :=
  temp ← Int_Set [] X;
  X ← Int_Mul (abs X) X q;
  let X := {| neg := negb (neg X); abs := abs X |} in
  X ← Int_Add (abs X) X lastX;
  lastX ← Int_Set (abs lastX) temp;
  Done (X, lastX).

(** The loop has [B] decrease; its value bounds the number of rounds, and so
    does the number of bits of both operands, which is the fuel. *)
Definition gcd_loop (a b : Int) : outcome (Int * Int * Int) :=
  A ← Int_Set [] a;
  B ← Int_Set [] b;
  Y ← Int_SetInt64 [] 1;
  lastX ← Int_SetInt64 [] 1;
  loop (S (S (2 * Z.to_nat _W * length (abs b)))) (fun '(A, B, X, lastX, Y, lastY, q) =>
    if (0 <? length (abs B))%nat then
      '(q, r) ← Int_QuoRem q A B [];
      '(X, lastX) ← gcd_step q X lastX;
      '(Y, lastY) ← gcd_step q Y lastY;
      Done (inl (B, r, X, lastX, Y, lastY, abs q))
    else Done (inr (A, lastX, lastY))) (A, B, Int_zero, lastX, Y, Int_zero, []).

(** [x] and [y] are nil or the storage of the results. *)
Definition GcdInt (d : list Z) (x y : option (list Z)) (a b : Int)
    : outcome (Int * option Int * option Int) :=
  if neg a || neg b then
    d ← Int_SetInt64 d 0;
    x ← (match x with Some x => x ← Int_SetInt64 x 0; Done (Some x) | None => Done None end);
    y ← (match y with Some y => y ← Int_SetInt64 y 0; Done (Some y) | None => Done None end);
    Done (d, x, y)
  else
    '(A, lastX, lastY) ← gcd_loop a b;
    Done (A, match x with Some _ => Some lastX | None => None end,
             match y with Some _ => Some lastY | None => None end).

Definition Int_ModInverse (z : list Z) (g p : Int) : outcome Int :=
  '(_, x, _) ← GcdInt [] (Some z) None g p;
  x ← of_option x;
  if neg x then Int_Add (abs x) x p else Done x.

Definition Int_Lsh (z : list Z) (x : Int) (n : Z) : outcome Int :=
  a ← nat_shl z (abs x) n;
  Done {| neg := neg x; abs := a |}.

Definition Int_Rsh (z : list Z) (x : Int) (n : Z) : outcome Int :=
  if neg x then
    t ← nat_sub z (abs x) natOne;
    t ← nat_shr t t n;
    a ← nat_add t t natOne;
    Done {| neg := true; abs := a |}
  else
    a ← nat_shr z (abs x) n;
    Done {| neg := false; abs := a |}.

Definition Int_Bit (z : Int) (i : Z) : outcome Z :=
  if i <? 0 then Panic else
  if neg z then
    t ← nat_sub [] (abs z) natOne;
    b ← nat_bit t i;
    Done (Z.lxor b 1)
  else nat_bit (abs z) i.

(** The storage of [t] holds the words [spare] beyond its length. *)
Definition Int_SetBit (z spare : list Z) (x : Int) (i b : Z) : outcome Int :=
  if i <? 0 then Panic else
  if neg x then
    t ← nat_sub z (abs x) natOne;
    t ← nat_setBit (t ++ spare) t i (Z.lxor b 1);
    a ← nat_add t t natOne;
    Done {| neg := (0 <? length a)%nat; abs := a |}
  else
    a ← nat_setBit z (abs x) i b;
    Done {| neg := false; abs := a |}.

Definition Int_And (z : list Z) (x y : Int) : outcome Int :=
  if Bool.eqb (neg x) (neg y) then
    if neg x then
      x1 ← nat_sub [] (abs x) natOne;
      y1 ← nat_sub [] (abs y) natOne;
      t ← nat_or z x1 y1;
      a ← nat_add z t natOne;
      Done {| neg := true; abs := a |}
    else
      a ← nat_and z (abs x) (abs y);
      Done {| neg := false; abs := a |}
  else
    let '(x, y) := if neg x then (y, x) else (x, y) in
    y1 ← nat_sub [] (abs y) natOne;
    a ← nat_andNot z (abs x) y1;
    Done {| neg := false; abs := a |}.

Definition Int_AndNot (z : list Z) (x y : Int) : outcome Int :=
  if Bool.eqb (neg x) (neg y) then
    if neg x then
      x1 ← nat_sub [] (abs x) natOne;
      y1 ← nat_sub [] (abs y) natOne;
      a ← nat_andNot z y1 x1;
      Done {| neg := false; abs := a |}
    else
      a ← nat_andNot z (abs x) (abs y);
      Done {| neg := false; abs := a |}
  else if neg x then
    x1 ← nat_sub [] (abs x) natOne;
    t ← nat_or z x1 (abs y);
    a ← nat_add z t natOne;
    Done {| neg := true; abs := a |}
  else
    y1 ← nat_add [] (abs y) natOne;
    a ← nat_and z (abs x) y1;
    Done {| neg := false; abs := a |}.

Definition Int_Or (z : list Z) (x y : Int) : outcome Int :=
  if Bool.eqb (neg x) (neg y) then
    if neg x then
      x1 ← nat_sub [] (abs x) natOne;
      y1 ← nat_sub [] (abs y) natOne;
      t ← nat_and z x1 y1;
      a ← nat_add z t natOne;
      Done {| neg := true; abs := a |}
    else
      a ← nat_or z (abs x) (abs y);
      Done {| neg := false; abs := a |}
  else
    let '(x, y) := if neg x then (y, x) else (x, y) in
    y1 ← nat_sub [] (abs y) natOne;
    t ← nat_andNot z y1 (abs x);
    a ← nat_add z t natOne;
    Done {| neg := true; abs := a |}.

Definition Int_Xor (z : list Z) (x y : Int) : outcome Int :=
  if Bool.eqb (neg x) (neg y) then
    if neg x then
      x1 ← nat_sub [] (abs x) natOne;
      y1 ← nat_sub [] (abs y) natOne;
      a ← nat_xor z x1 y1;
      Done {| neg := false; abs := a |}
    else
      a ← nat_xor z (abs x) (abs y);
      Done {| neg := false; abs := a |}
  else
    let '(x, y) := if neg x then (y, x) else (x, y) in
    y1 ← nat_sub [] (abs y) natOne;
    t ← nat_xor z (abs x) y1;
    a ← nat_add z t natOne;
    Done {| neg := true; abs := a |}.

Definition Int_Not (z : list Z) (x : Int) : outcome Int :=
  if neg x then
    a ← nat_sub z (abs x) natOne;
    Done {| neg := false; abs := a |}
  else
    a ← nat_add z (abs x) natOne;
    Done {| neg := true; abs := a |}.

(** * Gob encoding *)

Definition intGobVersion : Z := 1.

Definition Int_GobEncode (z : Int) : outcome (list Z) :=
  let buf := replicate (1 + length (abs z) * Z.to_nat _S) 0 in
  '(buf, i) ← nat_bytes (abs z) buf;
  let i := i - 1 in
  let b := byte (Z.shiftl intGobVersion 1) in
  let b := if neg z then Z.lor b 1 else b in
  buf ← set_idx buf i b;
  slice buf i (zlen buf).

Inductive gob_error := NoData | BadVersion (v : Z).

Definition Int_GobDecode (z : Int) (buf : list Z) : outcome (Int * option gob_error) :=
  if (length buf =? 0)%nat then Done (z, Some NoData) else
  b ← idx buf 0;
  if negb (Z.shiftr b 1 =? intGobVersion) then Done (z, Some (BadVersion (Z.shiftr b 1))) else
  body ← slice buf 1 (zlen buf);
  a ← nat_setBytes (abs z) body;
  Done ({| neg := negb (Z.land b 1 =? 0); abs := a |}, None).

End Int.

(** * Values *)

(** The integer an [Int] stands for. *)
Definition ival (x : Int) : Z := if neg x then - val (abs x) else val (abs x).

(** [x] represents [v] canonically. *)
Definition Int_is (v : Z) (x : Int) : Prop :=
  normal (abs x) /\ (abs x = [] -> neg x = false) /\ ival x = v.

(** The type invariant. *)
Definition Int_wf (x : Int) : Prop := normal (abs x) /\ (abs x = [] -> neg x = false).

Lemma Int_is_wf v x : Int_is v x -> Int_wf x.
Proof. intros (? & ? & _). done. Qed.

Lemma Int_wf_is x : Int_wf x -> Int_is (ival x) x.
Proof. intros []. done. Qed.

Lemma Int_is_eq v w x : Int_is v x -> v = w -> Int_is w x.
Proof. by intros ? <-. Qed.

Lemma Int_is_inj v (x y : Int) : Int_is v x -> Int_is v y -> x = y.
Proof.
  intros (Hx & Hx0 & <-) (Hy & Hy0 & E). destruct x as [nx ax], y as [ny ay]; unfold ival in E; simpl in *.
  pose proof (val_nonneg ax (normal_words _ Hx)). pose proof (val_nonneg ay (normal_words _ Hy)).
  assert (val ax = val ay) as Ev by (destruct nx, ny; lia).
  pose proof (normal_inj ax ay Hx Hy Ev) as <-. f_equal.
  destruct (decide (ax = [])) as [->|Hne]; [by rewrite Hx0, Hy0|].
  assert (0 < val ax) by (apply normal_pos; [done|destruct ax; [done|simpl; lia]]). destruct nx, ny; done || lia.
Qed.

Lemma signed_is (n : bool) a v : nat_is v a -> Int_is (if n then - v else v) (signed n a).
Proof.
  intros [Ha <-]. unfold signed, Int_is, ival; simpl. split_and!; [done|by intros ->|].
  destruct a; simpl; [by destruct n|done].
Qed.

Lemma pos_is a v : nat_is v a -> Int_is v {| neg := false; abs := a |}.
Proof. by intros [Ha <-]. Qed.

Lemma neg_is a v : nat_is v a -> 0 < v -> Int_is (- v) {| neg := true; abs := a |}.
Proof. intros [Ha <-] Hv. split_and!; [done| |done]. simpl. intros ->. rewrite val_nil in Hv. lia. Qed.

Lemma natOne_is : nat_is 1 natOne.
Proof. split; [normal_concrete|done]. Qed.

Lemma intOne_is : Int_is 1 intOne.
Proof. apply pos_is, natOne_is. Qed.

Lemma Int_zero_is : Int_is 0 Int_zero.
Proof. apply pos_is, nat_is_nil. Qed.

(** * Arithmetic *)

Section ArithSpecs.
Context `{HA : Arith} {HL : ArithLaws HA}.

Lemma Int_SetInt64_spec z x : - 2 ^ 63 <= x < 2 ^ 63 -> returns (Int_SetInt64 z x) (Int_is x).
Proof.
  intros Hx. unfold Int_SetInt64. destruct (Z.ltb_spec x 0).
  - assert (Hu : uint64 (int64 (- x)) = - x).
    { unfold uint64, int64, wrap, swrap. destruct (decide (x = - 2 ^ 63)) as [->|]; [done|].
      rewrite (Z.mod_small (- x + _)), Z.add_simpl_r, Z.mod_small by lia. done. }
    rewrite Hu. go_call nat_setUint64_spec; [lia|]. intros a Ha. go_ret.
    eapply Int_is_eq; [eapply neg_is; [done|lia]|lia].
  - unfold uint64. rewrite wrap_small by lia. go_call nat_setUint64_spec; [lia|]. intros a Ha. go_ret.
    by apply pos_is.
Qed.

Lemma Int_Set_spec z x : Int_Set z x = Done x.
Proof. unfold Int_Set. rewrite nat_set_spec. by destruct x. Qed.

Lemma Int_Abs_spec z x : normal (abs x) -> returns (Int_Abs z x) (Int_is (Z.abs (ival x))).
Proof.
  intros Hx. unfold Int_Abs. rewrite nat_set_spec. go_ret. eapply Int_is_eq; [by apply pos_is, nat_is_val|].
  pose proof (val_nonneg _ (normal_words _ Hx)). unfold ival. destruct (neg x); lia.
Qed.

Lemma Int_Neg_spec z x : normal (abs x) -> returns (Int_Neg z x) (Int_is (- ival x)).
Proof.
  intros Hx. unfold Int_Neg. rewrite nat_set_spec. go_ret.
  eapply Int_is_eq; [by apply signed_is, nat_is_val|]. unfold ival. destruct (neg x); simpl; lia.
Qed.

(** Addition and subtraction differ only in the sign of [y]. *)
Lemma Int_Sub_Add z x y : Int_Sub z x y = Int_Add z x {| neg := negb (neg y); abs := abs y |}.
Proof. unfold Int_Sub, Int_Add. simpl. by destruct (neg x), (neg y). Qed.

(** Operands may be a zero with a sign. *)
Lemma Int_Add_spec z x y : normal (abs x) -> normal (abs y) ->
  returns (Int_Add z x y) (Int_is (ival x + ival y)).
Proof.
  intros Hx Hy. unfold Int_Add, ival. destruct (Bool.eqb_spec (neg x) (neg y)) as [<-|Hne].
  - go_call nat_add_spec; [done|done|]. intros a Ha. go_ret.
    eapply Int_is_eq; [by apply signed_is|]. destruct (neg x); lia.
  - rewrite nat_cmp_spec by done. cbn [mbind outcome_bind].
    assert (neg y = negb (neg x)) as -> by (destruct (neg x), (neg y); done).
    assert (Hc : (0 <=? Zcmp (val (abs x)) (val (abs y))) = (val (abs y) <=? val (abs x)))
      by (unfold Zcmp; repeat case_bool; lia).
    rewrite Hc. destruct (Z.leb_spec (val (abs y)) (val (abs x))).
    all: go_call nat_sub_ge; [done|done|lia|]; intros a Ha; go_ret.
    all: (eapply Int_is_eq; [by apply signed_is|]); destruct (neg x); simpl; lia.
Qed.

Lemma Int_Sub_spec z x y : normal (abs x) -> normal (abs y) ->
  returns (Int_Sub z x y) (Int_is (ival x - ival y)).
Proof.
  intros Hx Hy. rewrite Int_Sub_Add. go_mono Int_Add_spec; [done|done|]. intros a Ha.
  eapply Int_is_eq; [done|]. unfold ival. simpl. destruct (neg y); simpl; lia.
Qed.

Lemma Int_Mul_spec z x y : words z -> normal (abs x) -> normal (abs y) ->
  returns (Int_Mul z x y) (Int_is (ival x * ival y)).
Proof.
  intros Hz Hx Hy. unfold Int_Mul. go_call nat_mul_spec; [done..|]. intros a Ha. go_ret.
  eapply Int_is_eq; [by apply signed_is|]. unfold ival. destruct (neg x), (neg y); simpl; lia.
Qed.

(** Truncated division of signed magnitudes. *)
Lemma quot_rem_signs (s t : bool) a b : 0 <= a -> 0 < b ->
  Z.quot (if s then - a else a) (if t then - b else b) = (if negb (Bool.eqb s t) then - (a / b) else a / b) /\
  Z.rem (if s then - a else a) (if t then - b else b) = (if s then - (a mod b) else a mod b).
Proof.
  intros Ha Hb. rewrite <- Z.quot_div_nonneg, <- Z.rem_mod_nonneg by lia.
  destruct s, t; simpl; rewrite ?Z.quot_opp_l, ?Z.quot_opp_r, ?Z.rem_opp_l, ?Z.rem_opp_r by lia; lia.
Qed.

Lemma ival_zero x : normal (abs x) -> ival x = 0 -> abs x = [].
Proof. intros Hx H0. apply normal_zero; [done|]. unfold ival in H0. destruct (neg x); lia. Qed.

Lemma abs_pos x : normal (abs x) -> ival x <> 0 -> 0 < val (abs x).
Proof.
  intros Hx H0. pose proof (val_nonneg _ (normal_words _ Hx)). unfold ival in H0. destruct (neg x); lia.
Qed.

Lemma Int_QuoRem_spec z x y r : words z -> normal (abs x) -> normal (abs y) -> ival y <> 0 ->
  returns (Int_QuoRem z x y r) (fun '(q, m) =>
    Int_is (Z.quot (ival x) (ival y)) q /\ Int_is (Z.rem (ival x) (ival y)) m).
Proof.
  intros Hz Hx Hy Hy0. pose proof (abs_pos y Hy Hy0). unfold Int_QuoRem.
  go_call nat_div_spec; [done..|]. intros [q m] [Hq Hm]. go_ret. unfold ival.
  destruct (quot_rem_signs (neg x) (neg y) (val (abs x)) (val (abs y))) as [-> ->];
    [apply val_nonneg; auto with words|done|].
  split; by apply signed_is.
Qed.

Lemma Int_QuoRem_zero z x y r : abs y = [] ->
  Int_QuoRem z x y r = Panic /\ Int_Quo z x y = Panic /\ Int_Rem z x y = Panic /\
  Int_Div z x y = Panic /\ Int_Mod z x y = Panic /\ Int_DivMod z x y r = Panic.
Proof. intros E. unfold Int_Div, Int_Mod, Int_DivMod, Int_QuoRem, Int_Quo, Int_Rem. by rewrite E, !nat_div_zero. Qed.

(** The parts of [QuoRem]. *)
Lemma Int_Quo_spec z x y : words z -> normal (abs x) -> normal (abs y) -> ival y <> 0 ->
  returns (Int_Quo z x y) (Int_is (Z.quot (ival x) (ival y))).
Proof.
  intros Hz Hx Hy Hy0. destruct (Int_QuoRem_spec z x y [] Hz Hx Hy Hy0) as ([q m] & Hqm & Hq & _).
  revert Hqm. unfold Int_QuoRem, Int_Quo. destruct (nat_div _ _ _ _) as [[q' m']| |]; [|done..].
  cbn. intros [= <- _]. by go_ret.
Qed.

Lemma Int_Rem_spec z x y : normal (abs x) -> normal (abs y) -> ival y <> 0 ->
  returns (Int_Rem z x y) (Int_is (Z.rem (ival x) (ival y))).
Proof.
  intros Hx Hy Hy0. destruct (Int_QuoRem_spec [] x y z words_nil Hx Hy Hy0) as ([q m] & Hqm & _ & Hm).
  revert Hqm. unfold Int_QuoRem, Int_Rem. destruct (nat_div _ _ _ _) as [[q' m']| |]; [|done..].
  cbn. intros [= _ <-]. by go_ret.
Qed.

(** Euclidean division from truncated division. *)
Definition euclid_div (x y : Z) : Z := Z.sgn y * (x / Z.abs y).

Lemma euclid_spec x y : y <> 0 -> x = y * euclid_div x y + x mod Z.abs y /\ 0 <= x mod Z.abs y < Z.abs y.
Proof.
  intros Hy. pose proof (Z.mod_pos_bound x (Z.abs y)). pose proof (Z.div_mod x (Z.abs y)).
  unfold euclid_div. split; [|lia]. rewrite Z.mul_assoc.
  replace (y * Z.sgn y) with (Z.abs y) by (destruct y; simpl; lia). lia.
Qed.

Lemma trunc_euclid x y : y <> 0 ->
  if Z.rem x y <? 0
  then (if y <? 0 then euclid_div x y = Z.quot x y + 1 /\ x mod Z.abs y = Z.rem x y - y
        else euclid_div x y = Z.quot x y - 1 /\ x mod Z.abs y = Z.rem x y + y)
  else euclid_div x y = Z.quot x y /\ x mod Z.abs y = Z.rem x y.
Proof.
  intros Hy. destruct (euclid_spec x y Hy) as [E B]. set (q := euclid_div x y) in *. set (m := x mod Z.abs y) in *.
  pose proof (Z.quot_rem x y Hy) as E'. pose proof (Z.rem_bound_abs x y Hy) as B'.
  set (q' := Z.quot x y) in *. set (r := Z.rem x y) in *.
  assert (Hd : y * (q - q') = r - m) by lia.
  repeat case_bool.
  - assert (q - q' = 1) by nia. lia.
  - assert (q - q' = -1) by nia. lia.
  - assert (q - q' = 0) by nia. lia.
Qed.

Lemma neg_ltb v x : Int_is v x -> neg x = (v <? 0).
Proof.
  intros (Hx & H0 & <-). unfold ival. pose proof (val_nonneg _ (normal_words _ Hx)).
  destruct (neg x) eqn:En; bool_decide_goal; [|done].
  destruct (decide (abs x = [])) as [E|E]; [by apply H0 in E|].
  pose proof (normal_pos _ Hx ltac:(destruct (abs x); [done|simpl; lia])). by bool_decide_goal.
Qed.

Lemma wf_neg x : Int_wf x -> neg x = (ival x <? 0).
Proof. intros Hx. by apply neg_ltb, Int_wf_is. Qed.

Lemma Int_is_normal v x : Int_is v x -> normal (abs x).
Proof. by intros []. Qed.

Lemma Int_is_words v x : Int_is v x -> words (abs x).
Proof. intros []. auto with words. Qed.

(** Normal form of a call whose operands are known integers. *)
Lemma Int_is_ival v x : Int_is v x -> ival x = v.
Proof. by intros (_ & _ & ?). Qed.

Lemma Int_DivMod_spec z x y m : words z -> Int_wf x -> Int_wf y -> ival y <> 0 ->
  returns (Int_DivMod z x y m) (fun '(q, r) =>
    Int_is (euclid_div (ival x) (ival y)) q /\ Int_is (ival x mod Z.abs (ival y)) r).
Proof.
  intros Hz [Hx _] [Hy Hyw] Hy0. unfold Int_DivMod. go_call Int_QuoRem_spec; [done..|]. intros [q r] [Hq Hr].
  pose proof (trunc_euclid (ival x) (ival y) Hy0) as Hte. rewrite (neg_ltb _ _ Hr), (wf_neg y) by done.
  destruct (Z.rem _ _ <? 0); [destruct (ival y <? 0)|by go_ret; destruct Hte as [-> ->]];
    destruct Hte as [Hq' Hr'].
  - go_call Int_Add_spec; [by eapply Int_is_normal|apply intOne_is|]. intros q1 Hq1.
    go_call Int_Sub_spec; [by eapply Int_is_normal|done|]. intros r1 Hr1. go_ret.
    rewrite (Int_is_ival _ _ Hq) in Hq1. rewrite (Int_is_ival _ _ Hr) in Hr1. by rewrite Hq', Hr'.
  - go_call Int_Sub_spec; [by eapply Int_is_normal|apply intOne_is|]. intros q1 Hq1.
    go_call Int_Add_spec; [by eapply Int_is_normal|done|]. intros r1 Hr1. go_ret.
    rewrite (Int_is_ival _ _ Hq) in Hq1. rewrite (Int_is_ival _ _ Hr) in Hr1. by rewrite Hq', Hr'.
Qed.

Lemma Int_Div_spec z x y : words z -> Int_wf x -> Int_wf y -> ival y <> 0 ->
  returns (Int_Div z x y) (Int_is (euclid_div (ival x) (ival y))).
Proof.
  intros Hz [Hx _] [Hy Hyw] Hy0. unfold Int_Div. go_call Int_QuoRem_spec; [done..|]. intros [q r] [Hq Hr].
  pose proof (trunc_euclid (ival x) (ival y) Hy0) as Hte. rewrite (neg_ltb _ _ Hr), (wf_neg y) by done.
  destruct (Z.rem _ _ <? 0); [destruct (ival y <? 0)|by go_ret; destruct Hte as [-> _]];
    destruct Hte as [-> _].
  - go_mono Int_Add_spec; [by eapply Int_is_normal|apply intOne_is|]. by rewrite (Int_is_ival _ _ Hq).
  - go_mono Int_Sub_spec; [by eapply Int_is_normal|apply intOne_is|]. by rewrite (Int_is_ival _ _ Hq).
Qed.

Lemma Int_Mod_spec z x y : Int_wf x -> Int_wf y -> ival y <> 0 ->
  returns (Int_Mod z x y) (Int_is (ival x mod Z.abs (ival y))).
Proof.
  intros [Hx _] [Hy Hyw] Hy0. unfold Int_Mod. go_call Int_QuoRem_spec; [auto with words|done..|]. intros [q r] [Hq Hr].
  pose proof (trunc_euclid (ival x) (ival y) Hy0) as Hte. rewrite (neg_ltb _ _ Hr), (wf_neg y) by done.
  destruct (Z.rem _ _ <? 0); [destruct (ival y <? 0)|by go_ret; destruct Hte as [_ ->]];
    destruct Hte as [_ ->].
  - go_mono Int_Sub_spec; [by eapply Int_is_normal|done|]. by rewrite (Int_is_ival _ _ Hr).
  - go_mono Int_Add_spec; [by eapply Int_is_normal|done|]. by rewrite (Int_is_ival _ _ Hr).
Qed.

Lemma Int_Cmp_spec x y : Int_wf x -> Int_wf y -> Int_Cmp x y = Done (Zcmp (ival x) (ival y)).
Proof.
  intros Hx Hy. pose proof (wf_neg x Hx) as Nx. pose proof (wf_neg y Hy) as Ny.
  destruct Hx as [Hx _], Hy as [Hy _]. unfold Int_Cmp. rewrite nat_cmp_spec by done. unfold ival, Zcmp in *.
  pose proof (val_nonneg _ (normal_words _ Hx)). pose proof (val_nonneg _ (normal_words _ Hy)).
  destruct (neg x), (neg y); symmetry in Nx, Ny; bool_to_prop; cbn; f_equal; repeat case_bool; lia.
Qed.

Lemma Int_Sign_spec x : Int_wf x -> Int_Sign x = Z.sgn (ival x).
Proof.
  intros Hw. pose proof (wf_neg x Hw) as Nx. destruct Hw as [Hx _]. unfold Int_Sign.
  destruct (Nat.eqb_spec (length (abs x)) 0) as [E|E].
  - apply nil_length_inv in E. unfold ival. rewrite E. by destruct (neg x).
  - pose proof (normal_pos _ Hx ltac:(lia)). rewrite Nx. unfold ival in *.
    destruct (neg x); bool_decide_goal; lia.
Qed.

End ArithSpecs.

(** * Products of ranges and binomial coefficients *)

Lemma range_prod_pos a b : 0 < a -> 0 < range_prod a b.
Proof.
  intros Ha. unfold range_prod. assert (Hall : Forall (fun x => 0 < x) (seqZ a (b - a + 1))).
  { apply list.Forall_forall. intros x Hx%elem_of_seqZ. lia. }
  induction Hall; simpl; lia.
Qed.

Lemma range_prod_head a b : a <= b -> range_prod a b = a * range_prod (a + 1) b.
Proof. intros. rewrite (range_prod_split a a b), range_prod_one by lia. done. Qed.

Lemma range_prod_last a b : a <= b + 1 -> range_prod a (b + 1) = range_prod a b * (b + 1).
Proof. intros. rewrite (range_prod_split a b (b + 1)), range_prod_one by lia. done. Qed.

Lemma range_prod_opp a b : a <= b ->
  range_prod a b = if Z.even (b - a) then - range_prod (- b) (- a) else range_prod (- b) (- a).
Proof.
  intros Hab. remember (Z.to_nat (b - a)) as n eqn:Hn. revert a Hab Hn.
  induction n as [|n IH]; intros a Hab Hn.
  - replace a with b by lia. rewrite Z.sub_diag, !range_prod_one. simpl. lia.
  - rewrite range_prod_head, (IH (a + 1)) by lia.
    replace (- a) with (- (a + 1) + 1) by lia. rewrite (range_prod_last (- b)) by lia.
    replace (b - a) with (Z.succ (b - (a + 1))) by lia. rewrite Z.even_succ, <- Z.negb_even.
    destruct (Z.even (b - (a + 1))); simpl; lia.
Qed.

(** Binomial coefficients by Pascal's rule. *)
Fixpoint binomial (n k : nat) : Z :=
  match k, n with
  | O, _ => 1
  | S _, O => 0
  | S k', S n' => binomial n' k' + binomial n' k
  end.

Lemma binomial_range n : forall k, (k <= S n)%nat ->
  range_prod (Z.of_nat n - Z.of_nat k + 1) (Z.of_nat n) = binomial n k * range_prod 1 (Z.of_nat k).
Proof.
  induction n as [|n IH]; intros k Hk.
  - destruct k as [|[|]]; [done|done|lia].
  - destruct k as [|k]; [by rewrite range_prod_empty by lia|]. cbn [binomial].
    replace (Z.of_nat (S n) - Z.of_nat (S k) + 1) with (Z.of_nat n - Z.of_nat k + 1) by lia.
    replace (Z.of_nat (S n)) with (Z.of_nat n + 1) by lia. rewrite range_prod_last by lia.
    rewrite (IH k) by lia. replace (Z.of_nat (S k)) with (Z.of_nat k + 1) by lia.
    rewrite range_prod_last, Z.mul_add_distr_r by lia.
    destruct (decide (k = S n)) as [->|Hne].
    { assert (Z0 : forall m j, (m < j)%nat -> binomial m j = 0).
      { intros m. induction m as [|m IHm]; intros [|j] Hj; simpl; try lia. rewrite !IHm by lia. done. }
      rewrite !Z0 by lia. ring. }
    pose proof (IH (S k) ltac:(lia)) as IH'.
    replace (Z.of_nat n - Z.of_nat (S k) + 1) with (Z.of_nat n - Z.of_nat k) in IH' by lia.
    rewrite range_prod_head, (IH k) in IH' by lia.
    replace (Z.of_nat (S k)) with (Z.of_nat k + 1) in IH' by lia. rewrite range_prod_last in IH' by lia.
    rewrite <- IH'. ring.
Qed.

Section MoreSpecs.
Context `{HA : Arith} {HL : ArithLaws HA}.

Lemma Int_MulRange_spec z a b : words z -> - 2 ^ 63 <= a < 2 ^ 63 -> - 2 ^ 63 <= b < 2 ^ 63 ->
  returns (Int_MulRange z a b) (Int_is (range_prod a b)).
Proof.
  intros Hz Ha Hb. unfold Int_MulRange. destruct (Z.ltb_spec b a).
  { rewrite range_prod_empty by lia. by apply Int_SetInt64_spec. }
  destruct (Z.leb_spec a 0), (Z.leb_spec 0 b); cbn [andb].
  - replace (range_prod a b) with 0; [by apply Int_SetInt64_spec|].
    rewrite (range_prod_split a (-1) b), range_prod_zero by lia. ring.
  - rewrite (proj2 (Z.ltb_lt a 0)) by lia.
    assert (Hu : forall c, - 2 ^ 63 <= c < 0 -> uint64 (int64 (- c)) = - c).
    { intros c Hc. unfold uint64, int64, wrap, swrap. destruct (decide (c = - 2 ^ 63)) as [->|]; [done|].
      rewrite (Z.mod_small (- c + _)), Z.add_simpl_r, Z.mod_small by lia. done. }
    rewrite !Hu by lia. go_call nat_mulRange_spec; [done|lia|lia|]. intros r Hr. go_ret.
    rewrite range_prod_opp by lia. unfold int64. rewrite swrap_small by lia.
    change 1 with (Z.ones 1). rewrite Z.land_ones by lia. change (2 ^ 1) with 2. rewrite Zmod_even.
    destruct (Z.even (b - a)); cbn [Z.eqb]; [apply neg_is; [done|apply range_prod_pos; lia]|by apply pos_is].
  - rewrite (proj2 (Z.ltb_ge a 0)) by lia. unfold uint64. rewrite !wrap_small by lia.
    go_call nat_mulRange_spec; [done|lia|lia|]. intros r Hr. go_ret. by apply pos_is.
  - lia.
Qed.

Lemma Int_Binomial_spec z n k : words z -> 0 <= k <= n -> n < 2 ^ 63 -> n - k + 1 < 2 ^ 63 ->
  returns (Int_Binomial z n k) (Int_is (binomial (Z.to_nat n) (Z.to_nat k))).
Proof.
  intros Hz Hk Hn Hnk. unfold Int_Binomial, int64. rewrite (swrap_small 64 (n - k)) by lia.
  rewrite swrap_small by lia. go_call Int_MulRange_spec; [auto with words|lia|lia|]. intros a Ha.
  go_call Int_MulRange_spec; [auto with words|lia|lia|]. intros b Hb.
  pose proof (range_prod_pos 1 k ltac:(lia)).
  go_mono Int_Quo_spec; [done|by eapply Int_is_normal|by eapply Int_is_normal| |].
  { rewrite (Int_is_ival _ _ Hb). lia. }
  intros r. rewrite (Int_is_ival _ _ Ha), (Int_is_ival _ _ Hb).
  pose proof (binomial_range (Z.to_nat n) (Z.to_nat k) ltac:(lia)) as HB. rewrite !Z2Nat.id in HB by lia.
  rewrite HB, Z.quot_mul by lia. done.
Qed.

Lemma Int_Int64_spec x : normal (abs x) -> Int_Int64 x = Done (int64 (ival x)).
Proof.
  intros Hx. unfold Int_Int64, ival. pose proof (normal_words _ Hx) as Hw. destruct (abs x) as [|w l]; [by destruct (neg x)|].
  cbn [length Nat.eqb]. change (idx (w :: l) 0) with (Done w). change (_W =? 32) with false.
  cbn [andb mbind outcome_bind val].
  apply words_cons in Hw as [Hw _]. unfold word in Hw. rewrite _B_eq in *.
  apply (f_equal Done). unfold int64, swrap. change (64 - 1) with 63.
  assert (H64 : 2 ^ 64 <> 0) by lia. destruct (neg x); apply (f_equal (fun v => v - 2 ^ 63)).
  - replace (- ((w + 2 ^ 63) mod 2 ^ 64 - 2 ^ 63) + 2 ^ 63) with (2 ^ 64 - (w + 2 ^ 63) mod 2 ^ 64) by ring.
    rewrite Zminus_mod_idemp_r. replace (- (w + 2 ^ 64 * val l) + 2 ^ 63)
      with (2 ^ 64 - (w + 2 ^ 63) + (- val l) * 2 ^ 64) by ring. by rewrite Z.mod_add.
  - replace (w + 2 ^ 64 * val l + 2 ^ 63) with (w + 2 ^ 63 + val l * 2 ^ 64) by ring. by rewrite Z.mod_add.
Qed.

(** A modulus of [Exp]: nil, or a non-zero integer. *)
Definition exp_modulus (m : option Int) (nil_abs : bool) : Prop :=
  match m with Some m => normal (abs m) /\ ival m <> 0 /\ nil_abs = false | None => True end.

Lemma rem_power (n : bool) a e m : 0 <= a -> 0 <= e -> m <> 0 ->
  Z.rem ((if n then - a else a) ^ e) m =
  if n && Z.odd e then - (a ^ e mod Z.abs m) else a ^ e mod Z.abs m.
Proof.
  intros Ha He Hm. pose proof (Z.pow_nonneg a e Ha).
  assert (Hr : forall v, 0 <= v -> Z.rem v m = v mod Z.abs m).
  { intros v Hv. rewrite <- Z.rem_abs_r, Z.rem_mod_nonneg by lia. done. }
  destruct n; cbn [andb]; [|by apply Hr]. destruct (Z.odd e) eqn:Ho.
  - rewrite Z.pow_opp_odd by (by apply Z.odd_spec). rewrite Z.rem_opp_l, Hr by lia. done.
  - rewrite Z.pow_opp_even by (apply Z.even_spec; rewrite <- Z.negb_odd, Ho; done). by apply Hr.
Qed.

Lemma val_odd y0 l : Z.odd (val (y0 :: l)) = (Z.land y0 1 =? 1).
Proof.
  cbn [val]. rewrite Z.odd_add, Z.odd_mul, _B_eq. change (Z.odd (2 ^ 64)) with false. cbn [andb].
  rewrite xorb_false_r. change 1 with (Z.ones 1) at 1. rewrite Z.land_ones by lia. change (2 ^ 1) with 2.
  rewrite Zmod_odd. by destruct (Z.odd y0).
Qed.

Lemma Int_Exp_spec z x y m nil_abs : Int_wf x -> Int_wf y -> exp_modulus m nil_abs ->
  returns (Int_Exp z x y m nil_abs) (Int_is
    (if ival y <=? 0 then if ival x <? 0 then -1 else 1
     else if ival y =? 1 then ival x
     else match m with Some m => Z.rem (ival x ^ ival y) (ival m) | None => ival x ^ ival y end)).
Proof.
  intros Hx Hy Hm. pose proof (wf_neg x Hx) as Nx. pose proof (wf_neg y Hy) as Ny.
  destruct Hx as [Hx _], Hy as [Hy _]. unfold Int_Exp.
  pose proof (val_nonneg _ (normal_words _ Hx)) as Hxv.
  destruct (neg y || (length (abs y) =? 0)%nat) eqn:E.
  - assert (ival y <= 0).
    { apply orb_prop in E as [E|E]; [rewrite Ny in E; lia|]. apply Nat.eqb_eq, nil_length_inv in E.
      unfold ival. rewrite E. by destruct (neg y). }
    bool_decide_goal. go_call Int_SetInt64_spec; [lia|]. intros r Hr. go_ret. rewrite <- Nx.
    assert (Hr1 : nat_is 1 (abs r)).
    { pose proof (neg_ltb _ _ Hr) as Hn. destruct Hr as (? & _ & Hv). unfold ival in Hv. rewrite Hn in Hv. done. }
    destruct (neg x); [by apply (neg_is (abs r) 1)|by apply pos_is].
  - apply orb_false_elim in E as [Eny El]. apply Nat.eqb_neq in El.
    pose proof (normal_pos _ Hy ltac:(lia)) as Hyv. destruct (abs y) as [|y0 l] eqn:Ey; [done|].
    assert (Eiy : ival y = val (y0 :: l)) by (unfold ival; by rewrite Eny, Ey). rewrite Eiy.
    go_call nat_expNN_full; [done|done| |].
    { destruct m as [m|]; [|done]. destruct Hm as (Hm1 & Hm2 & ->). exact (conj Hm1 (abs_pos m Hm1 Hm2)). }
    intros a Ha. rewrite (proj2 (Z.eqb_neq _ 0)) in Ha by lia. rewrite (proj2 (Z.leb_gt _ 0)) by lia.
    change (idx (y0 :: l) 0) with (Done y0). cbn [mbind outcome_bind]. go_ret. rewrite <- (val_odd y0 l).
    eapply Int_is_eq; [by apply signed_is|]. unfold ival. destruct (Z.eqb_spec (val (y0 :: l)) 1) as [->|Hne].
    { cbn [Z.odd]. rewrite andb_true_r. done. }
    destruct m as [m|]; cbn [reduce].
    + destruct Hm as (Hm1 & Hm2 & ->). cbn [reduce]. rewrite rem_power by (done || lia).
      assert (Z.abs (if neg m then - val (abs m) else val (abs m)) = val (abs m)) as ->; [|done].
      pose proof (val_nonneg _ (normal_words _ Hm1)). destruct (neg m); lia.
    + destruct (neg x); [|done]. cbn [andb]. destruct (Z.odd _) eqn:Ho.
      * rewrite Z.pow_opp_odd by (by apply Z.odd_spec). done.
      * rewrite Z.pow_opp_even by (apply Z.even_spec; rewrite <- Z.negb_odd, Ho; done). done.
Qed.

End MoreSpecs.

(** * The extended Euclidean algorithm *)

Section Gcd.
Context `{HA : Arith} {HL : ArithLaws HA}.

Lemma ival_negate x : ival {| neg := negb (neg x); abs := abs x |} = - ival x.
Proof. unfold ival. simpl. destruct (neg x); simpl; lia. Qed.

Lemma gcd_step_spec q X lastX vq vX vl : Int_is vq q -> Int_is vX X -> Int_is vl lastX ->
  returns (gcd_step q X lastX) (fun '(X', lastX') => Int_is (vl - vq * vX) X' /\ Int_is vX lastX').
Proof.
  intros Hq HX Hl. unfold gcd_step. rewrite Int_Set_spec. cbn [mbind outcome_bind].
  go_call Int_Mul_spec; [by eapply Int_is_words|by eapply Int_is_normal|by eapply Int_is_normal|].
  intros X1 HX1. go_call Int_Add_spec; [by eapply Int_is_normal in HX1|by eapply Int_is_normal|].
  intros X2 HX2. rewrite Int_Set_spec. go_ret. split; [|done]. eapply Int_is_eq; [done|].
  rewrite ival_negate, (Int_is_ival _ _ HX1), (Int_is_ival _ _ Hq), (Int_is_ival _ _ HX), (Int_is_ival _ _ Hl). ring.
Qed.

(** The state of the loop as integers: [A = a*lastX + b*lastY],
    [B = a*X + b*Y], and the coefficients of [a] alternate in sign. *)
Definition euclid_inv (a b A B X lX Y lY : Z) : Prop :=
  0 <= A /\ 0 <= B /\ Z.gcd A B = Z.gcd a b /\ A = a * lX + b * lY /\ B = a * X + b * Y /\
  X * lX <= 0 /\ Z.abs X * A + Z.abs lX * B = b /\ (0 < A \/ X = 0) /\
  (B = b \/ B < b) /\ ((B = b /\ X = 0) \/ Z.abs lX <= b).

Lemma euclid_inv_init a b : 0 <= a -> 0 <= b -> euclid_inv a b a b 0 1 1 0.
Proof. intros. unfold euclid_inv. split_and!; try lia. Qed.

Lemma abs_sub_opposite u v : u * v <= 0 -> Z.abs (u - v) = Z.abs u + Z.abs v.
Proof. intros H. destruct (Z.le_gt_cases 0 u), (Z.le_gt_cases 0 v); nia. Qed.

Lemma euclid_inv_step a b A B X lX Y lY : 0 <= b -> euclid_inv a b A B X lX Y lY -> 0 < B ->
  euclid_inv a b B (A mod B) (lX - A / B * X) X (lY - A / B * Y) Y.
Proof.
  intros Hb (HA0 & HB & Hg & EA & EB & Hs & Hd & Hpos & Hlt & Hbd) HB0.
  pose proof (Z.mod_pos_bound A B HB0) as Hm. pose proof (Z.div_mod A B ltac:(lia)) as Hdm.
  pose proof (Z.div_pos A B HA0 HB0) as Hq.
  assert (Hg' : Z.gcd B (A mod B) = Z.gcd a b) by (by rewrite Z.gcd_comm, Z.gcd_mod, Z.gcd_comm by lia).
  set (q := A / B) in *. set (r := A mod B) in *. clearbody q r.
  assert (Hr : r = A - B * q) by lia.
  assert (HqX : 0 <= q * (X * X)) by (apply Z.mul_nonneg_nonneg; [done|apply Z.square_nonneg]).
  split_and!; [lia|lia|done|done| | | |by left|right; lia|].
  - rewrite Hr, EA, EB. ring.
  - replace ((lX - q * X) * X) with (X * lX - q * (X * X)) by ring. lia.
  - rewrite abs_sub_opposite.
    + rewrite Z.abs_mul, (Z.abs_eq q), <- Hd, Hr by lia. ring.
    + replace (lX * (q * X)) with (q * (X * lX)) by ring. by apply Z.mul_nonneg_nonpos.
  - right. destruct Hpos as [Hpos| ->]; [|done].
    pose proof (Z.mul_le_mono_nonneg_l 1 A (Z.abs X) ltac:(lia) ltac:(lia)).
    pose proof (Z.mul_nonneg_nonneg (Z.abs lX) B ltac:(lia) ltac:(lia)). lia.
Qed.

(** The number of rounds is logarithmic in [B]. *)
Definition euclid_mu (A B : Z) : nat :=
  if B =? 0 then O else if A mod B =? 0 then 1%nat else (2 + Z.to_nat (Z.log2 (B * (A mod B))))%nat.

Lemma euclid_mu_step A B : 0 < B -> (euclid_mu B (A mod B) < euclid_mu A B)%nat.
Proof.
  intros HB. unfold euclid_mu. rewrite (proj2 (Z.eqb_neq B 0)) by lia.
  pose proof (Z.mod_pos_bound A B HB). set (r := A mod B) in *.
  destruct (Z.eqb_spec r 0); [lia|]. destruct (Z.eqb_spec (B mod r) 0); [lia|].
  pose proof (Z.mod_pos_bound B r ltac:(lia)). pose proof (Z.div_mod B r ltac:(lia)).
  pose proof (Z.div_le_lower_bound B r 1 ltac:(lia) ltac:(lia)).
  pose proof (Z.mul_le_mono_nonneg_l 1 (B / r) r ltac:(lia) ltac:(lia)). set (s := B mod r) in *.
  assert (Hh : 2 * (r * s) <= B * r) by (rewrite (Z.mul_comm B); apply Z.le_trans with (r * (2 * s)); [lia|apply Z.mul_le_mono_nonneg_l; lia]).
  assert (0 < r * s) by (apply Z.mul_pos_pos; lia).
  apply Z.log2_le_mono in Hh. rewrite Z.log2_double in Hh by done. pose proof (Z.log2_nonneg (r * s)). lia.
Qed.

Lemma euclid_mu_bound A B n : 0 <= B < 2 ^ n -> 0 <= n -> (euclid_mu A B < S (S (Z.to_nat (2 * n))))%nat.
Proof.
  intros HB Hn. unfold euclid_mu. destruct (Z.eqb_spec B 0); [lia|].
  pose proof (Z.mod_pos_bound A B ltac:(lia)). destruct (Z.eqb_spec (A mod B) 0); [lia|].
  enough (Z.log2 (B * (A mod B)) < 2 * n) by (pose proof (Z.log2_nonneg (B * (A mod B))); lia).
  apply Z.log2_lt_pow2; [apply Z.mul_pos_pos; lia|]. replace (2 * n) with (n + n) by lia.
  rewrite Z.pow_add_r by lia. apply Z.mul_lt_mono_nonneg; lia.
Qed.

Lemma gcd_loop_spec a b : Int_wf a -> Int_wf b -> 0 <= ival a -> 0 <= ival b ->
  returns (gcd_loop a b) (fun '(d, x, y) => exists vx vy,
    Int_is (Z.gcd (ival a) (ival b)) d /\ Int_is vx x /\ Int_is vy y /\
    ival a * vx + ival b * vy = Z.gcd (ival a) (ival b) /\ (0 < ival b -> Z.abs vx <= ival b)).
Proof.
  intros Ha Hb Ha0 Hb0. unfold gcd_loop. rewrite !Int_Set_spec. cbn [mbind outcome_bind].
  go_call Int_SetInt64_spec; [lia|]. intros Y HY. go_call Int_SetInt64_spec; [lia|]. intros lX HlX.
  apply (loop_returns
    (fun '(A, B, X, lX, Y, lY, q) => exists vA vB vX vlX vY vlY,
      Int_is vA A /\ Int_is vB B /\ Int_is vX X /\ Int_is vlX lX /\ Int_is vY Y /\ Int_is vlY lY /\ words q /\
      euclid_inv (ival a) (ival b) vA vB vX vlX vY vlY)
    (fun '(A, B, _, _, _, _, _) => euclid_mu (ival A) (ival B))).
  - intros [[[[[[A B] X] lX'] Y'] lY] q] (vA & vB & vX & vlX & vY & vlY & HA' & HB & HX & HlX' & HY' & HlY & Hq & Hinv).
    pose proof Hinv as (HA0 & HB0 & Hg & EA & EB & _ & _ & _ & _ & Hbd).
    destruct (Nat.ltb_spec 0 (length (abs B))) as [Hl|Hl].
    + pose proof (Int_is_ival _ _ HA') as EvA. pose proof (Int_is_ival _ _ HB) as EvB.
      assert (0 < vB).
      { pose proof (neg_ltb _ _ HB) as Hn. rewrite (proj2 (Z.ltb_ge _ _)) in Hn by lia.
        destruct HB as (HB1 & _ & <-). unfold ival. rewrite Hn. by apply normal_pos. }
      go_call Int_QuoRem_spec; [done|by eapply Int_is_normal|by eapply Int_is_normal|lia|].
      intros [q' r] [Hq' Hr]. rewrite EvA, EvB, Z.quot_div_nonneg, Z.rem_mod_nonneg in * by lia.
      go_call gcd_step_spec; [done..|]. intros [X1 lX1] [HX1 HlX1].
      go_call gcd_step_spec; [done..|]. intros [Y1 lY1] [HY1 HlY1]. go_ret. split.
      * exists vB, (vA mod vB), (vlX - vA / vB * vX), vX, (vlY - vA / vB * vY), vY.
        split_and!; try done; [by eapply Int_is_words|]. by apply euclid_inv_step.
      * rewrite EvB, (Int_is_ival _ _ Hr). by apply euclid_mu_step.
    + assert (vB = 0) as ->.
      { apply Int_is_ival in HB as <-. destruct (abs B) eqn:E; [|simpl in Hl; lia].
        unfold ival. rewrite E. by destruct (neg B). }
      go_ret. exists vlX, vlY. rewrite Z.gcd_0_r, Z.abs_eq in Hg by lia. rewrite <- Hg.
      split_and!; [done|done|done|lia|]. intros Hbp. destruct Hbd as [[? _]|?]; lia.
  - exists (ival a), (ival b), 0, 1, 1, 0. pose proof (Int_wf_is a Ha). pose proof (Int_wf_is b Hb).
    pose proof Int_zero_is. pose proof words_nil. pose proof (euclid_inv_init (ival a) (ival b) Ha0 Hb0). done.
  - replace (2 * Z.to_nat _W * length (abs b))%nat with (Z.to_nat (2 * (_W * zlen (abs b)))) by (unfold zlen; lia).
    apply euclid_mu_bound; [|unfold zlen; rewrite _W_eq; lia].
    split; [done|]. destruct Hb as [Hb _]. pose proof (val_bound _ (normal_words _ Hb)) as Hv.
    rewrite Bpow_pow2 in Hv. unfold zlen. rewrite Z.mul_comm. unfold ival in *. destruct (neg b); lia.
Qed.

Lemma GcdInt_spec d x y a b : Int_wf a -> Int_wf b -> 0 <= ival a -> 0 <= ival b ->
  returns (GcdInt d x y a b) (fun '(d', x', y') => exists X Y vx vy,
    Int_is (Z.gcd (ival a) (ival b)) d' /\ Int_is vx X /\ Int_is vy Y /\
    ival a * vx + ival b * vy = Z.gcd (ival a) (ival b) /\ (0 < ival b -> Z.abs vx <= ival b) /\
    x' = (fun _ => X) <$> x /\ y' = (fun _ => Y) <$> y).
Proof.
  intros Ha Hb Ha0 Hb0. unfold GcdInt. rewrite (wf_neg a), (wf_neg b) by done. bool_decide_goal. cbn [orb].
  go_call gcd_loop_spec; [done..|]. intros [[D X] Y] (vx & vy & HD & HX & HY & HE & Hbd). go_ret.
  exists X, Y, vx, vy. split_and!; try done; by destruct x, y.
Qed.

Lemma GcdInt_neg d x y a b : Int_wf a -> Int_wf b -> ival a < 0 \/ ival b < 0 ->
  returns (GcdInt d x y a b) (fun '(d', x', y') => Int_is 0 d' /\
    x' = (fun _ => Int_zero) <$> x /\ y' = (fun _ => Int_zero) <$> y).
Proof.
  intros Ha Hb Hn. unfold GcdInt. rewrite (wf_neg a), (wf_neg b) by done.
  assert ((ival a <? 0) || (ival b <? 0) = true) as -> by (apply orb_true_iff; lia).
  assert (HZ : forall z, returns (Int_SetInt64 z 0) (fun r => r = Int_zero)).
  { intros z. go_mono Int_SetInt64_spec; [lia|]. intros r Hr. eapply Int_is_inj; [done|apply Int_zero_is]. }
  go_call HZ. intros ? ->. destruct x, y; cbn [mbind outcome_bind].
  all: repeat (eapply returns_bind; [first [eapply returns_bind; [apply HZ|intros ? ->; go_ret; reflexivity]|go_ret; reflexivity]|intros ? ->]).
  all: go_ret; split; [apply Int_zero_is|done].
Qed.

Lemma Int_ModInverse_spec z g p : Int_wf g -> Int_wf p -> 0 <= ival g -> 1 < ival p ->
  Z.gcd (ival g) (ival p) = 1 ->
  returns (Int_ModInverse z g p) (fun r => exists v, Int_is v r /\ 0 < v < ival p /\ (ival g * v) mod ival p = 1).
Proof.
  intros Hg Hp Hg0 Hp1 Hgcd. unfold Int_ModInverse. go_call GcdInt_spec; [done|done|lia|lia|].
  intros [[d x] y] (X & Y & vx & vy & _ & HX & _ & HE & Hbd & -> & _).
  change ((fun _ => X) <$> Some z) with (Some X). cbn [of_option mbind outcome_bind].
  rewrite Hgcd in HE. specialize (Hbd ltac:(lia)).
  assert (Hinv : forall k, (ival g * (vx + k * ival p)) mod ival p = 1).
  { intros k. replace (ival g * (vx + k * ival p)) with (1 + (ival g * k - vy) * ival p) by lia.
    rewrite Z.mod_add, Z.mod_small by lia. done. }
  assert (Hz : forall k, vx + k * ival p <> 0 /\ vx + k * ival p <> ival p).
  { intros k. split; intros E; pose proof (Hinv k) as Hk; rewrite E in Hk;
      [rewrite Z.mul_0_r, Z.mod_0_l in Hk by lia|rewrite Z.mod_mul in Hk by lia]; lia. }
  pose proof (Hz 0) as [Hz0 Hzp]. pose proof (Hz 1) as [Hz1 Hzp1].
  rewrite (neg_ltb _ _ HX). destruct (Z.ltb_spec vx 0).
  - go_mono Int_Add_spec; [by eapply Int_is_normal|by destruct Hp|]. intros r Hr.
    rewrite (Int_is_ival _ _ HX) in Hr. exists (vx + ival p). split; [done|]. split; [lia|].
    pose proof (Hinv 1) as H1. by rewrite Z.mul_1_l in H1.
  - go_ret. exists vx. split; [done|]. split; [lia|]. pose proof (Hinv 0) as H0. by rewrite Z.mul_0_l, Z.add_0_r in H0.
Qed.

End Gcd.

(** * Bitwise operations on two's complement *)

(** Equalities of bitwise expressions, bit by bit. *)
Ltac bitwise :=
  apply Z.bits_inj'; let n := fresh "n" in let Hn := fresh "Hn" in intros n Hn;
  rewrite ?Z.lnot_spec, ?Z.land_spec, ?Z.lor_spec, ?Z.lxor_spec, ?Z.ldiff_spec, ?Z.shiftr_spec by lia;
  rewrite ?Z.lnot_spec, ?Z.land_spec, ?Z.lor_spec, ?Z.lxor_spec, ?Z.ldiff_spec by lia;
  repeat match goal with |- context [Z.testbit ?a ?i] => destruct (Z.testbit a i) end; done.

Section Bits.
Context `{HA : Arith} {HL : ArithLaws HA}.

(** [-x == ^(x-1)]: what the comments of the code start from. *)
Lemma sub_one_spec z x : Int_wf x -> neg x = true ->
  returns (nat_sub z (abs x) natOne) (fun t => normal t /\ ival x = Z.lnot (val t)).
Proof.
  intros Hw Hn. pose proof (wf_neg x Hw) as Hv. rewrite Hn in Hv. destruct Hw as [Hx _].
  unfold ival in Hv. rewrite Hn in Hv. symmetry in Hv. bool_to_prop.
  go_mono nat_sub_ge; [done|apply natOne_is|change (val natOne) with 1; lia|].
  intros t [Ht Vt]. split; [done|]. change (val natOne) with 1 in Vt. unfold ival, Z.lnot. rewrite Hn. lia.
Qed.

Lemma add_one_spec z t v : nat_is v t ->
  returns (nat_add z t natOne) (fun a => Int_is (Z.lnot v) {| neg := true; abs := a |}).
Proof.
  intros [Ht <-]. pose proof (val_nonneg _ (normal_words _ Ht)). go_mono nat_add_spec; [done|apply natOne_is|].
  intros a Ha. eapply Int_is_eq; [apply (neg_is a _ Ha)|unfold Z.lnot]; change (val natOne) with 1; lia.
Qed.

Lemma ival_pos x : neg x = false -> ival x = val (abs x).
Proof. unfold ival. by intros ->. Qed.

Lemma Int_Lsh_spec z x n : Int_wf x -> 0 <= n -> returns (Int_Lsh z x n) (Int_is (Z.shiftl (ival x) n)).
Proof.
  intros [Hx Hx0] Hn. unfold Int_Lsh. go_call nat_shl_spec; [done|done|]. intros a Ha. go_ret.
  rewrite Z.shiftl_mul_pow2 by done. pose proof (Z.pow_pos_nonneg 2 n ltac:(lia) Hn).
  destruct Ha as [Ha Va]. split_and!; [done| |unfold ival; simpl; rewrite Va; destruct (neg x); lia].
  simpl. intros ->. apply Hx0, normal_zero; [done|]. rewrite val_nil in Va. nia.
Qed.

Lemma Int_Rsh_spec z x n : Int_wf x -> 0 <= n -> returns (Int_Rsh z x n) (Int_is (Z.shiftr (ival x) n)).
Proof.
  intros Hw Hn. unfold Int_Rsh. destruct (neg x) eqn:En.
  - go_call sub_one_spec; [done|done|]. intros t [Ht ->].
    go_call nat_shr_spec; [done|done|]. intros t' Ht'.
    go_call add_one_spec; [done|]. intros a Ha. go_ret. eapply Int_is_eq; [done|].
    rewrite <- Z.shiftr_div_pow2 by done. bitwise.
  - go_call nat_shr_spec; [by destruct Hw|done|]. intros a Ha. go_ret. rewrite ival_pos by done.
    rewrite Z.shiftr_div_pow2 by done. by apply pos_is.
Qed.

Lemma Int_Bit_spec x i : Int_wf x -> 0 <= i -> Int_Bit x i = Done (Z.b2z (Z.testbit (ival x) i)).
Proof.
  intros Hw Hi. unfold Int_Bit. bool_decide_goal. destruct (neg x) eqn:En.
  - destruct (sub_one_spec [] x Hw En) as (t & -> & Ht & ->). cbn [mbind outcome_bind].
    rewrite nat_bit_spec, Z.lnot_spec by auto with words. by destruct (Z.testbit (val t) i).
  - rewrite nat_bit_spec, ival_pos by (destruct Hw; auto with words). done.
Qed.

Lemma Int_Not_spec z x : Int_wf x -> returns (Int_Not z x) (Int_is (Z.lnot (ival x))).
Proof.
  intros Hw. unfold Int_Not. destruct (neg x) eqn:En.
  - go_call sub_one_spec; [done|done|]. intros t [Ht ->]. go_ret. rewrite Z.lnot_involutive. by apply pos_is, nat_is_val.
  - rewrite ival_pos by done. go_call add_one_spec; [by apply nat_is_val; destruct Hw|]. intros a Ha. by go_ret.
Qed.

Lemma Int_And_spec z x y : Int_wf x -> Int_wf y -> returns (Int_And z x y) (Int_is (Z.land (ival x) (ival y))).
Proof.
  intros Hx Hy. pose proof (normal_words _ (proj1 Hx)). pose proof (normal_words _ (proj1 Hy)). unfold Int_And.
  destruct (neg x) eqn:Ex, (neg y) eqn:Ey; cbn [Bool.eqb]; rewrite ?(ival_pos x), ?(ival_pos y) by done.
  - go_call sub_one_spec; [done..|]. intros x1 [Hx1 ->]. go_call sub_one_spec; [done..|]. intros y1 [Hy1 ->].
    go_call nat_or_spec; [auto with words..|]. intros t Ht. go_call add_one_spec; [done|]. intros a Ha. go_ret.
    eapply Int_is_eq; [done|bitwise].
  - go_call sub_one_spec; [done..|]. intros x1 [Hx1 ->].
    go_call nat_andNot_spec; [auto with words..|]. intros a Ha. go_ret. eapply Int_is_eq; [by apply pos_is|bitwise].
  - go_call sub_one_spec; [done..|]. intros y1 [Hy1 ->].
    go_call nat_andNot_spec; [auto with words..|]. intros a Ha. go_ret. eapply Int_is_eq; [by apply pos_is|bitwise].
  - go_call nat_and_spec; [auto with words..|]. intros a Ha. go_ret. by apply pos_is.
Qed.

Lemma Int_AndNot_spec z x y : Int_wf x -> Int_wf y -> neg x = true \/ neg y = false ->
  returns (Int_AndNot z x y) (Int_is (Z.ldiff (ival x) (ival y))).
Proof.
  intros Hx Hy Hc. pose proof (normal_words _ (proj1 Hx)). pose proof (normal_words _ (proj1 Hy)). unfold Int_AndNot.
  destruct (neg x) eqn:Ex, (neg y) eqn:Ey; cbn [Bool.eqb]; rewrite ?(ival_pos x), ?(ival_pos y) by done.
  - go_call sub_one_spec; [done..|]. intros x1 [Hx1 ->]. go_call sub_one_spec; [done..|]. intros y1 [Hy1 ->].
    go_call nat_andNot_spec; [auto with words..|]. intros a Ha. go_ret. eapply Int_is_eq; [by apply pos_is|bitwise].
  - go_call sub_one_spec; [done..|]. intros x1 [Hx1 ->].
    go_call nat_or_spec; [auto with words..|]. intros t Ht. go_call add_one_spec; [done|]. intros a Ha. go_ret.
    eapply Int_is_eq; [done|bitwise].
  - by destruct Hc.
  - go_call nat_andNot_spec; [auto with words..|]. intros a Ha. go_ret. by apply pos_is.
Qed.

(** What [AndNot] computes for [x >= 0] and [y < 0]. *)
Lemma Int_AndNot_mixed z x y : Int_wf x -> Int_wf y -> neg x = false -> neg y = true ->
  returns (Int_AndNot z x y) (Int_is (Z.land (ival x) (1 - ival y))).
Proof.
  intros Hx Hy Ex Ey. unfold Int_AndNot. rewrite Ex, Ey, ival_pos by done. cbn [Bool.eqb].
  go_call nat_add_spec; [apply Hy|apply natOne_is|]. intros y1 [Hy1 Vy1].
  go_call nat_and_spec; [apply normal_words, Hx|auto with words|]. intros a Ha. go_ret.
  eapply Int_is_eq; [by apply pos_is|]. rewrite Vy1. change (val natOne) with 1. unfold ival. rewrite Ey. f_equal. lia.
Qed.

Lemma Int_Or_spec z x y : Int_wf x -> Int_wf y -> returns (Int_Or z x y) (Int_is (Z.lor (ival x) (ival y))).
Proof.
  intros Hx Hy. pose proof (normal_words _ (proj1 Hx)). pose proof (normal_words _ (proj1 Hy)). unfold Int_Or.
  destruct (neg x) eqn:Ex, (neg y) eqn:Ey; cbn [Bool.eqb]; rewrite ?(ival_pos x), ?(ival_pos y) by done.
  - go_call sub_one_spec; [done..|]. intros x1 [Hx1 ->]. go_call sub_one_spec; [done..|]. intros y1 [Hy1 ->].
    go_call nat_and_spec; [auto with words..|]. intros t Ht. go_call add_one_spec; [done|]. intros a Ha. go_ret.
    eapply Int_is_eq; [done|bitwise].
  - go_call sub_one_spec; [done..|]. intros x1 [Hx1 ->].
    go_call nat_andNot_spec; [auto with words..|]. intros t Ht. go_call add_one_spec; [done|]. intros a Ha. go_ret.
    eapply Int_is_eq; [done|bitwise].
  - go_call sub_one_spec; [done..|]. intros y1 [Hy1 ->].
    go_call nat_andNot_spec; [auto with words..|]. intros t Ht. go_call add_one_spec; [done|]. intros a Ha. go_ret.
    eapply Int_is_eq; [done|bitwise].
  - go_call nat_or_spec; [auto with words..|]. intros a Ha. go_ret. by apply pos_is.
Qed.

Lemma Int_Xor_spec z x y : Int_wf x -> Int_wf y -> returns (Int_Xor z x y) (Int_is (Z.lxor (ival x) (ival y))).
Proof.
  intros Hx Hy. pose proof (normal_words _ (proj1 Hx)). pose proof (normal_words _ (proj1 Hy)). unfold Int_Xor.
  destruct (neg x) eqn:Ex, (neg y) eqn:Ey; cbn [Bool.eqb]; rewrite ?(ival_pos x), ?(ival_pos y) by done.
  - go_call sub_one_spec; [done..|]. intros x1 [Hx1 ->]. go_call sub_one_spec; [done..|]. intros y1 [Hy1 ->].
    go_call nat_xor_spec; [auto with words..|]. intros a Ha. go_ret. eapply Int_is_eq; [by apply pos_is|bitwise].
  - go_call sub_one_spec; [done..|]. intros x1 [Hx1 ->].
    go_call nat_xor_spec; [auto with words..|]. intros t Ht. go_call add_one_spec; [done|]. intros a Ha. go_ret.
    eapply Int_is_eq; [done|bitwise].
  - go_call sub_one_spec; [done..|]. intros y1 [Hy1 ->].
    go_call nat_xor_spec; [auto with words..|]. intros t Ht. go_call add_one_spec; [done|]. intros a Ha. go_ret.
    eapply Int_is_eq; [done|bitwise].
  - go_call nat_xor_spec; [auto with words..|]. intros a Ha. go_ret. by apply pos_is.
Qed.

(** [SetBit], when the storage holds zeros beyond the operand. *)
Lemma setBit_tail_zero z x i : Forall (eq 0) (drop (length x) z) ->
  setBit_tail z x i = replicate (length (setBit_tail z x i)) 0.
Proof.
  intros Hz. assert (Hr : forall l, Forall (eq 0) l -> l = replicate (length l) 0).
  { induction 1 as [|a l <- Hl IH]; [done|]. simpl. by f_equal. }
  apply Hr. unfold setBit_tail, nat_make. set (n := if (length x <=? _)%nat then _ else _).
  destruct (Nat.leb_spec n (length z)).
  - rewrite skipn_firstn_comm. by apply Forall_take.
  - rewrite drop_replicate. apply Forall_replicate. done.
Qed.

Lemma setbit_lnot p i : Z.setbit (Z.lnot p) i = Z.lnot (Z.clearbit p i).
Proof. unfold Z.setbit, Z.clearbit. bitwise. Qed.

Lemma clearbit_lnot p i : Z.clearbit (Z.lnot p) i = Z.lnot (Z.setbit p i).
Proof. unfold Z.setbit, Z.clearbit. bitwise. Qed.

Lemma Int_SetBit_spec z spare x i b : words z -> words spare -> Int_wf x -> 0 <= i -> b = 0 \/ b = 1 ->
  Forall (eq 0) (drop (length (abs x)) z) -> Forall (eq 0) spare ->
  returns (Int_SetBit z spare x i b) (Int_is (if b =? 1 then Z.setbit (ival x) i else Z.clearbit (ival x) i)).
Proof.
  intros Hz Hsp Hw Hi Hb Hz0 Hsp0. unfold Int_SetBit. bool_decide_goal. destruct (neg x) eqn:En.
  - go_call sub_one_spec; [done|done|]. intros t [Ht ->].
    assert (Ha1 : forall v t', nat_is v t' -> returns (a ← nat_add t' t' natOne; Done {| neg := (0 <? length a)%nat; abs := a |})
        (Int_is (Z.lnot v))).
    { intros v t' Ht'. go_call add_one_spec; [done|]. intros a Ha. go_ret. destruct Ha as (Ha & Hn & Hv).
      simpl in *. destruct a; [by specialize (Hn eq_refl)|]. split_and!; done. }
    destruct Hb as [-> | ->]; [change (Z.lxor 0 1) with 1|change (Z.lxor 1 1) with 0]; cbn [Z.eqb Pos.eqb].
    + go_call nat_setBit_set; [auto with words|done|done|apply setBit_tail_zero; by rewrite drop_app_length|].
      intros t' Ht'. rewrite clearbit_lnot. by apply Ha1.
    + go_call nat_setBit_clear; [done|done|]. intros t' Ht'. rewrite setbit_lnot. by apply Ha1.
  - rewrite ival_pos by done. destruct Hw as [Hx _]. destruct Hb as [-> | ->]; cbn [Z.eqb Pos.eqb].
    + go_call nat_setBit_clear; [done|done|]. intros a Ha. go_ret. by apply pos_is.
    + go_call nat_setBit_set; [done|done|done|by apply setBit_tail_zero|]. intros a Ha. go_ret. by apply pos_is.
Qed.

End Bits.

(** * Text and bytes *)

Section Codecs.
Context `{HA : Arith} {HL : ArithLaws HA}.

(** What [nat.bytes] leaves from the first non-zero byte on. *)
Lemma leading_byte buf i : 0 <= i <= zlen buf -> (i = zlen buf \/ exists b, buf.[i] = Some b /\ b <> 0) ->
  forall b l, drop (Z.to_nat i) buf = b :: l -> b <> 0.
Proof.
  intros Hi Hne b l E. destruct Hne as [->|(b' & Hb' & ?)].
  - unfold zlen in E. rewrite Nat2Z.id, drop_all in E. done.
  - rewrite zlookup_nonneg in Hb' by lia. rewrite (drop_S _ _ _ Hb') in E. by simplify_eq.
Qed.

Lemma Int_Bytes_spec x : normal (abs x) -> returns (Int_Bytes x) (fun buf =>
  Forall is_byte buf /\ be_val buf = val (abs x) /\ (forall b l, buf = b :: l -> b <> 0)).
Proof.
  intros Hx. unfold Int_Bytes. change (Z.to_nat _S) with 8%nat.
  go_call nat_bytes_spec; [auto with words|rewrite length_replicate; lia|].
  intros [buf i] (Hl & Hi & Hb & Hv & Hne). rewrite zlen_replicate in Hi. rewrite slice_done by (unfold zlen in *; lia).
  go_ret. rewrite take_ge by (rewrite length_drop; unfold zlen; lia). split_and!; [done|done|].
  apply leading_byte; [unfold zlen in *; lia|done].
Qed.

Lemma Int_GobEncode_spec x : normal (abs x) -> returns (Int_GobEncode x) (fun buf => exists body,
  buf = (if neg x then 3 else 2) :: body /\ Forall is_byte body /\ be_val body = val (abs x) /\
  (forall b l, body = b :: l -> b <> 0)).
Proof.
  intros Hx. unfold Int_GobEncode. change (Z.to_nat _S) with 8%nat.
  go_call nat_bytes_spec; [auto with words|rewrite length_replicate; lia|].
  intros [buf i] (Hl & Hi & Hb & Hv & Hne). rewrite zlen_replicate in Hi. rewrite length_replicate in Hl.
  change (byte (Z.shiftl intGobVersion 1)) with 2. change (Z.lor 2 1) with 3.
  set (b := if neg x then 3 else 2). assert (Hi1 : 1 <= i <= zlen buf) by (unfold zlen in *; lia).
  rewrite set_idx_done by lia. cbn [mbind outcome_bind]. rewrite slice_done by (rewrite zlen_insert; lia).
  go_ret. exists (drop (Z.to_nat i) buf). split_and!; [|done|done|apply leading_byte; [lia|done]].
  rewrite take_ge by (rewrite length_drop, length_insert; unfold zlen; rewrite length_insert; lia).
  rewrite (drop_S _ b) by (apply list_lookup_insert_eq; unfold zlen in *; lia).
  replace (S (Z.to_nat (i - 1))) with (Z.to_nat i) by lia. f_equal. apply drop_insert_lt. lia.
Qed.

Lemma Int_GobDecode_body z s body : words (abs z) -> 0 <= s <= 1 -> Forall is_byte body ->
  returns (Int_GobDecode z ((2 + s) :: body)) (fun '(r, err) => err = None /\
    neg r = (s =? 1) /\ nat_is (be_val body) (abs r)).
Proof.
  intros Hz Hs Hb. unfold Int_GobDecode. cbn [length Nat.eqb].
  change (idx ((2 + s) :: body) 0) with (Done (2 + s)). cbn [mbind outcome_bind].
  assert (E1 : Z.shiftr (2 + s) 1 = intGobVersion) by (assert (s = 0 \/ s = 1) as [-> | ->] by lia; done).
  rewrite E1. rewrite slice_done by (rewrite zlen_cons; pose proof (zlen_nonneg body); lia).
  change (Z.to_nat 1) with 1%nat. cbn [drop mbind outcome_bind]. rewrite zlen_cons.
  rewrite drop_0, take_ge by (unfold zlen; lia). change (intGobVersion =? intGobVersion) with true. cbn [negb].
  go_call nat_setBytes_spec; [done|done|]. intros a Ha. go_ret. split_and!; [done| |done].
  assert (s = 0 \/ s = 1) as [-> | ->] by lia; done.
Qed.

(** Decimal text: an optional sign, then digits, which no sign is. *)
Lemma String_SetString_spec x : Int_wf x -> exists s, Int_String (Some x) = Done s /\
  Forall (fun c => c = 45 \/ is_digit 10 c) s /\ forall z, Int_SetString z s 10 = Done (x, true).
Proof.
  intros Hw. pose proof (Int_wf_is x Hw) as Hi. destruct Hw as [Hx _].
  destruct (string_scan_spec (abs x) 10 Hx ltac:(unfold MaxBase; lia)) as (s & Hs & Hne & Hd & Hsc).
  unfold Int_String, nat_decimalString. change (slice lowercaseDigits 0 10) with (Done (take (Z.to_nat 10) lowercaseDigits)).
  cbn [mbind outcome_bind]. rewrite Hs. cbn [mbind outcome_bind]. eexists. split; [done|]. split.
  { assert (Forall (fun c => c = 45 \/ is_digit 10 c) s) by (apply (List.Forall_impl (P := is_digit 10)); auto).
    destruct (neg x); [by constructor; [left|]|done]. }
  intros z. pose proof (fun z => Hsc z [] ltac:(done)) as Hsc'. rewrite app_nil_r in Hsc'. clear Hsc. rename Hsc' into Hsc.
  assert (Hsg : forall n, n = neg x -> signed n (abs x) = x).
  { intros n ->. eapply Int_is_inj; [|done]. by apply signed_is, nat_is_val. }
  unfold Int_SetString, Int_scan, ReadRune. destruct (neg x) eqn:En.
  - cbn [runes at_end Z.eqb Pos.eqb]. rewrite Hsc. cbn. by rewrite Hsg.
  - destruct s as [|c s]; [done|]. cbn [runes at_end]. apply Forall_cons_iff in Hd as [Hc _]. unfold is_digit in Hc.
    destruct (Z.eqb_spec c 45) as [->|]; [by vm_compute in Hc|].
    destruct (Z.eqb_spec c 43) as [->|]; [by vm_compute in Hc|].
    unfold UnreadRune. cbn [runes at_end]. rewrite Hsc. cbn. by rewrite Hsg.
Qed.

Lemma Gob_roundtrip_spec x z : Int_wf x -> words (abs z) ->
  exists buf, Int_GobEncode x = Done buf /\ Int_GobDecode z buf = Done (x, None).
Proof.
  intros Hw Hz. pose proof (Int_wf_is x Hw) as Hi. destruct Hw as [Hx _].
  destruct (Int_GobEncode_spec x Hx) as (buf & -> & body & -> & Hb & Hv & _). eexists. split; [done|].
  destruct (Int_GobDecode_body z (if neg x then 1 else 0) body Hz ltac:(destruct (neg x); lia) Hb)
    as ([r e] & Hr & -> & Hn & Ha).
  replace (2 + (if neg x then 1 else 0)) with (if neg x then 3 else 2) in Hr by (by destruct (neg x)).
  rewrite Hr. do 2 f_equal. destruct r as [nr ar], x as [nx ax]. simpl in *. f_equal.
  - rewrite Hn. by destruct nx.
  - rewrite Hv in Ha. exact (nat_is_inj _ _ _ Ha (nat_is_val _ Hx)).
Qed.

End Codecs.

(** * Properties *)

(** C13. Signed arithmetic refines the integers: on well-formed operands the
    methods return, and the result is the canonical representation of the
    integer the operation names (so zero has no sign), whatever the storage of
    the receiver holds. *)
Theorem Int_arith_correct `{HA : Arith} {HL : ArithLaws HA} z x y :
  words z -> Int_wf x -> Int_wf y ->
  returns (Int_Add z x y) (Int_is (ival x + ival y)) /\
  returns (Int_Sub z x y) (Int_is (ival x - ival y)) /\
  returns (Int_Mul z x y) (Int_is (ival x * ival y)) /\
  returns (Int_Neg z x) (Int_is (- ival x)) /\
  returns (Int_Abs z x) (Int_is (Z.abs (ival x))) /\
  returns (Int_Set z x) (Int_is (ival x)) /\
  Int_Cmp x y = Done (Zcmp (ival x) (ival y)) /\
  Int_Sign x = Z.sgn (ival x).
Proof.
  intros Hz Hx Hy. pose proof (proj1 Hx) as Nx. pose proof (proj1 Hy) as Ny.
  pose proof (Int_Add_spec z x y Nx Ny). pose proof (Int_Sub_spec z x y Nx Ny).
  pose proof (Int_Mul_spec z x y Hz Nx Ny). pose proof (Int_Neg_spec z x Nx). pose proof (Int_Abs_spec z x Nx).
  split_and!; auto using Int_Cmp_spec, Int_Sign_spec. rewrite Int_Set_spec. go_ret. by apply Int_wf_is.
Qed.

Lemma Int_arith_correct_witness :
  returns (Int_Add [7; 7] {| neg := true; abs := [0; 1] |} {| neg := false; abs := [1] |}) (Int_is (1 - 2 ^ 64)).
Proof.
  refine (proj1 (Int_arith_correct [7; 7] {| neg := true; abs := [0; 1] |} {| neg := false; abs := [1] |} _ _ _));
    [normal_concrete|split; [split; normal_concrete|done]|split; [split; normal_concrete|done]].
Defined.

(** C30. Division of signed integers: [Quo], [Rem] and [QuoRem] truncate towards
    zero, [Div], [Mod] and [DivMod] are the Euclidean ones, whose modulus is
    never negative and below the divisor's magnitude; all of them panic exactly
    when the divisor is zero. *)
Theorem Int_division_correct `{HA : Arith} {HL : ArithLaws HA} z r x y :
  words z -> Int_wf x -> Int_wf y ->
  if ival y =? 0 then
    Int_QuoRem z x y r = Panic /\ Int_Quo z x y = Panic /\ Int_Rem z x y = Panic /\
    Int_Div z x y = Panic /\ Int_Mod z x y = Panic /\ Int_DivMod z x y r = Panic
  else
    let q := euclid_div (ival x) (ival y) in
    let m := ival x - ival y * q in
    0 <= m < Z.abs (ival y) /\
    returns (Int_QuoRem z x y r) (fun '(a, b) => Int_is (Z.quot (ival x) (ival y)) a /\ Int_is (Z.rem (ival x) (ival y)) b) /\
    returns (Int_Quo z x y) (Int_is (Z.quot (ival x) (ival y))) /\
    returns (Int_Rem z x y) (Int_is (Z.rem (ival x) (ival y))) /\
    returns (Int_DivMod z x y r) (fun '(a, b) => Int_is q a /\ Int_is m b) /\
    returns (Int_Div z x y) (Int_is q) /\
    returns (Int_Mod z x y) (Int_is m).
Proof.
  intros Hz Hx Hy. destruct (Z.eqb_spec (ival y) 0) as [H0|H0].
  { apply Int_QuoRem_zero. destruct Hy. by apply ival_zero. }
  cbv zeta. destruct (euclid_spec (ival x) (ival y) H0) as [E B].
  replace (ival x - ival y * euclid_div (ival x) (ival y)) with (ival x mod Z.abs (ival y)) by lia.
  pose proof (proj1 Hx) as Nx. pose proof (proj1 Hy) as Ny.
  pose proof (Int_QuoRem_spec z x y r Hz Nx Ny H0). pose proof (Int_Quo_spec z x y Hz Nx Ny H0).
  pose proof (Int_Rem_spec z x y Nx Ny H0). pose proof (Int_DivMod_spec z x y r Hz Hx Hy H0).
  pose proof (Int_Div_spec z x y Hz Hx Hy H0). pose proof (Int_Mod_spec z x y Hx Hy H0). done.
Qed.

Lemma Int_division_correct_witness :
  returns (Int_DivMod [] {| neg := true; abs := [7] |} {| neg := true; abs := [2] |} [])
    (fun '(a, b) => Int_is 4 a /\ Int_is 1 b).
Proof.
  pose proof (Int_division_correct [] [] {| neg := true; abs := [7] |} {| neg := true; abs := [2] |}) as H.
  refine (proj1 (proj2 (proj2 (proj2 (proj2 (H _ _ _))))));
    [normal_concrete|split; [split; normal_concrete|done]|split; [split; normal_concrete|done]].
Defined.

(** C31. And, Or, Xor, Not, the shifts Lsh and Rsh, and Bit treat a signed integer as
    its infinite two's complement, for all combinations of signs. *)
Theorem Int_bits_correct `{HA : Arith} {HL : ArithLaws HA} z x y n :
  Int_wf x -> Int_wf y -> 0 <= n ->
  returns (Int_And z x y) (Int_is (Z.land (ival x) (ival y))) /\
  returns (Int_Or z x y) (Int_is (Z.lor (ival x) (ival y))) /\
  returns (Int_Xor z x y) (Int_is (Z.lxor (ival x) (ival y))) /\
  returns (Int_Not z x) (Int_is (Z.lnot (ival x))) /\
  returns (Int_Lsh z x n) (Int_is (Z.shiftl (ival x) n)) /\
  returns (Int_Rsh z x n) (Int_is (Z.shiftr (ival x) n)) /\
  Int_Bit x n = Done (Z.b2z (Z.testbit (ival x) n)).
Proof.
  intros Hx Hy Hn. split_and!;
    auto using Int_And_spec, Int_Or_spec, Int_Xor_spec, Int_Not_spec, Int_Lsh_spec, Int_Rsh_spec, Int_Bit_spec.
Qed.

Lemma Int_bits_correct_witness :
  returns (Int_And [] {| neg := true; abs := [6] |} {| neg := false; abs := [15; 1] |})
    (Int_is (Z.land (-6) (2 ^ 64 + 15))).
Proof.
  refine (proj1 (Int_bits_correct [] {| neg := true; abs := [6] |} {| neg := false; abs := [15; 1] |} 0 _ _ _));
    [split; [split; normal_concrete|done]|split; [split; normal_concrete|done]|lia].
Defined.

(** [AndNot] is [x &^ y] unless [x] is not negative and [y] is; then it
    computes [x & (|y|+1)] where the identity in its comment needs [|y|-1], which
    is a different number for [3 &^ -2]. *)
Theorem Int_AndNot_behaviour `{HA : Arith} {HL : ArithLaws HA} z x y :
  Int_wf x -> Int_wf y ->
  returns (Int_AndNot z x y) (Int_is
    (if negb (neg x) && neg y then Z.land (ival x) (Z.abs (ival y) + 1) else Z.ldiff (ival x) (ival y))) /\
  Z.ldiff 3 (-2) = 1 /\ Z.land 3 (Z.abs (-2) + 1) = 3.
Proof.
  intros Hx Hy. split; [|done]. destruct (neg x) eqn:Ex, (neg y) eqn:Ey; cbn [negb andb];
    try (apply Int_AndNot_spec; auto; fail).
  pose proof (wf_neg y Hy) as Hn. rewrite Ey in Hn. symmetry in Hn. bool_to_prop.
  replace (Z.abs (ival y) + 1) with (1 - ival y) by lia. by apply Int_AndNot_mixed.
Qed.

Lemma Int_AndNot_behaviour_witness :
  returns (Int_AndNot [] {| neg := false; abs := [3] |} {| neg := true; abs := [2] |}) (Int_is 3).
Proof.
  refine (proj1 (Int_AndNot_behaviour [] {| neg := false; abs := [3] |} {| neg := true; abs := [2] |} _ _));
    (split; [split; normal_concrete|done]).
Defined.

(** [GcdInt] of numbers that are not negative returns their greatest common
    divisor and, where they are asked for, Bezout coefficients
    [d = a*x + b*y]; if an operand is negative all results are zero. A zero
    operand is treated like a positive one. *)
Theorem GcdInt_correct `{HA : Arith} {HL : ArithLaws HA} d x y a b :
  Int_wf a -> Int_wf b ->
  returns (GcdInt d x y a b) (fun '(d', x', y') =>
    exists X Y, x' = (fun _ => X) <$> x /\ y' = (fun _ => Y) <$> y /\ Int_wf X /\ Int_wf Y /\
    if (ival a <? 0) || (ival b <? 0) then Int_is 0 d' /\ ival X = 0 /\ ival Y = 0
    else Int_is (Z.gcd (ival a) (ival b)) d' /\ ival a * ival X + ival b * ival Y = ival d').
Proof.
  intros Ha Hb. destruct ((ival a <? 0) || (ival b <? 0)) eqn:E; bool_to_prop.
  - go_mono GcdInt_neg; [done|done|destruct E as [E|E]; bool_to_prop; auto|].
    intros [[d' x'] y'] (Hd & -> & ->). exists Int_zero, Int_zero.
    split_and!; try done; apply (Int_is_wf _ _ Int_zero_is).
  - go_mono GcdInt_spec; [done..|]. intros [[d' x'] y'] (X & Y & vx & vy & Hd & HX & HY & HE & _ & -> & ->).
    exists X, Y. rewrite (Int_is_ival _ _ HX), (Int_is_ival _ _ HY), (Int_is_ival _ _ Hd).
    split_and!; try done; by eapply Int_is_wf.
Qed.

Lemma GcdInt_correct_witness :
  returns (GcdInt [] (Some []) (Some []) {| neg := false; abs := [12] |} {| neg := false; abs := [42] |})
    (fun '(d', x', y') => exists X Y, x' = Some X /\ y' = Some Y /\ Int_wf X /\ Int_wf Y /\
      Int_is 6 d' /\ 12 * ival X + 42 * ival Y = ival d').
Proof.
  apply (GcdInt_correct [] (Some []) (Some []) {| neg := false; abs := [12] |} {| neg := false; abs := [42] |});
    (split; [split; normal_concrete|done]).
Defined.

(** [ModInverse] returns the inverse of [g] modulo [p], in [(0, p)], for every
    modulus above one that [g] is coprime to, prime or not. *)
Theorem ModInverse_correct `{HA : Arith} {HL : ArithLaws HA} z g p :
  Int_wf g -> Int_wf p -> 0 <= ival g -> 1 < ival p -> Z.gcd (ival g) (ival p) = 1 ->
  returns (Int_ModInverse z g p) (fun r => Int_wf r /\ 0 < ival r < ival p /\ (ival g * ival r) mod ival p = 1).
Proof.
  intros. go_mono Int_ModInverse_spec; [done..|]. intros r (v & Hr & Hv & Hm).
  rewrite (Int_is_ival _ _ Hr). split_and!; try done; try lia; by eapply Int_is_wf.
Qed.

Lemma ModInverse_correct_witness :
  returns (Int_ModInverse [] {| neg := false; abs := [3] |} {| neg := false; abs := [11] |})
    (fun r => Int_wf r /\ 0 < ival r < 11 /\ (3 * ival r) mod 11 = 1).
Proof.
  apply (ModInverse_correct [] {| neg := false; abs := [3] |} {| neg := false; abs := [11] |});
    [split; [split; normal_concrete|done]|split; [split; normal_concrete|done]|done|done|done].
Defined.

(** [Exp] computes [x**y], or its remainder by [m] with the sign of [x**y],
    for [y >= 2]. For [y = 1] the result is [x], not reduced; for [y <= 0] it is
    one with the sign of [x], so [(-x)**0] is [-1]. *)
Theorem Exp_behaviour `{HA : Arith} {HL : ArithLaws HA} z x y m nil_abs :
  Int_wf x -> Int_wf y -> exp_modulus m nil_abs ->
  returns (Int_Exp z x y m nil_abs) (Int_is
    (if ival y <=? 0 then if ival x <? 0 then -1 else 1
     else if ival y =? 1 then ival x
     else match m with Some m => Z.rem (ival x ^ ival y) (ival m) | None => ival x ^ ival y end)).
Proof. apply Int_Exp_spec. Qed.

Lemma Exp_behaviour_witness :
  returns (Int_Exp [] {| neg := true; abs := [2] |} Int_zero None false) (Int_is (-1)) /\
  returns (Int_Exp [] {| neg := true; abs := [2] |} {| neg := false; abs := [5] |}
    (Some {| neg := false; abs := [7] |}) false) (Int_is (-4)).
Proof.
  split; [apply (Exp_behaviour [] {| neg := true; abs := [2] |} Int_zero None false)|
    apply (Exp_behaviour [] {| neg := true; abs := [2] |} {| neg := false; abs := [5] |}
      (Some {| neg := false; abs := [7] |}) false)];
    try done; split_and!; try done; normal_concrete.
Defined.

(** Text round trip: [SetString] in base 10 reads back what [String] prints,
    for every well-formed integer, and reports success. *)
Theorem String_SetString_roundtrip `{HA : Arith} {HL : ArithLaws HA} x z :
  Int_wf x -> exists s, Int_String (Some x) = Done s /\ Int_SetString z s 10 = Done (x, true).
Proof. intros Hx. destruct (String_SetString_spec x Hx) as (s & ? & _ & Hs). by exists s. Qed.

Lemma String_SetString_roundtrip_witness :
  exists s, Int_String (Some {| neg := true; abs := [0; 0; 5] |}) = Done s /\
    Int_SetString intOne s 10 = Done ({| neg := true; abs := [0; 0; 5] |}, true).
Proof.
  apply (String_SetString_roundtrip {| neg := true; abs := [0; 0; 5] |} intOne).
  split; [split; normal_concrete|done].
Defined.

(** Gob round trip: decoding what [GobEncode] writes gives the integer back,
    whatever the receiver held. *)
Theorem Gob_roundtrip x z :
  Int_wf x -> words (abs z) ->
  exists buf, Int_GobEncode x = Done buf /\ Int_GobDecode z buf = Done (x, None).
Proof. apply Gob_roundtrip_spec. Qed.

Lemma Gob_roundtrip_witness :
  exists buf, Int_GobEncode {| neg := true; abs := [300; 1] |} = Done buf /\
    Int_GobDecode intOne buf = Done ({| neg := true; abs := [300; 1] |}, None).
Proof.
  apply (Gob_roundtrip {| neg := true; abs := [300; 1] |} intOne); [split; [split; normal_concrete|done]|normal_concrete].
Defined.

(** [Binomial] computes the binomial coefficient of Pascal's rule for
    [0 <= k <= n] over the whole [int64] range, except that [n-k+1] overflows
    for [n = 2^63-1] and [k = 0], where the result is zero instead of one. *)
Theorem Binomial_correct `{HA : Arith} {HL : ArithLaws HA} z n k :
  words z -> 0 <= k <= n -> n < 2 ^ 63 ->
  returns (Int_Binomial z n k) (Int_is
    (if (n =? 2 ^ 63 - 1) && (k =? 0) then 0 else binomial (Z.to_nat n) (Z.to_nat k))).
Proof.
  intros Hz Hk Hn. destruct ((n =? 2 ^ 63 - 1) && (k =? 0)) eqn:E; bool_to_prop.
  - replace n with (2 ^ 63 - 1) by lia. replace k with 0 by lia. unfold Int_Binomial.
    change (int64 (int64 (2 ^ 63 - 1 - 0) + 1)) with (- 2 ^ 63).
    go_call Int_MulRange_spec; [auto with words|lia|lia|]. intros a Ha.
    go_call Int_MulRange_spec; [auto with words|lia|lia|]. intros b Hb.
    go_mono Int_Quo_spec; [done|by eapply Int_is_normal|by eapply Int_is_normal| |].
    + rewrite (Int_is_ival _ _ Hb), range_prod_empty; lia.
    + intros r. rewrite (Int_is_ival _ _ Ha), (range_prod_split _ (-1)), range_prod_zero, Z.mul_0_r by lia.
      rewrite Z.quot_0_l; [done|]. rewrite (Int_is_ival _ _ Hb), range_prod_empty; lia.
  - apply Int_Binomial_spec; [done|lia|lia|]. destruct E as [E|E]; bool_to_prop; lia.
Qed.

Lemma Binomial_correct_witness :
  returns (Int_Binomial [] 6 2) (Int_is 15) /\
  returns (Int_Binomial [] (2 ^ 63 - 1) 0) (Int_is 0).
Proof.
  split; [apply (Binomial_correct [] 6 2)|apply (Binomial_correct [] (2 ^ 63 - 1) 0)]; auto with words; lia.
Defined.

(** [SetString] of ["0"] in base 0 reports success but leaves the magnitude
    the receiver had, so that it is zero only if it was. *)
Theorem SetString_zero_stale `{HA : Arith} z :
  Int_SetString z [48] 0 = Done ({| neg := false; abs := abs z |}, true).
Proof. unfold Int_SetString, Int_scan, signed. cbn. by destruct (abs z). Qed.

(** [Int64] is the value modulo [2^64] as a signed number, so it inverts
    [SetInt64] on the whole [int64] range. *)
Theorem Int64_SetInt64 `{HA : Arith} {HL : ArithLaws HA} z v :
  - 2 ^ 63 <= v < 2 ^ 63 ->
  exists x, Int_SetInt64 z v = Done x /\ Int_wf x /\ ival x = v /\ Int_Int64 x = Done v.
Proof.
  intros Hv. destruct (Int_SetInt64_spec z v Hv) as (x & Hx & Hi). exists x. pose proof (Int_is_ival _ _ Hi) as Ev.
  split_and!; [done|by eapply Int_is_wf|done|]. rewrite Int_Int64_spec, Ev by (by destruct Hi).
  unfold int64. by rewrite swrap_small by lia.
Qed.

Lemma Int64_SetInt64_witness :
  exists x, Int_SetInt64 [] (- 2 ^ 63) = Done x /\ Int_wf x /\ ival x = - 2 ^ 63 /\ Int_Int64 x = Done (- 2 ^ 63).
Proof. apply (Int64_SetInt64 [] (- 2 ^ 63)). lia. Defined.
