(* ===== verification/BigRat.v ===== *)
(** Package big, file rat.go (src/go/src/pkg/big/rat.go): rational numbers.

    A [Rat] is a numerator and a denominator.  As in int.go, a receiver is given
    by the storage of its parts ([za], [zb]) where only that matters, and by its
    value for the methods that may leave parts of it unchanged.  [ratval] is the
    rational number a [Rat] stands for; [Rat_is q z] says that [z] is the
    representation of [q] in lowest terms.  Text is given by its bytes. *)

From Stdlib Require Import QArith Qabs.
From S2P Require Import Prelude Binary BigArith BigNat BigMul BigDiv BigBits BigConv BigExp BigInt.
Local Open Scope Z_scope.

Record Rat := { num : Int; den : list Z }.

Definition natTen : list Z := [10].

Section Rat.
Context `{Arith}.

(** Euclidean algorithm; see [gcd_loop] for the fuel. *)
Definition gcd (x y : list Z) : outcome (list Z) :=
  a ← nat_set [] x;
  b ← nat_set [] y;
  loop (S (S (2 * Z.to_nat _W * length y))) (fun '(a, b) =>
    if negb (length b =? 0)%nat then
      '(_, r) ← nat_div [] [] a b;
      Done (inl (b, r))
    else Done (inr a)) (a, b).

Definition Rat_norm (z : Rat) : outcome Rat :=
  f ← gcd (abs (num z)) (den z);
  if (length (abs (num z)) =? 0)%nat then
    d ← nat_setWord (den z) 1;
    Done {| num := {| neg := false; abs := abs (num z) |}; den := d |}
  else
    c ← nat_cmp f natOne;
    if negb (c =? 0) then
      '(a, _) ← nat_div (abs (num z)) [] (abs (num z)) f;
      '(d, _) ← nat_div (den z) [] (den z) f;
      Done {| num := {| neg := neg (num z); abs := a |}; den := d |}
    else Done z.

Definition Rat_SetFrac (za zb : list Z) (a b : Int) : outcome Rat :=
  r ← Int_Set za a;
  d ← nat_set zb (abs b);
  Rat_norm {| num := {| neg := negb (Bool.eqb (neg a) (neg b)); abs := abs r |}; den := d |}.

Definition Rat_SetFrac64 (za zb : list Z) (a b : Z) : outcome Rat :=
  r ← Int_SetInt64 za a;
  let '(n, b) := if b <? 0 then (negb (neg r), int64 (- b)) else (neg r, b) in
  d ← nat_setUint64 zb (uint64 b);
  Rat_norm {| num := {| neg := n; abs := abs r |}; den := d |}.

Definition NewRat (a b : Z) : outcome Rat := Rat_SetFrac64 [] [] a b.

Definition Rat_SetInt (za zb : list Z) (x : Int) : outcome Rat :=
  r ← Int_Set za x;
  d ← nat_setWord zb 1;
  Done {| num := r; den := d |}.

Definition Rat_SetInt64 (za zb : list Z) (x : Z) : outcome Rat :=
  r ← Int_SetInt64 za x;
  d ← nat_setWord zb 1;
  Done {| num := r; den := d |}.

Definition Rat_Sign (x : Rat) : Z := Int_Sign (num x).

Definition Rat_IsInt (x : Rat) : bool := bool_decide (den x = [1]).

Definition Rat_Num (z : Rat) : Int := num z.

Definition Rat_Denom (z : Rat) : Int := {| neg := false; abs := den z |}.

Definition mulNat (x : Int) (y : list Z) : outcome Int :=
  a ← nat_mul [] (abs x) y;
  Done (signed (neg x) a).

Definition Rat_Cmp (x y : Rat) : outcome Z :=
  a ← mulNat (num x) (den y);
  b ← mulNat (num y) (den x);
  Int_Cmp a b.

Definition Rat_Abs (za zb : list Z) (x : Rat) : outcome Rat :=
  a ← Int_Abs za (num x);
  d ← nat_set zb (den x);
  Done {| num := a; den := d |}.

Definition Rat_Add (za zb : list Z) (x y : Rat) : outcome Rat :=
  a1 ← mulNat (num x) (den y);
  a2 ← mulNat (num y) (den x);
  a ← Int_Add za a1 a2;
  d ← nat_mul zb (den x) (den y);
  Rat_norm {| num := a; den := d |}.

Definition Rat_Sub (za zb : list Z) (x y : Rat) : outcome Rat :=
  a1 ← mulNat (num x) (den y);
  a2 ← mulNat (num y) (den x);
  a ← Int_Sub za a1 a2;
  d ← nat_mul zb (den x) (den y);
  Rat_norm {| num := a; den := d |}.

Definition Rat_Mul (za zb : list Z) (x y : Rat) : outcome Rat :=
  a ← Int_Mul za (num x) (num y);
  d ← nat_mul zb (den x) (den y);
  Rat_norm {| num := a; den := d |}.

Definition Rat_Quo (x y : Rat) : outcome Rat :=
  if (length (abs (num y)) =? 0)%nat then Panic else
  a ← mulNat (num x) (den y);
  b ← mulNat (num y) (den x);
  Rat_norm {| num := {| neg := negb (Bool.eqb (neg a) (neg b)); abs := abs a |}; den := abs b |}.

Definition Rat_Neg (za zb : list Z) (x : Rat) : outcome Rat :=
  a ← Int_Neg za (num x);
  d ← nat_set zb (den x);
  Done {| num := a; den := d |}.

Definition Rat_Set (za zb : list Z) (x : Rat) : outcome Rat :=
  a ← Int_Set za (num x);
  d ← nat_set zb (den x);
  Done {| num := a; den := d |}.

(** * Text *)

(** [strings.Index] and [strings.IndexAny] for one-byte patterns: the first
    position of a byte of [cs], or -1. *)
Fixpoint index_any (cs s : list Z) : Z :=
  match s with
  | [] => -1
  | c :: s => if bool_decide (c ∈ cs) then 0
              else let i := index_any cs s in if i <? 0 then -1 else i + 1
  end.

Definition Rat_SetString (z : Rat) (s : list Z) : outcome (Rat * bool) :=
  if (length s =? 0)%nat then Done (z, false) else
  let sep := index_any [47] s in
  if 0 <=? sep then
    s1 ← slice s 0 sep;
    '(a, ok) ← Int_SetString (num z) s1 10;
    let z := {| num := a; den := den z |} in
    if negb ok then Done (z, false) else
    s2 ← slice s (sep + 1) (zlen s);
    '(d, _, err, _) ← nat_scan (den z) {| runes := s2; at_end := EOF |} 10;
    let z := {| num := num z; den := d |} in
    match err with
    | Some _ => Done (z, false)
    | None => r ← Rat_norm z; Done (r, true)
    end
  else
    let sep := index_any [46] s in
    let e := index_any [101; 69] s in
    '(s, exp, ok) ← (if 0 <=? e then
        if e <? sep then Done (s, Int_zero, false) else
        s1 ← slice s (e + 1) (zlen s);
        '(exp, ok) ← Int_SetString Int_zero s1 10;
        s ← slice s 0 e;
        Done (s, exp, ok)
      else Done (s, Int_zero, true));
    if negb ok then Done (z, false) else
    '(s, exp) ← (if 0 <=? sep then
        s1 ← slice s 0 sep;
        s2 ← slice s (sep + 1) (zlen s);
        let s := s1 ++ s2 in
        n ← NewInt (int64 (zlen s - sep));
        exp ← Int_Sub (abs exp) exp n;
        Done (s, exp)
      else Done (s, exp));
    '(a, ok) ← Int_SetString (num z) s 10;
    let z := {| num := a; den := den z |} in
    if negb ok then Done (z, false) else
    powTen ← nat_expNN [] natTen (abs exp) None;
    if neg exp then
      r ← Rat_norm {| num := num z; den := powTen |};
      Done (r, true)
    else
      m ← nat_mul (abs (num z)) (abs (num z)) powTen;
      d ← nat_setWord (den z) 1;
      Done ({| num := {| neg := neg (num z); abs := m |}; den := d |}, true).

Definition Rat_String (z : Rat) : outcome (list Z) :=
  a ← Int_String (Some (num z));
  b ← nat_decimalString (den z);
  Done (a ++ [47] ++ b).

Definition Rat_RatString (z : Rat) : outcome (list Z) :=
  if Rat_IsInt z then Int_String (Some (num z)) else Rat_String z.

(** [strings.Repeat], which panics on a negative count. *)
Definition Repeat (s : list Z) (count : Z) : outcome (list Z) :=
  if count <? 0 then Panic else Done (concat (replicate (Z.to_nat count) s)).

(** From the quotient and the remainder to the rounded quotient and the rounded
    fraction, scaled by [p]. *)
Definition float_round (q r p den : list Z) : outcome (list Z * list Z) :=
  r ← nat_mul r r p;
  '(r, r2) ← nat_div r [] r den;
  r2 ← nat_add r2 r2 r2;
  c ← nat_cmp den r2;
  if c <=? 0 then
    r ← nat_add r r natOne;
    c ← nat_cmp r p;
    if 0 <=? c then
      q ← nat_add [] q natOne;
      r ← nat_sub [] r p;
      Done (q, r)
    else Done (q, r)
  else Done (q, r).

Definition Rat_FloatString (z : Rat) (prec : Z) : outcome (list Z) :=
  if Rat_IsInt z then
    s ← Int_String (Some (num z));
    if 0 <? prec then zs ← Repeat [48] prec; Done (s ++ [46] ++ zs) else Done s
  else
    '(q, r) ← nat_div [] [] (abs (num z)) (den z);
    p ← (if 0 <? prec then e ← nat_setUint64 [] (uint64 prec); nat_expNN [] natTen e None else Done natOne);
    '(q, r) ← float_round q r p (den z);
    s ← nat_decimalString q;
    let s := if neg (num z) then 45 :: s else s in
    if 0 <? prec then
      rs ← nat_decimalString r;
      zs ← Repeat [48] (prec - zlen rs);
      Done (s ++ [46] ++ zs ++ rs)
    else Done s.

(** * Gob encoding *)

Definition ratGobVersion : Z := 1.

(** [n] is an [int] of 32 bits. *)
Definition Rat_GobEncode (z : Rat) : outcome (option (list Z)) :=
  let buf := replicate (1 + 4 + (length (abs (num z)) + length (den z)) * Z.to_nat _S) 0 in
  '(buf, i) ← nat_bytes (den z) buf;
  lo ← slice buf 0 i;
  '(lo, j) ← nat_bytes (abs (num z)) lo;
  let buf := lo ++ drop (Z.to_nat i) buf in
  let n := i - j in
  if negb (swrap 32 (wrap 32 n) =? n) then Done None else
  len ← slice buf (j - 4) j;
  len ← @PutUint32 bigEndian len (wrap 32 n);
  let buf := take (Z.to_nat (j - 4)) buf ++ len ++ drop (Z.to_nat j) buf in
  let j := j - (1 + 4) in
  let b := byte (Z.shiftl ratGobVersion 1) in
  let b := if neg (num z) then Z.lor b 1 else b in
  buf ← set_idx buf j b;
  res ← slice buf j (zlen buf);
  Done (Some res).

Definition Rat_GobDecode (z : Rat) (buf : list Z) : outcome (Rat * option gob_error) :=
  if (length buf =? 0)%nat then Done (z, Some NoData) else
  b ← idx buf 0;
  if negb (Z.shiftr b 1 =? ratGobVersion) then Done (z, Some (BadVersion (Z.shiftr b 1))) else
  len ← slice buf 1 5;
  n ← @Uint32 bigEndian len;
  let i := wrap 32 (5 + n) in
  na ← slice buf 5 i;
  a ← nat_setBytes (abs (num z)) na;
  nb ← slice buf i (zlen buf);
  d ← nat_setBytes (den z) nb;
  Done ({| num := {| neg := negb (Z.land b 1 =? 0); abs := a |}; den := d |}, None).

End Rat.

(** * Values *)

(** The rational number a [Rat] stands for, if its denominator is not zero. *)
Definition ratval (z : Rat) : Q := Qmake (ival (num z)) (Z.to_pos (val (den z))).

(** The type invariant: lowest terms, a positive denominator. *)
Definition Rat_wf (z : Rat) : Prop :=
  Int_wf (num z) /\ normal (den z) /\ 0 < val (den z) /\ Z.gcd (ival (num z)) (val (den z)) = 1.

Definition Rat_is (q : Q) (z : Rat) : Prop := Rat_wf z /\ (ratval z == q)%Q.

Lemma Rat_is_eq p q z : Rat_is p z -> (p == q)%Q -> Rat_is q z.
Proof. intros [Hz E] Epq. split; [done|]. by rewrite E. Qed.

(** Lowest terms are unique. *)
Lemma Rat_is_inj q x y : Rat_is q x -> Rat_is q y -> x = y.
Proof.
  intros [(Hx & Dx & Px & Gx) Ex] [(Hy & Dy & Py & Gy) Ey].
  assert (E : ival (num x) * val (den y) = ival (num y) * val (den x)).
  { assert (H : (ratval x == ratval y)%Q) by (by rewrite Ex, Ey). unfold Qeq, ratval in H. simpl in H.
    rewrite !Z2Pos.id in H by done. done. }
  set (a := ival (num x)) in *. set (b := val (den x)) in *. set (c := ival (num y)) in *. set (d := val (den y)) in *.
  assert (Hbd : b = d).
  { apply Z.divide_antisym_nonneg; [lia|lia| |].
    - apply Z.gauss with a; [exists c; lia|by rewrite Z.gcd_comm].
    - apply Z.gauss with c; [exists a; lia|by rewrite Z.gcd_comm]. }
  assert (Hac : a = c) by (rewrite Hbd in E; apply Z.mul_reg_r with d; lia).
  destruct x as [nx dx], y as [ny dy]; simpl in *. f_equal.
  - apply (Int_is_inj a); [by apply Int_wf_is|]. rewrite Hac. by apply Int_wf_is.
  - by apply normal_inj.
Qed.

Section Specs.
Context `{HA : Arith} {HL : ArithLaws HA}.

Lemma gcd_spec x y : normal x -> normal y -> returns (gcd x y) (nat_is (Z.gcd (val x) (val y))).
Proof.
  intros Hx Hy. unfold gcd. rewrite !nat_set_spec. cbn [mbind outcome_bind]. apply (loop_returns
    (fun '(a, b) => normal a /\ normal b /\ Z.gcd (val a) (val b) = Z.gcd (val x) (val y))
    (fun '(a, b) => euclid_mu (val a) (val b))).
  - intros [a b] (Ha & Hb & Hg). destruct (Nat.eqb_spec (length b) 0) as [H0|H0]; cbn [negb].
    + go_ret. split; [done|]. rewrite (nil_length_inv b H0), val_nil, Z.gcd_0_r in Hg.
      rewrite <- Hg, Z.abs_eq; [done|]. apply val_nonneg. auto with words.
    + pose proof (normal_pos b Hb ltac:(lia)). go_call nat_div_spec; [auto with words|done..|].
      intros [q r] [_ [Hr Vr]]. go_ret. rewrite Vr. split_and!; [done|done| |by apply euclid_mu_step].
      rewrite <- Hg, Z.gcd_comm, Z.gcd_mod, Z.gcd_comm by lia. done.
  - done.
  - replace (2 * Z.to_nat _W * length y)%nat with (Z.to_nat (2 * (_W * zlen y))) by (unfold zlen; lia).
    apply euclid_mu_bound; [|unfold zlen; rewrite _W_eq; lia].
    pose proof (val_bound y (normal_words _ Hy)) as Hv. rewrite Bpow_pow2 in Hv. unfold zlen. by rewrite Z.mul_comm.
Qed.

(** [Z.gcd] of a signed numerator. *)
Lemma gcd_ival x d : Z.gcd (ival x) d = Z.gcd (val (abs x)) d.
Proof. unfold ival. destruct (neg x); [apply Z.gcd_opp_l|done]. Qed.

(** Dividing both parts by their greatest common divisor. *)
Lemma lowest_terms (n : bool) a d g : 0 < a -> 0 < d -> g = Z.gcd a d ->
  0 < a / g /\ 0 < d / g /\ Z.gcd (a / g) (d / g) = 1 /\ (a / g) * d = a * (d / g).
Proof.
  intros Ha Hd ->. pose proof (Z.gcd_nonneg a d). set (g := Z.gcd a d) in *.
  assert (Hg : 0 < g) by (destruct (decide (g = 0)) as [E|]; [apply Z.gcd_eq_0 in E; lia|lia]).
  destruct (Z.gcd_divide_l a d) as [p Hp]. destruct (Z.gcd_divide_r a d) as [q Hq]. fold g in Hp, Hq.
  assert (Ep : a / g = p) by (rewrite Hp; apply Z.div_mul; lia).
  assert (Eq : d / g = q) by (rewrite Hq; apply Z.div_mul; lia).
  split_and!; [rewrite Ep; nia|rewrite Eq; nia| |].
  - apply Z.gcd_div_gcd; [lia|done].
  - rewrite Ep, Eq. rewrite Hp, Hq at 1. ring.
Qed.

Lemma Rat_norm_spec z : normal (abs (num z)) -> normal (den z) -> 0 < val (den z) ->
  returns (Rat_norm z) (Rat_is (Qmake (ival (num z)) (Z.to_pos (val (den z))))).
Proof.
  intros Ha Hd Hpos. destruct z as [[n a] d]; simpl in *. unfold Rat_norm; simpl.
  go_call gcd_spec; [done|done|]. intros f [Hf Vf].
  destruct (Nat.eqb_spec (length a) 0) as [H0|H0].
  - apply nil_length_inv in H0 as ->. go_call nat_setWord_spec; [unfold word; rewrite _B_eq; lia|].
    intros d' [Hd' Vd']. go_ret. split.
    + unfold Rat_wf, ival; simpl. rewrite Vd'. split_and!; try done; try lia.
    + unfold ratval, Qeq, ival; simpl. by destruct n.
  - pose proof (normal_pos a Ha ltac:(lia)) as Hap.
    destruct (lowest_terms n (val a) (val d) (val f) Hap Hpos Vf) as (Pa & Pd & Hg & Hx).
    rewrite nat_cmp_spec by (done || apply natOne_is). cbn [mbind outcome_bind]. change (val natOne) with 1.
    destruct (negb (Zcmp (val f) 1 =? 0)) eqn:Ec.
    + assert (0 < val f).
      { pose proof (Z.gcd_nonneg (val a) (val d)). destruct (decide (val f = 0)) as [E|]; [|lia].
        rewrite Vf in E. apply Z.gcd_eq_0 in E. lia. }
      go_call nat_div_spec; [auto with words|done..|]. intros [a' ?] [[Ha' Va'] _].
      go_call nat_div_spec; [auto with words|done..|]. intros [d' ?] [[Hd' Vd'] _]. go_ret. split.
      * unfold Rat_wf; simpl. rewrite gcd_ival; simpl. rewrite Va', Vd'. split_and!; try done.
        split; [done|]. intros E. simpl in E. rewrite E, val_nil in Va'. lia.
      * unfold ratval, Qeq, ival; simpl. rewrite !Z2Pos.id by lia. rewrite Va', Vd'. destruct n; lia.
    + go_ret. assert (val f = 1) as Ef.
      { unfold Zcmp in Ec. destruct (Z.ltb_spec (val f) 1); [done|]. destruct (Z.ltb_spec 1 (val f)); [done|lia]. }
      split; [|done]. unfold Rat_wf; simpl. rewrite gcd_ival; simpl. split_and!; try done; [|lia].
      split; [done|]. intros E; simpl in E. by rewrite E in H0.
Qed.

Lemma wf_den_words z : Rat_wf z -> words (den z).
Proof. intros (_ & ? & _). auto with words. Qed.

Lemma mulNat_spec x y : normal (abs x) -> normal y -> returns (mulNat x y) (Int_is (ival x * val y)).
Proof.
  intros Hx Hy. unfold mulNat. go_call nat_mul_spec; [auto with words|done|done|]. intros a Ha. go_ret.
  eapply Int_is_eq; [by apply signed_is|]. unfold ival. destruct (neg x); lia.
Qed.

(** The denominators of two numbers multiplied. *)
Lemma den_mul_spec zb x y : words zb -> Rat_wf x -> Rat_wf y ->
  returns (nat_mul zb (den x) (den y)) (fun d => normal d /\ val d = val (den x) * val (den y) /\ 0 < val d).
Proof.
  intros Hz (_ & Dx & Px & _) (_ & Dy & Py & _). go_mono nat_mul_spec; [done..|]. intros d [Hd ->].
  split_and!; [done|done|]. by apply Z.mul_pos_pos.
Qed.

Lemma norm_of a v d : Int_is v a -> normal d -> 0 < val d ->
  returns (Rat_norm {| num := a; den := d |}) (Rat_is (Qmake v (Z.to_pos (val d)))).
Proof. intros (Ha & _ & <-) Hd Hp. by apply (Rat_norm_spec {| num := a; den := d |}). Qed.

Lemma Rat_Add_spec za zb x y : words zb -> Rat_wf x -> Rat_wf y ->
  returns (Rat_Add za zb x y) (Rat_is (ratval x + ratval y)%Q).
Proof.
  intros Hz Hx Hy. pose proof Hx as ((Nx & _) & Dx & Px & _). pose proof Hy as ((Ny & _) & Dy & Py & _). unfold Rat_Add.
  go_call mulNat_spec; [done|done|]. intros a1 Ha1. go_call mulNat_spec; [done|done|]. intros a2 Ha2.
  go_call Int_Add_spec; [by eapply Int_is_normal|by eapply Int_is_normal|]. intros a Ha.
  go_call den_mul_spec; [done..|]. intros d (Hd & Vd & Pd). go_mono norm_of; [done..|]. intros r Hr.
  rewrite Vd, Z2Pos.inj_mul, (Int_is_ival _ _ Ha1), (Int_is_ival _ _ Ha2) in Hr by done.
  unfold ratval, Qplus; simpl. by rewrite !Z2Pos.id by done.
Qed.

Lemma Rat_Sub_spec za zb x y : words zb -> Rat_wf x -> Rat_wf y ->
  returns (Rat_Sub za zb x y) (Rat_is (ratval x - ratval y)%Q).
Proof.
  intros Hz Hx Hy. pose proof Hx as ((Nx & _) & Dx & Px & _). pose proof Hy as ((Ny & _) & Dy & Py & _). unfold Rat_Sub.
  go_call mulNat_spec; [done|done|]. intros a1 Ha1. go_call mulNat_spec; [done|done|]. intros a2 Ha2.
  go_call Int_Sub_spec; [by eapply Int_is_normal|by eapply Int_is_normal|]. intros a Ha.
  go_call den_mul_spec; [done..|]. intros d (Hd & Vd & Pd). go_mono norm_of; [done..|]. intros r Hr.
  rewrite Vd, Z2Pos.inj_mul, (Int_is_ival _ _ Ha1), (Int_is_ival _ _ Ha2) in Hr by done.
  eapply Rat_is_eq; [exact Hr|]. unfold ratval, Qminus, Qplus, Qopp, Qeq; simpl. rewrite !Z2Pos.id by done. ring.
Qed.

Lemma Rat_Mul_spec za zb x y : words za -> words zb -> Rat_wf x -> Rat_wf y ->
  returns (Rat_Mul za zb x y) (Rat_is (ratval x * ratval y)%Q).
Proof.
  intros Hza Hz Hx Hy. pose proof Hx as ((Nx & _) & Dx & Px & _). pose proof Hy as ((Ny & _) & Dy & Py & _). unfold Rat_Mul.
  go_call Int_Mul_spec; [done..|]. intros a Ha.
  go_call den_mul_spec; [done..|]. intros d (Hd & Vd & Pd). go_mono norm_of; [done..|]. intros r Hr.
  by rewrite Vd, Z2Pos.inj_mul in Hr by done.
Qed.

Lemma Rat_Cmp_spec x y : Rat_wf x -> Rat_wf y ->
  Rat_Cmp x y = Done (match (ratval x ?= ratval y)%Q with Lt => -1 | Eq => 0 | Gt => 1 end).
Proof.
  intros ((Nx & _) & Dx & Px & _) ((Ny & _) & Dy & Py & _). unfold Rat_Cmp.
  destruct (mulNat_spec (num x) (den y) Nx Dy) as (a & -> & Ha). destruct (mulNat_spec (num y) (den x) Ny Dx) as (b & -> & Hb).
  cbn [mbind outcome_bind]. rewrite Int_Cmp_spec by (by eapply Int_is_wf). rewrite (Int_is_ival _ _ Ha), (Int_is_ival _ _ Hb).
  unfold Qcompare, ratval; simpl. rewrite !Z2Pos.id by done. f_equal. unfold Zcmp.
  destruct (Z.compare_spec (ival (num x) * val (den y)) (ival (num y) * val (den x))); repeat case_bool; lia.
Qed.

Lemma Rat_Neg_spec za zb x : Rat_wf x -> returns (Rat_Neg za zb x) (Rat_is (- ratval x)%Q).
Proof.
  intros (Hx & Dx & Px & Gx). unfold Rat_Neg. go_call Int_Neg_spec; [by destruct Hx|]. intros a Ha.
  rewrite nat_set_spec. go_ret. pose proof (Int_is_ival _ _ Ha) as Ea. split.
  - split_and!; simpl; try done; [by eapply Int_is_wf|]. by rewrite Ea, Z.gcd_opp_l.
  - unfold ratval; simpl. by rewrite Ea.
Qed.

Lemma Rat_Abs_spec za zb x : Rat_wf x -> returns (Rat_Abs za zb x) (Rat_is (Qabs (ratval x))).
Proof.
  intros (Hx & Dx & Px & Gx). unfold Rat_Abs. go_call Int_Abs_spec; [by destruct Hx|]. intros a Ha.
  rewrite nat_set_spec. go_ret. pose proof (Int_is_ival _ _ Ha) as Ea. split.
  - split_and!; simpl; try done; [by eapply Int_is_wf|]. by rewrite Ea, Z.gcd_abs_l.
  - unfold ratval, Qabs; simpl. by rewrite Ea.
Qed.

Lemma Rat_Quo_spec x y : Rat_wf x -> Rat_wf y -> ival (num y) <> 0 ->
  returns (Rat_Quo x y) (Rat_is (ratval x / ratval y)%Q).
Proof.
  intros ((Nx & _) & Dx & Px & _) ((Ny & _) & Dy & Py & _) Hy0. unfold Rat_Quo.
  pose proof (abs_pos _ Ny Hy0) as Hap.
  destruct (Nat.eqb_spec (length (abs (num y))) 0) as [E|_].
  { apply nil_length_inv in E. rewrite E, val_nil in Hap. lia. }
  go_call mulNat_spec; [done|done|]. intros a Ha. go_call mulNat_spec; [done|done|]. intros b Hb.
  pose proof (Int_is_ival _ _ Ha) as Ea. pose proof (Int_is_ival _ _ Hb) as Eb.
  assert (Hb0 : ival b <> 0) by (rewrite Eb; apply Z.neq_mul_0; lia).
  pose proof (abs_pos b (Int_is_normal _ _ Hb) Hb0) as Hbp.
  go_mono Rat_norm_spec; simpl; [by eapply Int_is_normal|by eapply Int_is_normal|done|].
  intros r Hr. eapply Rat_is_eq; [exact Hr|]. clear Hr.
  assert (Hn : ival {| neg := negb (Bool.eqb (neg a) (neg b)); abs := abs a |} * ival b = ival a * val (abs b)).
  { unfold ival; simpl. destruct (neg a), (neg b); simpl; ring. }
  apply (Qmult_inj_r _ _ (ratval y)); [unfold ratval, Qeq; simpl; lia|]. rewrite Qmult_comm, (Qmult_comm _ (ratval y)).
  rewrite Qmult_div_r by (unfold ratval, Qeq; simpl; lia).
  unfold ratval, Qmult, Qeq; simpl. rewrite !Pos2Z.inj_mul, !Z2Pos.id by done.
  rewrite Ea, Eb in Hn. lia.
Qed.

(** A quotient of signed magnitudes. *)
Lemma frac_val (a b : Int) : 0 < val (abs b) ->
  (Qmake (ival {| neg := negb (Bool.eqb (neg a) (neg b)); abs := abs a |}) (Z.to_pos (val (abs b)))
   == inject_Z (ival a) / inject_Z (ival b))%Q.
Proof.
  intros Hb. assert (Hb0 : ~ (inject_Z (ival b) == 0)%Q).
  { unfold inject_Z, Qeq, ival; simpl. destruct (neg b); lia. }
  apply (Qmult_inj_r _ _ (inject_Z (ival b))); [done|]. rewrite (Qmult_comm (_ / _)), Qmult_div_r by done.
  unfold inject_Z, Qmult, Qeq, ival; simpl. rewrite Pos2Z.inj_mul, Z2Pos.id by done.
  destruct (neg a), (neg b); simpl; ring.
Qed.

Lemma Rat_SetFrac_spec za zb a b : normal (abs a) -> normal (abs b) -> ival b <> 0 ->
  returns (Rat_SetFrac za zb a b) (Rat_is (inject_Z (ival a) / inject_Z (ival b))%Q).
Proof.
  intros Ha Hb Hb0. pose proof (abs_pos b Hb Hb0). unfold Rat_SetFrac. rewrite Int_Set_spec, nat_set_spec.
  cbn [mbind outcome_bind]. go_mono Rat_norm_spec; [done..|]. intros r Hr.
  eapply Rat_is_eq; [exact Hr|]. by apply frac_val.
Qed.

Lemma Rat_SetFrac64_spec za zb a b : - 2 ^ 63 <= a < 2 ^ 63 -> - 2 ^ 63 <= b < 2 ^ 63 -> b <> 0 ->
  returns (Rat_SetFrac64 za zb a b) (Rat_is (inject_Z a / inject_Z b)%Q).
Proof.
  intros Ha Hb Hb0. unfold Rat_SetFrac64. go_call Int_SetInt64_spec; [done|]. intros r Hr.
  assert (E : exists n u, (if b <? 0 then (negb (neg r), int64 (- b)) else (neg r, b)) = (n, u) /\
    n = negb (Bool.eqb (neg r) (b <? 0)) /\ uint64 u = Z.abs b).
  { destruct (Z.ltb_spec b 0).
    - exists (negb (neg r)), (int64 (- b)). split_and!; [done|by destruct (neg r)|].
      unfold uint64, int64, wrap, swrap. destruct (decide (b = - 2 ^ 63)) as [->|]; [done|].
      rewrite (Z.mod_small (- b + _)), Z.add_simpl_r, Z.mod_small by lia. lia.
    - exists (neg r), b. split_and!; [done|by destruct (neg r)|]. unfold uint64. rewrite wrap_small; lia. }
  destruct E as (n & u & -> & -> & ->). go_call nat_setUint64_spec; [lia|]. intros d [Hd Vd].
  go_mono Rat_norm_spec; simpl; [by eapply Int_is_normal|done|lia|]. intros z Hz. eapply Rat_is_eq; [exact Hz|].
  set (B := {| neg := b <? 0; abs := d |}).
  assert (EB : ival B = b) by (unfold ival, B; simpl; rewrite Vd; case_bool; lia).
  pose proof (frac_val r B ltac:(simpl; lia)) as F. by rewrite EB, (Int_is_ival _ _ Hr) in F.
Qed.

Lemma Rat_SetInt_spec za zb x : Int_wf x -> returns (Rat_SetInt za zb x) (Rat_is (inject_Z (ival x))).
Proof.
  intros Hx. unfold Rat_SetInt. rewrite Int_Set_spec. cbn [mbind outcome_bind].
  go_call nat_setWord_spec; [unfold word; rewrite _B_eq; lia|]. intros d [Hd Vd]. go_ret. split.
  - unfold Rat_wf; simpl. rewrite Vd, Z.gcd_1_r. done.
  - unfold ratval; simpl. by rewrite Vd.
Qed.

(** * Text *)

Lemma index_any_app cs pre c post : Forall (fun x => x ∉ cs) pre -> c ∈ cs ->
  index_any cs (pre ++ c :: post) = zlen pre.
Proof.
  intros Hpre Hc. induction Hpre as [|x pre Hx Hpre IH]; cbn [app index_any].
  - by rewrite bool_decide_true.
  - rewrite bool_decide_false, IH, zlen_cons by done. pose proof (zlen_nonneg pre). bool_decide_goal. lia.
Qed.

Lemma index_any_none cs s : Forall (fun x => x ∉ cs) s -> index_any cs s = -1.
Proof. induction 1 as [|x s Hx Hs IH]; [done|]. cbn [index_any]. by rewrite bool_decide_false, IH by done. Qed.

(** Signs and digits are not separators. *)
Lemma number_char c : c = 45 \/ is_digit 10 c -> (c ∉ [47]) /\ (c ∉ [46]) /\ (c ∉ [101; 69]).
Proof.
  intros Hc. rewrite !not_elem_of_cons.
  assert (c <> 47 /\ c <> 46 /\ c <> 101 /\ c <> 69) as (? & ? & ? & ?); [|by repeat split; try apply not_elem_of_nil].
  destruct Hc as [->|Hc]; [done|]. split_and!; intros ->; by vm_compute in Hc.
Qed.

Lemma number_no_sep s : Forall (fun c => c = 45 \/ is_digit 10 c) s ->
  Forall (fun x => x ∉ [47]) s /\ Forall (fun x => x ∉ [46]) s /\ Forall (fun x => x ∉ [101; 69]) s.
Proof. induction 1 as [|c s Hc Hs (? & ? & ?)]; [done|]. apply number_char in Hc as (? & ? & ?). split_and!; by apply Forall_cons_2. Qed.

Lemma slice_left {A} (l1 l2 : list A) n : n = zlen l1 -> slice (l1 ++ l2) 0 n = Done l1.
Proof. intros ->. apply slice_prefix. Qed.

Lemma slice_right {A} (l1 l2 : list A) n m : n = zlen l1 -> m = zlen (l1 ++ l2) -> slice (l1 ++ l2) n m = Done l2.
Proof. intros -> ->. apply slice_suffix. Qed.

Lemma decimalString_spec x : normal x -> exists s, nat_decimalString x = Done s /\ s <> [] /\ Forall (is_digit 10) s /\
  forall z rest, (forall c l, rest = c :: l -> ~ is_digit 10 c) ->
    nat_scan z {| runes := s ++ rest; at_end := EOF |} 10 = Done (x, 10, None, {| runes := rest; at_end := EOF |}).
Proof. intros Hx. apply (string_scan_spec x 10 Hx). unfold MaxBase. lia. Qed.

(** Reading a printed fraction; what follows the denominator is ignored. *)
Lemma Rat_String_SetString_spec z x junk : Rat_wf x -> (forall c l, junk = c :: l -> ~ is_digit 10 c) ->
  exists s, Rat_String x = Done s /\ Rat_SetString z (s ++ junk) = Done (x, true).
Proof.
  intros Hx Hj. pose proof Hx as (Ha & Hd & Hp & _). unfold Rat_String.
  destruct (String_SetString_spec (num x) Ha) as (sa & -> & Hca & Hsa).
  destruct (decimalString_spec (den x) Hd) as (sb & -> & _ & _ & Hsb). cbn [mbind outcome_bind].
  exists (sa ++ [47] ++ sb). split; [done|]. unfold Rat_SetString.
  destruct (number_no_sep sa Hca) as (Hns & _ & _).
  assert (Es : (sa ++ [47] ++ sb) ++ junk = sa ++ 47 :: (sb ++ junk)) by (by rewrite <- !app_assoc). rewrite Es.
  rewrite (proj2 (Nat.eqb_neq _ 0)) by (rewrite length_app; simpl; lia).
  rewrite index_any_app by (done || by apply list_elem_of_singleton). pose proof (zlen_nonneg sa). bool_decide_goal.
  rewrite slice_left by done. cbn [mbind outcome_bind]. rewrite Hsa. cbn [mbind outcome_bind negb].
  rewrite (cons_middle 47), app_assoc.
  rewrite slice_right by (rewrite ?zlen_app; done). cbn [mbind outcome_bind num den].
  rewrite Hsb by done. cbn [mbind outcome_bind num].
  destruct (Rat_norm_spec {| num := num x; den := den x |}) as (r & -> & Hr); [apply Ha|done|done|].
  cbn [mbind outcome_bind]. do 2 f_equal. eapply Rat_is_inj; [exact Hr|]. split; [done|reflexivity].
Qed.

(** [Int.SetString] on an optional minus sign and any non-empty decimal digits. *)
Lemma SetString_digits z (sg : bool) ds : ds <> [] -> Forall (is_digit 10) ds ->
  returns (Int_SetString z ((if sg then [45] else []) ++ ds) 10) (fun '(r, ok) =>
    ok = true /\ Int_is (if sg then - digits_val 10 (map hexValue ds) else digits_val 10 (map hexValue ds)) r).
Proof.
  intros Hne Hd.
  destruct (nat_scan_spec (abs z) 10 ds [] ltac:(unfold MaxBase; lia) Hd Hne ltac:(done))
    as ([[[a b] e] r] & Hsc & Ha & -> & -> & ->). rewrite app_nil_r in Hsc.
  unfold Int_SetString, Int_scan, ReadRune. destruct sg; cbn [app runes at_end].
  - cbn [Z.eqb Pos.eqb]. rewrite Hsc. go_ret. split; [done|]. exact (signed_is true a _ Ha).
  - destruct ds as [|c ds]; [done|]. apply Forall_cons_iff in Hd as [Hc _]. unfold is_digit in Hc.
    destruct (Z.eqb_spec c 45) as [->|]; [by vm_compute in Hc|].
    destruct (Z.eqb_spec c 43) as [->|]; [by vm_compute in Hc|].
    unfold UnreadRune. cbn [runes at_end]. rewrite Hsc. go_ret. split; [done|]. exact (signed_is false a _ Ha).
Qed.

(** [10^n * v] as a rational, for a scale of either sign. *)
Definition scaled (v n : Z) : Q := if 0 <=? n then inject_Z (v * 10 ^ n) else Qmake v (Z.to_pos (10 ^ (- n))).

(** The text of a decimal number: a sign, the digits before and after the
    point, and the exponent if there is one. *)
Definition decimal_text (sg : bool) (ip fp : list Z) (e : option (list Z)) : list Z :=
  (if sg then [45] else []) ++ ip ++ 46 :: fp ++ match e with Some e => 101 :: e | None => [] end.

Definition exponent (e : option Int) : Z := match e with Some e => ival e | None => 0 end.

(** The part of [SetString] after the mantissa and the exponent are known. *)
Lemma SetString_scale a den exp v x : Int_is v a -> Int_is x exp ->
  returns (powTen ← nat_expNN [] natTen (abs exp) None;
    if neg exp then r ← Rat_norm {| num := a; den := powTen |}; Done (r, true)
    else m ← nat_mul (abs a) (abs a) powTen; d ← nat_setWord den 1;
         Done ({| num := {| neg := neg a; abs := m |}; den := d |}, true))
  (fun '(r, ok) => ok = true /\ Rat_is (scaled v x) r).
Proof.
  intros Ha He. pose proof He as (Hn & _ & Ev). pose proof (val_nonneg _ (normal_words _ Hn)) as Hnn.
  assert (Hpw : returns (nat_expNN [] natTen (abs exp) None) (fun p => normal p /\ val p = 10 ^ val (abs exp))).
  { go_mono nat_expNN_full; [split; normal_concrete|done|done|]. intros p [Hp ->]. split; [done|].
    change (val natTen) with 10. cbn [reduce]. case_bool; [by replace (val (abs exp)) with 0 by lia|].
    case_bool; [by replace (val (abs exp)) with 1 by lia|done]. }
  go_call Hpw. intros p [Hp Vp]. pose proof (Z.pow_pos_nonneg 10 (val (abs exp)) ltac:(lia) Hnn).
  pose proof (neg_ltb _ _ He) as Hneg. rewrite Hneg. unfold scaled, ival in *. destruct (Z.ltb_spec x 0).
  - rewrite Hneg in Ev. go_call norm_of; [done|done|lia|]. intros r Hr. go_ret. split; [done|].
    rewrite (proj2 (Z.leb_gt 0 x)) by lia. by replace (- x) with (val (abs exp)) by lia; rewrite <- Vp.
  - rewrite Hneg in Ev. go_call nat_mul_spec; [by eapply Int_is_words|by eapply Int_is_normal|done|].
    intros m Hm. go_call nat_setWord_spec; [unfold word; rewrite _B_eq; lia|]. intros d [Hd Vd]. go_ret. split; [done|].
    rewrite (proj2 (Z.leb_le 0 x)) by lia.
    assert (Hi : Int_is (v * 10 ^ x) {| neg := neg a; abs := m |}).
    { destruct Hm as [Hm Vm]. destruct Ha as (Ha & Ha0 & <-). rewrite Vp, Ev in Vm. rewrite Ev in H. split_and!; simpl; [done| |].
      - intros ->. apply Ha0, normal_zero; [done|]. rewrite val_nil in Vm. nia.
      - unfold ival; simpl. rewrite Vm. destruct (neg a); ring. }
    split.
    + split_and!; simpl; [by eapply Int_is_wf|done|lia|]. by rewrite Vd, Z.gcd_1_r.
    + unfold ratval; simpl. rewrite Vd, (Int_is_ival _ _ Hi). reflexivity.
Qed.

(** [et] is the printed form of the exponent [e]. *)
Definition exponent_text (e : option Int) (et : option (list Z)) : Prop :=
  match e, et with
  | Some e, Some t => Int_wf e /\ Int_String (Some e) = Done t
  | None, None => True
  | _, _ => False
  end.

Lemma digits_number ds : Forall (is_digit 10) ds -> Forall (fun c => c = 45 \/ is_digit 10 c) ds.
Proof. intros. apply (List.Forall_impl (P := is_digit 10)); auto. Qed.

(** The separators of a decimal text are found where they are. *)
Lemma decimal_text_seps (sg : bool) ip fp t :
  Forall (is_digit 10) ip -> Forall (is_digit 10) fp -> Forall (fun c => c = 45 \/ is_digit 10 c) (default [] t) ->
  let m := (if sg then [45] else []) ++ ip in
  let s := decimal_text sg ip fp t in
  index_any [47] s = -1 /\ index_any [46] s = zlen m /\
  index_any [101; 69] s = (match t with Some _ => zlen (m ++ 46 :: fp) | None => -1 end).
Proof.
  intros Hip Hfp Ht m s.
  assert (Hm : Forall (fun c => c = 45 \/ is_digit 10 c) m).
  { unfold m. apply Forall_app. split; [destruct sg; auto|by apply digits_number]. }
  apply digits_number in Hfp. apply number_no_sep in Hm as (m1 & m2 & m3), Hfp as (f1 & f2 & f3), Ht as (t1 & t2 & t3).
  assert (Hs : s = m ++ 46 :: fp ++ match t with Some e => 101 :: e | None => [] end).
  { unfold s, decimal_text, m. by rewrite <- app_assoc. }
  assert (H46 : forall cs : list Z, 46 ∉ cs -> Forall (fun x => x ∉ cs) m -> Forall (fun x => x ∉ cs) fp ->
    Forall (fun x => x ∉ cs) (m ++ 46 :: fp)) by (intros; apply Forall_app; auto).
  split_and!.
  - apply index_any_none. rewrite Hs. apply Forall_app. split; [done|]. constructor; [by apply (bool_decide_unpack _)|].
    apply Forall_app. split; [done|]. destruct t; constructor; try done; by apply (bool_decide_unpack _).
  - rewrite Hs. by apply index_any_app; [|apply list_elem_of_singleton].
  - rewrite Hs, app_comm_cons, app_assoc. assert (46 ∉ [101; 69]) by by apply (bool_decide_unpack _). destruct t.
    + apply index_any_app; [by apply H46|by apply (bool_decide_unpack _)].
    + rewrite app_nil_r. apply index_any_none. by apply H46.
Qed.

Lemma Rat_SetString_decimal_spec z (sg : bool) ip fp e et :
  Forall (is_digit 10) ip -> Forall (is_digit 10) fp -> ip ++ fp <> [] -> zlen fp < 2 ^ 63 -> exponent_text e et ->
  let v := digits_val 10 (map hexValue (ip ++ fp)) in
  returns (Rat_SetString z (decimal_text sg ip fp et)) (fun '(r, ok) =>
    ok = true /\ Rat_is (scaled (if sg then - v else v) (exponent e - zlen fp)) r).
Proof.
  intros Hip Hfp Hne Hlen Het v. pose proof (zlen_nonneg fp) as Hf0. set (m := (if sg then [45] else []) ++ ip).
  assert (Hex : Forall (fun c => c = 45 \/ is_digit 10 c) (default [] et) /\
    forall t, et = Some t -> exists x, Int_SetString Int_zero t 10 = Done (x, true) /\ Int_is (exponent e) x).
  { destruct e as [e|], et as [t|]; try done. destruct Het as [Hw Ht].
    destruct (String_SetString_spec e Hw) as (t' & Ht' & Hc & Hs). rewrite Ht in Ht'. simplify_eq/=.
    split; [done|]. intros t'' [= <-]. exists e. split; [apply Hs|by apply Int_wf_is]. }
  destruct Hex as [Hct Hex]. destruct (decimal_text_seps sg ip fp et Hip Hfp Hct) as (I47 & I46 & Ie).
  fold m in I46, Ie. unfold Rat_SetString.
  rewrite (proj2 (Nat.eqb_neq _ 0)) by (unfold decimal_text; rewrite !length_app; simpl; lia).
  rewrite I47, I46, Ie. cbn [Z.leb Z.compare]. pose proof (zlen_nonneg m) as Hm0. pose proof (zlen_nonneg (m ++ 46 :: fp)) as Hmf.
  assert (Ed : decimal_text sg ip fp et = (m ++ 46 :: fp) ++ match et with Some e => 101 :: e | None => [] end).
  { unfold decimal_text, m. by rewrite <- !app_assoc. }
  eapply returns_bind with (P := fun '(s, exp, ok) => s = m ++ 46 :: fp /\ Int_is (exponent e) exp /\ ok = true).
  { rewrite Ed. destruct et as [t|].
    - bool_decide_goal. rewrite zlen_app, zlen_cons. bool_decide_goal.
      rewrite (slice_left (m ++ 46 :: fp) (101 :: t)) by (by rewrite zlen_app, zlen_cons).
      rewrite (cons_middle 101), (app_assoc (m ++ _)), slice_right by (rewrite ?zlen_app, ?zlen_cons, ?zlen_nil; lia).
      destruct (Hex t eq_refl) as (x & Hx & Hi). cbn [mbind outcome_bind]. rewrite Hx. cbn [mbind outcome_bind]. by go_ret.
    - go_ret. destruct e; [done|]. rewrite app_nil_r. split_and!; [done|apply Int_zero_is|done]. }
  intros [[s exp] ok] (-> & Hexp & ->). cbn [negb]. bool_decide_goal.
  eapply returns_bind with (P := fun '(s, exp) => s = (if sg then [45] else []) ++ (ip ++ fp) /\ Int_is (exponent e - zlen fp) exp).
  { rewrite slice_left by done. cbn [mbind outcome_bind]. rewrite (cons_middle 46), app_assoc, slice_right
      by (rewrite ?zlen_app, ?zlen_cons, ?zlen_nil; lia). cbn [mbind outcome_bind].
    replace (zlen (m ++ fp) - zlen m) with (zlen fp) by (rewrite zlen_app; lia).
    unfold NewInt, int64. rewrite swrap_small by lia. go_call Int_SetInt64_spec; [lia|]. intros n Hn.
    go_call Int_Sub_spec; [by eapply Int_is_normal|by eapply Int_is_normal|]. intros x Hx. go_ret.
    rewrite (Int_is_ival _ _ Hexp), (Int_is_ival _ _ Hn) in Hx. split; [unfold m; by rewrite <- app_assoc|done]. }
  intros [s exp'] [-> Hexp']. go_call SetString_digits; [done|by apply Forall_app|].
  intros [a ok] [-> Ha]. cbn [negb num den]. by apply SetString_scale.
Qed.

(** * Decimal output *)

Lemma decimal_digits x : normal x -> returns (nat_decimalString x) (fun s =>
  Forall (is_digit 10) s /\ digits_of 10 (val x) (map hexValue s)).
Proof.
  intros Hx. unfold nat_decimalString. change (slice lowercaseDigits 0 10) with (Done (take (Z.to_nat 10) lowercaseDigits)).
  cbn [mbind outcome_bind]. go_mono nat_string_spec; [done|by vm_compute|]. intros s (ds & Hf & Hd).
  change (zlen (take (Z.to_nat 10) lowercaseDigits)) with 10 in Hd.
  destruct (string_is_digits 10 s ds ltac:(lia) (proj1 Hd) Hf) as [? ->]. done.
Qed.

Lemma digits_of_length b v ds p : 1 < b -> 1 <= p -> digits_of b v ds -> v < b ^ p -> zlen ds <= p.
Proof.
  intros Hb Hp (Hd & Hv & d & l & -> & Hl) Hlt. apply Forall_cons_iff in Hd as [Hd Hds].
  pose proof (digits_val_nonneg b l ltac:(lia) Hds) as Hn.
  rewrite zlen_cons. destruct (decide (d = 0)) as [->|]; [rewrite Hl, zlen_nil by done; lia|].
  rewrite digits_val_cons in Hv. pose proof (zlen_nonneg l).
  destruct (Z.le_gt_cases (1 + zlen l) p); [done|]. exfalso.
  pose proof (Z.pow_le_mono_r b p (zlen l) ltac:(lia) ltac:(lia)).
  pose proof (Z.mul_le_mono_nonneg_r 1 d (b ^ zlen l) ltac:(lia) ltac:(lia)). lia.
Qed.

(** [round N P D] is [N*P/D] rounded to the nearest integer, halves up. *)
Definition round (N P D : Z) : Z := (2 * N * P + D) / (2 * D).

Lemma round_parts N P D : 0 <= N -> 0 < P -> 0 < D ->
  let q := N / D in let r := N mod D * P / D in let r2 := (N mod D * P) mod D in
  let r' := if D <=? 2 * r2 then r + 1 else r in
  0 <= r < P /\
  (if P <=? r' then round N P D = (q + 1) * P /\ r' - P = 0 else round N P D = q * P + r' /\ 0 <= r' < P).
Proof.
  intros HN HP HD q r r2 r'. pose proof (Z.div_mod N D ltac:(lia)) as E1. pose proof (Z.mod_pos_bound N D HD) as B1.
  fold q in E1. set (m := N mod D) in *.
  pose proof (Z.div_mod (m * P) D ltac:(lia)) as E2. pose proof (Z.mod_pos_bound (m * P) D HD) as B2. fold r r2 in E2, B2.
  assert (Hr0 : 0 <= r) by (apply Z.div_pos; nia).
  assert (HrP : r < P) by (apply Z.div_lt_upper_bound; nia).
  assert (Hround : round N P D = q * P + r').
  { unfold round. symmetry. unfold r'. destruct (Z.leb_spec D (2 * r2)).
    - apply Z.div_unique with (2 * r2 - D); [left; lia|]. rewrite E1. 
      replace (2 * (D * q + m) * P) with (2 * D * (q * P) + 2 * (m * P)) by ring. rewrite E2. ring.
    - apply Z.div_unique with (2 * r2 + D); [left; lia|]. rewrite E1.
      replace (2 * (D * q + m) * P) with (2 * D * (q * P) + 2 * (m * P)) by ring. rewrite E2. ring. }
  split; [lia|]. assert (Hr' : 0 <= r' <= P) by (unfold r'; destruct (D <=? 2 * r2); lia). rewrite Hround.
  destruct (Z.leb_spec P r'); [|lia]. replace r' with P by lia. lia.
Qed.

(** The text of a rounded number: a sign, an integer part, and [prec] digits
    after the point if there are any. *)
Definition float_text (x : Rat) (prec : Z) (s : list Z) : Prop :=
  exists ip fp, s = (if neg (num x) then [45] else []) ++ ip ++ (if 0 <? prec then 46 :: fp else []) /\
    ip <> [] /\ Forall (is_digit 10) ip /\ Forall (is_digit 10) fp /\ zlen fp = Z.max 0 prec /\
    digits_val 10 (map hexValue (ip ++ fp)) = round (val (abs (num x))) (10 ^ Z.max 0 prec) (val (den x)).

Lemma digits_nonempty b v s : digits_of b v (map hexValue s) -> s <> [].
Proof. intros (_ & _ & d & l & E & _) ->. done. Qed.

Lemma Repeat_zero n : 0 <= n -> Repeat [48] n = Done (replicate (Z.to_nat n) 48).
Proof.
  intros Hn. unfold Repeat. bool_decide_goal. f_equal. induction (Z.to_nat n) as [|k IH]; [done|]. simpl. by rewrite IH.
Qed.

Lemma map_zeros n : map hexValue (replicate n 48) = replicate n 0.
Proof. induction n as [|n IH]; [done|]. cbn [replicate map]. by rewrite IH. Qed.

Lemma zeros_digits n : Forall (is_digit 10) (replicate n 48).
Proof. apply Forall_replicate. by vm_compute. Qed.

Lemma power_of_ten prec : 0 < prec < 2 ^ 63 ->
  returns (e ← nat_setUint64 [] (uint64 prec); nat_expNN [] natTen e None) (fun p => nat_is (10 ^ prec) p).
Proof.
  intros Hp. unfold uint64. rewrite wrap_small by lia. go_call nat_setUint64_spec; [lia|]. intros e [He Ve].
  go_mono nat_expNN_full; [split; normal_concrete|done|done|]. intros p [Hpn Vp]. split; [done|]. rewrite Vp, Ve.
  change (val natTen) with 10. cbn [reduce]. case_bool; [lia|]. case_bool; [by replace prec with 1 by lia|done].
Qed.

(** The rounding part: quotient and fraction of the rounded value. *)
Lemma float_round_spec N D p q r (prec : Z) : normal N -> normal D -> 0 < val D -> nat_is (10 ^ Z.max 0 prec) p ->
  nat_is (val N / val D) q -> nat_is (val N mod val D) r ->
  returns (float_round q r p D)
  (fun '(q, r) => normal q /\ normal r /\ val r < 10 ^ Z.max 0 prec /\
    val q * 10 ^ Z.max 0 prec + val r = round (val N) (10 ^ Z.max 0 prec) (val D)).
Proof.
  intros HN HD HDp [Hp Vp] [Hq Vq] [Hr0 Vr0]. unfold float_round. set (P := 10 ^ Z.max 0 prec) in *.
  assert (HP : 0 < P) by (apply Z.pow_pos_nonneg; lia).
  destruct (round_parts (val N) P (val D) ltac:(apply val_nonneg; auto with words) HP HDp) as [Hr Hrd].
  go_call nat_mul_spec; [auto with words|done|done|]. intros rm [Hrm Vrm]. rewrite Vr0, Vp in Vrm.
  go_call nat_div_spec; [auto with words|done..|]. intros [r1 r2] [[Hr1 Vr1] [Hr2 Vr2]]. rewrite Vrm in Vr1, Vr2.
  go_call nat_add_spec; [done|done|]. intros t [Ht Vt].
  rewrite nat_cmp_spec by done. cbn [mbind outcome_bind].
  assert (Ec : (Zcmp (val D) (val t) <=? 0) = (val D <=? 2 * ((val N mod val D * P) mod val D))).
  { rewrite Vt, Vr2. unfold Zcmp. repeat case_bool; lia. }
  rewrite Ec. destruct (val D <=? 2 * _).
  - go_call nat_add_spec; [done|apply natOne_is|]. intros r3 [Hr3 Vr3]. rewrite Vr1 in Vr3. change (val natOne) with 1 in Vr3.
    rewrite nat_cmp_spec by done. cbn [mbind outcome_bind]. rewrite Vr3, Vp.
    assert (Ec2 : (0 <=? Zcmp (val N mod val D * P / val D + 1) P) = (P <=? val N mod val D * P / val D + 1)).
    { unfold Zcmp. repeat case_bool; lia. }
    rewrite Ec2. destruct (P <=? _); destruct Hrd as [E Hb].
    + go_call nat_add_spec; [done|apply natOne_is|]. intros q' [Hq' Vq']. change (val natOne) with 1 in Vq'.
      go_call nat_sub_ge; [done|done|lia|]. intros r' [Hr' Vr']. go_ret. rewrite E, Vq', Vr', Vq. split_and!; try done; lia.
    + go_ret. rewrite E, Vq, Vr3. split_and!; try done; lia.
  - go_ret. rewrite (proj2 (Z.leb_gt _ _)) in Hrd by lia. destruct Hrd as [-> Hb]. rewrite Vq, Vr1. split_and!; try done; lia.
Qed.

Lemma Int_String_digits x : normal (abs x) -> returns (Int_String (Some x)) (fun t => exists s,
  t = (if neg x then [45] else []) ++ s /\ Forall (is_digit 10) s /\ digits_of 10 (val (abs x)) (map hexValue s)).
Proof.
  intros Hx. unfold Int_String. go_call (decimal_digits (abs x)); [done|]. intros s [Hs Hds]. go_ret.
  exists s. split; [by destruct (neg x)|done].
Qed.

(** An integer is printed with zeros after the point. *)
Lemma float_int x prec s : den x = [1] -> Forall (is_digit 10) s -> digits_of 10 (val (abs (num x))) (map hexValue s) ->
  float_text x prec ((if neg (num x) then [45] else []) ++ s ++
    (if 0 <? prec then 46 :: replicate (Z.to_nat (Z.max 0 prec)) 48 else [])).
Proof.
  intros E Hs Hds. exists s, (replicate (Z.to_nat (Z.max 0 prec)) 48).
  split_and!; [done|by eapply digits_nonempty|done|apply zeros_digits|rewrite zlen_replicate; lia|].
  set (p := Z.max 0 prec). pose proof (Z.pow_pos_nonneg 10 p ltac:(lia) ltac:(lia)).
  rewrite E, map_app, map_zeros, digits_val_app, zlen_replicate. rewrite <- (app_nil_r (replicate _ 0)), digits_val_zeros.
  destruct Hds as (_ & -> & _). rewrite Z2Nat.id by lia. unfold round. change (val [1]) with 1.
  apply Z.div_unique with 1; [lia|]. change (digits_val 10 []) with 0. ring.
Qed.

(** The digits of the fraction fill [prec] places. *)
Lemma float_frac x prec q r s rs : 0 < prec -> 0 <= r < 10 ^ prec ->
  q * 10 ^ prec + r = round (val (abs (num x))) (10 ^ prec) (val (den x)) ->
  Forall (is_digit 10) s -> digits_of 10 q (map hexValue s) ->
  Forall (is_digit 10) rs -> digits_of 10 r (map hexValue rs) ->
  zlen rs <= prec /\
  float_text x prec ((if neg (num x) then [45] else []) ++ s ++ 46 :: replicate (Z.to_nat (prec - zlen rs)) 48 ++ rs).
Proof.
  intros Hp Hr Hq Hs Hds Hrs Hdr.
  assert (Hlen : zlen rs <= prec).
  { replace (zlen rs) with (zlen (map hexValue rs)) by (unfold zlen; by rewrite length_map).
    apply (digits_of_length 10 r); [lia|lia|done|lia]. }
  split; [done|]. exists s, (replicate (Z.to_nat (prec - zlen rs)) 48 ++ rs).
  rewrite (proj2 (Z.ltb_lt 0 prec)) by done.
  assert (Hz : zlen (replicate (Z.to_nat (prec - zlen rs)) 48 ++ rs) = prec) by (rewrite zlen_app, zlen_replicate; lia).
  split_and!; [done|by eapply digits_nonempty|done|apply Forall_app; split; [apply zeros_digits|done]|lia|].
  rewrite Z.max_r, map_app, digits_val_app by lia.
  replace (zlen (map hexValue (replicate (Z.to_nat (prec - zlen rs)) 48 ++ rs))) with prec
    by (unfold zlen in *; rewrite length_map; lia).
  rewrite map_app, map_zeros, digits_val_zeros. destruct Hds as (_ & -> & _), Hdr as (_ & -> & _). done.
Qed.

Lemma Rat_FloatString_spec x prec : Rat_wf x -> prec < 2 ^ 63 ->
  returns (Rat_FloatString x prec) (float_text x prec).
Proof.
  intros (Hx & Hd & Hdp & _) Hprec. unfold Rat_FloatString, Rat_IsInt. case_bool_decide as E.
  - go_call Int_String_digits; [apply Hx|]. intros t (s & -> & Hs & Hds). pose proof (float_int x prec s E Hs Hds) as Hf.
    case_bool.
    + rewrite Repeat_zero by lia. go_ret. rewrite Z.max_r in Hf by lia. by rewrite <- app_assoc.
    + go_ret. by rewrite app_nil_r in Hf.
  - go_call nat_div_spec; [auto with words|apply Hx|done|done|]. intros [q r] [Hq Hr].
    eapply returns_bind with (P := nat_is (10 ^ Z.max 0 prec)).
    { case_bool; [rewrite Z.max_r by lia; apply power_of_ten; lia|]. go_ret. rewrite Z.max_l by lia. apply natOne_is. }
    intros p Hp. go_call float_round_spec; [apply Hx|done|done|done|done|done|].
    intros [q' r'] (Hq' & Hr' & Hlt & Hrd).
    go_call (decimal_digits q'); [done|]. intros s [Hs Hds].
    pose proof (val_nonneg r' (normal_words _ Hr')) as Hr0.
    assert (Esg : (if neg (num x) then 45 :: s else s) = (if neg (num x) then [45] else []) ++ s) by (by destruct (neg (num x))).
    rewrite Esg. case_bool.
    + rewrite Z.max_r in * by lia. go_call (decimal_digits r'); [done|]. intros rs [Hrs Hdr].
      destruct (float_frac x prec (val q') (val r') s rs) as [Hl Hf]; [done..|].
      rewrite Repeat_zero by lia. go_ret. by rewrite <- app_assoc.
    + rewrite Z.max_l in * by lia. change (10 ^ 0) with 1 in *. go_ret. exists s, [].
      rewrite (proj2 (Z.ltb_ge 0 prec)), Z.max_l by lia. rewrite !app_nil_r.
      split_and!; [done|by eapply digits_nonempty|done|done|done|]. destruct Hds as (_ & -> & _).
      change (10 ^ 0) with 1. lia.
Qed.

(** * Gob encoding *)

Lemma slice_between {A} (l1 l2 l3 : list A) n m : n = zlen l1 -> m = zlen l1 + zlen l2 ->
  slice (l1 ++ l2 ++ l3) n m = Done l2.
Proof.
  intros -> ->. pose proof (zlen_nonneg l1). pose proof (zlen_nonneg l2). pose proof (zlen_nonneg l3).
  rewrite slice_done by (rewrite ?zlen_app; lia). replace (zlen l1 + zlen l2 - zlen l1) with (zlen l2) by lia.
  unfold zlen. rewrite !Nat2Z.id, drop_app_length, take_app_length. done.
Qed.

(** The layout: version and sign, the length of the numerator, the two numbers. *)
Definition gob_layout (x : Rat) (buf : list Z) : Prop := exists c na nd,
  buf = (if neg (num x) then 3 else 2) :: c ++ na ++ nd /\ length c = 4%nat /\
  (forall rest, @Uint32 bigEndian (c ++ rest) = Done (zlen na)) /\
  Forall is_byte na /\ be_val na = val (abs (num x)) /\ Forall is_byte nd /\ be_val nd = val (den x).

Lemma Rat_GobEncode_spec x : normal (abs (num x)) -> normal (den x) -> 8 * zlen (abs (num x)) < 2 ^ 31 ->
  returns (Rat_GobEncode x) (fun r => exists buf, r = Some buf /\ gob_layout x buf /\ zlen buf <= 5 + 8 * zlen (abs (num x)) + 8 * zlen (den x)).
Proof.
  intros Ha Hd Hlen. unfold Rat_GobEncode. change (Z.to_nat _S) with 8%nat.
  set (buf0 := replicate _ 0). assert (Hl0 : zlen buf0 = 5 + 8 * zlen (abs (num x)) + 8 * zlen (den x)).
  { unfold buf0. rewrite zlen_replicate. unfold zlen. lia. }
  go_call nat_bytes_spec; [auto with words|unfold buf0; rewrite length_replicate; lia|].
  intros [buf i] (Hl & Hi & Hb & Hv & _). pose proof (zlen_nonneg (abs (num x))) as Hna. pose proof (zlen_nonneg (den x)).
  assert (Hlb : zlen buf = zlen buf0) by (unfold zlen; lia). set (nd := drop (Z.to_nat i) buf) in *.
  rewrite slice_done by lia. rewrite Z.sub_0_r, drop_0. cbn [mbind outcome_bind].
  assert (Hli : zlen (take (Z.to_nat i) buf) = i) by (rewrite zlen_take; lia).
  go_call nat_bytes_spec; [auto with words|unfold zlen in *; lia|].
  intros [lo j] (Hllo & Hj & Hbj & Hvj & _). rewrite Hli in Hj. assert (Hlo : zlen lo = i) by (unfold zlen in *; lia).
  set (na := drop (Z.to_nat j) lo) in *. assert (Hlna : zlen na = i - j) by (unfold na; rewrite zlen_drop; lia).
  assert (Hsw : swrap 32 (wrap 32 (i - j)) = i - j) by (rewrite wrap_small, swrap_small; lia).
  rewrite Hsw, Z.eqb_refl. cbn [negb].
  (* the part before the numerator *)
  set (pre := take (Z.to_nat j) lo). assert (Elo : lo = pre ++ na) by (unfold pre, na; by rewrite take_drop).
  assert (Hlpre : zlen pre = j) by (unfold pre; rewrite zlen_take; lia).
  set (p1 := take (Z.to_nat (j - 5)) pre). assert (Hp1 : zlen p1 = j - 5) by (unfold p1; rewrite zlen_take; lia).
  assert (H5 : zlen (drop (Z.to_nat (j - 5)) pre) = 5) by (rewrite zlen_drop; lia).
  destruct (drop (Z.to_nat (j - 5)) pre) as [|h c0] eqn:Epre; [done|].
  assert (Hc0 : zlen c0 = 4) by (rewrite zlen_cons in H5; lia).
  assert (Ep : pre = p1 ++ h :: c0) by (unfold p1; rewrite <- Epre; by rewrite take_drop).
  rewrite Elo, Ep. replace (((p1 ++ h :: c0) ++ na) ++ nd) with ((p1 ++ [h]) ++ c0 ++ (na ++ nd))
    by (by rewrite <- !app_assoc).
  assert (Hp1h : zlen (p1 ++ [h]) = j - 4) by (rewrite zlen_app, zlen_cons, zlen_nil; lia).
  rewrite slice_between by lia. cbn [mbind outcome_bind].
  destruct (@law32 bigEndian _) as (Hput & _ & _).
  destruct (Hput c0 (wrap 32 (i - j))) as (c & Ec & Hlc & Hbc & Hget); [apply wrap_range; lia|change (Z.to_nat (32 / 8)) with 4%nat; unfold zlen in Hc0; lia|].
  change (Z.to_nat (32 / 8)) with 4%nat in *. rewrite drop_ge, app_nil_r in Ec by (unfold zlen in Hc0; lia).
  rewrite Ec. cbn [mbind outcome_bind]. rewrite take_app_le, take_ge by (unfold zlen in *; lia).
  replace (drop (Z.to_nat j) ((p1 ++ [h]) ++ c0 ++ na ++ nd)) with (na ++ nd)
    by (rewrite app_assoc, drop_app_length'; [done|rewrite length_app; unfold zlen in *; lia]).
  change (byte (Z.shiftl ratGobVersion 1)) with 2. change (Z.lor 2 1) with 3. set (b := if neg (num x) then 3 else 2).
  rewrite <- app_assoc. cbn [app]. rewrite set_idx_app by lia. cbn [mbind outcome_bind].
  rewrite slice_right by (done || lia). go_ret.
  exists (b :: c ++ na ++ nd). split_and!; [done| |].
  - exists c, na, nd. split_and!; try done. intros rest. rewrite Hget, wrap_small; [by rewrite Hlna|lia].
  - rewrite zlen_cons, !zlen_app, Hlna. unfold nd. rewrite zlen_drop. unfold zlen at 1. rewrite Hlc. lia.
Qed.

Lemma Rat_GobDecode_spec z x buf : words (abs (num z)) -> words (den z) -> Rat_wf x -> gob_layout x buf -> zlen buf < 2 ^ 31 ->
  Rat_GobDecode z buf = Done (x, None).
Proof.
  intros Hzn Hzd Hx (c & na & nd & -> & Hlc & Hget & Hbna & Hvna & Hbnd & Hvnd) Hlen. unfold Rat_GobDecode.
  set (b := if neg (num x) then 3 else 2) in *. cbn [length Nat.eqb].
  change (idx (b :: c ++ na ++ nd) 0) with (Done b). cbn [mbind outcome_bind].
  assert (Eb : Z.shiftr b 1 = ratGobVersion /\ negb (Z.land b 1 =? 0) = neg (num x)) by (unfold b; by destruct (neg (num x))).
  destruct Eb as [-> Eneg]. change (ratGobVersion =? ratGobVersion) with true. cbn [negb].
  rewrite zlen_cons, !zlen_app in Hlen. pose proof (zlen_nonneg na). pose proof (zlen_nonneg nd).
  assert (Hc : zlen c = 4) by (unfold zlen; lia).
  change (b :: c ++ na ++ nd) with ([b] ++ c ++ (na ++ nd)).
  rewrite (slice_between [b] c (na ++ nd)) by (rewrite ?Hc; done). cbn [mbind outcome_bind].
  pose proof (Hget []) as Hg. rewrite app_nil_r in Hg. rewrite Hg. cbn [mbind outcome_bind].
  rewrite wrap_small by lia. replace ([b] ++ c ++ na ++ nd) with (([b] ++ c) ++ na ++ nd) by (by rewrite <- app_assoc).
  assert (H5 : zlen ([b] ++ c) = 5) by (rewrite zlen_app, Hc; done).
  rewrite (slice_between ([b] ++ c) na nd 5) by lia. cbn [mbind outcome_bind].
  destruct (nat_setBytes_spec (abs (num z)) na Hzn Hbna) as (a & -> & Ha). cbn [mbind outcome_bind].
  rewrite app_assoc, slice_right by (done || (rewrite zlen_app; lia)). cbn [mbind outcome_bind].
  destruct (nat_setBytes_spec (den z) nd Hzd Hbnd) as (d & -> & Hd). cbn [mbind outcome_bind].
  rewrite Hvna in Ha. rewrite Hvnd in Hd. destruct Hx as ((Nx & _) & Dx & _ & _).
  rewrite (nat_is_inj _ _ _ Ha (nat_is_val _ Nx)), (nat_is_inj _ _ _ Hd (nat_is_val _ Dx)).
  rewrite Eneg. by destruct x as [[n a'] d'].
Qed.

End Specs.

(** * Properties *)

(** C14. Rational arithmetic refines the rationals: on operands in lowest terms
    every operation returns the representation in lowest terms of the exact
    result, [Cmp] is the order of the rationals, and [Quo] panics exactly for a
    zero divisor. *)
Theorem Rat_arith_correct `{HA : Arith} {HL : ArithLaws HA} za zb x y :
  words za -> words zb -> Rat_wf x -> Rat_wf y ->
  returns (Rat_Add za zb x y) (Rat_is (ratval x + ratval y)%Q) /\
  returns (Rat_Sub za zb x y) (Rat_is (ratval x - ratval y)%Q) /\
  returns (Rat_Mul za zb x y) (Rat_is (ratval x * ratval y)%Q) /\
  (if Qeq_bool (ratval y) 0 then Rat_Quo x y = Panic
   else returns (Rat_Quo x y) (Rat_is (ratval x / ratval y)%Q)) /\
  returns (Rat_Neg za zb x) (Rat_is (- ratval x)%Q) /\
  returns (Rat_Abs za zb x) (Rat_is (Qabs (ratval x))) /\
  Rat_Cmp x y = Done (match (ratval x ?= ratval y)%Q with Lt => -1 | Eq => 0 | Gt => 1 end).
Proof.
  intros Hza Hzb Hx Hy. pose proof (Rat_Add_spec za zb x y Hzb Hx Hy). pose proof (Rat_Sub_spec za zb x y Hzb Hx Hy).
  pose proof (Rat_Mul_spec za zb x y Hza Hzb Hx Hy). pose proof (Rat_Neg_spec za zb x Hx). pose proof (Rat_Abs_spec za zb x Hx).
  pose proof (Rat_Cmp_spec x y Hx Hy). split_and!; auto.
  destruct (Qeq_bool (ratval y) 0) eqn:E.
  - apply Qeq_bool_eq in E. unfold ratval, Qeq in E. simpl in E. rewrite Z.mul_1_r in E.
    unfold Rat_Quo. rewrite (ival_zero (num y)) by (done || apply Hy). done.
  - apply Rat_Quo_spec; [done|done|]. intros E0. apply Qeq_bool_neq in E. apply E. unfold ratval, Qeq. simpl. lia.
Qed.

Lemma Rat_arith_correct_witness :
  let x := {| num := {| neg := true; abs := [2] |}; den := [3] |} in
  let y := {| num := {| neg := false; abs := [1] |}; den := [6] |} in
  returns (Rat_Add [] [] x y) (Rat_is (-1 # 2)%Q).
Proof.
  cbv zeta. eapply returns_mono; [refine (proj1 (Rat_arith_correct [] []
    {| num := {| neg := true; abs := [2] |}; den := [3] |} {| num := {| neg := false; abs := [1] |}; den := [6] |} _ _ _ _))|].
  - normal_concrete.
  - normal_concrete.
  - split_and!; try done; try lia; split; normal_concrete.
  - split_and!; try done; try lia; split; normal_concrete.
  - intros r Hr. eapply Rat_is_eq; [exact Hr|]. reflexivity.
Defined.

(** C32. [SetString] reads back what [String] prints, and it also accepts the
    fraction with any text after it that does not start with a digit: what
    follows the denominator is ignored. *)
Theorem Rat_String_SetString `{HA : Arith} {HL : ArithLaws HA} z x rest :
  Rat_wf x -> (forall c l, rest = c :: l -> ~ is_digit 10 c) ->
  exists s, Rat_String x = Done s /\ Rat_SetString z (s ++ rest) = Done (x, true).
Proof. apply Rat_String_SetString_spec. Qed.

Lemma Rat_String_SetString_witness :
  let x := {| num := {| neg := true; abs := [2] |}; den := [3] |} in
  exists s, Rat_String x = Done s /\ Rat_SetString x (s ++ [120; 121]) = Done (x, true).
Proof.
  apply (Rat_String_SetString {| num := {| neg := true; abs := [2] |}; den := [3] |}
    {| num := {| neg := true; abs := [2] |}; den := [3] |} [120; 121]).
  - split_and!; try done; try lia; split; normal_concrete.
  - intros c l [= <- _]. unfold is_digit. by vm_compute.
Defined.

(** [SetString] of a decimal text: a sign, digits with a point anywhere among
    them, and an optional exponent give the exact value
    [digits * 10^(exponent - places)] in lowest terms. *)
Theorem Rat_SetString_decimal `{HA : Arith} {HL : ArithLaws HA} z (sg : bool) ip fp e et :
  Forall (is_digit 10) ip -> Forall (is_digit 10) fp -> ip ++ fp <> [] -> zlen fp < 2 ^ 63 -> exponent_text e et ->
  let v := digits_val 10 (map hexValue (ip ++ fp)) in
  returns (Rat_SetString z (decimal_text sg ip fp et)) (fun '(r, ok) =>
    ok = true /\ Rat_is (scaled (if sg then - v else v) (exponent e - zlen fp)) r).
Proof. apply Rat_SetString_decimal_spec. Qed.

Lemma Rat_SetString_decimal_witness :
  let z := {| num := Int_zero; den := [] |} in
  returns (Rat_SetString z (decimal_text true [49; 50] [53] (Some [45; 50]))) (fun '(r, ok) =>
    ok = true /\ Rat_is (-125 # 1000)%Q r).
Proof.
  apply (Rat_SetString_decimal {| num := Int_zero; den := [] |} true [49; 50] [53]
    (Some {| neg := true; abs := [2] |}) (Some [45; 50])).
  - repeat constructor.
  - repeat constructor.
  - done.
  - done.
  - split; [split; [split; normal_concrete|done]|by vm_compute].
Defined.

(** [FloatString] prints the number rounded to [prec] decimal places, halves
    away from zero: the digits before and after the point are those of
    [|x| * 10^prec] rounded, there are exactly [prec] of them after the point,
    and the padding never asks for a negative number of zeros. *)
Theorem FloatString_correct `{HA : Arith} {HL : ArithLaws HA} x prec :
  Rat_wf x -> prec < 2 ^ 63 -> returns (Rat_FloatString x prec) (float_text x prec).
Proof. apply Rat_FloatString_spec. Qed.

Lemma FloatString_correct_witness :
  let x := {| num := {| neg := true; abs := [2] |}; den := [3] |} in
  returns (Rat_FloatString x 3) (float_text x 3).
Proof.
  apply (FloatString_correct {| num := {| neg := true; abs := [2] |}; den := [3] |} 3); [|lia].
  split_and!; try done; try lia; split; normal_concrete.
Defined.

(** Gob round trip for rationals, with numbers whose encoding is shorter than
    [2^31] bytes. *)
Theorem Rat_Gob_roundtrip z x :
  words (abs (num z)) -> words (den z) -> Rat_wf x -> 5 + 8 * zlen (abs (num x)) + 8 * zlen (den x) < 2 ^ 31 ->
  exists buf, Rat_GobEncode x = Done (Some buf) /\ Rat_GobDecode z buf = Done (x, None).
Proof.
  intros Hzn Hzd Hx Hlen. pose proof (zlen_nonneg (den x)).
  destruct (Rat_GobEncode_spec x) as (r & -> & buf & -> & Hl & Hb); [apply Hx|apply Hx|lia|].
  exists buf. split; [done|]. apply Rat_GobDecode_spec; try done. lia.
Qed.

Lemma Rat_Gob_roundtrip_witness :
  let x := {| num := {| neg := true; abs := [3; 7] |}; den := [3] |} in
  exists buf, Rat_GobEncode x = Done (Some buf) /\ Rat_GobDecode x buf = Done (x, None).
Proof.
  apply (Rat_Gob_roundtrip {| num := {| neg := true; abs := [3; 7] |}; den := [3] |}
    {| num := {| neg := true; abs := [3; 7] |}; den := [3] |}).
  - normal_concrete.
  - normal_concrete.
  - split_and!; try done; try lia; split; normal_concrete.
  - done.
Defined.
