(* ===== verification/CList.v ===== *)
(** The circular doubly linked lists of the ucore kernel
    (src/ucore/src/supervisor/libs/list.h, the same file as
    src/ucore/src/kern-ucore/glue-ucore/libs/list.h).

    A list is a ring of entries through its head; the entries are fields of the
    structures that are in the list.  The heap maps the address of each entry to
    its two pointers, for addresses of any countable type.  An access to an address
    that holds no entry is a [Panic]. *)

From S2P Require Import Prelude.
From stdpp Require Import list gmap.

(** * Code *)

Section Code.
Context {K : Type} `{Countable K}.

Record list_entry := MkEntry { prev : K; next : K }.

Abbreviation lheap := (gmap K list_entry) (only parsing).

Definition list_load (p : K) (h : lheap) : outcome list_entry := of_option (h !! p).
Definition set_next (p v : K) (h : lheap) : outcome lheap := e ← list_load p h; Done (<[p := MkEntry (prev e) v]> h).
Definition set_prev (p v : K) (h : lheap) : outcome lheap := e ← list_load p h; Done (<[p := MkEntry v (next e)]> h).

Definition list_next (listelm : K) (h : lheap) : outcome K := e ← list_load listelm h; Done (next e).
Definition list_prev (listelm : K) (h : lheap) : outcome K := e ← list_load listelm h; Done (prev e).

Definition list_init (elm : K) (h : lheap) : outcome lheap :=
  h ← set_next elm elm h;
  set_prev elm elm h.

Definition __list_add (elm prev next : K) (h : lheap) : outcome lheap :=
  h ← set_prev next elm h;
  h ← set_next prev elm h;
  h ← set_next elm next h;
  set_prev elm prev h.

Definition __list_del (prev next : K) (h : lheap) : outcome lheap :=
  h ← set_next prev next h;
  set_prev next prev h.

Definition list_add_before (listelm elm : K) (h : lheap) : outcome lheap :=
  p ← list_prev listelm h;
  __list_add elm p listelm h.

Definition list_add_after (listelm elm : K) (h : lheap) : outcome lheap :=
  n ← list_next listelm h;
  __list_add elm listelm n h.

Definition list_add (listelm elm : K) (h : lheap) : outcome lheap := list_add_after listelm elm h.

Definition list_del (listelm : K) (h : lheap) : outcome lheap :=
  p ← list_prev listelm h;
  n ← list_next listelm h;
  __list_del p n h.

Definition list_del_init (listelm : K) (h : lheap) : outcome lheap :=
  h ← list_del listelm h;
  list_init listelm h.

Definition list_empty (list : K) (h : lheap) : outcome bool :=
  n ← list_next list h;
  Done (bool_decide (n = list)).
End Code.
Arguments list_entry : clear implicits.

(** * Rings *)

Section Rings.
Context {K : Type} `{Countable K}.
Implicit Types (h : gmap K (list_entry K)) (l : list K).

Definition nxt h (x y : K) : Prop := next <$> h !! x = Some y.
Definition prv h (x y : K) : Prop := prev <$> h !! x = Some y.

(** From [x] through [l] to [y], in both directions. *)
Fixpoint chain h (x : K) l (y : K) : Prop :=
  match l with
  | [] => nxt h x y /\ prv h y x
  | b :: l => nxt h x b /\ prv h b x /\ chain h b l y
  end.

(** The list with the head [a] holds the entries [l]. *)
Definition ring h (a : K) l : Prop := chain h a l a /\ NoDup (a :: l).

(** What an operation leaves alone: the entries outside [l], and which addresses hold
    an entry. *)
Definition frame h h' l : Prop := dom h' = dom h /\ forall z, z ∉ l -> h' !! z = h !! z.

Lemma chain_app h x l1 b l2 y : chain h x (l1 ++ b :: l2) y <-> chain h x l1 b /\ chain h b l2 y.
Proof. revert x. induction l1 as [|c l1 IH]; intros x; cbn [chain app]; [tauto|]. rewrite IH. tauto. Qed.

(** Only the next fields of [x :: l] and the prev fields of [l ++ [y]] matter. *)
Lemma chain_agree h h' x l y : (forall z, z ∈ x :: l -> next <$> h' !! z = next <$> h !! z) ->
  (forall z, z ∈ l ++ [y] -> prev <$> h' !! z = prev <$> h !! z) -> chain h x l y -> chain h' x l y.
Proof.
  revert x. induction l as [|b l IH]; intros x Hn Hp; cbn [chain app] in *; unfold nxt, prv in *.
  - rewrite (Hn x), (Hp y) by left. done.
  - rewrite (Hn x), (Hp b) by left. intros (? & ? & ?). split_and!; [done..|]. apply IH; [intros z Hz; apply Hn; by right|intros z Hz; apply Hp; by right|done].
Qed.

(** Any entry of a ring can be taken for its head. *)
Lemma ring_rotate h a l1 b l2 : ring h a (l1 ++ b :: l2) <-> ring h b (l2 ++ a :: l1).
Proof.
  unfold ring. rewrite !chain_app. replace (a :: l1 ++ b :: l2) with ((a :: l1) ++ (b :: l2)) by done.
  replace (b :: l2 ++ a :: l1) with ((b :: l2) ++ (a :: l1)) by done.
  rewrite (Permutation_app_comm (a :: l1) (b :: l2)). tauto.
Qed.

Lemma ring_frame h h' a l l' : frame h h' l' -> (forall z, z ∈ a :: l -> z ∉ l') -> ring h a l -> ring h' a l.
Proof.
  intros [_ Hf] Hd [Hc Hn]. split; [|done]. refine (chain_agree h h' a l a _ _ Hc); intros z Hz; rewrite Hf; try done; apply Hd; [done|].
  apply elem_of_app in Hz. rewrite list_elem_of_singleton in Hz. rewrite elem_of_cons. tauto.
Qed.

Lemma frame_trans h1 h2 h3 l : frame h1 h2 l -> frame h2 h3 l -> frame h1 h3 l.
Proof. intros [? Hf] [? Hg]. split; [congruence|]. intros z Hz. rewrite Hg, Hf; done. Qed.

Lemma frame_weaken h h' l l' : frame h h' l -> (forall z, z ∈ l -> z ∈ l') -> frame h h' l'.
Proof. intros [? Hf] Hs. split; [done|]. intros z Hz. apply Hf. auto. Qed.

Lemma frame_some h h' l z : frame h h' l -> is_Some (h' !! z) <-> is_Some (h !! z).
Proof. intros [Hd _]. rewrite <- !elem_of_dom. by rewrite Hd. Qed.

(** Fields after one write. *)
Lemma set_next_spec p v h : is_Some (h !! p) -> exists h', set_next p v h = Done h' /\ frame h h' [p] /\
  (forall z, prev <$> h' !! z = prev <$> h !! z) /\ nxt h' p v.
Proof.
  intros [e He]. eexists. unfold set_next, list_load. rewrite He. split; [reflexivity|]. unfold frame, nxt. split_and!.
  - rewrite dom_insert_lookup_L; [done|by eexists].
  - intros z Hz. rewrite list_elem_of_singleton in Hz. by rewrite lookup_insert_ne by done.
  - intros z. destruct (decide (z = p)) as [->|Hz]; [by rewrite lookup_insert_eq, He|by rewrite lookup_insert_ne by done].
  - by rewrite lookup_insert_eq.
Qed.

Lemma set_prev_spec p v h : is_Some (h !! p) -> exists h', set_prev p v h = Done h' /\ frame h h' [p] /\
  (forall z, next <$> h' !! z = next <$> h !! z) /\ prv h' p v.
Proof.
  intros [e He]. eexists. unfold set_prev, list_load. rewrite He. split; [reflexivity|]. unfold frame, prv. split_and!.
  - rewrite dom_insert_lookup_L; [done|by eexists].
  - intros z Hz. rewrite list_elem_of_singleton in Hz. by rewrite lookup_insert_ne by done.
  - intros z. destruct (decide (z = p)) as [->|Hz]; [by rewrite lookup_insert_eq, He|by rewrite lookup_insert_ne by done].
  - by rewrite lookup_insert_eq.
Qed.

Lemma nxt_some h x y : nxt h x y -> is_Some (h !! x).
Proof. unfold nxt. destruct (h !! x); [by eexists|done]. Qed.

Lemma prv_some h x y : prv h x y -> is_Some (h !! x).
Proof. unfold prv. destruct (h !! x); [by eexists|done]. Qed.

Lemma list_next_eq h x y : nxt h x y -> list_next x h = Done y.
Proof. unfold nxt, list_next, list_load. destruct (h !! x); [|done]. cbn. congruence. Qed.

Lemma list_prev_eq h x y : prv h x y -> list_prev x h = Done y.
Proof. unfold prv, list_prev, list_load. destruct (h !! x); [|done]. cbn. congruence. Qed.

(** The first entry of a ring, or the head when it is empty. *)
Lemma ring_next h a l : ring h a l -> nxt h a (default a (head l)).
Proof. intros [Hc _]. destruct l; cbn in *; tauto. Qed.

Lemma ring_next_in h a l1 b l2 : ring h a (l1 ++ b :: l2) -> nxt h b (default a (head l2)).
Proof. intros Hr. rewrite ring_rotate in Hr. apply ring_next in Hr. by destruct l2. Qed.

Lemma chain_first h x l y : chain h x l y -> nxt h x (default y (head l)).
Proof. destruct l; cbn; tauto. Qed.

Lemma chain_last h x l y : chain h x l y -> prv h y (default x (last l)).
Proof. revert x. induction l as [|b l IH]; intros x; cbn [chain]; [tauto|]. intros (_ & _ & Hc%IH). rewrite last_cons. by destruct (last l). Qed.

(** The two neighbours at any place of a ring. *)
Lemma ring_at h a l1 l2 : ring h a (l1 ++ l2) -> nxt h (default a (last l1)) (default a (head l2)) /\ prv h (default a (head l2)) (default a (last l1)).
Proof.
  intros [Hc _]. destruct l2 as [|b l2]; cbn [head default from_option].
  - rewrite app_nil_r in Hc. split; [|by apply chain_last]. destruct l1 as [|p l1 _] using rev_ind; [apply Hc|]. rewrite last_snoc. by apply chain_app in Hc as [_ [Hc _]].
  - apply chain_app in Hc as [Hc1 Hc2]. split; [|by apply chain_last]. destruct l1 as [|p l1 _] using rev_ind; [by apply chain_first in Hc1|]. rewrite last_snoc.
    by apply chain_app in Hc1 as [_ [Hc1 _]].
Qed.

Lemma ring_some h a l z : ring h a l -> z ∈ a :: l -> is_Some (h !! z).
Proof.
  intros Hr. rewrite elem_of_cons. intros [-> |Hz]; [eapply nxt_some; by apply (ring_next h a l)|].
  apply list_elem_of_split in Hz as (l1 & l2 & ->). eapply nxt_some. by apply (ring_next_in h a l1 z l2).
Qed.

(** A ring is no longer than the heap. *)
Lemma ring_size h a l : ring h a l -> (length l < size h)%nat.
Proof.
  intros Hr. pose proof Hr as [_ Hnd]. rewrite <- (size_dom h). enough (length (a :: l) <= size (dom h))%nat by (cbn [length] in *; lia).
  rewrite <- (size_list_to_set (C := gset K) _ Hnd). apply subseteq_size.
  intros z Hz%elem_of_list_to_set. apply elem_of_dom. by eapply ring_some.
Qed.

Lemma ring_empty h a l : ring h a l -> list_empty a h = Done (bool_decide (l = [])).
Proof.
  intros Hr. unfold list_empty. rewrite (list_next_eq _ _ _ (ring_next h a l Hr)). cbn. f_equal. apply bool_decide_ext. destruct l as [|b l]; cbn; [done|].
  split; [|done]. intros ->. destruct Hr as [_ Hn]. apply NoDup_cons in Hn. destruct Hn as [Hn _]. destruct Hn. left.
Qed.

Lemma ring_init h a : is_Some (h !! a) -> exists h', list_init a h = Done h' /\ ring h' a [] /\ frame h h' [a].
Proof.
  intros Ha. unfold list_init. destruct (set_next_spec a a h Ha) as (h1 & -> & Hf1 & Hp1 & Hn1). cbn [mbind outcome_bind].
  destruct (set_prev_spec a a h1 (nxt_some _ _ _ Hn1)) as (h2 & -> & Hf2 & Hn2 & Hp2). exists h2. split_and!; [done| |by apply (frame_trans h h1)].
  split; [|apply NoDup_singleton]. cbn. unfold nxt in *. by rewrite Hn2.
Qed.

Lemma __list_add_spec elm p n h : is_Some (h !! elm) -> is_Some (h !! p) -> is_Some (h !! n) -> elm <> p -> elm <> n ->
  exists h', __list_add elm p n h = Done h' /\ frame h h' [elm; p; n] /\
    (nxt h' p elm /\ nxt h' elm n /\ prv h' n elm /\ prv h' elm p) /\
    (forall z, z <> p -> z <> elm -> next <$> h' !! z = next <$> h !! z) /\ (forall z, z <> n -> z <> elm -> prev <$> h' !! z = prev <$> h !! z).
Proof.
  intros He Hp Hn Hep Hen. unfold __list_add.
  destruct (set_prev_spec n elm h Hn) as (h1 & -> & Hf1 & Hn1 & Hp1). cbn [mbind outcome_bind].
  destruct (set_next_spec p elm h1) as (h2 & -> & Hf2 & Hp2 & Hn2); [by rewrite (frame_some _ _ _ _ Hf1)|]. cbn [mbind outcome_bind].
  destruct (set_next_spec elm n h2) as (h3 & -> & Hf3 & Hp3 & Hn3); [by rewrite (frame_some _ _ _ _ Hf2), (frame_some _ _ _ _ Hf1)|]. cbn [mbind outcome_bind].
  destruct (set_prev_spec elm p h3) as (h4 & -> & Hf4 & Hn4 & Hp4); [apply (nxt_some _ _ _ Hn3)|].
  exists h4. split; [done|]. split.
  { eapply frame_trans; [|eapply frame_trans; [|eapply frame_trans]]; (eapply frame_weaken; [eassumption|]); intros z; rewrite !elem_of_cons; tauto. }
  destruct Hf1 as [_ Hf1], Hf2 as [_ Hf2], Hf3 as [_ Hf3], Hf4 as [_ Hf4]. split; [split_and!|split].
  - unfold nxt. rewrite Hn4, Hf3 by (rewrite list_elem_of_singleton; congruence). exact Hn2.
  - unfold nxt. rewrite Hn4. exact Hn3.
  - unfold prv. rewrite Hf4, Hp3, Hp2 by (rewrite list_elem_of_singleton; congruence). exact Hp1.
  - exact Hp4.
  - intros z Hz1 Hz2. by rewrite Hn4, Hf3, Hf2, Hn1 by (rewrite list_elem_of_singleton; congruence).
  - intros z Hz1 Hz2. by rewrite Hf4, Hp3, Hp2, Hf1 by (rewrite list_elem_of_singleton; congruence).
Qed.

Lemma __list_del_spec p n h : is_Some (h !! p) -> is_Some (h !! n) ->
  exists h', __list_del p n h = Done h' /\ frame h h' [p; n] /\ (nxt h' p n /\ prv h' n p) /\
    (forall z, z <> p -> next <$> h' !! z = next <$> h !! z) /\ (forall z, z <> n -> prev <$> h' !! z = prev <$> h !! z).
Proof.
  intros Hp Hn. unfold __list_del.
  destruct (set_next_spec p n h Hp) as (h1 & -> & Hf1 & Hp1 & Hn1). cbn [mbind outcome_bind].
  destruct (set_prev_spec n p h1) as (h2 & -> & Hf2 & Hn2 & Hp2); [by rewrite (frame_some _ _ _ _ Hf1)|].
  exists h2. split; [done|]. split; [eapply frame_trans; (eapply frame_weaken; [eassumption|]); intros z; rewrite !elem_of_cons; tauto|].
  destruct Hf1 as [_ Hf1], Hf2 as [_ Hf2]. split; [split|split].
  - unfold nxt. rewrite Hn2. exact Hn1.
  - exact Hp2.
  - intros z Hz. by rewrite Hn2, Hf1 by (rewrite list_elem_of_singleton; congruence).
  - intros z Hz. by rewrite Hf2, Hp1 by (rewrite list_elem_of_singleton; congruence).
Qed.

(** list_add_after and list_del next to the head of a ring; rotation gives the rest. *)
Lemma ring_add_head h a l elm : ring h a l -> elm ∉ a :: l -> is_Some (h !! elm) ->
  exists h', list_add_after a elm h = Done h' /\ ring h' a (elm :: l) /\ frame h h' (elm :: a :: l).
Proof.
  intros Hr Hne He. pose proof (ring_next h a l Hr) as Hnx. unfold list_add_after. rewrite (list_next_eq _ _ _ Hnx). cbn [mbind outcome_bind].
  set (n := default a (head l)) in *. assert (Hn : n ∈ a :: l) by (unfold n; destruct l; cbn; rewrite !elem_of_cons; tauto).
  destruct (__list_add_spec elm a n h) as (h' & -> & Hf & (H1 & H2 & H3 & H4) & Hnx' & Hpv');
    [done|apply (ring_some h a l); [done|left]|by apply (ring_some h a l)|intros ->; destruct Hne; left|by intros ->|].
  exists h'. split; [done|]. split; [|eapply frame_weaken; [exact Hf|]; intros z; rewrite !elem_of_cons, elem_of_nil; intros [->|[->|[->|[]]]]; rewrite elem_of_cons in Hn; tauto].
  destruct Hr as [Hc Hnd]. split; [|rewrite (Permutation_swap elm a l); by apply NoDup_cons].
  cbn [chain]. split; [done|]. split; [done|]. destruct l as [|b l]; cbn [chain default head from_option] in *; [done|]. split; [done|]. split; [done|].
  destruct Hc as (_ & _ & Hc). apply NoDup_cons in Hnd as [Ha Hnd]. apply NoDup_cons in Hnd as [Hb Hnd].
  refine (chain_agree h h' b l a _ _ Hc); intros z Hz.
  - apply Hnx'; intros ->; [done|]. apply Hne. by right.
  - apply elem_of_app in Hz. rewrite list_elem_of_singleton in Hz. apply Hpv'; intros ->.
    + destruct Hz as [Hz|Hz]; [done|]. apply Ha. rewrite <- Hz. left.
    + apply Hne. rewrite !elem_of_cons. tauto.
Qed.

Lemma ring_del_head h a b l : ring h a (b :: l) ->
  exists h', list_del b h = Done h' /\ ring h' a l /\ frame h h' (a :: l).
Proof.
  intros Hr. pose proof (ring_next_in h a [] b l Hr) as Hnx. pose proof Hr as [(_ & Hpv & Hc) Hnd].
  unfold list_del. rewrite (list_prev_eq _ _ _ Hpv), (list_next_eq _ _ _ Hnx). cbn [mbind outcome_bind].
  set (n := default a (head l)) in *. assert (Hn : n ∈ a :: l) by (unfold n; destruct l; cbn; rewrite !elem_of_cons; tauto).
  destruct (__list_del_spec a n h) as (h' & -> & Hf & (H1 & H2) & Hnx' & Hpv');
    [apply (ring_some h a (b :: l)); [done|left]|apply (ring_some h a (b :: l)); [done|rewrite !elem_of_cons in *; tauto]|].
  exists h'. split; [done|]. split; [|eapply frame_weaken; [exact Hf|]; intros z; rewrite !elem_of_cons, elem_of_nil; intros [->|[->|[]]]; rewrite elem_of_cons in Hn; tauto].
  apply NoDup_cons in Hnd as [Ha Hnd]. apply NoDup_cons in Hnd as [Hb Hnd]. rewrite elem_of_cons in Ha.
  split; [|apply NoDup_cons; split; [tauto|done]]. destruct l as [|c l]; cbn [chain default head from_option] in *; [done|]. split; [done|]. split; [done|].
  destruct Hc as (_ & _ & Hc). apply NoDup_cons in Hnd as [Hc' Hnd].
  refine (chain_agree h h' c l a _ _ Hc); intros z Hz.
  - apply Hnx'. intros ->. tauto.
  - apply elem_of_app in Hz. rewrite list_elem_of_singleton in Hz. apply Hpv'; intros ->. destruct Hz as [Hz|Hz]; [done|]. apply Ha. rewrite <- Hz. right. left.
Qed.

(** * Operations on rings *)

(** list_add puts the entry first. *)
Lemma ring_add h a l elm : ring h a l -> elm ∉ a :: l -> is_Some (h !! elm) ->
  exists h', list_add a elm h = Done h' /\ ring h' a (elm :: l) /\ frame h h' (elm :: a :: l).
Proof. apply ring_add_head. Qed.

(** list_add_after next to an entry of the list. *)
Lemma ring_add_after h a l1 p l2 elm : ring h a (l1 ++ p :: l2) -> elm ∉ a :: l1 ++ p :: l2 -> is_Some (h !! elm) ->
  exists h', list_add_after p elm h = Done h' /\ ring h' a (l1 ++ p :: elm :: l2) /\ frame h h' (elm :: a :: l1 ++ p :: l2).
Proof.
  intros Hr Hne He. apply ring_rotate in Hr. destruct (ring_add_head h p _ elm Hr) as (h' & -> & Hr' & Hf); [|done|].
  { intros Hin. apply Hne. rewrite !elem_of_cons, !elem_of_app, !elem_of_cons in *. tauto. }
  exists h'. split; [done|]. split; [by apply (ring_rotate h' a l1 p (elm :: l2))|]. eapply frame_weaken; [exact Hf|]. intros z.
  rewrite !elem_of_cons, !elem_of_app, !elem_of_cons. tauto.
Qed.

Lemma ring_add_at h a l1 l2 elm : ring h a (l1 ++ l2) -> elm ∉ a :: l1 ++ l2 -> is_Some (h !! elm) ->
  exists h', list_add_after (default a (last l1)) elm h = Done h' /\ ring h' a (l1 ++ elm :: l2) /\ frame h h' (elm :: a :: l1 ++ l2).
Proof.
  destruct l1 as [|p l1 _] using rev_ind; [apply ring_add_head|]. rewrite last_snoc, <- !app_assoc. apply ring_add_after.
Qed.

(** list_del takes out the entry, wherever it is. *)
Lemma ring_del h a l1 b l2 : ring h a (l1 ++ b :: l2) ->
  exists h', list_del b h = Done h' /\ ring h' a (l1 ++ l2) /\ frame h h' (a :: l1 ++ l2).
Proof.
  destruct l1 as [|p l1 _] using rev_ind; [apply ring_del_head|]. rewrite <- !app_assoc. cbn [app]. intros Hr. apply ring_rotate in Hr.
  destruct (ring_del_head h p b _ Hr) as (h' & -> & Hr' & Hf). exists h'. split; [done|]. split; [by apply ring_rotate|].
  eapply frame_weaken; [exact Hf|]. intros z. rewrite !elem_of_cons, !elem_of_app, !elem_of_cons. tauto.
Qed.
End Rings.
