(* ===== verification/Buddy.v ===== *)
(** The buddy allocator of the ucore kernel: the code
    (src/ucore/src/supervisor/mm/buddy_pmm.c; the copies of the other
    architectures differ in MAX_ORDER only).

    A [struct Page *] is the index of the page in the array pages; the free lists
    are rings of the list entries of the pages (CList.v).  Counters are 32 bits
    wide.  A failed [assert], a [panic] and an access outside the arrays are a
    [Panic]. *)

From S2P Require Import Prelude CList.
From stdpp Require Import list gmap.
#[local] Open Scope Z_scope.

(** * State *)

(** Addresses of list entries: [&free_list(x)] and [&(p->page_link)]. *)
Inductive loc := Head (x : Z) | Link (p : Z).

#[export] Instance loc_eq_dec : EqDecision loc.
Proof. solve_decision. Defined.

#[export] Instance loc_countable : Countable loc.
Proof.
  refine (inj_countable' (fun l => match l with Head x => inl x | Link p => inr p end)
            (fun s : Z + Z => match s with inl x => Head x | inr p => Link p end) _).
  by intros [].
Defined.

Record Page := MkPage { ref : Z; flags : Z; property : Z; zone_num : Z }.

Definition PG_reserved : Z := 0.
Definition PG_property : Z := 1.
Definition PageReserved (pg : Page) : bool := Z.testbit (flags pg) PG_reserved.
Definition PageProperty (pg : Page) : bool := Z.testbit (flags pg) PG_property.
Definition SetPageProperty (pg : Page) : Page := MkPage (ref pg) (Z.setbit (flags pg) PG_property) (property pg) (zone_num pg).
Definition ClearPageProperty (pg : Page) : Page := MkPage (ref pg) (Z.clearbit (flags pg) PG_property) (property pg) (zone_num pg).
Definition with_property (k : Z) (pg : Page) : Page := MkPage (ref pg) (flags pg) k (zone_num pg).

(** The arrays pages, free_area (links and counters) and zones; zones holds the
    mem_base of the zones so far, so that the static zone_num is its length. *)
Record buddy := MkBuddy { pages : gmap Z Page; links : gmap loc (list_entry loc); nr_free : gmap Z Z; zones : list Z }.

Definition get_page (p : Z) (s : buddy) : outcome Page := of_option (pages s !! p).
Definition set_page (p : Z) (pg : Page) (s : buddy) : buddy := MkBuddy (<[p := pg]> (pages s)) (links s) (nr_free s) (zones s).
Definition upd_page (f : Page -> Page) (p : Z) (s : buddy) : outcome buddy := pg ← get_page p s; Done (set_page p (f pg) s).
Definition on_links (f : gmap loc (list_entry loc) -> outcome (gmap loc (list_entry loc))) (s : buddy) : outcome buddy :=
  h ← f (links s); Done (MkBuddy (pages s) h (nr_free s) (zones s)).
Definition set_nr (k v : Z) (s : buddy) : buddy := MkBuddy (pages s) (links s) (<[k := v]> (nr_free s)) (zones s).

(** [nr_free(k) += d], for an unsigned int. *)
Definition nr_add (k d : Z) (s : buddy) : outcome buddy := nr ← of_option (nr_free s !! k); Done (set_nr k (uint (nr + d)) s).

Definition le2page (le : loc) : outcome Z := match le with Link p => Done p | Head _ => Panic end.

Definition MAX_ZONE_NUM : Z := 10.

Section Code.
Context (MAX_ORDER npage : Z).

(** Enough for the loops on orders. *)
Definition fuel : nat := Z.to_nat (MAX_ORDER + 3).

(** * Setup *)

Definition buddy_init (s : buddy) : outcome buddy :=
  for_range (Z.to_nat (MAX_ORDER + 1)) 0 (fun i s =>
    s ← on_links (list_init (Head i)) s;
    Done (set_nr i 0 s)) s.

(** The inner loop of buddy_init_memmap: [while (n >= order_size) ...]. *)
Definition add_blocks (order order_size n p : Z) (s : buddy) : outcome (Z * Z * buddy) :=
  loop (S (Z.to_nat n)) (fun '(n, p, s) =>
    if order_size <=? n then
      s ← upd_page (with_property order) p s;
      s ← upd_page SetPageProperty p s;
      s ← on_links (list_add (Head order) (Link p)) s;
      let n := n - order_size in
      s' ← nr_add order 1 s;
      Done (inl (n, p + order_size, s'))
    else Done (inr (n, p, s))) (n, p, s).

Definition buddy_init_memmap (base n : Z) (s : buddy) : outcome buddy :=
  let zone_num := zlen (zones s) in
  _ ← assert_ (n > 0 /\ zone_num < MAX_ZONE_NUM);
  s ← for_range (Z.to_nat n) base (fun p s =>
    pg ← get_page p s;
    _ ← assert_ (PageReserved pg = true);
    Done (set_page p (MkPage 0 0 0 zone_num) s)) s;
  let s := MkBuddy (pages s) (links s) (nr_free s) (zones s ++ [base]) in
  let order := MAX_ORDER in
  let order_size := Z.shiftl 1 order in
  loop fuel (fun '(n, p, order, order_size, s) =>
    if n =? 0 then Done (inr s)
    else
      '(n, p, s) ← add_blocks order order_size n p s;
      Done (inl (n, p, uint64 (order - 1), Z.shiftr order_size 1, s))) (n, base, order, order_size, s).

(** * Allocation *)

Definition getorder (n : Z) : outcome Z :=
  loop fuel (fun '(order, order_size) =>
    if order <=? MAX_ORDER then
      if n <=? order_size then Done (inr order) else Done (inl (order + 1, Z.shiftl order_size 1))
    else Panic) (0, 1).

(** [while (cur_order > order) ...]: the upper halves go back to the free lists. *)
Definition split_block (order page cur_order size : Z) (s : buddy) : outcome buddy :=
  loop fuel (fun '(cur_order, size, s) =>
    if order <? cur_order then
      let cur_order := cur_order - 1 in
      let size := Z.shiftr size 1 in
      let buddy := page + size in
      s ← upd_page (with_property cur_order) buddy s;
      s ← upd_page SetPageProperty buddy s;
      s ← nr_add cur_order 1 s;
      s ← on_links (list_add (Head cur_order) (Link buddy)) s;
      Done (inl (cur_order, size, s))
    else Done (inr s)) (cur_order, size, s).

Definition buddy_alloc_pages_sub (order : Z) (s : buddy) : outcome (option Z * buddy) :=
  _ ← assert_ (order <= MAX_ORDER);
  loop fuel (fun cur_order =>
    if cur_order <=? MAX_ORDER then
      e ← list_empty (Head cur_order) (links s);
      if negb e then
        le ← list_next (Head cur_order) (links s);
        page ← le2page le;
        s ← nr_add cur_order (-1) s;
        s ← on_links (list_del le) s;
        let size := Z.shiftl 1 cur_order in
        s ← split_block order page cur_order size s;
        s ← upd_page ClearPageProperty page s;
        Done (inr (Some page, s))
      else Done (inl (cur_order + 1))
    else Done (inr (None, s))) order.

(** * Release *)

Definition page_is_buddy (page order zone_num_ : Z) (s : buddy) : outcome bool :=
  if page <? npage then
    pg ← get_page page s;
    if zone_num pg =? zone_num_ then Done (negb (PageReserved pg) && PageProperty pg && (property pg =? order))
    else Done false
  else Done false.

Definition idx2page (zone_num idx_ : Z) (s : buddy) : outcome Z := mem_base ← idx (zones s) zone_num; Done (mem_base + idx_).

Definition page2idx (page : Z) (s : buddy) : outcome Z :=
  pg ← get_page page s;
  mem_base ← idx (zones s) (zone_num pg);
  Done (page - mem_base).

(** [while (order < MAX_ORDER) ...]: the block is joined with its buddies. *)
Definition merge_blocks (zone_num page_idx order : Z) (s : buddy) : outcome (Z * Z * buddy) :=
  loop fuel (fun '(page_idx, order, s) =>
    if order <? MAX_ORDER then
      let buddy_idx := Z.lxor page_idx (Z.shiftl 1 order) in
      buddy ← idx2page zone_num buddy_idx s;
      b ← page_is_buddy buddy order zone_num s;
      if negb b then Done (inr (page_idx, order, s))
      else
        s ← nr_add order (-1) s;
        s ← on_links (list_del (Link buddy)) s;
        s ← upd_page ClearPageProperty buddy s;
        Done (inl (Z.land page_idx buddy_idx, order + 1, s))
    else Done (inr (page_idx, order, s))) (page_idx, order, s).

Definition buddy_free_pages_sub (base order : Z) (s : buddy) : outcome buddy :=
  page_idx ← page2idx base s;
  _ ← assert_ (Z.land page_idx (Z.shiftl 1 order - 1) = 0);
  s ← for_range (Z.to_nat (Z.shiftl 1 order)) base (fun p s =>
    pg ← get_page p s;
    _ ← assert_ (PageReserved pg = false /\ PageProperty pg = false);
    Done (set_page p (MkPage 0 0 (property pg) (zone_num pg)) s)) s;
  bpg ← get_page base s;
  '(page_idx, order, s) ← merge_blocks (zone_num bpg) page_idx order s;
  page ← idx2page (zone_num bpg) page_idx s;
  s ← upd_page (with_property order) page s;
  s ← upd_page SetPageProperty page s;
  s ← nr_add order 1 s;
  on_links (list_add (Head order) (Link page)) s.

(** The two loops of buddy_free_pages: blocks of growing order until the base is
    aligned to more than what is left, then blocks of falling order. *)
Definition free_up (base n : Z) (s : buddy) : outcome (Z * Z * Z * Z * buddy) :=
  loop fuel (fun '(base, n, order, order_size, s) =>
    if order_size <=? n then
      _ ← assert_ (order <= MAX_ORDER);
      i ← page2idx base s;
      '(base, n, s) ← (if negb (Z.land i order_size =? 0) then
                         s ← buddy_free_pages_sub base order s;
                         Done (base + order_size, n - order_size, s)
                       else Done (base, n, s));
      Done (inl (base, n, order + 1, Z.shiftl order_size 1, s))
    else Done (inr (base, n, order, order_size, s))) (base, n, 0, 1, s).

Definition free_down (base n order order_size : Z) (s : buddy) : outcome buddy :=
  loop fuel (fun '(base, n, order, order_size, s) =>
    if n =? 0 then Done (inr s)
    else
      '(order, order_size) ← loop fuel (fun '(order, order_size) =>
        if n <? order_size then Done (inl (order - 1, Z.shiftr order_size 1)) else Done (inr (order, order_size))) (order, order_size);
      s ← buddy_free_pages_sub base order s;
      Done (inl (base + order_size, n - order_size, order, order_size, s))) (base, n, order, order_size, s).

Definition buddy_free_pages (base n : Z) (s : buddy) : outcome buddy :=
  _ ← assert_ (n > 0);
  if n =? 1 then buddy_free_pages_sub base 0 s
  else
    '(base, n, order, order_size, s) ← free_up base n s;
    free_down base n order order_size s.

Definition buddy_alloc_pages (n : Z) (s : buddy) : outcome (option Z * buddy) :=
  _ ← assert_ (n > 0);
  order ← getorder n;
  let order_size := Z.shiftl 1 order in
  '(page, s) ← buddy_alloc_pages_sub order s;
  match page with
  | Some page =>
      if negb (n =? order_size) then
        s ← buddy_free_pages (page + n) (order_size - n) s;
        Done (Some page, s)
      else Done (Some page, s)
  | None => Done (None, s)
  end.

Definition buddy_nr_free_pages (s : buddy) : outcome Z :=
  for_range (Z.to_nat (MAX_ORDER + 1)) 0 (fun order ret =>
    nr ← of_option (nr_free s !! order);
    Done (uint64 (ret + uint (nr * Z.shiftl 1 order)))) 0.
End Code.
