(* ===== verification/BuddyBlocks.v ===== *)
(** The buddy allocator: sets of free blocks.

    A block map gives for the first page of each free block the order of the block.
    The lemmas say what taking, putting, splitting and joining blocks does to the
    pages that are free.  There is no code in this file. *)

From S2P Require Import Prelude.
From stdpp Require Import list gmap.
#[local] Open Scope Z_scope.

(** * Arithmetic of buddies *)

Lemma pow2_pos k : 0 <= k -> 0 < 2 ^ k.
Proof. intros. by apply Z.pow_pos_nonneg. Qed.

Lemma shiftl1 k : 0 <= k -> Z.shiftl 1 k = 2 ^ k.
Proof. intros. rewrite Z.shiftl_1_l. done. Qed.

Lemma pow2_S k : 0 <= k -> 2 ^ (k + 1) = 2 * 2 ^ k.
Proof. intros. by rewrite Z.pow_add_r by lia; lia. Qed.

Lemma divide_S k x : 0 <= k -> (2 ^ (k + 1) | x) -> (2 ^ k | x).
Proof. intros Hk [q ->]. exists (q * 2). rewrite pow2_S by done. lia. Qed.

Lemma divide_le j k x : 0 <= j <= k -> (2 ^ k | x) -> (2 ^ j | x).
Proof. intros Hj [q ->]. exists (q * 2 ^ (k - j)). rewrite <- Z.mul_assoc, <- Z.pow_add_r by lia. do 2 f_equal. lia. Qed.

(** The low bits of an aligned index, and its buddy, which is the other half of the
    next larger block. *)
Lemma land_mask x k : 0 <= k -> Z.land x (2 ^ k - 1) = 0 <-> (2 ^ k | x).
Proof. intros Hk. replace (2 ^ k - 1) with (Z.ones k) by (rewrite Z.ones_equiv; lia). rewrite Z.land_ones by done. apply Z.mod_divide. pose proof (pow2_pos k Hk). lia. Qed.

Lemma testbit_even k q : 0 <= k -> Z.testbit (2 * q * 2 ^ k) k = false.
Proof. intros Hk. replace (2 * q * 2 ^ k) with (q * 2 ^ (k + 1)) by (rewrite pow2_S by done; lia). by rewrite Z.mul_pow2_bits_low by lia. Qed.

Lemma testbit_odd k q : 0 <= k -> Z.testbit ((2 * q + 1) * 2 ^ k) k = true.
Proof. intros Hk. rewrite Z.mul_pow2_bits, Z.sub_diag by lia. apply Z.testbit_odd_0. Qed.

Lemma land_pow2 x k : 0 <= k -> Z.land x (2 ^ k) = if Z.testbit x k then 2 ^ k else 0.
Proof.
  intros Hk. apply Z.bits_inj'. intros i Hi. rewrite Z.land_spec. destruct (Z.eq_dec i k) as [->|Hik].
  - rewrite Z.pow2_bits_true, andb_true_r by done. destruct (Z.testbit x k); by rewrite ?Z.pow2_bits_true, ?Z.bits_0.
  - rewrite Z.pow2_bits_false, andb_false_r by lia. destruct (Z.testbit x k); by rewrite ?Z.pow2_bits_false, ?Z.bits_0 by lia.
Qed.

Lemma lxor_even k q : 0 <= k -> Z.lxor (2 * q * 2 ^ k) (2 ^ k) = (2 * q + 1) * 2 ^ k /\ Z.land (2 * q * 2 ^ k) ((2 * q + 1) * 2 ^ k) = 2 * q * 2 ^ k.
Proof.
  intros Hk. assert (Hl : Z.land (2 * q * 2 ^ k) (2 ^ k) = 0) by (rewrite land_pow2, testbit_even by done; done).
  assert (Hx : (2 * q + 1) * 2 ^ k = Z.lor (2 * q * 2 ^ k) (2 ^ k)) by (rewrite <- Z.lxor_lor, <- Z.add_nocarry_lxor by done; lia).
  split; [rewrite Hx; by rewrite <- Z.lxor_lor|]. rewrite Hx. apply Z.bits_inj'. intros i Hi. rewrite Z.land_spec, Z.lor_spec. by destruct (Z.testbit _ i).
Qed.

Lemma lxor_odd k q : 0 <= k -> Z.lxor ((2 * q + 1) * 2 ^ k) (2 ^ k) = 2 * q * 2 ^ k /\ Z.land ((2 * q + 1) * 2 ^ k) (2 * q * 2 ^ k) = 2 * q * 2 ^ k.
Proof.
  intros Hk. destruct (lxor_even k q Hk) as [Hx Ha]. split; [|by rewrite Z.land_comm].
  by rewrite <- Hx, Z.lxor_assoc, Z.lxor_nilpotent, Z.lxor_0_r.
Qed.

(** The buddy of the block of order [k] at the index [i]. *)
Definition bud (k i : Z) : Z := Z.lxor i (2 ^ k).

Lemma bud_cases k i : 0 <= k -> (2 ^ k | i) ->
  ((2 ^ (k + 1) | i) /\ bud k i = i + 2 ^ k /\ Z.land i (bud k i) = i) \/
  ((2 ^ (k + 1) | i - 2 ^ k) /\ bud k i = i - 2 ^ k /\ Z.land i (bud k i) = i - 2 ^ k).
Proof.
  intros Hk [q ->]. rewrite pow2_S by done. unfold bud. destruct (Z.Even_or_Odd q) as [[r ->]|[r ->]].
  - destruct (lxor_even k r Hk) as [-> ->]. left. split; [exists r; lia|]. split; lia.
  - destruct (lxor_odd k r Hk) as [-> ->]. right. split; [exists r; lia|]. split; lia.
Qed.

Lemma land_bit_aligned k i : 0 <= k -> (2 ^ k | i) ->
  (Z.land i (2 ^ k) = 0 /\ (2 ^ (k + 1) | i)) \/ (Z.land i (2 ^ k) <> 0 /\ (2 ^ (k + 1) | i + 2 ^ k)).
Proof.
  intros Hk [q ->]. pose proof (pow2_pos k Hk). rewrite pow2_S, land_pow2 by done. destruct (Z.Even_or_Odd q) as [[r ->]|[r ->]].
  - rewrite testbit_even by done. left. split; [done|]. exists r. lia.
  - rewrite testbit_odd by done. right. split; [lia|]. exists (r + 1). lia.
Qed.

(** Two aligned blocks are nested or disjoint. *)
Lemma aligned_nested j k x y z : 0 <= j <= k -> (2 ^ j | x) -> (2 ^ k | y) -> x <= z < x + 2 ^ j -> y <= z < y + 2 ^ k -> y <= x /\ x + 2 ^ j <= y + 2 ^ k.
Proof.
  intros Hj [q ->] [r ->] Hx Hy. pose proof (pow2_pos j ltac:(lia)) as Hp. replace (2 ^ k) with (2 ^ (k - j) * 2 ^ j) in * by (rewrite <- Z.pow_add_r by lia; f_equal; lia).
  set (a := 2 ^ (k - j)) in *. set (b := 2 ^ j) in *. split.
  - enough (r * a <= q) by nia. enough (r * a < q + 1) by lia. nia.
  - enough (q + 1 <= (r + 1) * a) by nia. enough (q < (r + 1) * a) by lia. nia.
Qed.

(** * Zones and blocks *)

Section Blocks.
Context (MAX : Z) (zs : list (Z * Z)).
Implicit Types (B : gmap Z Z).

(** Page [p] is in the zone number [z], which starts at the page [b]. *)
Definition in_zone (z b p : Z) : Prop := exists n, zs.[z] = Some (b, n) /\ b <= p < b + n.

(** The zones do not overlap. *)
Definition zones_apart : Prop := forall z b z' b' p, in_zone z b p -> in_zone z' b' p -> z = z'.

(** The block of order [k] at [p] lies in the zone [z], at a multiple of its size. *)
Definition placed (z b p k : Z) : Prop := 0 <= k <= MAX /\ in_zone z b p /\ in_zone z b (p + 2 ^ k - 1) /\ (2 ^ k | p - b).

Definition covers B (x : Z) : Prop := exists p k, B !! p = Some k /\ p <= x < p + 2 ^ k.

Definition apart B p k : Prop := forall x, p <= x < p + 2 ^ k -> ~ covers B x.

(** The buddy of the block, when it is in the zone, is not a free block. *)
Definition lone B z b p k : Prop := k < MAX -> in_zone z b (b + bud k (p - b)) -> B !! (b + bud k (p - b)) <> Some k.

(** Free blocks are placed, apart, and joined with their buddies. *)
Record blocks_ok B : Prop := {
  ok_placed p k : B !! p = Some k -> exists z b, placed z b p k;
  ok_apart p k : B !! p = Some k -> apart (delete p B) p k;
  ok_joined p k z b : B !! p = Some k -> in_zone z b p -> lone B z b p k }.

Lemma in_zone_base z b b' p p' : in_zone z b p -> in_zone z b' p' -> b = b'.
Proof. intros (n & Hn & _) (n' & Hn' & _). congruence. Qed.

Lemma in_zone_between z b p q x : in_zone z b p -> in_zone z b q -> p <= x <= q -> in_zone z b x.
Proof. intros (n & Hn & ?) (n' & Hn' & ?) ?. exists n. rewrite Hn in Hn'. injection Hn' as ->. split; [done|lia]. Qed.

Lemma placed_zone z b p k x : placed z b p k -> p <= x < p + 2 ^ k -> in_zone z b x.
Proof. intros (_ & H1 & H2 & _) ?. eapply in_zone_between; [exact H1|exact H2|lia]. Qed.

Lemma covers_delete B q x : covers (delete q B) x -> covers B x.
Proof. intros (p & k & [_ Hp]%lookup_delete_Some & ?). by exists p, k. Qed.

Lemma covers_start B p k : 0 <= k -> B !! p = Some k -> covers B p.
Proof. intros Hk Hp. exists p, k. split; [done|]. pose proof (pow2_pos k Hk). lia. Qed.

Lemma covers_insert B p k x : B !! p = None -> covers (<[p := k]> B) x <-> covers B x \/ p <= x < p + 2 ^ k.
Proof.
  intros Hp. split.
  - intros (q & j & [[<- <-]|[Hne Hq]]%lookup_insert_Some & Hx); [by right|]. left. by exists q, j.
  - intros [(q & j & Hq & Hx)|Hx]; [exists q, j|exists p, k]; (split; [|done]); [|by rewrite lookup_insert_eq]. rewrite lookup_insert_ne; [done|congruence].
Qed.

Lemma covers_take B p k x : B !! p = Some k -> covers B x <-> covers (delete p B) x \/ p <= x < p + 2 ^ k.
Proof. intros Hp. rewrite <- covers_insert by apply lookup_delete_eq. rewrite insert_delete_eq, insert_id; done. Qed.

Lemma apart_delete B q p k : apart B p k -> apart (delete q B) p k.
Proof. intros Ha x Hx Hc. apply (Ha x Hx). by eapply covers_delete. Qed.

Lemma apart_sub B p k p' k' : apart B p k -> p <= p' -> p' + 2 ^ k' <= p + 2 ^ k -> apart B p' k'.
Proof. intros Ha ? ? x Hx. apply Ha. lia. Qed.

(** Taking a block. *)
Lemma take_ok B p : blocks_ok B -> blocks_ok (delete p B).
Proof.
  intros [Hp Ha Hj]. split.
  - intros q j [_ Hq]%lookup_delete_Some. eauto.
  - intros q j [_ Hq]%lookup_delete_Some. rewrite delete_delete. by apply apart_delete, Ha.
  - intros q j z b [_ Hq]%lookup_delete_Some Hz Hlt Hin [_ Hb]%lookup_delete_Some. by apply (Hj q j z b).
Qed.

Lemma apart_None B p k : blocks_ok B -> 0 <= k -> apart B p k -> B !! p = None.
Proof.
  intros HB Hk Ha. destruct (B !! p) as [j|] eqn:E; [|done]. destruct (ok_placed B HB p j E) as (z & b & (? & _) & _). pose proof (pow2_pos k Hk).
  destruct (Ha p); [lia|]. eapply covers_start; [|done]. lia.
Qed.

(** Putting a block that is placed, apart from the others, and without a free buddy. *)
Lemma put_ok B z b p k : zones_apart -> blocks_ok B -> placed z b p k -> apart B p k -> lone B z b p k -> blocks_ok (<[p := k]> B).
Proof.
  intros Hza HB Hpl Hap Hlone. pose proof Hpl as (Hk & Hz & _ & Hdiv). pose proof (apart_None B p k HB ltac:(lia) Hap) as HN. split.
  - intros q j [[<- <-]|[Hne Hq]]%lookup_insert_Some; [by exists z, b|by apply (ok_placed B HB)].
  - intros q j [[<- <-]|[Hne Hq]]%lookup_insert_Some; [by rewrite delete_insert_id|].
    intros x Hx. rewrite delete_insert_ne by done. rewrite covers_insert by (by rewrite lookup_delete_ne). intros [Hc|Hc]; [by apply (ok_apart B HB q j Hq x)|].
    apply (Hap x Hc). by exists q, j.
  - intros q j z' b' [[<- <-]|[Hne Hq]]%lookup_insert_Some Hz' Hlt Hin [[He Hkj]|[Hne' Hb]]%lookup_insert_Some.
    + pose proof (pow2_pos k ltac:(lia)). pose proof (Hza _ _ _ _ _ Hz Hz') as <-. rewrite <- (in_zone_base _ _ _ _ _ Hz Hz') in *.
      destruct (bud_cases k (p - b) ltac:(lia) Hdiv) as [(_ & Hb & _)|(_ & Hb & _)]; lia.
    + pose proof (Hza _ _ _ _ _ Hz Hz') as <-. rewrite <- (in_zone_base _ _ _ _ _ Hz Hz') in *. by apply Hlone.
    + subst j. rewrite <- He in Hin. pose proof (Hza _ _ _ _ _ Hz Hin) as <-. rewrite <- (in_zone_base _ _ _ _ _ Hz Hin) in *.
      assert (Hqb : b + bud k (p - b) = q) by (rewrite He, Z.add_simpl_l; unfold bud; rewrite Z.lxor_assoc, Z.lxor_nilpotent, Z.lxor_0_r; lia).
      apply Hlone; [done|by rewrite Hqb|by rewrite Hqb].
    + by apply (ok_joined B HB q j z' b').
Qed.

(** Splitting a block that has been taken: the halves are placed and apart, and the
    buddy of the upper half is the lower half, which is not free. *)
Lemma split_ok B z b p k : 0 <= k -> blocks_ok B -> placed z b p (k + 1) -> apart B p (k + 1) ->
  placed z b p k /\ placed z b (p + 2 ^ k) k /\ apart B (p + 2 ^ k) k /\ lone B z b (p + 2 ^ k) k /\ apart (<[p + 2 ^ k := k]> B) p k.
Proof.
  intros Hk HB Hpl Hap. pose proof Hpl as (Hk' & Hz & Hz' & Hdiv). pose proof (pow2_pos k Hk) as Hp. rewrite pow2_S in Hz' by done.
  assert (Ha2 : apart B (p + 2 ^ k) k) by (eapply apart_sub; [done|lia|rewrite pow2_S by done; lia]). split_and!.
  - split_and!; [lia|lia|done|eapply in_zone_between; [exact Hz|exact Hz'|lia]|by apply divide_S].
  - split_and!; [lia|lia|eapply in_zone_between; [exact Hz|exact Hz'|lia]|by replace (p + 2 ^ k + 2 ^ k - 1) with (p + 2 * 2 ^ k - 1) by lia|].
    replace (p + 2 ^ k - b) with (p - b + 2 ^ k) by lia. apply Z.divide_add_r; [by apply divide_S|done].
  - done.
  - intros _ _. enough (b + bud k (p + 2 ^ k - b) = p) as -> by (rewrite (apart_None B p (k + 1)); [done|done|lia|done]).
    destruct Hdiv as [q Hq]. rewrite pow2_S in Hq by done. replace (p + 2 ^ k - b) with ((2 * q + 1) * 2 ^ k) by lia. unfold bud. destruct (lxor_odd k q Hk) as [-> _]. lia.
  - intros x Hx. rewrite covers_insert by (eapply apart_None; [done| |done]; done). intros [Hc|Hc]; [|lia]. apply (Hap x); [rewrite pow2_S by done; lia|done].
Qed.

(** Joining a block in hand with its free buddy. *)
Lemma join_ok B z b p k : zones_apart -> blocks_ok B -> placed z b p k -> apart B p k -> k < MAX ->
  let q := b + bud k (p - b) in let m := b + Z.land (p - b) (bud k (p - b)) in in_zone z b q -> B !! q = Some k ->
  placed z b m (k + 1) /\ apart (delete q B) m (k + 1) /\ forall x, m <= x < m + 2 ^ (k + 1) <-> p <= x < p + 2 ^ k \/ q <= x < q + 2 ^ k.
Proof.
  intros Hza HB (Hk & Hz & Hz' & Hdiv) Hap Hlt q m Hzq HBq. pose proof (pow2_pos k ltac:(lia)) as Hp. pose proof (pow2_S k ltac:(lia)) as HS.
  destruct (ok_placed B HB q k HBq) as (z2 & b2 & (_ & Hzq1 & Hzq2 & _)). pose proof (Hza _ _ _ _ _ Hzq Hzq1) as <-.
  rewrite <- (in_zone_base _ _ _ _ _ Hzq Hzq1) in *.
  assert (Hx : forall x, m <= x < m + 2 ^ (k + 1) <-> p <= x < p + 2 ^ k \/ q <= x < q + 2 ^ k).
  { intros x. unfold m, q. destruct (bud_cases k (p - b) ltac:(lia) Hdiv) as [(_ & -> & ->)|(_ & -> & ->)]; lia. }
  split; [|split; [|done]].
  - assert (Hm : in_zone z b m /\ in_zone z b (m + 2 ^ (k + 1) - 1) /\ (2 ^ (k + 1) | m - b)).
    { unfold m, q in *. destruct (bud_cases k (p - b) ltac:(lia) Hdiv) as [(Hd & Hb & ->)|(Hd & Hb & ->)]; rewrite Hb in *; split_and!.
      - by replace (b + (p - b)) with p by lia.
      - eapply in_zone_between; [exact Hz|exact Hzq2|lia].
      - by rewrite Z.add_simpl_l.
      - done.
      - eapply in_zone_between; [exact Hz|exact Hz'|lia].
      - by rewrite Z.add_simpl_l. }
    unfold placed. split; [lia|done].
  - intros x Hm Hc. apply Hx in Hm as [Hm|Hm]; [apply (Hap x Hm); by eapply covers_delete|by apply (ok_apart B HB q k HBq x)].
Qed.

(** Because buddies are joined, a free run of pages that has the place of a block is
    part of a free block. *)
Lemma full_block B z b : zones_apart -> blocks_ok B -> forall j, 0 <= j -> forall p, placed z b p j ->
  (forall x, p <= x < p + 2 ^ j -> covers B x) -> exists q k, B !! q = Some k /\ j <= k /\ q <= p /\ p + 2 ^ j <= q + 2 ^ k.
Proof.
  intros Hza HB. assert (Hnest : forall j p q k, placed z b p j -> j <= k -> B !! q = Some k -> q <= p < q + 2 ^ k -> (2 ^ k | q - b) /\ p + 2 ^ j <= q + 2 ^ k).
  { intros j p q k (Hj & Hz & _ & Hd) Hjk Hq Hp. destruct (ok_placed B HB q k Hq) as (z' & b' & Hpl). pose proof (Hza _ _ _ _ _ Hz (placed_zone _ _ _ _ _ Hpl Hp)) as <-.
    pose proof (in_zone_base _ _ _ _ _ Hz (placed_zone _ _ _ _ _ Hpl Hp)) as <-. pose proof (pow2_pos j ltac:(lia)). destruct Hpl as (_ & _ & _ & Hd'). split; [done|].
    destruct (aligned_nested j k (p - b) (q - b) (p - b)); try done; lia. }
  apply (natlike_ind (fun j => forall p, placed z b p j -> (forall x, p <= x < p + 2 ^ j -> covers B x) -> exists q k, B !! q = Some k /\ j <= k /\ q <= p /\ p + 2 ^ j <= q + 2 ^ k)).
  - intros p Hpl Hc. destruct (Hc p ltac:(lia)) as (q & k & Hq & Hx). exists q, k. destruct (ok_placed B HB q k Hq) as (? & ? & ? & _). split_and!; try done; lia.
  - intros j Hj IH p Hpl Hc. unfold Z.succ in *. pose proof (pow2_pos j Hj). pose proof (pow2_S j Hj) as HS.
    assert (Hhalf : placed z b p j /\ placed z b (p + 2 ^ j) j).
    { destruct Hpl as (Hk & Hz & Hz' & Hd). rewrite HS in Hz'. split; split_and!; try lia; try done; try (eapply in_zone_between; [exact Hz|exact Hz'|lia]); [by apply divide_S|].
      replace (p + 2 ^ j - b) with (p - b + 2 ^ j) by lia. apply Z.divide_add_r; [by apply divide_S|done]. }
    destruct Hhalf as [Hl Hr]. destruct (IH p Hl) as (q1 & k1 & Hq1 & Hk1 & Hb1 & Hb1'); [intros; apply Hc; lia|].
    destruct (IH (p + 2 ^ j) Hr) as (q2 & k2 & Hq2 & Hk2 & Hb2 & Hb2'); [intros; apply Hc; lia|].
    destruct (decide (j + 1 <= k1)); [exists q1, k1; destruct (Hnest (j + 1) p q1 k1); try done; try lia; split_and!; try done; lia|].
    replace k1 with j in * by lia. assert (q1 = p) as -> by lia. destruct (decide (j + 1 <= k2)).
    + destruct (Hnest j (p + 2 ^ j) q2 k2) as [Hd2 _]; try done; [lia|]. exists q2, k2. destruct Hpl as (Hk & Hz & Hz' & Hd).
      destruct (aligned_nested (j + 1) k2 (p - b) (q2 - b) (p - b + 2 ^ j)); try done; try lia. split_and!; try done; lia.
    + replace k2 with j in * by lia. assert (q2 = p + 2 ^ j) as -> by lia. destruct Hpl as (Hk & Hz & Hz' & Hd). exfalso.
      assert (Hb : b + bud j (p - b) = p + 2 ^ j) by (destruct Hd as [r Hr']; rewrite HS in Hr'; replace (p - b) with (2 * r * 2 ^ j) by lia; unfold bud;
        destruct (lxor_even j r Hj) as [-> _]; lia).
      apply (ok_joined B HB p j z b Hq1 Hz); [lia|by rewrite Hb; apply Hr|by rewrite Hb].
Qed.

(** * Counting free pages *)

(** The number of pages in the blocks of orders below [n], from the number of blocks of
    each order. *)
Fixpoint wsum (n : nat) (c : Z -> Z) : Z := match n with O => 0 | S n => wsum n c + c (Z.of_nat n) * 2 ^ Z.of_nat n end.

Definition count (k : Z) B : Z := Z.of_nat (size (filter (fun '(_, j) => j = k) B)).

Lemma wsum_ext n c c' : (forall k, 0 <= k < Z.of_nat n -> c k = c' k) -> wsum n c = wsum n c'.
Proof. induction n as [|n IH]; intros Hc; cbn [wsum]; [done|]. rewrite IH, Hc; [done|lia|intros; apply Hc; lia]. Qed.

Lemma wsum_add n c j : 0 <= j < Z.of_nat n -> wsum n (fun k => c k + if decide (k = j) then 1 else 0) = wsum n c + 2 ^ j.
Proof.
  induction n as [|n IH]; intros Hj; [lia|]. cbn [wsum]. destruct (decide (Z.of_nat n = j)) as [<-|Hne].
  - rewrite (wsum_ext n _ c); [lia|]. intros k Hk. case_decide; lia.
  - rewrite IH by lia. lia.
Qed.

Lemma wsum_mono n m c : (n <= m)%nat -> (forall k, 0 <= c k) -> 0 <= wsum n c <= wsum m c.
Proof.
  intros Hn Hc. assert (Hpos : forall n, 0 <= wsum n c) by (intros i; induction i as [|i IH]; cbn [wsum]; [lia|]; specialize (Hc (Z.of_nat i)); pose proof (pow2_pos (Z.of_nat i)); nia).
  split; [apply Hpos|]. induction Hn as [|m Hn IH]; [lia|]. cbn [wsum]. specialize (Hc (Z.of_nat m)). pose proof (pow2_pos (Z.of_nat m)). nia.
Qed.

Lemma count_insert B p j k : B !! p = None -> count k (<[p := j]> B) = count k B + if decide (k = j) then 1 else 0.
Proof.
  intros Hp. unfold count. rewrite map_filter_insert. case_decide as E; case_decide; try congruence.
  - rewrite map_size_insert_None by (apply map_lookup_filter_None; by left). lia.
  - rewrite delete_id by done. lia.
Qed.

(** The pages of one run. *)
Definition run (p n : Z) : gset Z := list_to_set (seqZ p n).

Lemma elem_of_run x p n : x ∈ run p n <-> p <= x < p + n.
Proof. unfold run. rewrite elem_of_list_to_set, elem_of_seqZ. done. Qed.

Lemma size_run p n : 0 <= n -> Z.of_nat (size (run p n)) = n.
Proof. intros Hn. unfold run. rewrite size_list_to_set by apply NoDup_seqZ. rewrite length_seqZ. lia. Qed.

Lemma size_free B : forall (F : gset Z), (forall p k, B !! p = Some k -> 0 <= k <= MAX /\ apart (delete p B) p k) -> (forall x, x ∈ F <-> covers B x) ->
  wsum (Z.to_nat (MAX + 1)) (fun k => count k B) = Z.of_nat (size F).
Proof.
  induction B as [|p j B Hp IH] using map_ind; intros F Ha HF.
  - assert (F = ∅) as -> by (apply leibniz_equiv; intros x; rewrite HF, elem_of_empty; split; [|done]; by intros (? & ? & ? & _)).
    rewrite size_empty. rewrite (wsum_ext _ _ (fun _ => 0)) by (intros; unfold count; by rewrite map_filter_empty, map_size_empty).
    clear. induction (Z.to_nat (MAX + 1)); cbn [wsum]; lia.
  - destruct (Ha p j) as [Hj Hap]; [by rewrite lookup_insert_eq|]. rewrite delete_insert_id in Hap by done. pose proof (pow2_pos j ltac:(lia)).
    rewrite (wsum_ext _ _ (fun k => count k B + if decide (k = j) then 1 else 0)) by (intros; by apply count_insert). rewrite wsum_add by lia.
    assert (HF' : forall x, x ∈ F ∖ run p (2 ^ j) <-> covers B x).
    { intros x. rewrite elem_of_difference, HF, covers_insert, elem_of_run by done. split; [tauto|]. intros Hc. split; [by left|]. intros Hx. by apply (Hap x). }
    rewrite (IH (F ∖ run p (2 ^ j))); [|intros q k Hq; destruct (Ha q k) as [Hk Hqa]; [rewrite lookup_insert_ne by congruence; done|]; split; [done|]|done].
    + rewrite <- (size_run p (2 ^ j)) at 2 by lia. rewrite <- Nat2Z.inj_add, Nat.add_comm, <- size_union by set_solver. do 2 f_equal. apply leibniz_equiv.
      intros x. rewrite elem_of_union, elem_of_difference, elem_of_run, HF, covers_insert by done. destruct (decide (p <= x < p + 2 ^ j)); tauto.
    + intros x Hx Hc. apply (Hqa x Hx). rewrite delete_insert_ne by congruence. apply covers_insert; [by rewrite lookup_delete_ne by congruence|by left].
Qed.

Lemma count_list B k (l : list Z) : NoDup l -> (forall p, p ∈ l <-> B !! p = Some k) -> zlen l = count k B.
Proof.
  intros Hnd Hl. unfold zlen, count. f_equal. rewrite <- length_map_to_list, <- (length_fmap fst). apply Permutation_length, NoDup_Permutation; [done|apply NoDup_fst_map_to_list|].
  intros p. rewrite Hl, list_elem_of_fmap. split.
  - intros Hp. exists (p, k). split; [done|]. apply elem_of_map_to_list, map_lookup_filter_Some. done.
  - intros ([q j] & -> & [Hq ->]%elem_of_map_to_list%map_lookup_filter_Some). done.
Qed.
End Blocks.
