(* ===== verification/BuddyState.v ===== *)
(** The buddy allocator: the state of Buddy.v holds a block map of BuddyBlocks.v, and
    each access of the code changes the block map in the expected way. *)

From S2P Require Import Prelude CList Buddy.
From stdpp Require Import list gmap.
From S2P Require Import BuddyBlocks.
#[local] Open Scope Z_scope.

Section State.
Context (MAX_ORDER npage : Z).
Implicit Types (s : buddy) (B F : gmap Z Z) (zs : list (Z * Z)).

(** * Free lists *)

(** The free lists and the counters hold the blocks of [B], by order. *)
Record linked s B : Prop := {
  lk_exists p : 0 <= p < npage -> is_Some (links s !! Link p);
  lk_ring k : 0 <= k <= MAX_ORDER -> exists l, ring (links s) (Head k) (Link <$> l) /\ (forall p, p ∈ l <-> B !! p = Some k) /\
    nr_free s !! k = Some (uint (zlen l)) }.

Lemma linked_same s s' B : links s' = links s -> nr_free s' = nr_free s -> linked s B -> linked s' B.
Proof. intros Hl Hn [He Hr]. split; [by rewrite Hl|by rewrite Hl, Hn]. Qed.


Lemma nr_add_eq k d s x : nr_free s !! k = Some (uint x) -> nr_add k d s = Done (set_nr k (uint (x + d)) s).
Proof. intros Hn. unfold nr_add. rewrite Hn. cbn. by rewrite uint_add. Qed.

Lemma links_NoDup h k l : ring h (Head k) (Link <$> l) -> NoDup l.
Proof. intros [_ Hn]. apply NoDup_cons in Hn as [_ Hn]. by apply NoDup_fmap_1 in Hn. Qed.

Lemma link_in p (l : list Z) : Link p ∈ Link <$> l <-> p ∈ l.
Proof. rewrite list_elem_of_fmap. split; [by intros (q & [= ->] & ?)|by exists p]. Qed.

(** The list of another order is not touched. *)
Lemma other_ring h h' k k' (l' ls : list Z) : k' <> k -> frame h h' (Head k :: (Link <$> ls)) -> (forall p, p ∈ l' -> p ∉ ls) ->
  ring h (Head k') (Link <$> l') -> ring h' (Head k') (Link <$> l').
Proof.
  intros Hk Hf Hd. apply (ring_frame h h' _ _ _ Hf). intros z. rewrite !elem_of_cons. intros [-> |(q & -> & Hq)%list_elem_of_fmap] [Hz|Hz].
  - congruence.
  - apply list_elem_of_fmap in Hz as (? & ? & _). done.
  - done.
  - apply link_in in Hz. by apply (Hd q).
Qed.

(** [nr_free(k) --; list_del(&(p->page_link))]. *)
Lemma unlink_ok s B p k : linked s B -> B !! p = Some k -> 0 <= k <= MAX_ORDER ->
  exists s1 s', nr_add k (-1) s = Done s1 /\ on_links (list_del (Link p)) s1 = Done s' /\ linked s' (delete p B) /\ pages s' = pages s /\ zones s' = zones s.
Proof.
  intros [He Hr] Hp Hk. destruct (Hr k Hk) as (l & Hl & Hin & Hn). rewrite (nr_add_eq k (-1) s _ Hn). exists (set_nr k (uint (zlen l + -1)) s). unfold on_links. cbn [links set_nr].
  pose proof Hl as Hnd%links_NoDup. pose proof (proj2 (Hin p) Hp) as (l1 & l2 & ->)%list_elem_of_split. rewrite fmap_app, fmap_cons in Hl.
  destruct (ring_del _ _ _ _ _ Hl) as (h' & -> & Hl' & Hf). rewrite <- fmap_app in Hl', Hf. eexists. split_and!; [done|reflexivity| |done|done].
  assert (Hnp : p ∉ l1 ++ l2) by (rewrite <- Permutation_middle in Hnd; by apply NoDup_cons in Hnd as [? _]).
  split; cbn [links nr_free set_nr]; [intros q Hq; rewrite (frame_some _ _ _ _ Hf); by apply He|]. intros k' Hk'. destruct (decide (k' = k)) as [-> |Hne].
  - exists (l1 ++ l2). split; [done|]. split; [|rewrite lookup_insert_eq; do 2 f_equal; rewrite !zlen_app, zlen_cons; lia].
    intros q. rewrite lookup_delete_Some, <- Hin, elem_of_app, elem_of_app, elem_of_cons. rewrite elem_of_app in Hnp.
    split; [intros Hq; split; [intros ->; tauto|tauto]|]. intros [? [?|[->|?]]]; [tauto|done|tauto].
  - destruct (Hr k' Hk') as (l' & Hl2 & Hin' & Hn'). exists l'. split; [|split; [|by rewrite lookup_insert_ne by congruence]].
    + eapply other_ring; [exact Hne|exact Hf| |done]. intros q Hq Hq'. apply Hin' in Hq. assert (B !! q = Some k); [|congruence].
      apply Hin. rewrite elem_of_app, elem_of_cons. apply elem_of_app in Hq'. tauto.
    + intros q. rewrite Hin', lookup_delete_Some. split; [|tauto]. intros Hq. split; [congruence|done].
Qed.

Lemma link_list s B p k : linked s B -> B !! p = None -> 0 <= p < npage -> 0 <= k <= MAX_ORDER ->
  exists h' x, list_add (Head k) (Link p) (links s) = Done h' /\ nr_free s !! k = Some (uint x) /\
    forall s', links s' = h' -> nr_free s' = <[k := uint (x + 1)]> (nr_free s) -> linked s' (<[p := k]> B).
Proof.
  intros [He Hr] Hp Hpr Hk. destruct (Hr k Hk) as (l & Hl & Hin & Hn). destruct (ring_add _ _ _ (Link p) Hl) as (h' & -> & Hl' & Hf); [|by apply He|].
  { rewrite elem_of_cons, link_in, Hin, Hp. by intros [?|?]. }
  exists h', (zlen l). split; [done|]. split; [done|]. intros s' Hs1 Hs2. split; [intros q Hq; rewrite Hs1, (frame_some _ _ _ _ Hf); by apply He|].
  intros k' Hk'. rewrite Hs1, Hs2. destruct (decide (k' = k)) as [-> |Hne].
  - exists (p :: l). split; [done|]. split; [|rewrite lookup_insert_eq; do 2 f_equal; rewrite zlen_cons; lia].
    intros q. rewrite lookup_insert_Some, <- Hin, elem_of_cons. split; [|intros [[-> _]|[_ ?]]; tauto]. intros [->|Hq]; [by left|]. right. split; [|done].
    intros ->. apply Hin in Hq. congruence.
  - destruct (Hr k' Hk') as (l' & Hl2 & Hin' & Hn'). exists l'. split; [|split; [|by rewrite lookup_insert_ne by congruence]].
    + apply (other_ring (links s) h' k k' l' (p :: l)); [done| | |done].
      * eapply frame_weaken; [exact Hf|]. intros z. rewrite fmap_cons, !elem_of_cons. tauto.
      * intros q Hq. rewrite elem_of_cons. apply Hin' in Hq. intros [->|Hq2%Hin]; congruence.
    + intros q. rewrite Hin', lookup_insert_Some. split; [|by intros [[-> ?]|[_ ?]]; congruence]. intros Hq. right. split; [congruence|done].
Qed.

(** [nr_free(k) ++; list_add(&free_list(k), &(p->page_link))], in the two orders of the code. *)
Lemma link_ok s B p k : linked s B -> B !! p = None -> 0 <= p < npage -> 0 <= k <= MAX_ORDER ->
  exists s1 s', nr_add k 1 s = Done s1 /\ on_links (list_add (Head k) (Link p)) s1 = Done s' /\ linked s' (<[p := k]> B) /\ pages s' = pages s /\ zones s' = zones s.
Proof.
  intros Hs Hp Hpr Hk. destruct (link_list s B p k Hs Hp Hpr Hk) as (h' & x & Hl & Hn & Hs'). rewrite (nr_add_eq k 1 s _ Hn). exists (set_nr k (uint (x + 1)) s).
  unfold on_links. cbn [links set_nr].
  rewrite Hl. cbn [mbind outcome_bind]. eexists. split_and!; [done|reflexivity| |done|done]. by apply Hs'.
Qed.

Lemma link_ok' s B p k : linked s B -> B !! p = None -> 0 <= p < npage -> 0 <= k <= MAX_ORDER ->
  exists s1 s', on_links (list_add (Head k) (Link p)) s = Done s1 /\ nr_add k 1 s1 = Done s' /\ linked s' (<[p := k]> B) /\ pages s' = pages s /\ zones s' = zones s.
Proof.
  intros Hs Hp Hpr Hk. destruct (link_list s B p k Hs Hp Hpr Hk) as (h' & x & Hl & Hn & Hs'). unfold on_links. rewrite Hl. cbn [mbind outcome_bind].
  eexists. eexists. split_and!; [reflexivity|by apply nr_add_eq| |done|done]. by apply Hs'.
Qed.

(** * Pages *)

(** The pages of the zones are in use or free, the pages of [F] are marked as the first
    of a free block, and all other pages are reserved. *)
Record paged s zs F : Prop := {
  pg_zones : zones s = zs.*1;
  pg_range z b p : in_zone zs z b p -> 0 <= p < npage;
  pg_exists p : 0 <= p < npage -> is_Some (pages s !! p);
  pg_zone z b p : in_zone zs z b p -> exists pg, pages s !! p = Some pg /\ PageReserved pg = false /\ zone_num pg = z /\
    PageProperty pg = bool_decide (is_Some (F !! p)) /\ (forall k, F !! p = Some k -> property pg = k);
  pg_reserved p pg : pages s !! p = Some pg -> (forall z b, ~ in_zone zs z b p) -> PageReserved pg = true }.

Lemma paged_same s s' zs F : pages s' = pages s -> zones s' = zones s -> paged s zs F -> paged s' zs F.
Proof. intros Hp Hz [Hz' Hr He Hzo Hre]. split; [by rewrite Hz|done|by rewrite Hp|by rewrite Hp|by rewrite Hp]. Qed.

Lemma paged_apart s zs F : paged s zs F -> zones_apart zs.
Proof. intros H z b z' b' p (pg & Hp & _ & <- & _)%(pg_zone _ _ _ H) (pg' & Hp' & _ & <- & _)%(pg_zone _ _ _ H). congruence. Qed.

(** One page changes, and the marks change with it. *)
Lemma paged_set s zs F F' z b p pg : paged s zs F -> in_zone zs z b p -> PageReserved pg = false -> zone_num pg = z ->
  PageProperty pg = bool_decide (is_Some (F' !! p)) -> (forall k, F' !! p = Some k -> property pg = k) -> (forall q, q <> p -> F' !! q = F !! q) ->
  paged (set_page p pg s) zs F'.
Proof.
  intros H Hz Hres Hzn Hpr Hk Hoth. pose proof (paged_apart _ _ _ H) as Hza. destruct H as [H1 H2 H3 H4 H5]. split; cbn [zones set_page pages]; try done.
  - intros q Hq. destruct (decide (q = p)) as [-> |]; [rewrite lookup_insert_eq; by eexists|rewrite lookup_insert_ne by done; by apply H3].
  - intros z' b' q Hq. destruct (decide (q = p)) as [-> |].
    + rewrite lookup_insert_eq. exists pg. rewrite <- (Hza _ _ _ _ _ Hz Hq). done.
    + rewrite lookup_insert_ne, Hoth by done. by apply (H4 z' b').
  - intros q qg. destruct (decide (q = p)) as [-> |]; [|rewrite lookup_insert_ne by done; apply H5]. intros _ Hno. by destruct (Hno z b).
Qed.

Lemma PageReserved_Set pg : PageReserved (SetPageProperty pg) = PageReserved pg.
Proof. unfold PageReserved, SetPageProperty, PG_reserved, PG_property. cbn [flags]. by rewrite Z.setbit_neq. Qed.

Lemma PageReserved_Clear pg : PageReserved (ClearPageProperty pg) = PageReserved pg.
Proof. unfold PageReserved, ClearPageProperty, PG_reserved, PG_property. cbn [flags]. by rewrite Z.clearbit_neq. Qed.

(** [p->property = k; SetPageProperty(p)]. *)
Lemma mark_ok s zs F z b p k : paged s zs F -> in_zone zs z b p ->
  exists s1 s', upd_page (with_property k) p s = Done s1 /\ upd_page SetPageProperty p s1 = Done s' /\ paged s' zs (<[p := k]> F) /\ links s' = links s /\ nr_free s' = nr_free s.
Proof.
  intros H Hz. destruct (pg_zone _ _ _ H z b p Hz) as (pg & Hp & Hres & Hzn & _). exists (set_page p (with_property k pg) s).
  unfold upd_page, get_page. cbn [set_page pages]. rewrite Hp, lookup_insert_eq. cbn [of_option mbind outcome_bind]. eexists. split_and!; [done|reflexivity| |done|done].
  apply (paged_same (set_page p (SetPageProperty (with_property k pg)) s)); [cbn; by rewrite insert_insert_eq|done|].
  eapply paged_set; [exact H|exact Hz|by rewrite PageReserved_Set|done| |intros j; rewrite lookup_insert_eq; by intros [= <-]|intros q Hq; by rewrite lookup_insert_ne by congruence].
  rewrite lookup_insert_eq. unfold PageProperty, SetPageProperty, PG_property. cbn [flags]. by rewrite Z.setbit_eq.
Qed.

(** [ClearPageProperty(p)]. *)
Lemma unmark_ok s zs F z b p : paged s zs F -> in_zone zs z b p ->
  exists s', upd_page ClearPageProperty p s = Done s' /\ paged s' zs (delete p F) /\ links s' = links s /\ nr_free s' = nr_free s.
Proof.
  intros H Hz. destruct (pg_zone _ _ _ H z b p Hz) as (pg & Hp & Hres & Hzn & _). eexists.
  unfold upd_page, get_page. rewrite Hp. cbn [of_option mbind outcome_bind]. split_and!; [reflexivity| |done|done].
  eapply paged_set; [exact H|exact Hz|by rewrite PageReserved_Clear|done| |intros j; by rewrite lookup_delete_eq|intros q Hq; by rewrite lookup_delete_ne by congruence].
  rewrite lookup_delete_eq. unfold PageProperty, ClearPageProperty, PG_property. cbn [flags]. by rewrite Z.clearbit_eq.
Qed.

(** page_is_buddy finds out whether the page starts a free block of the order. *)
Lemma page_is_buddy_spec s zs F z b p k : paged s zs F -> 0 <= p -> (exists n, zs.[z] = Some (b, n)) ->
  exists r, page_is_buddy npage p k z s = Done r /\ (r = true <-> in_zone zs z b p /\ F !! p = Some k).
Proof.
  intros H Hp (n & Hn). unfold page_is_buddy. destruct (Z.ltb_spec p npage) as [Hlt|Hge]; [|exists false; split; [done|]; split; [done|]; intros [Hz _]; apply (pg_range _ _ _ H) in Hz; lia].
  destruct (pg_exists _ _ _ H p ltac:(lia)) as [pg Hpg]. unfold get_page. rewrite Hpg. cbn [of_option mbind outcome_bind].
  destruct (Z.eqb_spec (zone_num pg) z) as [Hzn|Hzn].
  - eexists. split; [done|]. rewrite !andb_true_iff, negb_true_iff, Z.eqb_eq. split.
    + intros [[Hres Hpr] Hk]. destruct (decide (b <= p < b + n)) as [Hin|Hout].
      * assert (Hz : in_zone zs z b p) by by exists n. split; [done|]. destruct (pg_zone _ _ _ H z b p Hz) as (pg' & Hpg' & _ & _ & Hpr' & Hk'). rewrite Hpg in Hpg'. injection Hpg' as <-.
        rewrite Hpr in Hpr'. symmetry in Hpr'. apply bool_decide_eq_true in Hpr' as [j Hj]. rewrite Hj. f_equal. rewrite <- Hk. symmetry. by apply Hk'.
      * exfalso. enough (PageReserved pg = true) by congruence. apply (pg_reserved _ _ _ H p pg Hpg). intros z' b' Hz'. destruct (pg_zone _ _ _ H z' b' p Hz') as (pg' & Hpg' & _ & Hzn' & _).
        assert (z' = z) as -> by congruence. destruct Hz' as (n' & Hn' & Hin). rewrite Hn in Hn'. injection Hn' as <- <-. lia.
    + intros [Hz HF']. destruct (pg_zone _ _ _ H z b p Hz) as (pg' & Hpg' & Hres & _ & Hpr' & Hk'). rewrite Hpg in Hpg'. injection Hpg' as <-.
      rewrite HF' in Hpr'. split; [split; [done|by rewrite Hpr']|]. by apply Hk'.
  - exists false. split; [done|]. split; [done|]. intros [Hz _]. destruct (pg_zone _ _ _ H z b p Hz) as (pg' & Hpg' & _ & Hzn' & _). congruence.
Qed.

Lemma zone_base s zs F z b p : paged s zs F -> in_zone zs z b p -> idx (zones s) z = Done b.
Proof.
  intros H (n & Hn & _). rewrite (pg_zones _ _ _ H). apply idx_done. unfold zlookup in *. destruct (0 <=? z); [|done]. by rewrite list_lookup_fmap, Hn.
Qed.

Lemma page2idx_eq s zs F z b p : paged s zs F -> in_zone zs z b p -> page2idx p s = Done (p - b).
Proof.
  intros H Hz. destruct (pg_zone _ _ _ H z b p Hz) as (pg & Hp & _ & Hzn & _). unfold page2idx, get_page. rewrite Hp. cbn [of_option mbind outcome_bind].
  rewrite Hzn, (zone_base _ _ _ _ _ _ H Hz). done.
Qed.

Lemma idx2page_eq s zs F z b p i : paged s zs F -> in_zone zs z b p -> idx2page z i s = Done (b + i).
Proof. intros H Hz. unfold idx2page. by rewrite (zone_base _ _ _ _ _ _ H Hz). Qed.

(** * The invariant *)

Record inv s zs B : Prop := {
  inv_linked : linked s B;
  inv_paged : paged s zs B;
  inv_blocks : blocks_ok MAX_ORDER zs B }.
End State.
