(* ===== verification/BuddyProofs.v ===== *)
(** The buddy allocator: what each function of buddy_pmm.c does to the free pages. *)

From S2P Require Import Prelude CList Buddy.
From stdpp Require Import list gmap.
From S2P Require Import BuddyBlocks BuddyState.
#[local] Open Scope Z_scope.

Section Proofs.
Context (MAX_ORDER npage : Z) (Hmax : 0 <= MAX_ORDER <= 30).
Implicit Types (s : buddy) (B F : gmap Z Z) (zs : list (Z * Z)).
Abbreviation inv := (inv MAX_ORDER npage).
Abbreviation linked := (linked MAX_ORDER npage).
Abbreviation paged := (paged npage).
Abbreviation placed := (placed MAX_ORDER).
Abbreviation blocks_ok := (blocks_ok MAX_ORDER).
Abbreviation lone := (lone MAX_ORDER).

Lemma fuel_eq : Z.of_nat (fuel MAX_ORDER) = MAX_ORDER + 3.
Proof. unfold fuel. lia. Qed.

(** * Allocation *)

(** The block in hand shrinks to the wanted order; it is still marked. *)
Lemma split_block_spec s zs B z b page k0 order cur : linked s B -> paged s zs (<[page := k0]> B) -> blocks_ok zs B ->
  placed zs z b page cur -> apart B page cur -> 0 <= order <= cur ->
  returns (split_block MAX_ORDER order page cur (2 ^ cur) s) (fun s' => exists B', linked s' B' /\ paged s' zs (<[page := k0]> B') /\ blocks_ok zs B' /\
    placed zs z b page order /\ apart B' page order /\ forall x, covers B' x <-> covers B x \/ page + 2 ^ order <= x < page + 2 ^ cur).
Proof.
  intros Hl Hpg HB Hpl Hap Ho. unfold split_block.
  apply (loop_returns (fun '(c, size, s') => order <= c <= cur /\ size = 2 ^ c /\ exists B', linked s' B' /\ paged s' zs (<[page := k0]> B') /\ blocks_ok zs B' /\
    placed zs z b page c /\ apart B' page c /\ forall x, covers B' x <-> covers B x \/ page + 2 ^ c <= x < page + 2 ^ cur)
    (fun '(c, _, _) => Z.to_nat c)); [|split; [lia|]; split; [done|]; exists B; split_and!; try done; intros; tauto || (split; [tauto|intros [?|?]; [done|lia]])|].
  2: { destruct Hpl as (? & _). rewrite <- (Nat2Z.id (fuel _)), fuel_eq. lia. }
  intros [[c size] s1] (Hc & -> & B1 & Hl1 & Hpg1 & HB1 & Hpl1 & Hap1 & Hcov). destruct (Z.ltb_spec order c) as [Hlt|Hge].
  - cbv zeta. replace c with ((c - 1) + 1) in Hpl1, Hap1 by lia. destruct (split_ok MAX_ORDER zs B1 z b page (c - 1)) as (Hp1 & Hp2 & Ha2 & Hlo & Ha1); [lia|done..|].
    assert (Hs : Z.shiftr (2 ^ c) 1 = 2 ^ (c - 1)) by (rewrite Z.shiftr_div_pow2 by lia; replace c with ((c - 1) + 1) at 1 by lia; rewrite pow2_S by lia;
      change (2 ^ 1) with 2; rewrite Z.mul_comm; apply Z.div_mul; lia).
    rewrite Hs. set (q := page + 2 ^ (c - 1)) in *. pose proof (pow2_pos (c - 1) ltac:(lia)) as Hpos. assert (Hzq : in_zone zs z b q) by apply Hp2.
    pose proof (pg_range _ _ _ _ Hpg1 _ _ _ Hzq) as Hq.
    assert (HN : B1 !! q = None) by (eapply apart_None; [exact HB1| |exact Ha2]; lia).
    destruct (mark_ok npage s1 zs _ z b q (c - 1) Hpg1 Hzq) as (s2 & s3 & -> & E3 & Hpg3 & Hl3 & Hn3). cbn [mbind outcome_bind]. rewrite E3. cbn [mbind outcome_bind].
    destruct (link_ok MAX_ORDER npage s3 B1 q (c - 1)) as (s4 & s5 & -> & E5 & Hl5 & Hpp & Hzz); [by eapply linked_same|done|done|destruct Hp1; lia|].
    cbn [mbind outcome_bind]. rewrite E5. cbn [mbind outcome_bind].
    apply returns_done. split; [|lia]. split; [lia|]. split; [done|]. exists (<[q := c - 1]> B1). split_and!; try done.
    + rewrite insert_insert_ne by lia. by eapply paged_same.
    + eapply put_ok; [by eapply paged_apart|done|exact Hp2|done|done].
    + intros x. rewrite covers_insert, Hcov by done. assert (Hpow : 2 ^ c = 2 * 2 ^ (c - 1)) by (rewrite <- pow2_S by lia; f_equal; lia).
      assert (2 ^ c <= 2 ^ cur) by (apply Z.pow_le_mono_r; lia). unfold q. split; [intros [[?|?]|?]; [by left|right; lia|right; lia]|]. intros [?|?]; [by left; left|].
      destruct (Z.lt_ge_cases x (page + 2 ^ c)); [right; lia|left; right; lia].
  - apply returns_done. assert (c = order) as -> by lia. by exists B1.
Qed.

(** The first block of the lowest order that has one. *)
Lemma buddy_alloc_pages_sub_spec s zs B order : inv s zs B -> 0 <= order <= MAX_ORDER ->
  returns (buddy_alloc_pages_sub MAX_ORDER order s) (fun '(r, s') =>
    match r with
    | Some p => exists B' z b, inv s' zs B' /\ placed zs z b p order /\ apart B' p order /\ forall x, covers B x <-> covers B' x \/ p <= x < p + 2 ^ order
    | None => s' = s /\ forall q k, B !! q = Some k -> k < order
    end).
Proof.
  intros [Hl Hpg HB] Ho. unfold buddy_alloc_pages_sub. rewrite assert_ok by lia. cbn [mbind outcome_bind].
  apply (loop_returns (fun cur => order <= cur <= MAX_ORDER + 1 /\ forall q k, B !! q = Some k -> order <= k -> cur <= k) (fun cur => Z.to_nat (MAX_ORDER + 1 - cur)));
    [|split; [lia|done]|rewrite <- (Nat2Z.id (fuel _)), fuel_eq; lia].
  intros cur [Hc Hno]. destruct (Z.leb_spec cur MAX_ORDER) as [Hle|Hgt].
  2: { apply returns_done. split; [done|]. intros q k Hq. destruct (Z.lt_ge_cases k order); [done|]. pose proof (Hno q k Hq ltac:(lia)).
       destruct (ok_placed _ _ _ HB q k Hq) as (? & ? & ? & _). lia. }
  destruct (lk_ring _ _ _ _ Hl cur ltac:(lia)) as (l & Hr & Hin & _). rewrite (ring_empty _ _ _ Hr). cbn [mbind outcome_bind]. destruct l as [|p l].
  { rewrite bool_decide_true by done. apply returns_done. split; [|lia]. split; [lia|]. intros q k Hq Hk.
    destruct (decide (k = cur)) as [->|]; [by apply Hin, elem_of_nil in Hq|]. specialize (Hno q k Hq Hk). lia. }
  rewrite bool_decide_false by done. cbn [negb]. assert (Hnx : nxt (links s) (Head cur) (Link p)) by exact (ring_next _ _ _ Hr). rewrite (list_next_eq _ _ _ Hnx).
  cbn [mbind outcome_bind le2page].
  assert (HBp : B !! p = Some cur) by (apply Hin; left). destruct (ok_placed _ _ _ HB p cur HBp) as (z & b & Hpl). assert (Hz : in_zone zs z b p) by apply Hpl.
  destruct (unlink_ok _ _ s B p cur Hl HBp ltac:(lia)) as (s1 & s2 & -> & E2 & Hl2 & Hp2 & Hz2). cbn [mbind outcome_bind]. rewrite E2. cbn [mbind outcome_bind]. rewrite shiftl1 by lia.
  eapply returns_bind.
  { apply (split_block_spec s2 zs (delete p B) z b p cur order cur Hl2); [|by apply take_ok|done|by apply (ok_apart _ _ _ HB)|lia].
    rewrite insert_delete_eq, insert_id by done. by eapply paged_same. }
  intros s3 (B' & Hl3 & Hpg3 & HB3 & Hpl3 & Hap3 & Hcov). destruct (unmark_ok npage s3 zs _ z b p Hpg3 Hz) as (s4 & -> & Hpg4 & Hl4 & Hn4). cbn [mbind outcome_bind].
  assert (HN : B' !! p = None) by (eapply apart_None; [exact HB3| |exact Hap3]; lia). rewrite delete_insert_id in Hpg4 by done.
  apply returns_done. exists B', z, b. split; [split; [by eapply linked_same|done|done]|]. split; [done|]. split; [done|].
  intros x. rewrite (covers_take B p cur x HBp), Hcov. assert (0 < 2 ^ order <= 2 ^ cur) by (split; [apply pow2_pos; lia|apply Z.pow_le_mono_r; lia]).
  split; [intros [?|?]|intros [[?|?]|?]]; try tauto; try (right; lia). destruct (Z.lt_ge_cases x (p + 2 ^ order)); [right; lia|left; right; lia].
Qed.

(** getorder finds the least order with room for [n] pages. *)
Lemma getorder_spec n : 0 < n <= 2 ^ MAX_ORDER ->
  returns (getorder MAX_ORDER n) (fun order => 0 <= order <= MAX_ORDER /\ n <= 2 ^ order /\ (order = 0 \/ 2 ^ (order - 1) < n)).
Proof.
  intros Hn. unfold getorder.
  apply (loop_returns (fun '(order, size) => 0 <= order <= MAX_ORDER /\ size = 2 ^ order /\ (order = 0 \/ 2 ^ (order - 1) < n)) (fun '(order, _) => Z.to_nat (MAX_ORDER - order)));
    [|split_and!; [lia|lia|done|by left]|rewrite <- (Nat2Z.id (fuel _)), fuel_eq; lia].
  intros [order size] (Ho & -> & Hlow). rewrite (proj2 (Z.leb_le order MAX_ORDER)) by lia. destruct (Z.leb_spec n (2 ^ order)) as [Hle|Hgt]; [by apply returns_done|].
  assert (order < MAX_ORDER) by (destruct (Z.eq_dec order MAX_ORDER) as [->|]; lia). apply returns_done. split; [|lia]. split; [lia|].
  split; [rewrite Z.shiftl_mul_pow2, pow2_S by lia; lia|].
  right. by rewrite Z.add_simpl_r.
Qed.

(** * Release *)

(** The block in hand grows while its buddy is free. *)
Lemma merge_blocks_spec s zs B z b i k : inv s zs B -> placed zs z b (b + i) k -> apart B (b + i) k ->
  returns (merge_blocks MAX_ORDER npage z i k s) (fun '(i', k', s') => exists B', inv s' zs B' /\ placed zs z b (b + i') k' /\ apart B' (b + i') k' /\ lone zs B' z b (b + i') k' /\
    forall x, covers B' x \/ b + i' <= x < b + i' + 2 ^ k' <-> covers B x \/ b + i <= x < b + i + 2 ^ k).
Proof.
  intros Hinv Hpl Hap. unfold merge_blocks.
  apply (loop_returns (fun '(i', k', s') => exists B', inv s' zs B' /\ placed zs z b (b + i') k' /\ apart B' (b + i') k' /\
    forall x, covers B' x \/ b + i' <= x < b + i' + 2 ^ k' <-> covers B x \/ b + i <= x < b + i + 2 ^ k) (fun '(_, k', _) => Z.to_nat (MAX_ORDER - k')));
    [|by exists B|rewrite <- (Nat2Z.id (fuel _)), fuel_eq; destruct Hpl; lia].
  intros [[i1 k1] s1] (B1 & Hinv1 & Hpl1 & Hap1 & Hcov). pose proof Hinv1 as [Hl1 Hpg1 HB1]. pose proof Hpl1 as (Hk & Hz & _ & Hdiv). rewrite Z.add_simpl_l in Hdiv.
  destruct (Z.ltb_spec k1 MAX_ORDER) as [Hlt|Hge]; [|apply returns_done; exists B1; split_and!; try done; intros ?; lia].
  cbv zeta. rewrite shiftl1, (idx2page_eq _ _ _ _ _ _ _ _ Hpg1 Hz) by lia. cbn [mbind outcome_bind]. fold (bud k1 i1).
  pose proof (pow2_pos k1 ltac:(lia)) as Hpos. pose proof (pg_range _ _ _ _ Hpg1 _ _ _ Hz) as Hrange. destruct Hz as (n & Hn & Hin).
  assert (Hb0 : 0 <= b) by (apply (pg_range _ _ _ _ Hpg1 z b b); exists n; split; [done|lia]).
  assert (Hq : 0 <= b + bud k1 i1).
  { destruct (bud_cases k1 i1 ltac:(lia) Hdiv) as [(_ & -> & _)|([r Hr] & -> & _)]; [lia|]. rewrite pow2_S in Hr by lia. assert (0 <= r) by nia. nia. }
  destruct (page_is_buddy_spec npage s1 zs B1 z b (b + bud k1 i1) k1 Hpg1 Hq) as (r & -> & Hr); [by exists n|]. cbn [mbind outcome_bind]. destruct r; cbn [negb].
  - destruct (proj1 Hr eq_refl) as [Hzq HBq]. destruct (unlink_ok _ _ s1 B1 _ k1 Hl1 HBq ltac:(lia)) as (s2 & s3 & -> & E3 & Hl3 & Hp3 & Hz3).
    cbn [mbind outcome_bind]. rewrite E3. cbn [mbind outcome_bind].
    destruct (unmark_ok npage s3 zs B1 z b (b + bud k1 i1)) as (s4 & -> & Hpg4 & Hl4 & Hn4); [by eapply paged_same|done|]. cbn [mbind outcome_bind]. apply returns_done. split; [|lia].
    pose proof (join_ok MAX_ORDER zs B1 z b (b + i1) k1 (paged_apart _ _ _ _ Hpg1) HB1 Hpl1 Hap1 Hlt) as Hj. cbv zeta in Hj. rewrite Z.add_simpl_l in Hj.
    destruct (Hj Hzq HBq) as (Hpl2 & Hap2 & Hx).
    eexists. split; [split; [by eapply linked_same|exact Hpg4|by apply take_ok]|]. split; [done|]. split; [done|].
    intros x. rewrite Hx, <- Hcov. rewrite (covers_take B1 _ _ x HBq). tauto.
  - apply returns_done. exists B1. split_and!; try done. intros _ Hzq HBq. rewrite Z.add_simpl_l in Hzq, HBq. discriminate (proj2 Hr (conj Hzq HBq)).
Qed.

(** buddy_free_pages_sub gives back one block. *)
Lemma buddy_free_pages_sub_spec s zs B z b p k : inv s zs B -> placed zs z b p k -> apart B p k ->
  returns (buddy_free_pages_sub MAX_ORDER npage p k s) (fun s' => exists B', inv s' zs B' /\ forall x, covers B' x <-> covers B x \/ p <= x < p + 2 ^ k).
Proof.
  intros Hinv Hpl Hap. pose proof Hinv as [Hl Hpg HB]. pose proof Hpl as (Hk & Hz & _ & Hdiv). unfold buddy_free_pages_sub. pose proof (pow2_pos k ltac:(lia)) as Hpos.
  rewrite (page2idx_eq _ _ _ _ _ _ _ Hpg Hz). cbn [mbind outcome_bind]. rewrite shiftl1 by lia. rewrite assert_ok by (apply land_mask; [lia|done]). cbn [mbind outcome_bind].
  eapply returns_bind.
  { apply (for_range_returns (fun _ s' => inv s' zs B) (fun s' => inv s' zs B)); [done| |done]. intros j s1 Hj [Hl1 Hpg1 HB1].
    assert (Hzj : in_zone zs z b j) by (eapply placed_zone; [exact Hpl|lia]). destruct (pg_zone _ _ _ _ Hpg1 z b j Hzj) as (pg & Hpj & Hres & Hzn & Hpr & _).
    assert (HN : B !! j = None). { destruct (B !! j) as [j'|] eqn:E; [|done]. destruct (Hap j); [lia|]. destruct (ok_placed _ _ _ HB j j' E) as (? & ? & ? & _).
    eapply covers_start; [|done]. lia. }
    unfold get_page. rewrite Hpj. cbn [of_option mbind outcome_bind]. rewrite HN in Hpr. rewrite assert_ok by done. cbn [mbind outcome_bind]. apply returns_done.
    split; [by apply (linked_same MAX_ORDER npage s1)|eapply paged_set; [exact Hpg1|exact Hzj|done|done|by rewrite HN|by rewrite HN|done]|done]. }
  intros s1 Hinv1. pose proof Hinv1 as [_ Hpg1 _]. destruct (pg_zone _ _ _ _ Hpg1 z b p Hz) as (pg & Hpp & _ & Hzn & _). unfold get_page at 1. rewrite Hpp.
  cbn [of_option mbind outcome_bind]. rewrite Hzn.
  eapply returns_bind; [apply (merge_blocks_spec s1 zs B z b (p - b) k Hinv1); by replace (b + (p - b)) with p by lia|].
  intros [[i' k'] s2] (B2 & [Hl2 Hpg2 HB2] & Hpl2 & Hap2 & Hlone & Hcov).
  replace (b + (p - b)) with p in Hcov by lia. pose proof Hpl2 as (Hk2 & Hz2 & _).
  rewrite (idx2page_eq _ _ _ _ _ _ _ _ Hpg2 Hz2). cbn [mbind outcome_bind]. set (q := b + i') in *.
  destruct (mark_ok npage s2 zs B2 z b q k' Hpg2 Hz2) as (s3 & s4 & -> & E4 & Hpg4 & Hl4 & Hn4). cbn [mbind outcome_bind]. rewrite E4. cbn [mbind outcome_bind].
  assert (HN : B2 !! q = None) by (eapply apart_None; [exact HB2| |exact Hap2]; lia).
  destruct (link_ok MAX_ORDER npage s4 B2 q k') as (s5 & s6 & -> & E6 & Hl6 & Hp6 & Hz6);
    [by eapply linked_same|done|by apply (pg_range _ _ _ _ Hpg2 _ _ _ Hz2)|lia|]. cbn [mbind outcome_bind]. rewrite E6.
  apply returns_done. exists (<[q := k']> B2). split; [split; [done|by eapply paged_same|eapply put_ok; [by eapply paged_apart|done|exact Hpl2|done|done]]|].
  intros x. rewrite covers_insert by done. apply Hcov.
Qed.

Lemma shiftr_pow2 k : 0 < k -> Z.shiftr (2 ^ k) 1 = 2 ^ (k - 1).
Proof. intros Hk. rewrite Z.shiftr_div_pow2 by lia. replace k with ((k - 1) + 1) at 1 by lia. rewrite pow2_S by lia. change (2 ^ 1) with 2. rewrite Z.mul_comm. apply Z.div_mul. lia. Qed.

Lemma shiftl_pow2 k : 0 <= k -> Z.shiftl (2 ^ k) 1 = 2 ^ (k + 1).
Proof. intros Hk. rewrite Z.shiftl_mul_pow2, pow2_S by lia. lia. Qed.

(** A run of pages that is given back in pieces, from the left: [p] is the next page
    and [n] what is left. *)
Section Run.
Context (zs : list (Z * Z)) (B : gmap Z Z) (z b p0 n0 : Z).
Context (Hz0 : in_zone zs z b p0) (Hz1 : in_zone zs z b (p0 + n0 - 1)) (Hused : forall x, p0 <= x < p0 + n0 -> ~ covers B x) (Hn0 : n0 < 2 ^ (MAX_ORDER + 1)).

Definition given (p n : Z) (s : buddy) : Prop := 0 <= n /\ p0 <= p /\ p + n = p0 + n0 /\ exists B', inv s zs B' /\ forall x, covers B' x <-> covers B x \/ p0 <= x < p.

Lemma given_zone p n s : given p n s -> 0 < n -> in_zone zs z b p.
Proof. intros (? & ? & ? & _) ?. eapply in_zone_between; [exact Hz0|exact Hz1|lia]. Qed.

Lemma given_order p n s k : given p n s -> 2 ^ k <= n -> 0 <= k -> k <= MAX_ORDER.
Proof. intros (? & ? & ? & _) Hn Hk. apply Z.lt_succ_r, (Z.pow_lt_mono_r_iff 2); [lia|lia|]. unfold Z.succ. lia. Qed.

Lemma given_step p n s k : given p n s -> 0 <= k -> 2 ^ k <= n -> (2 ^ k | p - b) ->
  returns (buddy_free_pages_sub MAX_ORDER npage p k s) (given (p + 2 ^ k) (n - 2 ^ k)).
Proof.
  intros Hg Hk Hn Hd. pose proof (given_order p n s k Hg Hn Hk) as Hle. pose proof (pow2_pos k Hk) as Hpos. pose proof Hg as (? & ? & ? & B1 & Hinv & Hcov).
  go_mono (buddy_free_pages_sub_spec s zs B1 z b p k Hinv).
  - split_and!; [done|done|eapply given_zone; [exact Hg|lia]|eapply in_zone_between; [exact Hz0|exact Hz1|lia]|done].
  - intros x Hx [Hc|Hc]%Hcov; [apply (Hused x); [lia|done]|lia].
  - intros s' (B2 & Hinv2 & Hcov2). split_and!; [lia|lia|lia|]. exists B2. split; [done|]. intros x. rewrite Hcov2, Hcov. split; [intros [[?|?]|?]; [by left|right; lia|right; lia]|].
    intros [?|?]; [by left; left|]. destruct (Z.lt_ge_cases x p); [left; right; lia|right; lia].
Qed.

Lemma free_up_spec s : given p0 n0 s -> returns (free_up MAX_ORDER npage p0 n0 s) (fun '(p, n, order, size, s') =>
  given p n s' /\ 0 <= order <= MAX_ORDER + 1 /\ size = 2 ^ order /\ (2 ^ order | p - b) /\ n < size).
Proof.
  intros Hg0. unfold free_up.
  apply (loop_returns (fun '(p, n, order, size, s') => given p n s' /\ 0 <= order <= MAX_ORDER + 1 /\ size = 2 ^ order /\ (2 ^ order | p - b))
    (fun '(_, _, order, _, _) => Z.to_nat (MAX_ORDER + 1 - order))); [|split_and!; [done|lia|lia|done|apply Z.divide_1_l]|rewrite <- (Nat2Z.id (fuel _)), fuel_eq; lia].
  intros [[[[p n] order] size] s1] (Hg & Ho & -> & Hd). destruct (Z.leb_spec (2 ^ order) n) as [Hle|Hgt]; [|apply returns_done; split_and!; try done; lia].
  pose proof (given_order p n s1 order Hg Hle ltac:(lia)) as Hom. rewrite assert_ok by done. cbn [mbind outcome_bind]. pose proof (pow2_pos order ltac:(lia)).
  pose proof Hg as (_ & _ & _ & B1 & [_ Hpg _] & _). rewrite (page2idx_eq _ _ _ _ _ _ _ Hpg (given_zone p n s1 Hg ltac:(lia))). cbn [mbind outcome_bind].
  rewrite shiftl_pow2 by lia. destruct (land_bit_aligned order (p - b) ltac:(lia) Hd) as [[-> Hd']|[Hne Hd']].
  - cbn [Z.eqb negb mbind outcome_bind]. apply returns_done. split; [|lia]. split_and!; try done; lia.
  - rewrite (proj2 (Z.eqb_neq _ _) Hne). cbn [negb]. destruct (given_step p n s1 order Hg ltac:(lia) Hle Hd) as (s2 & -> & Hs2). cbn [mbind outcome_bind]. apply returns_done. split; [|lia].
    split_and!; try done; try lia. by replace (p + 2 ^ order - b) with (p - b + 2 ^ order) by lia.
Qed.

(** The largest order that fits. *)
Lemma fall_spec n order : 0 < n -> 0 <= order <= MAX_ORDER + 1 -> n < 2 ^ (order + 1) ->
  returns (loop (fuel MAX_ORDER) (fun '(order, size) => if n <? size then Done (inl (order - 1, Z.shiftr size 1)) else Done (inr (order, size))) (order, 2 ^ order))
    (fun '(o, size) => 0 <= o <= order /\ size = 2 ^ o /\ 2 ^ o <= n < 2 ^ (o + 1)).
Proof.
  intros Hn Ho Hlt. apply (loop_returns (fun '(o, size) => 0 <= o <= order /\ size = 2 ^ o /\ n < 2 ^ (o + 1)) (fun '(o, _) => Z.to_nat o));
    [|split; [lia|done]|rewrite <- (Nat2Z.id (fuel _)), fuel_eq; lia].
  intros [o size] (Ho' & -> & Hl). destruct (Z.ltb_spec n (2 ^ o)) as [Hlt'|Hge]; apply returns_done; [|split_and!; try done; lia].
  assert (0 < o) by (destruct (Z.eq_dec o 0) as [->|]; lia). split; [|lia]. split; [lia|]. split; [by apply shiftr_pow2|]. by rewrite Z.sub_add.
Qed.

Lemma free_down_spec p n order s : given p n s -> 0 <= order <= MAX_ORDER + 1 -> (2 ^ order | p - b) -> n < 2 ^ order ->
  returns (free_down MAX_ORDER npage p n order (2 ^ order) s) (given (p0 + n0) 0).
Proof.
  intros Hg Ho Hd Hlt. unfold free_down.
  apply (loop_returns (fun '(p, n, order, size, s') => given p n s' /\ 0 <= order <= MAX_ORDER + 1 /\ size = 2 ^ order /\ (2 ^ order | p - b) /\ n < 2 ^ (order + 1))
    (fun '(_, n, order, size, _) => (Z.to_nat order + (if (n <? size)%Z then 0 else 1))%nat)).
  2: { split_and!; try done; try lia. rewrite pow2_S by lia. lia. }
  2: { rewrite (proj2 (Z.ltb_lt _ _) Hlt). rewrite <- (Nat2Z.id (fuel _)), fuel_eq. lia. }
  clear p n order s Hg Ho Hd Hlt. intros [[[[p n] order] size] s] (Hg & Ho & -> & Hd & Hlt). destruct (Z.eqb_spec n 0) as [-> |Hn].
  - apply returns_done. pose proof Hg as (_ & _ & <- & _). by rewrite Z.add_0_r.
  - pose proof Hg as (Hn' & _). eapply returns_bind; [apply (fall_spec n order); lia|]. intros [o size] (Ho' & -> & Hle & Hlt').
    destruct (given_step p n s o Hg ltac:(lia) Hle) as (s2 & -> & Hs2); [eapply divide_le; [|exact Hd]; lia|]. cbn [mbind outcome_bind]. apply returns_done.
    rewrite pow2_S in Hlt' by lia. split.
    + split_and!; try done; try lia; [|rewrite pow2_S by lia; lia]. replace (p + 2 ^ o - b) with (p - b + 2 ^ o) by lia. apply Z.divide_add_r; [|done]. eapply divide_le; [|exact Hd]; lia.
    + rewrite (proj2 (Z.ltb_lt (n - 2 ^ o) (2 ^ o))) by lia. destruct (Z.ltb_spec n (2 ^ order)) as [Hx|Hx]; [|lia].
      assert (o < order); [|lia]. apply (Z.pow_lt_mono_r_iff 2); lia.
Qed.
End Run.

(** buddy_free_pages gives back any run of pages in use. *)
Lemma buddy_free_pages_spec s zs B z b p n : inv s zs B -> in_zone zs z b p -> in_zone zs z b (p + n - 1) -> 0 < n < 2 ^ (MAX_ORDER + 1) ->
  (forall x, p <= x < p + n -> ~ covers B x) ->
  returns (buddy_free_pages MAX_ORDER npage p n s) (fun s' => exists B', inv s' zs B' /\ forall x, covers B' x <-> covers B x \/ p <= x < p + n).
Proof.
  intros Hinv Hz Hz' Hn Hu. assert (Hg : given zs B p n p n s) by (split_and!; [lia|lia|lia|]; exists B; split; [done|]; intros x; split; [by left|intros [?|?]; [done|lia]]).
  unfold buddy_free_pages. rewrite assert_ok by lia. cbn [mbind outcome_bind]. destruct (Z.eqb_spec n 1) as [->|Hne].
  - go_mono (given_step zs B z b p 1 Hz Hz' Hu ltac:(lia) p 1 s 0 Hg); [lia|lia|apply Z.divide_1_l|]. intros s' (_ & _ & _ & B' & Hi & Hc). by exists B'.
  - eapply returns_bind; [by apply (free_up_spec zs B z b p n Hz Hz' Hu ltac:(lia))|]. intros [[[[p1 n1] o] size] s1] (Hg1 & Ho & -> & Hd & Hlt).
    go_mono (free_down_spec zs B z b p n Hz Hz' Hu ltac:(lia) p1 n1 o s1 Hg1 Ho Hd Hlt). intros s' (_ & _ & _ & B' & Hi & Hc). by exists B'.
Qed.

(** buddy_alloc_pages takes [n] free pages at a multiple of the least power of two that
    is not below [n], and fails only if no such place is free. *)
Lemma buddy_alloc_pages_spec s zs B n : inv s zs B -> 0 < n <= 2 ^ MAX_ORDER ->
  returns (buddy_alloc_pages MAX_ORDER npage n s) (fun '(r, s') =>
    match r with
    | Some p => exists B' z b, inv s' zs B' /\ placed zs z b p (Z.log2_up n) /\ (forall x, p <= x < p + n -> covers B x) /\ forall x, covers B' x <-> covers B x /\ ~ p <= x < p + n
    | None => s' = s /\ forall z b p, placed zs z b p (Z.log2_up n) -> ~ forall x, p <= x < p + 2 ^ Z.log2_up n -> covers B x
    end).
Proof.
  intros Hinv Hn. unfold buddy_alloc_pages. rewrite assert_ok by lia. cbn [mbind outcome_bind]. eapply returns_bind; [by apply getorder_spec|]. intros order (Ho & Hle & Hlow).
  assert (order = Z.log2_up n) as ->.
  { symmetry. destruct (Z.eq_dec order 0) as [-> |Hne]; [by replace n with 1 by lia|]. apply Z.log2_up_unique; [lia|]. rewrite <- Z.sub_1_r. lia. }
  cbv zeta. rewrite shiftl1 by lia. eapply returns_bind; [by apply (buddy_alloc_pages_sub_spec s zs B)|]. set (o := Z.log2_up n) in *. intros [[p|] s1].
  - intros (B1 & z & b & Hinv1 & Hpl & Hap & Hcov). destruct (Z.eqb_spec n (2 ^ o)) as [He|Hne]; cbn [negb].
    + apply returns_done. exists B1, z, b. split_and!; try done; intros x; rewrite Hcov; [by rewrite <- He; right|]. rewrite <- He. split; [|tauto]. intros Hc.
      split; [by left|]. intros Hx. apply (Hap x); [lia|done].
    + pose proof Hpl as (_ & Hz & Hz' & _). eapply returns_bind.
      { apply (buddy_free_pages_spec s1 zs B1 z b (p + n) (2 ^ o - n) Hinv1);
          [eapply in_zone_between; [exact Hz|exact Hz'|lia]|by replace (p + n + (2 ^ o - n) - 1) with (p + 2 ^ o - 1) by lia| |intros x Hx; apply Hap; lia].
        split; [lia|]. assert (2 ^ o <= 2 ^ MAX_ORDER) by (apply Z.pow_le_mono_r; lia). rewrite pow2_S by lia. lia. }
      intros s2 (B2 & Hinv2 & Hcov2). apply returns_done. exists B2, z, b. split_and!; try done; intros x; rewrite Hcov; [intros Hx; right; lia|]. rewrite Hcov2. split.
      * intros [Hc|Hx]; [|split; [right|]; lia]. split; [by left|]. intros Hx. apply (Hap x); [lia|done].
      * intros [[Hc|Hx] Hno]; [by left|right; lia].
  - intros [-> Hno]. apply returns_done. split; [done|]. intros z b p Hpl Hall. destruct Hinv as [_ Hpg HB].
    destruct (full_block MAX_ORDER zs B z b (paged_apart _ _ _ _ Hpg) HB o ltac:(lia) p Hpl Hall) as (q & k & Hq & Hk & _).
    specialize (Hno q k Hq). lia.
Qed.

Lemma covers_range s zs B x : inv s zs B -> covers B x -> 0 <= x < npage.
Proof. intros [_ Hpg HB] (p & k & Hp & Hx). destruct (ok_placed _ _ _ HB p k Hp) as (z & b & Hpl). eapply (pg_range _ _ _ _ Hpg). by eapply placed_zone. Qed.

(** buddy_nr_free_pages counts the free pages, and nothing wraps around. *)
Lemma buddy_nr_free_pages_spec s zs B (F : gset Z) : inv s zs B -> npage < 2 ^ 32 -> (forall x, x ∈ F <-> covers B x) ->
  returns (buddy_nr_free_pages MAX_ORDER s) (fun n => n = Z.of_nat (size F)).
Proof.
  intros Hinv Hnp HF. pose proof Hinv as [Hl Hpg HB]. unfold buddy_nr_free_pages.
  assert (Hsum : wsum (Z.to_nat (MAX_ORDER + 1)) (fun k => count k B) = Z.of_nat (size F)).
  { apply size_free; [|done]. intros p k Hp. destruct (ok_placed _ _ _ HB p k Hp) as (? & ? & ? & _). split; [done|]. by apply (ok_apart _ _ _ HB). }
  assert (Hsz : Z.of_nat (size F) < 2 ^ 32).
  { assert (F ⊆ run 0 (Z.max 0 npage)) as Hsub%subseteq_size by (intros x Hx%HF; apply elem_of_run; pose proof (covers_range s zs B x Hinv Hx); lia).
    pose proof (size_run 0 (Z.max 0 npage) ltac:(lia)). lia. }
  assert (Hc0 : forall k, 0 <= count k B) by (intros; unfold count; lia).
  apply (for_range_returns (fun j ret => ret = wsum (Z.to_nat j) (fun k => count k B))); [done| |].
  - intros j ret Hj ->. destruct (lk_ring _ _ _ _ Hl j ltac:(lia)) as (l & Hr & Hin & ->). cbn [of_option mbind outcome_bind]. apply returns_done.
    rewrite (count_list B j l (links_NoDup _ _ _ Hr) Hin). rewrite shiftl1 by lia. pose proof (wsum_mono (S (Z.to_nat j)) (Z.to_nat (MAX_ORDER + 1)) _ ltac:(lia) Hc0) as Hm.
    pose proof (wsum_mono 0 (Z.to_nat j) _ ltac:(lia) Hc0) as Hm0. replace (Z.to_nat (j + 1)) with (S (Z.to_nat j)) by lia. cbn [wsum] in *. rewrite Z2Nat.id in * by lia.
    pose proof (pow2_pos j ltac:(lia)). specialize (Hc0 j). unfold uint. rewrite (wrap_small 32 (count j B)) by nia. rewrite (wrap_small 32 (_ * _)) by nia.
    rewrite uint64_small by nia. done.
  - intros ret ->. rewrite <- Hsum. f_equal. lia.
Qed.
End Proofs.
