(* ===== verification/BuddySetup.v ===== *)
(** The buddy allocator: buddy_init and buddy_init_memmap establish the invariant. *)

From S2P Require Import Prelude CList Buddy.
From stdpp Require Import list gmap.
From S2P Require Import BuddyBlocks BuddyState BuddyProofs.
#[local] Open Scope Z_scope.

Section Setup.
Context (MAX_ORDER npage : Z) (Hmax : 0 <= MAX_ORDER <= 30).
Implicit Types (s : buddy) (B F : gmap Z Z) (zs : list (Z * Z)).
Abbreviation inv := (inv MAX_ORDER npage).
Abbreviation linked := (linked MAX_ORDER npage).
Abbreviation paged := (paged npage).
Abbreviation placed := (placed MAX_ORDER).
Abbreviation blocks_ok := (blocks_ok MAX_ORDER).
Abbreviation lone := (lone MAX_ORDER).

(** Memory before buddy_init: every page is reserved, and no zone is known. *)
Record raw s : Prop := {
  raw_heads k : 0 <= k <= MAX_ORDER -> is_Some (links s !! Head k);
  raw_links p : 0 <= p < npage -> is_Some (links s !! Link p);
  raw_pages p : 0 <= p < npage -> is_Some (pages s !! p);
  raw_reserved p pg : pages s !! p = Some pg -> PageReserved pg = true;
  raw_zones : zones s = [] }.

Lemma in_zone_nil z b p : ~ in_zone [] z b p.
Proof. intros (n & Hn & _). by rewrite zlookup_nil in Hn. Qed.

Lemma buddy_init_spec s : raw s -> returns (buddy_init MAX_ORDER s) (fun s' => inv s' [] ∅).
Proof.
  intros [Hh Hl Hp Hr Hz]. unfold buddy_init.
  apply (for_range_returns (fun j s' => pages s' = pages s /\ zones s' = zones s /\ dom (links s') = dom (links s) /\
    forall k, 0 <= k < j -> ring (links s') (Head k) [] /\ nr_free s' !! k = Some 0)).
  - split_and!; try done. intros; lia.
  - intros j s1 Hj (Hp1 & Hz1 & Hd1 & Hk1). unfold on_links. destruct (ring_init (links s1) (Head j)) as (h' & -> & Hring & Hf).
    { apply elem_of_dom. rewrite Hd1. apply elem_of_dom. apply Hh. lia. }
    cbn [mbind outcome_bind]. apply returns_done. cbn [set_nr pages zones links nr_free]. split_and!; try done; [destruct Hf as [<- _] || destruct Hf as [-> _]; done|].
    intros k Hk. destruct (decide (k = j)) as [-> |Hne]; [by rewrite lookup_insert_eq|]. rewrite lookup_insert_ne by congruence. destruct (Hk1 k ltac:(lia)) as [Hrk Hnk]. split; [|done].
    eapply ring_frame; [exact Hf| |exact Hrk]. intros z. rewrite !list_elem_of_singleton. intros ->. congruence.
  - intros s' (Hp' & Hz' & Hd' & Hk'). split.
    + split; [intros p Hp0; apply elem_of_dom; rewrite Hd'; apply elem_of_dom; by apply Hl|]. intros k Hk. destruct (Hk' k ltac:(lia)) as [Hrk Hnk]. exists [].
      split; [done|]. split; [|done].
      intros p. rewrite elem_of_nil, lookup_empty. done.
    + split; [by rewrite Hz', Hz|intros z b p Hin; by apply in_zone_nil in Hin|by rewrite Hp'|intros z b p Hin; by apply in_zone_nil in Hin|].
      rewrite Hp'. intros p pg Hpg _. by apply (Hr p).
    + split; intros p k; rewrite lookup_empty; done.
Qed.

(** * Adding a zone *)

Lemma in_zone_app zs base n z b p : in_zone (zs ++ [(base, n)]) z b p <-> in_zone zs z b p \/ z = zlen zs /\ b = base /\ base <= p < base + n.
Proof.
  unfold in_zone. setoid_rewrite zlookup_app. destruct (Z.ltb_spec z (zlen zs)) as [Hlt|Hge].
  - split; [by left|]. intros [?|(-> & _)]; [done|lia].
  - split.
    + intros (m & Hm & Hp). right. rewrite zlookup_cons in Hm. destruct (Z.eqb_spec (z - zlen zs) 0); [|by rewrite zlookup_nil in Hm].
      injection Hm as <- <-. split; [lia|]. split; [done|lia].
    + intros [(m & Hm & Hp)|(-> & -> & Hp)]; [apply zlookup_Some_lt in Hm; lia|]. exists n. rewrite Z.sub_diag. done.
Qed.

Lemma blocks_ok_zone zs base n B : zones_apart (zs ++ [(base, n)]) -> blocks_ok zs B -> blocks_ok (zs ++ [(base, n)]) B.
Proof.
  intros Hza HB. split.
  - intros p k Hp. destruct (ok_placed _ _ _ HB p k Hp) as (z & b & Hk & H1 & H2 & Hd). exists z, b. split_and!; try apply Hk; try done; apply in_zone_app; by left.
  - apply (ok_apart _ _ _ HB).
  - intros p k z b Hp Hz Hlt Hzq Hq. destruct (ok_placed _ _ _ HB p k Hp) as (z1 & b1 & _ & Hz1 & _). destruct (ok_placed _ _ _ HB _ k Hq) as (z2 & b2 & _ & Hz2 & _).
    pose proof (Hza _ _ _ _ _ Hz (proj2 (in_zone_app zs base n z1 b1 p) (or_introl Hz1))) as <-. pose proof (Hza _ _ _ _ _ Hzq (proj2 (in_zone_app zs base n z2 b2 _) (or_introl Hz2))) as <-.
    pose proof (in_zone_base _ _ _ _ _ _ Hz (proj2 (in_zone_app zs base n _ _ _) (or_introl Hz1))) as <-. pose proof
      (in_zone_base _ _ _ _ _ _ Hzq (proj2 (in_zone_app zs base n _ _ _) (or_introl Hz2))) as <-.
    by apply (ok_joined _ _ _ HB p k z b Hp Hz1 Hlt).
Qed.

(** The pages of the new zone, none of which is in a zone already. *)
Lemma reset_pages_spec s zs B base n : inv s zs B -> 0 < n -> 0 <= base -> base + n <= npage -> (forall x z b, base <= x < base + n -> ~ in_zone zs z b x) ->
  returns (for_range (Z.to_nat n) base (fun p s1 => pg ← get_page p s1; _ ← assert_ (PageReserved pg = true); Done (set_page p (MkPage 0 0 0 (zlen (zones s))) s1)) s)
    (fun s' => links s' = links s /\ nr_free s' = nr_free s /\ zones s' = zones s /\ paged (MkBuddy (pages s') (links s') (nr_free s') (zones s' ++ [base])) (zs ++ [(base, n)]) B).
Proof.
  intros [Hl Hpg HB] Hn Hb He Hout.
  apply (for_range_returns (fun j s' => links s' = links s /\ nr_free s' = nr_free s /\ zones s' = zones s /\
    forall p, pages s' !! p = if decide (base <= p < j) then Some (MkPage 0 0 0 (zlen zs)) else pages s !! p)).
  - split_and!; try done. intros p. case_decide; [lia|done].
  - intros j s1 Hj (H1 & H2 & H3 & H4). destruct (pg_exists _ _ _ _ Hpg j ltac:(lia)) as [pg Hpgj]. unfold get_page. rewrite H4, decide_False by lia. rewrite Hpgj.
    cbn [of_option mbind outcome_bind].
    rewrite assert_ok by (apply (pg_reserved _ _ _ _ Hpg j pg Hpgj); intros z b; apply Hout; lia). cbn [mbind outcome_bind]. apply returns_done.
    cbn [set_page links nr_free zones pages]. split_and!; try done.
    intros p. destruct (decide (p = j)) as [-> |Hne].
    + rewrite lookup_insert_eq, decide_True by lia. rewrite (pg_zones _ _ _ _ Hpg). unfold zlen. by rewrite length_fmap.
    + rewrite lookup_insert_ne, H4 by done. do 2 case_decide; try done; lia.
  - intros s' (H1 & H2 & H3 & H4). rewrite Z2Nat.id in H4 by lia. split_and!; try done. destruct Hpg as [G1 G2 G3 G4 G5]. split; cbn [zones pages].
    + by rewrite H3, G1, fmap_app.
    + intros z b p [Hz|(_ & _ & ?)]%in_zone_app; [by apply (G2 z b)|lia].
    + intros p Hp. rewrite H4. case_decide; [by eexists|by apply G3].
    + intros z b p [Hz|(-> & -> & Hp)]%in_zone_app.
      * rewrite H4, decide_False by (intros Hx; by apply (Hout p z b)). by apply (G4 z b).
      * rewrite H4, decide_True by done. eexists. split; [done|]. split; [done|]. split; [done|]. assert (HN : B !! p = None); [|by rewrite HN].
        destruct (B !! p) as [k|] eqn:E; [|done]. destruct (ok_placed _ _ _ HB p k E) as (z & b & _ & Hz & _). by destruct (Hout p z b).
    + intros p pg. rewrite H4. case_decide as Hp.
      * intros _ Hno. destruct (Hno (zlen zs) base). apply in_zone_app. by right.
      * intros Hpg' Hno. apply (G5 p pg Hpg'). intros z b Hz. apply (Hno z b). apply in_zone_app. by left.
Qed.

Section Zone.
Context (zs : list (Z * Z)) (B : gmap Z Z) (z b n0 : Z).
Context (Hz0 : in_zone zs z b b) (Hz1 : in_zone zs z b (b + n0 - 1)) (Hused : forall x, in_zone zs z b x -> ~ covers B x).
Abbreviation given := (given MAX_ORDER npage zs B b n0).

(** One block at the next page, when its buddy cannot be free. *)
Lemma given_add p n s k : given p n s -> 0 <= k <= MAX_ORDER -> 2 ^ k <= n -> (2 ^ k | p - b) -> (k < MAX_ORDER -> (2 ^ (k + 1) | p - b)) ->
  exists s1 s2 s3 s4, upd_page (with_property k) p s = Done s1 /\ upd_page SetPageProperty p s1 = Done s2 /\ on_links (list_add (Head k) (Link p)) s2 = Done s3 /\
    nr_add k 1 s3 = Done s4 /\ given (p + 2 ^ k) (n - 2 ^ k) s4.
Proof.
  intros (Hn & Hp & He & B1 & [Hl Hpg HB] & Hcov) Hk Hle Hd Hd'. pose proof (pow2_pos k ltac:(lia)) as Hpos.
  assert (Hpl : placed zs z b p k) by (split_and!; [lia|lia|eapply in_zone_between; [exact Hz0|exact Hz1|lia]|eapply in_zone_between; [exact Hz0|exact Hz1|lia]|done]).
  assert (Hap : apart B1 p k) by (intros x Hx [Hc|Hc]%Hcov; [apply (Hused x); [by eapply placed_zone|done]|lia]).
  assert (HN : B1 !! p = None) by (eapply apart_None; [exact HB| |exact Hap]; lia).
  assert (Hz : in_zone zs z b p) by apply Hpl. destruct (mark_ok npage s zs B1 z b p k Hpg Hz) as (s1 & s2 & E1 & E2 & Hpg2 & Hl2 & Hn2).
  destruct (link_ok' MAX_ORDER npage s2 B1 p k) as (s3 & s4 & E3 & E4 & Hl4 & Hp4 & Hz4); [by eapply linked_same|done|by apply (pg_range _ _ _ _ Hpg _ _ _ Hz)|done|].
  exists s1, s2, s3, s4. do 4 (split; [done|]). split_and!; [lia|lia|lia|]. exists (<[p := k]> B1). split.
  - split; [done|by eapply paged_same|]. eapply put_ok; [by eapply paged_apart|done|exact Hpl|done|]. intros Hlt Hzq HBq.
    destruct (Hd' Hlt) as [r Hr]. rewrite pow2_S in Hr by lia. unfold bud in Hzq, HBq. replace (p - b) with (2 * r * 2 ^ k) in Hzq, HBq by lia.
    rewrite (proj1 (lxor_even k r ltac:(lia))) in Hzq, HBq.
    assert (Hc : covers B1 (b + (2 * r + 1) * 2 ^ k)) by (eapply covers_start; [|exact HBq]; lia). apply Hcov in Hc as [Hc|Hc]; [by apply (Hused _ Hzq)|lia].
  - intros x. rewrite covers_insert, Hcov by done. split; [intros [[?|?]|?]; [by left|right; lia|right; lia]|]. intros [?|?]; [by left; left|].
    destruct (Z.lt_ge_cases x p); [left; right; lia|right; lia].
Qed.

(** All blocks of one order: at most one unless the order is the highest. *)
Lemma add_blocks_spec p n s k : given p n s -> 0 <= k <= MAX_ORDER -> (2 ^ k | p - b) -> (k < MAX_ORDER -> (2 ^ (k + 1) | p - b) /\ n < 2 ^ (k + 1)) ->
  returns (add_blocks k (2 ^ k) n p s) (fun '(n', p', s') => given p' n' s' /\ (2 ^ k | p' - b) /\ n' < 2 ^ k).
Proof.
  intros Hg Hk Hd Hlow. unfold add_blocks. pose proof (pow2_pos k ltac:(lia)) as Hpos.
  apply (loop_returns (fun '(n', p', s') => given p' n' s' /\ (2 ^ k | p' - b) /\
    (n' < 2 ^ k \/ (k < MAX_ORDER -> (2 ^ (k + 1) | p' - b) /\ n' < 2 ^ (k + 1)))) (fun '(n', _, _) => Z.to_nat n'));
    [|split_and!; try done; by right|lia].
  intros [[n1 p1] s1] (Hg1 & Hd1 & Hor). destruct (Z.leb_spec (2 ^ k) n1) as [Hle|Hgt]; [|apply returns_done; done]. destruct Hor as [?|Hor]; [lia|].
  destruct (given_add p1 n1 s1 k Hg1 Hk Hle Hd1) as (s2 & s3 & s4 & s5 & -> & E3 & E4 & E5 & Hg5); [intros ?; by apply Hor|]. cbn [mbind outcome_bind]. rewrite E3.
  cbn [mbind outcome_bind]. rewrite E4. cbn [mbind outcome_bind]. rewrite E5. cbn [mbind outcome_bind].
  apply returns_done. split; [|lia]. split; [done|]. split; [replace (p1 + 2 ^ k - b) with (p1 - b + 2 ^ k) by lia; apply Z.divide_add_r; done|].
  destruct (decide (k < MAX_ORDER)) as [Hlt|]; [|right; lia]. left. destruct (Hor Hlt) as [_ Hn1]. rewrite pow2_S in Hn1 by lia. lia.
Qed.

Lemma add_zone_spec s : given b n0 s -> returns (loop (fuel MAX_ORDER) (fun '(n, p, order, order_size, s) =>
    if n =? 0 then Done (inr s) else '(n, p, s) ← add_blocks order order_size n p s; Done (inl (n, p, uint64 (order - 1), Z.shiftr order_size 1, s)))
    (n0, b, MAX_ORDER, Z.shiftl 1 MAX_ORDER, s)) (given (b + n0) 0).
Proof.
  intros Hg. rewrite shiftl1 by lia.
  apply (loop_returns (fun '(n, p, k, size, s') => given p n s' /\
    (n = 0 \/ 0 <= k <= MAX_ORDER /\ size = 2 ^ k /\ (2 ^ k | p - b) /\ (k < MAX_ORDER -> (2 ^ (k + 1) | p - b) /\ n < 2 ^ (k + 1))))
    (fun '(n, _, k, _, _) => if n =? 0 then O else Z.to_nat (k + 1))).
  - intros [[[[n p] k] size] s1] (Hg1 & Hor). destruct (Z.eqb_spec n 0) as [-> |Hn]; [apply returns_done; pose proof Hg1 as (_ & _ & <- & _); by rewrite Z.add_0_r|].
    destruct Hor as [?|(Hk & -> & Hd & Hlow)]; [done|]. eapply returns_bind; [by apply (add_blocks_spec p n s1 k)|]. intros [[n' p'] s'] (Hg' & Hd' & Hn'). apply returns_done.
    destruct (Z.eqb_spec n' 0) as [-> |Hne]; [split; [|lia]; split; [done|by left]|]. pose proof Hg' as (Hn0 & _).
    assert (0 < k) by (destruct (Z.eq_dec k 0) as [-> |]; [cbn in Hn'; lia|lia]).
    rewrite uint64_small by lia. split; [|lia]. split; [done|]. right. rewrite Z.sub_add. split_and!; try lia; [by apply shiftr_pow2|eapply divide_le; [|exact Hd']; lia|done].
  - split; [done|]. right. rewrite Z.sub_diag. split_and!; try lia; try done. apply Z.divide_0_r.
  - rewrite <- (Nat2Z.id (fuel _)), fuel_eq by done. destruct (n0 =? 0); lia.
Qed.
End Zone.

(** buddy_init_memmap makes the pages of a new zone free. *)
Lemma buddy_init_memmap_spec s zs B base n : inv s zs B -> 0 < n -> 0 <= base -> base + n <= npage -> zlen zs < MAX_ZONE_NUM ->
  (forall x z b, base <= x < base + n -> ~ in_zone zs z b x) ->
  returns (buddy_init_memmap MAX_ORDER base n s) (fun s' => exists B', inv s' (zs ++ [(base, n)]) B' /\ forall x, covers B' x <-> covers B x \/ base <= x < base + n).
Proof.
  intros Hinv Hn Hb He Hzn Hout. pose proof Hinv as [Hl Hpg HB]. unfold buddy_init_memmap.
  rewrite assert_ok by (rewrite (pg_zones _ _ _ _ Hpg); unfold zlen in *; rewrite length_fmap; lia). cbn [mbind outcome_bind].
  eapply returns_bind; [by apply (reset_pages_spec s zs B base n)|]. intros s1 (H1 & H2 & H3 & Hpg1). cbv zeta. set (s2 := MkBuddy _ _ _ _) in *. set (zs' := zs ++ [(base, n)]) in *.
  assert (Hz : forall x, in_zone zs' (zlen zs) base x <-> base <= x < base + n).
  { intros x. unfold zs'. rewrite in_zone_app. split; [|intros ?; by right]. intros [(m & Hm & _)|(_ & _ & ?)]; [apply zlookup_Some_lt in Hm; lia|done]. }
  assert (Hu : forall x, in_zone zs' (zlen zs) base x -> ~ covers B x).
  { intros x Hx%Hz (p & k & Hp & Hpx). destruct (ok_placed _ _ _ HB p k Hp) as (z & b & Hpl). apply (Hout x z b Hx). by eapply placed_zone. }
  go_mono (add_zone_spec zs' B (zlen zs) base n).
  - apply Hz. lia.
  - apply Hz. lia.
  - done.
  - split_and!; [lia|lia|lia|]. exists B. split; [|intros x; split; [by left|intros [?|?]; [done|lia]]]. split; [by apply (linked_same MAX_ORDER npage s)|done|].
    apply blocks_ok_zone; [by eapply paged_apart|done].
  - intros s' (_ & _ & _ & B' & Hinv' & Hcov). by exists B'.
Qed.
End Setup.
