(* ===== verification/BuddySpec.v ===== *)
(** The buddy allocator of the ucore kernel: what it promises.

    The allocator is a set of free pages.  The specification does not mention blocks,
    lists or orders, except that a run of [n] pages is placed at a multiple, from the
    start of its zone, of the least power of two that is not below [n]. *)

From S2P Require Import Prelude CList Buddy.
From stdpp Require Import list gmap.
From S2P Require Import BuddyBlocks BuddyState BuddyProofs BuddySetup.
#[local] Open Scope Z_scope.

(** * Operations and their specification *)

Inductive bop := Alloc (n : Z) | Free (p n : Z) | NrFree.
Inductive result := RPage (p : option Z) | RUnit | RCount (n : Z).

Section Spec.
Context (MAX_ORDER npage : Z).

Definition exec_bop (o : bop) (s : buddy) : outcome (result * buddy) :=
  match o with
  | Alloc n => '(p, s) ← buddy_alloc_pages MAX_ORDER npage n s; Done (RPage p, s)
  | Free p n => s ← buddy_free_pages MAX_ORDER npage p n s; Done (RUnit, s)
  | NrFree => n ← buddy_nr_free_pages MAX_ORDER s; Done (RCount n, s)
  end.

(** The calls that pmm_init makes: buddy_init, and buddy_init_memmap for each zone of
    the memory map. *)
Fixpoint add_zones (zs : list (Z * Z)) (s : buddy) : outcome buddy :=
  match zs with
  | [] => Done s
  | (base, n) :: zs => s ← buddy_init_memmap MAX_ORDER base n s; add_zones zs s
  end.

Definition boot (zs : list (Z * Z)) (s : buddy) : outcome buddy := s ← buddy_init MAX_ORDER s; add_zones zs s.

Context (zs : list (Z * Z)).

(** A step from the free pages [F], with its result. *)
Inductive spec_bop : gset Z -> bop -> result -> gset Z -> Prop :=
| spec_alloc F n z b p : placed MAX_ORDER zs z b p (Z.log2_up n) -> run p n ⊆ F -> spec_bop F (Alloc n) (RPage (Some p)) (F ∖ run p n)
| spec_full F n : (forall z b p, placed MAX_ORDER zs z b p (Z.log2_up n) -> ~ run p (2 ^ Z.log2_up n) ⊆ F) -> spec_bop F (Alloc n) (RPage None) F
| spec_free F p n : spec_bop F (Free p n) RUnit (F ∪ run p n)
| spec_count F : spec_bop F NrFree (RCount (Z.of_nat (size F))) F.

(** What the caller owes: sizes within the limits, and only pages in use are freed. *)
Definition pre (F : gset Z) (o : bop) : Prop :=
  match o with
  | Alloc n => 0 < n <= 2 ^ MAX_ORDER
  | Free p n => 0 < n < 2 ^ (MAX_ORDER + 1) /\ run p n ## F /\ exists z b, in_zone zs z b p /\ in_zone zs z b (p + n - 1)
  | NrFree => True
  end.

(** Each operation of the sequence returns and is a step of the specification, as long
    as the caller keeps its side. *)
Fixpoint refines (os : list bop) (s : buddy) (F : gset Z) : Prop :=
  match os with
  | [] => True
  | o :: os => pre F o -> returns (exec_bop o s) (fun '(r, s') => exists F', spec_bop F o r F' /\ refines os s' F')
  end.

(** Zones that lie in the page array and do not overlap. *)
Definition zones_valid : Prop :=
  zlen zs <= MAX_ZONE_NUM /\ Forall (fun '(b, n) => 0 <= b /\ 0 < n /\ b + n <= npage) zs /\ ForallOrdPairs (fun '(b, n) '(b', n') => b + n <= b' \/ b' + n' <= b) zs.

Definition zone_pages : gset Z := ⋃ ((fun '(b, n) => run b n) <$> zs).
End Spec.

(** * Refinement *)

Section Refine.
Context (MAX_ORDER npage : Z) (Hmax : 0 <= MAX_ORDER <= 30) (Hnp : npage < 2 ^ 32).
Abbreviation inv := (inv MAX_ORDER npage).

(** The free pages of the state. *)
Definition holds (zs : list (Z * Z)) (s : buddy) (F : gset Z) : Prop := exists B, inv s zs B /\ forall x, x ∈ F <-> covers B x.

Lemma run_covers F B p n : (forall x, x ∈ F <-> covers B x) -> run p n ⊆ F <-> forall x, p <= x < p + n -> covers B x.
Proof. intros HF. split; intros H x Hx; [apply HF, H, elem_of_run, Hx|apply HF, H; by apply elem_of_run]. Qed.

Lemma exec_bop_spec zs s F o : holds zs s F -> pre MAX_ORDER zs F o ->
  returns (exec_bop MAX_ORDER npage o s) (fun '(r, s') => exists F', spec_bop MAX_ORDER zs F o r F' /\ holds zs s' F').
Proof.
  intros (B & Hinv & HF) Hpre. destruct o as [n|p n|]; cbn [exec_bop pre] in *.
  - eapply returns_bind; [by apply (buddy_alloc_pages_spec MAX_ORDER npage Hmax s zs B)|]. intros [[p|] s']; intros H; apply returns_done.
    + destruct H as (B' & z & b & Hinv' & Hpl & Hfree & Hcov). exists (F ∖ run p n). split; [eapply spec_alloc; [exact Hpl|by apply (run_covers F B)]|].
      exists B'. split; [done|]. intros x. by rewrite elem_of_difference, elem_of_run, HF, Hcov.
    + destruct H as [-> Hno]. exists F. split; [|by exists B]. apply spec_full. intros z b p Hpl Hsub. apply (Hno z b p Hpl). by apply (run_covers F B).
  - destruct Hpre as (Hn & Hd & z & b & Hz & Hz'). eapply returns_bind.
    { apply (buddy_free_pages_spec MAX_ORDER npage Hmax s zs B z b p n Hinv Hz Hz' Hn). intros x Hx Hc%HF. apply (Hd x); [by apply elem_of_run|done]. }
    intros s' (B' & Hinv' & Hcov). apply returns_done. exists (F ∪ run p n). split; [constructor|]. exists B'. split; [done|]. intros x. by rewrite elem_of_union, elem_of_run, HF, Hcov.
  - eapply returns_bind; [by apply (buddy_nr_free_pages_spec MAX_ORDER npage Hmax s zs B F)|]. intros n ->. apply returns_done. exists F. split; [constructor|]. by exists B.
Qed.

Lemma refines_holds zs os : forall s F, holds zs s F -> refines MAX_ORDER npage zs os s F.
Proof.
  induction os as [|o os IH]; intros s F HF; cbn [refines]; [done|]. intros Hpre. go_mono (exec_bop_spec zs s F o HF Hpre). intros [r s'] (F' & Hsp & HF').
  exists F'. split; [done|]. by apply IH.
Qed.

Lemma in_zone_elem zs z b p : in_zone zs z b p -> exists n, (b, n) ∈ zs /\ b <= p < b + n.
Proof. intros (n & Hn & Hp). exists n. split; [by eapply zlookup_elem|done]. Qed.

Lemma pairs_middle {A} (R : A -> A -> Prop) l1 a l2 : ForallOrdPairs R (l1 ++ a :: l2) -> forall x, x ∈ l1 -> R x a.
Proof.
  induction l1 as [|c l1 IH]; intros Hp x; [by rewrite elem_of_nil|]. inversion Hp as [|? ? Hc Hp']; subst. rewrite elem_of_cons. intros [-> |Hx]; [|by apply IH].
  rewrite Forall_app, Forall_cons in Hc. tauto.
Qed.

Lemma zone_pages_cons b n zs : zone_pages ((b, n) :: zs) = run b n ∪ zone_pages zs.
Proof. done. Qed.

Lemma add_zones_spec zs : forall zs0 s F, holds zs0 s F -> zones_valid npage (zs0 ++ zs) -> returns (add_zones MAX_ORDER zs s) (fun s' => holds (zs0 ++ zs) s' (F ∪ zone_pages zs)).
Proof.
  induction zs as [|[base n] zs IH]; intros zs0 s F (B & Hinv & HF) Hv; cbn [add_zones].
  - apply returns_done. exists B. rewrite app_nil_r. split; [done|]. intros x. rewrite <- HF, elem_of_union. unfold zone_pages. cbn. rewrite elem_of_empty. tauto.
  - pose proof Hv as (Hlen & Hall & Hpairs). rewrite Forall_app, Forall_cons in Hall. destruct Hall as (Hall0 & (Hb & Hn & He) & _).
    rewrite zlen_app, zlen_cons in Hlen. pose proof (zlen_nonneg zs).
    eapply returns_bind.
    { apply (buddy_init_memmap_spec MAX_ORDER npage Hmax s zs0 B base n Hinv Hn Hb He); [lia|]. intros x z b Hx (m & Hm & Hxm)%in_zone_elem.
      pose proof (pairs_middle _ _ _ _ Hpairs _ Hm) as Hd. cbn in Hd. lia. }
    intros s1 (B1 & Hinv1 & Hcov). replace (zs0 ++ (base, n) :: zs) with ((zs0 ++ [(base, n)]) ++ zs) in * by (by rewrite <- app_assoc).
    rewrite zone_pages_cons, (assoc_L (∪)). apply IH; [|done]. exists B1. split; [done|]. intros x. by rewrite elem_of_union, elem_of_run, HF, Hcov.
Qed.

Lemma boot_spec zs s : raw MAX_ORDER npage s -> zones_valid npage zs -> returns (boot MAX_ORDER zs s) (fun s' => holds zs s' (zone_pages zs)).
Proof.
  intros Hraw Hv. unfold boot. eapply returns_bind; [by apply buddy_init_spec|]. intros s1 Hinv. rewrite <- (union_empty_l_L (zone_pages zs)). apply (add_zones_spec zs [] s1 ∅); [|done].
  exists ∅. split; [done|]. intros x. rewrite elem_of_empty. split; [done|]. intros (p & k & Hp & _). by rewrite lookup_empty in Hp.
Qed.
End Refine.

(** * Properties *)

(** C18. The buddy allocator is a set of free pages.  After the initialization of any zones
    that do not overlap all their pages are free, and in every sequence of calls each
    one returns, without a failed assertion, what the specification on sets allows:
    buddy_alloc_pages takes exactly [n] pages that were free, at a multiple of the
    least power of two that is not below [n], and fails only if no run of that many
    pages at such a place is free, because buddies are always joined;
    buddy_free_pages makes exactly the given pages free, whatever the run was
    allocated as; and buddy_nr_free_pages counts the free pages without wrapping
    around. *)
Theorem buddy_refines MAX_ORDER npage zs s os : 0 <= MAX_ORDER <= 30 -> npage < 2 ^ 32 -> raw MAX_ORDER npage s -> zones_valid npage zs ->
  returns (boot MAX_ORDER zs s) (fun s' => refines MAX_ORDER npage zs os s' (zone_pages zs)).
Proof. intros Hmax Hnp Hraw Hv. go_mono (boot_spec MAX_ORDER npage Hmax zs s Hraw Hv). intros s' Hs'. by apply refines_holds. Qed.

(** Forty pages before the initialization. *)
Definition blank : buddy :=
  MkBuddy (list_to_map ((fun p => (p, MkPage 7 1 3 9)) <$> seqZ 0 40))
    (list_to_map (((fun k => (Head k, MkEntry (Head 0) (Head 0))) <$> seqZ 0 17) ++ ((fun p => (Link p, MkEntry (Head 0) (Head 0))) <$> seqZ 0 40))) ∅ [].

Lemma forall_seqZ (P : Z -> Prop) `{forall x, Decision (P x)} m n : bool_decide (Forall P (seqZ m n)) = true -> forall x, m <= x < m + n -> P x.
Proof. intros Hb%bool_decide_eq_true x Hx. rewrite Forall_forall in Hb. apply Hb, elem_of_seqZ. lia. Qed.

Lemma blank_raw : raw 16 40 blank.
Proof.
  split.
  - intros k Hk. apply (forall_seqZ (fun k => is_Some (links blank !! Head k)) 0 17); [by vm_compute|lia].
  - intros p Hp. apply (forall_seqZ (fun p => is_Some (links blank !! Link p)) 0 40); [by vm_compute|lia].
  - intros p Hp. apply (forall_seqZ (fun p => is_Some (pages blank !! p)) 0 40); [by vm_compute|lia].
  - intros p pg Hp. assert (Ha : map_Forall (fun _ pg => PageReserved pg = true) (pages blank)) by (apply (bool_decide_unpack _); by vm_compute). by apply (Ha p).
  - done.
Qed.

Lemma buddy_refines_witness : exists s s', boot 16 [(3, 21); (26, 10)] blank = Done s /\ exec_bop 16 40 (Alloc 5) s = Done (RPage (Some 26), s') /\
  spec_bop 16 [(3, 21); (26, 10)] (zone_pages [(3, 21); (26, 10)]) (Alloc 5) (RPage (Some 26)) (zone_pages [(3, 21); (26, 10)] ∖ run 26 5) /\
  refines 16 40 [(3, 21); (26, 10)] [Free 27 2; NrFree; Alloc 16; Alloc 16] s' (zone_pages [(3, 21); (26, 10)] ∖ run 26 5).
Proof.
  destruct (buddy_refines 16 40 [(3, 21); (26, 10)] blank [Alloc 5; Free 27 2; NrFree; Alloc 16; Alloc 16]) as (s & E & Hr).
  - lia.
  - lia.
  - exact blank_raw.
  - split_and!; [by vm_compute|repeat constructor; lia|repeat constructor; lia].
  - destruct Hr as ([r s'] & E' & F' & Hsp & Hr); [cbn; lia|].
    assert (Hc : (s0 ← boot 16 [(3, 21); (26, 10)] blank; '(r, _) ← exec_bop 16 40 (Alloc 5) s0; Done r) = Done (RPage (Some 26))) by (vm_compute; reflexivity).
    rewrite E in Hc. cbn [mbind outcome_bind] in Hc. rewrite E' in Hc. injection Hc as ->.
    assert (HF : F' = zone_pages [(3, 21); (26, 10)] ∖ run 26 5) by (inversion Hsp; reflexivity). subst F'. exact (ex_intro _ s (ex_intro _ s' (conj E (conj E' (conj Hsp Hr))))).
Defined.
