(* ===== verification/RbTree.v ===== *)
(** Red-black trees of the ucore kernel (src/ucore/src/kern-ucore/libs/rb_tree.c
    and rb_tree.h): the code, and the steps its loops are made of.

    The heap maps the address of each rb_node to its four fields; a pointer that
    may be NULL is an option.  The macros of the file that take [_left] and
    [_right] are functions of a direction.  A failed [assert] and an access to an
    address that holds no node are a [Panic].

    A heap stands for a tree with a hole and the subtree in it, so that moving the
    pointers [x] and [x->parent] of a loop is moving the hole, and a rotation is
    one step at the hole. *)

From S2P Require Import Prelude.
From stdpp Require Import list gmap.
#[local] Open Scope Z_scope.

(** * Code *)

Abbreviation ptr := Z (only parsing).

Record rb_node := MkNode { red : bool; parent : ptr; lchild : ptr; rchild : ptr }.

(** The field compare of the C struct is an argument of the functions that use it. *)
Record rb_tree := MkTree { nil_ : ptr; root_ : ptr }.

Abbreviation heap := (gmap ptr rb_node) (only parsing).

Inductive dir := L | R.
Definition opp (d : dir) : dir := match d with L => R | R => L end.

#[export] Instance dir_eq_dec : EqDecision dir.
Proof. solve_decision. Defined.

Definition child (d : dir) (n : rb_node) : ptr := match d with L => lchild n | R => rchild n end.
Definition with_child (d : dir) (v : ptr) (n : rb_node) : rb_node :=
  match d with L => MkNode (red n) (parent n) v (rchild n) | R => MkNode (red n) (parent n) (lchild n) v end.
Definition with_parent (v : ptr) (n : rb_node) : rb_node := MkNode (red n) v (lchild n) (rchild n).
Definition with_red (v : bool) (n : rb_node) : rb_node := MkNode v (parent n) (lchild n) (rchild n).

(** Reading and writing the fields of [*p]. *)
Definition load (p : ptr) (h : heap) : outcome rb_node := of_option (h !! p).
Definition get_child (d : dir) (p : ptr) (h : heap) : outcome ptr := n ← load p h; Done (child d n).
Definition get_parent (p : ptr) (h : heap) : outcome ptr := n ← load p h; Done (parent n).
Definition get_red (p : ptr) (h : heap) : outcome bool := n ← load p h; Done (red n).
Definition update (f : rb_node -> rb_node) (p : ptr) (h : heap) : outcome heap := n ← load p h; Done (<[p := f n]> h).
Definition set_child (d : dir) (p v : ptr) : heap -> outcome heap := update (with_child d v) p.
Definition set_parent (p v : ptr) : heap -> outcome heap := update (with_parent v) p.
Definition set_red (p : ptr) (v : bool) : heap -> outcome heap := update (with_red v) p.

Section Code.
Context (tree : rb_tree).
Abbreviation nil := (nil_ tree).
Abbreviation root := (root_ tree).

(** FUNC_ROTATE; [rotate L] is rb_left_rotate. *)
Definition rotate (_left : dir) (x : ptr) (h : heap) : outcome heap :=
  let _right := opp _left in
  y ← get_child _right x h;
  _ ← assert_ (x <> root /\ x <> nil /\ y <> nil);
  yl ← get_child _left y h;
  h ← set_child _right x yl h;
  yl ← get_child _left y h;
  h ← (if decide (yl <> nil) then set_parent yl x h else Done h);
  xp ← get_parent x h;
  h ← set_parent y xp h;
  xp ← get_parent x h;
  xpl ← get_child _left xp h;
  h ← (if decide (x = xpl) then set_child _left xp y h else set_child _right xp y h);
  h ← set_child _left y x h;
  h ← set_parent x y h;
  nred ← get_red nil h;
  _ ← assert_ (nred = false);
  Done h.

Section Compare.
Context (compare : ptr -> ptr -> Z).

(** The loop of rb_insert_binary; the result is [y]. *)
Definition descend (fuel : nat) (node : ptr) (h : heap) : outcome ptr :=
  x ← get_child L root h;
  loop fuel (fun '(y, x) =>
    if decide (x <> nil) then
      x' ← (if 0 <? compare x node then get_child L x h else get_child R x h);
      Done (inl (x, x'))
    else Done (inr y)) (root, x).

Definition rb_insert_binary (fuel : nat) (node : ptr) (h : heap) : outcome heap :=
  h ← set_child R node nil h;
  h ← set_child L node nil h;
  y ← descend fuel node h;
  h ← set_parent node y h;
  if decide (y = root) then set_child L y node h else
  if 0 <? compare y node then set_child L y node h else set_child R y node h.
End Compare.

(** RB_INSERT_SUB. *)
Definition insert_sub (_left : dir) (x : ptr) (h : heap) : outcome (ptr * heap) :=
  let _right := opp _left in
  xp ← get_parent x h; xpp ← get_parent xp h;
  y ← get_child _right xpp h;
  yred ← get_red y h;
  if yred : bool then
    h ← set_red xp false h;
    h ← set_red y false h;
    xp ← get_parent x h; xpp ← get_parent xp h;
    h ← set_red xpp true h;
    Done (xpp, h)
  else
    xp ← get_parent x h;
    xpr ← get_child _right xp h;
    '(x, h) ← (if decide (x = xpr) then h ← rotate _left xp h; Done (xp, h) else Done (x, h));
    xp ← get_parent x h;
    h ← set_red xp false h;
    xp ← get_parent x h; xpp ← get_parent xp h;
    h ← set_red xpp true h;
    xp ← get_parent x h; xpp ← get_parent xp h;
    h ← rotate _right xpp h;
    Done (x, h).

(** The loop of rb_insert. *)
Definition insert_fixup (fuel : nat) (x : ptr) (h : heap) : outcome heap :=
  loop fuel (fun '(x, h) =>
    xp ← get_parent x h;
    xpred ← get_red xp h;
    if xpred : bool then
      xpp ← get_parent xp h;
      l ← get_child L xpp h;
      st ← (if decide (xp = l) then insert_sub L x h else insert_sub R x h);
      Done (inl st)
    else Done (inr h)) (x, h).

Definition rb_insert (compare : ptr -> ptr -> Z) (fuel : nat) (node : ptr) (h : heap) : outcome heap :=
  h ← rb_insert_binary compare fuel node h;
  h ← set_red node true h;
  h ← insert_fixup fuel node h;
  top ← get_child L root h;
  h ← set_red top false h;
  nred ← get_red nil h;
  rred ← get_red root h;
  _ ← assert_ (nred = false /\ rred = false);
  Done h.

(** [while (y->_left != nil) y = y->_left]. *)
Definition walk (d : dir) (fuel : nat) (y : ptr) (h : heap) : outcome ptr :=
  loop fuel (fun y =>
    yl ← get_child d y h;
    if decide (yl <> nil) then Done (inl yl) else Done (inr y)) y.

Definition rb_tree_successor (fuel : nat) (x : ptr) (h : heap) : outcome ptr :=
  y ← get_child R x h;
  if decide (y <> nil) then walk L fuel y h
  else
    y ← get_parent x h;
    y ← loop fuel (fun '(x, y) =>
      yr ← get_child R y h;
      if decide (x = yr) then y' ← get_parent y h; Done (inl (y, y')) else Done (inr y)) (x, y);
    Done (if decide (y = root) then nil else y).

Definition rb_tree_predecessor (fuel : nat) (x : ptr) (h : heap) : outcome ptr :=
  y ← get_child L x h;
  if decide (y <> nil) then walk R fuel y h
  else
    y ← get_parent x h;
    loop fuel (fun '(x, y) =>
      yl ← get_child L y h;
      if decide (x = yl) then
        if decide (y = root) then Done (inr nil) else y' ← get_parent y h; Done (inl (y, y'))
      else Done (inr y)) (x, y).

(** rb_search; [compare node] is the comparison of the node with the key. *)
Definition rb_search (compare : ptr -> Z) (fuel : nat) (h : heap) : outcome (option ptr) :=
  node ← get_child L root h;
  node ← loop fuel (fun node =>
    if decide (node <> nil) then
      let r := compare node in
      if r =? 0 then Done (inr node)
      else node ← (if 0 <? r then get_child L node h else get_child R node h); Done (inl node)
    else Done (inr node)) node;
  Done (if decide (node <> nil) then Some node else None).

(** RB_DELETE_FIXUP_SUB; [top] is the variable root of rb_delete_fixup. *)
Definition delete_fixup_sub (_left : dir) (top x : ptr) (h : heap) : outcome (ptr * heap) :=
  let _right := opp _left in
  xp ← get_parent x h;
  w ← get_child _right xp h;
  wred ← get_red w h;
  '(w, h) ← (if wred : bool then
               h ← set_red w false h;
               xp ← get_parent x h;
               h ← set_red xp true h;
               xp ← get_parent x h;
               h ← rotate _left xp h;
               xp ← get_parent x h;
               w ← get_child _right xp h;
               Done (w, h)
             else Done (w, h));
  wl ← get_child _left w h; wlred ← get_red wl h;
  wr ← get_child _right w h; wrred ← get_red wr h;
  if negb wlred && negb wrred then
    h ← set_red w true h;
    xp ← get_parent x h;
    Done (xp, h)
  else
    '(w, h) ← (if negb wrred then
                 h ← set_red wl false h;
                 h ← set_red w true h;
                 h ← rotate _right w h;
                 xp ← get_parent x h;
                 w ← get_child _right xp h;
                 Done (w, h)
               else Done (w, h));
    xp ← get_parent x h; xpred ← get_red xp h;
    h ← set_red w xpred h;
    xp ← get_parent x h;
    h ← set_red xp false h;
    wr ← get_child _right w h;
    h ← set_red wr false h;
    xp ← get_parent x h;
    h ← rotate _left xp h;
    Done (top, h).

Definition rb_delete_fixup (fuel : nat) (x : ptr) (h : heap) : outcome heap :=
  top ← get_child L root h;
  '(x, h) ← loop fuel (fun '(x, h) =>
    xred ← get_red x h;
    if decide (x <> top /\ xred = false) then
      xp ← get_parent x h;
      l ← get_child L xp h;
      st ← (if decide (x = l) then delete_fixup_sub L top x h else delete_fixup_sub R top x h);
      Done (inl st)
    else Done (inr (x, h))) (x, h);
  set_red x false h.

(** [if (p == p->parent->left) p->parent->left = v; else p->parent->right = v]. *)
Definition replace_child (p v : ptr) (h : heap) : outcome heap :=
  pp ← get_parent p h;
  l ← get_child L pp h;
  if decide (p = l) then set_child L pp v h else set_child R pp v h.

(** The part of rb_delete that puts [y] in the place of [z]. *)
Definition transplant (y z : ptr) (h : heap) : outcome heap :=
  h ← replace_child z y h;
  zr ← get_child R z h;
  h ← set_parent zr y h;
  zl ← get_child L z h;
  h ← set_parent zl y h;
  nz ← load z h;
  update (fun _ => nz) y h.

Definition rb_delete (fuel : nat) (z : ptr) (h : heap) : outcome heap :=
  zl ← get_child L z h;
  zr ← get_child R z h;
  y ← (if decide (zl = nil \/ zr = nil) then Done z else rb_tree_successor fuel z h);
  yl ← get_child L y h;
  x ← (if decide (yl <> nil) then Done yl else get_child R y h);
  _ ← assert_ (y <> root /\ y <> nil);
  yp ← get_parent y h;
  h ← set_parent x yp h;
  h ← replace_child y x h;
  yred ← get_red y h;
  h ← (if decide (y <> z) then transplant y z h else Done h);
  if negb yred then rb_delete_fixup fuel x h else Done h.

Definition rb_node_prev (fuel : nat) (node : ptr) (h : heap) : outcome (option ptr) :=
  prev ← rb_tree_predecessor fuel node h;
  Done (if decide (prev <> nil) then Some prev else None).

Definition rb_node_next (fuel : nat) (node : ptr) (h : heap) : outcome (option ptr) :=
  next ← rb_tree_successor fuel node h;
  Done (if decide (next <> nil) then Some next else None).

Definition rb_node_root (h : heap) : outcome (option ptr) :=
  node ← get_child L root h;
  Done (if decide (node <> nil) then Some node else None).

Definition rb_node_left (node : ptr) (h : heap) : outcome (option ptr) :=
  left ← get_child L node h;
  Done (if decide (left <> nil) then Some left else None).

Definition rb_node_right (node : ptr) (h : heap) : outcome (option ptr) :=
  right ← get_child R node h;
  Done (if decide (right <> nil) then Some right else None).

Definition rb_tree_empty (h : heap) : outcome bool := l ← get_child L root h; Done (bool_decide (l = nil)).

(** check_tree, the kernel's own test of the invariants; [fuel] bounds the depth. *)
Fixpoint check_tree (compare : ptr -> ptr -> Z) (fuel : nat) (node : ptr) (h : heap) : outcome Z :=
  match fuel with
  | O => OutOfFuel
  | S fuel =>
      r ← get_red node h;
      if decide (node = nil) then _ ← assert_ (r = false); Done 1 else
      l ← get_child L node h;
      _ ← (if decide (l <> nil) then
             _ ← assert_ (compare node l >= 0);
             lp ← get_parent l h;
             assert_ (lp = node)
           else Done tt);
      rt ← get_child R node h;
      _ ← (if decide (rt <> nil) then
             _ ← assert_ (compare node rt <= 0);
             rp ← get_parent rt h;
             assert_ (rp = node)
           else Done tt);
      _ ← (if r : bool then
             lred ← get_red l h; rred ← get_red rt h;
             assert_ (lred = false /\ rred = false)
           else Done tt);
      hb_left ← check_tree compare fuel l h;
      hb_right ← check_tree compare fuel rt h;
      _ ← assert_ (hb_left = hb_right);
      Done (if negb r then hb_left + 1 else hb_left)
  end.
End Code.

(** rb_tree_create, from the results of its three calls of kmalloc. *)
Definition rb_tree_create (tree n r : option ptr) (h : heap) : option rb_tree * heap :=
  match tree, n, r with
  | Some _, Some n, Some r => (Some (MkTree n r), <[r := MkNode false n n n]> (<[n := MkNode false n n n]> h))
  | Some _, Some n, None => (None, delete n (<[n := MkNode false n n n]> h))
  | _, _, _ => (None, h)
  end.

(** rb_tree_destroy: the two nodes are freed. *)
Definition rb_tree_destroy (tree : rb_tree) (h : heap) : heap := delete (nil_ tree) (delete (root_ tree) h).

(** * Trees and trees with a hole *)

Inductive tree := E | T (c : bool) (l : tree) (a : ptr) (r : tree).

(** A node whose child on the side [d] is [l]. *)
Definition node (d : dir) (c : bool) (l : tree) (a : ptr) (r : tree) : tree := match d with L => T c l a r | R => T c r a l end.

Fixpoint inorder (t : tree) : list ptr := match t with E => [] | T _ l a r => inorder l ++ a :: inorder r end.

Definition is_red (t : tree) : bool := match t with E => false | T c _ _ _ => c end.

(** One node on the way to the hole, which is on its side [d]; [s] is the other
    child. *)
Inductive frame := F (d : dir) (c : bool) (a : ptr) (s : tree).

Definition plug (f : frame) (t : tree) : tree := let 'F d c a s := f in node d c t a s.

(** The frames from the hole to the root. *)
Fixpoint zip (k : list frame) (t : tree) : tree := match k with [] => t | f :: k => zip k (plug f t) end.

(** The addresses before and after the hole. *)
Fixpoint before (k : list frame) : list ptr :=
  match k with [] => [] | F L _ _ _ :: k => before k | F R _ a s :: k => before k ++ inorder s ++ [a] end.
Fixpoint after (k : list frame) : list ptr :=
  match k with [] => [] | F L _ a s :: k => a :: inorder s ++ after k | F R _ _ _ :: k => after k end.

Lemma inorder_zip k : forall t, inorder (zip k t) = before k ++ inorder t ++ after k.
Proof.
  induction k as [|[[] c a s] k IH]; intros t; cbn [zip before after]; [by rewrite app_nil_r|..]; rewrite IH; cbn [plug node inorder];
    by rewrite <- !app_assoc.
Qed.

Lemma opp_opp d : opp (opp d) = d.
Proof. by destruct d. Qed.

Lemma node_opp d c l a r : node (opp d) c r a l = node d c l a r.
Proof. by destruct d. Qed.

Lemma inorder_rotate d c a x c2 b y e : inorder (node d c2 (node d c a x b) y e) = inorder (node d c a x (node d c2 b y e)).
Proof. destruct d; cbn [node inorder]; by rewrite <- ?app_assoc. Qed.

Lemma in_node d c l a r : a ∈ inorder (node d c l a r).
Proof. destruct d; cbn; set_solver. Qed.

Lemma in_node_l d c l a r z : z ∈ inorder l -> z ∈ inorder (node d c l a r).
Proof. destruct d; cbn; set_solver. Qed.

Lemma in_node_r d c l a r z : z ∈ inorder r -> z ∈ inorder (node d c l a r).
Proof. destruct d; cbn; set_solver. Qed.

Section Rep.
Context (tr : rb_tree).
Abbreviation nil := (nil_ tr).
Abbreviation root := (root_ tr).

Definition hd (t : tree) : ptr := match t with E => nil | T _ _ a _ => a end.
Definition up (k : list frame) : ptr := match k with [] => root | F _ _ a _ :: _ => a end.

(** The side of [up k] on which the hole is. *)
Definition side (k : list frame) : dir := match k with [] => L | F d _ _ _ :: _ => d end.

Definition fnode (d : dir) (c : bool) (p hole s : ptr) : rb_node :=
  match d with L => MkNode c p hole s | R => MkNode c p s hole end.

(** The heap holds the tree [t], whose parent is [p]. *)
Fixpoint rep (h : heap) (t : tree) (p : ptr) : Prop :=
  match t with
  | E => True
  | T c l a r => h !! a = Some (MkNode c p (hd l) (hd r)) /\ rep h l a /\ rep h r a
  end.

(** The heap holds the frames [k]; the pointer to the hole is [hole]. *)
Fixpoint repc (h : heap) (k : list frame) (hole : ptr) : Prop :=
  match k with
  | [] => h !! root = Some (MkNode false nil hole nil)
  | F d c a s :: k => h !! a = Some (fnode d c (up k) hole (hd s)) /\ rep h s a /\ repc h k a
  end.

Definition good (l : list ptr) : Prop := NoDup l /\ (root ∉ l) /\ (nil ∉ l) /\ root <> nil.

(** The heap holds the tree [zip k t]. *)
Definition st (h : heap) (k : list frame) (t : tree) : Prop :=
  repc h k (hd t) /\ rep h t (up k) /\ good (inorder (zip k t)) /\ exists n, h !! nil = Some n /\ red n = false.

(** Moving the hole. *)
Lemma st_plug h f k t : st h (f :: k) t <-> st h k (plug f t).
Proof.
  unfold st. cbn [zip]. destruct f as [d c a s]. cbn [repc plug up].
  assert (Hr : rep h (node d c t a s) (up k) <-> h !! a = Some (fnode d c (up k) (hd t) (hd s)) /\ rep h t a /\ rep h s a)
    by (destruct d; cbn [node rep fnode]; tauto).
  assert (Hh : hd (node d c t a s) = a) by (by destruct d). rewrite Hr, Hh. tauto.
Qed.

(** Heaps that agree on the addresses of a tree. *)
Definition agree (h h' : heap) (l : list ptr) : Prop := forall a, a ∈ l -> h' !! a = h !! a.

Lemma rep_agree h h' t : forall p, agree h h' (inorder t) -> rep h t p -> rep h' t p.
Proof.
  induction t as [|c l IHl a r IHr]; intros p Ha; cbn [rep inorder] in *; [done|]. intros (Hn & Hl & Hr). unfold agree in *.
  split; [rewrite Ha; [done|set_solver]|]. split; [apply IHl|apply IHr]; try done; intros b Hb; apply Ha; set_solver.
Qed.

Lemma repc_agree h h' k : forall hole, agree h h' (root :: before k ++ after k) -> repc h k hole -> repc h' k hole.
Proof.
  unfold agree. induction k as [|[d c a s] k IH]; intros hole Ha; cbn [repc before after] in *; [intros <-; apply Ha; set_solver|].
  intros (Hn & Hs & Hk). assert (Ha' : a ∈ root :: before (F d c a s :: k) ++ after (F d c a s :: k)) by (destruct d; cbn; set_solver).
  assert (Hi : forall b, b ∈ inorder s -> b ∈ root :: before (F d c a s :: k) ++ after (F d c a s :: k)) by (destruct d; cbn; set_solver).
  assert (Hu : forall b, b ∈ root :: before k ++ after k -> b ∈ root :: before (F d c a s :: k) ++ after (F d c a s :: k)) by (destruct d; cbn; set_solver).
  cbn [before after] in *. split; [rewrite Ha; [done|by apply Ha']|]. split; [eapply rep_agree; [|done]; intros b Hb; apply Ha, Hi, Hb|].
  apply IH; [|done]. intros b Hb. by apply Ha, Hu.
Qed.

Lemma rep_node h d c l a r p : rep h (node d c l a r) p <-> h !! a = Some (fnode d c p (hd l) (hd r)) /\ rep h l a /\ rep h r a.
Proof. destruct d; cbn [node rep fnode]; tauto. Qed.

Lemma hd_node d c l a r : hd (node d c l a r) = a.
Proof. by destruct d. Qed.

Lemma up_in k : up k ∈ root :: before k ++ after k.
Proof. destruct k as [|[[] c a s] k]; cbn; set_solver. Qed.

(** The addresses of the parts are different. *)
Lemma st_good h k t : st h k t ->
  NoDup (inorder t) /\ NoDup (before k ++ after k) /\ root <> nil /\
  (forall a, a ∈ inorder t -> a ∉ root :: before k ++ after k) /\ (nil ∉ root :: before k ++ after k) /\ (nil ∉ inorder t) /\ (root ∉ before k ++ after k).
Proof.
  intros (_ & _ & (Hd & Hr & Hn & Hrn) & _). rewrite inorder_zip in *. apply NoDup_app in Hd as (Hb & H1 & Hd). apply NoDup_app in Hd as (Ht & H2 & Ha).
  split_and!; try done; [apply NoDup_app; set_solver|set_solver..].
Qed.

Lemma repc_up h k hole : repc h k hole -> NoDup (before k ++ after k) -> (root ∉ before k ++ after k) -> (nil ∉ before k ++ after k) ->
  exists n, h !! up k = Some n /\ child (side k) n = hole /\
    (child (opp (side k)) n = nil \/ child (opp (side k)) n ∈ before k ++ after k) /\
    forall hole' h', h' !! up k = Some (with_child (side k) hole' n) ->
      (forall z, z ∈ root :: before k ++ after k -> z <> up k -> h' !! z = h !! z) -> repc h' k hole'.
Proof.
  destruct k as [|[d c a s] k]; cbn [repc up side].
  { intros Hr _ _ _. eexists. split; [exact Hr|]. split; [done|]. split; [by left|]. intros hole' h' Hh _. exact Hh. }
  intros (Ha & Hs & Hk) Hnd Hroot Hnil. eexists. split; [exact Ha|]. split; [by destruct d|]. split.
  { destruct s as [|c2 l b r]; [left; by destruct d|right; destruct d; cbn; set_solver]. }
  intros hole' h' Hh Hag. split; [rewrite Hh; by destruct d|].
  assert (Hsub : forall z, z ∈ inorder s \/ z ∈ root :: before k ++ after k -> z ∈ root :: before (F d c a s :: k) ++ after (F d c a s :: k) /\ z <> a).
  { intros z Hz. destruct d; cbn [before after] in *.
    - apply NoDup_app in Hnd as (_ & H1 & H2). apply NoDup_cons in H2 as [H2 _]. split; [set_solver|]. intros ->. set_solver.
    - rewrite <- !app_assoc in Hnd. apply NoDup_app in Hnd as (_ & H1 & H2). apply NoDup_app in H2 as (_ & H2 & H3). apply NoDup_cons in H3 as [H3 _].
      split; [set_solver|]. intros ->. set_solver. }
  split; [eapply rep_agree; [|done]|eapply repc_agree; [|done]]; intros z Hz; (destruct (Hsub z); [auto|]); by apply Hag.
Qed.

Definition same (h h' : heap) (l : list ptr) : Prop := forall z, z ∉ root :: l -> h' !! z = h !! z.

(** ** Steps at the hole *)

Lemma get_child_eq h p n d : h !! p = Some n -> get_child d p h = Done (child d n).
Proof. intros H. unfold get_child, load. by rewrite H. Qed.
Lemma get_parent_eq h p n : h !! p = Some n -> get_parent p h = Done (parent n).
Proof. intros H. unfold get_parent, load. by rewrite H. Qed.
Lemma get_red_eq h p n : h !! p = Some n -> get_red p h = Done (red n).
Proof. intros H. unfold get_red, load. by rewrite H. Qed.
Lemma update_eq h p n f : h !! p = Some n -> update f p h = Done (<[p := f n]> h).
Proof. intros H. unfold update, load. by rewrite H. Qed.

(** A new colour at the hole. *)
Lemma st_red h k d c l a r c' : st h k (node d c l a r) ->
  returns (set_red a c' h) (fun h' => st h' k (node d c' l a r) /\ same h h' (inorder (zip k (node d c l a r)))).
Proof.
  intros Hst. destruct (st_good _ _ _ Hst) as (Hnd & Hndk & Hrn & Hdis & Hnk & Hnt & Hrk). destruct Hst as (Hk & Ht & Hg & n & Hnil & Hred).
  apply rep_node in Ht as (Ha & Hl & Hr). unfold set_red. rewrite (update_eq _ _ _ _ Ha). apply returns_done.
  pose proof (in_node d c l a r) as Hin.
  assert (Hal : (a ∉ inorder l) /\ (a ∉ inorder r)).
  { destruct d; cbn [node inorder] in Hnd; apply NoDup_app in Hnd as (_ & H1 & H2); apply NoDup_cons in H2 as [H2 _]; set_solver. }
  split; [unfold st; split_and!|].
  - rewrite hd_node in *. eapply repc_agree; [|exact Hk]. intros z Hz. apply lookup_insert_ne. intros ->. by apply (Hdis z).
  - apply rep_node. split_and!; [rewrite lookup_insert_eq; by destruct d|..]; (eapply rep_agree; [|done]); intros z Hz; apply lookup_insert_ne; intros ->; by destruct Hal.
  - rewrite inorder_zip in *. destruct d; exact Hg.
  - exists n. split; [|done]. rewrite lookup_insert_ne; [done|]. intros ->. done.
  - intros z Hz. apply lookup_insert_ne. intros ->. apply Hz. rewrite inorder_zip. set_solver.
Qed.

(** The addresses of the two nodes of a rotation and of their subtrees. *)
Lemma rotate_sep d c a x c2 b y e : NoDup (inorder (node d c a x (node d c2 b y e))) ->
  x <> y /\ (forall z, z ∈ inorder a \/ z ∈ inorder e -> z <> x /\ z <> y /\ z ∉ inorder b) /\ (forall z, z ∈ inorder b -> z <> x /\ z <> y) /\ NoDup (inorder b).
Proof.
  intros Hnd. destruct d; cbn [node inorder] in Hnd; repeat (rewrite NoDup_app in Hnd || rewrite NoDup_cons in Hnd);
    split_and!; try (destruct_and!; done); set_solver.
Qed.

(** The subtree whose parent changes. *)
Lemma rep_reparent h h' b p p' : rep h b p -> NoDup (inorder b) ->
  (forall n, b <> E -> h !! hd b = Some n -> h' !! hd b = Some (with_parent p' n)) ->
  (forall z, z ∈ inorder b -> z <> hd b -> h' !! z = h !! z) -> rep h' b p'.
Proof.
  destruct b as [|c l a r]; [done|]. cbn [rep hd inorder]. intros (Ha & Hl & Hr) Hnd Hp Hz. apply NoDup_app in Hnd as (_ & H1 & H2). apply NoDup_cons in H2 as [H2 _].
  split; [rewrite (Hp _ ltac:(done) Ha); done|]. split; (eapply rep_agree; [|done]); intros z Hin; apply Hz; set_solver.
Qed.

Lemma child_fnode d c p l r : child d (fnode d c p l r) = l.
Proof. by destruct d. Qed.
Lemma child_opp_fnode d c p l r : child (opp d) (fnode d c p l r) = r.
Proof. by destruct d. Qed.
Lemma parent_fnode d c p l r : parent (fnode d c p l r) = p.
Proof. by destruct d. Qed.
Lemma red_fnode d c p l r : red (fnode d c p l r) = c.
Proof. by destruct d. Qed.

(** Running code on a heap whose nodes are known. *)
Ltac look := repeat first [rewrite lookup_insert_eq | rewrite lookup_insert_ne by congruence]; first [eassumption | reflexivity].
Ltac hget := first [erewrite get_child_eq by look | erewrite get_parent_eq by look | erewrite get_red_eq by look | erewrite update_eq by look];
  cbn [mbind outcome_bind]; rewrite ?child_fnode, ?child_opp_fnode, ?parent_fnode, ?red_fnode.

Lemma rotate_heap h k d c a x c2 b y e : st h k (node d c a x (node d c2 b y e)) ->
  returns (rotate tr d x h) (fun h' => exists n, h !! up k = Some n /\ h' !! up k = Some (with_child (side k) y n) /\
    h' !! x = Some (fnode d c y (hd a) (hd b)) /\ h' !! y = Some (fnode d c2 (up k) x (hd e)) /\
    (forall n, b <> E -> h !! hd b = Some n -> h' !! hd b = Some (with_parent x n)) /\
    (forall z, z <> x -> z <> y -> z <> up k -> (b <> E -> z <> hd b) -> h' !! z = h !! z)).
Proof.
  intros Hst. destruct (st_good _ _ _ Hst) as (Hnd & Hndk & Hrn & Hdis & Hnk & Hnt & Hrk). destruct Hst as (Hk & Ht & _ & nn & Hnil & Hred).
  apply rep_node in Ht as (Hx & Ha & Ht). apply rep_node in Ht as (Hy & Hb & He). rewrite !hd_node in *.
  destruct (repc_up _ _ _ Hk) as (np & Hp & Hhole & Hopp & _); [done|done|by intros ?; apply Hnk; right|].
  destruct (rotate_sep _ _ _ _ _ _ _ _ Hnd) as (Hxy & Hae & Hbs & Hndb).
  pose proof (in_node d c a x (node d c2 b y e)) as Hxin.
  pose proof (in_node_r d c a x (node d c2 b y e) y (in_node d c2 b y e)) as Hyin.
  pose proof (up_in k) as Hup. pose proof (Hdis _ Hxin) as Hxk. pose proof (Hdis _ Hyin) as Hyk.
  assert (x <> root) by (intros ->; apply Hxk; left). assert (x <> nil) by congruence. assert (y <> nil) by congruence.
  assert (x <> up k) by congruence. assert (y <> up k) by congruence. assert (nil <> up k) by congruence.
  assert (Hbin : b <> E -> hd b ∈ inorder b) by (destruct b; [done|intros _; apply (in_node L)]).
  unfold rotate, assert_. hget. rewrite decide_True by done. cbn [mbind outcome_bind]. hget. unfold set_child. hget. hget.
  replace (with_child (opp d) (hd b) _) with (fnode d c (up k) (hd a) (hd b)) by (by destruct d).
  eapply (returns_bind _ _ (fun h2 => h2 !! x = Some (fnode d c (up k) (hd a) (hd b)) /\ h2 !! y = Some (fnode d c2 x (hd b) (hd e)) /\
    h2 !! up k = Some np /\ h2 !! nil = Some nn /\ (forall n, b <> E -> h !! hd b = Some n -> h2 !! hd b = Some (with_parent x n)) /\
    (forall z, z <> x -> (b <> E -> z <> hd b) -> h2 !! z = h !! z))).
  { destruct b as [|cb bl bb br].
    - rewrite decide_False by (cbn; tauto). apply returns_done. split_and!; try done; try look. intros z Hz _. look.
    - cbn [hd] in *. assert (Hbb : bb ∈ inorder (T cb bl bb br)) by auto. destruct (Hbs bb Hbb) as [Hbx Hby]. cbn [rep] in Hb. destruct Hb as (Hb & _ & _).
      assert (bb ∈ inorder (node d c a x (node d c2 (T cb bl bb br) y e))) as Hbt by (by apply in_node_r, in_node_l).
      assert (bb <> nil) by congruence. pose proof (Hdis _ Hbt). assert (bb <> up k) by congruence.
      rewrite decide_True by done. unfold set_parent. hget. apply returns_done. split_and!; try look.
      + intros n _ Hn. rewrite lookup_insert_eq. congruence.
      + intros z Hz Hzb. specialize (Hzb ltac:(done)). look. }
  intros h2 (Hx2 & Hy2 & Hp2 & Hn2 & Hb2 & Hz2). hget. unfold set_parent. hget. hget. hget.
  assert (Hsel : (if decide (x = child d np) then update (with_child d y) (up k) (<[y:=with_parent (up k) (fnode d c2 x (hd b) (hd e))]> h2)
    else update (with_child (opp d) y) (up k) (<[y:=with_parent (up k) (fnode d c2 x (hd b) (hd e))]> h2)) =
    Done (<[up k := with_child (side k) y np]> (<[y:=with_parent (up k) (fnode d c2 x (hd b) (hd e))]> h2))).
  { destruct (decide (d = side k)) as [->|Hne]; [rewrite decide_True by done; by erewrite update_eq by look|].
    assert (d = opp (side k)) as -> by (by destruct d, (side k)). rewrite decide_False, opp_opp; [by erewrite update_eq by look|].
    intros Hx'. destruct Hopp as [Hopp|Hopp]; [congruence|]. rewrite <- Hx' in Hopp. apply Hxk. by right. }
  rewrite Hsel. cbn [mbind outcome_bind]. hget. hget. hget. rewrite Hred, decide_True by done. cbn [mbind outcome_bind]. apply returns_done.
  exists np. split_and!; try look; [by destruct d; look|by destruct d; look| |].
  - intros n Hbe Hn. destruct (Hbs (hd b) (Hbin Hbe)). assert (hd b <> up k).
    { intros Heq. apply (Hdis (hd b)); [by apply in_node_r, in_node_l, Hbin|]. by rewrite Heq. }
    specialize (Hb2 n Hbe Hn). look.
  - intros z Hzx Hzy Hzp Hzb. rewrite !lookup_insert_ne by congruence. by apply Hz2.
Qed.

(** A rotation. *)
Lemma st_rotate h k d c a x c2 b y e : st h k (node d c a x (node d c2 b y e)) ->
  returns (rotate tr d x h) (fun h' => st h' k (node d c2 (node d c a x b) y e) /\ same h h' (inorder (zip k (node d c a x (node d c2 b y e))))).
Proof.
  intros Hst. destruct (st_good _ _ _ Hst) as (Hnd & Hndk & Hrn & Hdis & Hnk & Hnt & Hrk).
  destruct (rotate_sep _ _ _ _ _ _ _ _ Hnd) as (Hxy & Hae & Hbs & Hndb).
  pose proof (in_node d c a x (node d c2 b y e)) as Hxin. pose proof (in_node_r d c a x (node d c2 b y e) y (in_node d c2 b y e)) as Hyin.
  destruct (rotate_heap _ _ _ _ _ _ _ _ _ _ Hst) as (h' & E & np & Hp & Hp' & Hx' & Hy' & Hb' & Hz'). exists h'. split; [exact E|].
  destruct Hst as (Hk & Ht & Hg & nn & Hnil & Hred). apply rep_node in Ht as (_ & Ha & Ht). apply rep_node in Ht as (_ & Hb & He). rewrite !hd_node in *.
  assert (Hin : forall z, z ∈ inorder a \/ z ∈ inorder b \/ z ∈ inorder e -> z ∈ inorder (node d c a x (node d c2 b y e))).
  { intros z [Hz|[Hz|Hz]]; [by apply in_node_l|by apply in_node_r, in_node_l|by apply in_node_r, in_node_r]. }
  assert (Hbin : b <> RbTree.E -> hd b ∈ inorder b) by (destruct b; [done|intros _; apply (in_node L)]).
  assert (Hsub : forall z, z ∈ inorder a \/ z ∈ inorder e -> h' !! z = h !! z).
  { intros z Hz. destruct (Hae z Hz) as (? & ? & Hzb). apply Hz'; try done; [|intros Hbe ->; by apply Hzb, Hbin].
    intros ->. apply (Hdis (up k)); [by apply Hin; destruct Hz; auto|apply up_in]. }
  assert (Hctx : forall z, z ∉ inorder (node d c a x (node d c2 b y e)) -> z <> up k -> h' !! z = h !! z).
  { intros z Hz Hzp. apply Hz'; [intros ->; done..|done|]. intros Hbe ->. apply Hz, Hin. auto. }
  split; [unfold st; split_and!|].
  - rewrite hd_node. destruct (repc_up _ _ _ Hk) as (n & Hn & _ & _ & Hset); [done|done|by intros ?; apply Hnk; right|].
    apply Hset; [congruence|]. intros z Hz Hzp. apply Hctx; [|done]. intros Hz2. by apply (Hdis z).
  - apply rep_node. rewrite hd_node. split; [done|]. split; [apply rep_node; split; [done|]|].
    + split; [eapply rep_agree; [|exact Ha]; intros z Hz; auto|]. eapply rep_reparent; [exact Hb|done|exact Hb'|].
      intros z Hz Hzb. destruct (Hbs z Hz). apply Hz'; try done. intros ->. apply (Hdis (up k)); [auto|apply up_in].
    + eapply rep_agree; [|exact He]. intros z Hz. auto.
  - rewrite inorder_zip, inorder_rotate, <- inorder_zip. done.
  - exists nn. split; [|done]. rewrite Hctx; [done|done|]. intros Heq. apply Hnk. rewrite Heq. apply up_in.
  - intros z Hz. rewrite inorder_zip in Hz. apply Hctx.
    + intros Hz2. apply Hz. right. rewrite !elem_of_app. auto.
    + intros ->. apply Hz. pose proof (up_in k) as Hu. apply elem_of_cons in Hu as [->|Hu]; [left|right]. rewrite !elem_of_app in *. tauto.
Qed.
End Rep.
