(* ===== verification/RbInsert.v ===== *)
(** Red-black trees of the ucore kernel (src/ucore/src/kern-ucore/libs/rb_tree.c):
    the invariants, and rb_insert, rb_search and the walks along the tree. *)

From S2P Require Import Prelude.
From Stdlib Require Import Sorted.
From stdpp Require Import list gmap sorting.
From S2P Require Import RbTree.
#[local] Open Scope Z_scope.

(** * Invariants *)

(** Black height [n], and no red node has a red child. *)
Fixpoint rb (t : tree) (n : nat) : Prop :=
  match t with
  | E => n = O
  | T true l _ r => rb l n /\ rb r n /\ is_red l = false /\ is_red r = false
  | T false l _ r => match n with O => False | S n => rb l n /\ rb r n end
  end.

Definition top_black (k : list frame) : Prop := match k with [] => False | F _ c _ _ :: _ => c = false end.

(** The same of the tree around a hole that takes a tree of black height [n]; its
    root is black. *)
Fixpoint ctx_rb (k : list frame) (n : nat) : Prop :=
  match k with
  | [] => True
  | F _ c _ s :: k => rb s n /\ if c : bool then is_red s = false /\ top_black k /\ ctx_rb k n else ctx_rb k (S n)
  end.

Lemma rb_red d l a r n : rb (node d true l a r) n <-> rb l n /\ rb r n /\ is_red l = false /\ is_red r = false.
Proof. destruct d; cbn [node rb]; tauto. Qed.

Lemma rb_black d l a r n : rb (node d false l a r) (S n) <-> rb l n /\ rb r n.
Proof. destruct d; cbn [node rb]; tauto. Qed.

Lemma rb_black_inv d l a r n : rb (node d false l a r) n -> exists m, n = S m /\ rb l m /\ rb r m.
Proof. destruct d, n; cbn [node rb]; [done| |done|]; intros [? ?]; by eexists. Qed.

Lemma is_red_node d c l a r : is_red (node d c l a r) = c.
Proof. by destruct d. Qed.

(** A red tree in a hole below a black node, or a black tree in any hole. *)
Lemma rb_zip k : forall n t, ctx_rb k n -> rb t n -> (is_red t = true -> k = [] \/ top_black k) ->
  exists m, rb (zip k t) m /\ (k <> [] -> is_red (zip k t) = false).
Proof.
  induction k as [|[d c a s] k IH]; intros n t Hk Ht Hr; cbn [zip ctx_rb top_black] in *; [by exists n|]. destruct Hk as [Hs Hk].
  destruct c.
  - destruct Hk as (Hsb & Htop & Hk). destruct (IH n (plug (F d true a s) t) Hk) as (m & Hm & Hb).
    + apply rb_red. split_and!; try done. destruct (is_red t); [|done]. by destruct Hr.
    + intros _. by right.
    + exists m. split; [done|]. intros _. apply Hb. by destruct k.
  - destruct (IH (S n) (plug (F d false a s) t) Hk) as (m & Hm & Hb).
    + by apply rb_black.
    + cbn [plug]. by rewrite is_red_node.
    + exists m. split; [done|]. intros _. destruct k; [cbn; apply is_red_node|by apply Hb].
Qed.

(** The invariants of a tree, seen from a hole. *)
Lemma zip_rb k : forall t m, rb (zip k t) m -> is_red (zip k t) = false -> exists n, ctx_rb k n /\ rb t n /\ (is_red t = true -> top_black k).
Proof.
  induction k as [|[d c a s] k IH]; intros t m Hm Hb; cbn [zip] in *; [exists m; split_and!; try done; congruence|].
  destruct (IH _ _ Hm Hb) as (n & Hk & Hp & Htop). cbn [plug] in *. rewrite is_red_node in Htop. destruct c.
  - apply rb_red in Hp as (Ht & Hs & Hbt & Hbs). exists n. cbn [ctx_rb top_black]. split_and!; try done; [by apply Htop|congruence].
  - apply rb_black_inv in Hp as (n' & -> & Ht & Hs). by exists n'.
Qed.

Lemma st_zip tr h k : forall t, st tr h k t <-> st tr h [] (zip k t).
Proof. induction k as [|f k IH]; intros t; [done|]. cbn [zip]. by rewrite st_plug, IH. Qed.

(** Either direction is [d] or its opposite. *)
Lemma node_view d t c l a r : t = T c l a r -> exists l' r', t = node d c l' a r'.
Proof. intros ->. destruct d; by eexists _, _. Qed.

(** * Reading the heap at the hole *)

Section Read.
Context (tr : rb_tree).

Lemma st_hole h k d c l a r : st tr h k (node d c l a r) -> h !! a = Some (fnode d c (up tr k) (hd tr l) (hd tr r)).
Proof. intros (_ & Ht & _). by apply rep_node in Ht as [? _]. Qed.

Lemma st_hd_red h k t : st tr h k t -> get_red (hd tr t) h = Done (is_red t).
Proof.
  intros (_ & Ht & _ & n & Hn & Hr). destruct t as [|c l a r]; cbn [hd is_red rep] in *; [erewrite get_red_eq by done; by rewrite Hr|].
  destruct Ht as [Ha _]. by erewrite get_red_eq by done.
Qed.

Lemma st_hd_nil h k t : st tr h k t -> hd tr t = nil_ tr <-> t = E.
Proof.
  intros Hst. destruct (st_good _ _ _ _ Hst) as (_ & _ & _ & _ & _ & Hn & _). destruct t as [|c l a r]; [done|]. cbn [hd]. split; [|done].
  intros ->. exfalso. apply Hn. apply (in_node L).
Qed.

(** The subtrees. *)
Lemma st_left h k d c l a r : st tr h k (node d c l a r) -> st tr h (F d c a r :: k) l.
Proof. intros H. by apply st_plug. Qed.
Lemma st_right h k d c l a r : st tr h k (node d c l a r) -> st tr h (F (opp d) c a l :: k) r.
Proof. intros H. apply st_plug. cbn [plug]. by rewrite node_opp. Qed.

(** The node above the hole. *)
Lemma st_up h k d c a s t : st tr h (F d c a s :: k) t -> h !! a = Some (fnode d c (up tr k) (hd tr t) (hd tr s)).
Proof. intros H. apply st_plug in H. by apply st_hole in H. Qed.

Lemma st_up_red h k t : st tr h k t -> get_red (up tr k) h = Done (match k with [] => false | F _ c _ _ :: _ => c end).
Proof.
  intros H. destruct k as [|[d c a s] k]; [destruct H as (H & _); by erewrite get_red_eq by exact H|].
  apply st_up in H. erewrite get_red_eq by exact H. by rewrite red_fnode.
Qed.

(** The parent of a node. *)
Lemma st_parent h k d c l a r : st tr h k (node d c l a r) -> get_parent a h = Done (up tr k).
Proof. intros H. apply st_hole in H. erewrite get_parent_eq by exact H. by rewrite parent_fnode. Qed.

Lemma st_up_parent h k d c a s t : st tr h (F d c a s :: k) t -> get_parent a h = Done (up tr k).
Proof. intros H. apply st_up in H. erewrite get_parent_eq by exact H. by rewrite parent_fnode. Qed.

(** The other child above the hole is another node. *)
Lemma st_sibling h k d c a s t : st tr h (F d c a s :: k) t -> t <> E -> hd tr t <> hd tr s.
Proof.
  intros Hst Ht Heq. destruct (st_good _ _ _ _ Hst) as (_ & _ & _ & Hdis & _ & Hn & _).
  assert (Hin : hd tr t ∈ inorder t) by (destruct t; [done|apply (in_node L)]). rewrite Heq in Hin.
  destruct s as [|c2 l b r]; cbn [hd] in Hin; [done|]. apply (Hdis b Hin). right. destruct d; cbn; set_solver.
Qed.

(** On which side of the node above the hole is. *)
Lemma st_side h k d c a s t d' : st tr h (F d c a s :: k) t -> t <> E ->
  exists q, get_child d' a h = Done q /\ (hd tr t = q <-> d = d').
Proof.
  intros Hst Ht. pose proof (st_sibling _ _ _ _ _ _ _ Hst Ht) as Hne. pose proof (st_up _ _ _ _ _ _ _ Hst) as Ha.
  erewrite get_child_eq by exact Ha. eexists. split; [done|]. destruct (decide (d = d')) as [<-|Hd]; [by rewrite child_fnode|].
  assert (d' = opp d) as -> by (by destruct d, d'). rewrite child_opp_fnode. done.
Qed.

(** The child of the grandparent on the other side. *)
Lemma st_uncle h k d c a s t : st tr h (F d c a s :: k) t -> get_child (opp d) a h = Done (hd tr s) /\ st tr h (F (opp d) c a t :: k) s.
Proof.
  intros Hst. split; [apply st_up in Hst; erewrite get_child_eq by exact Hst; by rewrite child_opp_fnode|].
  apply st_plug. cbn [plug]. rewrite node_opp. by apply st_plug in Hst.
Qed.

Lemma same_trans h h1 h2 l : same tr h h1 l -> same tr h1 h2 l -> same tr h h2 l.
Proof. intros H1 H2 z Hz. rewrite H2 by done. by apply H1. Qed.
End Read.

(** What insertion and deletion keep: the sequence of the nodes, and everything
    outside the tree. *)
Definition kept tr (h h' : gmap Z rb_node) (l l' : list Z) : Prop := l' = l /\ same tr h h' l.

Lemma kept_refl tr h l : kept tr h h l l.
Proof. done. Qed.

Lemma kept_trans tr h h1 h2 l l1 l2 : kept tr h h1 l l1 -> kept tr h1 h2 l1 l2 -> kept tr h h2 l l2.
Proof. intros [-> H1] [-> H2]. split; [done|]. by eapply same_trans. Qed.

Section Insert.
Context (tr : rb_tree).

(** The two steps, with what they keep. *)
Lemma red_step h k d c l a r c' : st tr h k (node d c l a r) ->
  returns (set_red a c' h) (fun h' => st tr h' k (node d c' l a r) /\
    kept tr h h' (inorder (zip k (node d c l a r))) (inorder (zip k (node d c' l a r)))).
Proof. intros H. go_mono st_red; [exact H|]. intros h' [? ?]. split; [done|]. split; [|done]. rewrite !inorder_zip. by destruct d. Qed.

Lemma rotate_step h k d c a x c2 b y e : st tr h k (node d c a x (node d c2 b y e)) ->
  returns (rotate tr d x h) (fun h' => st tr h' k (node d c2 (node d c a x b) y e) /\
    kept tr h h' (inorder (zip k (node d c a x (node d c2 b y e)))) (inorder (zip k (node d c2 (node d c a x b) y e)))).
Proof. intros H. go_mono st_rotate; [exact H|]. intros h' [? ?]. split; [done|]. split; [|done]. by rewrite !inorder_zip, inorder_rotate. Qed.

Lemma zip_opp d c a s t k : zip (F (opp d) c a t :: k) s = zip (F d c a s :: k) t.
Proof. cbn [zip plug]. by rewrite node_opp. Qed.

(** The hole after RB_INSERT_SUB: a red node again, higher up or below a black one. *)
Definition inserted (h : gmap Z rb_node) (k : list frame) (t : tree) (st' : Z * gmap Z rb_node) : Prop :=
  let '(x', h') := st' in
  exists k' l' r' n', let t' := node L true l' x' r' in
  st tr h' k' t' /\ rb t' n' /\ ctx_rb k' n' /\ kept tr h h' (inorder (zip k t)) (inorder (zip k' t')) /\
  (top_black k' \/ (length k' < length k)%nat).

Lemma inserted_intro h k t d x' h' k' l' r' n' : st tr h' k' (node d true l' x' r') -> rb (node d true l' x' r') n' -> ctx_rb k' n' ->
  kept tr h h' (inorder (zip k t)) (inorder (zip k' (node d true l' x' r'))) -> top_black k' \/ (length k' < length k)%nat -> inserted h k t (x', h').
Proof. intros. destruct d; [by exists k', l', r', n'|by exists k', r', l', n']. Qed.

(** The uncle is red. *)
Lemma insert_recolor h k d1 p s1 d2 g y l2 r2 x l r n :
  let s2 := node L true l2 y r2 in let t := node L true l x r in let k0 := F d1 true p s1 :: F d2 false g s2 :: k in
  st tr h k0 t -> rb t n -> ctx_rb k0 n ->
  returns (h ← set_red p false h;
    h ← set_red y false h;
    xp ← get_parent x h; xpp ← get_parent xp h;
    h ← set_red xpp true h;
    Done (xpp, h)) (inserted h k0 t).
Proof.
  intros s2 t k0 Hst Ht Hk. pose proof Hk as (Hs1 & Hb1 & _ & Hs2 & Hk'). apply rb_red in Hs2 as (Hl2 & Hr2 & _).
  go_call (red_step h (F d2 false g s2 :: k) d1 true t p s1 false); [exact (proj1 (st_plug _ _ _ _ _) Hst)|]. intros h1 [H1 K1].
  apply st_uncle in H1 as [_ H1]. go_call (red_step h1 _ L true l2 y r2 false); [exact H1|]. intros h2 [H2 K2].
  rewrite !zip_opp in K2. apply st_uncle in H2 as [_ H2]. rewrite opp_opp in H2.
  apply st_plug in H2. cbn [plug] in H2. pose proof H2 as H2'. apply st_left, st_left in H2'.
  rewrite (st_parent _ _ _ _ _ _ _ _ H2'). cbn [mbind outcome_bind up]. rewrite (st_up_parent _ _ _ _ _ _ _ _ H2'). cbn [mbind outcome_bind up].
  go_call (red_step h2 k d2 false _ g _ true); [exact H2|]. intros h3 [H3 K3]. apply returns_done.
  eapply inserted_intro; [exact H3| |exact Hk'| |right; cbn; lia].
  - apply rb_red. rewrite !is_red_node. split_and!; try done; by apply rb_black.
  - eapply kept_trans; [exact K1|]. eapply kept_trans; [exact K2|exact K3].
Qed.

(** The uncle is black, and [x] is on the outer side. *)
Lemma insert_outer h0 k0 t0 h k d p s1 g s2 x l r n :
  let t := node d true l x r in let k1 := F d true p s1 :: F d false g s2 :: k in
  st tr h k1 t -> rb t n -> ctx_rb k1 n -> is_red s2 = false -> kept tr h0 h (inorder (zip k0 t0)) (inorder (zip k1 t)) ->
  returns (xp ← get_parent x h;
    h ← set_red xp false h;
    xp ← get_parent x h; xpp ← get_parent xp h;
    h ← set_red xpp true h;
    xp ← get_parent x h; xpp ← get_parent xp h;
    h ← rotate tr (opp d) xpp h;
    Done (x, h)) (inserted h0 k0 t0).
Proof.
  intros t k1 Hst Ht Hk Hb2 Hkept. pose proof Hk as (Hs1 & Hb1 & _ & Hs2 & Hk').
  rewrite (st_parent _ _ _ _ _ _ _ _ Hst). cbn [mbind outcome_bind up k1].
  go_call (red_step h (F d false g s2 :: k) d true t p s1 false); [exact (proj1 (st_plug _ _ _ _ _) Hst)|]. intros h1 [H1 K1].
  rewrite (st_parent _ _ _ _ _ _ _ _ (st_left _ _ _ _ _ _ _ _ H1)). cbn [mbind outcome_bind up].
  rewrite (st_up_parent _ _ _ _ _ _ _ _ (st_left _ _ _ _ _ _ _ _ H1)). cbn [mbind outcome_bind up].
  go_call (red_step h1 k d false _ g s2 true); [exact (proj1 (st_plug _ _ _ _ _) H1)|]. intros h2 [H2 K2].
  pose proof (st_left _ _ _ _ _ _ _ _ (st_left _ _ _ _ _ _ _ _ H2)) as H2'.
  rewrite (st_parent _ _ _ _ _ _ _ _ H2'). cbn [mbind outcome_bind up]. rewrite (st_up_parent _ _ _ _ _ _ _ _ H2'). cbn [mbind outcome_bind up].
  go_call (rotate_step h2 k (opp d) true s2 g false s1 p t); [by rewrite !node_opp|]. intros h3 [H3 K3]. apply returns_done.
  rewrite !node_opp in H3. rewrite !node_opp in K3. apply (inserted_intro _ _ _ d _ _ (F d false p (node d true s1 g s2) :: k) l r n).
  - by apply st_plug.
  - done.
  - split; [|done]. by apply rb_red.
  - eapply kept_trans; [exact Hkept|]. eapply kept_trans; [exact K1|]. eapply kept_trans; [exact K2|exact K3].
  - by left.
Qed.

Lemma insert_sub_spec h k d1 p s1 d2 g s2 x l r n :
  let t := node L true l x r in let k0 := F d1 true p s1 :: F d2 false g s2 :: k in
  st tr h k0 t -> rb t n -> ctx_rb k0 n -> returns (insert_sub tr d2 x h) (inserted h k0 t).
Proof.
  intros t k0 Hst Ht Hk. unfold insert_sub. rewrite (st_parent _ _ _ _ _ _ _ _ Hst). cbn [mbind outcome_bind up k0].
  rewrite (st_up_parent _ _ _ _ _ _ _ _ Hst). cbn [mbind outcome_bind up].
  destruct (st_uncle _ _ _ _ _ _ _ _ (proj1 (st_plug _ _ _ _ _) Hst)) as [-> Hu]. cbn [mbind outcome_bind]. rewrite (st_hd_red _ _ _ _ Hu). cbn [mbind outcome_bind].
  destruct (is_red s2) eqn:Hred.
  { destruct s2 as [|[] l2 y r2]; [done| |done]. by apply (insert_recolor h k d1 p s1 d2 g y l2 r2 x l r n). }
  destruct (st_side _ _ _ _ _ _ _ _ (opp d2) Hst) as (q & -> & Hq); [done|]. change (hd tr t) with x in Hq. cbn [mbind outcome_bind].
  assert (exists l' r', t = node d2 true l' x r') as (l' & r' & Et) by (by eapply node_view).
  clearbody t. subst t. pose proof Hk as (Hs1 & Hb1 & _ & Hs2 & Hk'). pose proof Ht as (Hl' & Hr' & Hbl & Hbr)%rb_red.
  case_decide as Hx.
  - apply Hq in Hx as ->. apply st_plug in Hst. cbn [plug] in Hst. rewrite node_opp in Hst.
    destruct (rotate_step h _ d2 true s1 p true l' x r' Hst) as (h1 & -> & H1 & K1). cbn [mbind outcome_bind].
    eapply (insert_outer h k0 _ h1 k d2 x r' g s2 p s1 l' n).
    + by apply st_plug.
    + by apply rb_red.
    + by split_and!.
    + done.
    + unfold k0. rewrite zip_opp. exact K1.
  - assert (d1 = d2) as -> by (destruct d1, d2; naive_solver). by eapply (insert_outer h k0 _ h k d2 p s1 g s2 x l' r' n).
Qed.

Lemma insert_fixup_spec fuel h k x l r n : let t := node L true l x r in
  st tr h k t -> rb t n -> ctx_rb k n -> (length k < fuel)%nat ->
  returns (insert_fixup tr fuel x h) (fun h' => exists t' m, st tr h' [] t' /\ rb t' m /\ kept tr h h' (inorder (zip k t)) (inorder t')).
Proof.
  intros t Hst Ht Hk Hf. unfold insert_fixup.
  apply (loop_returns_le (fun m '(x', h') => exists k' l' r' n', let t' := node L true l' x' r' in
    st tr h' k' t' /\ rb t' n' /\ ctx_rb k' n' /\ kept tr h h' (inorder (zip k t)) (inorder (zip k' t')) /\
    (top_black k' \/ (length k' <= m)%nat)) _ _ _ (length k)); [| |done].
  2: { exists k, l, r, n. split_and!; try done. by right. }
  intros m [x' h'] (k' & l' & r' & n' & Hst' & Ht' & Hk' & K' & Hm). rewrite (st_parent _ _ _ _ _ _ _ _ Hst'). cbn [mbind outcome_bind].
  rewrite (st_up_red _ _ _ _ Hst'). cbn [mbind outcome_bind].
  destruct k' as [|[d1 [] p s1] k'].
  - apply returns_done. exists (node L true l' x' r'), n'. done.
  - pose proof Hk' as (Hs1 & Hb1 & Htop & Hk2). destruct k' as [|[d2 c2 g s2] k']; [done|]. cbn [top_black] in Htop. subst c2.
    cbn [up]. rewrite (st_up_parent _ _ _ _ _ _ _ _ Hst'). cbn [mbind outcome_bind up].
    destruct (st_side _ _ _ _ _ _ _ _ L (proj1 (st_plug _ _ _ _ _) Hst')) as (q & -> & Hq); [by destruct d1|]. cbn [plug] in Hq. rewrite hd_node in Hq. cbn [mbind outcome_bind].
    eapply (returns_bind _ _ (inserted h' (F d1 true p s1 :: F d2 false g s2 :: k') (node L true l' x' r'))).
    + case_decide as Hd.
      * apply Hq in Hd as ->. by apply (insert_sub_spec h' k' d1 p s1 L g s2 x' l' r' n').
      * assert (d2 = R) as -> by (destruct d2; [exfalso; by apply Hd, Hq|done]). by apply (insert_sub_spec h' k' d1 p s1 R g s2 x' l' r' n').
    + intros [x2 h2] (k2 & l2 & r2 & n2 & H2 & Ht2 & Hc2 & K2 & Hlen). apply returns_done.
      destruct Hm as [Hm|Hm]; [done|]. cbn [length] in Hm, Hlen. destruct Hlen as [Htb|Hlen].
      * exists O. split; [|lia]. exists k2, l2, r2, n2. split_and!; try done; [by eapply kept_trans|by left].
      * exists (length k2). split; [|lia]. exists k2, l2, r2, n2. split_and!; try done; [by eapply kept_trans|by right].
  - apply returns_done. destruct (rb_zip _ _ _ Hk' Ht') as (m' & Hm' & _); [intros _; by right|].
    exists (zip (F d1 false p s1 :: k') (node L true l' x' r')), m'. split_and!; [exact (proj1 (st_zip _ _ _ _) Hst')|done|done].
Qed.
End Insert.

(** * The order *)

(** A comparison of nodes, as rb_tree.h asks for: a total preorder. *)
Class CompareLaws (compare : Z -> Z -> Z) := {
  compare_sign x y : compare x y <= 0 <-> 0 <= compare y x;
  compare_trans x y z : compare x y <= 0 -> compare y z <= 0 -> compare x z <= 0 }.

Definition sorted (compare : Z -> Z -> Z) : list Z -> Prop := StronglySorted (fun a b => compare a b <= 0).

(** A new node goes after the nodes that are not greater. *)
Fixpoint insert_sorted (compare : Z -> Z -> Z) (z : Z) (l : list Z) : list Z :=
  match l with [] => [z] | a :: l => if 0 <? compare a z then z :: a :: l else a :: insert_sorted compare z l end.

Fixpoint height (t : tree) : nat := match t with E => O | T _ l _ r => S (Nat.max (height l) (height r)) end.

Lemma height_zip k : forall t, (length k + height t <= height (zip k t))%nat.
Proof.
  induction k as [|[d c a s] k IH]; intros t; cbn [zip length]; [lia|]. specialize (IH (plug (F d c a s) t)).
  assert (S (height t) <= height (plug (F d c a s) t))%nat by (destruct d; cbn; lia). lia.
Qed.

Section Order.
Context (compare : Z -> Z -> Z) {HC : CompareLaws compare}.

Lemma insert_sorted_app z l1 l2 : (forall a, a ∈ l1 -> compare a z <= 0) -> (forall a, a ∈ l2 -> 0 < compare a z) ->
  insert_sorted compare z (l1 ++ l2) = l1 ++ z :: l2.
Proof.
  induction l1 as [|a l1 IH]; intros H1 H2; cbn [app insert_sorted].
  - destruct l2 as [|b l2]; [done|]. cbn [insert_sorted]. specialize (H2 b ltac:(left)). by rewrite (proj2 (Z.ltb_lt _ _)).
  - rewrite (proj2 (Z.ltb_ge _ _)) by (apply H1; left). f_equal. apply IH; [|done]. intros b Hb. apply H1. by right.
Qed.

Lemma sorted_app l1 l2 : sorted compare (l1 ++ l2) <-> sorted compare l1 /\ sorted compare l2 /\ (forall a b, a ∈ l1 -> b ∈ l2 -> compare a b <= 0).
Proof. unfold sorted. rewrite StronglySorted_app. tauto. Qed.

(** The neighbours of a node in the sequence. *)
Lemma sorted_node k c l a r : sorted compare (inorder (zip k (T c l a r))) ->
  (forall b, b ∈ inorder l -> compare b a <= 0) /\ (forall b, b ∈ inorder r -> compare a b <= 0).
Proof.
  rewrite inorder_zip. cbn [inorder]. rewrite sorted_app. intros (_ & Hs & _). rewrite <- app_assoc in Hs. apply sorted_app in Hs as (_ & Hs & H1).
  split; [intros b Hb; apply H1; [done|left]|]. apply StronglySorted_inv in Hs as [_ Hf]. rewrite Forall_forall in Hf. intros b Hb. apply Hf. rewrite elem_of_app. by left.
Qed.

(** ** rb_insert_binary *)

Context (tr : rb_tree).

Lemma descend_spec fuel node h t0 : st tr h [] t0 -> sorted compare (inorder t0) -> (height t0 < fuel)%nat ->
  returns (descend tr compare fuel node h) (fun y => exists k, zip k E = t0 /\ y = up tr k /\
    (forall a, a ∈ before k -> compare a node <= 0) /\ (forall a, a ∈ after k -> 0 < compare a node)).
Proof.
  intros Hst Hs Hf. unfold descend. pose proof Hst as (Hroot & _). cbn [repc] in Hroot. erewrite get_child_eq by exact Hroot. cbn [mbind outcome_bind child lchild].
  apply (loop_returns_le (fun m '(y, x) => exists k t, zip k t = t0 /\ y = up tr k /\ x = hd tr t /\ (height t <= m)%nat /\
    (forall a, a ∈ before k -> compare a node <= 0) /\ (forall a, a ∈ after k -> 0 < compare a node)) _ _ _ (height t0)); [| |done].
  2: { exists [], t0. split_and!; try done; by intros a Ha%not_elem_of_nil. }
  intros m [y x] (k & t & Ez & -> & -> & Hm & Hb & Ha). rewrite <- Ez in Hst, Hs. apply st_zip in Hst.
  case_decide as Hx.
  - destruct t as [|c l a r]; [done|]. cbn [hd height] in *. destruct (sorted_node _ _ _ _ _ Hs) as [Hl Hr]. pose proof (st_hole tr h k L c l a r Hst) as Hn.
    destruct (Z.ltb_spec 0 (compare a node)) as [Hc|Hc]; erewrite get_child_eq by exact Hn; apply returns_done.
    + exists (height l). split; [|lia]. exists (F L c a r :: k), l. split_and!; try done. cbn [after]. intros b Hb'.
      apply elem_of_cons in Hb' as [->|Hb']; [done|]. apply elem_of_app in Hb' as [Hb'|Hb']; [|by apply Ha].
      destruct (Z.lt_ge_cases 0 (compare b node)); [done|]. pose proof (compare_trans a b node (Hr b Hb')). lia.
    + exists (height r). split; [|lia]. exists (F R c a l :: k), r. split_and!; try done. cbn [before]. intros b Hb'.
      rewrite !elem_of_app, list_elem_of_singleton in Hb'. destruct Hb' as [Hb'|[Hb'| ->]]; [by apply Hb| |lia].
      apply (compare_trans b a node); [by apply Hl|lia].
  - apply returns_done. assert (t = E) as -> by (apply (st_hd_nil tr h k); [done|]; destruct (decide (hd tr t = nil_ tr)); tauto). by exists k.
Qed.

(** An address that is not in the tree. *)
Definition fresh (z : Z) (l : list Z) : Prop := z <> root_ tr /\ z <> nil_ tr /\ z ∉ l.

Lemma st_fresh h k t z n : st tr h k t -> fresh z (inorder (zip k t)) -> st tr (<[z := n]> h) k t.
Proof.
  intros (Hk & Ht & Hg & nn & Hn & Hr) (H1 & H2 & H3). rewrite inorder_zip in *. rewrite !elem_of_app in H3. unfold st. split_and!; [..|by rewrite inorder_zip|].
  - eapply repc_agree; [|exact Hk]. intros a Ha. apply lookup_insert_ne. intros <-. rewrite elem_of_cons, elem_of_app in Ha. tauto.
  - eapply rep_agree; [|exact Ht]. intros a Ha. apply lookup_insert_ne. intros <-. tauto.
  - exists nn. split; [|done]. by rewrite lookup_insert_ne.
Qed.

(** Putting a leaf into the hole. *)
Lemma st_attach h k z n : st tr h k E -> fresh z (inorder (zip k E)) -> h !! z = Some n -> lchild n = nil_ tr -> rchild n = nil_ tr ->
  returns (h ← set_parent z (up tr k) h; set_child (side k) (up tr k) z h) (fun h' => st tr h' k (node L (red n) E z E) /\
    forall a, a ∉ root_ tr :: z :: inorder (zip k E) -> h' !! a = h !! a).
Proof.
  intros Hst Hz Hn Hl Hr. destruct (st_good _ _ _ _ Hst) as (_ & Hndk & Hrn & _ & Hnk & _ & Hrk). pose proof (up_in tr k) as Hup.
  unfold set_parent. erewrite update_eq by exact Hn. cbn [mbind outcome_bind].
  pose proof (st_fresh h k E z (with_parent (up tr k) n) Hst Hz) as (Hk & _ & Hg & nn & Hnil & Hnr). rewrite inorder_zip in *. cbn [inorder app] in *.
  destruct Hz as (Hzr & Hzn & Hz). assert (z <> up tr k) as Hzu by (intros ->; apply elem_of_cons in Hup as [?|?]; done).
  destruct (repc_up _ _ _ _ Hk) as (np & Hp & Hc & _ & Hset); [done|done|by intros ?; apply Hnk; right|].
  unfold set_child. erewrite update_eq by exact Hp. apply returns_done. split; [unfold st; split_and!|].
  - apply Hset; [by rewrite lookup_insert_eq|]. intros a _ Ha. by rewrite lookup_insert_ne.
  - cbn [node rep hd]. split; [|done]. rewrite lookup_insert_ne, lookup_insert_eq by done. destruct n; cbn in *. by subst.
  - rewrite inorder_zip. cbn [node inorder app]. destruct Hg as (Hd & Hr1 & Hn1 & _). unfold good. rewrite !elem_of_app, !elem_of_cons in *.
    split_and!; [|naive_solver..|done]. rewrite <- Permutation_middle. apply NoDup_cons. rewrite elem_of_app. tauto.
  - exists nn. split; [|done]. rewrite lookup_insert_ne; [done|]. intros Heq. apply Hnk. by rewrite <- Heq.
  - intros a Ha. rewrite !elem_of_cons in Ha. rewrite !lookup_insert_ne; [done|..]; [intros <-; tauto|]. intros <-. rewrite elem_of_cons in Hup. tauto.
Qed.

Lemma rb_insert_binary_spec fuel z h t0 n : st tr h [] t0 -> sorted compare (inorder t0) -> fresh z (inorder t0) -> h !! z = Some n -> (height t0 < fuel)%nat ->
  returns (rb_insert_binary tr compare fuel z h) (fun h' => exists k, zip k E = t0 /\ st tr h' k (node L (red n) E z E) /\
    (forall a, a ∈ before k -> compare a z <= 0) /\ (forall a, a ∈ after k -> 0 < compare a z) /\
    forall a, a ∉ root_ tr :: z :: inorder t0 -> h' !! a = h !! a).
Proof.
  intros Hst Hs Hz Hn Hf. unfold rb_insert_binary. rewrite (update_eq h z n (with_child R (nil_ tr)) Hn : set_child R z (nil_ tr) h = _). cbn [mbind outcome_bind].
  rewrite (update_eq (<[z := with_child R (nil_ tr) n]> h) z _ (with_child L (nil_ tr)) (lookup_insert_eq _ _ _) : set_child L z (nil_ tr) _ = _).
  cbn [mbind outcome_bind]. rewrite insert_insert_eq. set (n' := with_child L _ _).
  assert (Hst' : st tr (<[z := n']> h) [] t0) by (by apply st_fresh).
  go_call descend_spec; [exact Hst'|exact Hs|exact Hf|]. intros y (k & Ez & -> & Hb & Ha). subst t0. apply st_zip in Hst'.
  assert (Hsel : forall h1, (if decide (up tr k = root_ tr) then set_child L (up tr k) z h1 else
    if 0 <? compare (up tr k) z then set_child L (up tr k) z h1 else set_child R (up tr k) z h1) = set_child (side k) (up tr k) z h1).
  { intros h1. destruct (st_good _ _ _ _ Hst') as (_ & _ & _ & _ & _ & _ & Hrk). destruct k as [|[d c a s] k]; cbn [up side]; [by rewrite decide_True|].
    assert (Hin : a ∈ before (F d c a s :: k) ++ after (F d c a s :: k)) by (destruct d; cbn; set_solver).
    rewrite decide_False by (intros ->; done). destruct d.
    - rewrite (proj2 (Z.ltb_lt _ _)); [done|]. apply Ha. left.
    - rewrite (proj2 (Z.ltb_ge _ _)); [done|]. apply Hb. cbn. set_solver. }
  destruct (st_attach (<[z := n']> h) k z n' Hst' Hz) as (h' & E & Hst2 & Hout); [by rewrite lookup_insert_eq|done|done|].
  destruct (set_parent z (up tr k) (<[z:=n']> h)) as [h1| |] eqn:E1; [|done..]. cbn [mbind outcome_bind] in *. rewrite Hsel, E. apply returns_done.
  exists k. split_and!; try done. intros a Hout'. rewrite Hout by done. apply lookup_insert_ne. intros ->. apply Hout'. right. left.
Qed.

(** ** rb_insert *)

(** The heap holds a red-black tree, and its nodes are sorted. *)
Definition tree_ok (h : gmap Z rb_node) (t : tree) : Prop :=
  st tr h [] t /\ (exists m, rb t m) /\ is_red t = false /\ sorted compare (inorder t).

Lemma sorted_insert z l1 l2 : sorted compare (l1 ++ l2) -> (forall a, a ∈ l1 -> compare a z <= 0) -> (forall a, a ∈ l2 -> 0 < compare a z) ->
  sorted compare (l1 ++ z :: l2).
Proof.
  intros (H1 & H2 & H12)%sorted_app Hl Hr. assert (Hz : forall a, a ∈ l2 -> compare z a <= 0) by (intros a Ha; apply compare_sign; specialize (Hr a Ha); lia).
  apply sorted_app. split_and!; [done|constructor; [done|by apply Forall_forall]|]. intros a b Ha Hb. apply elem_of_cons in Hb as [->|Hb]; auto.
Qed.

(** The root is painted black. *)
Lemma paint_root h t m : st tr h [] t -> t <> E -> rb t m ->
  returns (top ← get_child L (root_ tr) h; h ← set_red top false h; nred ← get_red (nil_ tr) h; rred ← get_red (root_ tr) h;
      _ ← assert_ (nred = false /\ rred = false); Done h)
    (fun h' => exists t' m', st tr h' [] t' /\ rb t' m' /\ is_red t' = false /\ kept tr h h' (inorder t) (inorder t')).
Proof.
  intros Hst Ht Hm. destruct t as [|c l a r]; [done|]. pose proof Hst as (Hroot & _). cbn [repc hd] in Hroot. erewrite get_child_eq by exact Hroot. cbn [mbind outcome_bind child lchild].
  go_call (red_step tr h [] L c l a r false); [exact Hst|]. intros h' [Hst' K]. pose proof Hst' as (Hroot' & _ & _ & nn & Hn & Hr). cbn [repc] in Hroot'.
  rewrite (get_red_eq _ _ _ Hn). cbn [mbind outcome_bind]. rewrite (get_red_eq _ _ _ Hroot'). cbn [mbind outcome_bind red]. unfold assert_. rewrite decide_True by done.
  apply returns_done. exists (T false l a r). destruct c.
  - exists (S m). destruct Hm as (? & ? & _). by split_and!.
  - exists m. by split_and!.
Qed.

Lemma rb_insert_spec fuel z h t n : tree_ok h t -> fresh z (inorder t) -> h !! z = Some n -> (height t < fuel)%nat ->
  returns (rb_insert tr compare fuel z h) (fun h' => exists t', tree_ok h' t' /\ inorder t' = insert_sorted compare z (inorder t) /\
    forall a, a ∉ root_ tr :: z :: inorder t -> h' !! a = h !! a).
Proof.
  intros (Hst & (m & Hm) & Hb & Hs) Hz Hn Hf. unfold rb_insert. go_call rb_insert_binary_spec; [done|done|done|done|done|].
  intros h1 (k & <- & H1 & Hbef & Haft & Hout). go_call (red_step tr h1 k L (red n) E z E true); [done|]. intros h2 [H2 K2].
  destruct (zip_rb _ _ _ Hm Hb) as (n0 & Hk & Hn0 & _). pose proof (height_zip k E) as Hh.
  go_call (insert_fixup_spec tr fuel h2 k z E E n0); [exact H2|by cbn|done|lia|]. intros h3 (t3 & m3 & H3 & Hm3 & K3).
  rewrite inorder_zip in Hs |- *. cbn [inorder app] in Hs |- *. rewrite inorder_zip in K2, K3. cbn [node inorder app] in K2, K3. rewrite inorder_zip in K2.
  go_mono (paint_root h3 t3 m3); [exact H3|intros ->; destruct K3 as [K3 _]; by destruct (before k)|exact Hm3|].
  intros h4 (t4 & m4 & H4 & Hm4 & Hb4 & K4). pose proof (kept_trans _ _ _ _ _ _ _ (kept_trans _ _ _ _ _ _ _ K2 K3) K4) as [E4 Hsame].
  exists t4. split_and!.
  - split_and!; [done|by exists m4|done|]. rewrite E4. by apply sorted_insert.
  - rewrite E4. by rewrite insert_sorted_app.
  - intros a Ha. rewrite inorder_zip in Hout. cbn [inorder app] in Hout. rewrite Hsame; [by apply Hout|].
    intros Ha'. apply Ha. rewrite !elem_of_cons, !elem_of_app in *. rewrite elem_of_cons in Ha'. tauto.
Qed.
End Order.
