(* ===== verification/RbWalk.v ===== *)
(** Red-black trees of the ucore kernel (src/ucore/src/kern-ucore/libs/rb_tree.c):
    rb_search, the successor and the predecessor of a node, check_tree, and the
    height of the tree. *)

From S2P Require Import Prelude.
From Stdlib Require Import Sorted.
From stdpp Require Import list gmap sorting.
From S2P Require Import RbTree RbInsert.
#[local] Open Scope Z_scope.

(** * Finding a node *)

Lemma zip_app k1 k2 : forall t, zip (k1 ++ k2) t = zip k2 (zip k1 t).
Proof. induction k1 as [|f k1 IH]; intros t; [done|]. cbn [app zip]. apply IH. Qed.

(** Every node of a tree is at a hole. *)
Lemma find_zip t a : a ∈ inorder t -> exists k c l r, t = zip k (T c l a r).
Proof.
  induction t as [|c l IHl b r IHr]; cbn [inorder]; [by intros ?%not_elem_of_nil|]. rewrite elem_of_app, elem_of_cons. intros [Ha|[->|Ha]].
  - destruct (IHl Ha) as (k & c' & l' & r' & ->). exists (k ++ [F L c b r]), c', l', r'. by rewrite zip_app.
  - by exists [], c, l, r.
  - destruct (IHr Ha) as (k & c' & l' & r' & ->). exists (k ++ [F R c b l]), c', l', r'. by rewrite zip_app.
Qed.

Section Search.
Context (compare : Z -> Z -> Z) {HC : CompareLaws compare} (tr : rb_tree).

(** A comparison with a key that agrees with the comparison of the nodes. *)
Definition key_ok (ck : Z -> Z) : Prop := forall a b, compare a b <= 0 -> (0 < ck a -> 0 < ck b) /\ (ck b < 0 -> ck a < 0).

Lemma rb_search_spec ck fuel h t : key_ok ck -> tree_ok compare tr h t -> (height t < fuel)%nat ->
  returns (rb_search tr ck fuel h) (fun r => match r with Some a => a ∈ inorder t /\ ck a = 0 | None => forall a, a ∈ inorder t -> ck a <> 0 end).
Proof.
  intros Hkey (Hst & _ & _ & Hs) Hf. unfold rb_search. pose proof Hst as (Hroot & _). cbn [repc] in Hroot. erewrite get_child_eq by exact Hroot.
  cbn [mbind outcome_bind child lchild].
  eapply (returns_bind _ _ (fun x => (x = nil_ tr /\ forall a, a ∈ inorder t -> ck a <> 0) \/ (x <> nil_ tr /\ x ∈ inorder t /\ ck x = 0))).
  2: { intros x [[-> Hx]|(Hx & Hin & Hc)]; [rewrite decide_False by tauto|rewrite decide_True by done]; by apply returns_done. }
  apply (loop_returns_le (fun m x => exists k t', zip k t' = t /\ x = hd tr t' /\ (height t' <= m)%nat /\ (forall a, a ∈ before k ++ after k -> ck a <> 0)) _ _ _ (height t)); [| |done].
  2: { exists [], t. split_and!; try done. by intros a Ha%not_elem_of_nil. }
  intros m x (k & t' & <- & -> & Hm & Hout). apply st_zip in Hst. case_decide as Hx.
  - destruct t' as [|c l a r]; [done|]. cbn [hd height] in *. destruct (sorted_node compare _ _ _ _ _ Hs) as [Hl Hr]. pose proof (st_hole tr h k L c l a r Hst) as Hn.
    assert (Hin : a ∈ inorder (zip k (T c l a r))) by (rewrite inorder_zip, !elem_of_app; right; left; apply (in_node L)).
    destruct (Z.eqb_spec (ck a) 0) as [Hc|Hc]; [apply returns_done; by right|].
    destruct (Z.ltb_spec 0 (ck a)) as [Hpos|Hneg]; erewrite get_child_eq by exact Hn; apply returns_done.
    + exists (height l). split; [|lia]. exists (F L c a r :: k), l. split_and!; try done. cbn [before after]. intros b Hb. rewrite elem_of_app, elem_of_cons, elem_of_app in Hb.
      destruct Hb as [Hb|[->|[Hb|Hb]]]; [by apply Hout; rewrite elem_of_app; left|done| |by apply Hout; rewrite elem_of_app; right].
      destruct (Hkey a b (Hr b Hb)) as [Hk _]. specialize (Hk Hpos). lia.
    + exists (height r). split; [|lia]. exists (F R c a l :: k), r. split_and!; try done. cbn [before after]. intros b Hb. rewrite !elem_of_app, list_elem_of_singleton in Hb.
      destruct Hb as [[Hb|[Hb| ->]]|Hb]; [by apply Hout; rewrite elem_of_app; left| |done|by apply Hout; rewrite elem_of_app; right].
      destruct (Hkey b a (Hl b Hb)) as [_ Hk]. specialize (Hk ltac:(lia)). lia.
  - apply returns_done. left. assert (t' = E) as -> by (apply (st_hd_nil tr h k); [done|]; destruct (decide (hd tr t' = nil_ tr)); tauto).
    split; [done|]. intros a Ha. apply Hout. rewrite inorder_zip in Ha. done.
Qed.
End Search.

(** * Neighbours *)

Section Walk.
Context (tr : rb_tree).

Definition all_side (d : dir) : list frame -> Prop := Forall (fun f => let 'F d' _ _ _ := f in d' = d).

Lemma all_side_before k : all_side L k -> before k = [].
Proof. induction k as [|[d c a s] k IH]; [done|]. intros [-> Hk]%Forall_cons_1. by apply IH. Qed.
Lemma all_side_after k : all_side R k -> after k = [].
Proof. induction k as [|[d c a s] k IH]; [done|]. intros [-> Hk]%Forall_cons_1. by apply IH. Qed.

(** The extreme node of a subtree. *)
Lemma walk_spec d fuel h k t : st tr h k t -> t <> E -> (height t <= fuel)%nat ->
  returns (walk tr d fuel (hd tr t) h) (fun y => exists ks c r, t = zip ks (node d c E y r) /\ all_side d ks).
Proof.
  intros Hst Ht Hf. unfold walk.
  apply (loop_returns_le (fun m y => exists ks t', t = zip ks t' /\ all_side d ks /\ y = hd tr t' /\ t' <> E /\ (height t' <= S m)%nat) _ _ _ (height t - 1)%nat).
  - intros m y (ks & t' & -> & Hks & -> & Ht' & Hm). destruct t' as [|c l0 a r0]; [done|].
    destruct (node_view d (T c l0 a r0) c l0 a r0 eq_refl) as (l & r & En). rewrite En in *. rewrite hd_node.
    assert (Hst' : st tr h (ks ++ k) (node d c l a r)) by (apply st_zip; rewrite zip_app; by apply st_zip in Hst).
    pose proof (st_hole tr h _ d c l a r Hst') as Hn. erewrite get_child_eq by exact Hn. rewrite child_fnode. cbn [mbind outcome_bind].
    case_decide as Hl; apply returns_done.
    + exists (height l - 1)%nat. assert (l <> E) by (intros ->; done). split.
      * exists (F d c a r :: ks), l. split_and!; try done; [by constructor|lia].
      * assert (height l < height (node d c l a r))%nat by (destruct d; cbn; lia). assert (0 < height l)%nat by (destruct l; [done|cbn; lia]). lia.
    + exists ks, c, r. split; [|done]. assert (l = E) as ->; [|done].
      apply (st_hd_nil tr h _ _ (st_left _ _ _ _ _ _ _ _ Hst')). destruct (decide (hd tr l = nil_ tr)); tauto.
  - exists [], t. split_and!; try done; [by constructor|lia].
  - assert (0 < height t)%nat by (destruct t; [done|cbn; lia]). lia.
Qed.

(** The node in front of or behind the hole. *)
Definition first_or_nil (l : list Z) : Z := match l with [] => nil_ tr | a :: _ => a end.
Definition last_or_nil (l : list Z) : Z := match l.[zlen l - 1] with None => nil_ tr | Some a => a end.

Lemma last_or_nil_snoc l a : last_or_nil (l ++ [a]) = a.
Proof. unfold last_or_nil. by rewrite last_at. Qed.

Lemma successor_spec fuel h k c l x r : st tr h k (T c l x r) -> (height (zip k (T c l x r)) < fuel)%nat ->
  returns (rb_tree_successor tr fuel x h) (fun y => y = first_or_nil (inorder r ++ after k) /\
    (r <> E -> exists ks c' r', r = zip ks (T c' E y r') /\ all_side L ks)).
Proof.
  intros Hst Hf. pose proof (height_zip k (T c l x r)) as Hh. unfold rb_tree_successor. pose proof (st_hole tr h k L c l x r Hst) as Hn.
  erewrite get_child_eq by exact Hn. cbn [mbind outcome_bind child fnode rchild]. pose proof (st_right tr h k L c l x r Hst) as Hr.
  case_decide as Hy.
  - assert (r <> E) by (intros ->; done). cbn [height] in Hh. go_mono (walk_spec L fuel h _ r Hr); [done|lia|]. intros y (ks & c' & r' & -> & Hks).
    split; [|intros _; by exists ks, c', r']. rewrite inorder_zip, (all_side_before ks Hks). done.
  - assert (r = E) as -> by (apply (st_hd_nil tr h _ _ Hr); destruct (decide (hd tr r = nil_ tr)); tauto). cbn [inorder app].
    rewrite (st_parent tr h k L c l x E Hst). cbn [mbind outcome_bind].
    eapply (returns_bind _ _ (fun y => exists k' t', st tr h k' t' /\ t' <> E /\ y = up tr k' /\ after k' = after k /\ match k' with F R _ _ _ :: _ => False | _ => True end)).
    + apply (loop_returns_le (fun m '(x', y) => exists k' t', st tr h k' t' /\ t' <> E /\ x' = hd tr t' /\ y = up tr k' /\ after k' = after k /\ length k' = m) _ _ _ (length k)); [| |lia].
      * intros m [x' y] (k' & t' & Hst' & Ht' & -> & -> & Ha & <-). destruct k' as [|[d c' a s] k'].
        -- pose proof Hst' as (Hroot & _). cbn [repc up] in *. erewrite get_child_eq by exact Hroot. cbn [mbind outcome_bind child rchild].
           rewrite decide_False by (intros Heq; by apply Ht', (st_hd_nil tr h [])). apply returns_done. by exists [], t'.
        -- cbn [up]. destruct (st_side tr h k' d c' a s t' R Hst' Ht') as (q & -> & Hq). cbn [mbind outcome_bind].
           case_decide as Hd.
           ++ apply Hq in Hd as ->. rewrite (st_up_parent tr h k' R c' a s t' Hst'). apply returns_done. exists (length k'). split; [|cbn; lia].
              apply st_plug in Hst'. exists k', (plug (F R c' a s) t'). by split_and!.
           ++ apply returns_done. exists (F d c' a s :: k'), t'. split_and!; try done. destruct d; [done|]. by apply Hd, Hq.
      * exists k, (T c l x E). by split_and!.
    + intros y (k' & t' & Hst' & Ht' & -> & Ha & Hk'). apply returns_done. split; [|done]. rewrite <- Ha. destruct k' as [|[[] c' a s] k']; [|..|done]; cbn [up after first_or_nil].
      * by rewrite decide_True.
      * destruct (st_good tr h _ _ Hst') as (_ & _ & _ & _ & _ & _ & Hrk). rewrite decide_False; [done|]. intros ->. apply Hrk. cbn. set_solver.
Qed.

Lemma predecessor_spec fuel h k c l x r : st tr h k (T c l x r) -> (height (zip k (T c l x r)) < fuel)%nat ->
  returns (rb_tree_predecessor tr fuel x h) (fun y => y = last_or_nil (before k ++ inorder l)).
Proof.
  intros Hst Hf. pose proof (height_zip k (T c l x r)) as Hh. unfold rb_tree_predecessor. pose proof (st_hole tr h k L c l x r Hst) as Hn.
  erewrite get_child_eq by exact Hn. cbn [mbind outcome_bind child fnode lchild]. pose proof (st_left tr h k L c l x r Hst) as Hl.
  case_decide as Hy.
  - assert (l <> E) by (intros ->; done). cbn [height] in Hh. go_mono (walk_spec R fuel h _ l Hl); [done|lia|]. intros y (ks & c' & r' & -> & Hks).
    rewrite inorder_zip, (all_side_after ks Hks). cbn [node inorder]. rewrite app_nil_r, !app_assoc. by rewrite last_or_nil_snoc.
  - assert (l = E) as -> by (apply (st_hd_nil tr h _ _ Hl); destruct (decide (hd tr l = nil_ tr)); tauto). cbn [inorder]. rewrite app_nil_r.
    rewrite (st_parent tr h k L c E x r Hst). cbn [mbind outcome_bind].
    apply (loop_returns_le (fun m '(x', y) => exists k' t', st tr h k' t' /\ t' <> E /\ x' = hd tr t' /\ y = up tr k' /\ before k' = before k /\ length k' = m) _ _ _ (length k)); [| |lia].
    2: { exists k, (T c E x r). by split_and!. }
    intros m [x' y] (k' & t' & Hst' & Ht' & -> & -> & Hb & <-). destruct k' as [|[d c' a s] k'].
    + pose proof Hst' as (Hroot & _). cbn [repc up] in *. erewrite get_child_eq by exact Hroot. cbn [mbind outcome_bind child lchild].
      rewrite !decide_True by done. apply returns_done. by rewrite <- Hb.
    + cbn [up]. destruct (st_side tr h k' d c' a s t' L Hst' Ht') as (q & -> & Hq). cbn [mbind outcome_bind]. case_decide as Hd.
      * apply Hq in Hd as ->. rewrite decide_False.
        2: { destruct (st_good tr h _ _ Hst') as (_ & _ & _ & _ & _ & _ & Hrk). intros ->. apply Hrk. cbn. set_solver. }
        rewrite (st_up_parent tr h k' L c' a s t' Hst'). apply returns_done. exists (length k'). split; [|cbn; lia].
        apply st_plug in Hst'. exists k', (plug (F L c' a s) t'). by split_and!.
      * apply returns_done. destruct d; [by destruct Hd; apply Hq|]. rewrite <- Hb. cbn [before]. by rewrite app_assoc, last_or_nil_snoc.
Qed.

(** ** rb_node_next and rb_node_prev on the sequence of the nodes *)

(** A node splits the sequence in one way. *)
Lemma split_unique (x : Z) l1 l2 l1' l2' : NoDup (l1 ++ x :: l2) -> l1 ++ x :: l2 = l1' ++ x :: l2' -> l1 = l1' /\ l2 = l2'.
Proof.
  revert l1'. induction l1 as [|a l1 IH]; intros [|a' l1']; cbn [app]; intros Hnd Heq; simplify_eq; try done.
  - apply NoDup_cons in Hnd as [Hnd _]. destruct Hnd. rewrite elem_of_app, elem_of_cons. auto.
  - apply NoDup_cons in Hnd as [Hnd _]. destruct Hnd. rewrite elem_of_app, elem_of_cons. auto.
  - apply NoDup_cons in Hnd as [_ Hnd]. destruct (IH l1' Hnd) as [-> ->]; done.
Qed.

Lemma at_node h t x l1 l2 : st tr h [] t -> inorder t = l1 ++ x :: l2 ->
  exists k c l r, t = zip k (T c l x r) /\ st tr h k (T c l x r) /\ l1 = before k ++ inorder l /\ l2 = inorder r ++ after k.
Proof.
  intros Hst Hi. destruct (find_zip t x) as (k & c & l & r & ->); [rewrite Hi, elem_of_app, elem_of_cons; auto|]. exists k, c, l, r. split; [done|].
  pose proof Hst as (_ & _ & (Hnd & _) & _). cbn [zip] in Hnd. rewrite Hi in Hnd. rewrite inorder_zip in Hi. cbn [inorder] in Hi.
  split; [by apply st_zip|]. apply (split_unique x); [done|]. rewrite <- Hi, <- !app_assoc. done.
Qed.

Lemma not_nil_in h t a : st tr h [] t -> a ∈ inorder t -> a <> nil_ tr.
Proof. intros Hst Ha ->. destruct (st_good tr h _ _ Hst) as (_ & _ & _ & _ & _ & Hn & _). done. Qed.

Lemma rb_node_next_spec fuel h t x l1 l2 : st tr h [] t -> inorder t = l1 ++ x :: l2 -> (height t < fuel)%nat ->
  rb_node_next tr fuel x h = Done (head l2).
Proof.
  intros Hst Hi Hf. destruct (at_node _ _ _ _ _ Hst Hi) as (k & c & l & r & -> & Hst' & -> & ->). unfold rb_node_next.
  destruct (successor_spec fuel h k c l x r Hst' Hf) as (y & -> & -> & _). cbn [mbind outcome_bind].
  destruct (inorder r ++ after k) as [|b l2] eqn:E2; cbn [first_or_nil head]; [by rewrite decide_False by tauto|].
  rewrite decide_True; [done|]. apply (not_nil_in h _ b Hst). rewrite Hi, !elem_of_app, !elem_of_cons. auto.
Qed.

Lemma rb_node_prev_spec fuel h t x l1 l2 : st tr h [] t -> inorder t = l1 ++ x :: l2 -> (height t < fuel)%nat ->
  rb_node_prev tr fuel x h = Done (l1.[zlen l1 - 1]).
Proof.
  intros Hst Hi Hf. destruct (at_node _ _ _ _ _ Hst Hi) as (k & c & l & r & -> & Hst' & -> & ->). unfold rb_node_prev.
  destruct (predecessor_spec fuel h k c l x r Hst' Hf) as (y & -> & ->). cbn [mbind outcome_bind]. unfold last_or_nil.
  destruct ((before k ++ inorder l).[_]) as [b|] eqn:E2; [|by rewrite decide_False by tauto].
  rewrite decide_True; [done|]. apply (not_nil_in h _ b Hst). rewrite Hi, elem_of_app. left. by apply zlookup_elem in E2.
Qed.
End Walk.

(** * The height *)

Lemma rb_height t : forall n, rb t n -> (height t <= 2 * n + if is_red t then 1 else 0)%nat.
Proof.
  induction t as [|[] l IHl a r IHr]; intros n; cbn [rb height is_red]; [lia| |].
  - intros (Hl & Hr & Hbl & Hbr). specialize (IHl n Hl). specialize (IHr n Hr). rewrite Hbl in IHl. rewrite Hbr in IHr. lia.
  - destruct n as [|n]; [done|]. intros (Hl & Hr). specialize (IHl n Hl). specialize (IHr n Hr). destruct (is_red l), (is_red r); lia.
Qed.

Lemma rb_size t : forall n, rb t n -> (2 ^ n <= S (length (inorder t)))%nat.
Proof.
  induction t as [|[] l IHl a r IHr]; intros n; cbn [rb inorder]; [intros ->; cbn; lia| |]; rewrite length_app; cbn [length].
  - intros (Hl & _). specialize (IHl n Hl). lia.
  - destruct n as [|n]; [done|]. intros (Hl & Hr). specialize (IHl n Hl). specialize (IHr n Hr). rewrite Nat.pow_succ_r'. lia.
Qed.

(** A tree of [n] nodes is at most [2 log (n + 1)] high. *)
Lemma height_log t m : rb t m -> is_red t = false -> (height t <= 2 * Nat.log2 (S (length (inorder t))))%nat.
Proof.
  intros Hm Hb. pose proof (rb_height t m Hm) as Hh. rewrite Hb in Hh. pose proof (rb_size t m Hm) as Hs.
  apply Nat.log2_le_mono in Hs. rewrite Nat.log2_pow2 in Hs by lia. lia.
Qed.

(** * check_tree *)

Section Check.
Context (compare : Z -> Z -> Z) {HC : CompareLaws compare} (tr : rb_tree).

(** The part of check_tree for one child. *)
Lemma check_child h k d c a s t (test : Prop) `{Decision test} : st tr h (F d c a s :: k) t -> (t <> E -> test) ->
  get_child d a h = Done (hd tr t) /\
  (if decide (hd tr t <> nil_ tr) then _ ← assert_ test; tp ← get_parent (hd tr t) h; assert_ (tp = a) else Done tt) = Done tt.
Proof.
  intros Hst Htest. pose proof (st_up tr h k d c a s t Hst) as Hn. split; [erewrite get_child_eq by exact Hn; by rewrite child_fnode|].
  destruct t as [|c' l' b r']; [by rewrite decide_False by (cbn; tauto)|].
  rewrite decide_True by (intros Heq; by apply (st_hd_nil tr h _ _ Hst) in Heq). unfold assert_. rewrite decide_True by auto. cbn [mbind outcome_bind hd].
  rewrite (st_parent tr h _ L c' l' b r' Hst). cbn [mbind outcome_bind up]. by rewrite decide_True.
Qed.

Lemma check_tree_spec h t : forall k n fuel, st tr h k t -> rb t n -> sorted compare (inorder (zip k t)) -> (height t < fuel)%nat ->
  check_tree tr compare fuel (hd tr t) h = Done (Z.of_nat n + 1).
Proof.
  induction t as [|c l IHl a r IHr]; intros k n fuel Hst Hn Hs Hf; (destruct fuel as [|fuel]; [lia|]); cbn [check_tree].
  - rewrite (st_hd_red tr h k E Hst). cbn [mbind outcome_bind is_red]. rewrite decide_True by done. cbn in Hn. subst n. done.
  - rewrite (st_hd_red tr h k _ Hst). cbn [mbind outcome_bind is_red]. rewrite decide_False by (intros Heq; by apply (st_hd_nil tr h _ _ Hst) in Heq). cbn [hd height] in *.
    destruct (sorted_node compare _ _ _ _ _ Hs) as [Hle Hge]. pose proof (st_left tr h k L c l a r Hst) as Hl. pose proof (st_right tr h k L c l a r Hst) as Hr. cbn [opp] in Hr.
    assert (Hin : forall s, s <> E -> hd tr s ∈ inorder s) by (intros [|? ? ? ?] ?; [done|apply (in_node L)]).
    destruct (check_child h k L c a r l (compare a (hd tr l) >= 0) Hl) as [-> Ec].
    { intros Hne. apply Z.le_ge, compare_sign, Hle. auto. }
    cbn [mbind outcome_bind]. rewrite Ec. cbn [mbind outcome_bind].
    destruct (check_child h k R c a l r (compare a (hd tr r) <= 0) Hr) as [-> Ec2]; [auto|]. cbn [mbind outcome_bind]. rewrite Ec2. cbn [mbind outcome_bind].
    destruct c.
    + destruct Hn as (Hnl & Hnr & Hbl & Hbr). rewrite (st_hd_red tr h _ l Hl). cbn [mbind outcome_bind]. rewrite (st_hd_red tr h _ r Hr). cbn [mbind outcome_bind].
      unfold assert_. rewrite decide_True by done. cbn [mbind outcome_bind].
      rewrite (IHl _ n fuel Hl Hnl Hs), (IHr _ n fuel Hr Hnr Hs) by lia. cbn [mbind outcome_bind]. by rewrite decide_True.
    + cbn [mbind outcome_bind]. destruct n as [|n]; [done|]. destruct Hn as (Hnl & Hnr).
      rewrite (IHl _ n fuel Hl Hnl Hs), (IHr _ n fuel Hr Hnr Hs) by lia. cbn [mbind outcome_bind]. unfold assert_. rewrite decide_True by done.
      cbn [mbind outcome_bind negb]. f_equal. lia.
Qed.
End Check.
