(* ===== verification/RbDelete.v ===== *)
(** Red-black trees of the ucore kernel (src/ucore/src/kern-ucore/libs/rb_tree.c):
    rb_delete. *)

From S2P Require Import Prelude.
From Stdlib Require Import Sorted.
From stdpp Require Import list gmap sorting.
From S2P Require Import RbTree RbInsert RbWalk.
#[local] Open Scope Z_scope.

Section Delete.
Context (tr : rb_tree).
Abbreviation nil := (nil_ tr).
Abbreviation root := (root_ tr).

(** * Taking a node out of the heap's tree *)

Lemma hd_in t : t <> E -> hd tr t ∈ inorder t.
Proof. destruct t; [done|]. intros _. apply (in_node L). Qed.

(** The node above the hole, and [p] in the hole. *)
Lemma replace_child_spec h k t v n : st tr h k t -> t <> E -> h !! hd tr t = Some n -> parent n = up tr k ->
  forall h', h' !! hd tr t = Some n -> (forall np, h !! up tr k = Some np -> h' !! up tr k = Some np) ->
  exists np, h !! up tr k = Some np /\ replace_child (hd tr t) v h' = Done (<[up tr k := with_child (side k) v np]> h') /\
    forall h2, h2 !! up tr k = Some (with_child (side k) v np) ->
      (forall z, z ∈ root :: before k ++ after k -> z <> up tr k -> h2 !! z = h !! z) -> repc tr h2 k v.
Proof.
  intros Hst Ht Hn Hp h' Hn' Hup. destruct (st_good tr h k t Hst) as (_ & Hndk & _ & Hdis & Hnk & Hnt & Hrk). destruct Hst as (Hk & _).
  destruct (repc_up _ _ _ _ Hk) as (np & Hnp & Hc & Hopp & Hset); [done|done|by intros ?; apply Hnk; right|]. exists np. split; [done|]. split; [|by apply Hset].
  unfold replace_child. rewrite (get_parent_eq _ _ _ Hn'), Hp. cbn [mbind outcome_bind]. specialize (Hup np Hnp). rewrite (get_child_eq _ _ _ L Hup). cbn [mbind outcome_bind].
  assert (Hside : forall d, set_child d (up tr k) v h' = Done (<[up tr k := with_child d v np]> h')) by (intros d; unfold set_child; by erewrite update_eq by exact Hup).
  destruct (side k) eqn:Hd; [by rewrite decide_True, Hside|]. rewrite decide_False, Hside; [done|]. cbn [opp] in Hopp. intros Heq. rewrite <- Heq in Hopp.
  destruct Hopp as [Ho|Ho]; [rewrite Ho in Heq; apply Hnt; rewrite <- Ho; by apply hd_in|]. apply (Hdis (hd tr t)); [by apply hd_in|by right].
Qed.

Lemma inorder_splice k d c t y : inorder (zip k (node d c t y E)) ≡ₚ y :: inorder (zip k t).
Proof.
  rewrite !inorder_zip. destruct d; cbn [node inorder app]; [|by rewrite <- Permutation_middle].
  rewrite <- app_assoc. cbn [app]. by rewrite !app_assoc, <- Permutation_middle.
Qed.

Lemma good_perm l l' y : l ≡ₚ y :: l' -> good tr l -> good tr l'.
Proof. intros Hp (Hd & Hr & Hn & ?). rewrite Hp in Hd, Hr, Hn. apply NoDup_cons in Hd as [_ Hd]. rewrite elem_of_cons in Hr, Hn. split_and!; try done; tauto. Qed.

(** [x] takes the place of its parent [y], which has no other child. *)
Lemma splice_spec h k d c t y : st tr h k (node d c t y E) ->
  returns (h ← set_parent (hd tr t) (up tr k) h; replace_child y (hd tr t) h) (fun h' => st tr h' k t /\
    get_parent (hd tr t) h' = Done (up tr k) /\ h' !! y = h !! y /\
    forall a, a ∉ root :: nil :: inorder (zip k (node d c t y E)) -> h' !! a = h !! a).
Proof.
  intros Hst. pose proof Hst as (_ & Ht & Hg & nn & Hnil & Hnr). apply rep_node in Ht as (Hy & Ht & _).
  destruct (st_good tr h k _ Hst) as (Hnd & Hndk & Hrn & Hdis & Hnk & Hnt & Hrk). pose proof (in_node d c t y E) as Hyin. pose proof (up_in tr k) as Hup.
  assert (exists nx, h !! hd tr t = Some nx) as (nx & Hx) by (destruct t as [|? ? ? ?]; [by exists nn|destruct Ht as (Ht & _); by eexists]).
  assert (Hxin : hd tr t = nil \/ hd tr t ∈ inorder t) by (destruct t; [by left|right; apply (in_node L)]).
  assert (Hyt : y ∉ inorder t).
  { destruct d; cbn [node inorder] in Hnd; [apply NoDup_app in Hnd as (_ & H1 & _); intros ?; eapply H1; [done|left]|by apply NoDup_cons in Hnd as [? _]]. }
  assert (Htin : forall z, z ∈ inorder t -> z ∈ inorder (node d c t y E)) by (intros z; apply in_node_l).
  assert (hd tr t <> y) by (intros Heq; destruct Hxin as [Hx0|Hx0]; rewrite Heq in Hx0; [subst; done|done]).
  assert (hd tr t <> up tr k) by (intros Heq; destruct Hxin as [Hx0|Hx0]; rewrite Heq in Hx0; [rewrite <- Hx0 in Hnk; done|by apply (Hdis (up tr k)); auto]).
  assert (y <> up tr k) by (intros ->; by apply (Hdis (up tr k))).
  unfold set_parent. rewrite (update_eq _ _ _ (with_parent (up tr k)) Hx). cbn [mbind outcome_bind].
  destruct (replace_child_spec h k _ (hd tr t) _ Hst ltac:(by destruct d) ltac:(rewrite hd_node; exact Hy) (parent_fnode _ _ _ _ _)
    (<[hd tr t := with_parent (up tr k) nx]> h)) as (np & Hnp & Hrep & Hset); [rewrite hd_node, lookup_insert_ne by done; exact Hy|intros np Hnp; by rewrite lookup_insert_ne|].
  rewrite hd_node in Hrep. rewrite Hrep. apply returns_done. split; [unfold st; split_and!|split_and!].
  - apply Hset; [by rewrite lookup_insert_eq|]. intros z Hz Hzu. rewrite !lookup_insert_ne; [done| |done]. intros <-.
    destruct Hxin as [Hx0|Hx0]; [rewrite Hx0 in Hz; done|by apply (Hdis (hd tr t)); auto].
  - eapply rep_reparent; [exact Ht| | |].
    + destruct d; cbn [node inorder] in Hnd; [by apply NoDup_app in Hnd as (? & _)|by apply NoDup_cons in Hnd as [_ ?]].
    + intros n _ Hn. rewrite lookup_insert_ne, lookup_insert_eq by done. congruence.
    + intros z Hz Hzt. rewrite !lookup_insert_ne; [done|done|]. intros <-. by apply (Hdis (up tr k)); auto.
  - eapply good_perm; [apply inorder_splice|exact Hg].
  - destruct (decide (hd tr t = nil)) as [Heq|Hne].
    + exists (with_parent (up tr k) nx). rewrite lookup_insert_ne by congruence. rewrite Heq, lookup_insert_eq. split; [done|]. cbn. congruence.
    + exists nn. rewrite !lookup_insert_ne by (done || (intros Heq; apply Hnk; by rewrite <- Heq)). done.
  - erewrite get_parent_eq; [|rewrite lookup_insert_ne, lookup_insert_eq by done; reflexivity]. done.
  - by rewrite !lookup_insert_ne.
  - intros a Ha. rewrite inorder_zip, !elem_of_cons, !elem_of_app in Ha. rewrite elem_of_cons, elem_of_app in Hup. rewrite !lookup_insert_ne; [done|..].
    + intros <-. destruct Hxin as [Hx0|Hx0]; [tauto|]. apply Htin in Hx0. tauto.
    + intros <-. tauto.
Qed.

(** The heap after [y] was put in the place of [z]. *)
Lemma transplant_heap h k c l z r y ny : st tr h k (T c l z r) -> l <> E -> fresh tr y (inorder (zip k (T c l z r))) -> h !! y = Some ny ->
  exists np nl nr, h !! up tr k = Some np /\ h !! hd tr l = Some nl /\ h !! hd tr r = Some nr /\
    transplant y z h = Done (<[y := MkNode c (up tr k) (hd tr l) (hd tr r)]> (<[hd tr l := with_parent y nl]> (<[hd tr r := with_parent y nr]>
      (<[up tr k := with_child (side k) y np]> h)))) /\
    (forall h2, h2 !! up tr k = Some (with_child (side k) y np) -> (forall a, a ∈ root :: before k ++ after k -> a <> up tr k -> h2 !! a = h !! a) -> repc tr h2 k y) /\
    z <> up tr k /\ hd tr l <> up tr k /\ hd tr r <> up tr k /\ hd tr l <> hd tr r /\ y <> up tr k /\ y <> hd tr l /\ y <> hd tr r /\ z <> hd tr l /\ z <> hd tr r.
Proof.
  intros Hst Hl (Hyr & Hyn & Hy) Hny. pose proof Hst as (_ & (Hz & Hrl & Hrr) & _ & nn & Hnil & _).
  destruct (st_good tr h k _ Hst) as (Hnd & Hndk & Hrn & Hdis & Hnk & Hnt & Hrk). pose proof (up_in tr k) as Hup.
  rewrite inorder_zip, !elem_of_app in Hy. cbn [inorder] in *. rewrite elem_of_app, elem_of_cons in Hy.
  assert (Hlin : hd tr l ∈ inorder l) by (by apply hd_in).
  assert (exists nl, h !! hd tr l = Some nl) as (nl & Hnl) by (destruct l; [done|destruct Hrl as (? & _); by eexists]).
  assert (exists nr, h !! hd tr r = Some nr) as (nr & Hnr) by (destruct r as [|? ? ? ?]; [by exists nn|destruct Hrr as (? & _); by eexists]).
  assert (Hrin : hd tr r = nil \/ hd tr r ∈ inorder r) by (destruct r; [by left|right; apply (in_node L)]).
  assert (Hne : z <> up tr k /\ hd tr l <> up tr k /\ hd tr r <> up tr k /\ hd tr l <> hd tr r /\ y <> up tr k /\ y <> hd tr l /\ y <> hd tr r /\ z <> hd tr l /\ z <> hd tr r).
  { assert (Hup' : forall a, a ∈ inorder l ++ z :: inorder r -> a <> up tr k) by (intros a Ha ->; by apply (Hdis (up tr k))).
    apply NoDup_app in Hnd as (_ & Hd1 & Hd2). apply NoDup_cons in Hd2 as [Hd2 _]. rewrite elem_of_cons, elem_of_app in Hup.
    split_and!; [apply Hup'; set_solver|apply Hup'; set_solver| | |intros ->; tauto|intros ->; tauto| | |].
    - destruct Hrin as [->|Hrin]; [intros Heq; apply Hnk; rewrite Heq; rewrite elem_of_cons, elem_of_app; tauto|]. apply Hup'. set_solver.
    - intros Heq. destruct Hrin as [Hrin|Hrin]; [apply Hnt; rewrite <- Hrin, <- Heq; set_solver|]. apply (Hd1 (hd tr l) Hlin). rewrite Heq. by right.
    - destruct Hrin as [->|Hrin]; [done|]. intros ->. tauto.
    - intros Heq. apply (Hd1 (hd tr l) Hlin). rewrite <- Heq. left.
    - intros Heq. destruct Hrin as [Hrin|Hrin]; [apply Hnt; rewrite <- Hrin, <- Heq; set_solver|]. by rewrite <- Heq in Hrin. }
  destruct Hne as (H1 & H2 & H3 & H4 & H5 & H6 & H7 & H8 & H9).
  destruct (replace_child_spec h k _ y _ Hst ltac:(done) Hz eq_refl h Hz ltac:(done)) as (np & Hnp & Hrep & Hset). cbn [hd] in Hrep.
  exists np, nl, nr. do 3 (split; [done|]). split; [|by split_and!]. unfold transplant. rewrite Hrep. cbn [mbind outcome_bind].
  erewrite get_child_eq by (rewrite lookup_insert_ne by congruence; exact Hz). cbn [mbind outcome_bind child rchild]. unfold set_parent.
  erewrite update_eq by (rewrite lookup_insert_ne by congruence; exact Hnr). cbn [mbind outcome_bind].
  erewrite get_child_eq by (rewrite !lookup_insert_ne by congruence; exact Hz). cbn [mbind outcome_bind child lchild].
  erewrite update_eq by (rewrite !lookup_insert_ne by congruence; exact Hnl). cbn [mbind outcome_bind]. unfold load.
  rewrite !lookup_insert_ne, Hz by congruence. cbn [mbind outcome_bind of_option]. erewrite update_eq by (rewrite !lookup_insert_ne by congruence; exact Hny). done.
Qed.

Lemma good_replace l1 l2 z y : good tr (l1 ++ z :: l2) -> fresh tr y (l1 ++ z :: l2) -> good tr (l1 ++ y :: l2).
Proof.
  intros (Hd & Hr & Hn & ?) (H1 & H2 & H3). unfold good. rewrite <- Permutation_middle in Hd. apply NoDup_cons in Hd as [Hd0 Hd].
  rewrite elem_of_app, elem_of_cons in Hr, Hn, H3 |- *. rewrite elem_of_app, elem_of_cons. rewrite <- Permutation_middle, NoDup_cons, elem_of_app.
  split_and!; [tauto|done|intros [?|[?|?]]; [tauto|congruence|tauto]..|done].
Qed.

Lemma replaced_not_in k c l z r y : good tr (inorder (zip k (T c l z r))) -> fresh tr y (inorder (zip k (T c l z r))) ->
  z ∉ root :: inorder (zip k (T c l y r)).
Proof.
  rewrite !inorder_zip. cbn [inorder]. intros (Hnd & Hr & _) (_ & _ & Hy). rewrite <- !app_assoc in *. cbn [app] in *. rewrite !app_assoc in *.
  rewrite <- Permutation_middle in Hnd. apply NoDup_cons in Hnd as [Hnd _].
  rewrite elem_of_app in Hnd. rewrite elem_of_app, elem_of_cons in Hr, Hy. rewrite elem_of_cons, elem_of_app, elem_of_cons. intros [->|[?|[->|?]]]; tauto.
Qed.

Lemma transplant_spec h k c l z r y ny : st tr h k (T c l z r) -> l <> E -> fresh tr y (inorder (zip k (T c l z r))) -> h !! y = Some ny ->
  returns (transplant y z h) (fun h' => st tr h' k (T c l y r) /\ (r = E -> get_parent nil h' = Done y) /\ (r <> E -> h' !! nil = h !! nil) /\ h' !! z = h !! z /\
    forall a, a ∉ root :: nil :: y :: inorder (zip k (T c l z r)) -> h' !! a = h !! a).
Proof.
  intros Hst Hl Hfr Hny. destruct (transplant_heap h k c l z r y ny Hst Hl Hfr Hny) as (np & nl & nr & Hnp & Hnl & Hnr & -> & Hset & H1 & H2 & H3 & H4 & H5 & H6 & H7 & H8 & H9).
  apply returns_done. destruct (st_good tr h k _ Hst) as (Hnd & Hndk & Hrn & Hdis & Hnk & Hnt & Hrk). pose proof (up_in tr k) as Hup.
  pose proof Hst as (_ & (Hz & Hrl & Hrr) & Hg & nn & Hnil & Hred). pose proof Hfr as (Hyr & Hyn & Hy).
  assert (Hyk : y ∉ root :: before k ++ after k) by (rewrite inorder_zip, !elem_of_app in Hy; rewrite elem_of_cons, elem_of_app; tauto).
  assert (Hyt : y ∉ inorder (T c l z r)) by (rewrite inorder_zip, !elem_of_app in Hy; tauto).
  pose proof (hd_in l Hl) as Hlin. assert (Hrin : hd tr r = nil \/ hd tr r ∈ inorder r) by (destruct r; [by left|right; apply (in_node L)]).
  assert (Hlt : forall a, a ∈ inorder l -> a ∈ inorder (T c l z r)) by (intros a; apply (in_node_l L)).
  assert (Hrt : forall a, a ∈ inorder r -> a ∈ inorder (T c l z r)) by (intros a; apply (in_node_r L)).
  assert (Hupt : forall a, a ∈ inorder (T c l z r) -> up tr k <> a) by (intros a Ha <-; by apply (Hdis (up tr k))).
  assert (Hndl : NoDup (inorder l) /\ NoDup (inorder r) /\ (forall a, a ∈ inorder l -> a ∉ inorder r)).
  { cbn [inorder] in Hnd. apply NoDup_app in Hnd as (? & Hd1 & Hd2). apply NoDup_cons in Hd2 as [_ ?]. split_and!; try done. intros a Ha Ha'. apply (Hd1 a Ha). by right. }
  destruct Hndl as (Hndl & Hndr & Hlr).
  assert (nil <> up tr k) by (intros Heq; apply Hnk; by rewrite Heq). assert (hd tr l <> nil) by (intros Heq; apply Hnt; rewrite <- Heq; auto).
  split; [unfold st; split_and!|split_and!].
  - cbn [hd]. apply Hset; [by rewrite !lookup_insert_ne, lookup_insert_eq by congruence|]. intros a Ha Hau. rewrite !lookup_insert_ne; [done|..]; intros <-; try done.
    + destruct Hrin as [Hrin|Hrin]; [by rewrite Hrin in Ha|]. by apply (Hdis (hd tr r)); auto.
    + by apply (Hdis (hd tr l)); auto.
  - cbn [rep]. split; [by rewrite lookup_insert_eq|]. split.
    + eapply rep_reparent; [exact Hrl|done|intros n _ Hn; rewrite lookup_insert_ne, lookup_insert_eq by congruence; congruence|].
      intros a Ha Hne. rewrite !lookup_insert_ne; [done|by apply Hupt; auto|..]; [|congruence|intros <-; auto].
      intros <-. destruct Hrin as [Hrin|Hrin]; [apply Hnt; rewrite <- Hrin; auto|by apply (Hlr (hd tr r))].
    + eapply rep_reparent; [exact Hrr|done|intros n _ Hn; rewrite !lookup_insert_ne, lookup_insert_eq by congruence; congruence|].
      intros a Ha Hne. rewrite !lookup_insert_ne; [done|by apply Hupt; auto|congruence|intros <-; by apply (Hlr (hd tr l))|intros <-; auto].
  - rewrite inorder_zip in *. cbn [inorder] in *. rewrite <- !app_assoc in *. cbn [app] in *. rewrite !app_assoc in *. by eapply good_replace.
  - destruct (decide (hd tr r = nil)) as [Heq|Hne].
    + exists (with_parent y nr). rewrite !lookup_insert_ne by congruence. rewrite Heq, lookup_insert_eq. split; [done|]. cbn. congruence.
    + exists nn. by rewrite !lookup_insert_ne by congruence.
  - intros ->. cbn [hd]. erewrite get_parent_eq; [|rewrite !lookup_insert_ne, lookup_insert_eq by congruence; reflexivity]. done.
  - intros Hr. assert (hd tr r <> nil) by (intros Heq; apply Hnt; rewrite <- Heq; apply Hrt; by apply hd_in). by rewrite !lookup_insert_ne by congruence.
  - assert (z <> y) by (intros ->; apply Hyt, (in_node L)). by rewrite !lookup_insert_ne by congruence.
  - intros a Ha. rewrite inorder_zip, !elem_of_cons, !elem_of_app in Ha. rewrite elem_of_cons, elem_of_app in Hup.
    rewrite !lookup_insert_ne; [done|intros <-; tauto|..|intros <-; tauto]; intros <-.
    + destruct Hrin as [Hrin|Hrin]; [tauto|]. apply Hrt in Hrin. tauto.
    + apply Hlt in Hlin. tauto.
Qed.

(** * rb_delete_fixup *)

(** [nil->parent] is the parent of the hole when the hole is empty. *)
Definition nil_parent (h : gmap Z rb_node) (t : tree) (p : Z) : Prop := t = E -> get_parent nil h = Done p.

Lemma parent_spec h k t : st tr h k t -> nil_parent h t (up tr k) -> get_parent (hd tr t) h = Done (up tr k).
Proof. intros Hst Hn. destruct t as [|c l a r]; [by apply Hn|]. exact (st_parent tr h k L c l a r Hst). Qed.

Lemma kept_nil h h' k t l' x p : st tr h k t -> kept tr h h' (inorder (zip k t)) l' -> nil_parent h x p -> nil_parent h' x p.
Proof.
  intros Hst [_ Hs] Hn Hx. specialize (Hn Hx). unfold get_parent, load in *. rewrite Hs; [done|].
  destruct Hst as (_ & _ & (_ & _ & Hg & Hrn) & _). rewrite elem_of_cons. intros [?|?]; congruence.
Qed.

(** The sibling is red: it becomes the grandparent. *)
Lemma fixup_red_sibling h k d p a w b t : let k0 := F d false p (node d true a w b) :: k in
  st tr h k0 t -> nil_parent h t p ->
  returns (h ← set_red w false h; xp ← get_parent (hd tr t) h; h ← set_red xp true h; xp ← get_parent (hd tr t) h; h ← rotate tr d xp h;
      xp ← get_parent (hd tr t) h; w ← get_child (opp d) xp h; Done (w, h))
    (fun '(w', h') => w' = hd tr a /\ let k1 := F d true p a :: F d false w b :: k in
      st tr h' k1 t /\ nil_parent h' t p /\ kept tr h h' (inorder (zip k0 t)) (inorder (zip k1 t))).
Proof.
  intros k0 Hst Hn. pose proof Hst as Hw. apply st_uncle in Hw as [_ Hw]. pose proof (red_step tr h _ d true a w b false Hw) as (h1 & -> & H1 & K1). cbn [mbind outcome_bind].
  rewrite !zip_opp in K1. apply (kept_nil h h1 _ _ _ t p Hst) in K1 as Hn1; [|done]. apply st_uncle in H1 as [_ H1]. rewrite opp_opp in H1.
  rewrite (parent_spec h1 _ t H1 Hn1). cbn [mbind outcome_bind up]. apply st_plug in H1 as H1'. cbn [plug] in H1'.
  pose proof (red_step tr h1 _ d false t p (node d false a w b) true H1') as (h2 & -> & H2 & K2). cbn [mbind outcome_bind].
  apply (kept_nil h1 h2 _ _ _ t p H1') in K2 as Hn2; [|done]. pose proof (st_left tr h2 k d true t p _ H2) as H2'.
  rewrite (parent_spec h2 _ t H2' Hn2). cbn [mbind outcome_bind up].
  pose proof (rotate_step tr h2 k d true t p false a w b H2) as (h3 & -> & H3 & K3). cbn [mbind outcome_bind].
  apply (kept_nil h2 h3 _ _ _ t p H2) in K3 as Hn3; [|done]. pose proof (st_left _ _ _ _ _ _ _ _ (st_left _ _ _ _ _ _ _ _ H3)) as H3'.
  rewrite (parent_spec h3 _ t H3' Hn3). cbn [mbind outcome_bind up]. pose proof (st_up _ _ _ _ _ _ _ _ H3') as Hp.
  rewrite (get_child_eq _ _ _ (opp d) Hp), child_opp_fnode. apply returns_done. split; [done|]. split; [exact H3'|]. split; [done|].
  eapply kept_trans; [exact K1|]. eapply kept_trans; [exact K2|exact K3].
Qed.

(** The outer nephew is black and the inner one red: they change places. *)
Lemma fixup_inner h k d c p e y f w b t : let k0 := F d c p (node d false (node d true e y f) w b) :: k in
  st tr h k0 t -> nil_parent h t p ->
  returns (h ← set_red y false h; h ← set_red w true h; h ← rotate tr (opp d) w h; xp ← get_parent (hd tr t) h; w ← get_child (opp d) xp h; Done (w, h))
    (fun '(w', h') => w' = y /\ let k1 := F d c p (node d false e y (node d true f w b)) :: k in
      st tr h' k1 t /\ nil_parent h' t p /\ kept tr h h' (inorder (zip k0 t)) (inorder (zip k1 t))).
Proof.
  intros k0 Hst Hn. pose proof Hst as Hw. apply st_uncle in Hw as [_ Hw]. pose proof (st_left tr h _ d false _ w b Hw) as Hy.
  pose proof (red_step tr h _ d true e y f false Hy) as (h1 & -> & H1 & K1). cbn [mbind outcome_bind].
  apply st_plug in H1. cbn [plug] in H1. pose proof (red_step tr h1 _ d false _ w b true H1) as (h2 & -> & H2 & K2). cbn [mbind outcome_bind].
  assert (H2' : st tr h2 (F (opp d) c p t :: k) (node (opp d) true b w (node (opp d) false f y e))) by (by rewrite !node_opp).
  pose proof (rotate_step tr h2 _ (opp d) true b w false f y e H2') as (h3 & -> & H3 & K3). cbn [mbind outcome_bind]. rewrite !node_opp in H3. rewrite !node_opp in K3.
  assert (K : kept tr h h3 (inorder (zip k0 t)) (inorder (zip (F d c p (node d false e y (node d true f w b)) :: k) t))).
  { unfold k0. rewrite <- (zip_opp d c p _ t k). rewrite <- (zip_opp d c p (node d false e y (node d true f w b)) t k). eapply kept_trans; [exact K1|].
    eapply kept_trans; [exact K2|exact K3]. }
  apply (kept_nil h h3 _ _ _ t p Hst) in K as Hn3; [|done]. apply st_uncle in H3 as [_ H3]. rewrite opp_opp in H3.
  rewrite (parent_spec h3 _ t H3 Hn3). cbn [mbind outcome_bind up]. pose proof (st_up _ _ _ _ _ _ _ _ H3) as Hp.
  rewrite (get_child_eq _ _ _ (opp d) Hp), child_opp_fnode, hd_node. apply returns_done. by split_and!.
Qed.

(** The outer nephew is red: a last rotation. *)
Lemma fixup_outer h k d c p a w d' b1 q b2 t (top : Z) : let k0 := F d c p (node d false a w (node d' true b1 q b2)) :: k in
  st tr h k0 t -> nil_parent h t p ->
  returns (xp ← get_parent (hd tr t) h; xpred ← get_red xp h; h ← set_red w xpred h; xp ← get_parent (hd tr t) h; h ← set_red xp false h;
      wr ← get_child (opp d) w h; h ← set_red wr false h; xp ← get_parent (hd tr t) h; h ← rotate tr d xp h; Done (top, h))
    (fun '(x', h') => x' = top /\ let t' := node d c (node d false t p a) w (node d' false b1 q b2) in
      st tr h' k t' /\ kept tr h h' (inorder (zip k0 t)) (inorder (zip k t'))).
Proof.
  intros k0 Hst Hn. rewrite (parent_spec h _ t Hst Hn). cbn [mbind outcome_bind up k0]. pose proof (st_up_red tr h _ t Hst) as Hr. cbn [up k0] in Hr. rewrite Hr. cbn [mbind outcome_bind].
  pose proof Hst as Hw. apply st_uncle in Hw as [_ Hw]. pose proof (red_step tr h _ d false a w _ c Hw) as (h1 & -> & H1 & K1). cbn [mbind outcome_bind].
  rewrite !zip_opp in K1. apply (kept_nil h h1 _ _ _ t p Hst) in K1 as Hn1; [|done]. apply st_uncle in H1 as [_ H1]. rewrite opp_opp in H1.
  rewrite (parent_spec h1 _ t H1 Hn1). cbn [mbind outcome_bind up]. apply st_plug in H1 as H1'. cbn [plug] in H1'.
  pose proof (red_step tr h1 k d c t p _ false H1') as (h2 & -> & H2 & K2). cbn [mbind outcome_bind].
  apply (kept_nil h1 h2 _ _ _ t p H1') in K2 as Hn2; [|done]. pose proof (st_right tr h2 k d false t p _ H2) as H2w.
  pose proof (st_hole tr h2 _ d c a w _ H2w) as Hwn. rewrite (get_child_eq _ _ _ (opp d) Hwn), child_opp_fnode, hd_node. cbn [mbind outcome_bind].
  pose proof (st_right tr h2 _ d c a w _ H2w) as H2q. pose proof (red_step tr h2 _ d' true b1 q b2 false H2q) as (h3 & -> & H3 & K3). cbn [mbind outcome_bind].
  rewrite !zip_opp in K3. cbn [zip plug] in K3. rewrite !node_opp in K3. apply (kept_nil h2 h3 _ _ _ t p H2) in K3 as Hn3; [|done].
  apply st_plug in H3. cbn [plug] in H3. rewrite node_opp in H3. apply st_plug in H3. cbn [plug] in H3. rewrite node_opp in H3.
  rewrite (parent_spec h3 _ t (st_left _ _ _ _ _ _ _ _ H3) Hn3). cbn [mbind outcome_bind up].
  pose proof (rotate_step tr h3 k d false t p c a w _ H3) as (h4 & -> & H4 & K4). cbn [mbind outcome_bind]. apply returns_done. split; [done|]. split; [exact H4|].
  eapply kept_trans; [exact K1|]. eapply kept_trans; [exact K2|]. eapply kept_trans; [exact K3|exact K4].
Qed.

Definition blacken (t : tree) : tree := match t with E => E | T _ l a r => T false l a r end.

Lemma blacken_black t : is_red t = false -> blacken t = t.
Proof. destruct t as [|[] l a r]; done. Qed.

Lemma blacken_node d c l a r : blacken (node d c l a r) = node d false l a r.
Proof. by destruct d. Qed.

(** The loop goes on: the tree in the hole has a black node too few. *)
Definition low h0 l0 (top : Z) (m : nat) (s : Z * gmap Z rb_node) : Prop :=
  let '(x, h) := s in
  exists k t n, st tr h k t /\ x = hd tr t /\ nil_parent h t (up tr k) /\ ctx_rb k (S n) /\ rb t n /\ kept tr h0 h l0 (inorder (zip k t)) /\
  top = hd tr (zip k t) /\ (length k <= m)%nat.

(** The loop is over: it remains to make [x] black. *)
Definition fin h0 l0 (top : Z) (s : Z * gmap Z rb_node) : Prop :=
  let '(x, h) := s in
  exists k t n, st tr h k t /\ x = hd tr t /\ (x = top \/ is_red t = true) /\ ctx_rb k n /\ rb (blacken t) n /\ kept tr h0 h l0 (inorder (zip k t)).

Lemma hd_zip k t t' : k <> [] -> hd tr (zip k t) = hd tr (zip k t').
Proof.
  destruct k as [|f k]; [done|]. intros _. revert f t t'. induction k as [|g k IH]; intros [d c a s] t t'; cbn [zip]; [by destruct d|]. apply IH.
Qed.

(** The last rotation ends the loop. *)
Lemma fixup_outer_fin h0 l0 top h k d c p a w d' b1 q b2 t n : let k0 := F d c p (node d false a w (node d' true b1 q b2)) :: k in
  st tr h k0 t -> nil_parent h t p -> kept tr h0 h l0 (inorder (zip k0 t)) ->
  rb t n -> rb a n -> rb b1 n -> rb b2 n -> (if c : bool then top_black k /\ ctx_rb k (S n) else ctx_rb k (S (S n))) ->
  top = p \/ (k <> [] /\ top = hd tr (zip k E)) ->
  returns (xp ← get_parent (hd tr t) h; xpred ← get_red xp h; h ← set_red w xpred h; xp ← get_parent (hd tr t) h; h ← set_red xp false h;
      wr ← get_child (opp d) w h; h ← set_red wr false h; xp ← get_parent (hd tr t) h; h ← rotate tr d xp h; Done (top, h))
    (fin h0 l0 top).
Proof.
  intros k0 Hst Hn K0 Ht Ha Hb1 Hb2 Hk Htop. go_mono (fixup_outer h k d c p a w d' b1 q b2 t top Hst Hn). intros [x' h'] (-> & H1 & K1).
  pose proof (kept_trans _ _ _ _ _ _ _ K0 K1) as K. set (b := node d' false b1 q b2) in *. set (u := node d false t p a) in *.
  assert (Hb : rb b (S n)) by (by apply rb_black). assert (Hbb : is_red b = false) by apply is_red_node. assert (Hu : rb u (S n)) by (by apply rb_black).
  assert (Hub : is_red u = false) by apply is_red_node.
  assert (Hck : ctx_rb (F d c w b :: k) (S n)) by (cbn [ctx_rb]; split; [done|]; destruct c; [destruct Hk; by split_and!|done]).
  destruct Htop as [->|[Hne ->]].
  - exists (F d c w b :: k), u, (S n). split; [by apply st_left|]. unfold u at 1. rewrite hd_node. split_and!; try done; [by left|]. by rewrite blacken_black.
  - destruct (rb_zip _ _ _ Hck Hu) as (m & Hm & Hred); [intros Hr; congruence|]. specialize (Hred ltac:(done)). cbn [zip plug] in Hm, Hred.
    exists [], (zip k (node d c u w b)), m. split_and!; try done; [by apply (proj1 (st_zip _ _ _ _))|by apply hd_zip|by left|by rewrite blacken_black].
Qed.

(** RB_DELETE_FIXUP_SUB from the test of the nephews on. *)
Definition fixup_nephews (_left : dir) (top x w : Z) (h : gmap Z rb_node) : outcome (Z * gmap Z rb_node) :=
  let _right := opp _left in
  wl ← get_child _left w h; wlred ← get_red wl h;
  wr ← get_child _right w h; wrred ← get_red wr h;
  if negb wlred && negb wrred then
    h ← set_red w true h;
    xp ← get_parent x h;
    Done (xp, h)
  else
    '(w, h) ← (if negb wrred then
                 h ← set_red wl false h;
                 h ← set_red w true h;
                 h ← rotate tr _right w h;
                 xp ← get_parent x h;
                 w ← get_child _right xp h;
                 Done (w, h)
               else Done (w, h));
    xp ← get_parent x h; xpred ← get_red xp h;
    h ← set_red w xpred h;
    xp ← get_parent x h;
    h ← set_red xp false h;
    wr ← get_child _right w h;
    h ← set_red wr false h;
    xp ← get_parent x h;
    h ← rotate tr _left xp h;
    Done (top, h).

(** Both nephews are black. *)
Lemma fixup_recolor h0 l0 top h k d c p a w b t n : let k0 := F d c p (node d false a w b) :: k in
  st tr h k0 t -> nil_parent h t p -> kept tr h0 h l0 (inorder (zip k0 t)) ->
  rb t n -> rb a n -> rb b n -> is_red a = false -> is_red b = false -> (if c : bool then top_black k /\ ctx_rb k (S n) else ctx_rb k (S (S n))) ->
  (c = false -> top = hd tr (zip k0 t)) ->
  returns (h ← set_red w true h; xp ← get_parent (hd tr t) h; Done (xp, h)) (fun s => (c = false /\ low h0 l0 top (length k) s) \/ fin h0 l0 top s).
Proof.
  intros k0 Hst Hn K0 Ht Ha Hb Hab Hbb Hk Htop. pose proof Hst as Hw. apply st_uncle in Hw as [_ Hw].
  pose proof (red_step tr h _ d false a w b true Hw) as (h1 & -> & H1 & K1). cbn [mbind outcome_bind]. rewrite !zip_opp in K1.
  apply (kept_nil h h1 _ _ _ t p Hst) in K1 as Hn1; [|done]. pose proof (kept_trans _ _ _ _ _ _ _ K0 K1) as K. apply st_uncle in H1 as [_ H1]. rewrite opp_opp in H1.
  rewrite (parent_spec h1 _ t H1 Hn1). cbn [mbind outcome_bind up]. apply returns_done. apply st_plug in H1. cbn [plug] in H1.
  assert (Hs : rb (node d true a w b) n) by (by apply rb_red). destruct c.
  - right. exists k, (node d true t p (node d true a w b)), (S n). rewrite hd_node, blacken_node, is_red_node. destruct Hk as [Htb Hk].
    split_and!; try done; [by right|by apply rb_black].
  - left. split; [done|]. exists k, (node d false t p (node d true a w b)), (S n). rewrite hd_node. split_and!; try done.
    + intros Hx. by destruct d.
    + by apply rb_black.
    + rewrite (Htop eq_refl). cbn [k0 zip plug]. destruct k as [|f k]; [by destruct d|]. by apply hd_zip.
Qed.

Lemma fixup_nephews_spec h0 l0 top h k d c p a w b t n : let k0 := F d c p (node d false a w b) :: k in
  st tr h k0 t -> nil_parent h t p -> kept tr h0 h l0 (inorder (zip k0 t)) ->
  rb t n -> rb a n -> rb b n -> (if c : bool then top_black k /\ ctx_rb k (S n) else ctx_rb k (S (S n))) ->
  top = p \/ (k <> [] /\ top = hd tr (zip k E)) -> (c = false -> top = hd tr (zip k0 t)) ->
  returns (fixup_nephews d top (hd tr t) w h) (fun s => (c = false /\ low h0 l0 top (length k) s) \/ fin h0 l0 top s).
Proof.
  intros k0 Hst Hn K0 Ht Ha Hb Hk Htop Htop'. unfold fixup_nephews. unfold k0 in *. clear k0. pose proof Hst as Hw. apply st_uncle in Hw as [_ Hw].
  pose proof (st_hole tr h _ d false a w b Hw) as Hwn. pose proof (st_left tr h _ d false a w b Hw) as Hwa. pose proof (st_right tr h _ d false a w b Hw) as Hwb.
  rewrite (get_child_eq _ _ _ d Hwn), child_fnode. cbn [mbind outcome_bind]. rewrite (st_hd_red tr h _ a Hwa). cbn [mbind outcome_bind].
  rewrite (get_child_eq _ _ _ (opp d) Hwn), child_opp_fnode. cbn [mbind outcome_bind]. rewrite (st_hd_red tr h _ b Hwb). cbn [mbind outcome_bind].
  destruct (negb (is_red a) && negb (is_red b)) eqn:Hboth.
  { apply andb_true_iff in Hboth as [?%negb_true_iff ?%negb_true_iff]. by eapply (fixup_recolor h0 l0 top h k d c p a w b t n). }
  destruct (is_red b) eqn:Hbr; cbn [negb].
  - destruct b as [|[] b1 q b2]; [done| |done]. destruct Hb as (Hb1 & Hb2 & _). cbn [mbind outcome_bind].
    go_mono (fixup_outer_fin h0 l0 top h k d c p a w L b1 q b2 t n); [exact Hst|exact Hn|exact K0|done..|]. auto.
  - rewrite andb_true_r in Hboth. apply negb_false_iff in Hboth. destruct a as [|[] a1 y a2]; [done| |done].
    destruct (node_view d (T true a1 y a2) true a1 y a2 eq_refl) as (e & f & Ea). rewrite Ea in Hst, K0, Ha |- *. apply rb_red in Ha as (He & Hf & _ & Hfb). rewrite hd_node.
    pose proof (fixup_inner h k d c p e y f w b t Hst Hn) as ([w' h1] & -> & -> & H1 & Hn1 & K1). cbn [mbind outcome_bind].
    go_mono (fixup_outer_fin h0 l0 top h1 k d c p e y d f w b t n); [exact H1|exact Hn1|by eapply kept_trans|done..|]. auto.
Qed.

Lemma delete_fixup_sub_spec h0 l0 top h k d c p s t n : let k0 := F d c p s :: k in
  st tr h k0 t -> nil_parent h t p -> kept tr h0 h l0 (inorder (zip k0 t)) -> rb t n -> ctx_rb k0 (S n) -> top = hd tr (zip k0 t) ->
  returns (delete_fixup_sub tr d top (hd tr t) h) (fun st => low h0 l0 top (length k) st \/ fin h0 l0 top st).
Proof.
  intros k0 Hst Hn K0 Ht Hk Htop. change (delete_fixup_sub tr d top (hd tr t) h) with
    (xp ← get_parent (hd tr t) h; w ← get_child (opp d) xp h; wred ← get_red w h;
     '(w, h) ← (if wred : bool then
        h ← set_red w false h; xp ← get_parent (hd tr t) h; h ← set_red xp true h; xp ← get_parent (hd tr t) h; h ← rotate tr d xp h;
        xp ← get_parent (hd tr t) h; w ← get_child (opp d) xp h; Done (w, h) else Done (w, h)); fixup_nephews d top (hd tr t) w h).
  rewrite (parent_spec h _ t Hst Hn). unfold k0 in *. clear k0. cbn [mbind outcome_bind up]. destruct (st_uncle _ _ _ _ _ _ _ _ Hst) as [-> Hs]. cbn [mbind outcome_bind].
  rewrite (st_hd_red tr h _ s Hs). cbn [mbind outcome_bind]. destruct Hk as [Hsn Hk].
  assert (Htop' : top = p \/ k <> [] /\ top = hd tr (zip k E)).
  { destruct k as [|f k]; [left; rewrite Htop; by destruct d|right; split; [done|]]. rewrite Htop. cbn [zip plug]. by apply (hd_zip (f :: k)). }
  destruct s as [|cs s1 w s2]; [done|]. destruct (node_view d (T cs s1 w s2) cs s1 w s2 eq_refl) as (a & b & Es). rewrite Es in *. rewrite is_red_node in *. rewrite hd_node.
  destruct cs.
  - destruct c; [by destruct Hk|]. apply rb_red in Hsn as (Ha & Hb & Hab & Hbb).
    pose proof (fixup_red_sibling h k d p a w b t Hst Hn) as ([w' h1] & -> & -> & H1 & Hn1 & K1). cbn [mbind outcome_bind].
    destruct a as [|ca a1 w1 a2]; [done|]. cbn [is_red] in Hab. subst ca. destruct (node_view d (T false a1 w1 a2) false a1 w1 a2 eq_refl) as (a' & a'' & Ea). rewrite Ea in *.
    apply rb_black in Ha as [Ha1 Ha2]. rewrite hd_node.
    go_mono (fixup_nephews_spec h0 l0 top h1 (F d false w b :: k) d true p a' w1 a'' t n); [exact H1|exact Hn1|by eapply kept_trans|done|done|done|done| |done|].
    2: { intros st [[? _]|?]; [done|by right]. }
    destruct Htop' as [?|[Hne Htop']]; [by left|right]. split; [done|]. rewrite Htop'. cbn [zip plug]. by apply hd_zip.
  - apply rb_black in Hsn as [Ha Hb]. cbn [mbind outcome_bind].
    go_mono (fixup_nephews_spec h0 l0 top h k d c p a w b t n); [exact Hst|exact Hn|exact K0|done|done|done| |done|done|].
    + destruct c; [by destruct Hk as (_ & ? & ?)|done].
    + intros st [[_ ?]|?]; [by left|by right].
Qed.

(** Leaving the loop. *)
Lemma low_exit h0 l0 top m x h : low h0 l0 top m (x, h) -> (exists t, (exists k, st tr h k t) /\ x = hd tr t /\ (x = top \/ is_red t = true)) -> fin h0 l0 top (x, h).
Proof.
  intros (k & t & n & Hst & -> & Hn & Hk & Ht & K & Htop & Hlen) (t' & (k' & Hst') & Hhd & Hx).
  assert (Hr : is_red t' = is_red t).
  { pose proof (st_hd_red tr h k t Hst) as H1. pose proof (st_hd_red tr h k' t' Hst') as H2. rewrite Hhd in H1. rewrite H1 in H2. by injection H2. }
  rewrite Hr in Hx. destruct (is_red t) eqn:Hred.
  - exists k, t, (S n). split_and!; try done; [by right|]. destruct t as [|[] l a r]; [done| |done]. destruct Ht as (? & ? & _). done.
  - destruct Hx as [Hx|?]; [|done]. exists [], (zip k t), n. destruct k as [|f k].
    + cbn [zip]. split_and!; try done; [by left|]. by rewrite blacken_black.
    + exfalso. destruct (st_good tr h _ _ Hst) as (_ & _ & _ & Hdis & Hnk & Hnt & _).
      assert (Htin : forall k f t, hd tr (zip (f :: k) t) ∈ before (f :: k) ++ after (f :: k)).
      { clear. induction k as [|g k IH]; intros [d c a s] t; [destruct d; cbn; set_solver|]. cbn [zip]. specialize (IH g (plug (F d c a s) t)).
        cbn [zip] in IH. destruct d; cbn [before after] in *; rewrite ?elem_of_app, ?elem_of_cons, ?elem_of_app in *; tauto. }
      specialize (Htin k f t). rewrite <- Htop, <- Hx in Htin. destruct t as [|c l a r]; cbn [hd] in Htin; [apply Hnk; by right|].
      apply (Hdis a); [apply (in_node L)|by right].
Qed.

Lemma rb_delete_fixup_spec fuel h k t n : st tr h k t -> nil_parent h t (up tr k) -> rb t n -> ctx_rb k (S n) -> (S (length k) < fuel)%nat ->
  returns (rb_delete_fixup tr fuel (hd tr t) h) (fun h' => exists t' m, st tr h' [] t' /\ rb t' m /\ is_red t' = false /\
    kept tr h h' (inorder (zip k t)) (inorder t')).
Proof.
  intros Hst Hn Ht Hk Hf. unfold rb_delete_fixup. set (l0 := inorder (zip k t)). set (top := hd tr (zip k t)).
  assert (Hroot : h !! root = Some (MkNode false nil top nil)) by (pose proof Hst as (Hr & _)%st_zip; exact Hr).
  rewrite (get_child_eq _ _ _ L Hroot). cbn [mbind outcome_bind child lchild].
  eapply (returns_bind _ _ (fin h l0 top)).
  - apply (loop_returns_le (fun m s => (exists m', m = S m' /\ low h l0 top m' s) \/ fin h l0 top s) _ _ _ (S (length k))); [| |done].
    2: { left. exists (length k). split; [done|]. exists k, t, n. by split_and!. }
    intros m [x h1] HI. assert (exists k1 t1, st tr h1 k1 t1 /\ x = hd tr t1) as (k1 & t1 & H1 & Hx1).
    { destruct HI as [(m' & _ & k1 & t1 & n1 & ? & ? & _)|(k1 & t1 & n1 & ? & ? & _)]; by exists k1, t1. }
    rewrite Hx1, (st_hd_red tr h1 k1 t1 H1). cbn [mbind outcome_bind]. case_decide as Hc.
    + destruct HI as [(m' & -> & k2 & t2 & n2 & H2 & Hx2 & Hn2 & Hk2 & Ht2 & K2 & Htop2 & Hl2)|(k2 & t2 & n2 & H2 & Hx2 & Hor & _)].
      2: { exfalso. destruct Hc as [Hc1 Hc2]. rewrite <- Hx1, Hx2 in Hc1. pose proof (st_hd_red tr h1 k2 t2 H2) as E2. rewrite <- Hx2, Hx1, (st_hd_red tr h1 k1 t1 H1) in E2.
           destruct Hor; [congruence|]. injection E2. congruence. }
      destruct Hc as [Hc1 Hc2]. rewrite <- Hx1 in Hc1 |- *. rewrite Hx2 in *. rewrite (parent_spec h1 k2 t2 H2 Hn2). cbn [mbind outcome_bind].
      destruct k2 as [|[d c p s] k2]; [done|]. cbn [up]. pose proof (st_up tr h1 _ _ _ _ _ _ H2) as Hp. rewrite (get_child_eq _ _ _ L Hp). cbn [mbind outcome_bind].
      assert (Hd : hd tr t2 = child L (fnode d c (up tr k2) (hd tr t2) (hd tr s)) <-> d = L).
      { destruct d; [done|]. cbn [child fnode lchild]. split; [|done]. intros Heq. exfalso. destruct t2 as [|? ? ? ?]; [|by apply (st_sibling tr h1 k2 R c p s) in Heq].
        destruct Hk2 as [Hs _]. destruct s; [done|]. apply st_uncle in H2 as [_ H2]. symmetry in Heq. by apply (st_hd_nil tr h1 _ _ H2) in Heq. }
      eapply (returns_bind _ _ (fun st => low h l0 top (length k2) st \/ fin h l0 top st)).
      * case_decide as Hdec; [apply Hd in Hdec as ->|assert (d = R) as -> by (destruct d; [exfalso; apply Hdec, Hd; done|done])];
          eapply (delete_fixup_sub_spec h l0 top h1 k2 _ c p s t2 n2); done.
      * intros [x3 h3] H3. apply returns_done. cbn [length] in Hl2. destruct H3 as [H3|H3].
        -- exists (S (length k2)). split; [left; by eexists|lia].
        -- exists O. split; [by right|lia].
    + apply returns_done. destruct HI as [(m' & -> & Hlow)|Hfin]; [|by rewrite <- Hx1]. rewrite <- Hx1. eapply low_exit; [done|]. exists t1. split; [by exists k1|]. split; [done|].
      destruct (decide (x = top)); [by left|right]. destruct (is_red t1); [done|]. exfalso. apply Hc. by rewrite <- Hx1.
  - intros [x h1] (k1 & t1 & n1 & H1 & -> & _ & Hk1 & Ht1 & K1).
    assert (Hz : forall t2, rb t2 n1 -> is_red t2 = false -> exists m, rb (zip k1 t2) m /\ is_red (zip k1 t2) = false).
    { intros t2 Hrb Hb. destruct (rb_zip k1 n1 t2 Hk1 Hrb) as (m & Hm & Hr); [congruence|]. exists m. split; [done|]. destruct k1; [done|by apply Hr]. }
    destruct t1 as [|c l a r]; cbn [hd blacken] in *.
    + pose proof H1 as (_ & _ & _ & nn & Hnil & Hred). unfold set_red. rewrite (update_eq _ _ _ _ Hnil). apply returns_done.
      assert (with_red false nn = nn) as -> by (destruct nn; cbn in *; by subst). rewrite insert_id by done. destruct (Hz E Ht1 eq_refl) as (m & Hm & Hr).
      exists (zip k1 E), m. split_and!; try done. by apply (proj1 (st_zip _ _ _ _)).
    + go_mono (red_step tr h1 k1 L c l a r false); [exact H1|]. intros h2 [H2 K2]. destruct (Hz (T false l a r) Ht1 eq_refl) as (m & Hm & Hr).
      exists (zip k1 (T false l a r)), m. split_and!; try done; [by apply (proj1 (st_zip _ _ _ _))|]. by eapply kept_trans.
Qed.

(** * rb_delete *)

Lemma delete_finish fuel h k d c t y n : st tr h k t -> nil_parent h t (up tr k) -> ctx_rb k n -> rb (node d c t y E) n -> (S (length k) < fuel)%nat ->
  returns (if negb c then rb_delete_fixup tr fuel (hd tr t) h else Done h) (fun h' => exists t' m, st tr h' [] t' /\ rb t' m /\ is_red t' = false /\
    kept tr h h' (inorder (zip k t)) (inorder t')).
Proof.
  intros Hst Hn Hk Hrb Hf. destruct c; cbn [negb].
  - apply rb_red in Hrb as (Ht & _ & Hb & _). apply returns_done. destruct (rb_zip k n t Hk Ht) as (m & Hm & Hr); [congruence|].
    exists (zip k t), m. split_and!; try done; [by apply (proj1 (st_zip _ _ _ _))|]. destruct k; [done|by apply Hr].
  - apply rb_black_inv in Hrb as (m & -> & Ht & _). by eapply rb_delete_fixup_spec.
Qed.

(** The colours around a hole do not depend on the addresses. *)
Lemma ctx_rb_addr ks d c a a' s k : forall n, ctx_rb (ks ++ F d c a s :: k) n -> ctx_rb (ks ++ F d c a' s :: k) n.
Proof.
  induction ks as [|[d' c' b s'] ks IH]; intros n; [done|]. cbn [app ctx_rb]. intros [Hs Hk]. split; [done|].
  destruct c'; [|by apply IH]. destruct Hk as (Hb & Htop & Hk). split_and!; [done|by destruct ks as [|[]]|by apply IH].
Qed.

(** [z] has at most one child. *)
Lemma delete_one_child fuel h k d c t z m : st tr h k (node d c t z E) -> rb (zip k (node d c t z E)) m -> is_red (zip k (node d c t z E)) = false ->
  (S (length k) < fuel)%nat ->
  returns (h ← set_parent (hd tr t) (up tr k) h; h ← replace_child z (hd tr t) h; zred ← get_red z h;
      if negb zred then rb_delete_fixup tr fuel (hd tr t) h else Done h)
    (fun h' => exists t' m', st tr h' [] t' /\ rb t' m' /\ is_red t' = false /\ inorder t' = inorder (zip k t) /\ is_Some (h' !! z) /\
      forall a, a ∉ root :: nil :: inorder (zip k (node d c t z E)) -> h' !! a = h !! a).
Proof.
  intros Hst Hm Hb Hf. destruct (zip_rb _ _ _ Hm Hb) as (n & Hk & Hrb & _). pose proof (splice_spec h k d c t z Hst) as (h1 & E1 & H1 & Hp1 & Hz1 & Hout).
  destruct (set_parent (hd tr t) (up tr k) h) as [h'| |]; [|done..]. cbn [mbind outcome_bind] in *. rewrite E1. cbn [mbind outcome_bind].
  pose proof (st_hole tr h k d c t z E Hst) as Hz. rewrite <- Hz1 in Hz. rewrite (get_red_eq _ _ _ Hz), red_fnode. cbn [mbind outcome_bind].
  go_mono (delete_finish fuel h1 k d c t z n); [done|by intros ->|done|done|done|]. intros h2 (t' & m' & H2 & Hm' & Hb' & Hi & Hsame).
  exists t', m'. split_and!; try done.
  - rewrite Hsame; [by eexists|]. pose proof Hst as (_ & _ & (Hnd & Hr & _) & _). rewrite (inorder_splice k d c t z) in Hnd, Hr. apply NoDup_cons in Hnd as [Hnd _].
    rewrite elem_of_cons in *. naive_solver.
  - intros a Ha. rewrite Hsame; [by apply Hout|]. rewrite (inorder_splice k d c t z) in Ha. rewrite !elem_of_cons in *. tauto.
Qed.

(** [z] has two children, and [y] is its successor. *)
Lemma delete_two_children fuel h k c l z ks c' y r' m : let t := zip k (T c l z (zip ks (T c' E y r'))) in
  st tr h k (T c l z (zip ks (T c' E y r'))) -> l <> E -> all_side L ks -> rb t m -> is_red t = false -> (S (height t) < fuel)%nat ->
  returns (yp ← get_parent y h; h ← set_parent (hd tr r') yp h; h ← replace_child y (hd tr r') h; yred ← get_red y h; h ← transplant y z h;
      if negb yred then rb_delete_fixup tr fuel (hd tr r') h else Done h)
    (fun h' => exists t' m', st tr h' [] t' /\ rb t' m' /\ is_red t' = false /\
      inorder t' = (before k ++ inorder l) ++ inorder (zip ks (T c' E y r')) ++ after k /\ is_Some (h' !! z) /\
      forall a, a ∉ root :: nil :: inorder t -> h' !! a = h !! a).
Proof.
  intros t Hst Hl Hks Hm Hb Hf. set (k2 := ks ++ F R c z l :: k).
  assert (Ez : forall u, zip k2 u = zip k (T c l z (zip ks u))) by (intros u; unfold k2; rewrite zip_app; done).
  assert (Et : t = zip k2 (node R c' r' y E)) by (by rewrite Ez).
  assert (H2 : st tr h k2 (node R c' r' y E)) by (apply (proj2 (st_zip _ _ _ _)); rewrite <- Et; by apply (proj1 (st_zip _ _ _ _))).
  rewrite Et in Hm, Hb. destruct (zip_rb _ _ _ Hm Hb) as (n & Hk2 & Hrb & _). rewrite (st_parent _ _ _ _ _ _ _ _ H2). cbn [mbind outcome_bind].
  pose proof (splice_spec h k2 R c' r' y H2) as (h1 & E1 & H1 & Hp1 & Hy1 & Hout1).
  destruct (set_parent (hd tr r') (up tr k2) h) as [h'| |]; [|done..]. cbn [mbind outcome_bind] in *. rewrite E1. cbn [mbind outcome_bind].
  pose proof (st_hole _ _ _ _ _ _ _ _ H2) as Hy. rewrite <- Hy1 in Hy. rewrite (get_red_eq _ _ _ Hy), red_fnode. cbn [mbind outcome_bind].
  assert (Hfr : fresh tr y (inorder (zip k2 r'))).
  { pose proof H2 as (_ & _ & (Hnd & Hr & Hnl & _) & _). rewrite inorder_splice in Hnd, Hr, Hnl. apply NoDup_cons in Hnd as [Hnd _]. rewrite elem_of_cons in Hr, Hnl.
    split_and!; [naive_solver..|done]. }
  assert (H1' : st tr h1 k (T c l z (zip ks r'))) by (apply (proj2 (st_zip _ _ _ _)); rewrite <- Ez; by apply (proj1 (st_zip _ _ _ _))).
  rewrite Ez in Hfr. pose proof (transplant_spec h1 k c l z (zip ks r') y _ H1' Hl Hfr Hy) as (h3 & -> & H3 & Hn3 & Hnil3 & Hz3 & Hout3). cbn [mbind outcome_bind].
  assert (H3' : st tr h3 (ks ++ F R c y l :: k) r') by (apply (proj2 (st_zip _ _ _ _)); rewrite zip_app; cbn [zip plug node]; by apply (proj1 (st_zip _ _ _ _))).
  pose proof (height_zip k2 (node R c' r' y E)) as Hh. rewrite <- Et in Hh. unfold k2 in Hh. rewrite length_app in Hh. cbn [length] in Hh.
  go_mono (delete_finish fuel h3 (ks ++ F R c y l :: k) R c' r' y n); [done| |by eapply ctx_rb_addr|done|rewrite length_app; cbn [length]; lia|].
  - intros ->. destruct ks as [|f ks]; [by apply Hn3|]. unfold get_parent, load in *. rewrite Hnil3; [by destruct f|].
    intros Hz. apply (f_equal (fun t => length (inorder t))) in Hz. rewrite inorder_zip, !length_app in Hz. cbn in Hz.
    destruct f as [[] ? ? ?]; cbn in Hz; rewrite ?length_app in Hz; cbn in Hz; lia.
  - intros h4 (t4 & m4 & H4 & Hm4 & Hb4 & Hi & Hsame). exists t4, m4. split_and!; try done.
    + rewrite Hi, zip_app, inorder_zip. cbn [zip plug node inorder]. rewrite !inorder_zip, (all_side_before ks Hks). cbn [app inorder]. rewrite <- !app_assoc. cbn [app].
      cbn [before after]. by rewrite <- ?app_assoc.
    + pose proof H1' as (_ & (Hzn & _) & Hg & _). rewrite Hsame, Hz3, Hzn; [by eexists|]. rewrite zip_app. cbn [zip plug node]. by apply replaced_not_in.
    + intros a Ha. rewrite Hsame, Hout3, Hout1; [done|..].
      * by rewrite <- Et.
      * intros Ha'. apply Ha. rewrite Et, inorder_splice. rewrite Ez. rewrite !elem_of_cons in *. tauto.
      * intros Ha'. apply Ha. rewrite Et, inorder_splice. rewrite Ez. rewrite zip_app in Ha'. cbn [zip plug node] in Ha'. rewrite !inorder_zip in *. cbn [inorder] in *.
        rewrite !elem_of_cons, !elem_of_app, !elem_of_cons in *. tauto.
Qed.
End Delete.

Section DeleteSpec.
Context (compare : Z -> Z -> Z) {HC : CompareLaws compare} (tr : rb_tree).

Lemma sorted_remove l1 z l2 : sorted compare (l1 ++ z :: l2) -> sorted compare (l1 ++ l2).
Proof.
  intros Hs. apply (sorted_app compare) in Hs as (H1 & H2 & H12). apply StronglySorted_inv in H2 as [H2 _]. apply (sorted_app compare). split_and!; try done.
  intros a b Ha Hb. apply H12; [done|by right].
Qed.

Lemma rb_delete_spec fuel h t z l1 l2 : tree_ok compare tr h t -> inorder t = l1 ++ z :: l2 -> (S (height t) < fuel)%nat ->
  returns (rb_delete tr fuel z h) (fun h' => exists t', tree_ok compare tr h' t' /\ inorder t' = l1 ++ l2 /\ is_Some (h' !! z) /\
    forall a, a ∉ root_ tr :: nil_ tr :: inorder t -> h' !! a = h !! a).
Proof.
  intros (Hst & (m & Hm) & Hb & Hs) Hi Hf. rewrite Hi in Hs. apply sorted_remove in Hs.
  assert (Hgoal : returns (rb_delete tr fuel z h) (fun h' => exists t' m', st tr h' [] t' /\ rb t' m' /\ is_red t' = false /\ inorder t' = l1 ++ l2 /\ is_Some (h' !! z) /\
    forall a, a ∉ root_ tr :: nil_ tr :: inorder t -> h' !! a = h !! a)).
  2: { go_mono Hgoal. intros h' (t' & m' & ? & ? & ? & Hi' & ? & ?). exists t'. split_and!; try done. split_and!; [done|by exists m'|done|by rewrite Hi']. }
  destruct (at_node tr _ _ _ _ _ Hst Hi) as (k & c & l & r & -> & Hz & -> & ->). pose proof (height_zip k (T c l z r)) as Hh. cbn [height] in Hh.
  pose proof (st_hole tr h k L c l z r Hz) as Hn. pose proof (st_hd_nil tr h _ _ (st_left _ _ _ _ _ _ _ _ (Hz : st tr h k (node L c l z r)))) as Hl.
  pose proof (st_hd_nil tr h _ _ (st_right _ _ _ _ _ _ _ _ (Hz : st tr h k (node L c l z r)))) as Hr.
  assert (Hzne : z <> root_ tr /\ z <> nil_ tr).
  { destruct (st_good tr h k _ Hz) as (_ & _ & _ & Hdis & _ & Hnt & _). pose proof (in_node L c l z r) as Hin. split; intros ->; [by apply (Hdis _ Hin); left|done]. }
  unfold rb_delete. rewrite (get_child_eq _ _ _ L Hn). cbn [mbind outcome_bind child fnode lchild]. rewrite (get_child_eq _ _ _ R Hn). cbn [mbind outcome_bind child fnode rchild].
  case_decide as Hone.
  - cbn [mbind outcome_bind]. rewrite (get_child_eq _ _ _ L Hn). cbn [mbind outcome_bind child fnode lchild].
    assert (exists d x, T c l z r = node d c x z E /\ (if decide (hd tr l <> nil_ tr) then Done (hd tr l) else get_child R z h) = Done (hd tr x) /\
      before k ++ inorder x ++ after k = (before k ++ inorder l) ++ inorder r ++ after k) as (d & x & Ex & Hx & Hio).
    { case_decide as Hd; [exists L, l|exists R, r].
      - destruct Hone as [?|Hone]; [done|]. apply Hr in Hone as ->. split_and!; try done. by rewrite <- app_assoc.
      - assert (l = E) as -> by (apply Hl; destruct (decide (hd tr l = nil_ tr)); tauto). rewrite (get_child_eq _ _ _ R Hn). split_and!; try done. by rewrite app_nil_r. }
    rewrite Hx. cbn [mbind outcome_bind]. unfold assert_. rewrite decide_True by done. cbn [mbind outcome_bind]. rewrite Ex in *.
    rewrite (st_parent _ _ _ _ _ _ _ _ Hz). cbn [mbind outcome_bind].
    pose proof (delete_one_child tr fuel h k d c x z m Hz Hm Hb ltac:(lia)) as (h' & E' & t' & m' & H1 & H2 & H3 & H4 & H5 & H6).
    exists h'. split; [|exists t', m'; split_and!; try done; by rewrite H4, inorder_zip].
    rewrite <- E'. destruct (set_parent (hd tr x) (up tr k) h) as [h1| |]; [|done..]. cbn [mbind outcome_bind]. destruct (replace_child z (hd tr x) h1) as [h2| |]; [|done..].
    cbn [mbind outcome_bind]. destruct (get_red z h2) as [b| |]; [|done..]. cbn [mbind outcome_bind]. by rewrite decide_False by tauto.
  - assert (l <> E /\ r <> E) as [Hlne Hrne] by (split; intros ->; apply Hone; [by left; apply Hl|by right; apply Hr]).
    pose proof (successor_spec tr fuel h k c l z r Hz ltac:(lia)) as (y & -> & _ & Hy). destruct (Hy Hrne) as (ks & c' & r' & -> & Hks). cbn [mbind outcome_bind].
    assert (Hyn : h !! y = Some (MkNode c' (up tr (ks ++ F R c z l :: k)) (nil_ tr) (hd tr r')) /\ y <> root_ tr /\ y <> nil_ tr /\ y <> z).
    { assert (Hst' : st tr h (ks ++ F R c z l :: k) (node L c' E y r')) by (apply (proj2 (st_zip _ _ _ _)); rewrite zip_app; by apply (proj1 (st_zip _ _ _ _)) in Hz).
      split; [exact (st_hole _ _ _ _ _ _ _ _ Hst')|]. destruct (st_good tr h _ _ Hst') as (_ & _ & _ & Hdis & _ & Hnt & _). pose proof (in_node L c' E y r') as Hin.
      split_and!; [intros ->; by apply (Hdis _ Hin); left|by intros ->|]. intros ->. apply (Hdis _ Hin). right. rewrite elem_of_app. left. clear.
      induction ks as [|[[] ? ? ?] ks IH]; cbn; set_solver. }
    destruct Hyn as (Hyn & Hyr & Hynil & Hyz). rewrite (get_child_eq _ _ _ L Hyn). cbn [mbind outcome_bind child lchild]. rewrite decide_False by tauto.
    rewrite (get_child_eq _ _ _ R Hyn). cbn [mbind outcome_bind child rchild]. unfold assert_. rewrite decide_True by done. cbn [mbind outcome_bind].
    pose proof (delete_two_children tr fuel h k c l z ks c' y r' m Hz Hlne Hks Hm Hb Hf) as (h' & E' & H'). exists h'. split; [|exact H']. rewrite <- E'.
    destruct (get_parent y h) as [yp| |]; [|done..]. cbn [mbind outcome_bind]. destruct (set_parent (hd tr r') yp h) as [h1| |]; [|done..]. cbn [mbind outcome_bind].
    destruct (replace_child y (hd tr r') h1) as [h2| |]; [|done..]. cbn [mbind outcome_bind]. destruct (get_red y h2) as [b| |]; [|done..]. cbn [mbind outcome_bind].
    by rewrite decide_True.
Qed.
End DeleteSpec.
