(* ===== verification/RbSpec.v ===== *)
(** Red-black trees of the ucore kernel (src/ucore/src/kern-ucore/libs/rb_tree.c):
    what the operations promise.  The tree is a sequence of nodes, sorted by the
    comparison. *)

From S2P Require Import Prelude.
From Stdlib Require Import Sorted.
From stdpp Require Import list gmap sorting.
From S2P Require Import RbTree RbInsert RbWalk RbDelete.
#[local] Open Scope Z_scope.

(** * Operations and their specification *)

Inductive top_ := Insert (a : Z) | Delete (a : Z) | Search (ck : Z -> Z) | Next (a : Z) | Prev (a : Z).

Section Spec.
Context (compare : Z -> Z -> Z).

(** The result of an operation that returns a pointer, or NULL. *)
Definition exec_top (tr : rb_tree) (fuel : nat) (o : top_) (h : gmap Z rb_node) : outcome (option Z * gmap Z rb_node) :=
  match o with
  | Insert a => h ← rb_insert tr compare fuel a h; Done (None, h)
  | Delete a => h ← rb_delete tr fuel a h; Done (None, h)
  | Search ck => r ← rb_search tr ck fuel h; Done (r, h)
  | Next a => r ← rb_node_next tr fuel a h; Done (r, h)
  | Prev a => r ← rb_node_prev tr fuel a h; Done (r, h)
  end.

Fixpoint exec_tops (tr : rb_tree) (fuel : nat) (os : list top_) (h : gmap Z rb_node) : outcome (list (option Z) * gmap Z rb_node) :=
  match os with
  | [] => Done ([], h)
  | o :: os => '(r, h) ← exec_top tr fuel o h; '(rs, h) ← exec_tops tr fuel os h; Done (r :: rs, h)
  end.

(** The operations on the sequence: a step from [l] to [l'] with the result [r]. *)
Inductive spec_top : list Z -> top_ -> option Z -> list Z -> Prop :=
| spec_insert l a : spec_top l (Insert a) None (insert_sorted compare a l)
| spec_delete l1 a l2 : spec_top (l1 ++ a :: l2) (Delete a) None (l1 ++ l2)
| spec_found l ck a : a ∈ l -> ck a = 0 -> spec_top l (Search ck) (Some a) l
| spec_not_found l ck : (forall a, a ∈ l -> ck a <> 0) -> spec_top l (Search ck) None l
| spec_next l1 a l2 : spec_top (l1 ++ a :: l2) (Next a) (head l2) (l1 ++ a :: l2)
| spec_prev l1 a l2 : spec_top (l1 ++ a :: l2) (Prev a) (l1.[zlen l1 - 1]) (l1 ++ a :: l2).

Inductive spec_tops : list Z -> list top_ -> list (option Z) -> list Z -> Prop :=
| spec_nil l : spec_tops l [] [] l
| spec_cons l o r l1 os rs l2 : spec_top l o r l1 -> spec_tops l1 os rs l2 -> spec_tops l (o :: os) (r :: rs) l2.

(** What the caller owes: a node is inserted when it is not in the tree, and deleted
    or asked for its neighbours when it is; the keys agree with the order. *)
Fixpoint valid (os : list top_) (s : list Z) : Prop :=
  match os with
  | [] => True
  | Insert a :: os => (a ∉ s) /\ valid os (a :: s)
  | Delete a :: os => a ∈ s /\ valid os (filter (fun b => b <> a) s)
  | Search ck :: os => key_ok compare ck /\ valid os s
  | Next a :: os | Prev a :: os => a ∈ s /\ valid os s
  end.

(** The nodes that are inserted, and how many the tree has at most. *)
Definition nodes (os : list top_) : list Z := omap (fun o => match o with Insert a => Some a | _ => None end) os.
End Spec.

(** * Refinement *)

Section Refine.
Context (compare : Z -> Z -> Z) {HC : CompareLaws compare} (tr : rb_tree).

Lemma tree_lookup h t a : st tr h [] t -> a ∈ inorder t -> is_Some (h !! a).
Proof.
  intros Hst Ha. destruct (find_zip t a Ha) as (k & c & l & r & ->). apply st_zip in Hst. pose proof (st_hole tr h k L c l a r Hst). by eexists.
Qed.

Lemma elem_insert_sorted a x l : x ∈ insert_sorted compare a l <-> x = a \/ x ∈ l.
Proof.
  induction l as [|b l IH]; cbn [insert_sorted]; [by rewrite list_elem_of_singleton, elem_of_nil; tauto|]. destruct (0 <? compare b a); rewrite !elem_of_cons; [tauto|].
  rewrite IH. tauto.
Qed.

Lemma length_insert_sorted a l : length (insert_sorted compare a l) = S (length l).
Proof. induction l as [|b l IH]; cbn [insert_sorted]; [done|]. destruct (0 <? compare b a); cbn [length]; lia. Qed.

(** The nodes that the caller owns can be written. *)
Definition owned (h : gmap Z rb_node) (os : list top_) : Prop := forall a, a ∈ nodes os -> a <> root_ tr /\ a <> nil_ tr /\ is_Some (h !! a).

Lemma owned_tail h o os : owned h (o :: os) -> owned h os.
Proof. intros Ho a Ha. apply Ho. unfold nodes. cbn [omap list_omap]. destruct o; [by right|done..]. Qed.

(** The caller's nodes stay writable: those in the tree, and those that the
    operation did not touch. *)
Lemma owned_step h h' t' os (l : list Z) : owned h os -> st tr h' [] t' -> (forall a, a ∈ l -> a = root_ tr \/ a = nil_ tr \/ a ∈ inorder t' \/ is_Some (h' !! a)) ->
  (forall a, a ∉ l -> h' !! a = h !! a) -> owned h' os.
Proof.
  intros Ho Hst Hin Hout a Ha. destruct (Ho a Ha) as (Hr & Hn & Hs). split_and!; [done|done|]. destruct (decide (a ∈ l)) as [Hl|Hl]; [|by rewrite Hout].
  destruct (Hin a Hl) as [?|[?|[?|?]]]; [done|done|by eapply tree_lookup|done].
Qed.

(** What an operation must leave. *)
Definition stepped (h : gmap Z rb_node) (t : tree) (o : top_) (os : list top_) (N : nat) : option Z * gmap Z rb_node -> Prop := fun '(r, h') =>
  exists t' s', tree_ok compare tr h' t' /\ spec_top compare (inorder t) o r (inorder t') /\ (forall x, x ∈ s' <-> x ∈ inorder t') /\ valid compare os s' /\
    owned h' os /\ (length (inorder t') + length (nodes os) <= N)%nat.

Lemma insert_stepped fuel a os h t s N : tree_ok compare tr h t -> (forall x, x ∈ s <-> x ∈ inorder t) -> (a ∉ s) -> valid compare os (a :: s) -> owned h (Insert a :: os) ->
  (length (inorder t) + length (nodes (Insert a :: os)) <= N)%nat -> (height t < fuel)%nat -> returns (exec_top compare tr fuel (Insert a) h) (stepped h t (Insert a) os N).
Proof.
  intros Hok Hs Ha Hv Ho HN Hf. destruct (Ho a) as (Hr & Hn & n & Hna); [left|]. cbn [exec_top].
  go_call (rb_insert_spec compare tr fuel a h t n); [done|split_and!; [done|done|by rewrite <- Hs]|done|done|]. intros h' (t' & Hok' & Hi & Hout). apply returns_done.
  exists t', (a :: s). split_and!; try done.
  - rewrite Hi. constructor.
  - intros x. rewrite Hi, elem_insert_sorted, elem_of_cons, Hs. done.
  - eapply (owned_step h h' t' os (root_ tr :: a :: inorder t)); [by eapply owned_tail|apply Hok'| |done].
    intros x Hx. rewrite Hi, elem_insert_sorted. rewrite !elem_of_cons in Hx. tauto.
  - rewrite Hi, length_insert_sorted. unfold nodes in *. cbn in HN. unfold omap in *. lia.
Qed.

Lemma delete_stepped fuel a os h t s N : tree_ok compare tr h t -> (forall x, x ∈ s <-> x ∈ inorder t) -> a ∈ s -> valid compare os (filter (fun b => b <> a) s) -> owned h os ->
  (length (inorder t) + length (nodes os) <= N)%nat -> (S (height t) < fuel)%nat -> returns (exec_top compare tr fuel (Delete a) h) (stepped h t (Delete a) os N).
Proof.
  intros Hok Hs Ha Hv Ho HN Hf. apply Hs in Ha as (l1 & l2 & Hi)%list_elem_of_split. cbn [exec_top].
  go_call (rb_delete_spec compare tr fuel h t a l1 l2); [done|done|done|]. intros h' (t' & Hok' & Hi' & Hsome & Hout). apply returns_done.
  assert (Hnd : (a ∉ l1) /\ (a ∉ l2)).
  { pose proof Hok as ((_ & _ & (Hnd & _) & _) & _). cbn [zip] in Hnd. rewrite Hi, <- Permutation_middle in Hnd. apply NoDup_cons in Hnd as [Hnd _]. rewrite elem_of_app in Hnd. tauto. }
  exists t', (filter (fun b => b <> a) s). split_and!; try done.
  - rewrite Hi, Hi'. constructor.
  - intros x. rewrite list_elem_of_filter, Hs, Hi, Hi', !elem_of_app, elem_of_cons. naive_solver.
  - eapply (owned_step h h' t' os (root_ tr :: nil_ tr :: inorder t)); [done|apply Hok'| |done].
    intros x Hx. rewrite Hi in Hx. rewrite Hi', elem_of_app. rewrite !elem_of_cons, elem_of_app, elem_of_cons in Hx. naive_solver.
  - rewrite Hi' in *. rewrite Hi in HN. rewrite !length_app in *. cbn [length] in HN. lia.
Qed.

(** One operation. *)
Lemma exec_top_spec fuel o os h t s N : tree_ok compare tr h t -> (forall x, x ∈ s <-> x ∈ inorder t) -> valid compare (o :: os) s -> owned h (o :: os) ->
  (length (inorder t) + length (nodes (o :: os)) <= N)%nat -> (S (2 * Nat.log2 (S N)) < fuel)%nat ->
  returns (exec_top compare tr fuel o h) (stepped h t o os N).
Proof.
  intros Hok Hs Hv Ho HN Hf. pose proof Hok as (Hst & (m & Hm) & Hb & _). pose proof (height_log t m Hm Hb) as Hh. pose proof (owned_tail _ _ _ Ho) as Ho'.
  assert (Hlog : (Nat.log2 (S (length (inorder t))) <= Nat.log2 (S N))%nat) by (apply Nat.log2_le_mono; lia).
  destruct o as [a|a|ck|a|a]; cbn [valid] in *; destruct Hv as [Ha Hv].
  - eapply insert_stepped; try done. lia.
  - eapply delete_stepped; try done. lia.
  - cbn [exec_top]. go_call (rb_search_spec compare tr ck fuel h t); [done|done|lia|]. intros [a|] Hr; apply returns_done; exists t, s; split_and!; try done.
    + destruct Hr. by constructor.
    + by constructor.
  - apply Hs in Ha as (l1 & l2 & Hi)%list_elem_of_split. cbn [exec_top]. rewrite (rb_node_next_spec tr fuel h t a l1 l2 Hst Hi) by lia. cbn [mbind outcome_bind].
    apply returns_done. exists t, s. split_and!; try done. rewrite Hi. constructor.
  - apply Hs in Ha as (l1 & l2 & Hi)%list_elem_of_split. cbn [exec_top]. rewrite (rb_node_prev_spec tr fuel h t a l1 l2 Hst Hi) by lia. cbn [mbind outcome_bind].
    apply returns_done. exists t, s. split_and!; try done. rewrite Hi. constructor.
Qed.

Lemma exec_tops_spec fuel N os : (S (2 * Nat.log2 (S N)) < fuel)%nat -> forall h t s, tree_ok compare tr h t -> (forall x, x ∈ s <-> x ∈ inorder t) -> valid compare os s -> owned h os ->
  (length (inorder t) + length (nodes os) <= N)%nat ->
  returns (exec_tops compare tr fuel os h) (fun '(rs, h') => exists t', tree_ok compare tr h' t' /\ spec_tops compare (inorder t) os rs (inorder t') /\ (length (inorder t') <= N)%nat).
Proof.
  intros Hf. induction os as [|o os IH]; intros h t s Hok Hs Hv Ho HN; cbn [exec_tops].
  { apply returns_done. exists t. split_and!; [done|constructor|lia]. }
  go_call (exec_top_spec fuel o os h t s N); [done|done|done|done|done|done|]. intros [r h1] (t1 & s1 & Hok1 & Hsp & Hs1 & Hv1 & Ho1 & HN1).
  go_call (IH h1 t1 s1); [done|done|done|done|done|]. intros [rs h2] (t2 & Hok2 & Hsps & HN2). apply returns_done. exists t2. split_and!; [done| |done]. by econstructor.
Qed.
End Refine.

(** * Properties *)

Lemma create_ok (compare : Z -> Z -> Z) p n r h : n <> r ->
  exists h0, rb_tree_create (Some p) (Some n) (Some r) h = (Some (MkTree n r), h0) /\ tree_ok compare (MkTree n r) h0 E /\
    forall a, a <> n -> a <> r -> h0 !! a = h !! a.
Proof.
  intros Hne. eexists. split; [reflexivity|]. split.
  - unfold tree_ok, st. cbn [repc rep hd up root_ nil_ zip inorder is_red rb]. split_and!; try done; [by rewrite lookup_insert_eq|..|by exists O|constructor].
    + unfold good. cbn [root_ nil_]. split_and!; [constructor|apply not_elem_of_nil|apply not_elem_of_nil|congruence].
    + eexists. by rewrite lookup_insert_ne, lookup_insert_eq by congruence.
  - intros a Ha1 Ha2. by rewrite !lookup_insert_ne by congruence.
Qed.

(** C17. The red-black tree is a sorted sequence of nodes.  Every sequence of rb_insert,
    rb_delete, rb_search, rb_node_next and rb_node_prev on a new tree returns what the
    specification on sequences allows: insertion after the nodes that are not
    greater, deletion of exactly the node that is given, neighbours in the
    sequence, and a search that finds a node with the key if there is one.  No
    assertion fails and no dangling address is followed; the kernel's own
    check_tree accepts the result; and no loop takes more than [2 log (n + 1) + 2]
    turns, where [n] is the number of nodes. *)
Theorem rb_tree_refines (compare : Z -> Z -> Z) (HC : CompareLaws compare) (os : list top_) p nil root h fuel :
  nil <> root -> valid compare os [] -> (forall a, a ∈ nodes os -> a <> root /\ a <> nil /\ is_Some (h !! a)) ->
  (S (2 * Nat.log2 (S (length (nodes os)))) < fuel)%nat ->
  exists tr h0, rb_tree_create (Some p) (Some nil) (Some root) h = (Some tr, h0) /\
  returns (exec_tops compare tr fuel os h0) (fun '(rs, h') => exists l, spec_tops compare [] os rs l /\ sorted compare l /\
    returns (top ← get_child L root h'; check_tree tr compare fuel top h') (fun b => 0 < b /\ 2 ^ (b - 1) <= zlen l + 1)).
Proof.
  intros Hne Hv Ho Hf. destruct (create_ok compare p nil root h Hne) as (h0 & Hc & Hok & Hout). exists (MkTree nil root), h0. split; [done|].
  go_mono (exec_tops_spec compare (MkTree nil root) fuel (length (nodes os)) os Hf h0 E []); [done|done|done| |cbn; lia|].
  { intros a Ha. destruct (Ho a Ha) as (? & ? & ?). cbn [root_ nil_]. split_and!; try done. by rewrite Hout. }
  intros [rs h'] (t' & Hok' & Hsp & HN). exists (inorder t'). split; [done|]. pose proof Hok' as (Hst & (m & Hm) & Hb & Hs). split; [done|].
  pose proof Hst as (Hroot & _). cbn [repc root_] in Hroot. rewrite (get_child_eq _ _ _ L Hroot). cbn [mbind outcome_bind child lchild].
  pose proof (height_log t' m Hm Hb) as Hh. assert (Hlog : (Nat.log2 (S (length (inorder t'))) <= Nat.log2 (S (length (nodes os))))%nat) by (apply Nat.log2_le_mono; lia).
  rewrite (check_tree_spec compare (MkTree nil root) h' t' [] m fuel Hst Hm Hs) by lia. apply returns_done. split; [lia|].
  rewrite Z.add_simpl_r. pose proof (rb_size t' m Hm) as Hsz. unfold zlen. pose proof (Nat2Z.inj_pow 2 m) as Hp. change (Z.of_nat 2) with 2 in Hp. lia.
Qed.

(** Nodes at the addresses 100 to 110; two neighbours with the same half have the same key. *)
Definition by_half (a b : Z) : Z := a / 2 - b / 2.

#[export] Instance by_half_laws : CompareLaws by_half.
Proof. split; unfold by_half; intros; lia. Qed.

Lemma rb_tree_refines_witness :
  let os := map Insert [104; 110; 101; 107; 100; 105; 108; 102] ++ [Search (fun a => a / 2 - 52); Delete 104; Delete 100; Next 105; Prev 101; Insert 104; Next 105] in
  let h := list_to_map (map (fun a => (a, MkNode true 0 0 0)) [100; 101; 102; 103; 104; 105; 106; 107; 108; 109; 110]) in
  exists tr h0 rs h' l, rb_tree_create (Some 1) (Some 2) (Some 3) h = (Some tr, h0) /\ exec_tops by_half tr 12 os h0 = Done (rs, h') /\
    spec_tops by_half [] os rs l /\ sorted by_half l /\ drop 8 rs = [Some 104; None; None; Some 107; None; None; Some 104].
Proof.
  intros os h. destruct (rb_tree_refines by_half by_half_laws os 1 2 3 h 12) as (tr & h0 & Hc & ([rs h'] & E & l & Hsp & Hs & _)).
  - done.
  - repeat split; try (apply (bool_decide_unpack _); vm_compute; exact I). all: intros; unfold by_half in *; lia.
  - assert (Hall : Forall (fun a => a <> 3 /\ a <> 2 /\ is_Some (h !! a)) (nodes os)).
    { apply (bool_decide_unpack _). vm_compute. exact I. }
    intros a Ha. rewrite Forall_forall in Hall. by apply Hall.
  - vm_compute. lia.
  - exists tr, h0, rs, h', l. split_and!; [exact Hc|exact E|exact Hsp|exact Hs|]. vm_compute in Hc. injection Hc as <- <-. vm_compute in E. injection E as <- <-. reflexivity.
Defined.
