(* ===== verification/Vmm.v ===== *)
(** Virtual memory areas of the ucore kernel: the code
    (src/ucore/src/kern-ucore/mm/vmm.c and vmm.h, for x86-64).

    One mm_struct and the structures it reaches.  A [struct vma_struct *] is an
    address; the fields of the structure, its rb_link and its list_link are in three
    heaps.  kmalloc is an argument, a function of the state; unmap_range, which works on
    page tables, is recorded.  Addresses and sizes are 64 bits wide.  A failed
    [assert] and an access through NULL or to freed memory are a [Panic]. *)

From S2P Require Import Prelude CList.
From stdpp Require Import list gmap.
From S2P Require Import RbTree.
#[local] Open Scope Z_scope.

(** * State *)

(** Addresses of list entries: [&(mm->mmap_list)], the local [&free_list] of mm_unmap,
    and [&(v->list_link)]. *)
Inductive vloc := MmapList | FreeList | VLink (v : Z).

#[export] Instance vloc_eq_dec : EqDecision vloc.
Proof. solve_decision. Defined.

#[export] Instance vloc_countable : Countable vloc.
Proof.
  refine (inj_countable' (fun l => match l with MmapList => inl true | FreeList => inl false | VLink v => inr v end)
            (fun s : bool + Z => match s with inl true => MmapList | inl false => FreeList | inr v => VLink v end) _).
  by intros [].
Defined.

Record vma_struct := MkVma { vm_mm : Z; vm_start : Z; vm_end : Z; vm_flags : Z; shmem : option Z; shmem_off : Z }.

Definition VM_READ : Z := 1.
Definition VM_WRITE : Z := 2.
Definition VM_STACK : Z := 8.
Definition VM_SHARE : Z := 16.
Definition has_flag (vma : vma_struct) (f : Z) : bool := negb (Z.land (vm_flags vma) f =? 0).

Record mm_struct := MkMm { mmap_tree : option rb_tree; mmap_cache : option Z; map_count : Z }.

(** Shared memory objects: their length and reference count. *)
Record shmem_struct := MkShmem { shmem_len : Z; shmem_ref : Z }.

(** [calls] counts the calls of kmalloc, and [unmapped] holds the arguments of the calls
    of unmap_range. *)
Record kernel := MkKernel {
  vmas : gmap Z vma_struct; rbs : gmap Z rb_node; lst : gmap vloc (list_entry vloc); shms : gmap Z shmem_struct;
  mm_ : mm_struct; unmapped : list (Z * Z); calls : nat }.

Definition with_vmas f s := MkKernel (f (vmas s)) (rbs s) (lst s) (shms s) (mm_ s) (unmapped s) (calls s).
Definition with_rbs h s := MkKernel (vmas s) h (lst s) (shms s) (mm_ s) (unmapped s) (calls s).
Definition with_lst h s := MkKernel (vmas s) (rbs s) h (shms s) (mm_ s) (unmapped s) (calls s).
Definition with_shms f s := MkKernel (vmas s) (rbs s) (lst s) (f (shms s)) (mm_ s) (unmapped s) (calls s).
Definition with_mm m s := MkKernel (vmas s) (rbs s) (lst s) (shms s) m (unmapped s) (calls s).

Definition get_vma (v : Z) (s : kernel) : outcome vma_struct := of_option (vmas s !! v).
Definition upd_vma (f : vma_struct -> vma_struct) (v : Z) (s : kernel) : outcome kernel := vma ← get_vma v s; Done (with_vmas <[v := f vma]> s).
Definition on_list (f : gmap vloc (list_entry vloc) -> outcome (gmap vloc (list_entry vloc))) (s : kernel) : outcome kernel := h ← f (lst s); Done (with_lst h s).
Definition on_tree (f : gmap Z rb_node -> outcome (gmap Z rb_node)) (s : kernel) : outcome kernel := h ← f (rbs s); Done (with_rbs h s).
Definition unmap_range (start end_ : Z) (s : kernel) : kernel := MkKernel (vmas s) (rbs s) (lst s) (shms s) (mm_ s) (unmapped s ++ [(start, end_)]) (calls s).

Definition le2vma (le : vloc) : outcome Z := match le with VLink v => Done v | _ => Panic end.

(** Enough for a path of the tree and for a turn of a list. *)
Definition rb_fuel (s : kernel) : nat := (2 * size (rbs s) + 4)%nat.
Definition l_fuel (s : kernel) : nat := S (S (size (lst s))).

(** * Constants *)

Definition PGSIZE : Z := 4096.
Definition USERTOP : Z := 0x100000000000.
Definition USERBASE : Z := 0x1000000.
Definition RB_MIN_MAP_COUNT : Z := 32.
Definition E_INVAL : Z := 3.
Definition E_NO_MEM : Z := 4.

Definition ROUNDDOWN (a n : Z) : Z := uint64 (a - a mod n).
Definition ROUNDUP (a n : Z) : Z := ROUNDDOWN (uint64 (uint64 (a + n) - 1)) n.
Definition USER_ACCESS (start end_ : Z) : bool := (USERBASE <=? start) && (start <? end_) && (end_ <=? USERTOP).

(** * Areas *)

Section Code.
Context (mm : Z) (alloc : kernel -> option Z).

Definition kmalloc (s : kernel) : option Z * kernel :=
  (alloc s, MkKernel (vmas s) (rbs s) (lst s) (shms s) (mm_ s) (unmapped s) (S (calls s))).

(** The links and vm_mm of a new structure are not initialized. *)
Definition vma_create (start end_ flags : Z) (s : kernel) : option Z * kernel :=
  let '(p, s) := kmalloc s in
  match p with
  | Some v =>
      let s := with_vmas <[v := MkVma 0 start end_ flags None 0]> s in
      let s := with_rbs (<[v := MkNode false 0 0 0]> (rbs s)) s in
      (Some v, with_lst (<[VLink v := MkEntry FreeList FreeList]> (lst s)) s)
  | None => (None, s)
  end.

Definition kfree_vma (v : Z) (s : kernel) : kernel :=
  with_lst (delete (VLink v) (lst s)) (with_rbs (delete v (rbs s)) (with_vmas (delete v) s)).

Definition shmem_ref_inc (p : Z) (s : kernel) : outcome kernel :=
  o ← of_option (shms s !! p);
  Done (with_shms <[p := MkShmem (shmem_len o) (shmem_ref o + 1)]> s).

Definition shmem_ref_dec (p : Z) (s : kernel) : outcome (Z * kernel) :=
  o ← of_option (shms s !! p);
  Done (shmem_ref o - 1, with_shms <[p := MkShmem (shmem_len o) (shmem_ref o - 1)]> s).

Definition vma_destroy (v : Z) (s : kernel) : outcome kernel :=
  vma ← get_vma v s;
  s ← (if has_flag vma VM_SHARE then
         p ← of_option (shmem vma);
         '(r, s) ← shmem_ref_dec p s;
         Done (if r =? 0 then with_shms (delete p) s else s)
       else Done s);
  Done (kfree_vma v s).

(** vma_compare; both areas exist when the tree calls it. *)
Definition start_of (V : gmap Z vma_struct) (v : Z) : Z := match V !! v with Some vma => vm_start vma | None => 0 end.
Definition vma_compare (V : gmap Z vma_struct) (v1 v2 : Z) : Z :=
  let start1 := start_of V v1 in
  let start2 := start_of V v2 in
  if start1 <? start2 then -1 else if start2 <? start1 then 1 else 0.

Definition find_vma_rb (tree : rb_tree) (addr : Z) (s : kernel) : outcome (option Z) :=
  node ← rb_node_root tree (rbs s);
  loop (rb_fuel s) (fun '(node, vma) =>
    match node with
    | None => Done (inr vma)
    | Some tmp =>
        t ← get_vma tmp s;
        if addr <? vm_end t then
          if vm_start t <=? addr then Done (inr (Some tmp))
          else node ← rb_node_left tree tmp (rbs s); Done (inl (node, Some tmp))
        else node ← rb_node_right tree tmp (rbs s); Done (inl (node, vma))
    end) (node, None).

(** The first area on the list that ends above [addr]. *)
Definition find_vma_list (addr : Z) (s : kernel) : outcome (option Z) :=
  loop (l_fuel s) (fun le =>
    le ← list_next le (lst s);
    if decide (le = MmapList) then Done (inr None)
    else
      v ← le2vma le;
      vma ← get_vma v s;
      if addr <? vm_end vma then Done (inr (Some v)) else Done (inl le)) MmapList.

(** The test of the cache in find_vma. *)
Definition in_cache (addr : Z) (s : kernel) : outcome bool :=
  match mmap_cache (mm_ s) with
  | None => Done false
  | Some v => vma ← get_vma v s; Done ((vm_start vma <=? addr) && (addr <? vm_end vma))
  end.

Definition find_vma (addr : Z) (s : kernel) : outcome (option Z * kernel) :=
  c ← in_cache addr s;
  vma ← (if c : bool then Done (mmap_cache (mm_ s))
         else match mmap_tree (mm_ s) with
              | Some tree => find_vma_rb tree addr s
              | None => find_vma_list addr s
              end);
  match vma with
  | Some v => Done (vma, with_mm (MkMm (mmap_tree (mm_ s)) (Some v) (map_count (mm_ s))) s)
  | None => Done (vma, s)
  end.

Definition find_vma_intersection (start end_ : Z) (s : kernel) : outcome (option Z * kernel) :=
  '(r, s) ← find_vma start s;
  match r with
  | Some v => vma ← get_vma v s; Done (if end_ <=? vm_start vma then None else Some v, s)
  | None => Done (None, s)
  end.

(** * Insertion and removal *)

Definition check_vma_overlap (prev next : Z) (s : kernel) : outcome unit :=
  p ← get_vma prev s;
  _ ← assert_ (vm_start p < vm_end p);
  n ← get_vma next s;
  _ ← assert_ (vm_end p <= vm_start n);
  assert_ (vm_start n < vm_end n).

Definition insert_vma_rb (tree : rb_tree) (v : Z) (s : kernel) : outcome kernel :=
  on_tree (rb_insert tree (vma_compare (vmas s)) (rb_fuel s) v) s.

(** The entry of the list after which the area goes: by the tree, which the area
    enters on the way, or by a walk along the list. *)
Definition place_rb (tree : rb_tree) (v : Z) (s : kernel) : outcome (vloc * kernel) :=
  s ← insert_vma_rb tree v s;
  mmap_prev ← rb_node_prev tree (rb_fuel s) v (rbs s);
  Done (match mmap_prev with Some p => VLink p | None => MmapList end, s).

Definition place_list (v : Z) (s : kernel) : outcome vloc :=
  vma ← get_vma v s;
  loop (l_fuel s) (fun '(le, le_prev) =>
    le ← list_next le (lst s);
    if decide (le = MmapList) then Done (inr le_prev)
    else
      p ← le2vma le;
      mmap_prev ← get_vma p s;
      if vm_start vma <? vm_start mmap_prev then Done (inr le_prev) else Done (inl (le, le))) (MmapList, MmapList).

(** The calls of kmalloc in rb_tree_create: the tree, nil and root. *)
Definition rb_tree_create_ (s : kernel) : option rb_tree * kernel :=
  let '(p, s) := kmalloc s in
  match p with
  | None => (None, s)
  | Some p =>
      let '(n, s) := kmalloc s in
      match n with
      | None => (None, s)
      | Some n =>
          let h := rbs s in
          let '(r, s) := kmalloc (with_rbs (<[n := MkNode false n n n]> h) s) in
          let '(tree, h) := rb_tree_create (Some p) (Some n) r h in
          (tree, with_rbs h s)
      end
  end.

(** The loop that puts all areas of the list into a new tree. *)
Definition build_tree (tree : rb_tree) (s : kernel) : outcome kernel :=
  loop (l_fuel s) (fun '(le, s) =>
    le ← list_next le (lst s);
    if decide (le = MmapList) then Done (inr s)
    else
      v ← le2vma le;
      s ← insert_vma_rb tree v s;
      Done (inl (le, s))) (MmapList, s).

Definition insert_vma_struct (v : Z) (s : kernel) : outcome kernel :=
  vma ← get_vma v s;
  _ ← assert_ (vm_start vma < vm_end vma);
  '(le_prev, s) ← match mmap_tree (mm_ s) with
                  | Some tree => place_rb tree v s
                  | None => le ← place_list v s; Done (le, s)
                  end;
  le_next ← list_next le_prev (lst s);
  _ ← (if decide (le_prev <> MmapList) then p ← le2vma le_prev; check_vma_overlap p v s else Done tt);
  _ ← (if decide (le_next <> MmapList) then n ← le2vma le_next; check_vma_overlap v n s else Done tt);
  s ← upd_vma (fun vma => MkVma mm (vm_start vma) (vm_end vma) (vm_flags vma) (shmem vma) (shmem_off vma)) v s;
  s ← on_list (list_add_after le_prev (VLink v)) s;
  let m := mm_ s in
  let s := with_mm (MkMm (mmap_tree m) (mmap_cache m) (int (map_count m + 1))) s in
  match mmap_tree (mm_ s) with
  | Some _ => Done s
  | None =>
      if RB_MIN_MAP_COUNT <=? map_count (mm_ s) then
        let '(tree, s) := rb_tree_create_ s in
        let s := with_mm (MkMm tree (mmap_cache (mm_ s)) (map_count (mm_ s))) s in
        match tree with Some tree => build_tree tree s | None => Done s end
      else Done s
  end.

Definition remove_vma_struct (v : Z) (s : kernel) : outcome kernel :=
  vma ← get_vma v s;
  _ ← assert_ (mm = vm_mm vma);
  s ← match mmap_tree (mm_ s) with Some tree => on_tree (rb_delete tree (rb_fuel s) v) s | None => Done s end;
  s ← on_list (list_del (VLink v)) s;
  let m := mm_ s in
  let cache := if decide (mmap_cache m = Some v) then None else mmap_cache m in
  Done (with_mm (MkMm (mmap_tree m) cache (int (map_count m - 1))) s).

(** * Mapping *)

(** mm_create, when kmalloc gives it memory at the address [mm]; the entry of the list has
    some contents before list_init.  Of the fields, those that concern the areas. *)
Definition mm_create (s : kernel) : outcome kernel :=
  s ← on_list (fun h => list_init MmapList (<[MmapList := MkEntry FreeList FreeList]> h)) s;
  Done (with_mm (MkMm None None 0) s).

(** mm_destroy, without the check of mm_count and the last kfree, of the structure at [mm]. *)
Definition mm_destroy (s : kernel) : outcome kernel :=
  let s := match mmap_tree (mm_ s) with Some tree => with_rbs (rb_tree_destroy tree (rbs s)) s | None => s end in
  loop (l_fuel s) (fun s =>
    le ← list_next MmapList (lst s);
    if decide (le = MmapList) then Done (inr s)
    else
      s ← on_list (list_del le) s;
      v ← le2vma le;
      s ← vma_destroy v s;
      Done (inl s)) s.

(** The result, and the area that is stored through vma_store. *)
Definition mm_map (addr len flags : Z) (s : kernel) : outcome (Z * option Z * kernel) :=
  let start := ROUNDDOWN addr PGSIZE in
  let end_ := ROUNDUP (uint64 (addr + len)) PGSIZE in
  if negb (USER_ACCESS start end_) then Done (- E_INVAL, None, s)
  else
    '(r, s) ← find_vma start s;
    overlap ← match r with Some v => vma ← get_vma v s; Done (vm_start vma <? end_) | None => Done false end;
    if overlap : bool then Done (- E_INVAL, None, s)
    else
      let flags := Z.ldiff flags VM_SHARE in
      match vma_create start end_ flags s with
      | (Some v, s) => s ← insert_vma_struct v s; Done (0, Some v, s)
      | (None, s) => Done (- E_NO_MEM, None, s)
      end.

Definition mm_map_shmem (addr flags : Z) (shm : option Z) (s : kernel) : outcome (Z * option Z * kernel) :=
  match shm with
  | None => Done (- E_INVAL, None, s)
  | Some p =>
      if negb (addr mod PGSIZE =? 0) then Done (- E_INVAL, None, s)
      else
        s ← shmem_ref_inc p s;
        o ← of_option (shms s !! p);
        '(ret, r, s) ← mm_map addr (shmem_len o) flags s;
        if negb (ret =? 0) then '(_, s) ← shmem_ref_dec p s; Done (ret, None, s)
        else
          v ← of_option r;
          s ← upd_vma (fun vma => MkVma (vm_mm vma) (vm_start vma) (vm_end vma) (Z.lor (vm_flags vma) VM_SHARE) (Some p) 0) v s;
          Done (0, Some v, s)
  end.

Definition vma_resize (v start end_ : Z) (s : kernel) : outcome kernel :=
  _ ← assert_ (start mod PGSIZE = 0 /\ end_ mod PGSIZE = 0);
  vma ← get_vma v s;
  _ ← assert_ (vm_start vma <= start /\ start < end_ /\ end_ <= vm_end vma);
  let off := if has_flag vma VM_SHARE then uint64 (shmem_off vma + (start - vm_start vma)) else shmem_off vma in
  upd_vma (fun vma => MkVma (vm_mm vma) start end_ (vm_flags vma) (shmem vma) off) v s.

(** The first loop of mm_unmap moves the areas that start below [end_] to the list
    free_list. *)
Definition unmap_collect (v end_ : Z) (s : kernel) : outcome kernel :=
  loop (l_fuel s) (fun '(v, s) =>
    vma ← get_vma v s;
    if vm_start vma <? end_ then
      le ← list_next (VLink v) (lst s);
      s ← remove_vma_struct v s;
      s ← on_list (list_add FreeList (VLink v)) s;
      if decide (le = MmapList) then Done (inr s) else v ← le2vma le; Done (inl (v, s))
    else Done (inr s)) (v, s).

(** The second loop, for one area: what remains of it goes back. *)
Definition unmap_one (v start end_ : Z) (s : kernel) : outcome kernel :=
  vma ← get_vma v s;
  if vm_start vma <? start then
    let un_start := start in
    let un_end := vm_end vma in
    s ← vma_resize v (vm_start vma) un_start s;
    s ← insert_vma_struct v s;
    Done (unmap_range un_start un_end s)
  else
    let un_start := vm_start vma in
    let un_end := vm_end vma in
    if end_ <? un_end then
      let un_end := end_ in
      s ← vma_resize v un_end (vm_end vma) s;
      s ← insert_vma_struct v s;
      Done (unmap_range un_start un_end s)
    else
      s ← vma_destroy v s;
      Done (unmap_range un_start un_end s).

Definition unmap_rest (start end_ : Z) (s : kernel) : outcome kernel :=
  le ← list_next FreeList (lst s);
  loop (l_fuel s) (fun '(le, s) =>
    if decide (le <> FreeList) then
      v ← le2vma le;
      le ← list_next le (lst s);
      s ← unmap_one v start end_ s;
      Done (inl (le, s))
    else Done (inr s)) (le, s).

(** An area that reaches beyond the range on both sides is split. *)
Definition unmap_split (v start end_ : Z) (s : kernel) : outcome (Z * kernel) :=
  vma ← get_vma v s;
  match vma_create (vm_start vma) start (vm_flags vma) s with
  | (None, s) => Done (- E_NO_MEM, s)
  | (Some nvma, s) =>
      s ← vma_resize v end_ (vm_end vma) s;
      s ← insert_vma_struct nvma s;
      Done (0, unmap_range start end_ s)
  end.

Definition mm_unmap (addr len : Z) (s : kernel) : outcome (Z * kernel) :=
  let start := ROUNDDOWN addr PGSIZE in
  let end_ := ROUNDUP (uint64 (addr + len)) PGSIZE in
  if negb (USER_ACCESS start end_) then Done (- E_INVAL, s)
  else
    '(r, s) ← find_vma start s;
    match r with
    | None => Done (0, s)
    | Some v =>
        vma ← get_vma v s;
        if end_ <=? vm_start vma then Done (0, s)
        else if (vm_start vma <? start) && (end_ <? vm_end vma) then unmap_split v start end_ s
        else
          s ← on_list (fun h => list_init FreeList (<[FreeList := MkEntry FreeList FreeList]> h)) s;
          s ← unmap_collect v end_ s;
          s ← unmap_rest start end_ s;
          Done (0, s)
    end.

Definition get_unmapped_area (len : Z) (s : kernel) : outcome Z :=
  if (len =? 0) || (USERTOP <? len) then Done 0
  else
    loop (l_fuel s) (fun '(le, start) =>
      le ← list_prev le (lst s);
      if decide (le = MmapList) then Done (inr (if USERBASE <=? start then start else 0))
      else
        v ← le2vma le;
        vma ← get_vma v s;
        if vm_end vma <=? start then Done (inr start)
        else if vm_start vma <? start + len then
          if vm_start vma <=? len then Done (inr 0) else Done (inl (le, vm_start vma - len))
        else Done (inl (le, start))) (MmapList, USERTOP - len).

Definition mm_brk (addr len : Z) (s : kernel) : outcome (Z * kernel) :=
  let start := ROUNDDOWN addr PGSIZE in
  let end_ := ROUNDUP (uint64 (addr + len)) PGSIZE in
  if negb (USER_ACCESS start end_) then Done (- E_INVAL, s)
  else
    '(ret, s) ← mm_unmap start (end_ - start) s;
    if negb (ret =? 0) then Done (ret, s)
    else
      let flags := Z.lor VM_READ VM_WRITE in
      '(r, s) ← find_vma (start - 1) s;
      grow ← match r with
             | Some v => vma ← get_vma v s; Done ((vm_end vma =? start) && (vm_flags vma =? flags))
             | None => Done false
             end;
      if grow : bool then
        v ← of_option r;
        s ← upd_vma (fun vma => MkVma (vm_mm vma) (vm_start vma) end_ (vm_flags vma) (shmem vma) (shmem_off vma)) v s;
        Done (0, s)
      else
        match vma_create start end_ flags s with
        | (Some v, s) => s ← insert_vma_struct v s; Done (0, s)
        | (None, s) => Done (- E_NO_MEM, s)
        end.

(** user_mem_check, for a process with an mm. *)
Definition user_mem_check (addr len : Z) (write : bool) (s : kernel) : outcome (bool * kernel) :=
  let end_ := uint64 (addr + len) in
  if negb (USER_ACCESS addr end_) then Done (false, s)
  else
    loop (l_fuel s) (fun '(start, s) =>
      if start <? end_ then
        '(r, s) ← find_vma start s;
        match r with
        | None => Done (inr (false, s))
        | Some v =>
            vma ← get_vma v s;
            if start <? vm_start vma then Done (inr (false, s))
            else if negb (has_flag vma (if write then VM_WRITE else VM_READ)) then Done (inr (false, s))
            else if write && has_flag vma VM_STACK && (start <? vm_start vma + PGSIZE) then Done (inr (false, s))
            else Done (inl (vm_end vma, s))
        end
      else Done (inr (true, s))) (addr, s).
End Code.
