(* ===== verification/VmmState.v ===== *)
(** Virtual memory areas of the ucore kernel: the address space that a state holds.

    An address space is the list of its regions, in the order of addresses.  The list
    and the red-black tree of an mm_struct hold the same areas in that order, so that
    the code that uses the one or the other does the same. *)

From S2P Require Import Prelude CList.
From Stdlib Require Import Sorted.
From stdpp Require Import list gmap sorting.
From S2P Require Import RbTree RbInsert RbWalk RbDelete RbSpec Vmm.
#[local] Open Scope Z_scope.

(** * Regions *)

Record region := MkReg { r_start : Z; r_end : Z; r_flags : Z }.

Definition reg_of (m : vma_struct) : region := MkReg (vm_start m) (vm_end m) (vm_flags m).

(** A region of whole pages in the user part of the address space, not shared. *)
Definition region_ok (r : region) : Prop :=
  r_start r < r_end r /\ r_start r mod PGSIZE = 0 /\ r_end r mod PGSIZE = 0 /\ USERBASE <= r_start r /\ r_end r <= USERTOP /\ Z.land (r_flags r) VM_SHARE = 0.

Definition before_ (r r' : region) : Prop := r_end r <= r_start r'.

Definition layout_ok (L : list region) : Prop := Forall region_ok L /\ StronglySorted before_ L.

Lemma layout_app L1 L2 : layout_ok (L1 ++ L2) <-> layout_ok L1 /\ layout_ok L2 /\ forall r r', r ∈ L1 -> r' ∈ L2 -> before_ r r'.
Proof. unfold layout_ok. rewrite Forall_app, StronglySorted_app. tauto. Qed.

Lemma layout_cons r L : layout_ok (r :: L) <-> region_ok r /\ layout_ok L /\ forall r', r' ∈ L -> before_ r r'.
Proof.
  rewrite (layout_app [r] L). split.
  - intros ((H1%Forall_cons & _) & H2 & H3). split_and!; [tauto|done|]. intros r' Hr'. apply H3; [left|done].
  - intros (H1 & H2 & H3). split_and!; [|done|intros ? r' ->%list_elem_of_singleton; apply H3]. split; [by apply Forall_cons|repeat constructor].
Qed.

(** * The tree as an index of the areas *)

Lemma vma_compare_sign V v w : (vma_compare V v w <= 0 <-> start_of V v <= start_of V w) /\ (0 <= vma_compare V v w <-> start_of V w <= start_of V v).
Proof. unfold vma_compare. destruct (Z.ltb_spec (start_of V v) (start_of V w)); [lia|]. destruct (Z.ltb_spec (start_of V w) (start_of V v)); lia. Qed.

#[export] Instance vma_compare_laws V : CompareLaws (vma_compare V).
Proof.
  split; intros x y.
  - destruct (vma_compare_sign V x y) as [-> _]. destruct (vma_compare_sign V y x) as [_ ->]. done.
  - intros z. destruct (vma_compare_sign V x y) as [-> _], (vma_compare_sign V y z) as [-> _], (vma_compare_sign V x z) as [-> _]. lia.
Qed.

Definition tree_holds (V : gmap Z vma_struct) (tr : rb_tree) (h : gmap Z rb_node) (vs : list Z) : Prop :=
  exists t, tree_ok (vma_compare V) tr h t /\ inorder t = vs.

(** The order may change while it fits the tree. *)
Lemma tree_holds_any V V' tr h vs : tree_holds V tr h vs -> sorted (vma_compare V') vs -> tree_holds V' tr h vs.
Proof. intros (t & (H1 & H2 & H3 & _) & Ht) Hs. exists t. split; [|done]. rewrite <- Ht in Hs. done. Qed.

Lemma tree_holds_some V tr h vs a : tree_holds V tr h vs -> a ∈ root_ tr :: nil_ tr :: vs -> is_Some (h !! a).
Proof.
  intros (t & (Hst & _) & <-). rewrite !elem_of_cons. intros [->|[->|Ha]]; [destruct Hst as (Hr & _); by eexists|destruct Hst as (_ & _ & _ & n & Hn & _); by eexists|by eapply tree_lookup].
Qed.

Lemma tree_holds_fresh V tr h vs : tree_holds V tr h vs -> NoDup vs /\ root_ tr <> nil_ tr /\ (root_ tr ∉ vs) /\ (nil_ tr ∉ vs).
Proof. intros (t & (Hst & _) & <-). destruct Hst as (_ & _ & (? & ? & ? & ?) & _). done. Qed.

(** The fuel is enough. *)
Lemma tree_height V tr h vs t : tree_ok (vma_compare V) tr h t -> inorder t = vs -> (S (height t) < 2 * size h + 4)%nat.
Proof.
  intros Hok <-. pose proof Hok as (Hst & (m & Hm) & Hb & _). pose proof (height_log t m Hm Hb) as Hh. pose proof Hst as (_ & _ & (Hnd & _) & _). cbn [zip] in Hnd.
  assert (Hlen : (length (inorder t) <= size h)%nat).
  { rewrite <- (size_list_to_set (C := gset Z) _ Hnd), <- size_dom. apply subseteq_size. intros a Ha. apply elem_of_list_to_set in Ha. apply elem_of_dom. by eapply tree_lookup. }
  assert (Nat.log2 (S (length (inorder t))) <= length (inorder t))%nat; [|lia]. apply Nat.lt_succ_r. by apply Nat.log2_lt_lin, Nat.lt_0_succ.
Qed.

Lemma tree_insert V tr h vs v n : tree_holds V tr h vs -> v <> root_ tr -> v <> nil_ tr -> v ∉ vs -> h !! v = Some n ->
  returns (rb_insert tr (vma_compare V) (2 * size h + 4) v h) (fun h' => tree_holds V tr h' (insert_sorted (vma_compare V) v vs) /\ forall a, is_Some (h !! a) -> is_Some (h' !! a)).
Proof.
  intros (t & Hok & <-) Hr Hn Hv Hh. pose proof (tree_height V tr h _ t Hok eq_refl). go_mono (rb_insert_spec (vma_compare V) tr (2 * size h + 4) v h t n Hok); [done|done|lia|].
  intros h' (t' & Hok' & Hi & Hout). assert (HT : tree_holds V tr h' (insert_sorted (vma_compare V) v (inorder t))) by by exists t'. split; [done|].
  intros a Ha. destruct (decide (a ∈ root_ tr :: v :: inorder t)) as [Hin|Hnin]; [|by rewrite Hout]. eapply tree_holds_some; [exact HT|].
  rewrite !elem_of_cons, elem_insert_sorted. rewrite !elem_of_cons in Hin. tauto.
Qed.

Lemma tree_delete V tr h v l1 l2 : tree_holds V tr h (l1 ++ v :: l2) ->
  returns (rb_delete tr (2 * size h + 4) v h) (fun h' => tree_holds V tr h' (l1 ++ l2) /\ forall a, is_Some (h !! a) -> is_Some (h' !! a)).
Proof.
  intros (t & Hok & Ht). pose proof (tree_height V tr h _ t Hok Ht). go_mono (rb_delete_spec (vma_compare V) tr (2 * size h + 4) h t v l1 l2 Hok Ht); [lia|].
  intros h' (t' & Hok' & Hi & Hv & Hout). assert (HT : tree_holds V tr h' (l1 ++ l2)) by by exists t'. split; [done|].
  intros a Ha. destruct (decide (a = v)) as [->|Hne]; [done|]. destruct (decide (a ∈ root_ tr :: nil_ tr :: inorder t)) as [Hin|Hnin]; [|by rewrite Hout].
  eapply tree_holds_some; [exact HT|].
  rewrite Ht in Hin. rewrite !elem_of_cons, !elem_of_app, ?elem_of_cons in *. tauto.
Qed.

Lemma tree_prev V tr h v l1 l2 : tree_holds V tr h (l1 ++ v :: l2) -> rb_node_prev tr (2 * size h + 4) v h = Done (l1.[zlen l1 - 1]).
Proof. intros (t & Hok & Ht). pose proof (tree_height V tr h _ t Hok Ht). destruct Hok as (Hst & _). eapply rb_node_prev_spec; [exact Hst|exact Ht|lia]. Qed.

(** * Areas in order *)

Definition end_of (V : gmap Z vma_struct) (v : Z) : Z := match V !! v with Some m => vm_end m | None => 0 end.
Definition reg_at (V : gmap Z vma_struct) (v : Z) : region := match V !! v with Some m => reg_of m | None => MkReg 0 0 0 end.
Definition regions (V : gmap Z vma_struct) (vs : list Z) : list region := reg_at V <$> vs.

Lemma r_start_at V v : r_start (reg_at V v) = start_of V v.
Proof. unfold reg_at, start_of. by destruct (V !! v). Qed.

Lemma r_end_at V v : r_end (reg_at V v) = end_of V v.
Proof. unfold reg_at, end_of. by destruct (V !! v). Qed.

Lemma regions_app V v1 v2 : regions V (v1 ++ v2) = regions V v1 ++ regions V v2.
Proof. apply fmap_app. Qed.

Lemma elem_of_regions V vs v : v ∈ vs -> reg_at V v ∈ regions V vs.
Proof. intros Hv. apply list_elem_of_fmap. by exists v. Qed.

Lemma regions_ext V V' vs : (forall v, v ∈ vs -> V' !! v = V !! v) -> regions V' vs = regions V vs.
Proof. intros He. apply list_fmap_ext. intros i v Hv. unfold reg_at. rewrite He; [done|]. by eapply list_elem_of_lookup_2. Qed.

Lemma regions_insert V vs v m : v ∉ vs -> regions (<[v := m]> V) vs = regions V vs.
Proof. intros Hv. apply regions_ext. intros w Hw. rewrite lookup_insert_ne; [done|]. by intros ->. Qed.

(** The order of addresses. *)
Lemma layout_lt V vs v : layout_ok (regions V vs) -> v ∈ vs -> start_of V v < end_of V v.
Proof. intros [Hf _] Hv%(elem_of_regions V). rewrite Forall_forall in Hf. destruct (Hf _ Hv) as [H _]. by rewrite r_start_at, r_end_at in H. Qed.

Lemma layout_order V v1 v2 v w : layout_ok (regions V (v1 ++ v2)) -> v ∈ v1 -> w ∈ v2 -> end_of V v <= start_of V w.
Proof. rewrite regions_app, layout_app. intros (_ & _ & H) Hv%(elem_of_regions V) Hw%(elem_of_regions V). specialize (H _ _ Hv Hw). unfold before_ in H.
by rewrite r_start_at, r_end_at in H. Qed.

Lemma layout_sorted V vs : layout_ok (regions V vs) -> sorted (vma_compare V) vs.
Proof.
  intros Hl. unfold sorted. induction vs as [|v vs IH]; [constructor|]. constructor.
  - apply IH. apply (layout_app [reg_at V v]) in Hl. tauto.
  - apply Forall_forall. intros w Hw. apply vma_compare_sign. pose proof (layout_order V [v] vs v w Hl ltac:(left) Hw). pose proof (layout_lt V (v :: vs) v Hl ltac:(left)). lia.
Qed.

(** * The invariant *)

Section Repr.
Context (mm : Z).

(** The areas [vs] of the mm, in order: on the list, and in the tree if there is one. *)
Record mm_ok (s : kernel) (vs : list Z) : Prop := {
  ok_areas v : v ∈ vs -> exists m, vmas s !! v = Some m /\ vm_mm m = mm;
  ok_layout : layout_ok (regions (vmas s) vs);
  ok_ring : ring (lst s) MmapList (VLink <$> vs);
  ok_tree tr : mmap_tree (mm_ s) = Some tr -> tree_holds (vmas s) tr (rbs s) vs /\ vmas s !! nil_ tr = None /\ vmas s !! root_ tr = None;
  ok_cache v : mmap_cache (mm_ s) = Some v -> v ∈ vs;
  ok_count : map_count (mm_ s) = int (zlen vs);
  ok_links v : is_Some (vmas s !! v) -> is_Some (rbs s !! v) /\ is_Some (lst s !! VLink v) }.

(** No area is lost: all that exist are in the list. *)
Definition owned (V : gmap Z vma_struct) (vs : list Z) : Prop := forall v, is_Some (V !! v) -> v ∈ vs.

Definition repr (s : kernel) (L : list region) : Prop := exists vs, mm_ok s vs /\ L = regions (vmas s) vs /\ owned (vmas s) vs.

Lemma owned_insert V V' v1 v v2 : owned V (v1 ++ v2) -> (forall w, w <> v -> V' !! w = V !! w) -> owned V' (v1 ++ v :: v2).
Proof.
  intros Ho Hv w Hw. rewrite elem_of_app, elem_of_cons. destruct (decide (w = v)) as [->|Hne]; [tauto|]. rewrite Hv in Hw by done. apply Ho, elem_of_app in Hw. tauto.
Qed.

Lemma owned_dom V V' vs : owned V vs -> (forall w, is_Some (V' !! w) -> is_Some (V !! w)) -> owned V' vs.
Proof. intros Ho Hd w Hw. by apply Ho, Hd. Qed.

Lemma ok_NoDup s vs : mm_ok s vs -> NoDup vs.
Proof. intros H. destruct (ok_ring _ _ H) as [_ Hn]. apply NoDup_cons in Hn as [_ Hn]. by apply NoDup_fmap_1 in Hn. Qed.

Lemma ok_fuel s vs : mm_ok s vs -> (S (length vs) < l_fuel s)%nat.
Proof. intros H. pose proof (ring_size _ _ _ (ok_ring _ _ H)) as Hs. rewrite length_fmap in Hs. unfold l_fuel. lia. Qed.

Lemma vlink_in v (vs : list Z) : VLink v ∈ VLink <$> vs <-> v ∈ vs.
Proof. rewrite list_elem_of_fmap. split; [by intros (q & [= ->] & ?)|by exists v]. Qed.

Lemma last_links (vs : list Z) : default MmapList (last (VLink <$> vs)) = match last vs with Some v => VLink v | None => MmapList end.
Proof. rewrite fmap_last. by destruct (last vs). Qed.

Lemma head_links (vs : list Z) : default MmapList (head (VLink <$> vs)) = match head vs with Some v => VLink v | None => MmapList end.
Proof. by destruct vs. Qed.

(** The entry after a part of the areas. *)
Lemma ok_next s v1 v2 : ring (lst s) MmapList (VLink <$> v1 ++ v2) ->
  list_next (match last v1 with Some v => VLink v | None => MmapList end) (lst s) = Done (match head v2 with Some v => VLink v | None => MmapList end).
Proof. rewrite fmap_app. intros [Hn _]%ring_at. rewrite last_links, head_links in Hn. by apply list_next_eq. Qed.

Lemma ok_prev s v1 v2 : ring (lst s) MmapList (VLink <$> v1 ++ v2) ->
  list_prev (match head v2 with Some v => VLink v | None => MmapList end) (lst s) = Done (match last v1 with Some v => VLink v | None => MmapList end).
Proof. rewrite fmap_app. intros [_ Hp]%ring_at. rewrite last_links, head_links in Hp. by apply list_prev_eq. Qed.

(** * find_vma *)

(** The first area that ends above [addr]. *)
Definition found (V : gmap Z vma_struct) (addr : Z) (vs : list Z) (r : option Z) : Prop :=
  match r with
  | Some v => exists v1 v2, vs = v1 ++ v :: v2 /\ (forall w, w ∈ v1 -> end_of V w <= addr) /\ addr < end_of V v
  | None => forall w, w ∈ vs -> end_of V w <= addr
  end.

Lemma get_vma_eq s v m : vmas s !! v = Some m -> get_vma v s = Done m /\ start_of (vmas s) v = vm_start m /\ end_of (vmas s) v = vm_end m.
Proof. intros Hv. unfold get_vma, start_of, end_of. by rewrite Hv. Qed.

Lemma find_vma_list_spec s vs addr : mm_ok s vs -> returns (find_vma_list addr s) (found (vmas s) addr vs).
Proof.
  intros H. unfold find_vma_list.
  apply (loop_returns_le (fun n le => exists v1 v2, vs = v1 ++ v2 /\ le = match last v1 with Some v => VLink v | None => MmapList end /\ n = length v2 /\
    forall w, w ∈ v1 -> end_of (vmas s) w <= addr) _ _ _ (length vs));
    [|exists [], vs; split_and!; try done; by intros w Hw%elem_of_nil|pose proof (ok_fuel s vs H); lia].
  intros n le (v1 & v2 & -> & -> & -> & Hle). rewrite (ok_next s v1 v2 (ok_ring _ _ H)). cbn [mbind outcome_bind]. destruct v2 as [|v v2]; cbn [head].
  - rewrite decide_True by done. apply returns_done. intros w. rewrite app_nil_r. apply Hle.
  - rewrite decide_False by done. cbn [le2vma mbind outcome_bind]. destruct (ok_areas _ _ H v) as (m & Hm & _); [rewrite elem_of_app; right; left|].
    destruct (get_vma_eq s v m Hm) as (-> & _ & He). cbn [mbind outcome_bind]. rewrite <- He.
    destruct (Z.ltb_spec addr (end_of (vmas s) v)) as [Hlt|Hge]; apply returns_done; [by exists v1, v2|].
    exists (length v2). split; [|cbn; lia]. exists (v1 ++ [v]), v2. rewrite <- app_assoc, last_snoc. split_and!; try done.
    intros w [Hw| ->%list_elem_of_singleton]%elem_of_app; [by apply Hle|done].
Qed.

Lemma node_opt tr h k t : st tr h k t -> (if decide (hd tr t <> nil_ tr) then Some (hd tr t) else None) = match t with E => None | T _ _ a _ => Some a end.
Proof. intros Hst. pose proof (st_hd_nil tr h k t Hst) as Hn. destruct t; [by rewrite decide_False by tauto|]. rewrite decide_True; [done|]. intros He. by apply Hn in He. Qed.

Lemma find_vma_rb_spec s vs tr addr : mm_ok s vs -> mmap_tree (mm_ s) = Some tr -> returns (find_vma_rb tr addr s) (found (vmas s) addr vs).
Proof.
  intros H Htr. destruct (ok_tree _ _ H tr Htr) as ((t & Hok & Ht) & _). pose proof (tree_height _ _ _ _ t Hok Ht) as Hfuel. pose proof Hok as (Hst & _). unfold find_vma_rb, rb_node_root.
  pose proof Hst as (Hroot & _). cbn [repc] in Hroot. rewrite (get_child_eq _ _ _ L Hroot). cbn [mbind outcome_bind child lchild]. rewrite (node_opt tr (rbs s) [] t Hst).
  apply (loop_returns_le (fun n '(node, acc) => exists k t', zip k t' = t /\ node = match t' with E => None | T _ _ a _ => Some a end /\ acc = head (after k) /\ n = height t' /\
    (forall w, w ∈ before k -> end_of (vmas s) w <= addr) /\ (forall w, w ∈ after k -> addr < end_of (vmas s) w)) _ _ _ (height t)); [| |unfold rb_fuel; lia].
  2: { exists [], t. split_and!; try done; by intros w Hw%elem_of_nil. }
  intros n [node acc] (k & t' & Hz & -> & -> & -> & Hb & Ha). rewrite <- Hz, inorder_zip in Ht. pose proof (proj2 (st_zip tr (rbs s) k t') ltac:(by rewrite Hz)) as Hst'.
  destruct t' as [|c l v r].
  - apply returns_done. cbn [inorder app] in Ht. destruct (after k) as [|v a]; cbn [head]; [intros w; rewrite <- Ht, app_nil_r; apply Hb|].
    exists (before k), a. split_and!; try done. apply Ha. left.
  - cbn [inorder] in Ht. destruct (ok_areas _ _ H v) as (m & Hm & _); [rewrite <- Ht, !elem_of_app, elem_of_cons; tauto|].
    destruct (get_vma_eq s v m Hm) as (-> & Hs & He). cbn [mbind outcome_bind]. rewrite <- He, <- Hs.
    pose proof (ok_layout _ _ H) as Hlay. replace vs with ((before k ++ inorder l) ++ v :: inorder r ++ after k) in Hlay by (rewrite <- Ht, <- !app_assoc; done).
    assert (Hbef : forall w, w ∈ before k ++ inorder l -> end_of (vmas s) w <= start_of (vmas s) v) by (intros w Hw; eapply layout_order; [exact Hlay|done|left]).
    assert (Hlt : start_of (vmas s) v < end_of (vmas s) v) by (eapply layout_lt; [exact Hlay|rewrite elem_of_app; right; left]).
    assert (Haft : forall w, w ∈ inorder r -> end_of (vmas s) v < end_of (vmas s) w).
    { intros w Hw. assert (end_of (vmas s) v <= start_of (vmas s) w). { eapply (layout_order _ ((before k ++ inorder l) ++ [v]) (inorder r ++ after k));
        [by rewrite <- !app_assoc; rewrite <- !app_assoc in Hlay|rewrite elem_of_app; right; left|rewrite elem_of_app; by left]. }
      assert (start_of (vmas s) w < end_of (vmas s) w); [|lia]. eapply layout_lt; [exact Hlay|]. apply elem_of_app; right; right; apply elem_of_app; by left. }
    pose proof (st_hole tr (rbs s) k L c l v r Hst') as Hn. unfold rb_node_left, rb_node_right. destruct (Z.ltb_spec addr (end_of (vmas s) v)) as [Hav|Hav].
    + destruct (Z.leb_spec (start_of (vmas s) v) addr) as [Hle|Hgt].
      * apply returns_done. exists (before k ++ inorder l), (inorder r ++ after k). split_and!; [by rewrite <- Ht, <- !app_assoc|intros w Hw; specialize (Hbef w Hw); lia|done].
      * rewrite (get_child_eq _ _ _ L Hn). cbn [mbind outcome_bind child fnode lchild]. rewrite (node_opt tr (rbs s) _ l (st_left tr _ k L c l v r Hst')). apply returns_done.
        exists (height l). split; [|cbn; lia]. exists (F L c v r :: k), l. split_and!; try done. cbn [after].
        intros w [-> |[Hw|Hw]%elem_of_app]%elem_of_cons; [done| |by apply Ha]. specialize (Haft w Hw). lia.
    + rewrite (get_child_eq _ _ _ R Hn). cbn [mbind outcome_bind child fnode rchild]. rewrite (node_opt tr (rbs s) _ r (st_right tr _ k L c l v r Hst')). apply returns_done.
      exists (height r). split; [|cbn; lia]. exists (F R c v l :: k), r. split_and!; try done. cbn [before]. intros w. rewrite !elem_of_app, list_elem_of_singleton.
      intros [Hw|[Hw| ->]]; [by apply Hb| |done].
      assert (end_of (vmas s) w <= start_of (vmas s) v) by (apply Hbef; rewrite elem_of_app; by right). lia.
Qed.

(** find_vma changes the cache only. *)
Definition cached (s s' : kernel) : Prop := exists c, s' = with_mm (MkMm (mmap_tree (mm_ s)) c (map_count (mm_ s))) s.

Lemma mm_ok_cached s vs c : mm_ok s vs -> (forall v, c = Some v -> v ∈ vs) -> mm_ok (with_mm (MkMm (mmap_tree (mm_ s)) c (map_count (mm_ s))) s) vs.
Proof. intros [H1 H2 H3 H4 H5 H6 H7] Hc. by split. Qed.

Lemma in_cache_spec s vs addr : mm_ok s vs -> returns (in_cache addr s) (fun c => c = true -> found (vmas s) addr vs (mmap_cache (mm_ s)) /\ mmap_cache (mm_ s) <> None).
Proof.
  intros H. unfold in_cache. destruct (mmap_cache (mm_ s)) as [v|] eqn:E; [|by apply returns_done]. pose proof (ok_cache _ _ H v E) as Hv. destruct (ok_areas _ _ H v Hv) as (m & Hm & _).
  destruct (get_vma_eq s v m Hm) as (-> & Hs & He). cbn [mbind outcome_bind]. apply returns_done. rewrite andb_true_iff, Z.leb_le, Z.ltb_lt. intros [Hle Hlt]. split; [|done].
  apply list_elem_of_split in Hv as (v1 & v2 & ->). exists v1, v2. split_and!; [done| |lia]. intros w Hw. pose proof (layout_order _ _ (v :: v2) w v (ok_layout _ _ H) Hw ltac:(left)). lia.
Qed.

Lemma found_in V addr vs v : found V addr vs (Some v) -> v ∈ vs.
Proof. intros (v1 & v2 & -> & _). rewrite elem_of_app. right. left. Qed.

Lemma find_vma_spec s vs addr : mm_ok s vs -> returns (find_vma addr s) (fun '(r, s') => found (vmas s) addr vs r /\ cached s s' /\ mm_ok s' vs).
Proof.
  intros H. unfold find_vma. eapply returns_bind; [by apply in_cache_spec|]. intros c Hc.
  eapply (returns_bind _ _ (found (vmas s) addr vs)).
  - destruct c; [by apply returns_done, Hc|]. destruct (mmap_tree (mm_ s)) as [tr|] eqn:E; [by apply find_vma_rb_spec|by apply find_vma_list_spec].
  - intros [v|] Hf; apply returns_done; (split; [done|]).
    + split; [by eexists|]. apply mm_ok_cached; [done|]. intros w [= <-]. by eapply found_in.
    + split; [|done]. exists (mmap_cache (mm_ s)). by destruct s as [? ? ? ? [? ? ?] ? ?].
Qed.

(** * Insertion *)

Context (alloc : kernel -> option Z) (Halloc : forall s a, alloc s = Some a -> rbs s !! a = None /\ vmas s !! a = None).

(** Where a new area goes. *)
Definition fits (V : gmap Z vma_struct) (v1 : list Z) (v : Z) (v2 : list Z) : Prop :=
  (forall w, w ∈ v1 -> end_of V w <= start_of V v) /\ start_of V v < end_of V v /\ forall w, w ∈ v2 -> end_of V v <= start_of V w.

Lemma fits_sorted V v1 v v2 : fits V v1 v v2 -> layout_ok (regions V (v1 ++ v2)) -> insert_sorted (vma_compare V) v (v1 ++ v2) = v1 ++ v :: v2.
Proof.
  intros (H1 & Hv & H2) Hl. apply insert_sorted_app.
  - intros w Hw. apply vma_compare_sign. specialize (H1 w Hw). pose proof (layout_lt V _ w Hl ltac:(rewrite elem_of_app; by left)). lia.
  - intros w Hw. specialize (H2 w Hw). destruct (vma_compare_sign V w v) as [Hs _]. destruct (Z.lt_ge_cases 0 (vma_compare V w v)); [done|]. destruct Hs as [Hs _].
    specialize (Hs ltac:(lia)). lia.
Qed.

Lemma place_list_spec s v1 v v2 m : mm_ok s (v1 ++ v2) -> vmas s !! v = Some m -> fits (vmas s) v1 v v2 ->
  returns (place_list v s) (fun le => le = match last v1 with Some w => VLink w | None => MmapList end).
Proof.
  intros H Hm (H1 & Hv & H2). destruct (get_vma_eq s v m Hm) as (Hg & Hs & _). unfold place_list. rewrite Hg. cbn [mbind outcome_bind].
  apply (loop_returns_le (fun n '(le, le_prev) => exists a b, v1 = a ++ b /\ le = match last a with Some w => VLink w | None => MmapList end /\ le_prev = le /\
    n = length b) _ _ _ (length v1)).
  2: { by exists [], v1. }
  2: { pose proof (ok_fuel s _ H) as Hf. rewrite length_app in Hf. lia. }
  intros n [le le_prev] (a & b & -> & -> & -> & ->). rewrite <- app_assoc in H. rewrite (ok_next s a (b ++ v2) (ok_ring _ _ H)). cbn [mbind outcome_bind]. destruct b as [|w b]; cbn [app].
  - rewrite app_nil_r. destruct v2 as [|w v2]; cbn [head]; [rewrite decide_True by done; by apply returns_done|]. rewrite decide_False by done. cbn [le2vma mbind outcome_bind].
    destruct (ok_areas _ _ H w) as (mw & Hw & _); [rewrite elem_of_app; right; left|]. destruct (get_vma_eq s w mw Hw) as (-> & Hsw & _). cbn [mbind outcome_bind].
    specialize (H2 w ltac:(left)). rewrite (proj2 (Z.ltb_lt _ _)) by lia. by apply returns_done.
  - cbn [head]. rewrite decide_False by done. cbn [le2vma mbind outcome_bind]. assert (Hin : w ∈ a ++ (w :: b) ++ v2) by (rewrite elem_of_app; right; left).
    destruct (ok_areas _ _ H w Hin) as (mw & Hw & _). destruct (get_vma_eq s w mw Hw) as (-> & Hsw & Hew). cbn [mbind outcome_bind].
    pose proof (layout_lt _ _ w (ok_layout _ _ H) Hin). specialize (H1 w ltac:(rewrite elem_of_app; right; left)). rewrite (proj2 (Z.ltb_ge _ _)) by lia. apply returns_done.
    exists (length b). split; [|cbn; lia]. exists (a ++ [w]), b. rewrite <- app_assoc, last_snoc. done.
Qed.

Lemma insert_vma_rb_spec s tr vs v : tree_holds (vmas s) tr (rbs s) vs -> v <> root_ tr -> v <> nil_ tr -> v ∉ vs -> is_Some (rbs s !! v) ->
  returns (insert_vma_rb tr v s) (fun s' => exists h, s' = with_rbs h s /\ tree_holds (vmas s) tr h (insert_sorted (vma_compare (vmas s)) v vs) /\
    forall a, is_Some (rbs s !! a) -> is_Some (h !! a)).
Proof.
  intros Ht Hr Hn Hv [n Hh]. unfold insert_vma_rb, on_tree, rb_fuel. eapply returns_bind; [by apply (tree_insert (vmas s) tr (rbs s) vs v n)|]. intros h [Hh1 Hh2].
  apply returns_done. by exists h.
Qed.
End Repr.
