(* ===== verification/VmmInsert.v ===== *)
(** Virtual memory areas of the ucore kernel: insert_vma_struct and
    remove_vma_struct keep the list, the tree, the cache and the count in step. *)

From S2P Require Import Prelude CList.
From Stdlib Require Import Sorted.
From stdpp Require Import list gmap sorting.
From S2P Require Import RbTree RbInsert RbSpec Vmm VmmState.
#[local] Open Scope Z_scope.

Section Insert.
Context (mm : Z) (alloc : kernel -> option Z) (Halloc : forall s a, alloc s = Some a -> rbs s !! a = None /\ vmas s !! a = None).
Abbreviation mm_ok := (mm_ok mm).

Lemma check_vma_overlap_spec s p n mp mn : vmas s !! p = Some mp -> vmas s !! n = Some mn -> vm_start mp < vm_end mp -> vm_end mp <= vm_start mn -> vm_start mn < vm_end mn ->
  check_vma_overlap p n s = Done tt.
Proof.
  intros Hp Hn H1 H2 H3. unfold check_vma_overlap, get_vma. rewrite Hp, Hn. cbn [of_option mbind outcome_bind]. rewrite !assert_ok by done. done.
Qed.

(** * Building the tree *)

(** A state that differs in the heap of tree nodes, which has kept its nodes. *)
Definition grown (s s' : kernel) : Prop := exists h c, s' = MkKernel (vmas s) h (lst s) (shms s) (mm_ s) (unmapped s) c /\ forall a, is_Some (rbs s !! a) -> is_Some (h !! a).

Lemma grown_refl s : grown s s.
Proof. exists (rbs s), (calls s). by destruct s. Qed.

Lemma rb_tree_create_spec s : exists o s', rb_tree_create_ alloc s = (o, s') /\ grown s s' /\
  forall tr, o = Some tr -> tree_holds (vmas s) tr (rbs s') [] /\ (vmas s !! nil_ tr = None /\ vmas s !! root_ tr = None) /\ rbs s !! nil_ tr = None /\ rbs s !! root_ tr = None.
Proof.
  unfold rb_tree_create_, kmalloc. destruct (alloc s) as [p|]; [|eexists _, _; split; [reflexivity|]; split; [by exists (rbs s), (S (calls s))|done]].
  set (s1 := MkKernel _ _ _ _ _ _ _). destruct (alloc s1) as [n|] eqn:En; [|eexists _, _; split; [reflexivity|]; split; [by exists (rbs s), (S (S (calls s)))|done]].
  destruct (Halloc _ _ En) as [Hn Hnv]. unfold s1 in *. clear s1. cbn [vmas rbs lst shms mm_ unmapped calls] in *. unfold with_rbs at 1 2.
  cbn [vmas rbs lst shms mm_ unmapped calls]. destruct (alloc (MkKernel _ (<[n := _]> _) _ _ _ _ _)) as [r|] eqn:Er.
  - destruct (Halloc _ _ Er) as [Hr Hrv]. cbn [rbs vmas] in Hr, Hrv. assert (Hne : n <> r) by (intros ->; by rewrite lookup_insert_eq in Hr). rewrite lookup_insert_ne in Hr by done.
    destruct (create_ok (vma_compare (vmas s)) p n r (rbs s) Hne) as (h0 & -> & Hok & Hout). eexists _, _. split; [reflexivity|]. split.
    + exists h0, (S (S (S (calls s)))). split; [done|]. intros a Ha. rewrite Hout; [done|intros ->; by rewrite Hn in Ha; destruct Ha|intros ->; by rewrite Hr in Ha; destruct Ha].
    + intros tr [= <-]. cbn [nil_ root_]. split; [by exists E|done].
  - eexists _, _. split; [reflexivity|]. split; [|done]. exists (delete n (<[n := MkNode false n n n]> (rbs s))), (S (S (S (calls s)))). split; [done|].
    intros a Ha. by rewrite delete_insert_id by done.
Qed.

Lemma build_tree_spec s tr vs : ring (lst s) MmapList (VLink <$> vs) -> layout_ok (regions (vmas s) vs) -> tree_holds (vmas s) tr (rbs s) [] ->
  (root_ tr ∉ vs) -> (nil_ tr ∉ vs) -> (forall v, v ∈ vs -> is_Some (rbs s !! v)) ->
  returns (build_tree tr s) (fun s' => grown s s' /\ tree_holds (vmas s) tr (rbs s') vs).
Proof.
  intros Hr Hl Ht Hroot Hnil Hn. unfold build_tree. assert (Hnd : NoDup vs) by (destruct Hr as [_ Hx]; apply NoDup_cons in Hx as [_ Hx]; by apply NoDup_fmap_1 in Hx).
  apply (loop_returns_le (fun n '(le, s') => exists v1 v2, vs = v1 ++ v2 /\ le = match last v1 with Some v => VLink v | None => MmapList end /\ n = length v2 /\
    grown s s' /\ tree_holds (vmas s) tr (rbs s') v1) _ _ _ (length vs)).
  2: { exists [], vs. split_and!; try done. apply grown_refl. }
  2: { pose proof (ring_size _ _ _ Hr) as Hs. rewrite length_fmap in Hs. unfold l_fuel. lia. }
  intros n [le s1] (v1 & v2 & -> & -> & -> & (h & c & -> & Hh) & Ht1). cbn [lst rbs vmas] in *. rewrite (ok_next s v1 v2 Hr). cbn [mbind outcome_bind]. destruct v2 as [|v v2]; cbn [head].
  - rewrite decide_True by done. apply returns_done. rewrite app_nil_r in *. split; [by exists h, c|done].
  - rewrite decide_False by done. cbn [le2vma mbind outcome_bind]. rewrite NoDup_app in Hnd. destruct Hnd as (_ & Hnd & _).
    assert (Hv : v ∈ v1 ++ v :: v2) by (rewrite elem_of_app; right; left).
    eapply returns_bind; [apply (insert_vma_rb_spec (MkKernel (vmas s) h (lst s) (shms s) (mm_ s) (unmapped s) c) tr v1 v Ht1)|].
    + intros ->. done.
    + intros ->. done.
    + intros Hin. apply (Hnd v Hin). left.
    + cbn [rbs]. by apply Hh, Hn.
    + cbn [vmas rbs]. intros s2 (h2 & -> & Ht2 & Hh2). apply returns_done. exists (length v2). split; [|cbn; lia]. exists (v1 ++ [v]), v2.
      rewrite <- app_assoc, last_snoc. split_and!; try done.
      * exists h2, c. split; [done|]. auto.
      * cbn [rbs with_rbs]. rewrite <- (fits_sorted (vmas s) v1 v []); [by rewrite app_nil_r| |rewrite app_nil_r; rewrite regions_app in Hl; apply layout_app in Hl; tauto].
        split_and!; [intros w Hw; eapply layout_order; [exact Hl|done|left]|by eapply layout_lt|by intros w Hw%elem_of_nil].
Qed.

(** The end of insert_vma_struct: a tree is built when there are enough areas. *)
Lemma try_tree_spec s vs : mm_ok s vs ->
  returns (match mmap_tree (mm_ s) with
           | Some _ => Done s
           | None =>
               if RB_MIN_MAP_COUNT <=? map_count (mm_ s) then
                 let '(tree, s) := rb_tree_create_ alloc s in
                 let s := with_mm (MkMm tree (mmap_cache (mm_ s)) (map_count (mm_ s))) s in
                 match tree with Some tree => build_tree tree s | None => Done s end
               else Done s
           end) (fun s' => mm_ok s' vs /\ vmas s' = vmas s /\ lst s' = lst s /\ shms s' = shms s /\ unmapped s' = unmapped s).
Proof.
  intros H. destruct (mmap_tree (mm_ s)) as [tr|] eqn:Etr; [by apply returns_done|]. destruct (RB_MIN_MAP_COUNT <=? map_count (mm_ s)); [|by apply returns_done].
  destruct (rb_tree_create_spec s) as (o & s1 & -> & (h & c & -> & Hh) & Htr). cbv zeta. unfold with_mm.
  cbn [mm_ vmas rbs lst shms unmapped calls] in *. pose proof H as [H1 H2 H3 _ H5 H6 H7]. destruct o as [tr|].
  - destruct (Htr tr eq_refl) as (Ht & [Hnv Hrv] & Hnr & Hrr). assert (Hin : forall v, v ∈ vs -> is_Some (rbs s !! v)) by (intros v Hv;
      destruct (H1 v Hv) as (m & Hm & _); by destruct (H7 v ltac:(by eexists))).
    set (s2 := MkKernel _ _ _ _ _ _ _) in *. go_mono (build_tree_spec s2 tr vs); try done.
    + intros Hv%Hin. rewrite Hrr in Hv. by destruct Hv.
    + intros Hv%Hin. rewrite Hnr in Hv. by destruct Hv.
    + intros v Hv. by apply Hh, Hin.
    + intros s' ((h' & c' & -> & Hh') & Ht'). cbn [vmas rbs lst shms mm_ unmapped calls s2] in *. split; [|done]. split; cbn [vmas rbs lst shms mm_ mmap_tree mmap_cache map_count]; try done.
      * intros tr' [= <-]. done.
      * intros v Hv. destruct (H7 v Hv) as [? ?]. split; [by apply Hh', Hh|done].
  - apply returns_done. split; [|done]. split; cbn [vmas rbs lst shms mm_ mmap_tree mmap_cache map_count]; try done. intros v Hv. destruct (H7 v Hv) as [? ?]. split; [by apply Hh|done].
Qed.

(** * Insertion *)

Lemma place_spec s v1 v v2 m : mm_ok s (v1 ++ v2) -> vmas s !! v = Some m -> v ∉ v1 ++ v2 -> fits (vmas s) v1 v v2 ->
  returns (match mmap_tree (mm_ s) with Some tree => place_rb tree v s | None => le ← place_list v s; Done (le, s) end)
    (fun '(le, s1) => le = match last v1 with Some w => VLink w | None => MmapList end /\ exists h, s1 = with_rbs h s /\ (forall a, is_Some (rbs s !! a) -> is_Some (h !! a)) /\
      forall tr, mmap_tree (mm_ s) = Some tr -> tree_holds (vmas s) tr h (v1 ++ v :: v2)).
Proof.
  intros H Hm Hv Hf. destruct (mmap_tree (mm_ s)) as [tr|] eqn:Etr.
  - destruct (ok_tree _ _ _ H tr Etr) as (Ht & Hnil & Hroot). unfold place_rb. eapply returns_bind.
    { apply (insert_vma_rb_spec s tr (v1 ++ v2) v Ht); [congruence|congruence|done|]. by destruct (ok_links _ _ _ H v ltac:(by eexists)). }
    intros s1 (h & -> & Ht' & Hh). rewrite fits_sorted in Ht' by (done || apply (ok_layout _ _ _ H)). unfold rb_fuel. cbn [rbs with_rbs].
    rewrite (tree_prev _ _ _ _ _ _ Ht'). cbn [mbind outcome_bind]. apply returns_done.
    split; [|exists h; split_and!; try done; intros tr' [= <-]; done]. destruct v1 as [|w v1 _] using rev_ind; [done|]. by rewrite last_at, last_snoc.
  - eapply returns_bind; [by apply (place_list_spec mm s v1 v v2 m)|]. intros le ->. apply returns_done. split; [done|]. exists (rbs s). split_and!; try done. by destruct s.
Qed.

Lemma overlap_prev s v1 v v2 m : mm_ok s (v1 ++ v2) -> vmas s !! v = Some m -> fits (vmas s) v1 v v2 ->
  (let le := match last v1 with Some w => VLink w | None => MmapList end in if decide (le <> MmapList) then p ← le2vma le; check_vma_overlap p v s else Done tt) = Done tt.
Proof.
  intros H Hm (H1 & Hlt & _). destruct (last v1) as [w|] eqn:E; cbv zeta; [|by rewrite decide_False by tauto]. rewrite decide_True by done. cbn [le2vma mbind outcome_bind].
  assert (Hw : w ∈ v1) by (apply last_Some in E as [l ->]; rewrite elem_of_app; right; left). assert (Hw' : w ∈ v1 ++ v2) by (rewrite elem_of_app; by left).
  destruct (ok_areas _ _ _ H w Hw') as (mw & Hmw & _).
  destruct (get_vma_eq s v m Hm) as (_ & Hs & He), (get_vma_eq s w mw Hmw) as (_ & Hsw & Hew). pose proof (layout_lt _ _ w (ok_layout _ _ _ H) Hw'). specialize (H1 w Hw).
  apply (check_vma_overlap_spec s w v mw m); lia || done.
Qed.

Lemma overlap_next s v1 v v2 m : mm_ok s (v1 ++ v2) -> vmas s !! v = Some m -> fits (vmas s) v1 v v2 ->
  (let le := match head v2 with Some w => VLink w | None => MmapList end in if decide (le <> MmapList) then p ← le2vma le; check_vma_overlap v p s else Done tt) = Done tt.
Proof.
  intros H Hm (_ & Hlt & H2). destruct v2 as [|w v2]; cbn [head]; cbv zeta; [by rewrite decide_False by tauto|]. rewrite decide_True by done. cbn [le2vma mbind outcome_bind].
  assert (Hw' : w ∈ v1 ++ w :: v2) by (rewrite elem_of_app; right; left). destruct (ok_areas _ _ _ H w Hw') as (mw & Hmw & _).
  destruct (get_vma_eq s v m Hm) as (_ & Hs & He), (get_vma_eq s w mw Hmw) as (_ & Hsw & Hew). pose proof (layout_lt _ _ w (ok_layout _ _ _ H) Hw'). specialize (H2 w ltac:(left)).
  apply (check_vma_overlap_spec s v w m mw); lia || done.
Qed.

Definition set_mm (m : vma_struct) : vma_struct := MkVma mm (vm_start m) (vm_end m) (vm_flags m) (shmem m) (shmem_off m).

Lemma int_count x d : int (int x + d) = int (x + d).
Proof.
  unfold int, swrap. f_equal. replace ((x + 2 ^ (32 - 1)) mod 2 ^ 32 - 2 ^ (32 - 1) + d + 2 ^ (32 - 1)) with ((x + 2 ^ (32 - 1)) mod 2 ^ 32 + d) by lia.
  rewrite Zplus_mod_idemp_l. f_equal. lia.
Qed.

Lemma reg_at_set_mm V v m w : V !! v = Some m -> reg_at (<[v := set_mm m]> V) w = reg_at V w.
Proof. intros Hm. unfold reg_at. destruct (decide (w = v)) as [->|Hne]; [by rewrite lookup_insert_eq, Hm|by rewrite lookup_insert_ne by congruence]. Qed.

(** The state after the area has entered the list. *)
Lemma entered s v1 v v2 m h l' c : mm_ok s (v1 ++ v2) -> vmas s !! v = Some m -> layout_ok (regions (vmas s) (v1 ++ v :: v2)) ->
  (forall a, is_Some (rbs s !! a) -> is_Some (h !! a)) -> (forall tr, mmap_tree (mm_ s) = Some tr -> tree_holds (vmas s) tr h (v1 ++ v :: v2)) ->
  ring l' MmapList (VLink <$> v1 ++ v :: v2) -> dom l' = dom (lst s) ->
  mm_ok (MkKernel (<[v := set_mm m]> (vmas s)) h l' (shms s) (MkMm (mmap_tree (mm_ s)) (mmap_cache (mm_ s)) (int (map_count (mm_ s) + 1))) (unmapped s) c) (v1 ++ v :: v2).
Proof.
  intros [H1 H2 H3 H4 H5 H6 H7] Hm Hlay Hh Htree Hring Hdom. assert (Hreg :
    regions (<[v := set_mm m]> (vmas s)) (v1 ++ v :: v2) = regions (vmas s) (v1 ++ v :: v2)) by (apply list_fmap_ext; intros; by apply reg_at_set_mm).
  assert (Hsome : forall w, is_Some (<[v := set_mm m]> (vmas s) !! w) -> is_Some (vmas s !! w)) by (intros w; destruct (decide (w = v)) as [->|];
    [rewrite Hm; by eexists|by rewrite lookup_insert_ne by congruence]).
  split; cbn [vmas rbs lst shms mm_ mmap_tree mmap_cache map_count].
  - intros w Hw. destruct (decide (w = v)) as [->|Hne]; [rewrite lookup_insert_eq; by eexists|]. rewrite lookup_insert_ne by congruence. apply H1.
    rewrite !elem_of_app, elem_of_cons in *. tauto.
  - by rewrite Hreg.
  - done.
  - intros tr Htr. destruct (H4 tr Htr) as (_ & Hn & Hr). rewrite !lookup_insert_ne by congruence. split; [|done]. eapply tree_holds_any; [by apply Htree|].
    apply layout_sorted. by rewrite Hreg.
  - intros w Hw%H5. rewrite !elem_of_app, ?elem_of_cons in *. tauto.
  - rewrite H6, int_count. f_equal. rewrite !zlen_app, zlen_cons. lia.
  - intros w Hw%Hsome. destruct (H7 w Hw) as [Ha Hb]. split; [by apply Hh|]. apply elem_of_dom. rewrite Hdom. by apply elem_of_dom.
Qed.

Lemma insert_vma_struct_spec s v1 v v2 m : mm_ok s (v1 ++ v2) -> vmas s !! v = Some m -> v ∉ v1 ++ v2 -> layout_ok (regions (vmas s) v1 ++ reg_of m :: regions (vmas s) v2) ->
  returns (insert_vma_struct mm alloc v s) (fun s' => mm_ok s' (v1 ++ v :: v2) /\ vmas s' = <[v := set_mm m]> (vmas s) /\
    (forall z, z ∉ VLink v :: MmapList :: (VLink <$> v1 ++ v2) -> lst s' !! z = lst s !! z) /\ shms s' = shms s /\ unmapped s' = unmapped s).
Proof.
  intros H Hm Hv Hlay. assert (Hreg : reg_at (vmas s) v = reg_of m) by (unfold reg_at; by rewrite Hm).
  assert (Hlay' : layout_ok (regions (vmas s) (v1 ++ v :: v2))) by (rewrite regions_app; unfold regions at 2; rewrite fmap_cons, Hreg; done).
  assert (Hf : fits (vmas s) v1 v v2).
  { split_and!; [intros w Hw; eapply layout_order; [exact Hlay'|done|left]|eapply layout_lt; [exact Hlay'|rewrite elem_of_app; right; left]|].
    intros w Hw. eapply (layout_order _ (v1 ++ [v]) v2); [by rewrite <- app_assoc|rewrite elem_of_app; right; left|done]. }
  destruct (get_vma_eq s v m Hm) as (Hg & Hs & He). unfold insert_vma_struct. rewrite Hg. cbn [mbind outcome_bind]. rewrite assert_ok by (destruct Hf; lia). cbn [mbind outcome_bind].
  eapply returns_bind; [by apply (place_spec s v1 v v2 m)|]. intros [le s1] (-> & h & -> & Hh & Htree). set (s1 := with_rbs h s) in *.
  change (lst s1) with (lst s). rewrite (ok_next s v1 v2 (ok_ring _ _ _ H)). cbn [mbind outcome_bind].
  assert (Hov : forall p q, check_vma_overlap p q s1 = check_vma_overlap p q s) by done.
  pose proof (overlap_prev s v1 v v2 m H Hm Hf) as Ho1. pose proof (overlap_next s v1 v v2 m H Hm Hf) as Ho2. cbv zeta in Ho1, Ho2.
  assert (Hov1 : forall le : vloc, (p ← le2vma le; check_vma_overlap p v s1) = (p ← le2vma le; check_vma_overlap p v s)) by done.
  assert (Hov2 : forall le : vloc, (p ← le2vma le; check_vma_overlap v p s1) = (p ← le2vma le; check_vma_overlap v p s)) by done.
  rewrite Hov1, Ho1. cbn [mbind outcome_bind]. rewrite Hov2, Ho2. cbn [mbind outcome_bind].
  unfold upd_vma, get_vma. change (vmas s1) with (vmas s). rewrite Hm. cbn [of_option mbind outcome_bind]. unfold on_list at 1. cbn [lst with_vmas]. change (lst s1) with (lst s).
  pose proof (ok_ring _ _ _ H) as Hring. rewrite fmap_app in Hring. destruct (ok_links _ _ _ H v ltac:(by eexists)) as [_ Hlv]. rewrite <- last_links.
  destruct (ring_add_at _ _ _ _ (VLink v) Hring) as (l' & -> & Hring' & Hfr); [rewrite <- fmap_app, elem_of_cons, vlink_in; by intros [?|?]|done|]. cbn [mbind outcome_bind].
  go_mono (try_tree_spec _ (v1 ++ v :: v2)).
  - apply (entered s v1 v v2 m h l' (calls s) H Hm Hlay' Hh Htree); [by rewrite fmap_app|apply Hfr].
  - intros s' (Hok & Hvm & Hl & Hsh & Hun). split_and!; try done. intros z Hz. rewrite Hl. apply Hfr. by rewrite <- fmap_app.
Qed.

(** * Removal *)

Lemma layout_remove V v1 v v2 : layout_ok (regions V (v1 ++ v :: v2)) -> layout_ok (regions V (v1 ++ v2)).
Proof.
  rewrite !regions_app, !layout_app. unfold regions at 2. rewrite fmap_cons, layout_cons. intros (H1 & (_ & H2 & _) & H3). split_and!; try done.
  intros r r' Hr Hr'. apply H3; [done|by right].
Qed.

Lemma remove_vma_struct_spec s v1 v v2 : mm_ok s (v1 ++ v :: v2) ->
  returns (remove_vma_struct mm v s) (fun s' => mm_ok s' (v1 ++ v2) /\ vmas s' = vmas s /\ CList.frame (lst s) (lst s') (MmapList :: (VLink <$> v1 ++ v2)) /\
    shms s' = shms s /\ unmapped s' = unmapped s).
Proof.
  intros H. pose proof (ok_NoDup _ _ _ H) as Hnd. pose proof H as [H1 H2 H3 H4 H5 H6 H7]. destruct (H1 v ltac:(rewrite elem_of_app; right; left)) as (m & Hm & Hmm).
  unfold remove_vma_struct, get_vma. rewrite Hm. cbn [of_option mbind outcome_bind]. rewrite assert_ok by done. cbn [mbind outcome_bind].
  eapply (returns_bind _ _ (fun s1 => exists h, s1 = with_rbs h s /\ (forall a, is_Some (rbs s !! a) -> is_Some (h !! a)) /\
    forall tr, mmap_tree (mm_ s) = Some tr -> tree_holds (vmas s) tr h (v1 ++ v2))).
  { destruct (mmap_tree (mm_ s)) as [tr|] eqn:Etr; [|apply returns_done; exists (rbs s); split_and!; try done; by destruct s]. destruct (H4 tr eq_refl) as (Ht & _). unfold on_tree, rb_fuel.
    eapply returns_bind; [by apply (tree_delete (vmas s) tr (rbs s) v v1 v2)|]. intros h [Ht' Hh]. apply returns_done. exists h. split_and!; try done. by intros tr' [= <-]. }
  intros s1 (h & -> & Hh & Htree). unfold on_list. cbn [lst with_rbs]. pose proof H3 as Hr. rewrite fmap_app, fmap_cons in Hr.
  destruct (ring_del _ _ _ _ _ Hr) as (l' & -> & Hr' & Hf). rewrite <- fmap_app in Hr', Hf. cbn [mbind outcome_bind].
  apply returns_done. cbn [vmas lst shms unmapped with_mm with_lst with_rbs]. split; [|done]. apply layout_remove in H2.
  split; cbn [vmas rbs lst mm_ mmap_tree mmap_cache map_count with_mm with_lst with_rbs]; try done.
  - intros w Hw. apply H1. rewrite !elem_of_app, ?elem_of_cons in *. tauto.
  - intros tr Htr. destruct (H4 tr Htr) as (_ & ? & ?). split; [by apply Htree|done].
  - intros w. case_decide as Hc; [done|]. intros Hw. pose proof (H5 w Hw) as Hin. rewrite !elem_of_app, ?elem_of_cons in *. destruct Hin as [?|[->|?]]; [tauto|done|tauto].
  - rewrite H6. replace (int (zlen (v1 ++ v :: v2)) - 1) with (int (zlen (v1 ++ v :: v2)) + -1) by lia. rewrite int_count. f_equal. rewrite !zlen_app, zlen_cons. lia.
  - intros w Hw. destruct (H7 w Hw) as [Ha Hb]. split; [by apply Hh|]. apply elem_of_dom. destruct Hf as [-> _]. by apply elem_of_dom.
Qed.

(** * Creation *)

Lemma tree_holds_insert V tr h vs v n : tree_holds V tr h vs -> h !! v = None -> tree_holds V tr (<[v := n]> h) vs.
Proof.
  intros HT Hv. pose proof HT as (t & (Hst & Hrest) & Ht). exists t. split; [|done]. split; [|done]. apply st_fresh; [done|]. cbn [zip]. rewrite Ht.
  assert (Hne : forall a, a ∈ root_ tr :: nil_ tr :: vs -> v <> a) by (intros a Ha ->; destruct (tree_holds_some _ _ _ _ _ HT Ha) as [? ?]; congruence).
  split_and!; [apply Hne; left|apply Hne; right; left|]. intros Hin. by apply (Hne v); [right; right|].
Qed.

Lemma vma_create_spec s vs start end_ flags : mm_ok s vs ->
  (alloc s = None /\ exists s', vma_create alloc start end_ flags s = (None, s') /\ mm_ok s' vs /\ vmas s' = vmas s /\ shms s' = shms s /\ unmapped s' = unmapped s) \/
  (exists v s', vma_create alloc start end_ flags s = (Some v, s') /\ mm_ok s' vs /\ vmas s !! v = None /\
    vmas s' = <[v := MkVma 0 start end_ flags None 0]> (vmas s) /\ (v ∉ vs) /\ shms s' = shms s /\ unmapped s' = unmapped s).
Proof.
  intros H. unfold vma_create, kmalloc. destruct (alloc s) as [v|] eqn:Ea.
  - right. destruct (Halloc s v Ea) as [Hr Hv]. exists v. eexists. split; [reflexivity|]. destruct H as [H1 H2 H3 H4 H5 H6 H7].
    assert (Hvs : v ∉ vs) by (intros (m & Hm & _)%H1; congruence). cbn [vmas rbs lst shms mm_ unmapped with_vmas with_rbs with_lst]. split_and!; try done.
    assert (Hreg : regions (<[v := MkVma 0 start end_ flags None 0]> (vmas s)) vs = regions (vmas s) vs) by by apply regions_insert.
    split; cbn [vmas rbs lst shms mm_ unmapped with_vmas with_rbs with_lst]; try done.
    + intros w Hw. rewrite lookup_insert_ne by congruence. by apply H1.
    + by rewrite Hreg.
    + assert (Hvl : VLink v ∉ MmapList :: (VLink <$> vs)) by (rewrite elem_of_cons, vlink_in; by intros [?|?]). destruct H3 as [Hc Hn]. split; [|done].
      refine (chain_agree _ _ _ _ _ _ _ Hc); intros z Hz; rewrite lookup_insert_ne; try done; intros <-; [done|]. apply elem_of_app in Hz.
      rewrite list_elem_of_singleton in Hz. rewrite elem_of_cons in Hvl. tauto.
    + intros tr Htr. destruct (H4 tr Htr) as (Ht & Hn & Hro). assert (Hne : v <> nil_ tr /\ v <> root_ tr).
      { split; intros ->; [destruct (tree_holds_some _ _ _ _ (nil_ tr) Ht ltac:(right; left))|destruct (tree_holds_some _ _ _ _ (root_ tr) Ht ltac:(left))]; congruence. }
      rewrite !lookup_insert_ne by naive_solver. split; [|done]. apply (tree_holds_any (vmas s)); [by apply tree_holds_insert|]. apply layout_sorted. by rewrite Hreg.
    + intros w. destruct (decide (w = v)) as [->|Hne]; [intros _; rewrite !lookup_insert_eq; by split; eexists|]. rewrite !lookup_insert_ne by congruence. apply H7.
  - left. split; [done|]. eexists. split; [reflexivity|]. split; [|done]. destruct H as [H1 H2 H3 H4 H5 H6 H7]. by split.
Qed.
End Insert.
