(* ===== verification/VmmOps.v ===== *)
(** Virtual memory areas of the ucore kernel: the operations on an address space as a
    list of regions, and the proofs for mm_map, find_vma, get_unmapped_area and
    user_mem_check. *)

From S2P Require Import Prelude CList.
From Stdlib Require Import Sorted.
From stdpp Require Import list gmap sorting.
From S2P Require Import RbTree Vmm VmmState VmmInsert.
#[local] Open Scope Z_scope.

(** * Operations on regions *)

(** The pages that a call with [addr] and [len] is about. *)
Definition from_ (addr : Z) : Z := ROUNDDOWN addr PGSIZE.
Definition to_ (addr len : Z) : Z := ROUNDUP (uint64 (addr + len)) PGSIZE.

Definition meets (L : list region) (a b : Z) : Prop := exists r, r ∈ L /\ r_start r < b /\ a < r_end r.

(** The region in its place. *)
Fixpoint put (r : region) (L : list region) : list region :=
  match L with [] => [r] | x :: L' => if r_start r <? r_start x then r :: L else x :: put r L' end.

(** What remains of a region without the pages from [a] to [b], and what is taken away. *)
Definition cut (a b : Z) (r : region) : list region :=
  (if r_start r <? a then [MkReg (r_start r) (Z.min (r_end r) a) (r_flags r)] else []) ++
  (if b <? r_end r then [MkReg (Z.max (r_start r) b) (r_end r) (r_flags r)] else []).

Definition taken (a b : Z) (r : region) : list (Z * Z) :=
  if (r_start r <? b) && (a <? r_end r) then [(Z.max (r_start r) a, Z.min (r_end r) b)] else [].

(** What the calls promise.  [nomem] says that kmalloc may fail. *)
Definition map_result (nomem : Prop) (L : list region) (addr len flags ret : Z) (L' : list region) : Prop :=
  let a := from_ addr in
  let b := to_ addr len in
  if USER_ACCESS a b then
    (meets L a b /\ ret = - E_INVAL /\ L' = L) \/
    (~ meets L a b /\ (ret = 0 /\ L' = put (MkReg a b (Z.ldiff flags VM_SHARE)) L \/ nomem /\ ret = - E_NO_MEM /\ L' = L))
  else ret = - E_INVAL /\ L' = L.

(** The pages taken away are recorded from the top of the range down.  Only a region that
    reaches beyond the range on both sides needs memory. *)
Definition unmap_result (nomem : Prop) (L : list region) (U : list (Z * Z)) (addr len ret : Z) (L' : list region) (U' : list (Z * Z)) : Prop :=
  let a := from_ addr in
  let b := to_ addr len in
  if USER_ACCESS a b then
    (ret = 0 /\ L' = L ≫= cut a b /\ U' = U ++ reverse (L ≫= taken a b)) \/
    (nomem /\ (exists r, r ∈ L /\ r_start r < a /\ b < r_end r) /\ ret = - E_NO_MEM /\ L' = L /\ U' = U)
  else ret = - E_INVAL /\ L' = L /\ U' = U.

(** mm_brk gives the pages to the region that ends below them and is a heap, or to a new one. *)
Definition heap_flags : Z := Z.lor VM_READ VM_WRITE.
Definition heap_below (a : Z) (r : region) : bool := (r_end r =? a) && (r_flags r =? heap_flags).
Definition grow (a b : Z) (L : list region) : list region :=
  if existsb (heap_below a) L then map (fun r => if heap_below a r then MkReg (r_start r) b (r_flags r) else r) L else put (MkReg a b heap_flags) L.

(** When there is no memory, the pages may have been taken away before. *)
Definition brk_result (nomem : Prop) (L : list region) (U : list (Z * Z)) (addr len ret : Z) (L' : list region) (U' : list (Z * Z)) : Prop :=
  let a := from_ addr in
  let b := to_ addr len in
  if USER_ACCESS a b then
    (ret = 0 /\ L' = grow a b (L ≫= cut a b) /\ U' = U ++ reverse (L ≫= taken a b)) \/
    (nomem /\ ret = - E_NO_MEM /\ (L' = L /\ U' = U \/ L' = L ≫= cut a b /\ U' = U ++ reverse (L ≫= taken a b)))
  else ret = - E_INVAL /\ L' = L /\ U' = U.

(** An address that may be used: the first page of a stack is not writable. *)
Definition usable (L : list region) (write : bool) (x : Z) : Prop :=
  exists r, r ∈ L /\ r_start r <= x < r_end r /\ Z.land (r_flags r) (if write then VM_WRITE else VM_READ) <> 0 /\
    (write = true -> Z.land (r_flags r) VM_STACK <> 0 -> r_start r + PGSIZE <= x).

Definition check_result (L : list region) (addr len : Z) (write r : bool) : Prop :=
  let b := uint64 (addr + len) in
  r = true <-> USER_ACCESS addr b = true /\ forall x, addr <= x < b -> usable L write x.

(** A free place for [len] bytes, or 0 if there is none. *)
Definition area_result (L : list region) (len z : Z) : Prop :=
  (z = 0 /\ (0 < len -> forall a, USERBASE <= a -> a + len <= USERTOP -> meets L a (a + len))) \/
  (0 < len /\ USERBASE <= z /\ z + len <= USERTOP /\ ~ meets L z (z + len)).

(** * Facts about them *)

Lemma put_between r L1 L2 : (forall x, x ∈ L1 -> r_start x <= r_start r) -> (forall x, x ∈ L2 -> r_start r < r_start x) -> put r (L1 ++ L2) = L1 ++ r :: L2.
Proof.
  intros H1 H2. induction L1 as [|x L1 IH]; cbn [app put].
  - destruct L2 as [|x L2]; [done|]. cbn [put]. rewrite (proj2 (Z.ltb_lt _ _)); [done|]. apply H2. left.
  - rewrite (proj2 (Z.ltb_ge _ _)) by (apply H1; left). f_equal. apply IH. intros y Hy. apply H1. by right.
Qed.

Lemma cut_out a b r : r_start r < r_end r -> a < b -> r_end r <= a \/ b <= r_start r -> cut a b r = [r] /\ taken a b r = [].
Proof.
  intros Hr Hab Ho. unfold cut, taken. destruct r as [s e f]. cbn [r_start r_end r_flags] in *. destruct Ho as [Ho|Ho].
  - rewrite (proj2 (Z.ltb_lt s a)), (proj2 (Z.ltb_ge b e)), (proj2 (Z.ltb_ge a e)), andb_false_r, Z.min_l by lia. done.
  - rewrite (proj2 (Z.ltb_ge s a)), (proj2 (Z.ltb_lt b e)), (proj2 (Z.ltb_ge s b)), Z.max_l by lia. done.
Qed.

Lemma cuts_out a b L : layout_ok L -> a < b -> (forall r, r ∈ L -> r_end r <= a \/ b <= r_start r) -> L ≫= cut a b = L /\ L ≫= taken a b = [].
Proof.
  intros [Hl _] Hab Ho. induction L as [|r L IH]; [done|]. apply Forall_cons in Hl as [Hr Hl]. destruct (cut_out a b r) as [Hc Ht]; [apply Hr|done|apply Ho; left|].
  destruct IH as [IH1 IH2]; [done|intros; apply Ho; by right|]. rewrite !bind_cons, Hc, Ht, IH1, IH2. done.
Qed.

(** Rounding. *)
Lemma ROUNDDOWN_aligned a : ROUNDDOWN a PGSIZE mod PGSIZE = 0.
Proof.
  unfold ROUNDDOWN, uint64, wrap, PGSIZE. rewrite Z.mod_mod_divide by (exists (2 ^ 52); lia). rewrite Zminus_mod, Zmod_mod, Z.sub_diag. done.
Qed.

Lemma ROUNDUP_aligned a : ROUNDUP a PGSIZE mod PGSIZE = 0.
Proof. apply ROUNDDOWN_aligned. Qed.

Lemma ROUNDDOWN_id a : 0 <= a < 2 ^ 64 -> a mod PGSIZE = 0 -> ROUNDDOWN a PGSIZE = a.
Proof. intros Ha Hm. unfold ROUNDDOWN. rewrite Hm, Z.sub_0_r. by apply uint64_small. Qed.

Lemma ROUNDUP_id a : 0 <= a < 2 ^ 63 -> a mod PGSIZE = 0 -> ROUNDUP a PGSIZE = a.
Proof.
  intros Ha Hm. unfold ROUNDUP, ROUNDDOWN, PGSIZE in *. rewrite (uint64_small (a + 4096)), (uint64_small (a + 4096 - 1)) by lia.
  assert (Hr : (a + 4096 - 1) mod 4096 = 4095). { rewrite <- Z.add_sub_assoc, Zplus_mod, Hm. done. }
  rewrite Hr, uint64_small by lia. lia.
Qed.

Lemma USER_ACCESS_true a b : USER_ACCESS a b = true <-> USERBASE <= a /\ a < b /\ b <= USERTOP.
Proof. unfold USER_ACCESS. rewrite !andb_true_iff, !Z.leb_le, Z.ltb_lt. tauto. Qed.

(** * mm_map *)

Section Ops.
Context (mm : Z) (alloc : kernel -> option Z) (Halloc : forall s a, alloc s = Some a -> rbs s !! a = None /\ vmas s !! a = None).
Abbreviation mm_ok := (mm_ok mm).
Abbreviation repr := (repr mm).

Lemma elem_reg V vs r : r ∈ regions V vs -> exists v, v ∈ vs /\ r_start r = start_of V v /\ r_end r = end_of V v.
Proof. intros (v & -> & Hv)%list_elem_of_fmap. exists v. by rewrite r_start_at, r_end_at. Qed.

Lemma insert_regions s v1 v v2 m : mm_ok s (v1 ++ v2) -> vmas s !! v = Some m -> v ∉ v1 ++ v2 -> layout_ok (regions (vmas s) v1 ++ reg_of m :: regions (vmas s) v2) ->
  returns (insert_vma_struct mm alloc v s) (fun s' => mm_ok s' (v1 ++ v :: v2) /\ regions (vmas s') v1 = regions (vmas s) v1 /\
    regions (vmas s') (v :: v2) = reg_of m :: regions (vmas s) v2 /\
    (forall w, w <> v -> vmas s' !! w = vmas s !! w) /\ (forall z, z ∉ VLink v :: MmapList :: (VLink <$> v1 ++ v2) -> lst s' !! z = lst s !! z) /\
      shms s' = shms s /\ unmapped s' = unmapped s).
Proof.
  intros H Hm Hv Hlay. go_mono (insert_vma_struct_spec mm alloc Halloc s v1 v v2 m H Hm Hv Hlay). intros s' (Hok & Hvm & Hl & Hsh & Hun). rewrite elem_of_app in Hv.
  split_and!; try done; rewrite Hvm.
  - apply regions_insert. tauto.
  - unfold regions. rewrite fmap_cons. f_equal; [unfold reg_at; by rewrite lookup_insert_eq|]. apply regions_insert. tauto.
  - intros w Hw. by rewrite lookup_insert_ne by congruence.
Qed.

(** A new region where there is none. *)
Lemma layout_put V v1 v2 r : layout_ok (regions V (v1 ++ v2)) -> region_ok r -> (forall w, w ∈ v1 -> end_of V w <= r_start r) -> (forall w, w ∈ v2 -> r_end r <= start_of V w) ->
  layout_ok (regions V v1 ++ r :: regions V v2) /\ put r (regions V (v1 ++ v2)) = regions V v1 ++ r :: regions V v2.
Proof.
  intros Hl Hr H1 H2. pose proof Hl as Hl'. rewrite regions_app, layout_app in Hl'. destruct Hl' as (Hl1 & Hl2 & H12). split.
  - apply layout_app. split; [done|]. rewrite layout_cons. split_and!; try done.
    + intros r' (w & Hw & Hs & He)%elem_reg. unfold before_. rewrite Hs. by apply H2.
    + intros x r' Hx [->|Hr']%elem_of_cons; [|by apply H12]. apply elem_reg in Hx as (w & Hw & Hs & He). unfold before_. rewrite He. by apply H1.
  - rewrite regions_app. destruct Hr as [Hlt _]. apply put_between.
    + intros x (w & Hw & -> & He)%elem_reg. specialize (H1 w Hw). pose proof (layout_lt V _ w Hl ltac:(rewrite elem_of_app; by left)). lia.
    + intros x (w & Hw & -> & He)%elem_reg. specialize (H2 w Hw). lia.
Qed.

(** Where the search from [a] ends, the regions before end below [a]. *)
Lemma found_split s vs a r : mm_ok s vs -> found (vmas s) a vs r -> exists v1 v2, vs = v1 ++ v2 /\ head v2 = r /\ (forall w, w ∈ v1 -> end_of (vmas s) w <= a) /\
  forall w, w ∈ v2 -> a < end_of (vmas s) w.
Proof.
  intros H. destruct r as [v|].
  - intros (v1 & v2 & -> & H1 & Hv). exists v1, (v :: v2). split_and!; try done. intros w [->|Hw]%elem_of_cons; [done|]. pose proof (ok_layout _ _ _ H) as Hl.
    assert (end_of (vmas s) v <= start_of (vmas s) w) by (apply (layout_order _ (v1 ++ [v]) v2); [by rewrite <- app_assoc|rewrite elem_of_app; right; left|done]).
    assert (start_of (vmas s) w < end_of (vmas s) w) by (eapply layout_lt; [exact Hl|apply elem_of_app; right; by right]). lia.
  - intros H1. exists vs, []. rewrite app_nil_r. split_and!; try done. by intros w Hw%elem_of_nil.
Qed.

(** The first region that is not below [a] starts at or above [b], or they meet. *)
Lemma meets_split s v1 v2 a b : mm_ok s (v1 ++ v2) -> a < b -> (forall w, w ∈ v1 -> end_of (vmas s) w <= a) -> (forall w, w ∈ v2 -> a < end_of (vmas s) w) ->
  (forall w, head v2 = Some w -> b <= start_of (vmas s) w) <-> ~ meets (regions (vmas s) (v1 ++ v2)) a b.
Proof.
  intros H Hab H1 H2. pose proof (ok_layout _ _ _ H) as Hl. split.
  - intros Hw (r & (w & Hin & Hs & He)%elem_reg & Hr1 & Hr2). rewrite Hs in Hr1. rewrite He in Hr2. apply elem_of_app in Hin as [Hin|Hin]; [specialize (H1 w Hin); lia|].
    destruct v2 as [|x v2]; [by apply elem_of_nil in Hin|]. specialize (Hw x eq_refl). apply elem_of_cons in Hin as [->|Hin]; [lia|].
    assert (end_of (vmas s) x <= start_of (vmas s) w) by (apply (layout_order _ (v1 ++ [x]) v2); [by rewrite <- app_assoc|rewrite elem_of_app; right; left|done]).
    assert (start_of (vmas s) x < end_of (vmas s) x) by (eapply layout_lt; [exact Hl|apply elem_of_app; right; left]). lia.
  - intros Hno w Hw. destruct v2 as [|x v2]; [done|]. injection Hw as ->. destruct (Z.le_gt_cases b (start_of (vmas s) w)); [done|]. destruct Hno. exists (reg_at (vmas s) w).
    rewrite r_start_at, r_end_at. split_and!; [apply elem_of_regions, elem_of_app; right; left|lia|apply H2; left].
Qed.

Lemma mm_map_spec s L addr len flags : repr s L ->
  returns (mm_map mm alloc addr len flags s) (fun '(ret, _, s') => exists L', repr s' L' /\ unmapped s' = unmapped s /\ map_result (exists s, alloc s = None) L addr len flags ret L').
Proof.
  intros (vs & H & -> & Ho). unfold mm_map, map_result. fold (from_ addr) (to_ addr len). set (a := from_ addr). set (b := to_ addr len). destruct (USER_ACCESS a b) eqn:Eu; cbn [negb].
  2: { apply returns_done. eexists. split; [by exists vs|]. done. }
  apply USER_ACCESS_true in Eu. eapply returns_bind; [by apply (find_vma_spec mm s vs a)|]. intros [r s1] (Hf & (c & ->) & H1). set (s1 := with_mm _ s) in *.
  destruct (found_split s vs a r H Hf) as (v1 & v2 & -> & Hhd & Hv1 & Hv2). pose proof (meets_split s v1 v2 a b H ltac:(lia) Hv1 Hv2) as Hmeets. cbn [mbind outcome_bind].
  eapply (returns_bind _ _ (fun o => (o = true -> meets (regions (vmas s) (v1 ++ v2)) a b) /\ (o = false -> forall w, w ∈ v2 -> b <= start_of (vmas s) w))).
  { rewrite <- Hhd. destruct v2 as [|v v2]; cbn [head]; [apply returns_done; split; [done|]; by intros _ w Hw%elem_of_nil|].
    destruct (ok_areas _ _ _ H v) as (m & Hm & _); [rewrite elem_of_app; right; left|].
    destruct (get_vma_eq s1 v m Hm) as (-> & Hs & He). change (vmas s1) with (vmas s) in Hs, He. cbn [mbind outcome_bind]. apply returns_done. split.
    - intros Hlt%Z.ltb_lt. exists (reg_at (vmas s) v). rewrite r_start_at, r_end_at. split_and!; [apply elem_of_regions, elem_of_app; right; left|lia|apply Hv2; left].
    - intros Hge%Z.ltb_ge w [->|Hw]%elem_of_cons; [lia|]. pose proof (ok_layout _ _ _ H) as Hl.
      assert (end_of (vmas s) v <= start_of (vmas s) w) by (apply (layout_order _ (v1 ++ [v]) v2); [by rewrite <- app_assoc|rewrite elem_of_app; right; left|done]).
      assert (start_of (vmas s) v < end_of (vmas s) v) by (eapply layout_lt; [exact Hl|apply elem_of_app; right; left]). lia. }
  intros o [Ho1 Ho2]. destruct o.
  { apply returns_done. eexists. split; [by exists (v1 ++ v2)|]. split; [done|]. left. by split; [apply Ho1|]. }
  specialize (Ho2 eq_refl). assert (Hno : ~ meets (regions (vmas s) (v1 ++ v2)) a b) by (apply Hmeets; intros w Hw; apply Ho2; destruct v2; [done|]; injection Hw as ->; left).
  cbv zeta. set (r0 := MkReg a b (Z.ldiff flags VM_SHARE)).
  assert (Hr0 : region_ok r0) by (split_and!; cbn [r_start r_end r_flags r0]; try lia;
    [apply ROUNDDOWN_aligned|apply ROUNDUP_aligned|apply Z.bits_inj'; intros i Hi; rewrite Z.land_spec, Z.ldiff_spec, Z.bits_0;
    by destruct (Z.testbit flags i), (Z.testbit VM_SHARE i)]).
  destruct (vma_create_spec mm alloc Halloc s1 (v1 ++ v2) a b (Z.ldiff flags VM_SHARE) H1) as [(Hnone & s2 & -> & H2 & Hvm & Hsh & Hun)|(v & s2 & -> & H2 & Hnv & Hvm & Hv & Hsh & Hun)].
  - apply returns_done. eexists. split; [exists (v1 ++ v2); by rewrite Hvm|]. split; [by rewrite Hun|]. change (vmas s1) with (vmas s). right. split; [done|].
    right. split_and!; try done. by exists s1.
  - change (vmas s1) with (vmas s) in Hvm. change (unmapped s1) with (unmapped s) in Hun.
    assert (Hreg : regions (vmas s2) v1 = regions (vmas s) v1 /\ regions (vmas s2) v2 = regions (vmas s) v2) by (rewrite elem_of_app in Hv; rewrite Hvm; split; apply regions_insert; tauto).
    destruct Hreg as [Hg1 Hg2]. destruct (layout_put (vmas s) v1 v2 r0) as [Hlay Hput]; [apply (ok_layout _ _ _ H)|done|done|done|].
    eapply returns_bind; [apply (insert_regions s2 v1 v v2 (MkVma 0 a b (Z.ldiff flags VM_SHARE) None 0) H2); [by rewrite Hvm, lookup_insert_eq|done|rewrite Hg1, Hg2; exact Hlay]|].
    intros s3 (H3 & Hr1 & Hr2 & Hvm3 & _ & _ & Hun3). apply returns_done. eexists.
    split; [exists (v1 ++ v :: v2); split_and!; try done; apply (owned_insert (vmas s)); [done|]; intros w Hw; rewrite Hvm3, Hvm by done;
      by rewrite lookup_insert_ne by congruence|]. split; [congruence|]. right. split; [done|]. left. split; [done|].
    rewrite regions_app, Hr1, Hr2, Hg1, Hg2, Hput. done.
Qed.

(** * find_vma *)

Definition find_result (L : list region) (addr : Z) (r : option region) : Prop := r = head (filter (fun x => addr < r_end x) L).

Lemma filter_above L1 L2 addr : (forall r, r ∈ L1 -> r_end r <= addr) -> (forall r, r ∈ L2 -> addr < r_end r) -> filter (fun x => addr < r_end x) (L1 ++ L2) = L2.
Proof.
  intros H1 H2. induction L1 as [|r L1 IH]; cbn [app].
  - induction L2 as [|r L2 IH]; [done|]. rewrite filter_cons_True by (apply H2; left). f_equal. apply IH. intros x Hx. apply H2. by right.
  - rewrite filter_cons_False by (specialize (H1 r ltac:(left)); lia). apply IH. intros x Hx. apply H1. by right.
Qed.

Lemma find_vma_result s L addr : repr s L -> returns (find_vma addr s) (fun '(r, s') => repr s' L /\ unmapped s' = unmapped s /\ find_result L addr (reg_at (vmas s') <$> r)).
Proof.
  intros (vs & H & -> & Ho). go_mono (find_vma_spec mm s vs addr H). intros [r s'] (Hf & (c & ->) & H'). split; [by exists vs|]. split; [done|].
  destruct (found_split s vs addr r H Hf) as (v1 & v2 & -> & <- & H1 & H2).
  unfold find_result. rewrite regions_app, filter_above; [by destruct v2| |]; intros x (w & Hw & _ & ->)%elem_reg; auto.
Qed.

(** * get_unmapped_area *)

Lemma get_unmapped_area_spec s L len : repr s L -> 0 <= len -> returns (get_unmapped_area len s) (area_result L len).
Proof.
  intros (vs & H & -> & Ho) Hlen. unfold get_unmapped_area. destruct (Z.eqb_spec len 0) as [->|Hne]; [apply returns_done; left; split; [done|lia]|].
  destruct (Z.ltb_spec USERTOP len) as [Hbig|Hsmall]; cbn [orb]; [apply returns_done; left; split; [done|]; intros _ a Ha; unfold USERBASE in Ha; lia|].
  set (V := vmas s). set (R := regions V vs). pose proof (ok_layout _ _ _ H) as Hlay. fold V in Hlay. fold R in Hlay.
  apply (loop_returns_le (fun n '(le, start) => exists v1 v2, vs = v1 ++ v2 /\ le = match head v2 with Some v => VLink v | None => MmapList end /\ n = length v1 /\ start + len <= USERTOP /\
    (forall w, w ∈ v2 -> start + len <= start_of V w) /\ (forall a, start < a -> a + len <= USERTOP -> meets R a (a + len))) _ _ _ (length vs)).
  2: { exists vs, []. rewrite app_nil_r. split_and!; try done; [lia|by intros w Hw%elem_of_nil|intros a Ha; lia]. }
  2: { pose proof (ok_fuel mm s vs H). lia. }
  intros n [le start] (v1 & v2 & Hvs & -> & -> & Htop & Hv2 & Hgap). pose proof (ok_ring _ _ _ H) as Hring. rewrite Hvs in Hring. rewrite (ok_prev s v1 v2 Hring). cbn [mbind outcome_bind].
  destruct v1 as [|v v1 _] using rev_ind; cbn [last].
  - rewrite decide_True by done. apply returns_done. destruct (Z.leb_spec USERBASE start) as [Hle|Hgt].
    + right. split_and!; try done; [lia|]. intros (r & (w & Hw & Hs & He)%elem_reg & H1 & H2). rewrite Hvs in Hw. specialize (Hv2 w Hw). lia.
    + left. split; [done|]. intros _ a Ha Hat. apply Hgap; lia.
  - rewrite last_snoc. rewrite decide_False by done. cbn [le2vma mbind outcome_bind]. assert (Hin : v ∈ vs) by (rewrite Hvs, !elem_of_app; left; right; left).
    destruct (ok_areas _ _ _ H v Hin) as (m & Hm & _).
    destruct (get_vma_eq s v m Hm) as (-> & Hs & He). fold V in Hs, He. cbn [mbind outcome_bind]. rewrite <- Hs, <- He. pose proof (layout_lt V vs v Hlay Hin) as Hlt.
    assert (Hreg : reg_at V v ∈ R) by by apply elem_of_regions.
    assert (Hmeet : forall a, a < end_of V v -> start_of V v < a + len -> meets R a (a + len)) by (intros a H1 H2; exists (reg_at V v); by rewrite r_start_at, r_end_at).
    assert (Hok : region_ok (reg_at V v)) by (destruct Hlay as [Hf _]; rewrite Forall_forall in Hf; by apply Hf). destruct Hok as (_ & _ & _ & Hub & _). rewrite r_start_at in Hub.
    destruct (Z.leb_spec (end_of V v) start) as [Hes|Hes].
    + apply returns_done. right. split_and!; try done; try lia. intros (r & (w & Hw & Hrs & Hre)%elem_reg & H1 & H2). rewrite Hvs, elem_of_app in Hw.
      destruct Hw as [Hw|Hw]; [|specialize (Hv2 w Hw); lia].
      apply elem_of_app in Hw as [Hw| ->%list_elem_of_singleton]; [|lia]. assert (end_of V w <= start_of V v); [|lia]. unfold R in Hlay.
      rewrite Hvs, <- app_assoc in Hlay. eapply layout_order; [exact Hlay|done|left].
    + destruct (Z.ltb_spec (start_of V v) (start + len)) as [Hov|Hov]; [destruct (Z.leb_spec (start_of V v) len) as [Hll|Hll]|]; apply returns_done.
      * left. split; [done|]. intros _ a Ha Hat. destruct (Z.lt_ge_cases start a); [by apply Hgap|]. apply Hmeet; [lia|]. unfold USERBASE in Ha. lia.
      * exists (length v1). split; [|rewrite length_app; cbn; lia]. exists v1, (v :: v2). rewrite Hvs, <- app_assoc. split_and!; try done; [lia| |].
        -- intros w [->|Hw]%elem_of_cons; [lia|]. specialize (Hv2 w Hw). lia.
        -- intros a Ha Hat. destruct (Z.lt_ge_cases start a); [by apply Hgap|]. apply Hmeet; lia.
      * exists (length v1). split; [|rewrite length_app; cbn; lia]. exists v1, (v :: v2). rewrite Hvs, <- app_assoc. split_and!; try done.
        intros w [->|Hw]%elem_of_cons; [lia|]. by apply Hv2.
Qed.

(** * user_mem_check *)

Lemma region_unique V vs v w x : layout_ok (regions V vs) -> v ∈ vs -> w ∈ vs -> start_of V v <= x < end_of V v -> start_of V w <= x < end_of V w -> v = w.
Proof.
  intros Hl Hv Hw Hx Hy. apply list_elem_of_split in Hv as (v1 & v2 & ->). apply elem_of_app in Hw as [Hw|[->|Hw]%elem_of_cons]; [|done|].
  - pose proof (layout_order V v1 (v :: v2) w v Hl Hw ltac:(left)). lia.
  - pose proof (layout_order V (v1 ++ [v]) v2 v w ltac:(by rewrite <- app_assoc) ltac:(rewrite elem_of_app; right; left) Hw). lia.
Qed.

Lemma has_flag_true m f : has_flag m f = true <-> Z.land (r_flags (reg_of m)) f <> 0.
Proof. unfold has_flag. cbn [reg_of r_flags]. rewrite negb_true_iff, Z.eqb_neq. done. Qed.

(** One area: usable or not from [start] on. *)
Lemma usable_in V vs v m write x : layout_ok (regions V vs) -> v ∈ vs -> V !! v = Some m -> vm_start m <= x < vm_end m ->
  usable (regions V vs) write x <-> has_flag m (if write then VM_WRITE else VM_READ) = true /\ (write && has_flag m VM_STACK && (x <? vm_start m + PGSIZE) = false).
Proof.
  intros Hl Hv Hm Hx. assert (Hreg : reg_at V v = reg_of m) by (unfold reg_at; by rewrite Hm).
  assert (Hse : start_of V v = vm_start m /\ end_of V v = vm_end m) by (unfold start_of, end_of; by rewrite Hm). destruct Hse as [Hs He].
  rewrite has_flag_true. split.
  - intros (r & (w & Er & Hw)%list_elem_of_fmap & Hxr & Hfl & Hst). subst r. rewrite r_start_at, r_end_at in Hxr.
    assert (v = w) as <- by (eapply region_unique; try done; lia). rewrite Hreg in *. split; [done|].
    destruct write; [|done]. cbn [andb]. destruct (has_flag m VM_STACK) eqn:E; [|done]. apply has_flag_true in E. cbn [andb]. apply Z.ltb_ge. apply Hst; done.
  - intros [Hfl Hst]. exists (reg_at V v). rewrite Hreg. split_and!; [rewrite <- Hreg; by apply elem_of_regions|cbn; lia|cbn; lia|done|].
    intros -> Hk%has_flag_true. rewrite Hk in Hst. cbn [andb] in Hst. by apply Z.ltb_ge in Hst.
Qed.

Lemma user_mem_check_spec s L addr len write : repr s L ->
  returns (user_mem_check addr len write s) (fun '(r, s') => repr s' L /\ unmapped s' = unmapped s /\ check_result L addr len write r).
Proof.
  intros (vs & H & -> & Ho). unfold user_mem_check, check_result. set (b := uint64 (addr + len)). destruct (USER_ACCESS addr b) eqn:Eu; cbn [negb].
  2: { apply returns_done. split; [by exists vs|]. split; [done|]. split; [done|]. by intros [? _]. }
  set (V := vmas s). pose proof (ok_layout _ _ _ H) as Hlay. fold V in Hlay.
  apply (loop_returns_le (fun n '(start, s') => addr <= start /\ mm_ok s' vs /\ vmas s' = V /\ unmapped s' = unmapped s /\
    (forall x, addr <= x < b -> x < start -> usable (regions V vs) write x) /\
    exists v1 v2, vs = v1 ++ v2 /\ n = length v2 /\ forall w, w ∈ v1 -> end_of V w <= start) _ _ _ (length vs)).
  2: { split_and!; try done; [intros; lia|]. exists [], vs. split_and!; try done. by intros w Hw%elem_of_nil. }
  2: { pose proof (ok_fuel mm s vs H). lia. }
  intros n [start s1] (Ha & H1 & Hvm & Hun & Hus & v1 & v2 & Hvs & -> & Hv1).
  assert (Hret : forall r s', mm_ok s' vs -> vmas s' = V -> unmapped s' = unmapped s -> (r = true <-> forall x, addr <= x < b -> usable (regions V vs) write x) ->
    repr s' (regions V vs) /\ unmapped s' = unmapped s /\
      (r = true <-> true = true /\ forall x, addr <= x < b -> usable (regions V vs) write x)) by (intros r s' Hr1 Hr2 Hr3 ->; split; [exists vs; by rewrite Hr2|];
      split; [done|]; tauto).
  destruct (Z.ltb_spec start b) as [Hlt|Hge].
  2: { apply returns_done. apply Hret; try done. split; [|done]. intros _ x Hx. apply Hus; lia. }
  eapply returns_bind; [by apply (find_vma_spec mm s1 vs start)|]. intros [r s2] (Hf & (c & ->) & H2). rewrite Hvm in Hf. set (s2 := with_mm _ s1) in *. assert (Hvm2 : vmas s2 = V) by done.
  assert (Hbad : ~ usable (regions V vs) write start -> false = true <-> forall x, addr <= x < b -> usable (regions V vs) write x) by (intros Hn; split; [done|];
    intros Hall; destruct Hn; apply Hall; lia).
  destruct r as [v|].
  - destruct Hf as (w1 & w2 & Hw & Hw1 & Hend). assert (Hin : v ∈ vs) by (rewrite Hw, elem_of_app; right; left). destruct (ok_areas _ _ _ H v Hin) as (m & Hm & _). fold V in Hm.
    rewrite <- Hvm2 in Hm. destruct (get_vma_eq s2 v m Hm) as (-> & Hs & He). rewrite Hvm2 in Hs, He, Hm. cbn [mbind outcome_bind]. rewrite He in Hend.
    destruct (Z.ltb_spec start (vm_start m)) as [Hgap|Hstart].
    { apply returns_done. apply Hret; try done. apply Hbad. intros (r & (w & Hw' & Hrs & Hre)%elem_reg & Hx & _).
      rewrite Hw in Hw'. apply elem_of_app in Hw' as [Hw'|[->|Hw']%elem_of_cons]; [specialize (Hw1 w Hw'); lia|lia|].
      pose proof (layout_order V (w1 ++ [v]) w2 v w ltac:(rewrite <- app_assoc; by rewrite Hw in Hlay) ltac:(rewrite elem_of_app; right; left) Hw').
      pose proof (layout_lt V vs v Hlay Hin). lia. }
    pose proof (usable_in V vs v m write) as Hui. destruct (has_flag m (if write then VM_WRITE else VM_READ)) eqn:Efl; cbn [negb].
    2: { apply returns_done. apply Hret; try done. apply Hbad. intros [? _]%(Hui start Hlay Hin Hm ltac:(lia)). done. }
    destruct (write && has_flag m VM_STACK && (start <? vm_start m + PGSIZE)) eqn:Est.
    { apply returns_done. apply Hret; try done. apply Hbad. intros [_ ?]%(Hui start Hlay Hin Hm ltac:(lia)). congruence. }
    apply returns_done. exists (length w2). split.
    + split_and!; try done; [lia| |].
      * intros x Hx Hxm. destruct (Z.lt_ge_cases x start); [by apply Hus|]. apply (Hui x Hlay Hin Hm ltac:(lia)). split; [done|].
        destruct (write && has_flag m VM_STACK); [|done]. cbn [andb] in *. apply Z.ltb_ge in Est. apply Z.ltb_ge. lia.
      * exists (w1 ++ [v]), w2. rewrite Hw, <- app_assoc. split_and!; try done. intros w [Hw'| ->%list_elem_of_singleton]%elem_of_app; [specialize (Hw1 w Hw'); lia|lia].
    + assert (Hle : (length v1 <= length w1)%nat); [|rewrite Hvs in Hw; apply (f_equal length) in Hw; rewrite !length_app in Hw; cbn [length] in Hw; lia].
      destruct (le_lt_dec (length v1) (length w1)) as [|Hlt']; [done|]. exfalso. assert (Hvv : v ∈ v1); [|specialize (Hv1 v Hvv); lia].
      rewrite Hvs in Hw. assert (v1 = w1 ++ v :: take (length v1 - length w1 - 1) w2) as ->; [|rewrite elem_of_app; right; left].
      apply (f_equal (take (length v1))) in Hw. rewrite take_app_length in Hw. rewrite Hw at 1. rewrite take_app_ge by lia. f_equal.
      destruct (length v1 - length w1)%nat as [|k] eqn:Ek; [lia|]. cbn [take]. do 2 f_equal. lia.
  - apply returns_done. apply Hret; try done. apply Hbad. intros (r & (w & Hw & Hrs & Hre)%elem_reg & Hx & _). specialize (Hf w Hw). lia.
Qed.
End Ops.
