(* ===== verification/VmmUnmap.v ===== *)
(** Virtual memory areas of the ucore kernel: mm_unmap takes exactly the given pages
    out of the address space. *)

From S2P Require Import Prelude CList.
From Stdlib Require Import Sorted.
From stdpp Require Import list gmap sorting.
From S2P Require Import RbTree RbInsert Vmm VmmState VmmInsert VmmOps.
#[local] Open Scope Z_scope.

Lemma returns_bind_assoc {A B C} (m : outcome A) (f : A -> outcome B) (g : B -> outcome C) Q : returns (y ← (x ← m; f x); g y) Q -> returns (x ← m; y ← f x; g y) Q.
Proof. by destruct m. Qed.

Section Unmap.
Context (mm : Z) (alloc : kernel -> option Z) (Halloc : forall s a, alloc s = Some a -> rbs s !! a = None /\ vmas s !! a = None).
Abbreviation mm_ok := (mm_ok mm).
Abbreviation repr := (repr mm).

(** * Changes that keep the invariant *)

Lemma mm_ok_vmas s vs f : mm_ok s vs -> (forall v, v ∈ vs -> exists m, f (vmas s) !! v = Some m /\ vm_mm m = mm) -> layout_ok (regions (f (vmas s)) vs) ->
  (forall w, is_Some (f (vmas s) !! w) -> is_Some (vmas s !! w)) -> mm_ok (with_vmas f s) vs.
Proof.
  intros [H1 H2 H3 H4 H5 H6 H7] Hf Hl Hd. split; cbn [vmas rbs lst mm_ with_vmas]; try done; [|auto].
  intros tr Htr. destruct (H4 tr Htr) as (Ht & Hn & Hr). split; [eapply tree_holds_any; [exact Ht|by apply layout_sorted]|].
  split; apply eq_None_not_Some; intros Hs%Hd; [rewrite Hn in Hs|rewrite Hr in Hs]; by destruct Hs.
Qed.

Lemma mm_ok_lst s vs l' : mm_ok s vs -> (forall z, z ∈ MmapList :: (VLink <$> vs) -> l' !! z = lst s !! z) ->
  (forall z, is_Some (lst s !! z) -> is_Some (l' !! z)) -> mm_ok (with_lst l' s) vs.
Proof.
  intros [H1 H2 [Hc Hn] H4 H5 H6 H7] Hl Hd. split; cbn [vmas rbs lst mm_ with_lst]; try done.
  - split; [|done]. refine (chain_agree _ _ _ _ _ _ _ Hc); intros z Hz; rewrite Hl; try done. apply elem_of_app in Hz. rewrite list_elem_of_singleton in Hz. rewrite elem_of_cons. tauto.
  - intros v Hv. destruct (H7 v Hv) as [Ha Hb]. split; [done|]. by apply Hd.
Qed.

Lemma mm_ok_unmapped s vs a b : mm_ok s vs -> mm_ok (unmap_range a b s) vs.
Proof. intros [H1 H2 H3 H4 H5 H6 H7]. by split. Qed.

Definition resized (m : vma_struct) (a b : Z) : vma_struct := MkVma (vm_mm m) a b (vm_flags m) (shmem m) (shmem_off m).

Lemma vma_resize_eq s v m a b : vmas s !! v = Some m -> has_flag m VM_SHARE = false -> a mod PGSIZE = 0 -> b mod PGSIZE = 0 -> vm_start m <= a -> a < b -> b <= vm_end m ->
  vma_resize v a b s = Done (with_vmas <[v := resized m a b]> s).
Proof.
  intros Hm Hsh Ha Hb H1 H2 H3. unfold vma_resize, get_vma, upd_vma, get_vma. rewrite assert_ok by done. cbn [mbind outcome_bind]. rewrite Hm. cbn [of_option mbind outcome_bind].
  rewrite assert_ok by done. cbn [mbind outcome_bind]. by rewrite Hsh.
Qed.

Lemma is_Some_insert (V : gmap Z vma_struct) v m w : is_Some (V !! v) -> is_Some (<[v := m]> V !! w) -> is_Some (V !! w).
Proof. intros Hv. destruct (decide (w = v)) as [->|Hne]; [done|]. by rewrite lookup_insert_ne by congruence. Qed.

Lemma private s vs v m : mm_ok s vs -> v ∈ vs -> vmas s !! v = Some m -> region_ok (reg_of m) /\ has_flag m VM_SHARE = false.
Proof.
  intros H Hv Hm. assert (Hr : reg_at (vmas s) v = reg_of m) by (unfold reg_at; by rewrite Hm). destruct (ok_layout _ _ _ H) as [Hf _]. rewrite Forall_forall in Hf.
  pose proof (Hf _ (elem_of_regions _ _ _ Hv)) as Hok.
  rewrite Hr in Hok. split; [done|]. destruct Hok as (_ & _ & _ & _ & _ & Hs). unfold has_flag. cbn [r_flags reg_of] in Hs. rewrite Hs. done.
Qed.

(** Freed structures. *)
Lemma tree_holds_delete V tr h vs v : tree_holds V tr h vs -> v ∉ root_ tr :: nil_ tr :: vs -> tree_holds V tr (delete v h) vs.
Proof.
  intros (t & ((Hroot & Hrep & Hgood & n & Hn & Hred) & Hrest) & Ht) Hv. rewrite !elem_of_cons in Hv. exists t. split; [|done]. split; [|done]. split_and!; [| |done|].
  - cbn [repc] in *. rewrite lookup_delete_ne; [done|]. intros ->. tauto.
  - eapply rep_agree; [|exact Hrep]. intros a Ha. rewrite lookup_delete_ne; [done|]. intros ->. rewrite Ht in Ha. tauto.
  - exists n. rewrite lookup_delete_ne; [done|]. intros ->. tauto.
Qed.

Lemma mm_ok_kfree s vs v : mm_ok s vs -> v ∉ vs -> is_Some (vmas s !! v) -> mm_ok (kfree_vma v s) vs.
Proof.
  intros [H1 H2 H3 H4 H5 H6 H7] Hv Hs. assert (Hreg : regions (delete v (vmas s)) vs = regions (vmas s) vs) by (apply regions_ext; intros w Hw;
    rewrite lookup_delete_ne; [done|]; by intros ->).
  split; cbn [vmas rbs lst mm_ kfree_vma with_vmas with_rbs with_lst]; try done.
  - intros w Hw. rewrite lookup_delete_ne; [by apply H1|]. by intros ->.
  - by rewrite Hreg.
  - destruct H3 as [Hc Hn]. split; [|done]. assert (Hvl : VLink v ∉ MmapList :: (VLink <$> vs)) by (rewrite elem_of_cons, vlink_in; by intros [?|?]).
    refine (chain_agree _ _ _ _ _ _ _ Hc); intros z Hz; rewrite lookup_delete_ne; try done; intros <-; [done|]. apply elem_of_app in Hz.
    rewrite list_elem_of_singleton in Hz. rewrite elem_of_cons in Hvl. tauto.
  - intros tr Htr. destruct (H4 tr Htr) as (Ht & Hn & Hr). assert (v <> nil_ tr /\ v <> root_ tr) as [Hvn Hvr] by (split; intros ->; destruct Hs; congruence).
    split; [|split; apply lookup_delete_None; by right]. apply (tree_holds_any (vmas s)); [|apply layout_sorted; by rewrite Hreg]. apply tree_holds_delete; [done|].
    rewrite !elem_of_cons. intros [?|[?|?]]; congruence || done.
  - intros w [m [Hne Hw]%lookup_delete_Some]. rewrite !lookup_delete_ne by congruence. apply H7. by eexists.
Qed.

(** * Layouts *)

Lemma cut_region a b r x : region_ok r -> a mod PGSIZE = 0 -> b mod PGSIZE = 0 -> x ∈ cut a b r -> region_ok x /\ r_start r <= r_start x /\ r_end x <= r_end r.
Proof.
  intros (H1 & H2 & H3 & H4 & H5 & H6) Ha Hb. unfold cut. rewrite elem_of_app.
  intros [Hx|Hx]; [destruct (Z.ltb_spec (r_start r) a)|destruct (Z.ltb_spec b (r_end r))]; try (by apply elem_of_nil in Hx);
    apply list_elem_of_singleton in Hx as ->; unfold region_ok; cbn [r_start r_end r_flags].
  - split_and!; try done; try lia. by destruct (Z.min_spec (r_end r) a) as [[_ ->]|[_ ->]].
  - split_and!; try done; try lia. by destruct (Z.max_spec (r_start r) b) as [[_ ->]|[_ ->]].
Qed.

Lemma layout_cut a b L1 r L2 : layout_ok (L1 ++ r :: L2) -> a < b -> a mod PGSIZE = 0 -> b mod PGSIZE = 0 -> layout_ok (L1 ++ cut a b r ++ L2).
Proof.
  rewrite layout_app, layout_cons. intros (H1 & (Hr & H2 & Hr2) & H12) Hab Ha Hb. rewrite !layout_app. unfold before_ in *. split_and!; try done.
  - split; [apply Forall_forall; intros x Hx; by apply (cut_region a b r x)|]. unfold cut.
    destruct (r_start r <? a), (b <? r_end r); cbn [app]; repeat constructor. unfold before_. cbn [r_start r_end]. lia.
  - intros x y Hx Hy. destruct (cut_region a b r x Hr Ha Hb Hx) as (_ & _ & ?). specialize (Hr2 y Hy). lia.
  - intros x y Hx [Hy|Hy]%elem_of_app; [|apply H12; [done|by right]]. destruct (cut_region a b r y Hr Ha Hb Hy) as (_ & ? & _). specialize (H12 x r Hx ltac:(left)). lia.
Qed.

Lemma layout_drop L1 U L2 : layout_ok (L1 ++ U ++ L2) -> layout_ok (L1 ++ L2).
Proof. rewrite !layout_app. intros (H1 & (_ & H2 & _) & H3). split_and!; try done. intros r r' Hr Hr'. apply H3; [done|]. rewrite elem_of_app. by right. Qed.

(** * The areas are collected *)

Lemma unmap_collect_spec s v1 v w b : mm_ok s (v1 ++ v :: w) -> ring (lst s) FreeList [] ->
  returns (unmap_collect mm v b s) (fun s' => exists d w2, v :: w = reverse d ++ w2 /\ mm_ok s' (v1 ++ w2) /\ ring (lst s') FreeList (VLink <$> d) /\
    vmas s' = vmas s /\ unmapped s' = unmapped s /\
    (forall x, x ∈ d -> start_of (vmas s) x < b) /\ (forall x, x ∈ w2 -> b <= start_of (vmas s) x)).
Proof.
  intros H HF. unfold unmap_collect. pose proof (ok_NoDup _ _ _ H) as Hnd. pose proof (ok_layout _ _ _ H) as Hlay. pose proof (ok_areas _ _ _ H) as Hareas.
  apply (loop_returns_le (fun n '(x, s') => exists d w2, v :: w = reverse d ++ x :: w2 /\ n = length w2 /\ mm_ok s' (v1 ++ x :: w2) /\
    ring (lst s') FreeList (VLink <$> d) /\ vmas s' = vmas s /\ unmapped s' = unmapped s /\
    (forall y, y ∈ d -> start_of (vmas s) y < b)) _ _ _ (length w)).
  2: { exists [], w. split_and!; try done. by intros y Hy%elem_of_nil. }
  2: { pose proof (ok_fuel mm s _ H) as Hf. rewrite length_app in Hf. cbn [length] in Hf. lia. }
  intros n [x s1] (d & w2 & Hw & -> & H1 & HF1 & Hvm & Hun & Hd). rewrite Hw in Hnd, Hlay, Hareas.
  destruct (Hareas x) as (m & Hm & _); [rewrite !elem_of_app; right; right; left|]. rewrite <- Hvm in Hm. destruct (get_vma_eq s1 x m Hm) as (-> & Hs & _).
  rewrite Hvm in Hs. cbn [mbind outcome_bind]. rewrite <- Hs.
  destruct (Z.ltb_spec (start_of (vmas s) x) b) as [Hlt|Hge].
  2: { apply returns_done. exists d, (x :: w2). split_and!; try done. intros y [->|Hy]%elem_of_cons; [done|].
       assert (end_of (vmas s) x <= start_of (vmas s) y) by (apply (layout_order _ (v1 ++ reverse d ++ [x]) w2); [by rewrite <- !app_assoc|rewrite !elem_of_app; right; right; left|done]).
       assert (start_of (vmas s) x < end_of (vmas s) x) by (eapply layout_lt; [exact Hlay|rewrite !elem_of_app; right; right; left]). lia. }
  pose proof (ok_ring _ _ _ H1) as Hring. pose proof (ok_next s1 (v1 ++ [x]) w2 ltac:(by rewrite <- app_assoc)) as Hnext. rewrite last_snoc in Hnext. rewrite Hnext. cbn [mbind outcome_bind].
  eapply returns_bind; [by apply (remove_vma_struct_spec mm s1 v1 x w2)|]. intros s2 (H2 & Hvm2 & Hfr & _ & Hun2).
  assert (Hx : (x ∉ v1 ++ w2) /\ (x ∉ d)) by (apply NoDup_app in Hnd as (_ & Hn1 & (_ & Hn2 & [Hn3 _]%NoDup_cons)%NoDup_app); rewrite elem_of_app; split;
    [intros [Hi|Hi]; [apply (Hn1 x Hi); rewrite elem_of_app; right; left|done]|];
    intros Hi; apply (Hn2 x); [by apply elem_of_reverse|left]). destruct Hx as [Hx1 Hx2].
  assert (Hdis : forall y, y ∈ d -> y ∉ v1 ++ w2) by (intros y Hy%elem_of_reverse; apply NoDup_app in Hnd as (_ & Hn1 & (_ & Hn2 & _)%NoDup_app);
    rewrite elem_of_app; intros [Hi|Hi]; [apply (Hn1 y Hi); rewrite elem_of_app; by left|apply (Hn2 y Hy); by right]).
  assert (HF2 : ring (lst s2) FreeList (VLink <$> d)). { eapply ring_frame; [exact Hfr| |exact HF1]. intros z [->|(y & -> & Hy)%list_elem_of_fmap]%elem_of_cons;
    rewrite elem_of_cons; [intros [?|(? & ? & _)%list_elem_of_fmap]; done|].
    rewrite vlink_in. intros [?|?]; [done|]. by apply (Hdis y). }
  assert (Hlx : is_Some (lst s2 !! VLink x)) by (apply (ok_links _ _ _ H2); rewrite Hvm2, Hm; by eexists).
  destruct (ring_add (lst s2) FreeList (VLink <$> d) (VLink x) HF2) as (l' & El & HF3 & Hfr3); [rewrite elem_of_cons, vlink_in; by intros [?|?]|done|].
  unfold on_list. rewrite El. cbn [mbind outcome_bind]. set (s3 := with_lst l' s2).
  assert (H3 : mm_ok s3 (v1 ++ w2)).
  { apply mm_ok_lst; [done| |intros z; by rewrite (frame_some _ _ _ z Hfr3)]. intros z Hz. destruct Hfr3 as [_ Hfr3]. apply Hfr3. rewrite !elem_of_cons.
  apply elem_of_cons in Hz as [->|(y & -> & Hy)%list_elem_of_fmap].
    - by intros [?|[?|(? & ? & _)%list_elem_of_fmap]].
    - rewrite vlink_in. intros [[= ->]|[?|?]]; [done|done|]. by apply (Hdis y). }
  assert (Hd' : forall y, y ∈ x :: d -> start_of (vmas s) y < b) by (intros y [->|Hy]%elem_of_cons; [done|by apply Hd]).
  destruct w2 as [|y w2]; cbn [head].
  - rewrite decide_True by done. apply returns_done. exists (x :: d), []. rewrite reverse_cons, app_nil_r.
    split_and!; try done; [exact (eq_trans Hvm2 Hvm)|exact (eq_trans Hun2 Hun)|by intros y Hy%elem_of_nil].
  - rewrite decide_False by done. cbn [le2vma mbind outcome_bind]. apply returns_done. exists (length w2). split; [|cbn; lia]. exists (x :: d), w2.
    rewrite reverse_cons, <- app_assoc. split_and!; try done; [exact (eq_trans Hvm2 Hvm)|exact (eq_trans Hun2 Hun)].
Qed.

(** * What remains of them goes back *)

Lemma vma_destroy_eq s v m : vmas s !! v = Some m -> has_flag m VM_SHARE = false -> vma_destroy v s = Done (kfree_vma v s).
Proof. intros Hm Hsh. unfold vma_destroy, get_vma. rewrite Hm. cbn [of_option mbind outcome_bind]. by rewrite Hsh. Qed.

(** An area that is not in the list is made smaller and goes back. *)
Lemma put_back s w1 v w2 m a b : mm_ok s (w1 ++ w2) -> vmas s !! v = Some m -> v ∉ w1 ++ w2 -> has_flag m VM_SHARE = false -> a mod PGSIZE = 0 -> b mod PGSIZE = 0 ->
  vm_start m <= a -> a < b -> b <= vm_end m -> layout_ok (regions (vmas s) w1 ++ MkReg a b (vm_flags m) :: regions (vmas s) w2) ->
  returns (s ← vma_resize v a b s; insert_vma_struct mm alloc v s) (fun s' => mm_ok s' (w1 ++ v :: w2) /\ regions (vmas s') (v :: w2) = MkReg a b (vm_flags m) :: regions (vmas s) w2 /\
    (forall w, w <> v -> vmas s' !! w = vmas s !! w) /\ (forall z, z ∉ VLink v :: MmapList :: (VLink <$> w1 ++ w2) -> lst s' !! z = lst s !! z) /\ unmapped s' = unmapped s).
Proof.
  intros H Hm Hv Hsh Ha Hb H1 H2 H3 Hlay. rewrite (vma_resize_eq s v m a b) by done. cbn [mbind outcome_bind]. set (s1 := with_vmas _ s).
  assert (Hreg : forall l, (forall x, x ∈ l -> x ∈ w1 ++ w2) -> regions (vmas s1) l = regions (vmas s) l) by (intros l Hl; apply regions_insert; intros Hx%Hl; done).
  assert (Hok : mm_ok s1 (w1 ++ w2)).
  { apply mm_ok_vmas; [done| |exact (eq_ind_r layout_ok (ok_layout _ _ _ H) (Hreg (w1 ++ w2) (fun _ h => h)))|intros w; apply is_Some_insert; by eexists].
    intros x Hx. rewrite lookup_insert_ne; [by apply (ok_areas _ _ _ H)|]. by intros ->. }
  assert (Hr1 : regions (vmas s1) w1 = regions (vmas s) w1 /\ regions (vmas s1) w2 = regions (vmas s) w2) by (split; apply Hreg; intros x Hx; rewrite elem_of_app;
    tauto). destruct Hr1 as [Hr1 Hr2].
  go_mono (insert_regions mm alloc Halloc s1 w1 v w2 (resized m a b) Hok ltac:(apply lookup_insert_eq) Hv ltac:(by rewrite Hr1, Hr2)).
  intros s2 (Hok2 & _ & Hg & Hvm & Hl & _ & Hun). split_and!; try done; [by rewrite Hg, Hr2|]. intros w Hw. rewrite Hvm by done. cbn [s1 vmas with_vmas].
  by rewrite lookup_insert_ne by congruence.
Qed.

(** How mm_unmap changes the state when it has dealt with the area [v]. *)
Definition went_back (s s' : kernel) (w1 w2 : list Z) (v : Z) (m : vma_struct) (a b : Z) : Prop :=
  exists x, (forall y, y ∈ x -> y = v) /\ (is_Some (vmas s' !! v) -> v ∈ x) /\
    mm_ok s' (w1 ++ x ++ w2) /\ regions (vmas s') (x ++ w2) = cut a b (reg_of m) ++ regions (vmas s) w2 /\ (forall w, w <> v -> vmas s' !! w = vmas s !! w) /\
    (forall z, z ∉ VLink v :: MmapList :: (VLink <$> w1 ++ w2) -> lst s' !! z = lst s !! z) /\ unmapped s' = unmapped s ++ taken a b (reg_of m).

Lemma unmap_one_spec s w1 v w2 m a b : mm_ok s (w1 ++ w2) -> vmas s !! v = Some m -> v ∉ w1 ++ w2 -> layout_ok (regions (vmas s) w1 ++ reg_of m :: regions (vmas s) w2) ->
  a < b -> a mod PGSIZE = 0 -> b mod PGSIZE = 0 -> vm_start m < b -> a < vm_end m -> a <= vm_start m \/ vm_end m <= b ->
  returns (unmap_one mm alloc v a b s) (fun s' => went_back s s' w1 w2 v m a b).
Proof.
  intros H Hm Hv Hlay Hab Ha Hb Hsb Hae Hone. pose proof (layout_cut a b _ _ _ Hlay Hab Ha Hb) as Hcut.
  assert (Hrok : region_ok (reg_of m)) by (apply layout_app in Hlay as (_ & [Hr _]%layout_cons & _); done). pose proof Hrok as (H1 & H2 & H3 & _ & _ & Hs0).
  cbn [reg_of r_start r_end r_flags] in *.
  assert (Hsh : has_flag m VM_SHARE = false) by (unfold has_flag; by rewrite Hs0).
  unfold unmap_one, went_back, get_vma. rewrite Hm. cbn [of_option mbind outcome_bind].
  unfold cut, taken in *. cbn [reg_of r_start r_end r_flags] in *. rewrite (proj2 (Z.ltb_lt (vm_start m) b)), (proj2 (Z.ltb_lt a (vm_end m))) by lia. cbn [andb].
  destruct (Z.ltb_spec (vm_start m) a) as [Hlt|Hge].
  - rewrite (proj2 (Z.ltb_ge b (vm_end m))), Z.min_r in * by lia. rewrite Z.max_r, Z.min_l by lia. cbn [app] in *. apply returns_bind_assoc.
    eapply returns_bind; [by apply (put_back s w1 v w2 m (vm_start m) a); try done; lia|]. intros s1 (Hok & Hreg & Hvm & Hl & Hun). apply returns_done. exists [v].
    split_and!; try done; [by intros y ->%list_elem_of_singleton|intros _; left|by apply mm_ok_unmapped|cbn; by rewrite Hun].
  - rewrite (Z.max_l (vm_start m) a) by lia. cbn [app] in *. destruct (Z.ltb_spec b (vm_end m)) as [Hlt|Hge2].
    + rewrite Z.max_r in * by lia. rewrite Z.min_r by lia. apply returns_bind_assoc.
      eapply returns_bind; [by apply (put_back s w1 v w2 m b (vm_end m)); try done; lia|]. intros s1 (Hok & Hreg & Hvm & Hl & Hun). apply returns_done. exists [v].
      split_and!; try done; [by intros y ->%list_elem_of_singleton|intros _; left|by apply mm_ok_unmapped|cbn; by rewrite Hun].
    + rewrite Z.min_l by lia. rewrite (vma_destroy_eq s v m) by done. cbn [mbind outcome_bind]. apply returns_done. exists []. cbn [app]. split_and!.
      * by intros y Hy%elem_of_nil.
      * cbn. rewrite lookup_delete_eq. by intros [? ?].
      * apply mm_ok_unmapped, mm_ok_kfree; [done|done|by eexists].
      * apply regions_ext. intros y Hy. cbn. rewrite lookup_delete_ne; [done|]. intros ->. apply Hv. rewrite elem_of_app. by right.
      * intros w Hw. cbn. by rewrite lookup_delete_ne by congruence.
      * intros z Hz. cbn. rewrite lookup_delete_ne; [done|]. intros <-. apply Hz. left.
      * done.
Qed.

(** The way through the rest of free_list, whose areas leave it one after the other. *)
Definition link_of (d : list Z) : vloc := match d with [] => FreeList | v :: _ => VLink v end.

Fixpoint npath (h : gmap vloc (list_entry vloc)) (d : list Z) : Prop := match d with [] => True | v :: d' => nxt h (VLink v) (link_of d') /\ npath h d' end.

Lemma npath_agree h h' d : (forall v, v ∈ d -> h' !! VLink v = h !! VLink v) -> npath h d -> npath h' d.
Proof.
  induction d as [|v d IH]; intros He; cbn [npath]; [done|]. intros [Hn Hp]. split; [unfold nxt; rewrite He; [done|left]|]. apply IH; [|done]. intros w Hw. apply He. by right.
Qed.

Lemma chain_npath h x d : chain h x (VLink <$> d) FreeList -> nxt h x (link_of d) /\ npath h d.
Proof.
  revert x. induction d as [|v d IH]; intros x; cbn [chain fmap list_fmap npath]; [tauto|]. intros (Hn & _ & Hc). split; [done|]. by apply IH.
Qed.

(** The areas of [d] are still to be dealt with, the last one first. *)
Definition rest_inv (s : kernel) (w1 d w2 : list Z) (a b : Z) : Prop :=
  npath (lst s) d /\ mm_ok s (w1 ++ w2) /\ NoDup d /\ (forall v, v ∈ d -> v ∉ w1 ++ w2) /\
  layout_ok (regions (vmas s) (w1 ++ reverse d ++ w2)) /\ owned (vmas s) (w1 ++ reverse d ++ w2) /\
  (forall v, v ∈ d -> exists m, vmas s !! v = Some m /\ vm_start m < b /\ a < vm_end m /\ (a <= vm_start m \/ vm_end m <= b)).

Lemma rest_step s w1 v d w2 a b : rest_inv s w1 (v :: d) w2 a b -> a < b -> a mod PGSIZE = 0 -> b mod PGSIZE = 0 ->
  returns (unmap_one mm alloc v a b s) (fun s' => exists x, rest_inv s' w1 d (x ++ w2) a b /\ regions (vmas s') w1 = regions (vmas s) w1 /\ regions (vmas s') d = regions (vmas s) d /\
    regions (vmas s') (x ++ w2) = cut a b (reg_at (vmas s) v) ++ regions (vmas s) w2 /\ unmapped s' = unmapped s ++ taken a b (reg_at (vmas s) v)).
Proof.
  intros (Hp & H & Hnd & Hdis & Hlay & Ho & Hm) Hab Ha Hb. destruct (Hm v ltac:(left)) as (m & Hv & H1 & H2 & H3).
  assert (Hreg : reg_at (vmas s) v = reg_of m) by (unfold reg_at; by rewrite Hv).
  apply NoDup_cons in Hnd as [Hvd Hnd]. pose proof (Hdis v ltac:(left)) as Hvw. rewrite reverse_cons, <- app_assoc, !regions_app in Hlay. cbn [app] in Hlay.
  unfold regions at 3 in Hlay. rewrite fmap_cons, Hreg in Hlay. fold (regions (vmas s) w2) in Hlay.
  go_mono (unmap_one_spec s w1 v w2 m a b H Hv Hvw (layout_drop _ _ _ Hlay) Hab Ha Hb H1 H2 H3). intros s' (x & Hx & Hvx & Hok & Hr & Hvm & Hl & Hun). exists x. rewrite Hreg.
  assert (Hr1 : regions (vmas s') w1 = regions (vmas s) w1) by (apply regions_ext; intros y Hy; apply Hvm; intros ->; apply Hvw; rewrite elem_of_app; by left).
  assert (Hrd : forall l, (forall y, y ∈ l -> y ∈ d) -> regions (vmas s') l = regions (vmas s) l) by (intros l Hld; apply regions_ext; intros y Hy%Hld; apply Hvm; by intros ->).
  split_and!; try done; [|by apply Hrd]. split_and!; try done.
  - apply (npath_agree (lst s)); [|apply Hp]. intros y Hy. apply Hl. rewrite !elem_of_cons, vlink_in. intros [[= ->]|[?|Hi]]; [done|done|]. apply (Hdis y); [by right|done].
  - intros y Hy. rewrite !elem_of_app. intros [Hi|[Hi|Hi]]; [|apply Hx in Hi as ->; done|]; apply (Hdis y); try (by right); rewrite elem_of_app; tauto.
  - rewrite regions_app, regions_app, Hr, Hr1, (Hrd (reverse d)) by (intros y; by rewrite elem_of_reverse). rewrite app_assoc in Hlay |- *. by apply layout_cut.
  - intros y Hy. destruct (decide (y = v)) as [->|Hne]; [apply Hvx in Hy; rewrite !elem_of_app; tauto|]. rewrite Hvm in Hy by done. apply Ho in Hy.
    rewrite reverse_cons, !elem_of_app, list_elem_of_singleton in Hy. rewrite !elem_of_app. tauto.
  - intros y Hy. destruct (Hm y ltac:(by right)) as (my & Hmy & Hrest). exists my. split; [|done]. rewrite Hvm; [done|]. by intros ->.
Qed.

Lemma unmap_rest_spec s w1 d w2 a b : ring (lst s) FreeList (VLink <$> d) -> rest_inv s w1 d w2 a b -> a < b -> a mod PGSIZE = 0 -> b mod PGSIZE = 0 ->
  returns (unmap_rest mm alloc a b s) (fun s' => exists ys, mm_ok s' (w1 ++ ys) /\ regions (vmas s') w1 = regions (vmas s) w1 /\
    regions (vmas s') ys = (reverse (regions (vmas s) d) ≫= cut a b) ++ regions (vmas s) w2 /\ unmapped s' = unmapped s ++ (regions (vmas s) d ≫= taken a b) /\ owned (vmas s') (w1 ++ ys)).
Proof.
  intros HF Hinv Hab Ha Hb. unfold unmap_rest. pose proof (ring_size _ _ _ HF) as Hsize. rewrite length_fmap in Hsize. destruct HF as [[Hn _]%chain_npath _].
  rewrite (list_next_eq _ _ _ Hn). cbn [mbind outcome_bind].
  apply (loop_returns_le (fun n '(le, s') => exists d1 w, le = link_of d1 /\ n = length d1 /\ rest_inv s' w1 d1 w a b /\ regions (vmas s') w1 = regions (vmas s) w1 /\
    (reverse (regions (vmas s') d1) ≫= cut a b) ++ regions (vmas s') w = (reverse (regions (vmas s) d) ≫= cut a b) ++ regions (vmas s) w2 /\
    unmapped s' ++ (regions (vmas s') d1 ≫= taken a b) = unmapped s ++ (regions (vmas s) d ≫= taken a b)) _ _ _ (length d)); [|by exists d, w2|unfold l_fuel; lia].
  intros n [le s1] (d1 & w & -> & -> & H1 & Hw1 & Hcut & Htak). destruct d1 as [|v d1]; cbn [link_of].
  - rewrite decide_False by tauto. apply returns_done. exists w. rewrite app_nil_r in Htak. by destruct H1 as (_ & ? & _ & _ & _ & ? & _).
  - rewrite decide_True by done. cbn [le2vma mbind outcome_bind]. pose proof H1 as ((Hnx & _) & _). rewrite (list_next_eq _ _ _ Hnx). cbn [mbind outcome_bind].
    eapply returns_bind; [by apply (rest_step s1 w1 v d1 w a b)|]. intros s2 (x & H2 & Hr1 & Hrd & Hrx & Hun). apply returns_done. exists (length d1).
    split; [|cbn; lia]. exists d1, (x ++ w).
    split_and!; try done; [by rewrite Hr1|rewrite <- Hcut, Hrx, Hrd|rewrite <- Htak, Hun, Hrd].
    + unfold regions at 3. rewrite fmap_cons, reverse_cons, bind_app, app_assoc. cbn [mbind list_bind]. by rewrite app_nil_r.
    + unfold regions at 2. rewrite fmap_cons, bind_cons, <- app_assoc. done.
Qed.

(** * mm_unmap *)

(** The areas below and above the range stay. *)
Lemma cuts_around V v1 M v2 a b : layout_ok (regions V v1) -> layout_ok (regions V v2) -> a < b -> (forall w, w ∈ v1 -> end_of V w <= a) -> (forall w, w ∈ v2 -> b <= start_of V w) ->
  ((regions V v1 ++ M ++ regions V v2) ≫= cut a b) = regions V v1 ++ (M ≫= cut a b) ++ regions V v2 /\ ((regions V v1 ++ M ++ regions V v2) ≫= taken a b) = M ≫= taken a b.
Proof.
  intros Hl1 Hl2 Hab H1 H2. destruct (cuts_out a b (regions V v1) Hl1 Hab) as [Hc1 Ht1]; [intros r (w & Hw & _ & ->)%elem_reg; left; by apply H1|].
  destruct (cuts_out a b (regions V v2) Hl2 Hab) as [Hc2 Ht2]; [intros r (w & Hw & -> & _)%elem_reg; right; by apply H2|]. rewrite !bind_app, Hc1, Hc2, Ht1, Ht2, app_nil_r. done.
Qed.

Lemma unmap_split_spec s v1 v v2 m a b : mm_ok s (v1 ++ v :: v2) -> owned (vmas s) (v1 ++ v :: v2) -> vmas s !! v = Some m -> a < b -> a mod PGSIZE = 0 ->
  b mod PGSIZE = 0 -> vm_start m < a -> b < vm_end m ->
  returns (unmap_split mm alloc v a b s) (fun '(ret, s') => (ret = 0 /\ unmapped s' = unmapped s ++ [(a, b)] /\ repr s' (regions (vmas s) v1 ++ cut a b (reg_of m) ++ regions (vmas s) v2)) \/
    (ret = - E_NO_MEM /\ (exists s, alloc s = None) /\ unmapped s' = unmapped s /\ repr s' (regions (vmas s) (v1 ++ v :: v2)))).
Proof.
  intros H Ho Hm Hab Ha Hb Hsa Hbe. assert (Hv : v ∈ v1 ++ v :: v2) by (rewrite elem_of_app; right; left). destruct (private s _ v m H Hv Hm) as [Hrok Hsh].
  destruct (ok_areas _ _ _ H v Hv) as (m' & Hm' & Hmm). rewrite Hm in Hm'. injection Hm' as <-.
  pose proof (ok_layout _ _ _ H) as Hlay. rewrite regions_app in Hlay. unfold regions at 2 in Hlay. rewrite fmap_cons in Hlay. fold (regions (vmas s) v2) in Hlay.
  unfold reg_at at 1 in Hlay. rewrite Hm in Hlay.
  apply (layout_cut a b) in Hlay; try done. unfold unmap_split, get_vma. rewrite Hm. cbn [of_option mbind outcome_bind].
  destruct (vma_create_spec mm alloc Halloc s _ (vm_start m) a (vm_flags m) H) as [(Hnone & s1 & -> & H1 & Hvm & _ & Hun)|(n & s1 & -> & H1 & Hnv & Hvm & Hn & _ & Hun)].
  { apply returns_done. right. split_and!; try done; [by exists s|]. exists (v1 ++ v :: v2). by rewrite Hvm. }
  assert (Hnv' : n <> v) by (intros ->; congruence). pose proof (ok_NoDup _ _ _ H) as (_ & Hd1 & [Hd2 _]%NoDup_cons)%NoDup_app.
  rewrite (vma_resize_eq s1 v m b (vm_end m)); [|rewrite Hvm; by rewrite lookup_insert_ne by congruence|done|done|apply Hrok|lia|lia|lia]. cbn [mbind outcome_bind].
  set (s2 := with_vmas _ s1).
  assert (Hvm2 : vmas s2 = <[v := resized m b (vm_end m)]> (<[n := MkVma 0 (vm_start m) a (vm_flags m) None 0]> (vmas s))) by (cbn [s2 vmas with_vmas]; by rewrite Hvm).
  rewrite elem_of_app, elem_of_cons in Hn. assert (Hr1 : regions (vmas s2) v1 = regions (vmas s) v1) by (rewrite Hvm2, !regions_insert; [done|tauto|intros Hi; apply (Hd1 v Hi); left]).
  assert (Hr2 : regions (vmas s2) (v :: v2) = MkReg b (vm_end m) (vm_flags m) :: regions (vmas s) v2) by (unfold regions; rewrite fmap_cons; f_equal;
    [unfold reg_at; by rewrite Hvm2, lookup_insert_eq|fold (regions (vmas s2) v2); rewrite Hvm2, !regions_insert by tauto; done]).
  unfold cut in *. cbn [reg_of r_start r_end r_flags] in *. rewrite (proj2 (Z.ltb_lt (vm_start m) a)), (proj2 (Z.ltb_lt b (vm_end m))), Z.min_r, Z.max_r in * by lia. cbn [app] in *.
  assert (H2 : mm_ok s2 (v1 ++ v :: v2)).
  { apply mm_ok_vmas; [done| | |intros w; apply is_Some_insert; rewrite Hvm, lookup_insert_ne, Hm by congruence; by eexists].
    - intros w Hw. destruct (decide (w = v)) as [->|Hne]; [rewrite lookup_insert_eq; by eexists|]. rewrite lookup_insert_ne by congruence. by apply (ok_areas _ _ _ H1).
    - change (layout_ok (regions (vmas s2) (v1 ++ v :: v2))). rewrite regions_app, Hr1, Hr2. apply (layout_drop _ [MkReg (vm_start m) a (vm_flags m)]). exact Hlay. }
  eapply returns_bind; [apply (insert_regions mm alloc Halloc s2 v1 n (v :: v2) (MkVma 0 (vm_start m) a (vm_flags m) None 0) H2)|].
  - rewrite Hvm2, lookup_insert_ne by congruence. apply lookup_insert_eq.
  - rewrite elem_of_app, elem_of_cons. tauto.
  - rewrite Hr1, Hr2. exact Hlay.
  - intros s3 (H3 & Hg1 & Hg2 & Hvm3 & _ & _ & Hun3). apply returns_done. left.
    split_and!; [done|cbn [unmap_range unmapped]; rewrite Hun3; cbn [s2 unmapped with_vmas]; by rewrite Hun|]. exists (v1 ++ n :: v :: v2).
    split; [by apply mm_ok_unmapped|].
    cbn [unmap_range vmas]. split; [rewrite regions_app, Hg1, Hg2, Hr1, Hr2; done|]. apply (owned_insert (<[v := resized m b (vm_end m)]> (vmas s))).
    + apply (owned_dom (vmas s)); [done|]. intros w. apply is_Some_insert. by eexists.
    + intros w Hw. cbn [unmap_range vmas]. rewrite Hvm3, Hvm2 by done. destruct (decide (w = v)) as [->|Hne]; [by rewrite !lookup_insert_eq|]. by rewrite !lookup_insert_ne by congruence.
Qed.

(** The other areas are collected, and what remains of them goes back. *)
Lemma unmap_across s v1 v w a b : mm_ok s (v1 ++ v :: w) -> owned (vmas s) (v1 ++ v :: w) -> a < b -> a mod PGSIZE = 0 -> b mod PGSIZE = 0 ->
  (forall x, x ∈ v1 -> end_of (vmas s) x <= a) -> (forall x, x ∈ v :: w -> a < end_of (vmas s) x) ->
  start_of (vmas s) v < b -> a <= start_of (vmas s) v \/ end_of (vmas s) v <= b ->
  returns (s ← on_list (fun h => list_init FreeList (<[FreeList := MkEntry FreeList FreeList]> h)) s; s ← unmap_collect mm v b s; s ← unmap_rest mm alloc a b s; Done (0, s))
    (fun '(ret, s') => ret = 0 /\ repr s' (regions (vmas s) (v1 ++ v :: w) ≫= cut a b) /\ unmapped s' = unmapped s ++ reverse (regions (vmas s) (v1 ++ v :: w) ≫= taken a b)).
Proof.
  intros H Ho Hab Ha Hb Hv1 Hv2 Hsb Hone. unfold on_list. destruct (ring_init (<[FreeList := MkEntry FreeList FreeList]> (lst s)) FreeList) as (l' & ->
    & HF & [Hdom Hfr]); [rewrite lookup_insert_eq; by eexists|]. cbn [mbind outcome_bind]. set (s1 := with_lst l' s).
  assert (H1 : mm_ok s1 (v1 ++ v :: w)). { apply mm_ok_lst; [done| |].
    - intros z Hz. assert (z <> FreeList) by (intros ->; apply elem_of_cons in Hz as [?|(? & ? & _)%list_elem_of_fmap]; done).
      rewrite Hfr, lookup_insert_ne; [done|congruence|by rewrite list_elem_of_singleton].
    - intros z Hz. apply elem_of_dom. rewrite Hdom. apply elem_of_dom. destruct (decide (z = FreeList)) as [->|Hne];
        [rewrite lookup_insert_eq; by eexists|by rewrite lookup_insert_ne by congruence]. }
  eapply returns_bind; [by apply (unmap_collect_spec s1 v1 v w b)|]. intros s2 (d & w2 & Hw & H2 & HF2 & Hvm & Hun & Hd & Hw2).
  change (vmas s1) with (vmas s) in *. change (unmapped s1) with (unmapped s) in Hun.
  pose proof (ok_layout _ _ _ H) as Hlay. pose proof (ok_NoDup _ _ _ H) as Hnd. pose proof (ok_areas _ _ _ H) as Hareas. rewrite Hw in Hnd, Hlay, Hareas, Hv2, Ho |- *.
  assert (Hinv : rest_inv s2 v1 d w2 a b).
  { apply NoDup_app in Hnd as (_ & Hn1 & (Hn2 & Hn3 & _)%NoDup_app). split_and!; try done;
      [by destruct HF2 as [[_ ?]%chain_npath _]|by rewrite <- (reverse_Permutation d)| |by rewrite Hvm|by rewrite Hvm|].
    - intros y Hy%elem_of_reverse. rewrite elem_of_app. intros [Hi|Hi]; [apply (Hn1 y Hi); rewrite elem_of_app; by left|by apply (Hn3 y Hy)].
    - intros y Hy. pose proof Hy as Hy'%elem_of_reverse. destruct (Hareas y) as (m & Hm & _); [rewrite !elem_of_app; tauto|]. exists m. rewrite Hvm.
      destruct (get_vma_eq s y m Hm) as (_ & <- & <-). split_and!; [done|by apply Hd|apply Hv2; rewrite elem_of_app; by left|].
      destruct (reverse d) as [|v' d'] eqn:Ed; [by apply elem_of_nil in Hy'|]. injection Hw as <- ->. apply elem_of_cons in Hy' as [->|Hy']; [done|]. left.
      pose proof (layout_order (vmas s) (v1 ++ [v]) (d' ++ w2) v y ltac:(by rewrite <- app_assoc) ltac:(rewrite elem_of_app; right; left) ltac:(rewrite elem_of_app; by left)).
      specialize (Hv2 v ltac:(left)). lia. }
  eapply returns_bind; [by apply (unmap_rest_spec s2 v1 d w2 a b)|]. intros s3 (ys & H3 & Hr1 & Hr2 & Hun3 & Ho3). apply returns_done. rewrite Hvm in Hr1, Hr2, Hun3. rewrite Hun in Hun3.
  rewrite !regions_app, !layout_app in Hlay. destruct Hlay as (Hl1 & (_ & Hl2 & _) & _).
  destruct (cuts_around (vmas s) v1 (regions (vmas s) (reverse d)) w2 a b Hl1 Hl2 Hab Hv1 Hw2) as [Hc Ht].
  rewrite !regions_app, Hc, Ht. assert (Hrev : regions (vmas s) (reverse d) = reverse (regions (vmas s) d)) by apply fmap_reverse. rewrite Hrev. split_and!; [done| |].
  - exists (v1 ++ ys). split; [done|]. split; [|done]. by rewrite regions_app, Hr1, Hr2.
  - rewrite Hun3. f_equal. clear. induction (regions (vmas s) d) as [|r R IH]; [done|]. rewrite bind_cons, reverse_cons, bind_app, reverse_app, <- IH. f_equal.
    rewrite bind_cons, app_nil_r. unfold taken. by destruct (_ && _).
Qed.

Lemma mm_unmap_spec s L addr len : repr s L ->
  returns (mm_unmap mm alloc addr len s) (fun '(ret, s') => exists L', repr s' L' /\ unmap_result (exists s, alloc s = None) L (unmapped s) addr len ret L' (unmapped s')).
Proof.
  intros (vs & H & -> & Ho). unfold mm_unmap, unmap_result. fold (from_ addr) (to_ addr len). set (a := from_ addr). set (b := to_ addr len). destruct (USER_ACCESS a b) eqn:Eu; cbn [negb].
  2: { apply returns_done. eexists. split; [by exists vs|]. done. }
  apply USER_ACCESS_true in Eu. assert (Hab : a < b) by lia. assert (Ha : a mod PGSIZE = 0) by apply ROUNDDOWN_aligned. assert (Hb : b mod PGSIZE = 0) by apply ROUNDUP_aligned.
  eapply returns_bind; [by apply (find_vma_spec mm s vs a)|]. intros [r s1] (Hf & (c & ->) & H1).
  set (s1 := with_mm _ s) in *. destruct (found_split mm s vs a r H Hf) as (v1 & v2 & -> & Hhd & Hv1 & Hv2). pose proof (ok_layout _ _ _ H) as Hlay.
  assert (Hout : (forall w, w ∈ v2 -> b <= start_of (vmas s) w) -> exists L', repr s1 L' /\
    ((0 = 0 /\ L' = regions (vmas s) (v1 ++ v2) ≫= cut a b /\ unmapped s1 = unmapped s ++ reverse (regions (vmas s) (v1 ++ v2) ≫= taken a b)) \/
      ((exists s, alloc s = None) /\ (exists r, r ∈ regions (vmas s) (v1 ++ v2) /\ r_start r < a /\ b < r_end r) /\ 0 = - E_NO_MEM /\
        L' = regions (vmas s) (v1 ++ v2) /\ unmapped s1 = unmapped s))).
  { intros Hge. destruct (cuts_out a b (regions (vmas s) (v1 ++ v2)) Hlay Hab) as [Hc Ht];
      [intros x (w & Hw & -> & ->)%elem_reg; apply elem_of_app in Hw as [Hw|Hw]; [left; by apply Hv1|right; by apply Hge]|].
    eexists. split; [by exists (v1 ++ v2)|]. left. rewrite Hc, Ht, app_nil_r. done. }
  destruct r as [v|]; [|apply returns_done, Hout; destruct v2; [by intros w Hw%elem_of_nil|done]]. destruct v2 as [|v' v2]; [done|]. injection Hhd as ->.
  destruct (ok_areas _ _ _ H v) as (m & Hm & _); [rewrite elem_of_app; right; left|]. destruct (get_vma_eq s1 v m Hm) as (-> & Hs & He).
  change (vmas s1) with (vmas s) in Hs, He. cbn [mbind outcome_bind].
  destruct (Z.leb_spec b (vm_start m)) as [Hge|Hlt].
  { apply returns_done, Hout. intros w [->|Hw]%elem_of_cons; [lia|]. pose proof
      (layout_order (vmas s) (v1 ++ [v]) v2 v w ltac:(by rewrite <- app_assoc) ltac:(rewrite elem_of_app; right; left) Hw).
    pose proof (layout_lt (vmas s) _ v Hlay ltac:(rewrite elem_of_app; right; left)). lia. }
  assert (Hreg : reg_at (vmas s) v = reg_of m) by (unfold reg_at; by rewrite Hm).
  destruct ((vm_start m <? a) && (b <? vm_end m)) eqn:Esplit.
  - apply andb_true_iff in Esplit as [Hsa%Z.ltb_lt Hbe%Z.ltb_lt]. go_mono (unmap_split_spec s1 v1 v v2 m a b H1 Ho Hm Hab Ha Hb Hsa Hbe).
    intros [ret s2] [(-> & Hun & Hrep)|(-> & Hno & Hun & Hrep)]; (eexists; split; [exact Hrep|]).
    + left. split; [done|]. change (vmas s1) with (vmas s) in *. assert (Hlay2 := Hlay). rewrite !regions_app, !layout_app in Hlay2. destruct Hlay2 as (Hl1 & (Hl2 & Hl3)%layout_cons & _).
      destruct (cuts_around (vmas s) v1 [reg_of m] v2 a b Hl1 (proj1 Hl3) Hab Hv1) as [Hc Ht].
      { intros w Hw. pose proof (layout_order (vmas s) (v1 ++ [v]) v2 v w ltac:(by rewrite <- app_assoc) ltac:(rewrite elem_of_app; right; left) Hw). lia. }
      assert (Hsp : regions (vmas s) (v1 ++ v :: v2) = regions (vmas s) v1 ++ [reg_of m] ++ regions (vmas s) v2) by (rewrite regions_app, <- Hreg; done).
      rewrite Hsp, Hc, Ht, !bind_cons, !app_nil_r. split; [done|]. rewrite Hun. unfold taken. cbn [reg_of r_start r_end].
      rewrite (proj2 (Z.ltb_lt (vm_start m) b)), (proj2 (Z.ltb_lt a (vm_end m))), Z.max_r, Z.min_r by lia. done.
    + right. split_and!; try done. exists (reg_of m). split; [|done]. rewrite <- Hreg. apply elem_of_regions. rewrite elem_of_app. right. left.
  - assert (Hone : a <= start_of (vmas s) v \/ end_of (vmas s) v <= b) by (apply andb_false_iff in Esplit as [?%Z.ltb_ge|?%Z.ltb_ge]; lia).
    go_mono (unmap_across s1 v1 v v2 a b H1 Ho Hab Ha Hb Hv1 Hv2 ltac:(cbn [s1 vmas with_mm]; lia) Hone).
    intros [ret s2] (-> & Hrep & Hun). eexists. split; [exact Hrep|]. left. done.
Qed.
End Unmap.
