(* ===== verification/VmmBrk.v ===== *)
(** Virtual memory areas of the ucore kernel: mm_brk makes the pages of the heap
    readable and writable, and new. *)

From S2P Require Import Prelude CList.
From Stdlib Require Import Sorted.
From stdpp Require Import list gmap sorting.
From S2P Require Import RbTree RbInsert Vmm VmmState VmmInsert VmmOps VmmUnmap.
#[local] Open Scope Z_scope.

Section Brk.
Context (mm : Z) (alloc : kernel -> option Z) (Halloc : forall s a, alloc s = Some a -> rbs s !! a = None /\ vmas s !! a = None).
Abbreviation mm_ok := (mm_ok mm).
Abbreviation repr := (repr mm).

Definition clear_of (a b : Z) (L : list region) : Prop := forall r, r ∈ L -> r_end r <= a \/ b <= r_start r.

Lemma cut_clear a b L : a < b -> clear_of a b (L ≫= cut a b).
Proof.
  intros Hab r (x & Hr & Hx)%list_elem_of_bind. unfold cut in Hr. apply elem_of_app in Hr as [Hr|Hr]; [destruct (r_start x <? a)|destruct (b <? r_end x)];
    try (by apply elem_of_nil in Hr); apply list_elem_of_singleton in Hr as ->; cbn [r_start r_end]; lia.
Qed.

Lemma clear_at V vs a b w : clear_of a b (regions V vs) -> w ∈ vs -> end_of V w <= a \/ b <= start_of V w.
Proof. intros Hc Hw. specialize (Hc _ (elem_of_regions V vs w Hw)). by rewrite r_start_at, r_end_at in Hc. Qed.

(** The heap grows. *)
Lemma grow_yes V v1 v v2 m a b : layout_ok (regions V (v1 ++ v :: v2)) -> clear_of a b (regions V (v1 ++ v :: v2)) -> V !! v = Some m -> vm_end m = a -> vm_flags m = heap_flags -> a < b ->
  (forall w, w ∈ v1 -> end_of V w <= a - 1) -> grow a b (regions V (v1 ++ v :: v2)) = regions V v1 ++ MkReg (vm_start m) b (vm_flags m) :: regions V v2.
Proof.
  intros Hl Hc Hm He Hf Hab Hv1. assert (Hreg : reg_at V v = reg_of m) by (unfold reg_at; by rewrite Hm).
  assert (Hv : heap_below a (reg_at V v) = true) by (rewrite Hreg; unfold heap_below; cbn [reg_of r_end r_flags]; by rewrite He, Hf, !Z.eqb_refl).
  unfold grow. rewrite (proj2 (existsb_exists _ _)); [|exists (reg_at V v); split; [apply list_elem_of_In, elem_of_regions; rewrite elem_of_app; right; left|done]].
  assert (Hno : forall l, (forall w, w ∈ l -> end_of V w <> a) -> map (fun r => if heap_below a r then MkReg (r_start r) b (r_flags r) else r) (regions V l) = regions V l).
  { clear. induction l as [|w l IH]; intros Hw; [done|]. unfold regions. rewrite fmap_cons. cbn [map]. fold (regions V l). rewrite IH by (intros x Hx; apply Hw; by right). f_equal.
    unfold heap_below. rewrite r_end_at, (proj2 (Z.eqb_neq _ _)); [done|]. apply Hw. left. }
  rewrite regions_app, map_app, Hno by (intros w Hw; specialize (Hv1 w Hw); lia). f_equal. unfold regions. rewrite fmap_cons. cbn [map]. rewrite Hv.
  fold (regions V v2). rewrite Hno, Hreg; [done|].
  intros w Hw. pose proof (layout_order V (v1 ++ [v]) v2 v w ltac:(by rewrite <- app_assoc) ltac:(rewrite elem_of_app; right; left) Hw) as Ho. unfold end_of in Ho at 1. rewrite Hm in Ho.
  pose proof (layout_lt V _ w Hl ltac:(rewrite elem_of_app; right; by right)). lia.
Qed.

Lemma grow_layout V v1 v v2 m a b : layout_ok (regions V (v1 ++ v :: v2)) -> clear_of a b (regions V (v1 ++ v :: v2)) -> V !! v = Some m -> vm_end m = a ->
  a < b -> b mod PGSIZE = 0 -> b <= USERTOP ->
  layout_ok (regions V v1 ++ MkReg (vm_start m) b (vm_flags m) :: regions V v2).
Proof.
  intros Hl Hc Hm He Hab Hb Hbt. assert (Hreg : reg_at V v = reg_of m) by (unfold reg_at; by rewrite Hm).
  pose proof Hl as Hl'. rewrite regions_app, layout_app in Hl'. destruct Hl' as (Hl1 & Hl2 & H12). unfold regions in Hl2, H12. rewrite fmap_cons, Hreg in Hl2, H12.
  apply layout_cons in Hl2 as (Hr & Hl2 & Hr2). rewrite layout_app, layout_cons.
  unfold region_ok, before_ in *. cbn [reg_of r_start r_end r_flags] in *. split_and!; try done; try lia; try tauto.
  - intros r' (w & Hw & Hs & _)%elem_reg. rewrite Hs. destruct (clear_at V _ a b w Hc ltac:(rewrite elem_of_app; right; by right)) as [Hle|Hge]; [|done]. exfalso.
    pose proof (layout_order V (v1 ++ [v]) v2 v w ltac:(by rewrite <- app_assoc) ltac:(rewrite elem_of_app; right; left) Hw) as Ho. unfold end_of in Ho at 1. rewrite Hm in Ho.
    pose proof (layout_lt V _ w Hl ltac:(rewrite elem_of_app; right; by right)). lia.
  - intros r r' Hr1 [->|Hr']%elem_of_cons; [apply (H12 r (reg_of m) Hr1); left|]. apply H12; [done|by right].
Qed.

(** There is no heap to grow: where the new region goes. *)
Lemma grow_no s v1 v2 a b : mm_ok s (v1 ++ v2) -> clear_of a b (regions (vmas s) (v1 ++ v2)) -> a < b -> (forall w, w ∈ v1 -> end_of (vmas s) w <= a - 1) ->
  (forall w, w ∈ v2 -> a - 1 < end_of (vmas s) w) ->
  (forall v m, head v2 = Some v -> vmas s !! v = Some m -> (vm_end m =? a) && (vm_flags m =? heap_flags) = false) ->
  existsb (heap_below a) (regions (vmas s) (v1 ++ v2)) = false /\
  exists w1 w2, v1 ++ v2 = w1 ++ w2 /\ (forall w, w ∈ w1 -> end_of (vmas s) w <= a) /\ (forall w, w ∈ w2 -> b <= start_of (vmas s) w).
Proof.
  intros H Hc Hab Hv1 Hv2 Hhd. pose proof (ok_layout _ _ _ H) as Hl. assert (Hend : forall v w v2', v2 = v :: v2' -> w ∈ v2' -> a < end_of (vmas s) w).
  { intros v w v2' -> Hw. pose proof (layout_order (vmas s) (v1 ++ [v]) v2' v w ltac:(by rewrite <- app_assoc) ltac:(rewrite elem_of_app; right; left) Hw).
    pose proof (layout_lt (vmas s) _ w Hl ltac:(rewrite elem_of_app; right; by right)).
    specialize (Hv2 v ltac:(left)). lia. }
  split.
  - apply not_true_iff_false. rewrite existsb_exists. intros (r & (w & -> & Hw)%list_elem_of_In%list_elem_of_fmap & Hb). destruct (ok_areas _ _ _ H w Hw) as (m & Hm & _).
    destruct (get_vma_eq s w m Hm) as (_ & _ & He). unfold heap_below, reg_at in Hb. rewrite Hm in Hb. cbn [reg_of r_end r_flags] in Hb. pose proof Hb as [Hb1%Z.eqb_eq _]%andb_true_iff.
    apply elem_of_app in Hw as [Hw|Hw]; [specialize (Hv1 w Hw); lia|]. destruct v2 as [|v v2]; [by apply elem_of_nil in Hw|].
    apply elem_of_cons in Hw as [->|Hw]; [by rewrite (Hhd v m eq_refl Hm) in Hb|]. specialize (Hend v w v2 eq_refl Hw). lia.
  - destruct v2 as [|v v2]; [exists v1, []; split_and!; [done|intros w Hw; specialize (Hv1 w Hw); lia|by intros w Hw%elem_of_nil]|].
    assert (Hrest : forall w, w ∈ v2 -> b <= start_of (vmas s) w) by (intros w Hw;
      destruct (clear_at (vmas s) _ a b w Hc ltac:(rewrite elem_of_app; right; by right)); [specialize (Hend v w v2 eq_refl Hw); lia|done]).
    destruct (clear_at (vmas s) _ a b v Hc ltac:(rewrite elem_of_app; right; left)) as [Hle|Hge].
    + exists (v1 ++ [v]), v2. rewrite <- app_assoc. split_and!; try done. intros w [Hw| ->%list_elem_of_singleton]%elem_of_app; [specialize (Hv1 w Hw); lia|done].
    + exists v1, (v :: v2). split_and!; try done; [intros w Hw; specialize (Hv1 w Hw); lia|]. by intros w [->|Hw]%elem_of_cons; [|apply Hrest].
Qed.

(** mm_brk after mm_unmap. *)
Lemma brk_place s vs a b : mm_ok s vs -> owned (vmas s) vs -> clear_of a b (regions (vmas s) vs) -> a < b -> a mod PGSIZE = 0 -> b mod PGSIZE = 0 -> USERBASE <= a -> b <= USERTOP ->
  returns ('(r, s) ← find_vma (a - 1) s;
      grow ← match r with
             | Some v => vma ← get_vma v s; Done ((vm_end vma =? a) && (vm_flags vma =? heap_flags))
             | None => Done false
             end;
      if grow : bool then
        v ← of_option r;
        s ← upd_vma (fun vma => MkVma (vm_mm vma) (vm_start vma) b (vm_flags vma) (shmem vma) (shmem_off vma)) v s;
        Done (0, s)
      else
        match vma_create alloc a b heap_flags s with
        | (Some v, s) => s ← insert_vma_struct mm alloc v s; Done (0, s)
        | (None, s) => Done (- E_NO_MEM, s)
        end)
    (fun '(ret, s') => unmapped s' = unmapped s /\ (ret = 0 /\ repr s' (grow a b (regions (vmas s) vs)) \/ ret = - E_NO_MEM /\ (exists s, alloc s = None) /\ repr s' (regions (vmas s) vs))).
Proof.
  intros H Ho Hc Hab Ha Hb Hua Hub. eapply returns_bind; [by apply (find_vma_spec mm s vs (a - 1))|]. intros [r s1] (Hf & (c & ->) & H1).
  set (s1 := with_mm _ s) in *. destruct (found_split mm s vs (a - 1) r H Hf) as (v1 & v2 & -> & Hhd & Hv1 & Hv2).
  pose proof (ok_layout _ _ _ H) as Hl.
  eapply (returns_bind _ _ (fun g => if g : bool then exists v m v2', v2 = v :: v2' /\ r = Some v /\ vmas s !! v = Some m /\ vm_mm m = mm /\ vm_end m = a /\ vm_flags m = heap_flags else
    forall v m, head v2 = Some v -> vmas s !! v = Some m -> (vm_end m =? a) && (vm_flags m =? heap_flags) = false)).
  { destruct r as [v|]; [|apply returns_done; by rewrite Hhd]. destruct v2 as [|v' v2]; [done|].
    injection Hhd as ->. destruct (ok_areas _ _ _ H v) as (m & Hm & Hmm); [rewrite elem_of_app; right; left|].
    unfold get_vma. change (vmas s1) with (vmas s). rewrite Hm. cbn [of_option mbind outcome_bind]. apply returns_done. destruct (_ && _) eqn:E.
    - apply andb_true_iff in E as [E1%Z.eqb_eq E2%Z.eqb_eq]. by exists v, m, v2.
    - intros v0 m0 [= <-] Hm0. congruence. }
  intros [] Hg.
  - destruct Hg as (v & m & v2' & -> & -> & Hm & Hmm & He & Hfl). cbn [of_option mbind outcome_bind]. unfold upd_vma, get_vma. change (vmas s1) with (vmas s).
    rewrite Hm. cbn [of_option mbind outcome_bind]. apply returns_done. split; [done|]. left. split; [done|].
    pose proof (ok_NoDup _ _ _ H) as (_ & Hd1 & [Hd2 _]%NoDup_cons)%NoDup_app. set (V' := <[v := MkVma (vm_mm m) (vm_start m) b (vm_flags m) (shmem m) (shmem_off m)]> (vmas s)).
    assert (Hreg : regions V' (v1 ++ v :: v2') = regions (vmas s) v1 ++ MkReg (vm_start m) b (vm_flags m) :: regions (vmas s) v2').
    { unfold V'. rewrite regions_app, regions_insert by (intros Hi; apply (Hd1 v Hi); left). f_equal. unfold regions. rewrite fmap_cons.
      f_equal; [unfold reg_at; by rewrite lookup_insert_eq|]. by apply regions_insert. }
    exists (v1 ++ v :: v2'). split;
      [|split; [rewrite (grow_yes _ _ _ _ m) by done; symmetry; exact Hreg|apply (owned_dom (vmas s)); [done|]; intros w; apply is_Some_insert; by eexists]].
    apply mm_ok_vmas; [done| | |].
    + intros w Hw. change (vmas s1) with (vmas s). destruct (decide (w = v)) as [->|Hne]; [rewrite lookup_insert_eq; by eexists|].
      rewrite lookup_insert_ne by congruence. by apply (ok_areas _ _ _ H).
    + change (layout_ok (regions V' (v1 ++ v :: v2'))). rewrite Hreg. by apply (grow_layout _ _ v _ m a).
    + intros w. apply is_Some_insert. change (vmas s1) with (vmas s). rewrite Hm. by eexists.
  - destruct (grow_no s v1 v2 a b H Hc Hab Hv1 Hv2 Hg) as (Hex & w1 & w2 & Hw & Hw1 & Hw2). rewrite Hw in *. clear Hg.
    destruct (vma_create_spec mm alloc Halloc s1 _ a b heap_flags H1) as [(Hnone & s2 & -> & H2 & Hvm & _ & Hun)|(n & s2 & -> & H2 & Hnv & Hvm & Hn & _ & Hun)].
    { apply returns_done. split; [done|]. right. split_and!; [done|by exists s1|]. exists (w1 ++ w2). split; [done|]. by rewrite Hvm. }
    change (vmas s1) with (vmas s) in *. assert (Hg12 : regions (vmas s2) w1 = regions (vmas s) w1 /\
      regions (vmas s2) w2 = regions (vmas s) w2) by (rewrite elem_of_app in Hn; rewrite Hvm; split; apply regions_insert; tauto).
    destruct Hg12 as [Hg1 Hg2]. destruct (layout_put (vmas s) w1 w2 (MkReg a b heap_flags)) as [Hlay Hput]; [done|by split_and!|done|done|].
    eapply returns_bind; [apply (insert_regions mm alloc Halloc s2 w1 n w2 (MkVma 0 a b heap_flags None 0) H2); [by rewrite Hvm, lookup_insert_eq|done|rewrite Hg1, Hg2; exact Hlay]|].
    intros s3 (H3 & Hr1 & Hr2 & Hvm3 & _ & _ & Hun3). apply returns_done. split; [by rewrite Hun3, Hun|]. left. split; [done|]. exists (w1 ++ n :: w2). split; [done|]. split.
    + unfold grow. rewrite Hex, Hput, regions_app, Hr1, Hr2, Hg1, Hg2. done.
    + apply (owned_insert (vmas s)); [done|]. intros w Hw'. rewrite Hvm3, Hvm by done. by rewrite lookup_insert_ne by congruence.
Qed.

Lemma mm_brk_spec s L addr len : repr s L ->
  returns (mm_brk mm alloc addr len s) (fun '(ret, s') => exists L', repr s' L' /\ brk_result (exists s, alloc s = None) L (unmapped s) addr len ret L' (unmapped s')).
Proof.
  intros HL. unfold mm_brk, brk_result. fold (from_ addr) (to_ addr len). set (a := from_ addr). set (b := to_ addr len). destruct (USER_ACCESS a b) eqn:Eu; cbn [negb].
  2: { apply returns_done. by eexists. }
  pose proof Eu as (Hua & Hab & Hub)%USER_ACCESS_true. assert (Ha : a mod PGSIZE = 0) by apply ROUNDDOWN_aligned. assert (Hb : b mod PGSIZE = 0) by apply ROUNDUP_aligned.
  assert (Hfrom : from_ a = a) by (apply ROUNDDOWN_id; [unfold USERBASE, USERTOP in *; lia|done]).
  assert (Hto : to_ a (b - a) = b) by (unfold to_; rewrite Z.add_sub_assoc, Z.add_simpl_l, uint64_small by (unfold USERBASE, USERTOP in *; lia); apply ROUNDUP_id;
    [unfold USERBASE, USERTOP in *; lia|done]).
  eapply returns_bind; [by apply (mm_unmap_spec mm alloc Halloc s L a (b - a))|]. intros [ret s1] (L1 & H1 & Hres). unfold unmap_result in Hres. rewrite Hfrom, Hto, Eu in Hres.
  destruct Hres as [(-> & -> & Hun)|(Hno & _ & -> & -> & Hun)]; cbn [Z.eqb negb].
  2: { apply returns_done. exists L. split; [done|]. right. split_and!; try done. by left. }
  destruct H1 as (vs & H1 & HL1 & Ho1). pose proof (cut_clear a b L Hab) as Hc. rewrite HL1 in Hc |- *. go_mono (brk_place s1 vs a b H1 Ho1 Hc Hab Ha Hb Hua Hub). rewrite Hun.
  intros [ret s2] (Hun2 & [(-> & Hrep)|(-> & Hno & Hrep)]); (eexists; split; [exact Hrep|]); rewrite Hun2; [by left|]. right. split_and!; try done. by right.
Qed.
End Brk.
