(* ===== verification/VmmSpec.v ===== *)
(** Virtual memory areas of the ucore kernel: what an address space promises.

    An address space is a list of regions in order.  The specification does not mention
    areas, lists, trees or the cache.  Two executions show what is outside of it: a range
    that wraps around, and an area of shared memory that is split. *)

From S2P Require Import Prelude CList.
From Stdlib Require Import Sorted.
From stdpp Require Import list gmap sorting.
From S2P Require Import RbTree RbInsert Vmm VmmState VmmInsert VmmOps VmmUnmap VmmBrk.
#[local] Open Scope Z_scope.

(** * Operations and their specification *)

Inductive vop := Map (addr len flags : Z) | Unmap (addr len : Z) | Brk (addr len : Z) | Find (addr : Z) | Area (len : Z) | CheckMem (addr len : Z) (write : bool).
Inductive vresult := RRet (ret : Z) | RFind (r : option region) | RArea (start : Z) | RCheck (b : bool).

Section Spec.
Context (mm : Z) (alloc : kernel -> option Z).

Definition exec_vop (o : vop) (s : kernel) : outcome (vresult * kernel) :=
  match o with
  | Map addr len flags => '(ret, _, s) ← mm_map mm alloc addr len flags s; Done (RRet ret, s)
  | Unmap addr len => '(ret, s) ← mm_unmap mm alloc addr len s; Done (RRet ret, s)
  | Brk addr len => '(ret, s) ← mm_brk mm alloc addr len s; Done (RRet ret, s)
  | Find addr => '(r, s) ← find_vma addr s; Done (RFind (reg_at (vmas s) <$> r), s)
  | Area len => z ← get_unmapped_area len s; Done (RArea z, s)
  | CheckMem addr len write => '(b, s) ← user_mem_check addr len write s; Done (RCheck b, s)
  end.

Definition spec_vop (nomem : Prop) (o : vop) (r : vresult) (L : list region) (U : list (Z * Z)) (L' : list region) (U' : list (Z * Z)) : Prop :=
  match o, r with
  | Map addr len flags, RRet ret => map_result nomem L addr len flags ret L' /\ U' = U
  | Unmap addr len, RRet ret => unmap_result nomem L U addr len ret L' U'
  | Brk addr len, RRet ret => brk_result nomem L U addr len ret L' U'
  | Find addr, RFind x => find_result L addr x /\ L' = L /\ U' = U
  | Area len, RArea z => area_result L len z /\ L' = L /\ U' = U
  | CheckMem addr len write, RCheck b => check_result L addr len write b /\ L' = L /\ U' = U
  | _, _ => False
  end.

(** A size is not negative. *)
Definition vpre (o : vop) : Prop := match o with Area len => 0 <= len | _ => True end.

(** Each operation of the sequence returns and is a step of the specification, and the
    regions stay in order, without overlap, in whole pages of the user part.  At the end
    mm_destroy leaves no area behind. *)
Fixpoint vrefines (os : list vop) (s : kernel) (L : list region) : Prop :=
  match os with
  | [] => returns (mm_destroy s) (fun s' => vmas s' = ∅)
  | o :: os => vpre o -> returns (exec_vop o s) (fun '(r, s') => exists L', spec_vop (exists s, alloc s = None) o r L (unmapped s) L' (unmapped s') /\ layout_ok L' /\ vrefines os s' L')
  end.
End Spec.

(** * Refinement *)

Section Refine.
Context (mm : Z) (alloc : kernel -> option Z) (Halloc : forall s a, alloc s = Some a -> rbs s !! a = None /\ vmas s !! a = None).
Abbreviation mm_ok := (mm_ok mm).
Abbreviation repr := (repr mm).

Lemma repr_layout s L : repr s L -> layout_ok L.
Proof. intros (vs & H & -> & _). apply (ok_layout _ _ _ H). Qed.

Lemma mm_create_spec s : vmas s = ∅ -> returns (mm_create s) (fun s' => repr s' [] /\ unmapped s' = unmapped s).
Proof.
  intros Hv. unfold mm_create, on_list. destruct (ring_init (<[MmapList := MkEntry FreeList FreeList]> (lst s)) MmapList) as (l' & -> & Hr & _);
    [rewrite lookup_insert_eq; by eexists|]. cbn [mbind outcome_bind].
  apply returns_done. split; [|done]. exists []. split_and!; [|done|by intros v; cbn; rewrite Hv, lookup_empty; intros [? ?]]. split; cbn; try done.
  - by intros v Hi%elem_of_nil.
  - split; constructor.
  - intros v [m Hm]. by rewrite Hv, lookup_empty in Hm.
Qed.

(** Each round of mm_destroy frees the first area. *)
Lemma mm_destroy_spec s L : repr s L -> returns (mm_destroy s) (fun s' => vmas s' = ∅).
Proof.
  intros (vs & H & _ & Ho). unfold mm_destroy. set (s0 := match mmap_tree (mm_ s) with Some _ => _ | None => s end).
  assert (Hs0 : vmas s0 = vmas s /\ lst s0 = lst s) by (unfold s0; by destruct (mmap_tree (mm_ s))). destruct Hs0 as [Hvm Hls].
  apply (loop_returns_le (fun n s' => exists ws, n = length ws /\ ring (lst s') MmapList (VLink <$> ws) /\ owned (vmas s') ws /\ forall v, v ∈ ws ->
    exists m, vmas s' !! v = Some m /\ has_flag m VM_SHARE = false) _ _ _ (length vs)).
  2: { exists vs. rewrite Hvm, Hls. split_and!; try done; [apply (ok_ring _ _ _ H)|]. intros v Hv. destruct (ok_areas _ _ _ H v Hv) as (m & Hm & _). exists m.
       split; [done|]. by apply (private mm s vs v m). }
  2: { pose proof (ok_fuel mm s vs H). unfold l_fuel in *. rewrite Hls. lia. }
  intros n s1 (ws & -> & Hr & Ho1 & Hm). destruct ws as [|v ws].
  - assert (Hn : list_next MmapList (lst s1) = Done MmapList) by exact (list_next_eq _ _ _ (ring_next _ _ _ Hr)). rewrite Hn. cbn [mbind outcome_bind].
    rewrite decide_True by done. apply returns_done. apply map_eq. intros v. rewrite lookup_empty. apply eq_None_not_Some. intros Hv%Ho1. by apply elem_of_nil in Hv.
  - assert (Hn : list_next MmapList (lst s1) = Done (VLink v)) by exact (list_next_eq _ _ _ (ring_next _ _ _ Hr)). rewrite Hn. cbn [mbind outcome_bind].
    rewrite decide_False by done. destruct (ring_del (lst s1) MmapList [] (VLink v) (fmap (M := list) VLink ws) Hr) as (l' & El & Hr' & _).
    unfold on_list. rewrite El. cbn [mbind outcome_bind le2vma]. destruct (Hm v ltac:(left)) as (m & Hv & Hsh). rewrite (vma_destroy_eq _ v m) by done.
    cbn [mbind outcome_bind]. apply returns_done. exists (length ws). split; [|cbn; lia]. exists ws.
    destruct Hr as [_ [Hnd1 [Hnd2 Hnd3]%NoDup_cons]%NoDup_cons]. rewrite vlink_in in Hnd2. split_and!; [done| | |].
    + destruct Hr' as [Hc Hnd]. split; [|done]. cbn. refine (chain_agree _ _ _ _ _ _ _ Hc); intros z Hz; rewrite lookup_delete_ne; try done; intros <-;
        [apply elem_of_cons in Hz as [?|Hz]|apply elem_of_app in Hz as [Hz|Hz%list_elem_of_singleton]]; try done; by apply vlink_in in Hz.
    + intros w [m' Hw]. cbn in Hw. apply lookup_delete_Some in Hw as [Hne Hw]. assert (w ∈ v :: ws) as [->|?]%elem_of_cons by (apply Ho1; by eexists); done.
    + intros w Hw. destruct (Hm w ltac:(by right)) as (m' & Hm' & Hs'). exists m'. cbn. rewrite lookup_delete_ne; [done|]. by intros ->.
Qed.

Lemma exec_vop_spec s L o : repr s L -> vpre o ->
  returns (exec_vop mm alloc o s) (fun '(r, s') => exists L', spec_vop (exists s, alloc s = None) o r L (unmapped s) L' (unmapped s') /\ repr s' L').
Proof.
  intros H Hpre. destruct o; cbn [exec_vop spec_vop vpre] in *.
  - eapply returns_bind; [by apply (mm_map_spec mm alloc Halloc s L)|]. intros [[ret r] s'] (L' & H' & Hun & Hres). apply returns_done. by exists L'.
  - eapply returns_bind; [by apply (mm_unmap_spec mm alloc Halloc s L)|]. intros [ret s'] (L' & H' & Hres). apply returns_done. by exists L'.
  - eapply returns_bind; [by apply (mm_brk_spec mm alloc Halloc s L)|]. intros [ret s'] (L' & H' & Hres). apply returns_done. by exists L'.
  - eapply returns_bind; [by apply (find_vma_result mm s L)|]. intros [r s'] (H' & Hun & Hres). apply returns_done. by exists L.
  - eapply returns_bind; [by apply (get_unmapped_area_spec mm s L)|]. intros z Hres. apply returns_done. by exists L.
  - eapply returns_bind; [by apply (user_mem_check_spec mm s L)|]. intros [b s'] (H' & Hun & Hres). apply returns_done. by exists L.
Qed.

Lemma vrefines_repr os : forall s L, repr s L -> vrefines mm alloc os s L.
Proof.
  induction os as [|o os IH]; intros s L H; cbn [vrefines]; [by eapply mm_destroy_spec|]. intros Hpre. go_mono (exec_vop_spec s L o H Hpre). intros [r s'] (L' & Hsp & H'). exists L'.
  split_and!; [done|by eapply repr_layout|by apply IH].
Qed.
End Refine.

(** * Theorems *)

(** C19. An address space made by mm_create does what the specification says, for any sequence
    of calls of mm_map, mm_unmap, mm_brk, find_vma, get_unmapped_area and
    user_mem_check: every call returns, the regions stay ordered and without overlap,
    and mm_destroy frees all areas.  kmalloc gives memory that is not in use. *)
Theorem vmm_refines (mm : Z) (alloc : kernel -> option Z) (s0 : kernel) (os : list vop) :
  (forall s a, alloc s = Some a -> rbs s !! a = None /\ vmas s !! a = None) -> vmas s0 = ∅ ->
  returns (mm_create s0) (fun s => unmapped s = unmapped s0 /\ vrefines mm alloc os s []).
Proof.
  intros Halloc Hv. go_mono (mm_create_spec mm s0 Hv). intros s (Hs & Hun). split; [done|]. by apply vrefines_repr.
Qed.

(** A kmalloc for the examples: an address that is not in use. *)
Definition first_free (s : kernel) : option Z := Some (base.fresh (dom (rbs s) ∪ dom (vmas s))).

Lemma first_free_ok s a : first_free s = Some a -> rbs s !! a = None /\ vmas s !! a = None.
Proof. intros [= <-]. pose proof (is_fresh (dom (rbs s) ∪ dom (vmas s))) as Hf. rewrite elem_of_union, !elem_of_dom, !eq_None_not_Some in *. tauto. Qed.

(** The state of the kernel before there is an area; 500 is a shared memory object of
    three pages. *)
Definition no_areas : kernel := MkKernel ∅ ∅ ∅ {[500 := MkShmem (3 * PGSIZE) 0]} (MkMm None None 0) [] 0.

Lemma vmm_refines_witness : returns (mm_create no_areas) (fun s => unmapped s = unmapped no_areas /\
  vrefines 1 first_free [Map USERBASE 10000 3; Map (USERBASE + 10) 20 1; Unmap (USERBASE + 5000) 10; Brk (USERBASE + 3000) 5000; Find USERBASE; Area 4096; CheckMem USERBASE 5000 true] s []).
Proof. exact (vmm_refines 1 first_free no_areas _ first_free_ok eq_refl). Defined.

Lemma to_bounds addr len : 0 <= addr -> 0 < len -> addr + len + PGSIZE < 2 ^ 64 ->
  (from_ addr <= addr /\ addr < from_ addr + PGSIZE) /\ addr + len <= to_ addr len /\ to_ addr len < addr + len + PGSIZE.
Proof.
  intros Ha Hl Hb. unfold from_, to_, ROUNDUP, ROUNDDOWN, PGSIZE in *. pose proof (Z.mod_pos_bound addr 4096 ltac:(lia)) as Hm.
  pose proof (Z.mod_pos_bound (addr + len + 4096 - 1) 4096 ltac:(lia)) as Hm2.
  pose proof (Z.mod_le addr 4096 ltac:(lia) ltac:(lia)). pose proof (Z.mod_le (addr + len + 4096 - 1) 4096 ltac:(lia) ltac:(lia)).
  rewrite (uint64_small (addr + len)), (uint64_small (addr + len + 4096)), (uint64_small (addr + len + 4096 - 1)) by lia. rewrite !uint64_small by lia. lia.
Qed.

(** A new region with every byte of the range, in whole pages of the user part, and with
    less than a page to spare on either side. *)
Definition gained (L : list region) (addr len flags : Z) (L' : list region) : Prop :=
  exists a b, L' = put (MkReg a b (Z.ldiff flags VM_SHARE)) L /\ (a <= addr /\ addr < a + PGSIZE) /\ (addr + len <= b /\ b < addr + len + PGSIZE) /\ (USERBASE <= a /\ b <= USERTOP) /\
    a mod PGSIZE = 0 /\ b mod PGSIZE = 0.

(** C29. When the range does not reach the end of the 64-bit addresses, an area that mm_map
    has made holds every byte of it, in whole pages of the user part, with less than a
    page to spare on either side, and it is not shared. *)
Theorem mm_map_bounds (mm : Z) (alloc : kernel -> option Z) (s : kernel) (L : list region) (addr len flags : Z) :
  (forall s a, alloc s = Some a -> rbs s !! a = None /\ vmas s !! a = None) -> repr mm s L -> 0 <= addr -> 0 < len -> addr + len + PGSIZE < 2 ^ 64 ->
  returns (mm_map mm alloc addr len flags s) (fun '(ret, _, s') => ret = 0 -> exists L', repr mm s' L' /\ gained L addr len flags L').
Proof.
  intros Halloc H Ha Hl Hb. go_mono (mm_map_spec mm alloc Halloc s L addr len flags H). intros [[ret r] s'] (L' & H' & _ & Hres) ->. unfold map_result in Hres.
  destruct (USER_ACCESS (from_ addr) (to_ addr len)) eqn:Eu; [|destruct Hres as [? _]; done]. apply USER_ACCESS_true in Eu as (Hu1 & _ & Hu2).
  destruct Hres as [(_ & ? & _)|(_ & [(_ & HL')|(_ & ? & _)])]; [done| |done]. pose proof (to_bounds addr len Ha Hl Hb) as (Hf1 & Hf2 & Hf3).
  exists L'. split; [done|]. exists (from_ addr), (to_ addr len). split_and!; try done; try tauto; [apply ROUNDDOWN_aligned|apply ROUNDUP_aligned].
Qed.

Lemma mm_map_bounds_witness : exists s, mm_create no_areas = Done s /\
  returns (mm_map 1 first_free (USERBASE + 10) 5000 3 s) (fun '(ret, _, s') => ret = 0 -> exists L', repr 1 s' L' /\ gained [] (USERBASE + 10) 5000 3 L').
Proof.
  destruct (mm_create_spec 1 no_areas eq_refl) as (s & Hs & Hr & _). exists s. split; [exact Hs|].
  apply (mm_map_bounds 1 first_free s [] (USERBASE + 10) 5000 3 first_free_ok Hr); unfold USERBASE, PGSIZE; lia.
Defined.

(** What the specification leaves out.  A range that wraps around is not refused: mm_map
    returns 0 for nearly 2 to the 64 bytes, and maps one page.  An area of shared memory
    that mm_unmap splits leaves a part that is marked as shared and has no shared memory
    object; the kernel reads through NULL when that part is unmapped. *)
Example vmm_departs :
  (s ← mm_create no_areas; '(ret, _, s) ← mm_map 1 first_free (USERBASE + 100) (2 ^ 64 - 50) 3 s;
    Done (ret, reg_of ∘ snd <$> map_to_list (vmas s))) = Done (0, [MkReg USERBASE (USERBASE + PGSIZE) 3]) /\
  let split := s ← mm_create no_areas; '(r1, _, s) ← mm_map_shmem 1 first_free USERBASE 3 (Some 500) s; '(r2, s) ← mm_unmap 1 first_free (USERBASE + PGSIZE) PGSIZE s; Done (r1, r2, s) in
  ('(r1, r2, _) ← split; Done (r1, r2)) = Done (0, 0) /\ ('(_, _, s) ← split; mm_unmap 1 first_free USERBASE PGSIZE s) = Panic.
Proof. vm_compute. split; [|split]; reflexivity. Qed.
