(* ===== verification/CRings.v ===== *)
(** Many circular lists in one heap: each head has its list, and the lists do not share
    entries.  An entry that is in no list is a head with an empty list of its own. *)

From S2P Require Import Prelude CList.
From stdpp Require Import list gmap.
#[local] Open Scope Z_scope.

Section Rings.
Context {K : Type} `{Countable K}.
Implicit Types (h : gmap K (list_entry K)) (W : gmap K (list K)) (a b x : K) (l k : list K).

Definition apart W : Prop := forall a l b k z, W !! a = Some l -> W !! b = Some k -> z ∈ a :: l -> z ∈ b :: k -> a = b.
Definition rings h W : Prop := (forall a l, W !! a = Some l -> ring h a l) /\ apart W.

Lemma rings_ring h W a l : rings h W -> W !! a = Some l -> ring h a l.
Proof. intros [Hr _]. apply Hr. Qed.

Lemma rings_empty h W a l : rings h W -> W !! a = Some l -> list_empty a h = Done (bool_decide (l = [])).
Proof. intros Hr Ha. apply ring_empty. by eapply rings_ring. Qed.

Lemma rings_inside h W a l x : rings h W -> W !! a = Some l -> x ∈ l -> list_empty x h = Done false.
Proof.
  intros Hr Ha (l1 & l2 & ->)%list_elem_of_split. pose proof (rings_ring _ _ _ _ Hr Ha) as Hx. apply ring_rotate in Hx.
  rewrite (ring_empty _ _ _ Hx), bool_decide_eq_false_2; [done|]. by destruct l2.
Qed.

Lemma rings_next h W a l : rings h W -> W !! a = Some l -> list_next a h = Done (default a (head l)).
Proof. intros Hr Ha. apply list_next_eq, ring_next. by eapply rings_ring. Qed.

Lemma rings_next_in h W a l1 x l2 : rings h W -> W !! a = Some (l1 ++ x :: l2) -> list_next x h = Done (default a (head l2)).
Proof. intros Hr Ha. apply list_next_eq. eapply ring_next_in. by eapply rings_ring. Qed.

Lemma rings_some h W a l z : rings h W -> W !! a = Some l -> z ∈ a :: l -> is_Some (h !! z).
Proof. intros Hr Ha. eapply ring_some. by eapply rings_ring. Qed.

Lemma rings_size h W a l : rings h W -> W !! a = Some l -> (length l < size h)%nat.
Proof. intros Hr Ha. eapply ring_size. by eapply rings_ring. Qed.

(** An entry is in one list only. *)
Lemma rings_only h W a l b k z : rings h W -> W !! a = Some l -> W !! b = Some k -> z ∈ l -> z ∈ k -> a = b.
Proof. intros [_ Hd] Ha Hb Hz Hz'. eapply Hd; [exact Ha|exact Hb|by right|by right]. Qed.

Lemma rings_nodup h W a l : rings h W -> W !! a = Some l -> NoDup (a :: l).
Proof. intros Hr Ha. by destruct (rings_ring _ _ _ _ Hr Ha). Qed.

(** What lies outside of the changed entries stays. *)
Lemma rings_frame h h' W W' F : rings h W -> frame h h' F -> apart W' -> (forall a l, W' !! a = Some l -> ring h' a l \/ W !! a = Some l /\ forall z, z ∈ a :: l -> z ∉ F) -> rings h' W'.
Proof. intros [Hr _] Hf Hd HW. split; [|done]. intros a l Ha. destruct (HW a l Ha) as [?|[Hold Hz]]; [done|]. eapply ring_frame; [exact Hf|exact Hz|by apply Hr]. Qed.

(** The entry is in no list and is no head. *)
Definition outside W x : Prop := forall a l, W !! a = Some l -> x ∉ a :: l.

Lemma outside_insert W x a l : outside W x -> x ∉ a :: l -> outside (<[a := l]> W) x.
Proof. intros Ho Hx b k [[<- <-]|[_ Hb]]%lookup_insert_Some; [done|by eapply Ho]. Qed.

Lemma rings_delete h W x l : rings h W -> W !! x = Some l -> rings h (delete x W) /\ outside (delete x W) x.
Proof.
  intros [Hr Hd] Hx. split; [split|].
  - intros a k [_ Ha]%lookup_delete_Some. by apply Hr.
  - intros a k b k' z [_ Ha]%lookup_delete_Some [_ Hb]%lookup_delete_Some. by apply Hd.
  - intros a k [Hne Ha]%lookup_delete_Some Hin. apply Hne. by eapply Hd; [exact Hx|exact Ha|left|].
Qed.

(** list_init for a new entry. *)
Lemma rings_new h W x : rings h W -> outside W x -> is_Some (h !! x) -> exists h', list_init x h = Done h' /\ rings h' (<[x := []]> W) /\ dom h' = dom h.
Proof.
  intros Hr Ho Hx. destruct (ring_init h x Hx) as (h' & -> & Hx' & Hf). exists h'. split; [done|]. split; [|apply Hf]. pose proof Hr as [_ Hd]. eapply rings_frame; [done|exact Hf| |].
  - intros a l b k z [[<- <-]|[Ha Hla]]%lookup_insert_Some [[<- <-]|[Hb Hlb]]%lookup_insert_Some Hz Hz';
      [done|apply list_elem_of_singleton in Hz as ->; by apply Ho in Hz'|apply list_elem_of_singleton in Hz' as ->; by apply Ho in Hz|by eapply Hd].
  - intros a l [[<- <-]|[Ha Hla]]%lookup_insert_Some; [by left|]. right. split; [done|]. intros z Hz ->%list_elem_of_singleton. by apply Ho in Hz.
Qed.

(** list_init for an entry that is in no list. *)
Lemma rings_init h W x : rings h W -> W !! x = Some [] -> exists h', list_init x h = Done h' /\ rings h' W /\ dom h' = dom h.
Proof.
  intros Hr Hx. destruct (rings_delete h W x [] Hr Hx) as [Hr' Ho]. destruct (rings_new h _ x Hr' Ho) as (h' & -> & Hn & Hdom);
    [eapply rings_some; [exact Hr|exact Hx|left]|]. exists h'. split_and!; try done. by rewrite insert_delete_id in Hn.
Qed.

Lemma apart_insert W a l1 l2 x : apart W -> W !! a = Some (l1 ++ l2) -> outside W x -> apart (<[a := l1 ++ x :: l2]> W).
Proof.
  intros Hd Ha Ho. assert (Hown : forall b k z, <[a := l1 ++ x :: l2]> W !! b = Some k -> z ∈ b :: k -> z = x /\ b = a \/ z <> x /\ exists k', W !! b = Some k' /\ z ∈ b :: k').
  { intros b k z [[<- <-]|[Hb Hk]]%lookup_insert_Some Hz.
    - destruct (decide (z = x)) as [->|Hzx]; [by left|]. right. split; [done|]. eexists. split; [exact Ha|]. rewrite elem_of_cons, elem_of_app, elem_of_cons in Hz.
      rewrite elem_of_cons, elem_of_app. tauto.
    - right. split; [|by exists k]. intros ->. by apply (Ho b k). }
  intros b k c k' z Hb Hc Hz Hz'. destruct (Hown b k z Hb Hz) as [[-> ->]|(Hn & k1 & Hk1 & Hz1)], (Hown c k' _ Hc Hz') as [[? ->]|(Hn' & k2 & Hk2 & Hz2)]; try done. by eapply Hd.
Qed.

(** list_add_before at any place of a list. *)
Lemma rings_insert_new h W a l1 l2 x : rings h W -> W !! a = Some (l1 ++ l2) -> outside W x -> is_Some (h !! x) ->
  exists h', list_add_before (default a (head l2)) x h = Done h' /\ rings h' (<[a := l1 ++ x :: l2]> W) /\ dom h' = dom h.
Proof.
  intros Hr Ha Ho Hx. pose proof (rings_ring _ _ _ _ Hr Ha) as Hring. pose proof Hr as [_ Hd]. destruct (ring_at _ _ _ _ Hring) as [Hn Hp].
  destruct (ring_add_at h a l1 l2 x Hring (Ho _ _ Ha) Hx) as (h' & Eq & Hr' & Hf). exists h'. split_and!; [|..|apply Hf].
  - rewrite <- Eq. unfold list_add_before, list_add_after. by rewrite (list_prev_eq _ _ _ Hp), (list_next_eq _ _ _ Hn).
  - eapply rings_frame; [done|exact Hf|by apply apart_insert|]. intros b k [[<- <-]|[Hb Hk]]%lookup_insert_Some; [by left|]. right. split; [done|].
    intros z Hz [->|Hz']%elem_of_cons; [by apply (Ho b k)|]. apply Hb. by eapply Hd.
Qed.

Lemma rings_insert h W a l1 l2 x : rings h W -> W !! a = Some (l1 ++ l2) -> W !! x = Some [] -> a <> x ->
  exists h', list_add_before (default a (head l2)) x h = Done h' /\ rings h' (<[a := l1 ++ x :: l2]> (delete x W)) /\ dom h' = dom h.
Proof.
  intros Hr Ha Hx Hne. destruct (rings_delete h W x [] Hr Hx) as [Hr' Ho]. apply rings_insert_new; [done|by rewrite lookup_delete_ne by congruence|done|].
  eapply rings_some; [exact Hr|exact Hx|left].
Qed.

Lemma apart_remove W a l1 x l2 : apart W -> W !! a = Some (l1 ++ x :: l2) -> NoDup (a :: l1 ++ x :: l2) -> apart (<[x := []]> (<[a := l1 ++ l2]> W)).
Proof.
  intros Hd Ha Hnd. assert (Hax : a <> x) by (intros ->; apply NoDup_cons in Hnd as [Hn _]; apply Hn; rewrite elem_of_app; right; left).
  assert (Hxl : x ∉ l1 ++ l2) by (apply NoDup_cons in Hnd as [_ (_ & Hn1 & [Hn2 _]%NoDup_cons)%NoDup_app]; rewrite elem_of_app; intros [Hi|Hi]; [apply (Hn1 x Hi); left|done]).
  assert (Hown : forall b k z, <[x := []]> (<[a := l1 ++ l2]> W) !! b = Some k -> z ∈ b :: k -> z = x /\ b = x \/ z <> x /\ exists k', W !! b = Some k' /\ z ∈ b :: k').
  { intros b k z [[<- <-]|[Hb [[<- <-]|[Hba Hk]]%lookup_insert_Some]]%lookup_insert_Some Hz.
    - left. by apply list_elem_of_singleton in Hz.
    - right. split; [intros ->; apply elem_of_cons in Hz as [?|?]; done|]. eexists. split; [exact Ha|]. rewrite elem_of_cons, elem_of_app in Hz.
      rewrite elem_of_cons, elem_of_app, elem_of_cons. tauto.
    - right. split; [|by exists k]. intros ->. apply Hba. eapply Hd; [exact Ha|exact Hk| |exact Hz]. right. rewrite elem_of_app. right. left. }
  intros b k c k' z Hb Hc Hz Hz'. destruct (Hown b k z Hb Hz) as [[-> ->]|(Hn & k1 & Hk1 & Hz1)], (Hown c k' _ Hc Hz') as [[? ->]|(Hn' & k2 & Hk2 & Hz2)]; try done. by eapply Hd.
Qed.

(** list_del_init. *)
Lemma rings_remove h W a l1 x l2 : rings h W -> W !! a = Some (l1 ++ x :: l2) -> exists h', list_del_init x h = Done h' /\ rings h' (<[x := []]> (<[a := l1 ++ l2]> W)) /\ dom h' = dom h.
Proof.
  intros Hr Ha. pose proof (rings_ring _ _ _ _ Hr Ha) as Hring. pose proof (rings_nodup _ _ _ _ Hr Ha) as Hnd. pose proof Hr as [_ Hd].
  assert (Hax : a <> x) by (intros ->; apply NoDup_cons in Hnd as [Hn _]; apply Hn; rewrite elem_of_app; right; left).
  assert (Hxl : x ∉ a :: l1 ++ l2) by (rewrite elem_of_cons, elem_of_app; apply NoDup_cons in Hnd as [_ (_ & Hn1 & [Hn2 _]%NoDup_cons)%NoDup_app];
    intros [?|[Hi|Hi]]; [done|apply (Hn1 x Hi); left|done]).
  unfold list_del_init. destruct (ring_del h a l1 x l2 Hring) as (h1 & -> & Hr1 & Hf1). cbn [mbind outcome_bind].
  destruct (ring_init h1 x) as (h2 & -> & Hr2 & Hf2); [apply (frame_some _ _ _ x Hf1); eapply rings_some; [done|exact Ha|]; right; rewrite elem_of_app; right; left|]. exists h2.
  split_and!; [done| |destruct Hf1, Hf2; congruence]. assert (Hf : frame h h2 (x :: a :: l1 ++ l2)) by (eapply frame_trans;
    [eapply frame_weaken; [exact Hf1|intros z Hz; by right]|eapply frame_weaken; [exact Hf2|intros z ->%list_elem_of_singleton; left]]).
  eapply rings_frame; [done|exact Hf|by apply apart_remove|]. intros b k [[<- <-]|[Hb [[<- <-]|[Hba Hk]]%lookup_insert_Some]]%lookup_insert_Some; [by left|left|].
  - eapply ring_frame; [exact Hf2| |exact Hr1]. intros z Hz ->%list_elem_of_singleton. done.
  - right. split; [done|]. intros z Hz Hz'. apply Hba. eapply Hd; [exact Ha|exact Hk| |exact Hz]. rewrite !elem_of_cons, elem_of_app, elem_of_cons.
    rewrite !elem_of_cons, elem_of_app in Hz'. tauto.
Qed.
End Rings.
