(* ===== verification/Sched.v ===== *)
(** The scheduler of the ucore kernel: src/ucore/src/kern-ucore/schedule/sched.c,
    sched_MLFQ.c and sched_RR.c.

    The queues, processes and timers are heaps of structures, and their list entries are
    in one heap of lists.  One processor is modelled: current and idleproc are fields of
    the state.  sched_class is always the multi-level feedback queue over the round
    robin class.  The statistics that schedule collects for the debugger, and the switch
    of stacks and page tables in proc_run, are left out.  A failed [assert] and an access
    through NULL are a [Panic]. *)

From S2P Require Import Prelude CList.
From stdpp Require Import list gmap.
#[local] Open Scope Z_scope.

(** * State *)

(** Addresses of list entries: [&(q->rq_link)], [&(q->run_list)], [&(p->run_link)],
    [&timer_list] and [&(t->timer_link)]. *)
Inductive loc := RqLink (q : Z) | RunList (q : Z) | RunLink (p : Z) | TimerList | TimerLink (t : Z).

#[export] Instance loc_eq_dec : EqDecision loc.
Proof. solve_decision. Defined.

#[export] Instance loc_countable : Countable loc.
Proof.
  refine (inj_countable' (fun l => match l with RqLink q => (0, q) | RunList q => (1, q) | RunLink p => (2, p) | TimerList => (3, 0) | TimerLink t => (4, t) end)
            (fun '(k, x) => if k =? 0 then RqLink x else if k =? 1 then RunList x else if k =? 2 then RunLink x else if k =? 3 then TimerList else TimerLink x) _).
  by intros [].
Defined.

Inductive proc_state := PROC_UNINIT | PROC_SLEEPING | PROC_RUNNABLE | PROC_ZOMBIE.

#[export] Instance proc_state_eq_dec : EqDecision proc_state.
Proof. solve_decision. Defined.

Record proc_struct := MkProc { state : proc_state; pid : Z; runs : Z; need_resched : bool; wait_state : Z; rq : option Z; time_slice : Z }.
Record run_queue := MkRq { proc_num : Z; max_time_slice : Z }.
Record timer_t := MkTimer { expires : Z; proc : option Z }.

Definition with_state st w p := MkProc st (pid p) (runs p) (need_resched p) w (rq p) (time_slice p).
Definition with_resched b p := MkProc (state p) (pid p) (runs p) b (wait_state p) (rq p) (time_slice p).
Definition with_slice n p := MkProc (state p) (pid p) (runs p) (need_resched p) (wait_state p) (rq p) n.
Definition with_rq q p := MkProc (state p) (pid p) (runs p) (need_resched p) (wait_state p) (Some q) (time_slice p).
Definition with_runs n p := MkProc (state p) (pid p) n (need_resched p) (wait_state p) (rq p) (time_slice p).

Record sched := MkSched {
  procs : gmap Z proc_struct; rqs : gmap Z run_queue; timers : gmap Z timer_t; lst : gmap loc (list_entry loc);
  current : Z; idleproc : Z }.

Definition with_procs f s := MkSched (f (procs s)) (rqs s) (timers s) (lst s) (current s) (idleproc s).
Definition with_rqs f s := MkSched (procs s) (f (rqs s)) (timers s) (lst s) (current s) (idleproc s).
Definition with_timers f s := MkSched (procs s) (rqs s) (f (timers s)) (lst s) (current s) (idleproc s).
Definition with_lst h s := MkSched (procs s) (rqs s) (timers s) h (current s) (idleproc s).
Definition with_current p s := MkSched (procs s) (rqs s) (timers s) (lst s) p (idleproc s).

Definition get_proc (p : Z) (s : sched) : outcome proc_struct := of_option (procs s !! p).
Definition upd_proc (f : proc_struct -> proc_struct) (p : Z) (s : sched) : outcome sched := x ← get_proc p s; Done (with_procs <[p := f x]> s).
Definition get_rq (q : Z) (s : sched) : outcome run_queue := of_option (rqs s !! q).
Definition upd_rq (f : run_queue -> run_queue) (q : Z) (s : sched) : outcome sched := x ← get_rq q s; Done (with_rqs <[q := f x]> s).
Definition get_timer (t : Z) (s : sched) : outcome timer_t := of_option (timers s !! t).
Definition upd_timer (f : timer_t -> timer_t) (t : Z) (s : sched) : outcome sched := x ← get_timer t s; Done (with_timers <[t := f x]> s).
Definition on_list (f : gmap loc (list_entry loc) -> outcome (gmap loc (list_entry loc))) (s : sched) : outcome sched := h ← f (lst s); Done (with_lst h s).

Definition le2rq (le : loc) : outcome Z := match le with RqLink q => Done q | _ => Panic end.
Definition le2proc (le : loc) : outcome Z := match le with RunLink p => Done p | _ => Panic end.
Definition le2timer (le : loc) : outcome Z := match le with TimerLink t => Done t | _ => Panic end.

Definition l_fuel (s : sched) : nat := S (S (size (lst s))).

(** * The round robin class *)

Definition RR_init (q : Z) (s : sched) : outcome sched :=
  s ← on_list (list_init (RunList q)) s;
  upd_rq (fun r => MkRq 0 (max_time_slice r)) q s.

Definition RR_enqueue (q p : Z) (s : sched) : outcome sched :=
  e ← list_empty (RunLink p) (lst s);
  _ ← assert_ (e = true);
  s ← on_list (list_add_before (RunList q) (RunLink p)) s;
  x ← get_proc p s;
  r ← get_rq q s;
  s ← (if (time_slice x =? 0) || (max_time_slice r <? time_slice x) then upd_proc (with_slice (max_time_slice r)) p s else Done s);
  s ← upd_proc (with_rq q) p s;
  upd_rq (fun r => MkRq (uint (proc_num r + 1)) (max_time_slice r)) q s.

Definition RR_dequeue (q p : Z) (s : sched) : outcome sched :=
  e ← list_empty (RunLink p) (lst s);
  x ← get_proc p s;
  _ ← assert_ (e = false /\ rq x = Some q);
  s ← on_list (list_del_init (RunLink p)) s;
  upd_rq (fun r => MkRq (uint (proc_num r - 1)) (max_time_slice r)) q s.

Definition RR_pick_next (q : Z) (s : sched) : outcome (option Z) :=
  le ← list_next (RunList q) (lst s);
  if decide (le <> RunList q) then p ← le2proc le; Done (Some p) else Done None.

Definition RR_proc_tick (p : Z) (s : sched) : outcome sched :=
  x ← get_proc p s;
  s ← (if 0 <? time_slice x then upd_proc (with_slice (time_slice x - 1)) p s else Done s);
  x ← get_proc p s;
  if time_slice x =? 0 then upd_proc (with_resched true) p s else Done s.

(** * The multi-level feedback queue *)

Definition MLFQ_init (q : Z) (s : sched) : outcome sched :=
  loop (l_fuel s) (fun '(le, s) =>
    r ← le2rq le;
    s ← RR_init r s;
    le ← list_next le (lst s);
    if decide (le <> RqLink q) then Done (inl (le, s)) else Done (inr s)) (RqLink q, s).

Definition MLFQ_enqueue (q p : Z) (s : sched) : outcome sched :=
  e ← list_empty (RunLink p) (lst s);
  _ ← assert_ (e = true);
  x ← get_proc p s;
  nrq ← match rq x with
        | Some pq =>
            if time_slice x =? 0 then
              le ← list_next (RqLink pq) (lst s);
              nrq ← le2rq le;
              Done (if nrq =? q then pq else nrq)
            else Done q
        | None => Done q
        end;
  RR_enqueue nrq p s.

Definition MLFQ_dequeue (q p : Z) (s : sched) : outcome sched :=
  e ← list_empty (RunLink p) (lst s);
  _ ← assert_ (e = false);
  x ← get_proc p s;
  pq ← of_option (rq x);
  RR_dequeue pq p s.

Definition MLFQ_pick_next (q : Z) (s : sched) : outcome (option Z) :=
  loop (l_fuel s) (fun le =>
    r ← le2rq le;
    next ← RR_pick_next r s;
    match next with
    | Some p => Done (inr (Some p))
    | None => le ← list_next le (lst s); if decide (le <> RqLink q) then Done (inl le) else Done (inr None)
    end) (RqLink q).

Definition MLFQ_proc_tick (p : Z) (s : sched) : outcome sched := RR_proc_tick p s.

(** * sched.c *)

(** [rq = __rq]; the queues are [__rq + 0] to [__rq + 3]. *)
Definition rq0 : Z := 0.
Definition NR_RQ : Z := 4.

Definition sched_class_enqueue (p : Z) (s : sched) : outcome sched := if decide (p <> idleproc s) then MLFQ_enqueue rq0 p s else Done s.
Definition sched_class_dequeue (p : Z) (s : sched) : outcome sched := MLFQ_dequeue rq0 p s.
Definition sched_class_pick_next (s : sched) : outcome (option Z) := MLFQ_pick_next rq0 s.
Definition sched_class_proc_tick (p : Z) (s : sched) : outcome sched :=
  if decide (p <> idleproc s) then MLFQ_proc_tick p s else upd_proc (with_resched true) p s.

Definition sched_init (s : sched) : outcome sched :=
  s ← on_list (list_init TimerList) s;
  s ← on_list (list_init (RqLink rq0)) s;
  s ← upd_rq (fun r => MkRq (proc_num r) 8) rq0 s;
  s ← for_range (Z.to_nat (NR_RQ - 1)) 1 (fun i s =>
    s ← on_list (list_add_before (RqLink rq0) (RqLink i)) s;
    r0 ← get_rq rq0 s;
    upd_rq (fun r => MkRq (proc_num r) (int (max_time_slice r0 * Z.shiftl 1 i))) i s) s;
  MLFQ_init rq0 s.

Section Cpu.
(** The number of processors; the processes with smaller numbers are the idle processes. *)
Context (lcpu_count : Z).

Definition wakeup_proc (p : Z) (s : sched) : outcome sched :=
  x ← get_proc p s;
  _ ← assert_ (state x <> PROC_ZOMBIE);
  if decide (state x <> PROC_RUNNABLE) then
    s ← upd_proc (with_state PROC_RUNNABLE 0) p s;
    if decide (p <> current s) then
      _ ← assert_ (lcpu_count <= pid x);
      sched_class_enqueue p s
    else Done s
  else Done s.

Definition schedule (s : sched) : outcome sched :=
  s ← upd_proc (with_resched false) (current s) s;
  c ← get_proc (current s) s;
  s ← (if decide (state c = PROC_RUNNABLE /\ lcpu_count <= pid c) then sched_class_enqueue (current s) s else Done s);
  next ← sched_class_pick_next s;
  s ← match next with Some p => sched_class_dequeue p s | None => Done s end;
  let next := match next with Some p => p | None => idleproc s end in
  s ← upd_proc (fun x => with_runs (int (runs x + 1)) x) next s;
  Done (if decide (next <> current s) then with_current next s else s).

Definition timer_init (t p time : Z) (s : sched) : outcome sched :=
  s ← upd_timer (fun _ => MkTimer (uint time) (Some p)) t s;
  on_list (list_init (TimerLink t)) s.

Definition add_timer (t : Z) (s : sched) : outcome sched :=
  x ← get_timer t s;
  _ ← assert_ (0 < expires x /\ proc x <> None);
  e ← list_empty (TimerLink t) (lst s);
  _ ← assert_ (e = true);
  le ← list_next TimerList (lst s);
  '(le, s) ← loop (l_fuel s) (fun '(le, s) =>
    if decide (le <> TimerList) then
      n ← le2timer le;
      x ← get_timer t s;
      y ← get_timer n s;
      if expires x <? expires y then
        s ← upd_timer (fun y => MkTimer (uint (expires y - expires x)) (proc y)) n s;
        Done (inr (le, s))
      else
        s ← upd_timer (fun x => MkTimer (uint (expires x - expires y)) (proc x)) t s;
        le ← list_next le (lst s);
        Done (inl (le, s))
    else Done (inr (le, s))) (le, s);
  on_list (list_add_before le (TimerLink t)) s.

Definition del_timer (t : Z) (s : sched) : outcome sched :=
  e ← list_empty (TimerLink t) (lst s);
  if negb e then
    x ← get_timer t s;
    s ← (if negb (expires x =? 0) then
           le ← list_next (TimerLink t) (lst s);
           if decide (le <> TimerList) then
             n ← le2timer le;
             upd_timer (fun y => MkTimer (uint (expires y + expires x)) (proc y)) n s
           else Done s
         else Done s);
    on_list (list_del_init (TimerLink t)) s
  else Done s.

Definition WT_INTERRUPTED : Z := 0x80000000.

(** The loop of run_timer_list from the timer [t], whose list entry is [le], on. *)
Definition run_expired (t : Z) (s : sched) : outcome sched :=
  loop (l_fuel s) (fun '(t, s) =>
    x ← get_timer t s;
    if expires x =? 0 then
      le ← list_next (TimerLink t) (lst s);
      p ← of_option (proc x);
      y ← get_proc p s;
      _ ← (if negb (wait_state y =? 0) then assert_ (Z.land (wait_state y) WT_INTERRUPTED <> 0) else Done tt);
      s ← wakeup_proc p s;
      s ← del_timer t s;
      if decide (le = TimerList) then Done (inr s) else t ← le2timer le; Done (inl (t, s))
    else Done (inr s)) (t, s).

Definition run_timer_list (s : sched) : outcome sched :=
  le ← list_next TimerList (lst s);
  s ← (if decide (le <> TimerList) then
         t ← le2timer le;
         x ← get_timer t s;
         _ ← assert_ (expires x <> 0);
         s ← upd_timer (fun x => MkTimer (uint (expires x - 1)) (proc x)) t s;
         run_expired t s
       else Done s);
  sched_class_proc_tick (current s) s.

(** do_sleep of process/proc.c up to its call of schedule; after the call it deletes the timer.
    For no time it returns at once, without the call. *)
Definition WT_TIMER : Z := Z.lor 2 WT_INTERRUPTED.
Definition do_sleep_start (t time : Z) (s : sched) : outcome sched :=
  if time =? 0 then Done s else
  s ← timer_init t (current s) time s;
  s ← upd_proc (with_state PROC_SLEEPING WT_TIMER) (current s) s;
  add_timer t s.
End Cpu.
