(* ===== verification/SchedState.v ===== *)
(** The scheduler of the ucore kernel: the abstract scheduler, how a state of the kernel
    represents it, and the proofs for the run queues. *)

From S2P Require Import Prelude CList CRings Sched.
From stdpp Require Import list gmap.
#[local] Open Scope Z_scope.

(** * The abstract scheduler *)

(** Four queues of processes; the timers that run, with their process and the ticks that
    are left, the first to expire first; the processes; the timer structures that exist. *)
Record astate := MkA { aqs : list (list Z); atm : list (Z * (Z * Z)); aps : gmap Z proc_struct; acur : Z; aidle : Z; atids : gset Z }.

Definition set_qs f A := MkA (f (aqs A)) (atm A) (aps A) (acur A) (aidle A) (atids A).
Definition set_tm l A := MkA (aqs A) l (aps A) (acur A) (aidle A) (atids A).
Definition set_ps f A := MkA (aqs A) (atm A) (f (aps A)) (acur A) (aidle A) (atids A).
Definition set_cur p A := MkA (aqs A) (atm A) (aps A) p (aidle A) (atids A).
Definition set_proc f p A := match aps A !! p with Some x => set_ps <[p := f x]> A | None => A end.

(** A process whose time is used up goes down one level; all others go to the top. *)
Definition next_level (x : proc_struct) : nat :=
  match rq x with Some q => if time_slice x =? 0 then Nat.min (S (Z.to_nat q)) 3 else 0%nat | None => 0%nat end.

Definition level_slice (k : nat) : Z := 8 * 2 ^ Z.of_nat k.
Definition slice_at (k : nat) (n : Z) : Z := if (n =? 0) || (level_slice k <? n) then level_slice k else n.

Definition aenqueue (p : Z) (A : astate) : astate :=
  match aps A !! p with
  | Some x => set_qs (alter (fun l => l ++ [p]) (next_level x)) (set_ps <[p := with_rq (Z.of_nat (next_level x)) (with_slice (slice_at (next_level x) (time_slice x)) x)]> A)
  | None => A
  end.

Definition adequeue (p : Z) (A : astate) : astate := set_qs (fmap (filter (fun y => y <> p))) A.

Definition queued (A : astate) (p : Z) : Prop := exists l, l ∈ aqs A /\ p ∈ l.

(** * Representation *)

(** Each timer holds the ticks from the end of the one before it. *)
Fixpoint deltas (T : gmap Z timer_t) (base : Z) (l : list (Z * (Z * Z))) : Prop :=
  match l with
  | [] => True
  | (t, (p, r)) :: l' => T !! t = Some (MkTimer (r - base) (Some p)) /\ base <= r /\ r < 2 ^ 32 /\ deltas T r l'
  end.

Record sched_ok (s : sched) (A : astate) (W : gmap loc (list loc)) : Prop := {
  so_procs : procs s = aps A;
  so_cur : current s = acur A;
  so_idle : idleproc s = aidle A;
  so_rings : rings (lst s) W;
  so_rqlink : W !! RqLink 0 = Some [RqLink 1; RqLink 2; RqLink 3];
  so_len : length (aqs A) = 4%nat;
  so_queue k l : aqs A !! k = Some l -> W !! RunList (Z.of_nat k) = Some (RunLink <$> l) /\ rqs s !! Z.of_nat k = Some (MkRq (uint (zlen l)) (level_slice k));
  so_run p : is_Some (aps A !! p) -> ~ queued A p -> W !! RunLink p = Some [];
  so_list : W !! TimerList = Some (TimerLink <$> (atm A).*1);
  so_timer t : t ∈ atids A -> t ∉ (atm A).*1 -> W !! TimerLink t = Some [];
  so_tids t : t ∈ atids A -> is_Some (timers s !! t);
  so_deltas : deltas (timers s) 0 (atm A) }.

Lemma get_proc_eq s A W p x : sched_ok s A W -> aps A !! p = Some x -> get_proc p s = Done x.
Proof. intros H Hx. unfold get_proc. by rewrite (so_procs _ _ _ H), Hx. Qed.

(** A process changes, not the queues. *)
Lemma ok_set_proc s A W p x f : sched_ok s A W -> aps A !! p = Some x -> upd_proc f p s = Done (with_procs <[p := f x]> s) /\ sched_ok (with_procs <[p := f x]> s) (set_proc f p A) W.
Proof.
  intros H Hx. split; [unfold upd_proc; by rewrite (get_proc_eq s A W p x)|]. unfold set_proc. rewrite Hx. destruct H as [H1 H2 H3 H4 H5 H6 H7 H8 H9 H10 H11 H12].
  split; try done; cbn in *; [by rewrite H1|].
  intros q Hq Hn. apply H8; [|done]. destruct (decide (q = p)) as [->|Hne]; [by eexists|by rewrite lookup_insert_ne in Hq by congruence].
Qed.

(** * The run queues *)

Lemma queue_of s A W k : sched_ok s A W -> (k < 4)%nat -> exists l, aqs A !! k = Some l.
Proof. intros H Hk. apply lookup_lt_is_Some. by rewrite (so_len _ _ _ H). Qed.

Lemma next_rq s A W q : sched_ok s A W -> 0 <= q < 4 -> list_next (RqLink q) (lst s) = Done (RqLink (if q =? 3 then 0 else q + 1)).
Proof.
  intros H Hq. pose proof (so_rings _ _ _ H) as Hr. pose proof (so_rqlink _ _ _ H) as Hl. assert (q = 0 \/ q = 1 \/ q = 2 \/ q = 3) as [->|[->|[->| ->]]] by lia.
  - exact (rings_next _ _ _ _ Hr Hl).
  - exact (rings_next_in _ _ _ [] _ _ Hr Hl).
  - exact (rings_next_in _ _ _ [RqLink 1] _ _ Hr Hl).
  - exact (rings_next_in _ _ _ [RqLink 1; RqLink 2] _ _ Hr Hl).
Qed.

Lemma run_link_empty s A W p : sched_ok s A W -> is_Some (aps A !! p) -> ~ queued A p -> list_empty (RunLink p) (lst s) = Done true.
Proof. intros H Hp Hq. by rewrite (rings_empty _ _ _ _ (so_rings _ _ _ H) (so_run _ _ _ H p Hp Hq)). Qed.

Lemma with_slice_id x : with_slice (time_slice x) x = x.
Proof. by destruct x. Qed.

Lemma elem_alter (Q : list (list Z)) k (f : list Z -> list Z) l : Q !! k = Some l -> forall m, m ∈ alter f k Q -> m = f l \/ m ∈ Q.
Proof.
  intros Hk m (i & Hi)%list_elem_of_lookup. destruct (decide (i = k)) as [->|Hne]; [rewrite list_lookup_alter_eq, Hk in Hi; left; by injection Hi|].
  rewrite list_lookup_alter_ne in Hi by congruence. right. by eapply list_elem_of_lookup_2.
Qed.

Lemma queued_enqueue A p k l q : aqs A !! k = Some l -> queued (set_qs (alter (fun l => l ++ [p]) k) A) q <-> q = p \/ queued A q.
Proof.
  intros Hk. split.
  - intros (m & [->|Hm]%(elem_alter _ _ _ _ Hk) & Hq); [|right; by exists m].
    apply elem_of_app in Hq as [Hq| ->%list_elem_of_singleton]; [right; exists l; split; [by eapply list_elem_of_lookup_2|done]|by left].
  - assert (Hnew : l ++ [p] ∈ alter (fun l => l ++ [p]) k (aqs A)) by (apply list_elem_of_lookup; exists k; by rewrite list_lookup_alter_eq, Hk).
    intros [->|(m & (i & Hi)%list_elem_of_lookup & Hq)]; [exists (l ++ [p]); split; [done|rewrite elem_of_app; right; left]|].
    destruct (decide (i = k)) as [->|Hne]; [rewrite Hk in Hi; injection Hi as <-; exists (l ++ [p]); split; [done|rewrite elem_of_app; by left]|].
    exists m. split; [|done]. apply list_elem_of_lookup. exists i. cbn. by rewrite list_lookup_alter_ne by congruence.
Qed.

Lemma RR_enqueue_spec s A W p x k : sched_ok s A W -> aps A !! p = Some x -> ~ queued A p -> (k < 4)%nat ->
  returns (RR_enqueue (Z.of_nat k) p s)
    (fun s' => exists W', sched_ok s' (set_qs (alter (fun l => l ++ [p]) k) (set_ps <[p := with_rq (Z.of_nat k) (with_slice (slice_at k (time_slice x)) x)]> A)) W').
Proof.
  intros H Hx Hq Hk. destruct (queue_of s A W k H Hk) as (l & Hl). destruct (so_queue _ _ _ H k l Hl) as [HWk Hrq]. pose proof (so_run _ _ _ H p ltac:(by eexists) Hq) as HWp.
  unfold RR_enqueue. rewrite (run_link_empty s A W p) by (done || by eexists). cbn [mbind outcome_bind]. rewrite assert_ok by done. cbn [mbind outcome_bind].
  destruct (rings_insert (lst s) W (RunList (Z.of_nat k)) (RunLink <$> l) [] (RunLink p) (so_rings _ _ _ H)) as (h' & Eh & Hr' & _);
    [by rewrite app_nil_r|done|done|]. cbn [head default from_option] in Eh.
  unfold on_list. rewrite Eh. cbn [mbind outcome_bind]. set (s1 := with_lst h' s). unfold upd_proc, upd_rq, get_proc, get_rq. change (procs s1) with (procs s).
  change (rqs s1) with (rqs s). rewrite (so_procs _ _ _ H), Hx, Hrq. cbn [of_option mbind outcome_bind max_time_slice].
  eapply (returns_bind _ _ (fun s' => s' = with_procs <[p := with_slice (slice_at k (time_slice x)) x]> s1)).
  { unfold slice_at. destruct ((time_slice x =? 0) || (level_slice k <? time_slice x)); apply returns_done; [done|]. rewrite with_slice_id. unfold with_procs. cbn.
    rewrite insert_id; [by destruct s|]. by rewrite (so_procs _ _ _ H). }
  intros s' ->. set (s2 := with_procs _ s1). assert (Hp2 : procs s2 !! p = Some (with_slice (slice_at k (time_slice x)) x)) by apply lookup_insert_eq. rewrite Hp2.
  cbn [of_option mbind outcome_bind]. set (s3 := with_procs _ s2).
  assert (Hr3 : rqs s3 !! Z.of_nat k = Some (MkRq (uint (zlen l)) (level_slice k))) by exact Hrq. rewrite Hr3.
  cbn [of_option mbind outcome_bind proc_num max_time_slice]. apply returns_done. unfold s3, s2, s1.
  eexists. destruct H as [H1 H2 H3 H4 H5 H6 H7 H8 H9 H10 H11 H12]. assert (Hne : forall z, z <> RunList (Z.of_nat k) -> z <> RunLink p ->
    (<[RunList (Z.of_nat k) := (RunLink <$> l) ++ [RunLink p]]> (delete (RunLink p) W)) !! z = W !! z) by (intros z Hz1 Hz2;
    by rewrite lookup_insert_ne, lookup_delete_ne by congruence).
  split; cbn [procs rqs timers lst current idleproc with_procs with_rqs with_lst set_qs set_ps aqs atm aps acur aidle atids]; [| | |exact Hr'|..]; try done; try (rewrite Hne by done; done).
  - rewrite insert_insert_eq. by rewrite H1.
  - by rewrite length_alter.
  - intros j l' Hj. destruct (decide (j = k)) as [->|Hjk].
    + rewrite list_lookup_alter_eq, Hl in Hj. injection Hj as <-. rewrite !lookup_insert_eq, fmap_app, zlen_app, uint_add. done.
    + rewrite list_lookup_alter_ne in Hj by congruence. rewrite Hne, (lookup_insert_ne (rqs s)) by (intros [=]; lia || done). by apply H7.
  - intros q [y Hy] Hnq. assert (Hqp : q <> p) by (intros ->; apply Hnq; apply (queued_enqueue _ p k l); [done|by left]). rewrite lookup_insert_ne in Hy by congruence.
    rewrite Hne by congruence. apply H8; [by eexists|]. intros Hqq. apply Hnq. apply (queued_enqueue _ p k l); [done|]. by right.
  - intros t Ht Hnt. rewrite Hne by done. by apply H10.
Qed.

Lemma sched_class_enqueue_spec s A W p x : sched_ok s A W -> aps A !! p = Some x -> ~ queued A p -> p <> aidle A -> (forall q, rq x = Some q -> 0 <= q < 4) ->
  returns (sched_class_enqueue p s) (fun s' => exists W', sched_ok s' (aenqueue p A) W').
Proof.
  intros H Hx Hq Hid Hrange. unfold sched_class_enqueue. rewrite decide_True by (by rewrite (so_idle _ _ _ H)). unfold MLFQ_enqueue.
  rewrite (run_link_empty s A W p) by (done || by eexists). cbn [mbind outcome_bind]. rewrite assert_ok by done. cbn [mbind outcome_bind].
  rewrite (get_proc_eq s A W p x) by done. cbn [mbind outcome_bind]. unfold aenqueue. rewrite Hx.
  eapply (returns_bind _ _ (fun n => n = Z.of_nat (next_level x) /\ (next_level x < 4)%nat)).
  - unfold next_level. destruct (rq x) as [q|]; [|apply returns_done; split; [done|lia]]. specialize (Hrange q eq_refl).
    destruct (time_slice x =? 0); [|apply returns_done; split; [done|lia]].
    rewrite (next_rq s A W q) by done. cbn [mbind outcome_bind le2rq]. apply returns_done. split; [|lia]. unfold rq0.
    destruct (Z.eqb_spec q 3) as [->|Hne]; [done|]. rewrite (proj2 (Z.eqb_neq _ _)) by lia. lia.
  - intros n [-> Hlt]. by eapply RR_enqueue_spec.
Qed.

Lemma filter_absent (p : Z) (l : list Z) : p ∉ l -> filter (fun y => y <> p) l = l.
Proof.
  induction l as [|y l IH]; intros Hp; [done|]. rewrite elem_of_cons in Hp. rewrite filter_cons_True by (intros ->; tauto). f_equal. tauto.
Qed.

Lemma filter_one (p : Z) (l1 l2 : list Z) : p ∉ l1 ++ l2 -> filter (fun y => y <> p) (l1 ++ p :: l2) = l1 ++ l2.
Proof. intros Hp. rewrite elem_of_app in Hp. rewrite filter_app, filter_cons_False by tauto. rewrite !filter_absent by tauto. done. Qed.

(** A process is in one queue, once. *)
Lemma queue_unique s A W k l1 p l2 : sched_ok s A W -> aqs A !! k = Some (l1 ++ p :: l2) -> (p ∉ l1 ++ l2) /\ forall j l, aqs A !! j = Some l -> j <> k -> p ∉ l.
Proof.
  intros H Hk. destruct (so_queue _ _ _ H k _ Hk) as [HW _]. pose proof (so_rings _ _ _ H) as Hr. split.
  - pose proof (rings_nodup _ _ _ _ Hr HW) as [_ Hnd]%NoDup_cons. apply NoDup_fmap_1 in Hnd. apply NoDup_app in Hnd as (_ & H1 & [H2 _]%NoDup_cons).
    rewrite elem_of_app. intros [Hi|Hi]; [apply (H1 p Hi); left|done].
  - intros j l Hj Hne Hp. destruct (so_queue _ _ _ H j _ Hj) as [HWj _]. assert (He : RunList (Z.of_nat k) = RunList (Z.of_nat j)); [|injection He; lia].
    eapply (rings_only _ _ _ _ _ _ (RunLink p) Hr HW HWj); apply list_elem_of_fmap; exists p; (split; [done|]); [rewrite elem_of_app; right; left|done].
Qed.

Lemma adequeue_eq s A W k l1 p l2 : sched_ok s A W -> aqs A !! k = Some (l1 ++ p :: l2) -> adequeue p A = set_qs <[k := l1 ++ l2]> A.
Proof.
  intros H Hk. destruct (queue_unique s A W k l1 p l2 H Hk) as [Hp Hoth]. unfold adequeue, set_qs. f_equal. apply list_eq. intros j. rewrite list_lookup_fmap.
  destruct (decide (j = k)) as [->|Hne].
  - rewrite Hk, list_lookup_insert_eq by (by eapply lookup_lt_Some). cbn. f_equal. by apply filter_one.
  - rewrite list_lookup_insert_ne by congruence. destruct (aqs A !! j) as [l|] eqn:E; [|done]. cbn. f_equal. apply filter_absent. by eapply Hoth.
Qed.

Lemma queued_dequeue A k l1 p l2 q : aqs A !! k = Some (l1 ++ p :: l2) -> (p ∉ l1 ++ l2) -> (forall j l, aqs A !! j = Some l -> j <> k -> p ∉ l) ->
  queued (set_qs <[k := l1 ++ l2]> A) q <-> q <> p /\ queued A q.
Proof.
  intros Hk Hp Hoth. pose proof (lookup_lt_Some _ _ _ Hk) as Hlt. split.
  - intros (m & (j & Hj)%list_elem_of_lookup & Hq). destruct (decide (j = k)) as [->|Hne].
    + cbn in Hj. rewrite list_lookup_insert_eq in Hj by done. injection Hj as <-. split; [by intros ->|]. exists (l1 ++ p :: l2).
      split; [by eapply list_elem_of_lookup_2|]. rewrite elem_of_app in Hq. rewrite elem_of_app, elem_of_cons. tauto.
    + cbn in Hj. rewrite list_lookup_insert_ne in Hj by congruence. split; [intros ->; by apply (Hoth j m)|]. exists m. split; [by eapply list_elem_of_lookup_2|done].
  - intros [Hqp (m & (j & Hj)%list_elem_of_lookup & Hq)]. destruct (decide (j = k)) as [->|Hne].
    + rewrite Hk in Hj. injection Hj as <-. exists (l1 ++ l2). split; [apply list_elem_of_lookup; exists k; cbn; by rewrite list_lookup_insert_eq|].
      rewrite elem_of_app, elem_of_cons in Hq. rewrite elem_of_app. tauto.
    + exists m. split; [|done]. apply list_elem_of_lookup. exists j. cbn. by rewrite list_lookup_insert_ne by congruence.
Qed.

Lemma dequeue_spec s A W k l1 p l2 x : sched_ok s A W -> aqs A !! k = Some (l1 ++ p :: l2) -> aps A !! p = Some x -> rq x = Some (Z.of_nat k) ->
  returns (sched_class_dequeue p s) (fun s' => exists W', sched_ok s' (adequeue p A) W').
Proof.
  intros H Hk Hx Hrq. destruct (so_queue _ _ _ H k _ Hk) as [HW Hr]. destruct (queue_unique s A W k l1 p l2 H Hk) as [Hp Hoth].
  assert (Hin : RunLink p ∈ RunLink <$> l1 ++ p :: l2) by (apply list_elem_of_fmap; exists p; split; [done|]; rewrite elem_of_app; right; left).
  unfold sched_class_dequeue, MLFQ_dequeue, RR_dequeue. rewrite (rings_inside _ _ _ _ _ (so_rings _ _ _ H) HW Hin). cbn [mbind outcome_bind].
  rewrite assert_ok by done. cbn [mbind outcome_bind]. rewrite (get_proc_eq s A W p x) by done.
  cbn [mbind outcome_bind]. rewrite Hrq. cbn [of_option mbind outcome_bind]. rewrite assert_ok by done. cbn [mbind outcome_bind]. rewrite fmap_app in HW. cbn [fmap list_fmap] in HW.
  destruct (rings_remove (lst s) W _ _ _ _ (so_rings _ _ _ H) HW) as (h' & Eh & Hr' & _). unfold on_list. rewrite Eh. cbn [mbind outcome_bind].
  set (s1 := with_lst h' s). unfold upd_rq, get_rq. change (rqs s1) with (rqs s). rewrite Hr. cbn [of_option mbind outcome_bind proc_num max_time_slice].
  apply returns_done. rewrite (adequeue_eq s A W k l1 p l2) by done. eexists. pose proof (queued_dequeue A k l1 p l2) as Hqd.
  destruct H as [H1 H2 H3 H4 H5 H6 H7 H8 H9 H10 H11 H12]. pose proof (lookup_lt_Some _ _ _ Hk) as Hlt.
  match type of Hr' with rings _ ?W1 => assert (Hne : forall z, z <> RunList (Z.of_nat k) -> z <> RunLink p -> W1 !! z = W !! z) by (intros z Hz1 Hz2;
    by rewrite !lookup_insert_ne by congruence) end.
  split; cbn [procs rqs timers lst current idleproc with_rqs with_lst s1 set_qs aqs atm aps acur aidle atids]; [| | |exact Hr'|..]; try done; try (rewrite Hne by done; done).
  - by rewrite length_insert.
  - intros j l Hj. destruct (decide (j = k)) as [->|Hjk].
    + rewrite list_lookup_insert_eq in Hj by done. injection Hj as <-. rewrite lookup_insert_ne, !lookup_insert_eq, fmap_app by done. split; [done|]. unfold Z.sub.
      rewrite uint_add. do 3 f_equal. rewrite !zlen_app, zlen_cons. lia.
    + rewrite list_lookup_insert_ne in Hj by congruence. rewrite Hne, (lookup_insert_ne (rqs s)) by (intros [=]; lia || done). by apply H7.
  - intros q Hq Hnq. destruct (decide (q = p)) as [->|Hqp]; [by rewrite lookup_insert_eq|]. rewrite Hne by congruence. apply H8; [done|]. intros Hqq. apply Hnq, Hqd; done.
  - intros t Ht Hnt. rewrite Hne by done. by apply H10.
Qed.

Lemma pick_next_spec s A W : sched_ok s A W -> returns (sched_class_pick_next s) (fun r => r = head (concat (aqs A))).
Proof.
  intros H. unfold sched_class_pick_next, MLFQ_pick_next. pose proof (so_len _ _ _ H) as Hlen.
  apply (loop_returns_le (fun n le => exists k, (k < 4)%nat /\ le = RqLink (Z.of_nat k) /\ n = (4 - k)%nat /\ head (concat (aqs A)) = head (concat (drop k (aqs A)))) _ _ _ 4).
  2: { exists 0%nat. split_and!; try done; lia. }
  2: { pose proof (rings_size _ _ _ _ (so_rings _ _ _ H) (so_rqlink _ _ _ H)) as Hs. cbn in Hs. unfold l_fuel. lia. }
  intros n le (k & Hk & -> & -> & Hhd). cbn [le2rq mbind outcome_bind]. destruct (queue_of s A W k H Hk) as (l & Hl). destruct (so_queue _ _ _ H k l Hl) as [HW _].
  rewrite (drop_S _ _ _ Hl) in Hhd. cbn [concat] in Hhd.
  unfold RR_pick_next. rewrite (rings_next _ _ _ _ (so_rings _ _ _ H) HW). cbn [mbind outcome_bind]. destruct l as [|p l]; cbn [fmap list_fmap head default from_option].
  - rewrite decide_False by tauto. cbn [mbind outcome_bind]. rewrite (next_rq s A W) by (done || lia). cbn [mbind outcome_bind]. destruct (Z.eqb_spec (Z.of_nat k) 3) as [E|E].
    + rewrite decide_False by (by intros []). apply returns_done. rewrite Hhd. cbn [app]. by rewrite drop_ge by lia.
    + rewrite decide_True by (intros [=]; unfold rq0 in *; lia). apply returns_done. exists (4 - S k)%nat. split; [|lia]. exists (S k). split_and!; try done; [lia|f_equal; lia].
  - rewrite decide_True by done. cbn [mbind outcome_bind le2proc]. apply returns_done. by rewrite Hhd.
Qed.
