(* ===== verification/SchedProofs.v ===== *)
(** The scheduler of the ucore kernel: the invariant of the abstract scheduler, and the
    proofs for wakeup_proc and schedule. *)

From S2P Require Import Prelude CList CRings Sched SchedState.
From stdpp Require Import list gmap.
#[local] Open Scope Z_scope.

Section Cpu.
Context (lcpu_count : Z).

(** * Operations of the abstract scheduler *)

Definition awakeup (p : Z) (A : astate) : astate :=
  match aps A !! p with
  | Some x =>
      if decide (state x = PROC_RUNNABLE) then A
      else let A := set_proc (with_state PROC_RUNNABLE 0) p A in if decide (p = acur A) then A else aenqueue p A
  | None => A
  end.

(** The running process goes back to a queue if it can run, and the first process of the
    first queue that is not empty, or else the idle process, runs. *)
Definition aschedule (A : astate) : astate :=
  let A := set_proc (with_resched false) (acur A) A in
  let A := match aps A !! acur A with Some c => if decide (state c = PROC_RUNNABLE /\ lcpu_count <= pid c) then aenqueue (acur A) A else A | None => A end in
  let run p A := set_cur p (set_proc (fun x => with_runs (int (runs x + 1)) x) p A) in
  match head (concat (aqs A)) with Some p => run p (adequeue p A) | None => run (aidle A) A end.

(** * The invariant *)

(** A process that waits for a timer can be woken up. *)
Definition wakeable (x : proc_struct) : Prop := state x <> PROC_ZOMBIE /\ (wait_state x = 0 \/ Z.land (wait_state x) WT_INTERRUPTED <> 0) /\ lcpu_count <= pid x.

(** [c] runs.  A process that can run, does not run, and is not the idle process is in a
    queue; [E] are exceptions. *)
Record ainv (c : Z) (E : Z -> Prop) (A : astate) : Prop := {
  ai_queue k l p : aqs A !! k = Some l -> p ∈ l -> p <> c /\ exists x, aps A !! p = Some x /\ rq x = Some (Z.of_nat k) /\ state x = PROC_RUNNABLE /\ lcpu_count <= pid x;
  ai_cur : exists x, aps A !! c = Some x /\ (c = aidle A \/ lcpu_count <= pid x);
  ai_idle : exists x, aps A !! aidle A = Some x /\ pid x < lcpu_count;
  ai_rq p x q : aps A !! p = Some x -> rq x = Some q -> 0 <= q < 4;
  ai_run p x : aps A !! p = Some x -> state x = PROC_RUNNABLE -> p <> c -> p <> aidle A -> ~ E p -> queued A p;
  ai_timer t p r : (t, (p, r)) ∈ atm A -> t ∈ atids A /\ exists x, aps A !! p = Some x /\ wakeable x;
  ai_len : length (aqs A) = 4%nat }.

Definition none (p : Z) : Prop := False.

Lemma not_idle c E A p x : ainv c E A -> aps A !! p = Some x -> lcpu_count <= pid x -> p <> aidle A.
Proof. intros H Hx Hp ->. destruct (ai_idle _ _ _ H) as (y & Hy & Hlt). rewrite Hx in Hy. injection Hy as <-. lia. Qed.

Lemma not_queued c E A p x : ainv c E A -> aps A !! p = Some x -> state x <> PROC_RUNNABLE \/ p = c -> ~ queued A p.
Proof.
  intros H Hx Hor (l & (k & Hk)%list_elem_of_lookup & Hp). destruct (ai_queue _ _ _ H k l p Hk Hp) as (Hc & y & Hy & _ & Hrun & _). rewrite Hx in Hy. injection Hy as <-. destruct Hor; done.
Qed.

(** A change that the invariant does not look at. *)
Definition neutral (f : proc_struct -> proc_struct) : Prop := forall x, state (f x) = state x /\ pid (f x) = pid x /\ wait_state (f x) = wait_state x /\ rq (f x) = rq x.

Lemma lookup_set_proc f p A x q y : aps A !! p = Some x -> aps (set_proc f p A) !! q = Some y -> q = p /\ y = f x \/ q <> p /\ aps A !! q = Some y.
Proof. intros Hx. unfold set_proc. rewrite Hx. cbn [set_ps aps]. intros [[<- <-]|[Hne Hy]]%lookup_insert_Some; [by left|by right]. Qed.

Lemma lookup_set_proc_ne f p A q y : q <> p -> aps A !! q = Some y -> aps (set_proc f p A) !! q = Some y.
Proof. intros Hne Hy. unfold set_proc. destruct (aps A !! p); [|done]. cbn. by rewrite lookup_insert_ne by congruence. Qed.

Lemma lookup_set_proc_eq f p A x : aps A !! p = Some x -> aps (set_proc f p A) !! p = Some (f x).
Proof. intros Hx. unfold set_proc. rewrite Hx. apply lookup_insert_eq. Qed.

Lemma set_proc_same f p A : aqs (set_proc f p A) = aqs A /\ atm (set_proc f p A) = atm A /\ acur (set_proc f p A) = acur A /\ aidle (set_proc f p A) = aidle A /\
  atids (set_proc f p A) = atids A.
Proof. unfold set_proc. by destruct (aps A !! p). Qed.

(** Every process keeps what [P] says, if [f] does. *)
Lemma set_proc_keeps f p A q y (P : proc_struct -> Prop) : (P y -> P (f y)) -> aps A !! q = Some y -> P y -> exists z, aps (set_proc f p A) !! q = Some z /\ P z.
Proof.
  intros Hf Hy HP. destruct (decide (q = p)) as [->|Hne]; [exists (f y); split; [by apply lookup_set_proc_eq|auto]|]. exists y. split; [by apply lookup_set_proc_ne|done].
Qed.

Lemma ainv_neutral c E A f p x : ainv c E A -> aps A !! p = Some x -> neutral f -> ainv c E (set_proc f p A).
Proof.
  intros [H1 H2 H3 H4 H5 H6 H7] Hx Hf. destruct (set_proc_same f p A) as (Eq & Et & _ & Ei & Ed). split; rewrite ?Eq, ?Et, ?Ei, ?Ed; try done.
  - intros k l q Hk Hq. destruct (H1 k l q Hk Hq) as (Hc & y & Hy & Hrest). split; [done|].
    apply (set_proc_keeps f p A q y (fun z => rq z = Some (Z.of_nat k) /\ state z = PROC_RUNNABLE /\ lcpu_count <= pid z)); try done.
    destruct (Hf y) as (-> & -> & _ & ->). done.
  - destruct H2 as (y & Hy & Hc). apply (set_proc_keeps f p A c y (fun z => c = aidle A \/ lcpu_count <= pid z)); try done. by destruct (Hf y) as (_ & -> & _).
  - destruct H3 as (y & Hy & Hc). apply (set_proc_keeps f p A _ y (fun z => pid z < lcpu_count)); try done. by destruct (Hf y) as (_ & -> & _).
  - intros q y k [[-> ->]|[Hne Hy]]%(lookup_set_proc f p A x); [|by apply (H4 q)|done]. destruct (Hf x) as (_ & _ & _ & ->). by apply (H4 p).
  - intros q y [[-> ->]|[Hne Hy]]%(lookup_set_proc f p A x); [destruct (Hf x) as (-> & _)| |done]; intros Hs Hqc Hqi HE;
      destruct (H5 _ _ ltac:(eassumption) Hs Hqc Hqi HE) as (l & Hl & Hq); exists l; by rewrite Eq.
  - intros t q r Hin. destruct (H6 t q r Hin) as (Ht & y & Hy & Hw). split; [done|]. apply (set_proc_keeps f p A q y wakeable); try done. unfold wakeable.
    by destruct (Hf y) as (-> & -> & -> & _).
Qed.

(** A process that can run, and is in no queue, is put into one. *)
Lemma ainv_enqueue c E A p x : ainv c E A -> aps A !! p = Some x -> state x = PROC_RUNNABLE -> lcpu_count <= pid x -> p <> c -> ~ queued A p ->
  (forall q, E q -> q = p) -> ainv c none (aenqueue p A).
Proof.
  intros [H1 H2 H3 H4 H5 H6 H7] Hx Hs Hpid Hc Hnq HE. unfold aenqueue. rewrite Hx. set (k := next_level x).
  set (g := fun x => with_rq (Z.of_nat k) (with_slice (slice_at k (time_slice x)) x)).
  assert (Hk : (k < 4)%nat) by (unfold k, next_level; destruct (rq x); [destruct (time_slice x =? 0)|]; lia). destruct (lookup_lt_is_Some_2 (aqs A) k ltac:(lia)) as (l & Hl).
  assert (Eset : set_ps <[p := with_rq (Z.of_nat k) (with_slice (slice_at k (time_slice x)) x)]> A = set_proc g p A) by (unfold set_proc; by rewrite Hx).
  rewrite Eset. destruct (set_proc_same g p A) as (Eq & Et & _ & Ei & Ed).
  assert (Hqu : forall q, queued (set_qs (alter (fun l => l ++ [p]) k) (set_proc g p A)) q <-> q = p \/ queued A q) by (intros q;
    rewrite (queued_enqueue (set_proc g p A) p k l) by (by rewrite Eq); unfold queued; by rewrite Eq).
  split; cbn [set_qs aqs atm aps acur aidle atids]; rewrite ?Eq, ?Et, ?Ei, ?Ed.
  - intros j m q Hj Hq. destruct (decide (j = k)) as [->|Hne];
      [rewrite list_lookup_alter_eq, Hl in Hj; injection Hj as <-; apply elem_of_app in Hq as [Hq| ->%list_elem_of_singleton]|rewrite list_lookup_alter_ne in Hj by
      congruence].
    + destruct (H1 k l q Hl Hq) as (Hqc & y & Hy & Hrest). split; [done|]. apply (set_proc_keeps g p A q y (fun z => rq z = Some (Z.of_nat k) /\
        state z = PROC_RUNNABLE /\ lcpu_count <= pid z)); try done. cbn. tauto.
    + split; [done|]. exists (g x). split; [by apply lookup_set_proc_eq|]. done.
    + destruct (H1 j m q Hj Hq) as (Hqc & y & Hy & Hrest). split; [done|]. destruct (decide (q = p)) as [->|Hqp]; [|exists y; split; [by apply lookup_set_proc_ne|done]].
      destruct Hnq. exists m. split; [by eapply list_elem_of_lookup_2|done].
  - destruct H2 as (y & Hy & Hcc). apply (set_proc_keeps g p A c y (fun z => c = aidle A \/ lcpu_count <= pid z)); done.
  - destruct H3 as (y & Hy & Hcc). apply (set_proc_keeps g p A _ y (fun z => pid z < lcpu_count)); done.
  - intros q y j [[-> ->]|[Hne Hy]]%(lookup_set_proc g p A x); [|by apply (H4 q)|done]. cbn. intros [= <-]. lia.
  - intros q y [[-> ->]|[Hne Hy]]%(lookup_set_proc g p A x); [intros _ _ _ _; apply Hqu; by left| |done]. intros Hr Hqc Hqi _. apply Hqu. right. apply (H5 q y); try done. intros Hq%HE. done.
  - intros t q r Hin. destruct (H6 t q r Hin) as (Ht & y & Hy & Hw). split; [done|]. by apply (set_proc_keeps g p A q y wakeable).
  - by rewrite length_alter.
Qed.

(** The state of a process that is in no queue changes. *)
Lemma ainv_state c A p x st w : ainv c none A -> aps A !! p = Some x -> ~ queued A p -> (forall t r, (t, (p, r)) ∈ atm A -> st <> PROC_ZOMBIE /\ (w = 0 \/ Z.land w WT_INTERRUPTED <> 0)) ->
  ainv c (fun q => q = p) (set_proc (with_state st w) p A).
Proof.
  intros [H1 H2 H3 H4 H5 H6 H7] Hx Hnq Hown. set (f := with_state st w). destruct (set_proc_same f p A) as (Eq & Et & _ & Ei & Ed). split; rewrite ?Eq, ?Et, ?Ei, ?Ed; try done.
  - intros k l q Hk Hq. destruct (H1 k l q Hk Hq) as (Hc & y & Hy & Hrest). split; [done|]. exists y. split; [|done]. apply lookup_set_proc_ne; [|done].
    intros ->. apply Hnq. exists l. split; [by eapply list_elem_of_lookup_2|done].
  - destruct H2 as (y & Hy & Hc). by apply (set_proc_keeps f p A c y (fun z => c = aidle A \/ lcpu_count <= pid z)).
  - destruct H3 as (y & Hy & Hc). by apply (set_proc_keeps f p A _ y (fun z => pid z < lcpu_count)).
  - intros q y k [[-> ->]|[Hne Hy]]%(lookup_set_proc f p A x); [|by apply (H4 q)|done]. by apply (H4 p x).
  - intros q y [[-> ->]|[Hne Hy]]%(lookup_set_proc f p A x); [by intros _ _ _ HE| |done]. intros Hs Hqc Hqi HE. destruct (H5 q y Hy Hs Hqc Hqi id) as (l & Hl & Hq). exists l. by rewrite Eq.
  - intros t q r Hin. destruct (H6 t q r Hin) as (Ht & y & Hy & Hw). split; [done|]. destruct (decide (q = p)) as [->|Hne]; [|exists y; split; [by apply lookup_set_proc_ne|done]].
    exists (f x). split; [by apply lookup_set_proc_eq|]. rewrite Hx in Hy. injection Hy as <-. destruct Hw as (_ & _ & Hp), (Hown t r Hin). done.
Qed.

#[local] Instance queued_dec A p : Decision (queued A p).
Proof. unfold queued. refine (cast_if (decide (Exists (fun l => p ∈ l) (aqs A)))); rewrite <- Exists_exists; done. Defined.

Lemma ainv_none c E A : ainv c E A -> (forall p x, E p -> aps A !! p = Some x -> state x = PROC_RUNNABLE -> p = c \/ p = aidle A \/ queued A p) -> ainv c none A.
Proof.
  intros [H1 H2 H3 H4 H5 H6 H7] HE. split; try done. intros p x Hx Hs Hc Hi _. destruct (decide (queued A p)) as [|Hn]; [done|]. apply (H5 p x); try done.
  intros HEp. destruct (HE p x HEp Hx Hs) as [|[|]]; done.
Qed.

(** * wakeup_proc *)

Lemma aenqueue_same p A : atm (aenqueue p A) = atm A /\ acur (aenqueue p A) = acur A /\ aidle (aenqueue p A) = aidle A /\ atids (aenqueue p A) = atids A.
Proof. unfold aenqueue. by destruct (aps A !! p). Qed.

Lemma awakeup_same p A : atm (awakeup p A) = atm A /\ acur (awakeup p A) = acur A /\ aidle (awakeup p A) = aidle A /\ atids (awakeup p A) = atids A.
Proof.
  unfold awakeup. destruct (aps A !! p) as [x|]; [|done]. destruct (decide _); [done|]. cbv zeta.
  destruct (set_proc_same (with_state PROC_RUNNABLE 0) p A) as (_ & ? & ? & ? & ?). destruct (decide _); [done|].
  destruct (aenqueue_same p (set_proc (with_state PROC_RUNNABLE 0) p A)) as (? & ? & ? & ?). split_and!; congruence.
Qed.

Lemma ainv_awakeup A p x : ainv (acur A) none A -> aps A !! p = Some x -> lcpu_count <= pid x -> ainv (acur A) none (awakeup p A).
Proof.
  intros H Hx Hp. unfold awakeup. rewrite Hx. destruct (decide (state x = PROC_RUNNABLE)) as [Hs|Hs]; [done|]. cbv zeta. pose proof (not_queued _ _ _ _ _ H Hx (or_introl Hs)) as Hnq.
  pose proof (ainv_state (acur A) A p x PROC_RUNNABLE 0 H Hx Hnq ltac:(by intros; split; [|left])) as H1.
  set (A1 := set_proc _ p A) in *. destruct (set_proc_same (with_state PROC_RUNNABLE 0) p A) as (Eq & _ & Ec & _). fold A1 in Eq, Ec. rewrite Ec.
  destruct (decide (p = acur A)) as [->|Hne].
  - apply (ainv_none _ _ _ H1). intros q y -> _ _. by left.
  - apply (ainv_enqueue _ (fun q => q = p) A1 p (with_state PROC_RUNNABLE 0 x)); try done; [by apply lookup_set_proc_eq|]. unfold queued. by rewrite Eq.
Qed.

Lemma wakeup_proc_spec s A W p x : sched_ok s A W -> ainv (acur A) none A -> aps A !! p = Some x -> state x <> PROC_ZOMBIE -> lcpu_count <= pid x ->
  returns (wakeup_proc lcpu_count p s) (fun s' => exists W', sched_ok s' (awakeup p A) W').
Proof.
  intros H Hinv Hx Hz Hp. unfold wakeup_proc, awakeup. rewrite (get_proc_eq s A W p x), Hx by done. cbn [mbind outcome_bind].
  rewrite (assert_ok (state x <> PROC_ZOMBIE)) by done. cbn [mbind outcome_bind].
  destruct (decide (state x = PROC_RUNNABLE)) as [Hs|Hs]; [rewrite decide_False by tauto; apply returns_done; by exists W|]. rewrite decide_True by done. cbv zeta.
  destruct (ok_set_proc s A W p x (with_state PROC_RUNNABLE 0) H Hx) as [-> H1]. cbn [mbind outcome_bind].
  set (s1 := with_procs _ s) in *. pose proof (not_queued _ _ _ _ _ Hinv Hx (or_introl Hs)) as Hnq. set (A1 := set_proc _ p A) in *.
  destruct (set_proc_same (with_state PROC_RUNNABLE 0) p A) as (Eq & _ & Ec & Ei & _). fold A1 in Eq, Ec, Ei. rewrite (so_cur _ _ _ H1), Ec.
  destruct (decide (p = acur A)) as [->|Hne]; [rewrite decide_False by tauto; apply returns_done; by exists W|]. rewrite decide_True by done.
  rewrite assert_ok by done. cbn [mbind outcome_bind].
  apply (sched_class_enqueue_spec s1 A1 W p (with_state PROC_RUNNABLE 0 x));
    [done|by apply lookup_set_proc_eq|unfold queued; by rewrite Eq|rewrite Ei; by eapply not_idle|]. intros q Hq. by apply (ai_rq _ _ _ Hinv p x).
Qed.

(** * schedule *)

Lemma ainv_run c A : ainv c none A -> c = acur A -> ainv (aidle A) (fun q => q = c) A.
Proof.
  intros [H1 H2 H3 H4 H5 H6 H7] ->. split; try done.
  - intros k l p Hk Hp. destruct (H1 k l p Hk Hp) as (_ & x & Hx & Hr & Hs & Hpid). split; [|by exists x]. intros ->. destruct H3 as (y & Hy & Hlt).
    rewrite Hx in Hy. injection Hy as <-. lia.
  - destruct H3 as (x & Hx & _). exists x. split; [done|by left].
  - intros p x Hx Hs _ Hi HE. exact (H5 p x Hx Hs HE Hi id).
Qed.

Lemma ainv_set_cur c E A q : ainv c E A -> ainv c E (set_cur q A).
Proof. intros [H1 H2 H3 H4 H5 H6 H7]. by split. Qed.

Lemma ainv_dequeue A k l1 p l2 : ainv (aidle A) none A -> aqs A !! k = Some (l1 ++ p :: l2) -> (p ∉ l1 ++ l2) ->
  (forall j l, aqs A !! j = Some l -> j <> k -> p ∉ l) -> ainv p none (set_qs <[k := l1 ++ l2]> A).
Proof.
  intros [H1 H2 H3 H4 H5 H6 H7] Hk Hp Hoth. pose proof (lookup_lt_Some _ _ _ Hk) as Hlt. destruct (H1 k _ p Hk ltac:(rewrite elem_of_app; right; left)) as (Hpi & x & Hx & _ & _ & Hpid).
  split; cbn [set_qs aqs atm aps acur aidle atids]; try done.
  - intros j l q Hj Hq. destruct (decide (j = k)) as [->|Hne].
    + rewrite list_lookup_insert_eq in Hj by done. injection Hj as <-. destruct (H1 k _ q Hk) as (_ & Hrest);
        [rewrite elem_of_app in Hq; rewrite elem_of_app, elem_of_cons; tauto|]. split; [by intros ->|done].
    + rewrite list_lookup_insert_ne in Hj by congruence. destruct (H1 j l q Hj Hq) as (_ & Hrest). split; [|done]. intros ->. by apply (Hoth j l).
  - exists x. split; [done|by right].
  - intros q y Hy Hs Hqp Hqi _. apply (queued_dequeue A k l1 p l2); try done. split; [done|]. destruct (decide (q = aidle A)) as [->|Hne]; [done|]. exact (H5 q y Hy Hs Hne Hne id).
  - by rewrite length_insert.
Qed.

Lemma concat_head (Q : list (list Z)) p : head (concat Q) = Some p -> exists k l, Q !! k = Some (p :: l).
Proof.
  induction Q as [|[|y l] Q IH]; cbn [concat app head]; [done| |intros [= ->]; by exists 0%nat, l]. intros (k & l & Hk)%IH. by exists (S k), l.
Qed.

Lemma ok_set_cur s A W p : sched_ok s A W -> sched_ok (with_current p s) (set_cur p A) W.
Proof. intros [H1 H2 H3 H4 H5 H6 H7 H8 H9 H10 H11 H12]. by split. Qed.

(** The process [p] runs now. *)
Lemma switch_spec s A W p x : sched_ok s A W -> aps A !! p = Some x -> ainv p none A ->
  returns (s ← upd_proc (fun x => with_runs (int (runs x + 1)) x) p s; Done (if decide (p <> current s) then with_current p s else s))
    (fun s' => let A' := set_cur p (set_proc (fun x => with_runs (int (runs x + 1)) x) p A) in (exists W', sched_ok s' A' W') /\ ainv p none A').
Proof.
  intros H Hx Hinv. destruct (ok_set_proc s A W p x (fun x => with_runs (int (runs x + 1)) x) H Hx) as [-> H1]. cbn [mbind outcome_bind].
  set (s1 := with_procs _ s) in *. apply returns_done. cbv zeta.
  split; [|by apply ainv_set_cur, (ainv_neutral _ _ _ _ _ x)]. exists W. pose proof (ok_set_cur _ _ _ p H1) as H2.
  destruct (decide (p <> current s1)) as [|Hn]; [done|]. apply dec_stable in Hn. rewrite Hn in H2 at 1. by destruct s.
Qed.

(** The first half of schedule: the running process goes back to its queue. *)
Lemma requeue_spec s A W : sched_ok s A W -> ainv (acur A) none A ->
  returns (s ← upd_proc (with_resched false) (current s) s; c ← get_proc (current s) s;
    if decide (state c = PROC_RUNNABLE /\ lcpu_count <= pid c) then sched_class_enqueue (current s) s else Done s)
    (fun s' => let A1 := set_proc (with_resched false) (acur A) A in
       let A2 := match aps A1 !! acur A1 with Some c => if decide (state c = PROC_RUNNABLE /\ lcpu_count <= pid c) then aenqueue (acur A1) A1 else A1 | None => A1 end in
       (exists W', sched_ok s' A2 W') /\ ainv (aidle A2) none A2).
Proof.
  intros H Hinv. destruct (ai_cur _ _ _ Hinv) as (x & Hx & Hcur). rewrite (so_cur _ _ _ H). destruct (ok_set_proc s A W _ x (with_resched false) H Hx) as [-> H1].
  cbn [mbind outcome_bind]. set (s1 := with_procs _ s) in *.
  pose proof (ainv_neutral _ _ _ (with_resched false) _ _ Hinv Hx ltac:(done)) as Hinv1. cbv zeta.
  set (A1 := set_proc (with_resched false) (acur A) A) in *. destruct (set_proc_same (with_resched false) (acur A) A) as (Eq & _ & Ec & Ei & _).
  fold A1 in Eq, Ec, Ei.
  assert (Hx1 : aps A1 !! acur A1 = Some (with_resched false x)) by (rewrite Ec; by apply lookup_set_proc_eq). rewrite Hx1.
  rewrite (so_cur _ _ _ H1), (get_proc_eq s1 A1 W _ _ H1 Hx1). cbn [mbind outcome_bind]. rewrite <- Ec in Hinv1.
  pose proof (ainv_run _ _ Hinv1 eq_refl) as Hinv2. pose proof (not_queued _ _ _ _ _ Hinv1 Hx1 (or_intror eq_refl)) as Hnq. cbn [state pid with_resched].
  destruct (decide (state x = PROC_RUNNABLE /\ lcpu_count <= pid x)) as [[Hs Hp]|Hno].
  - pose proof (not_idle _ _ _ _ _ Hinv1 Hx1 Hp) as Hni. go_mono (sched_class_enqueue_spec s1 A1 W (acur A1) _ H1 Hx1 Hnq Hni ltac:(intros q;
      by apply (ai_rq _ _ _ Hinv1 (acur A1)))). intros s' Hs'. split; [done|].
    destruct (aenqueue_same (acur A1) A1) as (_ & _ & -> & _). by apply (ainv_enqueue _ (fun q => q = acur A1) A1 (acur A1) (with_resched false x)).
  - apply returns_done. split; [by exists W|]. apply (ainv_none _ _ _ Hinv2). intros p y -> Hy Hs. rewrite Hx1 in Hy. injection Hy as <-. cbn in Hs. rewrite Ec, Ei.
    destruct Hcur as [?|Hp]; [by left|]. destruct Hno. by split.
Qed.

Lemma schedule_spec s A W : sched_ok s A W -> ainv (acur A) none A ->
  returns (schedule lcpu_count s) (fun s' => (exists W', sched_ok s' (aschedule A) W') /\ ainv (acur (aschedule A)) none (aschedule A)).
Proof.
  intros H Hinv. unfold schedule, aschedule. pose proof (requeue_spec s A W H Hinv) as Hre. cbv zeta in *. set (A2 := match aps _ !! _ with Some _ => _ | None => _ end) in *.
  destruct Hre as (s2 & Es2 & (W2 & H2) & Hinv2). assert (Hbind : forall k : sched -> outcome sched, (s ← upd_proc (with_resched false) (current s) s; c ← get_proc (current s) s;
    s ← (if decide (state c = PROC_RUNNABLE /\ lcpu_count <= pid c) then sched_class_enqueue (current s) s else Done s); k s) = k s2).
  { intros k. destruct (upd_proc (with_resched false) (current s) s) as [s1| |]; cbn [mbind outcome_bind] in *; [|done|done].
    destruct (get_proc (current s1) s1) as [c| |]; cbn [mbind outcome_bind] in *; [|done|done]. by rewrite Es2. }
  rewrite Hbind. clear Hbind Es2. eapply returns_bind; [by apply (pick_next_spec s2 A2 W2)|]. intros r ->. destruct (head (concat (aqs A2))) as [p|] eqn:Eh.
  - apply concat_head in Eh as (k & l & Hk). destruct (ai_queue _ _ _ Hinv2 k _ p Hk ltac:(left)) as (Hpi & x & Hx & Hrq & _).
    eapply returns_bind; [by apply (dequeue_spec s2 A2 W2 k [] p l x)|]. intros s3 (W3 & H3).
    destruct (queue_unique s2 A2 W2 k [] p l H2 Hk) as [Hp Hoth]. pose proof (ainv_dequeue A2 k [] p l Hinv2 Hk Hp Hoth) as Hinv3.
    rewrite (adequeue_eq s2 A2 W2 k [] p l H2 Hk) in *. by apply (switch_spec s3 _ W3 p x).
  - cbn [mbind outcome_bind]. destruct (ai_idle _ _ _ Hinv2) as (x & Hx & _). rewrite (so_idle _ _ _ H2). by apply (switch_spec s2 A2 W2 (aidle A2) x).
Qed.
End Cpu.
