(* ===== verification/SchedTimers.v ===== *)
(** The scheduler of the ucore kernel: the timers.  Each timer in the list counts from the
    end of the one before it; together they keep the time that is left for each. *)

From S2P Require Import Prelude CList CRings Sched SchedState SchedProofs.
From stdpp Require Import list gmap.
#[local] Open Scope Z_scope.

(** * Timers of the abstract scheduler *)

(** A new timer goes behind those that end at the same time. *)
Fixpoint ains (t p r : Z) (l : list (Z * (Z * Z))) : list (Z * (Z * Z)) :=
  match l with
  | [] => [(t, (p, r))]
  | y :: l' => if r <? y.2.2 then (t, (p, r)) :: l else y :: ains t p r l'
  end.

Definition adel (t : Z) (A : astate) : astate := set_tm (filter (fun y => y.1 <> t) (atm A)) A.

(** * Differences *)

Fixpoint last_rem (base : Z) (l : list (Z * (Z * Z))) : Z := match l with [] => base | (_, (_, r)) :: l' => last_rem r l' end.

Lemma deltas_app T b l1 l2 : deltas T b (l1 ++ l2) <-> deltas T b l1 /\ deltas T (last_rem b l1) l2.
Proof. revert b. induction l1 as [|[t [p r]] l1 IH]; intros b; cbn [app deltas last_rem]; [tauto|]. rewrite IH. tauto. Qed.

Lemma deltas_agree T T' b l : (forall t, t ∈ l.*1 -> T' !! t = T !! t) -> deltas T b l -> deltas T' b l.
Proof.
  revert b. induction l as [|[t [p r]] l IH]; intros b He; cbn [deltas fmap list_fmap fst] in *; [done|]. intros (Ht & Hb & Hr & Hl).
  split_and!; try done; [rewrite He; [done|left]|]. apply IH; [|done]. intros u Hu. apply He. by right.
Qed.

Lemma deltas_le T b l : deltas T b l -> b <= last_rem b l /\ forall t p r, (t, (p, r)) ∈ l -> b <= r /\ r < 2 ^ 32 /\ is_Some (T !! t).
Proof.
  revert b. induction l as [|[t [p r]] l IH]; intros b; cbn [deltas last_rem]; [intros _; split; [lia|]; by intros ? ? ? Hi%elem_of_nil|].
  intros (Ht & Hb & Hr & [Hlast Hl]%IH). split; [lia|].
  intros t' p' r' [[= -> -> ->]|Hin]%elem_of_cons; [split_and!; try done; by eexists|]. destruct (Hl t' p' r' Hin) as (? & ? & ?). split_and!; try done. lia.
Qed.

Lemma last_rem_snoc b l t p r : last_rem b (l ++ [(t, (p, r))]) = r.
Proof. revert b. induction l as [|[t' [p' r']] l IH]; intros b; [done|]. apply IH. Qed.

Lemma ains_app t p r l1 l2 : (forall y, y ∈ l1 -> y.2.2 <= r) -> (forall y, head l2 = Some y -> r < y.2.2) -> ains t p r (l1 ++ l2) = l1 ++ (t, (p, r)) :: l2.
Proof.
  intros H1 H2. induction l1 as [|y l1 IH]; cbn [app ains].
  - destruct l2 as [|y l2]; [done|]. cbn [ains]. by rewrite (proj2 (Z.ltb_lt _ _)) by (by apply H2).
  - rewrite (proj2 (Z.ltb_ge _ _)) by (apply H1; left). f_equal. apply IH. intros z Hz. apply H1. by right.
Qed.

(** * Changes of the timers *)

Lemma get_timer_eq s t x : timers s !! t = Some x -> get_timer t s = Done x.
Proof. intros Ht. unfold get_timer. by rewrite Ht. Qed.

Lemma upd_timer_eq s t x f : timers s !! t = Some x -> upd_timer f t s = Done (with_timers <[t := f x]> s).
Proof. intros Ht. unfold upd_timer. by rewrite (get_timer_eq s t x). Qed.

(** Only the timers and their list change. *)
Lemma ok_timers s A W h' W' T' l' : sched_ok s A W -> rings h' W' -> (forall z, z <> TimerList -> (forall t, z <> TimerLink t) -> W' !! z = W !! z) ->
  W' !! TimerList = Some (TimerLink <$> l'.*1) -> (forall t, t ∈ atids A -> t ∉ l'.*1 -> W' !! TimerLink t = Some []) -> (forall t, t ∈ atids A -> is_Some (T' !! t)) -> deltas T' 0 l' ->
  sched_ok (with_timers (fun _ => T') (with_lst h' s)) (set_tm l' A) W'.
Proof.
  intros [H1 H2 H3 H4 H5 H6 H7 H8 H9 H10 H11 H12] Hr Hne Hl Hs Ht Hd. split; cbn; try done.
  - by rewrite Hne.
  - intros k l Hk. rewrite Hne by done. by apply H7.
  - intros p Hp Hq. rewrite Hne by done. by apply H8.
Qed.

Lemma set_tm_id A : set_tm (atm A) A = A.
Proof. by destruct A. Qed.

Lemma tm_nodup s A W : sched_ok s A W -> NoDup (atm A).*1.
Proof. intros H. pose proof (rings_nodup _ _ _ _ (so_rings _ _ _ H) (so_list _ _ _ H)) as [_ Hn]%NoDup_cons. by apply NoDup_fmap_1 in Hn. Qed.

Lemma is_Some_insert_timer (T : gmap Z timer_t) t x u : is_Some (T !! u) -> is_Some (<[t := x]> T !! u).
Proof. intros Hu. destruct (decide (u = t)) as [->|Hne]; [rewrite lookup_insert_eq; by eexists|by rewrite lookup_insert_ne by congruence]. Qed.

Lemma timer_init_spec s A W t p r : sched_ok s A W -> t ∈ atids A -> t ∉ (atm A).*1 -> 0 <= r < 2 ^ 32 ->
  returns (timer_init t p r s) (fun s' => sched_ok s' A W /\ timers s' !! t = Some (MkTimer r (Some p))).
Proof.
  intros H Hid Ht Hr. unfold timer_init. destruct (so_tids _ _ _ H t Hid) as [x Hx]. rewrite (upd_timer_eq s t x) by done. cbn [mbind outcome_bind].
  assert (Hu : uint r = r) by (unfold uint, wrap; by rewrite Z.mod_small). rewrite Hu.
  destruct (rings_init (lst s) W (TimerLink t) (so_rings _ _ _ H) (so_timer _ _ _ H t Hid Ht)) as (h' & Eh & Hr' & _). unfold on_list. cbn [lst with_timers].
  rewrite Eh. cbn [mbind outcome_bind]. apply returns_done. split; [|apply lookup_insert_eq].
  pose proof (ok_timers s A W h' W (<[t := MkTimer r (Some p)]> (timers s)) (atm A) H Hr') as Hok. rewrite set_tm_id in Hok.
  apply Hok; try done; [apply (so_list _ _ _ H)|apply (so_timer _ _ _ H)| |].
  - intros u Hu'. by apply is_Some_insert_timer, (so_tids _ _ _ H).
  - apply (deltas_agree (timers s)); [|apply (so_deltas _ _ _ H)]. intros u Hu'. rewrite lookup_insert_ne; [done|]. by intros ->.
Qed.

Lemma uint_id r : 0 <= r < 2 ^ 32 -> uint r = r.
Proof. intros Hr. unfold uint, wrap. by rewrite Z.mod_small. Qed.

Definition tlink (l : list (Z * (Z * Z))) : loc := default TimerList (head (TimerLink <$> l.*1)).

(** The entry after the first timers. *)
Lemma tlink_next s A W l1 t p r l2 : sched_ok s A W -> atm A = l1 ++ (t, (p, r)) :: l2 -> list_next (TimerLink t) (lst s) = Done (tlink l2).
Proof. intros H Hl. pose proof (so_list _ _ _ H) as HW. rewrite Hl, fmap_app, fmap_app in HW. exact (rings_next_in _ _ _ _ _ _ (so_rings _ _ _ H) HW). Qed.

(** Where the loop of add_timer ends, and with which timers. *)
Definition found_place (s : sched) (A : astate) (t p r : Z) (x : loc * sched) : Prop :=
  exists l1 l2 T', atm A = l1 ++ l2 /\ x = (tlink l2, with_timers (fun _ => T') s) /\
    ains t p r (atm A) = l1 ++ (t, (p, r)) :: l2 /\ deltas T' 0 (l1 ++ (t, (p, r)) :: l2) /\ (forall u, is_Some (timers s !! u) -> is_Some (T' !! u)).

Lemma add_loop_spec s A W t p r : sched_ok s A W -> t ∉ (atm A).*1 -> timers s !! t = Some (MkTimer r (Some p)) -> 0 < r < 2 ^ 32 ->
  returns (loop (l_fuel s) (fun '(le, s) =>
    if decide (le <> TimerList) then
      n ← le2timer le;
      x ← get_timer t s;
      y ← get_timer n s;
      if expires x <? expires y then
        s ← upd_timer (fun y => MkTimer (uint (expires y - expires x)) (proc y)) n s;
        Done (inr (le, s))
      else
        s ← upd_timer (fun x => MkTimer (uint (expires x - expires y)) (proc x)) t s;
        le ← list_next le (lst s);
        Done (inl (le, s))
    else Done (inr (le, s))) (tlink (atm A), s)) (found_place s A t p r).
Proof.
  intros H Ht Hx Hr. pose proof (tm_nodup s A W H) as Hnd. pose proof (so_deltas _ _ _ H) as Hd.
  apply (loop_returns_le (fun n '(le, s') => exists l1 l2, n = length l2 /\ atm A = l1 ++ l2 /\ le = tlink l2 /\ (forall y, y ∈ l1 -> y.2.2 <= r) /\ last_rem 0 l1 <= r /\
    s' = with_timers <[t := MkTimer (r - last_rem 0 l1) (Some p)]> s) _ _ _ (length (atm A))).
  2: { exists [], (atm A). split_and!; try done; [by intros y Hy%elem_of_nil|cbn; lia|]. unfold with_timers. cbn [last_rem]. rewrite Z.sub_0_r, insert_id by done. by destruct s. }
  2: { pose proof (rings_size _ _ _ _ (so_rings _ _ _ H) (so_list _ _ _ H)) as Hs. rewrite !length_fmap in Hs. unfold l_fuel. lia. }
  intros n [le s1] (l1 & l2 & -> & Hl & -> & H1 & Hbase & ->). rewrite Hl in Hd, Ht, Hnd. apply deltas_app in Hd as [Hd1 Hd2].
  pose proof (deltas_le _ _ _ Hd1) as [Hb0 _]. set (b := last_rem 0 l1) in *. set (T1 := <[t := MkTimer (r - b) (Some p)]> (timers s)).
  assert (Hd1' : deltas T1 0 l1) by (apply (deltas_agree (timers s)); [|done]; intros u Hu; unfold T1; rewrite lookup_insert_ne; [done|]; intros ->; apply Ht;
    rewrite fmap_app, elem_of_app; by left).
  destruct l2 as [|[u [q r2]] l2].
  - rewrite decide_False by tauto. apply returns_done. exists l1, [], T1. split_and!; try done.
    + rewrite Hl. apply ains_app; [done|by intros].
    + apply deltas_app. split; [done|]. fold b. cbn [deltas]. split_and!; try lia. apply lookup_insert_eq.
    + intros v Hv. by apply is_Some_insert_timer.
  - destruct Hd2 as (Hu & Hbu & Hr2 & Hd2). assert (Hut : u <> t) by (intros ->; apply Ht; rewrite fmap_app, elem_of_app; right; left). rewrite decide_True by done.
    change (tlink ((u, (q, r2)) :: l2)) with (TimerLink u). cbn [le2timer mbind outcome_bind].
    rewrite (get_timer_eq _ t (MkTimer (r - b) (Some p))) by apply lookup_insert_eq. cbn [mbind outcome_bind].
    rewrite (get_timer_eq _ u (MkTimer (r2 - b) (Some q))) by (cbn [timers with_timers]; by rewrite lookup_insert_ne by congruence).
    cbn [mbind outcome_bind expires].
    destruct (Z.ltb_spec (r - b) (r2 - b)) as [Hlt|Hge].
    + rewrite (upd_timer_eq _ u (MkTimer (r2 - b) (Some q))) by (cbn [timers with_timers]; by rewrite lookup_insert_ne by congruence).
      cbn [mbind outcome_bind expires proc]. apply returns_done.
      exists l1, ((u, (q, r2)) :: l2), (<[u := MkTimer (uint (r2 - b - (r - b))) (Some q)]> T1). rewrite uint_id by lia. rewrite fmap_app in Hnd, Ht.
      apply NoDup_app in Hnd as (_ & Hn1 & [Hn2 _]%NoDup_cons). rewrite elem_of_app, fmap_cons, elem_of_cons in Ht. cbn [fst] in Ht, Hn2. split_and!; try done.
      * rewrite Hl. apply ains_app; [done|]. intros y [= <-]. cbn. lia.
      * apply deltas_app. split; [apply (deltas_agree T1); [|done]; intros v Hv; rewrite lookup_insert_ne; [done|]; intros <-; apply (Hn1 u Hv); left|]. fold b. cbn [deltas].
        split_and!; try lia; [rewrite lookup_insert_ne by congruence; apply lookup_insert_eq|rewrite lookup_insert_eq; do 2 f_equal; lia|].
        apply (deltas_agree (timers s)); [|done]. intros v Hv. unfold T1. rewrite !lookup_insert_ne; [done|intros <-; tauto|intros <-; done].
      * intros v Hv. by apply is_Some_insert_timer, is_Some_insert_timer.
    + rewrite (upd_timer_eq _ t (MkTimer (r - b) (Some p))) by apply lookup_insert_eq. cbn [mbind outcome_bind expires proc].
      change (lst (with_timers _ (with_timers _ s))) with (lst s). rewrite (tlink_next s A W l1 u q r2 l2 H Hl). cbn [mbind outcome_bind]. apply returns_done.
      exists (length l2). split; [|cbn; lia]. exists (l1 ++ [(u, (q, r2))]), l2. rewrite <- app_assoc, last_rem_snoc. split_and!; try done; [|lia|].
      * intros y [Hy| ->%list_elem_of_singleton]%elem_of_app; [by apply H1|cbn; lia].
      * unfold with_timers. cbn. rewrite insert_insert_eq, uint_id by lia. replace (r - b - (r2 - b)) with (r - r2) by lia. done.
Qed.

Lemma add_timer_spec s A W t p r : sched_ok s A W -> t ∈ atids A -> t ∉ (atm A).*1 -> timers s !! t = Some (MkTimer r (Some p)) -> 0 < r < 2 ^ 32 ->
  returns (add_timer t s) (fun s' => exists W', sched_ok s' (set_tm (ains t p r (atm A)) A) W').
Proof.
  intros H Hid Ht Hx Hr. unfold add_timer. rewrite (get_timer_eq s t _ Hx). cbn [mbind outcome_bind expires proc]. rewrite assert_ok by (split; [lia|done]).
  cbn [mbind outcome_bind]. pose proof (so_timer _ _ _ H t Hid Ht) as HWt.
  rewrite (rings_empty _ _ _ _ (so_rings _ _ _ H) HWt). cbn [mbind outcome_bind]. rewrite assert_ok by done. cbn [mbind outcome_bind].
  rewrite (rings_next _ _ _ _ (so_rings _ _ _ H) (so_list _ _ _ H)). cbn [mbind outcome_bind].
  eapply returns_bind; [by apply (add_loop_spec s A W t p r)|]. intros ? (l1 & l2 & T' & Hl & -> & Hains & Hd & HT). pose proof (so_list _ _ _ H) as HWl.
  rewrite Hl, fmap_app, fmap_app in HWl.
  destruct (rings_insert (lst s) W TimerList _ _ (TimerLink t) (so_rings _ _ _ H) HWl HWt ltac:(done)) as (h' & Eh & Hr' & _). unfold on_list.
  cbn [lst with_timers]. unfold tlink. rewrite Eh. cbn [mbind outcome_bind]. apply returns_done.
  rewrite Hains. eexists. refine (ok_timers s A W h' _ T' _ H Hr' _ _ _ _ Hd).
  - intros z Hz1 Hz2. by rewrite lookup_insert_ne, lookup_delete_ne by congruence.
  - by rewrite lookup_insert_eq, !fmap_app.
  - intros u Hu Hn. rewrite fmap_app, elem_of_app, fmap_cons, elem_of_cons in Hn. cbn [fst] in Hn.
    rewrite lookup_insert_ne, lookup_delete_ne by (congruence || (intros [= ->]; tauto)). apply (so_timer _ _ _ H); [done|].
    rewrite Hl, fmap_app, elem_of_app. tauto.
  - intros u Hu. by apply HT, (so_tids _ _ _ H).
Qed.

(** * del_timer *)

Lemma filter_tm_none t (l : list (Z * (Z * Z))) : t ∉ l.*1 -> filter (fun y => y.1 <> t) l = l.
Proof.
  induction l as [|y l IH]; intros Ht; [done|]. rewrite fmap_cons, elem_of_cons in Ht. rewrite filter_cons_True by (intros E; apply Ht; left; congruence). f_equal. tauto.
Qed.

Lemma filter_tm_one t x (l1 l2 : list (Z * (Z * Z))) : t ∉ (l1 ++ l2).*1 -> filter (fun y => y.1 <> t) (l1 ++ (t, x) :: l2) = l1 ++ l2.
Proof. rewrite fmap_app, elem_of_app. intros Ht. rewrite filter_app, filter_cons_False by (cbn; tauto). rewrite !filter_tm_none by tauto. done. Qed.

(** The next timer takes over the ticks of the deleted one. *)
Lemma hand_over_spec s l1 t p r l2 : deltas (timers s) 0 (l1 ++ (t, (p, r)) :: l2) -> NoDup (l1 ++ (t, (p, r)) :: l2).*1 -> list_next (TimerLink t) (lst s) = Done (tlink l2) ->
  returns (if negb (r - last_rem 0 l1 =? 0) then
             le ← list_next (TimerLink t) (lst s);
             if decide (le <> TimerList) then n ← le2timer le; upd_timer (fun y => MkTimer (uint (expires y + (r - last_rem 0 l1))) (proc y)) n s else Done s
           else Done s)
    (fun s' => exists T', s' = with_timers (fun _ => T') s /\ deltas T' 0 (l1 ++ l2) /\ forall u, is_Some (timers s !! u) -> is_Some (T' !! u)).
Proof.
  intros [Hd1 Hd2]%deltas_app Hnd Hn. pose proof (deltas_le _ _ _ Hd1) as [Hb0 _]. set (b := last_rem 0 l1) in *. cbn [deltas] in Hd2. destruct Hd2 as (Ht & Hbr & Hr & Hd2).
  assert (Hsame : deltas (timers s) 0 (l1 ++ l2) -> exists T', s = with_timers (fun _ => T') s /\ deltas T' 0 (l1 ++ l2) /\ forall u, is_Some (timers s !! u) ->
    is_Some (T' !! u)) by (intros Hd; exists (timers s); split_and!; [by destruct s|done|done]).
  destruct (Z.eqb_spec (r - b) 0) as [E|E]; cbn [negb].
  { apply returns_done, Hsame, deltas_app. split; [done|]. fold b. by replace b with r by lia. }
  rewrite Hn. cbn [mbind outcome_bind]. destruct l2 as [|[u [q r2]] l2]; [rewrite decide_False by tauto; apply returns_done, Hsame, deltas_app; by split|].
  rewrite decide_True by done. change (tlink ((u, (q, r2)) :: l2)) with (TimerLink u). cbn [le2timer mbind outcome_bind]. cbn [deltas] in Hd2.
  destruct Hd2 as (Hu & Hru & Hr2 & Hd2). rewrite (upd_timer_eq s u _ _ Hu). cbn [expires proc]. apply returns_done.
  exists (<[u := MkTimer (uint (r2 - r + (r - b))) (Some q)]> (timers s)). rewrite uint_id by lia. rewrite fmap_app, !fmap_cons in Hnd. cbn [fst] in Hnd.
  apply NoDup_app in Hnd as (_ & Hn1 & [_ [Hn2 _]%NoDup_cons]%NoDup_cons). split_and!; [done| |intros v; apply is_Some_insert_timer].
  apply deltas_app. fold b. cbn [deltas]. split_and!; try lia.
  - apply (deltas_agree (timers s)); [|done]. intros v Hv. rewrite lookup_insert_ne; [done|]. intros <-. apply (Hn1 u Hv). right. left.
  - rewrite lookup_insert_eq. do 2 f_equal. lia.
  - apply (deltas_agree (timers s)); [|done]. intros v Hv. rewrite lookup_insert_ne; [done|]. by intros <-.
Qed.

Lemma del_timer_in s A W l1 t p r l2 : sched_ok s A W -> atm A = l1 ++ (t, (p, r)) :: l2 -> returns (del_timer t s) (fun s' => exists W', sched_ok s' (set_tm (l1 ++ l2) A) W').
Proof.
  intros H Hl. pose proof (so_list _ _ _ H) as HW. pose proof (so_deltas _ _ _ H) as Hd. pose proof (tm_nodup s A W H) as Hnd.
  pose proof (tlink_next s A W l1 t p r l2 H Hl) as Hn. rewrite Hl in HW, Hd, Hnd. rewrite fmap_app, fmap_app in HW. cbn [fmap list_fmap fst] in HW.
  unfold del_timer. rewrite (rings_inside _ _ _ _ (TimerLink t) (so_rings _ _ _ H) HW) by (rewrite elem_of_app; right; left). cbn [mbind outcome_bind negb].
  pose proof Hd as [_ (Ht & _)]%deltas_app. rewrite (get_timer_eq s t _ Ht). cbn [mbind outcome_bind expires].
  eapply returns_bind; [by apply (hand_over_spec s l1 t p r l2)|]. intros ? (T' & -> & Hd' & HT).
  destruct (rings_remove (lst s) W TimerList _ _ _ (so_rings _ _ _ H) HW) as (h' & Eh & Hr' & _). unfold on_list. cbn [lst with_timers]. rewrite Eh.
  cbn [mbind outcome_bind]. apply returns_done.
  eexists. refine (ok_timers s A W h' _ T' _ H Hr' _ _ _ _ Hd').
  - intros z Hz1 Hz2. by rewrite !lookup_insert_ne by congruence.
  - by rewrite lookup_insert_ne, lookup_insert_eq, !fmap_app by done.
  - intros u Hu Hnu. destruct (decide (u = t)) as [->|Hne]; [by rewrite lookup_insert_eq|]. rewrite !lookup_insert_ne by congruence.
    apply (so_timer _ _ _ H); [done|]. rewrite Hl, fmap_app, fmap_cons, elem_of_app, elem_of_cons. rewrite fmap_app, elem_of_app in Hnu. cbn [fst]. tauto.
  - intros u Hu. by apply HT, (so_tids _ _ _ H).
Qed.

Lemma del_timer_spec s A W t : sched_ok s A W -> t ∈ atids A -> returns (del_timer t s) (fun s' => exists W', sched_ok s' (adel t A) W').
Proof.
  intros H Hid. unfold adel. destruct (decide (t ∈ (atm A).*1)) as [((t' & p & r) & -> & Hin)%list_elem_of_fmap|Hnin].
  - apply list_elem_of_split in Hin as (l1 & l2 & Hl). cbn [fst]. rewrite Hl, filter_tm_one; [by eapply del_timer_in|]. pose proof (tm_nodup s A W H) as Hnd.
    rewrite Hl, fmap_app, fmap_cons in Hnd. apply NoDup_app in Hnd as (_ & H1 & [H2 _]%NoDup_cons).
    rewrite fmap_app, elem_of_app. intros [Hi|Hi]; [apply (H1 _ Hi); left|done].
  - rewrite filter_tm_none, set_tm_id by done. unfold del_timer. rewrite (rings_empty _ _ _ _ (so_rings _ _ _ H) (so_timer _ _ _ H t Hid Hnin)). cbn. apply returns_done. by exists W.
Qed.

(** * The clock *)

Section Cpu.
Context (lcpu_count : Z).

(** One tick: every timer comes one tick closer to its end; the processes of those that end
    are woken up in the order of the timers; and the running process uses up one tick. *)
Definition dec_tm (l : list (Z * (Z * Z))) : list (Z * (Z * Z)) := (fun y => (y.1, (y.2.1, y.2.2 - 1))) <$> l.
Definition expired (l : list (Z * (Z * Z))) : list (Z * (Z * Z)) := filter (fun y => y.2.2 = 0) l.
Definition running (l : list (Z * (Z * Z))) : list (Z * (Z * Z)) := filter (fun y => y.2.2 <> 0) l.
Definition awake_all (l : list (Z * (Z * Z))) (A : astate) : astate := foldl (fun A y => awakeup y.2.1 A) A l.
Definition aexpire (l : list (Z * (Z * Z))) (A : astate) : astate := awake_all (expired l) (set_tm (running l) A).

Definition tick_proc (x : proc_struct) : proc_struct :=
  let n := if 0 <? time_slice x then time_slice x - 1 else time_slice x in
  if n =? 0 then with_resched true (with_slice n x) else with_slice n x.
Definition aproc_tick (A : astate) : astate := if decide (acur A = aidle A) then set_proc (with_resched true) (acur A) A else set_proc tick_proc (acur A) A.

Definition atick (A : astate) : astate := aproc_tick (aexpire (dec_tm (atm A)) A).

Lemma awakeup_set_tm p l A : awakeup p (set_tm l A) = set_tm l (awakeup p A).
Proof.
  unfold awakeup, set_proc. cbn. destruct (aps A !! p) as [x|] eqn:Ex; [|done]. destruct (decide _); [done|]. cbn. destruct (decide _); [done|]. unfold aenqueue.
  cbn. by rewrite lookup_insert_eq.
Qed.

Lemma set_tm_set_tm l l' A : set_tm l (set_tm l' A) = set_tm l A.
Proof. done. Qed.

Lemma ainv_set_tm c E A l : ainv lcpu_count c E A -> (forall t p r, (t, (p, r)) ∈ l -> exists r0, (t, (p, r0)) ∈ atm A) -> ainv lcpu_count c E (set_tm l A).
Proof. intros [H1 H2 H3 H4 H5 H6 H7] Hl. split; try done. cbn. intros t p r (r0 & Hin)%Hl. by apply (H6 t p r0). Qed.

(** When the first timer has not ended, none has. *)
Lemma none_expired T l : deltas T 0 l -> (forall y, head l = Some y -> y.2.2 <> 0) -> expired l = [] /\ running l = l.
Proof.
  intros Hd Hh. assert (Hall : forall y, y ∈ l -> y.2.2 <> 0).
  { destruct l as [|[t [p r]] l]; [by intros y Hy%elem_of_nil|]. specialize (Hh _ eq_refl). cbn in Hh. destruct Hd as (_ & H0 & _ & Hd).
    intros y [->|Hy]%elem_of_cons; [done|]. destruct y as [t' [p' r']]. destruct (deltas_le _ _ _ Hd) as [_ Hl]. specialize (Hl t' p' r' Hy). cbn. lia. }
  clear Hd Hh. unfold expired, running. induction l as [|y l IH]; [done|]. rewrite filter_cons_False, filter_cons_True by (pose proof (Hall y ltac:(left)); tauto).
  destruct IH as [-> ->]; [|done]. intros z Hz. apply Hall. by right.
Qed.

Lemma run_expired_spec s A W t p r l : sched_ok s A W -> ainv lcpu_count (acur A) none A -> atm A = (t, (p, r)) :: l ->
  returns (run_expired lcpu_count t s) (fun s' => (exists W', sched_ok s' (aexpire (atm A) A) W') /\ ainv lcpu_count (acur A) none (aexpire (atm A) A)).
Proof.
  intros H Hinv Hl. unfold run_expired. set (target := aexpire (atm A) A).
  apply (loop_returns_le (fun n '(t, s') => exists A' W' p r l, n = length l /\ atm A' = (t, (p, r)) :: l /\ sched_ok s' A' W' /\
    ainv lcpu_count (acur A) none A' /\ acur A' = acur A /\ aexpire (atm A') A' = target) _ _ _ (length l)).
  2: { by exists A, W, p, r, l. }
  2: { pose proof (rings_size _ _ _ _ (so_rings _ _ _ H) (so_list _ _ _ H)) as Hs. rewrite !length_fmap, Hl in Hs. cbn [length] in Hs. unfold l_fuel. lia. }
  clear H Hinv Hl. clearbody target. intros n [t' s'] (A' & W' & p' & r' & l' & -> & Hl & H & Hinv & Hcur & Htar). clear t p r l s W.
  rename t' into t, p' into p, r' into r, l' into l, A' into B, W' into W, s' into s.
  pose proof (so_deltas _ _ _ H) as Hd. rewrite Hl in Hd. pose proof Hd as (Ht & H0 & Hr & Hd'). rewrite Z.sub_0_r in Ht. rewrite (get_timer_eq s t _ Ht).
  cbn [mbind outcome_bind expires proc]. destruct (Z.eqb_spec r 0) as [->|Hr0].
  - rewrite (tlink_next s B W [] t p 0 l H Hl). cbn [mbind outcome_bind of_option].
    destruct (ai_timer _ _ _ _ Hinv t p 0) as (_ & x & Hx & Hz & Hw & Hp); [rewrite Hl; left|]. rewrite (get_proc_eq s B W p x) by done. cbn [mbind outcome_bind].
    eapply (returns_bind _ _ (fun _ => True));
      [destruct (Z.eqb_spec (wait_state x) 0); cbn [negb]; [by apply returns_done|]; rewrite assert_ok by (destruct Hw; done); by apply returns_done|]. intros _ _.
    rewrite <- Hcur in Hinv.
    eapply returns_bind; [by apply (wakeup_proc_spec lcpu_count s B W p x)|]. intros s1 (W1 & H1). destruct (awakeup_same p B) as (Etm & Ec & _).
    pose proof (ainv_awakeup lcpu_count B p x Hinv Hx Hp) as Hinv1. rewrite Hl in Etm.
    eapply returns_bind; [by apply (del_timer_in s1 _ W1 [] t p 0 l H1)|]. intros s2 (W2 & H2). cbn [app] in H2.
    assert (Htar' : aexpire l (set_tm l (awakeup p B)) = target).
    { rewrite <- Htar, Hl. unfold aexpire, expired, running. rewrite filter_cons_True, filter_cons_False by (cbn; tauto). cbn [awake_all foldl snd fst].
      rewrite awakeup_set_tm. by rewrite set_tm_set_tm. }
    assert (Hinv2 : ainv lcpu_count (acur A) none (set_tm l (awakeup p B))) by (rewrite <- Hcur; apply ainv_set_tm; [done|]; intros t' p' r' Hin; exists r'; rewrite Etm; by right).
    destruct l as [|[u [q r2]] l].
    + rewrite decide_True by done. apply returns_done. rewrite <- Htar'. split; [by exists W2|done].
    + rewrite decide_False by done. change (tlink ((u, (q, r2)) :: l)) with (TimerLink u). cbn [le2timer mbind outcome_bind]. apply returns_done. exists (length l).
      split; [|cbn; lia]. exists (set_tm ((u, (q, r2)) :: l) (awakeup p B)), W2, q, r2, l. split_and!; try done. cbn. congruence.
  - apply returns_done. destruct (none_expired _ _ Hd) as [He Hrun]; [by intros y [= <-]|].
    assert (Hsame : target = B) by (rewrite <- Htar, Hl; unfold aexpire; rewrite He, Hrun; cbn; rewrite <- Hl; apply set_tm_id). rewrite Hsame.
    split; [by exists W|done].
Qed.

Lemma deltas_dec T b l : deltas T b l -> 0 < b -> deltas T (b - 1) (dec_tm l).
Proof.
  revert b. induction l as [|[t [p r]] l IH]; intros b; [done|]. unfold dec_tm. rewrite fmap_cons. cbn [deltas fst snd]. intros (Ht & Hb & Hr & Hl) H0.
  split_and!; try lia; [rewrite Ht; do 2 f_equal; lia|]. apply IH; [done|lia].
Qed.

Lemma dec_tm_fst l : (dec_tm l).*1 = l.*1.
Proof. unfold dec_tm. rewrite <- list_fmap_compose. by apply list_fmap_ext. Qed.

(** Every timer that runs has time left. *)
Definition timers_pos (A : astate) : Prop := forall y, y ∈ atm A -> 0 < y.2.2.

Lemma run_timers_spec s A W : sched_ok s A W -> ainv lcpu_count (acur A) none A -> timers_pos A ->
  returns (le ← list_next TimerList (lst s);
           if decide (le <> TimerList) then
             t ← le2timer le;
             x ← get_timer t s;
             _ ← assert_ (expires x <> 0);
             s ← upd_timer (fun x => MkTimer (uint (expires x - 1)) (proc x)) t s;
             run_expired lcpu_count t s
           else Done s)
    (fun s' => let A' := aexpire (dec_tm (atm A)) A in (exists W', sched_ok s' A' W') /\ ainv lcpu_count (acur A) none A').
Proof.
  intros H Hinv Hpos. rewrite (rings_next _ _ _ _ (so_rings _ _ _ H) (so_list _ _ _ H)). cbn [mbind outcome_bind]. fold (tlink (atm A)). cbv zeta. destruct (atm A) as [|[t [p r]] l] eqn:El.
  - rewrite decide_False by tauto. apply returns_done. assert (HA : aexpire (dec_tm []) A = A) by (unfold aexpire; cbn; rewrite <- El; apply set_tm_id). rewrite HA.
    split; [by exists W|done].
  - rewrite decide_True by done. change (tlink ((t, (p, r)) :: l)) with (TimerLink t). cbn [le2timer mbind outcome_bind]. pose proof (so_deltas _ _ _ H) as Hd.
    rewrite El in Hd. destruct Hd as (Ht & _ & Hr & Hd). rewrite Z.sub_0_r in Ht. specialize (Hpos (t, (p, r)) ltac:(rewrite El; left)). cbn in Hpos.
    rewrite (get_timer_eq s t _ Ht). cbn [mbind outcome_bind]. rewrite assert_ok by (cbn; lia). cbn [mbind outcome_bind]. rewrite (upd_timer_eq s t _ _ Ht).
    cbn [mbind outcome_bind expires proc]. rewrite uint_id by lia. pose proof (tm_nodup s A W H) as Hnd. rewrite El in Hnd. apply NoDup_cons in Hnd as [Hn _].
    set (T' := <[t := MkTimer (r - 1) (Some p)]> (timers s)). set (m := dec_tm ((t, (p, r)) :: l)). assert (H1 : sched_ok (with_timers (fun _ => T') (with_lst (lst s) s)) (set_tm m A) W).
    { apply (ok_timers s A W); try done;
        [apply (so_rings _ _ _ H)|unfold m; rewrite dec_tm_fst, <- El; apply (so_list _ _ _ H)|unfold m; rewrite dec_tm_fst, <- El;
        apply (so_timer _ _ _ H)|intros u Hu; by apply is_Some_insert_timer, (so_tids _ _ _ H)|].
      cbn [m dec_tm fmap list_fmap deltas fst snd]. split_and!; try lia; [unfold T'; rewrite lookup_insert_eq, Z.sub_0_r; done|].
      apply (deltas_agree (timers s)); [intros u; rewrite dec_tm_fst; intros Hu; unfold T'; rewrite lookup_insert_ne; [done|]; by intros <-|]. by apply deltas_dec. }
    assert (Hinv1 : ainv lcpu_count (acur A) none (set_tm m A)). { apply ainv_set_tm;
      [done|]. intros t' p' r' ((u & q & r0) & [= -> -> ->] & Hin)%list_elem_of_fmap. exists r0. by rewrite El. }
    change (set_tm m A) with (set_tm m A) in *. go_mono (run_expired_spec _ (set_tm m A) W t p (r - 1) (dec_tm l) H1 Hinv1 eq_refl). intros s' Hs'. exact Hs'.
Qed.

Lemma aexpire_same l A : acur (aexpire l A) = acur A /\ aidle (aexpire l A) = aidle A /\ atm (aexpire l A) = running l /\ atids (aexpire l A) = atids A.
Proof.
  unfold aexpire. assert (Hf : forall m B, acur (awake_all m B) = acur B /\ aidle (awake_all m B) = aidle B /\ atm (awake_all m B) = atm B /\
    atids (awake_all m B) = atids B); [|exact (Hf (expired l) (set_tm (running l) A))].
  induction m as [|y m IH]; intros B; [done|]. cbn [awake_all foldl]. destruct (IH (awakeup y.2.1 B)) as (H1 & H2 & H3 & H4), (awakeup_same y.2.1 B) as
    (G1 & G2 & G3 & G4). unfold awake_all in *. split_and!; congruence.
Qed.

Lemma proc_tick_spec s A W : sched_ok s A W -> ainv lcpu_count (acur A) none A -> returns (sched_class_proc_tick (current s) s) (fun s' => exists W', sched_ok s' (aproc_tick A) W').
Proof.
  intros H Hinv. destruct (ai_cur _ _ _ _ Hinv) as (x & Hx & _). unfold sched_class_proc_tick, aproc_tick. rewrite (so_cur _ _ _ H), (so_idle _ _ _ H).
  destruct (decide (acur A = aidle A)) as [He|Hne].
  - rewrite decide_False by tauto. destruct (ok_set_proc s A W _ x (with_resched true) H Hx) as [-> H1]. apply returns_done. by exists W.
  - rewrite decide_True by done. unfold MLFQ_proc_tick, RR_proc_tick. rewrite (get_proc_eq s A W _ x) by done. cbn [mbind outcome_bind].
    set (n := if 0 <? time_slice x then time_slice x - 1 else time_slice x).
    destruct (ok_set_proc s A W _ x (with_slice n) H Hx) as [E1 H1]. eapply (returns_bind _ _ (fun s' => s' = with_procs <[acur A := with_slice n x]> s)).
    { unfold n in *. destruct (0 <? time_slice x); [rewrite E1; by apply returns_done|]. apply returns_done. unfold with_procs.
      rewrite with_slice_id, insert_id; [by destruct s|]. by rewrite (so_procs _ _ _ H). }
    intros ? ->. set (s1 := with_procs _ s) in *. assert (Hx1 :
      aps (set_proc (with_slice n) (acur A) A) !! acur A = Some (with_slice n x)) by by apply lookup_set_proc_eq. rewrite (get_proc_eq s1 _ W _ _ H1 Hx1).
    cbn [mbind outcome_bind time_slice with_slice].
    assert (Htick : set_proc tick_proc (acur A) A = if n =? 0 then set_proc (with_resched true) (acur A) (set_proc (with_slice n) (acur A) A) else set_proc (with_slice n) (acur A) A).
    { unfold set_proc. rewrite Hx. unfold tick_proc. fold n. destruct (n =? 0); [|done]. cbn. rewrite lookup_insert_eq. unfold set_ps. cbn. by rewrite insert_insert_eq. }
    rewrite Htick. destruct (n =? 0); [|apply returns_done; by exists W]. destruct (ok_set_proc s1 _ W _ _ (with_resched true) H1 Hx1) as [-> H2]. apply returns_done. by exists W.
Qed.

Lemma running_pos l : (forall y, y ∈ l -> 0 < y.2.2) -> forall y, y ∈ running (dec_tm l) -> 0 < y.2.2.
Proof. intros Hl y [Hne (z & -> & Hz)%list_elem_of_fmap]%list_elem_of_filter. specialize (Hl z Hz). cbn in *. lia. Qed.

Lemma tick_spec s A W : sched_ok s A W -> ainv lcpu_count (acur A) none A -> timers_pos A ->
  returns (run_timer_list lcpu_count s) (fun s' => (exists W', sched_ok s' (atick A) W') /\ ainv lcpu_count (acur (atick A)) none (atick A) /\ timers_pos (atick A)).
Proof.
  intros H Hinv Hpos. unfold run_timer_list. destruct (run_timers_spec s A W H Hinv Hpos) as (s1 & E1 & (W1 & H1) & Hinv1).
  assert (Hbind : forall k : sched -> outcome sched, (le ← list_next TimerList (lst s);
    s ← (if decide (le <> TimerList) then t ← le2timer le; x ← get_timer t s; _ ← assert_ (expires x <> 0);
      s ← upd_timer (fun x => MkTimer (uint (expires x - 1)) (proc x)) t s; run_expired lcpu_count t s else Done s); k s) = k s1).
  { intros k. destruct (list_next TimerList (lst s)) as [le| |]; cbn [mbind outcome_bind] in *; [|done|done]. by rewrite E1. }
  rewrite Hbind. clear Hbind E1. unfold atick. set (B := aexpire (dec_tm (atm A)) A) in *. destruct (aexpire_same (dec_tm (atm A)) A) as (Ec & _ & Et & _).
  fold B in Ec, Et. rewrite <- Ec in Hinv1. go_mono (proc_tick_spec s1 B W1 H1 Hinv1). intros s' Hs'. split; [done|].
  destruct (ai_cur _ _ _ _ Hinv1) as (x & Hx & _). unfold aproc_tick. destruct (decide (acur B = aidle B)).
  - destruct (set_proc_same (with_resched true) (acur B) B) as (_ & Et' & -> & _). split; [by apply (ainv_neutral _ _ _ _ _ _ x)|]. unfold timers_pos. rewrite Et', Et. by apply running_pos.
  - destruct (set_proc_same tick_proc (acur B) B) as (_ & Et' & -> & _). split;
      [apply (ainv_neutral _ _ _ _ _ _ x); try done; intros y; unfold tick_proc; by destruct (_ =? 0)|]. unfold timers_pos. rewrite Et', Et. by apply running_pos.
Qed.
End Cpu.
