(* ===== verification/SchedSpec.v ===== *)
(** The scheduler of the ucore kernel: initialization, and the theorem that it is four
    queues and a list of times. *)

From S2P Require Import Prelude CList CRings Sched SchedState SchedProofs SchedTimers.
From stdpp Require Import list gmap.
#[local] Open Scope Z_scope.

(** * Operations and their specification *)

(** Besides the functions of the scheduler, the running process may start to wait without a
    timer, and may exit; the code outside of the scheduler does so by setting its state. *)
Inductive sop := Wakeup (p : Z) | Schedule | Tick | Sleep (t time : Z) | DelTimer (t : Z) | Block (w : Z) | Exit.

Section Spec.
Context (lcpu_count : Z).

Definition exec_sop (o : sop) (s : sched) : outcome sched :=
  match o with
  | Wakeup p => wakeup_proc lcpu_count p s
  | Schedule => schedule lcpu_count s
  | Tick => run_timer_list lcpu_count s
  | Sleep t time => do_sleep_start t time s
  | DelTimer t => del_timer t s
  | Block w => upd_proc (with_state PROC_SLEEPING w) (current s) s
  | Exit => upd_proc (with_state PROC_ZOMBIE 0) (current s) s
  end.

Definition asleep (t time : Z) (A : astate) : astate :=
  if time =? 0 then A else set_tm (ains t (acur A) time (atm A)) (set_proc (with_state PROC_SLEEPING WT_TIMER) (acur A) A).

Definition spec_sop (o : sop) (A : astate) : astate :=
  match o with
  | Wakeup p => awakeup p A
  | Schedule => aschedule lcpu_count A
  | Tick => atick A
  | Sleep t time => asleep t time A
  | DelTimer t => adel t A
  | Block w => set_proc (with_state PROC_SLEEPING w) (acur A) A
  | Exit => set_proc (with_state PROC_ZOMBIE 0) (acur A) A
  end.

(** A running timer of the process. *)
Definition owns (A : astate) (p : Z) : Prop := exists t r, (t, (p, r)) ∈ atm A.

(** What the callers owe.  The idle process does not wait or exit, a process with a timer
    waits in a state that can be interrupted, and a timer is not started twice. *)
Definition spre (o : sop) (A : astate) : Prop :=
  match o with
  | Wakeup p => exists x, aps A !! p = Some x /\ state x <> PROC_ZOMBIE /\ lcpu_count <= pid x
  | Schedule | Tick => True
  | Sleep t time => acur A <> aidle A /\ t ∈ atids A /\ (t ∉ (atm A).*1) /\ 0 <= time < 2 ^ 32
  | DelTimer t => t ∈ atids A
  | Block w => acur A <> aidle A /\ (owns A (acur A) -> w = 0 \/ Z.land w WT_INTERRUPTED <> 0)
  | Exit => acur A <> aidle A /\ ~ owns A (acur A)
  end.

(** Every process that can run is running, or idle, or in a queue. *)
Definition nothing_lost (A : astate) : Prop := forall p x, aps A !! p = Some x -> state x = PROC_RUNNABLE -> p = acur A \/ p = aidle A \/ queued A p.

(** Each operation returns, and the processes and the running process are as specified. *)
Fixpoint srefines (os : list sop) (s : sched) (A : astate) : Prop :=
  match os with
  | [] => True
  | o :: os => spre o A -> returns (exec_sop o s) (fun s' => let A' := spec_sop o A in procs s' = aps A' /\ current s' = acur A' /\ nothing_lost A' /\ srefines os s' A')
  end.

(** * Refinement *)

Definition holds (s : sched) (A : astate) : Prop := (exists W, sched_ok s A W) /\ ainv lcpu_count (acur A) none A /\ timers_pos A.

Lemma cur_pid A : ainv lcpu_count (acur A) none A -> acur A <> aidle A -> exists x, aps A !! acur A = Some x /\ lcpu_count <= pid x /\ ~ queued A (acur A).
Proof. intros H Hne. destruct (ai_cur _ _ _ _ H) as (x & Hx & [?|Hp]); [done|]. exists x. split_and!; try done. eapply not_queued; [exact H|exact Hx|by right]. Qed.

(** The running process changes its state to one in which it cannot run. *)
Lemma stop_spec s A st w : holds s A -> acur A <> aidle A -> st <> PROC_RUNNABLE -> (owns A (acur A) -> st <> PROC_ZOMBIE /\ (w = 0 \/ Z.land w WT_INTERRUPTED <> 0)) ->
  returns (upd_proc (with_state st w) (current s) s) (fun s' => holds s' (set_proc (with_state st w) (acur A) A)).
Proof.
  intros ((W & H) & Hinv & Hpos) Hne Hst Hown. destruct (cur_pid A Hinv Hne) as (x & Hx & Hp & Hnq). rewrite (so_cur _ _ _ H).
  destruct (ok_set_proc s A W _ x (with_state st w) H Hx) as [-> H1]. apply returns_done.
  destruct (set_proc_same (with_state st w) (acur A) A) as (Eq & Et & Ec & Ei & _). split_and!; [by exists W| |unfold timers_pos; by rewrite Et]. rewrite Ec.
  apply (ainv_none _ _ (fun q => q = acur A)); [apply (ainv_state _ _ _ _ x); try done; intros t r Hin; apply Hown; by exists t, r|]. intros q y -> Hy Hs.
  rewrite (lookup_set_proc_eq _ _ _ x) in Hy by done. injection Hy as <-. by cbn in Hs.
Qed.

Lemma elem_ains t p r l y : y ∈ ains t p r l -> y = (t, (p, r)) \/ y ∈ l.
Proof.
  induction l as [|z l IH]; cbn [ains]; [intros ->%list_elem_of_singleton; by left|]. destruct (r <? z.2.2); [intros [->|Hy]%elem_of_cons; [by left|by right]|].
  intros [->|Hy]%elem_of_cons; [right; left|]. destruct (IH Hy) as [->|?]; [by left|right; by right].
Qed.

Lemma sleep_spec s A t time : holds s A -> spre (Sleep t time) A -> returns (do_sleep_start t time s) (fun s' => holds s' (asleep t time A)).
Proof.
  intros HH (Hne & Hid & Ht & Htime0). unfold do_sleep_start, asleep. destruct (Z.eqb_spec time 0) as [_|Hnz]; [by apply returns_done|].
  assert (Htime : 0 < time < 2 ^ 32) by lia. pose proof HH as ((W & H) & Hinv & Hpos). destruct (cur_pid A Hinv Hne) as (x & Hx & Hp & Hnq). rewrite (so_cur _ _ _ H).
  eapply returns_bind; [by apply (timer_init_spec s A W t (acur A) time); [..|lia]|]. intros s1 [H1 Ht1].
  destruct (stop_spec s1 A PROC_SLEEPING WT_TIMER) as (s2 & E2 & (W2 & H2) & Hinv2 & Hpos2); [split; [by exists W|done]|done|done|by intros _; split; [|right]|].
  rewrite E2. cbn [mbind outcome_bind].
  set (A1 := set_proc (with_state PROC_SLEEPING WT_TIMER) (acur A) A) in *. destruct (set_proc_same (with_state PROC_SLEEPING WT_TIMER) (acur A) A)
    as (Eq & Et & Ec & Ei & Ed). fold A1 in Eq, Et, Ec, Ei, Ed.
  assert (Ht2 : timers s2 !! t = Some (MkTimer time (Some (acur A)))).
  { rewrite (so_cur _ _ _ H1) in E2. destruct (ok_set_proc s1 A W _ x (with_state PROC_SLEEPING WT_TIMER) H1 Hx) as [E2' _]. rewrite E2' in E2.
  by injection E2 as <-. }
  rewrite <- Et in Ht |- *. rewrite <- Ed in Hid. go_mono (add_timer_spec s2 A1 W2 t (acur A) time H2 Hid Ht Ht2 Htime). intros s3 HW3. split_and!; [done| |].
  - cbn [set_tm acur]. destruct Hinv2 as [I1 I2 I3 I4 I5 I6 I7]. split; try done. cbn [set_tm atm].
    intros u q r [[= -> -> ->]|Hin]%elem_ains; [|by apply (I6 u q r)]. split; [done|]. exists (with_state PROC_SLEEPING WT_TIMER x).
    split; [by apply lookup_set_proc_eq|]. split_and!; try done. by right.
  - intros y [->|Hy]%elem_ains; [cbn; lia|by apply Hpos2].
Qed.

Lemma aschedule_tm A : atm (aschedule lcpu_count A) = atm A.
Proof.
  unfold aschedule. cbv zeta. set (A1 := set_proc _ (acur A) A). assert (E1 : atm A1 = atm A) by apply set_proc_same. set (A2 := match aps A1 !! _ with Some _ => _ | None => _ end).
  assert (E2 : atm A2 = atm A) by (unfold A2; destruct (aps A1 !! acur A1); [destruct (decide _)|]; [rewrite <- E1; apply aenqueue_same|done|done]).
  assert (E3 : forall p B, atm (set_proc (fun x => with_runs (int (runs x + 1)) x) p B) = atm B) by (intros p B; apply set_proc_same).
  destruct (head (concat (aqs A2))); cbn [set_cur atm]; by rewrite E3.
Qed.

Lemma exec_sop_ok s A o : holds s A -> spre o A -> returns (exec_sop o s) (fun s' => holds s' (spec_sop o A)).
Proof.
  intros HH Hpre. pose proof HH as ((W & H) & Hinv & Hpos). destruct o; cbn [exec_sop spec_sop spre] in *.
  - destruct Hpre as (x & Hx & Hz & Hp). go_mono (wakeup_proc_spec lcpu_count s A W p x H Hinv Hx Hz Hp). intros s' HW.
    destruct (awakeup_same p A) as (Et & Ec & _). split_and!; [done|rewrite Ec; by apply (ainv_awakeup _ _ _ x)|unfold timers_pos; by rewrite Et].
  - go_mono (schedule_spec lcpu_count s A W H Hinv). intros s' [HW Hinv']. split_and!; try done. unfold timers_pos. by rewrite aschedule_tm.
  - by apply (tick_spec lcpu_count s A W).
  - by apply sleep_spec.
  - go_mono (del_timer_spec s A W t H Hpre). intros s' HW. split_and!; [done| |].
    + apply ainv_set_tm; [done|]. intros u q r [_ Hin]%list_elem_of_filter. by exists r.
    + intros y [_ Hy]%list_elem_of_filter. by apply Hpos.
  - destruct Hpre as [Hne Hown]. apply stop_spec; try done. intros Ho. split; [done|auto].
  - destruct Hpre as [Hne Hown]. apply stop_spec; try done.
Qed.
End Spec.

(** * Initialization *)

(** The structures exist when sched_init is called; alloc_proc has initialized run_link. *)
Definition fresh_kernel (s : sched) (T : gset Z) : Prop :=
  (forall q, 0 <= q < 4 -> is_Some (rqs s !! q) /\ is_Some (lst s !! RqLink q) /\ is_Some (lst s !! RunList q)) /\ is_Some (lst s !! TimerList) /\
  (forall p, is_Some (procs s !! p) -> lst s !! RunLink p = Some (MkEntry (RunLink p) (RunLink p))) /\
  (forall t, t ∈ T -> is_Some (timers s !! t) /\ lst s !! TimerLink t = Some (MkEntry (TimerLink t) (TimerLink t))).

Definition start_state (s : sched) (T : gset Z) : astate := MkA [[]; []; []; []] [] (procs s) (current s) (idleproc s) T.

(** The lists before sched_init: entries on their own. *)
Definition alone (s : sched) (T : gset Z) : gmap loc (list loc) := gset_to_gmap [] (set_map RunLink (dom (procs s)) ∪ set_map TimerLink T).

Lemma alone_Some s T z l : alone s T !! z = Some l <-> l = [] /\ ((exists p, z = RunLink p /\ is_Some (procs s !! p)) \/ exists t, z = TimerLink t /\ t ∈ T).
Proof.
  unfold alone. rewrite lookup_gset_to_gmap_Some, elem_of_union, !elem_of_map. setoid_rewrite elem_of_dom. naive_solver.
Qed.

Lemma self_ring (h : gmap loc (list_entry loc)) z : h !! z = Some (MkEntry z z) -> ring h z [].
Proof. intros Hz. split; [|apply NoDup_singleton]. unfold chain, nxt, prv. by rewrite Hz. Qed.

Lemma alone_rings s T : fresh_kernel s T -> rings (lst s) (alone s T).
Proof.
  intros (_ & _ & Hp & Ht). split.
  - intros a l [-> [(p & -> & Hx)|(t & -> & Hx)]]%alone_Some; apply self_ring; [by apply Hp|by apply Ht].
  - intros a l b k z [-> _]%alone_Some [-> _]%alone_Some -> %list_elem_of_singleton ->%list_elem_of_singleton. done.
Qed.

(** The first [k] queues have been initialized. *)
Record stage (s0 : sched) (T : gset Z) (k : nat) (s : sched) (W : gmap loc (list loc)) : Prop := {
  sg_same : procs s = procs s0 /\ timers s = timers s0 /\ current s = current s0 /\ idleproc s = idleproc s0;
  sg_rings : rings (lst s) W;
  sg_rqlink : W !! RqLink 0 = Some [RqLink 1; RqLink 2; RqLink 3];
  sg_timers : W !! TimerList = Some [];
  sg_alone z : alone s0 T !! z = Some [] -> W !! z = Some [];
  sg_done j : (j < k)%nat -> W !! RunList (Z.of_nat j) = Some [] /\ rqs s !! Z.of_nat j = Some (MkRq 0 (level_slice j));
  sg_todo j : (k <= j < 4)%nat -> outside W (RunList (Z.of_nat j)) /\ is_Some (lst s !! RunList (Z.of_nat j)) /\ exists n, rqs s !! Z.of_nat j = Some (MkRq n (level_slice j)) }.

Lemma RR_init_spec s0 T k s W : stage s0 T k s W -> (k < 4)%nat -> returns (RR_init (Z.of_nat k) s) (fun s' => exists W', stage s0 T (S k) s' W').
Proof.
  intros [H1 H2 H3 H4 H5 H6 H7] Hk. destruct (H7 k ltac:(lia)) as (Ho & Hs & n & Hn). destruct (rings_new (lst s) W _ H2 Ho Hs) as (h' & Eh & Hr & Hdom).
  unfold RR_init, on_list. rewrite Eh. cbn [mbind outcome_bind]. unfold upd_rq, get_rq. cbn [rqs with_lst]. rewrite Hn.
  cbn [of_option mbind outcome_bind max_time_slice].
  apply returns_done. eexists. split; cbn [procs rqs timers lst current idleproc with_rqs with_lst]; [done|exact Hr|..].
  - by rewrite lookup_insert_ne.
  - by rewrite lookup_insert_ne.
  - intros z Hz. rewrite lookup_insert_ne; [by apply H5|]. intros <-. apply alone_Some in Hz as [_ [(p & ? & _)|(t & ? & _)]]; done.
  - intros j Hj. destruct (decide (j = k)) as [->|Hne]; [by rewrite !lookup_insert_eq|]. rewrite !lookup_insert_ne by (intros [=]; lia || (intros ?; lia)). apply H6. lia.
  - intros j Hj. destruct (H7 j ltac:(lia)) as (Hoj & Hsj & m & Hm). split_and!.
    + apply outside_insert; [done|]. intros [[= ?]|?%elem_of_nil]%elem_of_cons; [lia|done].
    + apply elem_of_dom. rewrite Hdom. by apply elem_of_dom.
    + exists m. by rewrite lookup_insert_ne by lia.
Qed.

Lemma MLFQ_init_spec s0 T s W : stage s0 T 0 s W -> returns (MLFQ_init rq0 s) (fun s' => exists W', stage s0 T 4 s' W').
Proof.
  intros H. unfold MLFQ_init. apply (loop_returns_le (fun n '(le, s') => exists k W', n = (3 - k)%nat /\ (k < 4)%nat /\ le = RqLink (Z.of_nat k) /\ stage s0 T k s' W') _ _ _ 3).
  2: { by exists 0%nat, W; split_and!; [|lia|..]. }
  2: { pose proof (rings_size _ _ _ _ (sg_rings _ _ _ _ _ H) (sg_rqlink _ _ _ _ _ H)) as Hs. cbn in Hs. unfold l_fuel. lia. }
  intros n [le s1] (k & W1 & -> & Hk & -> & H1). cbn [le2rq mbind outcome_bind]. eapply returns_bind; [by apply (RR_init_spec s0 T k s1 W1)|]. intros s2 (W2 & H2).
  assert (Hn : list_next (RqLink (Z.of_nat k)) (lst s2) = Done (RqLink (if (k =? 3)%nat then 0 else Z.of_nat (S k)))).
  { pose proof (sg_rings _ _ _ _ _ H2) as Hr. pose proof (sg_rqlink _ _ _ _ _ H2) as Hl.
    destruct k as [|[|[|[|]]]]; [exact (rings_next _ _ _ _ Hr Hl)|exact (rings_next_in _ _ _ [] _ _ Hr Hl)|exact (rings_next_in _ _ _ [RqLink 1] _ _ Hr Hl)|exact
      (rings_next_in _ _ _ [RqLink 1; RqLink 2] _ _ Hr Hl)|lia]. }
  rewrite Hn. cbn [mbind outcome_bind]. destruct (Nat.eqb_spec k 3) as [->|Hne].
  - rewrite decide_False by (by intros []). apply returns_done. by exists W2.
  - rewrite decide_True by (intros [=]; unfold rq0 in *; lia). apply returns_done. exists (3 - S k)%nat. split; [|lia]. exists (S k), W2. split_and!; try done. lia.
Qed.

(** The queues before [i] are linked and have their time slices. *)
Record linking (s0 : sched) (T : gset Z) (i : Z) (s : sched) (W : gmap loc (list loc)) : Prop := {
  lk_same : procs s = procs s0 /\ timers s = timers s0 /\ current s = current s0 /\ idleproc s = idleproc s0;
  lk_rings : rings (lst s) W;
  lk_rqlink : W !! RqLink 0 = Some (RqLink <$> seqZ 1 (i - 1));
  lk_timers : W !! TimerList = Some [];
  lk_alone z : alone s0 T !! z = Some [] -> W !! z = Some [];
  lk_outside q : 0 <= q < 4 -> outside W (RunList q) /\ is_Some (lst s !! RunList q) /\ (i <= q -> outside W (RqLink q) /\ is_Some (lst s !! RqLink q));
  lk_rq q : 0 <= q < 4 -> exists n m, rqs s !! q = Some (MkRq n m) /\ (q < i -> m = 8 * 2 ^ q) }.

Lemma link_spec s0 T i s W : linking s0 T i s W -> 1 <= i < 4 ->
  returns (s ← on_list (list_add_before (RqLink rq0) (RqLink i)) s; r0 ← get_rq rq0 s;
    upd_rq (fun r => MkRq (proc_num r) (int (max_time_slice r0 * Z.shiftl 1 i))) i s) (fun s' => exists W', linking s0 T (i + 1) s' W').
Proof.
  intros [H1 H2 H3 H4 H5 H6 H7] Hi. destruct (H6 i ltac:(lia)) as (_ & _ & [Ho Hs]); [lia|].
  destruct (rings_insert_new (lst s) W (RqLink 0) (RqLink <$> seqZ 1 (i - 1)) [] (RqLink i) H2) as (h' & Eh & Hr & Hdom); [by rewrite app_nil_r|done|done|].
  cbn [head default from_option] in Eh.
  unfold on_list, rq0. rewrite Eh. cbn [mbind outcome_bind]. destruct (H7 0 ltac:(lia)) as (n0 & m0 & E0 & Hm0). destruct (H7 i ltac:(lia)) as (ni & mi & Ei & _).
  unfold upd_rq, get_rq. cbn [rqs with_lst]. rewrite E0. cbn [of_option mbind outcome_bind max_time_slice]. cbn [rqs with_lst]. rewrite Ei.
  cbn [of_option mbind outcome_bind proc_num].
  apply returns_done. specialize (Hm0 ltac:(lia)). subst m0. assert (Hsl :
    int (8 * 2 ^ 0 * Z.shiftl 1 i) = 8 * 2 ^ i) by (assert (i = 1 \/ i = 2 \/ i = 3) as [->|[->| ->]] by lia; done). rewrite Hsl.
  assert (Hl : (RqLink <$> seqZ 1 (i - 1)) ++ [RqLink i] = RqLink <$> seqZ 1 (i + 1 - 1)) by (assert (i = 1 \/ i = 2 \/ i = 3) as [->|[->| ->]] by lia; done). rewrite Hl in Hr.
  assert (Hseq : forall z, z ∈ RqLink 0 :: (RqLink <$> seqZ 1 (i + 1 - 1)) -> exists q, z = RqLink q /\
    0 <= q <= i) by (intros z [->|(q & -> & Hq%elem_of_seqZ)%list_elem_of_fmap]%elem_of_cons; eexists; split; try done; lia).
  assert (Hsome : forall z, is_Some (lst s !! z) -> is_Some (h' !! z)) by (intros z Hz; apply elem_of_dom; rewrite Hdom; by apply elem_of_dom).
  eexists. split; cbn [procs rqs timers lst current idleproc with_rqs with_lst]; [done|exact Hr|..].
  - by rewrite lookup_insert_eq.
  - by rewrite lookup_insert_ne.
  - intros z Hz. rewrite lookup_insert_ne; [by apply H5|]. intros <-. apply alone_Some in Hz as [_ [(p & ? & _)|(t & ? & _)]]; done.
  - intros q Hq. destruct (H6 q Hq) as (Hoq & Hsq & Hq'). split_and!; [|by apply Hsome|].
    + apply outside_insert; [done|]. by intros (r & ? & _)%Hseq.
    + intros Hle. destruct (Hq' ltac:(lia)) as [Hor Hsr]. split; [|by apply Hsome]. apply outside_insert; [done|]. intros (r & [= <-] & ?)%Hseq. lia.
  - intros q Hq. destruct (decide (q = i)) as [->|Hne]; [rewrite lookup_insert_eq; eexists _, _; split; [done|]; by intros _|].
    rewrite lookup_insert_ne by congruence. destruct (H7 q Hq) as (n & m & E & Hm). exists n, m. split; [done|]. intros Hlt. apply Hm. lia.
Qed.

Lemma alone_outside s T z : (forall p, z <> RunLink p) -> (forall t, z <> TimerLink t) -> outside (alone s T) z.
Proof. intros H1 H2 a l [-> [(p & -> & _)|(t & -> & _)]]%alone_Some ->%list_elem_of_singleton; [by apply (H1 p)|by apply (H2 t)]. Qed.

Lemma upd_rq_eq s q r f : rqs s !! q = Some r -> upd_rq f q s = Done (with_rqs <[q := f r]> s).
Proof. intros Hr. unfold upd_rq, get_rq. by rewrite Hr. Qed.

Lemma sched_init_spec s T : fresh_kernel s T -> returns (sched_init s) (fun s' => exists W, sched_ok s' (start_state s T) W).
Proof.
  intros Hf. pose proof (alone_rings s T Hf) as Hr0. pose proof Hf as (Hq & Htl & _ & Ht). unfold sched_init, on_list, rq0.
  assert (Hout : forall z, (forall p, z <> RunLink p) -> (forall t, z <> TimerLink t) -> outside (alone s T) z) by apply alone_outside.
  destruct (rings_new _ _ TimerList Hr0 (Hout TimerList ltac:(done) ltac:(done)) Htl) as (h1 & -> & Hr1 & Hd1). cbn [mbind outcome_bind lst with_lst].
  assert (Hsome : forall z, is_Some (lst s !! z) -> is_Some (h1 !! z)) by (intros z Hz; apply elem_of_dom; rewrite Hd1; by apply elem_of_dom).
  destruct (rings_new _ _ (RqLink 0) Hr1) as (h2 & -> & Hr2 & Hd2);
    [apply outside_insert; [by apply Hout|by intros [?|?%elem_of_nil]%elem_of_cons]|by apply Hsome, Hq|]. cbn [mbind outcome_bind].
  assert (Hsome2 : forall z, is_Some (lst s !! z) -> is_Some (h2 !! z)) by (intros z Hz%Hsome; apply elem_of_dom; rewrite Hd2; by apply elem_of_dom).
  destruct (Hq 0 ltac:(lia)) as ((r0 & Er0) & _ & _). rewrite (upd_rq_eq (with_lst h2 (with_lst h1 s)) 0 r0) by exact Er0. cbn [mbind outcome_bind]. set (s1 := with_rqs _ _).
  assert (Hlk : linking s T 1 s1 (<[RqLink 0 := []]> (<[TimerList := []]> (alone s T)))).
  { split; cbn [procs rqs timers lst current idleproc with_rqs with_lst s1]; [done|exact Hr2|by rewrite lookup_insert_eq|by rewrite lookup_insert_ne, lookup_insert_eq| | |].
    - intros z Hz. rewrite !lookup_insert_ne; [done| |]; intros <-; apply alone_Some in Hz as [_ [(p & ? & _)|(t & ? & _)]]; done.
    - intros q Hqr. destruct (Hq q Hqr) as (_ & HL & HR). split_and!; [|by apply Hsome2|].
      + apply outside_insert; [apply outside_insert; [by apply Hout|]|]; by intros [?|?%elem_of_nil]%elem_of_cons.
      + intros Hq1. split; [|by apply Hsome2]. apply outside_insert; [apply outside_insert; [by apply Hout|]|]; intros [[=]|?%elem_of_nil]%elem_of_cons; try done; lia.
    - intros q Hqr. destruct (decide (q = 0)) as [->|Hne]; [rewrite lookup_insert_eq; eexists _, _; split; [done|]; by intros _|].
      rewrite lookup_insert_ne by congruence. destruct (Hq q Hqr) as ([[n m] E] & _). exists n, m. split; [done|]. lia. }
  eapply returns_bind; [apply (for_range_returns (fun i s' => exists W, linking s T i s' W) (fun s' => exists W, linking s T 4 s' W));
    [by eexists|intros i s2 Hi (W & HW); apply (link_spec s T i s2 W HW); unfold NR_RQ in Hi; lia|intros s2 Hs2; exact Hs2]|].
  intros s2 (W & [H1 H2 H3 H4 H5 H6 H7]). assert (Hst : stage s T 0 s2 W).
  { split; try done; [lia|]. intros j Hj. destruct (H6 (Z.of_nat j) ltac:(lia)) as (Ho & Hs & _). split_and!; try done.
    destruct (H7 (Z.of_nat j) ltac:(lia)) as (n & m & E & Hm). exists n. rewrite E, Hm by lia. done. }
  go_mono (MLFQ_init_spec s T s2 W Hst). intros s3 (W3 & [G1 G2 G3 G4 G5 G6 G7]). destruct G1 as (E1 & E2 & E3 & E4). exists W3.
  split; cbn [start_state aqs atm aps acur aidle atids]; try done.
  - intros k l Hk. pose proof (lookup_lt_Some _ _ _ Hk) as Hlt. cbn in Hlt. destruct (G6 k Hlt) as [HW Hrq].
    assert (l = []) as -> by (by destruct k as [|[|[|[|]]]]; try injection Hk). split; [exact HW|exact Hrq].
  - intros p Hp _. apply G5, alone_Some. split; [done|]. left. by exists p.
  - intros t Htt _. apply G5, alone_Some. split; [done|]. right. by exists t.
  - intros t Htt. rewrite E2. by apply Ht.
Qed.

(** * Theorems *)

(** When the scheduler starts, the idle process runs and no other process can run. *)
Definition boot_procs (lcpu_count : Z) (s : sched) : Prop :=
  current s = idleproc s /\ (exists x, procs s !! idleproc s = Some x /\ pid x < lcpu_count) /\
  forall p x, procs s !! p = Some x -> rq x = None /\ (state x = PROC_RUNNABLE -> p = idleproc s).

Lemma start_holds lcpu_count s0 s T W : boot_procs lcpu_count s0 -> sched_ok s (start_state s0 T) W -> holds lcpu_count s (start_state s0 T).
Proof.
  intros (Hc & (x & Hx & Hp) & Hall) H. split_and!; [by exists W| |by intros y Hy%elem_of_nil]. unfold start_state. cbn [acur]. rewrite Hc.
  split; cbn [aqs atm aps acur aidle atids]; try done.
  - intros k l p Hk Hin. assert (l = []) as -> by (by destruct k as [|[|[|[|]]]]; try injection Hk). by apply elem_of_nil in Hin.
  - exists x. split; [done|by left].
  - by exists x.
  - intros p y q Hy Hq. destruct (Hall p y Hy) as [Hn _]. congruence.
  - intros p y Hy Hs Hne. destruct (Hall p y Hy) as [_ Hi]. by apply Hi in Hs.
  - by intros t p r Hin%elem_of_nil.
Qed.

Lemma srefines_holds lcpu_count os : forall s A, holds lcpu_count s A -> srefines lcpu_count os s A.
Proof.
  induction os as [|o os IH]; intros s A HH; cbn [srefines]; [done|]. intros Hpre. go_mono (exec_sop_ok lcpu_count s A o HH Hpre).
  intros s' HH'. pose proof HH' as ((W & H) & Hinv & _). cbv zeta. split_and!; [apply (so_procs _ _ _ H)|apply (so_cur _ _ _ H)| |by apply IH].
  intros p x Hx Hs. destruct (decide (p = acur (spec_sop lcpu_count o A))) as [|Hc]; [by left|].
  destruct (decide (p = aidle (spec_sop lcpu_count o A))) as [|Hi]; [right; by left|]. right. right. exact (ai_run _ _ _ _ Hinv p x Hx Hs Hc Hi id).
Qed.

(** C20. On one processor, after sched_init, any sequence of calls that keeps to the rules
    returns, without a failed assertion, and does to the processes what four queues and a
    list of ending times say: a process goes to the end of its queue, one level lower when
    its time is used up and otherwise on top, the first process of the first queue that
    is not empty runs next, and every timer wakes its process up when its ticks are over.
    No process that can run is lost. *)
Theorem sched_refines (lcpu_count : Z) (s0 : sched) (T : gset Z) (os : list sop) : fresh_kernel s0 T -> boot_procs lcpu_count s0 ->
  returns (sched_init s0) (fun s => procs s = procs s0 /\ srefines lcpu_count os s (start_state s0 T)).
Proof.
  intros Hf Hb. go_mono (sched_init_spec s0 T Hf). intros s (W & H). split; [apply (so_procs _ _ _ H)|]. apply srefines_holds. by eapply start_holds.
Qed.

(** A kernel with an idle process 1, and the processes 2 and 3, which have not started. *)
Definition new_proc (n : Z) : proc_struct := MkProc PROC_UNINIT n 0 false 0 None 0.
Definition self_links (l : list loc) : gmap loc (list_entry loc) := list_to_map ((fun z => (z, MkEntry z z)) <$> l).
Definition small_kernel : sched :=
  MkSched (<[1 := MkProc PROC_RUNNABLE 0 0 true 0 None 0]> (<[2 := new_proc 1]> {[3 := new_proc 2]}))
    (list_to_map [(0, MkRq 0 0); (1, MkRq 0 0); (2, MkRq 0 0); (3, MkRq 0 0)]) (list_to_map [(10, MkTimer 0 None); (11, MkTimer 0 None)])
    (self_links [TimerList; RqLink 0; RqLink 1; RqLink 2; RqLink 3; RunList 0; RunList 1; RunList 2; RunList 3; RunLink 1; RunLink 2; RunLink 3; TimerLink 10; TimerLink 11]) 1 1.

Lemma small_procs p x : procs small_kernel !! p = Some x -> p = 1 /\ x = MkProc PROC_RUNNABLE 0 0 true 0 None 0 \/ p = 2 /\ x = new_proc 1 \/ p = 3 /\ x = new_proc 2.
Proof. cbn [small_kernel procs]. intros [[<- <-]|[_ [[<- <-]|[_ [<- <-]%lookup_singleton_Some]]%lookup_insert_Some]]%lookup_insert_Some; tauto. Qed.

Lemma small_kernel_fresh : fresh_kernel small_kernel {[10; 11]}.
Proof.
  split_and!.
  - intros q Hq. assert (q = 0 \/ q = 1 \/ q = 2 \/ q = 3) as [->|[->|[->| ->]]] by lia; split_and!; vm_compute; by eexists.
  - vm_compute. by eexists.
  - intros p [x Hx]. destruct (small_procs p x Hx) as [[-> _]|[[-> _]|[-> _]]]; vm_compute; reflexivity.
  - intros t Ht. apply elem_of_union in Ht as [->%elem_of_singleton| ->%elem_of_singleton]; split; vm_compute; try reflexivity; by eexists.
Qed.

Lemma small_kernel_boot : boot_procs 1 small_kernel.
Proof.
  split_and!; [done|eexists; by split|]. intros p x Hx. by destruct (small_procs p x Hx) as [[-> ->]|[[-> ->]|[-> ->]]].
Qed.

Lemma sched_refines_witness : returns (sched_init small_kernel) (fun s => procs s = procs small_kernel /\
  srefines 1 [Wakeup 2; Wakeup 3; Schedule; Tick; Sleep 10 2; Schedule; Tick; Tick; Schedule; DelTimer 10; Block WT_TIMER; Schedule] s (start_state small_kernel {[10; 11]})).
Proof. exact (sched_refines 1 small_kernel _ _ small_kernel_fresh small_kernel_boot). Defined.

(** * How long a sleep takes *)

Fixpoint exec_all (lcpu_count : Z) (os : list sop) (s : sched) : outcome sched :=
  match os with
  | [] => Done s
  | o :: os => s ← exec_sop lcpu_count o s; exec_all lcpu_count os s
  end.
Definition spec_all (lcpu_count : Z) (os : list sop) (A : astate) : astate := foldl (fun A o => spec_sop lcpu_count o A) A os.

(** The callers keep to the rules along the sequence. *)
Fixpoint allowed (lcpu_count : Z) (os : list sop) (A : astate) : Prop :=
  match os with
  | [] => True
  | o :: os => spre lcpu_count o A /\ allowed lcpu_count os (spec_sop lcpu_count o A)
  end.

Fixpoint ticks (os : list sop) : Z := match os with [] => 0 | Tick :: os => 1 + ticks os | _ :: os => ticks os end.

Lemma exec_all_spec lcpu_count os : forall s A, holds lcpu_count s A -> allowed lcpu_count os A ->
  returns (exec_all lcpu_count os s) (fun s' => holds lcpu_count s' (spec_all lcpu_count os A)).
Proof.
  induction os as [|o os IH]; intros s A HH; cbn [exec_all allowed]; [intros _; by apply returns_done|]. intros [Hpre Hall].
  eapply returns_bind; [by apply (exec_sop_ok lcpu_count s A o)|]. intros s' HH'. by apply IH.
Qed.

Lemma in_ains t p r l y : y ∈ l \/ y = (t, (p, r)) -> y ∈ ains t p r l.
Proof.
  induction l as [|z l IH]; cbn [ains]; [intros [Hy%elem_of_nil| ->]; [done|left]|]. destruct (r <? z.2.2); [intros [Hy| ->]; [by right|left]|].
  intros [[->|Hy]%elem_of_cons| ->]; [left|right; apply IH; by left|right; apply IH; by right].
Qed.

Lemma atick_tm A : atm (atick A) = running (dec_tm (atm A)).
Proof.
  unfold atick, aproc_tick. destruct (aexpire_same (dec_tm (atm A)) A) as (_ & _ & Et & _).
  destruct (decide _); destruct (set_proc_same (with_resched true) (acur (aexpire (dec_tm (atm A)) A)) (aexpire (dec_tm (atm A)) A)) as (_ & E1 & _),
    (set_proc_same tick_proc (acur (aexpire (dec_tm (atm A)) A)) (aexpire (dec_tm (atm A)) A)) as (_ & E2 & _); congruence.
Qed.

(** A timer that is not deleted keeps running, and loses one tick with each tick. *)
Lemma timer_step lcpu_count o A t p r : (t, (p, r)) ∈ atm A -> o <> DelTimer t -> ticks [o] < r -> (t, (p, r - ticks [o])) ∈ atm (spec_sop lcpu_count o A).
Proof.
  intros Hin Ho Hr. destruct o; cbn [spec_sop ticks] in *; rewrite ?Z.sub_0_r.
  - by destruct (awakeup_same p0 A) as (-> & _).
  - by rewrite aschedule_tm.
  - rewrite atick_tm. apply list_elem_of_filter. split; [cbn; lia|]. apply list_elem_of_fmap. by exists (t, (p, r)).
  - unfold asleep. destruct (time =? 0); [done|]. cbn [set_tm atm]. apply in_ains. by left.
  - apply list_elem_of_filter. split; [cbn; congruence|done].
  - by destruct (set_proc_same (with_state PROC_SLEEPING w) (acur A) A) as (_ & -> & _).
  - by destruct (set_proc_same (with_state PROC_ZOMBIE 0) (acur A) A) as (_ & -> & _).
Qed.

Lemma ticks_nonneg os : 0 <= ticks os.
Proof. induction os as [|[] os IH]; cbn; lia. Qed.

Lemma ticks_cons o os : ticks (o :: os) = ticks [o] + ticks os.
Proof. destruct o; cbn; lia. Qed.

Lemma timer_run lcpu_count os : forall A t p r, (t, (p, r)) ∈ atm A -> DelTimer t ∉ os -> ticks os < r -> (t, (p, r - ticks os)) ∈ atm (spec_all lcpu_count os A).
Proof.
  induction os as [|o os IH]; intros A t p r Hin Hno Hr; [by rewrite Z.sub_0_r|]. rewrite ticks_cons in Hr |- *. pose proof (ticks_nonneg os).
  rewrite elem_of_cons in Hno. replace (r - (ticks [o] + ticks os)) with (r - ticks [o] - ticks os) by lia.
  apply IH; [|tauto|lia]. apply timer_step; [done|intros ->; tauto|lia].
Qed.

(** A process that can run stays so while others are woken up, and one that is woken up
    can run. *)
Definition can_run (A : astate) (p : Z) : Prop := exists x, aps A !! p = Some x /\ state x = PROC_RUNNABLE.

Lemma can_run_set f p A q : (forall x, state x = PROC_RUNNABLE -> state (f x) = PROC_RUNNABLE) -> can_run A q -> can_run (set_proc f p A) q.
Proof. intros Hf (x & Hx & Hs). apply (set_proc_keeps f p A q x (fun z => state z = PROC_RUNNABLE)); auto. Qed.

Lemma can_run_enqueue p A q : can_run A q -> can_run (aenqueue p A) q.
Proof.
  intros (x & Hx & Hs). unfold aenqueue. destruct (aps A !! p) as [y|] eqn:Ey; [|by exists x]. unfold can_run. cbn.
  destruct (decide (q = p)) as [->|Hne]; [rewrite lookup_insert_eq; eexists; split; [done|]; cbn; congruence|]. rewrite lookup_insert_ne by congruence. by exists x.
Qed.

Lemma can_run_awakeup p A q : can_run A q -> can_run (awakeup p A) q.
Proof.
  intros Hq. unfold awakeup. destruct (aps A !! p); [|done]. destruct (decide _); [done|]. cbv zeta.
  pose proof (can_run_set (with_state PROC_RUNNABLE 0) p A q ltac:(done) Hq) as H1. destruct (decide _); [done|]. by apply can_run_enqueue.
Qed.

Lemma awakeup_can_run p A : is_Some (aps A !! p) -> can_run (awakeup p A) p.
Proof.
  intros [x Hx]. unfold awakeup. rewrite Hx. destruct (decide _); [by exists x|]. cbv zeta.
  assert (H1 : can_run (set_proc (with_state PROC_RUNNABLE 0) p A) p) by (eexists; split; [by apply lookup_set_proc_eq|done]). destruct (decide _); [done|].
  by apply can_run_enqueue.
Qed.

Lemma awakeup_dom p A q : is_Some (aps A !! q) -> is_Some (aps (awakeup p A) !! q).
Proof.
  intros Hq. unfold awakeup. destruct (aps A !! p) as [x|] eqn:Ex; [|done]. destruct (decide _); [done|]. cbv zeta.
  assert (H1 : is_Some (aps (set_proc (with_state PROC_RUNNABLE 0) p A) !! q)) by (destruct Hq as [y Hy];
    destruct (set_proc_keeps (with_state PROC_RUNNABLE 0) p A q y (fun _ => True)) as (z & Hz & _); try done; by eexists).
  destruct (decide _); [done|]. unfold aenqueue. destruct (aps (set_proc _ p A) !! p); [|done]. cbn.
  destruct (decide (q = p)) as [->|Hne]; [rewrite lookup_insert_eq; by eexists|]. by rewrite lookup_insert_ne by congruence.
Qed.

Lemma awake_all_can_run l : forall A q, can_run A q \/ (is_Some (aps A !! q) /\ exists y, y ∈ l /\ y.2.1 = q) -> can_run (awake_all l A) q.
Proof.
  induction l as [|z l IH]; intros A q Hq; [destruct Hq as [|(_ & y & Hy%elem_of_nil & _)]; done|]. cbn [awake_all foldl]. apply IH.
  destruct Hq as [Hq|(Hs & y & [->|Hy]%elem_of_cons & <-)]; [left; by apply can_run_awakeup|left; by apply awakeup_can_run|right].
  split; [by apply awakeup_dom|by exists y].
Qed.

(** The last tick of a timer. *)
Lemma last_tick lcpu_count A t p : ainv lcpu_count (acur A) none A -> NoDup (atm A).*1 -> (t, (p, 1)) ∈ atm A -> can_run (atick A) p /\ (t ∉ (atm (atick A)).*1).
Proof.
  intros Hinv Hnd Hin. split.
  - destruct (ai_timer _ _ _ _ Hinv t p 1 Hin) as (_ & x & Hx & _). assert (H1 : can_run (aexpire (dec_tm (atm A)) A) p).
    { apply awake_all_can_run. right. split; [by eexists|]. exists (t, (p, 0)). split; [|done]. apply list_elem_of_filter. split; [done|]. apply list_elem_of_fmap. by exists (t, (p, 1)). }
    unfold atick, aproc_tick. destruct (decide _); apply can_run_set; try done. intros y Hy. unfold tick_proc. by destruct (_ =? 0).
  - rewrite atick_tm. intros ((u & q & r) & -> & [Hne (y & Ey & Hy)%list_elem_of_fmap]%list_elem_of_filter)%list_elem_of_fmap. injection Ey as E1 E2 E3.
    cbn in *. assert (y = (y.1, (p, 1))) as Ey'.
    { apply list_elem_of_lookup in Hin as (i & Hi), Hy as (j & Hj). assert (i = j) as <-; [|rewrite Hi in Hj; by injection Hj as <-].
      apply (NoDup_lookup (atm A).*1 i j u); [done|by rewrite list_lookup_fmap, Hi|rewrite list_lookup_fmap, Hj; cbn; congruence]. }
    rewrite Ey' in E3. cbn in E3. lia.
Qed.

Lemma atick_tids A : atids (atick A) = atids A.
Proof.
  unfold atick, aproc_tick. set (B := aexpire (dec_tm (atm A)) A). assert (Eb : atids B = atids A) by apply aexpire_same.
  destruct (decide _); [destruct (set_proc_same (with_resched true) (acur B) B) as (_ & _ & _ & _ & ->)|destruct (set_proc_same tick_proc (acur B) B) as
    (_ & _ & _ & _ & ->)]; done.
Qed.

Lemma spec_all_app lcpu_count os1 os2 A : spec_all lcpu_count (os1 ++ os2) A = spec_all lcpu_count os2 (spec_all lcpu_count os1 A).
Proof. apply foldl_app. Qed.

Lemma allowed_app lcpu_count os1 os2 : forall A, allowed lcpu_count (os1 ++ os2) A <-> allowed lcpu_count os1 A /\ allowed lcpu_count os2 (spec_all lcpu_count os1 A).
Proof. induction os1 as [|o os1 IH]; intros A; cbn [app allowed spec_all foldl]; [tauto|]. rewrite IH. unfold spec_all. tauto. Qed.

(** C28. On one processor, a sleep takes exactly its time: whatever else happens, when all ticks but one have passed
    the timer is still in the list, and with the last tick it leaves the list and the
    process that went to sleep can run. *)
Theorem sleep_exact (lcpu_count : Z) (s0 : sched) (T : gset Z) (before after : list sop) (t time : Z) : fresh_kernel s0 T -> boot_procs lcpu_count s0 ->
  allowed lcpu_count (before ++ Sleep t time :: after) (start_state s0 T) -> DelTimer t ∉ after -> ticks after = time - 1 ->
  returns (s ← sched_init s0; exec_all lcpu_count (before ++ Sleep t time :: after) s) (fun s1 => list_empty (TimerLink t) (lst s1) = Done false /\
    returns (run_timer_list lcpu_count s1) (fun s2 => list_empty (TimerLink t) (lst s2) = Done true /\
      exists x, procs s2 !! acur (spec_all lcpu_count before (start_state s0 T)) = Some x /\ state x = PROC_RUNNABLE)).
Proof.
  intros Hf Hb Hall Hno Hticks. eapply returns_bind; [by apply (sched_init_spec s0 T)|]. intros s (W & H).
  go_mono (exec_all_spec lcpu_count _ s _ (start_holds _ _ _ _ _ Hb H) Hall). intros s1 HH. pose proof HH as ((W1 & H1) & Hinv1 & Hpos1).
  apply allowed_app in Hall as [_ [(_ & Hid & _ & Htime) _]]. rewrite spec_all_app in *. set (A := spec_all lcpu_count before (start_state s0 T)) in *. cbn
    [spec_all foldl] in *. fold (spec_all lcpu_count after (spec_sop lcpu_count (Sleep t time) A)) in *. set (A1 := spec_all lcpu_count after _) in *.
  assert (Hin : (t, (acur A, 1)) ∈ atm A1). { replace 1 with (time - ticks after) by lia. apply timer_run; [|done|lia].
    cbn [spec_sop]. unfold asleep. pose proof (ticks_nonneg after). destruct (Z.eqb_spec time 0); [lia|]. cbn [set_tm atm]. apply in_ains. by right. }
  destruct (ai_timer _ _ _ _ Hinv1 _ _ _ Hin) as (Hid1 & _). split;
    [eapply rings_inside; [apply (so_rings _ _ _ H1)|apply (so_list _ _ _ H1)|]; apply list_elem_of_fmap; exists t; split; [done|]; apply list_elem_of_fmap;
    by exists (t, (acur A, 1))|].
  destruct (last_tick lcpu_count A1 t (acur A) Hinv1 (tm_nodup _ _ _ H1) Hin) as [Hrun Hout]. go_mono (tick_spec lcpu_count s1 A1 W1 H1 Hinv1 Hpos1). intros s2 ((W2 & H2) & _). split.
  - assert (Hid2 : t ∈ atids (atick A1)) by (by rewrite atick_tids).
    by rewrite (rings_empty _ _ _ _ (so_rings _ _ _ H2) (so_timer _ _ _ H2 t Hid2 Hout)).
  - rewrite (so_procs _ _ _ H2). exact Hrun.
Qed.

Lemma sleep_exact_witness :
  returns (s ← sched_init small_kernel; exec_all 1 ([Wakeup 2; Wakeup 3; Schedule] ++ Sleep 10 3 :: [Schedule; Tick; Tick; Schedule]) s)
    (fun s1 => list_empty (TimerLink 10) (lst s1) = Done false /\
    returns (run_timer_list 1 s1) (fun s2 => list_empty (TimerLink 10) (lst s2) = Done true /\
      exists x, procs s2 !! acur (spec_all 1 [Wakeup 2; Wakeup 3; Schedule] (start_state small_kernel {[10; 11]})) = Some x /\ state x = PROC_RUNNABLE)).
Proof.
  apply (sleep_exact 1 small_kernel {[10; 11]} [Wakeup 2; Wakeup 3; Schedule] [Schedule; Tick; Tick; Schedule] 10 3 small_kernel_fresh small_kernel_boot).
  - refine (conj _ (conj _ (conj I (conj _ (conj I (conj I (conj I (conj I I)))))))).
    + exists (new_proc 1). vm_compute. split; [reflexivity|]. split; intros [=].
    + exists (new_proc 2). vm_compute. split; [reflexivity|]. split; intros [=].
    + split; [vm_compute; intros [=]|]. split; [vm_compute; reflexivity|]. split; [vm_compute; intros Hn; inversion Hn|lia].
  - intros Hn. repeat (apply elem_of_cons in Hn as [[=]|Hn]). by apply elem_of_nil in Hn.
  - reflexivity.
Defined.
